(* ===== verification/_CoqProject ===== *)
-Q . S2P
Prelude.v
Exceptions.v
Text.v
Intrinsics.v
Names.v
Merkle.v
Assets.v
Timestamps.v
Chainbase.v
TransactionQueue.v
Authority.v
AuthorityChecker.v
UsageAccumulator.v
ResourceLimits.v
ProducerSchedule.v
Raw.v
Codecs.v
Hex.v
BlockHeader.v
Transactions.v
ChainConfig.v
ProtocolFeatures.v
ChainObjects.v
Permissions.v
NativeActions.v
Authorization.v
TransactionChecks.v
TransactionContext.v
Billing.v
BillingTimer.v
ActionExecution.v
ExecutionOrder.v
Deferred.v
PushTransaction.v
PushReceipts.v
ContractTables.v
TableInvariants.v
TableRefinement.v
SecondaryOrder.v
BlockHeaderState.v
Liveness.v
ForkDatabase.v
ForkSwitch.v
ForkSync.v
