(* ===== verification/Prelude.v ===== *)
(** * A verification of the Inery chain library

    Inery is a blockchain node.  Its state is an object database with undo
    stacks; blocks of transactions change it; block producers take turns in
    producing blocks, and a block that two thirds of them have confirmed
    cannot be undone any more.  This development models the parts of the chain
    library (src/libraries/chain), of chainbase and of fc that decide what the
    state is and which blocks and transactions are accepted, as Rocq functions
    with the names of the source, and proves what they promise.

    ** How the parts fit together

    A block header arrives: its bytes are read ([Raw], [Codecs],
    [BlockHeader]), the state of the header is computed from that of its
    predecessor and its producer and signatures are checked
    ([BlockHeaderState], over [ProducerSchedule], [Authority], [Merkle] and
    [ProtocolFeatures]), and the block joins the tree of blocks
    ([ForkDatabase]).  Its transactions ([Transactions]) are checked against
    duplicates, their reference block and the lists of the node
    ([TransactionChecks]) and authorized against the permissions of the
    accounts ([Authorization] over [Permissions] and [AuthorityChecker]).
    Their actions run, notify accounts and send inline actions
    ([ActionExecution]), changing the tables of the system ([NativeActions],
    [ChainObjects] over [Chainbase]) and of contracts ([ContractTables]); the
    accounts that authorized them pay ([TransactionContext] over
    [ResourceLimits] and [UsageAccumulator]).  Contracts store transactions
    for later ([Deferred]).  A transaction of either kind gets a receipt in the
    block being built, or is taken back ([PushTransaction]).  What could not be
    applied waits in the [TransactionQueue].  Whole blocks are applied, taken
    back and made irreversible as the best branch of the tree demands
    ([ForkSwitch]).

    ** Files, sources and theorems

    - [Exceptions]: exceptions.hpp of the chain library and the macros that
      rethrow.  The hierarchy is a tree with distinct codes.
    - [Text]: characters, decimal text, and Boost's string routines as a class
      with laws.
    - [Intrinsics]: whitelisted_intrinsics.cpp.  The multimap by hash refines a
      set of names.
    - [Names]: name.hpp and name.cpp.  Packing and printing round-trip.
    - [Merkle]: merkle.cpp, incremental_merkle.hpp.  The incremental tree has
      the root of the tree built at once.
    - [Assets]: safe.hpp, symbol.hpp, asset.cpp.  Printing and parsing
      round-trip; arithmetic is exact or throws.
    - [Timestamps]: block_timestamp.hpp, fc/time.hpp.
    - [Chainbase]: chainbase.hpp and chainbase.cpp.  An index with its undo
      stack refines a table that saves copies of itself, up to the abort when
      a unique key is violated; squash follows its table; all indices stay in
      step.
    - [TransactionQueue]: unapplied_transaction_queue.hpp.  The queue refines
      three first-in first-out queues.
    - [Authority], [AuthorityChecker]: authority.hpp, authority_checker.hpp.
      A yes of the checker is justified, and it is exact on hierarchies that
      can be ranked below the recursion limit.
    - [UsageAccumulator], [ResourceLimits]: resource_limits.cpp and its
      private header.  Totals, limits, billing and elastic limits.
    - [ProducerSchedule]: producer_schedule.hpp.
    - [Raw], [Codecs], [Hex]: fc/io/raw.hpp, varint.hpp, datastream.hpp, the
      serialized structures, hexadecimal text.  Round trips by instance search
      for the class [Lawful].
    - [BlockHeader]: block_header.hpp and block_header.cpp.
    - [Transactions]: action.hpp, transaction.hpp, transaction.cpp.
    - [ProtocolFeatures]: protocol_feature_manager.cpp.  The linked list of
      activations refines a log; popping blocks undoes activations.
    - [ChainObjects], [Permissions], [NativeActions], [Authorization]: the
      objects of the state, authorization_manager.cpp, inery_contract.cpp and
      the accounts of the genesis block.  The permissions of an account are a
      tree in every reachable state, no link begins to dangle once the feature
      against it is active, a transaction that passes is authorized, and one
      that does not fails in a defined way.
    - [ChainConfig]: chain_config.cpp, genesis_state.cpp.  The check of a
      configuration is exact; comparison and serialization.
    - [TransactionChecks]: the checks of controller.cpp and
      transaction_context.cpp before a transaction runs.  No replay within the
      lifetime of a transaction; the reference block is the newest with its
      number; the merges of sorted lists are exact.
    - [TransactionContext], [Billing], [BillingTimer]:
      transaction_context.cpp and platform_timer_posix.cpp.  Once the checks
      passed, billing a transaction with net usage and time fails for memory
      only; the billed time is the running time without the pauses.
    - [ActionExecution], [ExecutionOrder]: the part of apply_context.cpp that
      runs actions.  Every action of a transaction and every action they create
      runs once and after its creator, execution ends, and an inline action
      needs the code permission of its sender.
    - [Deferred]: deferred transactions in apply_context.cpp and controller.cpp.
      Their memory is accounted for at any time, the activation of
      REPLACE_DEFERRED gives back what replaced ones cost, and storing one
      needs the code permission of the sender.
    - [PushTransaction], [PushReceipts]: push_transaction,
      push_scheduled_transaction and apply_onerror of controller.cpp.  The
      usage of a block is what its receipts say; a deferred transaction is
      retired with one receipt or left alone, and an expired one can always be
      retired.
    - [ContractTables], [TableInvariants], [TableRefinement],
      [SecondaryOrder]: contract_table_objects.hpp and the functions of
      apply_context.hpp and apply_context.cpp on them.  Counts, keys,
      iterators and billed memory stay consistent; primary rows refine ordered
      maps; secondary indices follow the order of their keys, floating point
      numbers included.
    - [BlockHeaderState]: block_header_state.cpp.  The invariant of a chain of
      headers, the quorum behind an irreversible block, and the agreement of
      producing and validating a header.  [Liveness]: two rounds of more than
      two thirds of the producers make a block irreversible.
    - [ForkDatabase]: fork_database.cpp.  The tree invariant, the choice of the
      head, and the branches between blocks.
    - [ForkSwitch], [ForkSync]: push_block, maybe_switch_forks, pop_block,
      commit_block, abort_block and log_irreversible of controller.cpp.  The
      state, the features, the reversible blocks, the block log and the fork
      database stay in step; a push that fails restores them; a push ends.
      This is shown for nodes that are neither in irreversible mode nor
      replaying, trust no single producer and do not force the checks of blocks
      that they validated lightly ([ForkSync.ordinary_node]).

    ** Conventions

    A fixed-width integer is a [Z]; [wrap] and [swrap] stand where the C++
    type of an expression makes a conversion happen.  Code that may throw
    returns an [outcome], whose errors are the exceptions of [Exceptions];
    [undefined_behaviour] is one of them, and a theorem that an operation
    returns normally excludes it.  Code outside the repository is an argument:
    hashes, signature recovery, compression, the clock, Boost's string
    routines and the order of equal keys in a multimap; where a theorem needs
    a law of such an argument the law is a class or a hypothesis with an
    instance that satisfies it.

    A loop that is not structural gets fuel: as many rounds as there are
    permissions for the walk up a hierarchy, as there are blocks for the
    walks of the fork database, as there are recursion levels for the
    authority checker, as there are transactions for the queue, as there are
    corrections of memory for their return.  The execution of actions has fuel
    for the depth of inline actions and for the notifications of one action.
    Theorems show that the fuel is never used up in a well-formed state; those
    about the results of an execution hold for any fuel with which it ends, and
    [ExecutionOrder.execution_ends] gives one.

    ** Not modelled

    - What a block does to the state as a whole: [ForkSwitch] takes it as an
      argument, while [PushTransaction] models the transactions of a block one
      by one.  The two are not joined: signatures of a block's transactions are
      recovered in other threads, and contracts are arguments.
    - The start and the end of a block in controller.cpp: activating and
      preactivating features, promoting a proposed schedule, the onblock
      transaction, update_producers_authority and finalize_block.  The
      components they call are modelled.
    - Starting a node: the replay of the block log, snapshots, the check of the
      database header.  It is mostly input and output.
    - The block log and the files of the fork database: files.
    - abi_serializer and the variants and JSON of fc, which show data to
      clients and do not change the state.
    - The WebAssembly engines, validators and compilers (ine-vm, wabt,
      wasm-jit, most of softfloat) and the intrinsics, which copy memory of a
      contract into calls of the modelled functions: code of a contract is an
      argument of [ActionExecution].
    - The plugins and programs, which move messages between sockets, files and
      the chain library.
    - Threads and locks, shared memory, logging, the network code of fc.
    - Cryptographic primitives, which are arguments. *)

From Stdlib Require Export ZArith Lia.
From Stdlib Require Import Sorted.
From stdpp Require Export base tactics list numbers gmap sets option.

#[export] Set Default Goal Selector "!".
Open Scope Z_scope.

(** ** Machine integers

    Every fixed-width C++ integer is a [Z]; [wrap w] is the conversion to an
    unsigned [w]-bit type and [swrap w] the conversion to a signed one.  The
    models write a conversion wherever the C++ type of an expression makes
    one happen. *)

Declare Scope int_scope.
Delimit Scope int_scope with int.

Definition wrap (w z : Z) : Z := z mod 2 ^ w.

Definition swrap (w z : Z) : Z := (z + 2 ^ (w - 1)) mod 2 ^ w - 2 ^ (w - 1).

Abbreviation u8 := (wrap 8).
Abbreviation u16 := (wrap 16).
Abbreviation u32 := (wrap 32).
Abbreviation u64 := (wrap 64).
Abbreviation u128 := (wrap 128).
Abbreviation i32 := (swrap 32).
Abbreviation i64 := (swrap 64).

Abbreviation UINT32_MAX := (2 ^ 32 - 1).
Abbreviation INT32_MIN := (- 2 ^ 31).
Abbreviation INT32_MAX := (2 ^ 31 - 1).
Abbreviation UINT64_MAX := (2 ^ 64 - 1).
Abbreviation INT64_MAX := (2 ^ 63 - 1).
Abbreviation INT64_MIN := (- 2 ^ 63).

(** [is_uint w z]: [z] is representable in an unsigned [w]-bit integer. *)
Definition is_uint (w z : Z) : Prop := 0 <= z < 2 ^ w.
Definition is_sint (w z : Z) : Prop := - 2 ^ (w - 1) <= z < 2 ^ (w - 1).

Create HintDb ints.

Lemma wrap_range w z : 0 <= w -> is_uint w (wrap w z).
Proof. intros Hw. apply Z.mod_pos_bound, Z.pow_pos_nonneg; lia. Qed.

Lemma wrap_id w z : is_uint w z -> wrap w z = z.
Proof. intros H. by apply Z.mod_small. Qed.

Lemma wrap_wrap w z : 0 <= w -> wrap w (wrap w z) = wrap w z.
Proof. intros. by apply wrap_id, wrap_range. Qed.

Lemma swrap_id w z : is_sint w z -> 0 < w -> swrap w z = z.
Proof.
  unfold swrap, is_sint. intros H Hw.
  assert (2 ^ w = 2 * 2 ^ (w - 1)) as E.
  { rewrite <- Z.pow_succ_r by lia. f_equal. lia. }
  rewrite Z.mod_small; lia.
Qed.

Lemma i64_id z : INT64_MIN <= z <= INT64_MAX -> i64 z = z.
Proof. intros H. apply swrap_id; [unfold is_sint|]; lia. Qed.

Lemma wrap_0 w : wrap w 0 = 0.
Proof. unfold wrap. by rewrite Zmod_0_l. Qed.

Lemma is_uint_land w z : 0 <= w -> is_uint w z <-> Z.land z (Z.ones w) = z.
Proof.
  intros Hw. rewrite Z.land_ones by done. split.
  - intros H. by apply Z.mod_small.
  - intros <-. apply Z.mod_pos_bound, Z.pow_pos_nonneg; lia.
Qed.

Lemma lor_range w a b : 0 <= w -> is_uint w a -> is_uint w b -> is_uint w (Z.lor a b).
Proof. intros Hw. rewrite !is_uint_land by done. rewrite Z.land_lor_distr_l. congruence. Qed.

Lemma land_range w a b : 0 <= w -> is_uint w a -> is_uint w (Z.land a b).
Proof.
  intros Hw. rewrite !is_uint_land by done. intros H.
  by rewrite <- Z.land_assoc, (Z.land_comm b), Z.land_assoc, H.
Qed.

(** Disjoint bit fields: the or of a field and a shifted one is their sum. *)
Lemma lor_shiftl_add k a b : 0 <= k -> is_uint k a -> Z.lor a (Z.shiftl b k) = a + b * 2 ^ k.
Proof.
  intros Hk Ha. rewrite <- Z.shiftl_mul_pow2 by done.
  assert (Z.land a (Z.shiftl b k) = 0) as H0.
  { apply is_uint_land in Ha; [|done]. rewrite <- Ha. apply Z.bits_inj'. intros n Hn.
    rewrite !Z.land_spec, Z.shiftl_spec, Z.bits_0 by done.
    destruct (decide (n < k)).
    - by rewrite (Z.testbit_neg_r b), andb_false_r by lia.
    - by rewrite Z.ones_spec_high, andb_false_r by lia. }
  rewrite (Z.add_nocarry_lxor _ _ H0). symmetry. by apply Z.lxor_lor.
Qed.

#[export] Hint Resolve wrap_range lor_range land_range : ints.

(** ** Results and the two monads

    [result E A] is what a C++ function that may throw returns.  [stateful
    E S A] threads the mutable state of an object; an exception keeps the
    state reached at the throw, because C++ does not undo the assignments a
    function made before it threw. *)

Inductive result (E A : Type) :=
  | Ok (a : A)
  | Err (e : E).
Arguments Ok {E A} a.
Arguments Err {E A} e.

#[export] Instance result_ret {E} : MRet (result E) := fun A a => Ok a.
#[export] Instance result_bind {E} : MBind (result E) :=
  fun A B f m => match m with Ok a => f a | Err e => Err e end.
#[export] Instance result_fmap {E} : FMap (result E) :=
  fun A B f m => match m with Ok a => Ok (f a) | Err e => Err e end.
#[export] Instance result_eq_dec {E A} `{EqDecision E, EqDecision A} :
  EqDecision (result E A).
Proof. solve_decision. Defined.

Definition is_Ok {E A} (r : result E A) : bool :=
  match r with Ok _ => true | Err _ => false end.

(** INE_ASSERT( b, e, ... ) *)
Definition ine_assert {E} (b : bool) (e : E) : result E unit :=
  if b then Ok tt else Err e.

Lemma ine_assert_ok {E} b (e : E) u : ine_assert b e = Ok u <-> b = true.
Proof. destruct b, u; by split. Qed.

Lemma ine_assert_err {E} b (e e' : E) : ine_assert b e = Err e' -> e' = e.
Proof. destruct b; [done|]. by intros [= <-]. Qed.

Lemma bind_err {E A B} (m : result E A) (f : A -> result E B) e :
  m ≫= f = Err e -> m = Err e \/ exists a, m = Ok a /\ f a = Err e.
Proof. destruct m as [a|e']; cbn; [eauto|]. intros [= <-]. by left. Qed.

Lemma bind_ok {E A B} (m : result E A) (f : A -> result E B) b :
  m ≫= f = Ok b <-> exists a, m = Ok a /\ f a = Ok b.
Proof.
  destruct m as [a|e]; split; [|by intros (? & [= ->] & H)|done|by intros (? & ? & _)].
  intros H. by exists a.
Qed.

Definition stateful (E S A : Type) : Type := S -> S * result E A.

Definition st_ret {E S A} (a : A) : stateful E S A := fun s => (s, Ok a).
Definition st_bind {E S A B} (m : stateful E S A) (f : A -> stateful E S B) :
  stateful E S B :=
  fun s => match m s with
           | (s', Ok a) => f a s'
           | (s', Err e) => (s', Err e)
           end.
Definition st_throw {E S A} (e : E) : stateful E S A := fun s => (s, Err e).
Definition st_get {E S} : stateful E S S := fun s => (s, Ok s).
Definition st_put {E S} (s : S) : stateful E S unit := fun _ => (s, Ok tt).
Definition st_lift {E S A} (r : result E A) : stateful E S A := fun s => (s, r).

#[export] Instance stateful_ret {E S} : MRet (stateful E S) := fun A => st_ret.
#[export] Instance stateful_bind {E S} : MBind (stateful E S) :=
  fun A B f m => st_bind m f.

(** Equations that run a program on a given state. *)
Lemma st_get_bind {E S A} (f : S -> stateful E S A) s : (st_get ≫= f) s = f s s.
Proof. done. Qed.

Lemma st_assert_bind {E S A} b (e : E) (m : stateful E S A) s :
  (st_lift (ine_assert b e) ;; m) s = if b then m s else (s, Err e).
Proof. by destruct b. Qed.

Lemma st_ok_bind {E S A B} (a : A) (f : A -> stateful E S B) s :
  (st_lift (Ok a) ≫= f) s = f a s.
Proof. done. Qed.

Lemma st_err_bind {E S A B} (e : E) (f : A -> stateful E S B) s :
  (st_lift (Err e) ≫= f) s = (s, Err e).
Proof. done. Qed.

(** [st_wp m s Q]: running [m] from [s] ends in a state and a result, normal
    or exceptional, that satisfy [Q]. *)
Definition st_wp {E S A} (m : stateful E S A) (s : S) (Q : S -> result E A -> Prop) : Prop :=
  Q (m s).1 (m s).2.

Lemma st_wp_bind {E S A B} (m : stateful E S A) (f : A -> stateful E S B) s Q :
  st_wp m s (fun s' r => match r with
                         | Ok a => st_wp (f a) s' Q
                         | Err e => Q s' (Err e)
                         end) ->
  st_wp (m ≫= f) s Q.
Proof.
  unfold st_wp, mbind, stateful_bind, st_bind. by destruct (m s) as [s' [a|e]].
Qed.

Lemma st_wp_mono {E S A} (m : stateful E S A) s (Q Q' : S -> result E A -> Prop) :
  st_wp m s Q -> (forall s' r, Q s' r -> Q' s' r) -> st_wp m s Q'.
Proof. unfold st_wp. auto. Qed.

(** ** Tactics *)

(** Split a chain of binds that is known to have returned normally. *)
Ltac invert_ok :=
  repeat match goal with
  | H : mret _ = Ok _ |- _ => injection H as H
  | H : Ok _ = Ok _ |- _ => injection H as H
  | H : Err _ = Ok _ |- _ => discriminate H
  | H : Ok _ = Err _ |- _ => discriminate H
  | H : _ ≫= _ = Ok _ |- _ =>
      let x := fresh "x" in let H1 := fresh H in
      apply bind_ok in H as (x & H1 & H)
  | H : ine_assert _ _ = Ok _ |- _ => apply ine_assert_ok in H
  | x : unit |- _ => destruct x
  end.

(** Turn the boolean tests of the code into propositions. *)
Ltac bool_to_prop :=
  repeat match goal with
  | H : (_ && _) = true |- _ => apply andb_prop in H as [? ?]
  | H : (_ || _) = false |- _ => apply orb_false_elim in H as [? ?]
  | H : negb _ = true |- _ => apply negb_true_iff in H
  | H : negb _ = false |- _ => apply negb_false_iff in H
  | H : (_ <=? _) = true |- _ => apply Z.leb_le in H
  | H : (_ <=? _) = false |- _ => apply Z.leb_gt in H
  | H : (_ <? _) = true |- _ => apply Z.ltb_lt in H
  | H : (_ <? _) = false |- _ => apply Z.ltb_ge in H
  | H : (_ >? _) = true |- _ => rewrite Z.gtb_ltb in H; apply Z.ltb_lt in H
  | H : (_ >? _) = false |- _ => rewrite Z.gtb_ltb in H; apply Z.ltb_ge in H
  | H : (_ >=? _) = true |- _ => rewrite Z.geb_leb in H; apply Z.leb_le in H
  | H : (_ >=? _) = false |- _ => rewrite Z.geb_leb in H; apply Z.leb_gt in H
  | H : (_ =? _) = true |- _ => apply Z.eqb_eq in H
  | H : (_ =? _) = false |- _ => apply Z.eqb_neq in H
  end.

(** Case split on every boolean test that blocks the goal. *)
Ltac case_bool :=
  match goal with
  | |- context [if ?b then _ else _] => let H := fresh "Hb" in destruct b eqn:H
  end; bool_to_prop.

(** ** Lists *)

Lemma NoDup_fmap_inj_on {A B} (f : A -> B) (l : list A) x y :
  NoDup (f <$> l) -> x ∈ l -> y ∈ l -> f x = f y -> x = y.
Proof.
  intros Hnd [i Hi]%list_elem_of_lookup [j Hj]%list_elem_of_lookup Hf.
  assert (i = j) as ->; [|congruence].
  apply (NoDup_lookup (f <$> l) i j (f x)); [done| |].
  - by rewrite list_lookup_fmap, Hi.
  - rewrite list_lookup_fmap, Hj. simpl. by rewrite Hf.
Qed.

Lemma list_filter_all {A} (P : A -> Prop) `{!forall x, Decision (P x)} l :
  Forall P l -> filter P l = l.
Proof. induction 1 as [|x l Hx Hl IH]; [done|]. by rewrite filter_cons_True, IH. Qed.

Lemma list_filter_none {A} (P : A -> Prop) `{!forall x, Decision (P x)} l :
  Forall (fun x => ~ P x) l -> filter P l = [].
Proof. induction 1 as [|x l Hx Hl IH]; [done|]. by rewrite filter_cons_False. Qed.

Lemma StronglySorted_lookup {A} (R : A -> A -> Prop) l i j x y :
  StronglySorted R l -> l !! i = Some x -> l !! j = Some y -> (i < j)%nat -> R x y.
Proof.
  intros Hs. revert i j. induction Hs as [|z l Hs IH Hz]; intros i j Hx Hy Hij; [done|].
  destruct j as [|j]; [lia|]. destruct i as [|i]; [|by apply (IH i j); [| |lia]].
  injection Hx as ->. simpl in Hy. apply list_elem_of_lookup_2 in Hy.
  by apply (proj1 (list.Forall_forall _ l) Hz).
Qed.

(** [v.back()] of a vector. *)
Definition back {A} (l : list A) : option A := l !! (length l - 1)%nat.

Lemma back_snoc {A} (l : list A) x : back (l ++ [x]) = Some x.
Proof.
  unfold back. rewrite length_app. simpl. replace (length l + 1 - 1)%nat with (length l) by lia.
  by apply list_lookup_middle.
Qed.

(** ** Strict total orders given by a boolean comparison

    What the ordered containers and the sortedness checks of the code rely
    on when they are handed an [operator<]. *)

Class StrictTotal {A} (lt : A -> A -> bool) : Prop := {
  lt_irrefl x : lt x x = false;
  lt_trans x y z : lt x y = true -> lt y z = true -> lt x z = true;
  lt_total x y : lt x y = true \/ x = y \/ lt y x = true
}.

Lemma lt_asym {A} (lt : A -> A -> bool) `{!StrictTotal lt} x y : lt x y = true -> lt y x = false.
Proof.
  intros Hxy. destruct (lt y x) eqn:Hyx; [|done].
  rewrite <- (lt_irrefl x). symmetry. by apply (lt_trans x y x).
Qed.

#[export] Instance Z_ltb_strict : StrictTotal Z.ltb.
Proof.
  split.
  - apply Z.ltb_irrefl.
  - intros x y z. rewrite !Z.ltb_lt. lia.
  - intros x y. rewrite !Z.ltb_lt. lia.
Qed.

(** [std::tie( a1, a2 ) < std::tie( b1, b2 )] *)
Definition tie_lt {A B} (ltA : A -> A -> bool) (ltB : B -> B -> bool) (x y : A * B) : bool :=
  ltA x.1 y.1 || (negb (ltA y.1 x.1) && ltB x.2 y.2).

#[export] Instance tie_lt_strict {A B} (ltA : A -> A -> bool) (ltB : B -> B -> bool) :
  StrictTotal ltA -> StrictTotal ltB -> StrictTotal (tie_lt ltA ltB).
Proof.
  intros HA HB. unfold tie_lt. split.
  - intros [a b]. simpl. by rewrite !lt_irrefl.
  - intros [a1 b1] [a2 b2] [a3 b3]; simpl.
    intros H1%orb_true_iff H2%orb_true_iff. apply orb_true_iff.
    rewrite andb_true_iff, negb_true_iff in *.
    pose proof (lt_trans (lt := ltB) b1 b2 b3) as HtB.
    pose proof (lt_trans (lt := ltA) a1 a2 a3) as HtA.
    destruct H1 as [H1|[H1 H1']], H2 as [H2|[H2 H2']]; auto.
    + destruct (lt_total a2 a3) as [F|[<-|F]]; [auto|auto|congruence].
    + destruct (lt_total a1 a2) as [E|[->|E]]; [auto|auto|congruence].
    + destruct (lt_total a1 a2) as [E|[->|E]]; [|auto|congruence].
      destruct (lt_total a2 a3) as [F|[<-|F]]; [auto|auto|congruence].
  - intros [a1 b1] [a2 b2]; simpl.
    destruct (lt_total a1 a2) as [E|[->|E]].
    + rewrite E. auto.
    + rewrite lt_irrefl. simpl. destruct (lt_total b1 b2) as [F|[->|F]]; rewrite ?F; auto.
    + rewrite E. auto.
Qed.

Lemma strict_total_inj {A B} (f : A -> B) (lt : B -> B -> bool) (ltA : A -> A -> bool) :
  (forall x y, f x = f y -> x = y) -> (forall x y, ltA x y = lt (f x) (f y)) ->
  StrictTotal lt -> StrictTotal ltA.
Proof.
  intros Hinj Hlt H. split.
  - intros x. by rewrite Hlt, lt_irrefl.
  - intros x y z. rewrite !Hlt. apply lt_trans.
  - intros x y. rewrite !Hlt. destruct (lt_total (f x) (f y)) as [|[|]]; auto.
Qed.

(** ** Binary search

    [std::lower_bound] and [std::upper_bound] halve the range [first, first +
    len).  The fuel is the length of the range: each round makes it shorter.
    [None] stands for a search that has not ended. *)

Fixpoint bisect {A} (fuel : nat) (below : A -> bool) (l : list A) (first len : nat) : option nat :=
  match len with
  | O => Some first
  | S _ =>
      match fuel with
      | O => None
      | S fuel' =>
          let half := (len / 2)%nat in
          match l !! (first + half)%nat with
          | Some x =>
              if below x then bisect fuel' below l (first + half + 1) (len - half - 1)
              else bisect fuel' below l first half
          | None => None
          end
      end
  end.

(** [comp_value x] is [comp( x, value )] for the first, and [value_comp x] is
    [comp( value, x )] for the second. *)
Definition std_lower_bound {A} (comp_value : A -> bool) (l : list A) : option nat :=
  bisect (length l) comp_value l 0 (length l).

Definition std_upper_bound {A} (value_comp : A -> bool) (l : list A) : option nat :=
  bisect (length l) (fun x => negb (value_comp x)) l 0 (length l).

(** The elements [below] come first. *)
Definition partitioned {A} (below : A -> bool) (l : list A) : Prop :=
  forall i j x y, l !! i = Some x -> l !! j = Some y -> (i <= j)%nat -> below y = true -> below x = true.

(** [n] separates the elements that are [below] from the others. *)
Definition boundary {A} (below : A -> bool) (l : list A) (n : nat) : Prop :=
  (n <= length l)%nat /\
  forall i x, l !! i = Some x -> below x = bool_decide (i < n)%nat.

Lemma bisect_boundary {A} (below : A -> bool) l fuel first len :
  partitioned below l -> (len <= fuel)%nat -> (first + len <= length l)%nat ->
  (forall i x, (i < first)%nat -> l !! i = Some x -> below x = true) ->
  (forall i x, (first + len <= i)%nat -> l !! i = Some x -> below x = false) ->
  exists n, bisect fuel below l first len = Some n /\ boundary below l n.
Proof.
  intros Hp. revert first len. induction fuel as [|fuel IH]; intros first len Hf Hl Hlo Hhi;
    destruct len as [|len']; try lia.
  1,2: exists first; split; [done|split; [lia|]]; intros i x Hx;
    destruct (bool_decide_reflect (i < first)%nat); [eauto|apply (Hhi i); [lia|done]].
  set (len := S len') in *. cbn [bisect]. set (half := (len / 2)%nat).
  assert (half < len)%nat as Hh by (apply Nat.div_lt; lia).
  change (S len') with len. fold half.
  destruct (lookup_lt_is_Some_2 l (first + half)) as [x Hx]; [lia|]. rewrite Hx.
  destruct (below x) eqn:Hb.
  - apply IH; [lia|lia| |].
    + intros i y Hi Hy. apply (Hp i (first + half)%nat y x); [done|done|lia|done].
    + intros i y Hi Hy. apply (Hhi i); [lia|done].
  - apply IH; [lia|lia|done|].
    intros i y Hi Hy. destruct (below y) eqn:E; [|done].
    rewrite <- Hb. symmetry. by apply (Hp (first + half)%nat i x y).
Qed.

Lemma std_lower_bound_boundary {A} (comp_value : A -> bool) l :
  partitioned comp_value l -> exists n, std_lower_bound comp_value l = Some n /\ boundary comp_value l n.
Proof.
  intros Hp. apply bisect_boundary; [done|lia|lia|lia|].
  intros i x Hi Hx. apply lookup_lt_Some in Hx. lia.
Qed.

Lemma std_upper_bound_boundary {A} (value_comp : A -> bool) l :
  partitioned (fun x => negb (value_comp x)) l ->
  exists n, std_upper_bound value_comp l = Some n /\ boundary (fun x => negb (value_comp x)) l n.
Proof.
  intros Hp. apply bisect_boundary; [done|lia|lia|lia|].
  intros i x Hi Hx. apply lookup_lt_Some in Hx. lia.
Qed.

(** The searches end whatever the order of the elements. *)
Lemma bisect_total {A} (below : A -> bool) l fuel first len :
  (len <= fuel)%nat -> (first + len <= length l)%nat ->
  exists n, bisect fuel below l first len = Some n /\ (first <= n <= first + len)%nat.
Proof.
  revert first len. induction fuel as [|fuel IH]; intros first len Hf Hl; destruct len as [|len']; try lia.
  1,2: exists first; split; [done|lia].
  set (len := S len') in *. cbn [bisect]. set (half := (len / 2)%nat).
  assert (half < len)%nat as Hh by (apply Nat.div_lt; lia). change (S len') with len. fold half.
  destruct (lookup_lt_is_Some_2 l (first + half)) as [x ->]; [lia|].
  destruct (below x).
  - destruct (IH (first + half + 1)%nat (len - half - 1)%nat) as (n & -> & Hn); [lia|lia|].
    exists n. split; [done|lia].
  - destruct (IH first half) as (n & -> & Hn); [lia|lia|]. exists n. split; [done|lia].
Qed.

(** The position a search ends at. *)
Definition lower_index {A} (comp_value : A -> bool) (l : list A) : nat :=
  default 0%nat (std_lower_bound comp_value l).

Definition upper_index {A} (value_comp : A -> bool) (l : list A) : nat :=
  default 0%nat (std_upper_bound value_comp l).

Lemma lower_index_boundary {A} (comp_value : A -> bool) l :
  partitioned comp_value l -> boundary comp_value l (lower_index comp_value l).
Proof. intros H. unfold lower_index. by destruct (std_lower_bound_boundary comp_value l H) as (n & -> & ?). Qed.

Lemma upper_index_boundary {A} (value_comp : A -> bool) l :
  partitioned (fun x => negb (value_comp x)) l ->
  boundary (fun x => negb (value_comp x)) l (upper_index value_comp l).
Proof. intros H. unfold upper_index. by destruct (std_upper_bound_boundary value_comp l H) as (n & -> & ?). Qed.

Lemma partitioned_sorted {A} (key : A -> Z) (below : Z -> bool) l :
  StronglySorted (fun x y => key x <= key y) l ->
  (forall x y, x <= y -> below y = true -> below x = true) ->
  partitioned (fun x => below (key x)) l.
Proof.
  intros Hs Hb i j x y Hx Hy Hij Hbelow.
  destruct (decide (i = j)) as [->|Hne]; [congruence|].
  eapply Hb; [|exact Hbelow]. apply (StronglySorted_lookup _ _ i j x y Hs); [done|done|lia].
Qed.
