(* ===== verification/Exceptions.v ===== *)
(** * Exceptions of the chain library

    Models libraries/chain/include/inery/chain/exceptions.hpp: the exception
    classes, their numeric codes and their base classes, and the errors of
    the other components that cross a function boundary (the fc exceptions
    and the standard exceptions the code relies on).  An error path of a
    model is an [exn] of this file. *)

From S2P Require Import Prelude.

(** One constructor per FC_DECLARE_DERIVED_EXCEPTION of exceptions.hpp. *)
Inductive exception_type :=
  | chain_exception | chain_type_exception | name_type_exception | public_key_type_exception
  | private_key_type_exception | authority_type_exception | action_type_exception
  | transaction_type_exception | abi_type_exception | block_id_type_exception
  | transaction_id_type_exception | packed_transaction_type_exception | asset_type_exception
  | chain_id_type_exception | fixed_key_type_exception | symbol_type_exception
  | unactivated_key_type | unactivated_signature_type | fork_database_exception
  | fork_db_block_not_found | block_validate_exception | unlinkable_block_exception
  | block_tx_output_exception | block_concurrency_exception | block_lock_exception
  | block_resource_exhausted | block_too_old_exception | block_from_the_future
  | wrong_signing_key | wrong_producer | invalid_block_header_extension
  | ill_formed_protocol_feature_activation | invalid_block_extension
  | ill_formed_additional_block_signatures_extension | transaction_exception
  | tx_decompression_error | tx_no_action | tx_no_auths | cfa_irrelevant_auth
  | expired_tx_exception | tx_exp_too_far_exception | invalid_ref_block_exception
  | tx_duplicate | deferred_tx_duplicate | cfa_inside_generated_tx | tx_not_found
  | too_many_tx_at_once | tx_too_big | unknown_transaction_compression
  | invalid_transaction_extension | ill_formed_deferred_transaction_generation_context
  | disallowed_transaction_extensions_bad_block_exception | tx_resource_exhaustion
  | action_validate_exception | account_name_exists_exception | invalid_action_args_exception
  | inery_assert_message_exception | inery_assert_code_exception | action_not_found_exception
  | action_data_and_struct_mismatch | unaccessible_api | abort_called | inline_action_too_big
  | unauthorized_mem_usage_increase | restricted_error_code_exception
  | inline_action_too_big_nonprivileged | database_exception | permission_query_exception
  | account_query_exception | contract_table_query_exception | contract_query_exception
  | bad_database_version_exception | guard_exception | database_guard_exception
  | reversible_guard_exception | wasm_exception | page_memory_error | wasm_execution_error
  | wasm_serialization_error | overlapping_memory_error | binaryen_exception
  | resource_exhausted_exception | mem_usage_exceeded | tx_net_usage_exceeded
  | block_net_usage_exceeded | tx_cpu_usage_exceeded | block_cpu_usage_exceeded
  | deadline_exception | greylist_net_usage_exceeded | greylist_cpu_usage_exceeded
  | leeway_deadline_exception | authorization_exception | tx_duplicate_sig | tx_irrelevant_sig
  | unsatisfied_authorization | missing_auth_exception | irrelevant_auth_exception
  | insufficient_delay_exception | invalid_permission | unlinkable_min_permission_action
  | invalid_parent_permission | misc_exception | rate_limiting_state_inconsistent
  | unknown_block_exception | unknown_transaction_exception | fixed_reversible_db_exception
  | extract_genesis_state_exception | subjective_block_production_exception
  | multiple_voter_info | unsupported_feature | node_management_success | json_parse_exception
  | sig_variable_size_limit_exception | plugin_exception | missing_chain_api_plugin_exception
  | missing_wallet_api_plugin_exception | missing_history_api_plugin_exception
  | missing_net_api_plugin_exception | missing_chain_plugin_exception | plugin_config_exception
  | wallet_exception | wallet_exist_exception | wallet_nonexistent_exception
  | wallet_locked_exception | wallet_missing_pub_key_exception
  | wallet_invalid_password_exception | wallet_not_available_exception
  | wallet_unlocked_exception | key_exist_exception | key_nonexistent_exception
  | unsupported_key_type_exception | invalid_lock_timeout_exception | secure_enclave_exception
  | whitelist_blacklist_exception | actor_whitelist_exception | actor_blacklist_exception
  | contract_whitelist_exception | contract_blacklist_exception | action_blacklist_exception
  | key_blacklist_exception | controller_emit_signal_exception | checkpoint_exception
  | abi_exception | abi_not_found_exception | invalid_ricardian_clause_exception
  | invalid_ricardian_action_exception | invalid_type_inside_abi
  | duplicate_abi_type_def_exception | duplicate_abi_struct_def_exception
  | duplicate_abi_action_def_exception | duplicate_abi_table_def_exception
  | duplicate_abi_err_msg_def_exception | abi_serialization_deadline_exception
  | abi_recursion_depth_exception | abi_circular_def_exception | unpack_exception
  | pack_exception | duplicate_abi_variant_def_exception | unsupported_abi_version_exception
  | contract_exception | invalid_table_payer | table_access_violation | invalid_table_iterator
  | table_not_in_cache | table_operation_not_permitted | invalid_contract_vm_type
  | invalid_contract_vm_version | set_exact_code | wasm_file_not_found | abi_file_not_found
  | producer_exception | producer_priv_key_not_found | missing_pending_block_state
  | producer_double_confirm | producer_schedule_exception | producer_not_in_schedule
  | snapshot_directory_not_found_exception | snapshot_exists_exception
  | snapshot_finalization_exception | invalid_protocol_features_to_activate
  | no_block_signatures | unsupported_multiple_block_signatures | reversible_blocks_exception
  | invalid_reversible_blocks_dir | reversible_blocks_backup_dir_exist
  | gap_in_reversible_blocks_db | block_log_exception | block_log_unsupported_version
  | block_log_append_fail | block_log_not_found | block_log_backup_dir_exist
  | block_index_not_found | http_exception | invalid_http_client_root_cert
  | invalid_http_response | resolved_to_multiple_ports | fail_to_resolve_host
  | http_request_fail | invalid_http_request | resource_limit_exception | mongo_db_exception
  | mongo_db_insert_fail | mongo_db_update_fail | contract_api_exception | crypto_api_exception
  | db_api_exception | arithmetic_exception | snapshot_exception
  | snapshot_validation_exception | protocol_feature_exception
  | protocol_feature_validation_exception | protocol_feature_bad_block_exception
  | protocol_feature_iterator_exception.

(** [code_value] of each class. *)
Definition code_value (e : exception_type) : Z :=
  match e with
  | chain_exception => 3000000
  | chain_type_exception => 3010000
  | name_type_exception => 3010001
  | public_key_type_exception => 3010002
  | private_key_type_exception => 3010003
  | authority_type_exception => 3010004
  | action_type_exception => 3010005
  | transaction_type_exception => 3010006
  | abi_type_exception => 3010007
  | block_id_type_exception => 3010008
  | transaction_id_type_exception => 3010009
  | packed_transaction_type_exception => 3010010
  | asset_type_exception => 3010011
  | chain_id_type_exception => 3010012
  | fixed_key_type_exception => 3010013
  | symbol_type_exception => 3010014
  | unactivated_key_type => 3010015
  | unactivated_signature_type => 3010016
  | fork_database_exception => 3020000
  | fork_db_block_not_found => 3020001
  | block_validate_exception => 3030000
  | unlinkable_block_exception => 3030001
  | block_tx_output_exception => 3030002
  | block_concurrency_exception => 3030003
  | block_lock_exception => 3030004
  | block_resource_exhausted => 3030005
  | block_too_old_exception => 3030006
  | block_from_the_future => 3030007
  | wrong_signing_key => 3030008
  | wrong_producer => 3030009
  | invalid_block_header_extension => 3030010
  | ill_formed_protocol_feature_activation => 3030011
  | invalid_block_extension => 3030012
  | ill_formed_additional_block_signatures_extension => 3030013
  | transaction_exception => 3040000
  | tx_decompression_error => 3040001
  | tx_no_action => 3040002
  | tx_no_auths => 3040003
  | cfa_irrelevant_auth => 3040004
  | expired_tx_exception => 3040005
  | tx_exp_too_far_exception => 3040006
  | invalid_ref_block_exception => 3040007
  | tx_duplicate => 3040008
  | deferred_tx_duplicate => 3040009
  | cfa_inside_generated_tx => 3040010
  | tx_not_found => 3040011
  | too_many_tx_at_once => 3040012
  | tx_too_big => 3040013
  | unknown_transaction_compression => 3040014
  | invalid_transaction_extension => 3040015
  | ill_formed_deferred_transaction_generation_context => 3040016
  | disallowed_transaction_extensions_bad_block_exception => 3040017
  | tx_resource_exhaustion => 3040018
  | action_validate_exception => 3050000
  | account_name_exists_exception => 3050001
  | invalid_action_args_exception => 3050002
  | inery_assert_message_exception => 3050003
  | inery_assert_code_exception => 3050004
  | action_not_found_exception => 3050005
  | action_data_and_struct_mismatch => 3050006
  | unaccessible_api => 3050007
  | abort_called => 3050008
  | inline_action_too_big => 3050009
  | unauthorized_mem_usage_increase => 3050010
  | restricted_error_code_exception => 3050011
  | inline_action_too_big_nonprivileged => 3050012
  | database_exception => 3060000
  | permission_query_exception => 3060001
  | account_query_exception => 3060002
  | contract_table_query_exception => 3060003
  | contract_query_exception => 3060004
  | bad_database_version_exception => 3060005
  | guard_exception => 3060100
  | database_guard_exception => 3060101
  | reversible_guard_exception => 3060102
  | wasm_exception => 3070000
  | page_memory_error => 3070001
  | wasm_execution_error => 3070002
  | wasm_serialization_error => 3070003
  | overlapping_memory_error => 3070004
  | binaryen_exception => 3070005
  | resource_exhausted_exception => 3080000
  | mem_usage_exceeded => 3080001
  | tx_net_usage_exceeded => 3080002
  | block_net_usage_exceeded => 3080003
  | tx_cpu_usage_exceeded => 3080004
  | block_cpu_usage_exceeded => 3080005
  | deadline_exception => 3080006
  | greylist_net_usage_exceeded => 3080007
  | greylist_cpu_usage_exceeded => 3080008
  | leeway_deadline_exception => 3081001
  | authorization_exception => 3090000
  | tx_duplicate_sig => 3090001
  | tx_irrelevant_sig => 3090002
  | unsatisfied_authorization => 3090003
  | missing_auth_exception => 3090004
  | irrelevant_auth_exception => 3090005
  | insufficient_delay_exception => 3090006
  | invalid_permission => 3090007
  | unlinkable_min_permission_action => 3090008
  | invalid_parent_permission => 3090009
  | misc_exception => 3100000
  | rate_limiting_state_inconsistent => 3100001
  | unknown_block_exception => 3100002
  | unknown_transaction_exception => 3100003
  | fixed_reversible_db_exception => 3100004
  | extract_genesis_state_exception => 3100005
  | subjective_block_production_exception => 3100006
  | multiple_voter_info => 3100007
  | unsupported_feature => 3100008
  | node_management_success => 3100009
  | json_parse_exception => 3100010
  | sig_variable_size_limit_exception => 3100011
  | plugin_exception => 3110000
  | missing_chain_api_plugin_exception => 3110001
  | missing_wallet_api_plugin_exception => 3110002
  | missing_history_api_plugin_exception => 3110003
  | missing_net_api_plugin_exception => 3110004
  | missing_chain_plugin_exception => 3110005
  | plugin_config_exception => 3110006
  | wallet_exception => 3120000
  | wallet_exist_exception => 3120001
  | wallet_nonexistent_exception => 3120002
  | wallet_locked_exception => 3120003
  | wallet_missing_pub_key_exception => 3120004
  | wallet_invalid_password_exception => 3120005
  | wallet_not_available_exception => 3120006
  | wallet_unlocked_exception => 3120007
  | key_exist_exception => 3120008
  | key_nonexistent_exception => 3120009
  | unsupported_key_type_exception => 3120010
  | invalid_lock_timeout_exception => 3120011
  | secure_enclave_exception => 3120012
  | whitelist_blacklist_exception => 3130000
  | actor_whitelist_exception => 3130001
  | actor_blacklist_exception => 3130002
  | contract_whitelist_exception => 3130003
  | contract_blacklist_exception => 3130004
  | action_blacklist_exception => 3130005
  | key_blacklist_exception => 3130006
  | controller_emit_signal_exception => 3140000
  | checkpoint_exception => 3140001
  | abi_exception => 3015000
  | abi_not_found_exception => 3015001
  | invalid_ricardian_clause_exception => 3015002
  | invalid_ricardian_action_exception => 3015003
  | invalid_type_inside_abi => 3015004
  | duplicate_abi_type_def_exception => 3015005
  | duplicate_abi_struct_def_exception => 3015006
  | duplicate_abi_action_def_exception => 3015007
  | duplicate_abi_table_def_exception => 3015008
  | duplicate_abi_err_msg_def_exception => 3015009
  | abi_serialization_deadline_exception => 3015010
  | abi_recursion_depth_exception => 3015011
  | abi_circular_def_exception => 3015012
  | unpack_exception => 3015013
  | pack_exception => 3015014
  | duplicate_abi_variant_def_exception => 3015015
  | unsupported_abi_version_exception => 3015016
  | contract_exception => 3160000
  | invalid_table_payer => 3160001
  | table_access_violation => 3160002
  | invalid_table_iterator => 3160003
  | table_not_in_cache => 3160004
  | table_operation_not_permitted => 3160005
  | invalid_contract_vm_type => 3160006
  | invalid_contract_vm_version => 3160007
  | set_exact_code => 3160008
  | wasm_file_not_found => 3160009
  | abi_file_not_found => 3160010
  | producer_exception => 3170000
  | producer_priv_key_not_found => 3170001
  | missing_pending_block_state => 3170002
  | producer_double_confirm => 3170003
  | producer_schedule_exception => 3170004
  | producer_not_in_schedule => 3170006
  | snapshot_directory_not_found_exception => 3170007
  | snapshot_exists_exception => 3170008
  | snapshot_finalization_exception => 3170009
  | invalid_protocol_features_to_activate => 3170010
  | no_block_signatures => 3170011
  | unsupported_multiple_block_signatures => 3170012
  | reversible_blocks_exception => 3180000
  | invalid_reversible_blocks_dir => 3180001
  | reversible_blocks_backup_dir_exist => 3180002
  | gap_in_reversible_blocks_db => 3180003
  | block_log_exception => 3190000
  | block_log_unsupported_version => 3190001
  | block_log_append_fail => 3190002
  | block_log_not_found => 3190003
  | block_log_backup_dir_exist => 3190004
  | block_index_not_found => 3190005
  | http_exception => 3200000
  | invalid_http_client_root_cert => 3200001
  | invalid_http_response => 3200002
  | resolved_to_multiple_ports => 3200003
  | fail_to_resolve_host => 3200004
  | http_request_fail => 3200005
  | invalid_http_request => 3200006
  | resource_limit_exception => 3210000
  | mongo_db_exception => 3220000
  | mongo_db_insert_fail => 3220001
  | mongo_db_update_fail => 3220002
  | contract_api_exception => 3230000
  | crypto_api_exception => 3230001
  | db_api_exception => 3230002
  | arithmetic_exception => 3230003
  | snapshot_exception => 3240000
  | snapshot_validation_exception => 3240001
  | protocol_feature_exception => 3250000
  | protocol_feature_validation_exception => 3250001
  | protocol_feature_bad_block_exception => 3250002
  | protocol_feature_iterator_exception => 3250003
  end.

(** The base class of each class; [chain_exception] derives from
    [fc::exception], which is outside the hierarchy. *)
Definition base_class (e : exception_type) : option exception_type :=
  match e with
  | chain_exception =>
      None
  | chain_type_exception | fork_database_exception | block_validate_exception
  | transaction_exception | action_validate_exception | database_exception | wasm_exception
  | resource_exhausted_exception | authorization_exception | misc_exception | plugin_exception
  | wallet_exception | whitelist_blacklist_exception | controller_emit_signal_exception
  | abi_exception | contract_exception | producer_exception | reversible_blocks_exception
  | block_log_exception | http_exception | resource_limit_exception | mongo_db_exception
  | contract_api_exception | snapshot_exception | protocol_feature_exception =>
      Some chain_exception
  | name_type_exception | public_key_type_exception | private_key_type_exception
  | authority_type_exception | action_type_exception | transaction_type_exception
  | abi_type_exception | block_id_type_exception | transaction_id_type_exception
  | packed_transaction_type_exception | asset_type_exception | chain_id_type_exception
  | fixed_key_type_exception | symbol_type_exception | unactivated_key_type
  | unactivated_signature_type =>
      Some chain_type_exception
  | fork_db_block_not_found =>
      Some fork_database_exception
  | unlinkable_block_exception | block_tx_output_exception | block_concurrency_exception
  | block_lock_exception | block_resource_exhausted | block_too_old_exception
  | block_from_the_future | wrong_signing_key | wrong_producer | invalid_block_header_extension
  | ill_formed_protocol_feature_activation | invalid_block_extension
  | ill_formed_additional_block_signatures_extension =>
      Some block_validate_exception
  | tx_decompression_error | tx_no_action | tx_no_auths | cfa_irrelevant_auth
  | expired_tx_exception | tx_exp_too_far_exception | invalid_ref_block_exception
  | tx_duplicate | deferred_tx_duplicate | cfa_inside_generated_tx | tx_not_found
  | too_many_tx_at_once | tx_too_big | unknown_transaction_compression
  | invalid_transaction_extension | ill_formed_deferred_transaction_generation_context
  | disallowed_transaction_extensions_bad_block_exception | tx_resource_exhaustion =>
      Some transaction_exception
  | account_name_exists_exception | invalid_action_args_exception
  | inery_assert_message_exception | inery_assert_code_exception | action_not_found_exception
  | action_data_and_struct_mismatch | unaccessible_api | abort_called | inline_action_too_big
  | unauthorized_mem_usage_increase | restricted_error_code_exception
  | inline_action_too_big_nonprivileged =>
      Some action_validate_exception
  | permission_query_exception | account_query_exception | contract_table_query_exception
  | contract_query_exception | bad_database_version_exception | guard_exception =>
      Some database_exception
  | database_guard_exception | reversible_guard_exception =>
      Some guard_exception
  | page_memory_error | wasm_execution_error | wasm_serialization_error
  | overlapping_memory_error | binaryen_exception =>
      Some wasm_exception
  | mem_usage_exceeded | tx_net_usage_exceeded | block_net_usage_exceeded
  | tx_cpu_usage_exceeded | block_cpu_usage_exceeded | deadline_exception
  | greylist_net_usage_exceeded | greylist_cpu_usage_exceeded =>
      Some resource_exhausted_exception
  | leeway_deadline_exception =>
      Some deadline_exception
  | tx_duplicate_sig | tx_irrelevant_sig | unsatisfied_authorization | missing_auth_exception
  | irrelevant_auth_exception | insufficient_delay_exception | invalid_permission
  | unlinkable_min_permission_action | invalid_parent_permission =>
      Some authorization_exception
  | rate_limiting_state_inconsistent | unknown_block_exception | unknown_transaction_exception
  | fixed_reversible_db_exception | extract_genesis_state_exception
  | subjective_block_production_exception | multiple_voter_info | unsupported_feature
  | node_management_success | json_parse_exception | sig_variable_size_limit_exception =>
      Some misc_exception
  | missing_chain_api_plugin_exception | missing_wallet_api_plugin_exception
  | missing_history_api_plugin_exception | missing_net_api_plugin_exception
  | missing_chain_plugin_exception | plugin_config_exception =>
      Some plugin_exception
  | wallet_exist_exception | wallet_nonexistent_exception | wallet_locked_exception
  | wallet_missing_pub_key_exception | wallet_invalid_password_exception
  | wallet_not_available_exception | wallet_unlocked_exception | key_exist_exception
  | key_nonexistent_exception | unsupported_key_type_exception | invalid_lock_timeout_exception
  | secure_enclave_exception =>
      Some wallet_exception
  | actor_whitelist_exception | actor_blacklist_exception | contract_whitelist_exception
  | contract_blacklist_exception | action_blacklist_exception | key_blacklist_exception =>
      Some whitelist_blacklist_exception
  | checkpoint_exception =>
      Some controller_emit_signal_exception
  | abi_not_found_exception | invalid_ricardian_clause_exception
  | invalid_ricardian_action_exception | invalid_type_inside_abi
  | duplicate_abi_type_def_exception | duplicate_abi_struct_def_exception
  | duplicate_abi_action_def_exception | duplicate_abi_table_def_exception
  | duplicate_abi_err_msg_def_exception | abi_serialization_deadline_exception
  | abi_recursion_depth_exception | abi_circular_def_exception | unpack_exception
  | pack_exception | duplicate_abi_variant_def_exception | unsupported_abi_version_exception =>
      Some abi_exception
  | invalid_table_payer | table_access_violation | invalid_table_iterator | table_not_in_cache
  | table_operation_not_permitted | invalid_contract_vm_type | invalid_contract_vm_version
  | set_exact_code | wasm_file_not_found | abi_file_not_found =>
      Some contract_exception
  | producer_priv_key_not_found | missing_pending_block_state | producer_double_confirm
  | producer_schedule_exception | producer_not_in_schedule
  | snapshot_directory_not_found_exception | snapshot_exists_exception
  | snapshot_finalization_exception | invalid_protocol_features_to_activate
  | no_block_signatures | unsupported_multiple_block_signatures =>
      Some producer_exception
  | invalid_reversible_blocks_dir | reversible_blocks_backup_dir_exist
  | gap_in_reversible_blocks_db =>
      Some reversible_blocks_exception
  | block_log_unsupported_version | block_log_append_fail | block_log_not_found
  | block_log_backup_dir_exist | block_index_not_found =>
      Some block_log_exception
  | invalid_http_client_root_cert | invalid_http_response | resolved_to_multiple_ports
  | fail_to_resolve_host | http_request_fail | invalid_http_request =>
      Some http_exception
  | mongo_db_insert_fail | mongo_db_update_fail =>
      Some mongo_db_exception
  | crypto_api_exception | db_api_exception | arithmetic_exception =>
      Some contract_api_exception
  | snapshot_validation_exception =>
      Some snapshot_exception
  | protocol_feature_validation_exception | protocol_feature_bad_block_exception
  | protocol_feature_iterator_exception =>
      Some protocol_feature_exception
  end.

Definition all_exceptions : list exception_type :=
  [chain_exception; chain_type_exception; name_type_exception; public_key_type_exception;
   private_key_type_exception; authority_type_exception; action_type_exception;
   transaction_type_exception; abi_type_exception; block_id_type_exception;
   transaction_id_type_exception; packed_transaction_type_exception; asset_type_exception;
   chain_id_type_exception; fixed_key_type_exception; symbol_type_exception;
   unactivated_key_type; unactivated_signature_type; fork_database_exception;
   fork_db_block_not_found; block_validate_exception; unlinkable_block_exception;
   block_tx_output_exception; block_concurrency_exception; block_lock_exception;
   block_resource_exhausted; block_too_old_exception; block_from_the_future; wrong_signing_key;
   wrong_producer; invalid_block_header_extension; ill_formed_protocol_feature_activation;
   invalid_block_extension; ill_formed_additional_block_signatures_extension;
   transaction_exception; tx_decompression_error; tx_no_action; tx_no_auths;
   cfa_irrelevant_auth; expired_tx_exception; tx_exp_too_far_exception;
   invalid_ref_block_exception; tx_duplicate; deferred_tx_duplicate; cfa_inside_generated_tx;
   tx_not_found; too_many_tx_at_once; tx_too_big; unknown_transaction_compression;
   invalid_transaction_extension; ill_formed_deferred_transaction_generation_context;
   disallowed_transaction_extensions_bad_block_exception; tx_resource_exhaustion;
   action_validate_exception; account_name_exists_exception; invalid_action_args_exception;
   inery_assert_message_exception; inery_assert_code_exception; action_not_found_exception;
   action_data_and_struct_mismatch; unaccessible_api; abort_called; inline_action_too_big;
   unauthorized_mem_usage_increase; restricted_error_code_exception;
   inline_action_too_big_nonprivileged; database_exception; permission_query_exception;
   account_query_exception; contract_table_query_exception; contract_query_exception;
   bad_database_version_exception; guard_exception; database_guard_exception;
   reversible_guard_exception; wasm_exception; page_memory_error; wasm_execution_error;
   wasm_serialization_error; overlapping_memory_error; binaryen_exception;
   resource_exhausted_exception; mem_usage_exceeded; tx_net_usage_exceeded;
   block_net_usage_exceeded; tx_cpu_usage_exceeded; block_cpu_usage_exceeded;
   deadline_exception; greylist_net_usage_exceeded; greylist_cpu_usage_exceeded;
   leeway_deadline_exception; authorization_exception; tx_duplicate_sig; tx_irrelevant_sig;
   unsatisfied_authorization; missing_auth_exception; irrelevant_auth_exception;
   insufficient_delay_exception; invalid_permission; unlinkable_min_permission_action;
   invalid_parent_permission; misc_exception; rate_limiting_state_inconsistent;
   unknown_block_exception; unknown_transaction_exception; fixed_reversible_db_exception;
   extract_genesis_state_exception; subjective_block_production_exception; multiple_voter_info;
   unsupported_feature; node_management_success; json_parse_exception;
   sig_variable_size_limit_exception; plugin_exception; missing_chain_api_plugin_exception;
   missing_wallet_api_plugin_exception; missing_history_api_plugin_exception;
   missing_net_api_plugin_exception; missing_chain_plugin_exception; plugin_config_exception;
   wallet_exception; wallet_exist_exception; wallet_nonexistent_exception;
   wallet_locked_exception; wallet_missing_pub_key_exception;
   wallet_invalid_password_exception; wallet_not_available_exception;
   wallet_unlocked_exception; key_exist_exception; key_nonexistent_exception;
   unsupported_key_type_exception; invalid_lock_timeout_exception; secure_enclave_exception;
   whitelist_blacklist_exception; actor_whitelist_exception; actor_blacklist_exception;
   contract_whitelist_exception; contract_blacklist_exception; action_blacklist_exception;
   key_blacklist_exception; controller_emit_signal_exception; checkpoint_exception;
   abi_exception; abi_not_found_exception; invalid_ricardian_clause_exception;
   invalid_ricardian_action_exception; invalid_type_inside_abi;
   duplicate_abi_type_def_exception; duplicate_abi_struct_def_exception;
   duplicate_abi_action_def_exception; duplicate_abi_table_def_exception;
   duplicate_abi_err_msg_def_exception; abi_serialization_deadline_exception;
   abi_recursion_depth_exception; abi_circular_def_exception; unpack_exception; pack_exception;
   duplicate_abi_variant_def_exception; unsupported_abi_version_exception; contract_exception;
   invalid_table_payer; table_access_violation; invalid_table_iterator; table_not_in_cache;
   table_operation_not_permitted; invalid_contract_vm_type; invalid_contract_vm_version;
   set_exact_code; wasm_file_not_found; abi_file_not_found; producer_exception;
   producer_priv_key_not_found; missing_pending_block_state; producer_double_confirm;
   producer_schedule_exception; producer_not_in_schedule;
   snapshot_directory_not_found_exception; snapshot_exists_exception;
   snapshot_finalization_exception; invalid_protocol_features_to_activate; no_block_signatures;
   unsupported_multiple_block_signatures; reversible_blocks_exception;
   invalid_reversible_blocks_dir; reversible_blocks_backup_dir_exist;
   gap_in_reversible_blocks_db; block_log_exception; block_log_unsupported_version;
   block_log_append_fail; block_log_not_found; block_log_backup_dir_exist;
   block_index_not_found; http_exception; invalid_http_client_root_cert; invalid_http_response;
   resolved_to_multiple_ports; fail_to_resolve_host; http_request_fail; invalid_http_request;
   resource_limit_exception; mongo_db_exception; mongo_db_insert_fail; mongo_db_update_fail;
   contract_api_exception; crypto_api_exception; db_api_exception; arithmetic_exception;
   snapshot_exception; snapshot_validation_exception; protocol_feature_exception;
   protocol_feature_validation_exception; protocol_feature_bad_block_exception;
   protocol_feature_iterator_exception].

(** [catch( const b\& )] selects an exception of class [e]: [b] is [e] or one
    of its base classes.  The hierarchy is at most four classes deep. *)
Fixpoint derives_from_fuel (fuel : nat) (e b : exception_type) : bool :=
  (code_value e =? code_value b) ||
  match fuel, base_class e with
  | S fuel', Some e' => derives_from_fuel fuel' e' b
  | _, _ => false
  end.

Definition derives_from (e b : exception_type) : bool := derives_from_fuel 4 e b.

(** Errors a modelled function can end with: an exception of the hierarchy,
    an exception of fc or of the C++ library, or undefined behaviour. *)
Inductive exn :=
  | Throw (e : exception_type)
  | fc_overflow_exception
  | fc_underflow_exception
  | fc_divide_by_zero_exception
  | fc_parse_error_exception
  | fc_assert_exception
  | fc_out_of_range_exception
  | fc_exception
  | fc_unhandled_exception
  | std_runtime_error
  | std_abort
  | std_out_of_range
  | std_logic_error
  | undefined_behaviour.

Abbreviation outcome := (result exn).

(** What a handler [catch( const std::exception\& )] of the C++ library's own
    exceptions selects, and [catch( fc::exception\& )]. *)
Definition is_std_exception (e : exn) : bool :=
  match e with std_runtime_error | std_out_of_range | std_logic_error => true | _ => false end.

Definition is_fc_exception (e : exn) : bool :=
  match e with std_abort | undefined_behaviour => false | _ => negb (is_std_exception e) end.

(** [try { ... } INE_RETHROW_EXCEPTIONS( exception_type, ... )]: an exception
    of the hierarchy passes, any other becomes one of class [exception_type]. *)
Definition ine_rethrow_exceptions {A} (e : exception_type) (body : outcome A) : outcome A :=
  match body with
  | Err (Throw e') => Err (Throw e')
  | Err x => if is_fc_exception x || is_std_exception x then Err (Throw e) else Err x
  | Ok a => Ok a
  end.

(** [try { ... } FC_CAPTURE_AND_RETHROW( ... )]: an exception of the C++
    library becomes one of fc. *)
Definition fc_capture_and_rethrow {A} (body : outcome A) : outcome A :=
  match body with
  | Err x => if is_std_exception x then Err fc_exception else Err x
  | Ok a => Ok a
  end.

Lemma all_exceptions_complete e : In e all_exceptions.
Proof. destruct e; vm_compute; tauto. Qed.

(** ** The hierarchy is well formed *)

Lemma all_codes_nodup : NoDup (code_value <$> all_exceptions).
Proof. apply (bool_decide_unpack _). vm_compute. exact I. Qed.

Lemma code_value_inj e1 e2 : code_value e1 = code_value e2 -> e1 = e2.
Proof.
  intros H. apply (NoDup_fmap_inj_on code_value all_exceptions);
    auto using all_codes_nodup; apply list_elem_of_In, all_exceptions_complete.
Qed.

#[export] Instance exception_type_eq_dec : EqDecision exception_type.
Proof.
  intros e1 e2. destruct (decide (code_value e1 = code_value e2)) as [H|H].
  - left. by apply code_value_inj.
  - right. by intros ->.
Defined.

#[export] Instance exn_eq_dec : EqDecision exn.
Proof. solve_decision. Defined.

Lemma derives_from_refl e : derives_from e e = true.
Proof. unfold derives_from. simpl. by rewrite Z.eqb_refl. Qed.

(** C39: Codes identify classes, and every class of exceptions.hpp is caught by a
    handler for [chain_exception]. *)
Theorem exception_hierarchy_wf :
  (forall e1 e2, code_value e1 = code_value e2 <-> e1 = e2) /\
  (forall e, derives_from e chain_exception = true) /\
  (forall e b, base_class e = Some b -> derives_from b e = false).
Proof.
  split; [|split].
  - intros e1 e2. split; [apply code_value_inj | by intros ->].
  - intros e. destruct e; reflexivity.
  - intros e b. destruct e; intros [= <-]; reflexivity.
Qed.
