(* ===== verification/Text.v ===== *)
(** * Characters, decimal text and the string routines of Boost

    C++ strings are lists of [ascii]; a [char] is compared as the signed
    8-bit integer it is.  Decimal printing and reading follow
    [std::to_string].  The string routines the sources take from Boost
    (trim_right_if, trim_copy and the two lexical_casts) are not part of the
    repository: they are the methods of the class [BoostText], and
    [BoostTextLaws] states the documented behaviour the sources rely on.
    [reference_boost] is one implementation that satisfies the laws. *)

From Stdlib Require Export Ascii.
From Stdlib Require Import String.
From S2P Require Import Prelude.

Definition lit (s : String.string) : list ascii := String.list_ascii_of_string s.

(** The value of a [char] (signed, as on the platforms the node supports). *)
Definition cv (c : ascii) : Z := swrap 8 (Z.of_N (N_of_ascii c)).

Definition NUL : ascii := Ascii.zero.

(** [s[i]] of a NUL-terminated string, for [i] at most the size. *)
Definition char_at (s : list ascii) (i : nat) : ascii := default NUL (s !! i).

Definition is_space (c : ascii) : bool :=
  (cv c =? 32) || ((9 <=? cv c) && (cv c <=? 13)).

Definition is_digit (c : ascii) : bool := (48 <=? cv c) && (cv c <=? 57).

Definition digit_char (d : Z) : ascii := ascii_of_N (Z.to_N (48 + d)).

(** ** Decimal numbers *)

Fixpoint dec_digits (fuel : nat) (n : Z) : list ascii :=
  match fuel with
  | O => []
  | S f => if n <? 10 then [digit_char n]
           else dec_digits f (n / 10) ++ [digit_char (n mod 10)]
  end.

(** Decimal text of a non-negative number; 2 ^ fuel exceeds the number. *)
Definition dec_nat (n : Z) : list ascii := dec_digits (S (Z.to_nat (Z.log2 n))) n.

(** [std::to_string] of a signed integer. *)
Definition dec (z : Z) : list ascii :=
  if z <? 0 then "-"%char :: dec_nat (- z) else dec_nat z.

Definition dec_value (s : list ascii) : Z :=
  fold_left (fun v c => v * 10 + (cv c - 48)) s 0.

(** [fixed_digits p f]: the [p] lowest decimal digits of [f]. *)
Fixpoint fixed_digits (p : nat) (f : Z) : list ascii :=
  match p with
  | O => []
  | S p' => fixed_digits p' (f / 10) ++ [digit_char (f mod 10)]
  end.

Lemma cv_digit_char d : 0 <= d < 10 -> cv (digit_char d) = 48 + d.
Proof.
  intros H.
  assert (d = 0 \/ d = 1 \/ d = 2 \/ d = 3 \/ d = 4 \/ d = 5 \/ d = 6 \/ d = 7 \/ d = 8 \/ d = 9)
    as Hd by lia.
  by repeat destruct Hd as [-> | Hd]; subst.
Qed.

Lemma is_digit_digit_char d : 0 <= d < 10 -> is_digit (digit_char d) = true.
Proof.
  intros H. unfold is_digit. rewrite cv_digit_char by lia.
  apply andb_true_intro. split; apply Z.leb_le; lia.
Qed.

Lemma dec_value_snoc s c : dec_value (s ++ [c]) = dec_value s * 10 + (cv c - 48).
Proof. unfold dec_value. by rewrite fold_left_app. Qed.

Lemma dec_digits_value f n : 0 <= n < 2 ^ Z.of_nat f -> dec_value (dec_digits f n) = n.
Proof.
  revert n. induction f as [|f IH]; intros n Hn.
  - change (2 ^ Z.of_nat 0) with 1 in Hn. unfold dec_value. simpl. lia.
  - cbn [dec_digits]. destruct (Z.ltb_spec n 10) as [Hlt|Hge].
    + change [digit_char n] with ([] ++ [digit_char n]).
      rewrite dec_value_snoc, cv_digit_char by lia. unfold dec_value; simpl. lia.
    + rewrite dec_value_snoc, cv_digit_char by (apply Z.mod_pos_bound; lia).
      rewrite IH.
      * pose proof (Z_div_mod_eq_full n 10). lia.
      * split; [apply Z.div_pos; lia|].
        apply Z.div_lt_upper_bound; [lia|].
        rewrite Nat2Z.inj_succ, Z.pow_succ_r in Hn by lia. lia.
Qed.

Lemma dec_digits_digits f n :
  0 <= n -> Forall (fun c => is_digit c = true) (dec_digits f n).
Proof.
  revert n. induction f as [|f IH]; intros n Hn; cbn [dec_digits]; [constructor|].
  destruct (Z.ltb_spec n 10).
  - repeat constructor. apply is_digit_digit_char. lia.
  - apply Forall_app. split.
    + apply IH. apply Z.div_pos; lia.
    + repeat constructor. apply is_digit_digit_char, Z.mod_pos_bound. lia.
Qed.

Lemma dec_nat_fuel n : 0 <= n -> n < 2 ^ Z.of_nat (S (Z.to_nat (Z.log2 n))).
Proof.
  intros H. rewrite Nat2Z.inj_succ, Z2Nat.id by apply Z.log2_nonneg.
  destruct (Z.eq_dec n 0) as [->|]; [reflexivity|].
  apply Z.log2_spec. lia.
Qed.

Lemma dec_nat_value n : 0 <= n -> dec_value (dec_nat n) = n.
Proof. intros H. apply dec_digits_value. split; [done|by apply dec_nat_fuel]. Qed.

Lemma dec_nat_digits n : 0 <= n -> Forall (fun c => is_digit c = true) (dec_nat n).
Proof. apply dec_digits_digits. Qed.

Lemma dec_nat_nonempty n : dec_nat n <> [].
Proof.
  unfold dec_nat. cbn [dec_digits]. destruct (n <? 10); [done|].
  intros Hn%(f_equal length). rewrite length_app in Hn. simpl in Hn. lia.
Qed.

(** The text of [10 ^ p + f] is a one followed by [p] digits of [f]. *)
Lemma dec_digits_padded fuel p f :
  0 <= f < 10 ^ Z.of_nat p -> 10 ^ Z.of_nat p + f < 2 ^ Z.of_nat fuel ->
  dec_digits fuel (10 ^ Z.of_nat p + f) = "1"%char :: fixed_digits p f.
Proof.
  revert p f. induction fuel as [|fuel IH]; intros p f Hf Hfuel.
  { simpl in Hfuel. assert (0 < 10 ^ Z.of_nat p) by (apply Z.pow_pos_nonneg; lia). lia. }
  cbn [dec_digits]. destruct p as [|p].
  - change (10 ^ Z.of_nat 0) with 1 in *. assert (f = 0) as -> by lia. reflexivity.
  - rewrite Nat2Z.inj_succ, Z.pow_succ_r in * by lia.
    assert (0 < 10 ^ Z.of_nat p) by (apply Z.pow_pos_nonneg; lia).
    destruct (Z.ltb_spec (10 * 10 ^ Z.of_nat p + f) 10); [lia|].
    replace ((10 * 10 ^ Z.of_nat p + f) / 10) with (10 ^ Z.of_nat p + f / 10)
      by (rewrite (Z.mul_comm 10), Z.div_add_l; lia).
    replace ((10 * 10 ^ Z.of_nat p + f) mod 10) with (f mod 10)
      by (rewrite (Z.mul_comm 10), Z.add_comm, Z.mod_add; lia).
    rewrite IH.
    + reflexivity.
    + split; [apply Z.div_pos; lia | apply Z.div_lt_upper_bound; lia].
    + assert (f / 10 <= f) by (apply Z.div_le_upper_bound; lia).
      assert (10 * (f / 10) <= f) by (apply Z.mul_div_le; lia).
      rewrite Nat2Z.inj_succ, Z.pow_succ_r in Hfuel by lia. lia.
Qed.

Lemma dec_nat_padded p f :
  0 <= f < 10 ^ Z.of_nat p ->
  dec_nat (10 ^ Z.of_nat p + f) = "1"%char :: fixed_digits p f.
Proof.
  intros Hf. assert (0 < 10 ^ Z.of_nat p) by (apply Z.pow_pos_nonneg; lia).
  apply dec_digits_padded; [done|]. apply dec_nat_fuel. lia.
Qed.

Lemma length_fixed_digits p f : length (fixed_digits p f) = p.
Proof.
  revert f. induction p as [|p IH]; intros f; [done|].
  cbn [fixed_digits]. rewrite length_app, IH. simpl. lia.
Qed.

Lemma fixed_digits_digits p f : Forall (fun c => is_digit c = true) (fixed_digits p f).
Proof.
  revert f. induction p as [|p IH]; intros f; cbn [fixed_digits]; [constructor|].
  apply Forall_app. split; [apply IH|].
  repeat constructor. apply is_digit_digit_char, Z.mod_pos_bound. lia.
Qed.

Lemma fixed_digits_value p f :
  0 <= f < 10 ^ Z.of_nat p -> dec_value (fixed_digits p f) = f.
Proof.
  revert f. induction p as [|p IH]; intros f Hf.
  - change (10 ^ Z.of_nat 0) with 1 in *. unfold dec_value. simpl. lia.
  - cbn [fixed_digits]. rewrite Nat2Z.inj_succ, Z.pow_succ_r in Hf by lia.
    rewrite dec_value_snoc, cv_digit_char by (apply Z.mod_pos_bound; lia).
    rewrite IH; [pose proof (Z_div_mod_eq_full f 10); lia|].
    split; [apply Z.div_pos; lia | apply Z.div_lt_upper_bound; lia].
Qed.

(** ** The interface to Boost *)

Class BoostText := {
  trim_right_if : (ascii -> bool) -> list ascii -> list ascii;
  trim_copy : list ascii -> list ascii;
  (** [None] stands for the exception bad_lexical_cast. *)
  lexical_cast_int64 : list ascii -> option Z;
  lexical_cast_string : Z -> list ascii
}.

Class BoostTextLaws `(!BoostText) : Prop := {
  trim_right_if_spec (p : ascii -> bool) s :
    exists t, s = trim_right_if p s ++ t /\ Forall (fun c => p c = true) t /\
              (forall u c, trim_right_if p s = u ++ [c] -> p c = false);
  trim_copy_spec s :
    exists a b, s = a ++ trim_copy s ++ b /\
                Forall (fun c => is_space c = true) a /\
                Forall (fun c => is_space c = true) b /\
                (forall c u, trim_copy s = c :: u -> is_space c = false) /\
                (forall u c, trim_copy s = u ++ [c] -> is_space c = false);
  lexical_cast_string_spec z : is_sint 64 z -> lexical_cast_string z = dec z;
  lexical_cast_int64_digits s :
    s <> [] -> Forall (fun c => is_digit c = true) s -> dec_value s <= INT64_MAX ->
    lexical_cast_int64 s = Some (dec_value s);
  lexical_cast_int64_neg s :
    s <> [] -> Forall (fun c => is_digit c = true) s -> dec_value s <= 2 ^ 63 ->
    lexical_cast_int64 ("-"%char :: s) = Some (- dec_value s)
}.

(** [take_back p s] splits off the longest suffix of [s] all of whose
    characters satisfy [p]. *)
Fixpoint drop_while (p : ascii -> bool) (s : list ascii) : list ascii :=
  match s with
  | [] => []
  | c :: s' => if p c then drop_while p s' else s
  end.

Definition drop_while_back (p : ascii -> bool) (s : list ascii) : list ascii :=
  reverse (drop_while p (reverse s)).

Definition parse_int64 (s : list ascii) : option Z :=
  let digits z t := if decide (t <> []) then
                      if forallb is_digit t then Some (z * dec_value t) else None
                    else None in
  let range o := v ← o; if (INT64_MIN <=? v) && (v <=? INT64_MAX) then Some v else None in
  match s with
  | c :: t => if cv c =? 45 then range (digits (-1) t)
              else if cv c =? 43 then range (digits 1 t) else range (digits 1 s)
  | [] => None
  end.

Definition reference_boost : BoostText := {|
  trim_right_if := drop_while_back;
  trim_copy s := drop_while is_space (drop_while_back is_space s);
  lexical_cast_int64 := parse_int64;
  lexical_cast_string := dec
|}.

Lemma drop_while_spec p s :
  exists t, s = t ++ drop_while p s /\ Forall (fun c => p c = true) t /\
            (forall c u, drop_while p s = c :: u -> p c = false).
Proof.
  induction s as [|c s (t & Hs & Ht & Hn)].
  - exists []. simpl. naive_solver.
  - simpl. destruct (p c) eqn:Hp.
    + exists (c :: t). rewrite <- app_comm_cons, <- Hs. auto.
    + exists []. split_and!; [done|done|]. by intros ? ? [= -> _].
Qed.

Lemma drop_while_back_spec p s :
  exists t, s = drop_while_back p s ++ t /\ Forall (fun c => p c = true) t /\
            (forall u c, drop_while_back p s = u ++ [c] -> p c = false).
Proof.
  destruct (drop_while_spec p (reverse s)) as (t & Hs & Ht & Hn).
  exists (reverse t). unfold drop_while_back. split_and!.
  - by rewrite <- reverse_app, <- Hs, reverse_involutive.
  - by apply Forall_reverse.
  - intros u c Hu. apply (Hn c (reverse u)).
    rewrite <- (reverse_involutive (drop_while p (reverse s))), Hu, reverse_snoc. done.
Qed.

Lemma dec_value_nonneg s : Forall (fun c => is_digit c = true) s -> 0 <= dec_value s.
Proof.
  induction s as [|c s IH] using rev_ind; intros H; [done|].
  apply Forall_app in H as [Hs Hc]. rewrite Forall_singleton in Hc.
  rewrite dec_value_snoc. unfold is_digit in Hc. bool_to_prop. specialize (IH Hs). lia.
Qed.

Lemma parse_int64_digits z s :
  s <> [] -> Forall (fun c => is_digit c = true) s ->
  (if decide (s <> []) then if forallb is_digit s then Some (z * dec_value s) else None
   else None) = Some (z * dec_value s).
Proof.
  intros Hne Hd. rewrite decide_True by done.
  replace (forallb is_digit s) with true; [done|]. clear Hne.
  induction Hd as [|c t Hc _ IH]; simpl; [done|]. by rewrite Hc.
Qed.

Lemma in_range_bool v :
  INT64_MIN <= v <= INT64_MAX -> (INT64_MIN <=? v) && (v <=? INT64_MAX) = true.
Proof. intros H. apply andb_true_intro. split; apply Z.leb_le; lia. Qed.

Lemma reference_boost_laws : BoostTextLaws reference_boost.
Proof.
  split; simpl.
  - apply drop_while_back_spec.
  - intros s. destruct (drop_while_back_spec is_space s) as (b & Hs & Hb & Hl).
    destruct (drop_while_spec is_space (drop_while_back is_space s)) as (a & Ha & Hfa & Hfirst).
    exists a, b. split_and!; auto.
    + by rewrite app_assoc, <- Ha.
    + intros u c Hu. apply (Hl (a ++ u)). by rewrite Ha, Hu, app_assoc.
  - done.
  - intros [|c t] Hne Hd Hr; [done|].
    assert (is_digit c = true) as Hc by (by inversion Hd).
    pose proof (dec_value_nonneg _ Hd). unfold parse_int64.
    unfold is_digit in Hc. bool_to_prop.
    destruct (Z.eqb_spec (cv c) 45); [lia|]. destruct (Z.eqb_spec (cv c) 43); [lia|].
    rewrite parse_int64_digits by done. cbn [mbind option_bind].
    by rewrite Z.mul_1_l, in_range_bool by lia.
  - intros s Hne Hd Hr. pose proof (dec_value_nonneg _ Hd). unfold parse_int64.
    change (cv "-" =? 45) with true. cbv iota.
    rewrite parse_int64_digits by done. cbn [mbind option_bind].
    by rewrite in_range_bool by lia.
Qed.
