(* ===== verification/Intrinsics.v ===== *)
(** * The whitelist of intrinsics

    Models whitelisted_intrinsics.cpp: the names of the intrinsics contracts
    may call, kept in a multimap from the hash of a name to the name, which is
    a vector sorted by the hash.  [std_hash] is std::hash<std::string>, an
    argument.

    The theorem: the whitelist behaves as the set of its names, whatever names
    collide under the hash. *)

From Stdlib Require Import Sorted String.
From stdpp Require Import sorting.
From S2P Require Import Prelude Exceptions Text.

Section whitelist.
Context (std_hash : list ascii -> Z).

(** shared_flat_multimap<uint64_t, shared_string> *)
Abbreviation whitelist := (list (Z * list ascii)).

(** The loop of [find_intrinsic_helper] from the position [itr]: the position
    it stops at, and whether it found the name. *)
Fixpoint find_helper_loop (h : Z) (name : list ascii) (rest : whitelist) (itr : nat) : nat * bool :=
  match rest with
  | [] => (itr, false)
  | (k, n) :: rest' =>
      if k =? h then
        if bool_decide (n = name) then (itr, true) else find_helper_loop h name rest' (S itr)
      else (itr, false)
  end.

Definition find_intrinsic_helper (h : Z) (name : list ascii) (l : whitelist) (itr : nat) : nat * bool :=
  find_helper_loop h name (drop itr l) itr.

Definition multimap_lower_bound (h : Z) (l : whitelist) : nat := lower_index (fun p => p.1 <? h) l.

(** The position found, or [None] for [end()]. *)
Definition find_intrinsic (l : whitelist) (h : Z) (name : list ascii) : option nat :=
  match find_intrinsic_helper h name l (multimap_lower_bound h l) with
  | (itr, true) => Some itr
  | (_, false) => None
  end.

Definition name_hash (name : list ascii) : Z := u64 (std_hash name).

Definition is_intrinsic_whitelisted (l : whitelist) (name : list ascii) : bool :=
  let h := name_hash name in
  (find_intrinsic_helper h name l (multimap_lower_bound h l)).2.

(** [emplace] of the multimap: after the elements with the same key. *)
Definition multimap_emplace (h : Z) (name : list ascii) (l : whitelist) : whitelist :=
  let itr := upper_index (fun p => h <? p.1) l in
  take itr l ++ (h, name) :: drop itr l.

Definition add_intrinsic_to_whitelist (name : list ascii) (l : whitelist) : outcome whitelist :=
  let h := name_hash name in
  ine_assert (bool_decide (find_intrinsic l h name = None)) (Throw database_exception) ;;
  Ok (multimap_emplace h name l).

Definition remove_intrinsic_from_whitelist (name : list ascii) (l : whitelist) : outcome whitelist :=
  let h := name_hash name in
  match find_intrinsic l h name with
  | None => Err (Throw database_exception)
  | Some itr => Ok (delete itr l)
  end.

Definition reset_intrinsic_whitelist (s : list (list ascii)) : whitelist :=
  foldl (fun l name => multimap_emplace (name_hash name) name l) [] s.

(** The elements inserted into the set; their order is that of the set. *)
Definition convert_intrinsic_whitelist_to_set (l : whitelist) : gset (list ascii) :=
  list_to_set l.*2.

(** ** The whitelist is a set of names *)

Record whitelist_ok (l : whitelist) : Prop := {
  wl_sorted : StronglySorted (fun p q : Z * list ascii => p.1 <= q.1) l;
  wl_hashes : Forall (fun p : Z * list ascii => p.1 = name_hash p.2) l;
  wl_once : NoDup l.*2
}.

Lemma find_helper_loop_spec h name rest itr :
  StronglySorted (fun p q : Z * list ascii => p.1 <= q.1) rest ->
  Forall (fun p : Z * list ascii => h <= p.1) rest ->
  match find_helper_loop h name rest itr with
  | (i, true) => exists j, i = (itr + j)%nat /\ rest !! j = Some (h, name)
  | (_, false) => (h, name) ∉ rest
  end.
Proof.
  intros Hs Hh. revert itr. induction Hs as [|[k n] rest Hs IH Hk]; intros itr; cbn [find_helper_loop].
  { apply not_elem_of_nil. }
  apply list.Forall_cons in Hh as [Hhk Hh]. simpl in Hhk. destruct (k =? h) eqn:E.
  - apply Z.eqb_eq in E as ->. case_bool_decide as En.
    + subst n. exists 0%nat. split; [lia|done].
    + specialize (IH Hh (S itr)). destruct (find_helper_loop h name rest (S itr)) as [i [|]].
      * destruct IH as (j & -> & Hj). exists (S j). split; [lia|done].
      * apply not_elem_of_cons. split; [congruence|done].
  - apply Z.eqb_neq in E. apply not_elem_of_cons. split; [congruence|]. intros Hin.
    apply (proj1 (list.Forall_forall _ _) Hk) in Hin. simpl in Hin. lia.
Qed.

Lemma sorted_drop {A} (R : A -> A -> Prop) n (l : list A) : StronglySorted R l -> StronglySorted R (drop n l).
Proof.
  intros H. revert n. induction H as [|x l Hs IH Hx]; intros [|n]; simpl; try constructor; auto.
Qed.

(** The helper, started at the lower bound, decides membership. *)
Lemma helper_spec l name :
  whitelist_ok l ->
  let h := name_hash name in
  match find_intrinsic_helper h name l (multimap_lower_bound h l) with
  | (i, true) => l !! i = Some (h, name)
  | (_, false) => name ∉ l.*2
  end.
Proof.
  intros Hok h. unfold find_intrinsic_helper. set (n := multimap_lower_bound h l).
  assert (boundary (fun p : Z * list ascii => p.1 <? h) l n) as [Hn Hb].
  { apply lower_index_boundary, (partitioned_sorted fst (fun x => x <? h)); [apply Hok|].
    intros x y ?. rewrite !Z.ltb_lt. lia. }
  pose proof (find_helper_loop_spec h name (drop n l) n) as H.
  destruct (find_helper_loop h name (drop n l) n) as [i [|]].
  - destruct H as (j & -> & Hj); [apply sorted_drop, Hok| |by rewrite <- lookup_drop].
    apply list.Forall_forall. intros p [j Hj]%list_elem_of_lookup. rewrite lookup_drop in Hj.
    apply Hb in Hj. rewrite bool_decide_eq_false_2 in Hj by lia. by apply Z.ltb_ge in Hj.
  - assert ((h, name) ∉ drop n l) as Hnot.
    { apply H; [apply sorted_drop, Hok|].
      apply list.Forall_forall. intros p [j Hj]%list_elem_of_lookup. rewrite lookup_drop in Hj.
      apply Hb in Hj. rewrite bool_decide_eq_false_2 in Hj by lia. by apply Z.ltb_ge in Hj. }
    intros ([k m] & -> & [j Hj]%list_elem_of_lookup)%list_elem_of_fmap. simpl in *.
    assert (k = h) as -> by (apply (Forall_lookup_1 _ _ _ _ (wl_hashes _ Hok) Hj)).
    pose proof (Hb j _ Hj) as Hlt. simpl in Hlt. rewrite Z.ltb_irrefl in Hlt. symmetry in Hlt.
    apply bool_decide_eq_false in Hlt. apply Hnot, list_elem_of_lookup. exists (j - n)%nat.
    rewrite lookup_drop. by replace (n + (j - n))%nat with j by lia.
Qed.

Lemma multimap_emplace_ok l name :
  whitelist_ok l -> name ∉ l.*2 ->
  whitelist_ok (multimap_emplace (name_hash name) name l) /\
  multimap_emplace (name_hash name) name l ≡ₚ (name_hash name, name) :: l.
Proof.
  intros Hok Hnew. unfold multimap_emplace. set (h := name_hash name). set (n := upper_index _ l).
  assert (boundary (fun p : Z * list ascii => negb (h <? p.1)) l n) as [Hn Hb].
  { apply upper_index_boundary, (partitioned_sorted fst (fun x => negb (h <? x))); [apply Hok|].
    intros x y ?. rewrite !negb_true_iff, !Z.ltb_ge. lia. }
  assert (take n l ++ (h, name) :: drop n l ≡ₚ (h, name) :: l) as Hperm.
  { rewrite <- Permutation_middle. by rewrite take_drop. }
  split; [|done]. split.
  - pose proof (wl_sorted _ Hok) as Hs. rewrite <- (take_drop n l) in Hs.
    apply StronglySorted_app in Hs as (Hs0 & Hs1 & Hs2). apply StronglySorted_app. split_and!; [|done|].
    + intros x y Hx [->|Hy]%elem_of_cons; [|by apply Hs0].
      apply list_elem_of_lookup in Hx as [i [Hi Hlt]%lookup_take_Some].
      apply Hb in Hi. rewrite bool_decide_eq_true_2 in Hi by lia. apply negb_true_iff, Z.ltb_ge in Hi. done.
    + constructor; [done|]. apply list.Forall_forall. intros p [j Hj]%list_elem_of_lookup.
      rewrite lookup_drop in Hj. apply Hb in Hj. rewrite bool_decide_eq_false_2 in Hj by lia.
      apply negb_false_iff, Z.ltb_lt in Hj. simpl. lia.
  - rewrite Hperm. constructor; [done|apply Hok].
  - rewrite Hperm. simpl. apply list.NoDup_cons. split; [done|apply Hok].
Qed.

Lemma find_intrinsic_spec l name :
  whitelist_ok l ->
  match find_intrinsic l (name_hash name) name with
  | Some i => l !! i = Some (name_hash name, name)
  | None => name ∉ l.*2
  end.
Proof.
  intros Hok. unfold find_intrinsic. pose proof (helper_spec l name Hok) as H. cbn zeta in H.
  by destruct (find_intrinsic_helper _ _ _ _) as [i [|]].
Qed.

Lemma is_whitelisted_iff l name :
  whitelist_ok l -> is_intrinsic_whitelisted l name = true <-> name ∈ l.*2.
Proof.
  intros Hok. unfold is_intrinsic_whitelisted. pose proof (helper_spec l name Hok) as H. cbn zeta in *.
  destruct (find_intrinsic_helper _ _ _ _) as [i [|]]; simpl; (split; [|done]).
  - intros _. apply list_elem_of_fmap. eexists. split; [|by eapply list_elem_of_lookup_2]. done.
  - done.
Qed.

Lemma elem_of_convert l name : name ∈ convert_intrinsic_whitelist_to_set l <-> name ∈ l.*2.
Proof. unfold convert_intrinsic_whitelist_to_set. by rewrite elem_of_list_to_set. Qed.

Lemma add_intrinsic_spec l name :
  whitelist_ok l ->
  if decide (name ∈ l.*2) then add_intrinsic_to_whitelist name l = Err (Throw database_exception)
  else exists l', add_intrinsic_to_whitelist name l = Ok l' /\ whitelist_ok l' /\
    convert_intrinsic_whitelist_to_set l' = {[name]} ∪ convert_intrinsic_whitelist_to_set l.
Proof.
  intros Hok. unfold add_intrinsic_to_whitelist. pose proof (find_intrinsic_spec l name Hok) as H.
  case_decide as Hin; destruct (find_intrinsic _ _ _) as [i|] eqn:E; try done.
  - exfalso. apply Hin, list_elem_of_fmap. exists (name_hash name, name). split; [done|].
    by eapply list_elem_of_lookup_2.
  - destruct (multimap_emplace_ok l name Hok Hin) as [Hok' Hp]. eexists. split; [done|]. split; [done|].
    unfold convert_intrinsic_whitelist_to_set. by rewrite Hp.
Qed.

Lemma remove_intrinsic_spec l name :
  whitelist_ok l ->
  if decide (name ∈ l.*2) then
    exists l', remove_intrinsic_from_whitelist name l = Ok l' /\ whitelist_ok l' /\
      convert_intrinsic_whitelist_to_set l' = convert_intrinsic_whitelist_to_set l ∖ {[name]}
  else remove_intrinsic_from_whitelist name l = Err (Throw database_exception).
Proof.
  intros Hok. unfold remove_intrinsic_from_whitelist. pose proof (find_intrinsic_spec l name Hok) as H.
  destruct (find_intrinsic _ _ _) as [i|]; [|by rewrite decide_False].
  rewrite decide_True.
  2:{ apply list_elem_of_fmap. eexists. split; [|by eapply list_elem_of_lookup_2]. done. }
  exists (delete i l). split; [done|].
  assert (l = take i l ++ (name_hash name, name) :: drop (S i) l) as El by by rewrite take_drop_middle.
  rewrite delete_take_drop.
  remember (take i l) as a eqn:Ea. remember (drop (S i) l) as b eqn:Eb. clear Ea Eb H. subst l.
  destruct Hok as [Hs Hh Ho].
  apply StronglySorted_app in Hs as (Hs0 & Hs1 & Hs2). apply StronglySorted_inv in Hs2 as [Hs2 _].
  apply Forall_app in Hh as [Hh1 [_ Hh2]%list.Forall_cons].
  rewrite fmap_app, fmap_cons in Ho. rewrite <- Permutation_middle in Ho.
  apply list.NoDup_cons in Ho as [Hnot Ho]. split; [split|].
  - apply StronglySorted_app. split_and!; [|done|done]. intros x y Hx Hy. apply Hs0; [done|by right].
  - by apply Forall_app.
  - by rewrite fmap_app.
  - apply set_eq. intros x. rewrite elem_of_difference, !elem_of_convert, !fmap_app, fmap_cons.
    rewrite <- Permutation_middle, elem_of_cons. simpl. set_solver.
Qed.

Lemma reset_ok (s : list (list ascii)) :
  NoDup s -> whitelist_ok (reset_intrinsic_whitelist s) /\
    convert_intrinsic_whitelist_to_set (reset_intrinsic_whitelist s) = list_to_set s.
Proof.
  unfold reset_intrinsic_whitelist. intros Hnd. induction s as [|name s IH] using rev_ind.
  - split; [split|done]; [constructor|constructor|apply NoDup_nil_2].
  - apply list.NoDup_app in Hnd as (Hs & Hnot & _). destruct (IH Hs) as [Hok Hset].
    rewrite foldl_snoc. set (l := foldl _ [] s) in *.
    assert (name ∉ l.*2) as Hnew.
    { rewrite <- elem_of_convert, Hset, elem_of_list_to_set. intros Hin. apply (Hnot _ Hin). left. }
    destruct (multimap_emplace_ok l name Hok Hnew) as [Hok' Hp]. split; [done|].
    apply set_eq. intros x. rewrite elem_of_convert, Hp, fmap_cons, elem_of_cons.
    rewrite <- elem_of_convert, Hset, list_to_set_app_L. set_solver.
Qed.

Inductive whitelist_op :=
  | Add (name : list ascii)
  | Erase (name : list ascii)
  | Reset_to (s : gset (list ascii)).

(** The whitelist after an operation, and whether it was accepted. *)
Definition run_op (l : whitelist) (op : whitelist_op) : whitelist * bool :=
  match op with
  | Add name => match add_intrinsic_to_whitelist name l with Ok l' => (l', true) | Err _ => (l, false) end
  | Erase name => match remove_intrinsic_from_whitelist name l with Ok l' => (l', true) | Err _ => (l, false) end
  | Reset_to s => (reset_intrinsic_whitelist (elements s), true)
  end.

Definition set_op (s : gset (list ascii)) (op : whitelist_op) : gset (list ascii) * bool :=
  match op with
  | Add name => ({[name]} ∪ s, bool_decide (name ∉ s))
  | Erase name => (s ∖ {[name]}, bool_decide (name ∈ s))
  | Reset_to s' => (s', true)
  end.

Lemma run_op_spec l op :
  whitelist_ok l ->
  whitelist_ok (run_op l op).1 /\
  (convert_intrinsic_whitelist_to_set (run_op l op).1, (run_op l op).2) =
    set_op (convert_intrinsic_whitelist_to_set l) op.
Proof.
  intros Hok. destruct op as [name|name|s]; cbn [run_op set_op].
  - pose proof (add_intrinsic_spec l name Hok) as H. case_decide as Hin.
    + rewrite H. cbn [fst snd]. split; [done|]. rewrite <- elem_of_convert in Hin.
      rewrite bool_decide_eq_false_2 by set_solver. f_equal. set_solver.
    + destruct H as (l' & -> & Hok' & E). cbn [fst snd]. rewrite E. rewrite <- elem_of_convert in Hin.
      split; [done|]. by rewrite bool_decide_eq_true_2.
  - pose proof (remove_intrinsic_spec l name Hok) as H. case_decide as Hin.
    + destruct H as (l' & -> & Hok' & E). cbn [fst snd]. rewrite E. rewrite <- elem_of_convert in Hin.
      split; [done|]. by rewrite bool_decide_eq_true_2.
    + rewrite H. cbn [fst snd]. split; [done|]. rewrite <- elem_of_convert in Hin.
      rewrite bool_decide_eq_false_2 by done. f_equal. set_solver.
  - destruct (reset_ok (elements s) (NoDup_elements s)) as [Hok' E]. split; [done|].
    cbn [fst snd]. by rewrite E, list_to_set_elements_L.
Qed.

(** The whitelist is the set of its names: after any sequence of additions,
    removals and resets, each of which is accepted exactly if the set allows
    it, the names are those of the set and [is_intrinsic_whitelisted] decides
    membership, whatever names have equal hashes. *)
Theorem whitelist_is_set ops :
  let l := foldl (fun l op => (run_op l op).1) [] ops in
  let s := foldl (fun s op => (set_op s op).1) ∅ ops in
  convert_intrinsic_whitelist_to_set l = s /\
  (forall name, is_intrinsic_whitelisted l name = bool_decide (name ∈ s)) /\
  forall op, (run_op l op).2 = (set_op s op).2.
Proof.
  assert (whitelist_ok (foldl (fun l op => (run_op l op).1) [] ops) /\
    convert_intrinsic_whitelist_to_set (foldl (fun l op => (run_op l op).1) [] ops) =
    foldl (fun s op => (set_op s op).1) ∅ ops) as [Hok Hs].
  { induction ops as [|op ops [Hok Hs]] using rev_ind.
    - split; [split|done]; [constructor|constructor|apply NoDup_nil_2].
    - rewrite !foldl_snoc. destruct (run_op_spec _ op Hok) as [Hok' E]. split; [done|].
      rewrite <- Hs. by rewrite <- E. }
  cbn zeta. split; [done|]. split.
  - intros name. apply eq_true_iff_eq. by rewrite is_whitelisted_iff, bool_decide_eq_true, <- Hs, elem_of_convert.
  - intros op. destruct (run_op_spec _ op Hok) as [_ E]. rewrite <- Hs. by rewrite <- E.
Qed.

End whitelist.

(** Two names with one hash. *)
Example colliding_names :
  let a := lit "a"%string in let b := lit "b"%string in
  let l := reset_intrinsic_whitelist (fun _ => 7) [a; b] in
  is_intrinsic_whitelisted (fun _ => 7) l a = true /\
  remove_intrinsic_from_whitelist (fun _ => 7) a l = Ok [(7, b)] /\
  is_intrinsic_whitelisted (fun _ => 7) [(7, b)] a = false.
Proof. by vm_compute. Qed.
