(* ===== verification/Names.v ===== *)
(** * Account and action names

    Models libraries/chain/include/inery/chain/name.hpp and
    libraries/chain/name.cpp: a name is a 64-bit integer that packs up to
    thirteen characters of a 32-letter alphabet, twelve in five bits each and
    the last in four.  [string_to_uint64_t] packs, [name_to_string] unpacks
    and [name_set] is the validating constructor. *)

From coqutil Require Import Z.bitblast.
From Stdlib Require Import String.
From S2P Require Import Prelude Exceptions Text.

(** [char_to_symbol] *)
Definition char_to_symbol (c : ascii) : Z :=
  if (cv "a" <=? cv c) && (cv c <=? cv "z") then (cv c - cv "a") + 6
  else if (cv "1" <=? cv c) && (cv c <=? cv "5") then (cv c - cv "1") + 1
  else 0.

(** The for loop of [string_to_uint64_t]: [k] is [12 - i], so the test
    [i < 12] is [k] not being zero.  Returns the packed bits and the final
    [i]. *)
Fixpoint string_to_uint64_t_loop (str : list ascii) (k i : nat) (n : Z) : Z * nat :=
  match k with
  | O => (n, i)
  | S k' =>
      if cv (char_at str i) =? 0 then (n, i)
      else string_to_uint64_t_loop str k' (S i)
             (Z.lor n (u64 (Z.shiftl (Z.land (char_to_symbol (char_at str i)) 0x1f)
                                     (64 - 5 * (Z.of_nat i + 1)))))
  end.

Definition string_to_uint64_t (str : list ascii) : Z :=
  let '(n, i) := string_to_uint64_t_loop str 12 0 0 in
  if (i =? 12)%nat then Z.lor n (Z.land (char_to_symbol (char_at str 12)) 0x0F) else n.

Definition charmap : list ascii := lit ".12345abcdefghijklmnopqrstuvwxyz".

(** [charmap[i]] *)
Definition charmap_at (i : Z) : ascii := default NUL (charmap !! Z.to_nat i).

Section names.
Context `{BoostText}.

(** The for loop of [name::to_string], [fuel] being [13 - i]. *)
Fixpoint to_string_loop (fuel i : nat) (tmp : Z) (str : list ascii) : list ascii :=
  match fuel with
  | O => str
  | S fuel' =>
      let c := charmap_at (Z.land tmp (if (i =? 0)%nat then 0x0f else 0x1f)) in
      to_string_loop fuel' (S i) (Z.shiftr tmp (if (i =? 0)%nat then 4 else 5))
                     (<[(12 - i)%nat := c]> str)
  end.

Definition is_dot (c : ascii) : bool := cv c =? cv ".".

(** [name::to_string] *)
Definition name_to_string (value : Z) : list ascii :=
  trim_right_if is_dot (to_string_loop 13 0 value (replicate 13 "."%char)).

(** [name::set], the body of the constructor [name( std::string_view )] *)
Definition name_set (str : list ascii) : outcome Z :=
  ine_assert (bool_decide (length str <= 13)%nat) (Throw name_type_exception) ;;
  let value := string_to_uint64_t str in
  ine_assert (bool_decide (name_to_string value = str)) (Throw name_type_exception) ;;
  mret value.

End names.

(** ** Packing as a function of the characters *)

(** [slot i c]: the bits character [c] contributes at position [i]. *)
Definition slot (i : nat) (c : ascii) : Z :=
  if (i <? 12)%nat then
    Z.shiftl (Z.land (char_to_symbol c) 0x1f) (64 - 5 * (Z.of_nat i + 1))
  else if (i =? 12)%nat then Z.land (char_to_symbol c) 0x0F else 0.

Fixpoint enc (i : nat) (l : list ascii) : Z :=
  match l with
  | [] => 0
  | c :: l' => Z.lor (slot i c) (enc (S i) l')
  end.

Definition no_nul (l : list ascii) : Prop := Forall (fun c => cv c <> 0) l.

Lemma enc_app i l1 l2 :
  enc i (l1 ++ l2) = Z.lor (enc i l1) (enc (i + length l1) l2).
Proof.
  revert i. induction l1 as [|c l1 IH]; intros i; simpl.
  - by rewrite Nat.add_0_r.
  - rewrite IH, Z.lor_assoc. do 2 f_equal. lia.
Qed.

Lemma enc_dots i n : enc i (replicate n "."%char) = 0.
Proof.
  revert i. induction n as [|n IH]; intros i; simpl; [done|].
  rewrite IH, Z.lor_0_r. unfold slot.
  repeat case_match; try reflexivity.
  change (Z.land (char_to_symbol ".") 31) with 0. apply Z.shiftl_0_l.
Qed.

Lemma char_to_symbol_range c : 0 <= char_to_symbol c < 32.
Proof.
  unfold char_to_symbol.
  change (cv "a") with 97. change (cv "z") with 122.
  change (cv "1") with 49. change (cv "5") with 53.
  repeat case_bool; lia.
Qed.

Lemma land_31 x : 0 <= x < 32 -> Z.land x 0x1f = x.
Proof. intros. change 0x1f with (Z.ones 5). rewrite Z.land_ones by lia. by apply Z.mod_small. Qed.

Lemma slot_small i c :
  (i < 12)%nat ->
  u64 (Z.shiftl (Z.land (char_to_symbol c) 0x1f) (64 - 5 * (Z.of_nat i + 1))) = slot i c.
Proof.
  intros Hi. unfold slot. destruct (Nat.ltb_spec i 12); [|lia].
  pose proof (char_to_symbol_range c). rewrite land_31 by done.
  apply wrap_id. rewrite Z.shiftl_mul_pow2 by lia. split.
  - apply Z.mul_nonneg_nonneg; [lia|]. apply Z.pow_nonneg. lia.
  - apply Z.lt_le_trans with (2 ^ 5 * 2 ^ (64 - 5 * (Z.of_nat i + 1))).
    + apply Z.mul_lt_mono_pos_r; [apply Z.pow_pos_nonneg|]; lia.
    + rewrite <- Z.pow_add_r by lia. apply Z.pow_le_mono_r; lia.
Qed.

Lemma string_to_uint64_t_loop_enc str k i n :
  (k + i = 12)%nat -> no_nul str -> (i <= length str <= 13)%nat ->
  let '(n', i') := string_to_uint64_t_loop str k i n in
  n' = Z.lor n (enc i (take k (drop i str))) /\ i' = (Nat.min 12 (length str)).
Proof.
  intros Hk Hnn. revert i n Hk. induction k as [|k IH]; intros i n Hk Hlen;
    cbn [string_to_uint64_t_loop].
  - rewrite take_0, Z.lor_0_r. split; [done|lia].
  - destruct (str !! i) as [c|] eqn:Hc.
    + unfold char_at. rewrite Hc. change (default NUL (Some c)) with c.
      pose proof (Forall_lookup_1 _ _ _ _ Hnn Hc) as Hcn. simpl in Hcn.
      destruct (Z.eqb_spec (cv c) 0); [done|].
      pose proof (lookup_lt_Some _ _ _ Hc).
      rewrite slot_small by lia.
      specialize (IH (S i) (Z.lor n (slot i c)) ltac:(lia) ltac:(lia)).
      destruct (string_to_uint64_t_loop _ _ _ _) as [n' i'].
      destruct IH as [-> ->]. split; [|done].
      rewrite (drop_S _ _ _ Hc). cbn. by rewrite Z.lor_assoc.
    + unfold char_at. rewrite Hc. change (cv (default NUL None) =? 0) with true.
      apply lookup_ge_None in Hc. rewrite drop_ge, take_nil by lia.
      rewrite Z.lor_0_r. split; [done|lia].
Qed.

Lemma string_to_uint64_t_enc str :
  no_nul str -> (length str <= 13)%nat -> string_to_uint64_t str = enc 0 str.
Proof.
  intros Hnn Hlen. unfold string_to_uint64_t.
  pose proof (string_to_uint64_t_loop_enc str 12 0 0 eq_refl Hnn ltac:(lia)) as H.
  destruct (string_to_uint64_t_loop _ _ _ _) as [n i]. destruct H as [-> ->].
  rewrite Z.lor_0_l. change (drop 0 str) with str.
  destruct (Nat.eqb_spec (Nat.min 12 (length str)) 12) as [E|E].
  - rewrite <- (take_drop 12 str) at 3. rewrite enc_app, length_take, E.
    f_equal. unfold char_at.
    destruct (str !! 12%nat) as [c|] eqn:Hc.
    + rewrite (drop_S _ _ _ Hc). simpl.
      rewrite drop_ge by lia. simpl. by rewrite Z.lor_0_r.
    + apply lookup_ge_None in Hc. by rewrite drop_ge by lia.
  - rewrite take_ge by lia. done.
Qed.

(** ** Unpacking *)

(** The alphabet index stored at position [k] of [v]. *)
Definition sym_at (v : Z) (k : nat) : Z :=
  if (k =? 12)%nat then Z.land v 0x0f else Z.land (Z.shiftr v (59 - 5 * Z.of_nat k)) 0x1f.

Definition raw_chars (v : Z) : list ascii := (fun k => charmap_at (sym_at v k)) <$> seq 0 13.

Lemma to_string_loop_raw v :
  to_string_loop 13 0 v (replicate 13 "."%char) = raw_chars v.
Proof. cbn. rewrite !Z.shiftr_shiftr by lia. reflexivity. Qed.

Lemma charmap_symbol d : 0 <= d < 32 -> char_to_symbol (charmap_at d) = d.
Proof.
  intros H. assert (forallb (fun k => char_to_symbol (charmap_at (Z.of_nat k)) =? Z.of_nat k)
                      (seq 0 32) = true) as Hall by reflexivity.
  rewrite forallb_forall in Hall. specialize (Hall (Z.to_nat d)).
  rewrite Z2Nat.id in Hall by lia. apply Z.eqb_eq, Hall, in_seq. lia.
Qed.

Lemma sym_at_range v k : 0 <= sym_at v k < 32.
Proof.
  unfold sym_at. destruct (k =? 12)%nat.
  - change 0x0f with (Z.ones 4). rewrite Z.land_ones by lia.
    pose proof (Z.mod_pos_bound v (2 ^ 4)). lia.
  - change 0x1f with (Z.ones 5). rewrite Z.land_ones by lia.
    pose proof (Z.mod_pos_bound (Z.shiftr v (59 - 5 * Z.of_nat k)) (2 ^ 5)). lia.
Qed.

Lemma enc_step v a :
  0 <= a ->
  Z.lor (Z.shiftl (Z.land (Z.shiftr v a) 0x1f) a) (Z.land v (Z.ones a)) =
  Z.land v (Z.ones (a + 5)).
Proof. intros Ha. change 0x1f with (Z.ones 5). Z.bitblast. Qed.

Lemma enc_suffix v k :
  (k <= 12)%nat ->
  enc (12 - k) ((fun j => charmap_at (sym_at v j)) <$> seq (12 - k) (S k)) =
  Z.land v (Z.ones (4 + 5 * Z.of_nat k)).
Proof.
  induction k as [|k IH]; intros Hk.
  - simpl. unfold slot. simpl. rewrite charmap_symbol by apply sym_at_range.
    unfold sym_at. simpl. rewrite <- Z.land_assoc, Z.lor_0_r. reflexivity.
  - specialize (IH ltac:(lia)).
    change (seq (12 - S k) (S (S k))) with ((12 - S k)%nat :: seq (S (12 - S k)) (S k)).
    replace (S (12 - S k)) with (12 - k)%nat in * by lia.
    rewrite fmap_cons. cbn [enc]. replace (S (12 - S k)) with (12 - k)%nat by lia.
    rewrite IH. unfold slot.
    destruct (Nat.ltb_spec (12 - S k) 12); [|lia].
    rewrite charmap_symbol by apply sym_at_range.
    rewrite land_31 by apply sym_at_range. unfold sym_at.
    destruct (Nat.eqb_spec (12 - S k) 12); [lia|].
    replace (64 - 5 * (Z.of_nat (12 - S k) + 1)) with (4 + 5 * Z.of_nat k) by lia.
    replace (59 - 5 * Z.of_nat (12 - S k)) with (4 + 5 * Z.of_nat k) by lia.
    rewrite enc_step by lia. do 2 f_equal. lia.
Qed.

Lemma enc_raw v : is_uint 64 v -> enc 0 (raw_chars v) = v.
Proof.
  intros Hv. transitivity (Z.land v (Z.ones (4 + 5 * Z.of_nat 12))).
  - apply (enc_suffix v 12). lia.
  - change (4 + 5 * Z.of_nat 12) with 64. rewrite Z.land_ones by lia.
    by apply Z.mod_small.
Qed.

Lemma charmap_at_nonnul d : 0 <= d < 32 -> cv (charmap_at d) <> 0.
Proof.
  intros Hd. unfold charmap_at.
  destruct (lookup_lt_is_Some_2 charmap (Z.to_nat d)) as [c Hc].
  { change (length charmap) with 32%nat. lia. }
  rewrite Hc. simpl.
  assert (Forall (fun c => cv c <> 0) charmap) as Hall.
  { apply (bool_decide_unpack _). vm_compute. exact I. }
  exact (Forall_lookup_1 _ _ _ _ Hall Hc).
Qed.

Lemma raw_chars_no_nul v : no_nul (raw_chars v).
Proof.
  unfold no_nul, raw_chars. apply Forall_fmap, Forall_forall. intros k _.
  apply charmap_at_nonnul, sym_at_range.
Qed.

Lemma is_dot_eq c : is_dot c = true -> c = "."%char.
Proof.
  destruct c as [[] [] [] [] [] [] [] []]; intros H; try done; discriminate H.
Qed.

(** ** Which strings are names *)

(** The strings the documentation of name.hpp calls normalized: at most
    thirteen characters of the alphabet, no trailing dot, and a thirteenth
    character from the first half of the alphabet. *)
Definition normalized_name (str : list ascii) : Prop :=
  (length str <= 13)%nat /\ Forall (fun c => c ∈ charmap) str /\
  (forall u c, str = u ++ [c] -> is_dot c = false) /\
  (forall c, str !! 12%nat = Some c -> char_to_symbol c < 16).

Lemma extract_bits A x C s w :
  0 <= s -> 0 <= w ->
  (forall n, n < s + w -> Z.testbit A n = false) ->
  (forall n, s <= n -> Z.testbit C n = false) ->
  Z.land (Z.shiftr (Z.lor A (Z.lor (Z.shiftl (Z.land x (Z.ones w)) s) C)) s) (Z.ones w) =
  Z.land x (Z.ones w).
Proof.
  intros Hs Hw HA HC. apply Z.bits_inj'. intros n Hn.
  rewrite !Z.land_spec, Z.shiftr_spec, !Z.lor_spec, Z.shiftl_spec, !Z.land_spec by lia.
  rewrite (HC (n + s)) by lia. replace (n + s - s) with n by lia.
  destruct (Z.ltb_spec n w).
  - rewrite (HA (n + s)) by lia. by destruct (Z.testbit x n), (Z.testbit (Z.ones w) n).
  - rewrite (Z.ones_spec_high w n) by lia. by rewrite !andb_false_r.
Qed.

Lemma slot_bits i c n :
  (n < 64 - 5 * (Z.of_nat i + 1) -> (i < 12)%nat -> Z.testbit (slot i c) n = false) /\
  (64 - 5 * Z.of_nat i <= n -> Z.testbit (slot i c) n = false).
Proof.
  unfold slot. change 0x1f with (Z.ones 5). change 0x0F with (Z.ones 4).
  destruct (Z.ltb_spec n 0) as [?|Hn0].
  { by rewrite !Z.testbit_neg_r by done. }
  split; intros.
  - destruct (Nat.ltb_spec i 12); [|lia]. by rewrite Z.shiftl_spec_low by lia.
  - destruct (Nat.ltb_spec i 12).
    + rewrite Z.shiftl_spec, Z.land_spec, (Z.ones_spec_high 5) by lia. by rewrite andb_false_r.
    + destruct (Nat.eqb_spec i 12); [|apply Z.bits_0]. subst i.
      rewrite Z.land_spec, (Z.ones_spec_high 4) by lia. by rewrite andb_false_r.
Qed.

Lemma enc_high i l n : 64 - 5 * Z.of_nat i <= n -> Z.testbit (enc i l) n = false.
Proof.
  revert i. induction l as [|c l IH]; intros i Hn; cbn [enc]; [apply Z.bits_0|].
  rewrite Z.lor_spec, (proj2 (slot_bits i c n)), IH by lia. done.
Qed.

Lemma enc_low i l n :
  (i + length l <= 12)%nat ->
  n < 64 - 5 * Z.of_nat (i + length l) -> Z.testbit (enc i l) n = false.
Proof.
  revert i. induction l as [|c l IH]; intros i Hi Hn; cbn [enc]; [apply Z.bits_0|].
  simpl in Hi, Hn. rewrite Z.lor_spec, (proj1 (slot_bits i c n)), IH by lia. done.
Qed.

Lemma sym_at_enc l k c :
  length l = 13%nat -> l !! k = Some c -> (k = 12%nat -> char_to_symbol c < 16) ->
  sym_at (enc 0 l) k = char_to_symbol c.
Proof.
  intros Hl Hk H12. pose proof (char_to_symbol_range c) as Hc.
  pose proof (lookup_lt_Some _ _ _ Hk) as Hlt.
  assert (enc 0 l = Z.lor (enc 0 (take k l)) (Z.lor (slot k c) (enc (S k) (drop (S k) l)))) as ->.
  { rewrite <- (take_drop_middle l k c Hk) at 1. rewrite enc_app, length_take. cbn [enc].
    by replace (0 + k `min` length l)%nat with k by lia. }
  unfold sym_at, slot. change 0x1f with (Z.ones 5). change 0x0f with (Z.ones 4).
  destruct (Nat.eqb_spec k 12) as [->|Hne].
  - change (12 <? 12)%nat with false. change (12 =? 12)%nat with true. cbv iota.
    rewrite <- (Z.shiftr_0_r (Z.lor _ _)), <- (Z.shiftl_0_r (Z.land (char_to_symbol c) _)).
    rewrite extract_bits; [| | |intros; apply enc_low|intros; apply enc_high]; rewrite ?length_take;
      try lia.
    rewrite Z.land_ones by lia. apply Z.mod_small. lia.
  - destruct (Nat.ltb_spec k 12); [|lia].
    replace (64 - 5 * (Z.of_nat k + 1)) with (59 - 5 * Z.of_nat k) by lia.
    rewrite extract_bits; [| | |intros; apply enc_low|intros; apply enc_high]; rewrite ?length_take;
      try lia.
    rewrite Z.land_ones by lia. apply Z.mod_small. lia.
Qed.

Lemma charmap_at_symbol c : c ∈ charmap -> charmap_at (char_to_symbol c) = c.
Proof.
  assert (Forall (fun c => charmap_at (char_to_symbol c) = c) charmap) as Hall.
  { apply (bool_decide_unpack _). vm_compute. exact I. }
  intros Hc. exact (proj1 (list.Forall_forall _ _) Hall c Hc).
Qed.

Lemma raw_chars_enc l :
  length l = 13%nat -> Forall (fun c => c ∈ charmap) l ->
  (forall c, l !! 12%nat = Some c -> char_to_symbol c < 16) ->
  raw_chars (enc 0 l) = l.
Proof.
  intros Hl Hcm H12. apply list_eq. intros k. unfold raw_chars. rewrite list_lookup_fmap.
  destruct (l !! k) as [c|] eqn:Hk.
  - pose proof (lookup_lt_Some _ _ _ Hk).
    rewrite lookup_seq_lt by lia. simpl.
    rewrite (sym_at_enc l k c) by naive_solver.
    f_equal. apply charmap_at_symbol. exact (Forall_lookup_1 _ _ _ _ Hcm Hk).
  - apply lookup_ge_None in Hk. rewrite lookup_seq_ge by lia. done.
Qed.

Lemma charmap_at_elem d : 0 <= d < 32 -> charmap_at d ∈ charmap.
Proof.
  intros Hd. unfold charmap_at.
  destruct (lookup_lt_is_Some_2 charmap (Z.to_nat d)) as [c Hc].
  { change (length charmap) with 32%nat. lia. }
  rewrite Hc. simpl. by eapply list_elem_of_lookup_2.
Qed.

Lemma charmap_no_nul l : Forall (fun c => c ∈ charmap) l -> no_nul l.
Proof.
  apply Forall_impl. intros c Hc. rewrite <- (charmap_at_symbol c Hc).
  apply charmap_at_nonnul, char_to_symbol_range.
Qed.

Lemma trim_unique (p : ascii -> bool) (s1 s2 t1 t2 : list ascii) :
  s1 ++ t1 = s2 ++ t2 ->
  Forall (fun c => p c = true) t1 -> Forall (fun c => p c = true) t2 ->
  (forall u c, s1 = u ++ [c] -> p c = false) ->
  (forall u c, s2 = u ++ [c] -> p c = false) -> s1 = s2.
Proof.
  intros E H1 H2 Hl1 Hl2.
  apply app_eq_inv in E as [(k & -> & ->) | (k & -> & ->)].
  - destruct k as [|c k _] using rev_ind; [by rewrite app_nil_r|].
    specialize (Hl1 (s2 ++ k) c). rewrite app_assoc in Hl1. specialize (Hl1 eq_refl).
    rewrite <- !app_assoc in H2. apply Forall_app in H2 as [_ H2].
    inversion H2; congruence.
  - destruct k as [|c k _] using rev_ind; [by rewrite app_nil_r|].
    specialize (Hl2 (s1 ++ k) c). rewrite app_assoc in Hl2. specialize (Hl2 eq_refl).
    rewrite <- !app_assoc in H1. apply Forall_app in H1 as [_ H1].
    inversion H1; congruence.
Qed.

Lemma string_to_uint64_t_loop_range str k i n :
  is_uint 64 n -> is_uint 64 (string_to_uint64_t_loop str k i n).1.
Proof.
  revert i n. induction k as [|k IH]; intros i n Hn; cbn [string_to_uint64_t_loop]; [done|].
  case_match; [done|]. apply IH, lor_range; auto using wrap_range with lia.
Qed.

Lemma string_to_uint64_t_range str : is_uint 64 (string_to_uint64_t str).
Proof.
  unfold string_to_uint64_t.
  pose proof (string_to_uint64_t_loop_range str 12 0 0 ltac:(by split)) as H.
  destruct (string_to_uint64_t_loop str 12 0 0) as [n i]. simpl in H.
  case_match; [|done]. apply lor_range; [done|done|]. change 0x0F with (Z.ones 4).
  rewrite Z.land_ones by lia. pose proof (Z.mod_pos_bound (char_to_symbol (char_at str 12)) (2 ^ 4)).
  split; lia.
Qed.

Section round_trip.
Context `{HB : BoostText, !BoostTextLaws HB}.

(** What trimming removes from the thirteen characters is dots only. *)
Lemma name_to_string_raw v :
  exists n, raw_chars v = name_to_string v ++ replicate n "."%char.
Proof.
  unfold name_to_string. rewrite to_string_loop_raw.
  destruct (trim_right_if_spec is_dot (raw_chars v)) as (t & Ht & Hd & _).
  exists (length t). rewrite Ht at 1. f_equal.
  symmetry. apply replicate_as_Forall_2; [done|].
  eapply Forall_impl; [|exact Hd]. intros c Hc. symmetry. by apply is_dot_eq.
Qed.

Lemma name_to_string_length v : (length (name_to_string v) <= 13)%nat.
Proof.
  destruct (name_to_string_raw v) as [n E]. apply (f_equal length) in E.
  rewrite length_app in E. change (length (raw_chars v)) with 13%nat in E. lia.
Qed.

Lemma name_to_string_no_nul v : no_nul (name_to_string v).
Proof.
  destruct (name_to_string_raw v) as [n E]. pose proof (raw_chars_no_nul v) as H.
  rewrite E in H. by apply Forall_app in H as [? _].
Qed.

Lemma string_to_uint64_t_to_string v :
  is_uint 64 v -> string_to_uint64_t (name_to_string v) = v.
Proof.
  intros Hv. rewrite string_to_uint64_t_enc
    by auto using name_to_string_no_nul, name_to_string_length.
  destruct (name_to_string_raw v) as [n E].
  rewrite <- (enc_raw v Hv) at 2. by rewrite E, enc_app, enc_dots, Z.lor_0_r.
Qed.

(** Packing is a left inverse of printing, so every 64-bit value is the name
    of exactly one string. *)
Theorem name_roundtrip v :
  is_uint 64 v -> name_set (name_to_string v) = Ok v.
Proof.
  intros Hv. unfold name_set. rewrite string_to_uint64_t_to_string by done.
  rewrite !bool_decide_eq_true_2 by auto using name_to_string_length. done.
Qed.

Lemma name_to_string_enc str :
  normalized_name str -> name_to_string (enc 0 str) = str.
Proof.
  intros (Hlen & Hcm & Hlast & H12).
  set (l := str ++ replicate (13 - length str) "."%char).
  assert (enc 0 str = enc 0 l) as E.
  { unfold l. by rewrite enc_app, enc_dots, Z.lor_0_r. }
  assert (raw_chars (enc 0 str) = l) as Hraw.
  { rewrite E. apply raw_chars_enc.
    - unfold l. rewrite length_app, length_replicate. lia.
    - unfold l. apply Forall_app. split; [done|]. apply Forall_replicate.
      apply (bool_decide_unpack _). vm_compute. exact I.
    - unfold l. intros c [Hc|[Hge Hc]]%lookup_app_Some; [by apply H12|].
      apply lookup_replicate in Hc as [-> _]. done. }
  destruct (trim_right_if_spec is_dot (raw_chars (enc 0 str))) as (t & Ht & Hd & Hnl).
  unfold name_to_string. rewrite to_string_loop_raw.
  apply (trim_unique is_dot _ _ t (replicate (13 - length str) "."%char)); auto.
  - by rewrite <- Ht, Hraw.
  - by apply Forall_replicate.
Qed.

Lemma name_to_string_normalized v : is_uint 64 v -> normalized_name (name_to_string v).
Proof.
  intros Hv. destruct (name_to_string_raw v) as [n E].
  assert (forall k c, name_to_string v !! k = Some c -> c = charmap_at (sym_at v k)) as Hget.
  { intros k c Hk. assert (raw_chars v !! k = Some c) as Hr.
    { rewrite E. by apply lookup_app_l_Some. }
    unfold raw_chars in Hr. rewrite list_lookup_fmap in Hr.
    pose proof (lookup_lt_Some _ _ _ Hk). pose proof (name_to_string_length v).
    rewrite lookup_seq_lt in Hr by lia. by injection Hr as <-. }
  split_and!.
  - apply name_to_string_length.
  - apply Forall_lookup_2. intros k c Hk. rewrite (Hget k c Hk).
    apply charmap_at_elem, sym_at_range.
  - unfold name_to_string.
    destruct (trim_right_if_spec is_dot
                (to_string_loop 13 0 v (replicate 13 "."%char))) as (t & _ & _ & Hn).
    exact Hn.
  - intros c Hc. rewrite (Hget _ c Hc), charmap_symbol by apply sym_at_range.
    unfold sym_at. simpl. change 15 with (Z.ones 4). rewrite Z.land_ones by lia.
    pose proof (Z.mod_pos_bound v (2 ^ 4)). lia.
Qed.

(** The constructor accepts exactly the normalized strings, and rejects every
    other string with name_type_exception. *)
Theorem name_set_accepts str :
  (normalized_name str -> name_set str = Ok (enc 0 str)) /\
  (~ normalized_name str -> name_set str = Err (Throw name_type_exception)).
Proof.
  split.
  - intros Hn. pose proof Hn as (Hlen & Hcm & _ & _). unfold name_set.
    rewrite (bool_decide_eq_true_2 (length str <= 13)%nat) by done. cbn [ine_assert mbind result_bind].
    rewrite string_to_uint64_t_enc by (auto using charmap_no_nul).
    rewrite name_to_string_enc by exact Hn. by rewrite bool_decide_eq_true_2 by done.
  - intros Hn. unfold name_set.
    destruct (bool_decide (length str <= 13)%nat); [|reflexivity].
    cbn [ine_assert mbind result_bind].
    destruct (bool_decide_reflect (name_to_string (string_to_uint64_t str) = str)) as [E|];
      [|reflexivity]. destruct Hn. rewrite <- E.
    apply name_to_string_normalized, string_to_uint64_t_range.
Qed.
End round_trip.

Lemma name_roundtrip_witness :
  name_set (H := reference_boost)
    (name_to_string (H := reference_boost) 0x5530EA0000000000) = Ok 0x5530EA0000000000.
Proof.
  apply (name_roundtrip (HB := reference_boost) (BoostTextLaws0 := reference_boost_laws)).
  split; [lia|reflexivity].
Defined.

Lemma name_set_accepts_witness :
  name_set (H := reference_boost) (lit "inery.null") = Ok (enc 0 (lit "inery.null")) /\
  name_set (H := reference_boost) (lit "Inery") = Err (Throw name_type_exception).
Proof.
  split.
  - apply (name_set_accepts (HB := reference_boost) (BoostTextLaws0 := reference_boost_laws)).
    split_and!.
    + vm_compute. lia.
    + apply (bool_decide_unpack _). vm_compute. exact I.
    + intros u c E. apply (f_equal reverse) in E. rewrite reverse_snoc in E.
      injection E as <- _. reflexivity.
    + intros c [=].
  - apply (name_set_accepts (HB := reference_boost) (BoostTextLaws0 := reference_boost_laws)).
    intros (_ & Hc & _). apply (Forall_lookup_1 _ _ 0%nat "I"%char) in Hc; [|reflexivity].
    revert Hc. change (~ ("I"%char ∈ charmap)).
    apply (bool_decide_unpack _). vm_compute. exact I.
Defined.
