(* ===== verification/Merkle.v ===== *)
(** * Merkle trees

    Models libraries/chain/merkle.cpp, merkle.hpp and
    incremental_merkle.hpp: the canonical left/right marking of digests, the
    in-place computation of a Merkle root over a vector of digests, and the
    incremental tree that is extended one digest at a time.  The hash of a
    pair of digests is computed outside the repository's own code and is the
    parameter [hash] of the section. *)

From Equations Require Import Equations.
From S2P Require Import Prelude Exceptions.

(** [fc::sha256]: four 64-bit words. *)
Record sha256 := mk_sha256 { h0 : Z; h1 : Z; h2 : Z; h3 : Z }.

#[export] Instance sha256_eq_dec : EqDecision sha256.
Proof. solve_decision. Defined.

(** [digest_type()] *)
Definition zero_digest : sha256 := mk_sha256 0 0 0 0.

Definition make_canonical_left (val : sha256) : sha256 :=
  mk_sha256 (Z.land (h0 val) 0xFFFFFFFFFFFFFF7F) (h1 val) (h2 val) (h3 val).

Definition make_canonical_right (val : sha256) : sha256 :=
  mk_sha256 (Z.lor (h0 val) 0x0000000000000080) (h1 val) (h2 val) (h3 val).

Definition is_canonical_left (val : sha256) : bool :=
  Z.land (h0 val) 0x0000000000000080 =? 0.

Definition is_canonical_right (val : sha256) : bool :=
  negb (Z.land (h0 val) 0x0000000000000080 =? 0).

Definition make_canonical_pair (l r : sha256) : sha256 * sha256 :=
  (make_canonical_left l, make_canonical_right r).

(** ** Depth of a tree, on 64-bit words *)

Definition next_power_of_2 (value : Z) : Z :=
  let value := u64 (value - 1) in
  let value := Z.lor value (Z.shiftr value 1) in
  let value := Z.lor value (Z.shiftr value 2) in
  let value := Z.lor value (Z.shiftr value 4) in
  let value := Z.lor value (Z.shiftr value 8) in
  let value := Z.lor value (Z.shiftr value 16) in
  let value := Z.lor value (Z.shiftr value 32) in
  u64 (value + 1).

Definition clz_power_2 (value : Z) : Z :=
  let test mask := negb (Z.land value mask =? 0) in
  let lz := 64 in
  let lz := if negb (value =? 0) then lz - 1 else lz in
  let lz := if test 0x00000000FFFFFFFF then lz - 32 else lz in
  let lz := if test 0x0000FFFF0000FFFF then lz - 16 else lz in
  let lz := if test 0x00FF00FF00FF00FF then lz - 8 else lz in
  let lz := if test 0x0F0F0F0F0F0F0F0F then lz - 4 else lz in
  let lz := if test 0x3333333333333333 then lz - 2 else lz in
  let lz := if test 0x5555555555555555 then lz - 1 else lz in
  lz.

Definition calcluate_max_depth (node_count : Z) : Z :=
  if node_count =? 0 then 0
  else let implied_count := next_power_of_2 node_count in
       clz_power_2 implied_count + 1.

Section merkle.
Context (hash : sha256 * sha256 -> sha256).

(** ** The root of a vector of digests *)

(** The for loop: [n] iterations from [i] that overwrite the front half. *)
Fixpoint merkle_for (n i : nat) (ids : list sha256) : list sha256 :=
  match n with
  | O => ids
  | S n' =>
      let l := default zero_digest (ids !! (2 * i)%nat) in
      let r := default zero_digest (ids !! (2 * i + 1)%nat) in
      merkle_for n' (S i) (<[i := hash (make_canonical_pair l r)]> ids)
  end.

(** One iteration of the while loop. *)
Definition merkle_round (ids : list sha256) : list sha256 :=
  let ids := if Nat.odd (length ids)
             then ids ++ [default zero_digest (back ids)] else ids in
  let half := (length ids / 2)%nat in
  take half (merkle_for half 0 ids).

Lemma length_merkle_for n i ids : length (merkle_for n i ids) = length ids.
Proof.
  revert i ids. induction n as [|n IH]; intros i ids; simpl; [done|].
  by rewrite IH, length_insert.
Qed.

(** The reference reading of a round: hash neighbours in pairs. *)
Fixpoint pairs (l : list sha256) : list sha256 :=
  match l with
  | a :: b :: l' => hash (make_canonical_pair a b) :: pairs l'
  | _ => []
  end.

Lemma list_pair_ind {A} (P : list A -> Prop) :
  P [] -> (forall a, P [a]) -> (forall a b l, P l -> P (a :: b :: l)) -> forall l, P l.
Proof.
  intros H0 H1 H2. fix IH 1. intros [|a [|b l]]; [done|apply H1|]. apply H2, IH.
Qed.

Lemma length_pairs l : length (pairs l) = (length l / 2)%nat.
Proof.
  induction l as [|a|a b l IH] using list_pair_ind; [done|done|].
  cbn [pairs length]. rewrite IH. change (S (S (length l))) with (2 + length l)%nat.
  symmetry. apply (Nat.div_add_l 1 2 (length l)). lia.
Qed.

Lemma pairs_lookup l i :
  (2 * i + 1 < length l)%nat ->
  pairs l !! i = Some (hash (make_canonical_pair
                         (default zero_digest (l !! (2 * i)%nat))
                         (default zero_digest (l !! (2 * i + 1)%nat)))).
Proof.
  revert i. induction l as [|a|a b l IH] using list_pair_ind; intros i Hi; simpl in Hi; [lia|lia|].
  destruct i as [|i]; [done|]. cbn [pairs]. rewrite lookup_cons_ne_0 by done. simpl pred.
  rewrite IH by lia. replace (2 * S i)%nat with (S (S (2 * i))) by lia. done.
Qed.

Lemma merkle_for_spec orig n i :
  (2 * (i + n) <= length orig)%nat ->
  merkle_for n i (take i (pairs orig) ++ drop i orig) =
  take (i + n) (pairs orig) ++ drop (i + n) orig.
Proof.
  revert i. induction n as [|n IH]; intros i Hi; cbn [merkle_for].
  - by rewrite Nat.add_0_r.
  - assert (length (pairs orig) = length orig / 2)%nat as Hlen by apply length_pairs.
    assert (i + S n <= length orig / 2)%nat as Hn by (apply Nat.div_le_lower_bound; lia).
    assert (length (take i (pairs orig)) = i) as Hti by (rewrite length_take; lia).
    assert (forall k, (i <= k)%nat ->
              (take i (pairs orig) ++ drop i orig) !! k = orig !! k) as Hget.
    { intros k Hk. rewrite lookup_app_r, lookup_drop by lia. f_equal. lia. }
    rewrite !Hget by lia. replace (i + S n)%nat with (S i + n)%nat by lia.
    rewrite <- IH by lia. f_equal.
    rewrite insert_app_r_alt by lia. rewrite Hti, Nat.sub_diag.
    destruct (lookup_lt_is_Some_2 orig i) as [x Hx]; [lia|].
    rewrite (drop_S _ _ _ Hx). cbn [insert list_insert].
    erewrite take_S_r by (apply pairs_lookup; lia). by rewrite <- app_assoc.
Qed.

(** [pad_even]: push_back( back() ) when the size is odd. *)
Definition pad_even (ids : list sha256) : list sha256 :=
  if Nat.odd (length ids)
  then ids ++ [default zero_digest (back ids)] else ids.

Lemma merkle_round_pairs ids : merkle_round ids = pairs (pad_even ids).
Proof.
  unfold merkle_round. fold (pad_even ids). set (l := pad_even ids).
  pose proof (merkle_for_spec l (length l / 2) 0) as H.
  rewrite take_0, drop_0, app_nil_l, Nat.add_0_l in H.
  rewrite H by (pose proof (Nat.Div0.mul_div_le (length l) 2); lia).
  rewrite take_app_le, take_take by (rewrite length_take, length_pairs; lia).
  apply take_ge. rewrite length_pairs. lia.
Qed.

Lemma length_merkle_round ids :
  (1 < length ids)%nat -> (0 < length (merkle_round ids) < length ids)%nat.
Proof.
  intros Hl. rewrite merkle_round_pairs, length_pairs. unfold pad_even.
  destruct (Nat.odd (length ids)); rewrite ?length_app; simpl length; split;
    try (apply Nat.div_str_pos; lia); apply Nat.Div0.div_lt_upper_bound; lia.
Qed.

(** The while loop of [merkle]. *)
Equations? merkle_while (ids : list sha256) : list sha256 by wf (length ids) lt :=
  merkle_while ids with decide (1 < length ids)%nat => {
    | left _ := merkle_while (merkle_round ids);
    | right _ := ids }.
Proof. apply length_merkle_round. lia. Qed.

Definition merkle (ids : list sha256) : sha256 :=
  if (length ids =? 0)%nat then zero_digest
  else default zero_digest (merkle_while ids !! 0%nat).

(** ** The incremental tree *)

Record incremental_merkle := mk_incremental_merkle {
  _node_count : Z;
  _active_nodes : list sha256
}.

Definition incremental_merkle_init : incremental_merkle := mk_incremental_merkle 0 [].

(** The while loop of [append]; [active] is what is left from [active_iter]
    on.  Reading past the end of the old active nodes is undefined. *)
Fixpoint append_loop (current_depth : nat) (index : Z) (top : sha256) (partial : bool)
    (active updated_active_nodes : list sha256) : outcome (sha256 * list sha256) :=
  match current_depth with
  | O => Ok (top, updated_active_nodes)
  | S current_depth' =>
      if Z.land index 0x1 =? 0 then
        append_loop current_depth' (Z.shiftr index 1)
          (hash (make_canonical_pair top top)) true active
          (if negb partial then updated_active_nodes ++ [top] else updated_active_nodes)
      else
        match active with
        | [] => Err undefined_behaviour
        | left_value :: active' =>
            append_loop current_depth' (Z.shiftr index 1)
              (hash (make_canonical_pair left_value top)) partial active'
              (if partial then updated_active_nodes ++ [left_value]
               else updated_active_nodes)
        end
  end.

(** [append]: the new tree and the new root. *)
Definition append (t : incremental_merkle) (digest : sha256) :
    outcome (incremental_merkle * sha256) :=
  let max_depth := calcluate_max_depth (u64 (_node_count t + 1)) in
  '(top, updated) ← append_loop (Z.to_nat (max_depth - 1)) (_node_count t) digest false
                      (_active_nodes t) [];
  mret (mk_incremental_merkle (u64 (_node_count t + 1)) (updated ++ [top]), top).

Definition get_root (t : incremental_merkle) : sha256 :=
  if 0 <? _node_count t
  then default zero_digest (back (_active_nodes t))
  else zero_digest.

(** [append] for each digest of a list in turn. *)
Fixpoint append_all (t : incremental_merkle) (l : list sha256) : outcome incremental_merkle :=
  match l with
  | [] => Ok t
  | d :: l' => '(t', _) ← append t d; append_all t' l'
  end.

(** ** Correctness of the depth computation *)

(** [top_ones L m y]: bits [L - m + 1 .. L] of [y] are set, none above. *)
Definition top_ones (L m y : Z) : Prop :=
  (forall i, L < i -> Z.testbit y i = false) /\
  (forall i, 0 <= i -> L - m < i <= L -> Z.testbit y i = true).

Lemma top_ones_step L m y s :
  0 <= s <= m -> top_ones L m y -> top_ones L (m + s) (Z.lor y (Z.shiftr y s)).
Proof.
  intros Hs [Hhi Hlo]. split; intros i Hi; [|intros Hi'].
  - destruct (Z.ltb_spec i 0); [by apply Z.testbit_neg_r|].
    rewrite Z.lor_spec, Z.shiftr_spec, !Hhi by lia. done.
  - rewrite Z.lor_spec, Z.shiftr_spec by lia.
    destruct (Z.ltb_spec (L - m) i); [by rewrite Hlo by lia|].
    rewrite (Hlo (i + s)) by lia. apply orb_true_r.
Qed.

Lemma top_ones_full L y : 0 <= L -> top_ones L (L + 1) y -> y = Z.ones (L + 1).
Proof.
  intros HL [Hhi Hlo]. apply Z.bits_inj'. intros i Hi.
  destruct (Z.leb_spec i L).
  - rewrite Hlo, Z.ones_spec_low by lia. done.
  - rewrite Hhi, Z.ones_spec_high by lia. done.
Qed.

Lemma top_ones_mono L m m' y : m' <= m -> top_ones L m y -> top_ones L m' y.
Proof. intros H [Hhi Hlo]. split; [done|]. intros. apply Hlo; lia. Qed.

Lemma next_power_of_2_spec v :
  1 <= v <= 2 ^ 63 -> next_power_of_2 v = 2 ^ Z.log2_up v.
Proof.
  intros Hv. unfold next_power_of_2. rewrite (wrap_id 64 (v - 1)) by (unfold is_uint; lia).
  destruct (Z.eq_dec v 1) as [->|Hne]; [reflexivity|].
  assert (Z.log2_up v = Z.log2 (v - 1) + 1) as -> by (apply Z.log2_up_eqn; lia).
  set (L := Z.log2 (v - 1)).
  assert (0 <= L) as HL by apply Z.log2_nonneg.
  assert (L < 63) as HL' by (apply Z.log2_lt_pow2; lia).
  assert (top_ones L 1 (v - 1)) as H1.
  { split; intros i Hi; [|intros Hi'].
    - apply Z.bits_above_log2; lia.
    - replace i with L by lia. apply Z.bit_log2. lia. }
  apply (top_ones_step L 1 _ 1) in H1; [|lia].
  apply (top_ones_step L 2 _ 2) in H1; [|lia].
  apply (top_ones_step L 4 _ 4) in H1; [|lia].
  apply (top_ones_step L 8 _ 8) in H1; [|lia].
  apply (top_ones_step L 16 _ 16) in H1; [|lia].
  apply (top_ones_step L 32 _ 32) in H1; [|lia].
  apply (top_ones_mono _ _ (L + 1)) in H1; [|lia].
  apply top_ones_full in H1; [|lia]. rewrite H1, Z.ones_equiv.
  replace (Z.pred (2 ^ (L + 1)) + 1) with (2 ^ (L + 1)) by lia.
  apply wrap_id. split; [apply Z.pow_nonneg; lia|]. apply Z.pow_lt_mono_r; lia.
Qed.

Lemma clz_power_2_spec k : 0 <= k < 64 -> clz_power_2 (2 ^ k) = k.
Proof.
  intros Hk.
  assert (forallb (fun j => clz_power_2 (2 ^ Z.of_nat j) =? Z.of_nat j) (seq 0 64) = true)
    as Hall by (vm_compute; reflexivity).
  rewrite forallb_forall in Hall. specialize (Hall (Z.to_nat k)).
  rewrite Z2Nat.id in Hall by lia. apply Z.eqb_eq, Hall, in_seq. lia.
Qed.

Lemma calcluate_max_depth_spec n :
  1 <= n <= 2 ^ 63 -> calcluate_max_depth n = Z.log2_up n + 1.
Proof.
  intros Hn. unfold calcluate_max_depth. destruct (Z.eqb_spec n 0); [lia|].
  rewrite next_power_of_2_spec by done. f_equal. apply clz_power_2_spec.
  split; [apply Z.log2_up_nonneg|].
  apply Z.le_lt_trans with (Z.log2_up (2 ^ 63)); [apply Z.log2_up_le_mono; lia|reflexivity].
Qed.

(** ** The incremental tree computes the batch root *)

(** The digests of the complete subtrees a later append will combine with:
    one for each set bit of the number of leaves, lowest level first. *)
Fixpoint frontier (d : nat) (C : list sha256) : list sha256 :=
  match d with
  | O => []
  | S d' => (if Nat.odd (length C) then [default zero_digest (back C)] else []) ++
            frontier d' (pairs C)
  end.

Fixpoint iter_round (d : nat) (L : list sha256) : list sha256 :=
  match d with O => L | S d' => iter_round d' (merkle_round L) end.

Lemma length_pairs_lt d C : (length C < 2 ^ S d)%nat -> (length (pairs C) < 2 ^ d)%nat.
Proof.
  intros H. rewrite length_pairs. rewrite Nat.pow_succ_r' in H.
  apply Nat.Div0.div_lt_upper_bound. lia.
Qed.

Lemma frontier_stable d C :
  (length C < 2 ^ d)%nat -> frontier (S d) C = frontier d C.
Proof.
  revert C. induction d as [|d IH]; intros C HC.
  - simpl in HC. by destruct C; simpl in *; [|lia].
  - cbn [frontier]. f_equal. apply IH. by apply length_pairs_lt.
Qed.

Lemma pairs_app_even C D :
  Nat.odd (length C) = false -> pairs (C ++ D) = pairs C ++ pairs D.
Proof.
  induction C as [|a|a b C IH] using list_pair_ind; intros HC; [done|done|].
  cbn [pairs app]. f_equal. by apply IH.
Qed.

Lemma pairs_snoc_odd C a :
  Nat.odd (length C) = false -> pairs (C ++ [a]) = pairs C.
Proof. intros HC. rewrite pairs_app_even by done. apply app_nil_r. Qed.

Lemma length_snoc_odd {A} (C : list A) (x : A) :
  Nat.odd (length (C ++ [x])) = negb (Nat.odd (length C)).
Proof. rewrite length_app, Nat.add_1_r, Nat.odd_succ, <- Nat.negb_odd. done. Qed.

(** One round applied to complete digests [C] followed by [top]. *)
Lemma merkle_round_even C top :
  Nat.odd (length C) = false ->
  merkle_round (C ++ [top]) = pairs C ++ [hash (make_canonical_pair top top)].
Proof.
  intros HC. rewrite merkle_round_pairs. unfold pad_even.
  rewrite length_snoc_odd, HC, back_snoc. simpl.
  by rewrite <- app_assoc, pairs_app_even by done.
Qed.

Lemma merkle_round_odd C left_value top :
  Nat.odd (length C) = false ->
  merkle_round ((C ++ [left_value]) ++ [top]) =
  pairs C ++ [hash (make_canonical_pair left_value top)].
Proof.
  intros HC. rewrite merkle_round_pairs. unfold pad_even.
  rewrite !length_snoc_odd, HC. simpl. by rewrite <- app_assoc, pairs_app_even by done.
Qed.

Lemma odd_land n : (Z.land (Z.of_nat n) 1 =? 0) = negb (Nat.odd n).
Proof.
  change 1 with (Z.ones 1). rewrite Z.land_ones by lia. change (2 ^ 1) with 2.
  destruct (Nat.odd n) eqn:H.
  - apply Nat.odd_spec in H as [k ->]. apply Z.eqb_neq.
    replace (Z.of_nat (2 * k + 1)) with (1 + Z.of_nat k * 2) by lia.
    by rewrite Z.mod_add by lia.
  - rewrite <- Nat.negb_even in H. apply negb_false_iff, Nat.even_spec in H as [k ->].
    apply Z.eqb_eq. replace (Z.of_nat (2 * k)) with (0 + Z.of_nat k * 2) by lia.
    by rewrite Z.mod_add by lia.
Qed.

Lemma shiftr_half n : Z.shiftr (Z.of_nat n) 1 = Z.of_nat (n / 2).
Proof. rewrite Z.shiftr_div_pow2 by lia. by rewrite Nat2Z.inj_div. Qed.

Lemma odd_snoc {A} (C : list A) :
  Nat.odd (length C) = true ->
  exists C0 x, C = C0 ++ [x] /\ Nat.odd (length C0) = false.
Proof.
  destruct C as [|x C0 _] using rev_ind; [done|]. intros H. exists C0, x.
  split; [done|]. rewrite length_snoc_odd in H. by destruct (Nat.odd (length C0)).
Qed.

Lemma frontier_odd d C x :
  Nat.odd (length C) = false -> frontier (S d) (C ++ [x]) = x :: frontier d (pairs C).
Proof.
  intros HC. cbn [frontier]. by rewrite length_snoc_odd, HC, back_snoc, pairs_snoc_odd by done.
Qed.

Lemma frontier_even d C :
  Nat.odd (length C) = false -> frontier (S d) C = frontier d (pairs C).
Proof. intros HC. cbn [frontier]. by rewrite HC. Qed.

Lemma append_loop_spec d C top partial acc junk :
  (length C < 2 ^ d)%nat ->
  exists t upd,
    append_loop d (Z.of_nat (length C)) top partial (frontier d C ++ junk) acc =
      Ok (t, acc ++ upd) /\
    iter_round d (C ++ [top]) = [t] /\
    if partial then upd = frontier d C
    else exists junk', upd ++ [t] = frontier (S d) (C ++ [top]) ++ junk'.
Proof.
  revert C top partial acc. induction d as [|d IH]; intros C top partial acc HC.
  { simpl in HC. destruct C; [|simpl in HC; lia]. exists top, []. cbn.
    rewrite app_nil_r. split_and!; [done|done|]. destruct partial; [done|]. by exists []. }
  pose proof (length_pairs_lt _ _ HC) as HC'.
  cbn [append_loop iter_round]. rewrite odd_land, shiftr_half, <- length_pairs.
  destruct (Nat.odd (length C)) eqn:Hodd; cbn [negb].
  - (* the new node is a right child *)
    destruct (odd_snoc C Hodd) as (C0 & lv & -> & H0).
    rewrite pairs_snoc_odd, frontier_odd in * by done. cbn [app].
    destruct (IH (pairs C0) (hash (make_canonical_pair lv top)) partial
                 (if partial then acc ++ [lv] else acc) HC') as (t & upd & Hl & Hr & Hu).
    exists t, (if partial then lv :: upd else upd). rewrite Hl, merkle_round_odd by done.
    split_and!; [by destruct partial; simpl; rewrite <- ?app_assoc|done|].
    destruct partial; [by rewrite Hu|]. destruct Hu as [junk' Hu]. exists junk'.
    rewrite Hu, (frontier_even (S d)) by (by rewrite length_snoc_odd, Hodd).
    by rewrite <- (app_assoc C0), pairs_app_even by done.
  - (* the new node is a left child: its sibling is implied *)
    destruct (IH (pairs C) (hash (make_canonical_pair top top)) true
                 (if negb partial then acc ++ [top] else acc) HC') as (t & upd & Hl & Hr & Hu).
    rewrite (frontier_even d C) by done.
    exists t, (if partial then upd else top :: upd). rewrite Hl, merkle_round_even by done.
    split_and!; [by destruct partial; simpl; rewrite <- ?app_assoc|done|].
    destruct partial; [done|]. exists [t].
    by rewrite frontier_odd, frontier_stable, Hu by done.
Qed.

Lemma merkle_while_iter d L t :
  (length L <= 2 ^ d)%nat -> (d = 0%nat \/ 2 ^ (d - 1) < length L)%nat -> L <> [] ->
  iter_round d L = [t] -> merkle_while L = [t].
Proof.
  revert L. induction d as [|d IH]; intros L Hle Hlt Hne Hr; simp merkle_while;
    destruct (decide (1 < length L)%nat) as [Hl|Hl]; simpl.
  - simpl in Hle. lia.
  - done.
  - pose proof (length_merkle_round L Hl) as Hrl.
    apply IH; [| | |done].
    + rewrite merkle_round_pairs, length_pairs in *. unfold pad_even in *.
      rewrite Nat.pow_succ_r' in Hle.
      destruct (Nat.odd (length L)) eqn:Ho; rewrite ?length_app in *; simpl length.
      * apply Nat.odd_spec in Ho as [k Hk]. apply Nat.Div0.div_le_upper_bound. lia.
      * apply Nat.Div0.div_le_upper_bound. lia.
    + destruct d as [|d]; [by left|]. right.
      destruct Hlt as [|Hlt]; [done|].
      replace (S (S d) - 1)%nat with (S d) in Hlt by lia.
      replace (S d - 1)%nat with d by lia. rewrite Nat.pow_succ_r' in Hlt.
      rewrite merkle_round_pairs, length_pairs.
      assert (length L <= length (pad_even L))%nat as Hp
        by (unfold pad_even; destruct (Nat.odd _); rewrite ?length_app; lia).
      assert (Nat.odd (length (pad_even L)) = false) as He.
      { unfold pad_even. destruct (Nat.odd (length L)) eqn:Ho; [|done].
        by rewrite length_snoc_odd, Ho. }
      rewrite <- Nat.negb_even in He. apply negb_false_iff, Nat.even_spec in He as [k Hk].
      rewrite Hk, Nat.mul_comm, Nat.div_mul by done. lia.
    + intros E. rewrite E in Hrl. simpl in Hrl. lia.
  - destruct Hlt as [|Hlt]; [done|].
    assert (1 <= 2 ^ (S d - 1))%nat by (apply Nat.neq_0_lt_0, Nat.pow_nonzero; done). lia.
Qed.

(** What [append] keeps true of the tree over the leaves [l]. *)
Definition tree_inv (l : list sha256) (t : incremental_merkle) : Prop :=
  _node_count t = Z.of_nat (length l) /\
  (exists d junk, (length l < 2 ^ d)%nat /\ _active_nodes t = frontier d l ++ junk) /\
  (l <> [] -> back (_active_nodes t) = Some (merkle l)).

Lemma frontier_stable_le d d' C :
  (length C < 2 ^ d)%nat -> (d <= d')%nat -> frontier d' C = frontier d C.
Proof.
  intros HC Hd. replace d' with (d' - d + d)%nat by lia.
  induction (d' - d)%nat as [|k IH]; [done|]. rewrite <- IH. simpl plus.
  apply frontier_stable. assert (2 ^ d <= 2 ^ (k + d))%nat by (apply Nat.pow_le_mono_r; lia). lia.
Qed.

Lemma frontier_any d d' C :
  (length C < 2 ^ d)%nat -> (length C < 2 ^ d')%nat -> frontier d C = frontier d' C.
Proof.
  intros H1 H2. destruct (Nat.le_ge_cases d d').
  - symmetry. by apply frontier_stable_le.
  - by apply frontier_stable_le.
Qed.

Lemma log2_up_depth n :
  let d := Z.to_nat (Z.log2_up (Z.of_nat n + 1)) in
  (n < 2 ^ d)%nat /\ (d = 0%nat \/ 2 ^ (d - 1) <= n)%nat.
Proof.
  intros d. destruct n as [|n].
  { split; [vm_compute; lia|left; reflexivity]. }
  destruct (Z.log2_up_spec (Z.of_nat (S n) + 1)) as [Hlo Hhi]; [lia|].
  pose proof (Z.log2_up_nonneg (Z.of_nat (S n) + 1)).
  assert (0 < Z.log2_up (Z.of_nat (S n) + 1)) by (apply Z.log2_up_pos; lia).
  split; [|right]; apply Nat2Z.inj_lt || apply Nat2Z.inj_le; rewrite Nat2Z.inj_pow.
  - unfold d. rewrite Z2Nat.id by done. simpl (Z.of_nat 2). lia.
  - unfold d. rewrite Nat2Z.inj_sub, Z2Nat.id by lia. simpl (Z.of_nat 2).
    change (Z.of_nat 1) with 1. rewrite <- Z.sub_1_r in Hlo. lia.
Qed.

Lemma append_inv l t digest :
  tree_inv l t -> Z.of_nat (length l) < 2 ^ 63 ->
  exists t', append t digest = Ok (t', merkle (l ++ [digest])) /\ tree_inv (l ++ [digest]) t'.
Proof.
  intros (Hn & (d0 & junk & Hd0 & Hact) & _) Hmax. unfold append.
  rewrite Hn, (wrap_id 64) by (unfold is_uint; lia).
  rewrite calcluate_max_depth_spec by lia.
  replace (Z.log2_up (Z.of_nat (length l) + 1) + 1 - 1)
    with (Z.log2_up (Z.of_nat (length l) + 1)) by lia.
  pose proof (log2_up_depth (length l)) as [Hd1 Hd2]. cbv zeta in Hd1, Hd2.
  set (d := Z.to_nat (Z.log2_up (Z.of_nat (length l) + 1))) in *.
  rewrite Hact, (frontier_any d0 d) by done.
  destruct (append_loop_spec d l digest false [] junk Hd1) as (r & upd & -> & Hr & junk' & Hu).
  cbn [mbind result_bind]. rewrite app_nil_l.
  assert (merkle (l ++ [digest]) = r) as Hroot.
  { unfold merkle. rewrite length_app. simpl length. destruct (Nat.eqb_spec (length l + 1) 0); [lia|].
    rewrite (merkle_while_iter d _ r); [done| | | |done].
    - rewrite length_app. simpl. lia.
    - rewrite length_app. simpl. destruct Hd2; [by left|right; lia].
    - by destruct l. }
  rewrite Hroot. eexists. split; [done|]. split_and!; simpl.
  - rewrite length_app. simpl. lia.
  - exists (S d), junk'. split; [|done]. rewrite length_app, Nat.pow_succ_r'. simpl. lia.
  - intros _. by rewrite back_snoc, Hroot.
Qed.

Lemma append_all_inv l1 l2 t :
  tree_inv l1 t -> Z.of_nat (length (l1 ++ l2)) <= 2 ^ 63 ->
  exists t', append_all t l2 = Ok t' /\ tree_inv (l1 ++ l2) t'.
Proof.
  revert l1 t. induction l2 as [|d l2 IH]; intros l1 t Ht Hmax; simpl.
  - rewrite app_nil_r. by exists t.
  - rewrite length_app in Hmax. simpl in Hmax.
    destruct (append_inv l1 t d Ht) as (t' & -> & Ht'); [lia|]. cbn [mbind result_bind].
    destruct (IH (l1 ++ [d]) t' Ht') as (t'' & -> & Ht'').
    { rewrite !length_app. simpl. lia. }
    exists t''. split; [done|]. by rewrite <- app_assoc in Ht''.
Qed.

(** C33: Appending the digests of a list one at a time never reads past the
    active nodes, and ends with their number and with the root that [merkle]
    computes over the whole list at once, for up to 2^63 digests. *)
Theorem incremental_merkle_root l :
  Z.of_nat (length l) <= 2 ^ 63 ->
  exists t, append_all incremental_merkle_init l = Ok t /\
            _node_count t = Z.of_nat (length l) /\ get_root t = merkle l.
Proof.
  intros Hl. destruct (append_all_inv [] l incremental_merkle_init) as (t & Ht & Hn & _ & Hb).
  { split_and!; [done| |done]. exists 0%nat, []. split; [simpl; lia|done]. }
  { done. }
  exists t. split_and!; [done|done|]. unfold get_root. rewrite Hn.
  destruct l as [|d l]; [reflexivity|].
  destruct (Z.ltb_spec 0 (Z.of_nat (length ([] ++ d :: l)))) as [_|H].
  - by rewrite Hb.
  - simpl in H. lia.
Qed.

End merkle.

(** A stand-in for the hash, used to evaluate the definitions. *)
Definition test_hash (p : sha256 * sha256) : sha256 :=
  mk_sha256 (u64 (h0 p.1 * 31 + h0 p.2 * 17 + 7)) (h0 p.1) (h0 p.2) 1.

Lemma incremental_merkle_root_witness :
  exists t, append_all test_hash incremental_merkle_init
              [mk_sha256 1 0 0 0; mk_sha256 2 0 0 0; mk_sha256 3 0 0 0] = Ok t /\
            _node_count t = 3 /\
            get_root t = merkle test_hash
              [mk_sha256 1 0 0 0; mk_sha256 2 0 0 0; mk_sha256 3 0 0 0].
Proof.
  apply (incremental_merkle_root test_hash
           [mk_sha256 1 0 0 0; mk_sha256 2 0 0 0; mk_sha256 3 0 0 0]).
  vm_compute. discriminate.
Defined.

(** The left and right markings of any two digests differ, so the two
    children of a node can be told apart. *)
Theorem canonical_sides_disjoint a b :
  is_canonical_left (make_canonical_left a) = true /\
  is_canonical_right (make_canonical_right b) = true /\
  make_canonical_left a <> make_canonical_right b.
Proof.
  assert (forall x, is_canonical_left (make_canonical_left x) = true) as HL.
  { intros x. unfold is_canonical_left, make_canonical_left. simpl.
    rewrite <- Z.land_assoc. change (Z.land 0xFFFFFFFFFFFFFF7F 0x80) with 0.
    by rewrite Z.land_0_r. }
  assert (forall x, is_canonical_right (make_canonical_right x) = true) as HR.
  { intros x. unfold is_canonical_right, make_canonical_right. simpl.
    apply negb_true_iff, Z.eqb_neq. intros E. apply (f_equal (fun z => Z.testbit z 7)) in E.
    rewrite Z.land_spec, Z.lor_spec, orb_true_r in E. discriminate E. }
  split_and!; [done|done|]. intros E. specialize (HL a). rewrite E in HL.
  specialize (HR b). unfold is_canonical_left, is_canonical_right in *. by rewrite HL in HR.
Qed.
