(* ===== verification/Assets.v ===== *)
(** * Symbols, assets and checked arithmetic

    Models fc/safe.hpp (safe<int64_t>), symbol.hpp, asset.hpp and asset.cpp,
    with fc::trim, fc::to_int64 and fc::to_string of fc/src/string.cpp over
    the Boost routines of [BoostText].

    The theorems show that safe<int64_t> computes exactly the representable
    results and throws otherwise, that printing and parsing of symbols and
    assets are inverse, what the arithmetic of assets returns on every branch
    and which of its operations leave the class invariant. *)

From S2P Require Import Prelude Exceptions Text.
Open Scope Z_scope.

(** ** [safe<int64_t>] *)

Definition safe_add (a b : Z) : outcome Z :=
  if (b >? 0) && (a >? INT64_MAX - b) then Err fc_overflow_exception else
  if (b <? 0) && (a <? INT64_MIN - b) then Err fc_underflow_exception else
  Ok (i64 (a + b)).

Definition safe_sub (a b : Z) : outcome Z :=
  if (b >? 0) && (a <? INT64_MIN + b) then Err fc_underflow_exception else
  if (b <? 0) && (a >? INT64_MAX + b) then Err fc_overflow_exception else
  Ok (i64 (a - b)).

Definition safe_mul (a b : Z) : outcome Z :=
  (if a >? 0 then
     if b >? 0
     then ine_assert (negb (a >? INT64_MAX ÷ b)) fc_overflow_exception
     else ine_assert (negb (b <? INT64_MIN ÷ a)) fc_underflow_exception
   else
     if b >? 0
     then ine_assert (negb (a <? INT64_MIN ÷ b)) fc_underflow_exception
     else ine_assert (negb (negb (a =? 0) && (b <? INT64_MAX ÷ a))) fc_overflow_exception) ;;
  Ok (i64 (a * b)).

Definition safe_div (a b : Z) : outcome Z :=
  if b =? 0 then Err fc_divide_by_zero_exception else
  if (a =? INT64_MIN) && (b =? -1) then Err fc_overflow_exception else
  Ok (i64 (a ÷ b)).

Definition safe_mod (a b : Z) : outcome Z :=
  if b =? 0 then Err fc_divide_by_zero_exception else
  if (a =? INT64_MIN) && (b =? -1) then Err fc_overflow_exception else
  Ok (i64 (Z.rem a b)).

Definition safe_neg (a : Z) : outcome Z :=
  if a =? INT64_MIN then Err fc_overflow_exception else Ok (i64 (- a)).

(** The arithmetic of plain int64_t, where overflow is undefined. *)
Definition int64_op (z : Z) : outcome Z :=
  if (INT64_MIN <=? z) && (z <=? INT64_MAX) then Ok z else Err undefined_behaviour.

(** ** Strings *)

Section text.
Context `{HB : BoostText}.

Definition fc_trim (s : list ascii) : list ascii := trim_copy s.

Definition fc_to_int64 (i : list ascii) : outcome Z :=
  match lexical_cast_int64 i with
  | Some v => Ok v
  | None => Err fc_parse_error_exception
  end.

Definition fc_to_string (d : Z) : list ascii := lexical_cast_string d.

(** [s.find( c )]; [None] is npos. *)
Fixpoint find_char (c : ascii) (s : list ascii) : option nat :=
  match s with
  | [] => None
  | d :: s' => if cv d =? cv c then Some O else S <$> find_char c s'
  end.

(** [s.c_str()] read up to its terminator. *)
Fixpoint c_str (s : list ascii) : list ascii :=
  match s with
  | [] => []
  | c :: s' => if cv c =? 0 then [] else c :: c_str s'
  end.

(** ** [symbol] *)

Record symbol := mk_symbol { m_value : Z }.
#[export] Instance symbol_eq_dec : EqDecision symbol.
Proof. solve_decision. Defined.

Definition max_precision : Z := 18.

Definition is_upper (c : ascii) : bool := (65 <=? cv c) && (cv c <=? 90).

(** The for loop; a shift of a 64-bit value by 64 or more is undefined. *)
Fixpoint string_to_symbol_loop (i : Z) (str : list ascii) (result : Z) : outcome Z :=
  match str with
  | [] => Ok result
  | c :: str' =>
      ine_assert (is_upper c) (Throw symbol_type_exception) ;;
      ine_assert (8 * (i + 1) <? 64) undefined_behaviour ;;
      string_to_symbol_loop (i + 1) str'
        (Z.lor result (u64 (Z.shiftl (u64 (cv c)) (8 * (i + 1)))))
  end.

Definition string_to_symbol (precision : Z) (str : list ascii) : outcome Z :=
  result ← string_to_symbol_loop 0 (c_str str) 0;
  Ok (Z.lor result precision).

(** The while loop of [name]; a 64-bit value has eight bytes. *)
Fixpoint symbol_name_loop (fuel : nat) (v : Z) : list ascii :=
  match fuel with
  | O => []
  | S f => if v >? 0
           then ascii_of_N (Z.to_N (Z.land v 0xFF)) :: symbol_name_loop f (Z.shiftr v 8)
           else []
  end.

Definition symbol_name (s : symbol) : list ascii :=
  symbol_name_loop 8 (Z.shiftr (m_value s) 8).

Definition symbol_decimals (s : symbol) : Z := Z.land (m_value s) 0xFF.

Definition valid_name (name : list ascii) : bool := forallb is_upper name.

Definition symbol_valid (s : symbol) : bool :=
  (symbol_decimals s <=? max_precision) && valid_name (symbol_name s).

(** The constructors from a value and from a precision and a name. *)
Definition symbol_of_value (v : Z) : outcome symbol :=
  let s := mk_symbol v in
  ine_assert (symbol_valid s) (Throw symbol_type_exception) ;; Ok s.

Definition symbol_of_name (p : Z) (s : list ascii) : outcome symbol :=
  v ← string_to_symbol p s; symbol_of_value v.

Definition symbol_from_string (from : list ascii) : outcome symbol :=
  let s := fc_trim from in
  ine_assert (negb (bool_decide (s = []))) (Throw symbol_type_exception) ;;
  match find_char "," s with
  | None => Err (Throw symbol_type_exception)
  | Some comma_pos =>
      let prec_part := take comma_pos s in
      p64 ← fc_to_int64 prec_part;
      let p := u8 p64 in
      let name_part := drop (comma_pos + 1) s in
      ine_assert (p <=? max_precision) (Throw symbol_type_exception) ;;
      v ← string_to_symbol p name_part;
      symbol_of_value v
  end.

(** The while loop of [precision]. *)
Fixpoint precision_loop (p : nat) (p10 : Z) : Z :=
  match p with
  | O => p10
  | S p' => precision_loop p' (u64 (p10 * 10))
  end.

Definition symbol_precision (s : symbol) : outcome Z :=
  ine_assert (symbol_decimals s <=? max_precision) (Throw symbol_type_exception) ;;
  Ok (precision_loop (Z.to_nat (symbol_decimals s)) 1).

Definition symbol_to_string (s : symbol) : list ascii :=
  dec (Z.land (m_value s) 0xFF) ++ ","%char :: symbol_name s.

Definition to_symbol_code (s : symbol) : Z := Z.shiftr (m_value s) 8.

(** [to_variant] and [from_variant] of a symbol_code. *)
Definition symbol_code_to_variant (value : Z) : outcome (list ascii) :=
  s ← symbol_of_value (u64 (Z.shiftl value 8)); Ok (symbol_name s).

Definition symbol_code_from_variant (var : list ascii) : outcome Z :=
  s ← symbol_of_name 0 var; Ok (to_symbol_code s).

Definition symbol_reflector_init (s : symbol) : outcome unit :=
  ine_assert (symbol_decimals s <=? max_precision) (Throw symbol_type_exception) ;;
  ine_assert (valid_name (symbol_name s)) (Throw symbol_type_exception).

(** ** [asset] *)

Record asset := mk_asset { amount : Z; sym : symbol }.
#[export] Instance asset_eq_dec : EqDecision asset.
Proof. solve_decision. Defined.

Definition max_amount : Z := 2 ^ 62 - 1.

Definition is_amount_within_range (a : asset) : bool :=
  (- max_amount <=? amount a) && (amount a <=? max_amount).

Definition asset_is_valid (a : asset) : bool :=
  is_amount_within_range a && symbol_valid (sym a).

Definition asset_init (a : Z) (id : symbol) : outcome asset :=
  let r := mk_asset a id in
  ine_assert (is_amount_within_range r) (Throw asset_type_exception) ;;
  ine_assert (symbol_valid (sym r)) (Throw asset_type_exception) ;;
  Ok r.

Definition asset_reflector_init (a : asset) : outcome unit :=
  ine_assert (is_amount_within_range a) (Throw asset_type_exception) ;;
  ine_assert (symbol_valid (sym a)) (Throw asset_type_exception).

Definition asset_decimals (a : asset) : Z := symbol_decimals (sym a).
Definition asset_symbol_name (a : asset) : list ascii := symbol_name (sym a).
Definition asset_precision (a : asset) : outcome Z :=
  p ← symbol_precision (sym a); Ok (i64 p).

(** [std::abs] of the most negative value is undefined. *)
Definition asset_to_string (a : asset) : outcome (list ascii) :=
  let sign := if amount a <? 0 then ["-"%char] else [] in
  abs_amount ← int64_op (Z.abs (amount a));
  p ← asset_precision a;
  let result := fc_to_string (abs_amount ÷ p) in
  let result :=
    if negb (asset_decimals a =? 0) then
      let fract := Z.rem abs_amount p in
      result ++ "."%char :: drop 1 (fc_to_string (i64 (p + fract)))
    else result in
  Ok (sign ++ result ++ " "%char :: asset_symbol_name a).

(** [asset::from_string] once the amount and the symbol are split. *)
Definition asset_from_parts (amount_str symbol_str : list ascii) : outcome asset :=
  let dot_pos := find_char "." amount_str in
  match dot_pos with
  | Some d => ine_assert (negb (Nat.eqb d (length amount_str - 1))) (Throw asset_type_exception)
  | None => Ok tt
  end ;;
  let precision_digit_str :=
    match dot_pos with
    | Some d => dec (Z.of_nat (length amount_str - d - 1))
    | None => ["0"%char]
    end in
  sym ← symbol_from_string (precision_digit_str ++ ","%char :: symbol_str);
  '(int_part, fract_part) ←
    match dot_pos with
    | Some d =>
        int_part ← fc_to_int64 (take d amount_str);
        fract_part ← fc_to_int64 (drop (d + 1) amount_str);
        if cv (char_at amount_str 0) =? 45
        then f ← safe_mul fract_part (-1); Ok (int_part, f)
        else Ok (int_part, fract_part)
    | None => int_part ← fc_to_int64 amount_str; Ok (int_part, 0)
    end;
  p ← symbol_precision sym;
  amount ← safe_mul int_part (i64 p);
  amount ← safe_add amount fract_part;
  asset_init amount sym.

Definition asset_from_string (from : list ascii) : outcome asset :=
  let s := fc_trim from in
  match find_char " " s with
  | None => Err (Throw asset_type_exception)
  | Some space_pos =>
      let symbol_str := fc_trim (drop (space_pos + 1) s) in
      let amount_str := take space_pos s in
      asset_from_parts amount_str symbol_str
  end.

End text.

(** *** Operators *)

Definition same_symbol (a b : asset) : bool := bool_decide (sym a = sym b).

Definition asset_add_assign (a o : asset) : outcome asset :=
  ine_assert (same_symbol a o) (Throw asset_type_exception) ;;
  r ← int64_op (amount a + amount o); Ok (mk_asset r (sym a)).

Definition asset_sub_assign (a o : asset) : outcome asset :=
  ine_assert (same_symbol a o) (Throw asset_type_exception) ;;
  r ← int64_op (amount a - amount o); Ok (mk_asset r (sym a)).

Definition asset_opp (a : asset) : outcome asset :=
  r ← int64_op (- amount a); asset_init r (sym a).

Definition asset_sub (a b : asset) : outcome asset :=
  ine_assert (same_symbol a b) (Throw asset_type_exception) ;;
  r ← int64_op (amount a - amount b); asset_init r (sym a).

Definition asset_add (a b : asset) : outcome asset :=
  ine_assert (same_symbol a b) (Throw asset_type_exception) ;;
  r ← int64_op (amount a + amount b); asset_init r (sym a).

Definition asset_eq (a b : asset) : bool :=
  same_symbol a b && (amount a =? amount b).

Definition asset_lt (a b : asset) : outcome bool :=
  ine_assert (same_symbol a b) (Throw asset_type_exception) ;;
  Ok ((amount a <? amount b)
      || (negb (amount b <? amount a) && (m_value (sym a) <? m_value (sym b)))).

Definition asset_le (a b : asset) : outcome bool :=
  if asset_eq a b then Ok true else asset_lt a b.

Definition asset_ne (a b : asset) : bool := negb (asset_eq a b).
Definition asset_gt (a b : asset) : outcome bool := r ← asset_le a b; Ok (negb r).
Definition asset_ge (a b : asset) : outcome bool := r ← asset_lt a b; Ok (negb r).

(** ** Checked arithmetic is exact *)

(** The reference: the mathematical result where int64_t has it. *)
Definition checked (z : Z) : outcome Z :=
  if (INT64_MIN <=? z) && (z <=? INT64_MAX) then Ok z
  else if z >? 0 then Err fc_overflow_exception else Err fc_underflow_exception.

Lemma div_lt_iff n d x : 0 < d -> n / d < x <-> n < d * x.
Proof. intros H. pose proof (Z.div_mod n d). pose proof (Z.mod_pos_bound n d H). nia. Qed.

Lemma checked_in z : INT64_MIN <= z <= INT64_MAX -> checked z = Ok z.
Proof. intros H. unfold checked. by rewrite in_range_bool. Qed.

Lemma checked_over z : INT64_MAX < z -> checked z = Err fc_overflow_exception.
Proof.
  intros H. unfold checked. rewrite (proj2 (Z.leb_gt z INT64_MAX)) by lia.
  rewrite andb_false_r. destruct (Z.gtb_spec z 0); [done|lia].
Qed.

Lemma checked_under z : z < INT64_MIN -> checked z = Err fc_underflow_exception.
Proof.
  intros H. unfold checked. rewrite (proj2 (Z.leb_gt INT64_MIN z)) by lia.
  simpl. destruct (Z.gtb_spec z 0); [lia|done].
Qed.

(** Evaluate a guard of the form [x < n ÷ d] whose meaning is known. *)
Lemma guarded_checked z b e :
  (b = true -> INT64_MIN <= z <= INT64_MAX) -> (b = false -> checked z = Err e) ->
  (ine_assert b e ;; Ok (i64 z)) = checked z.
Proof.
  intros Ht Hf. destruct b; simpl.
  - by rewrite i64_id, checked_in by auto.
  - by rewrite Hf.
Qed.

Lemma safe_add_checked a b :
  is_sint 64 a -> is_sint 64 b -> safe_add a b = checked (a + b).
Proof.
  unfold is_sint, safe_add. simpl. intros Ha Hb.
  case_bool; [by rewrite checked_over by lia|].
  apply andb_false_iff in Hb0.
  case_bool; [by rewrite checked_under by lia|].
  apply andb_false_iff in Hb1.
  assert (INT64_MIN <= a + b <= INT64_MAX).
  { destruct Hb0, Hb1; bool_to_prop; lia. }
  by rewrite i64_id, checked_in.
Qed.

Lemma safe_sub_checked a b :
  is_sint 64 a -> is_sint 64 b -> safe_sub a b = checked (a - b).
Proof.
  unfold is_sint, safe_sub. simpl. intros Ha Hb.
  case_bool; [by rewrite checked_under by lia|].
  apply andb_false_iff in Hb0.
  case_bool; [by rewrite checked_over by lia|].
  apply andb_false_iff in Hb1.
  assert (INT64_MIN <= a - b <= INT64_MAX).
  { destruct Hb0, Hb1; bool_to_prop; lia. }
  by rewrite i64_id, checked_in.
Qed.

Lemma quot_pos n d : 0 <= n -> 0 < d -> n ÷ d = n / d.
Proof. intros. by apply Z.quot_div_nonneg. Qed.

Lemma quot_neg_l n d : 0 <= n -> 0 < d -> (- n) ÷ d = - (n / d).
Proof. intros. rewrite Z.quot_opp_l by lia. by rewrite quot_pos. Qed.

Lemma quot_neg_r n d : 0 <= n -> d < 0 -> n ÷ d = - (n / (- d)).
Proof.
  intros. rewrite <- (Z.opp_involutive d) at 1. rewrite Z.quot_opp_r by lia.
  by rewrite quot_pos by lia.
Qed.

Lemma safe_mul_checked a b :
  is_sint 64 a -> is_sint 64 b -> safe_mul a b = checked (a * b).
Proof.
  unfold is_sint, safe_mul. simpl. intros Ha Hb.
  destruct (Z.gtb_spec a 0), (Z.gtb_spec b 0).
  - rewrite quot_pos by lia. apply guarded_checked; intros Hg; bool_to_prop.
    + apply Z.nlt_ge in Hg. rewrite div_lt_iff in Hg by lia. nia.
    + rewrite div_lt_iff in Hg by lia. apply checked_over. lia.
  - rewrite quot_neg_l by lia. apply guarded_checked; intros Hg; bool_to_prop.
    + assert (~ 2 ^ 63 / a < - b) as Hq by lia. rewrite div_lt_iff in Hq by lia. nia.
    + assert (2 ^ 63 / a < - b) as Hq by lia. rewrite div_lt_iff in Hq by lia.
      apply checked_under. lia.
  - rewrite quot_neg_l by lia. apply guarded_checked; intros Hg; bool_to_prop.
    + assert (~ 2 ^ 63 / b < - a) as Hq by lia. rewrite div_lt_iff in Hq by lia. nia.
    + assert (2 ^ 63 / b < - a) as Hq by lia. rewrite div_lt_iff in Hq by lia.
      apply checked_under. lia.
  - destruct (Z.eqb_spec a 0) as [->|].
    + simpl. by rewrite i64_id by lia.
    + rewrite quot_neg_r by lia. simpl. apply guarded_checked; intros Hg; bool_to_prop.
      * assert (~ INT64_MAX / (- a) < - b) as Hq by lia. rewrite div_lt_iff in Hq by lia. nia.
      * assert (INT64_MAX / (- a) < - b) as Hq by lia. rewrite div_lt_iff in Hq by lia.
        apply checked_over. nia.
Qed.

Lemma quot_range a b :
  INT64_MIN <= a <= INT64_MAX -> b <> 0 -> (a <> INT64_MIN \/ b <> -1) ->
  INT64_MIN <= a ÷ b <= INT64_MAX.
Proof.
  intros Ha Hb0 Hc. pose proof (Z.quot_abs a b Hb0) as E.
  rewrite quot_pos in E by lia. destruct (decide (Z.abs b = 1)) as [H1|H1].
  - assert (b = 1 \/ b = -1) as [-> | ->] by lia.
    + rewrite Z.quot_1_r. lia.
    + change (-1) with (- (1)). rewrite Z.quot_opp_r, Z.quot_1_r by lia. lia.
  - assert (Z.abs a / Z.abs b < 2 ^ 63) as Hl by (apply div_lt_iff; lia).
    rewrite E in Hl. lia.
Qed.

(** On int64_t operands, every operation of safe<int64_t> returns the
    mathematical result when int64_t can represent it and otherwise throws:
    overflow above, underflow below; division and remainder throw
    divide_by_zero for a zero divisor, and the remainder of the minimum by -1
    throws although its value would be 0. *)
Theorem safe_arithmetic_exact a b :
  is_sint 64 a -> is_sint 64 b ->
  safe_add a b = checked (a + b) /\
  safe_sub a b = checked (a - b) /\
  safe_mul a b = checked (a * b) /\
  safe_neg a = checked (- a) /\
  safe_div a b = (if b =? 0 then Err fc_divide_by_zero_exception else checked (a ÷ b)) /\
  safe_mod a b = (if b =? 0 then Err fc_divide_by_zero_exception
                  else if (a =? INT64_MIN) && (b =? -1) then Err fc_overflow_exception
                  else Ok (Z.rem a b)).
Proof.
  intros Ha Hb. rewrite safe_add_checked, safe_sub_checked, safe_mul_checked by done.
  unfold is_sint in *; simpl in *. split_and!; [done|done|done| | |].
  - unfold safe_neg. destruct (Z.eqb_spec a INT64_MIN).
    + by rewrite checked_over by lia.
    + by rewrite i64_id, checked_in by lia.
  - unfold safe_div. destruct (Z.eqb_spec b 0); [done|].
    destruct (Z.eqb_spec a INT64_MIN), (Z.eqb_spec b (-1)); [by subst|..]; simpl;
      (assert (INT64_MIN <= a ÷ b <= INT64_MAX) as Hr; [|by rewrite i64_id, checked_in]);
      apply quot_range; lia.
  - unfold safe_mod. destruct (Z.eqb_spec b 0); [done|]. case_bool; [done|].
    f_equal. apply i64_id. pose proof (Z.rem_bound_abs a b). lia.
Qed.

Lemma safe_arithmetic_exact_witness :
  safe_add INT64_MAX 1 = checked (INT64_MAX + 1) /\ safe_mul INT64_MIN (-1) = checked (2 ^ 63).
Proof.
  split; [apply (safe_arithmetic_exact INT64_MAX 1)
         |apply (safe_arithmetic_exact INT64_MIN (-1))]; unfold is_sint; lia.
Defined.

(** ** Symbols *)

(** The unsigned value of a character. *)
Definition code (c : ascii) : Z := Z.of_N (N_of_ascii c).

(** The little-endian value of a string. *)
Fixpoint le_value (s : list ascii) : Z :=
  match s with
  | [] => 0
  | c :: s' => code c + 256 * le_value s'
  end.

Lemma code_range c : 0 <= code c < 256.
Proof. unfold code. pose proof (N_ascii_bounded c). lia. Qed.

Lemma cv_upper c : is_upper c = true -> cv c = code c /\ 65 <= code c <= 90.
Proof.
  intros H. unfold is_upper in H. bool_to_prop. pose proof (code_range c) as Hr.
  unfold cv, swrap in *. fold (code c) in *. simpl in *.
  destruct (decide (code c < 128)).
  - rewrite Z.mod_small in * by lia. lia.
  - rewrite <- (Z_mod_plus_full _ (-1)), Z.mod_small in H by lia. lia.
Qed.

Lemma land_255 v : Z.land v 255 = v mod 256.
Proof. change 255 with (Z.ones 8). by rewrite Z.land_ones. Qed.

Lemma shiftr_8 v : Z.shiftr v 8 = v / 256.
Proof. by rewrite Z.shiftr_div_pow2. Qed.

Lemma le_value_name f v : 0 <= v < 256 ^ Z.of_nat f -> le_value (symbol_name_loop f v) = v.
Proof.
  revert v. induction f as [|f IH]; intros v Hv; [simpl in *; lia|].
  cbn [symbol_name_loop]. destruct (Z.gtb_spec v 0); [|simpl; lia].
  cbn [le_value]. rewrite shiftr_8, IH.
  - unfold code. rewrite land_255. pose proof (Z.mod_pos_bound v 256).
    rewrite N_ascii_embedding by lia. rewrite Z2N.id by lia.
    pose proof (Z.div_mod v 256). lia.
  - rewrite Nat2Z.inj_succ, Z.pow_succ_r in Hv by lia. split; [apply Z.div_pos; lia|].
    apply div_lt_iff; lia.
Qed.

Lemma le_value_range s : 0 <= le_value s < 256 ^ Z.of_nat (length s).
Proof.
  induction s as [|c s IH]; [simpl; lia|]. cbn [le_value length].
  rewrite Nat2Z.inj_succ, Z.pow_succ_r by lia. pose proof (code_range c). lia.
Qed.

Lemma symbol_name_short f g v :
  0 <= v < 256 ^ Z.of_nat f -> (length (symbol_name_loop g v) <= f)%nat.
Proof.
  revert g v. induction f as [|f IH]; intros [|g] v Hv; cbn [symbol_name_loop];
    try (simpl; lia).
  - destruct (Z.gtb_spec v 0); simpl in *; lia.
  - destruct (Z.gtb_spec v 0); simpl; [|lia]. apply le_n_S, IH. rewrite shiftr_8.
    rewrite Nat2Z.inj_succ, Z.pow_succ_r in Hv by lia.
    split; [apply Z.div_pos; lia|]. apply div_lt_iff; lia.
Qed.

(** The name loop reads back an upper-case name. *)
Lemma symbol_name_le_value f s :
  forallb is_upper s = true -> (length s <= f)%nat ->
  symbol_name_loop f (le_value s) = s.
Proof.
  revert f. induction s as [|c s IH]; intros f Hu Hl; simpl in *.
  { by destruct f. }
  destruct f as [|f]; [lia|]. apply andb_prop in Hu as [Hc Hu].
  destruct (cv_upper c Hc) as [_ Hr]. pose proof (le_value_range s). simpl.
  destruct (Z.gtb_spec (code c + 256 * le_value s) 0); [|lia].
  rewrite land_255, shiftr_8, (Z.mul_comm 256), Z_mod_plus_full, Z_div_plus_full by lia.
  rewrite Z.mod_small, Z.div_small, Z.add_0_l, IH by (done || lia).
  unfold code. by rewrite N2Z.id, ascii_N_embedding.
Qed.

(** Packing an upper-case name of at most seven characters. *)
Lemma string_to_symbol_loop_ok i str r :
  forallb is_upper str = true -> 0 <= i -> i + Z.of_nat (length str) <= 7 ->
  is_uint (8 * (i + 1)) r ->
  string_to_symbol_loop i str r = Ok (r + le_value str * 2 ^ (8 * (i + 1))).
Proof.
  revert i r. induction str as [|c str IH]; intros i r Hu Hi Hl Hr; simpl in *.
  { f_equal. lia. }
  apply andb_prop in Hu as [Hc Hu]. rewrite Hc. destruct (cv_upper c Hc) as [-> Hrc].
  cbn [ine_assert mbind result_bind]. rewrite (proj2 (Z.ltb_lt _ _)) by lia. simpl.
  assert (2 ^ (8 * (i + 1 + 1)) = 256 * 2 ^ (8 * (i + 1))) as Hp.
  { change 256 with (2 ^ 8). rewrite <- Z.pow_add_r by lia. f_equal. lia. }
  assert (is_uint 64 (Z.shiftl (code c) (8 * (i + 1)))) as Hs.
  { rewrite Z.shiftl_mul_pow2 by lia. unfold is_uint in *. split; [nia|].
    apply Z.lt_le_trans with (2 ^ (8 * (i + 1 + 1))); [nia|]. apply Z.pow_le_mono_r; lia. }
  rewrite (wrap_id 64 (code c)) by (unfold is_uint; lia).
  rewrite wrap_id, lor_shiftl_add by (done || lia). unfold is_uint in *.
  rewrite IH; [|done|lia|lia|nia]. rewrite Hp. f_equal. ring.
Qed.

Lemma c_str_upper s : forallb is_upper s = true -> c_str s = s.
Proof.
  induction s as [|c s IH]; simpl; [done|]. intros [Hc Hs]%andb_prop.
  destruct (cv_upper c Hc) as [-> ?]. destruct (Z.eqb_spec (code c) 0); [lia|]. by rewrite IH.
Qed.

Lemma string_to_symbol_ok p str :
  forallb is_upper str = true -> (length str <= 7)%nat -> is_uint 8 p ->
  string_to_symbol p str = Ok (p + 256 * le_value str).
Proof.
  intros Hu Hl Hp. unfold string_to_symbol.
  rewrite c_str_upper, string_to_symbol_loop_ok by (done || lia).
  cbn [mbind result_bind]. f_equal. change (8 * (0 + 1)) with 8. rewrite Z.add_0_l, Z.lor_comm.
  rewrite <- Z.shiftl_mul_pow2, lor_shiftl_add by (done || lia). lia.
Qed.

(** A valid symbol is its precision followed by its name. *)
Lemma symbol_decompose s :
  is_uint 64 (m_value s) ->
  m_value s = symbol_decimals s + 256 * le_value (symbol_name s) /\
  (length (symbol_name s) <= 7)%nat.
Proof.
  intros H. unfold symbol_decimals, symbol_name. rewrite land_255, shiftr_8.
  assert (0 <= m_value s / 256 < 256 ^ 7) as Hv.
  { unfold is_uint in H. split; [apply Z.div_pos; lia|]. apply div_lt_iff; lia. }
  split; [|by apply (symbol_name_short 7)].
  rewrite le_value_name by (simpl; lia). pose proof (Z.div_mod (m_value s) 256). lia.
Qed.

Section symbols.
Context `{HB : BoostText, !BoostTextLaws HB}.

(** Nothing to trim. *)
Lemma trim_copy_id s :
  (forall c u, s = c :: u -> is_space c = false) ->
  (forall u c, s = u ++ [c] -> is_space c = false) -> trim_copy s = s.
Proof.
  intros Hf Hl. destruct (trim_copy_spec s) as (a & b & Hs & Ha & Hb & _ & _).
  assert (a = []) as ->.
  { destruct a as [|c a]; [done|]. exfalso.
    apply Forall_inv in Ha as Hc. rewrite (Hf c (a ++ trim_copy s ++ b)) in Hc; done. }
  assert (b = []) as ->.
  { destruct b as [|c b _] using rev_ind; [done|]. exfalso.
    apply Forall_app in Hb as [_ Hc]. rewrite Forall_singleton in Hc.
    rewrite (Hl (trim_copy s ++ b) c) in Hc; [done|].
    by rewrite Hs at 1; rewrite <- app_assoc. }
  by rewrite app_nil_r in Hs.
Qed.

Lemma find_char_app c s t :
  Forall (fun d => cv d <> cv c) s -> find_char c (s ++ c :: t) = Some (length s).
Proof.
  induction 1 as [|d s Hd _ IH]; simpl.
  - by rewrite Z.eqb_refl.
  - destruct (Z.eqb_spec (cv d) (cv c)); [done|]. by rewrite IH.
Qed.

Lemma find_char_none c s : Forall (fun d => cv d <> cv c) s -> find_char c s = None.
Proof.
  induction 1 as [|d s Hd _ IH]; simpl; [done|].
  destruct (Z.eqb_spec (cv d) (cv c)); [done|]. by rewrite IH.
Qed.

Lemma upper_not_space c : is_upper c = true -> is_space c = false.
Proof.
  intros H. destruct (cv_upper c H) as [E ?]. unfold is_space. rewrite E.
  destruct (Z.eqb_spec (code c) 32), (Z.leb_spec 9 (code c)), (Z.leb_spec (code c) 13);
    simpl; lia || done.
Qed.

Lemma digit_not_space c : is_digit c = true -> is_space c = false.
Proof.
  unfold is_digit, is_space. intros H. bool_to_prop.
  destruct (Z.eqb_spec (cv c) 32), (Z.leb_spec 9 (cv c)), (Z.leb_spec (cv c) 13);
    simpl; lia || done.
Qed.

Lemma fc_to_int64_dec z : 0 <= z <= INT64_MAX -> fc_to_int64 (dec z) = Ok z.
Proof.
  intros Hz. unfold fc_to_int64, dec. destruct (Z.ltb_spec z 0); [lia|].
  rewrite lexical_cast_int64_digits; rewrite ?dec_nat_value by lia; try done;
    try lia; [apply dec_nat_nonempty | by apply dec_nat_digits].
Qed.

Lemma dec_digit_cons z :
  0 <= z -> exists c u, dec z = c :: u /\ Forall (fun c => is_digit c = true) (c :: u).
Proof.
  intros Hz. unfold dec. destruct (Z.ltb_spec z 0); [lia|].
  pose proof (dec_nat_nonempty z). pose proof (dec_nat_digits z Hz).
  destruct (dec_nat z) as [|c u]; [done|]. eauto.
Qed.

Lemma digits_not_char c s :
  is_digit c = false -> Forall (fun d => is_digit d = true) s -> Forall (fun d => cv d <> cv c) s.
Proof.
  intros Hc. apply Forall_impl. intros d Hd E. unfold is_digit in *. rewrite E in Hd. congruence.
Qed.

Lemma symbol_of_packed p name :
  forallb is_upper name = true -> (length name <= 7)%nat -> 0 <= p <= 18 ->
  string_to_symbol p name ≫= symbol_of_value = Ok (mk_symbol (p + 256 * le_value name)).
Proof.
  intros Hu Hl Hp. rewrite string_to_symbol_ok by (done || unfold is_uint; lia).
  cbn [mbind result_bind]. unfold symbol_of_value.
  assert (symbol_valid (mk_symbol (p + 256 * le_value name)) = true) as ->; [|done].
  unfold symbol_valid, symbol_decimals, symbol_name, m_value.
  rewrite land_255, shiftr_8, Z.mul_comm, Z_mod_plus_full, Z.mod_small by lia.
  rewrite Z_div_plus_full, Z.div_small by lia. apply andb_true_intro. split.
  - apply Z.leb_le. unfold max_precision. lia.
  - rewrite Z.add_0_l, symbol_name_le_value; auto with lia.
Qed.

(** What the parser does on a decimal precision and an upper-case name. *)
Lemma symbol_from_string_dec p name :
  forallb is_upper name = true -> 0 <= p <= INT64_MAX ->
  symbol_from_string (dec p ++ ","%char :: name) =
  if u8 p <=? max_precision then string_to_symbol (u8 p) name ≫= symbol_of_value
  else Err (Throw symbol_type_exception).
Proof.
  intros Hu Hp. unfold symbol_from_string, fc_trim.
  destruct (dec_digit_cons p) as (c & u & Ed & Hd); [lia|].
  rewrite trim_copy_id.
  - rewrite (bool_decide_eq_false_2 (dec p ++ _ = [])) by (rewrite Ed; done). simpl.
    rewrite find_char_app by (rewrite Ed; by apply digits_not_char).
    rewrite take_app_length, fc_to_int64_dec by lia. cbn [mbind result_bind].
    rewrite Nat.add_1_r, drop_app_ge, Nat.sub_succ_l, Nat.sub_diag by lia.
    by destruct (u8 p <=? max_precision).
  - rewrite Ed. intros ? ? [= <- _]. apply digit_not_space. by inversion Hd.
  - intros v d Hv. destruct name as [|d' n' _] using rev_ind.
    + apply app_inj_tail in Hv as [_ <-]. reflexivity.
    + rewrite app_comm_cons, app_assoc in Hv. apply app_inj_tail in Hv as [_ <-].
      apply upper_not_space. rewrite forallb_app in Hu. bool_to_prop.
      simpl in *. by bool_to_prop.
Qed.

Lemma symbol_from_string_ok p name :
  forallb is_upper name = true -> (length name <= 7)%nat -> 0 <= p <= 18 ->
  symbol_from_string (dec p ++ ","%char :: name) = Ok (mk_symbol (p + 256 * le_value name)).
Proof.
  intros Hu Hl Hp. rewrite symbol_from_string_dec by (done || lia).
  rewrite wrap_id by (unfold is_uint; lia).
  rewrite (proj2 (Z.leb_le p max_precision)) by (unfold max_precision; lia).
  by apply symbol_of_packed.
Qed.

Lemma string_to_symbol_loop_long i str r :
  forallb is_upper str = true -> 0 <= i <= 7 -> 7 < i + Z.of_nat (length str) ->
  string_to_symbol_loop i str r = Err undefined_behaviour.
Proof.
  revert i r. induction str as [|c str IH]; intros i r Hu Hi Hl; simpl in *; [lia|].
  apply andb_prop in Hu as [-> Hu]. simpl.
  destruct (Z.ltb_spec (8 * (i + 1)) 64); simpl; [|done]. apply IH; auto; lia.
Qed.

(** Symbol::from_string looks at the precision only modulo 256: a
    precision of p + 256 k is accepted as p, and the check against 18 does
    not see it. *)
Theorem symbol_precision_truncated p k name :
  forallb is_upper name = true -> (length name <= 7)%nat ->
  0 <= p <= 18 -> 0 <= k -> p + 256 * k <= INT64_MAX ->
  symbol_from_string (dec (p + 256 * k) ++ ","%char :: name) =
  symbol_from_string (dec p ++ ","%char :: name).
Proof.
  intros Hu Hl Hp Hk Hm. rewrite !symbol_from_string_dec by (done || lia).
  assert (u8 (p + 256 * k) = u8 p) as ->; [|done].
  unfold wrap. rewrite (Z.mul_comm 256). apply Z_mod_plus_full.
Qed.

(** String_to_symbol has no bound on the length of the name: on eight or
    more upper-case letters it shifts a 64-bit value by 64 or more bits,
    which is undefined, whatever the precision. *)
Theorem symbol_long_name_undefined p name :
  forallb is_upper name = true -> 0 <= p <= 18 -> (8 <= length name)%nat ->
  symbol_from_string (dec p ++ ","%char :: name) = Err undefined_behaviour.
Proof.
  intros Hu Hp Hl. rewrite symbol_from_string_dec by (done || lia).
  rewrite wrap_id by (unfold is_uint; lia).
  rewrite (proj2 (Z.leb_le p max_precision)) by (unfold max_precision; lia).
  unfold string_to_symbol. rewrite c_str_upper, string_to_symbol_loop_long by (done || lia).
  done.
Qed.

(** Every 64-bit value that is a valid symbol survives printing and
    parsing: symbol::from_string reads back exactly the symbol that the
    string conversion wrote. *)
Theorem symbol_roundtrip s :
  is_uint 64 (m_value s) -> symbol_valid s = true ->
  symbol_from_string (symbol_to_string s) = Ok s.
Proof.
  intros H64 Hv. destruct (symbol_decompose s H64) as [E Hl].
  unfold symbol_valid, max_precision in Hv. bool_to_prop.
  assert (0 <= symbol_decimals s) by (apply Z.land_nonneg; right; lia).
  unfold symbol_to_string. fold (symbol_decimals s).
  rewrite symbol_from_string_ok by (done || lia). f_equal. rewrite <- E. by destruct s.
Qed.

End symbols.

Lemma symbol_roundtrip_witness :
  symbol_from_string (HB := reference_boost)
    (symbol_to_string (mk_symbol 0x454E4904)) = Ok (mk_symbol 0x454E4904).
Proof.
  apply (symbol_roundtrip (HB := reference_boost) (BoostTextLaws0 := reference_boost_laws));
    [unfold is_uint; simpl; lia | vm_compute; reflexivity].
Defined.


Lemma symbol_precision_truncated_witness :
  symbol_from_string (HB := reference_boost) (dec (4 + 256 * 1) ++ ","%char :: ["I"; "N"; "E"]%char)
  = symbol_from_string (HB := reference_boost) (dec 4 ++ ","%char :: ["I"; "N"; "E"]%char).
Proof.
  apply (symbol_precision_truncated (HB := reference_boost)
           (BoostTextLaws0 := reference_boost_laws) 4 1); vm_compute; done || lia.
Defined.

Lemma symbol_long_name_undefined_witness :
  symbol_from_string (HB := reference_boost) (dec 4 ++ ","%char :: replicate 8 "A"%char)
  = Err undefined_behaviour.
Proof.
  apply (symbol_long_name_undefined (HB := reference_boost)
           (BoostTextLaws0 := reference_boost_laws) 4); vm_compute; done || lia.
Defined.

(** ** Assets *)

Lemma precision_loop_pow n p10 :
  0 <= p10 -> p10 * 10 ^ Z.of_nat n < 2 ^ 64 ->
  precision_loop n p10 = p10 * 10 ^ Z.of_nat n.
Proof.
  revert p10. induction n as [|n IH]; intros p10 Hp Hb; [simpl; lia|].
  rewrite Nat2Z.inj_succ, Z.pow_succ_r in * by lia. cbn [precision_loop].
  pose proof (Z.pow_pos_nonneg 10 (Z.of_nat n)).
  rewrite wrap_id by (unfold is_uint; nia). rewrite IH by nia. ring.
Qed.

Lemma symbol_precision_pow s :
  symbol_decimals s <= 18 ->
  symbol_precision s = Ok (10 ^ symbol_decimals s) /\ 0 < 10 ^ symbol_decimals s <= 10 ^ 18.
Proof.
  intros H. assert (0 <= symbol_decimals s) by (apply Z.land_nonneg; right; lia).
  assert (0 < 10 ^ symbol_decimals s <= 10 ^ 18) as Hp.
  { split; [apply Z.pow_pos_nonneg; lia|]. apply Z.pow_le_mono_r; lia. }
  split; [|done]. unfold symbol_precision.
  rewrite (proj2 (Z.leb_le _ max_precision)) by done. cbn [ine_assert mbind result_bind].
  rewrite precision_loop_pow; rewrite ?Z2Nat.id by done; [|lia|lia]. f_equal. lia.
Qed.

(** The text of an asset: sign, integer part, fraction and name. *)
Definition amount_text (neg : bool) (q : Z) (frac : list ascii) : list ascii :=
  (if neg then ["-"%char] else []) ++ dec q ++
  (if bool_decide (frac = []) then [] else "."%char :: frac).

Section asset_text.
Context `{HB : BoostText, !BoostTextLaws HB}.

Lemma fraction_text p f :
  0 <= p <= 18 -> 0 <= f < 10 ^ p ->
  drop 1 (fc_to_string (i64 (10 ^ p + f))) = fixed_digits (Z.to_nat p) f.
Proof.
  intros Hp Hf. assert (10 ^ p <= 10 ^ 18) by (apply Z.pow_le_mono_r; lia).
  unfold fc_to_string. rewrite i64_id by lia.
  rewrite lexical_cast_string_spec by (unfold is_sint; simpl; lia).
  unfold dec. destruct (Z.ltb_spec (10 ^ p + f) 0); [lia|].
  rewrite <- (Z2Nat.id p) at 1 by lia. by rewrite dec_nat_padded by (rewrite Z2Nat.id; lia).
Qed.

Lemma asset_to_string_text a :
  asset_is_valid a = true ->
  let p := symbol_decimals (sym a) in
  asset_to_string a =
  Ok (amount_text (amount a <? 0) (Z.abs (amount a) / 10 ^ p)
        (fixed_digits (Z.to_nat p) (Z.abs (amount a) mod 10 ^ p))
      ++ " "%char :: symbol_name (sym a)).
Proof.
  intros Hv p. unfold asset_is_valid, is_amount_within_range, symbol_valid, max_amount,
    max_precision in Hv. bool_to_prop.
  destruct (symbol_precision_pow (sym a)) as [HP HPr]; [done|]. fold p in HP, HPr, H0.
  assert (0 <= p) by (apply Z.land_nonneg; right; lia).
  pose proof (Z.mod_pos_bound (Z.abs (amount a)) (10 ^ p)) as Hm.
  assert (Z.abs (amount a) / 10 ^ p < 2 ^ 63) as Hd by (apply div_lt_iff; nia).
  pose proof (Z.div_pos (Z.abs (amount a)) (10 ^ p)) as Hd0.
  unfold asset_to_string, int64_op. rewrite in_range_bool by lia. cbn [mbind result_bind].
  unfold asset_precision. rewrite HP. cbn [mbind result_bind]. rewrite (i64_id (10 ^ p)) by lia.
  rewrite quot_pos, Z.rem_mod_nonneg by lia. unfold asset_decimals, asset_symbol_name. fold p.
  rewrite fraction_text by lia. unfold fc_to_string at 1 2.
  rewrite lexical_cast_string_spec by (unfold is_sint; simpl; lia).
  unfold amount_text. destruct (Z.eqb_spec p 0) as [E|E].
  - rewrite E. simpl. by rewrite app_nil_r, <- app_assoc.
  - rewrite (bool_decide_eq_false_2 (fixed_digits _ _ = [])).
    + cbn [negb]. rewrite <- !app_assoc. reflexivity.
    + intros E'. apply (f_equal length) in E'. rewrite length_fixed_digits in E'. simpl in E'. lia.
Qed.

Lemma fc_to_int64_signed (neg : bool) s :
  s <> [] -> Forall (fun c => is_digit c = true) s -> dec_value s <= INT64_MAX ->
  fc_to_int64 ((if neg then ["-"%char] else []) ++ s) =
  Ok ((if neg then -1 else 1) * dec_value s).
Proof.
  intros Hne Hd Hr. unfold fc_to_int64. destruct neg; simpl.
  - rewrite lexical_cast_int64_neg by (done || lia). f_equal; lia.
  - rewrite lexical_cast_int64_digits by done. f_equal; lia.
Qed.

(** A signed run of digits contains no [c] that is neither sign nor digit. *)
Lemma signed_dec_not_char c (neg : bool) q :
  0 <= q -> is_digit c = false -> cv c <> 45 ->
  Forall (fun d => cv d <> cv c) ((if neg then ["-"%char] else []) ++ dec q).
Proof.
  intros Hq Hc H45. apply Forall_app. split.
  - destruct neg; [|done]. apply Forall_singleton. by change (cv "-") with 45.
  - destruct (dec_digit_cons q Hq) as (d & u & -> & Hd). by apply digits_not_char.
Qed.

Lemma signed_dec_first (neg : bool) q rest :
  0 <= q ->
  (cv (char_at (((if neg then ["-"%char] else []) ++ dec q) ++ rest) 0) =? 45) = neg.
Proof.
  intros Hq. destruct (dec_digit_cons q Hq) as (d & u & -> & Hd). destruct neg; [done|].
  apply Forall_inv in Hd. unfold is_digit in Hd. bool_to_prop. unfold char_at. simpl.
  apply Z.eqb_neq. lia.
Qed.

(** The end of [from_string]: the parts are recombined without overflow. *)
Lemma combine_parts (neg : bool) q f s :
  0 <= q -> 0 <= f -> symbol_valid s = true ->
  q * 10 ^ symbol_decimals s + f <= max_amount ->
  (p ← symbol_precision s;
   a ← safe_mul ((if neg then -1 else 1) * q) (i64 p);
   a ← safe_add a ((if neg then -1 else 1) * f);
   asset_init a s) =
  Ok (mk_asset ((if neg then -1 else 1) * (q * 10 ^ symbol_decimals s + f)) s).
Proof.
  unfold max_amount. intros Hq Hf Hs Hb. pose proof Hs as Hs'.
  unfold symbol_valid, max_precision in Hs'. bool_to_prop.
  destruct (symbol_precision_pow s) as [-> HP]; [done|]. cbn [mbind result_bind].
  rewrite i64_id by lia. set (P := 10 ^ symbol_decimals s) in *.
  set (sg := if neg then -1 else 1). assert (sg = 1 \/ sg = -1) as Hsg by (destruct neg; auto).
  assert (q <= q * P) by nia. assert (- 2 ^ 62 < sg * q * P < 2 ^ 62) by nia.
  rewrite safe_mul_checked, checked_in by (unfold is_sint; simpl; nia). cbn [mbind result_bind].
  assert (- 2 ^ 62 < sg * q * P + sg * f < 2 ^ 62) by nia.
  rewrite safe_add_checked, checked_in by (unfold is_sint; simpl; nia). cbn [mbind result_bind].
  replace (sg * q * P + sg * f) with (sg * (q * P + f)) by ring.
  unfold asset_init, is_amount_within_range, amount, sym, max_amount. rewrite Hs.
  rewrite (proj2 (Z.leb_le _ _)), (proj2 (Z.leb_le (sg * (q * P + f)) _)) by nia. done.
Qed.

Lemma symbol_packed_parts p name :
  forallb is_upper name = true -> (length name <= 7)%nat -> 0 <= p <= 18 ->
  let s := mk_symbol (p + 256 * le_value name) in
  symbol_valid s = true /\ symbol_decimals s = p.
Proof.
  intros Hu Hl Hp s. pose proof (symbol_of_packed p name Hu Hl Hp) as E.
  apply bind_ok in E as (v & _ & E). unfold symbol_of_value in E. invert_ok.
  split; [by subst|].
  unfold symbol_decimals, s, m_value.
  rewrite land_255, Z.mul_comm, Z_mod_plus_full, Z.mod_small; lia.
Qed.

Lemma asset_from_parts_ok (neg : bool) q frac name :
  forallb is_upper name = true -> (length name <= 7)%nat ->
  Forall (fun c => is_digit c = true) frac -> (length frac <= 18)%nat ->
  0 <= q -> q * 10 ^ Z.of_nat (length frac) + dec_value frac <= max_amount ->
  asset_from_parts (amount_text neg q frac) name =
  Ok (mk_asset ((if neg then -1 else 1) * (q * 10 ^ Z.of_nat (length frac) + dec_value frac))
               (mk_symbol (Z.of_nat (length frac) + 256 * le_value name))).
Proof.
  intros Hu Hl Hd H18 Hq Hb.
  destruct (symbol_packed_parts (Z.of_nat (length frac)) name) as [Hsv Hsd]; [done|done|lia|].
  pose proof (dec_value_nonneg frac Hd). unfold max_amount in Hb.
  pose proof (Z.pow_pos_nonneg 10 (Z.of_nat (length frac))).
  assert (q < 2 ^ 62) by nia.
  pose proof (combine_parts neg q (dec_value frac) _ Hq ltac:(done) Hsv) as Hc.
  rewrite Hsd in Hc. specialize (Hc ltac:(done)).
  assert (fc_to_int64 ((if neg then ["-"%char] else []) ++ dec q) =
          Ok ((if neg then -1 else 1) * q)) as Hi.
  { destruct (dec_digit_cons q Hq) as (d & u & Edq & Hdu).
    assert (dec_value (dec q) = q) as Eq.
    { unfold dec. destruct (Z.ltb_spec q 0); [lia|]. by apply dec_nat_value. }
    rewrite fc_to_int64_signed; rewrite ?Eq; rewrite ?Edq; done || lia. }
  unfold asset_from_parts, amount_text. rewrite app_assoc.
  case_bool_decide as Ef.
  - subst frac. rewrite app_nil_r, find_char_none by by apply signed_dec_not_char.
    change ["0"%char] with (dec 0). cbn [mbind result_bind].
    rewrite symbol_from_string_ok, Hi by (done || lia). cbn [mbind result_bind].
    destruct neg; exact Hc.
  - rewrite find_char_app by by apply signed_dec_not_char.
    set (hd := (if neg then ["-"%char] else []) ++ dec q) in *.
    assert (length frac <> 0)%nat by (by intros ?%nil_length_inv).
    rewrite length_app. cbn [length].
    rewrite (proj2 (Nat.eqb_neq _ _)) by lia. cbn [negb ine_assert mbind result_bind].
    replace (length hd + S (length frac) - length hd - 1)%nat with (length frac) by lia.
    rewrite symbol_from_string_ok by (done || lia). cbn [mbind result_bind].
    rewrite take_app_length, Hi, Nat.add_1_r, drop_app_ge, Nat.sub_succ_l, Nat.sub_diag by lia.
    cbn [mbind result_bind drop]. unfold hd. rewrite signed_dec_first by done.
    assert (dec_value frac <= INT64_MAX) by nia.
    pose proof (fc_to_int64_signed false frac Ef Hd ltac:(done)) as Hf.
    change (fc_to_int64 frac = Ok (1 * dec_value frac)) in Hf.
    rewrite drop_0, Hf. cbn [mbind result_bind].
    destruct neg; [|exact Hc].
    rewrite safe_mul_checked, checked_in by (unfold is_sint; simpl; lia). cbn [mbind result_bind].
    replace (1 * dec_value frac * -1) with (-1 * dec_value frac) by ring. exact Hc.
Qed.

Lemma asset_from_string_split (neg : bool) q frac name :
  forallb is_upper name = true -> name <> [] -> 0 <= q ->
  Forall (fun c => is_digit c = true) frac ->
  asset_from_string (amount_text neg q frac ++ " "%char :: name) =
  asset_from_parts (amount_text neg q frac) name.
Proof.
  intros Hu Hne Hq Hd. unfold asset_from_string, fc_trim.
  assert (Forall (fun d => cv d <> cv " ") (amount_text neg q frac)) as Hns.
  { unfold amount_text. rewrite app_assoc. apply Forall_app. split.
    - by apply signed_dec_not_char.
    - case_bool_decide; [done|]. constructor; [done|]. by apply digits_not_char. }
  assert (forall u c, name = u ++ [c] -> is_space c = false) as Hlast.
  { intros u c ->. rewrite forallb_app in Hu. simpl in Hu. bool_to_prop.
    by apply upper_not_space. }
  rewrite trim_copy_id.
  - rewrite find_char_app, take_app_length by done.
    rewrite Nat.add_1_r, drop_app_ge, Nat.sub_succ_l, Nat.sub_diag by lia. cbn [drop]. rewrite ?drop_0.
    rewrite trim_copy_id; [done| |done].
    intros c u ->. simpl in Hu. bool_to_prop. by apply upper_not_space.
  - intros c u. unfold amount_text. destruct (dec_digit_cons q Hq) as (d & v & -> & Hdv).
    destruct neg; simpl; intros [= <- _]; [done|].
    apply digit_not_space. by apply Forall_inv in Hdv.
  - intros u c. destruct name as [|d n _] using rev_ind; [done|].
    rewrite app_comm_cons, app_assoc. intros [_ <-]%app_inj_tail. by apply (Hlast n).
Qed.

(** Every asset that satisfies the class invariant and whose symbol has a
    non-empty name survives printing and parsing: to_string succeeds and
    from_string reads back the same amount and symbol, with the sign of
    amounts between -1 and 0 kept. *)
Theorem asset_roundtrip a :
  is_uint 64 (m_value (sym a)) -> asset_is_valid a = true -> symbol_name (sym a) <> [] ->
  exists text, asset_to_string a = Ok text /\ asset_from_string text = Ok a.
Proof.
  intros H64 Hv Hne. eexists. split; [by apply asset_to_string_text|].
  destruct (symbol_decompose (sym a) H64) as [E Hl].
  unfold asset_is_valid, is_amount_within_range, symbol_valid in Hv. bool_to_prop.
  unfold max_precision in *. set (p := symbol_decimals (sym a)) in *.
  assert (0 <= p) by (apply Z.land_nonneg; right; lia).
  pose proof (Z.pow_pos_nonneg 10 p). set (A := Z.abs (amount a)).
  pose proof (Z.mod_pos_bound A (10 ^ p)). pose proof (Z.div_mod A (10 ^ p)).
  assert (0 <= A / 10 ^ p) by (apply Z.div_pos; lia).
  rewrite asset_from_string_split by (done || apply fixed_digits_digits).
  rewrite asset_from_parts_ok; rewrite ?length_fixed_digits, ?fixed_digits_value;
    rewrite ?Z2Nat.id by done; try done; try lia; [|apply fixed_digits_digits].
  rewrite <- E. f_equal. destruct a as [n [v]]; simpl in *. f_equal.
  destruct (Z.ltb_spec n 0); lia.
Qed.
End asset_text.

Lemma asset_roundtrip_witness :
  exists text,
    asset_to_string (HB := reference_boost) (mk_asset (-5) (mk_symbol 0x454E4904)) = Ok text /\
    asset_from_string (HB := reference_boost) text = Ok (mk_asset (-5) (mk_symbol 0x454E4904)).
Proof.
  apply (asset_roundtrip (HB := reference_boost) (BoostTextLaws0 := reference_boost_laws));
    [unfold is_uint; simpl; lia | vm_compute; reflexivity | vm_compute; discriminate].
Defined.

(** *** Operators *)

Lemma asset_valid_inv a :
  asset_is_valid a = true ->
  - max_amount <= amount a <= max_amount /\ symbol_valid (sym a) = true.
Proof. unfold asset_is_valid, is_amount_within_range. intros H. by bool_to_prop. Qed.

Lemma int64_op_ok z : INT64_MIN <= z <= INT64_MAX -> int64_op z = Ok z.
Proof. intros H. unfold int64_op. by rewrite in_range_bool. Qed.

Lemma asset_init_valid z s :
  symbol_valid s = true ->
  asset_init z s = if Z.abs z <=? max_amount then Ok (mk_asset z s)
                   else Err (Throw asset_type_exception).
Proof.
  intros Hs. unfold asset_init, is_amount_within_range, amount, sym. rewrite Hs.
  destruct (Z.leb_spec (Z.abs z) max_amount).
  - by rewrite !(proj2 (Z.leb_le _ _)) by lia.
  - destruct (Z.leb_spec (- max_amount) z), (Z.leb_spec z max_amount); done || lia.
Qed.

(** The result an addition or subtraction of assets should have. *)
Definition asset_result (same : bool) (z : Z) (s : symbol) : outcome asset :=
  if same && (Z.abs z <=? max_amount) then Ok (mk_asset z s)
  else Err (Throw asset_type_exception).

(** On assets that satisfy the class invariant, binary + and - return the
    exact sum or difference when the symbols agree and the result is below
    2^62 in magnitude, and throw asset_type_exception otherwise; unary -
    always succeeds.  The int64_t addition never overflows. *)
Theorem asset_arithmetic a b :
  asset_is_valid a = true -> asset_is_valid b = true ->
  asset_add a b = asset_result (same_symbol a b) (amount a + amount b) (sym a) /\
  asset_sub a b = asset_result (same_symbol a b) (amount a - amount b) (sym a) /\
  asset_opp a = Ok (mk_asset (- amount a) (sym a)).
Proof.
  intros [Ha Hs]%asset_valid_inv [Hb _]%asset_valid_inv.
  unfold max_amount in *. unfold asset_add, asset_sub, asset_opp, asset_result.
  rewrite !int64_op_ok by lia. cbn [mbind result_bind]. rewrite !asset_init_valid by done.
  split_and!; [by destruct (same_symbol a b)..|].
  by rewrite (proj2 (Z.leb_le _ _)) by (unfold max_amount; lia).
Qed.

Lemma asset_arithmetic_witness :
  asset_add (mk_asset max_amount (mk_symbol 0x454E4904)) (mk_asset 1 (mk_symbol 0x454E4904)) =
  Err (Throw asset_type_exception).
Proof.
  apply (asset_arithmetic (mk_asset max_amount (mk_symbol 0x454E4904))
           (mk_asset 1 (mk_symbol 0x454E4904))); vm_compute; reflexivity.
Defined.

(** The compound assignments check only the symbols.  On assets that
    satisfy the class invariant they do not overflow, but the result
    satisfies the invariant only if it is below 2^62 in magnitude: += and
    -= can leave an asset the constructor would have refused. *)
Theorem asset_assign_escapes a b :
  asset_is_valid a = true -> asset_is_valid b = true -> sym a = sym b ->
  (exists r, asset_add_assign a b = Ok r /\ amount r = amount a + amount b /\
             asset_is_valid r = (Z.abs (amount a + amount b) <=? max_amount)) /\
  (exists r, asset_sub_assign a b = Ok r /\ amount r = amount a - amount b /\
             asset_is_valid r = (Z.abs (amount a - amount b) <=? max_amount)).
Proof.
  intros [Ha Hs]%asset_valid_inv [Hb _]%asset_valid_inv E. unfold max_amount in *.
  unfold asset_add_assign, asset_sub_assign, same_symbol.
  rewrite bool_decide_eq_true_2 by done. cbn [ine_assert mbind result_bind].
  rewrite !int64_op_ok by lia. cbn [mbind result_bind].
  split; eexists; split_and!; try done; unfold asset_is_valid, is_amount_within_range;
    cbn [amount sym]; rewrite Hs, andb_true_r; apply eq_true_iff_eq;
    rewrite andb_true_iff, !Z.leb_le; unfold max_amount; lia.
Qed.

Lemma asset_assign_escapes_witness :
  exists r, asset_add_assign (mk_asset max_amount (mk_symbol 4)) (mk_asset max_amount (mk_symbol 4))
            = Ok r /\ amount r = max_amount + max_amount /\
            asset_is_valid r = (Z.abs (max_amount + max_amount) <=? max_amount).
Proof.
  apply (asset_assign_escapes (mk_asset max_amount (mk_symbol 4))
           (mk_asset max_amount (mk_symbol 4))); vm_compute; reflexivity.
Defined.

(** On assets of the same symbol the six comparisons are those of the
    amounts; on different symbols == and != answer and the four orderings
    throw asset_type_exception. *)
Theorem asset_comparisons a b :
  asset_ne a b = negb (asset_eq a b) /\
  if same_symbol a b then
    asset_eq a b = (amount a =? amount b) /\ asset_lt a b = Ok (amount a <? amount b) /\
    asset_le a b = Ok (amount a <=? amount b) /\ asset_gt a b = Ok (amount b <? amount a) /\
    asset_ge a b = Ok (amount b <=? amount a)
  else
    asset_eq a b = false /\
    Forall (fun r => r = Err (Throw asset_type_exception))
      [asset_lt a b; asset_le a b; asset_gt a b; asset_ge a b].
Proof.
  split; [done|]. unfold asset_ge, asset_gt, asset_le, asset_lt, asset_eq.
  destruct (same_symbol a b) eqn:E; [|split; [done|by repeat constructor]].
  unfold same_symbol in E. apply bool_decide_eq_true in E. rewrite E, Z.ltb_irrefl.
  rewrite andb_false_r, orb_false_r. cbn [ine_assert mbind result_bind andb].
  destruct (Z.eqb_spec (amount a) (amount b)), (Z.ltb_spec (amount a) (amount b)),
    (Z.leb_spec (amount a) (amount b)), (Z.ltb_spec (amount b) (amount a)),
    (Z.leb_spec (amount b) (amount a)); try lia; done.
Qed.
