(* ===== verification/Timestamps.v ===== *)
(** * Block timestamps

    Models block_timestamp.hpp (block_timestamp<IntervalMs, EpochMs> and its
    instance block_timestamp_type) and the part of fc/time.hpp it uses:
    microseconds, time_point and time_point_sec as their counts.

    The theorems show that converting a slot to a time and back is the
    identity, that a time at or after the epoch is rounded down to its slot,
    and that [next] advances by exactly one interval or throws. *)

From S2P Require Import Prelude Exceptions.

(** Let [lia] see divisions by constants. *)
Ltac Zify.zify_post_hook ::= Z.to_euclidean_division_equations.

(** [microseconds] and [time_point] are int64_t counts, [time_point_sec] a
    uint32_t count of seconds. *)
Definition milliseconds (s : Z) : Z := i64 (s * 1000).
Definition seconds (s : Z) : Z := i64 (s * 1000000).
Definition time_point_of_sec (utc_seconds : Z) : Z := seconds utc_seconds.
Definition sec_of_time_point (t : Z) : Z := u32 (t ÷ 1000000).

Section block_timestamp.
Context (IntervalMs EpochMs : Z).

Record block_timestamp := mk_block_timestamp { slot : Z }.

Definition maximum : block_timestamp := mk_block_timestamp 0xffff.
Definition minimum : block_timestamp := mk_block_timestamp 0.

Definition next (t : block_timestamp) : outcome block_timestamp :=
  ine_assert (u32 (UINT32_MAX - slot t) >=? 1) fc_overflow_exception ;;
  Ok (mk_block_timestamp (u32 (slot t + 1))).

Definition to_time_point (t : block_timestamp) : Z :=
  let msec := i64 (slot t * IntervalMs) in
  let msec := i64 (u64 (u64 msec + EpochMs)) in
  milliseconds msec.

(** int64_t minus uint64_t is computed in uint64_t. *)
Definition set_time_point (t : Z) : block_timestamp :=
  let msec_since_epoch := t ÷ 1000 in
  mk_block_timestamp (u32 (u64 (msec_since_epoch - EpochMs) / IntervalMs)).

Definition set_time_point_sec (t : Z) : block_timestamp :=
  let sec_since_epoch := u64 t in
  mk_block_timestamp (u32 (u64 (u64 (sec_since_epoch * 1000) - EpochMs) / IntervalMs)).

End block_timestamp.

Definition block_interval_ms : Z := 500.
Definition block_timestamp_epoch : Z := 946684800000.

(** The instance of the block headers. *)
Abbreviation ts_to_time_point := (to_time_point block_interval_ms block_timestamp_epoch).
Abbreviation ts_set_time_point := (set_time_point block_interval_ms block_timestamp_epoch).
Abbreviation ts_set_time_point_sec := (set_time_point_sec block_interval_ms block_timestamp_epoch).

(** ** Conversions *)

Lemma to_time_point_value t :
  is_uint 32 (slot t) -> ts_to_time_point t = (slot t * 500 + 946684800000) * 1000.
Proof.
  unfold is_uint. intros H. unfold to_time_point, milliseconds, block_interval_ms,
    block_timestamp_epoch.
  rewrite (swrap_id 64 (slot t * 500)) by (unfold is_sint; simpl; lia).
  rewrite (wrap_id 64 (slot t * 500)), wrap_id by (unfold is_uint; lia).
  rewrite (swrap_id 64 (slot t * 500 + _)) by (unfold is_sint; simpl; lia).
  by rewrite swrap_id by (unfold is_sint; simpl; lia).
Qed.

Lemma set_time_point_value t :
  946684800000000 <= t < 2 ^ 63 ->
  ts_set_time_point t = mk_block_timestamp (u32 ((t / 1000 - 946684800000) / 500)).
Proof.
  intros H. unfold set_time_point, block_interval_ms, block_timestamp_epoch.
  rewrite Z.quot_div_nonneg, (wrap_id 64) by (unfold is_uint; lia || lia). done.
Qed.

(** A slot converted to a time and back is the same slot, for all 2^32
    slots. *)
Theorem timestamp_roundtrip t :
  is_uint 32 (slot t) -> ts_set_time_point (ts_to_time_point t) = t.
Proof.
  intros H. rewrite to_time_point_value by done. unfold is_uint in H.
  rewrite set_time_point_value by lia.
  rewrite Z.div_mul by lia. replace (slot t * 500 + 946684800000 - 946684800000)
    with (slot t * 500) by ring.
  rewrite Z.div_mul, wrap_id by (unfold is_uint; lia || lia). by destruct t.
Qed.

Lemma timestamp_roundtrip_witness :
  ts_set_time_point (ts_to_time_point (mk_block_timestamp UINT32_MAX)) =
  mk_block_timestamp UINT32_MAX.
Proof. apply timestamp_roundtrip. unfold is_uint. simpl. lia. Defined.

(** A time from the epoch up to the end of the last slot is rounded down:
    the slot's time is at most the given time and less than one interval
    before it; the constructor from seconds agrees with the one from
    microseconds. *)
Theorem timestamp_rounds_down t :
  946684800000000 <= t < 946684800000000 + 2 ^ 32 * 500000 ->
  ts_to_time_point (ts_set_time_point t) <= t < ts_to_time_point (ts_set_time_point t) + 500000 /\
  (is_uint 32 (t / 1000000) ->
   ts_set_time_point_sec (t / 1000000) = ts_set_time_point (time_point_of_sec (t / 1000000))).
Proof.
  intros H. rewrite set_time_point_value by lia. rewrite wrap_id by (unfold is_uint; lia).
  rewrite to_time_point_value by (unfold is_uint, slot; lia). unfold slot. split; [lia|].
  assert (946684800 <= t / 1000000) as He by lia. generalize dependent (t / 1000000).
  clear. unfold is_uint, time_point_of_sec, seconds. intros s He Hs.
  rewrite swrap_id by (unfold is_sint; simpl; lia).
  rewrite set_time_point_value by lia.
  unfold set_time_point_sec, block_interval_ms, block_timestamp_epoch.
  rewrite (wrap_id 64 s), (wrap_id 64 (s * 1000)), (wrap_id 64) by (unfold is_uint; lia).
  do 2 f_equal. lia.
Qed.

Lemma timestamp_rounds_down_witness :
  ts_to_time_point (ts_set_time_point 1577836800123456) <= 1577836800123456.
Proof. apply (timestamp_rounds_down 1577836800123456). lia. Defined.

(** [next] is the following slot, one interval later, except at the last
    slot, where it throws overflow_exception; [maximum] is not the last
    slot: [next] succeeds on it and gives a larger one. *)
Theorem timestamp_next t :
  is_uint 32 (slot t) ->
  (if slot t =? UINT32_MAX then next t = Err fc_overflow_exception
   else exists t', next t = Ok t' /\ slot t' = slot t + 1 /\
                   ts_to_time_point t' = ts_to_time_point t + 500000) /\
  (exists t', next maximum = Ok t' /\ slot maximum < slot t').
Proof.
  unfold is_uint. intros H. split.
  - unfold next. rewrite (wrap_id 32 (UINT32_MAX - slot t)) by (unfold is_uint; lia).
    destruct (Z.eqb_spec (slot t) UINT32_MAX) as [->|]; [done|].
    rewrite Z.geb_leb, (proj2 (Z.leb_le _ _)) by lia. cbn [ine_assert mbind result_bind].
    rewrite wrap_id by (unfold is_uint; lia). eexists. split_and!; [done|done|].
    rewrite !to_time_point_value by (unfold is_uint; simpl; lia). simpl. ring.
  - eexists. split; [reflexivity|]. vm_compute. done.
Qed.

Lemma timestamp_next_witness :
  next (mk_block_timestamp UINT32_MAX) = Err fc_overflow_exception.
Proof. apply (timestamp_next (mk_block_timestamp UINT32_MAX)). unfold is_uint; simpl; lia. Defined.
