(* ===== verification/Chainbase.v ===== *)
(** * The object database

    Models chainbase.hpp and chainbase.cpp: an index of objects with its undo
    stack (generic_index), the sessions that undo, squash or push a change
    set, and the database that runs them on all its indices.

    The multi_index_container of Boost is the finite map from the id of an
    object to the object; its other unique indices are the list [keys] of
    their key functions, and an object is inserted exactly if no object in
    the container has its id or one of its keys.  The type of the objects,
    their ids and their keys are parameters, as they are in the template.

    The theorems: the index refines a stack of snapshots, so that undo
    restores exactly the objects and the next id of the session's start (or
    aborts, which modifications that leave the conflicts of unique keys alone
    exclude), squash forgets the newer of two snapshots and commit the oldest;
    squashing two change sets follows the table of squash's comment; and the
    undo stacks of all indices of a database stay in step. *)

From stdpp Require Import sorting.
From S2P Require Import Prelude Exceptions.

(** ** Data *)

Section data.
Context (V : Type).

Record undo_state := mk_undo_state {
  old_values : gmap Z V;
  removed_values : gmap Z V;
  new_ids : gset Z;
  old_next_id : Z;
  us_revision : Z
}.

Record generic_index := mk_generic_index {
  stack : list undo_state;
  revision : Z;
  next_id : Z;
  indices : gmap Z V
}.

End data.

Arguments mk_undo_state {V}.
Arguments old_values {V}.
Arguments removed_values {V}.
Arguments new_ids {V}.
Arguments old_next_id {V}.
Arguments us_revision {V}.
Arguments mk_generic_index {V}.
Arguments stack {V}.
Arguments revision {V}.
Arguments next_id {V}.
Arguments indices {V}.

(** [++] of an int64_t. *)
Definition increment (z : Z) : outcome Z :=
  if z <? INT64_MAX then Ok (z + 1) else Err undefined_behaviour.

(** [std::map::emplace]: an element with the key stays. *)
Definition map_emplace {V} (k : Z) (v : V) (m : gmap Z V) : gmap Z V :=
  match m !! k with Some _ => m | None => <[k := v]> m end.

(** The elements of a [std::map] and of a [std::set], in the order of their
    iteration. *)
Definition id_le {V} (p q : Z * V) : Prop := p.1 <= q.1.

#[export] Instance id_le_dec {V} : RelDecision (@id_le V).
Proof. intros p q. unfold id_le. apply _. Defined.

Definition in_order {V} (m : gmap Z V) : list (Z * V) := merge_sort id_le (map_to_list m).

Definition ids_in_order (s : gset Z) : list Z := merge_sort Z.le (elements s).

Section generic_index.
Context {V K : Type} `{!EqDecision K} (obj_id : V -> Z) (keys : list (V -> K)).

Implicit Types (idx : generic_index V) (u : undo_state V) (m : gmap Z V) (v : V).

(** ** The container *)

Definition same_key (v w : V) : bool :=
  existsb (fun key => bool_decide (key v = key w)) keys.

(** Some object has the id or one of the keys of [v]. *)
Definition violates (m : gmap Z V) (v : V) : bool :=
  bool_decide (is_Some (m !! obj_id v)) || existsb (fun p => same_key p.2 v) (map_to_list m).

Definition container_emplace (m : gmap Z V) (v : V) : option (gmap Z V) :=
  if violates m v then None else Some (<[obj_id v := v]> m).

(** [modify( find( id ), f )]: [None] for a violation of uniqueness. *)
Definition container_modify (m : gmap Z V) (id : Z) (f : V -> V) : outcome (option (gmap Z V)) :=
  match m !! id with
  | None => Err undefined_behaviour
  | Some v => Ok (container_emplace (delete id m) (f v))
  end.

Definition container_erase (m : gmap Z V) (id : Z) : outcome (gmap Z V) :=
  match m !! id with None => Err undefined_behaviour | Some _ => Ok (delete id m) end.

(** ** Recording changes *)

Definition enabled (idx : generic_index V) : bool := negb (bool_decide (length (stack idx) = 0)%nat).

(** Replace the newest undo state. *)
Definition update_head (f : undo_state V -> undo_state V) (l : list (undo_state V)) : list (undo_state V) :=
  match back l with
  | None => l
  | Some u => take (length l - 1) l ++ [f u]
  end.

Definition on_modify (v : V) (u : undo_state V) : undo_state V :=
  if bool_decide (obj_id v ∈ new_ids u) then u else
  if bool_decide (is_Some (old_values u !! obj_id v)) then u else
  mk_undo_state (map_emplace (obj_id v) v (old_values u)) (removed_values u) (new_ids u)
    (old_next_id u) (us_revision u).

Definition on_remove (v : V) (u : undo_state V) : undo_state V :=
  if bool_decide (obj_id v ∈ new_ids u) then
    mk_undo_state (old_values u) (removed_values u) (new_ids u ∖ {[obj_id v]})
      (old_next_id u) (us_revision u)
  else
  match old_values u !! obj_id v with
  | Some old =>
      mk_undo_state (delete (obj_id v) (old_values u))
        (map_emplace (obj_id v) old (removed_values u)) (new_ids u) (old_next_id u) (us_revision u)
  | None =>
      if bool_decide (is_Some (removed_values u !! obj_id v)) then u else
      mk_undo_state (old_values u) (map_emplace (obj_id v) v (removed_values u)) (new_ids u)
        (old_next_id u) (us_revision u)
  end.

Definition on_create (v : V) (u : undo_state V) : undo_state V :=
  mk_undo_state (old_values u) (removed_values u) (new_ids u ∪ {[obj_id v]})
    (old_next_id u) (us_revision u).

(** ** Operations *)

(** [c] is what the constructor makes of a fresh object that has been given
    the id. *)
Definition emplace (c : Z -> V) (idx : generic_index V) : outcome (generic_index V) :=
  let v := c (next_id idx) in
  match container_emplace (indices idx) v with
  | None => Err std_logic_error
  | Some m =>
      next ← increment (next_id idx);
      Ok (mk_generic_index
            (if enabled idx then update_head (on_create v) (stack idx) else stack idx)
            (revision idx) next m)
  end.

(** The object is given by its id, [obj] being a reference into the
    container. *)
Definition modify (id : Z) (f : V -> V) (idx : generic_index V) : outcome (generic_index V) :=
  match indices idx !! id with
  | None => Err undefined_behaviour
  | Some v =>
      let stack' := if enabled idx then update_head (on_modify v) (stack idx) else stack idx in
      m ← container_modify (indices idx) id f;
      match m with
      | None => Err std_abort
      | Some m => Ok (mk_generic_index stack' (revision idx) (next_id idx) m)
      end
  end.

Definition remove (id : Z) (idx : generic_index V) : outcome (generic_index V) :=
  match indices idx !! id with
  | None => Err undefined_behaviour
  | Some v =>
      let stack' := if enabled idx then update_head (on_remove v) (stack idx) else stack idx in
      m ← container_erase (indices idx) id;
      Ok (mk_generic_index stack' (revision idx) (next_id idx) m)
  end.

Definition remove_object (id : Z) (idx : generic_index V) : outcome (generic_index V) :=
  match indices idx !! id with
  | None => Err std_out_of_range
  | Some _ => remove id idx
  end.

Definition find (id : Z) (idx : generic_index V) : option V := indices idx !! id.

Definition get (id : Z) (idx : generic_index V) : outcome V :=
  match find id idx with Some v => Ok v | None => Err std_out_of_range end.

(** ** Undoing *)

(** The three loops of [undo]. *)
Fixpoint erase_new (ids : list Z) (m : gmap Z V) : outcome (gmap Z V) :=
  match ids with
  | [] => Ok m
  | id :: ids' => m' ← container_erase m id; erase_new ids' m'
  end.

Fixpoint restore_old (items : list (Z * V)) (m : gmap Z V) : outcome (gmap Z V) :=
  match items with
  | [] => Ok m
  | (_, old) :: items' =>
      m' ← container_modify m (obj_id old) (fun _ => old);
      match m' with
      | None => Err std_abort
      | Some m' => restore_old items' m'
      end
  end.

Fixpoint restore_removed (items : list (Z * V)) (m : gmap Z V) : outcome (gmap Z V) :=
  match items with
  | [] => Ok m
  | (_, v) :: items' =>
      match container_emplace m v with
      | None => Err std_abort
      | Some m' => restore_removed items' m'
      end
  end.

Definition undo (idx : generic_index V) : outcome (generic_index V) :=
  match back (stack idx) with
  | None => Ok idx
  | Some head =>
      m ← erase_new (ids_in_order (new_ids head)) (indices idx);
      m ← restore_old (in_order (old_values head)) m;
      m ← restore_removed (in_order (removed_values head)) m;
      Ok (mk_generic_index (take (length (stack idx) - 1) (stack idx)) (revision idx - 1)
            (old_next_id head) m)
  end.

(** ** Squashing *)

(** The three loops of [squash], on [prev_state]; an assertion that fails
    ends the program. *)
Definition squash_old (item : Z * V) (prev : undo_state V) : outcome (undo_state V) :=
  let id := obj_id item.2 in
  if bool_decide (id ∈ new_ids prev) then Ok prev else
  if bool_decide (is_Some (old_values prev !! id)) then Ok prev else
  ine_assert (bool_decide (removed_values prev !! id = None)) std_abort ;;
  Ok (mk_undo_state (map_emplace item.1 item.2 (old_values prev)) (removed_values prev) (new_ids prev)
        (old_next_id prev) (us_revision prev)).

Definition squash_new (ids : gset Z) (prev : undo_state V) : undo_state V :=
  mk_undo_state (old_values prev) (removed_values prev) (new_ids prev ∪ ids)
    (old_next_id prev) (us_revision prev).

Definition squash_removed (item : Z * V) (prev : undo_state V) : outcome (undo_state V) :=
  let id := obj_id item.2 in
  if bool_decide (id ∈ new_ids prev) then
    Ok (mk_undo_state (old_values prev) (removed_values prev) (new_ids prev ∖ {[id]})
          (old_next_id prev) (us_revision prev))
  else
  match old_values prev !! id with
  | Some old =>
      Ok (mk_undo_state (delete id (old_values prev)) (map_emplace id old (removed_values prev))
            (new_ids prev) (old_next_id prev) (us_revision prev))
  | None =>
      ine_assert (bool_decide (removed_values prev !! id = None)) std_abort ;;
      Ok (mk_undo_state (old_values prev) (map_emplace item.1 item.2 (removed_values prev))
            (new_ids prev) (old_next_id prev) (us_revision prev))
  end.

Fixpoint squash_each (f : Z * V -> undo_state V -> outcome (undo_state V)) (items : list (Z * V))
    (prev : undo_state V) : outcome (undo_state V) :=
  match items with
  | [] => Ok prev
  | item :: items' => prev' ← f item prev; squash_each f items' prev'
  end.

Definition squash_states (prev state : undo_state V) : outcome (undo_state V) :=
  prev ← squash_each squash_old (in_order (old_values state)) prev;
  squash_each squash_removed (in_order (removed_values state)) (squash_new (new_ids state) prev).

Definition squash (idx : generic_index V) : outcome (generic_index V) :=
  match back (stack idx) with
  | None => Ok idx
  | Some state =>
      let below := take (length (stack idx) - 1) (stack idx) in
      match back below with
      | None => Ok (mk_generic_index [] (revision idx - 1) (next_id idx) (indices idx))
      | Some prev =>
          merged ← squash_states prev state;
          Ok (mk_generic_index (update_head (fun _ => merged) below) (revision idx - 1)
                (next_id idx) (indices idx))
      end
  end.

(** ** Revisions *)

Fixpoint drop_committed (rev : Z) (l : list (undo_state V)) : list (undo_state V) :=
  match l with
  | [] => []
  | u :: l' => if us_revision u <=? rev then drop_committed rev l' else l
  end.

Definition commit (rev : Z) (idx : generic_index V) : generic_index V :=
  mk_generic_index (drop_committed rev (stack idx)) (revision idx) (next_id idx) (indices idx).

(** The loop of [undo_all]: every round pops an undo state, so that the size
    of the stack is enough fuel. *)
Fixpoint undo_all_loop (fuel : nat) (idx : generic_index V) : option (outcome (generic_index V)) :=
  if enabled idx then
    match fuel with
    | O => None
    | S fuel' =>
        match undo idx with
        | Ok idx' => undo_all_loop fuel' idx'
        | Err e => Some (Err e)
        end
    end
  else Some (Ok idx).

Definition undo_all (idx : generic_index V) : option (outcome (generic_index V)) :=
  undo_all_loop (length (stack idx)) idx.

Definition set_revision (rev : Z) (idx : generic_index V) : outcome (generic_index V) :=
  ine_assert (bool_decide (length (stack idx) = 0)%nat) std_logic_error ;;
  ine_assert (rev <=? INT64_MAX) std_logic_error ;;
  Ok (mk_generic_index (stack idx) rev (next_id idx) (indices idx)).

Definition undo_stack_revision_range (idx : generic_index V) : Z * Z :=
  match stack idx, back (stack idx) with
  | first :: _, Some last => (us_revision first - 1, us_revision last)
  | _, _ => (revision idx, revision idx)
  end.

(** ** Sessions *)

Record session := mk_session { apply_ : bool; session_revision : Z }.

Definition start_undo_session (enable : bool) (idx : generic_index V) :
  outcome (generic_index V * session) :=
  if enable then
    rev ← increment (revision idx);
    Ok (mk_generic_index (stack idx ++ [mk_undo_state ∅ ∅ ∅ (next_id idx) rev]) rev
          (next_id idx) (indices idx), mk_session true rev)
  else Ok (idx, mk_session false (-1)).

(** The move constructor leaves [_revision] at its initial value. *)
Definition session_move (s : session) : session := mk_session (apply_ s) 0.

Definition session_push (s : session) : session := mk_session false (session_revision s).

Definition session_squash (s : session) (idx : generic_index V) : outcome (generic_index V * session) :=
  idx' ← if apply_ s then squash idx else Ok idx;
  Ok (idx', mk_session false (session_revision s)).

Definition session_undo (s : session) (idx : generic_index V) : outcome (generic_index V * session) :=
  idx' ← if apply_ s then undo idx else Ok idx;
  Ok (idx', mk_session false (session_revision s)).

(** The destructor. *)
Definition session_end (s : session) (idx : generic_index V) : outcome (generic_index V) :=
  if apply_ s then undo idx else Ok idx.

(** ** Keys and uniqueness *)

(** The second object can stand in for the first: it has its id, and
    conflicts with the objects of other ids in the same way.  An object whose
    unique keys are unchanged is one, and so is an object whose changed key
    extends another unique key. *)
Definition keys_agree (v w : V) : Prop :=
  obj_id v = obj_id w /\ forall x, obj_id x <> obj_id v -> same_key x v = same_key x w.

Lemma keys_agree_refl v : keys_agree v v.
Proof. done. Qed.

Lemma keys_agree_sym v w : keys_agree v w -> keys_agree w v.
Proof. intros [Hid H]. split; [done|]. intros x Hx. symmetry. apply H. congruence. Qed.

Lemma keys_agree_trans v w x : keys_agree v w -> keys_agree w x -> keys_agree v x.
Proof.
  intros [Hi H] [Hi' H']. split; [congruence|]. intros y Hy. rewrite H by done. apply H'. congruence.
Qed.

Lemma same_key_sym v w : same_key v w = same_key w v.
Proof.
  unfold same_key. induction keys as [|key l IH]; [done|]. cbn [existsb]. rewrite IH. f_equal.
  by apply bool_decide_ext.
Qed.

Lemma same_key_agree v v' w w' :
  keys_agree v v' -> keys_agree w w' -> obj_id v <> obj_id w -> same_key v w = same_key v' w'.
Proof.
  intros [Hv Hv'] [Hw Hw'] Hne. rewrite Hw' by done. rewrite same_key_sym, Hv' by congruence.
  apply same_key_sym.
Qed.

(** Objects with the same id and the same unique keys. *)
Lemma same_keys_agree v w :
  obj_id v = obj_id w -> Forall (fun key => key v = key w) keys -> keys_agree v w.
Proof.
  intros Hid H. split; [done|]. intros x _. unfold same_key.
  induction H as [|key l Hk _ IH]; [done|]. cbn [existsb]. by rewrite IH, Hk.
Qed.

(** The objects are stored under their ids. *)
Definition keyed (m : gmap Z V) : Prop := forall k v, m !! k = Some v -> obj_id v = k.

Definition unique (m : gmap Z V) : Prop :=
  forall i j v w, m !! i = Some v -> m !! j = Some w -> i <> j -> same_key v w = false.

Lemma violates_false m v :
  violates m v = false <->
  m !! obj_id v = None /\ forall k w, m !! k = Some w -> same_key w v = false.
Proof.
  unfold violates. rewrite orb_false_iff, bool_decide_eq_false, <- eq_None_not_Some.
  apply and_iff_compat_l. split.
  - intros H k w Hw. apply not_true_is_false. intros E. apply not_true_iff_false in H. apply H.
    apply existsb_exists. exists (k, w). split; [|done]. by apply list_elem_of_In, elem_of_map_to_list.
  - intros H. apply not_true_is_false. intros ([k w] & Hin & E)%existsb_exists.
    apply list_elem_of_In, elem_of_map_to_list in Hin. simpl in E. by rewrite (H k w Hin) in E.
Qed.

(** The objects are stored under their ids, below [n], with unique keys. *)
Definition table_ok (m : gmap Z V) (n : Z) : Prop :=
  (forall k v, m !! k = Some v -> obj_id v = k /\ k < n) /\ unique m.

Lemma table_keyed m n : table_ok m n -> keyed m.
Proof. intros [H _] k v Hv. by apply H. Qed.

Lemma container_emplace_ok m n v m' :
  table_ok m n -> obj_id v = n -> container_emplace m v = Some m' ->
  m' = <[n := v]> m /\ m !! n = None /\ table_ok m' (n + 1).
Proof.
  intros [Hids Hu] Hid. unfold container_emplace. destruct (violates m v) eqn:Hv; [done|].
  intros [= <-]. rewrite Hid. apply violates_false in Hv as [Hnew Hk]. rewrite Hid in Hnew.
  split_and!; [done|done|]. split.
  - intros k w. destruct (decide (n = k)) as [->|Hne].
    + rewrite lookup_insert_eq. intros [= <-]. lia.
    + rewrite lookup_insert_ne by done. intros [? ?]%Hids. lia.
  - intros i j x y. destruct (decide (i = n)) as [->|Hi], (decide (j = n)) as [->|Hj];
      rewrite ?lookup_insert_eq, ?lookup_insert_ne by congruence.
    + done.
    + intros [= <-] Hy _. rewrite same_key_sym. by apply (Hk j).
    + intros Hx [= <-] _. by apply (Hk i).
    + by apply Hu.
Qed.

(** ** Change sets

    The relationship of an object to an undo state, with the names of the
    comment in [squash]. *)

Inductive change := New | Upd (was : V) | Del (was : V) | Nop.

Definition change_of (u : undo_state V) (k : Z) : change :=
  if bool_decide (k ∈ new_ids u) then New else
  match old_values u !! k, removed_values u !! k with
  | Some v, _ => Upd v
  | None, Some v => Del v
  | None, None => Nop
  end.

(** What undoing a change makes of the object. *)
Definition undo_change (c : change) (now : option V) : option V :=
  match c with New => None | Upd v => Some v | Del v => Some v | Nop => now end.

(** The table of [squash]; [None] is its N/A. *)
Definition merge_change (a b : change) : option change :=
  match a, b with
  | New, Upd _ => Some New
  | New, Del _ => Some Nop
  | New, Nop => Some New
  | Upd x, Upd _ => Some (Upd x)
  | Upd x, Del _ => Some (Del x)
  | Upd x, Nop => Some (Upd x)
  | Del x, Nop => Some (Del x)
  | Nop, _ => Some b
  | _, _ => None
  end.

(** A change and the object it left. *)
Definition fits (c : change) (now : option V) : Prop :=
  match c with
  | New => is_Some now
  | Upd v => exists w, now = Some w /\ keys_agree v w
  | Del _ => now = None
  | Nop => True
  end.

(** The three sets of an undo state are disjoint and hold values under their
    ids. *)
Definition entry_ok (u : undo_state V) (k : Z) : Prop :=
  (k ∈ new_ids u -> old_values u !! k = None /\ removed_values u !! k = None) /\
  (is_Some (old_values u !! k) -> removed_values u !! k = None) /\
  (forall v, old_values u !! k = Some v \/ removed_values u !! k = Some v -> obj_id v = k).

Definition undo_state_ok (u : undo_state V) : Prop := forall k, entry_ok u k.

(** Two undo states hold the same for [k]. *)
Definition same_entry (u u' : undo_state V) (k : Z) : Prop :=
  (k ∈ new_ids u' <-> k ∈ new_ids u) /\ old_values u' !! k = old_values u !! k /\
  removed_values u' !! k = removed_values u !! k.

(** Undoing [u] in the table [m], whose next id is [n], gives the table [s]. *)
Record undoes (u : undo_state V) (m : gmap Z V) (n : Z) (s : gmap Z V) : Prop := {
  un_ok : undo_state_ok u;
  un_lookup k : s !! k = undo_change (change_of u k) (m !! k);
  un_fits k : fits (change_of u k) (m !! k);
  un_new k : k ∈ new_ids u -> old_next_id u <= k;
  un_next : old_next_id u <= n
}.

(** ** The specification: a stack of snapshots, the newest first *)

Record snapshot := mk_snapshot { s_revision : Z; s_objects : gmap Z V; s_next : Z }.

Record history := mk_history {
  h_saved : list snapshot;
  h_revision : Z;
  h_next : Z;
  h_objects : gmap Z V
}.

Inductive stack_sim : gmap Z V -> Z -> list (undo_state V) -> list snapshot -> Prop :=
  | sim_nil m n : stack_sim m n [] []
  | sim_cons m n u us s ss :
      undoes u m n (s_objects s) -> s_revision s = us_revision u -> s_next s = old_next_id u ->
      table_ok (s_objects s) (s_next s) -> stack_sim (s_objects s) (s_next s) us ss ->
      stack_sim m n (u :: us) (s :: ss).

Record index_sim (idx : generic_index V) (h : history) : Prop := {
  sim_objects : indices idx = h_objects h;
  sim_next : next_id idx = h_next h;
  sim_revision : revision idx = h_revision h;
  sim_table : table_ok (h_objects h) (h_next h);
  sim_stack : stack_sim (h_objects h) (h_next h) (reverse (stack idx)) (h_saved h);
  sim_revisions i s : h_saved h !! i = Some s -> s_revision s = h_revision h - Z.of_nat i
}.

Lemma change_of_new u k : k ∈ new_ids u -> change_of u k = New.
Proof. intros H. unfold change_of. by rewrite bool_decide_eq_true_2. Qed.

Lemma change_of_old u k v : undo_state_ok u -> old_values u !! k = Some v -> change_of u k = Upd v.
Proof.
  intros Hu H. unfold change_of. rewrite bool_decide_eq_false_2, H; [done|].
  intros [Hn _]%(Hu k). congruence.
Qed.

Lemma change_of_removed u k v : undo_state_ok u -> removed_values u !! k = Some v -> change_of u k = Del v.
Proof.
  intros Hu H. destruct (Hu k) as (Hn & Ho & _). unfold change_of. rewrite bool_decide_eq_false_2.
  - destruct (old_values u !! k) as [w|] eqn:E; [|by rewrite H]. rewrite Ho in H by eauto. done.
  - intros [_ ?]%Hn. congruence.
Qed.

Lemma change_of_cases u k :
  (k ∈ new_ids u /\ change_of u k = New) \/
  (~ (k ∈ new_ids u) /\ exists v, old_values u !! k = Some v /\ change_of u k = Upd v) \/
  (~ (k ∈ new_ids u) /\ old_values u !! k = None /\
     exists v, removed_values u !! k = Some v /\ change_of u k = Del v) \/
  (~ (k ∈ new_ids u) /\ old_values u !! k = None /\ removed_values u !! k = None /\ change_of u k = Nop).
Proof.
  unfold change_of. destruct (bool_decide_reflect (k ∈ new_ids u)) as [?|?]; [by left|right].
  destruct (old_values u !! k) as [v|]; [left; by eauto|right].
  destruct (removed_values u !! k) as [v|]; [left; by eauto|by right].
Qed.

Lemma same_entry_change u u' k : same_entry u u' k -> change_of u' k = change_of u k.
Proof. intros (H1 & H2 & H3). unfold change_of. rewrite H2, H3. by rewrite (bool_decide_ext _ _ H1). Qed.

Lemma same_entry_ok u u' k : same_entry u u' k -> entry_ok u k -> entry_ok u' k.
Proof. unfold entry_ok. intros (H1 & H2 & H3). by rewrite H1, H2, H3. Qed.

(** A step that concerns the object [k0] only. *)
Lemma undoes_update u u' m m' n n' s k0 :
  undoes u m n s -> old_next_id u' = old_next_id u -> n <= n' ->
  (forall k, k <> k0 -> same_entry u u' k /\ m' !! k = m !! k) ->
  entry_ok u' k0 -> (k0 ∈ new_ids u' -> old_next_id u <= k0) ->
  s !! k0 = undo_change (change_of u' k0) (m' !! k0) -> fits (change_of u' k0) (m' !! k0) ->
  undoes u' m' n' s.
Proof.
  intros Hu Hnext Hn Hother Hok Hnew Hs Hf. split.
  - intros k. destruct (decide (k = k0)) as [->|Hne]; [done|].
    eapply same_entry_ok; [by apply Hother|apply (un_ok _ _ _ _ Hu)].
  - intros k. destruct (decide (k = k0)) as [->|Hne]; [done|].
    destruct (Hother k Hne) as [->%same_entry_change ->]. apply (un_lookup _ _ _ _ Hu).
  - intros k. destruct (decide (k = k0)) as [->|Hne]; [done|].
    destruct (Hother k Hne) as [->%same_entry_change ->]. apply (un_fits _ _ _ _ Hu).
  - intros k Hk. rewrite Hnext. destruct (decide (k = k0)) as [->|Hne]; [auto|].
    apply (un_new _ _ _ _ Hu). by apply (Hother k Hne).
  - rewrite Hnext. pose proof (un_next _ _ _ _ Hu). lia.
Qed.

Lemma map_emplace_new k v m : m !! k = None -> map_emplace k v m = <[k := v]> m.
Proof. unfold map_emplace. by intros ->. Qed.

Lemma on_create_undoes u m n s v :
  undoes u m n s -> table_ok s (old_next_id u) -> obj_id v = n ->
  undoes (on_create v u) (<[n := v]> m) (n + 1) s.
Proof.
  intros Hu [Hs _] Hv. pose proof (un_ok _ _ _ _ Hu) as Hok. pose proof (un_next _ _ _ _ Hu) as Hnext.
  assert (s !! n = None) as Hsn.
  { destruct (s !! n) as [w|] eqn:E; [|done]. apply Hs in E. lia. }
  pose proof (un_lookup _ _ _ _ Hu n) as L. rewrite Hsn in L.
  assert (old_values u !! n = None) as Hon.
  { destruct (old_values u !! n) as [w|] eqn:E; [|done]. by rewrite (change_of_old _ _ _ Hok E) in L. }
  assert (removed_values u !! n = None) as Hrn.
  { destruct (removed_values u !! n) as [w|] eqn:E; [|done]. by rewrite (change_of_removed _ _ _ Hok E) in L. }
  assert (n ∈ new_ids (on_create v u)) as Hin by (cbn; set_solver).
  apply (undoes_update u _ m _ n _ s n); [done|done|lia|..].
  - intros k Hk. rewrite lookup_insert_ne by done. split; [|done].
    split_and!; [|done|done]. cbn. set_solver.
  - split_and!; [done|done|]. cbn. rewrite Hon, Hrn. by intros w [?|?].
  - lia.
  - by rewrite change_of_new.
  - rewrite change_of_new, lookup_insert_eq by done. simpl. eauto.
Qed.

Lemma on_modify_undoes u m n s v w :
  undoes u m n s -> m !! obj_id v = Some v -> keys_agree v w ->
  undoes (on_modify v u) (<[obj_id v := w]> m) n s.
Proof.
  intros Hu Hv Hk. pose proof (un_ok _ _ _ _ Hu) as Hok.
  pose proof (un_lookup _ _ _ _ Hu (obj_id v)) as L. pose proof (un_fits _ _ _ _ Hu (obj_id v)) as F.
  unfold on_modify. destruct (change_of_cases u (obj_id v)) as
    [[H E]|[(H & x & H1 & E)|[(H & H1 & x & H2 & E)|(H & H1 & H2 & E)]]]; rewrite E, Hv in L, F.
  - rewrite bool_decide_eq_true_2 by done.
    apply (undoes_update u _ m _ n _ s (obj_id v)); rewrite ?E, ?lookup_insert_eq; try done.
    + intros k Hk'. by rewrite lookup_insert_ne.
    + intros. by apply (un_new _ _ _ _ Hu).
    + simpl. eauto.
  - rewrite bool_decide_eq_false_2, bool_decide_eq_true_2 by (done || by rewrite H1).
    apply (undoes_update u _ m _ n _ s (obj_id v)); rewrite ?E, ?lookup_insert_eq; try done.
    + intros k Hk'. by rewrite lookup_insert_ne.
    + simpl in *. exists w. split; [done|]. destruct F as (y & [= <-] & Hxy). by eapply keys_agree_trans.
  - by simpl in F.
  - rewrite !bool_decide_eq_false_2 by (done || (rewrite H1; by intros [? ?])).
    rewrite map_emplace_new by done.
    set (u' := mk_undo_state _ _ _ _ _).
    assert (change_of u' (obj_id v) = Upd v) as E'.
    { unfold change_of, u'. cbn. by rewrite bool_decide_eq_false_2, lookup_insert_eq. }
    apply (undoes_update u _ m _ n _ s (obj_id v)); rewrite ?E', ?lookup_insert_eq; try done.
    + intros k Hk'. rewrite lookup_insert_ne by done. split; [|done].
      split_and!; cbn; [done|by rewrite lookup_insert_ne|done].
    + split_and!; cbn; [done|done|]. rewrite lookup_insert_eq, H2. intros y [[= <-]|?]; done.
    + simpl. eauto.
Qed.

Lemma on_remove_undoes u m n s v :
  undoes u m n s -> m !! obj_id v = Some v ->
  undoes (on_remove v u) (delete (obj_id v) m) n s.
Proof.
  intros Hu Hv. pose proof (un_ok _ _ _ _ Hu) as Hok. destruct (Hok (obj_id v)) as (Hok1 & Hok2 & Hok3).
  pose proof (un_lookup _ _ _ _ Hu (obj_id v)) as L. pose proof (un_fits _ _ _ _ Hu (obj_id v)) as F.
  unfold on_remove. destruct (change_of_cases u (obj_id v)) as
    [[H E]|[(H & x & H1 & E)|[(H & H1 & x & H2 & E)|(H & H1 & H2 & E)]]]; rewrite E, Hv in L, F.
  - rewrite bool_decide_eq_true_2 by done. destruct (Hok1 H) as [Ho Hr]. set (u' := mk_undo_state _ _ _ _ _).
    assert (change_of u' (obj_id v) = Nop) as E'.
    { unfold change_of, u'. cbn. rewrite bool_decide_eq_false_2, Ho, Hr; [done|set_solver]. }
    apply (undoes_update u _ m _ n _ s (obj_id v)); rewrite ?E', ?lookup_delete_eq; try done.
    + intros k Hk'. rewrite lookup_delete_ne by done. split; [|done]. split_and!; [|done|done]. cbn. set_solver.
    + cbn. set_solver.
  - rewrite bool_decide_eq_false_2, H1 by done. rewrite map_emplace_new by eauto.
    set (u' := mk_undo_state _ _ _ _ _).
    assert (change_of u' (obj_id v) = Del x) as E'.
    { unfold change_of, u'. cbn. by rewrite bool_decide_eq_false_2, lookup_delete_eq, lookup_insert_eq. }
    apply (undoes_update u _ m _ n _ s (obj_id v)); rewrite ?E', ?lookup_delete_eq; try done.
    + intros k Hk'. rewrite lookup_delete_ne by done. split; [|done].
      split_and!; cbn; [done|by rewrite lookup_delete_ne|by rewrite lookup_insert_ne].
    + split_and!; cbn; rewrite lookup_delete_eq; [done|by intros [? ?]|].
      rewrite lookup_insert_eq. intros y [?|[= <-]]; [done|auto].
  - by simpl in F.
  - rewrite bool_decide_eq_false_2, H1 by done.
    rewrite bool_decide_eq_false_2 by (rewrite H2; by intros [? ?]). rewrite map_emplace_new by done.
    set (u' := mk_undo_state _ _ _ _ _).
    assert (change_of u' (obj_id v) = Del v) as E'.
    { unfold change_of, u'. cbn. by rewrite bool_decide_eq_false_2, H1, lookup_insert_eq. }
    apply (undoes_update u _ m _ n _ s (obj_id v)); rewrite ?E', ?lookup_delete_eq; try done.
    + intros k Hk'. rewrite lookup_delete_ne by done. split; [|done].
      split_and!; cbn; [done|done|by rewrite lookup_insert_ne].
    + split_and!; cbn; [done|by rewrite H1; intros [? ?]|]. rewrite H1, lookup_insert_eq.
      intros y [?|[= <-]]; done.
Qed.

(** ** Undo *)

Lemma elem_of_in_order m k v : (k, v) ∈ in_order m <-> m !! k = Some v.
Proof. unfold in_order. by rewrite merge_sort_Permutation, elem_of_map_to_list. Qed.

Lemma NoDup_in_order m : NoDup (in_order m).*1.
Proof. unfold in_order. rewrite merge_sort_Permutation. apply NoDup_fst_map_to_list. Qed.

Lemma elem_of_ids_in_order s k : k ∈ ids_in_order s <-> k ∈ s.
Proof. unfold ids_in_order. by rewrite merge_sort_Permutation, elem_of_elements. Qed.

Lemma NoDup_ids_in_order s : NoDup (ids_in_order s).
Proof. unfold ids_in_order. rewrite merge_sort_Permutation. apply NoDup_elements. Qed.

Lemma erase_new_spec ids m :
  NoDup ids -> (forall id, id ∈ ids -> is_Some (m !! id)) ->
  exists m', erase_new ids m = Ok m' /\
    forall k, m' !! k = if decide (k ∈ ids) then None else m !! k.
Proof.
  intros Hnd. revert m. induction Hnd as [|id ids Hid Hnd IH]; intros m Hin; cbn [erase_new].
  { exists m. split; [done|]. intros k. by rewrite decide_False by apply not_elem_of_nil. }
  unfold container_erase. destruct (Hin id) as [v ->]; [left|]. cbn [mbind result_bind].
  destruct (IH (delete id m)) as (m' & -> & Hm').
  { intros id' Hid'. rewrite lookup_delete_ne by (intros ->; done). apply Hin. by right. }
  exists m'. split; [done|]. intros k. rewrite Hm'.
  destruct (decide (k = id)) as [->|Hne].
  - rewrite decide_False, decide_True by (done || left). apply lookup_delete_eq.
  - rewrite lookup_delete_ne by done. apply decide_ext. set_solver.
Qed.

Lemma keyed_replace m k v w :
  keyed m -> m !! k = Some w -> keys_agree v w -> keyed (<[k := v]> m).
Proof.
  intros Hm Hk [Hid _] i x. destruct (decide (k = i)) as [<-|Hne].
  - rewrite lookup_insert_eq. intros [= <-]. apply Hm in Hk. congruence.
  - rewrite lookup_insert_ne by done. apply Hm.
Qed.

Lemma unique_replace m k v w :
  keyed m -> unique m -> m !! k = Some w -> keys_agree v w -> unique (<[k := v]> m).
Proof.
  intros Hm Hu Hk Hvw. pose proof (keyed_replace _ _ _ _ Hm Hk Hvw) as Hm'.
  assert (forall i x, <[k:=v]> m !! i = Some x -> exists y, m !! i = Some y /\ keys_agree x y) as Hr.
  { intros i x. destruct (decide (k = i)) as [<-|Hne].
    - rewrite lookup_insert_eq. intros [= <-]. eauto.
    - rewrite lookup_insert_ne by done. eauto using keys_agree_refl. }
  intros i j x y Hx Hy Hij. pose proof (Hm' _ _ Hx). pose proof (Hm' _ _ Hy).
  apply Hr in Hx as (x' & Hx & Hxx'), Hy as (y' & Hy & Hyy').
  rewrite (same_key_agree _ _ _ _ Hxx' Hyy') by congruence. by apply (Hu i j).
Qed.

(** Replacing an object by one that can stand in for it is never refused. *)
Lemma container_modify_agree m k w f :
  keyed m -> unique m -> m !! k = Some w -> keys_agree (f w) w ->
  container_modify m k f = Ok (Some (<[k := f w]> m)).
Proof.
  intros Hm Hu Hk Ha. assert (obj_id (f w) = k) as Hid.
  { destruct Ha as [-> _]. by apply Hm. }
  unfold container_modify. rewrite Hk. unfold container_emplace.
  replace (violates (delete k m) (f w)) with false.
  - by rewrite Hid, insert_delete_eq.
  - symmetry. apply violates_false. rewrite Hid, lookup_delete_eq. split; [done|].
    intros i x Hx. apply lookup_delete_Some in Hx as [Hne Hx].
    pose proof (Hm _ _ Hx). rewrite (same_key_agree x x (f w) w) by (done || congruence).
    by apply (Hu i k); [| |auto].
Qed.

Lemma restore_old_spec items m :
  NoDup items.*1 -> keyed m -> unique m ->
  (forall k v, (k, v) ∈ items -> obj_id v = k /\ exists w, m !! k = Some w /\ keys_agree v w) ->
  exists m', restore_old items m = Ok m' /\
    (forall k v, (k, v) ∈ items -> m' !! k = Some v) /\
    (forall k, k ∉ items.*1 -> m' !! k = m !! k).
Proof.
  revert m. induction items as [|[k v] items IH]; intros m Hnd Hm Hu Hit; cbn [restore_old].
  { exists m. split_and!; [done| |done]. by intros k v ?%not_elem_of_nil. }
  simpl in Hnd. apply list.NoDup_cons in Hnd as [Hk Hnd].
  destruct (Hit k v) as (Hid & w & Hw & Ha); [left|].
  rewrite Hid, (container_modify_agree m k w (fun _ => v)) by done. cbn [mbind result_bind].
  destruct (IH (<[k:=v]> m)) as (m' & -> & H1 & H2);
    [done|by eapply keyed_replace|by eapply unique_replace|..].
  { intros k' v' Hin. destruct (Hit k' v') as (? & w' & Hw' & ?); [by right|]. split; [done|].
    exists w'. rewrite lookup_insert_ne; [done|]. intros <-. apply Hk, list_elem_of_fmap. by exists (k, v'). }
  exists m'. split_and!; [done| |].
  - intros k' v' [[= -> ->]|Hin]%elem_of_cons; [|auto]. rewrite H2 by done. apply lookup_insert_eq.
  - intros k' Hk'. simpl in Hk'. rewrite H2 by set_solver. apply lookup_insert_ne. set_solver.
Qed.

Lemma restore_removed_spec items m s :
  NoDup items.*1 -> unique s -> (forall k v, m !! k = Some v -> s !! k = Some v) ->
  (forall k v, (k, v) ∈ items -> obj_id v = k /\ s !! k = Some v /\ m !! k = None) ->
  exists m', restore_removed items m = Ok m' /\
    (forall k v, (k, v) ∈ items -> m' !! k = Some v) /\
    (forall k, k ∉ items.*1 -> m' !! k = m !! k).
Proof.
  intros Hnd Hs. revert m Hnd. induction items as [|[k v] items IH]; intros m Hnd Hsub Hit; cbn [restore_removed].
  { exists m. split_and!; [done| |done]. by intros k v ?%not_elem_of_nil. }
  simpl in Hnd. apply list.NoDup_cons in Hnd as [Hk Hnd].
  destruct (Hit k v) as (Hid & Hsk & Hm); [left|]. unfold container_emplace.
  replace (violates m v) with false.
  2:{ symmetry. apply violates_false. rewrite Hid. split; [done|]. intros i w Hw.
      apply (Hs i k); [by apply Hsub|done|congruence]. }
  rewrite Hid. destruct (IH (<[k:=v]> m)) as (m' & -> & H1 & H2); [done|..].
  { intros k' v'. destruct (decide (k = k')) as [<-|Hne];
      [rewrite lookup_insert_eq; congruence|rewrite lookup_insert_ne by done; apply Hsub]. }
  { intros k' v' Hin. destruct (Hit k' v') as (? & ? & ?); [by right|]. split_and!; [done|done|].
    rewrite lookup_insert_ne; [done|]. intros <-. apply Hk, list_elem_of_fmap. by exists (k, v'). }
  exists m'. split_and!; [done| |].
  - intros k' v' [[= -> ->]|Hin]%elem_of_cons; [|auto]. rewrite H2 by done. apply lookup_insert_eq.
  - intros k' Hk'. simpl in Hk'. rewrite H2 by set_solver. apply lookup_insert_ne. set_solver.
Qed.

Lemma not_in_order m k : m !! k = None -> k ∉ (in_order m).*1.
Proof. intros Hk ([k' v] & -> & Hin%elem_of_in_order)%list_elem_of_fmap. simpl in Hk. congruence. Qed.

Lemma undo_tables u m n s :
  undoes u m n s -> keyed m -> unique m -> unique s ->
  (m1 ← erase_new (ids_in_order (new_ids u)) m;
   m2 ← restore_old (in_order (old_values u)) m1;
   restore_removed (in_order (removed_values u)) m2) = Ok s.
Proof.
  intros Hu Hkm Hm Hs. pose proof (un_ok _ _ _ _ Hu) as Hok.
  destruct (erase_new_spec (ids_in_order (new_ids u)) m) as (m1 & -> & H1); [apply NoDup_ids_in_order|..].
  { intros id Hid%elem_of_ids_in_order. pose proof (un_fits _ _ _ _ Hu id) as F.
    by rewrite change_of_new in F. }
  assert (forall k, k ∈ new_ids u -> m1 !! k = None) as H1n.
  { intros k Hk. rewrite H1, decide_True; [done|by apply elem_of_ids_in_order]. }
  assert (forall k, k ∉ new_ids u -> m1 !! k = m !! k) as H1o.
  { intros k Hk. rewrite H1, decide_False; [done|by rewrite elem_of_ids_in_order]. }
  cbn [mbind result_bind].
  destruct (restore_old_spec (in_order (old_values u)) m1) as (m2 & -> & H2i & H2o); [apply NoDup_in_order|..].
  { intros k v Hv. rewrite H1 in Hv. case_decide; [done|]. by apply Hkm. }
  { intros i j v w Hv Hw. rewrite H1 in Hv, Hw. do 2 case_decide; try done. by apply Hm. }
  { intros k v Hin%elem_of_in_order. pose proof (un_fits _ _ _ _ Hu k) as F.
    rewrite (change_of_old _ _ _ Hok Hin) in F. destruct (Hok k) as (Hn & _ & Hid).
    split; [by apply Hid; left|]. rewrite H1o; [done|]. intros [? _]%Hn. congruence. }
  cbn [mbind result_bind].
  assert (forall k, m2 !! k = match change_of u k with Del _ => None | c => undo_change c (m !! k) end) as H2.
  { intros k. pose proof (un_fits _ _ _ _ Hu k) as F. destruct (change_of_cases u k) as
      [[H E]|[(H & x & H3 & E)|[(H & H3 & x & H4 & E)|(H & H3 & H4 & E)]]]; rewrite E in F |- *; simpl in *.
    - rewrite H2o, H1n; [done|done|]. apply not_in_order, Hok, H.
    - by apply H2i, elem_of_in_order.
    - rewrite H2o, H1o by (done || by apply not_in_order). done.
    - by rewrite H2o, H1o by (done || by apply not_in_order). }
  destruct (restore_removed_spec (in_order (removed_values u)) m2 s) as (m3 & -> & H3i & H3o);
    [apply NoDup_in_order|done|..].
  { intros k v. rewrite H2, (un_lookup _ _ _ _ Hu k). by destruct (change_of u k). }
  { intros k v Hin%elem_of_in_order. rewrite H2, (un_lookup _ _ _ _ Hu k).
    rewrite (change_of_removed _ _ _ Hok Hin). split_and!; [|done|done]. apply (Hok k). by right. }
  f_equal. apply map_eq. intros k. rewrite (un_lookup _ _ _ _ Hu k).
  destruct (removed_values u !! k) as [v|] eqn:E.
  - rewrite (change_of_removed _ _ _ Hok E). by apply H3i, elem_of_in_order.
  - rewrite H3o, H2 by by apply not_in_order. destruct (change_of_cases u k) as
      [[H ->]|[(H & x & ? & ->)|[(H & ? & x & ? & ->)|(H & ? & ? & ->)]]]; [done|done|congruence|done].
Qed.

(** ** Squash *)

Lemma same_entry_refl u k : same_entry u u k.
Proof. done. Qed.

(** Steps that each concern one object, on different objects: what holds for
    an object after its step holds at the end. *)
Lemma squash_each_spec (f : Z * V -> undo_state V -> outcome (undo_state V))
    (pre : Z -> undo_state V -> Prop) (post : Z -> V -> undo_state V -> undo_state V -> Prop) items p :
  (forall k u u', same_entry u u' k -> pre k u -> pre k u') ->
  (forall k v u1 u2 u1' u2', same_entry u1 u1' k -> same_entry u2 u2' k -> post k v u1 u2 -> post k v u1' u2') ->
  (forall k v u, (k, v) ∈ items -> undo_state_ok u -> pre k u ->
     exists u', f (k, v) u = Ok u' /\ post k v u u' /\ undo_state_ok u' /\
       old_next_id u' = old_next_id u /\ us_revision u' = us_revision u /\
       forall j, j <> k -> same_entry u u' j) ->
  NoDup items.*1 -> undo_state_ok p -> (forall k v, (k, v) ∈ items -> pre k p) ->
  exists p', squash_each f items p = Ok p' /\ undo_state_ok p' /\
    old_next_id p' = old_next_id p /\ us_revision p' = us_revision p /\
    (forall k v, (k, v) ∈ items -> post k v p p') /\
    (forall k, k ∉ items.*1 -> same_entry p p' k).
Proof.
  intros Hpre Hpost. revert p. induction items as [|[k v] items IH]; intros p Hf Hnd Hp Hall; cbn [squash_each].
  { exists p. split_and!; [done..| |done]. by intros k v ?%not_elem_of_nil. }
  simpl in Hnd. apply list.NoDup_cons in Hnd as [Hk Hnd].
  destruct (Hf k v p) as (p1 & -> & Hp1 & Hok1 & Hn1 & Hr1 & Ho1); [left|done|by apply (Hall k v); left|].
  cbn [mbind result_bind].
  assert (forall k' v', (k', v') ∈ items -> k' <> k) as Hne.
  { intros k' v' Hin ->. apply Hk, list_elem_of_fmap. by exists (k, v'). }
  destruct (IH p1) as (p' & -> & Hok & Hn & Hr & Hin & Hout); [|done|done|..].
  { intros k' v' u Hin. apply Hf. by right. }
  { intros k' v' Hin. eapply Hpre; [by eapply Ho1, Hne|]. apply (Hall k' v'). by right. }
  exists p'. split_and!; [done|done|congruence|congruence| |].
  - intros k' v' [[= -> ->]|Hin']%elem_of_cons.
    + eapply Hpost; [apply same_entry_refl|by apply Hout|done].
    + eapply Hpost; [|apply same_entry_refl|by apply Hin].
      destruct (Ho1 k' (Hne _ _ Hin')) as (A & B & C). split_and!; [by rewrite A|by rewrite B|by rewrite C].
  - intros k' Hk'. simpl in Hk'.
    destruct (Ho1 k') as (A & B & C); [set_solver|]. destruct (Hout k') as (A' & B' & C'); [set_solver|].
    split_and!; [by rewrite A', A|by rewrite B', B|by rewrite C', C].
Qed.

Definition not_deleted (k : Z) (u : undo_state V) : Prop := forall v, change_of u k <> Del v.

Lemma squash_old_step k v u :
  obj_id v = k -> undo_state_ok u -> not_deleted k u ->
  exists u', squash_old (k, v) u = Ok u' /\
    Some (change_of u' k) = merge_change (change_of u k) (Upd v) /\ undo_state_ok u' /\
    old_next_id u' = old_next_id u /\ us_revision u' = us_revision u /\
    forall j, j <> k -> same_entry u u' j.
Proof.
  intros Hid Hok Hd. unfold squash_old. cbn [fst snd]. rewrite Hid. destruct (change_of_cases u k) as
    [[H E]|[(H & x & H1 & E)|[(H & H1 & x & H2 & E)|(H & H1 & H2 & E)]]].
  - rewrite bool_decide_eq_true_2, E by done. exists u. by rewrite E.
  - rewrite bool_decide_eq_false_2, bool_decide_eq_true_2, E by (done || by rewrite H1). exists u. by rewrite E.
  - by destruct (Hd x).
  - rewrite (bool_decide_eq_false_2 (k ∈ new_ids u)) by done.
    rewrite (bool_decide_eq_false_2 (is_Some _)) by (rewrite H1; by intros [? ?]).
    rewrite bool_decide_eq_true_2 by done. cbn [mbind result_bind ine_assert].
    rewrite map_emplace_new by done. eexists. split; [done|].
    assert (change_of (mk_undo_state (<[k:=v]> (old_values u)) (removed_values u) (new_ids u)
              (old_next_id u) (us_revision u)) k = Upd v) as ->.
    { unfold change_of. cbn. by rewrite bool_decide_eq_false_2, lookup_insert_eq. }
    rewrite E. split_and!; [done| |done|done|].
    + intros j. destruct (decide (j = k)) as [->|Hne].
      * split_and!; cbn; [done|done|]. rewrite lookup_insert_eq, H2. intros y [[= <-]|?]; done.
      * eapply same_entry_ok; [|apply Hok]. split_and!; cbn; [done|by rewrite lookup_insert_ne|done].
    + intros j Hj. split_and!; cbn; [done|by rewrite lookup_insert_ne|done].
Qed.

Lemma squash_removed_step k v u :
  obj_id v = k -> undo_state_ok u -> not_deleted k u ->
  exists u', squash_removed (k, v) u = Ok u' /\
    Some (change_of u' k) = merge_change (change_of u k) (Del v) /\ undo_state_ok u' /\
    old_next_id u' = old_next_id u /\ us_revision u' = us_revision u /\
    forall j, j <> k -> same_entry u u' j.
Proof.
  intros Hid Hok Hd. destruct (Hok k) as (Hk1 & Hk2 & Hk3). unfold squash_removed. cbn [fst snd]. rewrite Hid.
  destruct (change_of_cases u k) as
    [[H E]|[(H & x & H1 & E)|[(H & H1 & x & H2 & E)|(H & H1 & H2 & E)]]].
  - rewrite bool_decide_eq_true_2, E by done. destruct (Hk1 H) as [Ho Hr].
    set (u' := mk_undo_state _ _ _ _ _). exists u'.
    assert (forall j, j <> k -> same_entry u u' j) as Hj.
    { intros j Hj. split_and!; cbn; [set_solver|done|done]. }
    split_and!; [done| | |done|done|done].
    + unfold change_of, u'. cbn. rewrite bool_decide_eq_false_2, Ho, Hr; [done|set_solver].
    + intros j. destruct (decide (j = k)) as [->|Hne]; [|eapply same_entry_ok; [by apply Hj|apply Hok]].
      split_and!; cbn; rewrite Ho, Hr; [done|done|by intros ? [?|?]].
  - rewrite bool_decide_eq_false_2, H1, E by done. rewrite map_emplace_new by eauto.
    set (u' := mk_undo_state _ _ _ _ _). exists u'.
    assert (forall j, j <> k -> same_entry u u' j) as Hj.
    { intros j Hj. split_and!; cbn; [done|by rewrite lookup_delete_ne|by rewrite lookup_insert_ne]. }
    split_and!; [done| | |done|done|done].
    + unfold change_of, u'. cbn. by rewrite bool_decide_eq_false_2, lookup_delete_eq, lookup_insert_eq.
    + intros j. destruct (decide (j = k)) as [->|Hne]; [|eapply same_entry_ok; [by apply Hj|apply Hok]].
      split_and!; cbn; rewrite lookup_delete_eq; [done|by intros [? ?]|].
      rewrite lookup_insert_eq. intros y [?|[= <-]]; [done|auto].
  - by destruct (Hd x).
  - rewrite bool_decide_eq_false_2, H1, bool_decide_eq_true_2, E by done. cbn [mbind result_bind ine_assert].
    rewrite map_emplace_new by done. eexists. split; [done|].
    assert (change_of (mk_undo_state (old_values u) (<[k:=v]> (removed_values u)) (new_ids u)
              (old_next_id u) (us_revision u)) k = Del v) as ->.
    { unfold change_of. cbn. by rewrite bool_decide_eq_false_2, H1, lookup_insert_eq. }
    split_and!; [done| |done|done|].
    + intros j. destruct (decide (j = k)) as [->|Hne].
      * split_and!; cbn; [done|by rewrite H1; intros [? ?]|]. rewrite H1, lookup_insert_eq.
        intros y [?|[= <-]]; done.
      * eapply same_entry_ok; [|apply Hok]. split_and!; cbn; [done|done|by rewrite lookup_insert_ne].
    + intros j Hj. split_and!; cbn; [done|done|by rewrite lookup_insert_ne].
Qed.

Lemma not_deleted_ext k u u' : same_entry u u' k -> not_deleted k u -> not_deleted k u'.
Proof. intros H Hd v. rewrite (same_entry_change _ _ _ H). apply Hd. Qed.

Lemma merged_ext (b : V -> change) k v u1 u2 u1' u2' :
  same_entry u1 u1' k -> same_entry u2 u2' k ->
  Some (change_of u2 k) = merge_change (change_of u1 k) (b v) ->
  Some (change_of u2' k) = merge_change (change_of u1' k) (b v).
Proof. intros H1 H2. by rewrite (same_entry_change _ _ _ H1), (same_entry_change _ _ _ H2). Qed.

Lemma squash_new_ok ids p :
  undo_state_ok p -> (forall k, k ∈ ids -> change_of p k = Nop) ->
  undo_state_ok (squash_new ids p) /\
  forall k, change_of (squash_new ids p) k = if decide (k ∈ ids) then New else change_of p k.
Proof.
  intros Hok Hnop. split.
  - intros k. destruct (Hok k) as (H1 & H2 & H3). split_and!; cbn; [|done|done].
    rewrite elem_of_union. intros [?|Hk%Hnop]; [auto|].
    destruct (change_of_cases p k) as
      [[H E]|[(H & x & H4 & E)|[(H & H4 & x & H5 & E)|(H & H4 & H5 & E)]]]; try congruence. done.
  - intros k. case_decide as Hk; [apply change_of_new; cbn; set_solver|].
    apply same_entry_change. split_and!; cbn; [set_solver|done|done].
Qed.

Lemma squash_states_spec p u :
  undo_state_ok p -> undo_state_ok u ->
  (forall k, is_Some (merge_change (change_of p k) (change_of u k))) ->
  exists q, squash_states p u = Ok q /\ undo_state_ok q /\
    old_next_id q = old_next_id p /\ us_revision q = us_revision p /\
    forall k, Some (change_of q k) = merge_change (change_of p k) (change_of u k).
Proof.
  intros Hp Hu Hm. unfold squash_states.
  destruct (squash_each_spec squash_old not_deleted
    (fun k v u1 u2 => Some (change_of u2 k) = merge_change (change_of u1 k) (Upd v))
    (in_order (old_values u)) p not_deleted_ext (merged_ext Upd))
    as (p1 & -> & Hp1 & Hn1 & Hr1 & Hi1 & Ho1); [|apply NoDup_in_order|done|..].
  { intros k v w Hin%elem_of_in_order. apply squash_old_step. apply (Hu k). by left. }
  { intros k v Hin%elem_of_in_order x E. specialize (Hm k).
    rewrite E, (change_of_old _ _ _ Hu Hin) in Hm. by destruct Hm. }
  cbn [mbind result_bind].
  assert (forall k, old_values u !! k = None -> change_of p1 k = change_of p k) as Hsame.
  { intros k Hk. by apply same_entry_change, Ho1, not_in_order. }
  destruct (squash_new_ok (new_ids u) p1) as [Hp2 Hc2]; [done|..].
  { intros k Hk. rewrite Hsame by (by apply Hu). specialize (Hm k). rewrite (change_of_new u) in Hm by done.
    by destruct (change_of p k), Hm. }
  destruct (squash_each_spec squash_removed not_deleted
    (fun k v u1 u2 => Some (change_of u2 k) = merge_change (change_of u1 k) (Del v))
    (in_order (removed_values u)) (squash_new (new_ids u) p1) not_deleted_ext (merged_ext Del))
    as (q & -> & Hq & Hn & Hr & Hi & Ho); [|apply NoDup_in_order|done|..].
  { intros k v w Hin%elem_of_in_order. apply squash_removed_step. apply (Hu k). by right. }
  { intros k v Hin%elem_of_in_order x. rewrite Hc2. case_decide; [done|]. specialize (Hm k).
    rewrite (change_of_removed _ _ _ Hu Hin) in Hm. rewrite Hsame; [by intros E; rewrite E in Hm; destruct Hm|].
    destruct (old_values u !! k) eqn:E; [|done]. destruct (Hu k) as (_ & Hk & _). rewrite Hk in Hin by eauto. done. }
  exists q. cbn in Hn, Hr. split_and!; [done|done|congruence|congruence|].
  intros k. destruct (change_of_cases u k) as
    [[H E]|[(H & x & H3 & E)|[(H & H3 & x & H4 & E)|(H & H3 & H4 & E)]]]; rewrite E.
  - destruct (Hu k) as (Hk & _). destruct (Hk H) as [Hko Hkr].
    rewrite (same_entry_change _ _ _ (Ho k (not_in_order _ _ Hkr))), Hc2, decide_True by done.
    specialize (Hm k). rewrite E in Hm. by destruct (change_of p k), Hm.
  - destruct (Hu k) as (_ & Hk & _). assert (removed_values u !! k = None) as Hkr by (apply Hk; eauto).
    rewrite (same_entry_change _ _ _ (Ho k (not_in_order _ _ Hkr))), Hc2, decide_False by done.
    by apply Hi1, elem_of_in_order.
  - rewrite (Hi k x) by by apply elem_of_in_order. rewrite Hc2, decide_False, Hsame by done. done.
  - rewrite (same_entry_change _ _ _ (Ho k (not_in_order _ _ H4))), Hc2, decide_False, Hsame by done.
    by destruct (change_of p k).
Qed.

(** Squash follows the table of its comment: for two undo states in which
    no object has one of the combinations marked N/A, the loops end without a
    failed assertion and the merged state relates every object as the table
    says, keeping the next id and the revision of the older state. *)
Theorem squash_follows_table p u :
  undo_state_ok p -> undo_state_ok u ->
  (forall k, is_Some (merge_change (change_of p k) (change_of u k))) ->
  exists q, squash_states p u = Ok q /\ undo_state_ok q /\
    old_next_id q = old_next_id p /\ us_revision q = us_revision p /\
    forall k, Some (change_of q k) = merge_change (change_of p k) (change_of u k).
Proof. apply squash_states_spec. Qed.

Lemma undoes_mergeable u p m n s t :
  undoes u m n s -> undoes p s (old_next_id u) t -> table_ok t (old_next_id p) ->
  forall k, is_Some (merge_change (change_of p k) (change_of u k)).
Proof.
  intros Hu Hp [Ht _] k.
  pose proof (un_lookup _ _ _ _ Hu k) as Lu. pose proof (un_lookup _ _ _ _ Hp k) as Lp.
  pose proof (un_fits _ _ _ _ Hp k) as Fp. pose proof (un_next _ _ _ _ Hp) as Hn.
  destruct (change_of_cases u k) as
    [[H E]|[(H & x & H3 & E)|[(H & H3 & x & H4 & E)|(H & H3 & H4 & E)]]]; rewrite E in *; simpl in Lu.
  - apply (un_new _ _ _ _ Hu) in H. destruct (change_of p k) as [|x|x|]; simpl in *.
    + rewrite Lu in Fp. by destruct Fp.
    + rewrite Lu in Fp. by destruct Fp as (? & ? & _).
    + apply Ht in Lp. lia.
    + by eauto.
  - destruct (change_of p k) as [|y|y|]; simpl in *; by eauto || congruence.
  - destruct (change_of p k) as [|y|y|]; simpl in *; by eauto || congruence.
  - destruct (change_of p k) as [|y|y|]; simpl in *; by eauto.
Qed.

Lemma undoes_merge u p q m n s t :
  undoes u m n s -> undoes p s (old_next_id u) t -> undo_state_ok q ->
  old_next_id q = old_next_id p ->
  (forall k, Some (change_of q k) = merge_change (change_of p k) (change_of u k)) ->
  undoes q m n t.
Proof.
  intros Hu Hp Hq Hnext Hc. pose proof (un_next _ _ _ _ Hu) as Hnu. pose proof (un_next _ _ _ _ Hp) as Hnp.
  assert (forall k, t !! k = undo_change (change_of q k) (m !! k) /\ fits (change_of q k) (m !! k) /\
    (change_of q k = New -> change_of p k = New \/ change_of u k = New)) as H.
  { intros k. specialize (Hc k).
    pose proof (un_lookup _ _ _ _ Hu k) as Lu. pose proof (un_lookup _ _ _ _ Hp k) as Lp.
    pose proof (un_fits _ _ _ _ Hp k) as Fp. pose proof (un_fits _ _ _ _ Hu k) as Fu.
    rewrite Lu in Lp, Fp.
    destruct (change_of p k) as [|x|x|], (change_of u k) as [|y|y|]; simpl in *; try done;
      injection Hc as ->; simpl; split_and!; auto.
    - destruct Fu as (w & -> & _). by eauto.
    - congruence.
    - destruct Fp as (w & [= <-] & ?), Fu as (w & -> & ?). eauto using keys_agree_trans.
    - done. }
  split; [done|apply H|apply H| |lia].
  intros k Hk. rewrite Hnext. apply change_of_new in Hk. destruct (H k) as (_ & _ & Hnew).
  destruct (Hnew Hk) as [E|E].
  - destruct (change_of_cases p k) as
      [[Hin _]|[(_ & x & _ & E')|[(_ & _ & x & _ & E')|(_ & _ & _ & E')]]]; try congruence.
    by apply (un_new _ _ _ _ Hp).
  - destruct (change_of_cases u k) as
      [[Hin _]|[(_ & x & _ & E')|[(_ & _ & x & _ & E')|(_ & _ & _ & E')]]]; try congruence.
    apply (un_new _ _ _ _ Hu) in Hin. lia.
Qed.

(** ** The operations of the specification *)

Inductive index_op :=
  | Emplace (c : Z -> V)
  | Modify (id : Z) (f : V -> V)
  | Remove (id : Z)
  | Start
  | Undo
  | Squash
  | Commit (rev : Z)
  | Undo_all.

(** The constructors and the modifiers leave the id alone. *)
Definition keeps_id (op : index_op) : Prop :=
  match op with
  | Emplace c => forall n, obj_id (c n) = n
  | Modify _ f => forall v, obj_id (f v) = obj_id v
  | _ => True
  end.

(** A modifier moreover leaves the conflicts with other objects alone. *)
Definition valid_op (op : index_op) : Prop :=
  match op with
  | Emplace c => forall n, obj_id (c n) = n
  | Modify _ f => forall v, keys_agree (f v) v
  | _ => True
  end.

Definition spec_op (op : index_op) (h : history) : outcome history :=
  match op with
  | Emplace c =>
      match container_emplace (h_objects h) (c (h_next h)) with
      | None => Err std_logic_error
      | Some m => next ← increment (h_next h); Ok (mk_history (h_saved h) (h_revision h) next m)
      end
  | Modify id f =>
      match h_objects h !! id with
      | None => Err undefined_behaviour
      | Some v => Ok (mk_history (h_saved h) (h_revision h) (h_next h) (<[id := f v]> (h_objects h)))
      end
  | Remove id =>
      match h_objects h !! id with
      | None => Err undefined_behaviour
      | Some _ => Ok (mk_history (h_saved h) (h_revision h) (h_next h) (delete id (h_objects h)))
      end
  | Start =>
      rev ← increment (h_revision h);
      Ok (mk_history (mk_snapshot rev (h_objects h) (h_next h) :: h_saved h) rev (h_next h) (h_objects h))
  | Undo =>
      match h_saved h with
      | [] => Ok h
      | s :: ss => Ok (mk_history ss (h_revision h - 1) (s_next s) (s_objects s))
      end
  | Squash =>
      match h_saved h with
      | [] => Ok h
      | _ :: ss => Ok (mk_history ss (h_revision h - 1) (h_next h) (h_objects h))
      end
  | Commit rev =>
      let kept := List.filter (fun s => negb (s_revision s <=? rev)) (h_saved h) in
      Ok (mk_history kept (h_revision h) (h_next h) (h_objects h))
  | Undo_all =>
      match back (h_saved h) with
      | None => Ok h
      | Some s => Ok (mk_history [] (h_revision h - Z.of_nat (length (h_saved h))) (s_next s) (s_objects s))
      end
  end.

Definition run_op (op : index_op) (idx : generic_index V) : option (outcome (generic_index V)) :=
  match op with
  | Emplace c => Some (emplace c idx)
  | Modify id f => Some (modify id f idx)
  | Remove id => Some (remove id idx)
  | Start => Some (fst <$> start_undo_session true idx)
  | Undo => Some (undo idx)
  | Squash => Some (squash idx)
  | Commit rev => Some (Ok (commit rev idx))
  | Undo_all => undo_all idx
  end.

(** ** The index refines the specification *)

Definition head_map (f : undo_state V -> undo_state V) (l : list (undo_state V)) : list (undo_state V) :=
  match l with [] => [] | u :: l' => f u :: l' end.

Lemma take_snoc {A} (l : list A) x : take (length (l ++ [x]) - 1) (l ++ [x]) = l.
Proof. rewrite length_app. simpl. rewrite Nat.add_sub. apply take_app_length. Qed.

Lemma reverse_update_head f l : reverse (update_head f l) = head_map f (reverse l).
Proof.
  unfold update_head. destruct l as [|u l _] using rev_ind; [done|].
  rewrite back_snoc, take_snoc, !reverse_snoc. done.
Qed.

Lemma reverse_recorded f idx :
  reverse (if enabled idx then update_head f (stack idx) else stack idx) = head_map f (reverse (stack idx)).
Proof.
  unfold enabled. destruct (stack idx) as [|u l] eqn:E; [done|]. cbn [length].
  rewrite bool_decide_eq_false_2 by done. apply reverse_update_head.
Qed.

(** Recording a change of the newest undo state. *)
Lemma stack_sim_head f m n m' n' us ss :
  stack_sim m n us ss ->
  (forall u s, undoes u m n s -> table_ok s (old_next_id u) -> undoes (f u) m' n' s) ->
  (forall u, us_revision (f u) = us_revision u /\ old_next_id (f u) = old_next_id u) ->
  stack_sim m' n' (head_map f us) ss.
Proof.
  intros Hs Hf Hk. destruct Hs as [|m n u us s ss Hu Hr Hn Ht Hs]; [constructor|]. cbn [head_map].
  destruct (Hk u) as [Hk1 Hk2]. constructor; [|congruence|congruence|done|done].
  apply Hf; [done|]. by rewrite <- Hn.
Qed.

Lemma on_modify_keeps v u :
  us_revision (on_modify v u) = us_revision u /\ old_next_id (on_modify v u) = old_next_id u.
Proof. unfold on_modify. by repeat case_bool_decide. Qed.

Lemma on_remove_keeps v u :
  us_revision (on_remove v u) = us_revision u /\ old_next_id (on_remove v u) = old_next_id u.
Proof. unfold on_remove. case_bool_decide; [done|]. destruct (old_values u !! _); [done|]. by case_bool_decide. Qed.

Lemma emplace_refines c idx h :
  index_sim idx h -> (forall n, obj_id (c n) = n) ->
  match spec_op (Emplace c) h with
  | Ok h' => exists idx', emplace c idx = Ok idx' /\ index_sim idx' h'
  | Err e => emplace c idx = Err e
  end.
Proof.
  intros [Ho Hn Hr Ht Hs Hrev] Hc. cbn [spec_op]. unfold emplace. rewrite Ho, Hn.
  destruct (container_emplace (h_objects h) (c (h_next h))) as [m|] eqn:E; [|done].
  destruct (container_emplace_ok _ _ _ _ Ht (Hc _) E) as (-> & Hnew & Ht').
  unfold increment. destruct (h_next h <? INT64_MAX); [|done]. cbn [mbind result_bind].
  eexists. split; [done|]. split; cbn [indices next_id revision stack h_objects h_next h_revision h_saved]; [done|done|done|done| |done].
  rewrite reverse_recorded. eapply stack_sim_head; [exact Hs| |done].
  intros u s Hu Hts. by apply on_create_undoes.
Qed.

Lemma modify_refines id f idx h :
  index_sim idx h -> (forall v, keys_agree (f v) v) ->
  match spec_op (Modify id f) h with
  | Ok h' => exists idx', modify id f idx = Ok idx' /\ index_sim idx' h'
  | Err e => modify id f idx = Err e
  end.
Proof.
  intros [Ho Hn Hr Ht Hs Hrev] Hf. cbn [spec_op]. unfold modify. rewrite Ho.
  destruct (h_objects h !! id) as [v|] eqn:E; [|done]. destruct (proj1 Ht _ _ E) as [Hid _].
  pose proof (Hf v) as Hfk. pose proof (proj1 Hfk) as Hfid. pose proof (table_keyed _ _ Ht) as Hm.
  rewrite (container_modify_agree _ _ v f Hm (proj2 Ht) E Hfk).
  cbn [mbind result_bind]. eexists. split; [done|].
  assert (table_ok (<[id:=f v]> (h_objects h)) (h_next h)) as Ht'.
  { destruct Ht as [Hids Hu]. split; [|by eapply unique_replace].
    intros k w. destruct (decide (id = k)) as [<-|Hne];
      [rewrite lookup_insert_eq|rewrite lookup_insert_ne by done; apply Hids].
    intros [= <-]. split; [congruence|]. apply Hids in E. lia. }
  split; cbn [indices next_id revision stack h_objects h_next h_revision h_saved]; [done|done|done|done| |done].
  rewrite reverse_recorded. eapply stack_sim_head; [exact Hs| |apply on_modify_keeps].
  intros u s Hu _. rewrite <- Hid. apply on_modify_undoes; [done|congruence|].
  by apply keys_agree_sym.
Qed.

Lemma remove_refines id idx h :
  index_sim idx h ->
  match spec_op (Remove id) h with
  | Ok h' => exists idx', remove id idx = Ok idx' /\ index_sim idx' h'
  | Err e => remove id idx = Err e
  end.
Proof.
  intros [Ho Hn Hr Ht Hs Hrev]. cbn [spec_op]. unfold remove. rewrite Ho.
  destruct (h_objects h !! id) as [v|] eqn:E; [|done]. destruct (proj1 Ht _ _ E) as [Hid _].
  unfold container_erase. rewrite E. cbn [mbind result_bind]. eexists. split; [done|].
  split; cbn [indices next_id revision stack h_objects h_next h_revision h_saved]; [done|done|done| | |done].
  - destruct Ht as [Hids Hu]. split.
    + intros k w [_ Hw]%lookup_delete_Some. by apply Hids.
    + intros i j x y [_ Hx]%lookup_delete_Some [_ Hy]%lookup_delete_Some. by apply Hu.
  - rewrite reverse_recorded. eapply stack_sim_head; [exact Hs| |apply on_remove_keeps].
    intros u s Hu _. rewrite <- Hid. apply on_remove_undoes; [done|congruence].
Qed.

Lemma start_refines idx h :
  index_sim idx h ->
  match spec_op Start h with
  | Ok h' => exists idx' s, start_undo_session true idx = Ok (idx', s) /\ index_sim idx' h'
  | Err e => start_undo_session true idx = Err e
  end.
Proof.
  intros [Ho Hn Hr Ht Hs Hrev]. cbn [spec_op]. unfold start_undo_session. rewrite Hr.
  unfold increment. destruct (h_revision h <? INT64_MAX); [|done]. cbn [mbind result_bind].
  do 2 eexists. split; [done|].
  split; cbn [indices next_id revision stack h_objects h_next h_revision h_saved]; [done|done|done|done|..].
  - rewrite reverse_snoc. constructor; cbn; [|done|congruence|done|done].
    split; cbn; [|done|done| |lia].
    + intros k. split_and!; cbn; rewrite ?lookup_empty; [done|by intros [? ?]|by intros ? [?|?]].
    + set_solver.
  - intros [|i] s; cbn [lookup list_lookup].
    + intros [= <-]. cbn. lia.
    + intros Hi%Hrev. lia.
Qed.

(** What the stack of a simulated index looks like. *)
Lemma sim_top idx h :
  index_sim idx h ->
  (stack idx = [] /\ h_saved h = []) \/
  exists l u s ss, stack idx = l ++ [u] /\ h_saved h = s :: ss /\
    undoes u (h_objects h) (h_next h) (s_objects s) /\ s_revision s = us_revision u /\
    s_next s = old_next_id u /\ table_ok (s_objects s) (s_next s) /\
    stack_sim (s_objects s) (s_next s) (reverse l) ss.
Proof.
  intros [_ _ _ _ Hs _]. destruct (stack idx) as [|u l _] using rev_ind.
  - left. by inversion Hs.
  - right. rewrite reverse_snoc in Hs. inversion Hs; subst. by exists l, u, s, ss.
Qed.

Lemma undo_refines idx h :
  index_sim idx h ->
  exists h' idx', spec_op Undo h = Ok h' /\ undo idx = Ok idx' /\ index_sim idx' h'.
Proof.
  intros Hsim. pose proof Hsim as [Ho Hn Hr Ht Hs Hrev]. unfold undo. cbn [spec_op].
  destruct (sim_top idx h Hsim) as [[E1 E2]|(l & u & s & ss & E1 & E2 & Hu & Hsr & Hsn & Hts & Hss)].
  { rewrite E1, E2. by exists h, idx. }
  rewrite E1, E2, back_snoc, take_snoc, Ho.
  pose proof (undo_tables u _ _ _ Hu (table_keyed _ _ Ht) (proj2 Ht) (proj2 Hts)) as H.
  destruct (erase_new _ _) as [m1|]; [|done]. cbn [mbind result_bind] in H |- *.
  destruct (restore_old _ _) as [m2|]; [|done]. cbn [mbind result_bind] in H |- *.
  rewrite H. cbn [mbind result_bind]. do 2 eexists. split; [done|]. split; [done|].
  split; cbn [indices next_id revision stack h_objects h_next h_revision h_saved]; try done.
  - by rewrite Hr.
  - intros i s' Hi. specialize (Hrev (S i) s'). rewrite E2 in Hrev. rewrite Hrev by done. lia.
Qed.

Lemma squash_refines idx h :
  index_sim idx h ->
  exists h' idx', spec_op Squash h = Ok h' /\ squash idx = Ok idx' /\ index_sim idx' h'.
Proof.
  intros Hsim. pose proof Hsim as [Ho Hn Hr Ht Hs Hrev]. unfold squash. cbn [spec_op].
  destruct (sim_top idx h Hsim) as [[E1 E2]|(l & u & s & ss & E1 & E2 & Hu & Hsr & Hsn & Hts & Hss)].
  { rewrite E1, E2. by exists h, idx. }
  assert (forall i s', ss !! i = Some s' -> s_revision s' = h_revision h - 1 - Z.of_nat i) as Hrev'.
  { intros i s' Hi. specialize (Hrev (S i) s'). rewrite E2 in Hrev. rewrite Hrev by done. lia. }
  rewrite E1, E2, back_snoc, take_snoc. destruct l as [|p l _] using rev_ind.
  { inversion Hss; subst. do 2 eexists. split; [done|]. split; [done|].
    split; cbn [indices next_id revision stack h_objects h_next h_revision h_saved]; try done.
    - by rewrite Hr.
    - constructor. }
  rewrite reverse_snoc in Hss. inversion Hss as [|? ? ? ? t tt Hp Hpr Hpn Htt Hrest]; subst. clear Hss.
  rewrite back_snoc. rewrite Hsn in Hp. rewrite Hpn in Htt.
  destruct (squash_states_spec p u) as (q & -> & Hq & Hqn & Hqr & Hc).
  { apply (un_ok _ _ _ _ Hp). } { apply (un_ok _ _ _ _ Hu). } { by eapply undoes_mergeable. }
  cbn [mbind result_bind]. do 2 eexists. split; [done|]. split; [done|].
  split; cbn [indices next_id revision stack h_objects h_next h_revision h_saved]; try done.
  - by rewrite Hr.
  - rewrite reverse_update_head, reverse_snoc. cbn [head_map].
    constructor; [by eapply undoes_merge|congruence|congruence|by rewrite Hpn|done].
Qed.

(** The saved snapshots that are not committed. *)
Lemma stack_sim_prefix m n us1 us2 ss :
  stack_sim m n (us1 ++ us2) ss -> stack_sim m n us1 (take (length us1) ss).
Proof.
  revert m n ss. induction us1 as [|u us1 IH]; intros m n ss H; cbn [length take app] in *; [constructor|].
  inversion H; subst. cbn [take]. constructor; auto.
Qed.

Lemma drop_committed_split rev l :
  exists dropped, l = dropped ++ drop_committed rev l /\ Forall (fun u => us_revision u <= rev) dropped.
Proof.
  induction l as [|u l (dropped & E & Hd)]; [by exists []|]. cbn [drop_committed].
  destruct (us_revision u <=? rev) eqn:Hu; [|by exists []].
  exists (u :: dropped). split; [by rewrite <- app_comm_cons, <- E|]. constructor; [by apply Z.leb_le|done].
Qed.

Lemma drop_committed_head rev l :
  match drop_committed rev l with u :: _ => rev < us_revision u | [] => True end.
Proof.
  induction l as [|u l IH]; [done|]. cbn [drop_committed].
  destruct (us_revision u <=? rev) eqn:Hu; [done|]. by apply Z.leb_gt.
Qed.

Lemma stack_sim_lookup m n us ss i s :
  stack_sim m n us ss -> ss !! i = Some s ->
  exists u, us !! i = Some u /\ s_revision s = us_revision u.
Proof.
  intros H. revert i. induction H as [|m n u us s' ss Hu Hr Hn Ht Hs IH]; intros i; [done|].
  destruct i as [|i]; [|by apply IH]. intros [= ->]. by exists u.
Qed.

Lemma stack_sim_length m n us ss : stack_sim m n us ss -> length us = length ss.
Proof. induction 1 as [|m n u us s ss _ _ _ _ _ IH]; [done|]. simpl. by rewrite IH. Qed.

Lemma filter_prefix {A} (f : A -> bool) (l : list A) k :
  (forall i x, l !! i = Some x -> f x = bool_decide (i < k)%nat) -> List.filter f l = take k l.
Proof.
  revert k. induction l as [|x l IH]; intros k Hf; [by destruct k|]. cbn [List.filter].
  rewrite (Hf 0%nat x) by done. destruct k as [|k].
  - rewrite (IH 0%nat); [by destruct l|]. intros i y Hy. rewrite (Hf (S i) y) by done.
    by rewrite !bool_decide_eq_false_2 by lia.
  - rewrite bool_decide_eq_true_2 by lia. cbn [take]. f_equal. apply IH.
    intros i y Hy. rewrite (Hf (S i) y) by done. apply bool_decide_ext. lia.
Qed.

Lemma commit_refines rev idx h :
  index_sim idx h ->
  exists h', spec_op (Commit rev) h = Ok h' /\ index_sim (commit rev idx) h'.
Proof.
  intros [Ho Hn Hr Ht Hs Hrev]. cbn [spec_op]. eexists. split; [done|].
  destruct (drop_committed_split rev (stack idx)) as (dropped & E & Hd).
  pose proof (drop_committed_head rev (stack idx)) as Hhead. unfold commit.
  set (kept := drop_committed rev (stack idx)) in *.
  assert (reverse (stack idx) = reverse kept ++ reverse dropped) as Er by (by rewrite E, reverse_app).
  rewrite Er in Hs.
  assert (List.filter (fun s => negb (s_revision s <=? rev)) (h_saved h) = take (length kept) (h_saved h)) as ->.
  { apply filter_prefix. intros i s Hi. rewrite (Hrev i s Hi).
    apply eq_true_iff_eq. rewrite negb_true_iff, Z.leb_gt, bool_decide_eq_true. split.
    - intros Hlt. apply dec_stable. intros Hge.
      destruct (stack_sim_lookup _ _ _ _ _ _ Hs Hi) as (u & Hu & Eu).
      rewrite lookup_app_r, length_reverse in Hu by (rewrite length_reverse; lia).
      apply list_elem_of_lookup_2 in Hu. rewrite elem_of_reverse in Hu.
      apply (proj1 (list.Forall_forall _ _) Hd) in Hu. rewrite <- Eu, (Hrev i s Hi) in Hu. lia.
    - intros Hlt. destruct kept as [|u kept']; [simpl in Hlt; lia|].
      pose proof (stack_sim_length _ _ _ _ Hs) as Hlen. rewrite length_app, length_reverse in Hlen.
      simpl in Hlen, Hlt. destruct (lookup_lt_is_Some_2 (h_saved h) (length kept')) as [t Htk]; [lia|].
      destruct (stack_sim_lookup _ _ _ _ _ _ Hs Htk) as (u' & Hu' & Eu').
      rewrite reverse_cons, <- app_assoc, lookup_app_r, length_reverse in Hu' by (rewrite length_reverse; lia).
      rewrite Nat.sub_diag in Hu'. injection Hu' as <-. rewrite (Hrev _ _ Htk) in Eu'. lia. }
  split; cbn [indices next_id revision stack h_objects h_next h_revision h_saved]; try done.
  - rewrite <- (length_reverse kept). by eapply stack_sim_prefix.
  - intros i s [Hi _]%lookup_take_Some. auto.
Qed.

Lemma undo_all_refines idx h :
  index_sim idx h ->
  exists h' idx', spec_op Undo_all h = Ok h' /\ undo_all idx = Some (Ok idx') /\ index_sim idx' h'.
Proof.
  intros Hsim. unfold undo_all. remember (length (stack idx)) as n eqn:Hn.
  revert idx h Hsim Hn. induction n as [|n IH]; intros idx h Hsim Hn.
  { destruct (stack idx) as [|? ?] eqn:E; [|done]. cbn [undo_all_loop]. unfold enabled. rewrite E.
    destruct (sim_top idx h Hsim) as [[_ E2]|(l & u & ? & ? & E1 & _)];
      [|rewrite E in E1; by destruct l]. exists h, idx. cbn [spec_op]. by rewrite E2. }
  destruct (undo_refines idx h Hsim) as (h1 & idx1 & Hh1 & Hi1 & Hsim1).
  destruct (sim_top idx h Hsim) as [[E _]|(l & u & s & ss & E1 & E2 & _)]; [rewrite E in Hn; done|].
  cbn [undo_all_loop]. unfold enabled. rewrite E1, bool_decide_eq_false_2.
  2:{ rewrite length_app. simpl. lia. }
  cbn [negb]. rewrite Hi1. cbn [spec_op] in Hh1. rewrite E2 in Hh1. injection Hh1 as <-.
  assert (stack idx1 = l) as El.
  { unfold undo in Hi1. rewrite E1, back_snoc, take_snoc in Hi1.
    apply bind_ok in Hi1 as (? & _ & Hi1). apply bind_ok in Hi1 as (? & _ & Hi1).
    by apply bind_ok in Hi1 as (? & _ & [= <-]). }
  destruct (IH idx1 _ Hsim1) as (h2 & idx2 & Hh2 & Hi2 & Hsim2).
  { rewrite El. rewrite E1, length_app in Hn. simpl in Hn. lia. }
  exists h2, idx2. split_and!; [|done|done]. rewrite <- Hh2. cbn [spec_op h_saved]. rewrite E2.
  destruct ss as [|t ss _] using rev_ind.
  - cbn. by do 2 f_equal.
  - rewrite back_snoc, app_comm_cons, back_snoc. cbn [h_revision]. do 2 f_equal.
    rewrite !length_app. simpl. rewrite ?length_app. simpl. lia.
Qed.

Lemma run_op_refines op idx h :
  index_sim idx h -> valid_op op ->
  match spec_op op h with
  | Ok h' => exists idx', run_op op idx = Some (Ok idx') /\ index_sim idx' h'
  | Err e => run_op op idx = Some (Err e)
  end.
Proof.
  intros Hs Hv. destruct op as [c|id f|id| | | |rev|]; cbn [run_op].
  - pose proof (emplace_refines c idx h Hs Hv) as H.
    destruct (spec_op _ _); [destruct H as (? & -> & ?); eauto|by rewrite H].
  - pose proof (modify_refines id f idx h Hs Hv) as H.
    destruct (spec_op _ _); [destruct H as (? & -> & ?); eauto|by rewrite H].
  - pose proof (remove_refines id idx h Hs) as H.
    destruct (spec_op _ _); [destruct H as (? & -> & ?); eauto|by rewrite H].
  - pose proof (start_refines idx h Hs) as H.
    destruct (spec_op _ _); [destruct H as (? & ? & -> & ?); eauto|by rewrite H].
  - destruct (undo_refines idx h Hs) as (h' & idx' & -> & -> & ?). eauto.
  - destruct (squash_refines idx h Hs) as (h' & idx' & -> & -> & ?). eauto.
  - destruct (commit_refines rev idx h Hs) as (h' & -> & ?). eauto.
  - destruct (undo_all_refines idx h Hs) as (h' & idx' & -> & -> & ?). eauto.
Qed.

Definition empty_index : generic_index V := mk_generic_index [] 0 0 ∅.

Definition empty_history : history := mk_history [] 0 0 ∅.

Lemma empty_sim : index_sim empty_index empty_history.
Proof.
  split; cbn; [done|done|done| |constructor|done]. split; [done|]. by intros i j v w Hv.
Qed.

(** A sequence of operations, up to the first error. *)
Fixpoint run_ops (ops : list index_op) (idx : generic_index V) : option (outcome (generic_index V)) :=
  match ops with
  | [] => Some (Ok idx)
  | op :: ops' =>
      match run_op op idx with
      | Some (Ok idx') => run_ops ops' idx'
      | r => r
      end
  end.

Fixpoint spec_ops (ops : list index_op) (h : history) : outcome history :=
  match ops with
  | [] => Ok h
  | op :: ops' => h' ← spec_op op h; spec_ops ops' h'
  end.

(** What a run of the index is to agree with: the result of the same
    operations on the stack of snapshots. *)
Definition agrees (r : option (outcome (generic_index V))) (spec : outcome history) : Prop :=
  match spec with
  | Ok h => exists idx, r = Some (Ok idx) /\
              indices idx = h_objects h /\ next_id idx = h_next h /\ revision idx = h_revision h
  | Err e => r = Some (Err e)
  end.

Lemma run_ops_agrees ops idx h :
  index_sim idx h -> Forall valid_op ops -> agrees (run_ops ops idx) (spec_ops ops h).
Proof.
  intros Hsim Hops. revert idx h Hsim.
  induction Hops as [|op ops Hop _ IH]; intros idx h Hsim; cbn [run_ops spec_ops].
  { exists idx. split; [done|]. by destruct Hsim. }
  pose proof (run_op_refines op idx h Hsim Hop) as H.
  destruct (spec_op op h) as [h'|e]; cbn [mbind result_bind]; [|by rewrite H].
  destruct H as (idx' & -> & Hsim'). by apply IH.
Qed.

(** ** The database *)

(** [_index_list], each index with its type id. *)
Abbreviation database := (list (Z * generic_index V)).

(** A loop over the indices; an exception leaves those before as changed. *)
Fixpoint for_each_index (f : generic_index V -> outcome (generic_index V)) (db : database) :
  database * outcome unit :=
  match db with
  | [] => ([], Ok tt)
  | (t, idx) :: db' =>
      match f idx with
      | Err e => (db, Err e)
      | Ok idx' => let '(db'', r) := for_each_index f db' in ((t, idx') :: db'', r)
      end
  end.

Definition db_undo (db : database) : database * outcome unit := for_each_index undo db.
Definition db_squash (db : database) : database * outcome unit := for_each_index squash db.
Definition db_commit (rev : Z) (db : database) : database * outcome unit :=
  for_each_index (fun idx => Ok (commit rev idx)) db.
Definition db_set_revision (rev : Z) (db : database) : database * outcome unit :=
  for_each_index (set_revision rev) db.

(** [undo_all] does not return where the fuel of an index runs out. *)
Fixpoint db_undo_all (db : database) : option (database * outcome unit) :=
  match db with
  | [] => Some ([], Ok tt)
  | (t, idx) :: db' =>
      match undo_all idx with
      | None => None
      | Some (Err e) => Some (db, Err e)
      | Some (Ok idx') =>
          match db_undo_all db' with
          | None => None
          | Some (db'', r) => Some ((t, idx') :: db'', r)
          end
      end
  end.

Definition db_revision (db : database) : Z :=
  match db with [] => -1 | (_, idx) :: _ => revision idx end.

(** The session of a database is the sessions of its indices, which
    session_impl has moved. *)
Record db_session := mk_db_session { index_sessions : list session; db_session_revision : Z }.

Fixpoint start_each (db : database) : outcome (database * list session) :=
  match db with
  | [] => Ok ([], [])
  | (t, idx) :: db' =>
      '(idx', s) ← start_undo_session true idx;
      '(db'', l) ← start_each db';
      Ok ((t, idx') :: db'', session_move s :: l)
  end.

Definition db_start_undo_session (enable : bool) (db : database) : outcome (database * db_session) :=
  if enable then
    '(db', l) ← start_each db;
    Ok (db', mk_db_session l (match l with [] => -1 | s :: _ => session_revision s end))
  else Ok (db, mk_db_session [] (-1)).

(** The loops of a session over its sessions, the i-th of which is of the
    i-th index. *)
Fixpoint session_each (f : session -> generic_index V -> outcome (generic_index V * session))
    (l : list session) (db : database) : outcome database :=
  match l, db with
  | s :: l', (t, idx) :: db' =>
      '(idx', _) ← f s idx;
      db'' ← session_each f l' db';
      Ok ((t, idx') :: db'')
  | _, _ => Ok db
  end.

Definition db_session_push (s : db_session) : db_session := mk_db_session [] (db_session_revision s).
Definition db_session_squash (s : db_session) (db : database) : outcome database :=
  session_each session_squash (index_sessions s) db.
Definition db_session_undo (s : db_session) (db : database) : outcome database :=
  session_each session_undo (index_sessions s) db.

(** The loop of [add_index] that gives a new index the undo stack of the
    others. *)
Fixpoint push_sessions (fuel : nat) (target : Z) (idx : generic_index V) : option (outcome (generic_index V)) :=
  if revision idx <? target then
    match fuel with
    | O => None
    | S fuel' =>
        match start_undo_session true idx with
        | Err e => Some (Err e)
        | Ok (idx', _) => push_sessions fuel' target idx'
        end
    end
  else Some (Ok idx).

(** [stored] is the index found in the file of the database.  The check of
    the sizes of the types in [validate] is left out. *)
Definition add_index (read_only : bool) (type_id : Z) (stored : option (generic_index V)) (db : database) :
  option (outcome database) :=
  if bool_decide (type_id ∈ db.*1) then Some (Err std_logic_error) else
  let first_time_adding := bool_decide (stored = None) in
  if first_time_adding && read_only then Some (Err std_runtime_error) else
  let idx := default empty_index stored in
  match db with
  | [] => Some (Ok [(type_id, idx)])
  | (_, front) :: _ =>
      let expected := undo_stack_revision_range front in
      if bool_decide (undo_stack_revision_range idx = expected) then Some (Ok (db ++ [(type_id, idx)])) else
      if negb first_time_adding then Some (Err std_logic_error) else
      if read_only then Some (Err std_logic_error) else
      match set_revision (u64 expected.1) idx with
      | Err e => Some (Err e)
      | Ok idx =>
          match push_sessions (Z.to_nat (expected.2 - revision idx)) expected.2 idx with
          | None => None
          | Some (Err e) => Some (Err e)
          | Some (Ok idx) => Some (Ok (db ++ [(type_id, idx)]))
          end
      end
  end.

End generic_index.

(** ** Modifications that change unique keys

    An index that is as good as its unique keys let it: where no unique key is
    violated it does what the index without them does, on which every
    modification that keeps the id can be undone. *)

Section conflicts.
Context {V K : Type} `{!EqDecision K} (obj_id : V -> Z) (keys : list (V -> K)).

Abbreviation no_keys := ([] : list (V -> K)).

Lemma emplace_or_violates m v :
  container_emplace obj_id keys m v = None \/
  container_emplace obj_id keys m v = container_emplace obj_id no_keys m v.
Proof.
  unfold container_emplace. destruct (violates obj_id keys m v) eqn:E; [by left|right].
  apply violates_false in E as [E _]. replace (violates obj_id no_keys m v) with false; [done|].
  symmetry. by apply violates_false.
Qed.

Lemma modify_or_aborts id f idx :
  modify obj_id keys id f idx = Err std_abort \/
  modify obj_id keys id f idx = modify obj_id no_keys id f idx.
Proof.
  unfold modify, container_modify. destruct (indices idx !! id) as [v|]; [|by right].
  cbn [mbind result_bind]. by destruct (emplace_or_violates (delete id (indices idx)) (f v)) as [->| ->]; [left|right].
Qed.

Lemma restore_old_or_aborts items m :
  restore_old obj_id keys items m = Err std_abort \/
  restore_old obj_id keys items m = restore_old obj_id no_keys items m.
Proof.
  revert m. induction items as [|[k v] items IH]; intros m; cbn [restore_old]; [by right|].
  unfold container_modify. destruct (m !! obj_id v); cbn [mbind result_bind]; [|by right].
  destruct (emplace_or_violates (delete (obj_id v) m) v) as [->| ->]; [by left|].
  destruct (container_emplace obj_id no_keys _ v); [apply IH|by right].
Qed.

Lemma restore_removed_or_aborts items m :
  restore_removed obj_id keys items m = Err std_abort \/
  restore_removed obj_id keys items m = restore_removed obj_id no_keys items m.
Proof.
  revert m. induction items as [|[k v] items IH]; intros m; cbn [restore_removed]; [by right|].
  destruct (emplace_or_violates m v) as [->| ->]; [by left|].
  destruct (container_emplace obj_id no_keys m v); [apply IH|by right].
Qed.

Lemma undo_or_aborts idx :
  undo obj_id keys idx = Err std_abort \/ undo obj_id keys idx = undo obj_id no_keys idx.
Proof.
  unfold undo. destruct (back (stack idx)) as [u|]; [|by right].
  destruct (erase_new _ _) as [m|e]; cbn [mbind result_bind]; [|by right].
  destruct (restore_old_or_aborts (in_order (old_values u)) m) as [->| ->]; [by left|].
  destruct (restore_old obj_id no_keys _ _) as [m'|e]; cbn [mbind result_bind]; [|by right].
  by destruct (restore_removed_or_aborts (in_order (removed_values u)) m') as [->| ->]; [left|right].
Qed.

Lemma undo_all_or_aborts idx :
  undo_all obj_id keys idx = Some (Err std_abort) \/ undo_all obj_id keys idx = undo_all obj_id no_keys idx.
Proof.
  unfold undo_all. generalize (length (stack idx)) as n. intros n. revert idx.
  induction n as [|n IH]; intros idx; cbn [undo_all_loop]; [by right|].
  destruct (enabled idx); [|by right]. destruct (undo_or_aborts idx) as [->| ->]; [by left|].
  destruct (undo obj_id no_keys idx); [apply IH|by right].
Qed.

(** Every operation but [emplace], whose violations of uniqueness are
    reported to the caller, aborts or does what it does without the keys. *)
Lemma run_op_or_aborts op idx :
  (forall c, op <> Emplace c) ->
  run_op obj_id keys op idx = Some (Err std_abort) \/
  run_op obj_id keys op idx = run_op obj_id no_keys op idx.
Proof.
  destruct op as [c|id f|id| | | |rev|]; intros Hne; cbn [run_op]; try by right.
  - by destruct (Hne c).
  - by destruct (modify_or_aborts id f idx) as [->| ->]; [left|right].
  - by destruct (undo_or_aborts idx) as [->| ->]; [left|right].
  - apply undo_all_or_aborts.
Qed.

Lemma keeps_id_valid op : keeps_id obj_id op -> valid_op obj_id no_keys op.
Proof. destruct op as [c|id f|id| | | |rev|]; cbn; intros H; done. Qed.

Lemma run_op_agrees_or_aborts op idx h :
  index_sim obj_id no_keys idx h -> keeps_id obj_id op ->
  run_op obj_id keys op idx = Some (Err std_abort) \/
  match spec_op obj_id keys op h with
  | Ok h' => exists idx', run_op obj_id keys op idx = Some (Ok idx') /\ index_sim obj_id no_keys idx' h'
  | Err e => run_op obj_id keys op idx = Some (Err e)
  end.
Proof.
  intros Hs Hop. pose proof (run_op_refines obj_id no_keys op idx h Hs (keeps_id_valid op Hop)) as H.
  assert ((exists c, op = Emplace c) \/ forall c, op <> Emplace c) as [[c ->]|Hne] by (destruct op; eauto).
  - right. cbn [run_op spec_op] in H |- *. unfold emplace in H |- *.
    rewrite (sim_objects _ _ _ _ Hs), (sim_next _ _ _ _ Hs) in H |- *.
    by destruct (emplace_or_violates (h_objects h) (c (h_next h))) as [->| ->].
  - destruct (run_op_or_aborts op idx) as [->| ->]; [done|by left|right].
    replace (spec_op obj_id keys op h) with (spec_op obj_id no_keys op h); [done|].
    destruct op as [c| | | | | | |]; try done. by destruct (Hne c).
Qed.

Lemma run_ops_agrees_or_aborts ops idx h :
  index_sim obj_id no_keys idx h -> Forall (keeps_id obj_id) ops ->
  run_ops obj_id keys ops idx = Some (Err std_abort) \/
  agrees (run_ops obj_id keys ops idx) (spec_ops obj_id keys ops h).
Proof.
  intros Hs Hops. revert idx h Hs. induction Hops as [|op ops Hop _ IH]; intros idx h Hs; cbn [run_ops spec_ops].
  { right. exists idx. split; [done|]. by destruct Hs. }
  destruct (run_op_agrees_or_aborts op idx h Hs Hop) as [->|H]; [by left|].
  destruct (spec_op obj_id keys op h) as [h'|e]; cbn [mbind result_bind]; [|right; by rewrite H].
  destruct H as (idx' & -> & Hs'). by apply IH.
Qed.

(** A change of a unique key that extends another one. *)
Lemma extending_key_agrees key key' v w :
  (forall x y, key' x = key' y -> key x = key y) ->
  keys = [key; key'] -> obj_id v = obj_id w -> key v = key w -> keys_agree obj_id keys v w.
Proof.
  intros Hext -> Hid Hk. split; [done|]. intros x _. unfold same_key. cbn [existsb].
  assert (forall y, bool_decide (key x = key y) || (bool_decide (key' x = key' y) || false) =
                    bool_decide (key x = key y)) as E.
  { intros y. rewrite orb_false_r. case_bool_decide; [done|]. cbn.
    apply bool_decide_eq_false_2. by intros ?%Hext. }
  by rewrite !E, Hk.
Qed.

(** C4: The index refines a stack of snapshots.  Any sequence of creations,
    modifications, removals, new sessions, undos, squashes, commits and
    undo_alls that leave the ids alone, started on an empty index, ends with
    the result of the same sequence on a table that saves whole copies of
    itself (the same error, or the same objects, next id and revision) or
    with the abort of the process that a violation of a unique key in a
    modification or an undo brings about.  The abort cannot happen where
    every modification leaves the conflicts with other objects alone, as one
    does that changes no unique key, or only one that extends another. *)
Theorem index_refines_snapshots ops :
  Forall (keeps_id obj_id) ops ->
  (run_ops obj_id keys ops empty_index = Some (Err std_abort) \/
   agrees (run_ops obj_id keys ops empty_index) (spec_ops obj_id keys ops empty_history)) /\
  (Forall (valid_op obj_id keys) ops ->
   agrees (run_ops obj_id keys ops empty_index) (spec_ops obj_id keys ops empty_history)).
Proof.
  intros Hops. split.
  - apply run_ops_agrees_or_aborts; [apply empty_sim|done].
  - intros Hv. apply run_ops_agrees; [apply empty_sim|done].
Qed.

End conflicts.

(** ** The indices of a database stay in step *)

Section database.
Context {V K : Type} `{!EqDecision K} (obj_id : V -> Z) (keys : list (V -> K)).

Abbreviation database := (list (Z * generic_index V)).

(** The index has the revision [rev] and [len] undo states, and is in a state
    of the specification. *)
Definition index_at (rev : Z) (len : nat) (idx : generic_index V) : Prop :=
  revision idx = rev /\ length (stack idx) = len /\ exists h, index_sim obj_id keys idx h.

Definition in_step (db : database) : Prop :=
  exists rev len, 0 <= rev - Z.of_nat len /\ rev <= INT64_MAX /\ Forall (fun p => index_at rev len p.2) db.

Inductive db_op :=
  | Db_update (type_id : Z) (op : index_op (V := V))
  | Db_start
  | Db_undo
  | Db_squash
  | Db_commit (rev : Z)
  | Db_undo_all
  | Db_add (type_id : Z).

Definition is_update (op : index_op (V := V)) : bool :=
  match op with Emplace _ | Modify _ _ | Remove _ => true | _ => false end.

Definition valid_db_op (op : db_op) : Prop :=
  match op with
  | Db_update _ op => is_update op = true /\ valid_op obj_id keys op
  | _ => True
  end.

(** [create], [modify] and [remove] on the index of the type of the object. *)
Fixpoint update_index (type_id : Z) (op : index_op (V := V)) (db : database) : option (outcome database) :=
  match db with
  | [] => Some (Err undefined_behaviour)
  | (t, idx) :: db' =>
      if t =? type_id then
        match run_op obj_id keys op idx with
        | None => None
        | Some (Err e) => Some (Err e)
        | Some (Ok idx') => Some (Ok ((t, idx') :: db'))
        end
      else
        match update_index type_id op db' with
        | None => None
        | Some (Err e) => Some (Err e)
        | Some (Ok db'') => Some (Ok ((t, idx) :: db''))
        end
  end.

Definition returned (r : database * outcome unit) : outcome database :=
  match r with (db, Ok _) => Ok db | (_, Err e) => Err e end.

Definition run_db_op (op : db_op) (db : database) : option (outcome database) :=
  match op with
  | Db_update t op => update_index t op db
  | Db_start => Some (fst <$> db_start_undo_session true db)
  | Db_undo => Some (returned (db_undo obj_id keys db))
  | Db_squash => Some (returned (db_squash obj_id db))
  | Db_commit rev => Some (returned (db_commit rev db))
  | Db_undo_all => returned <$> db_undo_all obj_id keys db
  | Db_add t => add_index false t None db
  end.

Lemma sim_length idx h : index_sim obj_id keys idx h -> length (h_saved h) = length (stack idx).
Proof.
  intros Hs. rewrite <- (stack_sim_length _ _ _ _ _ _ (sim_stack _ _ _ _ Hs)). apply length_reverse.
Qed.

(** A loop that takes every index from one position to another keeps the
    database in step. *)
Lemma for_each_index_ok f db rev len rev' len' :
  (forall idx, index_at rev len idx -> exists idx', f idx = Ok idx' /\ index_at rev' len' idx') ->
  Forall (fun p => index_at rev len p.2) db ->
  exists db', returned (for_each_index f db) = Ok db' /\ Forall (fun p => index_at rev' len' p.2) db' /\
    db'.*1 = db.*1.
Proof.
  intros Hf H. induction H as [|[t idx] db Hi _ (db' & Hdb & IH & Ht)]; cbn [for_each_index].
  { exists []. split_and!; [done|constructor|done]. }
  destruct (Hf idx Hi) as (idx' & -> & Hi').
  destruct (for_each_index f db) as [db1 [[]|e]]; [|done]. injection Hdb as <-.
  exists ((t, idx') :: db1). split_and!; [done|by constructor|by rewrite !fmap_cons, Ht].
Qed.

Definition popped (len : nat) : nat := len - 1.

(** The position after an operation that pops an undo state. *)
Lemma popped_at rev len idx idx' h h' :
  index_at rev len idx -> index_sim obj_id keys idx h -> index_sim obj_id keys idx' h' ->
  match h_saved h with
  | [] => h' = h
  | _ :: ss => h_saved h' = ss /\ h_revision h' = h_revision h - 1
  end ->
  index_at (if bool_decide (len = 0%nat) then rev else rev - 1) (popped len) idx'.
Proof.
  intros (Hr & Hl & _) Hs Hs' Hh. pose proof (sim_length _ _ Hs) as L. pose proof (sim_length _ _ Hs') as L'.
  pose proof (sim_revision _ _ _ _ Hs) as R. pose proof (sim_revision _ _ _ _ Hs') as R'.
  unfold popped. destruct (h_saved h) as [|s ss] eqn:E.
  - subst h'. rewrite E in L'. simpl in L, L'. rewrite bool_decide_eq_true_2 by lia.
    split_and!; [congruence|lia|by eauto].
  - destruct Hh as [E' R'']. rewrite E' in L'. simpl in L. rewrite bool_decide_eq_false_2 by lia.
    split_and!; [lia|lia|by eauto].
Qed.

Lemma undo_at rev len idx :
  index_at rev len idx ->
  exists idx', undo obj_id keys idx = Ok idx' /\
    index_at (if bool_decide (len = 0%nat) then rev else rev - 1) (popped len) idx'.
Proof.
  intros Hat. pose proof Hat as (_ & _ & h & Hs).
  destruct (undo_refines obj_id keys idx h Hs) as (h' & idx' & Hh & Hi & Hs').
  exists idx'. split; [done|]. eapply popped_at; [exact Hat|exact Hs|exact Hs'|].
  cbn [spec_op] in Hh. by destruct (h_saved h); injection Hh as <-.
Qed.

Lemma squash_at rev len idx :
  index_at rev len idx ->
  exists idx', squash obj_id idx = Ok idx' /\
    index_at (if bool_decide (len = 0%nat) then rev else rev - 1) (popped len) idx'.
Proof.
  intros Hat. pose proof Hat as (_ & _ & h & Hs).
  destruct (squash_refines obj_id keys idx h Hs) as (h' & idx' & Hh & Hi & Hs').
  exists idx'. split; [done|]. eapply popped_at; [exact Hat|exact Hs|exact Hs'|].
  cbn [spec_op] in Hh. by destruct (h_saved h); injection Hh as <-.
Qed.

(** The number of undo states above a revision. *)
Definition kept (rev : Z) (len : nat) (committed : Z) : nat :=
  length (List.filter (fun i => negb (rev - Z.of_nat i <=? committed)) (seq 0 len)).

Lemma commit_at rev len committed idx :
  index_at rev len idx -> index_at rev (kept rev len committed) (commit committed idx).
Proof.
  intros (Hr & Hl & h & Hs). destruct (commit_refines obj_id keys committed idx h Hs) as (h' & Hh & Hs').
  cbn [spec_op] in Hh. injection Hh as <-. split_and!; [done| |by eauto].
  rewrite <- (sim_length _ _ Hs'). cbn [h_saved]. unfold kept. rewrite <- Hl, <- (sim_length _ _ Hs).
  pose proof (sim_revisions _ _ _ _ Hs) as Hrev. rewrite <- (sim_revision _ _ _ _ Hs), Hr in Hrev.
  assert (forall i s, h_saved h !! i = Some s -> s_revision s = rev - Z.of_nat (0 + i)) as H by done.
  clear -H. revert H. generalize 0%nat as k. induction (h_saved h) as [|s ss IH]; intros k H; [done|].
  cbn [List.filter seq length]. rewrite (H 0%nat s), Nat.add_0_r by done.
  assert (forall i s, ss !! i = Some s -> s_revision s = rev - Z.of_nat (S k + i)) as H'.
  { intros i t Ht. rewrite (H (S i) t) by done. lia. }
  destruct (negb (rev - Z.of_nat k <=? committed)); cbn [length]; by rewrite (IH (S k) H').
Qed.

Lemma undo_all_at rev len idx :
  index_at rev len idx ->
  exists idx', undo_all obj_id keys idx = Some (Ok idx') /\ index_at (rev - Z.of_nat len) 0 idx'.
Proof.
  intros (Hr & Hl & h & Hs). destruct (undo_all_refines obj_id keys idx h Hs) as (h' & idx' & Hh & Hi & Hs').
  exists idx'. split; [done|]. pose proof (sim_length _ _ Hs) as L. pose proof (sim_length _ _ Hs') as L'.
  pose proof (sim_revision _ _ _ _ Hs) as R. pose proof (sim_revision _ _ _ _ Hs') as R'.
  cbn [spec_op] in Hh. destruct (h_saved h) as [|s ss _] eqn:E using rev_ind.
  - injection Hh as <-. rewrite E in L'. simpl in L, L'. split_and!; [lia|lia|by eauto].
  - rewrite back_snoc in Hh. injection Hh as <-. simpl in L', R'. split_and!; [lia|lia|by eauto].
Qed.

Lemma start_at rev len idx :
  index_at rev len idx ->
  match start_undo_session true idx with
  | Ok (idx', _) => rev < INT64_MAX /\ index_at (rev + 1) (S len) idx'
  | Err _ => INT64_MAX <= rev
  end.
Proof.
  intros (Hr & Hl & h & Hs). pose proof (start_refines obj_id keys idx h Hs) as H.
  cbn [spec_op] in H. unfold increment in H. pose proof (sim_revision _ _ _ _ Hs) as R.
  destruct (h_revision h <? INT64_MAX) eqn:E; cbn [mbind result_bind] in H.
  - destruct H as (idx' & s & -> & Hs'). apply Z.ltb_lt in E.
    pose proof (sim_length _ _ Hs) as L. pose proof (sim_length _ _ Hs') as L'.
    pose proof (sim_revision _ _ _ _ Hs') as R'. simpl in L', R'. split; [lia|]. split_and!; [lia|lia|by eauto].
  - rewrite H. apply Z.ltb_ge in E. lia.
Qed.

Lemma start_each_at rev len db :
  Forall (fun p => index_at rev len p.2) db ->
  match start_each db with
  | Ok (db', l) => Forall (fun p => index_at (rev + 1) (S len) p.2) db' /\ db'.*1 = db.*1 /\
                   (rev < INT64_MAX \/ db = [])
  | Err _ => INT64_MAX <= rev
  end.
Proof.
  induction 1 as [|[t idx] db Hi _ IH]; cbn [start_each]; [split_and!; [constructor|done|by right]|].
  pose proof (start_at rev len idx Hi) as H.
  destruct (start_undo_session true idx) as [[idx' s]|e]; cbn [mbind result_bind]; [|done].
  destruct (start_each db) as [[db' l]|e]; cbn [mbind result_bind]; [|done].
  destruct H as [Hr H], IH as (IH & Ht & _).
  split_and!; [by constructor|by rewrite !fmap_cons, Ht|by left].
Qed.

Lemma update_at rev len op idx idx' :
  is_update op = true -> valid_op obj_id keys op -> index_at rev len idx ->
  run_op obj_id keys op idx = Some (Ok idx') -> index_at rev len idx'.
Proof.
  intros Hup Hv (Hr & Hl & h & Hs) Hrun. pose proof (run_op_refines obj_id keys op idx h Hs Hv) as H.
  destruct (spec_op obj_id keys op h) as [h'|e] eqn:E; [|congruence].
  destruct H as (idx1 & H & Hs'). rewrite Hrun in H. injection H as <-.
  pose proof (sim_length _ _ Hs) as L. pose proof (sim_length _ _ Hs') as L'.
  pose proof (sim_revision _ _ _ _ Hs) as R. pose proof (sim_revision _ _ _ _ Hs') as R'.
  assert (h_saved h' = h_saved h /\ h_revision h' = h_revision h) as [E1 E2].
  { destruct op as [c|id f|id| | | |r|]; try done; cbn [spec_op] in E.
    - destruct (container_emplace _ _ _ _); [|done]. by apply bind_ok in E as (? & _ & [= <-]).
    - destruct (h_objects h !! id); [|done]. by injection E as <-.
    - destruct (h_objects h !! id); [|done]. by injection E as <-. }
  rewrite E1 in L'. split_and!; [congruence|congruence|by eauto].
Qed.

Lemma update_index_at rev len t op db db' :
  is_update op = true -> valid_op obj_id keys op -> Forall (fun p => index_at rev len p.2) db ->
  update_index t op db = Some (Ok db') -> Forall (fun p => index_at rev len p.2) db'.
Proof.
  intros Hup Hv H. revert db'. induction H as [|[t' idx] db Hi Hdb IH]; intros db'; cbn [update_index]; [done|].
  destruct (t' =? t).
  - destruct (run_op obj_id keys op idx) as [[idx'|e]|] eqn:E; [|done|done]. intros [= <-].
    constructor; [|done]. by eapply update_at.
  - destruct (update_index t op db) as [[db1|e]|]; [|done|done]. intros [= <-]. constructor; auto.
Qed.

Lemma db_undo_all_at rev len db :
  Forall (fun p => index_at rev len p.2) db ->
  exists db', db_undo_all obj_id keys db = Some (db', Ok tt) /\
    Forall (fun p => index_at (rev - Z.of_nat len) 0 p.2) db'.
Proof.
  induction 1 as [|[t idx] db Hi _ (db' & E & IH)]; cbn [db_undo_all]; [eexists; split; [done|constructor]|].
  destruct (undo_all_at rev len idx Hi) as (idx' & -> & Hi'). rewrite E. eexists. split; [done|]. by constructor.
Qed.

(** An index in a state of the specification has undo states up to its
    revision. *)
Lemma range_at rev len idx :
  index_at rev len idx -> undo_stack_revision_range idx = (rev - Z.of_nat len, rev).
Proof.
  intros (Hr & Hl & h & Hs). unfold undo_stack_revision_range.
  pose proof (sim_revisions _ _ _ _ Hs) as Hrev. pose proof (sim_stack _ _ _ _ Hs) as Hst.
  pose proof (sim_length _ _ Hs) as L. rewrite <- (sim_revision _ _ _ _ Hs), Hr in Hrev.
  assert (forall i u, reverse (stack idx) !! i = Some u -> us_revision u = rev - Z.of_nat i) as H.
  { intros i u Hu. destruct (lookup_lt_is_Some_2 (h_saved h) i) as [s Hi].
    { apply lookup_lt_Some in Hu. rewrite length_reverse in Hu. lia. }
    destruct (stack_sim_lookup _ _ _ _ _ _ _ _ Hst Hi) as (u' & Hu' & E).
    rewrite Hu in Hu'. injection Hu' as <-. rewrite <- E. by apply Hrev. }
  destruct (stack idx) as [|u l] eqn:E; [simpl in Hl; subst len; rewrite Hr; f_equal; lia|].
  assert (us_revision u = rev - Z.of_nat (length l)) as Hu.
  { apply H. rewrite reverse_cons, lookup_app_r, length_reverse, Nat.sub_diag by (rewrite length_reverse; lia).
    done. }
  simpl in Hl. destruct (u :: l) as [|x k _] eqn:E' using rev_ind; [done|]. rewrite back_snoc.
  assert (us_revision x = rev) as ->; [|f_equal; lia].
  rewrite (H 0%nat x); [lia|]. by rewrite reverse_snoc.
Qed.

Lemma push_sessions_at target rev len idx :
  index_at rev len idx -> rev <= target -> target <= INT64_MAX ->
  exists idx', push_sessions (Z.to_nat (target - rev)) target idx = Some (Ok idx') /\
    index_at target (len + Z.to_nat (target - rev)) idx'.
Proof.
  intros Hi Hle Hmax. remember (Z.to_nat (target - rev)) as n eqn:Hn.
  revert rev len idx Hi Hle Hn. induction n as [|n IH]; intros rev len idx Hi Hle Hn;
    pose proof Hi as (Hr & Hl & _); cbn [push_sessions]; rewrite Hr.
  - replace (rev <? target) with false by (symmetry; apply Z.ltb_ge; lia).
    assert (rev = target) as -> by lia. exists idx. by rewrite Nat.add_0_r.
  - replace (rev <? target) with true by (symmetry; apply Z.ltb_lt; lia).
    pose proof (start_at rev len idx Hi) as H.
    destruct (start_undo_session true idx) as [[idx1 s]|e]; [|lia]. destruct H as [_ H].
    destruct (IH (rev + 1) (S len) idx1 H) as (idx' & -> & Hi'); [lia|lia|].
    exists idx'. split; [done|]. by replace (len + S n)%nat with (S len + n)%nat by lia.
Qed.

Lemma fresh_at rev : index_at rev 0 (mk_generic_index [] rev 0 ∅).
Proof.
  split_and!; [done|done|]. exists (mk_history [] rev 0 ∅).
  split; cbn; [done|done|done| |constructor|done]. split; [done|]. by intros i j v w Hv.
Qed.

Lemma add_index_at rev len t db db' :
  0 <= rev - Z.of_nat len -> rev <= INT64_MAX -> Forall (fun p => index_at rev len p.2) db ->
  add_index false t None db = Some (Ok db') -> in_step db'.
Proof.
  intros Hlen Hrev Hdb. unfold add_index. case_bool_decide; [done|]. rewrite bool_decide_eq_true_2 by done.
  cbn [andb default]. destruct db as [|[t' front] db0].
  { intros [= <-]. exists 0, 0%nat. split_and!; [lia|lia|]. constructor; [apply fresh_at|constructor]. }
  apply list.Forall_cons in Hdb as Hc. destruct Hc as [Hf _]. rewrite (range_at rev len front Hf).
  assert (forall idx, index_at rev len idx -> in_step (((t', front) :: db0) ++ [(t, idx)])) as Hadd.
  { intros idx Hidx. exists rev, len. split_and!; [done|done|]. apply Forall_app. split; [done|].
    by constructor; [|constructor]. }
  case_bool_decide as Hrange.
  - intros [= <-]. cbn in Hrange. apply (Hadd empty_index). injection Hrange as H1 H2.
    assert (rev = 0 /\ len = 0%nat) as [-> ->] by lia. apply fresh_at.
  - cbn [negb fst snd]. unfold set_revision. cbn [stack empty_index length].
    rewrite (bool_decide_eq_true_2 (0 = 0)%nat) by done. cbn [mbind result_bind ine_assert].
    replace (u64 (rev - Z.of_nat len)) with (rev - Z.of_nat len).
    2:{ symmetry. apply wrap_id. unfold is_uint. lia. }
    replace (rev - Z.of_nat len <=? INT64_MAX) with true by (symmetry; apply Z.leb_le; lia).
    cbn [mbind result_bind ine_assert revision next_id indices].
    destruct (push_sessions_at rev (rev - Z.of_nat len) 0 _ (fresh_at _)) as (idx' & E & Hi); [lia|done|].
    match goal with |- context [push_sessions ?a ?b ?c] =>
      change (push_sessions a b c) with (push_sessions (Z.to_nat (rev - (rev - Z.of_nat len))) rev
        (mk_generic_index [] (rev - Z.of_nat len) 0 (∅ : gmap Z V))) end.
    rewrite E. intros [= <-]. apply Hadd.
    by replace (0 + Z.to_nat (rev - (rev - Z.of_nat len)))%nat with len in Hi by lia.
Qed.

Inductive db_step (db db' : database) : Prop :=
  | db_step_op op : valid_db_op op -> run_db_op op db = Some (Ok db') -> db_step db db'.

(** The operations on the undo stacks always return. *)
Lemma stack_ops_at rev len db op :
  Forall (fun p => index_at rev len p.2) db -> 0 <= rev - Z.of_nat len -> rev <= INT64_MAX ->
  (op = Db_undo \/ op = Db_squash \/ (exists r, op = Db_commit r) \/ op = Db_undo_all) ->
  exists db', run_db_op op db = Some (Ok db') /\ in_step db'.
Proof.
  intros Hdb Hlen Hmax Hop.
  assert (0 <= (if bool_decide (len = 0%nat) then rev else rev - 1) - Z.of_nat (popped len) /\
          (if bool_decide (len = 0%nat) then rev else rev - 1) <= INT64_MAX) as [B1 B2].
  { unfold popped. case_bool_decide; lia. }
  destruct Hop as [->|[->|[[r ->]| ->]]]; cbn [run_db_op]; unfold db_undo, db_squash, db_commit.
  - destruct (for_each_index_ok (undo obj_id keys) db _ _ _ _ (undo_at rev len) Hdb) as (db' & -> & H & _).
    eexists. split; [done|]. do 2 eexists. split_and!; [exact B1|exact B2|exact H].
  - destruct (for_each_index_ok (squash obj_id) db _ _ _ _ (squash_at rev len) Hdb) as (db' & -> & H & _).
    eexists. split; [done|]. do 2 eexists. split_and!; [exact B1|exact B2|exact H].
  - destruct (for_each_index_ok (fun idx => Ok (commit r idx)) db rev len rev (kept rev len r)) as (db' & E & H & _);
      [|done|].
    { intros idx Hi. eexists. split; [done|]. by apply commit_at. }
    rewrite E. eexists. split; [done|]. do 2 eexists. split_and!; [|exact Hmax|exact H].
    unfold kept. pose proof (filter_length_le (fun i => negb (rev - Z.of_nat i <=? r)) (seq 0 len)) as F.
    rewrite length_seq in F. lia.
  - destruct (db_undo_all_at rev len db Hdb) as (db' & -> & H). eexists. split; [done|].
    exists (rev - Z.of_nat len), 0%nat. split_and!; [lia|lia|done].
Qed.

Lemma db_step_in_step db db' : in_step db -> db_step db db' -> in_step db'.
Proof.
  intros (rev & len & Hlen & Hmax & Hdb) [op Hv Hrun].
  destruct op as [t op| | | |r| |t]; cbn [run_db_op] in Hrun.
  - destruct Hv as [Hup Hv]. exists rev, len. split_and!; [done|done|]. by eapply update_index_at.
  - cbn [db_start_undo_session] in Hrun. pose proof (start_each_at rev len db Hdb) as H.
    destruct (start_each db) as [[db1 l]|e]; [|done]. injection Hrun as <-.
    destruct H as (H & Ht & [Hlt|Hnil]); [exists (rev + 1), (S len); split_and!; [lia|lia|done]|].
    subst db. apply fmap_nil_inv in Ht as ->. exists 0, 0%nat. split_and!; [lia|lia|constructor].
  - destruct (stack_ops_at rev len db Db_undo) as (? & E & ?); [by auto..|]. cbn [run_db_op] in E. congruence.
  - destruct (stack_ops_at rev len db Db_squash) as (? & E & ?); [by auto..|]. cbn [run_db_op] in E. congruence.
  - destruct (stack_ops_at rev len db (Db_commit r)) as (? & E & ?); [by eauto..|]. cbn [run_db_op] in E. congruence.
  - destruct (stack_ops_at rev len db Db_undo_all) as (? & E & ?); [by auto..|]. cbn [run_db_op] in E. congruence.
  - by eapply add_index_at.
Qed.

(** The undo stacks of all indices of a database stay in step: whatever
    objects are created, modified and removed, indices added, and sessions
    started, undone, squashed and committed, all indices have the same
    revision and the same number of undo states, and undo, squash, commit and
    undo_all of the database return normally. *)
Theorem database_in_step db :
  rtc db_step [] db ->
  in_step db /\
  forall op, (op = Db_undo \/ op = Db_squash \/ (exists r, op = Db_commit r) \/ op = Db_undo_all) ->
    exists db', run_db_op op db = Some (Ok db').
Proof.
  intros H. assert (in_step db) as Hdb.
  { assert (in_step []) as H0 by (exists 0, 0%nat; split_and!; [lia|lia|constructor]).
    revert H0. induction H as [|db db1 db2 Hs _ IH]; [done|]. intros H0. by eapply IH, db_step_in_step. }
  split; [done|]. destruct Hdb as (rev & len & Hlen & Hmax & Hdb). intros op Hop.
  destruct (stack_ops_at rev len db op Hdb Hlen Hmax Hop) as (db' & E & _). eauto.
Qed.

End database.

(** ** Examples *)

Record row := mk_row { row_id : Z; row_key : Z; row_value : Z }.

Definition row_keys : list (row -> Z) := [row_key].

Definition add_row (k v : Z) : index_op (V := row) := Emplace (fun id => mk_row id k v).
Definition set_value (id v : Z) : index_op (V := row) :=
  Modify id (fun r => mk_row (row_id r) (row_key r) v).

Definition example_ops : list (index_op (V := row)) :=
  [add_row 10 1; add_row 20 2; Start; set_value 0 5; Start; Remove 0; add_row 10 7; Squash; Undo].

(** A second unique key that extends the first, as by_permission_name of the
    permission links extends by_action_name: [set_value] changes it. *)
Definition extended_keys : list (row -> list Z) :=
  [fun r => [row_key r]; fun r => [row_key r; row_value r]].

Lemma set_value_agrees v r :
  keys_agree row_id extended_keys (mk_row (row_id r) (row_key r) v) r.
Proof.
  apply (extending_key_agrees _ _ (fun r => [row_key r]) (fun r => [row_key r; row_value r])); [|done..].
  by intros x y [= -> _].
Qed.

Lemma index_refines_snapshots_witness :
  (exists idx, run_ops row_id extended_keys example_ops empty_index = Some (Ok idx) /\
    indices idx = {[0 := mk_row 0 10 1; 1 := mk_row 1 20 2]} /\ next_id idx = 2 /\ revision idx = 0).
Proof.
  assert (Forall (keeps_id row_id) example_ops) as Hk.
  { repeat (constructor; [|]); cbn; done. }
  assert (Forall (valid_op row_id extended_keys) example_ops) as Hv.
  { repeat (apply list.Forall_cons; split); try done. intros r. apply set_value_agrees. }
  destruct (index_refines_snapshots row_id extended_keys example_ops Hk) as [_ H]. specialize (H Hv).
  assert (spec_ops row_id extended_keys example_ops empty_history =
          Ok (mk_history [] 0 2 {[0 := mk_row 0 10 1; 1 := mk_row 1 20 2]})) as E
    by (vm_compute; reflexivity).
  rewrite E in H. exact H.
Defined.

Definition before : undo_state row := mk_undo_state {[1 := mk_row 1 20 2]} ∅ {[2]} 2 1.
Definition after : undo_state row := mk_undo_state ∅ {[1 := mk_row 1 20 9; 2 := mk_row 2 30 3]} {[3]} 3 2.

Lemma undo_state_ok_dec u :
  map_Forall (fun k v => row_id v = k /\ ~ (k ∈ new_ids u) /\ removed_values u !! k = None) (old_values u) ->
  map_Forall (fun k v => row_id v = k /\ ~ (k ∈ new_ids u) /\ old_values u !! k = None) (removed_values u) ->
  undo_state_ok row_id u.
Proof.
  intros Ho Hr k. split_and!.
  - intros Hk. split; apply eq_None_not_Some; intros [v Hv]; [apply Ho in Hv|apply Hr in Hv]; naive_solver.
  - intros [v Hv]. by apply Ho in Hv as (_ & _ & ?).
  - intros v [Hv|Hv]; [by apply Ho in Hv as [? _]|by apply Hr in Hv as [? _]].
Qed.

Lemma squash_follows_table_witness :
  exists q, squash_states row_id before after = Ok q /\ change_of q 1 = Del (mk_row 1 20 2) /\
    change_of q 2 = Nop /\ change_of q 3 = New.
Proof.
  destruct (squash_follows_table row_id before after) as (q & E & _ & _ & _ & Hc).
  - apply undo_state_ok_dec; apply (bool_decide_unpack _); vm_compute; exact I.
  - apply undo_state_ok_dec; apply (bool_decide_unpack _); vm_compute; exact I.
  - intros k. destruct (decide (k ∈ [1; 2; 3])) as [Hk|Hk].
    + repeat (apply elem_of_cons in Hk as [->|Hk]; [vm_compute; by eauto|]). by apply not_elem_of_nil in Hk.
    + assert (k <> 1 /\ k <> 2 /\ k <> 3) as (H1 & H2 & H3) by set_solver.
      unfold change_of, before, after. cbn [new_ids old_values removed_values].
      rewrite !bool_decide_eq_false_2 by set_solver.
      rewrite lookup_singleton_ne, !lookup_empty, lookup_insert_ne, lookup_singleton_ne by done. by eauto.
  - exists q. split; [done|].
    assert (merge_change (change_of before 1) (change_of after 1) = Some (Del (mk_row 1 20 2))) as C1 by by vm_compute.
    assert (merge_change (change_of before 2) (change_of after 2) = Some Nop) as C2 by by vm_compute.
    assert (merge_change (change_of before 3) (change_of after 3) = Some New) as C3 by by vm_compute.
    rewrite <- Hc in C1, C2, C3. injection C1 as ->. injection C2 as ->. by injection C3 as ->.
Defined.

Lemma database_in_step_witness :
  exists db, rtc (db_step row_id row_keys) [] db /\ length db = 2%nat /\ in_step row_id row_keys db.
Proof.
  eexists. assert (rtc (db_step row_id row_keys) []
    [(7, mk_generic_index [mk_undo_state ∅ ∅ ∅ 0 1] 1 0 ∅); (8, mk_generic_index [mk_undo_state ∅ ∅ ∅ 0 1] 1 0 ∅)])
    as H.
  { eapply rtc_l; [apply (db_step_op _ _ _ _ (Db_add 7)); [done|vm_compute; reflexivity]|].
    eapply rtc_l; [apply (db_step_op _ _ _ _ Db_start); [done|vm_compute; reflexivity]|].
    apply rtc_once, (db_step_op _ _ _ _ (Db_add 8)); [done|]. vm_compute. reflexivity. }
  split; [exact H|]. split; [done|]. by apply (database_in_step row_id row_keys) in H as [? _].
Defined.

(** The revision of a session does not survive the move into session_impl:
    the session of a database reports 0. *)
Example session_revision_lost :
  match db_start_undo_session true [(7, empty_index (V := row))] with
  | Ok (db, s) => db_revision db = 1 /\ db_session_revision s = 0
  | Err _ => False
  end.
Proof. by vm_compute. Qed.

(** Swapping the unique keys of two objects within a session cannot be
    undone: the restoring modification of the first object aborts. *)
Definition set_key (id k : Z) : index_op (V := row) :=
  Modify id (fun r => mk_row (row_id r) k (row_value r)).

Example swapped_keys_abort :
  run_ops row_id row_keys
    [add_row 10 1; add_row 20 2; Start; set_key 0 30; set_key 1 10; set_key 0 20; Undo] empty_index
  = Some (Err std_abort).
Proof. vm_compute. reflexivity. Qed.
