(* ===== verification/TransactionQueue.v ===== *)
(** * The queue of unapplied transactions

    Models unapplied_transaction_queue.hpp: the transactions the producer
    plugin applies again in the next block, of persisted transactions, of
    blocks that were forked out and of blocks that were aborted.

    The container is given by its elements in the order of each of its two
    ordered indices; the hashed index by transaction id finds an element of
    these.  fc::time_point::now() is an argument, the sequence of its readings
    during one call.

    The theorems: the queue refines three first-in first-out queues under any
    sequence of operations, and [clear_expired] removes exactly the expired
    transactions its deadline leaves it time for, earliest first. *)

From Stdlib Require Import Sorted.
From stdpp Require Import sorting.
From S2P Require Import Prelude Exceptions Merkle Timestamps.

Inductive trx_enum_type := unknown | persisted | forked | aborted.

#[export] Instance trx_enum_type_eq_dec : EqDecision trx_enum_type.
Proof. solve_decision. Defined.

Definition type_value (t : trx_enum_type) : Z :=
  match t with unknown => 0 | persisted => 1 | forked => 2 | aborted => 3 end.

(** What the queue reads of a transaction_metadata: [id()] and
    [packed_trx()->expiration()], in seconds. *)
Record transaction_metadata := mk_transaction_metadata {
  trx_id : sha256;
  expiration : Z
}.

#[export] Instance transaction_metadata_eq_dec : EqDecision transaction_metadata.
Proof. solve_decision. Defined.

Record unapplied_transaction := mk_unapplied_transaction {
  trx_meta : transaction_metadata;
  expiry : Z;
  trx_type : trx_enum_type
}.

#[export] Instance unapplied_transaction_eq_dec : EqDecision unapplied_transaction.
Proof. solve_decision. Defined.

Definition ut_id (u : unapplied_transaction) : sha256 := trx_id (trx_meta u).

Inductive process_mode := non_speculative | speculative_non_producer | speculative_producer.

#[export] Instance process_mode_eq_dec : EqDecision process_mode.
Proof. solve_decision. Defined.

(** The elements of the container in the order of the indices by_type and
    by_expiry. *)
Record unapplied_transaction_queue := mk_queue {
  by_type : list unapplied_transaction;
  by_expiry : list unapplied_transaction;
  mode : process_mode
}.

Definition new_queue : unapplied_transaction_queue := mk_queue [] [] speculative_producer.

(** ** The container *)

Definition type_key (u : unapplied_transaction) : Z := type_value (trx_type u).

(** Insertion into an ordered_non_unique index: after the elements with an
    equal key. *)
Fixpoint ordered_insert {A} (key : A -> Z) (x : A) (l : list A) : list A :=
  match l with
  | [] => [x]
  | y :: l' => if key x <? key y then x :: l else y :: ordered_insert key x l'
  end.

(** by_trx_id: [None] for [end()]. *)
Definition find_trx (id : sha256) (q : unapplied_transaction_queue) : option unapplied_transaction :=
  snd <$> list_find (fun u => ut_id u = id) (by_type q).

(** [insert] does nothing if the id is taken. *)
Definition queue_insert (u : unapplied_transaction) (q : unapplied_transaction_queue) : unapplied_transaction_queue :=
  match find_trx (ut_id u) q with
  | Some _ => q
  | None => mk_queue (ordered_insert type_key u (by_type q)) (ordered_insert expiry u (by_expiry q)) (mode q)
  end.

Definition erase_id (id : sha256) (q : unapplied_transaction_queue) : unapplied_transaction_queue :=
  mk_queue (filter (fun u => ut_id u <> id) (by_type q)) (filter (fun u => ut_id u <> id) (by_expiry q)) (mode q).

(** The index by_type after the element at position [i] was modified to
    [x]: it stays where it is if its neighbours allow that, and is inserted
    again otherwise. *)
Definition in_place {A} (key : A -> Z) (x : A) (l : list A) (i : nat) : bool :=
  match i with
  | O => true
  | S j => match l !! j with Some y => negb (key x <? key y) | None => true end
  end &&
  match l !! S i with Some y => negb (key y <? key x) | None => true end.

Definition reposition {A} (key : A -> Z) (x : A) (l : list A) (i : nat) : list A :=
  if in_place key x l i then <[i := x]> l else ordered_insert key x (delete i l).

Definition set_trx_type (t : trx_enum_type) (u : unapplied_transaction) : unapplied_transaction :=
  mk_unapplied_transaction (trx_meta u) (expiry u) t.

(** [modify] through by_trx_id with the assignment of [trx_type]. *)
Definition modify_type (id : sha256) (t : trx_enum_type) (q : unapplied_transaction_queue) : unapplied_transaction_queue :=
  match list_find (fun u => ut_id u = id) (by_type q) with
  | Some (i, u) =>
      mk_queue (reposition type_key (set_trx_type t u) (by_type q) i)
        ((fun v => if bool_decide (ut_id v = id) then set_trx_type t v else v) <$> by_expiry q) (mode q)
  | None => q
  end.

(** ** The operations *)

Definition queue_empty (q : unapplied_transaction_queue) : bool := bool_decide (by_type q = []).
Definition queue_size (q : unapplied_transaction_queue) : nat := length (by_type q).
Definition queue_clear (q : unapplied_transaction_queue) : unapplied_transaction_queue := mk_queue [] [] (mode q).

Definition set_mode (new_mode : process_mode) (q : unapplied_transaction_queue) : outcome unapplied_transaction_queue :=
  (if bool_decide (new_mode <> mode q) then ine_assert (queue_empty q) fc_assert_exception else Ok tt) ;;
  Ok (mk_queue (by_type q) (by_expiry q) new_mode).

Definition contains_persisted (q : unapplied_transaction_queue) : bool :=
  bool_decide (is_Some (list_find (fun u => trx_type u = persisted) (by_type q))).

Definition is_persisted (trx : transaction_metadata) (q : unapplied_transaction_queue) : bool :=
  match find_trx (trx_id trx) q with
  | None => false
  | Some u => bool_decide (trx_type u = persisted)
  end.

Definition get_trx (id : sha256) (q : unapplied_transaction_queue) : option transaction_metadata :=
  trx_meta <$> find_trx id q.

(** The loop of [clear_expired]; [calls] are the calls of the callback so far,
    [now n] is the clock the n-th time it is read.  [None] for a loop that did
    not end within its fuel. *)
Fixpoint clear_expired_loop (fuel : nat) (pending_block_time deadline : Z) (now : nat -> Z)
    (calls : list (sha256 * trx_enum_type)) (q : unapplied_transaction_queue)
    : option (bool * list (sha256 * trx_enum_type) * unapplied_transaction_queue) :=
  match by_expiry q with
  | [] => Some (true, calls, q)
  | u :: _ =>
      if expiry u <=? pending_block_time then
        match fuel with
        | O => None
        | S fuel' =>
            if deadline <=? now (length calls) then Some (false, calls, q)
            else clear_expired_loop fuel' pending_block_time deadline now
                   (calls ++ [(ut_id u, trx_type u)]) (erase_id (ut_id u) q)
        end
      else Some (true, calls, q)
  end.

Definition clear_expired (pending_block_time deadline : Z) (now : nat -> Z) (q : unapplied_transaction_queue)
    : option (bool * list (sha256 * trx_enum_type) * unapplied_transaction_queue) :=
  clear_expired_loop (length (by_expiry q)) pending_block_time deadline now [] q.

(** [trx] of a transaction_receipt: an id, or a packed transaction of which
    the queue reads the id. *)
Inductive receipt_trx :=
  | receipt_id (id : sha256)
  | receipt_packed (id : sha256).

Definition clear_receipt (q : unapplied_transaction_queue) (receipt : receipt_trx) : unapplied_transaction_queue :=
  match receipt with
  | receipt_id _ => q
  | receipt_packed id =>
      match find_trx id q with
      | None => q
      | Some u => if bool_decide (trx_type u <> persisted) then erase_id id q else q
      end
  end.

Definition clear_applied (transactions : list receipt_trx) (q : unapplied_transaction_queue) : unapplied_transaction_queue :=
  if queue_empty q then q else foldl clear_receipt q transactions.

Definition insert_trx (t : trx_enum_type) (q : unapplied_transaction_queue) (trx : transaction_metadata)
    : unapplied_transaction_queue :=
  queue_insert (mk_unapplied_transaction trx (time_point_of_sec (expiration trx)) t) q.

Definition not_producing (q : unapplied_transaction_queue) : bool :=
  bool_decide (mode q = non_speculative) || bool_decide (mode q = speculative_non_producer).

(** A branch is given by the [trxs_metas()] of its blocks. *)
Definition add_forked (forked_branch : list (list transaction_metadata)) (q : unapplied_transaction_queue)
    : unapplied_transaction_queue :=
  if not_producing q then q
  else foldl (fun q trxs_metas => foldl (insert_trx forked) q trxs_metas) q (reverse forked_branch).

Definition add_aborted (aborted_trxs : list transaction_metadata) (q : unapplied_transaction_queue)
    : unapplied_transaction_queue :=
  if not_producing q then q else foldl (insert_trx aborted) q aborted_trxs.

Definition add_persisted (trx : transaction_metadata) (q : unapplied_transaction_queue) : unapplied_transaction_queue :=
  if bool_decide (mode q = non_speculative) then q
  else match find_trx (trx_id trx) q with
       | None => insert_trx persisted q trx
       | Some u => if bool_decide (trx_type u <> persisted) then modify_type (trx_id trx) persisted q else q
       end.

(** The iterators of by_type are positions. *)
Definition queue_begin (q : unapplied_transaction_queue) : nat := 0.
Definition queue_end (q : unapplied_transaction_queue) : nat := length (by_type q).
Definition persisted_begin (q : unapplied_transaction_queue) : nat :=
  lower_index (fun u => type_key u <? type_value persisted) (by_type q).
Definition persisted_end (q : unapplied_transaction_queue) : nat :=
  upper_index (fun u => type_value persisted <? type_key u) (by_type q).

(** Erasing through an iterator leaves the next element at its position. *)
Definition erase (itr : nat) (q : unapplied_transaction_queue) : unapplied_transaction_queue :=
  match by_type q !! itr with
  | Some u => mk_queue (delete itr (by_type q)) (filter (fun v => ut_id v <> ut_id u) (by_expiry q)) (mode q)
  | None => q
  end.

(** ** Ordered indices *)

Lemma filter_filter_impl {A} (P Q : A -> Prop) `{!forall x, Decision (P x), !forall x, Decision (Q x)} (l : list A) :
  (forall x, P x -> Q x) -> filter P (filter Q l) = filter P l.
Proof. intros Hi. rewrite list_filter_filter. apply list_filter_iff. naive_solver. Qed.

Lemma filter_filter_disjoint {A} (P Q : A -> Prop) `{!forall x, Decision (P x), !forall x, Decision (Q x)} (l : list A) :
  (forall x, P x -> ~ Q x) -> filter P (filter Q l) = [].
Proof.
  intros Hd. apply list_filter_none, list.Forall_forall. intros x [Hx _]%list_elem_of_filter HP. by apply (Hd x).
Qed.

Section ordered.
Context {A : Type} (key : A -> Z).
Implicit Types l : list A.

Abbreviation ordered := (StronglySorted (fun x y : A => key x <= key y)).

Lemma ordered_insert_split x l :
  ordered l -> ordered_insert key x l = filter (fun y => key y <= key x) l ++ x :: filter (fun y => key x < key y) l.
Proof.
  induction 1 as [|y l Hl IH Hy]; [done|]. cbn [ordered_insert].
  destruct (Z.ltb_spec (key x) (key y)) as [Hlt|Hge].
  - rewrite (list_filter_none _ (y :: l)), (list_filter_all _ (y :: l)); [done| |].
    + constructor; [done|]. eapply list.Forall_impl; [exact Hy|]. simpl. lia.
    + constructor; [lia|]. eapply list.Forall_impl; [exact Hy|]. simpl. lia.
  - rewrite filter_cons_True by done. rewrite (filter_cons_False (fun y => key x < key y)) by lia.
    by rewrite IH.
Qed.

Lemma ordered_insert_Permutation x l : ordered_insert key x l ≡ₚ x :: l.
Proof.
  induction l as [|y l IH]; [done|]. simpl. destruct (key x <? key y); [done|].
  rewrite IH. apply Permutation_swap.
Qed.

Lemma ordered_insert_ordered x l : ordered l -> ordered (ordered_insert key x l).
Proof.
  induction 1 as [|y l Hl IH Hy]; [repeat constructor|]. cbn [ordered_insert].
  destruct (Z.ltb_spec (key x) (key y)).
  - constructor; [by constructor|]. constructor; [lia|]. eapply list.Forall_impl; [exact Hy|]. simpl. lia.
  - constructor; [done|]. rewrite ordered_insert_Permutation. by constructor.
Qed.

Lemma ordered_filter (P : A -> Prop) `{!forall x, Decision (P x)} l : ordered l -> ordered (filter P l).
Proof.
  induction 1 as [|y l Hl IH Hy]; [constructor|]. rewrite filter_cons. case_decide; [|done].
  constructor; [done|]. apply list.Forall_forall. intros z [_ Hz]%list_elem_of_filter.
  by apply (proj1 (list.Forall_forall _ l) Hy).
Qed.

(** An element whose key was lowered below that of its successors ends where
    it would be inserted. *)
Lemma reposition_insert x l i :
  ordered (delete i l) -> (i < length l)%nat ->
  (forall y, y ∈ drop (S i) l -> key x < key y) ->
  reposition key x l i = ordered_insert key x (delete i l).
Proof.
  intros Ho Hi Hafter. unfold reposition. destruct (in_place key x l i) eqn:E; [|done].
  rewrite ordered_insert_split by done. rewrite (delete_take_drop l i) in *.
  assert (Forall (fun y => key y <= key x) (take i l)) as Hbefore.
  { unfold in_place in E. apply andb_prop in E as [E _]. destruct i as [|j]; [by rewrite take_0|].
    destruct (lookup_lt_is_Some_2 l j) as [y Hy]; [lia|]. rewrite Hy in E. apply negb_true_iff, Z.ltb_ge in E.
    rewrite (take_S_r _ _ _ Hy) in Ho |- *. apply StronglySorted_app in Ho as (_ & Ho & _).
    apply StronglySorted_app in Ho as (Ho & _ & _).
    apply Forall_app. split; [|by constructor]. apply list.Forall_forall. intros z Hz. etrans; [|exact E].
    apply Ho; [done|by left]. }
  rewrite !list.filter_app, (list_filter_all _ (take i l)) by done.
  rewrite (list_filter_none _ (take i l)) by (eapply list.Forall_impl; [exact Hbefore|simpl; lia]).
  rewrite (list_filter_none _ (drop (S i) l)), (list_filter_all _ (drop (S i) l)).
  - rewrite app_nil_r. simpl. by rewrite insert_take_drop.
  - by apply list.Forall_forall.
  - apply list.Forall_forall. intros y Hy%Hafter. lia.
Qed.

End ordered.

(** ** The invariant *)

Record queue_inv (q : unapplied_transaction_queue) : Prop := {
  q_same : by_type q ≡ₚ by_expiry q;
  q_unique : NoDup (ut_id <$> by_type q);
  q_types : StronglySorted (fun u v => type_key u <= type_key v) (by_type q);
  q_expiries : StronglySorted (fun u v => expiry u <= expiry v) (by_expiry q);
  q_known : Forall (fun u => trx_type u <> unknown /\
                             expiry u = time_point_of_sec (expiration (trx_meta u))) (by_type q)
}.

Lemma new_queue_inv m : queue_inv (mk_queue [] [] m).
Proof. split; simpl; constructor. Qed.

Lemma find_trx_None id q : find_trx id q = None <-> ~ (id ∈ ut_id <$> by_type q).
Proof.
  unfold find_trx. rewrite fmap_None, list_find_None, list.Forall_forall, list_elem_of_fmap. naive_solver.
Qed.

Lemma find_trx_Some id q u : find_trx id q = Some u -> u ∈ by_type q /\ ut_id u = id.
Proof.
  unfold find_trx. intros ([i v] & Hf & ->)%fmap_Some. apply list_find_Some in Hf as (Hl & Hid & _).
  split; [by eapply list_elem_of_lookup_2|done].
Qed.

Lemma queue_insert_inv u q :
  trx_type u <> unknown -> expiry u = time_point_of_sec (expiration (trx_meta u)) ->
  queue_inv q -> queue_inv (queue_insert u q).
Proof.
  intros Ht He Hq. unfold queue_insert. destruct (find_trx (ut_id u) q) eqn:E; [done|].
  apply find_trx_None in E. destruct Hq. split; cbn.
  - by rewrite !ordered_insert_Permutation, q_same0.
  - rewrite ordered_insert_Permutation. by constructor.
  - by apply ordered_insert_ordered.
  - by apply ordered_insert_ordered.
  - rewrite ordered_insert_Permutation. by constructor.
Qed.

Lemma filter_inv (P : unapplied_transaction -> Prop) `{!forall u, Decision (P u)} q m :
  queue_inv q -> queue_inv (mk_queue (filter P (by_type q)) (filter P (by_expiry q)) m).
Proof.
  intros []. split; cbn.
  - by rewrite q_same0.
  - eapply sublist_NoDup; [exact q_unique0|]. apply fmap_sublist, sublist_filter.
  - by apply ordered_filter.
  - by apply ordered_filter.
  - apply list.Forall_forall. intros u [_ Hu]%list_elem_of_filter. by apply (proj1 (list.Forall_forall _ _) q_known0).
Qed.

Lemma erase_id_inv id q : queue_inv q -> queue_inv (erase_id id q).
Proof. apply filter_inv. Qed.

Lemma delete_filter (l : list unapplied_transaction) i u :
  NoDup (ut_id <$> l) -> l !! i = Some u -> delete i l = filter (fun v => ut_id v <> ut_id u) l.
Proof.
  intros Hnd Hi. rewrite (delete_take_drop l i). rewrite <- (take_drop_middle l i u Hi) in Hnd.
  rewrite <- (take_drop_middle l i u Hi) at 3.
  rewrite fmap_app, fmap_cons in Hnd. apply list.NoDup_app in Hnd as (_ & H1 & Hnd).
  apply list.NoDup_cons in Hnd as [H2 _].
  rewrite list.filter_app, filter_cons_False by naive_solver. rewrite !list_filter_all; [done| |].
  - apply list.Forall_forall. intros v Hv E. apply H2. rewrite <- E. by apply list_elem_of_fmap_2.
  - apply list.Forall_forall. intros v Hv E. apply (H1 (ut_id u)); [|by left]. rewrite <- E. by apply list_elem_of_fmap_2.
Qed.

Lemma modify_type_by_type id i u t q :
  queue_inv q -> list_find (fun v => ut_id v = id) (by_type q) = Some (i, u) ->
  type_value t < type_key u ->
  by_type (modify_type id t q) =
    ordered_insert type_key (set_trx_type t u) (filter (fun v => ut_id v <> id) (by_type q)).
Proof.
  intros [] Hf Ht. unfold modify_type. rewrite Hf. cbn [by_type].
  apply list_find_Some in Hf as (Hi & <- & _). rewrite reposition_insert.
  - by rewrite (delete_filter _ i u).
  - rewrite (delete_filter _ i u) by done. by apply ordered_filter.
  - by eapply lookup_lt_Some.
  - intros v [j Hv]%list_elem_of_lookup. rewrite lookup_drop in Hv.
    assert (type_key u <= type_key v) by (apply (StronglySorted_lookup _ _ i (S i + j) u v q_types0); [done|done|lia]).
    change (type_key (set_trx_type t u)) with (type_value t). lia.
Qed.

Lemma modify_type_inv id t q :
  queue_inv q -> t <> unknown -> (forall u, find_trx id q = Some u -> type_value t < type_key u) ->
  queue_inv (modify_type id t q).
Proof.
  intros Hq Hknown Hless. destruct (list_find (fun u => ut_id u = id) (by_type q)) as [[i u]|] eqn:Hf.
  2: { unfold modify_type. by rewrite Hf. }
  assert (type_value t < type_key u) as Hlt by (apply Hless; unfold find_trx; by rewrite Hf).
  pose proof (modify_type_by_type id i u t q Hq Hf Hlt) as Hb.
  assert (by_expiry (modify_type id t q) =
    (fun v => if bool_decide (ut_id v = id) then set_trx_type t v else v) <$> by_expiry q) as He
    by (unfold modify_type; by rewrite Hf).
  apply list_find_Some in Hf as (Hi & <- & _).
  assert (by_type q ≡ₚ u :: filter (fun v => ut_id v <> ut_id u) (by_type q)) as Hp.
  { rewrite <- (delete_filter _ i u) by (done || by apply q_unique). by apply delete_Permutation. }
  pose proof (erase_id_inv (ut_id u) q Hq) as [_ Hnd Hs _ Hk]. cbn in Hnd, Hs, Hk.
  destruct Hq as [Hsame Huniq _ Hexp Hkn]. split; rewrite ?Hb, ?He.
  - rewrite ordered_insert_Permutation, <- Hsame. rewrite Hp at 2. cbn. rewrite bool_decide_eq_true_2 by done.
    apply Permutation_skip. rewrite (list_fmap_ext _ id); [by rewrite list_fmap_id|].
    intros j v Hv. apply list_elem_of_lookup_2, list_elem_of_filter in Hv as [Hv _].
    by rewrite bool_decide_eq_false_2.
  - rewrite ordered_insert_Permutation. cbn. constructor; [|done].
    intros (v & E & [Hv _]%list_elem_of_filter)%list_elem_of_fmap. by apply Hv.
  - by apply ordered_insert_ordered.
  - clear -Hexp. induction Hexp as [|v l Hl IH Hv]; [constructor|]. constructor; [done|].
    apply Forall_fmap. eapply list.Forall_impl; [exact Hv|]. intros w. simpl. by repeat case_bool_decide.
  - rewrite ordered_insert_Permutation. constructor; [|done]. split; [done|].
    apply list_elem_of_lookup_2 in Hi. by destruct (proj1 (list.Forall_forall _ _) Hkn u Hi).
Qed.

(** ** The specification: three first-in first-out queues *)

Record fifos := mk_fifos {
  f_persisted : list transaction_metadata;
  f_forked : list transaction_metadata;
  f_aborted : list transaction_metadata;
  f_mode : process_mode
}.

Definition f_all (s : fifos) : list transaction_metadata := f_persisted s ++ f_forked s ++ f_aborted s.

(** A transaction whose id is queued already is not queued again. *)
Definition spec_push (t : trx_enum_type) (s : fifos) (trx : transaction_metadata) : fifos :=
  if decide (trx_id trx ∈ trx_id <$> f_all s) then s
  else match t with
       | unknown => s
       | persisted => mk_fifos (f_persisted s ++ [trx]) (f_forked s) (f_aborted s) (f_mode s)
       | forked => mk_fifos (f_persisted s) (f_forked s ++ [trx]) (f_aborted s) (f_mode s)
       | aborted => mk_fifos (f_persisted s) (f_forked s) (f_aborted s ++ [trx]) (f_mode s)
       end.

Definition spec_remove (ids : list sha256) (s : fifos) : fifos :=
  let keep := filter (fun m => ~ (trx_id m ∈ ids)) in
  mk_fifos (keep (f_persisted s)) (keep (f_forked s)) (keep (f_aborted s)) (f_mode s).

Definition spec_applied (ids : list sha256) (s : fifos) : fifos :=
  let keep := filter (fun m => ~ (trx_id m ∈ ids)) in
  mk_fifos (f_persisted s) (keep (f_forked s)) (keep (f_aborted s)) (f_mode s).

(** A transaction that is queued moves to the end of the persisted ones. *)
Definition spec_persist (trx : transaction_metadata) (s : fifos) : fifos :=
  if decide (trx_id trx ∈ trx_id <$> f_persisted s) then s
  else match list_find (fun m => trx_id m = trx_id trx) (f_forked s ++ f_aborted s) with
       | Some (_, m) =>
           let s' := spec_remove [trx_id trx] s in
           mk_fifos (f_persisted s' ++ [m]) (f_forked s') (f_aborted s') (f_mode s')
       | None => spec_push persisted s trx
       end.

(** ** Refinement *)

Definition fifo (t : trx_enum_type) (q : unapplied_transaction_queue) : list transaction_metadata :=
  trx_meta <$> filter (fun u => trx_type u = t) (by_type q).

Definition abs (q : unapplied_transaction_queue) : fifos :=
  mk_fifos (fifo persisted q) (fifo forked q) (fifo aborted q) (mode q).

Lemma filter_above (t : trx_enum_type) k l :
  Forall (fun u => k <= type_key u) l -> type_value t < k -> filter (fun u => trx_type u = t) l = [].
Proof.
  intros Hl Ht. apply list_filter_none. eapply list.Forall_impl; [exact Hl|].
  intros u Hu E. unfold type_key in Hu. rewrite E in Hu. lia.
Qed.

Lemma f_all_abs q : queue_inv q -> f_all (abs q) = trx_meta <$> by_type q.
Proof.
  intros [_ _ Hs _ Hk]. unfold f_all, abs, fifo. cbn. rewrite <- !fmap_app. f_equal.
  induction Hs as [|u l Hs IH Hu]; [done|]. apply list.Forall_cons in Hk as [[Hku _] Hk].
  specialize (IH Hk). rewrite !filter_cons. pose proof (fun t => filter_above t _ l Hu) as Habove.
  unfold type_key in Habove. destruct (trx_type u) eqn:E; try done; repeat (case_decide; try done).
  - exact (f_equal (cons u) IH).
  - rewrite (Habove persisted) in IH |- * by done. exact (f_equal (cons u) IH).
  - rewrite (Habove persisted), (Habove forked) in IH |- * by done. exact (f_equal (cons u) IH).
Qed.

Lemma ids_abs q : queue_inv q -> trx_id <$> f_all (abs q) = ut_id <$> by_type q.
Proof. intros Hq. by rewrite f_all_abs, <- list_fmap_compose. Qed.

Lemma filter_type_insert t u l :
  StronglySorted (fun u v => type_key u <= type_key v) l ->
  filter (fun v => trx_type v = t) (ordered_insert type_key u l) =
    filter (fun v => trx_type v = t) l ++ (if decide (trx_type u = t) then [u] else []).
Proof.
  intros Hs. rewrite ordered_insert_split by done. rewrite list.filter_app, filter_cons.
  assert (forall v, trx_type v = t -> type_key v = type_value t) as Hkey by (by intros v <-).
  destruct (decide (type_value t <= type_key u)) as [Hle|Hgt].
  - rewrite (filter_filter_impl (fun v => trx_type v = t) (fun v => type_key v <= type_key u))
      by (intros v Hv; rewrite (Hkey v Hv); done).
    rewrite (filter_filter_disjoint (fun v => trx_type v = t) (fun v => type_key u < type_key v))
      by (intros v Hv; rewrite (Hkey v Hv); lia).
    by case_decide.
  - rewrite (filter_filter_disjoint (fun v => trx_type v = t) (fun v => type_key v <= type_key u))
      by (intros v Hv; rewrite (Hkey v Hv); lia).
    rewrite (filter_filter_impl (fun v => trx_type v = t) (fun v => type_key u < type_key v))
      by (intros v Hv; rewrite (Hkey v Hv); lia).
    rewrite !decide_False by (intros Hu%Hkey; lia). by rewrite app_nil_r.
Qed.

Lemma abs_push t trx q : queue_inv q -> t <> unknown -> abs (insert_trx t q trx) = spec_push t (abs q) trx.
Proof.
  intros Hq Ht. unfold insert_trx, queue_insert, spec_push. rewrite ids_abs by done.
  change (ut_id _) with (trx_id trx). destruct (find_trx (trx_id trx) q) as [u|] eqn:E.
  - rewrite decide_True; [done|]. apply find_trx_Some in E as [Hu <-]. by apply list_elem_of_fmap_2.
  - apply find_trx_None in E. rewrite decide_False by done. unfold abs, fifo. cbn [by_type mode].
    rewrite !filter_type_insert by apply Hq. rewrite !fmap_app. cbn [trx_type].
    by destruct t; cbn; rewrite ?app_nil_r.
Qed.

Lemma insert_trx_inv t q trx : queue_inv q -> t <> unknown -> queue_inv (insert_trx t q trx).
Proof. intros. by apply queue_insert_inv. Qed.

Lemma filter_fmap_id (P : sha256 -> Prop) `{!forall x, Decision (P x)} (l : list unapplied_transaction) :
  filter (fun m => P (trx_id m)) (trx_meta <$> l) = trx_meta <$> filter (fun u => P (ut_id u)) l.
Proof. induction l as [|u l IH]; [done|]. rewrite fmap_cons, !filter_cons, IH. by repeat case_decide. Qed.

Lemma fifo_filter_id t (P : sha256 -> Prop) `{!forall x, Decision (P x)} (l : list unapplied_transaction) :
  trx_meta <$> filter (fun u => trx_type u = t) (filter (fun u => P (ut_id u)) l) =
  filter (fun m => P (trx_id m)) (trx_meta <$> filter (fun u => trx_type u = t) l).
Proof.
  rewrite filter_fmap_id. f_equal. rewrite !list_filter_filter. apply list_filter_iff. naive_solver.
Qed.

Lemma abs_erase id q : abs (erase_id id q) = spec_remove [id] (abs q).
Proof.
  unfold abs, fifo, spec_remove, erase_id. cbn [by_type mode f_persisted f_forked f_aborted f_mode].
  assert (forall l : list unapplied_transaction,
    filter (fun u => ut_id u <> id) l = filter (fun u => ~ (ut_id u ∈ [id])) l) as E.
  { intros l. apply list_filter_iff. intros u. by rewrite list_elem_of_singleton. }
  rewrite E. f_equal; [exact (fifo_filter_id persisted (fun x => ~ (x ∈ [id])) _)
    |exact (fifo_filter_id forked (fun x => ~ (x ∈ [id])) _)
    |exact (fifo_filter_id aborted (fun x => ~ (x ∈ [id])) _)].
Qed.

Lemma fifo_elem m t q : m ∈ fifo t q <-> exists u, u ∈ by_type q /\ trx_type u = t /\ m = trx_meta u.
Proof. unfold fifo. rewrite list_elem_of_fmap. setoid_rewrite list_elem_of_filter. naive_solver. Qed.

Lemma filter_fresh id (l : list transaction_metadata) :
  ~ (id ∈ trx_id <$> l) -> filter (fun m => ~ (trx_id m ∈ [id])) l = l.
Proof.
  intros Hid. apply list_filter_all, list.Forall_forall. intros m Hm E%list_elem_of_singleton.
  apply Hid. rewrite <- E. by apply list_elem_of_fmap_2.
Qed.

Lemma fifo_id_type u t q :
  queue_inv q -> u ∈ by_type q -> ut_id u ∈ trx_id <$> fifo t q <-> trx_type u = t.
Proof.
  intros Hq Hu. rewrite list_elem_of_fmap. split.
  - intros (m & E & (v & Hv & Ht & ->)%fifo_elem).
    by rewrite (NoDup_fmap_inj_on ut_id (by_type q) u v) by (done || apply Hq).
  - intros <-. exists (trx_meta u). split; [done|]. apply fifo_elem. eauto.
Qed.

Lemma fifo_id_None id t q : find_trx id q = None -> ~ (id ∈ trx_id <$> fifo t q).
Proof.
  rewrite find_trx_None. intros Hn (m & -> & (u & Hu & _ & ->)%fifo_elem)%list_elem_of_fmap.
  apply Hn. by apply (list_elem_of_fmap_2 ut_id).
Qed.

Definition packed_ids (receipts : list receipt_trx) : list sha256 :=
  omap (fun r => match r with receipt_packed id => Some id | receipt_id _ => None end) receipts.

Lemma clear_receipt_inv q r : queue_inv q -> queue_inv (clear_receipt q r).
Proof.
  intros Hq. destruct r as [|id]; [done|]. unfold clear_receipt. destruct (find_trx id q) as [u|]; [|done].
  case_bool_decide; [by apply erase_id_inv|done].
Qed.

Lemma abs_receipt q r : queue_inv q -> abs (clear_receipt q r) = spec_applied (packed_ids [r]) (abs q).
Proof.
  intros Hq. destruct r as [id|id]; unfold clear_receipt; cbn [packed_ids omap list_omap].
  - unfold spec_applied. rewrite !list_filter_all; [by destruct (abs q)|..];
      apply list.Forall_forall; intros m _; apply not_elem_of_nil.
  - destruct (find_trx id q) as [u|] eqn:E.
    + apply find_trx_Some in E as [Hu <-]. case_bool_decide as Ht.
      * rewrite abs_erase. unfold spec_remove, spec_applied. rewrite filter_fresh; [done|].
        cbn [abs f_persisted]. by rewrite fifo_id_type.
      * unfold spec_applied. rewrite !filter_fresh; [done|..];
          cbn [abs f_forked f_aborted]; rewrite fifo_id_type by done; congruence.
    + unfold spec_applied. rewrite !filter_fresh; [done|..]; by apply fifo_id_None.
Qed.

Lemma spec_applied_app ids1 ids2 s : spec_applied ids2 (spec_applied ids1 s) = spec_applied (ids1 ++ ids2) s.
Proof.
  unfold spec_applied. cbn [f_persisted f_forked f_aborted f_mode]. f_equal; rewrite list_filter_filter;
    apply list_filter_iff; intros m; rewrite elem_of_app; naive_solver.
Qed.

Lemma clear_applied_refines receipts q :
  queue_inv q ->
  queue_inv (clear_applied receipts q) /\ abs (clear_applied receipts q) = spec_applied (packed_ids receipts) (abs q).
Proof.
  intros Hq. assert (forall q, queue_inv q -> queue_inv (foldl clear_receipt q receipts) /\
    abs (foldl clear_receipt q receipts) = spec_applied (packed_ids receipts) (abs q)) as Hloop.
  { clear q Hq. induction receipts as [|r receipts IH]; intros q Hq.
    - split; [done|]. unfold spec_applied. rewrite !list_filter_all; [done|..];
        apply list.Forall_forall; intros m _; apply not_elem_of_nil.
    - cbn [foldl]. destruct (IH _ (clear_receipt_inv q r Hq)) as [Hi ->]. split; [done|].
      rewrite abs_receipt, spec_applied_app by done. f_equal. unfold packed_ids.
      by rewrite <- (omap_app _ [r] receipts). }
  unfold clear_applied. destruct (queue_empty q) eqn:E; [|by apply Hloop].
  unfold queue_empty in E. apply bool_decide_eq_true in E. split; [done|]. unfold abs, fifo. by rewrite E.
Qed.

Lemma push_all_refines t trxs q :
  queue_inv q -> t <> unknown ->
  queue_inv (foldl (insert_trx t) q trxs) /\ abs (foldl (insert_trx t) q trxs) = foldl (spec_push t) (abs q) trxs.
Proof.
  intros Hq Ht. revert q Hq. induction trxs as [|trx trxs IH]; intros q Hq; [done|]. cbn [foldl].
  rewrite <- abs_push by done. by apply IH, insert_trx_inv.
Qed.

Lemma type_key_known u q : queue_inv q -> u ∈ by_type q -> trx_type u <> persisted -> type_value persisted < type_key u.
Proof.
  intros Hq Hu Hp. destruct (proj1 (list.Forall_forall _ _) (q_known q Hq) u Hu) as [Hk _].
  unfold type_key. by destruct (trx_type u).
Qed.

Lemma abs_modify id u q :
  queue_inv q -> find_trx id q = Some u -> trx_type u <> persisted ->
  abs (modify_type id persisted q) =
    let s := spec_remove [id] (abs q) in
    mk_fifos (f_persisted s ++ [trx_meta u]) (f_forked s) (f_aborted s) (f_mode s).
Proof.
  intros Hq Hf Hp. assert (u ∈ by_type q) as Hu by (by eapply find_trx_Some).
  unfold find_trx in Hf. apply fmap_Some in Hf as ([i v] & Hf & ->). cbn [snd] in *.
  pose proof (modify_type_by_type id i v persisted q Hq Hf (type_key_known _ _ Hq Hu Hp)) as Hb.
  rewrite <- abs_erase. cbn zeta. unfold abs, fifo. rewrite Hb. cbn [f_persisted f_forked f_aborted f_mode].
  rewrite !filter_type_insert by (apply (q_types _ (erase_id_inv id q Hq))).
  rewrite decide_True, !decide_False by done. rewrite !app_nil_r, fmap_app.
  f_equal. unfold modify_type. by rewrite Hf.
Qed.

Lemma add_persisted_refines trx q :
  queue_inv q -> mode q <> non_speculative ->
  queue_inv (add_persisted trx q) /\ abs (add_persisted trx q) = spec_persist trx (abs q).
Proof.
  intros Hq Hm. unfold add_persisted, spec_persist. rewrite bool_decide_eq_false_2 by done.
  destruct (find_trx (trx_id trx) q) as [u|] eqn:E.
  - destruct (find_trx_Some _ _ _ E) as [Hu Hid]. case_bool_decide as Hp.
    + split.
      { apply modify_type_inv; [done|done|]. intros v. rewrite E. intros [= <-]. by apply (type_key_known u q). }
      rewrite (abs_modify _ u) by done. rewrite decide_False.
      2: { rewrite <- Hid. cbn [abs f_persisted]. by rewrite fifo_id_type. }
      destruct (list_find _ (f_forked (abs q) ++ f_aborted (abs q))) as [[j m]|] eqn:Ej.
      * apply list_find_Some in Ej as (Hm' & Hmid & _). apply list_elem_of_lookup_2 in Hm'.
        assert (exists v, v ∈ by_type q /\ m = trx_meta v) as (v & Hv & ->).
        { apply elem_of_app in Hm' as [(v & ? & _ & ?)%fifo_elem|(v & ? & _ & ?)%fifo_elem]; eauto. }
        rewrite (NoDup_fmap_inj_on ut_id (by_type q) u v); [done|apply Hq|done|done|]. by rewrite Hid.
      * exfalso. apply list_find_None in Ej. apply Forall_app in Ej as [H1 H2].
        destruct (proj1 (list.Forall_forall _ _) (q_known q Hq) u Hu) as [Hk _].
        assert (trx_type u = forked \/ trx_type u = aborted) as Ht by (by destruct (trx_type u); auto).
        destruct Ht as [Ht|Ht]; [apply (proj1 (list.Forall_forall _ _) H1 (trx_meta u))
          |apply (proj1 (list.Forall_forall _ _) H2 (trx_meta u))]; try exact Hid; apply fifo_elem; eauto.
    + split; [done|]. rewrite decide_True; [done|]. rewrite <- Hid. cbn [abs f_persisted]. by rewrite fifo_id_type.
  - split; [by apply insert_trx_inv|]. rewrite abs_push by done. rewrite decide_False by (by apply (fifo_id_None _ persisted)).
    destruct (list_find _ _) as [[j m]|] eqn:Ej; [|done]. exfalso.
    apply list_find_Some in Ej as (Hm' & Hmid & _). apply list_elem_of_lookup_2, elem_of_app in Hm' as [H|H];
      apply (list_elem_of_fmap_2 trx_id) in H; rewrite Hmid in H; exact (fifo_id_None _ _ q E H).
Qed.

Lemma erase_refines itr q :
  queue_inv q ->
  queue_inv (erase itr q) /\
  abs (erase itr q) =
    match f_all (abs q) !! itr with Some m => spec_remove [trx_id m] (abs q) | None => abs q end.
Proof.
  intros Hq. unfold erase. rewrite f_all_abs, list_lookup_fmap by done.
  destruct (by_type q !! itr) as [u|] eqn:E; [|done]. cbn [fmap option_fmap option_map].
  rewrite (delete_filter _ itr u) by (done || apply Hq). change (mk_queue _ _ _) with (erase_id (ut_id u) q).
  split; [by apply erase_id_inv|]. by rewrite abs_erase.
Qed.

(** ** Expiry *)

Definition expired (pending_block_time : Z) (q : unapplied_transaction_queue) : list unapplied_transaction :=
  filter (fun u => expiry u <= pending_block_time) (by_expiry q).

Definition without (us : list unapplied_transaction) (l : list unapplied_transaction) : list unapplied_transaction :=
  filter (fun u => ~ (ut_id u ∈ ut_id <$> us)) l.

Lemma without_nil l : without [] l = l.
Proof. apply list_filter_all, list.Forall_forall. intros u _. apply not_elem_of_nil. Qed.

Lemma without_cons u us l : without us (filter (fun v => ut_id v <> ut_id u) l) = without (u :: us) l.
Proof.
  unfold without. rewrite list_filter_filter. apply list_filter_iff. intros v. cbn.
  rewrite elem_of_cons. naive_solver.
Qed.

(** The first [n] of the elements of by_expiry are gone. *)
Definition expire (n : nat) (q : unapplied_transaction_queue) : unapplied_transaction_queue :=
  mk_queue (without (take n (by_expiry q)) (by_type q)) (drop n (by_expiry q)) (mode q).

Lemma expiry_unique q : queue_inv q -> NoDup (ut_id <$> by_expiry q).
Proof. intros [Hp Hn _ _ _]. by rewrite <- Hp. Qed.

Lemma erase_first u l q : queue_inv q -> by_expiry q = u :: l -> erase_id (ut_id u) q = expire 1 q.
Proof.
  intros Hq E. unfold erase_id, expire. rewrite E. change (take 1 (u :: l)) with [u]. change (drop 1 (u :: l)) with l.
  rewrite <- (without_cons u [] (by_type q)), without_nil. f_equal.
  pose proof (expiry_unique q Hq) as Hu. rewrite E in Hu. by rewrite <- (delete_filter (u :: l) 0 u).
Qed.

Lemma expire_expire n q : queue_inv q -> expire n (expire 1 q) = expire (S n) q.
Proof.
  intros Hq. destruct (by_expiry q) as [|u l] eqn:E; unfold expire; cbn [by_type by_expiry mode]; rewrite E.
  - by rewrite !drop_nil, !take_nil, !without_nil.
  - change (take 1 (u :: l)) with [u]. change (drop 1 (u :: l)) with l. cbn. f_equal. by rewrite <- (without_cons u [] (by_type q)), without_nil, without_cons.
Qed.

Lemma expire_inv n q : queue_inv q -> queue_inv (expire n q).
Proof.
  revert q. induction n as [|n IH]; intros q Hq.
  - unfold expire. rewrite take_0, without_nil, drop_0. by destruct q.
  - rewrite <- expire_expire by done. apply IH. destruct (by_expiry q) as [|u l] eqn:E.
    + unfold expire. rewrite E, without_nil. cbn. rewrite <- E. by destruct q.
    + rewrite <- (erase_first u l) by done. by apply erase_id_inv.
Qed.

Lemma clear_expired_loop_spec fuel pending deadline now calls q :
  queue_inv q -> (length (by_expiry q) <= fuel)%nat ->
  exists n,
    (n <= length (expired pending q))%nat /\
    clear_expired_loop fuel pending deadline now calls q =
      Some (bool_decide (n = length (expired pending q)),
            calls ++ ((fun u => (ut_id u, trx_type u)) <$> take n (expired pending q)), expire n q) /\
    (forall k, (k < n)%nat -> now (length calls + k)%nat < deadline) /\
    ((n < length (expired pending q))%nat -> deadline <= now (length calls + n)%nat).
Proof.
  revert calls q. induction fuel as [|fuel IH]; intros calls q Hq Hf; destruct (by_expiry q) as [|u l] eqn:E;
    cbn in Hf; try lia; cbn [clear_expired_loop]; rewrite E.
  1,2: exists 0%nat; unfold expired, expire; rewrite E; cbn; rewrite without_nil, app_nil_r;
    split_and!; [done|by destruct q; rewrite <- E|lia|lia].
  assert (expire 0 q = q) as H0 by (unfold expire; rewrite take_0, without_nil, drop_0; by destruct q).
  destruct (Z.leb_spec (expiry u) pending) as [Hle|Hgt].
  - assert (expired pending q = u :: expired pending (expire 1 q)) as Hex.
    { unfold expired, expire. rewrite E. cbn [by_expiry skipn]. by rewrite filter_cons_True. }
    destruct (Z.leb_spec deadline (now (length calls))) as [Hd|Hd].
    + exists 0%nat. rewrite Hex, H0. cbn. rewrite app_nil_r, Nat.add_0_r. split_and!; [lia|done|lia|done].
    + rewrite (erase_first u l) by done.
      destruct (IH (calls ++ [(ut_id u, trx_type u)]) (expire 1 q)) as (n & Hn & Hl & Hlo & Hhi).
      { by apply expire_inv. }
      { cbn [expire by_expiry]. rewrite E. change (drop 1 (u :: l)) with l. lia. }
      exists (S n). rewrite Hl, Hex, expire_expire by done. rewrite length_app in Hlo, Hhi. cbn [length] in *.
      split_and!; [lia| | |].
      * rewrite <- app_assoc. cbn. do 3 f_equal. apply bool_decide_ext. lia.
      * intros [|k] Hk; [by rewrite Nat.add_0_r|]. specialize (Hlo k). rewrite <- Nat.add_assoc in Hlo. apply Hlo. lia.
      * rewrite <- Nat.add_assoc in Hhi. intros Hlt. apply Hhi. lia.
  - exists 0%nat. assert (expired pending q = []) as Hex.
    { unfold expired. rewrite E. apply list_filter_none. pose proof (q_expiries q Hq) as Hs. rewrite E in Hs.
      apply StronglySorted_inv in Hs as [_ Hs]. constructor; [lia|].
      eapply list.Forall_impl; [exact Hs|]. simpl. lia. }
    rewrite Hex, H0. cbn. rewrite app_nil_r. split_and!; [done|done|lia|lia].
Qed.

(** ** Sequences of operations *)

Inductive queue_op :=
  | Op_set_mode (new_mode : process_mode)
  | Op_clear
  | Op_clear_expired (pending_block_time deadline : Z) (now : nat -> Z)
  | Op_clear_applied (transactions : list receipt_trx)
  | Op_add_forked (forked_branch : list (list transaction_metadata))
  | Op_add_aborted (aborted_trxs : list transaction_metadata)
  | Op_add_persisted (trx : transaction_metadata)
  | Op_erase (itr : nat).

Inductive response :=
  | Done
  | Refused (e : exn)
  | Cleared (finished : bool) (calls : list (sha256 * trx_enum_type))
  | Not_ended.

Definition run_queue_op (q : unapplied_transaction_queue) (op : queue_op) : unapplied_transaction_queue * response :=
  match op with
  | Op_set_mode m => match set_mode m q with Ok q' => (q', Done) | Err e => (q, Refused e) end
  | Op_clear => (queue_clear q, Done)
  | Op_clear_expired pending deadline now =>
      match clear_expired pending deadline now q with
      | Some (b, calls, q') => (q', Cleared b calls)
      | None => (q, Not_ended)
      end
  | Op_clear_applied rs => (clear_applied rs q, Done)
  | Op_add_forked branch => (add_forked branch q, Done)
  | Op_add_aborted trxs => (add_aborted trxs q, Done)
  | Op_add_persisted trx => (add_persisted trx q, Done)
  | Op_erase itr => (erase itr q, Done)
  end.

Definition expires (m : transaction_metadata) : Z := time_point_of_sec (expiration m).

(** What an operation may do to the three queues. *)
Inductive spec_step (s : fifos) : queue_op -> response -> fifos -> Prop :=
  | spec_set_mode m :
      m = f_mode s \/ f_all s = [] ->
      spec_step s (Op_set_mode m) Done (mk_fifos (f_persisted s) (f_forked s) (f_aborted s) m)
  | spec_refuse_mode m :
      m <> f_mode s -> f_all s <> [] -> spec_step s (Op_set_mode m) (Refused fc_assert_exception) s
  | spec_clear : spec_step s Op_clear Done (mk_fifos [] [] [] (f_mode s))
  | spec_clear_expired pending deadline now b calls :
      (forall id t, (id, t) ∈ calls -> exists m, m ∈ f_all s /\ trx_id m = id /\ expires m <= pending) ->
      (b = true -> Forall (fun m => pending < expires m) (f_all (spec_remove calls.*1 s))) ->
      (b = false -> exists k, deadline <= now k) ->
      spec_step s (Op_clear_expired pending deadline now) (Cleared b calls) (spec_remove calls.*1 s)
  | spec_clear_applied rs : spec_step s (Op_clear_applied rs) Done (spec_applied (packed_ids rs) s)
  | spec_add_forked branch :
      spec_step s (Op_add_forked branch) Done
        (if bool_decide (f_mode s = speculative_producer)
         then foldl (spec_push forked) s (concat (reverse branch)) else s)
  | spec_add_aborted trxs :
      spec_step s (Op_add_aborted trxs) Done
        (if bool_decide (f_mode s = speculative_producer) then foldl (spec_push aborted) s trxs else s)
  | spec_add_persisted trx :
      spec_step s (Op_add_persisted trx) Done
        (if bool_decide (f_mode s = non_speculative) then s else spec_persist trx s)
  | spec_erase itr :
      spec_step s (Op_erase itr) Done
        match f_all s !! itr with Some m => spec_remove [trx_id m] s | None => s end.

Lemma not_producing_mode q : not_producing q = negb (bool_decide (mode q = speculative_producer)).
Proof. unfold not_producing. by destruct (mode q). Qed.

Lemma foldl_concat {A B} (f : A -> B -> A) (ls : list (list B)) a :
  foldl (fun a l => foldl f a l) a ls = foldl f a (concat ls).
Proof. revert a. induction ls as [|l ls IH]; intros a; [done|]. cbn. by rewrite IH, foldl_app. Qed.

Lemma expired_prefix pending n q :
  queue_inv q -> (n <= length (expired pending q))%nat ->
  take n (expired pending q) = take n (by_expiry q).
Proof.
  intros Hq. unfold expired. generalize (q_expiries q Hq). generalize (by_expiry q). clear Hq.
  intros l Hs. revert n. induction Hs as [|u l Hs IH Hu]; intros n Hn; [done|].
  destruct n as [|n]; [done|]. rewrite filter_cons in Hn |- *. case_decide as He.
  - cbn in Hn |- *. by rewrite IH by lia.
  - exfalso. rewrite list_filter_none in Hn; [cbn in Hn; lia|].
    eapply list.Forall_impl; [exact Hu|]. simpl. lia.
Qed.

Lemma abs_without us q m :
  abs (mk_queue (without us (by_type q)) m (mode q)) = spec_remove (ut_id <$> us) (abs q).
Proof.
  unfold abs, fifo, spec_remove, without. cbn [by_type mode f_persisted f_forked f_aborted f_mode]. f_equal;
    [exact (fifo_filter_id persisted (fun x => ~ (x ∈ ut_id <$> us)) _)
    |exact (fifo_filter_id forked (fun x => ~ (x ∈ ut_id <$> us)) _)
    |exact (fifo_filter_id aborted (fun x => ~ (x ∈ ut_id <$> us)) _)].
Qed.

Lemma abs_expire n q : abs (expire n q) = spec_remove (ut_id <$> take n (by_expiry q)) (abs q).
Proof. apply abs_without. Qed.

Lemma expires_expiry q u : queue_inv q -> u ∈ by_type q -> expires (trx_meta u) = expiry u.
Proof. intros Hq Hu. by destruct (proj1 (list.Forall_forall _ _) (q_known q Hq) u Hu). Qed.

Lemma elem_of_expired pending u q :
  queue_inv q -> u ∈ expired pending q <-> u ∈ by_type q /\ expiry u <= pending.
Proof. intros Hq. unfold expired. rewrite list_elem_of_filter, (q_same q Hq). tauto. Qed.

Lemma clear_expired_refines pending deadline now q :
  queue_inv q ->
  exists b calls n, clear_expired pending deadline now q = Some (b, calls, expire n q) /\
    spec_step (abs q) (Op_clear_expired pending deadline now) (Cleared b calls) (abs (expire n q)).
Proof.
  intros Hq. destruct (clear_expired_loop_spec (length (by_expiry q)) pending deadline now [] q Hq) as
    (n & Hn & Hl & _ & Hhi); [done|].
  unfold clear_expired. rewrite Hl. do 3 eexists. split; [done|]. cbn [app].
  set (calls := _ <$> take n (expired pending q)).
  assert (calls.*1 = ut_id <$> take n (by_expiry q)) as Hc.
  { unfold calls. by rewrite <- list_fmap_compose, <- (expired_prefix pending) by done. }
  rewrite abs_expire, <- Hc. constructor.
  - intros id t (u & [= -> ->] & Hu)%list_elem_of_fmap.
    apply (subseteq_take n), elem_of_expired in Hu as [Hu He]; [|done].
    exists (trx_meta u). rewrite f_all_abs, (expires_expiry q) by done.
    split; [by apply list_elem_of_fmap_2|done].
  - intros Hb%bool_decide_eq_true. rewrite Hc, <- abs_expire, f_all_abs by (by apply expire_inv).
    apply Forall_fmap, list.Forall_forall. intros u Hu. unfold compose.
    apply list_elem_of_filter in Hu as [Hnot Hu]. rewrite (expires_expiry q) by done.
    destruct (decide (expiry u <= pending)) as [He|]; [|lia]. exfalso. apply Hnot.
    rewrite <- (expired_prefix pending n q) by done. rewrite Hb, firstn_all.
    by apply list_elem_of_fmap_2, elem_of_expired.
  - intros Hb%bool_decide_eq_false. exists n. apply Hhi. lia.
Qed.

Lemma f_all_nil q : queue_inv q -> f_all (abs q) = [] <-> by_type q = [].
Proof. intros Hq. rewrite f_all_abs by done. by destruct (by_type q). Qed.

Lemma run_queue_op_refines q op :
  queue_inv q ->
  queue_inv (run_queue_op q op).1 /\
  spec_step (abs q) op (run_queue_op q op).2 (abs (run_queue_op q op).1).
Proof.
  intros Hq. destruct op as [m| |pending deadline now|rs|branch|trxs|trx|itr]; cbn [run_queue_op].
  - unfold set_mode, queue_empty. case_bool_decide as Hm.
    + case_bool_decide as He; cbn.
      * split; [by destruct Hq|]. apply spec_set_mode. right. by apply f_all_nil.
      * split; [done|]. apply spec_refuse_mode; [done|by rewrite f_all_nil].
    + cbn. split; [by destruct Hq|]. apply spec_set_mode. by left.
  - split; [apply new_queue_inv|]. apply spec_clear.
  - destruct (clear_expired_refines pending deadline now q Hq) as (b & calls & n & -> & Hs).
    split; [by apply expire_inv|done].
  - destruct (clear_applied_refines rs q Hq) as [Hi E]. split; [done|]. cbn [fst snd]. rewrite E. constructor.
  - unfold add_forked. rewrite not_producing_mode. pose proof (spec_add_forked (abs q) branch) as Hs.
    destruct (bool_decide _); cbn [negb fst snd abs f_mode] in *; [|done].
    rewrite foldl_concat. destruct (push_all_refines forked (concat (reverse branch)) q Hq) as [Hi E]; [done|].
    by rewrite E.
  - unfold add_aborted. rewrite not_producing_mode. pose proof (spec_add_aborted (abs q) trxs) as Hs.
    destruct (bool_decide _); cbn [negb fst snd abs f_mode] in *; [|done].
    destruct (push_all_refines aborted trxs q Hq) as [Hi E]; [done|]. by rewrite E.
  - pose proof (spec_add_persisted (abs q) trx) as Hs. cbn [abs f_mode] in Hs. case_bool_decide as Hm.
    + unfold add_persisted. by rewrite bool_decide_eq_true_2.
    + destruct (add_persisted_refines trx q Hq Hm) as [Hi E]. split; [done|]. cbn [fst snd]. by rewrite E.
  - destruct (erase_refines itr q Hq) as [Hi E]. split; [done|]. cbn [fst snd]. rewrite E. constructor.
Qed.

Lemma run_queue_inv ops : queue_inv (foldl (fun q op => (run_queue_op q op).1) new_queue ops).
Proof.
  induction ops as [|o ops IH] using rev_ind; [apply new_queue_inv|].
  rewrite foldl_snoc. by apply run_queue_op_refines.
Qed.

(** ** What the queue answers *)

Lemma persisted_range q :
  queue_inv q -> persisted_begin q = 0%nat /\ persisted_end q = length (f_persisted (abs q)).
Proof.
  intros Hq. pose proof (f_all_abs q Hq) as Hall. pose proof (q_types q Hq) as Hs.
  split.
  - unfold persisted_begin. assert (boundary (fun u => type_key u <? type_value persisted) (by_type q)
      (lower_index (fun u => type_key u <? type_value persisted) (by_type q))) as [Hle Hb].
    { apply lower_index_boundary, (partitioned_sorted type_key (fun k => k <? type_value persisted)); [done|].
      intros x y ?. rewrite !Z.ltb_lt. lia. }
    destruct (lower_index _ _) as [|n] eqn:E; [done|]. exfalso.
    destruct (lookup_lt_is_Some_2 (by_type q) 0) as [u Hu]; [lia|]. specialize (Hb 0%nat u Hu).
    rewrite bool_decide_eq_true_2 in Hb by lia. apply Z.ltb_lt in Hb. apply list_elem_of_lookup_2 in Hu.
    destruct (proj1 (list.Forall_forall _ _) (q_known q Hq) u Hu) as [Hk _]. unfold type_key in Hb.
    by destruct (trx_type u).
  - unfold persisted_end. set (n := upper_index _ _).
    assert (boundary (fun u => negb (type_value persisted <? type_key u)) (by_type q) n) as [Hle Hb].
    { apply upper_index_boundary, (partitioned_sorted type_key (fun k => negb (type_value persisted <? k))); [done|].
      intros x y ?. rewrite !negb_true_iff, !Z.ltb_ge. lia. }
    cbn [abs f_persisted]. unfold fifo. rewrite length_fmap.
    rewrite <- (take_drop n (by_type q)), list.filter_app, list_filter_all, list_filter_none, app_nil_r.
    + by rewrite length_take_le.
    + apply list.Forall_forall. intros u [i Hu]%list_elem_of_lookup. rewrite lookup_drop in Hu.
      specialize (Hb _ u Hu). rewrite bool_decide_eq_false_2 in Hb by lia.
      apply negb_false_iff, Z.ltb_lt in Hb. intros E. unfold type_key in Hb. rewrite E in Hb. lia.
    + apply list.Forall_forall. intros u [i Hu]%list_elem_of_lookup. apply lookup_take_Some in Hu as [Hu Hi].
      specialize (Hb _ u Hu). rewrite bool_decide_eq_true_2 in Hb by lia.
      apply negb_true_iff, Z.ltb_ge in Hb. destruct (decide (trx_type u = persisted)) as [|Hne]; [done|].
      apply (type_key_known u q) in Hne; [lia|done|by eapply list_elem_of_lookup_2].
Qed.

Lemma is_persisted_spec trx q :
  queue_inv q -> is_persisted trx q = bool_decide (trx_id trx ∈ trx_id <$> f_persisted (abs q)).
Proof.
  intros Hq. unfold is_persisted. cbn [abs f_persisted]. destruct (find_trx (trx_id trx) q) as [u|] eqn:E.
  - apply find_trx_Some in E as [Hu <-]. apply bool_decide_ext. by rewrite fifo_id_type.
  - rewrite bool_decide_eq_false_2; [done|]. by apply fifo_id_None.
Qed.

Lemma contains_persisted_spec q : contains_persisted q = bool_decide (f_persisted (abs q) <> []).
Proof.
  unfold contains_persisted. apply bool_decide_ext. cbn [abs f_persisted]. split.
  - intros [[i u] (Hi & Ht & _)%list_find_Some] E. apply list_elem_of_lookup_2 in Hi.
    assert (trx_meta u ∈ fifo persisted q) as Hin by (apply fifo_elem; eauto). rewrite E in Hin.
    by apply not_elem_of_nil in Hin.
  - intros Hne. destruct (fifo persisted q) as [|m l] eqn:E; [done|].
    assert (m ∈ fifo persisted q) as (u & Hu & Ht & _)%fifo_elem by (rewrite E; left).
    by apply (list_find_elem_of (fun u => trx_type u = persisted) _ u).
Qed.

Lemma get_trx_spec id q :
  queue_inv q -> get_trx id q = snd <$> list_find (fun m => trx_id m = id) (f_all (abs q)).
Proof.
  intros Hq. unfold get_trx, find_trx. rewrite f_all_abs by done. clear Hq.
  rewrite list_find_fmap, <- !option_fmap_compose. by destruct (list_find _ _) as [[]|].
Qed.

(** C36: The queue refines three first-in first-out queues, of persisted, forked
    and aborted transactions.  Every sequence of operations has the responses
    and the effect the specification allows; the iteration over the queue
    meets the persisted transactions, then the forked ones, then the aborted
    ones, each in the order they were added; the range of the persisted ones
    and the queries are those of the specification. *)
Theorem queue_refines_fifos ops op :
  let q := foldl (fun q op => (run_queue_op q op).1) new_queue ops in
  let s := abs q in
  spec_step s op (run_queue_op q op).2 (abs (run_queue_op q op).1) /\
  trx_meta <$> by_type q = f_persisted s ++ f_forked s ++ f_aborted s /\
  persisted_begin q = 0%nat /\ persisted_end q = length (f_persisted s) /\
  contains_persisted q = bool_decide (f_persisted s <> []) /\
  (forall trx, is_persisted trx q = bool_decide (trx_id trx ∈ trx_id <$> f_persisted s)) /\
  (forall id, get_trx id q = snd <$> list_find (fun m => trx_id m = id) (f_all s)).
Proof.
  pose proof (run_queue_inv ops) as Hq.
  cbn zeta. destruct (persisted_range _ Hq). split_and!; [by apply run_queue_op_refines| |done|done|..].
  - by rewrite <- f_all_abs.
  - apply contains_persisted_spec.
  - intros trx. by apply is_persisted_spec.
  - intros id. by apply get_trx_spec.
Qed.

(** [clear_expired] ends, and removes the [n] transactions that expire first,
    reporting each; [n] is all that expired by the time of the pending block,
    in which case it returns true, or the number of clock readings before the
    first one at or after the deadline, in which case it returns false. *)
Theorem clear_expired_exact ops pending deadline now :
  let q := foldl (fun q op => (run_queue_op q op).1) new_queue ops in
  let expired := filter (fun u => expiry u <= pending) (by_expiry q) in
  exists n,
    clear_expired pending deadline now q =
      Some (bool_decide (n = length expired), (fun u => (ut_id u, trx_type u)) <$> take n expired,
            mk_queue (filter (fun u => ~ (ut_id u ∈ ut_id <$> take n expired)) (by_type q))
              (drop n (by_expiry q)) (mode q)) /\
    (n <= length expired)%nat /\
    (forall k, (k < n)%nat -> now k < deadline) /\
    ((n < length expired)%nat -> deadline <= now n).
Proof.
  pose proof (run_queue_inv ops) as Hq.
  cbn zeta. set (q := foldl _ _ _) in *.
  destruct (clear_expired_loop_spec (length (by_expiry q)) pending deadline now [] q Hq) as
    (n & Hn & Hl & Hlo & Hhi); [done|].
  exists n. change (filter _ (by_expiry q)) with (expired pending q). unfold clear_expired. rewrite Hl. split_and!.
  - unfold expire, without. by rewrite <- (expired_prefix pending) by done.
  - done.
  - exact Hlo.
  - exact Hhi.
Qed.

(** A transaction that was aborted twice and then persisted. *)
Example queue_example :
  let h n := mk_sha256 n 0 0 0 in
  let a := mk_transaction_metadata (h 1) 10 in
  let b := mk_transaction_metadata (h 2) 5 in
  let c := mk_transaction_metadata (h 3) 20 in
  let q := foldl (fun q op => (run_queue_op q op).1) new_queue
    [Op_add_aborted [a; b; a]; Op_add_forked [[c]]; Op_add_persisted a; Op_clear_applied [receipt_packed (h 1)]] in
  abs q = mk_fifos [a] [c] [b] speculative_producer /\
  clear_expired 10000000 7 (fun _ => 0) q =
    Some (true, [(h 2, aborted); (h 1, persisted)],
      mk_queue [mk_unapplied_transaction c 20000000 forked] [mk_unapplied_transaction c 20000000 forked] speculative_producer).
Proof. by vm_compute. Qed.
