(* ===== verification/Authority.v ===== *)
(** * Public keys, permission levels and authorities

    Models the comparison of fc::crypto::public_key (public_key.cpp,
    common.hpp, elliptic_webauthn.hpp), permission_level (action.hpp), the
    authority structure and [validate] (authority.hpp).

    The comparison of keys and of permission levels is shown to be a strict
    total order, and [validate] to accept exactly the authorities whose
    three lists are strictly increasing and whose exact total weight reaches
    a non-zero threshold. *)

From Stdlib Require Import Sorted.
From stdpp Require Import countable.
From S2P Require Import Prelude Exceptions.

(** ** Public keys *)

(** [memcmp( a, b ) < 0] on arrays of one size, and [operator<] of strings:
    the bytes are compared as unsigned. *)
Fixpoint bytes_lt (a b : list Z) : bool :=
  match a, b with
  | _, [] => false
  | [], _ :: _ => true
  | x :: a', y :: b' => (x <? y) || ((x =? y) && bytes_lt a' b')
  end.

(** The storage variant: the two shims and webauthn::public_key. *)
Inductive public_key :=
  | K1 (data : list Z)
  | R1 (data : list Z)
  | WA (public_key_data : list Z) (user_verification_type : Z) (rpid : list Z).

#[export] Instance public_key_eq_dec : EqDecision public_key.
Proof. solve_decision. Defined.

Definition which (k : public_key) : Z :=
  match k with K1 _ => 0 | R1 _ => 1 | WA _ _ _ => 2 end.

(** [std::tie( ... ) < std::tie( ... )] of the three members. *)
Definition webauthn_lt (d1 : list Z) (u1 : Z) (r1 : list Z) (d2 : list Z) (u2 : Z) (r2 : list Z) :
  bool :=
  bytes_lt d1 d2 ||
  (negb (bytes_lt d2 d1) && ((u1 <? u2) || (negb (u2 <? u1) && bytes_lt r1 r2))).

Definition public_key_lt (p1 p2 : public_key) : bool :=
  (which p1 <? which p2) ||
  match p1, p2 with
  | K1 a, K1 b => bytes_lt a b
  | R1 a, R1 b => bytes_lt a b
  | WA d1 u1 r1, WA d2 u2 r2 => webauthn_lt d1 u1 r1 d2 u2 r2
  | _, _ => false
  end.

Definition public_key_eqb (p1 p2 : public_key) : bool := bool_decide (p1 = p2).

(** ** Permission levels *)

Record permission_level := mk_permission_level { actor : Z; permission : Z }.

#[export] Instance permission_level_eq_dec : EqDecision permission_level.
Proof. solve_decision. Defined.
#[export] Instance permission_level_countable : Countable permission_level.
Proof.
  by apply (inj_countable' (fun l => (actor l, permission l))
              (fun p => mk_permission_level p.1 p.2)); intros [].
Defined.

Definition permission_level_lt (lhs rhs : permission_level) : bool :=
  (actor lhs <? actor rhs) ||
  (negb (actor rhs <? actor lhs) && (permission lhs <? permission rhs)).

(** [>=] of tuples is the negation of [<]. *)
Definition permission_level_ge (lhs rhs : permission_level) : bool :=
  negb (permission_level_lt lhs rhs).

(** ** Authorities *)

Record permission_level_weight := mk_permission_level_weight {
  plw_permission : permission_level; plw_weight : Z }.
Record key_weight := mk_key_weight { kw_key : public_key; kw_weight : Z }.
Record wait_weight := mk_wait_weight { ww_wait_sec : Z; ww_weight : Z }.

Record authority := mk_authority {
  threshold : Z;
  keys : list key_weight;
  accounts : list permission_level_weight;
  waits : list wait_weight
}.

#[export] Instance permission_level_weight_eq_dec : EqDecision permission_level_weight.
Proof. solve_decision. Defined.
#[export] Instance key_weight_eq_dec : EqDecision key_weight.
Proof. solve_decision. Defined.
#[export] Instance wait_weight_eq_dec : EqDecision wait_weight.
Proof. solve_decision. Defined.
#[export] Instance authority_eq_dec : EqDecision authority.
Proof. solve_decision. Defined.

(** The two one-factor constructors. *)
Definition authority_of_key (k : public_key) (delay_sec : Z) : authority :=
  if delay_sec >? 0
  then mk_authority 2 [mk_key_weight k 1] [] [mk_wait_weight delay_sec 1]
  else mk_authority 1 [mk_key_weight k 1] [] [].

Definition authority_of_permission (p : permission_level) (delay_sec : Z) : authority :=
  if delay_sec >? 0
  then mk_authority 2 [] [mk_permission_level_weight p 1] [mk_wait_weight delay_sec 1]
  else mk_authority 1 [] [mk_permission_level_weight p 1] [].

(** The three loops of [validate]; [None] is the early [return false]. *)
Fixpoint validate_keys (prev : option key_weight) (l : list key_weight) (total_weight : Z) :
  option Z :=
  match l with
  | [] => Some total_weight
  | k :: l' =>
      if match prev with
         | Some p => negb (public_key_lt (kw_key p) (kw_key k))
         | None => false
         end
      then None
      else validate_keys (Some k) l' (u32 (total_weight + kw_weight k))
  end.

Fixpoint validate_accounts (prev : option permission_level_weight)
    (l : list permission_level_weight) (total_weight : Z) : option Z :=
  match l with
  | [] => Some total_weight
  | a :: l' =>
      if match prev with
         | Some p => permission_level_ge (plw_permission p) (plw_permission a)
         | None => false
         end
      then None
      else validate_accounts (Some a) l' (u32 (total_weight + plw_weight a))
  end.

Fixpoint validate_waits (prev : option wait_weight) (l : list wait_weight) (total_weight : Z) :
  option Z :=
  match l with
  | [] => Some total_weight
  | w :: l' =>
      if match prev with
         | Some p => ww_wait_sec p >=? ww_wait_sec w
         | None => false
         end
      then None
      else validate_waits (Some w) l' (u32 (total_weight + ww_weight w))
  end.

Definition validate (auth : authority) : bool :=
  if Z.of_nat (length (keys auth) + length (accounts auth) + length (waits auth)) >? Z.shiftl 1 16
  then false else
  if threshold auth =? 0 then false else
  match validate_keys None (keys auth) 0 with
  | None => false
  | Some total_weight =>
  match validate_accounts None (accounts auth) total_weight with
  | None => false
  | Some total_weight =>
      if match waits auth with w :: _ => ww_wait_sec w =? 0 | [] => false end
      then false else
      match validate_waits None (waits auth) total_weight with
      | None => false
      | Some total_weight => total_weight >=? threshold auth
      end
  end end.

(** ** The comparisons are strict total orders *)

#[export] Instance bytes_lt_strict : StrictTotal bytes_lt.
Proof.
  split.
  - intros x. induction x as [|a x IH]; simpl; [done|].
    by rewrite Z.ltb_irrefl, Z.eqb_refl, IH.
  - intros x. induction x as [|a x IH]; intros [|b y] [|c z]; simpl; try done.
    rewrite !orb_true_iff, !andb_true_iff, !Z.ltb_lt, !Z.eqb_eq.
    intros [?|[? ?]] [?|[? ?]]; [lia..|]. right. split; [lia|eauto].
  - intros x. induction x as [|a x IH]; intros [|b y]; simpl; auto.
    rewrite !orb_true_iff, !andb_true_iff, !Z.ltb_lt, !Z.eqb_eq.
    destruct (Z.lt_trichotomy a b) as [|[->|]]; [auto| |auto].
    destruct (IH y) as [|[->|]]; auto.
Qed.

Lemma webauthn_lt_tie d1 u1 r1 d2 u2 r2 :
  webauthn_lt d1 u1 r1 d2 u2 r2 =
  tie_lt bytes_lt (tie_lt Z.ltb bytes_lt) (d1, (u1, r1)) (d2, (u2, r2)).
Proof. done. Qed.

#[export] Instance public_key_lt_strict : StrictTotal public_key_lt.
Proof.
  apply (strict_total_inj
    (fun k => (which k, match k with
                        | K1 d | R1 d => (d, (0, []))
                        | WA d u r => (d, (u, r))
                        end))
    (tie_lt Z.ltb (tie_lt bytes_lt (tie_lt Z.ltb bytes_lt)))); [| |apply _].
  - intros [] []; simpl; congruence.
  - intros [] []; unfold public_key_lt, tie_lt; simpl; try done;
      by rewrite ?andb_false_r, ?orb_false_r.
Qed.

#[export] Instance permission_level_lt_strict : StrictTotal permission_level_lt.
Proof.
  apply (strict_total_inj (fun l => (actor l, permission l)) (tie_lt Z.ltb Z.ltb));
    [|done|apply _]. intros [] []. simpl. congruence.
Qed.

(** ** [validate] *)

(** The common shape of the three loops. *)
Fixpoint scan {A} (lt : A -> A -> bool) (weight : A -> Z) (prev : option A) (l : list A)
    (total : Z) : option Z :=
  match l with
  | [] => Some total
  | x :: l' =>
      if match prev with Some p => negb (lt p x) | None => false end then None
      else scan lt weight (Some x) l' (u32 (total + weight x))
  end.

Definition key_order (a b : key_weight) : bool := public_key_lt (kw_key a) (kw_key b).
Definition account_order (a b : permission_level_weight) : bool :=
  permission_level_lt (plw_permission a) (plw_permission b).
Definition wait_order (a b : wait_weight) : bool := ww_wait_sec a <? ww_wait_sec b.

Lemma validate_keys_scan prev l t :
  validate_keys prev l t = scan key_order kw_weight prev l t.
Proof. revert prev t. induction l as [|k l IH]; intros prev t; simpl; [done|]. by rewrite IH. Qed.

Lemma validate_accounts_scan prev l t :
  validate_accounts prev l t = scan account_order plw_weight prev l t.
Proof. revert prev t. induction l as [|k l IH]; intros prev t; simpl; [done|]. by rewrite IH. Qed.

Lemma validate_waits_scan prev l t :
  validate_waits prev l t = scan wait_order ww_weight prev l t.
Proof.
  revert prev t. induction l as [|k l IH]; intros prev t; simpl; [done|]. rewrite IH.
  destruct prev as [p|]; [|done]. unfold wait_order. by rewrite Z.geb_leb, Z.leb_antisym.
Qed.

(** Exact integer sum of the weights. *)
Definition sum_weights {A} (weight : A -> Z) (l : list A) : Z := foldr (fun x s => weight x + s) 0 l.

Definition ordered {A} (lt : A -> A -> bool) (l : list A) : Prop :=
  StronglySorted (fun x y => lt x y = true) l.

Lemma sum_weights_bound {A} (weight : A -> Z) l :
  Forall (fun x => is_uint 16 (weight x)) l ->
  0 <= sum_weights weight l <= 65535 * Z.of_nat (length l).
Proof.
  unfold is_uint. induction 1 as [|x l Hx _ IH]; simpl; [lia|]. lia.
Qed.

Lemma scan_sorted {A} (lt : A -> A -> bool) (weight : A -> Z) prev l t v :
  Forall (fun x => is_uint 16 (weight x)) l -> 0 <= t -> t + sum_weights weight l < 2 ^ 32 ->
  scan lt weight prev l t = Some v <->
  match prev with Some p => HdRel (fun x y => lt x y = true) p l | None => True end /\
  Sorted (fun x y => lt x y = true) l /\ v = t + sum_weights weight l.
Proof.
  intros Hw. revert prev t. induction Hw as [|x l Hx Hw IH]; intros prev t Ht Hb; simpl in *.
  { rewrite Z.add_0_r. split.
    - intros [= ->]. by destruct prev.
    - by intros (_ & _ & ->). }
  pose proof (sum_weights_bound weight l Hw). unfold is_uint in Hx.
  rewrite wrap_id by (unfold is_uint; lia).
  destruct prev as [p|]; [destruct (lt p x) eqn:E; simpl|].
  - rewrite IH by lia. split.
    + intros (Hhd & Hs & ->). split_and!; [by constructor|by constructor|lia].
    + intros (_ & [Hs Hhd]%Sorted_inv & ->). split_and!; [done|done|lia].
  - split; [done|]. intros (Hhd & _). apply HdRel_inv in Hhd. congruence.
  - rewrite IH by lia. split.
    + intros (Hhd & Hs & ->). split_and!; [done|by constructor|lia].
    + intros (_ & [Hs Hhd]%Sorted_inv & ->). split_and!; [done|done|lia].
Qed.

(** A loop started without predecessor accepts the strictly increasing lists. *)
Lemma scan_spec {A} (lt : A -> A -> bool) (weight : A -> Z) l t v :
  (forall x y z, lt x y = true -> lt y z = true -> lt x z = true) ->
  Forall (fun x => is_uint 16 (weight x)) l -> 0 <= t -> t + sum_weights weight l < 2 ^ 32 ->
  scan lt weight None l t = Some v <-> ordered lt l /\ v = t + sum_weights weight l.
Proof.
  intros Htr Hw Ht Hb. rewrite scan_sorted by done. unfold ordered. split.
  - intros (_ & Hs & ->). split; [|done]. apply Sorted_StronglySorted; [|done].
    intros x y z. apply Htr.
  - intros [Hs ->]. auto using StronglySorted_Sorted.
Qed.

Lemma key_order_trans a b c : key_order a b = true -> key_order b c = true -> key_order a c = true.
Proof. apply (lt_trans (lt := public_key_lt)). Qed.

Lemma account_order_trans a b c :
  account_order a b = true -> account_order b c = true -> account_order a c = true.
Proof. apply (lt_trans (lt := permission_level_lt)). Qed.

Lemma wait_order_trans a b c :
  wait_order a b = true -> wait_order b c = true -> wait_order a c = true.
Proof. apply (lt_trans (lt := Z.ltb)). Qed.

(** The machine types of the members. *)
Definition authority_typed (auth : authority) : Prop :=
  is_uint 32 (threshold auth) /\
  Forall (fun k => is_uint 16 (kw_weight k)) (keys auth) /\
  Forall (fun a => is_uint 16 (plw_weight a)) (accounts auth) /\
  Forall (fun w => is_uint 16 (ww_weight w) /\ is_uint 32 (ww_wait_sec w)) (waits auth).

Definition total_weight_of (auth : authority) : Z :=
  sum_weights kw_weight (keys auth) + sum_weights plw_weight (accounts auth)
  + sum_weights ww_weight (waits auth).

(** What [validate] promises. *)
Record valid_authority (auth : authority) : Prop := {
  va_size : Z.of_nat (length (keys auth) + length (accounts auth) + length (waits auth)) <= 65536;
  va_threshold : threshold auth <> 0;
  va_keys : ordered key_order (keys auth);
  va_accounts : ordered account_order (accounts auth);
  va_waits : ordered wait_order (waits auth);
  va_waits_pos : Forall (fun w => 0 < ww_wait_sec w) (waits auth);
  va_weight : threshold auth <= total_weight_of auth
}.

(** In an increasing list of waits only the first can be zero. *)
Lemma waits_positive l :
  ordered wait_order l -> Forall (fun w => is_uint 32 (ww_wait_sec w)) l ->
  match l with w :: _ => ww_wait_sec w =? 0 | [] => false end = false <->
  Forall (fun w => 0 < ww_wait_sec w) l.
Proof.
  destruct l as [|w l]; intros Hs Ht; [done|]. inversion Ht as [|? ? Hw _]; subst.
  unfold is_uint in Hw. apply StronglySorted_inv in Hs as [_ Hs]. rewrite Z.eqb_neq. split.
  - intros H. constructor; [lia|]. eapply Forall_impl; [|exact Hs].
    intros w' Hw'. unfold wait_order in Hw'. bool_to_prop. lia.
  - intros H. apply Forall_inv in H. lia.
Qed.

Lemma wait_types auth :
  Forall (fun w => is_uint 16 (ww_weight w) /\ is_uint 32 (ww_wait_sec w)) (waits auth) ->
  Forall (fun w => is_uint 16 (ww_weight w)) (waits auth) /\
  Forall (fun w => is_uint 32 (ww_wait_sec w)) (waits auth).
Proof. intros H. split; eapply Forall_impl; [|exact H| |exact H]; by intros ? [? ?]. Qed.

(** [validate] accepts exactly the well-formed authorities: at most 2^16
    factors, a non-zero threshold, keys, permission levels and waits each
    strictly increasing (so without duplicates), no zero wait, and an exact
    total weight that reaches the threshold.  The uint32_t sum of the uint16_t
    weights does not wrap. *)
Theorem validate_correct auth :
  authority_typed auth -> validate auth = true <-> valid_authority auth.
Proof.
  intros (_ & Hk & Ha & [Hw Hs]%wait_types). unfold validate.
  change (Z.shiftl 1 16) with 65536.
  destruct (Z.gtb_spec (Z.of_nat (length (keys auth) + length (accounts auth) + length (waits auth)))
              65536) as [Hlen|Hlen].
  { split; [done|]. intros []. lia. }
  pose proof (sum_weights_bound _ _ Hk). pose proof (sum_weights_bound _ _ Ha).
  pose proof (sum_weights_bound _ _ Hw).
  rewrite validate_keys_scan. destruct (Z.eqb_spec (threshold auth) 0) as [Hth|Hth].
  { split; [done|]. by intros []. }
  pose proof (fun v => scan_spec key_order kw_weight (keys auth) 0 v key_order_trans Hk
                ltac:(lia) ltac:(lia)) as Sk.
  destruct (scan key_order _ _ _ _) as [t1|].
  2: { split; [done|]. intros [_ _ Hko _ _ _ _].
       discriminate (proj2 (Sk _) (conj Hko eq_refl)). }
  destruct (proj1 (Sk t1) eq_refl) as [Hko ->]. rewrite validate_accounts_scan.
  pose proof (fun v => scan_spec account_order plw_weight (accounts auth)
                (0 + sum_weights kw_weight (keys auth)) v account_order_trans Ha
                ltac:(lia) ltac:(lia)) as Sa.
  destruct (scan account_order _ _ _ _) as [t2|].
  2: { split; [done|]. intros [_ _ _ Hao _ _ _].
       discriminate (proj2 (Sa _) (conj Hao eq_refl)). }
  destruct (proj1 (Sa t2) eq_refl) as [Hao ->]. rewrite validate_waits_scan.
  pose proof (fun v => scan_spec wait_order ww_weight (waits auth)
                (0 + sum_weights kw_weight (keys auth) + sum_weights plw_weight (accounts auth))
                v wait_order_trans Hw ltac:(lia) ltac:(lia)) as Sw.
  pose proof (fun Ho => waits_positive (waits auth) Ho Hs) as Hpos.
  destruct (match waits auth with w :: _ => _ | [] => false end).
  { split; [done|]. intros [_ _ _ _ Hwo Hwp _]. by apply (Hpos Hwo) in Hwp. }
  destruct (scan wait_order _ _ _ _) as [t3|].
  2: { split; [done|]. intros [_ _ _ _ Hwo _ _].
       discriminate (proj2 (Sw _) (conj Hwo eq_refl)). }
  destruct (proj1 (Sw t3) eq_refl) as [Hwo ->]. rewrite Z.geb_leb, Z.leb_le.
  split; [|by intros [_ _ _ _ _ _ Hwt]; unfold total_weight_of in Hwt].
  intros Ht. split; try done. by apply Hpos.
Qed.

Lemma validate_correct_witness :
  validate (mk_authority 3 [mk_key_weight (K1 [1]) 2; mk_key_weight (K1 [2]) 1] []
              [mk_wait_weight 10 1]) = true <->
  valid_authority (mk_authority 3 [mk_key_weight (K1 [1]) 2; mk_key_weight (K1 [2]) 1] []
              [mk_wait_weight 10 1]).
Proof. apply validate_correct. repeat constructor; vm_compute; done. Defined.

(** The comparisons that order authorities and key sets are strict total
    orders: irreflexive, transitive, and two keys or permission levels
    neither of which is less are equal. *)
Theorem comparisons_strict_total :
  StrictTotal public_key_lt /\ StrictTotal permission_level_lt /\ StrictTotal bytes_lt.
Proof. split_and!; apply _. Qed.

(** The authorities built by the one-factor constructors pass [validate]
    for every delay. *)
Theorem constructed_authorities_valid k p delay_sec :
  is_uint 32 delay_sec ->
  validate (authority_of_key k delay_sec) = true /\
  validate (authority_of_permission p delay_sec) = true.
Proof.
  unfold is_uint, authority_of_key, authority_of_permission. intros H.
  destruct (Z.gtb_spec delay_sec 0); [|done]. unfold validate. simpl.
  destruct (Z.eqb_spec delay_sec 0); [lia|done].
Qed.

Lemma constructed_authorities_valid_witness :
  validate (authority_of_key (R1 [7]) 30) = true.
Proof. apply (constructed_authorities_valid (R1 [7]) (mk_permission_level 0 0) 30). done. Defined.
