(* ===== verification/AuthorityChecker.v ===== *)
(** * The authority checker

    Models authority_checker.hpp: the class authority_checker with its
    weight_tally_visitor, and filter_data_by_marker of parallel_markers.hpp.

    The mutable state of a check is the vector [_used_keys] and the cache of
    permissions, which the code shares by reference between all levels of
    the recursion.  The members that do not change are section variables;
    [permission_to_authority] may throw.  The order in which the factors of
    an authority are tried is that of a boost::container::flat_multimap,
    which is the class [FactorOrder] with its documented law.  The depth of
    the recursion is bounded by [recursion_depth_limit]: the recursion below
    runs on the number of levels that are left, limit - depth.

    The theorems show that an answer of yes is justified by the provided
    keys, permissions and delay, that a no or an exception leaves the used
    keys alone, that the answer is exact when the permissions can be ranked
    below the depth limit, and that on cyclic hierarchies it can be a no
    although the keys suffice. *)

From Stdlib Require Import Sorted.
From stdpp Require Import sorting.
From S2P Require Import Prelude Exceptions Authority Timestamps.

Inductive permission_cache_status :=
  | being_evaluated
  | permission_unsatisfied
  | permission_satisfied.

#[export] Instance permission_cache_status_eq_dec : EqDecision permission_cache_status.
Proof. solve_decision. Defined.

Abbreviation permission_cache_type := (gmap permission_level permission_cache_status).

(** What changes during a check. *)
Record checker_state := mk_checker_state {
  _used_keys : list bool;
  cached_permissions : permission_cache_type
}.

Definition checked_m : Type -> Type := stateful exn checker_state.

(** A factor of an authority with the key it has in the multimap. *)
Inductive factor :=
  | account_factor (a : permission_level_weight)
  | key_factor (k : key_weight)
  | wait_factor (w : wait_weight).

Definition factor_weight (f : factor) : Z :=
  match f with
  | account_factor a => plw_weight a
  | key_factor k => kw_weight k
  | wait_factor w => ww_weight w
  end.

Definition factor_priority (f : factor) : Z :=
  match f with account_factor _ => 1 | key_factor _ => 2 | wait_factor _ => 3 end.

(** [std::greater<>] on (weight, priority), or equal. *)
Definition factor_before (f g : factor) : Prop :=
  factor_weight g < factor_weight f \/
  (factor_weight f = factor_weight g /\ factor_priority g <= factor_priority f).

(** The elements of a flat_multimap in iteration order, given in the order in
    which they were emplaced. *)
Class FactorOrder := multimap_elements : list factor -> list factor.

Class FactorOrderLaws `(!FactorOrder) : Prop := {
  multimap_permutation l : multimap_elements l ≡ₚ l;
  multimap_sorted l : Sorted factor_before (multimap_elements l)
}.

(** [emplace] of a map leaves an existing element alone. *)
Definition cache_emplace (c : permission_cache_type) (p : permission_level)
    (v : permission_cache_status) : permission_cache_type :=
  match c !! p with
  | None => <[p := v]> c
  | Some _ => c
  end.

Definition initialize_permission_cache (provided_permissions : list permission_level) :
  permission_cache_type :=
  foldl (fun c p => cache_emplace c p permission_satisfied) ∅ provided_permissions.

Definition permission_status_in_cache (permissions : permission_cache_type)
    (level : permission_level) : option permission_cache_status :=
  match permissions !! level with
  | Some s => Some s
  | None => permissions !! mk_permission_level (actor level) 0
  end.

(** [boost::find( provided_keys, key )] as an index. *)
Fixpoint find_key (l : list public_key) (k : public_key) : option nat :=
  match l with
  | [] => None
  | x :: l' => if public_key_eqb x k then Some O else S <$> find_key l' k
  end.

(** Is the exception caught by a handler for permission_query_exception? *)
Definition is_permission_query_exception (e : exn) : bool :=
  match e with
  | Throw t => derives_from t permission_query_exception
  | _ => false
  end.

Section checker.
Context `{FO : FactorOrder}.
Context (permission_to_authority : permission_level -> outcome authority).
Context (provided_keys : list public_key).
Context (provided_permissions : list permission_level).
Context (provided_delay : Z).

(** *** The visitor, for each kind of factor: the new total weight *)

Definition visit_wait (w : wait_weight) (total_weight : Z) : checked_m Z :=
  st_ret (if provided_delay >=? seconds (ww_wait_sec w)
          then u32 (total_weight + ww_weight w) else total_weight).

Definition visit_key (k : key_weight) (total_weight : Z) : checked_m Z :=
  fun s =>
  match find_key provided_keys (kw_key k) with
  | Some i => (mk_checker_state (<[i := true]> (_used_keys s)) (cached_permissions s),
               Ok (u32 (total_weight + kw_weight k)))
  | None => (s, Ok total_weight)
  end.

Definition set_cached (p : permission_level) (v : permission_cache_status) : checked_m unit :=
  fun s => (mk_checker_state (_used_keys s) (<[p := v]> (cached_permissions s)), Ok tt).

Definition emplace_cached (p : permission_level) (v : permission_cache_status) : checked_m unit :=
  fun s => (mk_checker_state (_used_keys s) (cache_emplace (cached_permissions s) p v), Ok tt).

(** [rec] is [satisfied] one level deeper, absent at the depth limit. *)
Definition visit_permission (rec : option (authority -> checked_m bool))
    (a : permission_level_weight) (total_weight : Z) : checked_m Z :=
  s ← st_get;
  match permission_status_in_cache (cached_permissions s) (plw_permission a) with
  | None =>
      match rec with
      | None => st_ret total_weight
      | Some satisfied_deeper =>
          match permission_to_authority (plw_permission a) with
          | Err e => if is_permission_query_exception e then st_ret total_weight else st_throw e
          | Ok auth =>
              emplace_cached (plw_permission a) being_evaluated ;;
              r ← satisfied_deeper auth;
              if r : bool
              then set_cached (plw_permission a) permission_satisfied ;;
                   st_ret (u32 (total_weight + plw_weight a))
              else set_cached (plw_permission a) permission_unsatisfied ;;
                   st_ret total_weight
          end
      end
  | Some permission_satisfied => st_ret (u32 (total_weight + plw_weight a))
  | Some _ => st_ret total_weight
  end.

Definition visit (rec : option (authority -> checked_m bool)) (f : factor) (total_weight : Z) :
  checked_m Z :=
  match f with
  | account_factor a => visit_permission rec a total_weight
  | key_factor k => visit_key k total_weight
  | wait_factor w => visit_wait w total_weight
  end.

(** The for loop over the permissions. *)
Fixpoint check_factors (rec : option (authority -> checked_m bool)) (threshold : Z)
    (fs : list factor) (total_weight : Z) : checked_m bool :=
  match fs with
  | [] => st_ret false
  | f :: fs' =>
      total_weight ← visit rec f total_weight;
      if total_weight >=? threshold then st_ret true
      else check_factors rec threshold fs' total_weight
  end.

(** The scoped exit [KeyReverter]: unless the answer is yes, the used keys
    are put back, also when an exception passes. *)
Definition with_key_reverter (body : checked_m bool) : checked_m bool :=
  fun s =>
  match body s with
  | (s', Ok true) => (s', Ok true)
  | (s', r) => (mk_checker_state (_used_keys s) (cached_permissions s'), r)
  end.

Definition factors (auth : authority) : list factor :=
  multimap_elements
    (map account_factor (accounts auth) ++ map key_factor (keys auth)
     ++ map wait_factor (waits auth)).

(** [satisfied( authority, cached_permissions, depth )] with [left] =
    recursion_depth_limit - depth. *)
Fixpoint satisfied_at (left : nat) (auth : authority) : checked_m bool :=
  with_key_reverter
    (check_factors (match left with O => None | S left' => Some (satisfied_at left') end)
       (threshold auth) (factors auth) 0).

(** The entry for a permission: one visit at depth 0. *)
Definition permission_at (left : nat) (perm : permission_level) : checked_m bool :=
  w ← visit_permission (match left with O => None | S left' => Some (satisfied_at left') end)
        (mk_permission_level_weight perm 1) 0;
  st_ret (w >? 0).

End checker.

(** ** The class *)

Record authority_checker := mk_authority_checker {
  ac_permission_to_authority : permission_level -> outcome authority;
  ac_provided_keys : list public_key;
  ac_provided_permissions : list permission_level;
  ac_used_keys : list bool;
  ac_provided_delay : Z;
  ac_recursion_depth_limit : Z
}.

(** The constructor; the two flat_sets are given as their sorted elements. *)
Definition make_auth_checker (pta : permission_level -> outcome authority)
    (recursion_depth_limit : Z) (provided_keys : list public_key)
    (provided_permissions : list permission_level) (provided_delay : Z) : authority_checker :=
  mk_authority_checker pta provided_keys provided_permissions
    (replicate (length provided_keys) false) provided_delay recursion_depth_limit.

Section class.
Context `{FO : FactorOrder}.

Definition with_used_keys (c : authority_checker) (u : list bool) : authority_checker :=
  mk_authority_checker (ac_permission_to_authority c) (ac_provided_keys c)
    (ac_provided_permissions c) u (ac_provided_delay c) (ac_recursion_depth_limit c).

Definition with_delay (c : authority_checker) (d : Z) : authority_checker :=
  mk_authority_checker (ac_permission_to_authority c) (ac_provided_keys c)
    (ac_provided_permissions c) (ac_used_keys c) d (ac_recursion_depth_limit c).

(** Run a check on the caller's cache, or on a fresh one initialised with
    the provided permissions when [cached_perms] is null; the last component
    is the caller's cache afterwards. *)
Definition run_check (c : authority_checker) (cached_perms : option permission_cache_type)
    (body : checked_m bool) :
  authority_checker * outcome bool * option permission_cache_type :=
  let cache := match cached_perms with
               | None => initialize_permission_cache (ac_provided_permissions c)
               | Some m => m
               end in
  let '(s, r) := body (mk_checker_state (ac_used_keys c) cache) in
  (with_used_keys c (_used_keys s), r,
   match cached_perms with None => None | Some _ => Some (cached_permissions s) end).

Definition satisfied_permission (c : authority_checker) (perm : permission_level)
    (cached_perms : option permission_cache_type) :=
  run_check c cached_perms
    (permission_at (ac_permission_to_authority c) (ac_provided_keys c) (ac_provided_delay c)
       (Z.to_nat (ac_recursion_depth_limit c)) perm).

Definition satisfied_authority (c : authority_checker) (auth : authority)
    (cached_perms : option permission_cache_type) :=
  run_check c cached_perms
    (satisfied_at (ac_permission_to_authority c) (ac_provided_keys c) (ac_provided_delay c)
       (Z.to_nat (ac_recursion_depth_limit c)) auth).

(** The overloads with a delay: the member is replaced for the call and put
    back by the scoped exit. *)
Definition satisfied_permission_delay (c : authority_checker) (perm : permission_level)
    (override_provided_delay : Z) (cached_perms : option permission_cache_type) :=
  let '(c', r, m) := satisfied_permission (with_delay c override_provided_delay) perm cached_perms in
  (with_delay c' (ac_provided_delay c), r, m).

Definition satisfied_authority_delay (c : authority_checker) (auth : authority)
    (override_provided_delay : Z) (cached_perms : option permission_cache_type) :=
  let '(c', r, m) := satisfied_authority (with_delay c override_provided_delay) auth cached_perms in
  (with_delay c' (ac_provided_delay c), r, m).

End class.

Definition all_keys_used (c : authority_checker) : bool := forallb (eqb true) (ac_used_keys c).

(** [filter_data_by_marker]: the data whose marker has the given value. *)
Fixpoint filter_data_by_marker {A} (data : list A) (markers : list bool) (markerValue : bool) :
  list A :=
  match data, markers with
  | d :: data', m :: markers' =>
      if eqb m markerValue then d :: filter_data_by_marker data' markers' markerValue
      else filter_data_by_marker data' markers' markerValue
  | _, _ => []
  end.

Definition used_keys (c : authority_checker) : list public_key :=
  filter_data_by_marker (ac_provided_keys c) (ac_used_keys c) true.
Definition unused_keys (c : authority_checker) : list public_key :=
  filter_data_by_marker (ac_provided_keys c) (ac_used_keys c) false.

(** ** What a check should answer

    [authorized auth]: some of the factors of [auth], each justified by the
    provided keys, permissions and delay, have a total weight that reaches
    the threshold.  A permission level is justified when it was provided or
    when its authority is authorized. *)

Section spec.
Context (permission_to_authority : permission_level -> outcome authority).
Context (provided_keys : list public_key).
Context (provided_permissions : list permission_level).
Context (provided_delay : Z).

Definition all_factors (auth : authority) : list factor :=
  map account_factor (accounts auth) ++ map key_factor (keys auth) ++ map wait_factor (waits auth).

(** The level [{actor, ''}], which stands for every permission of the actor. *)
Definition any_permission (p : permission_level) : permission_level :=
  mk_permission_level (actor p) 0.

Inductive authorized : authority -> Prop :=
  | authorized_by auth fs :
      fs ⊆+ all_factors auth -> Forall justified fs ->
      threshold auth <= sum_weights factor_weight fs ->
      authorized auth
with justified : factor -> Prop :=
  | justified_wait w : seconds (ww_wait_sec w) <= provided_delay -> justified (wait_factor w)
  | justified_key k : kw_key k ∈ provided_keys -> justified (key_factor k)
  | justified_account a :
      justified_level (plw_permission a) \/ justified_level (any_permission (plw_permission a)) ->
      justified (account_factor a)
with justified_level : permission_level -> Prop :=
  | level_provided p : p ∈ provided_permissions -> justified_level p
  | level_authority p auth :
      permission_to_authority p = Ok auth -> authorized auth -> justified_level p.
End spec.

(** ** Helper lemmas *)

Lemma find_key_elem l k i : find_key l k = Some i -> k ∈ l.
Proof.
  revert i. induction l as [|x l IH]; intros i; simpl; [done|].
  unfold public_key_eqb. case_bool_decide as E; [set_solver|].
  destruct (find_key l k); [|done]. intros _. apply elem_of_cons. eauto.
Qed.

Lemma initialize_permission_cache_lookup l p v :
  initialize_permission_cache l !! p = Some v -> v = permission_satisfied /\ p ∈ l.
Proof.
  unfold initialize_permission_cache.
  assert (forall c, foldl (fun c p => cache_emplace c p permission_satisfied) c l !! p = Some v ->
                    (v = permission_satisfied /\ p ∈ l) \/ c !! p = Some v) as H.
  { induction l as [|q l IH]; intros c Hc; simpl in *; [auto|].
    apply IH in Hc as [[? ?]|Hc]; [set_solver|].
    unfold cache_emplace in Hc. destruct (c !! q) eqn:Eq; [auto|].
    apply lookup_insert_Some in Hc as [[-> <-]|[_ Hc]]; [set_solver|auto]. }
  intros Hp. by apply H in Hp as [|Hp%lookup_empty_Some].
Qed.

Lemma u32_le z : 0 <= z -> 0 <= u32 z <= z.
Proof.
  intros H. unfold wrap. pose proof (Z.mod_pos_bound z (2 ^ 32)). split; [lia|].
  apply Z.mod_le; lia.
Qed.

Lemma sum_weights_app {A} (weight : A -> Z) l1 l2 :
  sum_weights weight (l1 ++ l2) = sum_weights weight l1 + sum_weights weight l2.
Proof. induction l1 as [|x l1 IH]; simpl; [done|]. lia. Qed.

Lemma factor_weights_typed auth :
  authority_typed auth -> Forall (fun f => 0 <= factor_weight f) (all_factors auth).
Proof.
  intros (_ & Hk & Ha & Hw). unfold all_factors.
  repeat (apply Forall_app; split); apply Forall_map; eapply Forall_impl;
    [|exact Ha| |exact Hk| |exact Hw]; unfold is_uint; simpl; intros; lia.
Qed.

Lemma with_key_reverter_wp body s Q :
  st_wp body s (fun s' r => if decide (r = Ok true) then Q s' r
                            else Q (mk_checker_state (_used_keys s) (cached_permissions s')) r) ->
  st_wp (with_key_reverter body) s Q.
Proof. unfold st_wp, with_key_reverter. by destruct (body s) as [s' [[]|e]]. Qed.

(** ** Soundness *)

Section soundness.
Context `{FO : FactorOrder, !FactorOrderLaws FO}.
Context (permission_to_authority : permission_level -> outcome authority).
Context (provided_keys : list public_key).
Context (provided_permissions : list permission_level).
Context (provided_delay : Z).
Hypothesis authorities_typed :
  forall p auth, permission_to_authority p = Ok auth -> authority_typed auth.

Local Abbreviation level_ok :=
  (justified_level permission_to_authority provided_keys provided_permissions provided_delay).
Local Abbreviation factor_ok :=
  (justified permission_to_authority provided_keys provided_permissions provided_delay).
Local Abbreviation auth_ok :=
  (authorized permission_to_authority provided_keys provided_permissions provided_delay).

(** Every permission cached as satisfied is justified. *)
Definition cache_sound (s : checker_state) : Prop :=
  forall p, cached_permissions s !! p = Some permission_satisfied -> level_ok p.

Lemma set_cached_sound u c p v :
  cache_sound (mk_checker_state u c) -> (v = permission_satisfied -> level_ok p) ->
  cache_sound (mk_checker_state u (<[p := v]> c)).
Proof.
  intros Hc Hv q. simpl. intros [[<- ->]|[_ Hq]]%lookup_insert_Some; [auto|]. by apply Hc.
Qed.

Lemma emplace_cached_sound u c p v :
  cache_sound (mk_checker_state u c) -> (v = permission_satisfied -> level_ok p) ->
  cache_sound (mk_checker_state u (cache_emplace c p v)).
Proof.
  intros Hc Hv. unfold cache_emplace. destruct (c !! p); [done|]. by apply set_cached_sound.
Qed.

Lemma cached_level_ok s p :
  cache_sound s -> permission_status_in_cache (cached_permissions s) p = Some permission_satisfied ->
  level_ok p \/ level_ok (any_permission p).
Proof.
  unfold permission_status_in_cache. intros Hc.
  destruct (cached_permissions s !! p) eqn:E; intros H.
  - left. apply Hc. congruence.
  - right. by apply Hc.
Qed.

(** What a visit may do: add the weight of a justified factor. *)
Definition visit_post (f : factor) (t : Z) (s' : checker_state) (r : outcome Z) : Prop :=
  cache_sound s' /\
  forall t', r = Ok t' -> 0 <= t' /\ (t' = t \/ (factor_ok f /\ t' <= t + factor_weight f)).

Lemma visit_post_same f t s : 0 <= t -> cache_sound s -> visit_post f t s (Ok t).
Proof. intros Ht Hs. split; [done|]. intros ? [= <-]. auto. Qed.

Lemma visit_post_add f t s :
  0 <= t -> 0 <= factor_weight f -> cache_sound s -> factor_ok f ->
  visit_post f t s (Ok (u32 (t + factor_weight f))).
Proof.
  intros Ht Hw Hs Hf. split; [done|]. intros ? [= <-].
  pose proof (u32_le (t + factor_weight f)). split; [lia|]. right. split; [done|lia].
Qed.

Definition rec_sound (rec : option (authority -> checked_m bool)) : Prop :=
  forall sat auth s, rec = Some sat -> authority_typed auth -> cache_sound s ->
    st_wp (sat auth) s (fun s' r => cache_sound s' /\ (r = Ok true -> auth_ok auth)).

Lemma visit_permission_sound rec a t s :
  rec_sound rec -> 0 <= t -> 0 <= plw_weight a -> cache_sound s ->
  st_wp (visit_permission permission_to_authority rec a t) s (visit_post (account_factor a) t).
Proof.
  intros Hrec Ht Hw Hs. unfold visit_permission. apply st_wp_bind. unfold st_wp at 1, st_get. simpl.
  destruct (permission_status_in_cache _ _) as [[]|] eqn:Est;
    try (by apply visit_post_same).
  { apply (visit_post_add (account_factor a)); auto. constructor. by eapply cached_level_ok. }
  destruct rec as [sat|]; [|by apply visit_post_same].
  destruct (permission_to_authority (plw_permission a)) as [auth|e] eqn:Ea.
  2: { destruct (is_permission_query_exception e); [by apply visit_post_same|].
       split; [done|]. by intros. }
  apply st_wp_bind. unfold st_wp at 1, emplace_cached. simpl. apply st_wp_bind.
  eapply st_wp_mono.
  { apply (Hrec sat auth _ eq_refl); [by eapply authorities_typed|].
    destruct s. by apply emplace_cached_sound. }
  intros s1 [[]|e] [Hs1 Hr]; [| |split; [done|by intros]].
  - specialize (Hr eq_refl). assert (level_ok (plw_permission a)) by by eapply level_authority.
    apply (visit_post_add (account_factor a)); auto.
    + destruct s1. by apply set_cached_sound.
    + constructor. auto.
  - apply visit_post_same; [done|]. destruct s1. by apply set_cached_sound.
Qed.

Lemma visit_sound rec f t s :
  rec_sound rec -> 0 <= t -> 0 <= factor_weight f -> cache_sound s ->
  st_wp (visit permission_to_authority provided_keys provided_delay rec f t) s (visit_post f t).
Proof.
  intros Hrec Ht Hw Hs. destruct f as [a|k|w]; simpl in *.
  - by apply visit_permission_sound.
  - unfold st_wp, visit_key. destruct (find_key _ _) eqn:E; simpl; [|by apply visit_post_same].
    apply (visit_post_add (key_factor k)); auto. constructor. by eapply find_key_elem.
  - unfold st_wp, visit_wait. simpl. destruct (Z.geb_spec provided_delay (seconds (ww_wait_sec w))).
    + apply (visit_post_add (wait_factor w)); auto. by constructor.
    + by apply visit_post_same.
Qed.

(** A yes of the loop comes with justified factors that reach the threshold
    together with what was counted before. *)
Lemma check_factors_sound rec th fs t s :
  rec_sound rec -> 0 <= t -> Forall (fun f => 0 <= factor_weight f) fs -> cache_sound s ->
  st_wp (check_factors permission_to_authority provided_keys provided_delay rec th fs t) s
    (fun s' r => cache_sound s' /\
       (r = Ok true -> exists js, sublist js fs /\ Forall factor_ok js /\
                                  th <= t + sum_weights factor_weight js)).
Proof.
  intros Hrec Ht Hfs. revert t Ht s. induction Hfs as [|f fs Hf Hfs IH]; intros t Ht s Hs; simpl.
  { split; [done|]. by intros [=]. }
  apply st_wp_bind. eapply st_wp_mono; [by apply visit_sound|].
  intros s1 [t1|e] [Hs1 Hp]; [|split; [done|by intros [=]]].
  destruct (Hp t1 eq_refl) as [Ht1 Hcase]. destruct (Z.geb_spec t1 th) as [Hge|Hlt].
  - split; [done|]. intros _. destruct Hcase as [->|[Hok Hle]].
    + exists []. split_and!; [apply sublist_nil_l|done|simpl; lia].
    + exists [f]. split_and!; [apply sublist_skip, sublist_nil_l|auto|simpl; lia].
  - eapply st_wp_mono; [by apply IH|]. intros s2 r [Hs2 Hr]. split; [done|].
    intros ->. destruct (Hr eq_refl) as (js & Hsub & Hjs & Hsum).
    destruct Hcase as [->|[Hok Hle]].
    + exists js. split_and!; [by apply sublist_cons|done|done].
    + exists (f :: js). split_and!; [by apply sublist_skip|auto|simpl; lia].
Qed.

Lemma satisfied_body_sound rec auth s :
  rec_sound rec -> authority_typed auth -> cache_sound s ->
  st_wp (with_key_reverter
           (check_factors permission_to_authority provided_keys provided_delay rec
              (threshold auth) (factors auth) 0)) s
    (fun s' r => cache_sound s' /\ (r = Ok true -> auth_ok auth)).
Proof.
  intros Hrec Ha Hs. apply with_key_reverter_wp. eapply st_wp_mono.
  { apply check_factors_sound; [done|done| |done].
    unfold factors. rewrite multimap_permutation. by apply factor_weights_typed. }
  intros s1 r [Hs1 Hr]. case_decide as E; [|by split; [|done]].
  split; [done|]. intros _. destruct (Hr E) as (js & Hsub & Hok & Hth).
  apply (authorized_by _ _ _ _ auth js); [|done|lia].
  apply sublist_submseteq in Hsub. unfold factors in Hsub. by rewrite multimap_permutation in Hsub.
Qed.

Lemma satisfied_at_sound left auth s :
  authority_typed auth -> cache_sound s ->
  st_wp (satisfied_at permission_to_authority provided_keys provided_delay left auth) s
    (fun s' r => cache_sound s' /\ (r = Ok true -> auth_ok auth)).
Proof.
  revert auth s. induction left as [|left IH]; intros auth s Ha Hs; simpl;
    apply satisfied_body_sound; try done; intros sat auth' s' [=]; subst; auto.
Qed.
End soundness.

(** The specification for the members of a checker. *)
Definition checker_authorized (c : authority_checker) : authority -> Prop :=
  authorized (ac_permission_to_authority c) (ac_provided_keys c) (ac_provided_permissions c)
    (ac_provided_delay c).

Definition checker_level (c : authority_checker) (p : permission_level) : Prop :=
  let ok := justified_level (ac_permission_to_authority c) (ac_provided_keys c)
              (ac_provided_permissions c) (ac_provided_delay c) in
  ok p \/ ok (any_permission p).

Section class_soundness.
Context `{FO : FactorOrder, !FactorOrderLaws FO}.

Lemma initial_cache_sound c u :
  cache_sound (ac_permission_to_authority c) (ac_provided_keys c) (ac_provided_permissions c)
    (ac_provided_delay c)
    (mk_checker_state u (initialize_permission_cache (ac_provided_permissions c))).
Proof.
  intros p Hp. apply initialize_permission_cache_lookup in Hp as [_ Hp]. by constructor.
Qed.

Lemma satisfied_authority_sound c auth :
  (forall p a, ac_permission_to_authority c p = Ok a -> authority_typed a) -> authority_typed auth ->
  (satisfied_authority c auth None).1.2 = Ok true -> checker_authorized c auth.
Proof.
  intros Hpta Hauth. unfold satisfied_authority, run_check.
  pose proof (satisfied_at_sound (ac_permission_to_authority c) (ac_provided_keys c)
    (ac_provided_permissions c) (ac_provided_delay c) Hpta
    (Z.to_nat (ac_recursion_depth_limit c)) auth _ Hauth (initial_cache_sound c (ac_used_keys c)))
    as H. unfold st_wp in H. destruct (satisfied_at _ _ _ _ _ _). apply H.
Qed.

Lemma satisfied_permission_sound c perm :
  (forall p a, ac_permission_to_authority c p = Ok a -> authority_typed a) ->
  (satisfied_permission c perm None).1.2 = Ok true -> checker_level c perm.
Proof.
  intros Hpta. unfold satisfied_permission, run_check, permission_at.
  set (rec := match Z.to_nat _ with O => None | S l => _ end).
  assert (rec_sound (ac_permission_to_authority c) (ac_provided_keys c)
            (ac_provided_permissions c) (ac_provided_delay c) rec) as Hrec.
  { unfold rec. destruct (Z.to_nat _); intros sat a s [=]; subst.
    by apply satisfied_at_sound. }
  pose proof (visit_permission_sound _ _ _ _ Hpta rec (mk_permission_level_weight perm 1) 0 _
    Hrec ltac:(lia) ltac:(simpl; lia) (initial_cache_sound c (ac_used_keys c))) as H.
  unfold st_wp in H. unfold mbind, stateful_bind, st_bind.
  destruct (visit_permission _ _ _ _ _) as [s' [w|e]]; simpl in *; [|done].
  destruct H as [_ H]. destruct (H w eq_refl) as [_ [->|[Hok _]]]; [done|].
  intros _. by inversion Hok.
Qed.

(** A yes of the checker is justified: if [satisfied] answers true for an
    authority, some of its factors, justified by the provided keys,
    permissions and delay, reach its threshold; if it answers true for a
    permission, that level was provided or its authority is authorized.
    This holds for any permission hierarchy, cyclic or not, and any order in
    which factors of equal weight and kind are tried. *)
Theorem satisfied_sound c auth perm :
  (forall p a, ac_permission_to_authority c p = Ok a -> authority_typed a) ->
  authority_typed auth ->
  ((satisfied_authority c auth None).1.2 = Ok true -> checker_authorized c auth) /\
  ((satisfied_permission c perm None).1.2 = Ok true -> checker_level c perm).
Proof.
  intros Hpta Hauth. split; [by apply satisfied_authority_sound|by apply satisfied_permission_sound].
Qed.
End class_soundness.

(** ** Exactness on well-founded hierarchies

    The cache makes the checker answer no in some cases where the keys would
    do: a permission met again while it is being evaluated counts as
    unsatisfied, and so does one met at the depth limit.  When the
    permissions that can be met can be ranked, with the accounts of a
    permission's authority ranked below it and all ranks below the limit,
    neither happens. *)

(** The threshold is positive and the weights cannot overflow, as in every
    authority that [validate] accepts and in those of genesis. *)
Definition weights_bounded (a : authority) : Prop :=
  0 < threshold a /\ sum_weights factor_weight (all_factors a) < 2 ^ 32.

(** Neither part of a level is empty. *)
Definition proper_level (p : permission_level) : Prop := actor p <> 0 /\ permission p <> 0.

(** The lookup finds authorities of the right types.  A permission ranked
    below the limit has an authority that names levels ranked below it.  A
    proper level that does not exist is a permission_query_exception, and a
    level without a permission name does not exist. *)
Record ranked_hierarchy (pta : permission_level -> outcome authority)
    (rank : permission_level -> nat) (limit : nat) : Prop := {
  rh_typed p a : pta p = Ok a -> authority_typed a;
  rh_bounded p a : pta p = Ok a -> (rank p < limit)%nat -> weights_bounded a;
  rh_rank p a x : pta p = Ok a -> (rank p < limit)%nat -> x ∈ accounts a ->
    proper_level (plw_permission x) /\ (rank (plw_permission x) < rank p)%nat;
  rh_query p e : pta p = Err e -> proper_level p -> is_permission_query_exception e = true;
  rh_any p a : pta (any_permission p) <> Ok a
}.

Lemma validate_bounds a :
  authority_typed a -> validate a = true -> weights_bounded a.
Proof.
  intros (Ht & Hk & Ha & [Hw _]%wait_types). unfold validate.
  change (Z.shiftl 1 16) with 65536.
  destruct (Z.gtb_spec (Z.of_nat (length (keys a) + length (accounts a) + length (waits a))) 65536);
    [done|].
  destruct (Z.eqb_spec (threshold a) 0); [done|]. intros _. unfold is_uint in Ht. split; [lia|].
  assert (forall {A} (w : A -> Z) (c : A -> factor) l, (forall x, factor_weight (c x) = w x) ->
            sum_weights factor_weight (map c l) = sum_weights w l) as Hmap.
  { intros A w c l Hc. induction l as [|x l IH]; simpl; [done|]. by rewrite Hc, IH. }
  unfold all_factors. rewrite !sum_weights_app.
  rewrite (Hmap _ plw_weight account_factor), (Hmap _ kw_weight key_factor),
    (Hmap _ ww_weight wait_factor) by done.
  pose proof (sum_weights_bound _ _ Hk). pose proof (sum_weights_bound _ _ Ha).
  pose proof (sum_weights_bound _ _ Hw). lia.
Qed.

Lemma sum_weights_permutation {A} (weight : A -> Z) l1 l2 :
  l1 ≡ₚ l2 -> sum_weights weight l1 = sum_weights weight l2.
Proof. induction 1; simpl; lia. Qed.

Lemma sum_weights_nonneg {A} (weight : A -> Z) l :
  Forall (fun x => 0 <= weight x) l -> 0 <= sum_weights weight l.
Proof. induction 1; simpl; lia. Qed.

(** If the justified factors are exactly [J], no choice weighs more. *)
Lemma justified_choice_bound (P : factor -> Prop) fs J N S :
  Forall (fun f => 0 <= factor_weight f) fs ->
  fs ≡ₚ J ++ N -> Forall (fun f => ~ P f) N -> S ⊆+ fs -> Forall P S ->
  sum_weights factor_weight S <= sum_weights factor_weight J.
Proof.
  intros Hw Hfs HN HS HP. rewrite Hfs in HS. apply submseteq_app_r in HS as (S1 & S2 & E & H1 & H2).
  assert (S2 = []) as ->.
  { destruct S2 as [|f S2]; [done|]. exfalso. rewrite E in HP. apply Forall_app in HP as [_ HP].
    apply Forall_inv in HP. apply submseteq_Permutation in H2 as [r Hr]. rewrite Hr in HN.
    by apply Forall_inv in HN. }
  rewrite app_nil_r in E. rewrite (sum_weights_permutation _ _ _ E).
  apply submseteq_Permutation in H1 as [rest Hr]. rewrite (sum_weights_permutation _ _ _ Hr).
  rewrite sum_weights_app. assert (0 <= sum_weights factor_weight rest); [|lia].
  apply sum_weights_nonneg. rewrite Hfs, Hr in Hw. rewrite !Forall_app in Hw. tauto.
Qed.

Section exactness.
Context `{FO : FactorOrder, !FactorOrderLaws FO}.
Context (permission_to_authority : permission_level -> outcome authority).
Context (provided_keys : list public_key).
Context (provided_permissions : list permission_level).
Context (provided_delay : Z).
Context (rank : permission_level -> nat) (limit : nat).
Hypothesis ranked : ranked_hierarchy permission_to_authority rank limit.

Local Abbreviation level_ok :=
  (justified_level permission_to_authority provided_keys provided_permissions provided_delay).
Local Abbreviation factor_ok :=
  (justified permission_to_authority provided_keys provided_permissions provided_delay).
Local Abbreviation auth_ok :=
  (authorized permission_to_authority provided_keys provided_permissions provided_delay).

(** The cache is right about every permission except those in [busy], the
    ones being evaluated. *)
Record cache_exact (busy : permission_level -> Prop) (c : permission_cache_type) : Prop := {
  ce_satisfied p : c !! p = Some permission_satisfied -> level_ok p;
  ce_unsatisfied p : c !! p = Some permission_unsatisfied ->
    permission p <> 0 /\ ~ level_ok p /\ ~ level_ok (any_permission p);
  ce_busy p : c !! p = Some being_evaluated -> permission p <> 0 /\ busy p;
  ce_provided p : p ∈ provided_permissions -> c !! p = Some permission_satisfied
}.

Lemma any_level p : level_ok (any_permission p) -> any_permission p ∈ provided_permissions.
Proof. inversion 1; [done|]. by edestruct (rh_any _ _ _ ranked). Qed.

Lemma cache_exact_set busy c p v :
  cache_exact (fun q => busy q \/ q = p) c -> p ∉ provided_permissions -> permission p <> 0 ->
  match v with
  | permission_satisfied => level_ok p
  | permission_unsatisfied => ~ level_ok p /\ ~ level_ok (any_permission p)
  | being_evaluated => busy p
  end ->
  cache_exact busy (<[p := v]> c).
Proof.
  intros [Hs Hu Hb Hp] Hnp H0 Hv.
  split; intros q; rewrite ?lookup_insert_Some.
  - intros [[<- ->]|[_ ?]]; [done|auto].
  - intros [[<- ->]|[_ ?]]; [by destruct Hv|auto].
  - intros [[<- ->]|[Hne Hq]]; [done|]. destruct (Hb _ Hq) as [? [?|?]]; [auto|congruence].
  - intros Hq. right. split; [by intros ->|auto].
Qed.

Lemma cache_exact_weaken (busy busy' : permission_level -> Prop) c :
  (forall p, busy p -> busy' p) -> cache_exact busy c -> cache_exact busy' c.
Proof. intros H [Hs Hu Hb Hp]. split; auto. intros p [? ?]%Hb. auto. Qed.

Lemma cache_exact_emplace busy c p :
  cache_exact busy c -> p ∉ provided_permissions -> permission p <> 0 ->
  cache_exact (fun q => busy q \/ q = p) (cache_emplace c p being_evaluated).
Proof.
  intros Hc Hp H0. unfold cache_emplace. destruct (c !! p).
  - eapply cache_exact_weaken; [|exact Hc]. auto.
  - apply cache_exact_set; [|done|done|auto]. eapply cache_exact_weaken; [|exact Hc]. auto.
Qed.

(** A visit answers exactly. *)
Definition visit_exact (busy : permission_level -> Prop) (f : factor) (t : Z)
    (s' : checker_state) (r : outcome Z) : Prop :=
  cache_exact busy (cached_permissions s') /\
  ((factor_ok f /\ r = Ok (u32 (t + factor_weight f))) \/ (~ factor_ok f /\ r = Ok t)).

Definition accounts_below (bound : nat) (auth : authority) : Prop :=
  forall x, x ∈ accounts auth ->
    proper_level (plw_permission x) /\ (rank (plw_permission x) < bound)%nat.

Definition check_exact (busy : permission_level -> Prop) (auth : authority)
    (s' : checker_state) (r : outcome bool) : Prop :=
  cache_exact busy (cached_permissions s') /\
  exists b, r = Ok b /\ (b = true <-> auth_ok auth).

(** [rec], with [left] levels to go, answers exactly on authorities whose
    accounts are ranked below a [bound] that the levels left can accommodate
    and that no permission being evaluated is below. *)
Definition rec_exact (left : nat) (rec : option (authority -> checked_m bool)) : Prop :=
  match rec with
  | None => left = 0%nat
  | Some sat => forall bound (busy : permission_level -> Prop) auth s,
      (bound < left)%nat -> (forall x, busy x -> (bound <= rank x)%nat) ->
      authority_typed auth -> weights_bounded auth -> accounts_below bound auth ->
      cache_exact busy (cached_permissions s) -> st_wp (sat auth) s (check_exact busy auth)
  end.

Lemma account_ok a :
  factor_ok (account_factor a) <->
  level_ok (plw_permission a) \/ level_ok (any_permission (plw_permission a)).
Proof. split; [by inversion 1|]. by constructor. Qed.

(** The evaluation of a permission that is not in the cache. *)
Lemma evaluate_exact busy left sat auth a t s :
  let p := plw_permission a in
  rec_exact left (Some sat) -> (rank p < left <= limit)%nat -> permission p <> 0 ->
  (forall x, busy x -> (rank p < rank x)%nat) -> cache_exact busy (cached_permissions s) ->
  p ∉ provided_permissions -> ~ level_ok (any_permission p) ->
  permission_to_authority p = Ok auth ->
  st_wp (emplace_cached p being_evaluated ;;
         r ← sat auth;
         if r : bool then set_cached p permission_satisfied ;; st_ret (u32 (t + plw_weight a))
         else set_cached p permission_unsatisfied ;; st_ret t) s
    (visit_exact busy (account_factor a) t).
Proof.
  intros p Hrec Hb H0 Hrk Hc Hnp Hna Ea. assert (rank p < limit)%nat as Hl by lia.
  pose proof (rh_typed _ _ _ ranked _ _ Ea) as Hty. pose proof (rh_bounded _ _ _ ranked _ _ Ea Hl) as Hv.
  apply st_wp_bind. unfold st_wp at 1, emplace_cached. simpl. apply st_wp_bind.
  eapply st_wp_mono.
  { apply (Hrec (rank p) (fun q => busy q \/ q = p)); [lia| |done|done| |].
    - intros x [?%Hrk| ->]; lia.
    - intros x Hx. by apply (rh_rank _ _ _ ranked _ _ _ Ea Hl).
    - by apply cache_exact_emplace. }
  intros s1 r (Hc1 & b & -> & Hbr).
  assert (level_ok p <-> b = true) as Hlev.
  { rewrite Hbr. split; [|by eapply level_authority]. inversion 1; [done|]. congruence. }
  assert (factor_ok (account_factor a) <-> b = true) as Hf.
  { rewrite account_ok, <- Hlev. split; [by intros [|]|auto]. }
  destruct b; (split; [apply cache_exact_set; rewrite ?Hlev; done|]).
  - left. by rewrite Hf.
  - right. by rewrite Hf.
Qed.

Lemma visit_permission_exact busy left rec a t s :
  rec_exact left rec -> (rank (plw_permission a) < left <= limit)%nat ->
  proper_level (plw_permission a) ->
  (forall x, busy x -> (rank (plw_permission a) < rank x)%nat) ->
  cache_exact busy (cached_permissions s) ->
  st_wp (visit_permission permission_to_authority rec a t) s
    (visit_exact busy (account_factor a) t).
Proof.
  intros Hrec Hb Hp0 Hrk Hc. pose proof (proj2 Hp0) as H0. unfold visit_permission.
  apply st_wp_bind. unfold st_wp at 1, st_get. simpl. unfold permission_status_in_cache.
  change (mk_permission_level (actor (plw_permission a)) 0)
    with (any_permission (plw_permission a)).
  unfold st_wp, visit_exact. rewrite account_ok.
  set (p := plw_permission a) in *.
  destruct (cached_permissions s !! p) as [[]|] eqn:Ep.
  - destruct (ce_busy _ _ Hc _ Ep) as [_ ?%Hrk]. lia.
  - destruct (ce_unsatisfied _ _ Hc _ Ep) as (_ & ? & ?). split; [done|]. right. tauto.
  - split; [done|]. left. split; [|done]. left. by apply (ce_satisfied _ _ Hc).
  - destruct (cached_permissions s !! any_permission p) as [[]|] eqn:Ea.
    + by destruct (ce_busy _ _ Hc _ Ea).
    + by destruct (ce_unsatisfied _ _ Hc _ Ea).
    + split; [done|]. left. split; [|done]. right. by apply (ce_satisfied _ _ Hc).
    + assert (p ∉ provided_permissions) as Hnp
        by (intros ?%(ce_provided _ _ Hc); congruence).
      assert (~ level_ok (any_permission p)) as Hna
        by (intros ?%any_level%(ce_provided _ _ Hc); congruence).
      destruct rec as [sat|]; [|simpl in Hrec; lia].
      destruct (permission_to_authority p) as [auth|e] eqn:Ea'.
      * pose proof (evaluate_exact busy left sat auth a t s Hrec Hb H0 Hrk Hc Hnp Hna Ea') as H.
        unfold st_wp, visit_exact in H. rewrite account_ok in H. exact H.
      * rewrite (rh_query _ _ _ ranked _ _ Ea') by done. split; [done|]. right. split; [|done].
        intros [H|H]; [|done]. inversion H; congruence.
Qed.

Lemma find_key_none l k : find_key l k = None -> k ∉ l.
Proof.
  induction l as [|x l IH]; simpl; [set_solver|].
  unfold public_key_eqb. case_bool_decide as E; [done|].
  destruct (find_key l k); [done|]. intros _ [->|H]%elem_of_cons; [done|]. by apply IH.
Qed.

Lemma visit_exact_ok busy bound left rec f t s :
  rec_exact left rec -> (bound <= left <= limit)%nat ->
  (forall a, f = account_factor a ->
     proper_level (plw_permission a) /\ (rank (plw_permission a) < bound)%nat) ->
  (forall x, busy x -> (bound <= rank x)%nat) -> cache_exact busy (cached_permissions s) ->
  st_wp (visit permission_to_authority provided_keys provided_delay rec f t) s
    (visit_exact busy f t).
Proof.
  intros Hrec Hleft Hf Hrk Hc. destruct f as [a|k|w]; simpl.
  - destruct (Hf a eq_refl) as [? ?]. eapply visit_permission_exact; [done|lia|done| |done].
    intros x ?%Hrk. lia.
  - unfold st_wp, visit_key. destruct (find_key _ _) eqn:E; (split; [done|]).
    + left. split; [|done]. constructor. by eapply find_key_elem.
    + right. split; [|done]. inversion 1. by apply find_key_none in E.
  - unfold st_wp, visit_wait. split; [done|].
    destruct (Z.geb_spec provided_delay (seconds (ww_wait_sec w))).
    + left. split; [by constructor|done].
    + right. split; [|done]. inversion 1. lia.
Qed.

(** A no of the loop splits the factors into justified and unjustified ones,
    and the justified ones do not reach the threshold. *)
Lemma check_factors_exact busy bound left rec th fs t s :
  rec_exact left rec -> (bound <= left <= limit)%nat -> (forall x, busy x -> (bound <= rank x)%nat) ->
  (forall a, account_factor a ∈ fs ->
     proper_level (plw_permission a) /\ (rank (plw_permission a) < bound)%nat) ->
  Forall (fun f => 0 <= factor_weight f) fs -> 0 <= t < th ->
  t + sum_weights factor_weight fs < 2 ^ 32 ->
  cache_exact busy (cached_permissions s) ->
  st_wp (check_factors permission_to_authority provided_keys provided_delay rec th fs t) s
    (fun s' r => cache_exact busy (cached_permissions s') /\ exists b, r = Ok b /\
       (b = false -> exists J N, fs ≡ₚ J ++ N /\ Forall (fun f => ~ factor_ok f) N /\
                                 t + sum_weights factor_weight J < th)).
Proof.
  intros Hrec Hleft Hrk Hacc Hfs. revert t Hacc s.
  induction Hfs as [|f fs Hf Hfs IH]; intros t Hacc s Ht Hsum Hc; simpl in *.
  { split; [done|]. exists false. split; [done|]. intros _. exists [], [].
    split_and!; [done|done|simpl; lia]. }
  pose proof (sum_weights_nonneg _ _ Hfs).
  apply st_wp_bind. eapply st_wp_mono.
  { eapply visit_exact_ok; [done|done| |done|done]. intros a ->. apply Hacc, elem_of_cons. auto. }
  assert (forall a, account_factor a ∈ fs -> proper_level (plw_permission a) /\
            (rank (plw_permission a) < bound)%nat) as Hacc'
    by (intros a Ha; apply Hacc, elem_of_cons; auto).
  intros s1 r [Hc1 [[Hok ->]|[Hok ->]]].
  - rewrite wrap_id by (unfold is_uint; lia).
    destruct (Z.geb_spec (t + factor_weight f) th); [split; [done|by exists true]|].
    eapply st_wp_mono; [apply IH; [done|lia|lia|done]|].
    intros s2 r (Hc2 & b & -> & Hb). split; [done|]. exists b. split; [done|]. intros E.
    destruct (Hb E) as (J & N & Hp & HN & HJ). exists (f :: J), N.
    split_and!; [by rewrite Hp|done|simpl; lia].
  - destruct (Z.geb_spec t th); [lia|].
    eapply st_wp_mono; [apply IH; [done|lia|lia|done]|].
    intros s2 r (Hc2 & b & -> & Hb). split; [done|]. exists b. split; [done|]. intros E.
    destruct (Hb E) as (J & N & Hp & HN & HJ). exists J, (f :: N).
    split_and!; [by rewrite Hp, Permutation_middle|auto|lia].
Qed.

Lemma cache_exact_sound busy s :
  cache_exact busy (cached_permissions s) ->
  cache_sound permission_to_authority provided_keys provided_permissions provided_delay s.
Proof. intros Hc p. apply (ce_satisfied _ _ Hc). Qed.

Lemma ranked_typed p auth : permission_to_authority p = Ok auth -> authority_typed auth.
Proof. apply (rh_typed _ _ _ ranked). Qed.

Lemma account_in_factors auth a : account_factor a ∈ factors auth -> a ∈ accounts auth.
Proof.
  unfold factors. rewrite multimap_permutation, !elem_of_app, !list_elem_of_fmap. naive_solver.
Qed.

Lemma satisfied_body_exact busy bound left rec auth s :
  rec_exact left rec -> (bound <= left <= limit)%nat -> (forall x, busy x -> (bound <= rank x)%nat) ->
  authority_typed auth -> weights_bounded auth -> accounts_below bound auth ->
  cache_exact busy (cached_permissions s) ->
  rec_sound permission_to_authority provided_keys provided_permissions provided_delay rec ->
  st_wp (with_key_reverter
           (check_factors permission_to_authority provided_keys provided_delay rec
              (threshold auth) (factors auth) 0)) s (check_exact busy auth).
Proof.
  intros Hrec Hleft Hrk Hty [Hth Hsum] Hacc Hc Hsound.
  pose proof (satisfied_body_sound _ _ _ _ ranked_typed rec auth s Hsound Hty
                (cache_exact_sound _ _ Hc)) as Hs.
  pose proof (factor_weights_typed auth Hty) as Hw.
  assert (factors auth ≡ₚ all_factors auth) as Hp by apply multimap_permutation.
  assert (st_wp (with_key_reverter
            (check_factors permission_to_authority provided_keys provided_delay rec
               (threshold auth) (factors auth) 0)) s
     (fun s' r => cache_exact busy (cached_permissions s') /\ exists b, r = Ok b /\
                  (b = false -> ~ auth_ok auth))) as Hf.
  { apply with_key_reverter_wp. eapply st_wp_mono.
    { eapply (check_factors_exact busy bound left); [done|done|done| | | | |done].
      - intros a Ha. by apply Hacc, account_in_factors.
      - by rewrite Hp.
      - lia.
      - by rewrite (sum_weights_permutation _ _ _ Hp). }
    intros s1 r (Hc1 & b & -> & Hb).
    assert (b = false -> ~ auth_ok auth) as Hno.
    { intros (J & N & HJN & HN & HJ)%Hb Hok. inversion Hok as [? fs Hsub Hfs Hge]; subst.
      rewrite <- Hp in Hsub. pose proof (justified_choice_bound factor_ok (factors auth) J N fs).
      rewrite Hp in H at 1. specialize (H Hw HJN HN Hsub Hfs). lia. }
    case_decide; (split; [done|]); by exists b. }
  unfold st_wp, check_exact in *. destruct Hs as [_ Hyes], Hf as (Hc1 & b & E & Hno).
  split; [done|]. exists b. split; [done|]. rewrite E in Hyes. destruct b; [naive_solver|].
  split; [done|]. intros ?. by destruct (Hno eq_refl).
Qed.

Lemma satisfied_at_exact left : (left <= limit)%nat -> rec_exact (S left)
  (Some (satisfied_at permission_to_authority provided_keys provided_delay left)).
Proof.
  assert (forall l, rec_sound permission_to_authority provided_keys provided_permissions
    provided_delay (match l with O => None | S l' =>
      Some (satisfied_at permission_to_authority provided_keys provided_delay l') end)) as Hs.
  { intros [|l] sat a s [=]; subst. intros. by apply satisfied_at_sound; [apply ranked_typed|..]. }
  induction left as [|left IH]; intros Hl bound busy auth s Hlt Hrk Hty Hv Hacc Hc; simpl.
  - apply (satisfied_body_exact busy bound 0); try done; try lia; apply (Hs 0%nat).
  - apply (satisfied_body_exact busy bound (S left)); try done; try lia; [apply IH; lia|apply (Hs (S left))].
Qed.
End exactness.

Section class_exactness.
Context `{FO : FactorOrder, !FactorOrderLaws FO}.

Lemma initialize_permission_cache_complete l p :
  p ∈ l -> initialize_permission_cache l !! p = Some permission_satisfied.
Proof.
  unfold initialize_permission_cache.
  assert (forall c, (p ∈ l \/ c !! p = Some permission_satisfied) ->
    (forall q v, c !! q = Some v -> v = permission_satisfied) ->
    foldl (fun c p => cache_emplace c p permission_satisfied) c l !! p = Some permission_satisfied)
    as H; [|intros; by apply H; [left|intros ? ? ?%lookup_empty_Some]].
  induction l as [|q l IH]; intros c Hp Hc; simpl.
  { by destruct Hp as [?%elem_of_nil|]. }
  apply IH; unfold cache_emplace.
  - destruct (c !! q) as [v|] eqn:E.
    + destruct Hp as [[->|]%elem_of_cons|]; auto. right. by rewrite E, (Hc _ _ E).
    + destruct (decide (p = q)) as [->|Hne]; [right; apply lookup_insert_eq|].
      rewrite lookup_insert_ne by done. destruct Hp as [[->|]%elem_of_cons|]; [done|auto|auto].
  - intros x v. destruct (c !! q); [apply Hc|].
    intros [[_ <-]|[_ ?]]%lookup_insert_Some; [done|by eapply Hc].
Qed.

(** C9: Where the permissions that an authority names, directly or not, can be
    ranked below the recursion limit, each above those its own authority
    names, the checker is exact: [satisfied] never throws and answers true if
    and only if justified factors reach the threshold, whatever the order of
    factors of equal weight and kind.  The authorities have a positive
    threshold and weights that do not overflow, as validated ones and those of
    genesis have, and name proper levels; on a lookup of a level that does not
    exist the lookup throws as get_permission does. *)
Theorem satisfied_exact c rank auth :
  ranked_hierarchy (ac_permission_to_authority c) rank (Z.to_nat (ac_recursion_depth_limit c)) ->
  authority_typed auth -> weights_bounded auth ->
  (forall x, x ∈ accounts auth -> proper_level (plw_permission x) /\
     Z.of_nat (rank (plw_permission x)) < ac_recursion_depth_limit c) ->
  exists b, (satisfied_authority c auth None).1.2 = Ok b /\
            (b = true <-> checker_authorized c auth).
Proof.
  intros Hr Hty Hv Hacc. unfold satisfied_authority, run_check.
  set (left := Z.to_nat (ac_recursion_depth_limit c)) in *.
  pose proof (satisfied_at_exact (ac_permission_to_authority c) (ac_provided_keys c)
    (ac_provided_permissions c) (ac_provided_delay c) rank left Hr left (le_n _)) as H.
  specialize (H left (fun _ => False) auth (mk_checker_state (ac_used_keys c)
    (initialize_permission_cache (ac_provided_permissions c)))).
  destruct H as [_ Hres]; [lia|done|done|done| | |].
  - intros x Hx. destruct (Hacc x Hx) as [? ?]. split; [done|]. unfold left. lia.
  - split; simpl; intros p Hp; try (by apply initialize_permission_cache_lookup in Hp as [? _]).
    + apply initialize_permission_cache_lookup in Hp as [_ Hp]. by constructor.
    + by apply initialize_permission_cache_complete.
  - unfold checker_authorized. by destruct (satisfied_at _ _ _ _ _ _).
Qed.

End class_exactness.

(** ** Used keys *)

Section used.
Context `{FO : FactorOrder}.
Context (permission_to_authority : permission_level -> outcome authority).
Context (provided_keys : list public_key).
Context (provided_delay : Z).

Definition keys_grow (u u' : list bool) : Prop := Forall2 (fun a b => a = true -> b = true) u u'.

Lemma keys_grow_refl u : keys_grow u u.
Proof. induction u; constructor; auto. Qed.

Lemma keys_grow_trans u1 u2 u3 : keys_grow u1 u2 -> keys_grow u2 u3 -> keys_grow u1 u3.
Proof.
  intros H12. revert u3. induction H12; intros u3 H23; inversion H23; subst; constructor; auto.
  by apply IHForall2.
Qed.

Lemma keys_grow_insert u i : keys_grow u (<[i := true]> u).
Proof.
  revert i. induction u as [|a u IH]; intros [|i]; simpl; constructor; auto.
  - apply keys_grow_refl.
  - apply IH.
Qed.

Definition grows {A} (s : checker_state) (s' : checker_state) (_ : outcome A) : Prop :=
  keys_grow (_used_keys s) (_used_keys s').

Definition reverts (s : checker_state) (s' : checker_state) (r : outcome bool) : Prop :=
  grows s s' r /\ (r <> Ok true -> _used_keys s' = _used_keys s).

Definition rec_reverts (rec : option (authority -> checked_m bool)) : Prop :=
  forall sat auth s, rec = Some sat -> st_wp (sat auth) s (reverts s).

Lemma visit_grows rec f t s :
  rec_reverts rec ->
  st_wp (visit permission_to_authority provided_keys provided_delay rec f t) s (grows s).
Proof.
  intros Hrec. destruct f as [a|k|w]; simpl.
  - unfold visit_permission. apply st_wp_bind. unfold st_wp at 1, st_get. simpl.
    destruct (permission_status_in_cache _ _) as [[]|]; try apply keys_grow_refl.
    destruct rec as [sat|]; [|apply keys_grow_refl].
    destruct (permission_to_authority (plw_permission a)) as [auth|e].
    2: { destruct (is_permission_query_exception e); apply keys_grow_refl. }
    apply st_wp_bind. unfold st_wp at 1, emplace_cached. simpl. apply st_wp_bind.
    eapply st_wp_mono; [by apply Hrec|]. intros s1 [[]|e] [Hg _]; exact Hg.
  - unfold st_wp, visit_key. destruct (find_key _ _); [apply keys_grow_insert|apply keys_grow_refl].
  - apply keys_grow_refl.
Qed.

Lemma check_factors_grows rec th fs t s :
  rec_reverts rec ->
  st_wp (check_factors permission_to_authority provided_keys provided_delay rec th fs t) s (grows s).
Proof.
  intros Hrec. revert t s. induction fs as [|f fs IH]; intros t s; simpl; [apply keys_grow_refl|].
  apply st_wp_bind. eapply st_wp_mono; [by apply visit_grows|].
  intros s1 [t1|e] Hg; [|done]. destruct (t1 >=? th); [done|].
  eapply st_wp_mono; [apply IH|]. intros s2 r Hg2. by eapply keys_grow_trans.
Qed.

Lemma satisfied_at_reverts left auth s :
  st_wp (satisfied_at permission_to_authority provided_keys provided_delay left auth) s (reverts s).
Proof.
  revert auth s. induction left as [|left IH]; intros auth s; simpl; apply with_key_reverter_wp;
    (eapply st_wp_mono; [apply check_factors_grows|]);
    try (intros sat a s' [=]; subst; apply IH);
    intros s1 r Hg; case_decide as E; split; try done; apply keys_grow_refl.
Qed.
End used.

(** *** Whose keys are marked *)

Section named.
Context `{FO : FactorOrder, !FactorOrderLaws FO}.
Context (permission_to_authority : permission_level -> outcome authority).
Context (provided_keys : list public_key).
Context (provided_delay : Z).

(** The key stands in the authority, or in that of one of its accounts. *)
Inductive names_key (k : public_key) : authority -> Prop :=
  | names_own auth w : w ∈ keys auth -> kw_key w = k -> names_key k auth
  | names_below auth a auth' :
      a ∈ accounts auth -> permission_to_authority (plw_permission a) = Ok auth' ->
      names_key k auth' -> names_key k auth.

(** Every mark is old or on a key with the property. *)
Definition marks_only (P : public_key -> Prop) {A} (s s' : checker_state) (_ : outcome A) : Prop :=
  forall i, _used_keys s' !! i = Some true ->
    _used_keys s !! i = Some true \/ exists k, provided_keys !! i = Some k /\ P k.

Lemma marks_only_refl P {A} u c c' (r : outcome A) :
  marks_only P (mk_checker_state u c) (mk_checker_state u c') r.
Proof. intros i Hi. by left. Qed.

Lemma marks_only_trans P {A B} s1 s2 s3 (r1 : outcome A) (r2 : outcome B) :
  marks_only P s1 s2 r1 -> marks_only P s2 s3 r2 -> marks_only P s1 s3 r2.
Proof. intros H1 H2 i Hi. destruct (H2 i Hi) as [H|H]; [by apply H1|by right]. Qed.

Definition rec_marks (rec : option (authority -> checked_m bool)) : Prop :=
  forall sat auth s, rec = Some sat -> st_wp (sat auth) s (marks_only (fun k => names_key k auth) s).

Lemma find_key_lookup l k i : find_key l k = Some i -> l !! i = Some k.
Proof.
  revert i. induction l as [|x l IH]; intros i; simpl; [done|].
  unfold public_key_eqb. case_bool_decide as E; [intros [= <-]; by subst|].
  destruct (find_key l k); [|done]. intros [= <-]. by apply IH.
Qed.

Lemma visit_permission_marks rec a t s :
  rec_marks rec ->
  st_wp (visit_permission permission_to_authority rec a t) s
    (marks_only (fun k => exists auth, permission_to_authority (plw_permission a) = Ok auth /\ names_key k auth) s).
Proof.
  intros Hrec. destruct s as [u c]. unfold visit_permission. apply st_wp_bind. unfold st_wp at 1, st_get. simpl.
  destruct (permission_status_in_cache _ _) as [[]|]; try apply marks_only_refl.
  destruct rec as [sat|]; [|apply marks_only_refl].
  destruct (permission_to_authority (plw_permission a)) as [auth|e].
  2: { destruct (is_permission_query_exception e); apply marks_only_refl. }
  apply st_wp_bind. unfold st_wp at 1, emplace_cached. simpl. apply st_wp_bind.
  eapply st_wp_mono; [by apply Hrec|]. intros s1 [[]|e] H i Hi; destruct (H i Hi) as [|(k & Hk & Hn)];
    auto; right; exists k; eauto.
Qed.

Lemma visit_marks rec f auth t s :
  rec_marks rec -> f ∈ all_factors auth ->
  st_wp (visit permission_to_authority provided_keys provided_delay rec f t) s
    (marks_only (fun k => names_key k auth) s).
Proof.
  intros Hrec Hf. unfold all_factors in Hf. rewrite !elem_of_app, !list_elem_of_fmap in Hf.
  destruct f as [a|k|w]; simpl.
  - eapply st_wp_mono; [by apply visit_permission_marks|]. intros s' r H i Hi.
    destruct (H i Hi) as [|(k & Hk & auth' & Ha & Hn)]; [by left|right]. exists k. split; [done|].
    destruct Hf as [(x & [= ->] & Hx)|[(x & [=] & _)|(x & [=] & _)]]. by eapply names_below.
  - unfold st_wp, visit_key. destruct (find_key _ _) as [j|] eqn:E; [|by destruct s; apply marks_only_refl].
    intros i Hi. cbn in Hi. destruct (decide (j = i)) as [<-|Hne].
    + right. exists (kw_key k). split; [by apply find_key_lookup|].
      destruct Hf as [(x & [=] & _)|[(x & [= ->] & Hx)|(x & [=] & _)]]. by eapply names_own.
    + left. by rewrite list_lookup_insert_ne in Hi.
  - destruct s. apply marks_only_refl.
Qed.

Lemma check_factors_marks rec th fs auth t s :
  rec_marks rec -> fs ⊆ all_factors auth ->
  st_wp (check_factors permission_to_authority provided_keys provided_delay rec th fs t) s
    (marks_only (fun k => names_key k auth) s).
Proof.
  intros Hrec. revert t s. induction fs as [|f fs IH]; intros t s Hfs; simpl; [destruct s; apply marks_only_refl|].
  apply st_wp_bind. eapply st_wp_mono; [apply (visit_marks rec f auth); [done|set_solver]|].
  intros s1 [t1|e] Hg; [|done]. destruct (t1 >=? th); [done|].
  eapply st_wp_mono; [apply IH; set_solver|]. intros s2 r Hg2. by eapply marks_only_trans.
Qed.

Lemma satisfied_at_marks left auth s :
  st_wp (satisfied_at permission_to_authority provided_keys provided_delay left auth) s
    (marks_only (fun k => names_key k auth) s).
Proof.
  assert (forall auth, factors auth ⊆ all_factors auth) as Hsub.
  { intros a f. unfold factors, all_factors. by rewrite multimap_permutation. }
  revert auth s. induction left as [|left IH]; intros auth s; simpl; apply with_key_reverter_wp;
    (eapply st_wp_mono; [apply (check_factors_marks _ _ _ auth); [|apply Hsub]|]);
    try (intros sat a s' [=]; subst; apply IH);
    intros s1 r Hg; case_decide; try done; destruct s; apply marks_only_refl.
Qed.
End named.

(** *** What a check can throw: only what a lookup throws that is no
    permission_query_exception *)

Section errors.
Context `{FO : FactorOrder}.
Context (permission_to_authority : permission_level -> outcome authority).
Context (provided_keys : list public_key).
Context (provided_delay : Z).

Definition lookup_error (e : exn) : Prop :=
  is_permission_query_exception e = false /\ exists p, permission_to_authority p = Err e.

Definition throws_lookup {A} (_ : checker_state) (r : outcome A) : Prop := forall e, r = Err e -> lookup_error e.

Definition rec_throws (rec : option (authority -> checked_m bool)) : Prop :=
  forall sat auth s, rec = Some sat -> st_wp (sat auth) s throws_lookup.

Lemma visit_permission_throws rec a t s :
  rec_throws rec -> st_wp (visit_permission permission_to_authority rec a t) s throws_lookup.
Proof.
  intros Hrec. unfold visit_permission. apply st_wp_bind. unfold st_wp at 1, st_get. simpl.
  destruct (permission_status_in_cache _ _) as [[]|]; try (by intros e).
  destruct rec as [sat|]; [|by intros e].
  destruct (permission_to_authority (plw_permission a)) as [auth|e0] eqn:E.
  2: { destruct (is_permission_query_exception e0) eqn:Eq; intros e [= <-]. split; eauto. }
  apply st_wp_bind. unfold st_wp at 1, emplace_cached. simpl. apply st_wp_bind.
  eapply st_wp_mono; [by apply Hrec|]. intros s1 [[]|e1] H; [by intros e|by intros e|].
  intros e [= <-]. by apply H.
Qed.

Lemma check_factors_throws rec th fs t s :
  rec_throws rec ->
  st_wp (check_factors permission_to_authority provided_keys provided_delay rec th fs t) s throws_lookup.
Proof.
  intros Hrec. revert t s. induction fs as [|f fs IH]; intros t s; simpl; [by intros e|].
  assert (st_wp (visit permission_to_authority provided_keys provided_delay rec f t) s throws_lookup) as Hv.
  { destruct f as [a|k|w]; simpl; [by apply visit_permission_throws| |by intros e].
    unfold st_wp, visit_key. by destruct (find_key _ _); intros e. }
  apply st_wp_bind. eapply st_wp_mono; [exact Hv|].
  intros s1 [t1|e1] He; [|intros e [= <-]; by apply He]. destruct (t1 >=? th); [by intros e|apply IH].
Qed.

Lemma satisfied_at_throws left auth s :
  st_wp (satisfied_at permission_to_authority provided_keys provided_delay left auth) s throws_lookup.
Proof.
  revert auth s. induction left as [|left IH]; intros auth s; simpl; apply with_key_reverter_wp;
    (eapply st_wp_mono; [apply check_factors_throws|]);
    try (intros sat a s' [=]; subst; apply IH); intros s1 r Hg; by case_decide.
Qed.
End errors.

(** What the class promises of one call with a delay: it changes nothing but
    the marks, marks only keys named under the permission, answers yes only
    for a justified level and throws only what a lookup throws. *)
Lemma satisfied_permission_delay_spec `{FO : FactorOrder, !FactorOrderLaws FO} c perm delay c' r m :
  (forall p a, ac_permission_to_authority c p = Ok a -> authority_typed a) ->
  satisfied_permission_delay c perm delay None = (c', r, m) ->
  c' = with_used_keys c (ac_used_keys c') /\
  length (ac_used_keys c') = length (ac_used_keys c) /\
  (forall i, ac_used_keys c' !! i = Some true -> ac_used_keys c !! i = Some true \/
     exists k auth, ac_provided_keys c !! i = Some k /\ ac_permission_to_authority c perm = Ok auth /\
       names_key (ac_permission_to_authority c) k auth) /\
  (r = Ok true -> checker_level (with_delay c delay) perm) /\
  (forall e, r = Err e -> lookup_error (ac_permission_to_authority c) e).
Proof.
  intros Hpta H. unfold satisfied_permission_delay in H.
  pose proof (satisfied_permission_sound (with_delay c delay) perm Hpta) as Hsound.
  destruct (satisfied_permission (with_delay c delay) perm None) as [[c1 r1] m1] eqn:E. injection H as <- <- <-.
  cbn [fst snd] in Hsound. unfold satisfied_permission, run_check, permission_at in E.
  cbn [with_delay ac_permission_to_authority ac_provided_keys ac_provided_delay ac_recursion_depth_limit
    ac_provided_permissions ac_used_keys] in E.
  set (rec := match Z.to_nat _ with O => None | S l => _ end) in E. set (s := mk_checker_state _ _) in E.
  pose proof (visit_permission_marks (ac_permission_to_authority c) (ac_provided_keys c) rec
    (mk_permission_level_weight perm 1) 0 s) as Hm.
  pose proof (visit_grows (ac_permission_to_authority c) (ac_provided_keys c) delay rec
    (account_factor (mk_permission_level_weight perm 1)) 0 s) as Hg.
  pose proof (visit_permission_throws (ac_permission_to_authority c) rec
    (mk_permission_level_weight perm 1) 0 s) as Ht.
  specialize (Hm ltac:(unfold rec; destruct (Z.to_nat _); intros ??? [=]; subst; apply satisfied_at_marks)).
  specialize (Hg ltac:(unfold rec; destruct (Z.to_nat _); intros ??? [=]; subst; apply satisfied_at_reverts)).
  specialize (Ht ltac:(unfold rec; destruct (Z.to_nat _); intros ??? [=]; subst; apply satisfied_at_throws)).
  unfold st_wp, mbind, stateful_bind, st_bind in E, Hm, Hg, Ht. cbn [visit] in Hg.
  destruct (visit_permission _ _ _ _ _) as [s' [w|e]]; cbn [st_ret] in E; injection E as <- <- _; cbn.
  all: split_and!; [done| | |exact Hsound|].
  all: try (unfold grows, keys_grow in Hg; symmetry; eapply Forall2_length; exact Hg).
  all: try (intros i Hi; destruct (Hm i Hi) as [|(k & Hk & auth & Ha & Hn)]; [by left|right; by exists k, auth]).
  - done.
  - intros e0 [= <-]. by apply Ht.
Qed.

(** Key accounting of a check: the marks of used keys only grow, a check
    that answers no or throws leaves the checker exactly as it was, and the
    overload with a delay puts the checker's own delay back. *)
Theorem used_keys_discipline `{FO : FactorOrder} c auth cached_perms delay :
  let c' := (satisfied_authority c auth cached_perms).1.1 in
  let r := (satisfied_authority c auth cached_perms).1.2 in
  keys_grow (ac_used_keys c) (ac_used_keys c') /\
  (r <> Ok true -> c' = c) /\
  (let d := (satisfied_authority_delay c auth delay cached_perms).1 in
   ac_provided_delay d.1 = ac_provided_delay c /\ (d.2 <> Ok true -> d.1 = c)).
Proof.
  assert (forall c, let c' := (satisfied_authority c auth cached_perms).1.1 in
    let r := (satisfied_authority c auth cached_perms).1.2 in
    keys_grow (ac_used_keys c) (ac_used_keys c') /\ (r <> Ok true -> c' = c)) as H.
  { clear c. intros c. unfold satisfied_authority, run_check.
    pose proof (satisfied_at_reverts (ac_permission_to_authority c) (ac_provided_keys c)
      (ac_provided_delay c) (Z.to_nat (ac_recursion_depth_limit c)) auth
      (mk_checker_state (ac_used_keys c)
        (match cached_perms with None => initialize_permission_cache (ac_provided_permissions c)
                               | Some m => m end))) as Hr.
    unfold st_wp in Hr. destruct (satisfied_at _ _ _ _ _ _) as [s r]. destruct Hr as [Hg Hr].
    split; [done|]. simpl in *. intros Hne. rewrite (Hr Hne). by destruct c. }
  intros c' r. destruct (H c) as [H1 H2]. split_and!; [done|done|].
  unfold satisfied_authority_delay. destruct (H (with_delay c delay)) as [_ H3].
  destruct (satisfied_authority (with_delay c delay) auth cached_perms) as [[c2 r2] m].
  split; [done|]. intros Hne. simpl in *. rewrite (H3 Hne). by destruct c.
Qed.

Lemma filter_data_by_marker_partition {A} (data : list A) markers :
  length data = length markers ->
  filter_data_by_marker data markers true ++ filter_data_by_marker data markers false ≡ₚ data.
Proof.
  revert markers. induction data as [|d data IH]; intros [|[] markers] Hl; simpl in *; try done.
  - constructor. apply IH. congruence.
  - rewrite <- Permutation_middle. constructor. apply IH. congruence.
Qed.

(** [used_keys] and [unused_keys] partition the provided keys, and
    [all_keys_used] holds exactly when no key is unused. *)
Theorem used_keys_partition c :
  length (ac_used_keys c) = length (ac_provided_keys c) ->
  used_keys c ++ unused_keys c ≡ₚ ac_provided_keys c /\
  (all_keys_used c = true <-> unused_keys c = []).
Proof.
  intros Hl. split; [by apply filter_data_by_marker_partition|].
  unfold all_keys_used, unused_keys. revert Hl.
  generalize (ac_provided_keys c), (ac_used_keys c). intros ks us.
  revert ks. induction us as [|[] us IH]; intros [|k ks] Hl; simpl in *; try done.
  apply IH. congruence.
Qed.

(** ** Evaluating the checker

    A concrete order that satisfies the law of the multimap. *)

#[export] Instance factor_before_dec : RelDecision factor_before.
Proof. intros f g. unfold factor_before. apply _. Defined.

#[export] Instance factor_before_total : Total factor_before.
Proof. intros f g. unfold factor_before. lia. Qed.

Definition reference_order : FactorOrder := merge_sort factor_before.

Lemma reference_order_laws : FactorOrderLaws reference_order.
Proof.
  split; intros l; [apply merge_sort_Permutation|].
  apply Sorted_merge_sort. apply _.
Qed.

(** Two permissions of account 1: P (permission 1) may act by a key or by Q,
    and Q (permission 2) by P. *)
Definition level_P : permission_level := mk_permission_level 1 1.
Definition level_Q : permission_level := mk_permission_level 1 2.
Definition cyclic_pta (p : permission_level) : outcome authority :=
  if decide (p = level_P)
  then Ok (mk_authority 1 [mk_key_weight (K1 [7]) 1] [mk_permission_level_weight level_Q 2] [])
  else if decide (p = level_Q)
  then Ok (mk_authority 1 [] [mk_permission_level_weight level_P 1] [])
  else Err (Throw permission_query_exception).

Definition cyclic_checker : authority_checker := make_auth_checker cyclic_pta 6 [K1 [7]] [] 0.
Definition P_and_Q : authority :=
  mk_authority 3 [] [mk_permission_level_weight level_P 2; mk_permission_level_weight level_Q 1] [].

(** On a cyclic hierarchy the answer can be no although the provided keys
    suffice: Q is cached as unsatisfied while P is being evaluated, and the
    cached answer is used again after P turned out to be satisfied. *)
Theorem satisfied_incomplete_on_cycles :
  (satisfied_authority (FO := reference_order) cyclic_checker P_and_Q None).1.2 = Ok false /\
  checker_authorized cyclic_checker P_and_Q.
Proof.
  split; [vm_compute; reflexivity|].
  assert (justified_level cyclic_pta [K1 [7]] [] 0 level_P) as HP.
  { apply (level_authority _ _ _ _ _
      (mk_authority 1 [mk_key_weight (K1 [7]) 1] [mk_permission_level_weight level_Q 2] []));
      [reflexivity|].
    apply (authorized_by _ _ _ _ _ [key_factor (mk_key_weight (K1 [7]) 1)]).
    - apply submseteq_cons, submseteq_skip, submseteq_nil.
    - constructor; [|done]. constructor. simpl. set_solver.
    - simpl. lia. }
  apply (authorized_by _ _ _ _ _ (all_factors P_and_Q)); [done| |simpl; lia].
  constructor; [by constructor; left|]. constructor; [|done]. constructor. left.
  apply (level_authority _ _ _ _ _ (mk_authority 1 [] [mk_permission_level_weight level_P 1] []));
    [reflexivity|].
  apply (authorized_by _ _ _ _ _ [account_factor (mk_permission_level_weight level_P 1)]);
    [done| |simpl; lia].
  constructor; [|done]. constructor. by left.
Qed.

(** A two-level hierarchy: permission 2 of account 1 may act by a key. *)
Definition flat_pta (p : permission_level) : outcome authority :=
  if decide (p = level_Q) then Ok (mk_authority 1 [mk_key_weight (K1 [7]) 1] [] [])
  else Err (Throw permission_query_exception).

Definition flat_checker : authority_checker := make_auth_checker flat_pta 6 [K1 [7]] [] 0.
Definition needs_Q : authority := mk_authority 1 [] [mk_permission_level_weight level_Q 1] [].

Lemma flat_pta_inv p a :
  flat_pta p = Ok a -> p = level_Q /\ a = mk_authority 1 [mk_key_weight (K1 [7]) 1] [] [].
Proof. unfold flat_pta. case_decide; [|done]. by intros [= <-]. Qed.

Lemma satisfied_sound_witness :
  ((satisfied_authority (FO := reference_order) flat_checker needs_Q None).1.2 = Ok true ->
   checker_authorized flat_checker needs_Q) /\
  ((satisfied_permission (FO := reference_order) flat_checker level_Q None).1.2 = Ok true ->
   checker_level flat_checker level_Q).
Proof.
  apply (satisfied_sound (FO := reference_order) (FactorOrderLaws0 := reference_order_laws)
           flat_checker needs_Q level_Q).
  - intros p a [_ ->]%flat_pta_inv. repeat constructor; vm_compute; done.
  - repeat constructor; vm_compute; done.
Defined.

Lemma used_keys_partition_witness :
  used_keys cyclic_checker ++ unused_keys cyclic_checker ≡ₚ ac_provided_keys cyclic_checker /\
  (all_keys_used cyclic_checker = true <-> unused_keys cyclic_checker = []).
Proof. apply (used_keys_partition cyclic_checker). reflexivity. Defined.
