(* ===== verification/UsageAccumulator.v ===== *)
(** * Usage accumulators and elastic limits

    Models the [impl] namespace of resource_limits_private.hpp (ratios,
    integer_divide_ceil, downgrade_cast and the exponential moving average
    accumulator) and update_elastic_limit and
    elastic_limit_parameters::validate of resource_limits.cpp.

    The theorems show that [add] computes the decayed average exactly (no
    step wraps), that it leaves the accumulator untouched when it throws,
    when it throws, and that the elastic limit stays between its floor and
    its ceiling. *)

From S2P Require Import Prelude Exceptions.

Definition rate_limiting_precision : Z := 1000 * 1000.

Record ratio := mk_ratio { numerator : Z; denominator : Z }.
#[export] Instance ratio_eq_dec : EqDecision ratio.
Proof. solve_decision. Defined.

Definition make_ratio (n d : Z) : ratio := mk_ratio n d.

(** [value * r] on uint64_t; a zero denominator is undefined. *)
Definition ratio_mul (value : Z) (r : ratio) : outcome Z :=
  ine_assert ((numerator r =? 0) || (UINT64_MAX / numerator r >=? value))
    (Throw rate_limiting_state_inconsistent) ;;
  ine_assert (negb (denominator r =? 0)) undefined_behaviour ;;
  Ok (u64 (value * numerator r) / denominator r).

(** [num] and [den] unsigned, [den] not zero. *)
Definition integer_divide_ceil (num den : Z) : Z :=
  num / den + (if num mod den >? 0 then 1 else 0).

(** [downgrade_cast<uint64_t>( uint128_t )] and [downgrade_cast<int64_t>( uint128_t )]. *)
Definition downgrade_cast_uint64 (val : Z) : outcome Z :=
  ine_assert ((val >=? 0) && (val <=? UINT64_MAX)) (Throw rate_limiting_state_inconsistent) ;;
  Ok val.

Definition downgrade_cast_int64 (val : Z) : outcome Z :=
  ine_assert ((val >=? 0) && (val <=? INT64_MAX)) (Throw rate_limiting_state_inconsistent) ;;
  Ok val.

(** ** The accumulator *)

Record usage_accumulator := mk_accumulator {
  last_ordinal : Z; (* uint32_t *)
  value_ex : Z;     (* uint64_t *)
  consumed : Z      (* uint64_t *)
}.
#[export] Instance usage_accumulator_eq_dec : EqDecision usage_accumulator.
Proof. solve_decision. Defined.

Definition new_accumulator : usage_accumulator := mk_accumulator 0 0 0.

Definition max_raw_value : Z := UINT64_MAX / rate_limiting_precision.

Definition average (a : usage_accumulator) : Z :=
  integer_divide_ceil (value_ex a) rate_limiting_precision.

Definition set_value_ex (v : Z) : stateful exn usage_accumulator unit :=
  fun a => (mk_accumulator (last_ordinal a) v (consumed a), Ok tt).
Definition set_last_ordinal (o : Z) : stateful exn usage_accumulator unit :=
  fun a => (mk_accumulator o (value_ex a) (consumed a), Ok tt).
Definition set_consumed (c : Z) : stateful exn usage_accumulator unit :=
  fun a => (mk_accumulator (last_ordinal a) (value_ex a) c, Ok tt).

(** [add]: the assignments are made one at a time, so that an exception
    would show the state reached. *)
Definition add (units ordinal window_size : Z) : stateful exn usage_accumulator unit :=
  a ← st_get;
  st_lift (ine_assert (units <=? max_raw_value) (Throw rate_limiting_state_inconsistent)) ;;
  st_lift (ine_assert (u64 (UINT64_MAX - consumed a) >=? units)
             (Throw rate_limiting_state_inconsistent)) ;;
  st_lift (ine_assert (negb (window_size =? 0)) undefined_behaviour) ;;
  value_ex_contrib ← st_lift (downgrade_cast_uint64
    (integer_divide_ceil (u128 (units * rate_limiting_precision)) window_size));
  st_lift (ine_assert (u64 (UINT64_MAX - value_ex a) >=? value_ex_contrib)
             (Throw rate_limiting_state_inconsistent)) ;;
  (if negb (last_ordinal a =? ordinal) then
     st_lift (ine_assert (ordinal >? last_ordinal a) (Throw resource_limit_exception)) ;;
     (if u64 (last_ordinal a + window_size) >? ordinal then
        let delta := u32 (ordinal - last_ordinal a) in
        let decay := make_ratio (u64 (window_size - delta)) window_size in
        v ← st_lift (ratio_mul (value_ex a) decay);
        set_value_ex v
      else set_value_ex 0) ;;
     set_last_ordinal ordinal ;;
     a ← st_get;
     set_consumed (average a)
   else st_ret tt) ;;
  a ← st_get;
  set_consumed (u64 (consumed a + units)) ;;
  set_value_ex (u64 (value_ex a + value_ex_contrib)).

(** ** Elastic limits *)

Record elastic_limit_parameters := mk_elastic {
  target : Z;          (* uint64_t *)
  max : Z;             (* uint64_t *)
  periods : Z;         (* uint32_t *)
  max_multiplier : Z;  (* uint32_t *)
  contract_rate : ratio;
  expand_rate : ratio
}.
#[export] Instance elastic_limit_parameters_eq_dec : EqDecision elastic_limit_parameters.
Proof. solve_decision. Defined.

Definition update_elastic_limit (current_limit average_usage : Z)
    (params : elastic_limit_parameters) : outcome Z :=
  result ← (if average_usage >? target params
            then ratio_mul current_limit (contract_rate params)
            else ratio_mul current_limit (expand_rate params));
  Ok (Z.min (Z.max result (max params)) (u64 (max params * max_multiplier params))).

Definition elastic_validate (p : elastic_limit_parameters) : outcome unit :=
  ine_assert (periods p >? 0) (Throw resource_limit_exception) ;;
  ine_assert (denominator (contract_rate p) >? 0) (Throw resource_limit_exception) ;;
  ine_assert (denominator (expand_rate p) >? 0) (Throw resource_limit_exception).

(** ** [add] against its reference *)

Definition accumulator_typed (a : usage_accumulator) : Prop :=
  is_uint 32 (last_ordinal a) /\ is_uint 64 (value_ex a) /\ is_uint 64 (consumed a).

Definition ceil_div (n d : Z) : Z := (n + d - 1) / d.

Lemma integer_divide_ceil_spec n d : 0 < d -> integer_divide_ceil n d = ceil_div n d.
Proof.
  intros Hd. unfold integer_divide_ceil, ceil_div.
  pose proof (Z.mod_pos_bound n d Hd). pose proof (Z.div_mod n d).
  destruct (Z.gtb_spec (n mod d) 0).
  - apply (Z.div_unique _ _ _ (n mod d - 1)); lia.
  - rewrite Z.add_0_r. apply (Z.div_unique _ _ _ (d - 1)); lia.
Qed.

Lemma ceil_div_bound n d b : 0 < d -> n <= b * d -> ceil_div n d <= b.
Proof. intros Hd Hn. unfold ceil_div. apply Z.lt_succ_r, Z.div_lt_upper_bound; lia. Qed.

Lemma ceil_div_nonneg n d : 0 < d -> 0 <= n -> 0 <= ceil_div n d.
Proof. intros. unfold ceil_div. apply Z.div_pos; lia. Qed.

(** What is left of the average at a later ordinal: it falls linearly to zero
    over the window. *)
Definition decayed (a : usage_accumulator) (ordinal window_size : Z) : Z :=
  if last_ordinal a =? ordinal then value_ex a
  else if last_ordinal a + window_size >? ordinal
  then value_ex a * (window_size - (ordinal - last_ordinal a)) / window_size
  else 0.

Definition contribution (units window_size : Z) : Z :=
  ceil_div (units * rate_limiting_precision) window_size.

Definition add_result (a : usage_accumulator) (units ordinal window_size : Z) :
  usage_accumulator :=
  mk_accumulator ordinal
    (decayed a ordinal window_size + contribution units window_size)
    ((if last_ordinal a =? ordinal then consumed a
      else ceil_div (decayed a ordinal window_size) rate_limiting_precision) + units).

(** When [add] throws, and which exception. *)
Definition add_error (a : usage_accumulator) (units ordinal window_size : Z) :
  option exception_type :=
  if (max_raw_value <? units) || (UINT64_MAX <? consumed a + units)
     || (UINT64_MAX <? value_ex a + contribution units window_size)
  then Some rate_limiting_state_inconsistent
  else if ordinal <? last_ordinal a then Some resource_limit_exception
  else if (last_ordinal a <? ordinal) && (ordinal <? last_ordinal a + window_size)
          && (UINT64_MAX <? value_ex a * (window_size - (ordinal - last_ordinal a)))
  then Some rate_limiting_state_inconsistent
  else None.

Lemma div_geb n d x : 0 < d -> (n / d >=? x) = negb (n <? d * x).
Proof.
  intros Hd. rewrite Z.geb_leb. pose proof (Z.div_mod n d). pose proof (Z.mod_pos_bound n d Hd).
  destruct (Z.leb_spec x (n / d)), (Z.ltb_spec n (d * x)); try done; nia.
Qed.

(** The scaling by a proper fraction, checked for overflow. *)
Lemma ratio_mul_fraction v n d :
  is_uint 64 v -> 0 < n <= d ->
  ratio_mul v (make_ratio n d) =
  if UINT64_MAX <? v * n then Err (Throw rate_limiting_state_inconsistent)
  else Ok (v * n / d).
Proof.
  unfold is_uint. intros Hv Hn. unfold ratio_mul, make_ratio. simpl.
  destruct (Z.eqb_spec n 0); [lia|]. simpl. rewrite div_geb, (Z.mul_comm n v) by lia.
  destruct (Z.ltb_spec UINT64_MAX (v * n)); simpl; [done|].
  destruct (Z.eqb_spec d 0); [lia|]. simpl. by rewrite wrap_id by (unfold is_uint; nia).
Qed.

Lemma decayed_range a ordinal w :
  accumulator_typed a -> 0 < w -> 0 <= decayed a ordinal w <= value_ex a \/ ordinal < last_ordinal a.
Proof.
  intros (_ & Hv & _) Hw. unfold is_uint in Hv. unfold decayed.
  destruct (Z.eqb_spec (last_ordinal a) ordinal); [left; lia|].
  destruct (decide (ordinal < last_ordinal a)); [auto|]. left.
  destruct (Z.gtb_spec (last_ordinal a + w) ordinal); [|lia]. split.
  - apply Z.div_pos; nia.
  - apply Z.div_le_upper_bound; nia.
Qed.

Lemma contribution_range units w :
  0 <= units <= max_raw_value -> 1 <= w ->
  0 <= contribution units w <= UINT64_MAX /\ units * rate_limiting_precision <= UINT64_MAX.
Proof.
  unfold max_raw_value, rate_limiting_precision. intros Hu Hw.
  assert (units * (1000 * 1000) <= UINT64_MAX) as H.
  { pose proof (Z.mul_div_le UINT64_MAX (1000 * 1000)). lia. }
  split; [|done]. unfold contribution, rate_limiting_precision. split.
  - apply ceil_div_nonneg; lia.
  - apply ceil_div_bound; nia.
Qed.

(** The block [if( last_ordinal != ordinal ) ...] of [add]. *)
Definition age (a : usage_accumulator) (ordinal w : Z) : stateful exn usage_accumulator unit :=
  if negb (last_ordinal a =? ordinal) then
    st_lift (ine_assert (ordinal >? last_ordinal a) (Throw resource_limit_exception)) ;;
    (if u64 (last_ordinal a + w) >? ordinal then
       v ← st_lift (ratio_mul (value_ex a)
              (make_ratio (u64 (w - u32 (ordinal - last_ordinal a))) w));
       set_value_ex v
     else set_value_ex 0) ;;
    set_last_ordinal ordinal ;;
    a ← st_get;
    set_consumed (average a)
  else st_ret tt.

(** The part of [add] after the checks on the units. *)
Lemma add_checks a units ordinal w :
  accumulator_typed a -> is_uint 64 units -> is_uint 32 ordinal -> 0 < w < 2 ^ 32 ->
  add units ordinal w a =
  if (max_raw_value <? units) || (UINT64_MAX <? consumed a + units)
     || (UINT64_MAX <? value_ex a + contribution units w)
  then (a, Err (Throw rate_limiting_state_inconsistent))
  else
  (age a ordinal w ;;
   a ← st_get;
   set_consumed (u64 (consumed a + units)) ;;
   set_value_ex (u64 (value_ex a + contribution units w))) a.
Proof.
  intros (Hl & Hv & Hc) Hu Ho Hw. unfold is_uint in *.
  unfold add, age. rewrite st_get_bind, st_assert_bind, Z.leb_antisym.
  destruct (Z.ltb_spec max_raw_value units) as [|Hmax]; [done|]. cbn [negb orb].
  rewrite st_assert_bind, (wrap_id 64 (UINT64_MAX - consumed a)) by (unfold is_uint; lia).
  destruct (Z.ltb_spec UINT64_MAX (consumed a + units)), (Z.geb_spec (UINT64_MAX - consumed a) units);
    try lia; [done|]. cbn [orb].
  rewrite st_assert_bind. destruct (Z.eqb_spec w 0); [lia|]. cbn [negb].
  destruct (contribution_range units w) as [Hcr Hp]; [lia|lia|].
  rewrite integer_divide_ceil_spec, (wrap_id 128)
    by (unfold is_uint, rate_limiting_precision in *; lia).
  fold (contribution units w). unfold downgrade_cast_uint64.
  rewrite Z.geb_leb, (proj2 (Z.leb_le 0 _)), (proj2 (Z.leb_le _ UINT64_MAX)) by lia.
  cbn [andb ine_assert mbind result_bind]. rewrite st_ok_bind, st_assert_bind.
  rewrite (wrap_id 64 (UINT64_MAX - value_ex a)) by (unfold is_uint; lia).
  by destruct (Z.ltb_spec UINT64_MAX (value_ex a + contribution units w)),
    (Z.geb_spec (UINT64_MAX - value_ex a) (contribution units w)); try lia.
Qed.

(** The final assignments, which do not wrap. *)
Lemma add_finish (m : stateful exn usage_accumulator unit) a a' units c :
  m a = (a', Ok tt) -> is_uint 64 (consumed a' + units) -> is_uint 64 (value_ex a' + c) ->
  (m ;; a ← st_get; set_consumed (u64 (consumed a + units)) ;;
        set_value_ex (u64 (value_ex a + c))) a =
  (mk_accumulator (last_ordinal a') (value_ex a' + c) (consumed a' + units), Ok tt).
Proof.
  intros Hm H1 H2. unfold mbind, stateful_bind, st_bind. rewrite Hm. simpl.
  by rewrite !wrap_id.
Qed.

Lemma age_spec a ordinal w :
  accumulator_typed a -> is_uint 32 ordinal -> 0 < w < 2 ^ 32 ->
  age a ordinal w a =
  if ordinal <? last_ordinal a then (a, Err (Throw resource_limit_exception))
  else if (last_ordinal a <? ordinal) && (ordinal <? last_ordinal a + w)
          && (UINT64_MAX <? value_ex a * (w - (ordinal - last_ordinal a)))
  then (a, Err (Throw rate_limiting_state_inconsistent))
  else (mk_accumulator ordinal (decayed a ordinal w)
          (if last_ordinal a =? ordinal then consumed a
           else ceil_div (decayed a ordinal w) rate_limiting_precision), Ok tt).
Proof.
  intros (Hl & Hv & Hc) Ho Hw. unfold is_uint in *. unfold age, decayed.
  destruct (Z.eqb_spec (last_ordinal a) ordinal) as [E|E]; cbn [negb].
  { rewrite E, Z.ltb_irrefl. simpl. unfold st_ret. rewrite <- E. by destruct a. }
  rewrite st_assert_bind.
  destruct (Z.gtb_spec ordinal (last_ordinal a)), (Z.ltb_spec ordinal (last_ordinal a));
    try lia; [|done].
  rewrite (proj2 (Z.ltb_lt (last_ordinal a) ordinal)) by lia. cbn [andb].
  rewrite (wrap_id 64 (last_ordinal a + w)), (wrap_id 32) by (unfold is_uint; lia).
  destruct (Z.gtb_spec (last_ordinal a + w) ordinal), (Z.ltb_spec ordinal (last_ordinal a + w));
    try lia; cbn [andb].
  - rewrite (wrap_id 64 (w - _)), ratio_mul_fraction by (unfold is_uint; lia || lia).
    destruct (Z.ltb_spec UINT64_MAX (value_ex a * (w - (ordinal - last_ordinal a)))); [done|].
    unfold mbind, stateful_bind, st_bind; simpl. unfold average.
    by rewrite integer_divide_ceil_spec by done.
  - unfold mbind, stateful_bind, st_bind; simpl. unfold average.
    by rewrite integer_divide_ceil_spec by done.
Qed.

(** The values [add] ends with are representable. *)
Lemma add_result_range a units ordinal w :
  accumulator_typed a -> 0 <= units <= max_raw_value -> 0 < w -> last_ordinal a <= ordinal ->
  consumed a + units <= UINT64_MAX -> value_ex a + contribution units w <= UINT64_MAX ->
  is_uint 64 (value_ex (add_result a units ordinal w)) /\
  is_uint 64 (consumed (add_result a units ordinal w)).
Proof.
  intros Ha Hu Hw Ho Hc Hv. destruct (contribution_range units w) as [Hcr _]; [lia|lia|].
  destruct (decayed_range a ordinal w Ha Hw) as [Hd|Hd]; [|lia].
  destruct Ha as (_ & Hva & Hca). unfold is_uint in *. simpl. split; [lia|].
  destruct (last_ordinal a =? ordinal); [lia|].
  assert (0 <= ceil_div (decayed a ordinal w) rate_limiting_precision <= 2 ^ 45).
  { unfold rate_limiting_precision. split; [apply ceil_div_nonneg|apply ceil_div_bound]; lia. }
  assert (max_raw_value < 2 ^ 45) by done. lia.
Qed.

Lemma add_spec a units ordinal w :
  accumulator_typed a -> is_uint 64 units -> is_uint 32 ordinal -> 0 < w < 2 ^ 32 ->
  add units ordinal w a =
  match add_error a units ordinal w with
  | Some e => (a, Err (Throw e))
  | None => (add_result a units ordinal w, Ok tt)
  end.
Proof.
  intros Ha Hu Ho Hw. rewrite add_checks by done. unfold add_error.
  destruct (_ || _) eqn:E; [done|]. bool_to_prop.
  pose proof (age_spec a ordinal w Ha Ho Hw) as Hage.
  destruct (Z.ltb_spec ordinal (last_ordinal a)).
  { unfold mbind at 1, stateful_bind, st_bind. by rewrite Hage. }
  destruct (_ && _).
  { unfold mbind at 1, stateful_bind, st_bind. by rewrite Hage. }
  unfold is_uint in Hu. destruct (add_result_range a units ordinal w) as [Hr1 Hr2]; try done; try lia.
  by rewrite (add_finish _ _ _ _ _ Hage).
Qed.

Lemma add_typed units ordinal w a a' :
  accumulator_typed a -> is_uint 64 units -> is_uint 32 ordinal -> 0 < w < 2 ^ 32 ->
  add units ordinal w a = (a', Ok tt) -> accumulator_typed a'.
Proof.
  intros Ha Hu Ho Hw. rewrite add_spec by done. unfold add_error, is_uint in *.
  destruct (_ || _) eqn:E; [done|]. bool_to_prop.
  destruct (Z.ltb_spec ordinal (last_ordinal a)); [done|]. destruct (_ && _); [done|].
  intros [= <-]. destruct (add_result_range a units ordinal w) as [Hr1 Hr2]; try done; try lia.
Qed.

(** [add] behaves exactly as its reference.  On well-typed members and a
    positive window it throws in the cases [add_error] lists, leaving the
    accumulator as it was; otherwise the average decays linearly with the
    ordinals that passed (to zero once a whole window passed), the units are
    added, spread over the window and rounded up, and [consumed] restarts
    from the decayed average.  No machine operation wraps. *)
Theorem accumulator_add_exact a units ordinal w :
  accumulator_typed a -> is_uint 64 units -> is_uint 32 ordinal -> 0 < w < 2 ^ 32 ->
  add units ordinal w a =
  match add_error a units ordinal w with
  | Some e => (a, Err (Throw e))
  | None => (add_result a units ordinal w, Ok tt)
  end.
Proof. apply add_spec. Qed.

Lemma accumulator_add_exact_witness :
  add 700 7 10 (mk_accumulator 5 1000000 900) =
  (add_result (mk_accumulator 5 1000000 900) 700 7 10, Ok tt).
Proof.
  exact (accumulator_add_exact (mk_accumulator 5 1000000 900) 700 7 10
    ltac:(repeat constructor; vm_compute; done) ltac:(vm_compute; done) ltac:(vm_compute; done)
    ltac:(vm_compute; done)).
Defined.

(** ** Elastic limits *)

Definition elastic_typed (p : elastic_limit_parameters) : Prop :=
  is_uint 64 (max p) /\ is_uint 32 (max_multiplier p) /\
  0 <= numerator (contract_rate p) /\ 0 <= numerator (expand_rate p).

Lemma ratio_mul_ok v r x :
  is_uint 64 v -> 0 <= numerator r -> 0 < denominator r -> ratio_mul v r = Ok x ->
  x = v * numerator r / denominator r.
Proof.
  unfold is_uint, ratio_mul. intros Hv Hn Hd H. invert_ok. subst.
  apply orb_true_iff in H0 as [H0|H0].
  - bool_to_prop. rewrite H0, Z.mul_0_r. done.
  - destruct (decide (numerator r = 0)) as [->|]; [by rewrite Z.mul_0_r|].
    rewrite div_geb in H0 by lia. bool_to_prop.
    rewrite wrap_id by (unfold is_uint; nia). done.
Qed.

Lemma ratio_mul_error v r e :
  0 < denominator r -> ratio_mul v r = Err e -> e = Throw rate_limiting_state_inconsistent.
Proof.
  unfold ratio_mul. intros Hd. destruct (_ || _); simpl; [|by intros [= <-]].
  destruct (Z.eqb_spec (denominator r) 0); [lia|done].
Qed.

(** With parameters that passed [validate], a multiplier of at least one
    and a ceiling max * max_multiplier that fits in 64 bits, the new elastic
    limit lies between the floor and the ceiling; under congestion a
    contracting rate does not raise it above the current limit or the floor,
    and without congestion an expanding rate does not lower it below the
    current limit or the ceiling.  The only exception is the overflow check
    of the rate. *)
Theorem elastic_limit_bounds current avg p :
  elastic_typed p -> is_uint 64 current -> elastic_validate p = Ok tt ->
  1 <= max_multiplier p -> max p * max_multiplier p <= UINT64_MAX ->
  match update_elastic_limit current avg p with
  | Err e => e = Throw rate_limiting_state_inconsistent
  | Ok r =>
      max p <= r <= max p * max_multiplier p /\
      (target p < avg -> numerator (contract_rate p) <= denominator (contract_rate p) ->
       r <= Z.max current (max p)) /\
      (avg <= target p -> denominator (expand_rate p) <= numerator (expand_rate p) ->
       Z.min current (max p * max_multiplier p) <= r)
  end.
Proof.
  intros (Hm & Hmm & Hc & He) Hcur Hval H1 Hmax. unfold elastic_validate in Hval. invert_ok.
  bool_to_prop. unfold update_elastic_limit. rewrite wrap_id by (unfold is_uint in *; nia).
  unfold is_uint in Hm. pose proof Hcur as Hcur'. unfold is_uint in Hcur'.
  destruct (Z.gtb_spec avg (target p)).
  - destruct (ratio_mul current (contract_rate p)) as [x|e] eqn:E; simpl;
      [|by apply ratio_mul_error in E].
    apply ratio_mul_ok in E; [|done..]. split_and!; [nia|nia| |lia]. intros _ Hle.
    assert (x <= current); [|nia]. subst x. apply Z.div_le_upper_bound; [done|nia].
  - destruct (ratio_mul current (expand_rate p)) as [x|e] eqn:E; simpl;
      [|by apply ratio_mul_error in E].
    apply ratio_mul_ok in E; [|done..]. split_and!; [nia|nia|lia|]. intros _ Hle.
    assert (current <= x); [|nia]. subst x. apply Z.div_le_lower_bound; [done|nia].
Qed.

(** The parameters a chain starts with (cpu). *)
Definition default_cpu_parameters : elastic_limit_parameters :=
  mk_elastic 20000 200000 120 1000 (mk_ratio 99 100) (mk_ratio 1000 999).

Lemma elastic_limit_bounds_witness :
  match update_elastic_limit 200000 0 default_cpu_parameters with
  | Err e => e = Throw rate_limiting_state_inconsistent
  | Ok r => 200000 <= r <= 200000 * 1000 /\
            (20000 < 0 -> 99 <= 100 -> r <= Z.max 200000 200000) /\
            (0 <= 20000 -> 999 <= 1000 -> Z.min 200000 (200000 * 1000) <= r)
  end.
Proof.
  apply (elastic_limit_bounds 200000 0 default_cpu_parameters);
    [repeat constructor; vm_compute; done|vm_compute; done|reflexivity|vm_compute; done
    |vm_compute; done].
Defined.

Lemma update_elastic_limit_typed current avg p r :
  update_elastic_limit current avg p = Ok r ->
  elastic_typed p -> is_uint 64 current -> elastic_validate p = Ok tt -> is_uint 64 r.
Proof.
  intros H (Hm & _ & Hc & He) Hcur Hval. unfold elastic_validate in Hval.
  unfold update_elastic_limit in H. apply bind_ok in H as (x & Hx & [= <-]).
  invert_ok. bool_to_prop.
  pose proof (wrap_range 64 (max p * max_multiplier p) ltac:(lia)).
  assert (0 <= x); [|unfold is_uint in *; lia].
  destruct (avg >? target p); apply ratio_mul_ok in Hx; auto; subst; unfold is_uint in *;
    apply Z.div_pos; nia.
Qed.

Lemma update_elastic_limit_range current avg p r :
  update_elastic_limit current avg p = Ok r ->
  is_uint 64 (max p) -> 1 <= max_multiplier p -> max p * max_multiplier p <= UINT64_MAX ->
  max p <= r <= max p * max_multiplier p.
Proof.
  unfold update_elastic_limit, is_uint. intros H Hm H1 H2. apply bind_ok in H as (x & _ & [= <-]).
  rewrite wrap_id by (unfold is_uint; nia). nia.
Qed.
