(* ===== verification/ResourceLimits.v ===== *)
(** * The resource limits manager

    Models resource_limits.cpp and the database objects of
    resource_limits_private.hpp.  The four chainbase tables are the fields of
    [rl_db]: the limits are a map from (pending, owner), the composite key of
    the index by_owner, the usages a map from owner, and the configuration
    and the state are single objects.  [_db.get] throws std::out_of_range on
    a missing key and [_db.create] std::logic_error on a duplicate one
    (chainbase.hpp).

    An operation returns the database it leaves, or the exception it throws.
    What a throwing operation leaves behind is not modelled: it depends on
    the container of Boost, and the callers run inside a chainbase session
    that is then undone.

    The theorems show that the totals the manager keeps are the sums of the
    accounts' weights and survive every operation, that the loop of
    process_account_limit_updates terminates and applies exactly the pending
    limits, that the shares handed out to the accounts never exceed the
    capacity, and what each operation guarantees when it returns. *)

From S2P Require Import Prelude Exceptions UsageAccumulator.

(** ** The tables *)

(** A row of resource_limits_index; its owner and the flag pending are the
    key under which it is stored. *)
Record resource_limits_object := mk_limits {
  net_weight : Z; (* int64_t *)
  cpu_weight : Z; (* int64_t *)
  mem_bytes : Z   (* int64_t *)
}.

Record resource_usage_object := mk_usage {
  net_usage : usage_accumulator;
  cpu_usage : usage_accumulator;
  mem_usage : Z   (* uint64_t *)
}.

Record resource_limits_config_object := mk_config {
  cpu_limit_parameters : elastic_limit_parameters;
  net_limit_parameters : elastic_limit_parameters;
  account_cpu_usage_average_window : Z; (* uint32_t *)
  account_net_usage_average_window : Z  (* uint32_t *)
}.

Record resource_limits_state_object := mk_state {
  average_block_net_usage : usage_accumulator;
  average_block_cpu_usage : usage_accumulator;
  pending_net_usage : Z;
  pending_cpu_usage : Z;
  total_net_weight : Z;
  total_cpu_weight : Z;
  total_mem_bytes : Z;
  virtual_net_limit : Z;
  virtual_cpu_limit : Z
}.

Record rl_db := mk_db {
  limits : gmap (bool * Z) resource_limits_object;
  usages : gmap Z resource_usage_object;
  config : resource_limits_config_object;
  state : resource_limits_state_object
}.

Definition with_limits (db : rl_db) l : rl_db := mk_db l (usages db) (config db) (state db).
Definition with_usages (db : rl_db) u : rl_db := mk_db (limits db) u (config db) (state db).
Definition with_config (db : rl_db) c : rl_db := mk_db (limits db) (usages db) c (state db).
Definition with_state (db : rl_db) s : rl_db := mk_db (limits db) (usages db) (config db) s.

(** [_db.get] and [_db.create] *)
Definition db_get {K V} `{Countable K} (m : gmap K V) (k : K) : outcome V :=
  match m !! k with Some v => Ok v | None => Err std_out_of_range end.

Definition db_create {K V} `{Countable K} (m : gmap K V) (k : K) (v : V) : outcome (gmap K V) :=
  match m !! k with Some _ => Err std_logic_error | None => Ok (<[k := v]> m) end.

(** ** Start of a chain *)

Definition percent_100 : Z := 10000.
Definition INE_PERCENT (value percentage : Z) : Z := u64 (value * percentage) / percent_100.
Definition default_max_block_cpu_usage : Z := 200000.
Definition default_max_block_net_usage : Z := 1024 * 1024.
Definition default_target_pct : Z := 10 * 100.
Definition maximum_elastic_resource_multiplier : Z := 1000.
Definition transaction_id_net_usage : Z := 32.

(** The member initialisers of resource_limits_config_object: windows of a
    minute for blocks and of a day for accounts, in blocks of 500 ms. *)
Definition default_config : resource_limits_config_object :=
  mk_config
    (mk_elastic (INE_PERCENT default_max_block_cpu_usage default_target_pct)
       default_max_block_cpu_usage (60 * 1000 / 500) 1000 (mk_ratio 99 100) (mk_ratio 1000 999))
    (mk_elastic (INE_PERCENT default_max_block_net_usage default_target_pct)
       default_max_block_net_usage (60 * 1000 / 500) 1000 (mk_ratio 99 100) (mk_ratio 1000 999))
    (24 * 60 * 60 * 1000 / 500) (24 * 60 * 60 * 1000 / 500).

Definition initialize_database : rl_db :=
  mk_db ∅ ∅ default_config
    (mk_state new_accumulator new_accumulator 0 0 0 0 0
       (max (net_limit_parameters default_config)) (max (cpu_limit_parameters default_config))).

Definition initialize_account (db : rl_db) (account : Z) : outcome rl_db :=
  l ← db_create (limits db) (false, account) (mk_limits (-1) (-1) (-1));
  let db := with_limits db l in
  u ← db_create (usages db) account (mk_usage new_accumulator new_accumulator 0);
  Ok (with_usages db u).

Definition set_block_parameters (db : rl_db) (cpu net : elastic_limit_parameters) : outcome rl_db :=
  elastic_validate cpu ;;
  elastic_validate net ;;
  let c := config db in
  if bool_decide (cpu_limit_parameters c = cpu) && bool_decide (net_limit_parameters c = net)
  then Ok db
  else Ok (with_config db (mk_config cpu net (account_cpu_usage_average_window c)
                             (account_net_usage_average_window c))).

(** ** Usage *)

(** [acc.add( ... )] inside a modify. *)
Definition acc_add (units ordinal window : Z) (a : usage_accumulator) : outcome usage_accumulator :=
  match add units ordinal window a with
  | (a', Ok _) => Ok a'
  | (_, Err e) => Err e
  end.

(** The loop over the accounts of a flat_set, given in its order. *)
Fixpoint for_accounts (body : rl_db -> Z -> outcome rl_db) (db : rl_db) (accounts : list Z) :
  outcome rl_db :=
  match accounts with
  | [] => Ok db
  | a :: accounts' => db ← body db a; for_accounts body db accounts'
  end.

Definition update_account_usage_one (time_slot : Z) (db : rl_db) (a : Z) : outcome rl_db :=
  usage ← db_get (usages db) a;
  net ← acc_add 0 time_slot (account_net_usage_average_window (config db)) (net_usage usage);
  cpu ← acc_add 0 time_slot (account_cpu_usage_average_window (config db)) (cpu_usage usage);
  Ok (with_usages db (<[a := mk_usage net cpu (mem_usage usage)]> (usages db))).

Definition update_account_usage (db : rl_db) (accounts : list Z) (time_slot : Z) : outcome rl_db :=
  for_accounts (update_account_usage_one time_slot) db accounts.

(** [get_account_limits]: the pending limits hide the actual ones. *)
Definition get_account_limits (db : rl_db) (account : Z) : outcome resource_limits_object :=
  match limits db !! (true, account) with
  | Some pending_buo => Ok pending_buo
  | None => db_get (limits db) (false, account)
  end.

Definition verify_account_mem_usage (db : rl_db) (account : Z) : outcome unit :=
  l ← get_account_limits db account;
  usage ← db_get (usages db) account;
  if mem_bytes l >=? 0
  then ine_assert (mem_usage usage <=? u64 (mem_bytes l)) (Throw mem_usage_exceeded)
  else Ok tt.

(** The check of one resource against the account's share of the window. *)
Definition check_share (weight total virtual_limit window value_ex : Z) (e : exception_type) :
  outcome unit :=
  if (weight >=? 0) && (total >? 0) then
    let virtual_network_capacity_in_window := u128 (virtual_limit * window) in
    let used_in_window := u128 (value_ex * window) / rate_limiting_precision in
    let max_user_use_in_window := u128 (virtual_network_capacity_in_window * weight) / total in
    ine_assert (used_in_window <=? max_user_use_in_window) (Throw e)
  else Ok tt.

Definition add_transaction_usage_one (cpu net time_slot : Z) (db : rl_db) (a : Z) : outcome rl_db :=
  let st := state db in
  let cfg := config db in
  usage ← db_get (usages db) a;
  l ← get_account_limits db a;
  verify_account_mem_usage db a ;;
  n ← acc_add net time_slot (account_net_usage_average_window cfg) (net_usage usage);
  c ← acc_add cpu time_slot (account_cpu_usage_average_window cfg) (cpu_usage usage);
  let usage := mk_usage n c (u64 (mem_usage usage + transaction_id_net_usage)) in
  let db := with_usages db (<[a := usage]> (usages db)) in
  check_share (cpu_weight l) (total_cpu_weight st) (virtual_cpu_limit st)
    (account_cpu_usage_average_window cfg) (value_ex (cpu_usage usage)) tx_cpu_usage_exceeded ;;
  check_share (net_weight l) (total_net_weight st) (virtual_net_limit st)
    (account_net_usage_average_window cfg) (value_ex (net_usage usage)) tx_net_usage_exceeded ;;
  verify_account_mem_usage db a ;;
  Ok db.

Definition set_pending_usage (s : resource_limits_state_object) (cpu net : Z) :
  resource_limits_state_object :=
  mk_state (average_block_net_usage s) (average_block_cpu_usage s) net cpu
    (total_net_weight s) (total_cpu_weight s) (total_mem_bytes s)
    (virtual_net_limit s) (virtual_cpu_limit s).

Definition add_transaction_usage (db : rl_db) (accounts : list Z) (cpu net time_slot : Z) :
  outcome rl_db :=
  db ← for_accounts (add_transaction_usage_one cpu net time_slot) db accounts;
  let s := state db in
  let db := with_state db (set_pending_usage s (u64 (pending_cpu_usage s + cpu))
                             (u64 (pending_net_usage s + net))) in
  ine_assert (pending_cpu_usage (state db) <=? max (cpu_limit_parameters (config db)))
    (Throw block_resource_exhausted) ;;
  ine_assert (pending_net_usage (state db) <=? max (net_limit_parameters (config db)))
    (Throw block_resource_exhausted) ;;
  Ok db.

(** [-mem_delta] of the minimum overflows. *)
Definition add_pending_mem_usage (db : rl_db) (account mem_delta : Z) : outcome rl_db :=
  if mem_delta =? 0 then Ok db else
  usage ← db_get (usages db) account;
  ine_assert ((mem_delta <=? 0) || (u64 (UINT64_MAX - mem_usage usage) >=? u64 mem_delta))
    (Throw transaction_exception) ;;
  ine_assert ((mem_delta >=? 0) || negb (mem_delta =? INT64_MIN)) undefined_behaviour ;;
  ine_assert ((mem_delta >=? 0) || (mem_usage usage >=? u64 (- mem_delta)))
    (Throw transaction_exception) ;;
  Ok (with_usages db (<[account := mk_usage (net_usage usage) (cpu_usage usage)
                          (u64 (mem_usage usage + u64 mem_delta))]> (usages db))).

Definition get_account_mem_usage (db : rl_db) (name : Z) : outcome Z :=
  usage ← db_get (usages db) name; Ok (i64 (mem_usage usage)).

(** ** Limits *)

Definition set_account_limits (db : rl_db) (account new_mem_bytes new_net_weight new_cpu_weight : Z) :
  outcome (rl_db * bool) :=
  (* find_or_create_pending_limits *)
  '(db, l) ← match limits db !! (true, account) with
             | None =>
                 l ← db_get (limits db) (false, account);
                 m ← db_create (limits db) (true, account) l;
                 Ok (with_limits db m, l)
             | Some pending_limits => Ok (db, pending_limits)
             end;
  let decreased_limit :=
    if new_mem_bytes >=? 0
    then (mem_bytes l <? 0) || (new_mem_bytes <? mem_bytes l)
    else false in
  Ok (with_limits db (<[(true, account) := mk_limits new_net_weight new_cpu_weight new_mem_bytes]>
                        (limits db)), decreased_limit).

(** [update_state_and_value]: the new total and the new value. *)
Definition update_state_and_value (total value pending_value : Z) : outcome (Z * Z) :=
  total ← (if value >? 0 then
             ine_assert (total >=? u64 value) (Throw rate_limiting_state_inconsistent) ;;
             Ok (u64 (total - value))
           else Ok total);
  total ← (if pending_value >? 0 then
             ine_assert (u64 (UINT64_MAX - total) >=? u64 pending_value)
               (Throw rate_limiting_state_inconsistent) ;;
             Ok (u64 (total + pending_value))
           else Ok total);
  Ok (total, pending_value).

Definition set_totals (s : resource_limits_state_object) (net cpu mem : Z) :
  resource_limits_state_object :=
  mk_state (average_block_net_usage s) (average_block_cpu_usage s)
    (pending_net_usage s) (pending_cpu_usage s) net cpu mem
    (virtual_net_limit s) (virtual_cpu_limit s).

(** The rows with pending = true, and their owners. *)
Definition pending_rows (l : gmap (bool * Z) resource_limits_object) :
  gmap (bool * Z) resource_limits_object :=
  filter (fun kv => kv.1.1 = true) l.

Definition pending_owners (l : gmap (bool * Z) resource_limits_object) : list Z :=
  map (fun kv => kv.1.2) (map_to_list (pending_rows l)).

(** [lower_bound( make_tuple( true ) )]: the first pending row, by owner. *)
Definition first_pending (l : gmap (bool * Z) resource_limits_object) : option Z :=
  match pending_owners l with
  | [] => None
  | o :: os => Some (foldl Z.min o os)
  end.

(** The body of the while loop for the first pending row. *)
Definition process_one (db : rl_db) (owner : Z) : outcome rl_db :=
  pending ← db_get (limits db) (true, owner);
  actual ← db_get (limits db) (false, owner);
  let s := state db in
  '(total_mem, mem) ← update_state_and_value (total_mem_bytes s) (mem_bytes actual) (mem_bytes pending);
  '(total_cpu, cpu) ← update_state_and_value (total_cpu_weight s) (cpu_weight actual) (cpu_weight pending);
  '(total_net, net) ← update_state_and_value (total_net_weight s) (net_weight actual) (net_weight pending);
  let l := <[(false, owner) := mk_limits net cpu mem]> (limits db) in
  Ok (with_state (with_limits db (delete (true, owner) l)) (set_totals s total_net total_cpu total_mem)).

(** The while loop; [None] when the fuel runs out. *)
Fixpoint process_loop (fuel : nat) (db : rl_db) : option (outcome rl_db) :=
  match fuel with
  | O => None
  | S fuel' =>
      match first_pending (limits db) with
      | None => Some (Ok db)
      | Some owner =>
          match process_one db owner with
          | Ok db' => process_loop fuel' db'
          | Err e => Some (Err e)
          end
      end
  end.

(** One iteration more than there are pending rows. *)
Definition process_account_limit_updates (db : rl_db) : option (outcome rl_db) :=
  process_loop (S (length (pending_owners (limits db)))) db.

Definition process_block_usage (db : rl_db) (block_num : Z) : outcome rl_db :=
  let s := state db in
  let cfg := config db in
  avg_cpu ← acc_add (pending_cpu_usage s) block_num (periods (cpu_limit_parameters cfg))
              (average_block_cpu_usage s);
  vcpu ← update_elastic_limit (virtual_cpu_limit s) (average avg_cpu) (cpu_limit_parameters cfg);
  avg_net ← acc_add (pending_net_usage s) block_num (periods (net_limit_parameters cfg))
              (average_block_net_usage s);
  vnet ← update_elastic_limit (virtual_net_limit s) (average avg_net) (net_limit_parameters cfg);
  Ok (with_state db (mk_state avg_net avg_cpu 0 0
        (total_net_weight s) (total_cpu_weight s) (total_mem_bytes s) vnet vcpu)).

(** ** Accessors *)

Definition get_virtual_block_cpu_limit (db : rl_db) : Z := virtual_cpu_limit (state db).
Definition get_virtual_block_net_limit (db : rl_db) : Z := virtual_net_limit (state db).
Definition get_block_cpu_limit (db : rl_db) : Z :=
  u64 (max (cpu_limit_parameters (config db)) - pending_cpu_usage (state db)).
Definition get_block_net_limit (db : rl_db) : Z :=
  u64 (max (net_limit_parameters (config db)) - pending_net_usage (state db)).

Record account_resource_limit := mk_account_limit { used : Z; available : Z; arl_max : Z }.

(** The common part of the two _ex functions: capacity of the window under a
    greylist limit, the account's share of it and its use. *)
Definition account_limit (weight total window virtual_limit block_max value_ex greylist_limit : Z) :
  outcome (account_resource_limit * bool) :=
  if (weight <? 0) || (total =? 0) then Ok (mk_account_limit (-1) (-1) (-1), false) else
  let '(capacity, greylisted) :=
    if greylist_limit <? maximum_elastic_resource_multiplier then
      let greylisted_virtual_limit := u64 (block_max * greylist_limit) in
      if greylisted_virtual_limit <? virtual_limit
      then (u128 (window * greylisted_virtual_limit), true)
      else (u128 (window * virtual_limit), false)
    else (u128 (window * virtual_limit), false) in
  let max_user_use_in_window := u128 (capacity * weight) / total in
  let used_in_window :=
    integer_divide_ceil (u128 (value_ex * window)) rate_limiting_precision in
  available ← (if max_user_use_in_window <=? used_in_window then Ok 0
               else downgrade_cast_int64 (max_user_use_in_window - used_in_window));
  used ← downgrade_cast_int64 used_in_window;
  m ← downgrade_cast_int64 max_user_use_in_window;
  Ok (mk_account_limit used available m, greylisted).

Definition get_account_cpu_limit_ex (db : rl_db) (name greylist_limit : Z) :
  outcome (account_resource_limit * bool) :=
  usage ← db_get (usages db) name;
  l ← get_account_limits db name;
  account_limit (cpu_weight l) (total_cpu_weight (state db))
    (account_cpu_usage_average_window (config db)) (virtual_cpu_limit (state db))
    (max (cpu_limit_parameters (config db))) (value_ex (cpu_usage usage)) greylist_limit.

Definition get_account_net_limit_ex (db : rl_db) (name greylist_limit : Z) :
  outcome (account_resource_limit * bool) :=
  usage ← db_get (usages db) name;
  l ← get_account_limits db name;
  account_limit (net_weight l) (total_net_weight (state db))
    (account_net_usage_average_window (config db)) (virtual_net_limit (state db))
    (max (net_limit_parameters (config db))) (value_ex (net_usage usage)) greylist_limit.

Definition get_account_cpu_limit (db : rl_db) (name greylist_limit : Z) : outcome (Z * bool) :=
  '(arl, greylisted) ← get_account_cpu_limit_ex db name greylist_limit;
  Ok (available arl, greylisted).
Definition get_account_net_limit (db : rl_db) (name greylist_limit : Z) : outcome (Z * bool) :=
  '(arl, greylisted) ← get_account_net_limit_ex db name greylist_limit;
  Ok (available arl, greylisted).

(** ** Sums over a table *)

Section sums.
Context {K V : Type} `{Countable K} (w : K -> V -> Z).

Definition table_sum (m : gmap K V) : Z := map_fold (fun k v acc => w k v + acc) 0 m.

Lemma table_sum_insert m k v : m !! k = None -> table_sum (<[k := v]> m) = w k v + table_sum m.
Proof. intros Hk. unfold table_sum. rewrite map_fold_insert_L; [done| |done]. intros. lia. Qed.

Lemma table_sum_delete m k v : m !! k = Some v -> table_sum m = w k v + table_sum (delete k m).
Proof.
  intros Hk. rewrite <- table_sum_insert by apply lookup_delete_eq.
  by rewrite insert_delete_id.
Qed.

Lemma table_sum_update m k v v' :
  m !! k = Some v -> table_sum (<[k := v']> m) = table_sum m - w k v + w k v'.
Proof.
  intros Hk. rewrite (table_sum_delete m k v Hk), <- insert_delete_eq.
  rewrite table_sum_insert by apply lookup_delete_eq. lia.
Qed.

Lemma table_sum_nonneg m : (forall k v, 0 <= w k v) -> 0 <= table_sum m.
Proof.
  intros Hw. induction m as [|k v m Hk IH] using map_ind; [done|].
  rewrite table_sum_insert by done. specialize (Hw k v). lia.
Qed.

Lemma table_sum_lookup m k v : (forall k v, 0 <= w k v) -> m !! k = Some v -> w k v <= table_sum m.
Proof.
  intros Hw Hk. rewrite (table_sum_delete m k v Hk). pose proof (table_sum_nonneg (delete k m) Hw). lia.
Qed.
End sums.

Lemma table_sum_le {K V} `{Countable K} (w w' : K -> V -> Z) m :
  (forall k v, w k v <= w' k v) -> table_sum w m <= table_sum w' m.
Proof.
  intros Hw. induction m as [|k v m Hk IH] using map_ind; [done|].
  rewrite !table_sum_insert by done. specialize (Hw k v). lia.
Qed.

(** ** The invariant of the manager *)

(** What a row adds to a total: only actual rows with a positive weight. *)
Definition actual_weight (f : resource_limits_object -> Z) (k : bool * Z)
    (o : resource_limits_object) : Z :=
  if k.1 then 0 else Z.max 0 (f o).

(** The same for all rows, pending ones included. *)
Definition any_weight (f : resource_limits_object -> Z) (k : bool * Z)
    (o : resource_limits_object) : Z := Z.max 0 (f o).

Definition limits_typed (o : resource_limits_object) : Prop :=
  is_sint 64 (net_weight o) /\ is_sint 64 (cpu_weight o) /\ is_sint 64 (mem_bytes o).

Definition usage_typed (u : resource_usage_object) : Prop :=
  accumulator_typed (net_usage u) /\ accumulator_typed (cpu_usage u) /\ is_uint 64 (mem_usage u).

Definition parameters_ok (p : elastic_limit_parameters) : Prop :=
  elastic_typed p /\ is_uint 32 (periods p) /\ elastic_validate p = Ok tt.

Definition config_ok (c : resource_limits_config_object) : Prop :=
  parameters_ok (cpu_limit_parameters c) /\ parameters_ok (net_limit_parameters c) /\
  0 < account_cpu_usage_average_window c < 2 ^ 32 /\
  0 < account_net_usage_average_window c < 2 ^ 32.

Definition state_typed (s : resource_limits_state_object) : Prop :=
  accumulator_typed (average_block_net_usage s) /\ accumulator_typed (average_block_cpu_usage s) /\
  is_uint 64 (pending_net_usage s) /\ is_uint 64 (pending_cpu_usage s) /\
  is_uint 64 (virtual_net_limit s) /\ is_uint 64 (virtual_cpu_limit s).

(** The totals are the sums over the actual rows, a pending row has an actual
    one, and the accounts are those with a usage row. *)
Record rl_inv (db : rl_db) : Prop := {
  inv_net : total_net_weight (state db) = table_sum (actual_weight net_weight) (limits db);
  inv_cpu : total_cpu_weight (state db) = table_sum (actual_weight cpu_weight) (limits db);
  inv_mem : total_mem_bytes (state db) = table_sum (actual_weight mem_bytes) (limits db);
  inv_net_range : is_uint 64 (total_net_weight (state db));
  inv_cpu_range : is_uint 64 (total_cpu_weight (state db));
  inv_mem_range : is_uint 64 (total_mem_bytes (state db));
  inv_pending o p : limits db !! (true, o) = Some p -> is_Some (limits db !! (false, o));
  inv_accounts o : is_Some (limits db !! (false, o)) <-> is_Some (usages db !! o);
  inv_limits k o : limits db !! k = Some o -> limits_typed o;
  inv_usages a u : usages db !! a = Some u -> usage_typed u;
  inv_config : config_ok (config db);
  inv_state : state_typed (state db)
}.

Lemma actual_weight_nonneg f k o : 0 <= actual_weight f k o.
Proof. unfold actual_weight. destruct k.1; lia. Qed.

(** Reverting the old value never underflows, and the overflow check is
    exact. *)
Lemma update_state_and_value_spec total value pending_value :
  is_uint 64 total -> is_sint 64 value -> is_sint 64 pending_value -> Z.max 0 value <= total ->
  update_state_and_value total value pending_value =
  if UINT64_MAX <? total - Z.max 0 value + Z.max 0 pending_value
  then Err (Throw rate_limiting_state_inconsistent)
  else Ok (total - Z.max 0 value + Z.max 0 pending_value, pending_value).
Proof.
  unfold is_uint, is_sint. simpl. intros Ht Hv Hp Hle. unfold update_state_and_value.
  assert ((if value >? 0 then
             ine_assert (total >=? u64 value) (Throw rate_limiting_state_inconsistent) ;;
             Ok (u64 (total - value)) else Ok total) = Ok (total - Z.max 0 value)) as ->.
  { destruct (Z.gtb_spec value 0); [|f_equal; lia].
    rewrite !wrap_id by (unfold is_uint; lia). rewrite Z.geb_leb, (proj2 (Z.leb_le _ _)) by lia.
    simpl. f_equal. lia. }
  cbn [mbind result_bind]. set (t := total - Z.max 0 value).
  destruct (Z.gtb_spec pending_value 0).
  - rewrite !(wrap_id 64 pending_value), (wrap_id 64 (UINT64_MAX - t)) by (unfold is_uint, t; lia).
    destruct (Z.geb_spec (UINT64_MAX - t) pending_value),
      (Z.ltb_spec UINT64_MAX (t + Z.max 0 pending_value)); try lia; simpl; [|done].
    rewrite wrap_id by (unfold is_uint, t; lia). do 2 f_equal. lia.
  - destruct (Z.ltb_spec UINT64_MAX (t + Z.max 0 pending_value)); [unfold t in *; lia|].
    simpl. do 2 f_equal. lia.
Qed.

(** ** Applying the pending limits *)

Lemma pending_rows_lookup l k o :
  pending_rows l !! k = Some o <-> k.1 = true /\ l !! k = Some o.
Proof. unfold pending_rows. rewrite map_lookup_filter_Some. simpl. tauto. Qed.

Lemma pending_owners_elem l o : o ∈ pending_owners l <-> is_Some (l !! (true, o)).
Proof.
  unfold pending_owners. rewrite list_elem_of_fmap. split.
  - intros ([[b o'] v] & -> & Hv). apply elem_of_map_to_list, pending_rows_lookup in Hv.
    simpl in *. destruct Hv as [-> Hv]. eauto.
  - intros [v Hv]. exists ((true, o), v). split; [done|].
    by apply elem_of_map_to_list, pending_rows_lookup.
Qed.

Lemma foldl_min_spec o os :
  foldl Z.min o os ∈ o :: os /\ forall x, x ∈ o :: os -> foldl Z.min o os <= x.
Proof.
  revert o. induction os as [|o' os IH]; intros o; simpl.
  - split; [set_solver|]. intros x [->|[]%elem_of_nil]%elem_of_cons. lia.
  - destruct (IH (Z.min o o')) as [H1 H2]. split.
    + apply elem_of_cons in H1 as [->|H1]; [|set_solver].
      destruct (Z.min_spec o o') as [[_ ->]|[_ ->]]; set_solver.
    + intros x Hx. assert (foldl Z.min (Z.min o o') os <= Z.min o o') by (apply H2; set_solver).
      rewrite !elem_of_cons in Hx. destruct Hx as [->|[->|Hx]]; [lia|lia|].
      apply H2. set_solver.
Qed.

(** The loop takes the pending row with the least owner. *)
Lemma first_pending_spec l :
  match first_pending l with
  | None => forall o, l !! (true, o) = None
  | Some o => is_Some (l !! (true, o)) /\ forall o', is_Some (l !! (true, o')) -> o <= o'
  end.
Proof.
  unfold first_pending. pose proof (pending_owners_elem l) as H.
  destruct (pending_owners l) as [|o os].
  - intros o. apply eq_None_not_Some. rewrite <- H. apply not_elem_of_nil.
  - destruct (foldl_min_spec o os) as [H1 H2]. split; [by apply H|].
    intros o' Ho'. by apply H2, H.
Qed.

Lemma pending_rows_step l o v :
  pending_rows (delete (true, o) (<[(false, o) := v]> l)) = delete (true, o) (pending_rows l).
Proof.
  apply map_eq. intros k. apply option_eq. intros x.
  rewrite pending_rows_lookup, !lookup_delete_Some, pending_rows_lookup, lookup_insert_Some.
  split.
  - intros (Hk & Hne & [[<- _]|[_ Hx]]); [done|auto].
  - intros (Hne & Hk & Hx). split_and!; [done|done|]. right. split; [|done]. by intros <-.
Qed.

Lemma pending_count_step l o p v :
  l !! (true, o) = Some p ->
  length (pending_owners l) = S (length (pending_owners (delete (true, o) (<[(false, o) := v]> l)))).
Proof.
  intros Hp. unfold pending_owners. rewrite !length_map, !length_map_to_list.
  rewrite pending_rows_step, map_size_delete, (proj2 (pending_rows_lookup l (true, o) p)) by done.
  assert (size (pending_rows l) <> 0)%nat; [|lia].
  apply (map_size_ne_0_lookup_2 _ (true, o)). exists p. by apply pending_rows_lookup.
Qed.

(** Sums after an iteration. *)
Lemma actual_sum_step f l o a p v :
  l !! (false, o) = Some a -> l !! (true, o) = Some p ->
  table_sum (actual_weight f) (delete (true, o) (<[(false, o) := v]> l)) =
  table_sum (actual_weight f) l - Z.max 0 (f a) + Z.max 0 (f v).
Proof.
  intros Ha Hp.
  pose proof (table_sum_delete (actual_weight f) (<[(false, o) := v]> l) (true, o) p) as H1.
  rewrite lookup_insert_ne in H1 by done. specialize (H1 Hp).
  rewrite (table_sum_update _ _ _ _ _ Ha) in H1. unfold actual_weight in *. simpl in *. lia.
Qed.

Lemma any_sum_step f l o a p v :
  l !! (false, o) = Some a -> l !! (true, o) = Some p -> f v = f p ->
  table_sum (any_weight f) (delete (true, o) (<[(false, o) := v]> l)) =
  table_sum (any_weight f) l - Z.max 0 (f a).
Proof.
  intros Ha Hp Hv.
  pose proof (table_sum_delete (any_weight f) (<[(false, o) := v]> l) (true, o) p) as H1.
  rewrite lookup_insert_ne in H1 by done. specialize (H1 Hp).
  rewrite (table_sum_update _ _ _ _ _ Ha) in H1. unfold any_weight in *. simpl in *. lia.
Qed.

Lemma actual_le_any f l o a p :
  l !! (false, o) = Some a -> l !! (true, o) = Some p ->
  Z.max 0 (f a) <= table_sum (actual_weight f) l /\
  table_sum (actual_weight f) l - Z.max 0 (f a) + Z.max 0 (f p) <= table_sum (any_weight f) l.
Proof.
  intros Ha Hp. split.
  - apply (table_sum_lookup (actual_weight f) l (false, o) a); [apply actual_weight_nonneg|done].
  - rewrite (table_sum_delete (any_weight f) l (true, o) p Hp).
    rewrite (table_sum_delete (actual_weight f) l (true, o) p Hp).
    pose proof (table_sum_le (actual_weight f) (any_weight f) (delete (true, o) l)) as Hle.
    unfold actual_weight, any_weight in *. simpl in *.
    lapply Hle; [lia|]. intros [[] ?] ?; simpl; lia.
Qed.

(** One iteration keeps the invariant; it fails only on overflow. *)
Lemma process_one_spec db o p :
  rl_inv db -> limits db !! (true, o) = Some p ->
  match process_one db o with
  | Ok db' => rl_inv db' /\
      limits db' = delete (true, o) (<[(false, o) := p]> (limits db)) /\
      usages db' = usages db /\ config db' = config db
  | Err e => e = Throw rate_limiting_state_inconsistent /\
      ~ (table_sum (any_weight net_weight) (limits db) <= UINT64_MAX /\
         table_sum (any_weight cpu_weight) (limits db) <= UINT64_MAX /\
         table_sum (any_weight mem_bytes) (limits db) <= UINT64_MAX)
  end.
Proof.
  intros Hinv Hp. destruct (inv_pending _ Hinv _ _ Hp) as [a Ha].
  destruct (inv_limits _ Hinv _ _ Hp) as (Hpn & Hpc & Hpm).
  destruct (inv_limits _ Hinv _ _ Ha) as (Han & Hac & Ham).
  destruct (actual_le_any net_weight _ _ _ _ Ha Hp) as [Hn1 Hn2].
  destruct (actual_le_any cpu_weight _ _ _ _ Ha Hp) as [Hc1 Hc2].
  destruct (actual_le_any mem_bytes _ _ _ _ Ha Hp) as [Hm1 Hm2].
  destruct Hinv as [En Ec Em Rn Rc Rm Ip Ia Il Iu Ic Is].
  unfold process_one, db_get. rewrite Hp, Ha. cbn [mbind result_bind].
  rewrite (update_state_and_value_spec (total_mem_bytes _)) by (done || lia).
  case_bool; [split; [done|lia]|]. cbn [mbind result_bind].
  rewrite (update_state_and_value_spec (total_cpu_weight _)) by (done || lia).
  case_bool; [split; [done|lia]|]. cbn [mbind result_bind].
  rewrite (update_state_and_value_spec (total_net_weight _)) by (done || lia).
  case_bool; [split; [done|lia]|]. cbn [mbind result_bind].
  assert (mk_limits (net_weight p) (cpu_weight p) (mem_bytes p) = p) as -> by (by destruct p).
  split; [|done]. unfold is_uint in *.
  split; simpl; unfold is_uint; rewrite ?(actual_sum_step _ _ _ _ _ _ Ha Hp); try lia.
  - intros o' p' [Hne Hp']%lookup_delete_Some. rewrite lookup_insert_ne in Hp' by done.
    rewrite lookup_delete_ne by done. destruct (decide (o = o')) as [->|].
    + rewrite lookup_insert_eq. eauto.
    + rewrite lookup_insert_ne by congruence. by eapply Ip.
  - intros o'. rewrite lookup_delete_ne by done. destruct (decide (o = o')) as [->|].
    + rewrite lookup_insert_eq, <- Ia, Ha. by split.
    + rewrite lookup_insert_ne by congruence. apply Ia.
  - intros k v [_ [[_ <-]|[_ ?]]%lookup_insert_Some]%lookup_delete_Some; [done|by eapply Il].
  - done.
  - done.
  - done.
Qed.

(** All weights, pending ones included, fit in the totals. *)
Definition no_overflow (db : rl_db) : Prop :=
  table_sum (any_weight net_weight) (limits db) <= UINT64_MAX /\
  table_sum (any_weight cpu_weight) (limits db) <= UINT64_MAX /\
  table_sum (any_weight mem_bytes) (limits db) <= UINT64_MAX.

(** The effect of the loop on the database. *)
Record limits_applied (db db' : rl_db) : Prop := {
  la_inv : rl_inv db';
  la_none o : limits db' !! (true, o) = None;
  la_view o : get_account_limits db' o = get_account_limits db o;
  la_usages : usages db' = usages db;
  la_config : config db' = config db
}.

Lemma process_one_view db o p l o' :
  limits db !! (true, o) = Some p ->
  l = delete (true, o) (<[(false, o) := p]> (limits db)) ->
  match l !! (true, o') with Some x => Ok x | None => db_get l (false, o') end =
  get_account_limits db o'.
Proof.
  intros Hp ->. unfold get_account_limits, db_get. destruct (decide (o = o')) as [->|Hne].
  - rewrite lookup_delete_eq, lookup_delete_ne, lookup_insert_eq, Hp by done. done.
  - by rewrite !lookup_delete_ne, !lookup_insert_ne by congruence.
Qed.

Lemma process_one_no_overflow db o p db' :
  rl_inv db -> limits db !! (true, o) = Some p -> no_overflow db ->
  limits db' = delete (true, o) (<[(false, o) := p]> (limits db)) -> no_overflow db'.
Proof.
  intros Hinv Hp (Hn & Hc & Hm) E. destruct (inv_pending _ Hinv _ _ Hp) as [a Ha].
  unfold no_overflow. rewrite E, !(any_sum_step _ _ _ _ _ _ Ha Hp) by done. lia.
Qed.

Lemma process_loop_spec fuel db :
  rl_inv db -> (length (pending_owners (limits db)) < fuel)%nat ->
  exists r, process_loop fuel db = Some r /\ (no_overflow db -> is_Ok r = true) /\
    match r with
    | Ok db' => limits_applied db db'
    | Err e => e = Throw rate_limiting_state_inconsistent
    end.
Proof.
  revert db. induction fuel as [|fuel IH]; intros db Hinv Hf; [lia|]. simpl.
  pose proof (first_pending_spec (limits db)) as Hfirst.
  destruct (first_pending (limits db)) as [o|].
  2: { exists (Ok db). split_and!; [done|done|]. by split. }
  destruct Hfirst as [[p Hp] _]. pose proof (process_one_spec db o p Hinv Hp) as Hone.
  destruct (process_one db o) as [db1|e].
  2: { destruct Hone as [-> Hno]. exists (Err (Throw rate_limiting_state_inconsistent)).
       split_and!; [done| |done]. intros Hok. by destruct Hno. }
  destruct Hone as (Hinv1 & Hl & Hu & Hc).
  destruct (IH db1) as (r & Hr & Hok & Hres); [done| |].
  { pose proof (pending_count_step (limits db) o p p Hp). rewrite Hl. lia. }
  exists r. split_and!; [done| |].
  - intros Hno. apply Hok. exact (process_one_no_overflow db o p db1 Hinv Hp Hno Hl).
  - destruct r as [db'|]; [|done]. destruct Hres as [H1 H2 H3 H4 H5].
    split; [done|done| |congruence|congruence].
    intros o'. rewrite H3. exact (process_one_view db o p (limits db1) o' Hp Hl).
Qed.

(** C37: process_account_limit_updates terminates within one iteration per
    pending row.  From a database that satisfies the invariant it returns
    one that satisfies it again, without pending rows, and with the same
    limits for every account as get_account_limits showed before.  The check
    against underflow never fires; the one against overflow can only when
    the weights, old and pending together, exceed 64 bits. *)
Theorem process_updates_correct db :
  rl_inv db ->
  exists r, process_account_limit_updates db = Some r /\ (no_overflow db -> is_Ok r = true) /\
    match r with
    | Ok db' => limits_applied db db'
    | Err e => e = Throw rate_limiting_state_inconsistent
    end.
Proof. intros Hinv. apply process_loop_spec; [done|]. lia. Qed.

(** ** Every operation keeps the invariant *)

Lemma acc_add_typed units ordinal w a a' :
  acc_add units ordinal w a = Ok a' ->
  accumulator_typed a -> is_uint 64 units -> is_uint 32 ordinal -> 0 < w < 2 ^ 32 ->
  accumulator_typed a'.
Proof.
  intros H Ha Hu Ho Hw. revert H. unfold acc_add. destruct (add units ordinal w a) as [b [[]|e]] eqn:E; [|done].
  intros [= <-]. by eapply add_typed.
Qed.

Lemma db_get_ok {K V} `{Countable K} (m : gmap K V) k v : db_get m k = Ok v <-> m !! k = Some v.
Proof. unfold db_get. destruct (m !! k); split; congruence. Qed.

Lemma db_create_ok {K V} `{Countable K} (m : gmap K V) k v m' :
  db_create m k v = Ok m' <-> m !! k = None /\ m' = <[k := v]> m.
Proof.
  unfold db_create. destruct (m !! k); split; [done|by intros [? _]| |].
  - by intros [= <-].
  - by intros [_ ->].
Qed.

Lemma new_accumulator_typed : accumulator_typed new_accumulator.
Proof. repeat constructor; vm_compute; done. Qed.

Lemma default_config_ok : config_ok default_config.
Proof. repeat constructor; vm_compute; done. Qed.

Lemma initialize_database_inv : rl_inv initialize_database.
Proof.
  split; simpl; try done; try (intros *; rewrite lookup_empty; done).
  - intros o. rewrite !lookup_empty. by split.
Qed.

Lemma initialize_account_inv db a db' :
  rl_inv db -> initialize_account db a = Ok db' -> rl_inv db'.
Proof.
  intros [En Ec Em Rn Rc Rm Ip Ia Il Iu Ic Is] H. unfold initialize_account in H. invert_ok. subst.
  apply db_create_ok in H0 as [Hl ->]. simpl in *. apply db_create_ok in H1 as [Hu ->].
  split; simpl; rewrite ?table_sum_insert by done; try done.
  - intros o p. rewrite lookup_insert_ne by done. intros Hp. apply Ip in Hp.
    destruct (decide (a = o)) as [->|]; [rewrite lookup_insert_eq; eauto|].
    by rewrite lookup_insert_ne by congruence.
  - intros o. destruct (decide (a = o)) as [->|].
    + rewrite !lookup_insert_eq. split; eauto.
    + rewrite !lookup_insert_ne by congruence. apply Ia.
  - intros k o [[_ <-]|[_ ?]]%lookup_insert_Some; [|by eapply Il].
    repeat constructor; vm_compute; done.
  - intros o u [[_ <-]|[_ ?]]%lookup_insert_Some; [|by eapply Iu].
    split_and!; [apply new_accumulator_typed..|vm_compute; done].
Qed.

Lemma set_block_parameters_inv db cpu net db' :
  rl_inv db -> elastic_typed cpu -> elastic_typed net -> is_uint 32 (periods cpu) ->
  is_uint 32 (periods net) -> set_block_parameters db cpu net = Ok db' -> rl_inv db'.
Proof.
  intros Hinv Hc Hn Hpc Hpn H. unfold set_block_parameters in H. invert_ok.
  destruct (_ && _); invert_ok; subst; [done|].
  destruct Hinv as [En Ec Em Rn Rc Rm Ip Ia Il Iu (_ & _ & Hw1 & Hw2) Is].
  by split; simpl.
Qed.

(** A change of one usage row that keeps it typed. *)
Lemma with_usage_inv db a u u' :
  rl_inv db -> usages db !! a = Some u -> usage_typed u' ->
  rl_inv (with_usages db (<[a := u']> (usages db))).
Proof.
  intros [En Ec Em Rn Rc Rm Ip Ia Il Iu Ic Is] Hu Hu'. split; simpl; try done.
  - intros o. rewrite Ia. destruct (decide (a = o)) as [->|].
    + rewrite lookup_insert_eq, Hu. by split.
    + by rewrite lookup_insert_ne.
  - intros o x [[_ <-]|[_ ?]]%lookup_insert_Some; [done|by eapply Iu].
Qed.

Lemma for_accounts_inv (P : rl_db -> Prop) body db l db' :
  (forall db a db', P db -> body db a = Ok db' -> P db') ->
  P db -> for_accounts body db l = Ok db' -> P db'.
Proof.
  intros Hbody. revert db. induction l as [|a l IH]; intros db Hdb H; simpl in H.
  - by invert_ok; subst.
  - invert_ok. eapply IH; [|done]. by eapply Hbody.
Qed.

Lemma update_account_usage_inv db accounts time_slot db' :
  rl_inv db -> is_uint 32 time_slot -> update_account_usage db accounts time_slot = Ok db' ->
  rl_inv db'.
Proof.
  intros Hinv Ht. apply for_accounts_inv; [|done]. clear db Hinv db'. intros db a db' Hinv H.
  unfold update_account_usage_one in H. invert_ok. subst. apply db_get_ok in H0.
  destruct (inv_usages _ Hinv _ _ H0) as (Hn & Hc & Hm).
  destruct (inv_config _ Hinv) as (_ & _ & Hw1 & Hw2).
  assert (is_uint 64 0) by (vm_compute; done).
  eapply with_usage_inv; [done|done|]. split_and!; simpl; [| |done];
    (eapply acc_add_typed; [eassumption|done..]).
Qed.

Lemma add_transaction_usage_one_inv cpu net time_slot db a db' :
  rl_inv db -> is_uint 64 cpu -> is_uint 64 net -> is_uint 32 time_slot ->
  add_transaction_usage_one cpu net time_slot db a = Ok db' ->
  rl_inv db' /\ state db' = state db /\ config db' = config db.
Proof.
  intros Hinv Hcpu Hnet Ht H. unfold add_transaction_usage_one in H. invert_ok. subst.
  apply db_get_ok in H0. destruct (inv_usages _ Hinv _ _ H0) as (Hn & Hc & Hm).
  destruct (inv_config _ Hinv) as (_ & _ & Hw1 & Hw2). split; [|done].
  eapply with_usage_inv; [done|done|].
  split_and!; simpl; [| |by apply wrap_range]; (eapply acc_add_typed; [eassumption|done..]).
Qed.

Lemma with_state_inv db s :
  rl_inv db -> total_net_weight s = total_net_weight (state db) ->
  total_cpu_weight s = total_cpu_weight (state db) ->
  total_mem_bytes s = total_mem_bytes (state db) -> state_typed s -> rl_inv (with_state db s).
Proof.
  intros [En Ec Em Rn Rc Rm Ip Ia Il Iu Ic Is] Hn Hc Hm Hs.
  split; simpl; rewrite ?Hn, ?Hc, ?Hm; done.
Qed.

Lemma for_transaction_inv cpu net time_slot db accounts db' :
  rl_inv db -> is_uint 64 cpu -> is_uint 64 net -> is_uint 32 time_slot ->
  for_accounts (add_transaction_usage_one cpu net time_slot) db accounts = Ok db' ->
  rl_inv db' /\ state db' = state db /\ config db' = config db.
Proof.
  intros Hinv Hc Hn Ht H.
  apply (for_accounts_inv (fun d => rl_inv d /\ state d = state db /\ config d = config db))
    in H; [done| |done].
  intros d a d' (Hd & Hs & Hcf) Hone. rewrite <- Hs, <- Hcf.
  exact (add_transaction_usage_one_inv _ _ _ _ _ _ Hd Hc Hn Ht Hone).
Qed.

Lemma add_transaction_usage_inv db accounts cpu net time_slot db' :
  rl_inv db -> is_uint 64 cpu -> is_uint 64 net -> is_uint 32 time_slot ->
  add_transaction_usage db accounts cpu net time_slot = Ok db' -> rl_inv db'.
Proof.
  intros Hinv Hc Hn Ht H. unfold add_transaction_usage in H. invert_ok. subst.
  apply for_transaction_inv in H0 as (Hi & _ & _); [|done..].
  destruct (inv_state _ Hi) as (? & ? & _ & _ & ? & ?).
  apply with_state_inv; try done. split_and!; simpl; try done; by apply wrap_range.
Qed.

Lemma add_pending_mem_usage_inv db a d db' :
  rl_inv db -> add_pending_mem_usage db a d = Ok db' -> rl_inv db'.
Proof.
  intros Hinv H. unfold add_pending_mem_usage in H. destruct (d =? 0); [by invert_ok; subst|].
  invert_ok. subst. apply db_get_ok in H0. destruct (inv_usages _ Hinv _ _ H0) as (Hn & Hc & Hm).
  eapply with_usage_inv; [done|done|]. split_and!; [done|done|by apply wrap_range].
Qed.

(** Writing a pending row does not touch the totals. *)
Lemma with_pending_inv db a x l :
  rl_inv db -> is_Some (limits db !! (false, a)) -> limits_typed x ->
  l = <[(true, a) := x]> (limits db) -> rl_inv (with_limits db l).
Proof.
  intros [En Ec Em Rn Rc Rm Ip Ia Il Iu Ic Is] Ha Hx ->.
  assert (forall f, table_sum (actual_weight f) (<[(true, a) := x]> (limits db)) =
                    table_sum (actual_weight f) (limits db)) as Hsum.
  { intros f. destruct (limits db !! (true, a)) as [y|] eqn:E.
    - rewrite (table_sum_update _ _ _ y) by done. unfold actual_weight. simpl. lia.
    - by rewrite table_sum_insert. }
  split; simpl; rewrite ?Hsum; try done.
  - intros o p Hp. rewrite lookup_insert_ne by done.
    apply lookup_insert_Some in Hp as [[[= <-] _]|[_ Hp]]; [done|by eapply Ip].
  - intros o. rewrite lookup_insert_ne by done. apply Ia.
  - intros k o [[_ <-]|[_ ?]]%lookup_insert_Some; [done|by eapply Il].
Qed.

Lemma set_account_limits_inv db a m n c db' b :
  rl_inv db -> is_sint 64 m -> is_sint 64 n -> is_sint 64 c ->
  set_account_limits db a m n c = Ok (db', b) -> rl_inv db'.
Proof.
  intros Hinv Hm Hn Hc H. unfold set_account_limits in H. invert_ok. destruct x as [db1 l].
  injection H as <- _.
  assert (rl_inv db1 /\ is_Some (limits db1 !! (false, a))) as [Hi Ha].
  { destruct (limits db !! (true, a)) as [p|] eqn:E.
    - injection H0 as <- _. split; [done|]. by eapply inv_pending.
    - invert_ok. subst. apply db_get_ok in H1. apply db_create_ok in H2 as [_ ->].
      split; [|simpl; rewrite lookup_insert_ne by done; eauto].
      apply (with_pending_inv db a l); [exact Hinv|by exists l| |reflexivity].
      exact (inv_limits _ Hinv _ _ H1). }
  eapply (with_pending_inv db1 a); [exact Hi|exact Ha| |reflexivity].
  split_and!; assumption.
Qed.

Lemma process_block_usage_inv db n db' :
  rl_inv db -> is_uint 32 n -> process_block_usage db n = Ok db' -> rl_inv db'.
Proof.
  intros Hinv Hn H. unfold process_block_usage in H. invert_ok. subst.
  destruct (inv_state _ Hinv) as (H5 & H6 & H7 & H8 & H9 & H10).
  destruct (inv_config _ Hinv) as ((He1 & Hp1 & Hv1) & (He2 & Hp2 & Hv2) & _ & _).
  assert (forall p, is_uint 32 (periods p) -> elastic_validate p = Ok tt -> 0 < periods p < 2 ^ 32)
    as Hpos.
  { clear. intros p Hp Hv. unfold elastic_validate in Hv. invert_ok. bool_to_prop.
    unfold is_uint in Hp. lia. }
  assert (is_uint 64 0) as H00 by (vm_compute; done).
  apply with_state_inv; try done. split_and!; simpl; try exact H00.
  - eapply acc_add_typed; [eassumption|done..|by apply Hpos].
  - eapply acc_add_typed; [eassumption|done..|by apply Hpos].
  - eapply update_elastic_limit_typed; [eassumption|done..].
  - eapply update_elastic_limit_typed; [eassumption|done..].
Qed.

Lemma process_updates_inv db db' :
  rl_inv db -> process_account_limit_updates db = Some (Ok db') -> rl_inv db'.
Proof.
  intros Hinv H. destruct (process_loop_spec _ db Hinv (Nat.lt_succ_diag_r _)) as (r & Hr & _ & Hp).
  unfold process_account_limit_updates in H. rewrite Hr in H. injection H as ->. by destruct Hp.
Qed.

(** The public operations that change the database, with arguments of their
    C++ types. *)
Inductive rl_step (db : rl_db) : rl_db -> Prop :=
  | step_initialize_account a db' :
      initialize_account db a = Ok db' -> rl_step db db'
  | step_set_block_parameters cpu net db' :
      elastic_typed cpu -> elastic_typed net -> is_uint 32 (periods cpu) ->
      is_uint 32 (periods net) -> set_block_parameters db cpu net = Ok db' -> rl_step db db'
  | step_update_account_usage accounts time_slot db' :
      is_uint 32 time_slot -> update_account_usage db accounts time_slot = Ok db' -> rl_step db db'
  | step_add_transaction_usage accounts cpu net time_slot db' :
      is_uint 64 cpu -> is_uint 64 net -> is_uint 32 time_slot ->
      add_transaction_usage db accounts cpu net time_slot = Ok db' -> rl_step db db'
  | step_add_pending_mem_usage a d db' :
      add_pending_mem_usage db a d = Ok db' -> rl_step db db'
  | step_set_account_limits a m n c db' b :
      is_sint 64 m -> is_sint 64 n -> is_sint 64 c ->
      set_account_limits db a m n c = Ok (db', b) -> rl_step db db'
  | step_process_account_limit_updates db' :
      process_account_limit_updates db = Some (Ok db') -> rl_step db db'
  | step_process_block_usage n db' :
      is_uint 32 n -> process_block_usage db n = Ok db' -> rl_step db db'.

Lemma rl_step_inv db db' : rl_inv db -> rl_step db db' -> rl_inv db'.
Proof.
  intros Hinv [].
  - by eapply initialize_account_inv.
  - by eapply (set_block_parameters_inv db cpu net).
  - by eapply update_account_usage_inv.
  - by eapply (add_transaction_usage_inv db accounts cpu net).
  - by eapply add_pending_mem_usage_inv.
  - by eapply (set_account_limits_inv db a m n c).
  - by eapply process_updates_inv.
  - by eapply process_block_usage_inv.
Qed.

(** C14: In every database reachable from initialize_database by successful
    operations, the three totals are exactly the sums of the positive
    weights of the accounts' actual limits, every pending row belongs to an
    existing account, limits and usages are kept for the same accounts, the
    parameters are the validated ones, and all members are within their
    machine types. *)
Theorem resource_limits_invariant db : rtc rl_step initialize_database db -> rl_inv db.
Proof.
  intros H. remember initialize_database as db0 eqn:E.
  assert (rl_inv db0) as Hinv by (subst; apply initialize_database_inv). clear E.
  induction H as [|db0 db1 db2 Hs _ IH]; [done|]. apply IH. by eapply rl_step_inv.
Qed.

(** A chain with one account, whose limits are set and applied. *)
Definition example_db : rl_db :=
  match initialize_account initialize_database 7 with
  | Ok db1 =>
      match set_account_limits db1 7 1000 50 60 with
      | Ok (db2, _) =>
          match process_account_limit_updates db2 with
          | Some (Ok db3) => db3
          | _ => initialize_database
          end
      | Err _ => initialize_database
      end
  | Err _ => initialize_database
  end.

Lemma resource_limits_invariant_witness :
  total_cpu_weight (state example_db) = 60 /\ rl_inv example_db.
Proof.
  split; [vm_compute; reflexivity|]. apply resource_limits_invariant.
  eapply rtc_l; [apply (step_initialize_account _ 7); vm_compute; reflexivity|].
  eapply rtc_l; [apply (step_set_account_limits _ 7 1000 50 60 _ true); vm_compute; done|].
  eapply rtc_l; [apply step_process_account_limit_updates; vm_compute; reflexivity|].
  apply rtc_refl.
Defined.

Lemma process_updates_correct_witness :
  exists r, process_account_limit_updates initialize_database = Some r /\
    (no_overflow initialize_database -> is_Ok r = true) /\
    match r with
    | Ok db' => limits_applied initialize_database db'
    | Err e => e = Throw rate_limiting_state_inconsistent
    end.
Proof. apply process_updates_correct. apply initialize_database_inv. Defined.

(** ** Shares *)

Lemma table_sum_le_in {K V} `{Countable K} (w w' : K -> V -> Z) m :
  (forall k v, m !! k = Some v -> w k v <= w' k v) -> table_sum w m <= table_sum w' m.
Proof.
  induction m as [|k v m Hk IH] using map_ind; [done|]. intros Hw.
  rewrite !table_sum_insert by done. assert (table_sum w m <= table_sum w' m).
  { apply IH. intros k' v' Hk'. apply Hw. rewrite lookup_insert_ne; [done|]. congruence. }
  specialize (Hw k v (lookup_insert_eq _ _ _)). lia.
Qed.

Lemma table_sum_scale {K V} `{Countable K} c (w : K -> V -> Z) m :
  table_sum (fun k v => c * w k v) m = c * table_sum w m.
Proof.
  induction m as [|k v m Hk IH] using map_ind; [by rewrite Z.mul_0_r|].
  rewrite !table_sum_insert, IH by done. ring.
Qed.

(** The maximum an account may use in a window, as the _ex functions report
    it; accounts without a limit (-1) are not counted. *)
Definition reported_max (r : outcome (account_resource_limit * bool)) : Z :=
  match r with
  | Ok (arl, _) => Z.max 0 (arl_max arl)
  | Err _ => 0
  end.

(** The reported maximum is at most the share of the capacity. *)
Lemma account_limit_share weight total window vlimit bmax v g :
  0 < total -> is_sint 64 weight -> 0 < window -> 0 <= vlimit -> window * vlimit < 2 ^ 65 ->
  total * reported_max (account_limit weight total window vlimit bmax v g)
  <= window * vlimit * Z.max 0 weight.
Proof.
  intros Ht Hw Hwin Hv Hc. unfold account_limit, is_sint in *. simpl in Hw.
  destruct (Z.ltb_spec weight 0); cbn [orb].
  { unfold reported_max, arl_max. rewrite (Z.max_l 0 weight) by lia. lia. }
  destruct (Z.eqb_spec total 0); [lia|]. rewrite (Z.max_r 0 weight) by lia.
  set (p := if g <? _ then _ else _).
  assert (exists c b, p = (c, b) /\ 0 <= c <= window * vlimit) as (c & b & -> & Hcap).
  { unfold p. pose proof (wrap_range 64 (bmax * g) ltac:(lia)) as Hg. unfold is_uint in Hg.
    assert (u128 (window * vlimit) = window * vlimit) as E by (apply wrap_id; unfold is_uint; nia).
    destruct (g <? _); [|do 2 eexists; split; [done|nia]].
    destruct (Z.ltb_spec (u64 (bmax * g)) vlimit); do 2 eexists; (split; [done|]); [|nia].
    rewrite wrap_id by (unfold is_uint; nia). nia. }
  rewrite (wrap_id 128 (c * weight)) by (unfold is_uint; nia).
  pose proof (Z.mul_div_le (c * weight) total ltac:(lia)).
  pose proof (Z.div_pos (c * weight) total ltac:(nia) ltac:(lia)).
  unfold reported_max. destruct (_ ≫= _) as [[arl g']|e] eqn:E; [|nia].
  unfold downgrade_cast_int64 in E. invert_ok. subst. unfold arl_max. nia.
Qed.

Lemma reported_err e : reported_max (Err e) = 0.
Proof. done. Qed.

Lemma account_limit_no_total weight total window vlimit bmax v g :
  total = 0 -> reported_max (account_limit weight total window vlimit bmax v g) = 0.
Proof. intros ->. unfold account_limit. by rewrite orb_true_r. Qed.

(** Shares that are proportional to the weights of the actual rows. *)
Lemma sum_of_shares (m : gmap (bool * Z) resource_limits_object) f share total capacity :
  total = table_sum (actual_weight f) m -> 0 <= capacity ->
  (forall k o, m !! k = Some o -> 0 < total -> total * share k <= capacity * actual_weight f k o) ->
  (total <= 0 -> forall k o, m !! k = Some o -> share k <= 0) ->
  table_sum (fun k _ => share k) m <= capacity.
Proof.
  intros Ht Hc Hs H0. destruct (Z.lt_ge_cases 0 total) as [Hp|Hp].
  - pose proof (table_sum_le_in (fun k _ => total * share k) (fun k o => capacity * actual_weight f k o)
      m (fun k o Hk => Hs k o Hk Hp)) as H.
    rewrite !table_sum_scale, <- Ht in H. nia.
  - pose proof (table_sum_le_in (fun k _ => share k) (fun _ _ => 0 * 0) m) as H.
    rewrite table_sum_scale in H. simpl in H. specialize (H (fun k o Hk => H0 Hp k o Hk)). lia.
Qed.

(** The maximum reported for an account whose limits are not being changed. *)
Definition settled_max (db : rl_db) (limit_ex : Z -> outcome (account_resource_limit * bool)) (k : bool * Z) : Z :=
  if k.1 || bool_decide (is_Some (limits db !! (true, k.2))) then 0 else reported_max (limit_ex k.2).

(** What [sum_of_shares] needs of one resource. *)
Lemma settled_max_share db f total limit_ex capacity :
  0 <= capacity ->
  (forall o l, limits db !! (false, o) = Some l -> limits db !! (true, o) = None ->
     (0 < total -> total * reported_max (limit_ex o) <= capacity * Z.max 0 (f l)) /\
     (total <= 0 -> reported_max (limit_ex o) <= 0)) ->
  (forall k l, limits db !! k = Some l -> 0 < total ->
     total * settled_max db limit_ex k <= capacity * actual_weight f k l) /\
  (total <= 0 -> forall k l, limits db !! k = Some l -> settled_max db limit_ex k <= 0).
Proof.
  intros Hc H. unfold settled_max, actual_weight.
  split; [intros [[] o] l Hk Ht|intros Ht [[] o] l Hk]; cbn [fst snd orb]; try (nia || lia);
    case_bool_decide as Hp; try (nia || lia); apply eq_None_not_Some in Hp; by apply (H o l Hk Hp).
Qed.

(** C38: Fair shares.  In a database that satisfies the invariant, the maxima
    that get_account_cpu_limit_ex and get_account_net_limit_ex report for the
    accounts without a pending change of their limits, under whatever
    greylist limits, sum up to no more than the virtual capacity of the
    window: the resource is never oversold between them.  The window times
    the virtual limit is to be below 2^65, so that the products with a weight
    fit the 128 bits they are computed in (a window of 172800 blocks and a
    virtual limit of 1000 times a uint32_t stay below 2^60); accounts with a
    pending change report a share for a weight that the totals do not count
    yet. *)
Theorem shares_within_capacity db (cpu_greylist net_greylist : Z -> Z) :
  rl_inv db ->
  account_cpu_usage_average_window (config db) * virtual_cpu_limit (state db) < 2 ^ 65 ->
  account_net_usage_average_window (config db) * virtual_net_limit (state db) < 2 ^ 65 ->
  table_sum (fun k _ => settled_max db (fun a => get_account_cpu_limit_ex db a (cpu_greylist a)) k) (limits db)
  <= account_cpu_usage_average_window (config db) * virtual_cpu_limit (state db) /\
  table_sum (fun k _ => settled_max db (fun a => get_account_net_limit_ex db a (net_greylist a)) k) (limits db)
  <= account_net_usage_average_window (config db) * virtual_net_limit (state db).
Proof.
  intros Hinv Hvc Hvn. destruct (inv_config _ Hinv) as (_ & _ & Hw1 & Hw2).
  destruct (inv_state _ Hinv) as (_ & _ & _ & _ & Hv1 & Hv2).
  pose proof (inv_cpu_range _ Hinv) as Hrc. pose proof (inv_net_range _ Hinv) as Hrn.
  unfold is_uint in Hv1, Hv2, Hrc, Hrn.
  assert (forall o l, limits db !! (false, o) = Some l -> limits db !! (true, o) = None ->
    get_account_limits db o = Ok l) as Hget.
  { intros o l Ho Hp. unfold get_account_limits, db_get. by rewrite Hp, Ho. }
  split.
  - edestruct (settled_max_share db cpu_weight (total_cpu_weight (state db))
      (fun a => get_account_cpu_limit_ex db a (cpu_greylist a))) as [H1 H2]; cycle 2.
    { eapply (sum_of_shares _ cpu_weight); [apply (inv_cpu _ Hinv)|nia|exact H1|exact H2]. }
    { nia. }
    intros o l Hk Hp. destruct (inv_limits _ Hinv _ _ Hk) as (_ & Hty & _).
    unfold get_account_cpu_limit_ex. rewrite (Hget _ _ Hk Hp).
    destruct (db_get (usages db) o) as [u|e]; cbn [mbind result_bind]; rewrite ?reported_err; [|split; nia].
    split; [intros Ht; apply account_limit_share; done || lia|intros Ht; by rewrite account_limit_no_total by lia].
  - edestruct (settled_max_share db net_weight (total_net_weight (state db))
      (fun a => get_account_net_limit_ex db a (net_greylist a))) as [H1 H2]; cycle 2.
    { eapply (sum_of_shares _ net_weight); [apply (inv_net _ Hinv)|nia|exact H1|exact H2]. }
    { nia. }
    intros o l Hk Hp. destruct (inv_limits _ Hinv _ _ Hk) as (Hty & _ & _).
    unfold get_account_net_limit_ex. rewrite (Hget _ _ Hk Hp).
    destruct (db_get (usages db) o) as [u|e]; cbn [mbind result_bind]; rewrite ?reported_err; [|split; nia].
    split; [intros Ht; apply account_limit_share; done || lia|intros Ht; by rewrite account_limit_no_total by lia].
Qed.

Lemma example_db_inv : rl_inv example_db.
Proof.
  assert (forall a b c d, rl_step a b -> rl_step b c -> rl_step c d -> rl_inv a -> rl_inv d) as H
    by (intros; eauto using rl_step_inv).
  eapply H; [| | |apply initialize_database_inv].
  - apply (step_initialize_account _ 7). vm_compute. reflexivity.
  - apply (step_set_account_limits _ 7 1000 50 60 _ true); vm_compute; done.
  - apply step_process_account_limit_updates. vm_compute. reflexivity.
Qed.

Lemma shares_within_capacity_witness :
  table_sum (fun k _ => settled_max example_db (fun a => get_account_cpu_limit_ex example_db a 1000) k)
    (limits example_db) <= 172800 * 200000.
Proof.
  apply (shares_within_capacity example_db (fun _ => 1000) (fun _ => 1000));
    [apply example_db_inv|vm_compute; done|vm_compute; done].
Defined.

(** ** The effect of a transaction *)

(** What one account's usage row becomes. *)
Definition billed (cfg : resource_limits_config_object) (cpu net time_slot : Z)
    (u : resource_usage_object) : resource_usage_object :=
  mk_usage (add_result (net_usage u) net time_slot (account_net_usage_average_window cfg))
    (add_result (cpu_usage u) cpu time_slot (account_cpu_usage_average_window cfg))
    (u64 (mem_usage u + transaction_id_net_usage)).

Lemma acc_add_ok units ordinal w a a' :
  acc_add units ordinal w a = Ok a' ->
  accumulator_typed a -> is_uint 64 units -> is_uint 32 ordinal -> 0 < w < 2 ^ 32 ->
  a' = add_result a units ordinal w.
Proof.
  intros H Ha Hu Ho Hw. unfold acc_add in H. rewrite add_spec in H by done.
  destruct (add_error _ _ _ _); [done|]. by injection H as <-.
Qed.

Lemma verify_mem_ext db db' a :
  limits db' = limits db -> usages db' !! a = usages db !! a ->
  verify_account_mem_usage db' a = verify_account_mem_usage db a.
Proof.
  intros Hl Hu. unfold verify_account_mem_usage, get_account_limits, db_get. by rewrite Hl, Hu.
Qed.

Lemma add_transaction_usage_one_effect cpu net time_slot db a db' :
  rl_inv db -> is_uint 64 cpu -> is_uint 64 net -> is_uint 32 time_slot ->
  add_transaction_usage_one cpu net time_slot db a = Ok db' ->
  exists u, usages db !! a = Some u /\
    db' = with_usages db (<[a := billed (config db) cpu net time_slot u]> (usages db)) /\
    verify_account_mem_usage db' a = Ok tt.
Proof.
  intros Hinv Hcpu Hnet Ht H. unfold add_transaction_usage_one in H. invert_ok. subst.
  apply db_get_ok in H0. destruct (inv_usages _ Hinv _ _ H0) as (Hn & Hc & Hm).
  destruct (inv_config _ Hinv) as (_ & _ & Hw1 & Hw2).
  apply acc_add_ok in H3; [|done..]. apply acc_add_ok in H4; [|done..]. subst.
  exists x. split_and!; done.
Qed.

(** The rows after the loop: the listed accounts are billed once each. *)
Lemma for_transaction_effect cpu net time_slot accounts db db' :
  rl_inv db -> is_uint 64 cpu -> is_uint 64 net -> is_uint 32 time_slot -> NoDup accounts ->
  for_accounts (add_transaction_usage_one cpu net time_slot) db accounts = Ok db' ->
  limits db' = limits db /\ state db' = state db /\ config db' = config db /\
  (forall a, a ∉ accounts -> usages db' !! a = usages db !! a) /\
  (forall a, a ∈ accounts -> exists u, usages db !! a = Some u /\
     usages db' !! a = Some (billed (config db) cpu net time_slot u) /\
     verify_account_mem_usage db' a = Ok tt).
Proof.
  intros Hinv Hc Hn Ht Hnd. revert db Hinv.
  induction Hnd as [|a accounts Ha Hnd IH]; intros db Hinv H; simpl in H.
  { invert_ok. subst. split_and!; try done. by intros a ?%elem_of_nil. }
  apply bind_ok in H as (db1 & H1 & H).
  destruct (add_transaction_usage_one_inv _ _ _ _ _ _ Hinv Hc Hn Ht H1) as (Hinv1 & _ & _).
  destruct (add_transaction_usage_one_effect _ _ _ _ _ _ Hinv Hc Hn Ht H1) as (u & Hu & E & Hv).
  destruct (IH db1 Hinv1 H) as (Hl' & Hs' & Hc' & Hout & Hin). clear IH H H1.
  rewrite E in Hl', Hs', Hc'. simpl in *. split_and!; [done|done|done| |].
  - intros b [Hb1 Hb2]%not_elem_of_cons. rewrite Hout, E by done. simpl.
    by rewrite lookup_insert_ne.
  - intros b [->|Hb]%elem_of_cons.
    + exists u. rewrite (verify_mem_ext db1 db'); [|by rewrite Hl', E|by rewrite Hout].
      split_and!; [done| |done]. rewrite Hout, E by done. apply lookup_insert_eq.
    + destruct (Hin b Hb) as (ub & Hub & Hub' & Hvb). exists ub.
      rewrite E in Hub, Hub'. simpl in *. rewrite lookup_insert_ne in Hub by congruence. done.
Qed.

(** A call of add_transaction_usage that returns has billed every account
    of the set exactly once: both accumulators advanced by the amounts given
    (as the exact [add_result]) and 32 bytes of memory added, within the
    account's memory limit if it has one; no other row changed, the pending
    block usage grew by the amounts and is within the block maxima. *)
Theorem transaction_usage_billed db accounts cpu net time_slot db' :
  rl_inv db -> is_uint 64 cpu -> is_uint 64 net -> is_uint 32 time_slot -> NoDup accounts ->
  add_transaction_usage db accounts cpu net time_slot = Ok db' ->
  (forall a, a ∉ accounts -> usages db' !! a = usages db !! a) /\
  (forall a, a ∈ accounts -> exists u l, usages db !! a = Some u /\
     usages db' !! a = Some (billed (config db) cpu net time_slot u) /\
     get_account_limits db a = Ok l /\
     (0 <= mem_bytes l -> u64 (mem_usage u + transaction_id_net_usage) <= mem_bytes l)) /\
  limits db' = limits db /\ config db' = config db /\
  pending_cpu_usage (state db') = u64 (pending_cpu_usage (state db) + cpu) /\
  pending_net_usage (state db') = u64 (pending_net_usage (state db) + net) /\
  pending_cpu_usage (state db') <= max (cpu_limit_parameters (config db)) /\
  pending_net_usage (state db') <= max (net_limit_parameters (config db)).
Proof.
  intros Hinv Hc Hn Ht Hnd H. unfold add_transaction_usage in H. apply bind_ok in H as (d & H0 & H).
  destruct (for_transaction_effect _ _ _ _ _ _ Hinv Hc Hn Ht Hnd H0) as (Hl & Hs & Hcf & Hout & Hin).
  invert_ok. subst db'. simpl in *. rewrite Hs, Hcf in *. bool_to_prop.
  split_and!; try done. intros a Ha. destruct (Hin a Ha) as (u & Hu & Hu' & Hv).
  unfold verify_account_mem_usage in Hv. apply bind_ok in Hv as (l & Hgl & Hv).
  exists u, l. unfold get_account_limits, db_get in *. rewrite Hl in Hgl.
  split_and!; [done|done|done|]. intros Hm. rewrite Hu' in Hv. cbn [mbind result_bind] in Hv.
  rewrite Z.geb_leb, (proj2 (Z.leb_le _ _)) in Hv by done. invert_ok. bool_to_prop.
  rewrite (wrap_id 64 (mem_bytes l)) in Hv; [done|].
  assert (limits_typed l) as (_ & _ & Hty).
  { destruct (limits db !! (true, a)) eqn:E; [|destruct (limits db !! (false, a)) eqn:E';
      [|done]]; invert_ok; subst; by eapply inv_limits. }
  unfold is_sint, is_uint in *. simpl in Hty. lia.
Qed.

Lemma transaction_usage_billed_witness :
  exists db', add_transaction_usage example_db [7] 100 200 3 = Ok db' /\
    pending_cpu_usage (state db') = u64 (pending_cpu_usage (state example_db) + 100).
Proof.
  eexists. split; [vm_compute; reflexivity|].
  eapply (transaction_usage_billed example_db [7] 100 200 3);
    [apply example_db_inv|vm_compute; done..|apply NoDup_singleton|vm_compute; reflexivity].
Defined.

(** Add_pending_mem_usage adds the signed delta to the account's memory
    exactly, or throws: std::out_of_range for an unknown account and
    transaction_exception when the result would not be a uint64_t.  The
    two guards leave no case in which the unsigned addition wraps. *)
Theorem mem_delta_exact db a d :
  rl_inv db -> INT64_MIN < d <= INT64_MAX ->
  add_pending_mem_usage db a d =
  if d =? 0 then Ok db else
  match usages db !! a with
  | None => Err std_out_of_range
  | Some u =>
      if (0 <=? mem_usage u + d) && (mem_usage u + d <=? UINT64_MAX)
      then Ok (with_usages db (<[a := mk_usage (net_usage u) (cpu_usage u) (mem_usage u + d)]>
                                 (usages db)))
      else Err (Throw transaction_exception)
  end.
Proof.
  intros Hinv Hd. unfold add_pending_mem_usage, db_get. destruct (d =? 0); [done|].
  destruct (usages db !! a) as [u|] eqn:Hu; [|done]. cbn [mbind result_bind].
  destruct (inv_usages _ Hinv _ _ Hu) as (_ & _ & Hm). unfold is_uint in Hm.
  rewrite (wrap_id 64 (UINT64_MAX - mem_usage u)) by (unfold is_uint; lia).
  destruct (Z.leb_spec d 0).
  - cbn [orb ine_assert mbind result_bind].
    destruct (Z.eqb_spec d INT64_MIN); [lia|]. rewrite orb_true_r. cbn [ine_assert mbind result_bind].
    rewrite (wrap_id 64 (- d)) by (unfold is_uint; lia).
    rewrite (proj2 (Z.leb_le (mem_usage u + d) UINT64_MAX)), andb_true_r by lia.
    assert ((d >=? 0) || (mem_usage u >=? - d) = (0 <=? mem_usage u + d)) as ->.
    { destruct (Z.geb_spec d 0), (Z.geb_spec (mem_usage u) (- d)), (Z.leb_spec 0 (mem_usage u + d));
        simpl; lia || done. }
    destruct (Z.leb_spec 0 (mem_usage u + d)); [|done]. cbn [ine_assert mbind result_bind].
    replace (u64 (mem_usage u + u64 d)) with (mem_usage u + d); [done|].
    unfold wrap. rewrite Zplus_mod_idemp_r. symmetry. by apply Z.mod_small; lia.
  - rewrite !(wrap_id 64 d) by (unfold is_uint; lia).
    destruct (Z.geb_spec d 0); [|lia]. cbn [orb].
    rewrite (proj2 (Z.leb_le 0 (mem_usage u + d))) by lia. cbn [andb].
    destruct (Z.geb_spec (UINT64_MAX - mem_usage u) d), (Z.leb_spec (mem_usage u + d) UINT64_MAX);
      try lia; [|done]. cbn [ine_assert mbind result_bind].
    by rewrite wrap_id by (unfold is_uint; lia).
Qed.

Lemma mem_delta_exact_witness :
  add_pending_mem_usage example_db 7 (-1) = Err (Throw transaction_exception).
Proof.
  rewrite (mem_delta_exact example_db 7 (-1)); [vm_compute; reflexivity|apply example_db_inv|lia].
Defined.

(** The memory an account is billed for changes by the delta, that of the
    others does not. *)
Definition mem_of (db : rl_db) (a : Z) : Z := match usages db !! a with Some u => mem_usage u | None => 0 end.

Lemma pending_mem_ok db account d db' :
  rl_inv db -> INT64_MIN < d <= INT64_MAX -> add_pending_mem_usage db account d = Ok db' ->
  rl_inv db' /\ forall a, mem_of db' a = mem_of db a + if a =? account then d else 0.
Proof.
  intros Hi Hd H. split; [by apply (add_pending_mem_usage_inv _ _ _ _ Hi H)|]. intros a. unfold mem_of.
  rewrite mem_delta_exact in H by done. destruct (Z.eqb_spec d 0) as [->|].
  { injection H as <-. destruct (a =? account); lia. }
  destruct (usages db !! account) as [u|] eqn:Hu; [|done]. destruct (_ && _); [|done]. injection H as <-. cbn.
  destruct (Z.eqb_spec a account) as [->|Hne].
  - by rewrite lookup_insert_eq, Hu.
  - rewrite lookup_insert_ne by done. lia.
Qed.

(** An elastic limit of the state stays within its bounds across blocks:
    if process_block_usage returns, both virtual limits are between the
    block maximum and its elastic multiple, and the pending usage is reset. *)
Theorem block_usage_limits_bounded db n db' :
  rl_inv db -> process_block_usage db n = Ok db' ->
  (forall p, p = cpu_limit_parameters (config db) \/ p = net_limit_parameters (config db) ->
     1 <= max_multiplier p /\ max p * max_multiplier p <= UINT64_MAX) ->
  let cpu := cpu_limit_parameters (config db) in
  let net := net_limit_parameters (config db) in
  max cpu <= get_virtual_block_cpu_limit db' <= max cpu * max_multiplier cpu /\
  max net <= get_virtual_block_net_limit db' <= max net * max_multiplier net /\
  get_block_cpu_limit db' = max cpu /\ get_block_net_limit db' = max net.
Proof.
  intros Hinv H Hp cpu net. destruct (inv_config _ Hinv) as ((He1 & _ & Hv1) & (He2 & _ & Hv2) & _ & _).
  destruct (inv_state _ Hinv) as (_ & _ & _ & _ & Hvn & Hvc).
  destruct (Hp cpu (or_introl eq_refl)) as [Hc1 Hc2]. destruct (Hp net (or_intror eq_refl)) as [Hn1 Hn2].
  unfold process_block_usage in H. invert_ok. subst db'.
  unfold get_virtual_block_cpu_limit, get_virtual_block_net_limit, get_block_cpu_limit,
    get_block_net_limit. simpl. fold cpu net. rewrite !Z.sub_0_r.
  destruct He1 as (Hm1 & _), He2 as (Hm2 & _). rewrite !wrap_id by done.
  apply update_elastic_limit_range in H1; [|done..]. apply update_elastic_limit_range in H3; done.
Qed.

Lemma block_usage_limits_bounded_witness :
  exists db', process_block_usage example_db 1 = Ok db' /\
    200000 <= get_virtual_block_cpu_limit db' <= 200000 * 1000.
Proof.
  eexists. split; [vm_compute; reflexivity|].
  eapply (block_usage_limits_bounded example_db 1);
    [apply example_db_inv|vm_compute; reflexivity|].
  intros p [->| ->]; vm_compute; done.
Defined.
