(* ===== verification/ProducerSchedule.v ===== *)
(** * Producer schedules

    Models producer_schedule.hpp: the legacy schedule of one key per
    producer, the block signing authorities with weighted keys, the
    up-conversion of a legacy schedule, and the test whether a set of keys
    satisfies a block signing authority.  The shared_ variants, the copies of
    these structures in shared memory, are not modelled.

    The test is shown to compare the exact sum of the presented weights with
    the threshold, although it adds them up in 32 bits. *)

From S2P Require Import Prelude Exceptions Authority.

(** ** Data *)

(** [legacy::producer_key] *)
Record producer_key := mk_producer_key {
  pk_producer_name : Z;
  block_signing_key : public_key
}.

(** [legacy::producer_schedule_type] *)
Record producer_schedule_type := mk_producer_schedule_type {
  pst_version : Z;
  pst_producers : list producer_key
}.

(** [block_signing_authority_v0], the only alternative of the variant
    block_signing_authority. *)
Record block_signing_authority := mk_block_signing_authority {
  bsa_threshold : Z;
  bsa_keys : list key_weight
}.

Record producer_authority := mk_producer_authority {
  producer_name : Z;
  pa_authority : block_signing_authority
}.

Record producer_authority_schedule := mk_producer_authority_schedule {
  version : Z;
  producers : list producer_authority
}.

#[export] Instance producer_key_eq_dec : EqDecision producer_key.
Proof. solve_decision. Defined.
#[export] Instance producer_schedule_type_eq_dec : EqDecision producer_schedule_type.
Proof. solve_decision. Defined.
#[export] Instance block_signing_authority_eq_dec : EqDecision block_signing_authority.
Proof. solve_decision. Defined.
#[export] Instance producer_authority_eq_dec : EqDecision producer_authority.
Proof. solve_decision. Defined.
#[export] Instance producer_authority_schedule_eq_dec : EqDecision producer_authority_schedule.
Proof. solve_decision. Defined.

(** The default constructor. *)
Definition empty_schedule : producer_authority_schedule := mk_producer_authority_schedule 0 [].

(** The explicit constructor from a legacy schedule. *)
Definition upconvert (old : producer_schedule_type) : producer_authority_schedule :=
  mk_producer_authority_schedule (pst_version old)
    (map (fun p => mk_producer_authority (pk_producer_name p)
                     (mk_block_signing_authority 1 [mk_key_weight (block_signing_key p) 1]))
       (pst_producers old)).

(** ** Satisfaction of a block signing authority *)

(** The loop over the keys of the authority. *)
Fixpoint satisfy_loop (thr : Z) (presented : public_key -> bool) (l : list key_weight)
    (num_relevant_keys total_weight : Z) : Z * Z :=
  match l with
  | [] => (num_relevant_keys, total_weight)
  | kw :: l' =>
      if presented (kw_key kw) then
        satisfy_loop thr presented l' (num_relevant_keys + 1)
          (if total_weight <? thr
           then u32 (total_weight + Z.min (UINT32_MAX - total_weight) (kw_weight kw))
           else total_weight)
      else satisfy_loop thr presented l' num_relevant_keys total_weight
  end.

Definition keys_satisfy_and_relevant (presented_keys : list public_key)
    (a : block_signing_authority) : bool * Z :=
  let '(num_relevant_keys, total_weight) :=
    satisfy_loop (bsa_threshold a) (fun k => bool_decide (k ∈ presented_keys)) (bsa_keys a) 0 0 in
  (total_weight >=? bsa_threshold a, num_relevant_keys).

(** ** What the loop computes *)

(** The keys of the authority that are presented, and their exact weight. *)
Definition presented_keys_of (a : block_signing_authority) (ks : list public_key) : list key_weight :=
  filter (fun kw => kw_key kw ∈ ks) (bsa_keys a).

Lemma presented_permutation a ks ks' :
  ks ≡ₚ ks' -> presented_keys_of a ks = presented_keys_of a ks'.
Proof. intros Hp. unfold presented_keys_of. apply list_filter_iff. intros x. by rewrite Hp. Qed.

Definition weight_sum (l : list key_weight) : Z := foldr (fun kw s => kw_weight kw + s) 0 l.

(** The types of the members. *)
Definition signing_authority_typed (a : block_signing_authority) : Prop :=
  is_uint 32 (bsa_threshold a) /\ Forall (fun kw => is_uint 16 (kw_weight kw)) (bsa_keys a).

Lemma weight_sum_nonneg l : Forall (fun kw => is_uint 16 (kw_weight kw)) l -> 0 <= weight_sum l.
Proof. induction 1 as [|kw l H Hl IH]; simpl; [lia|]. unfold is_uint in H. lia. Qed.

(** The sum stops growing once it has reached the threshold. *)
Lemma satisfy_loop_spec thr (ks : list public_key) l n w :
  is_uint 32 thr -> is_uint 32 w -> Forall (fun kw => is_uint 16 (kw_weight kw)) l ->
  let r := satisfy_loop thr (fun k => bool_decide (k ∈ ks)) l n w in
  let sel := filter (fun kw => kw_key kw ∈ ks) l in
  r.1 = n + Z.of_nat (length sel) /\ (thr <= r.2 <-> thr <= w + weight_sum sel).
Proof.
  intros Ht. revert n w. induction l as [|kw l IH]; intros n w Hw Hl; simpl; [lia|].
  inversion Hl as [|? ? Hk Hl']; subst. rewrite filter_cons.
  destruct (decide (kw_key kw ∈ ks)) as [Hp|Hp]; cycle 1.
  { rewrite bool_decide_false by done. by apply IH. }
  rewrite bool_decide_true by done. cbn [length].
  assert (0 <= weight_sum (filter (fun kw => kw_key kw ∈ ks) l)) as Hpos.
  { apply weight_sum_nonneg, list.Forall_forall. intros x [_ Hx]%list_elem_of_filter.
    by apply (proj1 (list.Forall_forall _ l) Hl'). }
  unfold is_uint in *. destruct (Z.ltb_spec w thr) as [Hlt|Hge].
  - rewrite (wrap_id 32) by (unfold is_uint; lia).
    destruct (IH (n + 1) (w + Z.min (2 ^ 32 - 1 - w) (kw_weight kw)) ltac:(lia) Hl') as [H1 H2].
    split; [lia|]. rewrite H2. unfold weight_sum in *. cbn [foldr]. lia.
  - destruct (IH (n + 1) w Hw Hl') as [H1 H2]. split; [lia|]. rewrite H2.
    unfold weight_sum in *. cbn [foldr]. lia.
Qed.

(** Saturating 32-bit addition does not change the answer: the authority is
    satisfied exactly if the exact weights of the presented keys reach the
    threshold, and the count is the number of presented keys. *)
Lemma keys_satisfy_spec ks a :
  signing_authority_typed a ->
  keys_satisfy_and_relevant ks a =
    (bool_decide (bsa_threshold a <= weight_sum (presented_keys_of a ks)),
     Z.of_nat (length (presented_keys_of a ks))).
Proof.
  intros [Ht Hl]. unfold keys_satisfy_and_relevant, presented_keys_of.
  pose proof (satisfy_loop_spec (bsa_threshold a) ks (bsa_keys a) 0 0 Ht ltac:(by split) Hl) as H.
  destruct (satisfy_loop _ _ _ _ _) as [n w]. cbn in H. destruct H as [-> H]. f_equal.
  apply eq_bool_prop_intro. rewrite Z.geb_leb, Is_true_true, Z.leb_le, H, bool_decide_spec. done.
Qed.

(** An up-converted producer is satisfied by its key alone and by no set of
    keys without it. *)
Lemma upconvert_satisfied old p ks :
  p ∈ producers (upconvert old) ->
  exists k, mk_producer_key (producer_name p) k ∈ pst_producers old /\
    keys_satisfy_and_relevant ks (pa_authority p) =
      if decide (k ∈ ks) then (true, 1) else (false, 0).
Proof.
  intros (q & -> & Hq)%list_elem_of_fmap. exists (block_signing_key q). split; [by destruct q|].
  rewrite keys_satisfy_spec.
  2: { simpl. split; [by split|]. repeat constructor; unfold is_uint; simpl; lia. }
  unfold presented_keys_of. simpl. rewrite filter_cons. simpl. by destruct (decide _).
Qed.
