(* ===== verification/Raw.v ===== *)
(** * Binary serialization

    Models fc/io/raw.hpp, varint.hpp and datastream.hpp: the packing of
    integers, variable-length integers, booleans, optionals, byte strings,
    vectors, pairs, sets and static variants, the two-pass packing of a value
    into a vector, and the unpacking from one.

    A [codec] of a type has what [fc::raw::pack] passes to the write calls of
    its stream, in order, and the function [fc::raw::unpack] from the bytes
    that are left in a stream.  [Lawful] is what the users of a codec rely
    on: a value that fits is read back, whatever follows it, and reading
    takes a prefix of the stream.  Each codec has an instance, so that the
    law of a composed structure is found by instance search.  The try blocks
    that rethrow an exception with a message keep its type and are left
    out. *)

From Stdlib Require Import Sorted.
From S2P Require Import Prelude Exceptions.

Definition MAX_NUM_ARRAY_ELEMENTS : Z := 1024 * 1024.
Definition MAX_SIZE_OF_BYTE_ARRAYS : Z := 20 * 1024 * 1024.

(** ** Streams *)

(** [datastream<const char*>::read] *)
Definition read (n : nat) (s : list Z) : outcome (list Z * list Z) :=
  if bool_decide (n <= length s)%nat then Ok (take n s, drop n s) else Err fc_out_of_range_exception.

(** [datastream<const char*>::get] *)
Definition get (s : list Z) : outcome (Z * list Z) :=
  match s with b :: s' => Ok (b, s') | [] => Err fc_out_of_range_exception end.

(** [datastream<char*>]: the bytes written so far to a buffer of [size]. *)
Definition ds_write (size : Z) (d : list Z) (written : list Z) : outcome (list Z) :=
  if size - Z.of_nat (length written) >=? swrap 32 (Z.of_nat (length d))
  then Ok (written ++ d) else Err fc_out_of_range_exception.

(** [datastream<size_t>]: a stream that only counts. *)
Definition ds_count (d : list Z) (size : Z) : Z := u64 (size + Z.of_nat (length d)).

(** ** Codecs *)

Record codec (A : Type) := mk_codec {
  pack : A -> outcome (list (list Z));
  unpack : list Z -> outcome (A * list Z)
}.
Arguments mk_codec {A} pack unpack.
Arguments pack {A} c a.
Arguments unpack {A} c s.

(** An integer of [k] bytes as it lies in memory, least byte first. *)
Fixpoint le_bytes (k : nat) (z : Z) : list Z :=
  match k with O => [] | S k' => z mod 256 :: le_bytes k' (z / 256) end.

Fixpoint le_number (l : list Z) : Z :=
  match l with [] => 0 | b :: l' => b + 256 * le_number l' end.

Definition uint_codec (k : nat) : codec Z :=
  mk_codec (fun z => Ok [le_bytes k z])
           (fun s => '(l, s') ← read k s; Ok (le_number l, s')).

(** int64_t *)
Definition int64_codec : codec Z :=
  mk_codec (fun z => Ok [le_bytes 8 (u64 z)])
           (fun s => '(l, s') ← read 8 s; Ok (i64 (le_number l), s')).

(** An array of [n] chars. *)
Definition array_codec (n : nat) : codec (list Z) :=
  mk_codec (fun l => Ok [l]) (read n).

Definition bool_codec : codec bool :=
  mk_codec (fun b : bool => pack (uint_codec 1) (if b then 1 else 0))
           (fun s => '(b, s') ← unpack (uint_codec 1) s;
                     ine_assert (Z.land b (Z.lnot 1) =? 0) fc_assert_exception ;;
                     Ok (negb (b =? 0), s')).

(** *** Variable-length integers *)

(** The do-while loop of pack, on a uint64_t; [fuel] bounds its iterations. *)
Fixpoint varint_bytes (fuel : nat) (val : Z) : list (list Z) :=
  match fuel with
  | O => []
  | S fuel' =>
      let val' := Z.shiftr val 7 in
      [Z.lor (Z.land (u8 val) 0x7f) (if val' >? 0 then Z.shiftl 1 7 else 0)] ::
      (if val' =? 0 then [] else varint_bytes fuel' val')
  end.

(** The do-while loop of unpack; [by_] is the counter by. *)
Fixpoint varint_loop (fuel : nat) (v by_ : Z) (s : list Z) : outcome (Z * list Z) :=
  match fuel with
  | O => Err undefined_behaviour
  | S fuel' =>
      '(b, s') ← get s;
      let v' := Z.lor v (u32 (Z.shiftl (Z.land b 0x7f) by_)) in
      let by' := u8 (by_ + 7) in
      if negb (Z.land b 0x80 =? 0) && (by' <? 32)
      then varint_loop fuel' v' by' s'
      else Ok (v', s')
  end.

Definition unsigned_int_codec : codec Z :=
  mk_codec (fun v => Ok (varint_bytes 10 v))
           (fun s => '(v, s') ← varint_loop 5 0 0 s; Ok (u32 v, s')).

(** The loop of signed_int has no bound of its own; a shift by 32 or more is
    undefined. *)
Fixpoint signed_loop (s : list Z) (v by_ : Z) : outcome (Z * list Z) :=
  match s with
  | [] => Err fc_out_of_range_exception
  | b :: s' =>
      if by_ >=? 32 then Err undefined_behaviour else
      let v' := Z.lor v (u32 (Z.shiftl (Z.land b 0x7f) by_)) in
      if negb (Z.land b 0x80 =? 0) then signed_loop s' v' (by_ + 7) else Ok (v', s')
  end.

Definition zigzag (value : Z) : Z := u32 (Z.lxor (swrap 32 (Z.shiftl value 1)) (Z.shiftr value 31)).

Definition unzigzag (v : Z) : Z :=
  swrap 32 (Z.lxor (Z.shiftr v 1) (u64 (u32 (Z.lnot (Z.land v 1)) + 1))).

Definition signed_int_codec : codec Z :=
  mk_codec (fun v => Ok (varint_bytes 5 (zigzag v)))
           (fun s => '(v, s') ← signed_loop s 0 0; Ok (unzigzag v, s')).

(** *** Containers *)

Definition optional_codec {A} (c : codec A) : codec (option A) :=
  mk_codec
    (fun o => match o with
              | None => pack bool_codec false
              | Some a => w1 ← pack bool_codec true; w2 ← pack c a; Ok (w1 ++ w2)
              end)
    (fun s => '(b, s') ← unpack bool_codec s;
              if b : bool then '(a, s'') ← unpack c s'; Ok (Some a, s'') else Ok (None, s')).

(** [std::vector<char>] and [fc::string] *)
Definition bytes_codec : codec (list Z) :=
  mk_codec
    (fun l => ine_assert (Z.of_nat (length l) <=? MAX_SIZE_OF_BYTE_ARRAYS) fc_assert_exception ;;
              w ← pack unsigned_int_codec (u32 (Z.of_nat (length l)));
              Ok (w ++ match l with [] => [] | _ => [l] end))
    (fun s => '(n, s') ← unpack unsigned_int_codec s;
              ine_assert (n <=? MAX_SIZE_OF_BYTE_ARRAYS) fc_assert_exception ;;
              if n =? 0 then Ok ([], s') else read (Z.to_nat n) s').

(** The loops over the elements. *)
Fixpoint pack_each {A} (c : codec A) (l : list A) : outcome (list (list Z)) :=
  match l with
  | [] => Ok []
  | a :: l' => w ← pack c a; ws ← pack_each c l'; Ok (w ++ ws)
  end.

Fixpoint unpack_each {A} (c : codec A) (n : nat) (s : list Z) : outcome (list A * list Z) :=
  match n with
  | O => Ok ([], s)
  | S n' => '(a, s') ← unpack c s; '(l, s'') ← unpack_each c n' s'; Ok (a :: l, s'')
  end.

Definition vector_codec {A} (c : codec A) : codec (list A) :=
  mk_codec
    (fun l => ine_assert (Z.of_nat (length l) <=? MAX_NUM_ARRAY_ELEMENTS) fc_assert_exception ;;
              w ← pack unsigned_int_codec (u32 (Z.of_nat (length l)));
              ws ← pack_each c l;
              Ok (w ++ ws))
    (fun s => '(n, s') ← unpack unsigned_int_codec s;
              ine_assert (n <=? MAX_NUM_ARRAY_ELEMENTS) fc_assert_exception ;;
              unpack_each c (Z.to_nat n) s').

Definition pair_codec {A B} (c1 : codec A) (c2 : codec B) : codec (A * B) :=
  mk_codec
    (fun p => w1 ← pack c1 p.1; w2 ← pack c2 p.2; Ok (w1 ++ w2))
    (fun s => '(a, s') ← unpack c1 s; '(b, s'') ← unpack c2 s'; Ok ((a, b), s'')).

(** [std::set::insert]: a set is its elements in order. *)
Fixpoint set_insert {A} (lt : A -> A -> bool) (x : A) (l : list A) : list A :=
  match l with
  | [] => [x]
  | y :: l' => if lt x y then x :: l else if lt y x then y :: set_insert lt x l' else l
  end.

Definition set_codec {A} (lt : A -> A -> bool) (c : codec A) : codec (list A) :=
  mk_codec
    (pack (vector_codec c))
    (fun s => '(l, s') ← unpack (vector_codec c) s; Ok (foldl (fun acc x => set_insert lt x acc) [] l, s')).

(** [std::map]: insert compares the keys only. *)
Definition map_codec {K V} (lt : K -> K -> bool) (c1 : codec K) (c2 : codec V) : codec (list (K * V)) :=
  set_codec (fun x y => lt x.1 y.1) (pair_codec c1 c2).

(** [UInt<256>]: the low half first. *)
Definition uint256_codec : codec Z :=
  mk_codec
    (fun n => w1 ← pack (uint_codec 16) (u128 n); w2 ← pack (uint_codec 16) (u128 (Z.shiftr n 128));
              Ok (w1 ++ w2))
    (fun s => '(t0, s') ← unpack (uint_codec 16) s; '(t1, s'') ← unpack (uint_codec 16) s';
              Ok (Z.lor (wrap 256 (Z.shiftl t1 128)) t0, s'')).

(** A reflected structure is packed member by member: as the tuple of its
    members. *)
Definition struct_codec {A B} (members : A -> B) (make : B -> A) (c : codec B) : codec A :=
  mk_codec (fun a => pack c (members a)) (fun s => '(b, s') ← unpack c s; Ok (make b, s')).

(** A static_variant of [count] alternatives: the tag, then the value. *)
Definition static_variant_codec {A} (count : Z) (which : A -> Z)
    (packer : A -> outcome (list (list Z))) (unpacker : Z -> list Z -> outcome (A * list Z)) : codec A :=
  mk_codec
    (fun a => w ← pack unsigned_int_codec (which a); ws ← packer a; Ok (w ++ ws))
    (fun s => '(w, s') ← unpack unsigned_int_codec s;
              ine_assert (w <? count) fc_assert_exception ;; unpacker w s').

(** ** Packing into a vector, and unpacking *)

Fixpoint write_all (size : Z) (ws : list (list Z)) (written : list Z) : outcome (list Z) :=
  match ws with
  | [] => Ok written
  | w :: ws' => written' ← ds_write size w written; write_all size ws' written'
  end.

(** [std::vector<char> pack( const T& )]: a pass that counts, an allocation,
    and a pass that writes. *)
Definition pack_vector {A} (c : codec A) (a : A) : outcome (list Z) :=
  ws ← pack c a;
  let size := foldl (fun n d => ds_count d n) 0 ws in
  if size =? 0 then Ok [] else write_all size ws [].

(** [T unpack( const std::vector<char>& )]: what is left is ignored. *)
Definition unpack_vector {A} (c : codec A) (s : list Z) : outcome A :=
  '(a, _) ← unpack c s; Ok a.

(** ** The law of a codec *)

(** [fits] are the values of the type the C++ code can hold and is allowed to
    pack. *)
Class Lawful {A} (c : codec A) (fits : A -> Prop) : Prop := {
  unpack_pack a s : fits a ->
    exists ws, pack c a = Ok ws /\ unpack c (concat ws ++ s) = Ok (a, s);
  unpack_prefix s a s' : unpack c s = Ok (a, s') -> exists p, s = p ++ s'
}.
Arguments unpack_pack {A} c {fits Lawful} a s.
Arguments unpack_prefix {A} c {fits Lawful} s a s'.

Lemma read_app n l s : length l = n -> read n (l ++ s) = Ok (l, s).
Proof.
  intros <-. unfold read. rewrite bool_decide_true by (rewrite length_app; lia).
  by rewrite take_app_length, drop_app_length.
Qed.

Lemma read_prefix n s l s' : read n s = Ok (l, s') -> s = l ++ s' /\ length l = n.
Proof.
  unfold read. case_bool_decide as H; [|done]. intros [= <- <-].
  split; [by rewrite take_drop|]. rewrite length_take. lia.
Qed.

Lemma get_prefix s b s' : get s = Ok (b, s') -> s = b :: s'.
Proof. destruct s; [done|]. by intros [= -> ->]. Qed.

Lemma length_le_bytes k z : length (le_bytes k z) = k.
Proof. revert z. induction k; intros z; simpl; [done|]. by rewrite IHk. Qed.

Lemma le_number_bytes k z : le_number (le_bytes k z) = z mod 2 ^ (8 * Z.of_nat k).
Proof.
  revert z. induction k as [|k IH]; intros z; cbn [le_bytes le_number]; [by rewrite Z.mod_1_r|].
  rewrite IH. replace (8 * Z.of_nat (S k)) with (8 + 8 * Z.of_nat k) by lia.
  rewrite Z.pow_add_r by lia. rewrite Z.mul_comm, Z.rem_mul_r by lia. change (2 ^ 8) with 256. lia.
Qed.

#[export] Instance uint_lawful k : Lawful (uint_codec k) (is_uint (8 * Z.of_nat k)).
Proof.
  split.
  - intros z s Hz. eexists. split; [done|]. cbn [concat unpack uint_codec]. rewrite app_nil_r.
    rewrite read_app by apply length_le_bytes. cbn. rewrite le_number_bytes. by rewrite Z.mod_small.
  - intros s z s'. cbn. intros H. apply bind_ok in H as ([l s1] & H & [= _ <-]).
    apply read_prefix in H as [-> _]. eauto.
Qed.

#[export] Instance int64_lawful : Lawful int64_codec (is_sint 64).
Proof.
  split.
  - intros z s Hz. eexists. split; [done|]. cbn [concat unpack int64_codec]. rewrite app_nil_r.
    rewrite read_app by apply length_le_bytes. cbn [mbind result_bind].
    rewrite le_number_bytes. change (8 * Z.of_nat 8) with 64. fold (wrap 64 (u64 z)).
    rewrite (wrap_wrap 64) by lia. do 2 f_equal.
    unfold swrap, wrap. rewrite Zplus_mod_idemp_l. by apply (swrap_id 64).
  - intros s z s'. cbn. intros H. apply bind_ok in H as ([l s1] & H & [= _ <-]).
    apply read_prefix in H as [-> _]. eauto.
Qed.

#[export] Instance array_lawful n : Lawful (array_codec n) (fun l => length l = n).
Proof.
  split.
  - intros l s Hl. eexists. split; [done|]. cbn [concat unpack array_codec]. rewrite app_nil_r.
    by apply read_app.
  - intros s l s' H. cbn in H. apply read_prefix in H as [-> _]. eauto.
Qed.

#[export] Instance bool_lawful : Lawful bool_codec (fun _ => True).
Proof.
  split.
  - intros b s _. eexists. split; [done|]. by destruct b.
  - intros s b s'. cbn [unpack bool_codec]. intros H. apply bind_ok in H as ([z s1] & H & H').
    apply bind_ok in H' as (? & _ & [= _ <-]). by eapply (unpack_prefix (uint_codec 1)).
Qed.

(** *** Variable-length integers *)

(** One byte of a packed number. *)
Lemma varint_byte v :
  0 <= v ->
  let b := Z.lor (Z.land (u8 v) 0x7f) (if Z.shiftr v 7 >? 0 then Z.shiftl 1 7 else 0) in
  Z.land b 0x7f = v mod 128 /\ (Z.land b 0x80 =? 0) = (Z.shiftr v 7 =? 0).
Proof.
  intros Hv. cbv zeta. rewrite (Z.shiftr_div_pow2 v 7) by lia. change (2 ^ 7) with 128.
  assert (Z.land (u8 v) 0x7f = v mod 128) as E.
  { change 0x7f with (Z.ones 7). rewrite Z.land_ones by lia. unfold wrap.
    apply Z.mod_mod_divide. by exists 2. }
  assert (0 <= v mod 128 < 128) as Hm by (apply Z.mod_pos_bound; lia).
  assert (0 <= v / 128) by (apply Z.div_pos; lia). rewrite E.
  generalize dependent (v mod 128). intros m _ Hm.
  destruct (Z.gtb_spec (v / 128) 0) as [Hgt|Hle].
  - rewrite lor_shiftl_add by (unfold is_uint; lia).
    replace (v / 128 =? 0) with false by (symmetry; apply Z.eqb_neq; lia). split.
    + change 0x7f with (Z.ones 7). rewrite Z.land_ones by lia.
      rewrite Z.mod_add by lia. by apply Z.mod_small.
    + apply Z.eqb_neq. intros Hz. apply (f_equal (fun z => Z.testbit z 7)) in Hz.
      rewrite Z.land_spec, Z.bits_0 in Hz. rewrite <- lor_shiftl_add in Hz by (unfold is_uint; lia).
      rewrite Z.lor_spec in Hz. simpl in Hz. by rewrite orb_true_r in Hz.
  - rewrite Z.lor_0_r. replace (v / 128) with 0 by lia. split.
    + change 0x7f with (Z.ones 7). rewrite Z.land_ones by lia. by apply Z.mod_small.
    + apply Z.eqb_eq. apply Z.bits_inj'. intros n Hn. rewrite Z.land_spec, Z.bits_0.
      destruct (decide (n = 7)) as [->|Hne].
      * assert (Z.testbit m 7 = false) as ->; [|done].
        rewrite <- (Z.mod_small m (2 ^ 7)) by lia. by apply Z.mod_pow2_bits_high.
      * change 0x80 with (2 ^ 7). rewrite Z.pow2_bits_false by lia. by rewrite andb_false_r.
Qed.

(** Adding seven bits to the number read so far. *)
Lemma varint_accumulate a v k :
  0 <= k -> is_uint k a -> 0 <= v < 2 ^ (32 - k) ->
  Z.lor a (u32 (Z.shiftl (v mod 128) k)) = a + (v mod 128) * 2 ^ k /\
  is_uint (k + 7) (a + (v mod 128) * 2 ^ k).
Proof.
  intros Hk Ha Hv. assert (0 <= v mod 128 < 128) by (apply Z.mod_pos_bound; lia).
  assert (v mod 128 <= v) by (apply Z.mod_le; lia).
  assert (0 < 2 ^ k) by (apply Z.pow_pos_nonneg; lia).
  assert (k <= 32) as Hk32.
  { destruct (decide (k <= 32)); [done|]. rewrite Z.pow_neg_r in Hv by lia. lia. }
  assert (2 ^ (32 - k) * 2 ^ k = 2 ^ 32) as Hp.
  { rewrite <- Z.pow_add_r by lia. f_equal. lia. }
  rewrite (wrap_id 32), lor_shiftl_add; [|done|done|].
  - split; [done|]. unfold is_uint in *. rewrite Z.pow_add_r by lia. change (2 ^ 7) with 128. nia.
  - rewrite Z.shiftl_mul_pow2 by done. unfold is_uint. nia.
Qed.

Lemma varint_rest v k : 0 <= k -> 0 <= v < 2 ^ (32 - k) -> 0 < Z.shiftr v 7 ->
  k + 7 < 32 /\ 0 <= Z.shiftr v 7 < 2 ^ (32 - (k + 7)).
Proof.
  intros Hk Hv Hpos. rewrite Z.shiftr_div_pow2 in * by lia.
  assert (128 <= v).
  { destruct (decide (v < 128)); [|lia]. rewrite (Z.div_small v (2 ^ 7)) in Hpos by lia. lia. }
  assert (7 < 32 - k) as Hlt.
  { apply Z.nle_gt. intros Hle. pose proof (Z.pow_le_mono_r 2 (32 - k) 7 ltac:(lia) Hle). lia. }
  split; [lia|]. split; [lia|]. apply Z.div_lt_upper_bound; [lia|].
  rewrite <- Z.pow_add_r by lia. replace (7 + (32 - (k + 7))) with (32 - k) by lia. lia.
Qed.

Lemma varint_loop_bytes fuel g v a k s :
  k = 7 * (5 - Z.of_nat fuel) -> 0 <= k -> (fuel <= g)%nat ->
  is_uint k a -> 0 <= v < 2 ^ (32 - k) ->
  varint_loop fuel a k (concat (varint_bytes g v) ++ s) = Ok (a + v * 2 ^ k, s).
Proof.
  revert g v a k. induction fuel as [|fuel IH]; intros g v a k Ek Hk Hg Ha Hv.
  { rewrite Z.pow_neg_r in Hv by lia. lia. }
  destruct g as [|g]; [lia|]. cbn [varint_bytes concat app varint_loop get mbind result_bind].
  destruct (varint_byte v) as [-> ->]; [lia|].
  destruct (varint_accumulate a v k) as [-> Ha']; [done..|].
  assert (v = 128 * Z.shiftr v 7 + v mod 128) as Ev.
  { rewrite Z.shiftr_div_pow2 by lia. apply Z.div_mod. lia. }
  assert (0 <= Z.shiftr v 7) as Hpos by (apply Z.shiftr_nonneg; lia).
  destruct (Z.eqb_spec (Z.shiftr v 7) 0) as [E0|E0]; cbn [negb andb].
  - cbn [concat app]. do 2 f_equal. lia.
  - destruct (varint_rest v k) as [Hk7 Hv']; [done|done|lia|].
    rewrite (wrap_id 8) by (unfold is_uint; lia).
    replace (k + 7 <? 32) with true by (symmetry; apply Z.ltb_lt; lia).
    rewrite (IH g _ _ (k + 7)); [|lia..|done|done].
    do 2 f_equal. rewrite Z.pow_add_r by lia. change (2 ^ 7) with 128.
    rewrite Ev at 3. ring.
Qed.

(** The loop of unpack consumes a prefix, and five iterations are enough. *)
Lemma varint_loop_prefix fuel v k s r s' :
  varint_loop fuel v k s = Ok (r, s') -> exists p, s = p ++ s'.
Proof.
  revert v k s. induction fuel as [|fuel IH]; intros v k s; cbn [varint_loop]; [done|].
  intros H. apply bind_ok in H as ([b s1] & Hb & H). apply get_prefix in Hb as ->.
  destruct (_ && _); [|injection H as _ <-; by exists [b]].
  apply IH in H as [p ->]. by exists (b :: p).
Qed.

Lemma varint_loop_total fuel v k s :
  0 <= k <= 35 -> 5 - k / 7 <= Z.of_nat fuel -> (0 < fuel)%nat ->
  varint_loop fuel v k s <> Err undefined_behaviour.
Proof.
  revert v k s. induction fuel as [|fuel IH]; intros v k s Hk Hf Hpos; [lia|]. cbn [varint_loop].
  destruct s as [|b s]; cbn [get mbind result_bind]; [done|].
  rewrite (wrap_id 8) by (unfold is_uint; lia).
  destruct (negb _); cbn [andb]; [|done]. destruct (Z.ltb_spec (k + 7) 32); [|done].
  assert ((k + 7) / 7 = k / 7 + 1) as E by (rewrite <- Z.div_add by lia; f_equal; lia).
  assert (k / 7 <= 3) by (apply Z.lt_succ_r, Z.div_lt_upper_bound; lia).
  apply IH; lia.
Qed.

#[export] Instance unsigned_int_lawful : Lawful unsigned_int_codec (is_uint 32).
Proof.
  split.
  - intros v s Hv. eexists. split; [done|]. cbn [unpack unsigned_int_codec].
    rewrite (varint_loop_bytes 5 10 v 0 0); [|lia|lia|lia|by split|by rewrite Z.sub_0_r].
    cbn [mbind result_bind]. rewrite Z.mul_1_r. by rewrite (wrap_id 32).
  - intros s v s' H. cbn [unpack unsigned_int_codec] in H.
    apply bind_ok in H as ([r s1] & H & [= _ <-]). by eapply varint_loop_prefix.
Qed.

(** *** Signed integers *)

Lemma signed_loop_bytes g v a k s :
  k = 7 * (5 - Z.of_nat g) -> 0 <= k -> is_uint k a -> 0 <= v < 2 ^ (32 - k) ->
  signed_loop (concat (varint_bytes g v) ++ s) a k = Ok (a + v * 2 ^ k, s).
Proof.
  revert v a k. induction g as [|g IH]; intros v a k Ek Hk Ha Hv.
  { rewrite Z.pow_neg_r in Hv by lia. lia. }
  cbn [varint_bytes concat app signed_loop].
  replace (k >=? 32) with false by (symmetry; rewrite Z.geb_leb; apply Z.leb_gt; lia).
  destruct (varint_byte v) as [-> ->]; [lia|].
  destruct (varint_accumulate a v k) as [-> Ha']; [done..|].
  assert (v = 128 * Z.shiftr v 7 + v mod 128) as Ev.
  { rewrite Z.shiftr_div_pow2 by lia. apply Z.div_mod. lia. }
  assert (0 <= Z.shiftr v 7) as Hpos by (apply Z.shiftr_nonneg; lia).
  destruct (Z.eqb_spec (Z.shiftr v 7) 0) as [E0|E0]; cbn [negb].
  - cbn [concat app]. do 2 f_equal. lia.
  - destruct (varint_rest v k) as [Hk7 Hv']; [done|done|lia|].
    rewrite (IH _ _ (k + 7)); [|lia..|done|done].
    do 2 f_equal. rewrite Z.pow_add_r by lia. change (2 ^ 7) with 128.
    rewrite Ev at 3. ring.
Qed.

Lemma signed_loop_prefix s v k r s' : signed_loop s v k = Ok (r, s') -> exists p, s = p ++ s'.
Proof.
  revert v k. induction s as [|b s IH]; intros v k; cbn [signed_loop]; [done|].
  destruct (k >=? 32); [done|]. destruct (negb _).
  - intros [p ->]%IH. by exists (b :: p).
  - intros [= _ <-]. by exists [b].
Qed.

Lemma zigzag_spec v : is_sint 32 v -> zigzag v = if v <? 0 then - 2 * v - 1 else 2 * v.
Proof.
  unfold is_sint, zigzag. intros Hv. rewrite Z.shiftl_mul_pow2 by lia. change (2 ^ 1) with 2.
  assert (exists q, swrap 32 (v * 2) = v * 2 + q * 2 ^ 32) as [q ->].
  { exists (- ((v * 2 + 2 ^ 31) / 2 ^ 32)). unfold swrap. change (32 - 1) with 31.
    rewrite Z.mod_eq by lia. lia. }
  rewrite Z.shiftr_div_pow2 by lia. destruct (Z.ltb_spec v 0).
  - replace (v / 2 ^ 31) with (-1) by (apply (Z.div_unique _ _ _ (v + 2 ^ 31)); lia).
    rewrite Z.lxor_m1_r. unfold wrap. replace (Z.lnot _) with (- 2 * v - 1 + (- q) * 2 ^ 32)
      by (unfold Z.lnot; lia). rewrite Z.mod_add by lia. apply Z.mod_small. lia.
  - rewrite Z.div_small, Z.lxor_0_r by lia. unfold wrap. rewrite Z.mod_add by lia.
    rewrite Z.mod_small; lia.
Qed.

Lemma unzigzag_spec v : is_uint 32 v -> unzigzag v = if Z.even v then v / 2 else - (v / 2) - 1.
Proof.
  unfold is_uint, unzigzag. intros Hv. rewrite Z.shiftr_div_pow2 by lia. change (2 ^ 1) with 2.
  change 1 with (Z.ones 1) at 1. rewrite Z.land_ones by lia. change (2 ^ 1) with 2.
  assert (0 <= v / 2 < 2 ^ 31) as Hd.
  { split; [apply Z.div_pos; lia|apply Z.div_lt_upper_bound; lia]. }
  generalize dependent (v / 2). intros d Hd. rewrite Zmod_even. destruct (Z.even v).
  - change (u64 (u32 (Z.lnot 0) + 1)) with (Z.shiftl 1 32).
    assert (Z.land d (Z.shiftl 1 32) = 0) as H0.
    { apply Z.bits_inj'. intros n Hn. rewrite Z.land_spec, Z.bits_0.
      destruct (decide (n = 32)) as [->|Hne].
      - rewrite <- (Z.mod_small d (2 ^ 32)) by lia. by rewrite Z.mod_pow2_bits_high.
      - change (Z.shiftl 1 32) with (2 ^ 32). rewrite Z.pow2_bits_false by lia. by rewrite andb_false_r. }
    rewrite <- (Z.add_nocarry_lxor _ _ H0). unfold swrap. change (Z.shiftl 1 32) with (1 * 2 ^ 32).
    change (32 - 1) with 31. replace (d + 1 * 2 ^ 32 + 2 ^ 31) with (d + 2 ^ 31 + 1 * 2 ^ 32) by lia.
    rewrite Z.mod_add by lia. rewrite Z.mod_small; lia.
  - change (u64 (u32 (Z.lnot 1) + 1)) with (Z.ones 32).
    assert (Z.lxor d (Z.ones 32) = Z.ones 32 - d) as ->.
    { assert (Z.ldiff d (Z.ones 32) = 0) as Hd0.
      { rewrite Z.ldiff_ones_r, Z.shiftr_div_pow2, Z.div_small by lia. done. }
      rewrite (Z.sub_nocarry_ldiff _ _ Hd0). apply Z.bits_inj'. intros n Hn.
      apply (f_equal (fun z => Z.testbit z n)) in Hd0. rewrite Z.bits_0 in Hd0.
      rewrite Z.ldiff_spec in *. rewrite Z.lxor_spec.
      destruct (Z.testbit d n), (Z.testbit (Z.ones 32) n); done. }
    unfold swrap. change (32 - 1) with 31. change (Z.ones 32) with (1 * 2 ^ 32 - 1).
    replace (1 * 2 ^ 32 - 1 - d + 2 ^ 31) with (2 ^ 31 - 1 - d + 1 * 2 ^ 32) by lia.
    rewrite Z.mod_add by lia. rewrite Z.mod_small; lia.
Qed.

#[export] Instance signed_int_lawful : Lawful signed_int_codec (is_sint 32).
Proof.
  split.
  - intros v s Hv. eexists. split; [done|]. cbn [unpack signed_int_codec].
    pose proof (zigzag_spec v Hv) as Hz. unfold is_sint in Hv.
    rewrite (signed_loop_bytes 5 (zigzag v) 0 0); [|lia|lia|by split|].
    2: { rewrite Z.sub_0_r, Hz. destruct (Z.ltb_spec v 0); lia. }
    cbn [mbind result_bind]. rewrite Z.mul_1_r, Z.add_0_l. do 2 f_equal.
    rewrite unzigzag_spec by (rewrite Hz; unfold is_uint; destruct (Z.ltb_spec v 0); lia).
    rewrite Hz. destruct (Z.ltb_spec v 0).
    + replace (-2 * v - 1) with (1 + 2 * (- v - 1)) by lia. rewrite Z.even_add_mul_2.
      rewrite (Z.mul_comm 2), Z.div_add by lia. change (Z.even 1) with false. change (1 / 2) with 0.
      cbn iota. lia.
    + rewrite Z.even_mul. simpl. rewrite Z.mul_comm, Z.div_mul by lia. done.
  - intros s v s' H. cbn [unpack signed_int_codec] in H.
    apply bind_ok in H as ([r s1] & H & [= _ <-]). by eapply signed_loop_prefix.
Qed.

(** *** Containers *)

(** Two packed values in sequence. *)
Lemma unpack_seq {A} (c : codec A) {fits} `{!Lawful c fits} a s ws' :
  fits a -> exists ws, pack c a = Ok ws /\
    unpack c (concat (ws ++ ws') ++ s) = Ok (a, concat ws' ++ s).
Proof.
  intros Ha. destruct (unpack_pack c a (concat ws' ++ s) Ha) as (ws & Hp & Hu).
  exists ws. split; [done|]. by rewrite concat_app, <- app_assoc.
Qed.

Definition option_fits {A} (fits : A -> Prop) (o : option A) : Prop :=
  match o with Some a => fits a | None => True end.

#[export] Instance optional_lawful {A} (c : codec A) fits :
  Lawful c fits -> Lawful (optional_codec c) (option_fits fits).
Proof.
  intros Hc. split.
  - intros [a|] s Ha; [|by eexists]. destruct (unpack_pack c a s Ha) as (ws & Hp & Hu).
    destruct (unpack_seq bool_codec true s ws I) as (w & Hw & Hun).
    cbn [pack unpack optional_codec]. rewrite Hw, Hp. cbn [mbind result_bind].
    eexists. split; [done|]. rewrite Hun. cbn [mbind result_bind]. by rewrite Hu.
  - intros s o s' H. cbn [unpack optional_codec] in H. apply bind_ok in H as ([b s1] & Hb & H).
    apply (unpack_prefix bool_codec) in Hb as [p ->].
    destruct b; [|injection H as _ <-; eauto]. apply bind_ok in H as ([a s2] & Ha & [= _ <-]).
    apply (unpack_prefix c) in Ha as [p' ->]. exists (p ++ p'). by rewrite app_assoc.
Qed.

Definition bytes_fit (l : list Z) : Prop := Z.of_nat (length l) <= MAX_SIZE_OF_BYTE_ARRAYS.

#[export] Instance bytes_lawful : Lawful bytes_codec bytes_fit.
Proof.
  split.
  - intros l s Hl. cbn [pack bytes_codec unpack]. unfold bytes_fit in Hl.
    assert (is_uint 32 (Z.of_nat (length l))) as Hu by (unfold is_uint, MAX_SIZE_OF_BYTE_ARRAYS in *; lia).
    rewrite (wrap_id 32) by done.
    replace (Z.of_nat (length l) <=? MAX_SIZE_OF_BYTE_ARRAYS) with true by (symmetry; by apply Z.leb_le).
    cbn [ine_assert mbind result_bind].
    destruct (unpack_seq unsigned_int_codec (Z.of_nat (length l)) s
                match l with [] => [] | _ => [l] end Hu) as (w & Hw & Hun).
    rewrite Hw. cbn [mbind result_bind]. eexists. split; [done|]. rewrite Hun. cbn [mbind result_bind].
    replace (Z.of_nat (length l) <=? MAX_SIZE_OF_BYTE_ARRAYS) with true by (symmetry; by apply Z.leb_le).
    cbn [ine_assert mbind result_bind]. destruct l as [|b l]; [done|].
    replace (Z.of_nat (length (b :: l)) =? 0) with false by (symmetry; apply Z.eqb_neq; simpl; lia).
    cbn [concat]. rewrite app_nil_r. apply read_app. lia.
  - intros s l s' H. cbn [unpack bytes_codec] in H. apply bind_ok in H as ([n s1] & Hn & H).
    apply bind_ok in H as (? & _ & H). apply (unpack_prefix unsigned_int_codec) in Hn as [p ->].
    destruct (n =? 0); [injection H as _ <-; eauto|]. apply read_prefix in H as [-> _].
    exists (p ++ l). by rewrite app_assoc.
Qed.

Lemma each_lawful {A} (c : codec A) fits `{!Lawful c fits} l s :
  Forall fits l -> exists ws, pack_each c l = Ok ws /\
    unpack_each c (length l) (concat ws ++ s) = Ok (l, s).
Proof.
  induction 1 as [|a l Ha Hl IH]; [by exists []|]. destruct IH as (ws & Hp & Hu).
  destruct (unpack_seq c a s ws Ha) as (w & Hw & Hun).
  exists (w ++ ws). cbn [pack_each unpack_each length]. rewrite Hw, Hp. split; [done|].
  rewrite Hun. cbn [mbind result_bind]. by rewrite Hu.
Qed.

Lemma each_prefix {A} (c : codec A) fits `{!Lawful c fits} n s l s' :
  unpack_each c n s = Ok (l, s') -> (exists p, s = p ++ s') /\ length l = n.
Proof.
  revert s l. induction n as [|n IH]; intros s l H; cbn [unpack_each] in H.
  { injection H as <- <-. split; [by exists []|done]. }
  apply bind_ok in H as ([a s1] & Ha & H). apply bind_ok in H as ([l' s2] & Hl & [= <- <-]).
  apply (unpack_prefix c) in Ha as [p ->]. apply IH in Hl as [[p' ->] Hlen].
  split; [|by simpl; rewrite Hlen]. exists (p ++ p'). by rewrite app_assoc.
Qed.

Definition vector_fits {A} (fits : A -> Prop) (l : list A) : Prop :=
  Z.of_nat (length l) <= MAX_NUM_ARRAY_ELEMENTS /\ Forall fits l.

#[export] Instance vector_lawful {A} (c : codec A) fits :
  Lawful c fits -> Lawful (vector_codec c) (vector_fits fits).
Proof.
  intros Hc. split.
  - intros l s [Hl Hf]. cbn [pack vector_codec unpack].
    assert (is_uint 32 (Z.of_nat (length l))) as Hu by (unfold is_uint, MAX_NUM_ARRAY_ELEMENTS in *; lia).
    rewrite (wrap_id 32) by done.
    replace (Z.of_nat (length l) <=? MAX_NUM_ARRAY_ELEMENTS) with true by (symmetry; by apply Z.leb_le).
    cbn [ine_assert mbind result_bind].
    destruct (each_lawful c fits l s Hf) as (ws & Hws & Hue).
    destruct (unpack_seq unsigned_int_codec (Z.of_nat (length l)) s ws Hu) as (w & Hw & Hun).
    rewrite Hw, Hws. cbn [mbind result_bind]. eexists. split; [done|]. rewrite Hun.
    cbn [mbind result_bind].
    replace (Z.of_nat (length l) <=? MAX_NUM_ARRAY_ELEMENTS) with true by (symmetry; by apply Z.leb_le).
    cbn [ine_assert mbind result_bind]. by rewrite Nat2Z.id.
  - intros s l s' H. cbn [unpack vector_codec] in H. apply bind_ok in H as ([n s1] & Hn & H).
    apply bind_ok in H as (? & _ & H). apply (unpack_prefix unsigned_int_codec) in Hn as [p ->].
    apply (each_prefix c fits) in H as [[p' ->] _]. exists (p ++ p'). by rewrite app_assoc.
Qed.

Definition pair_fits {A B} (f1 : A -> Prop) (f2 : B -> Prop) (p : A * B) : Prop := f1 p.1 /\ f2 p.2.

#[export] Instance pair_lawful {A B} (c1 : codec A) (c2 : codec B) f1 f2 :
  Lawful c1 f1 -> Lawful c2 f2 -> Lawful (pair_codec c1 c2) (pair_fits f1 f2).
Proof.
  intros H1 H2. split.
  - intros [a b] s [Ha Hb]. cbn [pack pair_codec unpack fst snd].
    destruct (unpack_pack c2 b s Hb) as (w2 & Hp2 & Hu2).
    destruct (unpack_seq c1 a s w2 Ha) as (w1 & Hp1 & Hu1).
    rewrite Hp1, Hp2. eexists. split; [done|]. rewrite Hu1. cbn [mbind result_bind]. by rewrite Hu2.
  - intros s [a b] s' H. cbn [unpack pair_codec] in H. apply bind_ok in H as ([x s1] & Hx & H).
    apply bind_ok in H as ([y s2] & Hy & [= _ _ <-]).
    apply (unpack_prefix c1) in Hx as [p ->]. apply (unpack_prefix c2) in Hy as [p' ->].
    exists (p ++ p'). by rewrite app_assoc.
Qed.

(** A structure fits if the tuple of its members does. *)
Lemma struct_lawful {A B} (members : A -> B) (make : B -> A) (c : codec B) fits :
  (forall a, make (members a) = a) -> Lawful c fits ->
  Lawful (struct_codec members make c) (fun a => fits (members a)).
Proof.
  intros Hmake Hc. split.
  - intros a s Ha. destruct (unpack_pack c (members a) s Ha) as (ws & Hp & Hu).
    exists ws. split; [done|]. cbn [unpack struct_codec]. rewrite Hu. cbn [mbind result_bind].
    by rewrite Hmake.
  - intros s a s' H. cbn [unpack struct_codec] in H. apply bind_ok in H as ([b s1] & Hb & [= _ <-]).
    by eapply (unpack_prefix c).
Qed.

Lemma static_variant_lawful {A} count (which : A -> Z) packer unpacker (fits : A -> Prop) :
  count <= 2 ^ 32 -> (forall a, 0 <= which a < count) ->
  (forall a s, fits a -> exists ws, packer a = Ok ws /\ unpacker (which a) (concat ws ++ s) = Ok (a, s)) ->
  (forall w s a s', unpacker w s = Ok (a, s') -> exists p, s = p ++ s') ->
  Lawful (static_variant_codec count which packer unpacker) fits.
Proof.
  intros Hcount Hw Hrt Hpre. split.
  - intros a s Ha. destruct (Hrt a s Ha) as (ws & Hp & Hu). specialize (Hw a).
    assert (is_uint 32 (which a)) as Hwa by (unfold is_uint; lia).
    destruct (unpack_seq unsigned_int_codec (which a) s ws Hwa) as (w & Hpw & Huw).
    cbn [pack static_variant_codec unpack]. rewrite Hpw, Hp. eexists. split; [done|].
    rewrite Huw. cbn [mbind result_bind].
    replace (which a <? count) with true by (symmetry; apply Z.ltb_lt; lia). done.
  - intros s a s' H. cbn [unpack static_variant_codec] in H. apply bind_ok in H as ([w s1] & Hu & H).
    apply bind_ok in H as (? & _ & H). apply (unpack_prefix unsigned_int_codec) in Hu as [p ->].
    apply Hpre in H as [p' ->]. exists (p ++ p'). by rewrite app_assoc.
Qed.

(** Inserting the elements of a sorted list in their order rebuilds it. *)
Lemma set_insert_last {A} (lt : A -> A -> bool) x l :
  (forall x y, lt x y = true -> lt y x = false) ->
  Forall (fun y => lt y x = true) l -> set_insert lt x l = l ++ [x].
Proof.
  intros Hasym. induction 1 as [|y l Hy Hl IH]; [done|]. cbn [set_insert]. rewrite (Hasym _ _ Hy), Hy.
  by rewrite IH.
Qed.

Lemma set_insert_all {A} (lt : A -> A -> bool) l acc :
  (forall x y, lt x y = true -> lt y x = false) ->
  StronglySorted (fun x y => lt x y = true) (acc ++ l) ->
  foldl (fun acc x => set_insert lt x acc) acc l = acc ++ l.
Proof.
  intros Hasym. revert acc.
  induction l as [|x l IH]; intros acc Hs; cbn [foldl]; [by rewrite app_nil_r|].
  rewrite set_insert_last; [|done|].
  - replace (acc ++ x :: l) with ((acc ++ [x]) ++ l) in * by by rewrite <- app_assoc. by apply IH.
  - clear IH. induction acc as [|y acc IH]; [constructor|]. simpl in Hs.
    apply StronglySorted_inv in Hs as [Hs Hy]. constructor; [|by apply IH].
    apply Forall_app in Hy as [_ Hy]. by inversion Hy.
Qed.

Definition set_fits {A} (lt : A -> A -> bool) (fits : A -> Prop) (l : list A) : Prop :=
  vector_fits fits l /\ StronglySorted (fun x y => lt x y = true) l.

Lemma set_lawful_asym {A} (lt : A -> A -> bool) (c : codec A) fits :
  (forall x y, lt x y = true -> lt y x = false) -> Lawful c fits ->
  Lawful (set_codec lt c) (set_fits lt fits).
Proof.
  intros Hlt Hc. split.
  - intros l s [Hl Hs]. destruct (unpack_pack (vector_codec c) l s Hl) as (ws & Hp & Hu).
    exists ws. split; [done|]. cbn [unpack set_codec]. rewrite Hu. cbn [mbind result_bind].
    by rewrite (set_insert_all lt l []).
  - intros s l s' H. cbn [unpack set_codec] in H. apply bind_ok in H as ([k s1] & Hk & [= _ <-]).
    by eapply (unpack_prefix (vector_codec c)).
Qed.

#[export] Instance set_lawful {A} (lt : A -> A -> bool) (c : codec A) fits :
  StrictTotal lt -> Lawful c fits -> Lawful (set_codec lt c) (set_fits lt fits).
Proof. intros Hlt. apply set_lawful_asym. intros x y. apply (lt_asym lt). Qed.

#[export] Instance map_lawful {K V} (lt : K -> K -> bool) (c1 : codec K) (c2 : codec V) f1 f2 :
  StrictTotal lt -> Lawful c1 f1 -> Lawful c2 f2 ->
  Lawful (map_codec lt c1 c2) (set_fits (fun x y => lt x.1 y.1) (pair_fits f1 f2)).
Proof. intros Hlt H1 H2. apply set_lawful_asym; [|apply _]. intros x y. apply (lt_asym lt). Qed.

#[export] Instance uint256_lawful : Lawful uint256_codec (is_uint 256).
Proof.
  split.
  - intros n s Hn. cbn [pack uint256_codec unpack].
    assert (is_uint 128 (u128 n)) as H0 by (apply wrap_range; lia).
    assert (is_uint 128 (Z.shiftr n 128)) as H1.
    { unfold is_uint in *. rewrite Z.shiftr_div_pow2 by lia.
      split; [apply Z.div_pos; lia|apply Z.div_lt_upper_bound; lia]. }
    rewrite (wrap_id 128 (Z.shiftr n 128)) by done.
    destruct (unpack_pack (uint_codec 16) (Z.shiftr n 128) s H1) as (w1 & Hp1 & Hu1).
    destruct (unpack_seq (uint_codec 16) (u128 n) s w1 H0) as (w0 & Hp0 & Hu0).
    rewrite Hp0, Hp1. eexists. split; [done|]. rewrite Hu0. cbn [mbind result_bind]. rewrite Hu1.
    cbn [mbind result_bind]. do 2 f_equal.
    rewrite (wrap_id 256), Z.lor_comm, lor_shiftl_add; [|lia|done|].
    + rewrite Z.shiftr_div_pow2 by lia. unfold wrap. rewrite (Z.div_mod n (2 ^ 128)) at 3 by lia. ring.
    + unfold is_uint in *. rewrite Z.shiftl_mul_pow2 by lia. change (2 ^ 256) with (2 ^ 128 * 2 ^ 128). nia.
  - intros s n s' H. cbn [unpack uint256_codec] in H. apply bind_ok in H as ([a s1] & Ha & H).
    apply bind_ok in H as ([b s2] & Hb & [= _ <-]).
    apply (unpack_prefix (uint_codec 16)) in Ha as [p ->].
    apply (unpack_prefix (uint_codec 16)) in Hb as [p' ->]. exists (p ++ p'). by rewrite app_assoc.
Qed.

(** ** Packing into a vector *)

Lemma write_all_spec size ws written :
  size - Z.of_nat (length written) >= Z.of_nat (length (concat ws)) ->
  write_all size ws written = Ok (written ++ concat ws).
Proof.
  revert written. induction ws as [|w ws IH]; intros written H; cbn [write_all concat] in *.
  { by rewrite app_nil_r. }
  rewrite length_app in H. unfold ds_write.
  assert (swrap 32 (Z.of_nat (length w)) <= Z.of_nat (length w)) as Hs.
  { unfold swrap. change (32 - 1) with 31.
    pose proof (Z.mod_le (Z.of_nat (length w) + 2 ^ 31) (2 ^ 32) ltac:(lia) ltac:(lia)). lia. }
  replace (size - Z.of_nat (length written) >=? swrap 32 (Z.of_nat (length w))) with true
    by (symmetry; rewrite Z.geb_leb; apply Z.leb_le; lia).
  cbn [mbind result_bind]. rewrite IH by (rewrite length_app; lia). by rewrite <- app_assoc.
Qed.

Lemma ds_count_all ws n :
  0 <= n -> n + Z.of_nat (length (concat ws)) < 2 ^ 64 ->
  foldl (fun n d => ds_count d n) n ws = n + Z.of_nat (length (concat ws)).
Proof.
  revert n. induction ws as [|w ws IH]; intros n H0 H; cbn [foldl concat] in *; [simpl; lia|].
  rewrite length_app in *. unfold ds_count at 2. rewrite (wrap_id 64) by (unfold is_uint; lia).
  rewrite IH; lia.
Qed.

(** The vector holds what was written, and the second pass never overruns. *)
Lemma pack_vector_bytes {A} (c : codec A) a ws :
  pack c a = Ok ws -> Z.of_nat (length (concat ws)) < 2 ^ 64 -> pack_vector c a = Ok (concat ws).
Proof.
  intros Hp Hlen. unfold pack_vector. rewrite Hp. cbn [mbind result_bind].
  rewrite ds_count_all by lia. rewrite Z.add_0_l. destruct (Z.eqb_spec (Z.of_nat (length (concat ws))) 0) as [E|E].
  - f_equal. destruct (concat ws); [done|]. simpl in E. lia.
  - rewrite write_all_spec by (simpl; lia). done.
Qed.

(** A structure of which only the values that satisfy [P] are rebuilt. *)
Lemma struct_lawful_on {A B} (P : A -> Prop) (members : A -> B) (make : B -> A) (c : codec B) fits :
  (forall a, P a -> make (members a) = a) -> Lawful c fits ->
  Lawful (struct_codec members make c) (fun a => P a /\ fits (members a)).
Proof.
  intros Hmake Hc. split.
  - intros a s [Hp Ha]. destruct (unpack_pack c (members a) s Ha) as (ws & Hpk & Hu).
    exists ws. split; [done|]. cbn [unpack struct_codec]. rewrite Hu. cbn [mbind result_bind].
    by rewrite Hmake.
  - intros s a s' H. cbn [unpack struct_codec] in H. apply bind_ok in H as ([b s1] & Hb & [= _ <-]).
    by eapply (unpack_prefix c).
Qed.

Lemma lawful_weaken {A} (c : codec A) (fits fits' : A -> Prop) :
  Lawful c fits -> (forall a, fits' a -> fits a) -> Lawful c fits'.
Proof.
  intros Hc Hf. split; [|apply (unpack_prefix c)]. intros a s Ha. by apply (unpack_pack c), Hf.
Qed.

(** ** What unpacking reports *)

(** Whatever the bytes are, unpacking returns, runs out of bytes or fails an
    assertion. *)
Definition unpack_error (e : exn) : Prop := e = fc_out_of_range_exception \/ e = fc_assert_exception.

Class Reporting {A} (c : codec A) : Prop :=
  unpack_reports s e : unpack c s = Err e -> unpack_error e.
Arguments unpack_reports {A} c {Reporting} s e.

Lemma read_reports n s e : read n s = Err e -> unpack_error e.
Proof. unfold read. case_bool_decide; [done|]. intros [= <-]. by left. Qed.

Lemma assert_reports b e : ine_assert b fc_assert_exception = Err e -> unpack_error e.
Proof. intros ->%ine_assert_err. by right. Qed.

#[export] Instance uint_reporting k : Reporting (uint_codec k).
Proof. intros s e [H|([] & _ & H)]%bind_err; [by eapply read_reports|done]. Qed.

#[export] Instance array_reporting n : Reporting (array_codec n).
Proof. intros s e. apply read_reports. Qed.

Lemma varint_loop_reports fuel v k s e :
  varint_loop fuel v k s = Err e -> e <> undefined_behaviour -> unpack_error e.
Proof.
  revert v k s. induction fuel as [|fuel IH]; intros v k s; cbn [varint_loop]; [by intros [= <-]|].
  destruct s as [|b s]; cbn [get mbind result_bind]; [intros [= <-] _; by left|].
  destruct (_ && _); [apply IH|done].
Qed.

#[export] Instance unsigned_int_reporting : Reporting unsigned_int_codec.
Proof.
  intros s e [H|([] & _ & H)]%bind_err; [|done]. apply varint_loop_reports in H as ?; [done|].
  intros ->. revert H. apply varint_loop_total; [lia|by vm_compute|lia].
Qed.

#[export] Instance bytes_reporting : Reporting bytes_codec.
Proof.
  intros s e [H|([n s'] & _ & H)]%bind_err; [by apply (unpack_reports unsigned_int_codec) in H|].
  apply bind_err in H as [H|([] & _ & H)]; [by apply assert_reports in H|].
  destruct (n =? 0); [done|]. by eapply read_reports.
Qed.

#[export] Instance vector_reporting {A} (c : codec A) : Reporting c -> Reporting (vector_codec c).
Proof.
  intros Hc s e [H|([n s'] & _ & H)]%bind_err; [by apply (unpack_reports unsigned_int_codec) in H|].
  apply bind_err in H as [H|([] & _ & H)]; [by apply assert_reports in H|].
  revert s' H. induction (Z.to_nat n) as [|k IH]; intros s'; cbn [unpack_each]; [done|].
  intros [H|([a s1] & _ & H)]%bind_err; [by apply (unpack_reports c) in H|].
  apply bind_err in H as [H|([] & _ & H)]; [by eapply IH|done].
Qed.

#[export] Instance pair_reporting {A B} (c1 : codec A) (c2 : codec B) :
  Reporting c1 -> Reporting c2 -> Reporting (pair_codec c1 c2).
Proof.
  intros H1 H2 s e [H|([a s'] & _ & H)]%bind_err; [by apply (unpack_reports c1) in H|].
  apply bind_err in H as [H|([] & _ & H)]; [by apply (unpack_reports c2) in H|done].
Qed.

#[export] Instance struct_reporting {A B} (members : A -> B) (make : B -> A) (c : codec B) :
  Reporting c -> Reporting (struct_codec members make c).
Proof. intros Hc s e [H|([] & _ & H)]%bind_err; [by apply (unpack_reports c) in H|done]. Qed.

Lemma static_variant_reporting {A} count (which : A -> Z) packer unpacker :
  (forall w s e, unpacker w s = Err e -> unpack_error e) ->
  Reporting (static_variant_codec count which packer unpacker).
Proof.
  intros Hu s e [H|([w s'] & _ & H)]%bind_err; [by apply (unpack_reports unsigned_int_codec) in H|].
  apply bind_err in H as [H|([] & _ & H)]; [by apply assert_reports in H|by eapply Hu].
Qed.

Lemma unpack_vector_reports {A} (c : codec A) `{!Reporting c} s e : unpack_vector c s = Err e -> unpack_error e.
Proof. intros [H|([] & _ & H)]%bind_err; [by apply (unpack_reports c) in H|done]. Qed.

(** ** Properties *)

(** Variable-length integers are read back, whatever follows them: every
    uint32_t from the packing of unsigned_int and every int32_t from the one
    of signed_int; and unpacking an unsigned_int from any stream returns or
    runs out of bytes within its five iterations. *)
Theorem varint_roundtrip v w s :
  is_uint 32 v -> is_sint 32 w ->
  (exists ws, pack unsigned_int_codec v = Ok ws /\ unpack unsigned_int_codec (concat ws ++ s) = Ok (v, s)) /\
  (exists ws, pack signed_int_codec w = Ok ws /\ unpack signed_int_codec (concat ws ++ s) = Ok (w, s)) /\
  unpack unsigned_int_codec s <> Err undefined_behaviour.
Proof.
  intros Hv Hw. split; [by apply (unpack_pack unsigned_int_codec)|].
  split; [by apply (unpack_pack signed_int_codec)|]. cbn [unpack unsigned_int_codec].
  pose proof (varint_loop_total 5 0 0 s ltac:(lia) ltac:(by vm_compute) ltac:(lia)) as H.
  by destruct (varint_loop 5 0 0 s) as [[]|].
Qed.

Lemma varint_roundtrip_witness :
  (exists ws, pack unsigned_int_codec 624485 = Ok ws /\
     unpack unsigned_int_codec (concat ws ++ [1; 2]) = Ok (624485, [1; 2])) /\
  (exists ws, pack signed_int_codec (-77) = Ok ws /\
     unpack signed_int_codec (concat ws ++ [1; 2]) = Ok (-77, [1; 2])) /\
  unpack unsigned_int_codec [1; 2] <> Err undefined_behaviour.
Proof. apply varint_roundtrip; split; vm_compute; congruence. Defined.

(** A signed_int of more than five bytes shifts a 32-bit number by 35. *)
Example signed_int_overlong :
  unpack signed_int_codec [128; 128; 128; 128; 128; 0] = Err undefined_behaviour.
Proof. done. Qed.

(** Different bytes can be unpacked to one number. *)
Example unsigned_int_not_canonical :
  unpack unsigned_int_codec [128; 0] = Ok (0, []) /\ unpack unsigned_int_codec [0] = Ok (0, []).
Proof. done. Qed.

(** ** Ordered sets *)

Section ordered_set.
Context {A} (lt : A -> A -> bool) `{!StrictTotal lt}.

Lemma elem_of_set_insert x y l : y ∈ set_insert lt x l <-> y = x \/ y ∈ l.
Proof.
  induction l as [|z l IH]; cbn [set_insert]; [set_solver|].
  destruct (lt x z) eqn:Hxz; [set_solver|]. destruct (lt z x) eqn:Hzx; [set_solver|].
  destruct (lt_total x z) as [?|[->|?]]; [congruence|set_solver|congruence].
Qed.

Lemma set_insert_sorted x l :
  StronglySorted (fun a b => lt a b = true) l ->
  StronglySorted (fun a b => lt a b = true) (set_insert lt x l).
Proof.
  induction 1 as [|z l Hl IH Hz]; cbn [set_insert]; [constructor; constructor|].
  destruct (lt x z) eqn:Hxz.
  { constructor; [by constructor|]. constructor; [done|].
    eapply list.Forall_impl; [exact Hz|]. intros y Hy. by apply (lt_trans x z y). }
  destruct (lt z x) eqn:Hzx; [|by constructor]. constructor; [done|].
  apply list.Forall_forall. intros y [->|Hy]%elem_of_set_insert; [done|].
  by apply (proj1 (list.Forall_forall _ l) Hz).
Qed.

Lemma ordered_set_NoDup l : StronglySorted (fun a b => lt a b = true) l -> NoDup l.
Proof.
  induction 1 as [|z l Hl IH Hz]; [apply NoDup_nil_2|]. apply list.NoDup_cons. split; [|done].
  intros Hin. apply (proj1 (list.Forall_forall _ l) Hz) in Hin. by rewrite lt_irrefl in Hin.
Qed.

End ordered_set.
