(* ===== verification/Codecs.v ===== *)
(** * The serialized structures

    The packing of keys, signatures, digests, authorities and producer
    schedules, from the FC_REFLECT declarations and the stream operators of
    fc/crypto/sha256.hpp, public_key.hpp, signature.hpp,
    elliptic_webauthn.hpp, authority.hpp, action.hpp and
    producer_schedule.hpp.  Each structure has its [Lawful] instance. *)

From S2P Require Import Prelude Exceptions Merkle Authority ProducerSchedule Raw.

(** ** Digests *)

(** [operator<<] and [operator>>] of sha256: the 32 bytes of its words. *)
Definition sha256_bytes (d : sha256) : list Z :=
  le_bytes 8 (h0 d) ++ le_bytes 8 (h1 d) ++ le_bytes 8 (h2 d) ++ le_bytes 8 (h3 d).
Definition sha256_of_bytes (l : list Z) : sha256 :=
  mk_sha256 (le_number (take 8 l)) (le_number (take 8 (drop 8 l)))
            (le_number (take 8 (drop 16 l))) (le_number (drop 24 l)).

Definition sha256_codec : codec sha256 :=
  struct_codec sha256_bytes sha256_of_bytes (array_codec 32).

(** ** Keys and signatures *)

(** The alternatives of the storage of a public key.  A webauthn key is
    checked by post_init after it is read. *)
Definition webauthn_key_codec : codec (list Z * (Z * list Z)) :=
  let c := pair_codec (array_codec 33) (pair_codec (uint_codec 1) bytes_codec) in
  mk_codec (pack c)
    (fun s => '(k, s') ← unpack c s;
              ine_assert (negb (bool_decide (k.2.2 = []))) fc_assert_exception ;; Ok (k, s')).

Definition public_key_codec : codec public_key :=
  static_variant_codec 3 which
    (fun k => match k with
              | K1 d => pack (array_codec 33) d
              | R1 d => pack (array_codec 33) d
              | WA d u r => pack webauthn_key_codec (d, (u, r))
              end)
    (fun w s => if w =? 0 then '(d, s') ← unpack (array_codec 33) s; Ok (K1 d, s')
                else if w =? 1 then '(d, s') ← unpack (array_codec 33) s; Ok (R1 d, s')
                else '(k, s') ← unpack webauthn_key_codec s; Ok (WA k.1 k.2.1 k.2.2, s')).

Inductive signature :=
  | SIG_K1 (data : list Z)
  | SIG_R1 (data : list Z)
  | SIG_WA (compact_signature auth_data client_json : list Z).

#[export] Instance signature_eq_dec : EqDecision signature.
Proof. solve_decision. Defined.

Definition signature_which (s : signature) : Z :=
  match s with SIG_K1 _ => 0 | SIG_R1 _ => 1 | SIG_WA _ _ _ => 2 end.

Definition webauthn_signature_codec : codec (list Z * (list Z * list Z)) :=
  pair_codec (array_codec 65) (pair_codec (vector_codec (uint_codec 1)) bytes_codec).

Definition signature_codec : codec signature :=
  static_variant_codec 3 signature_which
    (fun k => match k with
              | SIG_K1 d => pack (array_codec 65) d
              | SIG_R1 d => pack (array_codec 65) d
              | SIG_WA d a j => pack webauthn_signature_codec (d, (a, j))
              end)
    (fun w s => if w =? 0 then '(d, s') ← unpack (array_codec 65) s; Ok (SIG_K1 d, s')
                else if w =? 1 then '(d, s') ← unpack (array_codec 65) s; Ok (SIG_R1 d, s')
                else '(k, s') ← unpack webauthn_signature_codec s; Ok (SIG_WA k.1 k.2.1 k.2.2, s')).

(** ** Authorities *)

Definition name_codec : codec Z := uint_codec 8.

Definition permission_level_codec : codec permission_level :=
  struct_codec (fun p => (actor p, permission p)) (fun '(a, p) => mk_permission_level a p)
    (pair_codec name_codec name_codec).

Definition permission_level_weight_codec : codec permission_level_weight :=
  struct_codec (fun p => (plw_permission p, plw_weight p)) (fun '(p, w) => mk_permission_level_weight p w)
    (pair_codec permission_level_codec (uint_codec 2)).

Definition key_weight_codec : codec key_weight :=
  struct_codec (fun k => (kw_key k, kw_weight k)) (fun '(k, w) => mk_key_weight k w)
    (pair_codec public_key_codec (uint_codec 2)).

Definition wait_weight_codec : codec wait_weight :=
  struct_codec (fun k => (ww_wait_sec k, ww_weight k)) (fun '(k, w) => mk_wait_weight k w)
    (pair_codec (uint_codec 4) (uint_codec 2)).

Definition authority_codec : codec authority :=
  struct_codec (fun a => (threshold a, (keys a, (accounts a, waits a))))
    (fun '(t, (k, (a, w))) => mk_authority t k a w)
    (pair_codec (uint_codec 4) (pair_codec (vector_codec key_weight_codec)
      (pair_codec (vector_codec permission_level_weight_codec) (vector_codec wait_weight_codec)))).

(** ** Producer schedules *)

Definition producer_key_codec : codec producer_key :=
  struct_codec (fun p => (pk_producer_name p, block_signing_key p)) (fun '(n, k) => mk_producer_key n k)
    (pair_codec name_codec public_key_codec).

Definition producer_schedule_type_codec : codec producer_schedule_type :=
  struct_codec (fun s => (pst_version s, pst_producers s)) (fun '(v, p) => mk_producer_schedule_type v p)
    (pair_codec (uint_codec 4) (vector_codec producer_key_codec)).

Definition block_signing_authority_v0_codec : codec block_signing_authority :=
  struct_codec (fun a => (bsa_threshold a, bsa_keys a)) (fun '(t, k) => mk_block_signing_authority t k)
    (pair_codec (uint_codec 4) (vector_codec key_weight_codec)).

(** The static_variant with the one alternative. *)
Definition block_signing_authority_codec : codec block_signing_authority :=
  static_variant_codec 1 (fun _ => 0) (pack block_signing_authority_v0_codec)
    (fun _ s => unpack block_signing_authority_v0_codec s).

Definition producer_authority_codec : codec producer_authority :=
  struct_codec (fun p => (producer_name p, pa_authority p)) (fun '(n, a) => mk_producer_authority n a)
    (pair_codec name_codec block_signing_authority_codec).

Definition producer_authority_schedule_codec : codec producer_authority_schedule :=
  struct_codec (fun s => (version s, producers s)) (fun '(v, p) => mk_producer_authority_schedule v p)
    (pair_codec (uint_codec 4) (vector_codec producer_authority_codec)).

(** ** The structures are read back *)

(** The law of a structure from the laws of its members, found by instance
    search. *)
Ltac solve_struct :=
  eapply lawful_weaken; [apply struct_lawful; [by intros []|apply _]|by intros [] ?].

(** The values a structure can hold. *)
Definition sha256_fits (d : sha256) : Prop :=
  is_uint 64 (h0 d) /\ is_uint 64 (h1 d) /\ is_uint 64 (h2 d) /\ is_uint 64 (h3 d).

Lemma length_sha256_bytes d : length (sha256_bytes d) = 32%nat.
Proof. done. Qed.

Lemma sha256_of_bytes_bytes d : sha256_fits d -> sha256_of_bytes (sha256_bytes d) = d.
Proof.
  intros (H0 & H1 & H2 & H3). unfold sha256_of_bytes.
  assert (forall z, is_uint 64 z -> le_number (le_bytes 8 z) = z) as Hle.
  { intros z Hz. rewrite le_number_bytes. by apply Z.mod_small. }
  change (take 8 (sha256_bytes d)) with (le_bytes 8 (h0 d)).
  change (take 8 (drop 8 (sha256_bytes d))) with (le_bytes 8 (h1 d)).
  change (take 8 (drop 16 (sha256_bytes d))) with (le_bytes 8 (h2 d)).
  change (drop 24 (sha256_bytes d)) with (le_bytes 8 (h3 d)).
  rewrite !Hle by done. by destruct d.
Qed.

#[export] Instance sha256_lawful : Lawful sha256_codec sha256_fits.
Proof.
  eapply lawful_weaken; [apply (struct_lawful_on sha256_fits); [|apply _]|].
  - apply sha256_of_bytes_bytes.
  - intros d Hd. split; [done|apply length_sha256_bytes].
Qed.

Definition webauthn_key_fits (k : list Z * (Z * list Z)) : Prop :=
  length k.1 = 33%nat /\ is_uint 8 k.2.1 /\ bytes_fit k.2.2 /\ k.2.2 <> [].

#[export] Instance webauthn_key_lawful : Lawful webauthn_key_codec webauthn_key_fits.
Proof.
  split.
  - intros [d [u r]] s (Hd & Hu & Hr & Hne). unfold webauthn_key_codec.
    destruct (unpack_pack (pair_codec (array_codec 33) (pair_codec (uint_codec 1) bytes_codec))
                (d, (u, r)) s) as (ws & Hp & Hun); [done|].
    exists ws. split; [done|]. cbn [unpack]. rewrite Hun. cbn [mbind result_bind].
    rewrite bool_decide_false by done. done.
  - intros s k s' H. unfold webauthn_key_codec in H. cbn [unpack] in H.
    apply bind_ok in H as ([k1 s1] & Hk & H). apply bind_ok in H as (? & _ & [= _ <-]).
    by eapply (unpack_prefix (pair_codec (array_codec 33) (pair_codec (uint_codec 1) bytes_codec))).
Qed.

Definition public_key_fits (k : public_key) : Prop :=
  match k with
  | K1 d | R1 d => length d = 33%nat
  | WA d u r => webauthn_key_fits (d, (u, r))
  end.

(** One alternative of a variant. *)
Lemma alternative_roundtrip {A B} (c : codec A) fits `{!Lawful c fits} (f : A -> B) a s :
  fits a -> exists ws, pack c a = Ok ws /\
    ('(x, s') ← unpack c (concat ws ++ s); Ok (f x, s')) = Ok (f a, s).
Proof.
  intros Ha. destruct (unpack_pack c a s Ha) as (ws & Hp & Hu). exists ws. split; [done|].
  by rewrite Hu.
Qed.

Lemma alternative_prefix {A B} (c : codec A) fits `{!Lawful c fits} (f : A -> B) s b s' :
  ('(x, s') ← unpack c s; Ok (f x, s')) = Ok (b, s') -> exists p, s = p ++ s'.
Proof.
  intros H. apply bind_ok in H as ([x s1] & Hx & [= _ <-]). by eapply (unpack_prefix c).
Qed.

#[export] Instance public_key_lawful : Lawful public_key_codec public_key_fits.
Proof.
  apply static_variant_lawful; [lia|by intros []| |].
  - intros [d|d|d u r] s Hk.
    + by apply (alternative_roundtrip (array_codec 33) _ K1).
    + by apply (alternative_roundtrip (array_codec 33) _ R1).
    + by apply (alternative_roundtrip webauthn_key_codec _ (fun k => WA k.1 k.2.1 k.2.2) (d, (u, r))).
  - intros w s k s' H. destruct (w =? 0); [|destruct (w =? 1)].
    + by apply (alternative_prefix (array_codec 33) _ K1 _ k).
    + by apply (alternative_prefix (array_codec 33) _ R1 _ k).
    + by apply (alternative_prefix webauthn_key_codec _
                  (fun k => WA k.1 k.2.1 k.2.2) _ k).
Qed.

Definition signature_fits (k : signature) : Prop :=
  match k with
  | SIG_K1 d | SIG_R1 d => length d = 65%nat
  | SIG_WA d a j => length d = 65%nat /\ vector_fits (is_uint 8) a /\ bytes_fit j
  end.

#[export] Instance signature_lawful : Lawful signature_codec signature_fits.
Proof.
  apply static_variant_lawful; [lia|by intros []| |].
  - intros [d|d|d a j] s Hk.
    + by apply (alternative_roundtrip (array_codec 65) _ SIG_K1).
    + by apply (alternative_roundtrip (array_codec 65) _ SIG_R1).
    + by apply (alternative_roundtrip webauthn_signature_codec _
                  (fun k => SIG_WA k.1 k.2.1 k.2.2) (d, (a, j))).
  - intros w s k s' H. destruct (w =? 0); [|destruct (w =? 1)].
    + by apply (alternative_prefix (array_codec 65) _ SIG_K1 _ k).
    + by apply (alternative_prefix (array_codec 65) _ SIG_R1 _ k).
    + by apply (alternative_prefix webauthn_signature_codec _
                  (fun k => SIG_WA k.1 k.2.1 k.2.2) _ k).
Qed.

#[export] Instance name_lawful : Lawful name_codec (is_uint 64).
Proof. apply (uint_lawful 8). Qed.

Definition permission_level_fits (p : permission_level) : Prop :=
  is_uint 64 (actor p) /\ is_uint 64 (permission p).

#[export] Instance permission_level_lawful : Lawful permission_level_codec permission_level_fits.
Proof. solve_struct. Qed.

Definition permission_level_weight_fits (p : permission_level_weight) : Prop :=
  permission_level_fits (plw_permission p) /\ is_uint 16 (plw_weight p).

#[export] Instance permission_level_weight_lawful :
  Lawful permission_level_weight_codec permission_level_weight_fits.
Proof. solve_struct. Qed.

Definition key_weight_fits (k : key_weight) : Prop :=
  public_key_fits (kw_key k) /\ is_uint 16 (kw_weight k).

#[export] Instance key_weight_lawful : Lawful key_weight_codec key_weight_fits.
Proof. solve_struct. Qed.

Definition wait_weight_fits (k : wait_weight) : Prop :=
  is_uint 32 (ww_wait_sec k) /\ is_uint 16 (ww_weight k).

#[export] Instance wait_weight_lawful : Lawful wait_weight_codec wait_weight_fits.
Proof. solve_struct. Qed.

Definition authority_fits (a : authority) : Prop :=
  is_uint 32 (threshold a) /\ vector_fits key_weight_fits (keys a) /\
  vector_fits permission_level_weight_fits (accounts a) /\ vector_fits wait_weight_fits (waits a).

#[export] Instance authority_lawful : Lawful authority_codec authority_fits.
Proof. solve_struct. Qed.

Definition producer_key_fits (p : producer_key) : Prop :=
  is_uint 64 (pk_producer_name p) /\ public_key_fits (block_signing_key p).

#[export] Instance producer_key_lawful : Lawful producer_key_codec producer_key_fits.
Proof. solve_struct. Qed.

Definition producer_schedule_type_fits (s : producer_schedule_type) : Prop :=
  is_uint 32 (pst_version s) /\ vector_fits producer_key_fits (pst_producers s).

#[export] Instance producer_schedule_type_lawful :
  Lawful producer_schedule_type_codec producer_schedule_type_fits.
Proof. solve_struct. Qed.

Definition block_signing_authority_fits (a : block_signing_authority) : Prop :=
  is_uint 32 (bsa_threshold a) /\ vector_fits key_weight_fits (bsa_keys a).

#[export] Instance block_signing_authority_v0_lawful :
  Lawful block_signing_authority_v0_codec block_signing_authority_fits.
Proof. solve_struct. Qed.

#[export] Instance block_signing_authority_lawful :
  Lawful block_signing_authority_codec block_signing_authority_fits.
Proof.
  apply static_variant_lawful; [lia|done| |].
  - intros a s Ha. by apply (unpack_pack block_signing_authority_v0_codec).
  - intros w s a s'. apply (unpack_prefix block_signing_authority_v0_codec).
Qed.

Definition producer_authority_fits (p : producer_authority) : Prop :=
  is_uint 64 (producer_name p) /\ block_signing_authority_fits (pa_authority p).

#[export] Instance producer_authority_lawful : Lawful producer_authority_codec producer_authority_fits.
Proof. solve_struct. Qed.

Definition producer_authority_schedule_fits (s : producer_authority_schedule) : Prop :=
  is_uint 32 (version s) /\ vector_fits producer_authority_fits (producers s).

#[export] Instance producer_authority_schedule_lawful :
  Lawful producer_authority_schedule_codec producer_authority_schedule_fits.
Proof. solve_struct. Qed.

(** ** What unpacking them reports *)

#[export] Instance sha256_reporting : Reporting sha256_codec.
Proof. apply _. Qed.

#[export] Instance webauthn_key_reporting : Reporting webauthn_key_codec.
Proof.
  intros s e [H|([] & _ & H)]%bind_err; [by eapply unpack_reports in H; [|apply _]|].
  apply bind_err in H as [H|([] & _ & H)]; [by apply assert_reports in H|done].
Qed.

#[export] Instance public_key_reporting : Reporting public_key_codec.
Proof.
  apply static_variant_reporting. intros w s e. destruct (w =? 0); [|destruct (w =? 1)].
  - intros [H|([] & _ & H)]%bind_err; [by apply (unpack_reports (array_codec 33)) in H|done].
  - intros [H|([] & _ & H)]%bind_err; [by apply (unpack_reports (array_codec 33)) in H|done].
  - intros [H|([] & _ & H)]%bind_err; [by apply (unpack_reports webauthn_key_codec) in H|done].
Qed.

#[export] Instance name_reporting : Reporting name_codec.
Proof. apply _. Qed.

#[export] Instance permission_level_reporting : Reporting permission_level_codec.
Proof. apply _. Qed.

#[export] Instance permission_level_weight_reporting : Reporting permission_level_weight_codec.
Proof. apply _. Qed.

#[export] Instance key_weight_reporting : Reporting key_weight_codec.
Proof. apply _. Qed.

#[export] Instance wait_weight_reporting : Reporting wait_weight_codec.
Proof. apply _. Qed.

#[export] Instance authority_reporting : Reporting authority_codec.
Proof. apply _. Qed.
