(* ===== verification/Hex.v ===== *)
(** * Hexadecimal text

    Models fc/src/crypto/hex.cpp, the conversions of sha256 from and to
    strings of fc/src/crypto/sha256.cpp, and the variant conversion to a
    vector of bytes that a digest in a variant goes through.

    The theorem: a digest is read back from the text it is printed as, by the
    constructor and by the variant conversion. *)

From Stdlib Require Import String.
From S2P Require Import Prelude Exceptions Text Merkle Raw Codecs.

(** ** Digits *)

Definition from_hex_char (c : ascii) : outcome Z :=
  let c := cv c in
  if (48 <=? c) && (c <=? 57) then Ok (u8 (c - 48)) else
  if (97 <=? c) && (c <=? 102) then Ok (u8 (c - 97 + 10)) else
  if (65 <=? c) && (c <=? 70) then Ok (u8 (c - 65 + 10)) else
  Err fc_exception.

Definition to_hex_chars : list ascii := lit "0123456789abcdef"%string.

(** ** Strings *)

Fixpoint to_hex (d : list Z) : list ascii :=
  match d with
  | [] => []
  | c :: d' =>
      char_at to_hex_chars (Z.to_nat (Z.shiftr c 4)) ::
      char_at to_hex_chars (Z.to_nat (Z.land c 0x0f)) :: to_hex d'
  end.

(** The bytes written to [out_data], for a buffer of [room] bytes. *)
Fixpoint from_hex (hex_str : list ascii) (room : nat) : outcome (list Z) :=
  match hex_str, room with
  | [], _ | _, O => Ok []
  | c :: s, S room' =>
      hi ← from_hex_char c;
      let out := u8 (Z.shiftl hi 4) in
      match s with
      | [] => Ok [out]
      | c' :: s' =>
          lo ← from_hex_char c';
          rest ← from_hex s' room';
          Ok (Z.lor out lo :: rest)
      end
  end.

(** ** Digests *)

(** [sha256::sha256( const string& )] *)
Definition sha256_of_string (hex_str : list ascii) : outcome sha256 :=
  written ← from_hex hex_str 32;
  Ok (sha256_of_bytes (written ++ repeat 0 (32 - length written))).

(** [sha256::str] *)
Definition sha256_str (d : sha256) : list ascii := to_hex (sha256_bytes d).

(** [from_variant( const variant&, std::vector<char>& )] on a string. *)
Definition bytes_from_variant (str : list ascii) : outcome (list Z) :=
  ine_assert (Z.of_nat (length str) <=? 2 * MAX_SIZE_OF_BYTE_ARRAYS) fc_assert_exception ;;
  ine_assert (Z.of_nat (length str) mod 2 =? 0) fc_assert_exception ;;
  let size := (length str / 2)%nat in
  if bool_decide (size = 0%nat) then Ok [] else
  vo ← from_hex str size;
  ine_assert (bool_decide (length vo = size)) fc_assert_exception ;;
  Ok vo.

(** [from_variant( const variant&, sha256& )] on a zero-initialised digest. *)
Definition sha256_from_variant (str : list ascii) : outcome sha256 :=
  ve ← bytes_from_variant str;
  let copied := take 32 ve in
  Ok (sha256_of_bytes (copied ++ repeat 0 (32 - length copied))).

(** ** Round trips *)

Lemma hex_digit_read n :
  0 <= n < 16 -> from_hex_char (char_at to_hex_chars (Z.to_nat n)) = Ok n.
Proof.
  intros Hn. assert (exists k, (k < 16)%nat /\ n = Z.of_nat k) as (k & Hk & ->).
  { exists (Z.to_nat n). lia. }
  rewrite Nat2Z.id. by do 16 (destruct k as [|k]; [reflexivity|]); lia.
Qed.

Lemma nibbles_join c : is_uint 8 c -> Z.lor (u8 (Z.shiftl (Z.shiftr c 4) 4)) (Z.land c 0x0f) = c.
Proof.
  intros Hc. change 0x0f with (Z.ones 4). rewrite Z.land_ones, Z.shiftr_div_pow2 by lia.
  assert (is_uint 4 (c mod 2 ^ 4)) as Hm by (apply Z.mod_pos_bound; lia).
  rewrite (wrap_id 8).
  - rewrite Z.lor_comm, lor_shiftl_add by done. pose proof (Z.div_mod c (2 ^ 4)). lia.
  - rewrite Z.shiftl_mul_pow2 by lia. pose proof (Z.div_mod c (2 ^ 4)).
    unfold is_uint in *. lia.
Qed.

Lemma to_hex_read d room :
  Forall (is_uint 8) d -> (length d <= room)%nat -> from_hex (to_hex d) room = Ok d.
Proof.
  intros Hd. revert room. induction Hd as [|c d Hc Hd IH]; intros room Hroom; [by destruct room|].
  destruct room as [|room]; simpl in Hroom; [lia|]. cbn [to_hex from_hex].
  assert (0 <= Z.shiftr c 4 < 16 /\ 0 <= Z.land c 0x0f < 16) as [Hhi Hlo].
  { change 0x0f with (Z.ones 4). rewrite Z.land_ones, Z.shiftr_div_pow2 by lia.
    unfold is_uint in Hc. split; [split|].
    - apply Z.div_pos; lia.
    - apply Z.div_lt_upper_bound; lia.
    - apply Z.mod_pos_bound. lia. }
  rewrite (hex_digit_read _ Hhi), (hex_digit_read _ Hlo). cbn [mbind result_bind].
  rewrite IH by lia. cbn [mbind result_bind]. by rewrite nibbles_join.
Qed.

Lemma length_to_hex d : length (to_hex d) = (2 * length d)%nat.
Proof. induction d as [|c d IH]; [done|]. cbn [to_hex length]. lia. Qed.

Lemma le_bytes_uint k z : Forall (is_uint 8) (le_bytes k z).
Proof.
  revert z. induction k as [|k IH]; intros z; cbn [le_bytes]; constructor; auto.
  apply wrap_range. lia.
Qed.

Lemma sha256_bytes_uint d : Forall (is_uint 8) (sha256_bytes d).
Proof. unfold sha256_bytes. rewrite !Forall_app. auto using le_bytes_uint. Qed.

(** A digest is read back from its hexadecimal text: the string
    constructor of sha256 and the conversion from a variant both return, for
    the text [str] prints, the digest that was printed; the text has 64
    characters. *)
Theorem sha256_text_roundtrip d :
  sha256_fits d ->
  length (sha256_str d) = 64%nat /\
  sha256_of_string (sha256_str d) = Ok d /\ sha256_from_variant (sha256_str d) = Ok d.
Proof.
  intros Hd. pose proof (length_sha256_bytes d) as Hl.
  assert (length (sha256_str d) = 64%nat) as H64.
  { unfold sha256_str. by rewrite length_to_hex, Hl. }
  split; [done|]. unfold sha256_of_string, sha256_from_variant, bytes_from_variant. rewrite H64.
  change (64 / 2)%nat with 32%nat. unfold sha256_str.
  rewrite to_hex_read by (rewrite ?Hl; auto using sha256_bytes_uint).
  cbn [mbind result_bind]. rewrite Hl, (bool_decide_eq_true_2 (32 = 32)%nat) by done.
  change (bool_decide (32 = 0)%nat) with false.
  change (Z.of_nat 64 <=? 2 * MAX_SIZE_OF_BYTE_ARRAYS) with true.
  change (Z.of_nat 64 mod 2 =? 0) with true. cbn [mbind result_bind ine_assert].
  rewrite take_ge, Hl by (rewrite Hl; lia). cbn [repeat Nat.sub].
  by rewrite app_nil_r, sha256_of_bytes_bytes.
Qed.

Lemma sha256_text_roundtrip_witness :
  let d := mk_sha256 1 (2 ^ 63) 3 UINT64_MAX in
  sha256_of_string (sha256_str d) = Ok d.
Proof.
  apply (sha256_text_roundtrip (mk_sha256 1 (2 ^ 63) 3 UINT64_MAX)).
  unfold sha256_fits, is_uint. simpl. lia.
Defined.
