(* ===== verification/BlockHeader.v ===== *)
(** * Block headers

    Models block_header.cpp and block_header.hpp: the header, its digest and
    id, the number in a block id, and the extraction of the header
    extensions; the activation extension of protocol_feature_activation.hpp;
    the byte reversal of fc/bitutil.hpp; and the order of ids, sha256_less
    (types.hpp).  The hash of a sequence of bytes is computed outside the
    repository's own code and is the argument [hash].

    The theorems: a header is read back from its bytes, the number of a block
    from its id, and the extensions are extracted exactly when their ids are
    strictly increasing and each of them decodes. *)

From Stdlib Require Import Sorted.
From stdpp Require Import countable.
From S2P Require Import Prelude Exceptions Merkle Authority ProducerSchedule Raw Codecs.

#[export] Instance sha256_countable : Countable sha256.
Proof.
  by apply (inj_countable' (fun s => (h0 s, h1 s, h2 s, h3 s))
              (fun '(a, b, c, d) => mk_sha256 a b c d)); intros [].
Defined.

(** ** The order of ids *)

(** [operator<] of sha256, by memcmp. *)
Definition sha256_lt (a b : sha256) : bool := bytes_lt (sha256_bytes a) (sha256_bytes b).

Definition sha256_less (lhs rhs : sha256) : bool :=
  tie_lt Z.ltb (tie_lt Z.ltb (tie_lt Z.ltb Z.ltb))
    (h0 lhs, (h1 lhs, (h2 lhs, h3 lhs))) (h0 rhs, (h1 rhs, (h2 rhs, h3 rhs))).

#[export] Instance sha256_less_strict : StrictTotal sha256_less.
Proof.
  apply (strict_total_inj (fun s => (h0 s, (h1 s, (h2 s, h3 s))))
           (tie_lt Z.ltb (tie_lt Z.ltb (tie_lt Z.ltb Z.ltb)))); [|done|apply _].
  intros [] []; simpl; congruence.
Qed.

(** ** Block numbers *)

(** [fc::endian_reverse_u32] *)
Definition endian_reverse_u32 (x : Z) : Z :=
  u32 (Z.lor (Z.lor (Z.lor
    (Z.land (Z.shiftr x 0x18) 0xFF)
    (Z.shiftl (Z.land (Z.shiftr x 0x10) 0xFF) 0x08))
    (Z.shiftl (Z.land (Z.shiftr x 0x08) 0xFF) 0x10))
    (Z.shiftl (Z.land x 0xFF) 0x18)).

(** The conversion of [_hash[0]] to uint32_t keeps its low half. *)
Definition num_from_id (x : sha256) : Z := endian_reverse_u32 (u32 (h0 x)).

(** ** Headers *)

Record block_header := mk_block_header {
  bh_timestamp : Z;
  bh_producer : Z;
  bh_confirmed : Z;
  bh_previous : sha256;
  bh_transaction_mroot : sha256;
  bh_action_mroot : sha256;
  bh_schedule_version : Z;
  bh_new_producers : option producer_schedule_type;
  bh_header_extensions : list (Z * list Z)
}.

#[export] Instance block_header_eq_dec : EqDecision block_header.
Proof. solve_decision. Defined.

(** The members in the order of FC_REFLECT. *)
Definition block_header_members (h : block_header) :=
  (bh_timestamp h, (bh_producer h, (bh_confirmed h, (bh_previous h, (bh_transaction_mroot h,
   (bh_action_mroot h, (bh_schedule_version h, (bh_new_producers h, bh_header_extensions h)))))))).

Definition block_header_codec : codec block_header :=
  struct_codec block_header_members
    (fun '(t, (p, (c, (pr, (tm, (am, (sv, (np, he)))))))) => mk_block_header t p c pr tm am sv np he)
    (pair_codec (uint_codec 4) (pair_codec name_codec (pair_codec (uint_codec 2)
      (pair_codec sha256_codec (pair_codec sha256_codec (pair_codec sha256_codec
        (pair_codec (uint_codec 4) (pair_codec (optional_codec producer_schedule_type_codec)
          (vector_codec (pair_codec (uint_codec 2) bytes_codec)))))))))).

(** [block_header::block_num] *)
Definition header_block_num (h : block_header) : Z := u32 (num_from_id (bh_previous h) + 1).

(** [block_header::digest]: [digest_type::hash( *this )]. *)
Definition header_digest (hash : list Z -> sha256) (h : block_header) : outcome sha256 :=
  ws ← pack block_header_codec h; Ok (hash (concat ws)).

Definition header_id (hash : list Z -> sha256) (h : block_header) : outcome sha256 :=
  result ← header_digest hash h;
  Ok (mk_sha256
        (u64 (Z.land (h0 result) 0xffffffff00000000 + endian_reverse_u32 (header_block_num h)))
        (h1 result) (h2 result) (h3 result)).

(** ** Header extensions *)

Inductive block_header_extension :=
  | protocol_feature_activation (protocol_features : list sha256)
  | producer_schedule_change_extension (schedule : producer_authority_schedule).

#[export] Instance block_header_extension_eq_dec : EqDecision block_header_extension.
Proof. solve_decision. Defined.

(** The two static extension_id(). *)
Definition protocol_feature_activation_id : Z := 0.
Definition producer_schedule_change_extension_id : Z := 1.

(** [protocol_feature_activation::reflector_init], called when one is
    unpacked: the loop that inserts into the set [seen]. *)
Fixpoint features_distinct (seen l : list sha256) : outcome unit :=
  match l with
  | [] => Ok tt
  | d :: l' =>
      ine_assert (negb (bool_decide (d ∈ seen))) (Throw ill_formed_protocol_feature_activation) ;;
      features_distinct (d :: seen) l'
  end.

Definition reflector_init (protocol_features : list sha256) : outcome unit :=
  ine_assert (bool_decide (0 < length protocol_features)%nat)
    (Throw ill_formed_protocol_feature_activation) ;;
  features_distinct [] protocol_features.

(** [decompose_t::extract]: the extension and its enforce_unique(), or nothing
    for an unknown id. *)
Definition extract (id : Z) (data : list Z) : outcome (option (bool * block_header_extension)) :=
  if id =? protocol_feature_activation_id then
    l ← unpack_vector (vector_codec sha256_codec) data;
    reflector_init l ;;
    Ok (Some (true, protocol_feature_activation l))
  else if id =? producer_schedule_change_extension_id then
    s ← unpack_vector producer_authority_schedule_codec data;
    Ok (Some (true, producer_schedule_change_extension s))
  else Ok None.

(** The loop over the extensions; [first] is [i == 0].  The ids are checked
    to rise, so that the multimap has its elements in the order of the
    loop. *)
Fixpoint extract_loop (first : bool) (id_type_lower_bound : Z) (exts : list (Z * list Z)) :
  outcome (list (Z * block_header_extension)) :=
  match exts with
  | [] => Ok []
  | (id, data) :: exts' =>
      ine_assert (id >=? id_type_lower_bound) (Throw invalid_block_header_extension) ;;
      match_ ← extract id data;
      match match_ with
      | None => Err (Throw invalid_block_header_extension)
      | Some (enforce_unique, ext) =>
          (if enforce_unique : bool
           then ine_assert (first || (id >? id_type_lower_bound)) (Throw invalid_block_header_extension)
           else Ok tt) ;;
          results ← extract_loop false id exts';
          Ok ((id, ext) :: results)
      end
  end.

Definition validate_and_extract_header_extensions (h : block_header) :
  outcome (list (Z * block_header_extension)) := extract_loop true 0 (bh_header_extensions h).

(** [exts.lower_bound( id )] where [exts.count( id ) > 0]. *)
Definition find_extension {A} (id : Z) (exts : list (Z * A)) : option A :=
  snd <$> List.find (fun e => e.1 =? id) exts.

(** [emplace_extension]: after the last extension with a lower or equal id. *)
Fixpoint emplace_extension (exts : list (Z * list Z)) (eid : Z) (data : list Z) : list (Z * list Z) :=
  match exts with
  | [] => [(eid, data)]
  | e :: exts' => if eid <? e.1 then (eid, data) :: exts else e :: emplace_extension exts' eid data
  end.

(** ** Reversing the bytes *)

#[local] Ltac Zify.zify_post_hook ::= Z.to_euclidean_division_equations.

Definition byte_of (k x : Z) : Z := Z.land (Z.shiftr x (8 * k)) 0xFF.

Lemma byte_of_range k x : is_uint 8 (byte_of k x).
Proof. unfold byte_of. rewrite Z.land_comm. apply land_range; [lia|]. by split. Qed.

Lemma byte_of_div k x : 0 <= k -> byte_of k x = (x / 2 ^ (8 * k)) mod 256.
Proof.
  intros Hk. unfold byte_of. rewrite Z.shiftr_div_pow2 by lia.
  change 0xFF with (Z.ones 8). by rewrite Z.land_ones by lia.
Qed.

Lemma endian_reverse_sum x :
  endian_reverse_u32 x =
  byte_of 3 x + byte_of 2 x * 2 ^ 8 + byte_of 1 x * 2 ^ 16 + byte_of 0 x * 2 ^ 24.
Proof.
  unfold endian_reverse_u32.
  change (Z.land (Z.shiftr x 0x18) 0xFF) with (byte_of 3 x).
  change (Z.land (Z.shiftr x 0x10) 0xFF) with (byte_of 2 x).
  change (Z.land (Z.shiftr x 0x08) 0xFF) with (byte_of 1 x).
  replace (Z.land x 255) with (byte_of 0 x) by (unfold byte_of; by rewrite Z.shiftr_0_r).
  pose proof (byte_of_range 0 x). pose proof (byte_of_range 1 x).
  pose proof (byte_of_range 2 x). pose proof (byte_of_range 3 x). unfold is_uint in *.
  rewrite (lor_shiftl_add 0x08), (lor_shiftl_add 0x10), (lor_shiftl_add 0x18) by (unfold is_uint; lia).
  apply wrap_id. unfold is_uint. lia.
Qed.

Lemma endian_reverse_range x : is_uint 32 (endian_reverse_u32 x).
Proof. apply wrap_range. lia. Qed.

Lemma num_from_id_range x : is_uint 32 (num_from_id x).
Proof. apply endian_reverse_range. Qed.

Lemma endian_reverse_involutive x : is_uint 32 x -> endian_reverse_u32 (endian_reverse_u32 x) = x.
Proof.
  intros Hx. rewrite (endian_reverse_sum (endian_reverse_u32 x)).
  pose proof (endian_reverse_sum x) as E. set (y := endian_reverse_u32 x) in *.
  rewrite !byte_of_div in * by lia. change (8 * 0) with 0 in *. change (8 * 1) with 8 in *.
  change (8 * 2) with 16 in *. change (8 * 3) with 24 in *. unfold is_uint in Hx.
  lia.
Qed.

(** The mask keeps a multiple of 2^32. *)
Lemma land_high_half d :
  Z.land d 0xffffffff00000000 = Z.land (Z.shiftr d 32) (Z.ones 32) * 2 ^ 32.
Proof.
  change 0xffffffff00000000 with (Z.shiftl (Z.ones 32) 32).
  rewrite <- Z.shiftl_mul_pow2 by lia. apply Z.bits_inj'. intros n Hn.
  rewrite Z.land_spec, !Z.shiftl_spec, Z.land_spec by done.
  destruct (decide (n < 32)).
  - by rewrite !(Z.testbit_neg_r _ (n - 32)), andb_false_r by lia.
  - rewrite Z.shiftr_spec by lia. by replace (n - 32 + 32) with n by lia.
Qed.

(** The id of a header carries its number. *)
Lemma header_id_num (hash : list Z -> sha256) (h : block_header) i :
  header_id hash h = Ok i -> num_from_id i = header_block_num h.
Proof.
  unfold header_id. intros H. apply bind_ok in H as (d & _ & [= <-]).
  unfold num_from_id at 1. cbn [h0].
  assert (is_uint 32 (header_block_num h)) as Hn by (apply wrap_range; lia).
  pose proof (endian_reverse_range (header_block_num h)) as Hr.
  rewrite <- (endian_reverse_involutive (header_block_num h)) at 2 by done.
  f_equal. rewrite land_high_half. unfold wrap, is_uint in *.
  set (k := Z.land _ _). clearbody k.
  set (r := endian_reverse_u32 (header_block_num h)) in *. clearbody r.
  lia.
Qed.

(** ** Properties *)

Definition header_fits (h : block_header) : Prop :=
  is_uint 32 (bh_timestamp h) /\ is_uint 64 (bh_producer h) /\ is_uint 16 (bh_confirmed h) /\
  sha256_fits (bh_previous h) /\ sha256_fits (bh_transaction_mroot h) /\
  sha256_fits (bh_action_mroot h) /\ is_uint 32 (bh_schedule_version h) /\
  option_fits producer_schedule_type_fits (bh_new_producers h) /\
  vector_fits (pair_fits (is_uint 16) bytes_fit) (bh_header_extensions h).

#[export] Instance block_header_lawful : Lawful block_header_codec header_fits.
Proof. solve_struct. Qed.

(** The number of a block can be read back from its id: the id of a
    header carries the number of the previous block plus one, whatever the
    digest of the header. *)
Theorem num_from_id_roundtrip (hash : list Z -> sha256) (h : block_header) i :
  header_id hash h = Ok i -> num_from_id i = header_block_num h.
Proof. apply header_id_num. Qed.

Definition example_header : block_header :=
  mk_block_header 7 5 0 (mk_sha256 (endian_reverse_u32 41) 1 2 3) zero_digest zero_digest 1
    (Some (mk_producer_schedule_type 2 [mk_producer_key 9 (K1 (repeat 3 33))])) [(0, [1; 2; 3])].

Definition example_hash (l : list Z) : sha256 := mk_sha256 (u64 (foldr Z.add 12345678901 l)) 1 2 3.

Lemma num_from_id_roundtrip_witness :
  exists i, header_id example_hash example_header = Ok i /\ num_from_id i = 42.
Proof.
  eexists. split; [vm_compute; reflexivity|].
  change 42 with (header_block_num example_header).
  apply (num_from_id_roundtrip example_hash). by vm_compute.
Defined.

(** A header whose members are within their types and size limits is
    packed without an error, fits the vector allocated by the counting pass,
    and is read back from those bytes. *)
Theorem header_roundtrip (h : block_header) :
  header_fits h ->
  exists ws, pack block_header_codec h = Ok ws /\
    (Z.of_nat (length (concat ws)) < 2 ^ 64 ->
     pack_vector block_header_codec h = Ok (concat ws) /\
     unpack_vector block_header_codec (concat ws) = Ok h).
Proof.
  intros Hh. destruct (unpack_pack block_header_codec h [] Hh) as (ws & Hp & Hu).
  exists ws. split; [done|]. intros Hlen. split; [by apply pack_vector_bytes|].
  unfold unpack_vector. rewrite app_nil_r in Hu. by rewrite Hu.
Qed.

Lemma header_roundtrip_witness :
  exists ws, pack block_header_codec example_header = Ok ws /\
    (Z.of_nat (length (concat ws)) < 2 ^ 64 ->
     pack_vector block_header_codec example_header = Ok (concat ws) /\
     unpack_vector block_header_codec (concat ws) = Ok example_header).
Proof.
  apply header_roundtrip. unfold header_fits, sha256_fits, option_fits, producer_schedule_type_fits,
    vector_fits, pair_fits, bytes_fit, is_uint. cbn -[Z.pow].
  split_and!; try done; try lia; repeat constructor; cbn; try done; vm_compute; congruence.
Defined.

(** [x] is what the extension [e] of a header stands for. *)
Definition decodes (e : Z * list Z) (x : Z * block_header_extension) : Prop :=
  x.1 = e.1 /\ extract e.1 e.2 = Ok (Some (true, x.2)).

Lemma extract_unique id data u x :
  extract id data = Ok (Some (u, x)) -> u = true /\ (id = 0 \/ id = 1).
Proof.
  unfold extract. destruct (Z.eqb_spec id protocol_feature_activation_id) as [->|_];
    [|destruct (Z.eqb_spec id producer_schedule_change_extension_id) as [->|_]; [|done]]; intros H.
  - apply bind_ok in H as (l & _ & H). apply bind_ok in H as (? & _ & [= <- _]). auto.
  - apply bind_ok in H as (l & _ & [= <- _]). auto.
Qed.

Lemma extract_loop_spec first lb exts r :
  extract_loop first lb exts = Ok r <->
  Forall2 decodes exts r /\ StronglySorted Z.lt (map fst exts) /\
  match exts with
  | [] => True
  | e :: _ => if first : bool then lb <= e.1 else lb < e.1
  end.
Proof.
  revert first lb r. induction exts as [|[id data] exts IH]; intros first lb r; cbn [extract_loop map fst].
  { split; [intros [= <-]; split_and!; constructor|]. intros (H & _). by inversion H. }
  split.
  - intros H. apply bind_ok in H as ([] & Hge%ine_assert_ok & H). apply bind_ok in H as ([[u x]|] & Hx & H); [|done].
    destruct (extract_unique _ _ _ _ Hx) as [-> _].
    apply bind_ok in H as ([] & Hu%ine_assert_ok & H). apply bind_ok in H as (r' & Hr & [= <-]).
    apply IH in Hr as (Hf & Hs & Hlb). rewrite Z.geb_leb in Hge. apply Z.leb_le in Hge.
    split_and!.
    + by constructor.
    + constructor; [done|]. destruct exts as [|[id' d'] exts]; [constructor|]. simpl in *.
      apply StronglySorted_inv in Hs as [_ Hs']. constructor; [done|].
      eapply List.Forall_impl; [|exact Hs']. simpl. lia.
    + destruct first; simpl in *; [done|]. rewrite Z.gtb_ltb in Hu. by apply Z.ltb_lt in Hu.
  - intros (Hf & Hs & Hlb). inversion Hf as [|? [id' x] ? r' [Hid Hx] Hf']; subst. simpl in *. subst id'.
    apply StronglySorted_inv in Hs as [Hs Hall].
    assert (lb <= id) as Hle by (destruct first; lia).
    rewrite Z.geb_leb. apply Z.leb_le in Hle as ->. cbn [ine_assert mbind result_bind]. rewrite Hx.
    cbn [mbind result_bind].
    replace (first || (id >? lb)) with true.
    2: { destruct first; [done|]. simpl. rewrite Z.gtb_ltb. symmetry. by apply Z.ltb_lt. }
    cbn [ine_assert mbind result_bind].
    assert (extract_loop false id exts = Ok r') as ->; [|done]. apply IH. split_and!; [done|done|].
    destruct exts as [|[id' d'] exts]; [done|]. by inversion Hall.
Qed.

(** The extensions of a header are extracted exactly when their ids are
    strictly increasing and every one is of a known id and decodes; the
    result has one entry per extension, in order. *)
Theorem header_extensions_exact (h : block_header) r :
  validate_and_extract_header_extensions h = Ok r <->
  Forall2 decodes (bh_header_extensions h) r /\ StronglySorted Z.lt (map fst (bh_header_extensions h)).
Proof.
  unfold validate_and_extract_header_extensions. rewrite extract_loop_spec. split; [tauto|].
  intros [Hf Hs]. split_and!; [done|done|]. inversion Hf as [|e x l r' [_ Hx] _]; [done|].
  apply extract_unique in Hx as [_ Hid]. lia.
Qed.
