(* ===== verification/Transactions.v ===== *)
(** * Actions and transactions

    Models action.hpp, transaction.hpp and transaction.cpp: the serialized
    structures, the reference to a block, the digest a transaction is signed
    over, the recovery of the keys it was signed with, its extensions, and
    packed transactions with their two ways of compression.

    Outside the repository's own code, and arguments here: the hash of a
    sequence of bytes ([hash]), the recovery of a public key from a signature
    and a digest ([recover]), zlib ([deflate]; [inflate] gives the pieces the
    decompressor writes and whether it ended without an error) and the clock
    ([now], the sequence of its readings during a call).

    The theorems: a packed transaction is read back as it was made, id and
    context free data included, with either compression; two transactions
    are signed over the same digest only if they, their chains and their
    context free data are the same or a collision of the hash is known;
    get_signature_keys returns exactly the keys of the signatures; and
    extensions are accepted exactly if they are in order and decode. *)

From Stdlib Require Import Sorted.
From S2P Require Import Prelude Exceptions Merkle Authority Raw Codecs BlockHeader.

(** ** Data *)

Record action := mk_action {
  act_account : Z;
  act_name : Z;
  authorization : list permission_level;
  data : list Z
}.

#[export] Instance action_eq_dec : EqDecision action.
Proof. solve_decision. Defined.

Record transaction := mk_transaction {
  (* transaction_header *)
  expiration : Z;
  ref_block_num : Z;
  ref_block_prefix : Z;
  max_net_usage_words : Z;
  max_cpu_usage_ms : Z;
  delay_sec : Z;
  context_free_actions : list action;
  actions : list action;
  transaction_extensions : list (Z * list Z)
}.

#[export] Instance transaction_eq_dec : EqDecision transaction.
Proof. solve_decision. Defined.

Record signed_transaction := mk_signed_transaction {
  st_transaction : transaction;
  st_signatures : list signature;
  context_free_data : list (list Z)
}.

#[export] Instance signed_transaction_eq_dec : EqDecision signed_transaction.
Proof. solve_decision. Defined.

Definition empty_transaction : transaction := mk_transaction 0 0 0 0 0 0 [] [] [].
Definition empty_signed_transaction : signed_transaction := mk_signed_transaction empty_transaction [] [].

(** compression_type; an enum_type read from a stream can hold any uint8_t. *)
Definition compression_none : Z := 0.
Definition compression_zlib : Z := 1.

Record packed_transaction := mk_packed_transaction {
  pt_signatures : list signature;
  compression : Z;
  packed_context_free_data : list Z;
  packed_trx : list Z;
  (* the cache *)
  unpacked_trx : signed_transaction;
  pt_trx_id : sha256
}.

#[export] Instance packed_transaction_eq_dec : EqDecision packed_transaction.
Proof. solve_decision. Defined.

(** ** Serialization, from the FC_REFLECT declarations *)

Definition action_codec : codec action :=
  struct_codec (fun a => (act_account a, (act_name a, (authorization a, data a))))
    (fun '(a, (n, (auth, d))) => mk_action a n auth d)
    (pair_codec name_codec (pair_codec name_codec
      (pair_codec (vector_codec permission_level_codec) bytes_codec))).

Definition transaction_members (t : transaction) :=
  (expiration t, (ref_block_num t, (ref_block_prefix t, (max_net_usage_words t, (max_cpu_usage_ms t,
   (delay_sec t, (context_free_actions t, (actions t, transaction_extensions t)))))))).

Definition transaction_codec : codec transaction :=
  struct_codec transaction_members
    (fun '(e, (n, (p, (w, (c, (d, (cfa, (a, x)))))))) => mk_transaction e n p w c d cfa a x)
    (pair_codec (uint_codec 4) (pair_codec (uint_codec 2) (pair_codec (uint_codec 4)
      (pair_codec unsigned_int_codec (pair_codec (uint_codec 1) (pair_codec unsigned_int_codec
        (pair_codec (vector_codec action_codec) (pair_codec (vector_codec action_codec)
          (vector_codec (pair_codec (uint_codec 2) bytes_codec)))))))))).

Definition context_free_data_codec : codec (list (list Z)) := vector_codec bytes_codec.

(** [action::data_as<T>]. *)
Definition data_as {T} (account name : Z) (c : codec T) (act : action) : outcome T :=
  ine_assert (act_account act =? account) (Throw action_type_exception) ;;
  ine_assert (act_name act =? name) (Throw action_type_exception) ;;
  unpack_vector c (data act).

(** ** transaction_header *)

(** The stored number is not read. *)
Definition get_ref_blocknum (t : transaction) (head_blocknum : Z) : Z :=
  u32 (u32 (head_blocknum / 0xffff * 0xffff) + head_blocknum mod 0xffff).

Definition set_reference_block (reference_block : sha256) (t : transaction) : transaction :=
  mk_transaction (expiration t) (u16 (endian_reverse_u32 (u32 (h0 reference_block)))) (u32 (h1 reference_block))
    (max_net_usage_words t) (max_cpu_usage_ms t) (delay_sec t) (context_free_actions t) (actions t)
    (transaction_extensions t).

Definition verify_reference_block (reference_block : sha256) (t : transaction) : bool :=
  (ref_block_num t =? u16 (endian_reverse_u32 (u32 (h0 reference_block)))) &&
  (ref_block_prefix t =? u32 (h1 reference_block)).

Definition validate_transaction_header (t : transaction) : outcome unit :=
  ine_assert (max_net_usage_words t <? UINT32_MAX / 8) (Throw transaction_exception).

(** ** transaction *)

Definition total_actions (t : transaction) : Z :=
  u32 (u64 (Z.of_nat (length (context_free_actions t)) + Z.of_nat (length (actions t)))).

Definition first_authorizer (t : transaction) : Z :=
  match concat (authorization <$> actions t) with
  | u :: _ => actor u
  | [] => 0
  end.

Section crypto.
Context (hash : list Z -> sha256).
Context (recover : signature -> sha256 -> outcome public_key).

Definition transaction_id (t : transaction) : outcome sha256 :=
  ws ← pack transaction_codec t; Ok (hash (concat ws)).

Definition sig_digest (chain_id : sha256) (cfd : list (list Z)) (t : transaction) : outcome sha256 :=
  w1 ← pack sha256_codec chain_id;
  w2 ← pack transaction_codec t;
  cfd_digest ← (if bool_decide (length cfd <> 0%nat)
                then ws ← pack context_free_data_codec cfd; Ok (hash (concat ws))
                else Ok zero_digest);
  w3 ← pack sha256_codec cfd_digest;
  Ok (hash (concat (w1 ++ w2 ++ w3))).

(** The loop over the signatures; [i] counts the readings of the clock. *)
Fixpoint recover_loop (deadline : Z) (now : nat -> Z) (allow_duplicate_keys : bool) (digest : sha256)
    (i : nat) (signatures : list signature) (recovered_pub_keys : list public_key) : outcome (list public_key) :=
  match signatures with
  | [] => Ok recovered_pub_keys
  | sig :: signatures' =>
      ine_assert (now i <? deadline) (Throw tx_cpu_usage_exceeded) ;;
      key ← recover sig digest;
      ine_assert (allow_duplicate_keys || negb (bool_decide (key ∈ recovered_pub_keys))) (Throw tx_duplicate_sig) ;;
      recover_loop deadline now allow_duplicate_keys digest (S i) signatures'
        (set_insert public_key_lt key recovered_pub_keys)
  end.

(** The elapsed time and the keys. *)
Definition get_signature_keys (signatures : list signature) (chain_id : sha256) (deadline : Z) (now : nat -> Z)
    (cfd : list (list Z)) (allow_duplicate_keys : bool) (t : transaction) : outcome (Z * list public_key) :=
  fc_capture_and_rethrow (
    digest ← sig_digest chain_id cfd t;
    keys ← recover_loop deadline now allow_duplicate_keys digest 1 signatures [];
    Ok (i64 (now (S (length signatures)) - now 0%nat), keys)).

Definition signed_get_signature_keys (chain_id : sha256) (deadline : Z) (now : nat -> Z)
    (allow_duplicate_keys : bool) (t : signed_transaction) : outcome (Z * list public_key) :=
  get_signature_keys (st_signatures t) chain_id deadline now (context_free_data t) allow_duplicate_keys
    (st_transaction t).

End crypto.

(** ** Extensions *)

Record deferred_transaction_generation_context := mk_generation_context {
  sender_trx_id : sha256;
  sender_id : Z;
  sender : Z
}.

#[export] Instance generation_context_eq_dec : EqDecision deferred_transaction_generation_context.
Proof. solve_decision. Defined.

Definition generation_context_codec : codec deferred_transaction_generation_context :=
  struct_codec (fun c => (sender_trx_id c, (sender_id c, sender c)))
    (fun '(t, (i, s)) => mk_generation_context t i s)
    (pair_codec sha256_codec (pair_codec (uint_codec 16) name_codec)).

Definition generation_context_reflector_init (c : deferred_transaction_generation_context) : outcome unit :=
  ine_assert (negb (sender c =? 0)) (Throw ill_formed_deferred_transaction_generation_context).

Definition generation_context_id : Z := 0.

(** [decompose_t::extract] for the one extension of transactions. *)
Definition extract_transaction_extension (id : Z) (bytes : list Z)
    : outcome (option (bool * deferred_transaction_generation_context)) :=
  if id =? generation_context_id then
    c ← unpack_vector generation_context_codec bytes;
    generation_context_reflector_init c ;;
    Ok (Some (true, c))
  else Ok None.

Fixpoint extract_transaction_loop (first : bool) (id_type_lower_bound : Z) (exts : list (Z * list Z))
    : outcome (list (Z * deferred_transaction_generation_context)) :=
  match exts with
  | [] => Ok []
  | (id, bytes) :: exts' =>
      ine_assert (id >=? id_type_lower_bound) (Throw invalid_transaction_extension) ;;
      match_ ← extract_transaction_extension id bytes;
      match match_ with
      | None => Err (Throw invalid_transaction_extension)
      | Some (enforce_unique, ext) =>
          (if enforce_unique : bool
           then ine_assert (first || (id >? id_type_lower_bound)) (Throw invalid_transaction_extension)
           else Ok tt) ;;
          results ← extract_transaction_loop false id exts';
          Ok ((id, ext) :: results)
      end
  end.

Definition validate_and_extract_extensions (t : transaction)
    : outcome (list (Z * deferred_transaction_generation_context)) :=
  extract_transaction_loop true 0 (transaction_extensions t).

(** ** Packed transactions *)

Definition fixed_net_overhead_of_packed_trx : Z := 16.

Definition decompression_limit : Z := 1 * 1024 * 1024.

(** [read_limiter::write] for the pieces in turn. *)
Fixpoint limited_write (total : Z) (pieces : list (list Z)) (out : list Z) : outcome (list Z) :=
  match pieces with
  | [] => Ok out
  | s :: pieces' =>
      let count := Z.of_nat (length s) in
      ine_assert (u64 (total + count) <=? decompression_limit) (Throw tx_decompression_error) ;;
      limited_write (u64 (total + count)) pieces' (out ++ s)
  end.

Definition unpack_transaction (bytes : list Z) : outcome transaction := unpack_vector transaction_codec bytes.

Definition unpack_context_free_data (bytes : list Z) : outcome (list (list Z)) :=
  if bool_decide (length bytes = 0%nat) then Ok [] else unpack_vector context_free_data_codec bytes.

Definition pack_transaction (t : transaction) : outcome (list Z) := pack_vector transaction_codec t.

Definition pack_context_free_data (cfd : list (list Z)) : outcome (list Z) :=
  if bool_decide (length cfd = 0%nat) then Ok [] else pack_vector context_free_data_codec cfd.

Section packed.
Context (hash : list Z -> sha256).
Context (deflate : list Z -> list Z) (inflate : list Z -> list (list Z) * bool).

Definition zlib_decompress (bytes : list Z) : outcome (list Z) :=
  let '(pieces, ended) := inflate bytes in
  out ← limited_write 0 pieces [];
  if ended : bool then Ok out else Err fc_unhandled_exception.

Definition zlib_decompress_context_free_data (bytes : list Z) : outcome (list (list Z)) :=
  if bool_decide (length bytes = 0%nat) then Ok []
  else out ← zlib_decompress bytes; unpack_context_free_data out.

Definition zlib_decompress_transaction (bytes : list Z) : outcome transaction :=
  out ← zlib_decompress bytes; unpack_transaction out.

Definition zlib_compress_context_free_data (cfd : list (list Z)) : outcome (list Z) :=
  if bool_decide (length cfd = 0%nat) then Ok []
  else in_ ← pack_context_free_data cfd; Ok (deflate in_).

Definition zlib_compress_transaction (t : transaction) : outcome (list Z) :=
  in_ ← pack_transaction t; Ok (deflate in_).

Definition get_raw_transaction (p : packed_transaction) : outcome (list Z) :=
  fc_capture_and_rethrow (
    if compression p =? compression_none then Ok (packed_trx p)
    else if compression p =? compression_zlib then zlib_decompress (packed_trx p)
    else Err (Throw unknown_transaction_compression)).

Definition local_unpack_transaction (cfd : list (list Z)) (p : packed_transaction) : outcome packed_transaction :=
  fc_capture_and_rethrow (
    t ← (if compression p =? compression_none then unpack_transaction (packed_trx p)
         else if compression p =? compression_zlib then zlib_decompress_transaction (packed_trx p)
         else Err (Throw unknown_transaction_compression));
    id ← transaction_id hash t;
    Ok (mk_packed_transaction (pt_signatures p) (compression p) (packed_context_free_data p) (packed_trx p)
          (mk_signed_transaction t (pt_signatures p) cfd) id)).

Definition local_unpack_context_free_data (p : packed_transaction) : outcome packed_transaction :=
  fc_capture_and_rethrow (
    ine_assert (bool_decide (context_free_data (unpacked_trx p) = [])) (Throw tx_decompression_error) ;;
    cfd ← (if compression p =? compression_none then unpack_context_free_data (packed_context_free_data p)
           else if compression p =? compression_zlib
                then zlib_decompress_context_free_data (packed_context_free_data p)
           else Err (Throw unknown_transaction_compression));
    Ok (mk_packed_transaction (pt_signatures p) (compression p) (packed_context_free_data p) (packed_trx p)
          (mk_signed_transaction (st_transaction (unpacked_trx p)) (st_signatures (unpacked_trx p)) cfd)
          (pt_trx_id p))).

Definition local_pack_transaction (p : packed_transaction) : outcome packed_transaction :=
  fc_capture_and_rethrow (
    bytes ← (if compression p =? compression_none then pack_transaction (st_transaction (unpacked_trx p))
             else if compression p =? compression_zlib
                  then zlib_compress_transaction (st_transaction (unpacked_trx p))
             else Err (Throw unknown_transaction_compression));
    Ok (mk_packed_transaction (pt_signatures p) (compression p) (packed_context_free_data p) bytes
          (unpacked_trx p) (pt_trx_id p))).

Definition local_pack_context_free_data (p : packed_transaction) : outcome packed_transaction :=
  fc_capture_and_rethrow (
    bytes ← (if compression p =? compression_none
             then pack_context_free_data (context_free_data (unpacked_trx p))
             else if compression p =? compression_zlib
                  then zlib_compress_context_free_data (context_free_data (unpacked_trx p))
             else Err (Throw unknown_transaction_compression));
    Ok (mk_packed_transaction (pt_signatures p) (compression p) bytes (packed_trx p)
          (unpacked_trx p) (pt_trx_id p))).

(** The constructors. *)
Definition packed_of_signed (t : signed_transaction) (c : Z) : outcome packed_transaction :=
  id ← transaction_id hash (st_transaction t);
  p ← local_pack_transaction (mk_packed_transaction (st_signatures t) c [] [] t id);
  local_pack_context_free_data p.

Definition packed_of_bytes (packed_txn : list Z) (sigs : list signature) (packed_cfd : list Z) (c : Z)
    : outcome packed_transaction :=
  p ← local_unpack_transaction []
        (mk_packed_transaction sigs c packed_cfd packed_txn empty_signed_transaction zero_digest);
  if bool_decide (packed_context_free_data p = []) then Ok p else local_unpack_context_free_data p.

Definition packed_of_bytes_and_data (packed_txn : list Z) (sigs : list signature) (cfd : list (list Z)) (c : Z)
    : outcome packed_transaction :=
  p ← local_unpack_transaction cfd
        (mk_packed_transaction sigs c [] packed_txn empty_signed_transaction zero_digest);
  if bool_decide (context_free_data (unpacked_trx p) = []) then Ok p else local_pack_context_free_data p.

Definition packed_of_transaction (t : transaction) (sigs : list signature) (packed_cfd : list Z) (c : Z)
    : outcome packed_transaction :=
  id ← transaction_id hash t;
  p ← local_pack_transaction
        (mk_packed_transaction sigs c packed_cfd [] (mk_signed_transaction t sigs []) id);
  if bool_decide (packed_context_free_data p = []) then Ok p else local_unpack_context_free_data p.

Definition packed_reflector_init (p : packed_transaction) : outcome packed_transaction :=
  ine_assert (expiration (st_transaction (unpacked_trx p)) =? 0) (Throw tx_decompression_error) ;;
  p ← local_unpack_transaction [] p;
  local_unpack_context_free_data p.

Definition packed_members_codec : codec (list signature * (Z * (list Z * list Z))) :=
  pair_codec (vector_codec signature_codec) (pair_codec (uint_codec 1) (pair_codec bytes_codec bytes_codec)).

Definition packed_members (p : packed_transaction) :=
  (pt_signatures p, (compression p, (packed_context_free_data p, packed_trx p))).

(** Unpacking ends with reflector_init. *)
Definition packed_transaction_codec : codec packed_transaction :=
  mk_codec (fun p => pack packed_members_codec (packed_members p))
    (fun s => '((sigs, (c, (cfd, trx))), s') ← unpack packed_members_codec s;
              p ← packed_reflector_init
                    (mk_packed_transaction sigs c cfd trx empty_signed_transaction zero_digest);
              Ok (p, s')).

Definition get_unprunable_size (p : packed_transaction) : outcome Z :=
  let size := u64 (fixed_net_overhead_of_packed_trx + Z.of_nat (length (packed_trx p))) in
  ine_assert (size <=? UINT32_MAX) (Throw tx_too_big) ;;
  Ok (u32 size).

Definition get_prunable_size (p : packed_transaction) : outcome Z :=
  ws ← pack (vector_codec signature_codec) (pt_signatures p);
  let size := u64 (foldl (fun n d => ds_count d n) 0 ws + Z.of_nat (length (packed_context_free_data p))) in
  ine_assert (size <=? UINT32_MAX) (Throw tx_too_big) ;;
  Ok (u32 size).

Definition packed_digest (p : packed_transaction) : outcome sha256 :=
  p1 ← pack (vector_codec signature_codec) (pt_signatures p);
  p2 ← pack bytes_codec (packed_context_free_data p);
  e1 ← pack (uint_codec 1) (compression p);
  e2 ← pack bytes_codec (packed_trx p);
  e3 ← pack sha256_codec (hash (concat (p1 ++ p2)));
  Ok (hash (concat (e1 ++ e2 ++ e3))).

End packed.

(** ** Serialization is read back *)

Definition action_fits (a : action) : Prop :=
  is_uint 64 (act_account a) /\ is_uint 64 (act_name a) /\
  vector_fits permission_level_fits (authorization a) /\ bytes_fit (data a).

#[export] Instance action_lawful : Lawful action_codec action_fits.
Proof. solve_struct. Qed.

Definition extension_fits (e : Z * list Z) : Prop := is_uint 16 e.1 /\ bytes_fit e.2.

Definition transaction_fits (t : transaction) : Prop :=
  is_uint 32 (expiration t) /\ is_uint 16 (ref_block_num t) /\ is_uint 32 (ref_block_prefix t) /\
  is_uint 32 (max_net_usage_words t) /\ is_uint 8 (max_cpu_usage_ms t) /\ is_uint 32 (delay_sec t) /\
  vector_fits action_fits (context_free_actions t) /\ vector_fits action_fits (actions t) /\
  vector_fits extension_fits (transaction_extensions t).

#[export] Instance transaction_lawful : Lawful transaction_codec transaction_fits.
Proof. solve_struct. Qed.

#[export] Instance context_free_data_lawful : Lawful context_free_data_codec (vector_fits bytes_fit).
Proof. apply vector_lawful, bytes_lawful. Qed.

Definition generation_context_fits (c : deferred_transaction_generation_context) : Prop :=
  sha256_fits (sender_trx_id c) /\ is_uint 128 (sender_id c) /\ is_uint 64 (sender c).

#[export] Instance generation_context_lawful : Lawful generation_context_codec generation_context_fits.
Proof. solve_struct. Qed.

Lemma unpack_bytes {A} (c : codec A) {fits} `{!Lawful c fits} a ws :
  fits a -> pack c a = Ok ws -> unpack_vector c (concat ws) = Ok a.
Proof.
  intros Ha Hp. destruct (unpack_pack c a [] Ha) as (ws' & Hp' & Hu). rewrite Hp in Hp'. injection Hp' as <-.
  rewrite app_nil_r in Hu. unfold unpack_vector. by rewrite Hu.
Qed.

Lemma pack_total {A} (c : codec A) {fits} `{!Lawful c fits} a : fits a -> exists ws, pack c a = Ok ws.
Proof. intros Ha. destruct (unpack_pack c a [] Ha) as (ws & Hp & _). eauto. Qed.

(** Two values followed by anything are told apart by their bytes. *)
Lemma pack_prefix_inj {A} (c : codec A) {fits} `{!Lawful c fits} a b wa wb s s' :
  fits a -> fits b -> pack c a = Ok wa -> pack c b = Ok wb -> concat wa ++ s = concat wb ++ s' ->
  a = b /\ s = s'.
Proof.
  intros Ha Hb Hpa Hpb E. destruct (unpack_pack c a s Ha) as (w1 & Hp1 & Hu1).
  destruct (unpack_pack c b s' Hb) as (w2 & Hp2 & Hu2). rewrite Hpa in Hp1. rewrite Hpb in Hp2.
  injection Hp1 as <-. injection Hp2 as <-. rewrite E, Hu2 in Hu1. by injection Hu1.
Qed.

Lemma limited_write_spec total pieces out :
  0 <= total -> total + Z.of_nat (length (concat pieces)) <= decompression_limit ->
  limited_write total pieces out = Ok (out ++ concat pieces).
Proof.
  revert total out. induction pieces as [|s pieces IH]; intros total out H0 H; cbn [limited_write concat] in *.
  { by rewrite app_nil_r. }
  rewrite length_app in H. unfold decompression_limit in *. rewrite wrap_id by (unfold is_uint; lia).
  replace (total + Z.of_nat (length s) <=? 1 * 1024 * 1024) with true by (symmetry; apply Z.leb_le; lia).
  cbn [ine_assert mbind result_bind]. rewrite IH by lia. by rewrite <- app_assoc.
Qed.

(** More than the limit is refused, whatever the pieces. *)
Lemma limited_write_exceeds total pieces out :
  is_uint 63 total -> Forall (fun s => Z.of_nat (length s) < 2 ^ 63) pieces ->
  decompression_limit < total + Z.of_nat (length (concat pieces)) -> total <= decompression_limit ->
  limited_write total pieces out = Err (Throw tx_decompression_error).
Proof.
  intros H0 Hs H Ht. revert total out H0 Ht H. induction Hs as [|s pieces Hs Hp IH]; intros total out H0 Ht H;
    cbn [limited_write concat length] in *; [lia|].
  rewrite length_app in H. unfold decompression_limit, is_uint in *. rewrite wrap_id by (unfold is_uint; lia).
  destruct (Z.leb_spec (total + Z.of_nat (length s)) (1 * 1024 * 1024)); [|done].
  cbn [ine_assert mbind result_bind]. apply IH; lia.
Qed.

#[export] Instance action_reporting : Reporting action_codec.
Proof. apply _. Qed.

#[export] Instance transaction_reporting : Reporting transaction_codec.
Proof. apply _. Qed.

(** ** Packed transactions are read back *)

(** The packed bytes of [a] are at most [limit] many. *)
Definition packed_within {A} (c : codec A) (limit : Z) (a : A) : Prop :=
  forall ws, pack c a = Ok ws -> Z.of_nat (length (concat ws)) <= limit.

Definition compression_limit (c : Z) : Z :=
  if c =? compression_zlib then decompression_limit else MAX_SIZE_OF_BYTE_ARRAYS.

Record packable (c : Z) (t : signed_transaction) : Prop := {
  p_compression : c = compression_none \/ c = compression_zlib;
  p_transaction : transaction_fits (st_transaction t);
  p_signatures : vector_fits signature_fits (st_signatures t);
  p_data : vector_fits bytes_fit (context_free_data t);
  p_transaction_size : packed_within transaction_codec (compression_limit c) (st_transaction t);
  p_data_size : packed_within context_free_data_codec (compression_limit c) (context_free_data t)
}.

Section roundtrip.
Context (hash : list Z -> sha256).
Context (deflate : list Z -> list Z) (inflate : list Z -> list (list Z) * bool).
Context (inflate_deflate : forall b, exists pieces, inflate (deflate b) = (pieces, true) /\ concat pieces = b).
Context (deflate_nonempty : forall b, deflate b <> []).
Context (deflate_fits : forall b, Z.of_nat (length b) <= decompression_limit -> bytes_fit (deflate b)).

Lemma zlib_roundtrip b :
  Z.of_nat (length b) <= decompression_limit -> zlib_decompress inflate (deflate b) = Ok b.
Proof.
  intros Hb. unfold zlib_decompress. destruct (inflate_deflate b) as (pieces & -> & <-).
  by rewrite limited_write_spec.
Qed.

(** What the switch of local_pack_transaction and the one of
    local_unpack_transaction compute. *)
Definition transaction_bytes (c : Z) (t : transaction) : outcome (list Z) :=
  if c =? compression_none then pack_transaction t
  else if c =? compression_zlib then zlib_compress_transaction deflate t
  else Err (Throw unknown_transaction_compression).

Definition data_bytes (c : Z) (cfd : list (list Z)) : outcome (list Z) :=
  if c =? compression_none then pack_context_free_data cfd
  else if c =? compression_zlib then zlib_compress_context_free_data deflate cfd
  else Err (Throw unknown_transaction_compression).

(** Decide the switch. *)
Ltac switch :=
  change (compression_none =? compression_none) with true in *;
  change (compression_zlib =? compression_none) with false in *;
  change (compression_zlib =? compression_zlib) with true in *;
  change (compression_limit compression_none) with MAX_SIZE_OF_BYTE_ARRAYS in *;
  change (compression_limit compression_zlib) with decompression_limit in *;
  cbv iota in *.

Lemma compression_limit_bound c : compression_limit c <= MAX_SIZE_OF_BYTE_ARRAYS.
Proof. unfold compression_limit. by case_match. Qed.

Lemma transaction_bytes_roundtrip c t :
  c = compression_none \/ c = compression_zlib -> transaction_fits t ->
  packed_within transaction_codec (compression_limit c) t ->
  exists bytes, transaction_bytes c t = Ok bytes /\ bytes_fit bytes /\
    (if c =? compression_none then unpack_transaction bytes
     else if c =? compression_zlib then zlib_decompress_transaction inflate bytes
     else Err (Throw unknown_transaction_compression)) = Ok t.
Proof.
  intros Hc Ht Hw. destruct (pack_total transaction_codec t Ht) as [ws Hp]. specialize (Hw ws Hp).
  pose proof (unpack_bytes transaction_codec t ws Ht Hp) as Hu. pose proof (compression_limit_bound c).
  assert (pack_transaction t = Ok (concat ws)) as Hv.
  { apply pack_vector_bytes; [done|]. unfold MAX_SIZE_OF_BYTE_ARRAYS in *. lia. }
  unfold transaction_bytes. destruct Hc as [-> | ->]; switch.
  - exists (concat ws). split; [exact Hv|]. split; [exact Hw|exact Hu].
  - exists (deflate (concat ws)). unfold zlib_compress_transaction, zlib_decompress_transaction.
    rewrite Hv. split; [reflexivity|]. split; [by apply deflate_fits|]. by rewrite zlib_roundtrip.
Qed.

Lemma varint_bytes_nonempty n v : concat (varint_bytes (S n) v) <> [].
Proof. cbn [varint_bytes concat app]. discriminate. Qed.

Lemma packed_data_nonempty cfd ws :
  cfd <> [] -> pack context_free_data_codec cfd = Ok ws -> concat ws <> [].
Proof.
  intros Hne Hp. unfold context_free_data_codec in Hp. cbn [pack vector_codec] in Hp.
  apply bind_ok in Hp as (? & _ & Hp). apply bind_ok in Hp as (w & Hw & Hp).
  apply bind_ok in Hp as (ws' & _ & [= <-]). rewrite concat_app. intros [E _]%app_eq_nil.
  apply (varint_bytes_nonempty 9 (u32 (Z.of_nat (length cfd)))). cbn [pack unsigned_int_codec] in Hw.
  apply (f_equal (fun r => match r with Ok x => x | Err _ => [] end)) in Hw. cbv beta iota in Hw.
  by rewrite Hw.
Qed.

Lemma data_bytes_roundtrip c cfd :
  c = compression_none \/ c = compression_zlib -> vector_fits bytes_fit cfd ->
  packed_within context_free_data_codec (compression_limit c) cfd ->
  exists bytes, data_bytes c cfd = Ok bytes /\ bytes_fit bytes /\ (bytes = [] <-> cfd = []) /\
    (if c =? compression_none then unpack_context_free_data bytes
     else if c =? compression_zlib then zlib_decompress_context_free_data inflate bytes
     else Err (Throw unknown_transaction_compression)) = Ok cfd.
Proof.
  intros Hc Hd Hw. destruct (pack_total context_free_data_codec cfd Hd) as [ws Hp]. specialize (Hw ws Hp).
  pose proof (unpack_bytes context_free_data_codec cfd ws Hd Hp) as Hu. pose proof (compression_limit_bound c).
  assert (pack_vector context_free_data_codec cfd = Ok (concat ws)) as Hv.
  { apply pack_vector_bytes; [done|]. unfold MAX_SIZE_OF_BYTE_ARRAYS in *. lia. }
  destruct (decide (cfd = [])) as [->|Hne].
  { exists []. by destruct Hc as [-> | ->]. }
  assert (length cfd <> 0%nat) as Hl by (by destruct cfd).
  pose proof (packed_data_nonempty cfd ws Hne Hp) as Hwne.
  unfold data_bytes, pack_context_free_data, zlib_compress_context_free_data, zlib_decompress_context_free_data,
    unpack_context_free_data, pack_context_free_data.
  rewrite (bool_decide_eq_false_2 (length cfd = 0%nat)) by done. rewrite Hv.
  destruct Hc as [-> | ->]; switch.
  - exists (concat ws). split_and!; [reflexivity|exact Hw|done|]. rewrite bool_decide_eq_false_2; [exact Hu|].
    by destruct (concat ws).
  - exists (deflate (concat ws)). split_and!; [reflexivity|by apply deflate_fits|split; [by intros ?%deflate_nonempty|done]|].
    rewrite bool_decide_eq_false_2.
    2: { pose proof (deflate_nonempty (concat ws)). by destruct (deflate (concat ws)). }
    rewrite zlib_roundtrip by done. cbn [mbind result_bind]. rewrite bool_decide_eq_false_2; [exact Hu|]. by destruct (concat ws).
Qed.

(** The packed transaction of [t]. *)
Lemma packed_of_signed_spec c t :
  packable c t ->
  exists bytes cfd id,
    transaction_bytes c (st_transaction t) = Ok bytes /\ data_bytes c (context_free_data t) = Ok cfd /\
    transaction_id hash (st_transaction t) = Ok id /\ bytes_fit bytes /\ bytes_fit cfd /\
    (cfd = [] <-> context_free_data t = []) /\
    packed_of_signed hash deflate t c = Ok (mk_packed_transaction (st_signatures t) c cfd bytes t id) /\
    (forall sigs pc old d, local_unpack_transaction hash inflate d (mk_packed_transaction sigs c pc bytes old zero_digest) =
       Ok (mk_packed_transaction sigs c pc bytes (mk_signed_transaction (st_transaction t) sigs d) id)) /\
    (forall sigs trx i, local_unpack_context_free_data inflate
       (mk_packed_transaction sigs c cfd bytes (mk_signed_transaction trx sigs []) i) =
       Ok (mk_packed_transaction sigs c cfd bytes (mk_signed_transaction trx sigs (context_free_data t)) i)).
Proof.
  intros [Hc Ht Hs Hd Hw1 Hw2].
  destruct (transaction_bytes_roundtrip c _ Hc Ht Hw1) as (bytes & Hb & Hbf & Hbu).
  destruct (data_bytes_roundtrip c _ Hc Hd Hw2) as (cfd & Hcfd & Hcf & Hne & Hcu).
  destruct (pack_total transaction_codec _ Ht) as [ws Hp].
  assert (transaction_id hash (st_transaction t) = Ok (hash (concat ws))) as Hid.
  { unfold transaction_id. by rewrite Hp. }
  exists bytes, cfd, (hash (concat ws)). split_and!; try assumption.
  - unfold packed_of_signed. rewrite Hid. cbn [mbind result_bind].
    unfold local_pack_transaction. cbn [unpacked_trx compression pt_signatures packed_context_free_data pt_trx_id].
    change (if c =? compression_none then _ else _) with (transaction_bytes c (st_transaction t)). rewrite Hb.
    cbn [mbind result_bind fc_capture_and_rethrow]. unfold local_pack_context_free_data.
    cbn [unpacked_trx compression pt_signatures packed_trx pt_trx_id].
    change (if c =? compression_none then _ else _) with (data_bytes c (context_free_data t)). rewrite Hcfd.
    reflexivity.
  - intros sigs pc old d. unfold local_unpack_transaction.
    cbn [unpacked_trx compression pt_signatures packed_trx packed_context_free_data].
    rewrite Hbu. cbn [mbind result_bind]. rewrite Hid. reflexivity.
  - intros sigs trx i. unfold local_unpack_context_free_data.
    cbn [unpacked_trx compression pt_signatures packed_trx packed_context_free_data context_free_data st_transaction
      st_signatures pt_trx_id].
    rewrite bool_decide_eq_true_2 by done. cbn [ine_assert mbind result_bind]. rewrite Hcu. reflexivity.
Qed.

(** C40: A signed transaction within its size limits is packed, with either
    compression, and read back: unpacking the bytes of the packed transaction
    gives the same packed transaction, its cached transaction, context free
    data and id included, whatever follows.  The other three constructors
    build the same object from its parts. *)
Theorem packed_transaction_roundtrip c t :
  packable c t ->
  exists p ws,
    packed_of_signed hash deflate t c = Ok p /\ unpacked_trx p = t /\
    transaction_id hash (st_transaction t) = Ok (pt_trx_id p) /\
    pack (packed_transaction_codec hash inflate) p = Ok ws /\
    (forall s, unpack (packed_transaction_codec hash inflate) (concat ws ++ s) = Ok (p, s)) /\
    packed_of_bytes hash inflate (packed_trx p) (st_signatures t) (packed_context_free_data p) c = Ok p /\
    packed_of_bytes_and_data hash deflate inflate (packed_trx p) (st_signatures t) (context_free_data t) c = Ok p /\
    packed_of_transaction hash deflate inflate (st_transaction t) (st_signatures t) (packed_context_free_data p) c = Ok p.
Proof.
  intros Hp. destruct (packed_of_signed_spec c t Hp) as
    (bytes & cfd & id & Hb & Hcfd & Hid & Hbf & Hcf & Hne & Hmk & Hun & Hund).
  destruct Hp as [Hc Ht Hs Hd _ _].
  assert (mk_signed_transaction (st_transaction t) (st_signatures t) (context_free_data t) = t) as Ht' by (by destruct t).
  destruct (unpack_pack packed_members_codec (st_signatures t, (c, (cfd, bytes))) []) as (ws & Hpk & _).
  { split; [exact Hs|]. split; [by destruct Hc as [-> | ->]|]. by split. }
  eexists _, ws. split; [exact Hmk|]. cbn [unpacked_trx pt_trx_id packed_trx packed_context_free_data].
  split_and!; [done|exact Hid|exact Hpk| | | |].
  - intros s. destruct (unpack_pack packed_members_codec (st_signatures t, (c, (cfd, bytes))) s) as (ws' & Hpk' & Hu).
    { split; [exact Hs|]. split; [by destruct Hc as [-> | ->]|]. by split. }
    rewrite Hpk in Hpk'. injection Hpk' as <-. cbn [unpack packed_transaction_codec]. rewrite Hu.
    cbn [mbind result_bind]. unfold packed_reflector_init. rewrite Z.eqb_refl by done.
    cbn [ine_assert mbind result_bind]. rewrite Hun. cbn [mbind result_bind]. rewrite Hund.
    cbn [mbind result_bind]. by rewrite Ht'.
  - unfold packed_of_bytes. rewrite Hun. cbn [mbind result_bind packed_context_free_data]. case_bool_decide as E.
    + apply Hne in E as E'. by rewrite <- E', Ht'.
    + by rewrite Hund, Ht'.
  - unfold packed_of_bytes_and_data. rewrite Hun. cbn [mbind result_bind unpacked_trx context_free_data].
    rewrite Ht'. case_bool_decide as E.
    + by rewrite (proj2 Hne E).
    + unfold local_pack_context_free_data. cbn [unpacked_trx compression pt_signatures packed_trx pt_trx_id].
      change (if c =? compression_none then _ else _) with (data_bytes c (context_free_data t)). by rewrite Hcfd.
  - unfold packed_of_transaction. rewrite Hid. cbn [mbind result_bind]. unfold local_pack_transaction.
    cbn [unpacked_trx compression pt_signatures packed_context_free_data pt_trx_id st_transaction].
    change (if c =? compression_none then _ else _) with (transaction_bytes c (st_transaction t)). rewrite Hb.
    cbn [mbind result_bind fc_capture_and_rethrow packed_context_free_data]. case_bool_decide as E.
    + apply Hne in E as E'. by rewrite <- E', Ht'.
    + by rewrite Hund, Ht'.
Qed.

End roundtrip.

(** ** The signed message *)

Section signatures.
Context (hash : list Z -> sha256).
Context (recover : signature -> sha256 -> outcome public_key).

(** The digest of the context free data that is signed. *)
Definition data_digest (cfd : list (list Z)) (bytes : list Z) : sha256 :=
  if bool_decide (cfd = []) then zero_digest else hash bytes.

Lemma sig_digest_message chain_id cfd t :
  transaction_fits t -> vector_fits bytes_fit cfd ->
  exists w1 w2 wd w3, pack sha256_codec chain_id = Ok w1 /\ pack transaction_codec t = Ok w2 /\
    pack context_free_data_codec cfd = Ok wd /\
    pack sha256_codec (data_digest cfd (concat wd)) = Ok w3 /\
    sig_digest hash chain_id cfd t = Ok (hash (concat (w1 ++ w2 ++ w3))).
Proof.
  intros Ht Hd. destruct (pack_total transaction_codec t Ht) as [w2 H2].
  destruct (pack_total context_free_data_codec cfd Hd) as [wd H3].
  do 4 eexists. split_and!; [reflexivity|exact H2|exact H3|reflexivity|]. unfold sig_digest.
  cbn [pack sha256_codec struct_codec mbind result_bind array_codec]. rewrite H2. cbn [mbind result_bind].
  unfold data_digest. destruct cfd as [|d cfd]; [reflexivity|].
  rewrite bool_decide_eq_true_2, bool_decide_eq_false_2 by done. rewrite H3. reflexivity.
Qed.

(** A signature covers the chain id, the whole transaction and the digest of
    the context free data: the digest is the hash of a message that determines
    the first two, and the third up to a collision of the hash, or a hash
    equal to the digest that stands for no data. *)
Theorem sig_digest_binds chain_id1 chain_id2 cfd1 cfd2 t1 t2 :
  sha256_fits chain_id1 -> sha256_fits chain_id2 ->
  transaction_fits t1 -> transaction_fits t2 ->
  vector_fits bytes_fit cfd1 -> vector_fits bytes_fit cfd2 -> (forall b, sha256_fits (hash b)) ->
  exists m1 m2 b1 b2,
    sig_digest hash chain_id1 cfd1 t1 = Ok (hash m1) /\ sig_digest hash chain_id2 cfd2 t2 = Ok (hash m2) /\
    pack context_free_data_codec cfd1 = Ok b1 /\ pack context_free_data_codec cfd2 = Ok b2 /\
    (m1 = m2 ->
     chain_id1 = chain_id2 /\ t1 = t2 /\
     (cfd1 = cfd2 \/
      concat b1 <> concat b2 /\ hash (concat b1) = hash (concat b2) \/
      cfd1 = [] /\ hash (concat b2) = zero_digest \/
      cfd2 = [] /\ hash (concat b1) = zero_digest)).
Proof.
  intros Hc1 Hc2 Ht1 Ht2 Hd1 Hd2 Hhash.
  destruct (sig_digest_message chain_id1 cfd1 t1 Ht1 Hd1) as (w1 & w2 & b1 & w3 & P1 & P2 & P3 & P4 & ->).
  destruct (sig_digest_message chain_id2 cfd2 t2 Ht2 Hd2) as (v1 & v2 & b2 & v3 & Q1 & Q2 & Q3 & Q4 & ->).
  do 4 eexists. split_and!; [reflexivity|reflexivity|exact P3|exact Q3|]. rewrite !concat_app. intros E.
  destruct (pack_prefix_inj sha256_codec _ _ _ _ _ _ Hc1 Hc2 P1 Q1 E) as [-> E2].
  destruct (pack_prefix_inj transaction_codec _ _ _ _ _ _ Ht1 Ht2 P2 Q2 E2) as [-> E3].
  split; [done|]. split; [done|].
  assert (forall d b, sha256_fits (data_digest d b)) as Hfits.
  { intros d b. unfold data_digest. case_bool_decide; [|apply Hhash]. by repeat split. }
  destruct (pack_prefix_inj sha256_codec _ _ _ _ [] [] (Hfits _ _) (Hfits _ _) P4 Q4) as [Ed _].
  { by rewrite !app_nil_r. }
  unfold data_digest in Ed. case_bool_decide as D1; case_bool_decide as D2.
  - left. congruence.
  - right. right. left. by rewrite Ed.
  - right. right. right. by rewrite Ed.
  - destruct (decide (concat b1 = concat b2)) as [Eb|Hne]; [|auto].
    left. apply (f_equal (fun l => l ++ [])) in Eb.
    by destruct (pack_prefix_inj context_free_data_codec _ _ _ _ _ _ Hd1 Hd2 P3 Q3 Eb).
Qed.

(** ** The recovered keys *)

Definition key_set (ks : list public_key) : list public_key :=
  foldl (fun s k => set_insert public_key_lt k s) [] ks.

Lemma recover_loop_spec deadline now dup digest i sigs acc keys :
  recover_loop recover deadline now dup digest i sigs acc = Ok keys <->
  (forall k, (k < length sigs)%nat -> now (i + k)%nat < deadline) /\
  exists ks, Forall2 (fun s k => recover s digest = Ok k) sigs ks /\
    (dup = true \/ NoDup ks /\ Forall (fun k => ~ (k ∈ acc)) ks) /\
    keys = foldl (fun s k => set_insert public_key_lt k s) acc ks.
Proof.
  revert i acc. induction sigs as [|s sigs IH]; intros i acc; cbn [recover_loop].
  { split.
    - intros [= ->]. split; [cbn; lia|]. exists []. split_and!; [constructor| |done]. right. split; constructor.
    - intros (_ & ks & Hks & _ & ->). by inversion Hks. }
  split.
  - intros H. apply bind_ok in H as ([] & Hn%ine_assert_ok & H). apply bind_ok in H as (k & Hk & H).
    apply bind_ok in H as ([] & Hd%ine_assert_ok & H). apply IH in H as (Hnow & ks & Hks & Hdup & ->).
    apply Z.ltb_lt in Hn. split.
    { intros [|j] Hj; cbn in Hj; [by rewrite Nat.add_0_r|]. rewrite Nat.add_succ_r. apply (Hnow j). lia. }
    exists (k :: ks). split_and!; [by constructor| |done].
    apply orb_prop in Hd as [Hd|Hd%negb_true_iff%bool_decide_eq_false]; [by left|].
    destruct Hdup as [?|[Hnd Hall]]; [by left|right]. split.
    + apply list.NoDup_cons. split; [|done]. intros Hin.
      apply (proj1 (list.Forall_forall _ _) Hall k Hin). by apply (elem_of_set_insert public_key_lt); left.
    + constructor; [done|]. eapply list.Forall_impl; [exact Hall|]. intros x Hx Hin. apply Hx.
      by apply (elem_of_set_insert public_key_lt); right.
  - intros (Hnow & ks & Hks & Hdup & ->). inversion Hks as [|? k ? ks' Hk Hks']; subst.
    pose proof (Hnow 0%nat) as H0. rewrite Nat.add_0_r in H0. cbn [length] in H0, Hnow.
    replace (now i <? deadline) with true by (symmetry; apply Z.ltb_lt, H0; lia).
    cbn [ine_assert mbind result_bind]. rewrite Hk. cbn [mbind result_bind].
    replace (dup || negb (bool_decide (k ∈ acc))) with true.
    2: { destruct Hdup as [->|[_ Hall]]; [done|]. apply list.Forall_cons in Hall as [Hn _].
         rewrite bool_decide_eq_false_2 by done. by destruct dup. }
    cbn [ine_assert mbind result_bind]. apply IH. split.
    { intros j Hj. specialize (Hnow (S j)). rewrite Nat.add_succ_r in Hnow. apply Hnow. lia. }
    exists ks'. split_and!; [done| |done]. destruct Hdup as [?|[Hnd Hall]]; [by left|right].
    apply list.NoDup_cons in Hnd as [Hnk Hnd]. apply list.Forall_cons in Hall as [_ Hall]. split; [done|].
    apply list.Forall_forall. intros x Hx [->|Hin]%(elem_of_set_insert public_key_lt); [done|].
    by apply (proj1 (list.Forall_forall _ _) Hall x).
Qed.

Lemma key_set_spec ks :
  StronglySorted (fun a b => public_key_lt a b = true) (key_set ks) /\ forall k, k ∈ key_set ks <-> k ∈ ks.
Proof.
  unfold key_set. induction ks as [|k ks [Hs He]] using rev_ind; [split; [constructor|done]|].
  rewrite foldl_snoc. split; [by apply (set_insert_sorted public_key_lt)|]. intros x.
  rewrite (elem_of_set_insert public_key_lt), He, elem_of_app, list_elem_of_singleton. tauto.
Qed.

(** Get_signature_keys succeeds exactly if every reading of the clock before
    a recovery is before the deadline, every signature recovers a key for the
    signed digest, and no two recover the same key unless that is allowed; the
    keys returned are then the ordered set of the recovered ones. *)
Theorem get_signature_keys_exact sigs chain_id deadline now cfd dup t elapsed keys :
  (get_signature_keys hash recover sigs chain_id deadline now cfd dup t = Ok (elapsed, keys) <->
   elapsed = i64 (now (S (length sigs)) - now 0%nat) /\
   (forall k, (k < length sigs)%nat -> now (S k) < deadline) /\
   exists digest ks, sig_digest hash chain_id cfd t = Ok digest /\
     Forall2 (fun s k => recover s digest = Ok k) sigs ks /\ (dup = true \/ NoDup ks) /\ keys = key_set ks) /\
  (forall ks, StronglySorted (fun a b => public_key_lt a b = true) (key_set ks) /\
              forall k, k ∈ key_set ks <-> k ∈ ks).
Proof.
  split; [|apply key_set_spec]. unfold get_signature_keys. split.
  - intros H. destruct (sig_digest hash chain_id cfd t) as [digest|e]; [|cbn in H; by destruct (is_std_exception e)].
    cbn [mbind result_bind] in H.
    destruct (recover_loop recover deadline now dup digest 1 sigs []) as [ks|e] eqn:E;
      [|cbn in H; by destruct (is_std_exception e)].
    cbn [mbind result_bind fc_capture_and_rethrow] in H. injection H as <- <-.
    apply recover_loop_spec in E as (Hnow & l & Hl & Hd & ->). split_and!; [done|exact Hnow|].
    exists digest, l. split_and!; [done|done| |done]. destruct Hd as [?|[? _]]; auto.
  - intros (-> & Hnow & digest & ks & -> & Hks & Hd & ->). cbn [mbind result_bind].
    replace (recover_loop recover deadline now dup digest 1 sigs []) with (@Ok exn _ (key_set ks)); [done|].
    symmetry. apply recover_loop_spec. split; [exact Hnow|]. exists ks. split_and!; [done| |done].
    destruct Hd as [?|?]; [by left|right]. split; [done|]. apply list.Forall_forall. intros k _. apply not_elem_of_nil.
Qed.

End signatures.

(** ** Reference blocks and extensions *)

(** A transaction is accepted for exactly the blocks whose number and second
    word agree with the reference in their low 16 and 32 bits; setting the
    reference to a block makes that block accepted. *)
Lemma reference_block_exact t id id' :
  (verify_reference_block id t = true <->
   ref_block_num t = num_from_id id mod 2 ^ 16 /\ ref_block_prefix t = h1 id mod 2 ^ 32) /\
  (verify_reference_block id (set_reference_block id' t) = true <->
   num_from_id id mod 2 ^ 16 = num_from_id id' mod 2 ^ 16 /\ h1 id mod 2 ^ 32 = h1 id' mod 2 ^ 32).
Proof.
  unfold verify_reference_block, set_reference_block, num_from_id, wrap.
  cbn [ref_block_num ref_block_prefix]. rewrite !andb_true_iff, !Z.eqb_eq. intuition congruence.
Qed.

(** The extensions of a transaction are accepted exactly if there are none
    or there is one, with id 0, that decodes as a generation context with a
    sender. *)
Lemma transaction_extensions_exact t r :
  validate_and_extract_extensions t = Ok r <->
  transaction_extensions t = [] /\ r = [] \/
  exists bytes c, transaction_extensions t = [(0, bytes)] /\
    unpack_vector generation_context_codec bytes = Ok c /\ sender c <> 0 /\ r = [(0, c)].
Proof.
  unfold validate_and_extract_extensions. destruct (transaction_extensions t) as [|[id bytes] exts].
  { cbn. split; [by intros [= <-]; left|]. by intros [[_ ->]|(? & ? & ? & _)]. }
  assert (forall id' b x, extract_transaction_extension id' b = Ok (Some x) <->
    id' = 0 /\ x.1 = true /\ unpack_vector generation_context_codec b = Ok x.2 /\ sender x.2 <> 0) as Hex.
  { intros id' b [u c]. unfold extract_transaction_extension. destruct (Z.eqb_spec id' generation_context_id) as [E|E].
    - split.
      + intros H. apply bind_ok in H as (c' & Hc & H). apply bind_ok in H as (? & Hs%ine_assert_ok & [= <- <-]).
        apply negb_true_iff, Z.eqb_neq in Hs. done.
      + intros (_ & Hu & Hc & Hs). cbn in *. subst u. rewrite Hc. cbn. unfold generation_context_reflector_init.
        by rewrite (proj2 (Z.eqb_neq _ _) Hs).
    - split; [done|]. by intros (? & _). }
  cbn [extract_transaction_loop]. split.
  - intros H. apply bind_ok in H as ([] & _ & H). apply bind_ok in H as ([[u x]|] & Hx & H); [|done].
    apply Hex in Hx as (-> & E & Hx & Hs). cbn in E. subst u. apply bind_ok in H as ([] & _ & H).
    apply bind_ok in H as (r' & Hr & [= <-]). destruct exts as [|[id' b'] exts].
    + cbn in Hr. injection Hr as <-. right. by exists bytes, x.
    + exfalso. cbn [extract_transaction_loop] in Hr. apply bind_ok in Hr as ([] & _ & Hr).
      apply bind_ok in Hr as ([[u y]|] & Hy & Hr); [|done]. apply Hex in Hy as (-> & E & _). cbn in E. subst u.
      by apply bind_ok in Hr as ([] & Hu%ine_assert_ok & _).
  - intros [[? _]|(b & c & [= -> -> ->] & Hc & Hs & ->)]; [done|].
    rewrite (proj2 (Hex 0 b (true, c))) by done. done.
Qed.

(** get_ref_blocknum returns its argument. *)
Lemma get_ref_blocknum_head t head_blocknum :
  is_uint 32 head_blocknum -> get_ref_blocknum t head_blocknum = head_blocknum.
Proof.
  intros [H0 H1]. unfold get_ref_blocknum. pose proof (Z.div_mod head_blocknum 0xffff ltac:(lia)) as E.
  pose proof (Z.mod_pos_bound head_blocknum 0xffff ltac:(lia)).
  rewrite (wrap_id 32 (head_blocknum / 65535 * 65535)) by (unfold is_uint; lia).
  rewrite wrap_id by (unfold is_uint; lia). lia.
Qed.

(** ** Examples *)

Definition example_action : action := mk_action 1 2 [mk_permission_level 3 4] [5; 6].

Definition example_transaction : transaction :=
  mk_transaction 100 1 2 0 0 0 [] [example_action] [].

Definition example_signed : signed_transaction :=
  mk_signed_transaction example_transaction [SIG_K1 (replicate 65 7)] [[1; 2; 3]].

Definition sum_hash (b : list Z) : sha256 := mk_sha256 (u64 (foldr Z.add 1 b)) 0 0 0.

(** A header byte and the data as it is. *)
Definition stored_deflate (b : list Z) : list Z := 120 :: b.
Definition stored_inflate (b : list Z) : list (list Z) * bool :=
  match b with 120 :: b' => ([b'], true) | _ => ([], false) end.

Lemma example_transaction_fits : transaction_fits example_transaction.
Proof.
  unfold transaction_fits, vector_fits, action_fits, permission_level_fits, bytes_fit, is_uint. cbn -[Z.pow].
  split_and!; try done; try lia; repeat constructor; cbn -[Z.pow]; try done; lia.
Qed.

Lemma example_packable c : c = compression_none \/ c = compression_zlib -> packable c example_signed.
Proof.
  intros Hc. split; [done|apply example_transaction_fits| | | |].
  - split; [done|]. by repeat constructor.
  - split; [done|]. by repeat constructor.
  - intros ws [= <-]. by destruct Hc as [-> | ->].
  - intros ws [= <-]. by destruct Hc as [-> | ->].
Qed.

Lemma packed_transaction_roundtrip_witness :
  exists p ws,
    packed_of_signed sum_hash stored_deflate example_signed compression_zlib = Ok p /\ unpacked_trx p = example_signed /\
    pack (packed_transaction_codec sum_hash stored_inflate) p = Ok ws /\
    unpack (packed_transaction_codec sum_hash stored_inflate) (concat ws ++ [9]) = Ok (p, [9]).
Proof.
  destruct (packed_transaction_roundtrip sum_hash stored_deflate stored_inflate) with (c := compression_zlib) (t := example_signed)
    as (p & ws & Hp & Hu & _ & Hpk & Hun & _).
  - intros b. exists [b]. split; [done|]. apply app_nil_r.
  - done.
  - intros b Hb. unfold bytes_fit, stored_deflate, decompression_limit, MAX_SIZE_OF_BYTE_ARRAYS in *. cbn [length]. lia.
  - apply example_packable. by right.
  - exists p, ws. split_and!; [done|done|done|apply Hun].
Defined.

Lemma sig_digest_binds_witness :
  exists m1 m2 b1 b2,
    sig_digest sum_hash zero_digest [[1]] example_transaction = Ok (sum_hash m1) /\
    sig_digest sum_hash zero_digest [[2]] example_transaction = Ok (sum_hash m2) /\
    pack context_free_data_codec [[1]] = Ok b1 /\ pack context_free_data_codec [[2]] = Ok b2 /\
    (m1 = m2 ->
     zero_digest = zero_digest /\ example_transaction = example_transaction /\
     ([[1]] = [[2]] \/
      concat b1 <> concat b2 /\ sum_hash (concat b1) = sum_hash (concat b2) \/
      [[1]] = [] /\ sum_hash (concat b2) = zero_digest \/
      [[2]] = [] /\ sum_hash (concat b1) = zero_digest)).
Proof.
  apply sig_digest_binds.
  - by repeat split.
  - by repeat split.
  - apply example_transaction_fits.
  - apply example_transaction_fits.
  - split; [done|]. by repeat constructor.
  - split; [done|]. by repeat constructor.
  - intros b. split_and!; try by split. apply wrap_range. lia.
Defined.
