(* ===== verification/ChainConfig.v ===== *)
(** * The configuration of the chain and its genesis

    Models chain_config.hpp and chain_config.cpp, the configuration that
    producers set, with its check and its comparison; genesis_state.hpp and
    genesis_state.cpp, whose serialization the id of the chain is the hash of;
    and the percentages of config.hpp.

    The theorems say which configurations pass the check, that a genesis state
    is read back from its serialization, and what the comparison of two
    configurations leaves out. *)

From S2P Require Import Prelude Exceptions Names Merkle Authority Raw Codecs BlockHeader UsageAccumulator ResourceLimits.

Record chain_config := mk_chain_config {
  max_block_net_usage : Z; (* uint64_t *)
  target_block_net_usage_pct : Z;
  max_transaction_net_usage : Z;
  base_per_transaction_net_usage : Z;
  net_usage_leeway : Z;
  context_free_discount_net_usage_num : Z;
  context_free_discount_net_usage_den : Z;
  max_block_cpu_usage : Z;
  target_block_cpu_usage_pct : Z;
  max_transaction_cpu_usage : Z;
  min_transaction_cpu_usage : Z;
  max_transaction_lifetime : Z;
  deferred_trx_expiration_window : Z;
  max_transaction_delay : Z;
  max_inline_action_size : Z;
  max_inline_action_depth : Z; (* uint16_t *)
  max_authority_depth : Z      (* uint16_t *)
}.

#[export] Instance chain_config_eq_dec : EqDecision chain_config.
Proof. solve_decision. Defined.

Definition percent_1 : Z := 100.
Definition min_net_usage_delta_between_base_and_max_for_trx : Z := 10 * 1024.

(** The differences are taken in uint32_t. *)
Definition validate (c : chain_config) : outcome unit :=
  let e := Throw action_validate_exception in
  ine_assert (target_block_net_usage_pct c <=? percent_100) e ;;
  ine_assert (target_block_net_usage_pct c >=? percent_1 / 10) e ;;
  ine_assert (target_block_cpu_usage_pct c <=? percent_100) e ;;
  ine_assert (target_block_cpu_usage_pct c >=? percent_1 / 10) e ;;
  ine_assert (max_transaction_net_usage c <? max_block_net_usage c) e ;;
  ine_assert (max_transaction_cpu_usage c <? max_block_cpu_usage c) e ;;
  ine_assert (base_per_transaction_net_usage c <? max_transaction_net_usage c) e ;;
  ine_assert (u32 (max_transaction_net_usage c - base_per_transaction_net_usage c)
                >=? min_net_usage_delta_between_base_and_max_for_trx) e ;;
  ine_assert (context_free_discount_net_usage_den c >? 0) e ;;
  ine_assert (context_free_discount_net_usage_num c <=? context_free_discount_net_usage_den c) e ;;
  ine_assert (min_transaction_cpu_usage c <=? max_transaction_cpu_usage c) e ;;
  ine_assert (max_transaction_cpu_usage c <? u32 (max_block_cpu_usage c - min_transaction_cpu_usage c)) e ;;
  ine_assert (1 <=? max_authority_depth c) e.

(** [operator ==], with the tuples it compares. *)
Definition tied (c : chain_config) : list Z :=
  [max_block_net_usage c; target_block_net_usage_pct c; max_transaction_net_usage c; base_per_transaction_net_usage c;
   net_usage_leeway c; context_free_discount_net_usage_num c; context_free_discount_net_usage_den c;
   max_block_cpu_usage c; target_block_cpu_usage_pct c; max_transaction_cpu_usage c; max_transaction_cpu_usage c;
   max_transaction_lifetime c; deferred_trx_expiration_window c; max_transaction_delay c; max_inline_action_size c;
   max_inline_action_depth c; max_authority_depth c].
Definition config_eqb (lhs rhs : chain_config) : bool := bool_decide (tied lhs = tied rhs).

(** The members in the order of FC_REFLECT. *)
Definition chain_config_members (c : chain_config) :=
  (max_block_net_usage c, (target_block_net_usage_pct c, (max_transaction_net_usage c, (base_per_transaction_net_usage c,
   (net_usage_leeway c, (context_free_discount_net_usage_num c, (context_free_discount_net_usage_den c,
    (max_block_cpu_usage c, (target_block_cpu_usage_pct c, (max_transaction_cpu_usage c, (min_transaction_cpu_usage c,
     (max_transaction_lifetime c, (deferred_trx_expiration_window c, (max_transaction_delay c,
      (max_inline_action_size c, (max_inline_action_depth c, max_authority_depth c)))))))))))))))).

Definition chain_config_codec : codec chain_config :=
  struct_codec chain_config_members
    (fun '(a, (b, (c, (d, (e, (f, (g, (h, (i, (j, (k, (l, (m, (n, (o, (p, q)))))))))))))))) =>
       mk_chain_config a b c d e f g h i j k l m n o p q)
    (pair_codec (uint_codec 8) (pair_codec (uint_codec 4) (pair_codec (uint_codec 4) (pair_codec (uint_codec 4)
      (pair_codec (uint_codec 4) (pair_codec (uint_codec 4) (pair_codec (uint_codec 4) (pair_codec (uint_codec 4)
        (pair_codec (uint_codec 4) (pair_codec (uint_codec 4) (pair_codec (uint_codec 4) (pair_codec (uint_codec 4)
          (pair_codec (uint_codec 4) (pair_codec (uint_codec 4) (pair_codec (uint_codec 4) (pair_codec (uint_codec 2)
            (uint_codec 2))))))))))))))))).

(** ** The genesis state *)

Record genesis_state := mk_genesis_state {
  initial_configuration : chain_config;
  initial_timestamp : Z;
  initial_key : public_key
}.

#[export] Instance genesis_state_eq_dec : EqDecision genesis_state.
Proof. solve_decision. Defined.

(** The configuration a genesis state starts from. *)
Definition default_configuration : chain_config :=
  mk_chain_config (1024 * 1024) (10 * percent_1) (1024 * 1024 / 2) 12 500 20 100 200000 (10 * percent_1)
    (3 * 200000 / 4) 100 (60 * 60) (10 * 60) (45 * 24 * 3600) (512 * 1024) 4 6.

(** A time_point is packed as its microseconds, as a uint64_t. *)
Definition time_point_codec : codec Z := struct_codec u64 i64 (uint_codec 8).

Definition genesis_state_codec : codec genesis_state :=
  struct_codec (fun g => (initial_timestamp g, (initial_key g, initial_configuration g)))
    (fun '(t, (k, c)) => mk_genesis_state c t k)
    (pair_codec time_point_codec (pair_codec public_key_codec chain_config_codec)).

Definition compute_chain_id (hash : list Z -> sha256) (g : genesis_state) : outcome sha256 :=
  ws ← pack genesis_state_codec g; Ok (hash (concat ws)).

(** [operator ==] of two genesis states. *)
Definition genesis_eqb (lhs rhs : genesis_state) : bool :=
  config_eqb (initial_configuration lhs) (initial_configuration rhs) &&
  (initial_timestamp lhs =? initial_timestamp rhs) && bool_decide (initial_key lhs = initial_key rhs).

(** ** Percentages *)

(** [INE_PERCENT_CEIL] of a number that is large enough. *)
Definition INE_PERCENT_CEIL (value percentage : Z) : Z := (value * percentage + percent_100 - percent_1) / percent_100.

(** ** Theorems *)

Definition config_typed (c : chain_config) : Prop :=
  is_uint 64 (max_block_net_usage c) /\ is_uint 32 (target_block_net_usage_pct c) /\ is_uint 32 (max_transaction_net_usage c) /\
  is_uint 32 (base_per_transaction_net_usage c) /\ is_uint 32 (net_usage_leeway c) /\
  is_uint 32 (context_free_discount_net_usage_num c) /\ is_uint 32 (context_free_discount_net_usage_den c) /\
  is_uint 32 (max_block_cpu_usage c) /\ is_uint 32 (target_block_cpu_usage_pct c) /\ is_uint 32 (max_transaction_cpu_usage c) /\
  is_uint 32 (min_transaction_cpu_usage c) /\ is_uint 32 (max_transaction_lifetime c) /\
  is_uint 32 (deferred_trx_expiration_window c) /\ is_uint 32 (max_transaction_delay c) /\
  is_uint 32 (max_inline_action_size c) /\ is_uint 16 (max_inline_action_depth c) /\ is_uint 16 (max_authority_depth c).

(** What the check asks for, in exact arithmetic. *)
Definition config_valid (c : chain_config) : Prop :=
  10 <= target_block_net_usage_pct c <= 10000 /\ 10 <= target_block_cpu_usage_pct c <= 10000 /\
  max_transaction_net_usage c < max_block_net_usage c /\
  base_per_transaction_net_usage c + 10240 <= max_transaction_net_usage c /\
  0 < context_free_discount_net_usage_den c /\ context_free_discount_net_usage_num c <= context_free_discount_net_usage_den c /\
  min_transaction_cpu_usage c <= max_transaction_cpu_usage c /\
  max_transaction_cpu_usage c + min_transaction_cpu_usage c < max_block_cpu_usage c /\ 1 <= max_authority_depth c.

Lemma ine_assert_and (a b : bool) (e : exn) : (ine_assert a e ;; ine_assert b e) = ine_assert (a && b) e.
Proof. by destruct a. Qed.

(** The check of a configuration passes exactly those that keep the
    targets between 0.1% and 100%, leave room for the base usage under the
    limit of a transaction, keep one transaction below the limits of a block
    even after the least billed time, and have a discount of at most 1 and
    authorities of depth at least 1; all others throw an
    action_validate_exception. *)
Theorem validate_exact c :
  config_typed c ->
  (validate c = Ok tt <-> config_valid c) /\ (validate c <> Ok tt -> validate c = Err (Throw action_validate_exception)).
Proof.
  intros Ht. unfold validate. cbv zeta. rewrite !ine_assert_and.
  match goal with |- context [ine_assert ?b _] => set (ok := b) end.
  assert (ok = true <-> config_valid c) as Hok.
  { unfold ok, config_valid, percent_1, percent_100, min_net_usage_delta_between_base_and_max_for_trx. clear ok.
    unfold config_typed, is_uint in Ht. rewrite !andb_true_iff.
    pose proof (wrap_id 32 (max_transaction_net_usage c - base_per_transaction_net_usage c)) as W1.
    pose proof (wrap_id 32 (max_block_cpu_usage c - min_transaction_cpu_usage c)) as W2. unfold is_uint in W1, W2.
    change (100 / 10) with 10. lia. }
  destruct ok; cbn; [split; [split; [intros _; by apply Hok|done]|done]|].
  split; [split; [done|intros H; by apply Hok in H]|done].
Qed.

Lemma default_configuration_valid : config_typed default_configuration /\ config_valid default_configuration.
Proof. split; [by vm_compute|vm_compute; intuition congruence]. Qed.

Lemma validate_exact_witness : validate default_configuration = Ok tt.
Proof. apply (validate_exact default_configuration); apply default_configuration_valid. Defined.

(** ** Serialization *)

Definition genesis_fits (g : genesis_state) : Prop :=
  0 <= initial_timestamp g <= INT64_MAX /\ public_key_fits (initial_key g) /\ config_typed (initial_configuration g).

#[export] Instance chain_config_lawful : Lawful chain_config_codec config_typed.
Proof. solve_struct. Qed.

#[export] Instance time_point_lawful : Lawful time_point_codec (fun t => 0 <= t <= INT64_MAX).
Proof.
  eapply lawful_weaken; [eapply (struct_lawful_on (fun t => 0 <= t <= INT64_MAX)); [|apply _]|].
  - intros t Ht. rewrite (wrap_id 64) by (unfold is_uint; lia). apply swrap_id; unfold is_sint; lia.
  - intros t Ht. split; [done|]. apply wrap_range. lia.
Qed.

#[export] Instance genesis_state_lawful : Lawful genesis_state_codec genesis_fits.
Proof. solve_struct. Qed.

(** The id of a chain binds its genesis: under a hash without collisions two
    genesis states with the same id are the same. *)
Lemma chain_id_binds hash g g' i :
  (forall x y, hash x = hash y -> x = y) -> genesis_fits g -> genesis_fits g' ->
  compute_chain_id hash g = Ok i -> compute_chain_id hash g' = Ok i -> g = g'.
Proof.
  intros Hh Hg Hg' H H'. unfold compute_chain_id in *. apply bind_ok in H as (ws & Hp & [= <-]).
  apply bind_ok in H' as (ws' & Hp' & [= E]). apply Hh in E.
  destruct (unpack_pack genesis_state_codec g [] Hg) as (w1 & P1 & U1).
  destruct (unpack_pack genesis_state_codec g' [] Hg') as (w2 & P2 & U2).
  assert (w1 = ws) as -> by congruence. assert (w2 = ws') as -> by congruence. rewrite E in U2. congruence.
Qed.

(** ** Comparison *)

(** The comparison of configurations does not look at the least time billed
    for a transaction: its place is taken by a second look at the greatest. *)
Lemma config_eqb_exact c d :
  config_eqb c d = true <->
  c = mk_chain_config (max_block_net_usage d) (target_block_net_usage_pct d) (max_transaction_net_usage d)
        (base_per_transaction_net_usage d) (net_usage_leeway d) (context_free_discount_net_usage_num d)
        (context_free_discount_net_usage_den d) (max_block_cpu_usage d) (target_block_cpu_usage_pct d)
        (max_transaction_cpu_usage d) (min_transaction_cpu_usage c) (max_transaction_lifetime d)
        (deferred_trx_expiration_window d) (max_transaction_delay d) (max_inline_action_size d)
        (max_inline_action_depth d) (max_authority_depth d).
Proof.
  unfold config_eqb. rewrite bool_decide_eq_true. destruct c, d. cbn. split.
  - intros [=]. by subst.
  - intros [=]. by subst.
Qed.

(** Two genesis states that compare equal may have different chain ids. *)
Lemma genesis_eqb_not_equal :
  exists g g', genesis_eqb g g' = true /\ g <> g'.
Proof.
  set (c m := mk_chain_config 1048576 1000 524288 12 500 20 100 200000 1000 150000 m 3600 600 3888000 524288 4 6).
  exists (mk_genesis_state (c 100) 0 (K1 [])), (mk_genesis_state (c 200) 0 (K1 [])).
  split; [by vm_compute|]. intros [=].
Qed.

(** [INE_PERCENT_CEIL] rounds down where it should round up. *)
Lemma percent_ceil_rounds_down : INE_PERCENT_CEIL 1 50 = 0 /\ ceil_div (1 * 50) percent_100 = 1.
Proof. by vm_compute. Qed.
