(* ===== verification/ProtocolFeatures.v ===== *)
(** * Protocol features

    Models protocol_feature_manager.hpp and protocol_feature_manager.cpp: the
    table of the builtin features, the feature specifications and their
    digests, the set of the features a node recognises
    (protocol_feature_set), and the manager that records which of them are
    activated and undoes activations when blocks are popped
    (protocol_feature_manager).

    An iterator of the ordered set of features is the digest it points at,
    which no insertion invalidates, or an end iterator; moving a set keeps
    the former and invalidates the latter.  The hash of a sequence of bytes
    is an argument ([hash]). *)

From Stdlib Require Import String.
From stdpp Require Import sorting.
From S2P Require Import Prelude Exceptions Text Merkle Authority Raw Codecs Hex BlockHeader.

(** ** Specifications *)

Inductive protocol_feature_t := builtin.

Inductive builtin_protocol_feature_t :=
  | preactivate_feature | only_link_to_existing_permission | replace_deferred
  | no_duplicate_deferred_id | fix_linkauth_restriction | disallow_empty_producer_schedule
  | restrict_action_to_self | only_bill_first_authorizer | forward_setcode | get_sender
  | mem_restrictions | webauthn_key | wtmsig_block_signatures.

#[export] Instance builtin_protocol_feature_t_eq_dec : EqDecision builtin_protocol_feature_t.
Proof. solve_decision. Defined.

(** [static_cast<uint32_t>] of the two enumerations. *)
Definition type_index (t : protocol_feature_t) : Z := match t with builtin => 0 end.

Definition feature_index (c : builtin_protocol_feature_t) : Z :=
  match c with
  | preactivate_feature => 0
  | only_link_to_existing_permission => 1
  | replace_deferred => 2
  | no_duplicate_deferred_id => 3
  | fix_linkauth_restriction => 4
  | disallow_empty_producer_schedule => 5
  | restrict_action_to_self => 6
  | only_bill_first_authorizer => 7
  | forward_setcode => 8
  | get_sender => 9
  | mem_restrictions => 10
  | webauthn_key => 11
  | wtmsig_block_signatures => 12
  end.

Record protocol_feature_subjective_restrictions := mk_restrictions {
  earliest_allowed_activation_time : Z;
  preactivation_required : bool;
  enabled : bool
}.

Record builtin_protocol_feature_spec := mk_spec {
  spec_codename : list ascii;
  spec_description_digest : sha256;
  spec_builtin_dependencies : list builtin_protocol_feature_t;
  spec_subjective_restrictions : protocol_feature_subjective_restrictions
}.

(** [fc::variant( literal ).as<digest_type>()]; every literal of the table
    reads (lemma [description_digests_read]). *)
Definition digest_literal (s : String.string) : sha256 :=
  match sha256_from_variant (lit s) with Ok d => d | Err _ => mk_sha256 0 0 0 0 end.

Definition builtin_protocol_feature_codenames :
  list (builtin_protocol_feature_t * builtin_protocol_feature_spec) :=
  [(preactivate_feature, mk_spec (lit "PREACTIVATE_FEATURE"%string)
      (digest_literal "64fe7df32e9b86be2b296b3f81dfd527f84e82b98e363bc97e40bc7a83733310"%string)
      [] (mk_restrictions 0 false true));
   (only_link_to_existing_permission, mk_spec (lit "ONLY_LINK_TO_EXISTING_PERMISSION"%string)
      (digest_literal "f3c3d91c4603cde2397268bfed4e662465293aab10cd9416db0d442b8cec2949"%string)
      [] (mk_restrictions 0 true true));
   (replace_deferred, mk_spec (lit "REPLACE_DEFERRED"%string)
      (digest_literal "9908b3f8413c8474ab2a6be149d3f4f6d0421d37886033f27d4759c47a26d944"%string)
      [] (mk_restrictions 0 true true));
   (no_duplicate_deferred_id, mk_spec (lit "NO_DUPLICATE_DEFERRED_ID"%string)
      (digest_literal "45967387ee92da70171efd9fefd1ca8061b5efe6f124d269cd2468b47f1575a0"%string)
      [replace_deferred] (mk_restrictions 0 true true));
   (fix_linkauth_restriction, mk_spec (lit "FIX_LINKAUTH_RESTRICTION"%string)
      (digest_literal "a98241c83511dc86c857221b9372b4aa7cea3aaebc567a48604e1d3db3557050"%string)
      [] (mk_restrictions 0 true true));
   (disallow_empty_producer_schedule, mk_spec (lit "DISALLOW_EMPTY_PRODUCER_SCHEDULE"%string)
      (digest_literal "2853617cec3eabd41881eb48882e6fc5e81a0db917d375057864b3befbe29acd"%string)
      [] (mk_restrictions 0 true true));
   (restrict_action_to_self, mk_spec (lit "RESTRICT_ACTION_TO_SELF"%string)
      (digest_literal "e71b6712188391994c78d8c722c1d42c477cf091e5601b5cf1befd05721a57f3"%string)
      [] (mk_restrictions 0 true true));
   (only_bill_first_authorizer, mk_spec (lit "ONLY_BILL_FIRST_AUTHORIZER"%string)
      (digest_literal "2f1f13e291c79da5a2bbad259ed7c1f2d34f697ea460b14b565ac33b063b73e2"%string)
      [] (mk_restrictions 0 true true));
   (forward_setcode, mk_spec (lit "FORWARD_SETCODE"%string)
      (digest_literal "898082c59f921d0042e581f00a59d5ceb8be6f1d9c7a45b6f07c0e26eaee0222"%string)
      [] (mk_restrictions 0 true true));
   (get_sender, mk_spec (lit "GET_SENDER"%string)
      (digest_literal "1eab748b95a2e6f4d7cb42065bdee5566af8efddf01a55a0a8d831b823f8828a"%string)
      [] (mk_restrictions 0 true true));
   (mem_restrictions, mk_spec (lit "MEM_RESTRICTIONS"%string)
      (digest_literal "1812fdb5096fd854a4958eb9d53b43219d114de0e858ce00255bd46569ad2c68"%string)
      [] (mk_restrictions 0 true true));
   (webauthn_key, mk_spec (lit "WEBAUTHN_KEY"%string)
      (digest_literal "927fdf78c51e77a899f2db938249fb1f8bb38f4e43d9c1f75b190492080cbc34"%string)
      [] (mk_restrictions 0 true true));
   (wtmsig_block_signatures, mk_spec (lit "WTMSIG_BLOCK_SIGNATURES"%string)
      (digest_literal "ab76031cad7a457f4fd5f5fca97a3f03b8a635278e0416f77dcc91eb99a48e10"%string)
      [] (mk_restrictions 0 true true))].

(** [builtin_protocol_feature_codenames.find( codename )] *)
Definition find_spec (codename : builtin_protocol_feature_t) : option builtin_protocol_feature_spec :=
  snd <$> List.find (fun p => bool_decide (p.1 = codename)) builtin_protocol_feature_codenames.

Definition builtin_protocol_feature_codename (codename : builtin_protocol_feature_t) :
  outcome (list ascii) :=
  match find_spec codename with
  | Some spec => Ok (spec_codename spec)
  | None => Err (Throw protocol_feature_validation_exception)
  end.

(** builtin_protocol_feature with the members of its base. *)
Record builtin_protocol_feature := mk_builtin_protocol_feature {
  protocol_feature_type : list ascii;
  description_digest : sha256;
  dependencies : list sha256;
  subjective_restrictions : protocol_feature_subjective_restrictions;
  f_type : protocol_feature_t;
  builtin_feature_codename : list ascii;
  f_codename : builtin_protocol_feature_t
}.

Definition feature_type_string : list ascii := lit "builtin"%string.

(** The constructor, with that of the base. *)
Definition new_builtin_protocol_feature (codename : builtin_protocol_feature_t)
    (description : sha256) (deps : list sha256)
    (restrictions : protocol_feature_subjective_restrictions) : outcome builtin_protocol_feature :=
  match find_spec codename with
  | Some spec =>
      Ok (mk_builtin_protocol_feature feature_type_string description deps restrictions builtin
            (spec_codename spec) codename)
  | None => Err (Throw protocol_feature_validation_exception)
  end.

(** [reflector_init] of the class and of its base, run when one is read from
    a file: the two protected members are computed from the two strings. *)
Definition feature_reflector_init (f : builtin_protocol_feature) : outcome builtin_protocol_feature :=
  ine_assert (bool_decide (protocol_feature_type f = feature_type_string))
    (Throw protocol_feature_validation_exception) ;;
  match List.find (fun p => bool_decide (builtin_feature_codename f = spec_codename p.2))
          builtin_protocol_feature_codenames with
  | Some p =>
      Ok (mk_builtin_protocol_feature (protocol_feature_type f) (description_digest f)
            (dependencies f) (subjective_restrictions f) builtin (builtin_feature_codename f) p.1)
  | None => Err (Throw protocol_feature_validation_exception)
  end.

(** [builtin_protocol_feature::digest]: the enumerations are not reflected,
    so they are packed as the four bytes they are. *)
Definition feature_digest (hash : list Z -> sha256) (f : builtin_protocol_feature) : outcome sha256 :=
  w1 ← pack (uint_codec 4) (type_index (f_type f));
  w2 ← pack sha256_codec (description_digest f);
  w3 ← pack (set_codec sha256_lt sha256_codec) (dependencies f);
  w4 ← pack (uint_codec 4) (feature_index (f_codename f));
  Ok (hash (concat (w1 ++ w2 ++ w3 ++ w4))).

(** ** The set of recognised features *)

Record protocol_feature := mk_protocol_feature {
  pf_feature_digest : sha256;
  pf_description_digest : sha256;
  pf_dependencies : list sha256;
  pf_earliest_allowed_activation_time : Z;
  pf_preactivation_required : bool;
  pf_enabled : bool;
  builtin_feature : option builtin_protocol_feature_t
}.

(** An iterator of the ordered set: at an element, at the end of this set, or
    the end iterator of a set that was moved from. *)
Inductive set_iterator := At (d : sha256) | End | Stale_end.

#[export] Instance set_iterator_eq_dec : EqDecision set_iterator.
Proof. solve_decision. Defined.

Record protocol_feature_set := mk_protocol_feature_set {
  recognized_protocol_features : gmap sha256 protocol_feature;
  recognized_builtin_protocol_features : list set_iterator
}.

Definition empty_feature_set : protocol_feature_set := mk_protocol_feature_set ∅ [].

(** [it == _recognized_protocol_features.end()]: an invalidated iterator may
    not be compared. *)
Definition is_end (it : set_iterator) : outcome bool :=
  match it with At _ => Ok false | End => Ok true | Stale_end => Err undefined_behaviour end.

Inductive recognized_t := unrecognized | disabled | too_early | ready.

Definition is_recognized (s : protocol_feature_set) (digest : sha256) (now : Z) : recognized_t :=
  match recognized_protocol_features s !! digest with
  | None => unrecognized
  | Some f =>
      if negb (pf_enabled f) then disabled else
      if pf_earliest_allowed_activation_time f >? now then too_early else ready
  end.

(** [v[indx]] of a vector, for an index below its size. *)
Definition get_builtin_digest (s : protocol_feature_set) (codename : builtin_protocol_feature_t) :
  outcome (option sha256) :=
  match recognized_builtin_protocol_features s !! Z.to_nat (feature_index codename) with
  | None => Ok None
  | Some it =>
      at_end ← is_end it;
      if (at_end : bool) then Ok None else
      match it with At d => Ok (Some d) | _ => Err undefined_behaviour end
  end.

Definition get_protocol_feature (s : protocol_feature_set) (digest : sha256) :
  outcome protocol_feature :=
  match recognized_protocol_features s !! digest with
  | Some f => Ok f
  | None => Err (Throw protocol_feature_exception)
  end.

Definition validate_dependencies (s : protocol_feature_set) (digest : sha256)
    (validator : sha256 -> bool) : bool :=
  match recognized_protocol_features s !! digest with
  | None => false
  | Some f => forallb validator (pf_dependencies f)
  end.

(** The loop over the builtin dependencies of a codename. *)
Fixpoint handle_dependencies (handle_dependency : builtin_protocol_feature_t -> outcome sha256)
    (l : list builtin_protocol_feature_t) (acc : list sha256) : outcome (list sha256) :=
  match l with
  | [] => Ok acc
  | d :: l' =>
      digest ← handle_dependency d;
      handle_dependencies handle_dependency l' (set_insert sha256_lt digest acc)
  end.

Definition make_default_builtin_protocol_feature (codename : builtin_protocol_feature_t)
    (handle_dependency : builtin_protocol_feature_t -> outcome sha256) :
  outcome builtin_protocol_feature :=
  match find_spec codename with
  | None => Err (Throw protocol_feature_validation_exception)
  | Some spec =>
      deps ← handle_dependencies handle_dependency (spec_builtin_dependencies spec) [];
      new_builtin_protocol_feature codename (spec_description_digest spec) deps
        (spec_subjective_restrictions spec)
  end.

Definition codename_lt (a b : builtin_protocol_feature_t) : bool := feature_index a <? feature_index b.

(** The loop over the dependencies of a feature: all are recognised, and the
    expected builtin dependencies among them are collected. *)
Fixpoint satisfied_dependencies (s : protocol_feature_set)
    (expected : list builtin_protocol_feature_t) (deps : list sha256)
    (satisfied : list builtin_protocol_feature_t) : outcome (list builtin_protocol_feature_t) :=
  match deps with
  | [] => Ok satisfied
  | d :: deps' =>
      match recognized_protocol_features s !! d with
      | None => Err (Throw protocol_feature_exception)
      | Some f =>
          let satisfied' :=
            match builtin_feature f with
            | Some c => if bool_decide (c ∈ expected) then set_insert codename_lt c satisfied
                        else satisfied
            | None => satisfied
            end in
          satisfied_dependencies s expected deps' satisfied'
      end
  end.

(** The names of the missing dependencies, for the message. *)
Fixpoint missing_names (missing : list builtin_protocol_feature_t) : outcome unit :=
  match missing with
  | [] => Ok tt
  | c :: missing' =>
      ine_assert (bool_decide (is_Some (find_spec c))) (Throw protocol_feature_exception) ;;
      missing_names missing'
  end.

(** [v.push_back( end() )] until [indx] is an index, then [v[indx] = it]. *)
Definition set_builtin (indx : Z) (it : set_iterator) (v : list set_iterator) : list set_iterator :=
  <[Z.to_nat indx := it]> (v ++ repeat End (Z.to_nat indx + 1 - length v)).

Definition add_feature (hash : list Z -> sha256) (s : protocol_feature_set)
    (f : builtin_protocol_feature) : outcome protocol_feature_set :=
  match find_spec (f_codename f) with
  | None => Err (Throw protocol_feature_validation_exception)
  | Some spec =>
      let indx := feature_index (f_codename f) in
      match recognized_builtin_protocol_features s !! Z.to_nat indx with
      | None => Ok tt
      | Some it => at_end ← is_end it; ine_assert at_end (Throw protocol_feature_exception)
      end ;;
      digest ← feature_digest hash f;
      let expected := spec_builtin_dependencies spec in
      satisfied ← satisfied_dependencies s expected (dependencies f) [];
      (if bool_decide (length satisfied < length expected)%nat
       then missing_names (filter (fun c => c ∉ satisfied) expected) ;;
            Err (Throw protocol_feature_validation_exception)
       else Ok tt) ;;
      ine_assert (bool_decide (recognized_protocol_features s !! digest = None))
        (Throw protocol_feature_exception) ;;
      let r := subjective_restrictions f in
      Ok (mk_protocol_feature_set
            (<[digest := mk_protocol_feature digest (description_digest f) (dependencies f)
                           (earliest_allowed_activation_time r) (preactivation_required r)
                           (enabled r) (Some (f_codename f))]> (recognized_protocol_features s))
            (set_builtin indx (At digest) (recognized_builtin_protocol_features s)))
  end.

(** ** The manager *)

Record protocol_feature_entry := mk_protocol_feature_entry {
  iterator_to_protocol_feature : sha256;
  pe_activation_block_num : Z
}.

Definition no_previous : Z := UINT64_MAX.
Definition not_active : Z := UINT32_MAX.

Record builtin_protocol_feature_entry := mk_builtin_entry {
  be_previous : Z;
  be_activation_block_num : Z
}.

Definition inactive_entry : builtin_protocol_feature_entry := mk_builtin_entry no_previous not_active.

Record protocol_feature_manager := mk_protocol_feature_manager {
  m_protocol_feature_set : protocol_feature_set;
  m_activated_protocol_features : list protocol_feature_entry;
  m_builtin_protocol_features : list builtin_protocol_feature_entry;
  m_head_of_builtin_activation_list : Z;
  m_initialized : bool
}.

(** The move constructor of the set: its end iterators do not follow. *)
Definition move_set (s : protocol_feature_set) : protocol_feature_set :=
  mk_protocol_feature_set (recognized_protocol_features s)
    ((fun it => match it with At d => At d | _ => Stale_end end)
       <$> recognized_builtin_protocol_features s).

Definition new_manager (pfs : protocol_feature_set) : protocol_feature_manager :=
  mk_protocol_feature_manager (move_set pfs) []
    (repeat inactive_entry (length (recognized_builtin_protocol_features pfs))) no_previous false.

Definition pfm_is_builtin_activated (m : protocol_feature_manager)
    (codename : builtin_protocol_feature_t) (current_block_num : Z) : bool :=
  match m_builtin_protocol_features m !! Z.to_nat (feature_index codename) with
  | None => false
  | Some e => be_activation_block_num e <=? current_block_num
  end.

(** Every check comes before the first assignment. *)
Definition activate_feature (m : protocol_feature_manager) (digest : sha256)
    (current_block_num : Z) : outcome protocol_feature_manager :=
  ine_assert (m_initialized m) (Throw protocol_feature_exception) ;;
  match recognized_protocol_features (m_protocol_feature_set m) !! digest with
  | None => Err (Throw protocol_feature_exception)
  | Some f =>
      match back (m_activated_protocol_features m) with
      | None => Ok tt
      | Some last => ine_assert (pe_activation_block_num last <=? current_block_num)
                       (Throw protocol_feature_exception)
      end ;;
      match builtin_feature f with
      | None => Err (Throw protocol_feature_exception)
      | Some c =>
          let indx := feature_index c in
          match m_builtin_protocol_features m !! Z.to_nat indx with
          | None => Err (Throw protocol_feature_exception)
          | Some e =>
              ine_assert (be_activation_block_num e =? not_active)
                (Throw protocol_feature_exception) ;;
              Ok (mk_protocol_feature_manager (m_protocol_feature_set m)
                    (m_activated_protocol_features m ++
                       [mk_protocol_feature_entry digest current_block_num])
                    (<[Z.to_nat indx := mk_builtin_entry (m_head_of_builtin_activation_list m)
                                          current_block_num]> (m_builtin_protocol_features m))
                    indx (m_initialized m))
          end
      end
  end.

Definition set_initialized (b : bool) (m : protocol_feature_manager) : protocol_feature_manager :=
  mk_protocol_feature_manager (m_protocol_feature_set m) (m_activated_protocol_features m)
    (m_builtin_protocol_features m) (m_head_of_builtin_activation_list m) b.

(** The loop of [init] over the activated features of the database: the
    manager it leaves, and the exception that stopped it. *)
Fixpoint init_loop (m : protocol_feature_manager) (l : list (sha256 * Z)) :
  protocol_feature_manager * outcome unit :=
  match l with
  | [] => (m, Ok tt)
  | (digest, num) :: l' =>
      match activate_feature m digest num with
      | Ok m' => init_loop m' l'
      | Err e => (m, Err e)
      end
  end.

(** The scoped exit resets [_initialized] when an activation throws; the
    activations before it stay. *)
Definition pfm_init (activated : list (sha256 * Z)) :
  stateful exn protocol_feature_manager unit :=
  fun m =>
    if m_initialized m then (m, Err (Throw protocol_feature_exception)) else
    match init_loop (set_initialized true m) activated with
    | (m', Ok _) => (m', Ok tt)
    | (m', Err e) => (set_initialized false m', Err e)
    end.

(** The first loop of [popped_blocks_to]: follow the list from its head and
    reset the entries above [block_num].  [None] when the fuel runs out. *)
Fixpoint pop_builtins (fuel : nat) (block_num head : Z) (v : list builtin_protocol_feature_entry) :
  option (outcome (Z * list builtin_protocol_feature_entry)) :=
  match fuel with
  | O => None
  | S fuel' =>
      if head =? no_previous then Some (Ok (head, v)) else
      match v !! Z.to_nat head with
      | None => Some (Err undefined_behaviour)
      | Some e =>
          if be_activation_block_num e <=? block_num then Some (Ok (head, v)) else
          pop_builtins fuel' block_num (be_previous e) (<[Z.to_nat head := inactive_entry]> v)
      end
  end.

(** The second loop, on the vector with its last element first. *)
Fixpoint pop_back_while (block_num : Z) (l : list protocol_feature_entry) : list protocol_feature_entry :=
  match l with
  | [] => []
  | e :: l' => if block_num <? pe_activation_block_num e then pop_back_while block_num l' else l
  end.

Definition popped_blocks_to (m : protocol_feature_manager) (block_num : Z) :
  option (outcome protocol_feature_manager) :=
  if negb (m_initialized m) then Some (Err (Throw protocol_feature_exception)) else
  match pop_builtins (S (length (m_builtin_protocol_features m))) block_num
          (m_head_of_builtin_activation_list m) (m_builtin_protocol_features m) with
  | None => None
  | Some (Err e) => Some (Err e)
  | Some (Ok (head, v)) =>
      Some (Ok (mk_protocol_feature_manager (m_protocol_feature_set m)
                  (reverse (pop_back_while block_num (reverse (m_activated_protocol_features m))))
                  v head (m_initialized m)))
  end.

(** *** Iterators over the activated features *)

(** [it_pfm] is false for a singular iterator. *)
Record pfm_iterator := mk_pfm_iterator { it_pfm : bool; it_index : Z }.

Definition end_index : Z := UINT64_MAX.

Definition cend : pfm_iterator := mk_pfm_iterator true end_index.

Definition cbegin (m : protocol_feature_manager) : pfm_iterator :=
  if bool_decide (length (m_activated_protocol_features m) = 0)%nat then cend
  else mk_pfm_iterator true 0.

Definition at_activation_ordinal (m : protocol_feature_manager) (activation_ordinal : Z) : pfm_iterator :=
  if activation_ordinal >=? Z.of_nat (length (m_activated_protocol_features m)) then cend
  else mk_pfm_iterator true activation_ordinal.

(** The two checks of the accessors. *)
Definition check_iterator (it : pfm_iterator) : outcome unit :=
  ine_assert (it_pfm it) (Throw protocol_feature_iterator_exception) ;;
  ine_assert (negb (it_index it =? end_index)) (Throw protocol_feature_iterator_exception).

Definition activation_ordinal (it : pfm_iterator) : outcome Z :=
  check_iterator it ;; Ok (u32 (it_index it)).

Definition activation_block_num (m : protocol_feature_manager) (it : pfm_iterator) : outcome Z :=
  check_iterator it ;;
  match m_activated_protocol_features m !! Z.to_nat (it_index it) with
  | Some e => Ok (pe_activation_block_num e)
  | None => Err undefined_behaviour
  end.

(** [operator++] *)
Definition iterator_incr (m : protocol_feature_manager) (it : pfm_iterator) : outcome pfm_iterator :=
  check_iterator it ;;
  let index := u64 (it_index it + 1) in
  Ok (mk_pfm_iterator true
        (if index >=? Z.of_nat (length (m_activated_protocol_features m)) then end_index else index)).

(** [operator--] *)
Definition iterator_decr (m : protocol_feature_manager) (it : pfm_iterator) : outcome pfm_iterator :=
  ine_assert (it_pfm it) (Throw protocol_feature_iterator_exception) ;;
  let size := Z.of_nat (length (m_activated_protocol_features m)) in
  if it_index it =? end_index then
    ine_assert (size >? 0) (Throw protocol_feature_iterator_exception) ;;
    Ok (mk_pfm_iterator true (u64 (size - 1)))
  else
    ine_assert (it_index it >? 0) (Throw protocol_feature_iterator_exception) ;;
    Ok (mk_pfm_iterator true (it_index it - 1)).

(** [const_iterator{this, itr - begin}], or the end. *)
Definition iterator_at (m : protocol_feature_manager) (o : option nat) : option pfm_iterator :=
  i ← o;
  Some (if bool_decide (i = length (m_activated_protocol_features m)) then cend
        else mk_pfm_iterator true (Z.of_nat i)).

Definition pfm_lower_bound (m : protocol_feature_manager) (block_num : Z) : option pfm_iterator :=
  iterator_at m (std_lower_bound (fun e => pe_activation_block_num e <? block_num)
                   (m_activated_protocol_features m)).

Definition pfm_upper_bound (m : protocol_feature_manager) (block_num : Z) : option pfm_iterator :=
  iterator_at m (std_upper_bound (fun e => block_num <? pe_activation_block_num e)
                   (m_activated_protocol_features m)).

(** ** The table *)

Lemma feature_index_inj c c' : feature_index c = feature_index c' -> c = c'.
Proof. destruct c, c'; done. Qed.

Lemma feature_index_range c : 0 <= feature_index c < 13.
Proof. destruct c; simpl; lia. Qed.

#[export] Instance codename_lt_strict : StrictTotal codename_lt.
Proof. apply (strict_total_inj feature_index Z.ltb); [apply feature_index_inj|done|apply _]. Qed.

Lemma find_spec_total c : is_Some (find_spec c).
Proof. apply (bool_decide_unpack _). destruct c; vm_compute; exact I. Qed.

Lemma expected_NoDup c spec : find_spec c = Some spec -> NoDup (spec_builtin_dependencies spec).
Proof.
  intros H. apply (bool_decide_unpack _). revert H.
  destruct c; intros H; injection H as <-; vm_compute; exact I.
Qed.

(** Every description digest of the table was read from its literal. *)
Lemma description_digests_read :
  Forall (fun p => spec_description_digest p.2 <> mk_sha256 0 0 0 0) builtin_protocol_feature_codenames.
Proof. repeat (constructor; [vm_compute; intros [=]|]). constructor. Qed.

(** ** The invariant of the set *)

(** [d] is a recognised feature, found under its codename, whose dependencies
    are among [before] and include a feature for each of the builtin
    dependencies of its codename. *)
Definition feature_ok (s : protocol_feature_set) (before : list sha256) (d : sha256) : Prop :=
  exists f c spec,
    recognized_protocol_features s !! d = Some f /\ pf_feature_digest f = d /\
    builtin_feature f = Some c /\ find_spec c = Some spec /\
    recognized_builtin_protocol_features s !! Z.to_nat (feature_index c) = Some (At d) /\
    (forall x, x ∈ pf_dependencies f -> x ∈ before) /\
    (forall c', c' ∈ spec_builtin_dependencies spec ->
       exists x fx, x ∈ pf_dependencies f /\ recognized_protocol_features s !! x = Some fx /\
                    builtin_feature fx = Some c').

(** The features can be listed such that dependencies come first, and the
    vector of builtin features refers to them. *)
Definition feature_set_ok (s : protocol_feature_set) : Prop :=
  (exists order,
     (forall d, is_Some (recognized_protocol_features s !! d) <-> d ∈ order) /\
     (forall pre d post, order = pre ++ (d :: post) -> ~ (d ∈ pre) /\ feature_ok s pre d)) /\
  (forall i it, recognized_builtin_protocol_features s !! i = Some it ->
     it = End \/
     exists d f c, it = At d /\ recognized_protocol_features s !! d = Some f /\
                   builtin_feature f = Some c /\ Z.to_nat (feature_index c) = i).

Lemma satisfied_dependencies_ok s expected deps sat sat' :
  satisfied_dependencies s expected deps sat = Ok sat' ->
  StronglySorted (fun a b => codename_lt a b = true) sat ->
  StronglySorted (fun a b => codename_lt a b = true) sat' /\
  (forall d, d ∈ deps -> is_Some (recognized_protocol_features s !! d)) /\
  (forall c, c ∈ sat' -> c ∈ sat \/
     c ∈ expected /\ exists x fx, x ∈ deps /\ recognized_protocol_features s !! x = Some fx /\
                                  builtin_feature fx = Some c).
Proof.
  revert sat. induction deps as [|d deps IH]; intros sat H Hs; cbn [satisfied_dependencies] in H.
  { injection H as <-. split_and!; [done|set_solver|auto]. }
  destruct (recognized_protocol_features s !! d) as [f|] eqn:Hf; [|done].
  assert (exists sat1, satisfied_dependencies s expected deps sat1 = Ok sat' /\
            StronglySorted (fun a b => codename_lt a b = true) sat1 /\
            (forall c, c ∈ sat1 -> c ∈ sat \/ c ∈ expected /\ builtin_feature f = Some c))
    as (sat1 & H1 & Hs1 & Hin1).
  { destruct (builtin_feature f) as [c|] eqn:Hc; [|by eauto 6].
    destruct (bool_decide_reflect (c ∈ expected)); [|by eauto 6].
    exists (set_insert codename_lt c sat). split_and!; [done|by apply set_insert_sorted; [apply _|]|].
    intros c' [->|?]%elem_of_set_insert; [auto|auto|apply _]. }
  destruct (IH sat1 H1 Hs1) as (Hs' & Hd' & Hc'). split_and!; [done| |].
  - intros d' [->|?]%elem_of_cons; [by rewrite Hf|auto].
  - intros c [Hc|(? & x & fx & ? & ? & ?)]%Hc'.
    + destruct (Hin1 c Hc) as [?|[? ?]]; [auto|]. right. split; [done|]. exists d, f.
      split_and!; [left|done|done].
    + right. split; [done|]. exists x, fx. split_and!; [by right|done|done].
Qed.

(** Enough satisfied dependencies are all of them. *)
Lemma all_satisfied (expected sat : list builtin_protocol_feature_t) :
  NoDup sat -> (forall c, c ∈ sat -> c ∈ expected) -> (length expected <= length sat)%nat ->
  forall c, c ∈ expected -> c ∈ sat.
Proof.
  intros Hnd Hsub Hlen c Hc.
  assert (sat ≡ₚ expected) as ->; [|done].
  apply submseteq_length_Permutation; [|done]. by apply NoDup_submseteq.
Qed.

Lemma set_builtin_eq indx it v : set_builtin indx it v !! Z.to_nat indx = Some it.
Proof. unfold set_builtin. apply list_lookup_insert_eq. rewrite length_app, repeat_length. lia. Qed.

Lemma set_builtin_ne indx it v i :
  i <> Z.to_nat indx -> set_builtin indx it v !! i = v !! i \/
  (v !! i = None /\ set_builtin indx it v !! i = Some End) .
Proof.
  intros Hi. unfold set_builtin. rewrite list_lookup_insert_ne by done.
  destruct (decide (i < length v)%nat); [left; by apply lookup_app_l|].
  rewrite lookup_app_r, (lookup_ge_None_2 v) by lia.
  destruct (repeat End _ !! _) as [x|] eqn:E; [|by left].
  right. split; [done|]. f_equal. apply list_elem_of_lookup_2, list_elem_of_In, repeat_spec in E. done.
Qed.

(** What a successful [add_feature] has checked, and its result. *)
Lemma add_feature_ok hash s f s' :
  add_feature hash s f = Ok s' ->
  exists spec digest sat pf,
    find_spec (f_codename f) = Some spec /\
    (recognized_builtin_protocol_features s !! Z.to_nat (feature_index (f_codename f)) = None \/
     recognized_builtin_protocol_features s !! Z.to_nat (feature_index (f_codename f)) = Some End) /\
    feature_digest hash f = Ok digest /\
    satisfied_dependencies s (spec_builtin_dependencies spec) (dependencies f) [] = Ok sat /\
    (length (spec_builtin_dependencies spec) <= length sat)%nat /\
    recognized_protocol_features s !! digest = None /\
    pf_feature_digest pf = digest /\ pf_dependencies pf = dependencies f /\
    builtin_feature pf = Some (f_codename f) /\
    s' = mk_protocol_feature_set (<[digest := pf]> (recognized_protocol_features s))
           (set_builtin (feature_index (f_codename f)) (At digest) (recognized_builtin_protocol_features s)).
Proof.
  unfold add_feature. destruct (find_spec (f_codename f)) as [spec|]; [|done]. intros H.
  apply bind_ok in H as (? & Hidx & H). apply bind_ok in H as (digest & Hd & H).
  apply bind_ok in H as (sat & Hsat & H). apply bind_ok in H as (? & Hlen & H).
  apply bind_ok in H as (? & Hnew & H). apply ine_assert_ok, bool_decide_eq_true in Hnew.
  exists spec, digest, sat. eexists. split; [done|]. split; [|split; [done|]; split; [done|]; split].
  - destruct (recognized_builtin_protocol_features s !! _) as [it|]; [|by left].
    right. apply bind_ok in Hidx as (b & Hb & Hidx). apply ine_assert_ok in Hidx as ->.
    by destruct it.
  - destruct (bool_decide_reflect (length sat < length (spec_builtin_dependencies spec))%nat); [|lia].
    by apply bind_ok in Hlen as (? & _ & ?).
  - injection H as <-. split_and!. 5: reflexivity. all: done.
Qed.

Lemma feature_ok_weaken s s' before before' d :
  feature_ok s before d ->
  (forall x f, recognized_protocol_features s !! x = Some f ->
               recognized_protocol_features s' !! x = Some f) ->
  (forall i x, recognized_builtin_protocol_features s !! i = Some (At x) ->
               recognized_builtin_protocol_features s' !! i = Some (At x)) ->
  (forall x, x ∈ before -> x ∈ before') -> feature_ok s' before' d.
Proof.
  intros (f & c & spec & Hf & Hd & Hc & Hs & Hb & Hdeps & Hexp) Hr Hv Hin.
  exists f, c, spec. split_and!; auto.
  intros c' Hc'. destruct (Hexp c' Hc') as (x & fx & ? & ? & ?). exists x, fx. auto.
Qed.

Lemma snoc_split {A} (order pre post : list A) x d :
  order ++ [x] = pre ++ d :: post ->
  (post = [] /\ pre = order /\ d = x) \/ exists post', post = post' ++ [x] /\ order = pre ++ d :: post'.
Proof.
  destruct post as [|y post _] using rev_ind.
  - intros [-> [= ->]]%app_inj_tail. by left.
  - intros H. right. exists post. rewrite app_comm_cons, app_assoc in H.
    apply app_inj_tail in H as [-> ->]. done.
Qed.

Lemma add_feature_preserves hash s f s' :
  feature_set_ok s -> add_feature hash s f = Ok s' -> feature_set_ok s'.
Proof.
  intros [(order & Hdom & Hord) Hvec] H.
  apply add_feature_ok in H as
    (spec & digest & sat & pf & Hspec & Hidx & _ & Hsat & Hlen & Hnew & Hpd & Hdeps & Hpc & ->).
  destruct (satisfied_dependencies_ok _ _ _ _ _ Hsat) as (Hs & Hrec & Hin); [constructor|].
  assert (Hold : forall x g, recognized_protocol_features s !! x = Some g ->
            <[digest:=pf]> (recognized_protocol_features s) !! x = Some g).
  { intros x g Hx. rewrite lookup_insert_ne; [done|]. intros ->. congruence. }
  assert (Hvold : forall i x, recognized_builtin_protocol_features s !! i = Some (At x) ->
            set_builtin (feature_index (f_codename f)) (At digest)
              (recognized_builtin_protocol_features s) !! i = Some (At x)).
  { intros i x Hx. destruct (set_builtin_ne (feature_index (f_codename f)) (At digest)
      (recognized_builtin_protocol_features s) i) as [->|[? _]]; [|done|congruence].
    intros ->. destruct Hidx; congruence. }
  split; [exists (order ++ [digest]); split|].
  - intros d. rewrite elem_of_app, list_elem_of_singleton, <- Hdom. cbn.
    destruct (decide (digest = d)) as [->|Hne]; [rewrite lookup_insert_eq|rewrite lookup_insert_ne by done].
    + split; [auto|by eauto].
    + split; [auto|]. intros [?| ->]; done.
  - intros pre d post [(-> & -> & ->)|(post' & -> & E)]%snoc_split.
    + split; [intros Hd%Hdom; rewrite Hnew in Hd; by destruct Hd|].
      exists pf, (f_codename f), spec. cbn. rewrite lookup_insert_eq, Hdeps.
      split_and!; auto using set_builtin_eq.
      * intros x Hx. by apply Hdom, Hrec.
      * intros c' Hc'. eapply all_satisfied in Hc'; [|by eapply ordered_set_NoDup, Hs; apply _| |exact Hlen].
        -- destruct (Hin c' Hc') as [Hx%not_elem_of_nil|(_ & x & fx & ? & ? & ?)]; [done|]. eauto 6.
        -- intros c [Hx%not_elem_of_nil|[? _]]%Hin; done.
    + destruct (Hord _ _ _ E) as [Hnin Hok]. split; [done|]. by eapply feature_ok_weaken.
  - intros i it Hit. cbn in *.
    destruct (decide (i = Z.to_nat (feature_index (f_codename f)))) as [->|Hne].
    + rewrite set_builtin_eq in Hit. injection Hit as <-. right. exists digest, pf, (f_codename f).
      by rewrite lookup_insert_eq.
    + destruct (set_builtin_ne _ (At digest) (recognized_builtin_protocol_features s) i Hne) as [E|[_ E]];
        rewrite E in Hit; [|injection Hit; auto].
      destruct (Hvec i it Hit) as [->|(d & g & c & -> & Hg & ? & ?)]; [by left|].
      right. exists d, g, c. auto.
Qed.

Inductive adds (hash : list Z -> sha256) (s s' : protocol_feature_set) : Prop :=
  | adds_feature f : add_feature hash s f = Ok s' -> adds hash s s'.

Lemma empty_feature_set_ok : feature_set_ok empty_feature_set.
Proof.
  split; [exists []; split|].
  - intros d. simpl. rewrite lookup_empty. split; [by intros [? ?]|by intros ?%not_elem_of_nil].
  - intros pre d post H. by destruct pre.
  - intros i it H. by destruct i.
Qed.

Lemma feature_set_reachable hash s : rtc (adds hash) empty_feature_set s -> feature_set_ok s.
Proof.
  intros H. remember empty_feature_set as s0 eqn:E.
  assert (feature_set_ok s0) as H0 by (subst; apply empty_feature_set_ok). clear E.
  induction H as [|s0 s1 s [f Hf] _ IH]; [done|]. by eapply IH, add_feature_preserves.
Qed.

Lemma recognized_feature_ok s d f :
  feature_set_ok s -> recognized_protocol_features s !! d = Some f ->
  exists c, builtin_feature f = Some c /\ pf_feature_digest f = d /\
    recognized_builtin_protocol_features s !! Z.to_nat (feature_index c) = Some (At d).
Proof.
  intros [(order & Hdom & Hord) _] Hf.
  assert (d ∈ order) as (pre & post & ->)%list_elem_of_split by (apply Hdom; by eauto).
  destruct (Hord pre d post eq_refl) as [_ (g & c & spec & Hg & ? & ? & ? & ? & _)].
  assert (g = f) as -> by congruence. eauto.
Qed.

Lemma get_builtin_digest_exact s c :
  feature_set_ok s ->
  exists o, get_builtin_digest s c = Ok o /\
    forall d, o = Some d <-> exists f, recognized_protocol_features s !! d = Some f /\
                                       builtin_feature f = Some c.
Proof.
  intros Hok. unfold get_builtin_digest.
  destruct (recognized_builtin_protocol_features s !! _) as [it|] eqn:Hit.
  - destruct (proj2 Hok _ _ Hit) as [->|(d & f & c' & -> & Hf & Hc' & Hi)]; cbn.
    + exists None. split; [done|]. intros d. split; [done|]. intros (f & Hf & Hc).
      destruct (recognized_feature_ok s d f Hok Hf) as (c' & ? & _ & ?). congruence.
    + exists (Some d). split; [done|]. intros d'. split.
      * intros [= <-]. exists f. split; [done|]. rewrite Hc'. f_equal. apply feature_index_inj.
        pose proof (feature_index_range c). pose proof (feature_index_range c'). lia.
      * intros (f' & Hf' & Hc''). destruct (recognized_feature_ok s d' f' Hok Hf') as (c1 & ? & _ & ?).
        congruence.
  - exists None. split; [done|]. intros d. split; [done|]. intros (f & Hf & Hc).
    destruct (recognized_feature_ok s d f Hok Hf) as (c' & ? & _ & ?). congruence.
Qed.

(** C18: The set of recognised features is closed and acyclic: after any
    sequence of successful [add_feature], the features can be listed so that
    every dependency of a feature comes before it, each feature is stored
    under its own digest and under its codename and depends on a feature for
    each builtin dependency of its codename, and [get_builtin_digest] is
    defined and finds exactly the feature with the codename asked for. *)
Theorem feature_set_invariant hash s :
  rtc (adds hash) empty_feature_set s ->
  feature_set_ok s /\
  forall c, exists o, get_builtin_digest s c = Ok o /\
    forall d, o = Some d <-> exists f, recognized_protocol_features s !! d = Some f /\
                                       builtin_feature f = Some c.
Proof.
  intros H%feature_set_reachable. split; [done|]. intros c. by apply get_builtin_digest_exact.
Qed.

(** ** The manager implements an activation log

    What the manager promises is kept by a list of the activated builtin
    features with their block numbers, in the order of activation. *)

Abbreviation activation_log := (list (builtin_protocol_feature_t * Z)).

Definition log_activate (log : activation_log) (c : builtin_protocol_feature_t) (num : Z) :
  option activation_log :=
  if bool_decide ((c ∉ log.*1) /\ Forall (fun p => p.2 <= num) log) then Some (log ++ [(c, num)]) else None.

Definition log_pop (log : activation_log) (num : Z) : activation_log := filter (fun p => p.2 <= num) log.

Definition log_active (log : activation_log) (c : builtin_protocol_feature_t) (num : Z) : bool :=
  existsb (fun p => bool_decide (p.1 = c) && (p.2 <=? num)) log.

Abbreviation slot c := (Z.to_nat (feature_index c)).

(** The linked list through the entries of [v], from its head. *)
Fixpoint linked (v : list builtin_protocol_feature_entry) (head : Z) (l : activation_log) : Prop :=
  match l with
  | [] => head = no_previous
  | (c, num) :: l' =>
      head = feature_index c /\
      exists prev, v !! slot c = Some (mk_builtin_entry prev num) /\ linked v prev l'
  end.

(** The entry of the activated feature [p]. *)
Definition entry_of (s : protocol_feature_set) (e : protocol_feature_entry)
    (p : builtin_protocol_feature_t * Z) : Prop :=
  pe_activation_block_num e = p.2 /\
  exists f, recognized_protocol_features s !! iterator_to_protocol_feature e = Some f /\
            builtin_feature f = Some p.1.

Record manager_ok (m : protocol_feature_manager) (log : activation_log) : Prop := {
  ok_features d f : recognized_protocol_features (m_protocol_feature_set m) !! d = Some f ->
    exists c, builtin_feature f = Some c /\ (slot c < length (m_builtin_protocol_features m))%nat;
  ok_entries : Forall2 (entry_of (m_protocol_feature_set m)) (m_activated_protocol_features m) log;
  ok_once : NoDup log.*1;
  ok_rising : StronglySorted (fun p q => p.2 <= q.2) log;
  ok_nums : Forall (fun p => 0 <= p.2 < not_active) log;
  ok_linked : linked (m_builtin_protocol_features m) (m_head_of_builtin_activation_list m) (reverse log);
  ok_others i e : m_builtin_protocol_features m !! i = Some e ->
    (forall p, p ∈ log -> slot p.1 <> i) -> e = inactive_entry
}.

Lemma slot_inj c c' : slot c = slot c' -> c = c'.
Proof.
  pose proof (feature_index_range c). pose proof (feature_index_range c').
  intros E. apply feature_index_inj. lia.
Qed.

#[export] Instance slot_Inj : Inj eq eq (fun c => slot c).
Proof. intros c c'. apply slot_inj. Qed.

Lemma linked_insert v i e head l :
  (forall p, p ∈ l -> slot p.1 <> i) -> linked v head l -> linked (<[i := e]> v) head l.
Proof.
  revert head. induction l as [|[c num] l IH]; intros head Hl H; [done|]. cbn [linked] in *.
  destruct H as (Hh & prev & Hv & H). split; [done|]. exists prev. split.
  - rewrite list_lookup_insert_ne; [done|]. symmetry. apply (Hl (c, num)). left.
  - apply IH; [|done]. intros p Hp. apply Hl. by right.
Qed.

Lemma linked_lookup v head l c num :
  linked v head l -> (c, num) ∈ l -> exists prev, v !! slot c = Some (mk_builtin_entry prev num).
Proof.
  revert head. induction l as [|[c' num'] l IH]; intros head H Hin; [by apply not_elem_of_nil in Hin|].
  destruct H as (_ & prev & Hv & H). apply elem_of_cons in Hin as [[= -> ->]|Hin]; eauto.
Qed.

(** A log is no longer than the vector of entries. *)
Lemma linked_length v head l :
  NoDup l.*1 -> linked v head l -> (length l <= length v)%nat.
Proof.
  intros Hnd Hl. rewrite <- (length_seq (length v) 0), <- (length_fmap (fun p => slot p.1)).
  apply submseteq_length, NoDup_submseteq.
  - replace ((fun p => slot p.1) <$> l) with ((fun c => slot c) <$> l.*1) by (by rewrite <- list_fmap_compose).
    by apply (NoDup_fmap_2 (fun c => slot c)).
  - intros i ([c num] & -> & Hp)%list_elem_of_fmap. apply elem_of_seq.
    destruct (linked_lookup v head l c num Hl Hp) as [prev H%lookup_lt_Some]. simpl. lia.
Qed.

(** *** Activation *)

Lemma back_reverse {A} (l : list A) x : back l = Some x -> exists l', l = l' ++ [x].
Proof.
  destruct l as [|y l _] using rev_ind; [done|]. rewrite back_snoc. intros [= ->]. by exists l.
Qed.

Lemma rising_last log p num :
  StronglySorted (fun p q : builtin_protocol_feature_t * Z => p.2 <= q.2) (log ++ [p]) ->
  p.2 <= num <-> Forall (fun q => q.2 <= num) (log ++ [p]).
Proof.
  intros Hs. rewrite Forall_app, Forall_singleton. split; [|tauto]. intros Hp. split; [|done].
  apply list.Forall_forall. intros q Hq. induction log as [|r log IH]; [by apply not_elem_of_nil in Hq|].
  simpl in Hs. apply StronglySorted_inv in Hs as [Hs Hr]. apply elem_of_cons in Hq as [->|Hq]; [|auto].
  apply Forall_app in Hr as [_ Hr]. rewrite Forall_singleton in Hr. lia.
Qed.

Lemma rising_snoc log (p : builtin_protocol_feature_t * Z) :
  StronglySorted (fun p q : builtin_protocol_feature_t * Z => p.2 <= q.2) log ->
  Forall (fun q => q.2 <= p.2) log ->
  StronglySorted (fun p q : builtin_protocol_feature_t * Z => p.2 <= q.2) (log ++ [p]).
Proof.
  induction 1 as [|q log Hs IH Hq]; intros Hp; [constructor; constructor|].
  apply list.Forall_cons in Hp as [Hqp Hp]. simpl. constructor; [by apply IH|].
  apply Forall_app. split; [done|]. by constructor.
Qed.

(** The checks on the last activation and on the entry of the feature are
    those of the log. *)
Lemma last_check m log num :
  manager_ok m log ->
  (match back (m_activated_protocol_features m) with
   | None => Ok tt
   | Some last => ine_assert (pe_activation_block_num last <=? num) (Throw protocol_feature_exception)
   end : outcome unit) =
  ine_assert (bool_decide (Forall (fun p => p.2 <= num) log)) (Throw protocol_feature_exception).
Proof.
  intros Hm. pose proof (ok_entries _ _ Hm) as He. pose proof (ok_rising _ _ Hm) as Hr.
  destruct log as [|p log _] using rev_ind.
  - apply Forall2_nil_inv_r in He as ->. by rewrite bool_decide_eq_true_2.
  - apply Forall2_app_inv_r in He as (l & l' & _ & Hl & ->).
    apply Forall2_cons_inv_r in Hl as (e & l'' & [He _] & Hl & ->).
    apply Forall2_nil_inv_r in Hl as ->. rewrite back_snoc, He. f_equal.
    apply eq_true_iff_eq. rewrite Z.leb_le, bool_decide_eq_true. by apply rising_last.
Qed.

Lemma entry_check m log c e :
  manager_ok m log -> m_builtin_protocol_features m !! slot c = Some e ->
  (be_activation_block_num e =? not_active) = bool_decide (c ∉ log.*1).
Proof.
  intros Hm He. destruct (bool_decide_reflect (c ∉ log.*1)) as [Hc|Hc].
  - apply Z.eqb_eq. rewrite (ok_others _ _ Hm _ _ He); [done|]. intros p Hp E%slot_inj.
    apply Hc, list_elem_of_fmap. by exists p.
  - apply dec_stable, list_elem_of_fmap in Hc as ([c' num] & -> & Hp).
    destruct (linked_lookup _ _ _ c' num (ok_linked _ _ Hm)) as [prev Hprev];
      [by apply elem_of_reverse|]. simpl in He. rewrite Hprev in He. injection He as <-.
    apply (proj1 (list.Forall_forall _ _) (ok_nums _ _ Hm)) in Hp. simpl in *.
    apply Z.eqb_neq. unfold not_active in *. lia.
Qed.

(** The builtin feature a recognised digest stands for. *)
Definition builtin_of (s : protocol_feature_set) (d : sha256) : option builtin_protocol_feature_t :=
  f ← recognized_protocol_features s !! d; builtin_feature f.

Lemma activated_ok m log d f c num b :
  manager_ok m log -> 0 <= num < not_active ->
  recognized_protocol_features (m_protocol_feature_set m) !! d = Some f ->
  builtin_feature f = Some c -> c ∉ log.*1 -> Forall (fun p => p.2 <= num) log ->
  manager_ok
    (mk_protocol_feature_manager (m_protocol_feature_set m)
       (m_activated_protocol_features m ++ [mk_protocol_feature_entry d num])
       (<[slot c := mk_builtin_entry (m_head_of_builtin_activation_list m) num]>
          (m_builtin_protocol_features m)) (feature_index c) b)
    (log ++ [(c, num)]).
Proof.
  intros Hm Hnum Hf Hc Hnew Hle.
  assert (slot c < length (m_builtin_protocol_features m))%nat as Hslot.
  { destruct (ok_features _ _ Hm d f Hf) as (c' & Hc' & H). congruence. }
  split; cbn -[feature_index].
  - intros d' f' Hf'. rewrite length_insert. by apply (ok_features _ _ Hm d').
  - apply Forall2_app; [apply (ok_entries _ _ Hm)|]. constructor; [|constructor]. split; [done|]. eauto.
  - rewrite fmap_app. apply list.NoDup_app. split_and!; [apply (ok_once _ _ Hm)| |apply NoDup_singleton].
    intros c' Hc' ->%list_elem_of_singleton. done.
  - apply rising_snoc; [apply (ok_rising _ _ Hm)|done].
  - apply Forall_app. split; [apply (ok_nums _ _ Hm)|by constructor].
  - rewrite reverse_snoc. split; [done|]. exists (m_head_of_builtin_activation_list m).
    rewrite list_lookup_insert_eq by done. split; [done|]. apply linked_insert; [|apply (ok_linked _ _ Hm)].
    intros p Hp E%slot_inj. rewrite elem_of_reverse in Hp. apply Hnew, list_elem_of_fmap. by exists p.
  - intros i e He Hothers. apply (ok_others _ _ Hm i).
    + rewrite list_lookup_insert_ne in He; [done|]. apply (Hothers (c, num)). set_solver.
    + intros p Hp. apply Hothers. set_solver.
Qed.

Lemma activate_refines m log d num :
  manager_ok m log -> m_initialized m = true -> 0 <= num < not_active ->
  match c ← builtin_of (m_protocol_feature_set m) d; log_activate log c num with
  | Some log' => exists m', activate_feature m d num = Ok m' /\ manager_ok m' log' /\
                   m_protocol_feature_set m' = m_protocol_feature_set m /\ m_initialized m' = true
  | None => activate_feature m d num = Err (Throw protocol_feature_exception)
  end.
Proof.
  intros Hm Hi Hnum. unfold activate_feature, builtin_of. rewrite Hi.
  destruct (recognized_protocol_features (m_protocol_feature_set m) !! d) as [f|] eqn:Hf; [|done].
  destruct (ok_features _ _ Hm d f Hf) as (c & Hc & Hslot).
  cbn [mbind option_bind]. rewrite Hc, (last_check m log num Hm).
  cbn [mbind option_bind]. unfold log_activate.
  destruct (lookup_lt_is_Some_2 _ _ Hslot) as [e He]. cbn [mbind result_bind ine_assert].
  rewrite He, (entry_check m log c e Hm He).
  destruct (bool_decide_reflect (Forall (fun p => p.2 <= num) log)) as [Hle|Hle].
  2:{ rewrite (bool_decide_eq_false_2 (_ /\ _)); [done|]. by intros [_ ?]. }
  destruct (bool_decide_reflect (c ∉ log.*1)) as [Hnew|Hnew].
  2:{ rewrite (bool_decide_eq_false_2 (_ /\ _)); [done|]. by intros [? _]. }
  rewrite bool_decide_eq_true_2 by done. eexists. split; [reflexivity|].
  split_and!; [by eapply activated_ok|done|done].
Qed.

(** *** Popping blocks *)

(** The list is cut where the block numbers are small enough. *)
Lemma cut_list num (l : activation_log) :
  exists dropped kept, l = dropped ++ kept /\ Forall (fun p => num < p.2) dropped /\
    match kept with p :: _ => p.2 <= num | [] => True end.
Proof.
  induction l as [|p l (dropped & kept & -> & Hd & Hk)]; [by exists [], []|].
  destruct (decide (num < p.2)).
  - exists (p :: dropped), kept. split_and!; [done|by constructor|done].
  - exists [], (p :: dropped ++ kept). split_and!; [done|constructor|lia].
Qed.

Lemma pop_builtins_spec num dropped kept fuel head v :
  NoDup (dropped ++ kept).*1 -> Forall (fun p => num < p.2) dropped ->
  match kept with p :: _ => p.2 <= num | [] => True end ->
  linked v head (dropped ++ kept) -> (length dropped < fuel)%nat ->
  exists head' v', pop_builtins fuel num head v = Some (Ok (head', v')) /\ linked v' head' kept /\
    length v' = length v /\
    (forall i, (exists p, p ∈ dropped /\ slot p.1 = i) -> v' !! i = Some inactive_entry) /\
    (forall i, (forall p, p ∈ dropped -> slot p.1 <> i) -> v' !! i = v !! i).
Proof.
  intros Hnd Hd Hk. revert fuel head v. induction dropped as [|[c n] dropped IH];
    intros fuel head v Hl Hf; (destruct fuel as [|fuel]; [simpl in Hf; lia|]); cbn [pop_builtins].
  - exists head, v. split; [|split_and!; [done|done| |done]].
    + destruct kept as [|[c n] kept]; simpl in Hl; [by rewrite Hl|].
      destruct Hl as (-> & prev & Hv & _). pose proof (feature_index_range c).
      replace (feature_index c =? no_previous) with false by (symmetry; apply Z.eqb_neq; unfold no_previous; lia).
      rewrite Hv. cbn. by replace (n <=? num) with true by (symmetry; by apply Z.leb_le).
    + by intros i (p & ?%not_elem_of_nil & _).
  - apply list.Forall_cons in Hd as [Hn Hd]. simpl in Hn. destruct Hl as (-> & prev & Hv & Hl).
    pose proof (feature_index_range c).
    replace (feature_index c =? no_previous) with false by (symmetry; apply Z.eqb_neq; unfold no_previous; lia).
    rewrite Hv. cbn [be_activation_block_num be_previous].
    replace (n <=? num) with false by (symmetry; apply Z.leb_gt; lia).
    simpl in Hnd. apply list.NoDup_cons in Hnd as [Hc Hnd].
    assert (forall p, p ∈ dropped ++ kept -> slot p.1 <> slot c) as Hne.
    { intros p Hp E%slot_inj. apply Hc, list_elem_of_fmap. by exists p. }
    destruct (IH Hnd Hd fuel prev (<[slot c:=inactive_entry]> v)) as (head' & v' & Hpop & Hl' & Hlen & H1 & H2).
    { by apply linked_insert. } { simpl in Hf. lia. }
    exists head', v'. rewrite length_insert in Hlen. split_and!; [done|done|done| |].
    + intros i (p & [->|Hp]%elem_of_cons & <-); [|eauto]. simpl. rewrite H2.
      * apply list_lookup_insert_eq. by eapply lookup_lt_Some.
      * intros p Hp. apply Hne. set_solver.
    + intros i Hi. rewrite H2 by (intros p Hp; apply Hi; by right).
      apply list_lookup_insert_ne. apply (Hi (c, n)). left.
Qed.

Lemma pop_back_while_app num (l k : list protocol_feature_entry) :
  Forall (fun e => num < pe_activation_block_num e) l ->
  match k with e :: _ => pe_activation_block_num e <= num | [] => True end ->
  pop_back_while num (l ++ k) = k.
Proof.
  intros Hl Hk. induction Hl as [|e l He Hl IH]; cbn [app pop_back_while].
  - destruct k as [|e k]; [done|]. cbn [pop_back_while].
    by replace (num <? pe_activation_block_num e) with false by (symmetry; by apply Z.ltb_ge).
  - by replace (num <? pe_activation_block_num e) with true by (symmetry; by apply Z.ltb_lt).
Qed.

Lemma log_pop_cut (log : activation_log) num dropped kept :
  StronglySorted (fun p q => p.2 <= q.2) log -> reverse log = dropped ++ kept ->
  Forall (fun p => num < p.2) dropped -> match kept with p :: _ => p.2 <= num | [] => True end ->
  log = reverse kept ++ reverse dropped /\ log_pop log num = reverse kept.
Proof.
  intros Hs E Hd Hk. assert (log = reverse kept ++ reverse dropped) as ->.
  { by rewrite <- reverse_app, <- E, reverse_involutive. }
  split; [done|]. unfold log_pop. rewrite list.filter_app.
  assert (Forall (fun p => p.2 <= num) (reverse kept)) as Hkept.
  { destruct kept as [|p kept]; [constructor|]. rewrite reverse_cons in *.
    apply rising_last; [|done]. by eapply StronglySorted_app_1_l. }
  rewrite (list_filter_all _ _ Hkept), (list_filter_none (fun p => p.2 <= num) (reverse dropped)).
  - apply app_nil_r.
  - apply Forall_reverse. eapply list.Forall_impl; [exact Hd|]. simpl. lia.
Qed.

Lemma popped_ok m log dropped kept act head' v' :
  manager_ok m log -> log = reverse kept ++ reverse dropped ->
  Forall2 (entry_of (m_protocol_feature_set m)) act (reverse kept) ->
  linked v' head' kept -> length v' = length (m_builtin_protocol_features m) ->
  (forall i, (exists p, p ∈ dropped /\ slot p.1 = i) -> v' !! i = Some inactive_entry) ->
  (forall i, (forall p, p ∈ dropped -> slot p.1 <> i) -> v' !! i = m_builtin_protocol_features m !! i) ->
  manager_ok (mk_protocol_feature_manager (m_protocol_feature_set m) act v' head' (m_initialized m))
    (reverse kept).
Proof.
  intros Hm Elog Hact Hl' Hlen' Hin Hout. split; cbn -[feature_index].
  - intros d f Hf. rewrite Hlen'. by apply (ok_features _ _ Hm d).
  - done.
  - pose proof (ok_once _ _ Hm) as H. rewrite Elog, fmap_app in H. by apply list.NoDup_app in H as [? _].
  - pose proof (ok_rising _ _ Hm) as H. rewrite Elog in H. by eapply StronglySorted_app_1_l.
  - pose proof (ok_nums _ _ Hm) as H. rewrite Elog in H. by apply Forall_app in H as [? _].
  - by rewrite reverse_involutive.
  - intros i e He Hothers. destruct (decide (i ∈ (fun p => slot p.1) <$> dropped)) as [Hi'|Hi'].
    + apply list_elem_of_fmap in Hi' as (p & -> & Hp). rewrite Hin in He by eauto. congruence.
    + assert (forall p, p ∈ dropped -> slot p.1 <> i) as Hnot.
      { intros p Hp <-. apply Hi', list_elem_of_fmap. by exists p. }
      rewrite Hout in He by done. apply (ok_others _ _ Hm i e He).
      intros p. rewrite Elog, elem_of_app. intros [Hp|Hp]; [by apply Hothers|].
      apply Hnot. by apply elem_of_reverse.
Qed.

Lemma pop_refines m log num :
  manager_ok m log -> m_initialized m = true ->
  exists m', popped_blocks_to m num = Some (Ok m') /\ manager_ok m' (log_pop log num) /\
    m_protocol_feature_set m' = m_protocol_feature_set m /\ m_initialized m' = true /\
    length (m_builtin_protocol_features m') = length (m_builtin_protocol_features m) /\
    exists removed, m_activated_protocol_features m = m_activated_protocol_features m' ++ removed /\
      Forall (fun e => num < pe_activation_block_num e) removed.
Proof.
  intros Hm Hi. destruct (cut_list num (reverse log)) as (dropped & kept & E & Hd & Hk).
  destruct (log_pop_cut log num dropped kept) as [Elog ->]; [apply (ok_rising _ _ Hm)|done..|].
  assert (NoDup (dropped ++ kept).*1) as Hnd.
  { rewrite <- E, fmap_reverse, reverse_Permutation. apply (ok_once _ _ Hm). }
  pose proof (ok_linked _ _ Hm) as Hl. rewrite E in Hl.
  pose proof (linked_length _ _ _ Hnd Hl) as Hlen. rewrite length_app in Hlen.
  destruct (pop_builtins_spec num dropped kept (S (length (m_builtin_protocol_features m))) _ _ Hnd Hd Hk Hl)
    as (head' & v' & Hpop & Hl' & Hlen' & Hin & Hout); [lia|].
  pose proof (ok_entries _ _ Hm) as He%Forall2_reverse. rewrite E in He.
  apply Forall2_app_inv_r in He as (ed & ek & Hed & Hek & Ea).
  assert (m_activated_protocol_features m = reverse ek ++ reverse ed) as Eact.
  { by rewrite <- reverse_app, <- Ea, reverse_involutive. }
  assert (Forall (fun e => num < pe_activation_block_num e) ed) as Hned.
  { clear -Hed Hd. induction Hed as [|e p ed dropped [He _] _ IH]; [constructor|].
    apply list.Forall_cons in Hd as [Hp Hd]. constructor; [by rewrite He|auto]. }
  unfold popped_blocks_to. rewrite Hi, Hpop, Ea, pop_back_while_app; [|done|].
  2:{ destruct Hek as [|e p ek kept' [He _] _]; [done|by rewrite He]. }
  eexists. split; [reflexivity|]. cbn. split; [|split_and!; [done|done|done|]].
  - rewrite <- Hi. eapply popped_ok; eauto using Forall2_reverse.
  - exists (reverse ed). split; [done|by apply Forall_reverse].
Qed.

(** *** Queries *)

Lemma active_refines m log c num :
  manager_ok m log -> num < not_active ->
  pfm_is_builtin_activated m c num = log_active log c num.
Proof.
  intros Hm Hnum. unfold pfm_is_builtin_activated. apply eq_true_iff_eq.
  unfold log_active. rewrite existsb_exists. split.
  - destruct (_ !! slot c) as [e|] eqn:He; [|done]. intros Hle%Z.leb_le.
    destruct (decide (c ∈ log.*1)) as [([c' n] & -> & Hp)%list_elem_of_fmap|Hn].
    + exists (c', n). split; [by apply list_elem_of_In|]. rewrite bool_decide_eq_true_2 by done.
      destruct (linked_lookup _ _ _ c' n (ok_linked _ _ Hm)) as [prev E]; [by apply elem_of_reverse|].
      simpl in *. rewrite E in He. injection He as <-. by apply Z.leb_le.
    + rewrite (ok_others _ _ Hm _ _ He) in Hle; [simpl in Hle; lia|].
      intros p Hp E%slot_inj. apply Hn, list_elem_of_fmap. by exists p.
  - intros ([c' n] & Hp%list_elem_of_In & [E%bool_decide_eq_true Hn]%andb_prop). simpl in E, Hn. subst c'.
    destruct (linked_lookup _ _ _ c n (ok_linked _ _ Hm)) as [prev ->]; [by apply elem_of_reverse|]. done.
Qed.

Lemma new_manager_ok pfs b : feature_set_ok pfs -> manager_ok (set_initialized b (new_manager pfs)) [].
Proof.
  intros Hok. split; cbn -[feature_index].
  - intros d f Hf. destruct (recognized_feature_ok pfs d f Hok Hf) as (c & ? & _ & H%lookup_lt_Some).
    exists c. by rewrite repeat_length.
  - constructor.
  - apply NoDup_nil_2.
  - constructor.
  - constructor.
  - done.
  - intros i e H _. by apply list_elem_of_lookup_2, list_elem_of_In, repeat_spec in H.
Qed.

(** *** Sequences of operations *)

Inductive manager_op := Activate (d : sha256) (num : Z) | Pop (num : Z).

Definition valid_op (op : manager_op) : Prop :=
  match op with Activate _ num => 0 <= num < not_active | Pop _ => True end.

Definition run_op (m : protocol_feature_manager) (op : manager_op) :
  option (outcome protocol_feature_manager) :=
  match op with
  | Activate d num => Some (activate_feature m d num)
  | Pop num => popped_blocks_to m num
  end.

(** The caller goes on after an operation that threw, which left the manager
    as it was. *)
Fixpoint run_ops (m : protocol_feature_manager) (ops : list manager_op) : option protocol_feature_manager :=
  match ops with
  | [] => Some m
  | op :: ops' =>
      match run_op m op with
      | None => None
      | Some (Ok m') => run_ops m' ops'
      | Some (Err _) => run_ops m ops'
      end
  end.

Definition log_op (features : sha256 -> option builtin_protocol_feature_t) (log : activation_log)
    (op : manager_op) : activation_log :=
  match op with
  | Activate d num => default log (c ← features d; log_activate log c num)
  | Pop num => log_pop log num
  end.

Lemma log_op_refines m log op :
  manager_ok m log -> m_initialized m = true -> valid_op op ->
  exists m', (run_op m op = Some (Ok m') \/
              (m' = m /\ run_op m op = Some (Err (Throw protocol_feature_exception)))) /\
    manager_ok m' (log_op (builtin_of (m_protocol_feature_set m)) log op) /\
    m_protocol_feature_set m' = m_protocol_feature_set m /\ m_initialized m' = true.
Proof.
  intros Hm Hi Hop. destruct op as [d num|num]; cbn [run_op log_op].
  - pose proof (activate_refines m log d num Hm Hi Hop) as H.
    destruct (_ ≫= _) as [log'|]; cbn [default].
    + destruct H as (m' & -> & ? & ? & ?). eauto 6.
    + exists m. rewrite H. split; [by right|done].
  - destruct (pop_refines m log num Hm Hi) as (m' & -> & ? & ? & ? & _). eauto 6.
Qed.

Lemma run_ops_refines m log ops :
  manager_ok m log -> m_initialized m = true -> Forall valid_op ops ->
  exists m', run_ops m ops = Some m' /\
    manager_ok m' (foldl (log_op (builtin_of (m_protocol_feature_set m))) log ops).
Proof.
  intros Hm Hi Hops. revert m log Hm Hi.
  induction Hops as [|op ops Hop _ IH]; intros m log Hm Hi; [by exists m|]. cbn [run_ops foldl].
  destruct (log_op_refines m log op Hm Hi Hop) as (m1 & [->|[-> ->]] & Hm1 & Hs & Hi1).
  - rewrite <- Hs in *. by apply IH.
  - by apply IH.
Qed.

Lemma init_loop_run m l m' :
  init_loop m l = (m', Ok tt) -> run_ops m (uncurry Activate <$> l) = Some m'.
Proof.
  revert m. induction l as [|[d num] l IH]; intros m H; [by injection H as <-|].
  cbn in H |- *. destruct (activate_feature m d num); [by apply IH|done].
Qed.

(** C17: The manager refines the activation log.  Starting from a manager built
    from recognised features and initialised from the database, any sequence
    of activations and pops, of which the rejected ones are skipped, ends
    (the pops terminate) and answers [is_builtin_activated] exactly as the log
    obtained by appending the accepted activations and dropping those above
    the block popped to. *)
Theorem manager_refines_log hash pfs (activated : list (sha256 * Z)) m0 ops :
  rtc (adds hash) empty_feature_set pfs ->
  Forall valid_op ((uncurry Activate <$> activated) ++ ops) ->
  pfm_init activated (new_manager pfs) = (m0, Ok tt) ->
  exists m, run_ops m0 ops = Some m /\
    forall c num, num < not_active ->
      pfm_is_builtin_activated m c num =
      log_active (foldl (log_op (builtin_of pfs)) [] ((uncurry Activate <$> activated) ++ ops)) c num.
Proof.
  intros Hpfs%feature_set_reachable [Hact Hops]%Forall_app Hinit.
  unfold pfm_init in Hinit. cbn [m_initialized new_manager] in Hinit.
  destruct (init_loop _ activated) as [m1 [[]|e]] eqn:E; [|done]. injection Hinit as ->.
  apply init_loop_run in E.
  assert (run_ops (set_initialized true (new_manager pfs)) ((uncurry Activate <$> activated) ++ ops)
          = run_ops m0 ops) as <-.
  { clear Hpfs Hact Hops. revert E. generalize (set_initialized true (new_manager pfs)) as m.
    induction (uncurry Activate <$> activated) as [|op l IH]; intros m H; [by injection H as ->|].
    cbn [run_ops app] in *. destruct (run_op m op) as [[]|]; [by apply IH|by apply IH|done]. }
  destruct (run_ops_refines (set_initialized true (new_manager pfs)) []
              ((uncurry Activate <$> activated) ++ ops)) as (m & -> & Hm).
  - by apply new_manager_ok.
  - done.
  - by apply Forall_app.
  - exists m. split; [done|]. intros c num Hnum. by rewrite (active_refines _ _ c num Hm Hnum).
Qed.

(** *** Undoing activations *)

Definition head_of (l : activation_log) : Z :=
  match l with [] => no_previous | (c, _) :: _ => feature_index c end.

Lemma linked_head v head l : linked v head l -> head = head_of l.
Proof. destruct l as [|[c n] l]; [done|]. by intros [-> _]. Qed.

Lemma linked_at v head l1 c n l2 :
  linked v head (l1 ++ (c, n) :: l2) -> v !! slot c = Some (mk_builtin_entry (head_of l2) n).
Proof.
  revert head. induction l1 as [|[c' n'] l1 IH]; intros head; cbn [linked app].
  - intros (_ & prev & Hv & H). apply linked_head in H as <-. done.
  - intros (_ & prev & _ & H). by eapply IH.
Qed.

(** The log and the activated features determine the manager. *)
Lemma manager_ok_unique m m' log :
  manager_ok m log -> manager_ok m' log ->
  m_protocol_feature_set m' = m_protocol_feature_set m ->
  m_activated_protocol_features m' = m_activated_protocol_features m ->
  m_initialized m' = m_initialized m ->
  length (m_builtin_protocol_features m') = length (m_builtin_protocol_features m) -> m' = m.
Proof.
  intros Hm Hm' Hs Ha Hi Hlen.
  pose proof (linked_head _ _ _ (ok_linked _ _ Hm)) as Hh.
  pose proof (linked_head _ _ _ (ok_linked _ _ Hm')) as Hh'.
  assert (m_builtin_protocol_features m' = m_builtin_protocol_features m) as Hv.
  { apply list_eq. intros i. destruct (decide (i ∈ (fun p => slot p.1) <$> log)) as [Hin|Hin].
    - apply list_elem_of_fmap in Hin as ([c n] & -> & Hp).
      rewrite <- elem_of_reverse in Hp. apply list_elem_of_split in Hp as (l1 & l2 & E).
      pose proof (ok_linked _ _ Hm) as L. pose proof (ok_linked _ _ Hm') as L'. rewrite E in L, L'.
      apply linked_at in L, L'. simpl. congruence.
    - assert (forall p, p ∈ log -> slot p.1 <> i) as Hn.
      { intros p Hp <-. apply Hin, list_elem_of_fmap. by exists p. }
      destruct (m_builtin_protocol_features m !! i) as [e|] eqn:E.
      + rewrite (ok_others _ _ Hm i e E Hn).
        destruct (lookup_lt_is_Some_2 (m_builtin_protocol_features m') i) as [e' E'].
        { apply lookup_lt_Some in E. lia. }
        by rewrite E', (ok_others _ _ Hm' i e' E' Hn).
      + apply lookup_ge_None in E. apply lookup_ge_None. lia. }
  destruct m, m'; simpl in *. congruence.
Qed.

Inductive activates (above : Z) (m m' : protocol_feature_manager) : Prop :=
  | activates_feature d num :
      above < num < not_active -> activate_feature m d num = Ok m' -> activates above m m'.

Lemma activate_feature_fields m d num m' :
  activate_feature m d num = Ok m' ->
  m_activated_protocol_features m' =
    m_activated_protocol_features m ++ [mk_protocol_feature_entry d num] /\
  length (m_builtin_protocol_features m') = length (m_builtin_protocol_features m).
Proof.
  unfold activate_feature. intros H. apply bind_ok in H as (? & _ & H).
  destruct (_ !! d) as [f|]; [|done]. apply bind_ok in H as (? & _ & H).
  destruct (builtin_feature f) as [c|]; [|done]. destruct (_ !! slot c) as [e|]; [|done].
  apply bind_ok in H as (? & _ & [= <-]). cbn -[feature_index]. by rewrite length_insert.
Qed.

Lemma activates_ok above m m' log :
  0 <= above -> rtc (activates above) m m' -> manager_ok m log -> m_initialized m = true ->
  exists added extra, manager_ok m' (log ++ added) /\ Forall (fun p => above < p.2) added /\
    m_activated_protocol_features m' = m_activated_protocol_features m ++ extra /\
    Forall (fun e => above < pe_activation_block_num e) extra /\
    m_protocol_feature_set m' = m_protocol_feature_set m /\ m_initialized m' = true /\
    length (m_builtin_protocol_features m') = length (m_builtin_protocol_features m).
Proof.
  intros Habove H. revert log. induction H as [m|m m1 m2 [d num Hnum H1] _ IH]; intros log Hm Hi.
  { exists [], []. rewrite !app_nil_r. split_and!; first [done|constructor]. }
  pose proof (activate_refines m log d num Hm Hi) as R.
  destruct (c ← builtin_of (m_protocol_feature_set m) d; log_activate log c num) as [log1|] eqn:E.
  2:{ rewrite R in H1 by lia. done. }
  destruct R as (m1' & H1' & Hm1 & Hs1 & Hi1); [lia|]. rewrite H1 in H1'. injection H1' as <-.
  apply bind_Some in E as (c & _ & E). unfold log_activate in E. case_bool_decide; [|done].
  injection E as <-. destruct (activate_feature_fields _ _ _ _ H1) as [Ha Hl].
  destruct (IH _ Hm1 Hi1) as (added & extra & Hok & Hadd & Hact & Hextra & Hs2 & Hi2 & Hl2).
  exists ((c, num) :: added), (mk_protocol_feature_entry d num :: extra).
  rewrite Hact, Ha, <- !app_assoc. rewrite <- app_assoc in Hok.
  split_and!; [done|constructor; [simpl; lia|done]|done|constructor; [simpl; lia|done]|congruence..].
Qed.

Lemma entries_le s act log num :
  Forall2 (entry_of s) act log -> Forall (fun p => p.2 <= num) log ->
  Forall (fun e => pe_activation_block_num e <= num) act.
Proof.
  induction 1 as [|e p act log [He _] _ IH]; intros Hl; [constructor|].
  apply list.Forall_cons in Hl as [Hp Hl]. constructor; [by rewrite He|auto].
Qed.

Lemma filter_split {A} (P : A -> Prop) `{!forall x, Decision (P x)} (l1 l2 : list A) :
  Forall P l1 -> Forall (fun x => ~ P x) l2 -> filter P (l1 ++ l2) = l1.
Proof.
  intros H1 H2. by rewrite list.filter_app, list_filter_all, list_filter_none, app_nil_r.
Qed.

(** Popping blocks undoes activations: after any successful activations in
    blocks above [n], made on a manager whose activations are at or below
    [n], popping back to block [n] ends and restores the manager exactly. *)
Theorem popped_blocks_undo m m' log n :
  manager_ok m log -> m_initialized m = true -> 0 <= n -> Forall (fun p => p.2 <= n) log ->
  rtc (activates n) m m' -> popped_blocks_to m' n = Some (Ok m).
Proof.
  intros Hm Hi Hn Hlog Hr.
  destruct (activates_ok n m m' log Hn Hr Hm Hi)
    as (added & extra & Hm' & Hadded & Ha' & Hextra & Hs' & Hi' & Hl').
  destruct (pop_refines m' _ n Hm' Hi') as (m'' & -> & Hm'' & Hs'' & Hi'' & Hl'' & removed & Ea & Hremoved).
  unfold log_pop in Hm''. rewrite filter_split in Hm''; [|done|].
  2:{ eapply list.Forall_impl; [exact Hadded|]. simpl. lia. }
  do 2 f_equal. apply (manager_ok_unique m m'' log); [done|done|congruence| |congruence|congruence].
  pose proof (entries_le _ _ _ n (ok_entries _ _ Hm) Hlog) as H1.
  pose proof (entries_le _ _ _ n (ok_entries _ _ Hm'') Hlog) as H2.
  rewrite <- (filter_split _ _ removed H2), <- (filter_split _ _ extra H1), <- Ha', <- Ea; [done|..].
  - eapply list.Forall_impl; [exact Hextra|]. simpl. lia.
  - eapply list.Forall_impl; [exact Hremoved|]. simpl. lia.
Qed.

(** *** Searching the activations by block number *)

Lemma rising_entries s act (log : activation_log) :
  Forall2 (entry_of s) act log -> StronglySorted (fun p q => p.2 <= q.2) log ->
  StronglySorted (fun e e' => pe_activation_block_num e <= pe_activation_block_num e') act.
Proof.
  induction 1 as [|e p act log [He _] Hl IH]; intros Hr; [constructor|].
  apply StronglySorted_inv in Hr as [Hr Hp]. constructor; [by apply IH|].
  clear IH Hr. induction Hl as [|e' p' act log [He' _] _ IH]; [constructor|].
  apply list.Forall_cons in Hp as [Hpp Hp]. constructor; [lia|auto].
Qed.

(** The position an iterator stands for: the number of activations before
    it. *)
Definition position (m : protocol_feature_manager) (it : pfm_iterator) : nat :=
  if it_index it =? end_index then length (m_activated_protocol_features m)
  else Z.to_nat (it_index it).

(** The searches by block number are exact: [lower_bound] ends at the first
    activation in a block at or after the given number and [upper_bound] at
    the first one after it; everything before that position is below it. *)
Theorem pfm_bounds_exact m log num :
  manager_ok m log -> Z.of_nat (length (m_activated_protocol_features m)) < end_index ->
  exists lower upper,
    pfm_lower_bound m num = Some lower /\ pfm_upper_bound m num = Some upper /\
    boundary (fun e => pe_activation_block_num e <? num) (m_activated_protocol_features m)
      (position m lower) /\
    boundary (fun e => negb (num <? pe_activation_block_num e)) (m_activated_protocol_features m)
      (position m upper).
Proof.
  intros Hm Hlen.
  pose proof (rising_entries _ _ _ (ok_entries _ _ Hm) (ok_rising _ _ Hm)) as Hs.
  assert (forall n, (n <= length (m_activated_protocol_features m))%nat ->
    exists it, iterator_at m (Some n) = Some it /\ position m it = n) as Hit.
  { intros n Hn. eexists. split; [reflexivity|]. unfold position.
    destruct (bool_decide_reflect (n = length (m_activated_protocol_features m))) as [->|Hne]; [done|].
    cbn [it_index]. replace (Z.of_nat n =? end_index) with false by (symmetry; apply Z.eqb_neq; lia).
    by rewrite Nat2Z.id. }
  unfold pfm_lower_bound, pfm_upper_bound.
  destruct (std_lower_bound_boundary (fun e => pe_activation_block_num e <? num)
              (m_activated_protocol_features m)) as (i & -> & Hi).
  { apply (partitioned_sorted pe_activation_block_num (fun x => x <? num)); [done|]. intros x y ?. rewrite !Z.ltb_lt. lia. }
  destruct (std_upper_bound_boundary (fun e => num <? pe_activation_block_num e)
              (m_activated_protocol_features m)) as (j & -> & Hj).
  { apply (partitioned_sorted pe_activation_block_num (fun x => negb (num <? x))); [done|].
    intros x y ?. rewrite !negb_true_iff, !Z.ltb_ge. lia. }
  destruct (Hit i (proj1 Hi)) as (lower & -> & Hl), (Hit j (proj1 Hj)) as (upper & -> & Hu).
  exists lower, upper. by rewrite Hl, Hu.
Qed.

(** ** Examples *)

Definition example_feature (c : builtin_protocol_feature_t) (deps : list sha256) : builtin_protocol_feature :=
  match make_default_builtin_protocol_feature c
          (fun _ => match deps with d :: _ => Ok d | [] => Err undefined_behaviour end) with
  | Ok f => f
  | Err _ => mk_builtin_protocol_feature [] (mk_sha256 0 0 0 0) [] (mk_restrictions 0 false false)
               builtin [] c
  end.

Definition example_digest (c : builtin_protocol_feature_t) (deps : list sha256) : sha256 :=
  match feature_digest example_hash (example_feature c deps) with
  | Ok d => d
  | Err _ => mk_sha256 0 0 0 0
  end.

Definition replace_digest : sha256 := Eval vm_compute in example_digest replace_deferred [].

Definition example_set : protocol_feature_set :=
  Eval vm_compute in
  match s1 ← add_feature example_hash empty_feature_set (example_feature preactivate_feature []);
        s2 ← add_feature example_hash s1 (example_feature replace_deferred []);
        add_feature example_hash s2 (example_feature no_duplicate_deferred_id [replace_digest]) with
  | Ok s => s
  | Err _ => empty_feature_set
  end.

Lemma example_set_reachable : rtc (adds example_hash) empty_feature_set example_set.
Proof.
  eapply rtc_l; [apply (adds_feature _ _ _ (example_feature preactivate_feature []));
                 vm_compute; reflexivity|].
  eapply rtc_l; [apply (adds_feature _ _ _ (example_feature replace_deferred []));
                 vm_compute; reflexivity|].
  apply rtc_once, (adds_feature _ _ _ (example_feature no_duplicate_deferred_id [replace_digest])).
  vm_compute. reflexivity.
Qed.

Lemma feature_set_invariant_witness :
  rtc (adds example_hash) empty_feature_set example_set /\ feature_set_ok example_set.
Proof.
  split; [apply example_set_reachable|].
  apply (feature_set_invariant example_hash), example_set_reachable.
Defined.

(** A feature is refused while a dependency of its codename is missing. *)
Example add_feature_needs_dependency :
  add_feature example_hash empty_feature_set
    (mk_builtin_protocol_feature feature_type_string replace_digest []
       (mk_restrictions 0 true true) builtin [] no_duplicate_deferred_id)
  = Err (Throw protocol_feature_validation_exception).
Proof. vm_compute. reflexivity. Qed.

(** The codename between two recognised ones is looked up before the set is
    moved, and is a use of an invalidated iterator after the move into the
    manager. *)
Example moved_set_stale :
  get_builtin_digest example_set only_link_to_existing_permission = Ok None /\
  get_builtin_digest (m_protocol_feature_set (new_manager example_set)) only_link_to_existing_permission
  = Err undefined_behaviour.
Proof. split; vm_compute; reflexivity. Qed.

Definition example_manager : protocol_feature_manager := (pfm_init [] (new_manager example_set)).1.

Definition example_ops : list manager_op :=
  [Activate replace_digest 7; Activate replace_digest 8;
   Activate (example_digest preactivate_feature []) 9; Pop 8].

Lemma manager_refines_log_witness :
  exists m, run_ops example_manager example_ops = Some m /\
    pfm_is_builtin_activated m replace_deferred 7 = true /\
    pfm_is_builtin_activated m preactivate_feature 100 = false.
Proof.
  destruct (manager_refines_log example_hash example_set [] example_manager example_ops)
    as (m & Hm & Hq).
  - apply example_set_reachable.
  - repeat (constructor; [vm_compute; intuition congruence|]). constructor.
  - vm_compute. reflexivity.
  - exists m. split; [done|]. rewrite !Hq by (vm_compute; reflexivity). by vm_compute.
Defined.

Lemma popped_blocks_undo_witness :
  exists m', activate_feature example_manager replace_digest 7 = Ok m' /\
    popped_blocks_to m' 6 = Some (Ok example_manager).
Proof.
  eexists. split; [vm_compute; reflexivity|].
  apply (popped_blocks_undo example_manager _ []).
  - apply (new_manager_ok example_set true). by eapply feature_set_reachable, example_set_reachable.
  - done.
  - lia.
  - constructor.
  - apply rtc_once, (activates_feature _ _ _ replace_digest 7); [vm_compute; intuition congruence|].
    vm_compute. reflexivity.
Defined.

Lemma pfm_bounds_exact_witness :
  exists lower, pfm_lower_bound example_manager 5 = Some lower /\ position example_manager lower = 0%nat.
Proof.
  destruct (pfm_bounds_exact example_manager [] 5) as (lower & upper & Hl & _ & Hb & _).
  - apply (new_manager_ok example_set true). by eapply feature_set_reachable, example_set_reachable.
  - by vm_compute.
  - exists lower. split; [done|]. destruct Hb as [Hb _]. simpl in Hb. lia.
Defined.

(** An activation in the last representable block is recorded under the value
    that means not active, so that it is accepted a second time. *)
Example activated_twice :
  (fun m => length (m_activated_protocol_features m)) <$>
    (m1 ← activate_feature example_manager replace_digest UINT32_MAX;
     activate_feature m1 replace_digest UINT32_MAX) = Ok 2%nat.
Proof. vm_compute. reflexivity. Qed.

(** Every builtin counts as active when asked for that block. *)
Example inactive_at_max :
  pfm_is_builtin_activated example_manager preactivate_feature UINT32_MAX = true.
Proof. vm_compute. reflexivity. Qed.
