(* ===== verification/ChainObjects.v ===== *)
(** * The objects of the chain state

    The tables of the object database that accounts, permissions, contracts
    and deferred transactions live in: account_object.hpp, code_object.hpp,
    permission_object.hpp, permission_link_object.hpp and
    generated_transaction_object.hpp with their unique indices, the access to
    a table through one of its keys, and the constants of config.hpp they are
    used with.  A table is the [generic_index] of the object database.

    The lemmas on tables say what creating, modifying, removing and finding an
    object does to a table whose objects have their own ids and distinct
    keys, which every operation preserves. *)

From Stdlib Require Import String.
From stdpp Require Import countable.
From S2P Require Import Prelude Exceptions Text Names Merkle Authority Raw Codecs Chainbase BlockHeader.

(** ** Objects *)

(** What the template parameters of an index fix: the id of an object and the
    keys of the ordered_unique indices other than by_id. *)
Class ChainObject (V : Type) := {
  obj_id : V -> Z;
  obj_keys : list (V -> list Z)
}.

Record account_object := mk_account_object {
  ao_id : Z;
  ao_name : Z;
  creation_date : Z;
  abi : list Z
}.

#[export] Instance account_chain_object : ChainObject account_object :=
  {| obj_id := ao_id; obj_keys := [fun a => [ao_name a]] |}.

Record account_metadata_object := mk_account_metadata_object {
  amo_id : Z;
  amo_name : Z;
  recv_sequence : Z;
  auth_sequence : Z;
  code_sequence : Z;
  abi_sequence : Z;
  amo_code_hash : sha256;
  last_code_update : Z;
  flags : Z;
  amo_vm_type : Z;
  amo_vm_version : Z
}.

#[export] Instance account_metadata_chain_object : ChainObject account_metadata_object :=
  {| obj_id := amo_id; obj_keys := [fun a => [amo_name a]] |}.

(** flags_fields::privileged *)
Definition is_privileged (a : account_metadata_object) : bool := negb (Z.land (flags a) 1 =? 0).

Definition set_privileged (privileged : bool) (f : Z) : Z :=
  if privileged then Z.lor f 1 else Z.land f (u32 (Z.lnot 1)).

Record code_object := mk_code_object {
  co_id : Z;
  co_code_hash : sha256;
  co_code : list Z;
  code_ref_count : Z;
  first_block_used : Z;
  co_vm_type : Z;
  co_vm_version : Z
}.

Definition hash_words (h : sha256) : list Z := [h0 h; h1 h; h2 h; h3 h].

#[export] Instance code_chain_object : ChainObject code_object :=
  {| obj_id := co_id; obj_keys := [fun c => hash_words (co_code_hash c) ++ [co_vm_type c; co_vm_version c]] |}.

Record permission_usage_object := mk_permission_usage_object {
  puo_id : Z;
  last_used : Z
}.

#[export] Instance permission_usage_chain_object : ChainObject permission_usage_object :=
  {| obj_id := puo_id; obj_keys := [] |}.

Record permission_object := mk_permission_object {
  po_id : Z;
  usage_id : Z;
  parent : Z;
  owner : Z;
  po_name : Z;
  last_updated : Z;
  auth : authority
}.

(** by_parent, by_owner and by_name. *)
#[export] Instance permission_chain_object : ChainObject permission_object :=
  {| obj_id := po_id;
     obj_keys := [fun p => [parent p; po_id p]; fun p => [owner p; po_name p]; fun p => [po_name p; po_id p]] |}.

Record permission_link_object := mk_permission_link_object {
  plo_id : Z;
  plo_account : Z;
  plo_code : Z;
  message_type : Z;
  required_permission : Z
}.

(** by_action_name and by_permission_name. *)
#[export] Instance permission_link_chain_object : ChainObject permission_link_object :=
  {| obj_id := plo_id;
     obj_keys := [fun l => [plo_account l; plo_code l; message_type l];
                  fun l => [plo_account l; required_permission l; plo_id l]] |}.

Record generated_transaction_object := mk_generated_transaction_object {
  gto_id : Z;
  gto_trx_id : sha256;
  gto_sender : Z;
  gto_sender_id : Z;
  payer : Z;
  delay_until : Z;
  gto_expiration : Z;
  published : Z;
  gto_packed_trx : list Z
}.

(** by_trx_id, by_expiration, by_delay and by_sender_id. *)
#[export] Instance generated_transaction_chain_object : ChainObject generated_transaction_object :=
  {| obj_id := gto_id;
     obj_keys := [fun g => hash_words (gto_trx_id g); fun g => [gto_expiration g; gto_id g];
                  fun g => [delay_until g; gto_id g]; fun g => [gto_sender g; gto_sender_id g]] |}.

(** ** Access to a table *)

Section table.
Context {V : Type} `{!ChainObject V}.
Implicit Types (idx : generic_index V) (v w : V) (key : V -> list Z) (k : list Z).

(** [db.create], [db.modify] and [db.remove]; the object a reference stands
    for is given by its id. *)
Definition db_create (c : Z -> V) (idx : generic_index V) : outcome (generic_index V * V) :=
  idx' ← emplace obj_id obj_keys c idx; Ok (idx', c (next_id idx)).
Definition db_modify (id : Z) (f : V -> V) (idx : generic_index V) : outcome (generic_index V) :=
  modify obj_id obj_keys id f idx.
Definition db_remove (id : Z) (idx : generic_index V) : outcome (generic_index V) :=
  Chainbase.remove obj_id id idx.
Definition db_remove_object (id : Z) (idx : generic_index V) : outcome (generic_index V) :=
  remove_object obj_id id idx.

(** [db.find] and [db.get] through an index. *)
Definition find_by (key : V -> list Z) (k : list Z) (idx : generic_index V) : option V :=
  (fun p => p.2.2) <$> list_find (fun p => key p.2 = k) (map_to_list (indices idx)).
Definition get_by (key : V -> list Z) (k : list Z) (idx : generic_index V) : outcome V :=
  match find_by key k idx with Some v => Ok v | None => Err std_out_of_range end.

(** [equal_range] is not empty. *)
Definition exists_by (key : V -> list Z) (k : list Z) (idx : generic_index V) : bool :=
  bool_decide (is_Some (find_by key k idx)).

(** *** What the operations do *)

Record table_ok (idx : generic_index V) : Prop := {
  t_ids : forall i v, indices idx !! i = Some v -> obj_id v = i;
  t_below : forall i v, indices idx !! i = Some v -> 0 <= i < next_id idx;
  t_next : 0 <= next_id idx;
  t_unique : forall i j v w, indices idx !! i = Some v -> indices idx !! j = Some w ->
    same_key obj_keys v w = true -> i = j
}.

Lemma same_key_iff v w : same_key obj_keys v w = true <-> exists key, key ∈ obj_keys /\ key v = key w.
Proof.
  unfold same_key. rewrite existsb_exists. setoid_rewrite bool_decide_eq_true.
  by setoid_rewrite list_elem_of_In.
Qed.

Lemma table_violates_false (m : gmap Z V) v :
  violates obj_id obj_keys m v = false ->
  m !! obj_id v = None /\ forall i w, m !! i = Some w -> same_key obj_keys w v = false.
Proof.
  unfold violates. intros [H1 H2]%orb_false_elim. apply bool_decide_eq_false, eq_None_not_Some in H1.
  split; [done|]. intros i w Hw. destruct (same_key obj_keys w v) eqn:E; [|done].
  rewrite <- H2. symmetry. apply existsb_exists. exists (i, w). split; [|done].
  by apply list_elem_of_In, elem_of_map_to_list.
Qed.

Lemma table_create_ok c idx idx' v :
  table_ok idx -> (forall i, obj_id (c i) = i) -> db_create c idx = Ok (idx', v) ->
  v = c (next_id idx) /\ indices idx !! next_id idx = None /\
  indices idx' = <[next_id idx := v]> (indices idx) /\ next_id idx' = next_id idx + 1 /\ table_ok idx'.
Proof.
  intros [Hid Hb Hn Hu] Hc H. unfold db_create, emplace in H. apply bind_ok in H as (idx1 & H & [= <- <-]).
  unfold container_emplace in H. destruct (violates obj_id obj_keys (indices idx) (c (next_id idx))) eqn:Hv; [done|].
  apply bind_ok in H as (n & Hinc & [= <-]). apply table_violates_false in Hv as [Hnone Hkeys]. rewrite Hc in Hnone |- *.
  unfold increment in Hinc. destruct (next_id idx <? INT64_MAX); [|done]. injection Hinc as <-. cbn [indices next_id].
  split_and!; [done|done|done|done|]. split; cbn [indices next_id].
  - intros i w [[<- <-]|[_ Hw]]%lookup_insert_Some; [done|by apply Hid].
  - intros i w [[<- <-]|[_ Hw]]%lookup_insert_Some; [lia|]. apply Hb in Hw. lia.
  - lia.
  - intros i j w w' [[<- <-]|[_ Hw]]%lookup_insert_Some [[<- <-]|[_ Hw']]%lookup_insert_Some Hk; [done| | |by eapply Hu].
    + rewrite (same_key_sym obj_keys), (Hkeys j) in Hk; done.
    + rewrite (Hkeys i) in Hk; done.
Qed.

Lemma db_modify_ok id f idx idx' :
  table_ok idx -> (forall v, obj_id (f v) = obj_id v) -> db_modify id f idx = Ok idx' ->
  exists v, indices idx !! id = Some v /\ indices idx' = <[id := f v]> (indices idx) /\
    next_id idx' = next_id idx /\ table_ok idx'.
Proof.
  intros [Hid Hb Hn Hu] Hf H. unfold db_modify, modify in H. destruct (indices idx !! id) as [v|] eqn:Hv; [|done].
  exists v. apply bind_ok in H as (m & Hm & H). unfold container_modify in Hm. rewrite Hv in Hm. injection Hm as <-.
  unfold container_emplace in H. destruct (violates obj_id obj_keys (delete id (indices idx)) (f v)) eqn:Hvi; [done|].
  injection H as <-. cbn [indices next_id]. rewrite Hf, (Hid id v Hv), insert_delete_eq.
  apply table_violates_false in Hvi as [_ Hkeys]. split_and!; [done|done|done|]. split; cbn [indices next_id].
  - intros i w [[<- <-]|[_ Hw]]%lookup_insert_Some; [by rewrite Hf, (Hid id v)|by apply Hid].
  - intros i w [[<- <-]|[_ Hw]]%lookup_insert_Some; [by apply (Hb id v)|by apply (Hb i w)].
  - done.
  - assert (forall i w, id <> i -> indices idx !! i = Some w -> same_key obj_keys w (f v) = false) as Hk.
    { intros i w Hne Hw. apply (Hkeys i). by rewrite lookup_delete_ne. }
    intros i j w w' [[<- <-]|[Hne Hw]]%lookup_insert_Some [[<- <-]|[Hne' Hw']]%lookup_insert_Some Hs; [done| | |by eapply Hu].
    + rewrite (same_key_sym obj_keys), (Hk j) in Hs; done.
    + rewrite (Hk i) in Hs; done.
Qed.

Lemma db_remove_ok id idx idx' :
  table_ok idx -> db_remove id idx = Ok idx' ->
  exists v, indices idx !! id = Some v /\ indices idx' = delete id (indices idx) /\
    next_id idx' = next_id idx /\ table_ok idx'.
Proof.
  intros [Hid Hb Hn Hu] H. unfold db_remove, Chainbase.remove in H. destruct (indices idx !! id) as [v|] eqn:Hv; [|done].
  exists v. apply bind_ok in H as (m & Hm & [= <-]). unfold container_erase in Hm. rewrite Hv in Hm. injection Hm as <-.
  cbn [indices next_id]. split_and!; [done|done|done|]. split; cbn [indices next_id].
  - intros i w [_ Hw]%lookup_delete_Some. by apply Hid.
  - intros i w [_ Hw]%lookup_delete_Some. by apply (Hb i w).
  - done.
  - intros i j w w' [_ Hw]%lookup_delete_Some [_ Hw']%lookup_delete_Some. by apply Hu.
Qed.

Lemma db_remove_object_ok id idx idx' :
  table_ok idx -> db_remove_object id idx = Ok idx' ->
  exists v, indices idx !! id = Some v /\ indices idx' = delete id (indices idx) /\
    next_id idx' = next_id idx /\ table_ok idx'.
Proof.
  intros Hok H. unfold db_remove_object, remove_object in H. destruct (indices idx !! id) as [v|] eqn:Hv; [|done].
  destruct (db_remove_ok id idx idx' Hok H) as (w & Hw & Hr). exists v. split; [done|exact Hr].
Qed.

Lemma find_by_Some key k idx v :
  find_by key k idx = Some v -> (exists i, indices idx !! i = Some v) /\ key v = k.
Proof.
  unfold find_by. intros ([n [i w]] & Hf & ->)%fmap_Some. apply list_find_Some in Hf as (Hl & Hk & _).
  apply list_elem_of_lookup_2, elem_of_map_to_list in Hl. split; [by exists i|done].
Qed.

Lemma find_by_None key k idx : find_by key k idx = None <-> forall i v, indices idx !! i = Some v -> key v <> k.
Proof.
  unfold find_by. rewrite fmap_None, list_find_None, list.Forall_forall. split.
  - intros H i v Hv. apply (H (i, v)). by apply elem_of_map_to_list.
  - intros H [i v] Hv%elem_of_map_to_list. by apply (H i).
Qed.

Lemma find_by_unique key k idx i v :
  table_ok idx -> key ∈ obj_keys -> indices idx !! i = Some v -> key v = k -> find_by key k idx = Some v.
Proof.
  intros Hok Hkey Hv Hk. destruct (find_by key k idx) as [w|] eqn:E.
  - apply find_by_Some in E as [[j Hw] Hwk]. assert (i = j) as ->; [|congruence].
    apply (t_unique idx Hok i j v w); [done|done|]. apply same_key_iff. exists key. split; [done|congruence].
  - by apply (proj1 (find_by_None key k idx) E i v) in Hv.
Qed.

Lemma get_by_ok key k idx v : get_by key k idx = Ok v -> find_by key k idx = Some v.
Proof. unfold get_by. destruct (find_by key k idx); [by intros [= ->]|done]. Qed.

End table.

Lemma empty_table_ok {V} `{!ChainObject V} : table_ok (empty_index (V := V)).
Proof. split; [done|done|done|]. intros i j v w H. done. Qed.

(** ** Names and sizes *)

Definition system_account_name : Z := Eval vm_compute in string_to_uint64_t (lit "inery").
Definition null_account_name : Z := Eval vm_compute in string_to_uint64_t (lit "inery.null").
Definition producers_account_name : Z := Eval vm_compute in string_to_uint64_t (lit "inery.prods").
Definition majority_producers_permission_name : Z := Eval vm_compute in string_to_uint64_t (lit "prod.major").
Definition minority_producers_permission_name : Z := Eval vm_compute in string_to_uint64_t (lit "prod.minor").
Definition active_name : Z := Eval vm_compute in string_to_uint64_t (lit "active").
Definition owner_name : Z := Eval vm_compute in string_to_uint64_t (lit "owner").
Definition inery_any_name : Z := Eval vm_compute in string_to_uint64_t (lit "inery.any").
Definition inery_code_name : Z := Eval vm_compute in string_to_uint64_t (lit "inery.code").

Definition fixed_overhead_shared_vector_mem_bytes : Z := 16.
Definition overhead_per_row_per_index_mem_bytes : Z := 32.
Definition overhead_per_account_mem_bytes : Z := 2 * 1024.
Definition setcode_mem_bytes_multiplier : Z := 10.
Definition billable_alignment : Z := 16.

(** [billable_size_v] of a [billable_size<T>::value]. *)
Definition billable_size_v (value : Z) : Z :=
  u64 (u64 (u64 (value + billable_alignment) - 1) / billable_alignment * billable_alignment).

Definition billable_permission_level_weight : Z := billable_size_v 24.
Definition billable_key_weight : Z := billable_size_v 8.
Definition billable_wait_weight : Z := billable_size_v 16.
Definition billable_shared_authority : Z := billable_size_v (3 * fixed_overhead_shared_vector_mem_bytes + 4).
Definition billable_permission_object : Z :=
  billable_size_v ((billable_shared_authority + 64) + 5 * overhead_per_row_per_index_mem_bytes).
Definition billable_permission_link_object : Z :=
  billable_size_v (40 + overhead_per_row_per_index_mem_bytes * 3).
Definition billable_generated_transaction_object : Z :=
  billable_size_v (96 + 4 + overhead_per_row_per_index_mem_bytes * 5).

(** [fc::raw::pack_size]. *)
Definition pack_size {A} (c : codec A) (a : A) : outcome Z :=
  ws ← pack c a; Ok (foldl (fun n d => ds_count d n) 0 ws).

Fixpoint keys_size (l : list key_weight) (size : Z) : outcome Z :=
  match l with
  | [] => Ok size
  | k :: l' =>
      n ← pack_size public_key_codec (kw_key k);
      keys_size l' (u64 (u64 (size + billable_key_weight) + n))
  end.

(** [shared_authority::get_billable_size] *)
Definition get_billable_size (a : authority) : outcome Z :=
  let accounts_size := u64 (Z.of_nat (length (accounts a)) * billable_permission_level_weight) in
  let waits_size := u64 (Z.of_nat (length (waits a)) * billable_wait_weight) in
  ks ← keys_size (keys a) 0;
  Ok (u64 (u64 (accounts_size + waits_size) + ks)).
