(* ===== verification/Permissions.v ===== *)
(** * Permissions

    Models permission_object.hpp ([satisfies]) and the part of
    authorization_manager.cpp that keeps permissions and links: creating,
    modifying, removing and finding them, their usage, and the rows of a
    snapshot.

    The controller is the record [chain_env] of what the code asks it.

    The theorems: in a table of permissions in which every permission is a
    root or has a parent of the same owner created before it, [satisfies] ends
    and decides whether a permission is another or one of its ancestors. *)

From Stdlib Require Import Sorted.
From S2P Require Import Prelude Exceptions Merkle Authority ResourceLimits Chainbase BlockHeader ProtocolFeatures ChainObjects.

(** ** State *)

Record chain_db := mk_chain_db {
  account_index : generic_index account_object;
  account_metadata_index : generic_index account_metadata_object;
  code_index : generic_index code_object;
  permission_usage_index : generic_index permission_usage_object;
  permission_index : generic_index permission_object;
  permission_link_index : generic_index permission_link_object;
  generated_transaction_index : generic_index generated_transaction_object;
  resource_limits : rl_db
}.

Definition with_accounts (db : chain_db) i : chain_db :=
  mk_chain_db i (account_metadata_index db) (code_index db) (permission_usage_index db) (permission_index db)
    (permission_link_index db) (generated_transaction_index db) (resource_limits db).
Definition with_metadata (db : chain_db) i : chain_db :=
  mk_chain_db (account_index db) i (code_index db) (permission_usage_index db) (permission_index db)
    (permission_link_index db) (generated_transaction_index db) (resource_limits db).
Definition with_code (db : chain_db) i : chain_db :=
  mk_chain_db (account_index db) (account_metadata_index db) i (permission_usage_index db) (permission_index db)
    (permission_link_index db) (generated_transaction_index db) (resource_limits db).
Definition with_permissions (db : chain_db) u p : chain_db :=
  mk_chain_db (account_index db) (account_metadata_index db) (code_index db) u p
    (permission_link_index db) (generated_transaction_index db) (resource_limits db).
Definition with_links (db : chain_db) i : chain_db :=
  mk_chain_db (account_index db) (account_metadata_index db) (code_index db) (permission_usage_index db)
    (permission_index db) i (generated_transaction_index db) (resource_limits db).
Definition with_generated (db : chain_db) i : chain_db :=
  mk_chain_db (account_index db) (account_metadata_index db) (code_index db) (permission_usage_index db)
    (permission_index db) (permission_link_index db) i (resource_limits db).
Definition with_resources (db : chain_db) r : chain_db :=
  mk_chain_db (account_index db) (account_metadata_index db) (code_index db) (permission_usage_index db)
    (permission_index db) (permission_link_index db) (generated_transaction_index db) r.

(** What the controller, its configuration and the protocol state say. *)
Record chain_env := mk_chain_env {
  pending_block_time : Z;
  head_block_num : Z;
  max_transaction_delay : Z;
  max_authority_depth : Z;
  num_supported_key_types : Z;
  is_builtin_activated : builtin_protocol_feature_t -> bool;
  enforce_whiteblacklist : bool;
  is_producing_block : bool;
  key_blacklist : list public_key
}.

(** ** permission_object *)

(** The loop of [satisfies] at the permission [p].  A permission that is not
    found is a dereferenced end iterator; [None] for a loop that did not end
    within its fuel. *)
Fixpoint satisfies_loop (fuel : nat) (id : Z) (idx : generic_index permission_object) (p : permission_object)
    : option (outcome bool) :=
  if id =? parent p then Some (Ok true)
  else if parent p =? 0 then Some (Ok false)
  else match fuel with
       | O => None
       | S fuel' =>
           match indices idx !! parent p with
           | Some p' => satisfies_loop fuel' id idx p'
           | None => Some (Err undefined_behaviour)
           end
       end.

Definition satisfies (p other : permission_object) (idx : generic_index permission_object)
    : option (outcome bool) :=
  if negb (owner p =? owner other) then Some (Ok false)
  else if (po_id p =? po_id other) || (po_id p =? parent other) then Some (Ok true)
  else match indices idx !! parent other with
       | Some par => satisfies_loop (size (indices idx)) (po_id p) idx par
       | None => Some (Err undefined_behaviour)
       end.

(** ** authorization_manager *)

Definition by_owner (p : permission_object) : list Z := [owner p; po_name p].
Definition by_name (p : permission_object) : list Z := [po_name p].
Definition by_parent (p : permission_object) : list Z := [parent p].
Definition by_action_name (l : permission_link_object) : list Z := [plo_account l; plo_code l; message_type l].
Definition by_permission_name (l : permission_link_object) : list Z := [plo_account l; required_permission l].

(** The default constructed authority. *)
Definition empty_authority : authority := mk_authority 0 [] [] [].

(** Permission 0 is reserved. *)
Definition authorization_initialize_database (db : chain_db) : outcome chain_db :=
  '(perms, _) ← db_create (fun id => mk_permission_object id 0 0 0 0 0 empty_authority) (permission_index db);
  Ok (with_permissions db (permission_usage_index db) perms).

Definition keys_supported (env : chain_env) (a : authority) : outcome unit :=
  ine_assert (forallb (fun k => which (kw_key k) <? num_supported_key_types env) (keys a))
    (Throw unactivated_key_type).

Definition create_permission (env : chain_env) (account name parent : Z) (a : authority)
    (initial_creation_time : Z) (db : chain_db) : outcome (chain_db * permission_object) :=
  keys_supported env a ;;
  let creation_time := if initial_creation_time =? 0 then pending_block_time env else initial_creation_time in
  '(usages, perm_usage) ← db_create (fun id => mk_permission_usage_object id creation_time)
                            (permission_usage_index db);
  '(perms, perm) ← db_create (fun id =>
      mk_permission_object id (puo_id perm_usage) parent account name creation_time a) (permission_index db);
  Ok (with_permissions db usages perms, perm).

Definition modify_permission (env : chain_env) (p : permission_object) (a : authority) (db : chain_db)
    : outcome chain_db :=
  keys_supported env a ;;
  perms ← db_modify (po_id p) (fun po =>
      mk_permission_object (po_id po) (usage_id po) (parent po) (owner po) (po_name po)
        (pending_block_time env) a) (permission_index db);
  Ok (with_permissions db (permission_usage_index db) perms).

Definition remove_permission (p : permission_object) (db : chain_db) : outcome chain_db :=
  ine_assert (negb (exists_by by_parent [po_id p] (permission_index db))) (Throw action_validate_exception) ;;
  usages ← db_remove_object (usage_id p) (permission_usage_index db);
  perms ← db_remove (po_id p) (permission_index db);
  Ok (with_permissions db usages perms).

Definition update_permission_usage (env : chain_env) (p : permission_object) (db : chain_db) : outcome chain_db :=
  puo ← Chainbase.get (usage_id p) (permission_usage_index db);
  usages ← db_modify (puo_id puo) (fun u => mk_permission_usage_object (puo_id u) (pending_block_time env))
             (permission_usage_index db);
  Ok (with_permissions db usages (permission_index db)).

Definition get_permission_last_used (p : permission_object) (db : chain_db) : outcome Z :=
  puo ← Chainbase.get (usage_id p) (permission_usage_index db); Ok (last_used puo).

Definition find_permission (level : permission_level) (db : chain_db) : outcome (option permission_object) :=
  ine_rethrow_exceptions permission_query_exception (
    ine_assert (negb (actor level =? 0) && negb (permission level =? 0)) (Throw invalid_permission) ;;
    Ok (find_by by_owner [actor level; permission level] (permission_index db))).

Definition get_permission (level : permission_level) (db : chain_db) : outcome permission_object :=
  ine_rethrow_exceptions permission_query_exception (
    ine_assert (negb (actor level =? 0) && negb (permission level =? 0)) (Throw invalid_permission) ;;
    get_by by_owner [actor level; permission level] (permission_index db)).

Definition lookup_linked_permission (authorizer_account scope act_name : Z) (db : chain_db) : option Z :=
  let link := find_by by_action_name [authorizer_account; scope; act_name] (permission_link_index db) in
  let link := match link with
              | None => find_by by_action_name [authorizer_account; scope; 0] (permission_link_index db)
              | Some l => Some l
              end in
  required_permission <$> link.

(** ** The hierarchy *)

(** [p] is [q] or above it. *)
Inductive above (idx : generic_index permission_object) (p : permission_object) : permission_object -> Prop :=
  | above_refl : above idx p p
  | above_parent q r : parent q <> 0 -> indices idx !! parent q = Some r -> above idx p r -> above idx p q.

Record forest (idx : generic_index permission_object) : Prop := {
  f_table : table_ok idx;
  f_reserved : exists r, indices idx !! 0 = Some r /\ parent r = 0 /\ owner r = 0 /\ po_name r = 0;
  f_named : forall i p, indices idx !! i = Some p -> i <> 0 -> owner p <> 0 /\ po_name p <> 0;
  f_root : forall i p, indices idx !! i = Some p -> i <> 0 -> parent p = 0 <-> po_name p = owner_name;
  f_parent : forall i p, indices idx !! i = Some p -> parent p <> 0 ->
    parent p < i /\ exists q, indices idx !! parent p = Some q /\ owner q = owner p;
  f_active : forall i p, indices idx !! i = Some p -> po_name p = active_name ->
    exists q, indices idx !! parent p = Some q /\ po_name q = owner_name
}.

Lemma forest_id idx i p : forest idx -> indices idx !! i = Some p -> po_id p = i.
Proof. intros Hf. apply (t_ids idx (f_table idx Hf)). Qed.

Lemma forest_id_nonneg idx i p : forest idx -> indices idx !! i = Some p -> 0 <= i.
Proof. intros Hf Hp. apply (t_below idx (f_table idx Hf)) in Hp. lia. Qed.

Lemma above_owner idx p q i : forest idx -> indices idx !! i = Some q -> above idx p q -> owner p = owner q.
Proof.
  intros Hf Hq H. revert i Hq. induction H as [|q r Hne Hr H IH]; intros i Hq; [done|].
  destruct (f_parent idx Hf i q Hq Hne) as (_ & r' & Hr' & Ho). rewrite Hr in Hr'. injection Hr' as <-.
  rewrite <- Ho. by apply (IH (parent q)).
Qed.

(** The number of permissions created before the id [i]. *)
Definition older (idx : generic_index permission_object) (i : Z) : nat :=
  size (filter (fun kv => kv.1 < i) (indices idx)).

Lemma older_parent idx i p :
  forest idx -> indices idx !! i = Some p -> parent p <> 0 -> (older idx (parent p) < older idx i)%nat.
Proof.
  intros Hf Hp Hne. destruct (f_parent idx Hf i p Hp Hne) as (Hlt & q & Hq & _).
  set (low := filter (fun kv : Z * permission_object => kv.1 < parent p) (indices idx)).
  assert (<[parent p := q]> low ⊆ filter (fun kv => kv.1 < i) (indices idx)) as Hsub.
  { apply map_subseteq_spec. intros j x [[<- <-]|[_ Hj]]%lookup_insert_Some; apply map_lookup_filter_Some.
    - by split.
    - apply map_lookup_filter_Some in Hj as [Hj Hlow]. cbn in *. split; [done|lia]. }
  apply map_subseteq_size in Hsub. rewrite map_size_insert_None in Hsub; [unfold older; subst low; lia|].
  apply map_lookup_filter_None. right. intros x _. cbn. lia.
Qed.

Lemma older_size idx i : (older idx i <= size (indices idx))%nat.
Proof. apply map_subseteq_size, map_filter_subseteq. Qed.

(** The loop decides whether [id] is a proper ancestor. *)
Lemma satisfies_loop_spec fuel idx id i p :
  forest idx -> indices idx !! i = Some p -> id <> 0 -> (older idx i <= fuel)%nat ->
  exists b, satisfies_loop fuel id idx p = Some (Ok b) /\
    (b = true <-> exists q, parent p <> 0 /\ indices idx !! parent p = Some q /\
                            exists a, above idx a q /\ po_id a = id).
Proof.
  intros Hf Hp Hid. revert i p Hp. induction fuel as [|fuel IH]; intros i p Hp Hfuel; cbn [satisfies_loop];
    destruct (Z.eqb_spec id (parent p)) as [E|E].
  1,3: exists true; split; [done|]; split; [intros _|done];
    destruct (f_parent idx Hf i p Hp) as (_ & q & Hq & _); [congruence|]; exists q;
    split_and!; [congruence|done|]; exists q; split; [constructor|]; rewrite E; by apply (forest_id idx).
  all: destruct (Z.eqb_spec (parent p) 0) as [E0|E0].
  1,3: exists false; split; [done|]; split; [done|]; by intros (q & ? & _).
  - pose proof (older_parent idx i p Hf Hp E0). lia.
  - destruct (f_parent idx Hf i p Hp E0) as (_ & q & Hq & _). rewrite Hq.
    destruct (IH (parent p) q Hq) as (b & -> & Hb).
    { pose proof (older_parent idx i p Hf Hp E0). lia. }
    exists b. split; [done|]. rewrite Hb. split.
    + intros (r & Hr0 & Hr & a & Ha & <-). exists q. split_and!; [done|done|]. exists a. split; [|done].
      by apply (above_parent idx a q r).
    + intros (r & _ & [= <-] & a & Ha & Hida).
      destruct Ha as [|q' r Hr0 Hr Ha]; [|exists r; split_and!; eauto].
      exfalso. apply E. rewrite <- Hida. by apply (forest_id idx).
Qed.

Lemma above_in idx p q i : indices idx !! i = Some q -> above idx p q -> exists j, indices idx !! j = Some p.
Proof. intros Hq H. revert i Hq. induction H as [|q r Hne Hr H IH]; intros i Hq; eauto. Qed.

Lemma satisfies_spec idx i j p q :
  forest idx -> indices idx !! i = Some p -> indices idx !! j = Some q -> i <> 0 -> j <> 0 ->
  exists b, satisfies p q idx = Some (Ok b) /\ (b = true <-> above idx p q).
Proof.
  intros Hf Hp Hq Hi Hj. pose proof (forest_id idx i p Hf Hp) as Hpi. pose proof (forest_id idx j q Hf Hq) as Hqj.
  unfold satisfies. destruct (Z.eqb_spec (owner p) (owner q)) as [Eo|Eo]; cbn [negb].
  2: { exists false. split; [done|]. split; [done|]. intros H%(above_owner idx p q j); done. }
  destruct (Z.eqb_spec (po_id p) (po_id q)) as [E|E]; cbn [orb].
  { exists true. split; [done|]. split; [intros _|done]. assert (p = q) as -> by congruence. constructor. }
  destruct (Z.eqb_spec (po_id p) (parent q)) as [Ep|Ep].
  { exists true. split; [done|]. split; [intros _|done]. rewrite Hpi in Ep.
    apply (above_parent idx p q p); [congruence|by rewrite <- Ep|constructor]. }
  destruct (decide (parent q = 0)) as [E0|E0].
  - destruct (f_reserved idx Hf) as (r & Hr & Hr0 & _). rewrite E0, Hr.
    assert (satisfies_loop (size (indices idx)) (po_id p) idx r = Some (Ok false)) as ->.
    { destruct (size (indices idx)); cbn [satisfies_loop]; rewrite Hr0;
        (destruct (Z.eqb_spec (po_id p) 0); [congruence|done]). }
    exists false. split; [done|]. split; [done|]. intros H. destruct H; [|congruence]. congruence.
  - destruct (f_parent idx Hf j q Hq E0) as (_ & par & Hpar & _). rewrite Hpar.
    destruct (satisfies_loop_spec (size (indices idx)) idx (po_id p) (parent q) par Hf Hpar) as (b & -> & Hb);
      [congruence|apply older_size|].
    exists b. split; [done|]. rewrite Hb. split.
    + intros (r & Hr0 & Hr & a & Ha & Hida). apply (above_parent idx p q par); [done|done|].
      apply (above_parent idx p par r); [done|done|].
      destruct (above_in idx a r _ Hr Ha) as [k Hk]. pose proof (forest_id idx k a Hf Hk).
      assert (a = p) as -> by congruence. done.
    + intros H. destruct H as [|q r _ Hr H]; [congruence|]. rewrite Hpar in Hr. injection Hr as <-.
      destruct H as [|par r Hr0 Hr H]; [by rewrite (forest_id idx (parent q) p) in Ep|].
      exists r. split_and!; [done|done|]. by exists p.
Qed.

(** ** The hierarchy is kept *)

Lemma forest_next idx : forest idx -> 0 < next_id idx.
Proof. intros Hf. destruct (f_reserved idx Hf) as (r & Hr & _). apply (t_below idx (f_table idx Hf)) in Hr. lia. Qed.

Lemma reserved_forest idx p :
  db_create (fun id => mk_permission_object id 0 0 0 0 0 empty_authority) empty_index = Ok (idx, p) -> forest idx.
Proof.
  intros H. apply (table_create_ok _ _ _ _ empty_table_ok) in H as (-> & _ & Hi & Hn & Ht); [|done].
  cbn [empty_index indices next_id] in Hi.
  assert (forall i q, indices idx !! i = Some q -> i = 0 /\ q = mk_permission_object 0 0 0 0 0 0 empty_authority) as Honly.
  { intros i q. rewrite Hi, lookup_insert_Some, lookup_empty. naive_solver. }
  split; [done| | | | |].
  - eexists. split; [rewrite Hi; apply lookup_insert_eq|done].
  - intros i q [-> _]%Honly. done.
  - intros i q [-> _]%Honly. done.
  - intros i q [_ ->]%Honly. done.
  - intros i q [_ ->]%Honly. done.
Qed.

Lemma forest_create idx idx' v usage parent account name time a :
  forest idx ->
  db_create (fun id => mk_permission_object id usage parent account name time a) idx = Ok (idx', v) ->
  account <> 0 -> name <> 0 -> (parent = 0 <-> name = owner_name) ->
  (parent <> 0 -> exists q, indices idx !! parent = Some q /\ owner q = account) ->
  (name = active_name -> exists q, indices idx !! parent = Some q /\ po_name q = owner_name) ->
  forest idx'.
Proof.
  intros Hf H Ha Hn Hroot Hpar Hact. pose proof (forest_next idx Hf) as Hnext.
  apply (table_create_ok _ _ _ _ (f_table idx Hf)) in H as (-> & Hnone & Hi & Hnx & Ht); [|done].
  assert (forall i q, indices idx !! i = Some q -> indices idx' !! i = Some q) as Hkeep.
  { intros i q Hq. rewrite Hi, lookup_insert_ne; [done|]. intros <-. congruence. }
  split; [done| | | | |].
  - destruct (f_reserved idx Hf) as (r & Hr & ?). exists r. split; [by apply Hkeep|done].
  - intros i p Hp Hi0. rewrite Hi in Hp. apply lookup_insert_Some in Hp as [[<- <-]|[_ Hp]]; [done|].
    by apply (f_named idx Hf i).
  - intros i p Hp Hi0. rewrite Hi in Hp. apply lookup_insert_Some in Hp as [[<- <-]|[_ Hp]]; [done|].
    by apply (f_root idx Hf i).
  - intros i p Hp Hne. rewrite Hi in Hp. apply lookup_insert_Some in Hp as [[<- <-]|[_ Hp]].
    + cbn in Hne |- *. destruct (Hpar Hne) as (q & Hq & Ho). split; [|exists q; split; [by apply Hkeep|done]].
      apply (t_below idx (f_table idx Hf)) in Hq. lia.
    + destruct (f_parent idx Hf i p Hp Hne) as (Hlt & q & Hq & Ho). split; [done|]. exists q. split; [by apply Hkeep|done].
  - intros i p Hp Hname. rewrite Hi in Hp. apply lookup_insert_Some in Hp as [[<- <-]|[_ Hp]].
    + destruct (Hact Hname) as (q & Hq & Ho). exists q. split; [by apply Hkeep|done].
    + destruct (f_active idx Hf i p Hp Hname) as (q & Hq & Ho). exists q. split; [by apply Hkeep|done].
Qed.

(** Only the authority and the time of a permission change. *)
Definition same_place (p q : permission_object) : Prop :=
  po_id q = po_id p /\ usage_id q = usage_id p /\ parent q = parent p /\ owner q = owner p /\ po_name q = po_name p.

Lemma forest_replace idx idx' :
  forest idx -> table_ok idx' ->
  (forall i p, indices idx !! i = Some p -> exists q, indices idx' !! i = Some q /\ same_place p q) ->
  (forall i q, indices idx' !! i = Some q -> exists p, indices idx !! i = Some p /\ same_place p q) ->
  forest idx'.
Proof.
  intros Hf Ht Hfwd Hbwd. split; [done| | | | |].
  - destruct (f_reserved idx Hf) as (r & Hr & H1 & H2 & H3). destruct (Hfwd 0 r Hr) as (q & Hq & _ & _ & E1 & E2 & E3).
    exists q. split_and!; congruence.
  - intros i q (p & Hp & _ & _ & _ & -> & ->)%Hbwd. by apply (f_named idx Hf i).
  - intros i q (p & Hp & _ & _ & -> & _ & ->)%Hbwd. by apply (f_root idx Hf i).
  - intros i q (p & Hp & _ & _ & -> & -> & _)%Hbwd Hne. destruct (f_parent idx Hf i p Hp Hne) as (Hlt & r & Hr & Ho).
    destruct (Hfwd _ r Hr) as (r' & Hr' & _ & _ & _ & E & _). split; [done|]. exists r'. split; [done|congruence].
  - intros i q (p & Hp & _ & _ & -> & _ & ->)%Hbwd Hname. destruct (f_active idx Hf i p Hp Hname) as (r & Hr & Ho).
    destruct (Hfwd _ r Hr) as (r' & Hr' & _ & _ & _ & _ & E). exists r'. split; [done|congruence].
Qed.

Lemma forest_remove idx idx' i p :
  forest idx -> indices idx !! i = Some p -> i <> 0 -> exists_by by_parent [i] idx = false ->
  table_ok idx' -> indices idx' = delete i (indices idx) -> forest idx'.
Proof.
  intros Hf Hp Hi0 Hch Ht Hi. unfold exists_by in Hch. apply bool_decide_eq_false, eq_None_not_Some in Hch.
  assert (forall j q, indices idx' !! j = Some q -> j <> i /\ indices idx !! j = Some q) as Hsub.
  { intros j q. rewrite Hi, lookup_delete_Some. naive_solver. }
  assert (forall j q r, indices idx !! j = Some q -> indices idx !! parent q = Some r -> indices idx' !! parent q = Some r) as Hkeep.
  { intros j q r Hq Hr. rewrite Hi, lookup_delete_ne; [done|]. intros E.
    apply (proj1 (find_by_None _ _ _) Hch j q Hq). unfold by_parent. by rewrite E. }
  split; [done| | | | |].
  - destruct (f_reserved idx Hf) as (r & Hr & ?). exists r. split; [|done]. rewrite Hi, lookup_delete_ne; done.
  - intros j q [_ Hq]%Hsub. by apply (f_named idx Hf j).
  - intros j q [_ Hq]%Hsub. by apply (f_root idx Hf j).
  - intros j q [_ Hq]%Hsub Hne. destruct (f_parent idx Hf j q Hq Hne) as (Hlt & r & Hr & Ho). split; [done|].
    exists r. split; [by eapply Hkeep|done].
  - intros j q [_ Hq]%Hsub Hname. destruct (f_active idx Hf j q Hq Hname) as (r & Hr & Ho).
    exists r. split; [by eapply Hkeep|done].
Qed.

(** In a well-formed hierarchy [satisfies] ends within as many rounds as
    there are permissions, and decides whether the permission is the other one
    or one of its ancestors; it never follows a parent that is not there. *)
Theorem satisfies_exact idx i j p q :
  forest idx -> indices idx !! i = Some p -> indices idx !! j = Some q -> i <> 0 -> j <> 0 ->
  satisfies p q idx = Some (Ok true) /\ above idx p q \/
  satisfies p q idx = Some (Ok false) /\ ~ above idx p q.
Proof.
  intros Hf Hp Hq Hi Hj. destruct (satisfies_spec idx i j p q Hf Hp Hq Hi Hj) as ([] & E & Hb); [left|right].
  - split; [done|]. by apply Hb.
  - split; [done|]. intros H%Hb. done.
Qed.

(** ** Permissions and their usage *)

Record perm_inv (db : chain_db) : Prop := {
  pi_forest : forest (permission_index db);
  pi_usages : table_ok (permission_usage_index db);
  pi_usage : forall i p, indices (permission_index db) !! i = Some p -> i <> 0 ->
    is_Some (indices (permission_usage_index db) !! usage_id p);
  pi_usage_inj : forall i j p q, indices (permission_index db) !! i = Some p ->
    indices (permission_index db) !! j = Some q -> i <> 0 -> j <> 0 -> usage_id p = usage_id q -> i = j
}.

Lemma create_permission_ok env account name par a time db db' p :
  perm_inv db -> create_permission env account name par a time db = Ok (db', p) ->
  account <> 0 -> name <> 0 -> (par = 0 <-> name = owner_name) ->
  (par <> 0 -> exists q, indices (permission_index db) !! par = Some q /\ owner q = account) ->
  (name = active_name -> exists q, indices (permission_index db) !! par = Some q /\ po_name q = owner_name) ->
  perm_inv db' /\ db' = with_permissions db (permission_usage_index db') (permission_index db') /\
  indices (permission_index db) !! po_id p = None /\
  indices (permission_index db') = <[po_id p := p]> (indices (permission_index db)) /\
  po_id p <> 0 /\ owner p = account /\ po_name p = name /\ parent p = par /\ auth p = a.
Proof.
  intros [Hf Hu Hus Hinj] H Ha Hn Hroot Hpar Hact. unfold create_permission in H.
  apply bind_ok in H as ([] & _ & H). apply bind_ok in H as ([us pu] & Hpu & H).
  apply bind_ok in H as ([ps perm] & Hps & [= <- <-]).
  pose proof (forest_create _ _ _ _ _ _ _ _ _ Hf Hps Ha Hn Hroot Hpar Hact) as Hf'.
  pose proof (forest_next _ Hf) as Hnext.
  apply (table_create_ok _ _ _ _ Hu) in Hpu as (-> & Hunone & Hui & Hun & Hut); [|done].
  apply (table_create_ok _ _ _ _ (f_table _ Hf)) in Hps as (-> & Hpnone & Hpi & Hpn & Hpt); [|done].
  cbn [with_permissions permission_index permission_usage_index po_id owner po_name parent auth puo_id] in *.
  split; [|split_and!; [done|done|done|lia|done|done|done|done]].
  split; cbn [with_permissions permission_index permission_usage_index].
  - done.
  - done.
  - intros i q Hq Hi. rewrite Hpi in Hq. apply lookup_insert_Some in Hq as [[<- <-]|[_ Hq]]; cbn [usage_id].
    + rewrite Hui, lookup_insert_eq. eauto.
    + rewrite Hui. apply lookup_insert_is_Some. right. split; [|by apply (Hus i)].
      intros E. destruct (Hus i q Hq Hi) as [x Hx]. rewrite <- E in Hx. congruence.
  - assert (forall i q, indices (permission_index db) !! i = Some q -> i <> 0 ->
      usage_id q <> next_id (permission_usage_index db)) as Hne.
    { intros i q Hq Hi E. destruct (Hus i q Hq Hi) as [x Hx]. rewrite E in Hx. congruence. }
    intros i j q r Hq Hr Hi Hj E. rewrite Hpi in Hq, Hr.
    apply lookup_insert_Some in Hq as [[<- <-]|[_ Hq]]; apply lookup_insert_Some in Hr as [[<- <-]|[_ Hr]];
      cbn [usage_id] in E; [done| | |by eapply Hinj].
    + exfalso. by apply (Hne j r).
    + exfalso. by apply (Hne i q).
Qed.

Lemma modify_permission_ok env p a db db' :
  perm_inv db -> modify_permission env p a db = Ok db' ->
  perm_inv db' /\ db' = with_permissions db (permission_usage_index db) (permission_index db') /\
  exists q, indices (permission_index db) !! po_id p = Some q /\
    indices (permission_index db') = <[po_id p := mk_permission_object (po_id q) (usage_id q) (parent q) (owner q)
      (po_name q) (pending_block_time env) a]> (indices (permission_index db)).
Proof.
  intros [Hf Hu Hus Hinj] H. unfold modify_permission in H. apply bind_ok in H as ([] & _ & H).
  apply bind_ok in H as (ps & Hps & [= <-]).
  apply (db_modify_ok _ _ _ _ (f_table _ Hf)) in Hps as (q & Hq & Hi & Hn & Ht); [|done].
  cbn [with_permissions permission_index permission_usage_index]. split; [|split; [done|by exists q]].
  assert (forall i r, indices (permission_index db) !! i = Some r ->
    exists r', indices ps !! i = Some r' /\ same_place r r') as Hfwd.
  { intros i r Hr. rewrite Hi. destruct (decide (po_id p = i)) as [<-|Hne].
    - rewrite lookup_insert_eq. assert (r = q) as -> by congruence. eexists. by split.
    - rewrite lookup_insert_ne by done. by exists r. }
  assert (forall i r', indices ps !! i = Some r' ->
    exists r, indices (permission_index db) !! i = Some r /\ same_place r r') as Hbwd.
  { intros i r' Hr. rewrite Hi in Hr. apply lookup_insert_Some in Hr as [[<- <-]|[_ Hr]]; eexists; by split. }
  split; cbn [with_permissions permission_index permission_usage_index].
  - by apply (forest_replace (permission_index db)).
  - done.
  - intros i r (r' & Hr & _ & -> & _)%Hbwd Hi0. by apply (Hus i).
  - intros i j r s (r' & Hr & _ & -> & _)%Hbwd (s' & Hs & _ & -> & _)%Hbwd. by apply Hinj.
Qed.

Lemma remove_permission_ok i p db db' :
  perm_inv db -> indices (permission_index db) !! i = Some p -> i <> 0 -> remove_permission p db = Ok db' ->
  perm_inv db' /\ db' = with_permissions db (permission_usage_index db') (permission_index db') /\
  indices (permission_index db') = delete i (indices (permission_index db)) /\
  exists_by by_parent [i] (permission_index db) = false.
Proof.
  intros [Hf Hu Hus Hinj] Hp Hi0 H. pose proof (forest_id _ _ _ Hf Hp) as Hid. unfold remove_permission in H.
  apply bind_ok in H as ([] & Hch%ine_assert_ok & H). apply bind_ok in H as (us & Hus' & H).
  apply bind_ok in H as (ps & Hps & [= <-]). rewrite Hid in *.
  apply (db_remove_object_ok _ _ _ Hu) in Hus' as (x & Hx & Hui & Hun & Hut).
  apply (db_remove_ok _ _ _ (f_table _ Hf)) in Hps as (q & Hq & Hpi & Hpn & Hpt).
  apply negb_true_iff in Hch.
  cbn [with_permissions permission_index permission_usage_index]. split; [|by split_and!].
  split; cbn [with_permissions permission_index permission_usage_index].
  - by apply (forest_remove (permission_index db) ps i p).
  - done.
  - intros j r Hr Hj. rewrite Hpi in Hr. apply lookup_delete_Some in Hr as [Hne Hr]. rewrite Hui, lookup_delete_ne.
    + by apply (Hus j).
    + intros E. apply Hne. by apply (Hinj i j p r).
  - intros j k r s Hr Hs. rewrite Hpi in Hr, Hs. apply lookup_delete_Some in Hr as [_ Hr], Hs as [_ Hs]. by apply Hinj.
Qed.

Lemma update_permission_usage_ok env p db db' :
  perm_inv db -> update_permission_usage env p db = Ok db' ->
  perm_inv db' /\ db' = with_permissions db (permission_usage_index db') (permission_index db).
Proof.
  intros [Hf Hu Hus Hinj] H. unfold update_permission_usage in H. apply bind_ok in H as (u & Hget & H).
  apply bind_ok in H as (us & Hus' & [= <-]). apply (db_modify_ok _ _ _ _ Hu) in Hus' as (x & Hx & Hui & Hun & Hut); [|done].
  cbn [with_permissions permission_index permission_usage_index]. split; [|done].
  split; cbn [with_permissions permission_index permission_usage_index]; [done|done| |done].
  intros i q Hq Hi. rewrite Hui. apply lookup_insert_is_Some'. right. by apply (Hus i).
Qed.

(** A level that is found is a permission of its owner and name, and not the
    reserved one. *)
Lemma find_permission_ok level db r :
  forest (permission_index db) -> find_permission level db = Ok r ->
  actor level <> 0 /\ permission level <> 0 /\
  match r with
  | Some p => indices (permission_index db) !! po_id p = Some p /\ po_id p <> 0 /\
      owner p = actor level /\ po_name p = permission level
  | None => forall i p, indices (permission_index db) !! i = Some p ->
      ~ (owner p = actor level /\ po_name p = permission level)
  end.
Proof.
  intros Hf H. unfold find_permission in H.
  destruct (negb (actor level =? 0) && negb (permission level =? 0)) eqn:E; [|done].
  apply andb_prop in E as [E1%negb_true_iff%Z.eqb_neq E2%negb_true_iff%Z.eqb_neq].
  cbn in H. injection H as <-. split_and!; [done|done|].
  destruct (find_by by_owner _ _) as [p|] eqn:Ef.
  - apply find_by_Some in Ef as [[i Hp] [= Ho Hn]]. pose proof (forest_id _ _ _ Hf Hp) as Hid. rewrite <- Hid in Hp.
    split_and!; [done| |done|done]. intros E0. destruct (f_reserved _ Hf) as (r & Hr & _ & Hr0 & _).
    rewrite E0, Hr in Hp. injection Hp as <-. congruence.
  - intros i p Hp [Ho Hn]. apply (proj1 (find_by_None _ _ _) Ef i p Hp). unfold by_owner. by rewrite Ho, Hn.
Qed.

Lemma get_permission_ok level db p :
  forest (permission_index db) -> get_permission level db = Ok p ->
  indices (permission_index db) !! po_id p = Some p /\ po_id p <> 0 /\
  owner p = actor level /\ po_name p = permission level.
Proof.
  intros Hf H. assert (find_permission level db = Ok (Some p)) as Hfind.
  { unfold get_permission in H. unfold find_permission.
    destruct (negb (actor level =? 0) && negb (permission level =? 0)); [|done]. cbn in H |- *.
    unfold get_by in H. by destruct (find_by by_owner _ _) as [q|]; [injection H as <-|]. }
  by apply (find_permission_ok level db (Some p) Hf) in Hfind as (_ & _ & ?).
Qed.

Lemma get_permission_found level db i p :
  forest (permission_index db) -> indices (permission_index db) !! i = Some p -> i <> 0 ->
  owner p = actor level -> po_name p = permission level -> get_permission level db = Ok p.
Proof.
  intros Hf Hp Hi Ho Hn. unfold get_permission. destruct (f_named _ Hf i p Hp Hi) as [Ho0 Hn0].
  rewrite <- Ho, <- Hn. rewrite (proj2 (Z.eqb_neq _ _) Ho0), (proj2 (Z.eqb_neq _ _) Hn0). cbn.
  unfold get_by. rewrite (find_by_unique by_owner _ _ i p (f_table _ Hf)); [done| |done|done].
  right. left.
Qed.

(** ** An example: the reserved permission, an owner permission, an active
    permission below it and one below that. *)

Definition example_add (parent name : Z) (idx : generic_index permission_object) : generic_index permission_object :=
  match db_create (fun id => mk_permission_object id id parent system_account_name name 0 empty_authority) idx with
  | Ok (idx', _) => idx'
  | Err _ => idx
  end.

Definition example_reserved : generic_index permission_object :=
  match db_create (fun id => mk_permission_object id 0 0 0 0 0 empty_authority) empty_index with
  | Ok (idx, _) => idx
  | Err _ => empty_index
  end.

Definition example_permissions : generic_index permission_object :=
  example_add 2 1000 (example_add 1 active_name (example_add 0 owner_name example_reserved)).

Lemma example_add_forest parent name idx :
  forest idx -> name <> 0 -> (parent = 0 <-> name = owner_name) ->
  (parent <> 0 -> exists q, indices idx !! parent = Some q /\ owner q = system_account_name) ->
  (name = active_name -> exists q, indices idx !! parent = Some q /\ po_name q = owner_name) ->
  forest (example_add parent name idx).
Proof.
  intros Hf Hn Hroot Hpar Hact. unfold example_add. destruct (db_create _ _) as [[idx' v]|] eqn:E; [|done].
  by apply (forest_create _ _ _ _ _ _ _ _ _ Hf E).
Qed.

Lemma example_forest : forest example_permissions.
Proof.
  repeat apply example_add_forest; try done.
  - apply (reserved_forest _ (mk_permission_object 0 0 0 0 0 0 empty_authority)). by vm_compute.
  - intros _. eexists. by split; [vm_compute; reflexivity|].
  - intros _. eexists. by split; [vm_compute; reflexivity|].
  - intros _. eexists. by split; [vm_compute; reflexivity|].
Qed.

Lemma satisfies_exact_witness :
  let p := mk_permission_object 1 1 0 system_account_name owner_name 0 empty_authority in
  let q := mk_permission_object 3 3 2 system_account_name 1000 0 empty_authority in
  satisfies p q example_permissions = Some (Ok true) /\ above example_permissions p q.
Proof.
  intros p q. destruct (satisfies_exact example_permissions 1 3 p q) as [H|[H _]].
  - apply example_forest.
  - by vm_compute.
  - by vm_compute.
  - done.
  - done.
  - exact H.
  - vm_compute in H. discriminate H.
Defined.
