(* ===== verification/NativeActions.v ===== *)
(** * The native actions

    Models inery_contract.cpp with contract_types.hpp: the actions of the
    system account the node executes itself, which create accounts, set code
    and ABIs, change permissions and their links, and cancel deferred
    transactions; what apply_context and transaction_context do for them
    (require_authorization, add_mem_usage, cancel_deferred_transaction); and
    the accounts the controller creates at genesis.

    Outside the repository's own code: the hash of a sequence of bytes.  The
    validation of a contract's code is the argument [validate_code].

    The theorems: in every state reached from the genesis state by native
    actions the permissions of every account are a tree with the owner
    permission at its root and the active permission below it, every account
    has both, and no permission is without its account, parent or usage. *)

From Stdlib Require Import String.
From S2P Require Import Prelude Exceptions Text Names Merkle Authority AuthorityChecker ResourceLimits.
From S2P Require Import Raw Codecs Timestamps Chainbase BlockHeader Transactions ProtocolFeatures ChainObjects Permissions.

(** ** Action data *)

Record newaccount := mk_newaccount {
  na_creator : Z; na_name : Z; na_owner : authority; na_active : authority }.
Record setcode := mk_setcode { sc_account : Z; vmtype : Z; vmversion : Z; sc_code : list Z }.
Record setabi := mk_setabi { sa_account : Z; sa_abi : list Z }.
Record updateauth := mk_updateauth { ua_account : Z; ua_permission : Z; ua_parent : Z; ua_auth : authority }.
Record deleteauth := mk_deleteauth { da_account : Z; da_permission : Z }.
Record linkauth := mk_linkauth { la_account : Z; la_code : Z; la_type : Z; la_requirement : Z }.
Record unlinkauth := mk_unlinkauth { ul_account : Z; ul_code : Z; ul_type : Z }.
Record canceldelay := mk_canceldelay { canceling_auth : permission_level; cd_trx_id : sha256 }.

Definition newaccount_codec : codec newaccount :=
  struct_codec (fun a => (na_creator a, (na_name a, (na_owner a, na_active a))))
    (fun '(c, (n, (o, a))) => mk_newaccount c n o a)
    (pair_codec name_codec (pair_codec name_codec (pair_codec authority_codec authority_codec))).
Definition setcode_codec : codec setcode :=
  struct_codec (fun a => (sc_account a, (vmtype a, (vmversion a, sc_code a))))
    (fun '(a, (t, (v, c))) => mk_setcode a t v c)
    (pair_codec name_codec (pair_codec (uint_codec 1) (pair_codec (uint_codec 1) bytes_codec))).
Definition setabi_codec : codec setabi :=
  struct_codec (fun a => (sa_account a, sa_abi a)) (fun '(a, b) => mk_setabi a b)
    (pair_codec name_codec bytes_codec).
Definition updateauth_codec : codec updateauth :=
  struct_codec (fun a => (ua_account a, (ua_permission a, (ua_parent a, ua_auth a))))
    (fun '(a, (p, (q, u))) => mk_updateauth a p q u)
    (pair_codec name_codec (pair_codec name_codec (pair_codec name_codec authority_codec))).
Definition deleteauth_codec : codec deleteauth :=
  struct_codec (fun a => (da_account a, da_permission a)) (fun '(a, p) => mk_deleteauth a p)
    (pair_codec name_codec name_codec).
Definition linkauth_codec : codec linkauth :=
  struct_codec (fun a => (la_account a, (la_code a, (la_type a, la_requirement a))))
    (fun '(a, (c, (t, r))) => mk_linkauth a c t r)
    (pair_codec name_codec (pair_codec name_codec (pair_codec name_codec name_codec))).
Definition unlinkauth_codec : codec unlinkauth :=
  struct_codec (fun a => (ul_account a, (ul_code a, ul_type a))) (fun '(a, (c, t)) => mk_unlinkauth a c t)
    (pair_codec name_codec (pair_codec name_codec name_codec)).
Definition canceldelay_codec : codec canceldelay :=
  struct_codec (fun a => (canceling_auth a, cd_trx_id a)) (fun '(a, t) => mk_canceldelay a t)
    (pair_codec permission_level_codec sha256_codec).

(** The names of the actions. *)
Definition newaccount_name : Z := Eval vm_compute in string_to_uint64_t (lit "newaccount").
Definition setcode_name : Z := Eval vm_compute in string_to_uint64_t (lit "setcode").
Definition setabi_name : Z := Eval vm_compute in string_to_uint64_t (lit "setabi").
Definition updateauth_name : Z := Eval vm_compute in string_to_uint64_t (lit "updateauth").
Definition deleteauth_name : Z := Eval vm_compute in string_to_uint64_t (lit "deleteauth").
Definition linkauth_name : Z := Eval vm_compute in string_to_uint64_t (lit "linkauth").
Definition unlinkauth_name : Z := Eval vm_compute in string_to_uint64_t (lit "unlinkauth").
Definition canceldelay_name : Z := Eval vm_compute in string_to_uint64_t (lit "canceldelay").

(** [data_as<T>] for the actions of the system account. *)
Definition native_data {T} (name : Z) (c : codec T) (act : action) : outcome T :=
  data_as system_account_name name c act.

(** ** The context of an action *)

Record apply_ctx := mk_apply_ctx {
  ctx_db : chain_db;
  account_mem_deltas : gmap Z Z;
  validate_mem_usage : gset Z
}.

Definition with_db (ctx : apply_ctx) (db : chain_db) : apply_ctx :=
  mk_apply_ctx db (account_mem_deltas ctx) (validate_mem_usage ctx).

Definition require_authorization (act : action) (account : Z) : outcome unit :=
  ine_assert (existsb (fun a => actor a =? account) (authorization act)) (Throw missing_auth_exception).

(** [transaction_context::add_mem_usage] *)
Definition trx_add_mem_usage (account mem_delta : Z) (ctx : apply_ctx) : outcome apply_ctx :=
  rl ← add_pending_mem_usage (resource_limits (ctx_db ctx)) account mem_delta;
  Ok (mk_apply_ctx (with_resources (ctx_db ctx) rl) (account_mem_deltas ctx)
        (if mem_delta >? 0 then {[account]} ∪ validate_mem_usage ctx else validate_mem_usage ctx)).

(** [apply_context::add_mem_usage] *)
Definition add_mem_usage (account mem_delta : Z) (ctx : apply_ctx) : outcome apply_ctx :=
  ctx ← trx_add_mem_usage account mem_delta ctx;
  Ok (mk_apply_ctx (ctx_db ctx)
        (<[account := match account_mem_deltas ctx !! account with
                      | None => mem_delta
                      | Some d => i64 (d + mem_delta)
                      end]> (account_mem_deltas ctx))
        (validate_mem_usage ctx)).

Definition account_by_name (a : account_object) : list Z := [ao_name a].
Definition metadata_by_name (a : account_metadata_object) : list Z := [amo_name a].
Definition by_code_hash (c : code_object) : list Z := hash_words (co_code_hash c) ++ [co_vm_type c; co_vm_version c].
Definition by_sender_id (g : generated_transaction_object) : list Z := [gto_sender g; gto_sender_id g].

Definition cancel_deferred_transaction (sender_id sender : Z) (ctx : apply_ctx) : outcome (apply_ctx * bool) :=
  match find_by by_sender_id [sender; sender_id] (generated_transaction_index (ctx_db ctx)) with
  | Some gto =>
      ctx ← add_mem_usage (payer gto)
              (- (billable_generated_transaction_object + Z.of_nat (length (gto_packed_trx gto)))) ctx;
      idx ← db_remove (gto_id gto) (generated_transaction_index (ctx_db ctx));
      Ok (with_db ctx (with_generated (ctx_db ctx) idx), true)
  | None => Ok (ctx, false)
  end.

Definition transaction_id_to_sender_id (tid : sha256) : Z := u128 (Z.lor (Z.shiftl (h3 tid) 64) (h2 tid)).

(** ** The actions *)

(** One account of an authority must exist with its permission. *)
Definition account_precondition (db : chain_db) (a : permission_level_weight) : outcome unit :=
  let p := plw_permission a in
  ine_assert (exists_by account_by_name [actor p] (account_index db)) (Throw action_validate_exception) ;;
  if (permission p =? owner_name) || (permission p =? active_name) || (permission p =? inery_code_name) then Ok tt
  else match get_permission p db with
       | Ok _ => Ok tt
       | Err e => if is_permission_query_exception e then Err (Throw action_validate_exception) else Err e
       end.

Fixpoint each_precondition (db : chain_db) (l : list permission_level_weight) : outcome unit :=
  match l with
  | [] => Ok tt
  | a :: l' => account_precondition db a ;; each_precondition db l'
  end.

(** [controller::check_key_list] *)
Definition check_key_list (env : chain_env) (key : public_key) : outcome unit :=
  if bool_decide (0 < length (key_blacklist env))%nat
  then ine_assert (negb (bool_decide (key ∈ key_blacklist env))) (Throw key_blacklist_exception)
  else Ok tt.

Fixpoint check_keys (env : chain_env) (l : list key_weight) : outcome unit :=
  match l with
  | [] => Ok tt
  | k :: l' => check_key_list env (kw_key k) ;; check_keys env l'
  end.

Definition validate_authority_precondition (env : chain_env) (db : chain_db) (a : authority) : outcome unit :=
  each_precondition db (accounts a) ;;
  if enforce_whiteblacklist env && is_producing_block env then check_keys env (keys a) else Ok tt.

Section native.
Context `{BT : BoostText}.
Context (hash : list Z -> sha256) (validate_code : list Z -> outcome unit).

(** [name.to_string().find( "inery." ) == 0] *)
Definition reserved_prefix (name : Z) : bool := bool_decide (take 6 (name_to_string name) = lit "inery.").

Definition default_metadata (id name : Z) (fl : Z) : account_metadata_object :=
  mk_account_metadata_object id name 0 0 0 0 zero_digest 0 fl 0 0.

(** The memory billed for a new account. *)
Definition account_mem_delta (owner_size active_size : Z) : Z :=
  i64 (i64 (i64 (overhead_per_account_mem_bytes + 2 * billable_permission_object) + owner_size) + active_size).

Definition apply_inery_newaccount (env : chain_env) (act : action) (ctx : apply_ctx) : outcome apply_ctx :=
  create ← native_data newaccount_name newaccount_codec act;
  fc_capture_and_rethrow (
    require_authorization act (na_creator create) ;;
    ine_assert (validate (na_owner create)) (Throw action_validate_exception) ;;
    ine_assert (validate (na_active create)) (Throw action_validate_exception) ;;
    let db := ctx_db ctx in
    ine_assert (negb (na_name create =? 0)) (Throw action_validate_exception) ;;
    ine_assert (bool_decide (length (name_to_string (na_name create)) <= 12)%nat) (Throw action_validate_exception) ;;
    creator ← get_by metadata_by_name [na_creator create] (account_metadata_index db);
    (if is_privileged creator then Ok tt
     else ine_assert (negb (reserved_prefix (na_name create))) (Throw action_validate_exception)) ;;
    ine_assert (negb (exists_by account_by_name [na_name create] (account_index db)))
      (Throw account_name_exists_exception) ;;
    '(accs, _) ← db_create (fun id => mk_account_object id (na_name create)
                              (Timestamps.slot (ts_set_time_point (pending_block_time env))) []) (account_index db);
    '(metas, _) ← db_create (fun id => default_metadata id (na_name create) 0) (account_metadata_index db);
    let db := with_metadata (with_accounts db accs) metas in
    validate_authority_precondition env db (na_owner create) ;;
    validate_authority_precondition env db (na_active create) ;;
    '(db, owner_permission) ← create_permission env (na_name create) owner_name 0 (na_owner create) 0 db;
    '(db, active_permission) ← create_permission env (na_name create) active_name (po_id owner_permission)
                                 (na_active create) 0 db;
    rl ← initialize_account (resource_limits db) (na_name create);
    owner_size ← get_billable_size (auth owner_permission);
    active_size ← get_billable_size (auth active_permission);
    add_mem_usage (na_name create) (account_mem_delta owner_size active_size)
      (with_db ctx (with_resources db rl))).

(** The references to the code an account runs: one less to the old, one more
    to the new. *)
Definition release_code (env : chain_env) (old : code_object) (codes : generic_index code_object)
    : outcome (generic_index code_object) :=
  if code_ref_count old =? 1 then db_remove (co_id old) codes
  else db_modify (co_id old) (fun o => mk_code_object (co_id o) (co_code_hash o) (co_code o)
         (u64 (code_ref_count o - 1)) (first_block_used o) (co_vm_type o) (co_vm_version o)) codes.

Definition acquire_code (env : chain_env) (code_hash : sha256) (act : setcode) (codes : generic_index code_object)
    : outcome (generic_index code_object) :=
  match find_by by_code_hash (hash_words code_hash ++ [vmtype act; vmversion act]) codes with
  | Some entry =>
      db_modify (co_id entry) (fun o => mk_code_object (co_id o) (co_code_hash o) (co_code o)
        (u64 (code_ref_count o + 1)) (first_block_used o) (co_vm_type o) (co_vm_version o)) codes
  | None =>
      '(codes, _) ← db_create (fun id => mk_code_object id code_hash (sc_code act) 1
                       (u32 (head_block_num env + 1)) (vmtype act) (vmversion act)) codes;
      Ok codes
  end.

Definition apply_inery_setcode (env : chain_env) (act : action) (ctx : apply_ctx) : outcome apply_ctx :=
  sc ← native_data setcode_name setcode_codec act;
  require_authorization act (sc_account sc) ;;
  ine_assert (vmtype sc =? 0) (Throw invalid_contract_vm_type) ;;
  ine_assert (vmversion sc =? 0) (Throw invalid_contract_vm_version) ;;
  let code_size := Z.of_nat (length (sc_code sc)) in
  let code_hash := if code_size >? 0 then hash (sc_code sc) else zero_digest in
  (if code_size >? 0 then validate_code (sc_code sc) else Ok tt) ;;
  let db := ctx_db ctx in
  account ← get_by metadata_by_name [sc_account sc] (account_metadata_index db);
  let existing_code := negb (bool_decide (amo_code_hash account = zero_digest)) in
  ine_assert ((code_size >? 0) || existing_code) (Throw set_exact_code) ;;
  let new_size := i64 (code_size * setcode_mem_bytes_multiplier) in
  '(old_size, codes) ←
    (if existing_code then
       old ← get_by by_code_hash (hash_words (amo_code_hash account) ++ [amo_vm_type account; amo_vm_version account])
               (code_index db);
       ine_assert (negb (bool_decide (co_code_hash old = code_hash))) (Throw set_exact_code) ;;
       codes ← release_code env old (code_index db);
       Ok (i64 (Z.of_nat (length (co_code old)) * setcode_mem_bytes_multiplier), codes)
     else Ok (0, code_index db));
  codes ← (if code_size >? 0 then acquire_code env code_hash sc codes else Ok codes);
  metas ← db_modify (amo_id account) (fun a =>
      mk_account_metadata_object (amo_id a) (amo_name a) (recv_sequence a) (auth_sequence a)
        (u64 (code_sequence a + 1)) (abi_sequence a) code_hash (pending_block_time env) (flags a)
        (vmtype sc) (vmversion sc)) (account_metadata_index db);
  let ctx := with_db ctx (with_metadata (with_code db codes) metas) in
  if new_size =? old_size then Ok ctx
  else add_mem_usage (sc_account sc) (i64 (new_size - old_size)) ctx.

Definition apply_inery_setabi (act : action) (ctx : apply_ctx) : outcome apply_ctx :=
  sa ← native_data setabi_name setabi_codec act;
  require_authorization act (sa_account sa) ;;
  let db := ctx_db ctx in
  account ← get_by account_by_name [sa_account sa] (account_index db);
  let old_size := Z.of_nat (length (abi account)) in
  let new_size := Z.of_nat (length (sa_abi sa)) in
  accs ← db_modify (ao_id account) (fun a => mk_account_object (ao_id a) (ao_name a) (creation_date a) (sa_abi sa))
           (account_index db);
  meta ← get_by metadata_by_name [sa_account sa] (account_metadata_index db);
  metas ← db_modify (amo_id meta) (fun a =>
      mk_account_metadata_object (amo_id a) (amo_name a) (recv_sequence a) (auth_sequence a)
        (code_sequence a) (u64 (abi_sequence a + 1)) (amo_code_hash a) (last_code_update a) (flags a)
        (amo_vm_type a) (amo_vm_version a)) (account_metadata_index db);
  let ctx := with_db ctx (with_metadata (with_accounts db accs) metas) in
  if new_size =? old_size then Ok ctx
  else add_mem_usage (sa_account sa) (i64 (new_size - old_size)) ctx.

(** The checks of updateauth that do not read the database. *)
Definition check_update (env : chain_env) (u : updateauth) : outcome unit :=
  ine_assert (validate (ua_auth u)) (Throw action_validate_exception) ;;
  (if ua_permission u =? active_name
   then ine_assert (ua_parent u =? owner_name) (Throw action_validate_exception) else Ok tt) ;;
  (if ua_permission u =? owner_name
   then ine_assert (ua_parent u =? 0) (Throw action_validate_exception)
   else ine_assert (negb (ua_parent u =? 0)) (Throw action_validate_exception)) ;;
  match back (waits (ua_auth u)) with
  | Some w => ine_assert (ww_wait_sec w <=? max_transaction_delay env) (Throw action_validate_exception)
  | None => Ok tt
  end.

Definition apply_inery_updateauth (env : chain_env) (act : action) (ctx : apply_ctx) : outcome apply_ctx :=
  u ← native_data updateauth_name updateauth_codec act;
  require_authorization act (ua_account u) ;;
  let db := ctx_db ctx in
  ine_assert (negb (ua_permission u =? 0)) (Throw action_validate_exception) ;;
  ine_assert (negb (reserved_prefix (ua_permission u))) (Throw action_validate_exception) ;;
  ine_assert (negb (ua_permission u =? ua_parent u)) (Throw action_validate_exception) ;;
  _ ← get_by account_by_name [ua_account u] (account_index db);
  check_update env u ;;
  validate_authority_precondition env db (ua_auth u) ;;
  perm ← find_permission (mk_permission_level (ua_account u) (ua_permission u)) db;
  parent_id ← (if ua_permission u =? owner_name then Ok 0
               else par ← get_permission (mk_permission_level (ua_account u) (ua_parent u)) db; Ok (po_id par));
  match perm with
  | Some p =>
      ine_assert (parent_id =? parent p) (Throw action_validate_exception) ;;
      old ← get_billable_size (auth p);
      db ← modify_permission env p (ua_auth u) db;
      new ← get_billable_size (ua_auth u);
      add_mem_usage (owner p)
        (i64 (i64 (billable_permission_object + new) - i64 (billable_permission_object + old))) (with_db ctx db)
  | None =>
      '(db, p) ← create_permission env (ua_account u) (ua_permission u) parent_id (ua_auth u) 0 db;
      new ← get_billable_size (auth p);
      add_mem_usage (ua_account u) (i64 (billable_permission_object + new)) (with_db ctx db)
  end.

Definition apply_inery_deleteauth (act : action) (ctx : apply_ctx) : outcome apply_ctx :=
  r ← native_data deleteauth_name deleteauth_codec act;
  require_authorization act (da_account r) ;;
  ine_assert (negb (da_permission r =? active_name)) (Throw action_validate_exception) ;;
  ine_assert (negb (da_permission r =? owner_name)) (Throw action_validate_exception) ;;
  let db := ctx_db ctx in
  ine_assert (negb (exists_by by_permission_name [da_account r; da_permission r] (permission_link_index db)))
    (Throw action_validate_exception) ;;
  p ← get_permission (mk_permission_level (da_account r) (da_permission r)) db;
  old ← get_billable_size (auth p);
  let old_size := i64 (billable_permission_object + old) in
  db ← remove_permission p db;
  add_mem_usage (da_account r) (- old_size) (with_db ctx db).

Definition apply_inery_linkauth (env : chain_env) (act : action) (ctx : apply_ctx) : outcome apply_ctx :=
  r ← native_data linkauth_name linkauth_codec act;
  fc_capture_and_rethrow (
    ine_assert (negb (la_requirement r =? 0)) (Throw action_validate_exception) ;;
    require_authorization act (la_account r) ;;
    let db := ctx_db ctx in
    ine_assert (exists_by account_by_name [la_account r] (account_index db)) (Throw account_query_exception) ;;
    ine_assert (exists_by account_by_name [la_code r] (account_index db)) (Throw account_query_exception) ;;
    (if la_requirement r =? inery_any_name then Ok tt
     else
       let permission := if is_builtin_activated env only_link_to_existing_permission
                         then find_by by_owner [la_account r; la_requirement r] (permission_index db)
                         else find_by by_name [la_requirement r] (permission_index db) in
       ine_assert (bool_decide (is_Some permission)) (Throw permission_query_exception)) ;;
    match find_by by_action_name [la_account r; la_code r; la_type r] (permission_link_index db) with
    | Some link =>
        ine_assert (negb (required_permission link =? la_requirement r)) (Throw action_validate_exception) ;;
        links ← db_modify (plo_id link) (fun l =>
            mk_permission_link_object (plo_id l) (plo_account l) (plo_code l) (message_type l) (la_requirement r))
            (permission_link_index db);
        Ok (with_db ctx (with_links db links))
    | None =>
        '(links, l) ← db_create (fun id =>
            mk_permission_link_object id (la_account r) (la_code r) (la_type r) (la_requirement r))
            (permission_link_index db);
        add_mem_usage (plo_account l) (i64 billable_permission_link_object) (with_db ctx (with_links db links))
    end).

Definition apply_inery_unlinkauth (act : action) (ctx : apply_ctx) : outcome apply_ctx :=
  r ← native_data unlinkauth_name unlinkauth_codec act;
  require_authorization act (ul_account r) ;;
  match find_by by_action_name [ul_account r; ul_code r; ul_type r] (permission_link_index (ctx_db ctx)) with
  | None => Err (Throw action_validate_exception)
  | Some link =>
      ctx ← add_mem_usage (plo_account link) (- i64 billable_permission_link_object) ctx;
      links ← db_remove (plo_id link) (permission_link_index (ctx_db ctx));
      Ok (with_db ctx (with_links (ctx_db ctx) links))
  end.

Definition apply_inery_canceldelay (act : action) (ctx : apply_ctx) : outcome apply_ctx :=
  c ← native_data canceldelay_name canceldelay_codec act;
  require_authorization act (actor (canceling_auth c)) ;;
  '(ctx, _) ← cancel_deferred_transaction (transaction_id_to_sender_id (cd_trx_id c)) 0 ctx;
  Ok ctx.

(** The handlers the controller registers for the system account. *)
Definition apply_native (env : chain_env) (act : action) (ctx : apply_ctx) : outcome apply_ctx :=
  if act_name act =? newaccount_name then apply_inery_newaccount env act ctx
  else if act_name act =? setcode_name then apply_inery_setcode env act ctx
  else if act_name act =? setabi_name then apply_inery_setabi act ctx
  else if act_name act =? updateauth_name then apply_inery_updateauth env act ctx
  else if act_name act =? deleteauth_name then apply_inery_deleteauth act ctx
  else if act_name act =? linkauth_name then apply_inery_linkauth env act ctx
  else if act_name act =? unlinkauth_name then apply_inery_unlinkauth act ctx
  else if act_name act =? canceldelay_name then apply_inery_canceldelay act ctx
  else Ok ctx.

(** ** Genesis *)

(** The part of controller_impl::initialize_database that makes accounts;
    [abi_bin] is inery_abi_bin. *)
Definition create_native_account (env : chain_env) (abi_bin : list Z) (initial_timestamp name : Z)
    (owner_auth active_auth : authority) (privileged : bool) (db : chain_db) : outcome chain_db :=
  '(accs, _) ← db_create (fun id => mk_account_object id name (Timestamps.slot (ts_set_time_point initial_timestamp))
                 (if name =? system_account_name then abi_bin else [])) (account_index db);
  '(metas, _) ← db_create (fun id => default_metadata id name (set_privileged privileged 0))
                  (account_metadata_index db);
  let db := with_metadata (with_accounts db accs) metas in
  '(db, owner_permission) ← create_permission env name owner_name 0 owner_auth initial_timestamp db;
  '(db, active_permission) ← create_permission env name active_name (po_id owner_permission) active_auth
                               initial_timestamp db;
  rl ← initialize_account (resource_limits db) name;
  owner_size ← get_billable_size (auth owner_permission);
  active_size ← get_billable_size (auth active_permission);
  rl ← add_pending_mem_usage rl name (account_mem_delta owner_size active_size);
  verify_account_mem_usage rl name ;;
  Ok (with_resources db rl).

Definition empty_chain_db : chain_db :=
  mk_chain_db empty_index empty_index empty_index empty_index empty_index empty_index empty_index
    initialize_database.

Definition no_authority : authority := mk_authority 1 [] [] [].
Definition active_producers_authority : authority :=
  mk_authority 1 [] [mk_permission_level_weight (mk_permission_level system_account_name active_name) 1] [].

Definition controller_initialize_database (env : chain_env) (abi_bin : list Z) (initial_timestamp : Z)
    (initial_key : public_key) : outcome chain_db :=
  db ← authorization_initialize_database empty_chain_db;
  let system_auth := authority_of_key initial_key 0 in
  db ← create_native_account env abi_bin initial_timestamp system_account_name system_auth system_auth true db;
  db ← create_native_account env abi_bin initial_timestamp null_account_name no_authority no_authority false db;
  db ← create_native_account env abi_bin initial_timestamp producers_account_name no_authority
         active_producers_authority false db;
  active_permission ← get_permission (mk_permission_level producers_account_name active_name) db;
  '(db, majority_permission) ← create_permission env producers_account_name majority_producers_permission_name
      (po_id active_permission) active_producers_authority initial_timestamp db;
  '(db, _) ← create_permission env producers_account_name minority_producers_permission_name
      (po_id majority_permission) active_producers_authority initial_timestamp db;
  Ok db.

(** ** The invariant *)

Definition has_account (db : chain_db) (name : Z) : Prop :=
  exists i a, indices (account_index db) !! i = Some a /\ ao_name a = name.

Definition has_permission (db : chain_db) (account name : Z) : Prop :=
  exists i p, indices (permission_index db) !! i = Some p /\ i <> 0 /\ owner p = account /\ po_name p = name.

Record auth_inv (db : chain_db) : Prop := {
  ai_perm : perm_inv db;
  ai_accounts : table_ok (account_index db);
  ai_links : table_ok (permission_link_index db);
  ai_owned : forall account name, has_permission db account name -> has_account db account;
  ai_account : forall name, has_account db name ->
    has_permission db name owner_name /\ has_permission db name active_name;
  ai_linked : forall i l, indices (permission_link_index db) !! i = Some l ->
    has_account db (plo_account l) /\ has_account db (plo_code l) /\ required_permission l <> 0
}.

Lemma auth_inv_same db db' :
  auth_inv db -> account_index db' = account_index db -> permission_usage_index db' = permission_usage_index db ->
  permission_index db' = permission_index db -> permission_link_index db' = permission_link_index db -> auth_inv db'.
Proof.
  intros [[Hf Hu Hus Hinj] Ha Hl Ho Hp Hlk] E1 E2 E3 E4.
  split; [split|..]; unfold has_permission, has_account in *; rewrite ?E1, ?E2, ?E3, ?E4; done.
Qed.

Lemma add_mem_usage_db account delta ctx ctx' :
  add_mem_usage account delta ctx = Ok ctx' ->
  ctx_db ctx' = with_resources (ctx_db ctx) (resource_limits (ctx_db ctx')).
Proof.
  unfold add_mem_usage, trx_add_mem_usage. intros H. apply bind_ok in H as (c & H & [= <-]).
  apply bind_ok in H as (rl & _ & [= <-]). done.
Qed.

Lemma add_mem_usage_ok account delta ctx ctx' :
  rl_inv (resource_limits (ctx_db ctx)) -> INT64_MIN < delta <= INT64_MAX -> add_mem_usage account delta ctx = Ok ctx' ->
  rl_inv (resource_limits (ctx_db ctx')) /\
  forall a, mem_of (resource_limits (ctx_db ctx')) a =
            mem_of (resource_limits (ctx_db ctx)) a + if a =? account then delta else 0.
Proof.
  unfold add_mem_usage, trx_add_mem_usage. intros Hi Hd H. apply bind_ok in H as (c & H & [= <-]).
  apply bind_ok in H as (rl & H & [= <-]). by apply (pending_mem_ok _ _ _ _ Hi Hd H).
Qed.

Lemma add_mem_usage_inv account delta ctx ctx' :
  auth_inv (ctx_db ctx) -> add_mem_usage account delta ctx = Ok ctx' -> auth_inv (ctx_db ctx').
Proof. intros Hi H%add_mem_usage_db. rewrite H. by apply (auth_inv_same (ctx_db ctx)). Qed.

Lemma fc_capture_ok {A} (m : outcome A) a : fc_capture_and_rethrow m = Ok a -> m = Ok a.
Proof. destruct m as [x|e]; cbn; [done|by destruct (is_std_exception e)]. Qed.

Lemma exists_by_account db name :
  exists_by account_by_name [name] (account_index db) = true <-> has_account db name.
Proof.
  unfold exists_by, has_account. rewrite bool_decide_eq_true. split.
  - intros [a Ha]. apply find_by_Some in Ha as [[i Hi] [= Hn]]. eauto.
  - intros (i & a & Ha & Hn). destruct (find_by account_by_name [name] (account_index db)) eqn:E; [eauto|].
    apply (proj1 (find_by_None _ _ _) E) in Ha. unfold account_by_name in Ha. congruence.
Qed.

(** A new permission of an account that exists. *)
Lemma auth_inv_create env account name par a time db db' p :
  auth_inv db -> create_permission env account name par a time db = Ok (db', p) ->
  has_account db account -> account <> 0 -> name <> 0 -> (par = 0 <-> name = owner_name) ->
  (par <> 0 -> exists q, indices (permission_index db) !! par = Some q /\ owner q = account) ->
  (name = active_name -> exists q, indices (permission_index db) !! par = Some q /\ po_name q = owner_name) ->
  auth_inv db'.
Proof.
  intros [Hpi Ha Hl Ho Hac Hlk] H Hacc Ha0 Hn0 Hroot Hpar Hact.
  destruct (create_permission_ok _ _ _ _ _ _ _ _ _ Hpi H Ha0 Hn0 Hroot Hpar Hact) as
    (Hpi' & Hdb & Hnone & Hi & Hid & Hop & Hnp & _).
  assert (account_index db' = account_index db) as Ea by (by rewrite Hdb).
  assert (permission_link_index db' = permission_link_index db) as El by (by rewrite Hdb).
  assert (forall x y, has_permission db x y -> has_permission db' x y) as Hkeep.
  { intros x y (i & q & Hq & Hrest). exists i, q. split; [|done]. rewrite Hi, lookup_insert_ne; [done|].
    intros <-. congruence. }
  assert (forall x, has_account db' x <-> has_account db x) as Hacc' by (intros x; unfold has_account; by rewrite Ea).
  split; rewrite ?Ea, ?El; try done.
  - intros x y (i & q & Hq & Hi0 & <- & <-). rewrite Hi in Hq.
    apply Hacc'. apply lookup_insert_Some in Hq as [[<- <-]|[_ Hq]]; [by rewrite Hop|]. apply (Ho _ (po_name q)). by exists i, q.
  - intros x [? ?]%Hacc'%Hac. split; by apply Hkeep.
  - intros i l Hl'. rewrite !Hacc'. by apply (Hlk i).
Qed.

Lemma perm_inv_same db db' :
  perm_inv db -> permission_usage_index db' = permission_usage_index db ->
  permission_index db' = permission_index db -> perm_inv db'.
Proof. intros [Hf Hu Hus Hinj] E1 E2. split; rewrite ?E1, ?E2; done. Qed.

(** A new account with its two permissions. *)
Lemma auth_inv_new_account env c accs acc metas name oa aa t db db1 op db2 ap :
  auth_inv db -> name <> 0 -> (forall i, ao_id (c i) = i /\ ao_name (c i) = name) ->
  db_create c (account_index db) = Ok (accs, acc) ->
  create_permission env name owner_name 0 oa t (with_metadata (with_accounts db accs) metas) = Ok (db1, op) ->
  create_permission env name active_name (po_id op) aa t db1 = Ok (db2, ap) ->
  auth_inv db2 /\ auth op = oa /\ auth ap = aa.
Proof.
  intros [Hpi Ha Hl Ho Hac Hlk] Hn Hc Hacc H1 H2.
  apply (table_create_ok _ _ _ _ Ha) in Hacc as (-> & Hnone & Hai & Han & Hat); [|apply Hc].
  apply create_permission_ok in H1 as (Hpi1 & Hdb1 & Hnone1 & Hi1 & Hid1 & Ho1 & Hn1 & Hp1 & Ha1);
    [|by apply (perm_inv_same db)|done|done|done|done|done].
  apply create_permission_ok in H2 as (Hpi2 & Hdb2 & Hnone2 & Hi2 & Hid2 & Ho2 & Hn2 & Hp2 & Ha2);
    [|done|done|done|split; [congruence|done]| |].
  2: { intros _. exists op. rewrite Hi1, lookup_insert_eq. done. }
  2: { intros _. exists op. rewrite Hi1, lookup_insert_eq. done. }
  split; [|done].
  assert (account_index db2 = accs) as Ea by (by rewrite Hdb2, Hdb1).
  assert (permission_link_index db2 = permission_link_index db) as El by (by rewrite Hdb2, Hdb1).
  cbn [with_metadata with_accounts permission_index] in Hi1, Hnone1.
  assert (forall x, has_account db2 x <-> x = name \/ has_account db x) as Hacc.
  { intros x. unfold has_account. rewrite Ea, Hai. split.
    - intros (i & a & [[<- <-]|[_ Hi]]%lookup_insert_Some & <-); [left; apply Hc|right; eauto].
    - intros [->|(i & a & Hi & <-)].
      + eexists _, _. split; [apply lookup_insert_eq|apply Hc].
      + exists i, a. split; [|done]. rewrite lookup_insert_ne; [done|]. intros <-. congruence. }
  assert (forall x y, has_permission db2 x y <->
    x = name /\ (y = owner_name \/ y = active_name) \/ has_permission db x y) as Hperm.
  { intros x y. unfold has_permission. rewrite Hi2, Hi1. rewrite Hi1 in Hnone2. split.
    - intros (i & q & Hq & Hi0 & <- & <-). apply lookup_insert_Some in Hq as [[<- <-]|[_ Hq]]; [left; auto|].
      apply lookup_insert_Some in Hq as [[<- <-]|[_ Hq]]; [left; auto|]. right. by exists i, q.
    - intros [[-> [-> | ->]]|(i & q & Hq & Hi0 & <- & <-)].
      + exists (po_id op), op. split; [|done]. rewrite lookup_insert_ne; [by rewrite lookup_insert_eq|].
        intros E. rewrite E, lookup_insert_eq in Hnone2. done.
      + exists (po_id ap), ap. split; [|done]. by rewrite lookup_insert_eq.
      + exists i, q. split; [|done]. rewrite lookup_insert_ne, lookup_insert_ne; [done| |].
        * intros <-. congruence.
        * intros <-. apply lookup_insert_None in Hnone2 as [? _]. congruence. }
  split; rewrite ?Ea, ?El; try done.
  - intros x y [[-> _]|Hx]%Hperm; apply Hacc; [by left|right]. by apply (Ho x y).
  - intros x [->|Hx]%Hacc; [split; apply Hperm; left; auto|]. destruct (Hac x Hx). split; apply Hperm; by right.
  - intros i l Hl'. rewrite !Hacc. destruct (Hlk i l Hl') as (? & ? & ?). auto.
Qed.

Lemma newaccount_inv env act ctx ctx' :
  auth_inv (ctx_db ctx) -> apply_inery_newaccount env act ctx = Ok ctx' -> auth_inv (ctx_db ctx').
Proof.
  intros Hi H. unfold apply_inery_newaccount in H. apply bind_ok in H as (create & _ & H). apply fc_capture_ok in H.
  apply bind_ok in H as ([] & _ & H). apply bind_ok in H as ([] & _ & H). apply bind_ok in H as ([] & _ & H).
  apply bind_ok in H as ([] & Hn%ine_assert_ok & H). apply bind_ok in H as ([] & _ & H).
  apply bind_ok in H as (creator & _ & H). apply bind_ok in H as ([] & _ & H). apply bind_ok in H as ([] & _ & H).
  apply bind_ok in H as ([accs acc] & Hacc & H). apply bind_ok in H as ([metas meta] & _ & H).
  apply bind_ok in H as ([] & _ & H). apply bind_ok in H as ([] & _ & H).
  apply bind_ok in H as ([db1 op] & H1 & H). apply bind_ok in H as ([db2 ap] & H2 & H).
  apply bind_ok in H as (rl & _ & H). apply bind_ok in H as (? & _ & H). apply bind_ok in H as (? & _ & H).
  apply negb_true_iff, Z.eqb_neq in Hn.
  assert (auth_inv db2) as Hi2
    by (eapply proj1, auth_inv_new_account; [exact Hi|exact Hn| |exact Hacc|exact H1|exact H2]; done).
  apply add_mem_usage_inv in H; [done|]. by apply (auth_inv_same db2).
Qed.

Lemma create_native_account_inv env abi_bin time name oa aa privileged db db' :
  auth_inv db -> name <> 0 -> create_native_account env abi_bin time name oa aa privileged db = Ok db' -> auth_inv db'.
Proof.
  intros Hi Hn H. unfold create_native_account in H.
  apply bind_ok in H as ([accs acc] & Hacc & H). apply bind_ok in H as ([metas meta] & _ & H).
  apply bind_ok in H as ([db1 op] & H1 & H). apply bind_ok in H as ([db2 ap] & H2 & H).
  apply bind_ok in H as (rl & _ & H). apply bind_ok in H as (? & _ & H). apply bind_ok in H as (? & _ & H).
  apply bind_ok in H as (rl' & _ & H). apply bind_ok in H as ([] & _ & [= <-]).
  assert (auth_inv db2) as Hi2
    by (eapply proj1, auth_inv_new_account; [exact Hi|exact Hn| |exact Hacc|exact H1|exact H2]; done).
  by apply (auth_inv_same db2).
Qed.

Lemma setcode_inv env act ctx ctx' :
  auth_inv (ctx_db ctx) -> apply_inery_setcode env act ctx = Ok ctx' -> auth_inv (ctx_db ctx').
Proof.
  intros Hi H. unfold apply_inery_setcode in H. apply bind_ok in H as (sc & _ & H).
  apply bind_ok in H as ([] & _ & H). apply bind_ok in H as ([] & _ & H). apply bind_ok in H as ([] & _ & H).
  apply bind_ok in H as ([] & _ & H). apply bind_ok in H as (account & _ & H). apply bind_ok in H as ([] & _ & H).
  apply bind_ok in H as ([old_size codes] & _ & H). apply bind_ok in H as (codes' & _ & H).
  apply bind_ok in H as (metas & _ & H).
  assert (auth_inv (ctx_db (with_db ctx (with_metadata (with_code (ctx_db ctx) codes') metas)))) as Hi'
    by (by apply (auth_inv_same (ctx_db ctx))).
  destruct (_ =? _); [by injection H as <-|]. by apply add_mem_usage_inv in H.
Qed.

Lemma setabi_inv act ctx ctx' :
  auth_inv (ctx_db ctx) -> apply_inery_setabi act ctx = Ok ctx' -> auth_inv (ctx_db ctx').
Proof.
  intros Hi H. unfold apply_inery_setabi in H. apply bind_ok in H as (sa & _ & H).
  apply bind_ok in H as ([] & _ & H). apply bind_ok in H as (account & _ & H). apply bind_ok in H as (accs & Hacc & H).
  apply bind_ok in H as (meta & _ & H). apply bind_ok in H as (metas & _ & H).
  assert (auth_inv (ctx_db (with_db ctx (with_metadata (with_accounts (ctx_db ctx) accs) metas)))) as Hi'.
  { destruct Hi as [Hpi Ha Hl Ho Hac Hlk].
    apply (db_modify_ok _ _ _ _ Ha) in Hacc as (a & Hai & Hi & _ & Hat); [|done].
    assert (forall x, has_account (with_metadata (with_accounts (ctx_db ctx) accs) metas) x <->
                      has_account (ctx_db ctx) x) as Hacc.
    { intros x. unfold has_account. cbn [account_index with_metadata with_accounts]. rewrite Hi. split.
      - intros (i & b & [[<- <-]|[_ Hb]]%lookup_insert_Some & <-); eauto.
      - intros (i & b & Hb & <-). destruct (decide (ao_id account = i)) as [<-|Hne].
        + eexists _, _. rewrite lookup_insert_eq. split; [done|]. assert (a = b) as -> by congruence. done.
        + exists i, b. by rewrite lookup_insert_ne. }
    split; [by apply (perm_inv_same (ctx_db ctx))|done|done| | |].
    - intros x y Hx. apply Hacc. by apply (Ho x y).
    - intros x Hx%Hacc%Hac. done.
    - intros i l Hl'. cbn [ctx_db with_db]. rewrite !Hacc. by apply (Hlk i). }
  destruct (_ =? _); [by injection H as <-|]. by apply add_mem_usage_inv in H.
Qed.

Lemma updateauth_inv env act ctx ctx' :
  auth_inv (ctx_db ctx) -> apply_inery_updateauth env act ctx = Ok ctx' -> auth_inv (ctx_db ctx').
Proof.
  intros Hi H. unfold apply_inery_updateauth in H. apply bind_ok in H as (u & _ & H).
  apply bind_ok in H as ([] & _ & H). apply bind_ok in H as ([] & Hn0%ine_assert_ok & H).
  apply bind_ok in H as ([] & _ & H). apply bind_ok in H as ([] & _ & H).
  apply bind_ok in H as (acc & Hacc%get_by_ok & H). apply bind_ok in H as ([] & Hchk & H).
  apply bind_ok in H as ([] & _ & H). apply bind_ok in H as (perm & Hfind & H).
  apply bind_ok in H as (parent_id & Hparent & H).
  pose proof (pi_forest _ (ai_perm _ Hi)) as Hf. apply negb_true_iff, Z.eqb_neq in Hn0.
  apply (find_permission_ok _ _ _ Hf) in Hfind as (Ha0 & _ & Hfind). cbn [actor permission] in *.
  destruct perm as [p|].
  - apply bind_ok in H as ([] & _ & H). apply bind_ok in H as (old & _ & H). apply bind_ok in H as (db1 & Hm & H).
    apply bind_ok in H as (new & _ & H). apply add_mem_usage_inv in H; [done|]. cbn [ctx_db with_db].
    destruct (modify_permission_ok _ _ _ _ _ (ai_perm _ Hi) Hm) as (Hpi & Hdb & q & Hq & Hidx).
    destruct Hfind as (Hp & Hp0 & _). assert (q = p) as -> by congruence.
    assert (forall x y, has_permission db1 x y <-> has_permission (ctx_db ctx) x y) as Hperm.
    { intros x y. unfold has_permission. rewrite Hidx. split.
      - intros (i & r & [[<- <-]|[_ Hr]]%lookup_insert_Some & Hi0 & <- & <-); [exists (po_id p), p|exists i, r]; done.
      - intros (i & r & Hr & Hi0 & <- & <-). destruct (decide (po_id p = i)) as [<-|Hne].
        + assert (r = p) as -> by congruence. eexists _, _. split; [apply lookup_insert_eq|]. done.
        + exists i, r. by rewrite lookup_insert_ne. }
    destruct Hi as [_ Ha Hl Ho Hac Hlk].
    assert (account_index db1 = account_index (ctx_db ctx)) as Ea by (by rewrite Hdb).
    assert (permission_link_index db1 = permission_link_index (ctx_db ctx)) as El by (by rewrite Hdb).
    split; rewrite ?Ea, ?El; try done.
    + intros x y Hx%Hperm%Ho. unfold has_account. by rewrite Ea.
    + intros x Hx. rewrite !Hperm. apply Hac. unfold has_account in *. by rewrite Ea in Hx.
    + intros i l Hl'. unfold has_account. rewrite Ea. by apply (Hlk i).
  - apply bind_ok in H as ([db1 p] & Hc & H). apply bind_ok in H as (new & _ & H).
    apply add_mem_usage_inv in H; [done|]. cbn [ctx_db with_db].
    apply find_by_Some in Hacc as [[i Hai] [= Han]].
    destruct (Z.eqb_spec (ua_permission u) owner_name) as [Eo|Eo].
    + exfalso. destruct (ai_account _ Hi (ua_account u)) as [(j & q & Hq & _ & Hqo & Hqn) _]; [by exists i, acc|].
      apply (Hfind j q Hq). split; [done|congruence].
    + apply bind_ok in Hparent as (par & Hpar & [= <-]).
      apply (get_permission_ok _ _ _ Hf) in Hpar as (Hpar & Hpar0 & Hparo & Hparn). cbn [actor permission] in *.
      apply (auth_inv_create _ _ _ _ _ _ _ _ _ Hi Hc); [by exists i, acc|done|done|done| |].
      * intros _. by exists par.
      * intros Eact. exists par. split; [done|]. unfold check_update in Hchk.
        apply bind_ok in Hchk as ([] & _ & Hchk). rewrite Eact in Hchk. cbn in Hchk.
        apply bind_ok in Hchk as ([] & Hchk%ine_assert_ok & _). apply Z.eqb_eq in Hchk. congruence.
Qed.

(** What deleteauth removes. *)
Lemma deleteauth_spec act ctx ctx' :
  auth_inv (ctx_db ctx) -> apply_inery_deleteauth act ctx = Ok ctx' ->
  exists p, indices (permission_index (ctx_db ctx)) !! po_id p = Some p /\ po_id p <> 0 /\
    po_name p <> active_name /\ po_name p <> owner_name /\
    exists_by by_permission_name [owner p; po_name p] (permission_link_index (ctx_db ctx)) = false /\
    perm_inv (ctx_db ctx') /\
    indices (permission_index (ctx_db ctx')) = delete (po_id p) (indices (permission_index (ctx_db ctx))) /\
    account_index (ctx_db ctx') = account_index (ctx_db ctx) /\
    permission_link_index (ctx_db ctx') = permission_link_index (ctx_db ctx).
Proof.
  intros Hi H. unfold apply_inery_deleteauth in H. apply bind_ok in H as (r & _ & H).
  apply bind_ok in H as ([] & _ & H). apply bind_ok in H as ([] & Hact%ine_assert_ok & H).
  apply bind_ok in H as ([] & Hown%ine_assert_ok & H). apply bind_ok in H as ([] & Hlink%ine_assert_ok & H).
  apply bind_ok in H as (p & Hp & H). apply bind_ok in H as (old & _ & H). apply bind_ok in H as (db1 & Hr & H).
  apply negb_true_iff, Z.eqb_neq in Hact, Hown. apply negb_true_iff in Hlink.
  pose proof (ai_perm _ Hi) as Hpi. pose proof (pi_forest _ Hpi) as Hf.
  apply (get_permission_ok _ _ _ Hf) in Hp as (Hp & Hp0 & Ho & Hn). cbn [actor permission] in *.
  destruct (remove_permission_ok _ _ _ _ Hpi Hp Hp0 Hr) as (Hpi1 & Hdb & Hidx & _).
  apply add_mem_usage_db in H. cbn [ctx_db with_db] in H.
  exists p. rewrite Ho, Hn. split_and!; try done.
  - rewrite H. by apply (perm_inv_same db1).
  - by rewrite H.
  - by rewrite H, Hdb.
  - by rewrite H, Hdb.
Qed.

Lemma deleteauth_inv act ctx ctx' :
  auth_inv (ctx_db ctx) -> apply_inery_deleteauth act ctx = Ok ctx' -> auth_inv (ctx_db ctx').
Proof.
  intros Hi H. destruct (deleteauth_spec act ctx ctx' Hi H) as
    (p & Hp & Hp0 & Hact & Hown & _ & Hpi & Hidx & Ea & El). destruct Hi as [_ Ha Hl Ho Hac Hlk].
  assert (forall x y, has_permission (ctx_db ctx') x y -> has_permission (ctx_db ctx) x y) as Hsub.
  { intros x y (i & q & Hq & Hrest). exists i, q. rewrite Hidx in Hq. by apply lookup_delete_Some in Hq as [_ Hq]. }
  assert (forall x y, y = owner_name \/ y = active_name -> has_permission (ctx_db ctx) x y ->
                      has_permission (ctx_db ctx') x y) as Hkeep.
  { intros x y Hy (i & q & Hq & Hi0 & Hqo & Hqn). exists i, q. split_and!; try done. rewrite Hidx, lookup_delete_ne; [done|].
    intros <-. rewrite Hp in Hq. injection Hq as <-. destruct Hy; congruence. }
  split; rewrite ?Ea, ?El; try done; unfold has_account in *; rewrite ?Ea; try done.
  - intros x y Hx%Hsub. by apply (Ho x y).
  - intros x Hx. destruct (Hac x Hx). split; apply Hkeep; auto.
Qed.

Lemma auth_inv_links db links :
  auth_inv db -> table_ok links ->
  (forall i l, indices links !! i = Some l ->
    has_account db (plo_account l) /\ has_account db (plo_code l) /\ required_permission l <> 0) ->
  auth_inv (with_links db links).
Proof. intros [Hpi Ha Hl Ho Hac Hlk] Ht H. split; try done. by apply (perm_inv_same db). Qed.

(** The table of links after linkauth: an old link with the new requirement,
    or a new one. *)
Lemma linkauth_spec env act ctx ctx' :
  auth_inv (ctx_db ctx) -> apply_inery_linkauth env act ctx = Ok ctx' ->
  exists r i l, table_ok (permission_link_index (ctx_db ctx')) /\
    has_account (ctx_db ctx) (la_account r) /\ has_account (ctx_db ctx) (la_code r) /\ la_requirement r <> 0 /\
    (la_requirement r = inery_any_name \/
     (is_builtin_activated env only_link_to_existing_permission = true ->
      has_permission (ctx_db ctx) (la_account r) (la_requirement r))) /\
    plo_account l = la_account r /\ plo_code l = la_code r /\ required_permission l = la_requirement r /\
    indices (permission_link_index (ctx_db ctx')) = <[i := l]> (indices (permission_link_index (ctx_db ctx))) /\
    exists rl, ctx_db ctx' = with_resources (with_links (ctx_db ctx) (permission_link_index (ctx_db ctx'))) rl.
Proof.
  intros Hi H. unfold apply_inery_linkauth in H. apply bind_ok in H as (r & _ & H). apply fc_capture_ok in H.
  apply bind_ok in H as ([] & Hreq%ine_assert_ok & H). apply bind_ok in H as ([] & _ & H).
  apply bind_ok in H as ([] & Hacc%ine_assert_ok & H). apply bind_ok in H as ([] & Hcode%ine_assert_ok & H).
  apply bind_ok in H as ([] & Hexist & H). apply exists_by_account in Hacc, Hcode.
  apply negb_true_iff, Z.eqb_neq in Hreq. pose proof (ai_links _ Hi) as Hl.
  assert (la_requirement r = inery_any_name \/
     (is_builtin_activated env only_link_to_existing_permission = true ->
      has_permission (ctx_db ctx) (la_account r) (la_requirement r))) as Hex.
  { destruct (Z.eqb_spec (la_requirement r) inery_any_name) as [|_]; [by left|right]. intros Hact. rewrite Hact in Hexist.
    apply ine_assert_ok, bool_decide_eq_true in Hexist as [p Hp]. apply find_by_Some in Hp as [[i Hp] [= Ho Hn]].
    exists i, p. split_and!; try done. intros ->. destruct (f_reserved _ (pi_forest _ (ai_perm _ Hi))) as (q & Hq & _ & _ & Hqn).
    congruence. }
  destruct (find_by by_action_name _ _) as [link|] eqn:Hfind.
  - apply bind_ok in H as ([] & _ & H). apply bind_ok in H as (links & Hm & [= <-]).
    apply (db_modify_ok _ _ _ _ Hl) in Hm as (l & Hli & Hidx & _ & Ht); [|done].
    apply find_by_Some in Hfind as [[j Hj] [= E1 E2 E3]]. pose proof (t_ids _ Hl j link Hj) as Hidj. cbn in Hidj. subst j.
    assert (l = link) as -> by congruence.
    eexists r, (plo_id link), _. split_and!; [exact Ht|done|done|done|done| | | |exact Hidx|]; try done. by eexists.
  - apply bind_ok in H as ([links l] & Hc & H).
    apply (table_create_ok _ _ _ _ Hl) in Hc as (-> & Hnone & Hidx & _ & Ht); [|done].
    apply add_mem_usage_db in H. cbn [ctx_db with_db] in H. rewrite H.
    eexists r, _, _. split_and!; [exact Ht|done|done|done|done| | | |exact Hidx|]; try done. by eexists.
Qed.

Lemma linkauth_inv env act ctx ctx' :
  auth_inv (ctx_db ctx) -> apply_inery_linkauth env act ctx = Ok ctx' -> auth_inv (ctx_db ctx').
Proof.
  intros Hi H. destruct (linkauth_spec env act ctx ctx' Hi H) as
    (r & i & l & Ht & Hacc & Hcode & Hreq & _ & El1 & El2 & El3 & Hidx & rl & Hdb). rewrite Hdb.
  apply (auth_inv_same (with_links (ctx_db ctx) (permission_link_index (ctx_db ctx')))); try done.
  apply auth_inv_links; [done|done|]. intros j m Hm. rewrite Hidx in Hm.
  apply lookup_insert_Some in Hm as [[<- <-]|[_ Hm]]; [by rewrite El1, El2, El3|]. by apply (ai_linked _ Hi j).
Qed.

Lemma unlinkauth_spec act ctx ctx' :
  auth_inv (ctx_db ctx) -> apply_inery_unlinkauth act ctx = Ok ctx' ->
  exists i rl, table_ok (permission_link_index (ctx_db ctx')) /\
    indices (permission_link_index (ctx_db ctx')) = delete i (indices (permission_link_index (ctx_db ctx))) /\
    ctx_db ctx' = with_links (with_resources (ctx_db ctx) rl) (permission_link_index (ctx_db ctx')).
Proof.
  intros Hi H. unfold apply_inery_unlinkauth in H. apply bind_ok in H as (r & _ & H).
  apply bind_ok in H as ([] & _ & H). destruct (find_by by_action_name _ _) as [link|]; [|done].
  apply bind_ok in H as (ctx1 & Hm & H). apply bind_ok in H as (links & Hr & [= <-]).
  apply add_mem_usage_db in Hm. rewrite Hm in Hr |- *. cbn [permission_link_index with_resources] in Hr.
  apply (db_remove_ok _ _ _ (ai_links _ Hi)) in Hr as (l & Hl & Hidx & _ & Ht).
  exists (plo_id link), (resource_limits (ctx_db ctx1)). done.
Qed.

Lemma unlinkauth_inv act ctx ctx' :
  auth_inv (ctx_db ctx) -> apply_inery_unlinkauth act ctx = Ok ctx' -> auth_inv (ctx_db ctx').
Proof.
  intros Hi H. destruct (unlinkauth_spec act ctx ctx' Hi H) as (i & rl & Ht & Hidx & Hdb). rewrite Hdb.
  apply auth_inv_links; [by apply (auth_inv_same (ctx_db ctx))|done|]. intros j m Hm. rewrite Hidx in Hm.
  apply lookup_delete_Some in Hm as [_ Hm]. by apply (ai_linked _ Hi j).
Qed.

Lemma canceldelay_db act ctx ctx' :
  apply_inery_canceldelay act ctx = Ok ctx' ->
  exists rl g, ctx_db ctx' = with_generated (with_resources (ctx_db ctx) rl) g.
Proof.
  intros H. unfold apply_inery_canceldelay in H. apply bind_ok in H as (c & _ & H).
  apply bind_ok in H as ([] & _ & H). apply bind_ok in H as ([ctx1 b] & Hc & [= <-]).
  unfold cancel_deferred_transaction in Hc. destruct (find_by by_sender_id _ _) as [gto|].
  - apply bind_ok in Hc as (ctx2 & Hm & Hc). apply bind_ok in Hc as (idx & _ & [= <- _]).
    apply add_mem_usage_db in Hm. rewrite Hm. by eexists _, _.
  - injection Hc as <- _. exists (resource_limits (ctx_db ctx)), (generated_transaction_index (ctx_db ctx)).
    by destruct (ctx_db ctx).
Qed.

Lemma canceldelay_inv act ctx ctx' :
  auth_inv (ctx_db ctx) -> apply_inery_canceldelay act ctx = Ok ctx' -> auth_inv (ctx_db ctx').
Proof. intros Hi (rl & g & ->)%canceldelay_db. by apply (auth_inv_same (ctx_db ctx)). Qed.

Lemma apply_native_inv env act ctx ctx' :
  auth_inv (ctx_db ctx) -> apply_native env act ctx = Ok ctx' -> auth_inv (ctx_db ctx').
Proof.
  intros Hi. unfold apply_native.
  destruct (act_name act =? newaccount_name); [by apply newaccount_inv|].
  destruct (act_name act =? setcode_name); [by apply setcode_inv|].
  destruct (act_name act =? setabi_name); [by apply setabi_inv|].
  destruct (act_name act =? updateauth_name); [by apply updateauth_inv|].
  destruct (act_name act =? deleteauth_name); [by apply deleteauth_inv|].
  destruct (act_name act =? linkauth_name); [by apply linkauth_inv|].
  destruct (act_name act =? unlinkauth_name); [by apply unlinkauth_inv|].
  destruct (act_name act =? canceldelay_name); [by apply canceldelay_inv|]. by intros [= <-].
Qed.

(** ** Reachable states *)

(** A step of the chain as far as accounts, permissions and links go: a native
    action in an environment that satisfies [P], the use of a permission, or
    any change of the other tables. *)
Inductive native_step (P : chain_env -> Prop) (db : chain_db) : chain_db -> Prop :=
  | step_action env act deltas billed ctx' :
      P env -> apply_native env act (mk_apply_ctx db deltas billed) = Ok ctx' -> native_step P db (ctx_db ctx')
  | step_usage env p db' :
      update_permission_usage env p db = Ok db' -> native_step P db db'
  | step_other metas codes generated rl :
      native_step P db (with_resources (with_generated (with_code (with_metadata db metas) codes) generated) rl).

Lemma native_step_inv P db db' : auth_inv db -> native_step P db db' -> auth_inv db'.
Proof.
  intros Hi [env act deltas billed ctx' _ H|env p db1 H|metas codes generated rl].
  - by apply (apply_native_inv env act _ ctx') in H.
  - destruct (update_permission_usage_ok _ _ _ _ (ai_perm _ Hi) H) as [Hpi Hdb].
    destruct Hi as [_ Ha Hl Ho Hac Hlk].
    assert (account_index db1 = account_index db) as Ea by (by rewrite Hdb).
    assert (permission_index db1 = permission_index db) as Ep by (by rewrite Hdb).
    assert (permission_link_index db1 = permission_link_index db) as El by (by rewrite Hdb).
    split; unfold has_permission, has_account in *; rewrite ?Ea, ?Ep, ?El; done.
  - by apply (auth_inv_same db).
Qed.

Lemma native_steps_inv P db db' : auth_inv db -> rtc (native_step P) db db' -> auth_inv db'.
Proof. intros Hi Hs. revert Hi. induction Hs; eauto using native_step_inv. Qed.

Lemma reserved_inv db : authorization_initialize_database empty_chain_db = Ok db -> auth_inv db.
Proof.
  intros H. unfold authorization_initialize_database in H. apply bind_ok in H as ([ps p] & Hps & [= <-]).
  pose proof (reserved_forest _ _ Hps) as Hf.
  apply (table_create_ok _ _ _ _ empty_table_ok) in Hps as (-> & _ & Hi & _ & _); [|done].
  cbn [empty_index indices next_id] in Hi.
  assert (forall i q, indices ps !! i = Some q -> i = 0) as Honly.
  { intros i q. rewrite Hi, lookup_insert_Some, lookup_empty. naive_solver. }
  split; [split|..]; cbn [empty_chain_db with_permissions permission_index permission_usage_index account_index
    permission_link_index]; try apply empty_table_ok; try done.
  - intros i q ->%Honly. done.
  - intros i j q r ->%Honly. done.
  - intros x y (i & q & Hq & Hi0 & _). cbn in Hq. by apply Honly in Hq.
  - intros x (i & a & Ha & _). done.
Qed.

Lemma genesis_inv env abi_bin time key db :
  controller_initialize_database env abi_bin time key = Ok db -> auth_inv db.
Proof.
  intros H. unfold controller_initialize_database in H. apply bind_ok in H as (db0 & H0%reserved_inv & H).
  apply bind_ok in H as (db1 & H1 & H). apply bind_ok in H as (db2 & H2 & H). apply bind_ok in H as (db3 & H3 & H).
  apply create_native_account_inv in H1; [|done|done]. apply create_native_account_inv in H2; [|done|done].
  apply create_native_account_inv in H3; [|done|done].
  apply bind_ok in H as (ap & Hap & H). apply bind_ok in H as ([db4 mp] & Hmp & H).
  apply bind_ok in H as ([db5 np] & Hnp & [= <-]).
  apply (get_permission_ok _ _ _ (pi_forest _ (ai_perm _ H3))) in Hap as (Hap & Hap0 & Hapo & Hapn). cbn [actor permission] in *.
  assert (has_account db3 producers_account_name) as Hacc3.
  { apply (ai_owned _ H3 _ active_name). by exists (po_id ap), ap. }
  destruct (create_permission_ok _ _ _ _ _ _ _ _ _ (ai_perm _ H3) Hmp) as
    (_ & Hdb4 & _ & Hi4 & Hid4 & Ho4 & _); [done|done|done| |done|].
  { intros _. by exists ap. }
  apply auth_inv_create in Hmp; [|done|done|done|done|done| |done].
  2: { intros _. by exists ap. }
  apply auth_inv_create in Hnp; [done|done| |done|done|done| |done].
  - unfold has_account. by rewrite Hdb4.
  - intros _. exists mp. by rewrite Hi4, lookup_insert_eq.
Qed.

(** The owner permission is above every permission of its account. *)
Lemma owner_above db i p :
  auth_inv db -> indices (permission_index db) !! i = Some p -> i <> 0 ->
  exists o, owner o = owner p /\ po_name o = owner_name /\ parent o = 0 /\ above (permission_index db) o p.
Proof.
  intros Hi. pose proof (pi_forest _ (ai_perm _ Hi)) as Hf. revert p.
  induction (Z.lt_wf 0 i) as [i _ IH]. intros p Hp Hi0.
  destruct (decide (parent p = 0)) as [E|E].
  - exists p. split_and!; [done| |done|constructor]. by apply (f_root _ Hf i).
  - destruct (f_parent _ Hf i p Hp E) as (Hlt & q & Hq & Ho). pose proof (forest_id_nonneg _ _ _ Hf Hq).
    destruct (IH (parent p)) with (p := q) as (o & Hoo & Hon & Ho0 & Hab); [lia|done|done|].
    exists o. split_and!; [congruence|done|done|]. by apply (above_parent _ o p q).
Qed.

Lemma permission_unique db i j p q :
  auth_inv db -> indices (permission_index db) !! i = Some p -> indices (permission_index db) !! j = Some q ->
  owner p = owner q -> po_name p = po_name q -> i = j.
Proof.
  intros Hi Hp Hq Ho Hn. apply (t_unique _ (f_table _ (pi_forest _ (ai_perm _ Hi))) i j p q Hp Hq).
  apply same_key_iff. exists by_owner. split; [right; left|]. unfold by_owner. by rewrite Ho, Hn.
Qed.

(** C5: From genesis on, whatever native actions succeed, the permissions of
    every account are a tree: the account has an owner permission without a
    parent and an active permission directly below it; every permission
    belongs to an account, has its usage object and its account's owner
    permission above it; and no account has two permissions of one name. *)
Theorem permission_trees P env abi_bin time key db0 db :
  controller_initialize_database env abi_bin time key = Ok db0 -> rtc (native_step P) db0 db ->
  let perms := indices (permission_index db) in
  (forall name, has_account db name -> exists i o j a,
     perms !! i = Some o /\ owner o = name /\ po_name o = owner_name /\ parent o = 0 /\
     perms !! j = Some a /\ owner a = name /\ po_name a = active_name /\ parent a = i) /\
  (forall i p, perms !! i = Some p -> i <> 0 ->
     has_account db (owner p) /\ is_Some (indices (permission_usage_index db) !! usage_id p) /\
     exists o, owner o = owner p /\ po_name o = owner_name /\ above (permission_index db) o p) /\
  (forall i j p q, perms !! i = Some p -> perms !! j = Some q ->
     owner p = owner q -> po_name p = po_name q -> i = j).
Proof.
  intros Hg Hs. pose proof (native_steps_inv P _ _ (genesis_inv _ _ _ _ _ Hg) Hs) as Hi. cbn zeta.
  pose proof (pi_forest _ (ai_perm _ Hi)) as Hf. split_and!.
  - intros name Hacc. destruct (ai_account _ Hi name Hacc) as [(i & o & Ho & Hi0 & Hoo & Hon) (j & a & Ha & Hj0 & Hao & Han)].
    assert (parent a <> 0) as Hpa.
    { intros E. apply (f_root _ Hf j a Ha Hj0) in E. rewrite Han in E. done. }
    exists i, o, j, a. split_and!; try done.
    + by apply (f_root _ Hf i o Ho Hi0).
    + destruct (f_active _ Hf j a Ha Han) as (q & Hq & Hqn).
      destruct (f_parent _ Hf j a Ha Hpa) as (_ & q' & Hq' & Hqo). assert (q' = q) as -> by congruence.
      apply (permission_unique db _ _ q o Hi Hq Ho); congruence.
  - intros i p Hp Hi0. destruct (owner_above db i p Hi Hp Hi0) as (o & Hoo & Hon & _ & Hab). split_and!.
    + apply (ai_owned _ Hi _ (po_name p)). by exists i, p.
    + by apply (pi_usage _ (ai_perm _ Hi) i p).
    + by exists o.
  - intros i j p q. by apply permission_unique.
Qed.

(** ** Links *)

(** The permission a link requires is inery.any or one of the account. *)
Definition resolves (db : chain_db) (l : permission_link_object) : Prop :=
  required_permission l = inery_any_name \/ has_permission db (plo_account l) (required_permission l).

Lemma resolves_or_not db l : resolves db l \/ ~ resolves db l.
Proof.
  unfold resolves, has_permission. destruct (decide (required_permission l = inery_any_name)) as [|Hany]; [auto|].
  destruct (decide (map_Exists (fun i p => i <> 0 /\ owner p = plo_account l /\ po_name p = required_permission l)
    (indices (permission_index db)))) as [(i & p & Hp & Hrest)|Hno]; [left; right; by exists i, p|right].
  intros [|(i & p & Hp & Hrest)]; [done|]. apply Hno. by exists i, p.
Qed.

Section dangling.
(** The links that dangled already. *)
Context (dangled : Z -> permission_link_object -> Prop).

Definition links_resolve (db : chain_db) : Prop :=
  forall i l, indices (permission_link_index db) !! i = Some l -> resolves db l \/ dangled i l.

(** No permission and no link is lost, and no link is new. *)
Definition keeps (db db' : chain_db) : Prop :=
  (forall x y, has_permission db x y -> has_permission db' x y) /\ permission_link_index db' = permission_link_index db.

Lemma keeps_resolve db db' : keeps db db' -> links_resolve db -> links_resolve db'.
Proof.
  intros [Hp Hl] H i l Hi. rewrite Hl in Hi. destruct (H i l Hi) as [[?|?]|?]; unfold resolves; auto.
Qed.

Lemma keeps_same db db' :
  permission_index db' = permission_index db -> permission_link_index db' = permission_link_index db -> keeps db db'.
Proof. intros E1 E2. split; [|done]. intros x y. unfold has_permission. by rewrite E1. Qed.

Lemma keeps_trans db1 db2 db3 : keeps db1 db2 -> keeps db2 db3 -> keeps db1 db3.
Proof. intros [H1 E1] [H2 E2]. split; [auto|congruence]. Qed.

Lemma keeps_create env account name par a t db db' p :
  table_ok (permission_index db) -> create_permission env account name par a t db = Ok (db', p) ->
  keeps db db' /\ table_ok (permission_index db').
Proof.
  intros Ht H. unfold create_permission in H. apply bind_ok in H as ([] & _ & H).
  apply bind_ok in H as ([us pu] & _ & H). apply bind_ok in H as ([ps perm] & Hps & [= <- _]).
  apply (table_create_ok _ _ _ _ Ht) in Hps as (-> & Hnone & Hi & _ & Ht'); [|done]. split; [|done]. split; [|done].
  intros x y (i & q & Hq & Hrest). exists i, q. split; [|done]. cbn. rewrite Hi, lookup_insert_ne; [done|].
  intros <-. congruence.
Qed.

Lemma keeps_modify env p a db db' :
  table_ok (permission_index db) -> modify_permission env p a db = Ok db' -> keeps db db'.
Proof.
  intros Ht H. unfold modify_permission in H. apply bind_ok in H as ([] & _ & H). apply bind_ok in H as (ps & Hps & [= <-]).
  apply (db_modify_ok _ _ _ _ Ht) in Hps as (q & Hq & Hi & _ & _); [|done]. split; [|done].
  intros x y (i & r & Hr & Hi0 & <- & <-). destruct (decide (po_id p = i)) as [<-|Hne].
  - assert (r = q) as -> by congruence. eexists _, _. cbn. rewrite Hi, lookup_insert_eq. done.
  - exists i, r. cbn. by rewrite Hi, lookup_insert_ne.
Qed.

Lemma keeps_mem account delta ctx ctx' db :
  add_mem_usage account delta (with_db ctx db) = Ok ctx' -> keeps db (ctx_db ctx').
Proof. intros H%add_mem_usage_db. rewrite H. by apply keeps_same. Qed.

Lemma newaccount_keeps env act ctx ctx' :
  auth_inv (ctx_db ctx) -> apply_inery_newaccount env act ctx = Ok ctx' -> keeps (ctx_db ctx) (ctx_db ctx').
Proof.
  intros Hi H. unfold apply_inery_newaccount in H. apply bind_ok in H as (create & _ & H). apply fc_capture_ok in H.
  do 5 (apply bind_ok in H as ([] & _ & H)). apply bind_ok in H as (creator & _ & H).
  do 2 (apply bind_ok in H as ([] & _ & H)). apply bind_ok in H as ([accs acc] & _ & H).
  apply bind_ok in H as ([metas meta] & _ & H). do 2 (apply bind_ok in H as ([] & _ & H)).
  apply bind_ok in H as ([db1 op] & H1 & H). apply bind_ok in H as ([db2 ap] & H2 & H).
  apply bind_ok in H as (rl & _ & H). apply bind_ok in H as (? & _ & H). apply bind_ok in H as (? & _ & H).
  apply keeps_create in H1 as [H1 Ht1]; [|apply (f_table _ (pi_forest _ (ai_perm _ Hi)))].
  apply keeps_create in H2 as [H2 _]; [|done]. apply keeps_mem in H.
  apply (keeps_trans _ db1); [|apply (keeps_trans _ db2); [done|]]; [|by apply (keeps_trans _ (with_resources db2 rl)); [apply keeps_same|]].
  apply (keeps_trans _ (with_metadata (with_accounts (ctx_db ctx) accs) metas)); [by apply keeps_same|done].
Qed.

Lemma updateauth_keeps env act ctx ctx' :
  auth_inv (ctx_db ctx) -> apply_inery_updateauth env act ctx = Ok ctx' -> keeps (ctx_db ctx) (ctx_db ctx').
Proof.
  intros Hi H. pose proof (f_table _ (pi_forest _ (ai_perm _ Hi))) as Ht. unfold apply_inery_updateauth in H.
  apply bind_ok in H as (u & _ & H). do 4 (apply bind_ok in H as ([] & _ & H)). apply bind_ok in H as (acc & _ & H).
  do 2 (apply bind_ok in H as ([] & _ & H)). apply bind_ok in H as (perm & _ & H). apply bind_ok in H as (par & _ & H).
  destruct perm as [p|].
  - apply bind_ok in H as ([] & _ & H). apply bind_ok in H as (old & _ & H). apply bind_ok in H as (db1 & Hm & H).
    apply bind_ok in H as (new & _ & H). apply keeps_modify in Hm; [|done]. apply keeps_mem in H.
    by apply (keeps_trans _ db1).
  - apply bind_ok in H as ([db1 p] & Hc & H). apply bind_ok in H as (new & _ & H).
    apply keeps_create in Hc as [Hc _]; [|done]. apply keeps_mem in H. by apply (keeps_trans _ db1).
Qed.

Lemma keeps_mem_if (b : bool) account delta ctx ctx' db :
  (if b then Ok (with_db ctx db) else add_mem_usage account delta (with_db ctx db)) = Ok ctx' -> keeps db (ctx_db ctx').
Proof. destruct b; [intros [= <-]; by apply keeps_same|apply keeps_mem]. Qed.

Lemma setcode_keeps env act ctx ctx' :
  apply_inery_setcode env act ctx = Ok ctx' -> keeps (ctx_db ctx) (ctx_db ctx').
Proof.
  intros H. unfold apply_inery_setcode in H. apply bind_ok in H as (sc & _ & H).
  do 4 (apply bind_ok in H as ([] & _ & H)). apply bind_ok in H as (account & _ & H). apply bind_ok in H as ([] & _ & H).
  apply bind_ok in H as ([old_size codes] & _ & H). apply bind_ok in H as (codes' & _ & H).
  apply bind_ok in H as (metas & _ & H). apply keeps_mem_if in H. eapply keeps_trans; [|exact H]. by apply keeps_same.
Qed.

Lemma setabi_keeps act ctx ctx' :
  apply_inery_setabi act ctx = Ok ctx' -> keeps (ctx_db ctx) (ctx_db ctx').
Proof.
  intros H. unfold apply_inery_setabi in H. apply bind_ok in H as (sa & _ & H).
  apply bind_ok in H as ([] & _ & H). apply bind_ok in H as (account & _ & H). apply bind_ok in H as (accs & _ & H).
  apply bind_ok in H as (meta & _ & H). apply bind_ok in H as (metas & _ & H).
  apply keeps_mem_if in H. eapply keeps_trans; [|exact H]. by apply keeps_same.
Qed.

Lemma deleteauth_resolve act ctx ctx' :
  auth_inv (ctx_db ctx) -> apply_inery_deleteauth act ctx = Ok ctx' ->
  links_resolve (ctx_db ctx) -> links_resolve (ctx_db ctx').
Proof.
  intros Hi H Hr. destruct (deleteauth_spec act ctx ctx' Hi H) as (p & Hp & Hp0 & _ & _ & Hfree & _ & Hidx & _ & El).
  intros i l Hl. rewrite El in Hl.
  destruct (Hr i l Hl) as [[|(j & q & Hq & Hj & Ho & Hn)]|]; [by left; left|left; right|by right].
  exists j, q. split_and!; try done. rewrite Hidx, lookup_delete_ne; [done|]. intros <-.
  assert (q = p) as -> by congruence.
  unfold exists_by in Hfree. destruct (find_by _ _ _) eqn:Hnone; [done|].
  apply (proj1 (find_by_None _ _ _) Hnone i l Hl). unfold by_permission_name. by rewrite Ho, Hn.
Qed.

Lemma linkauth_resolve env act ctx ctx' :
  is_builtin_activated env only_link_to_existing_permission = true ->
  auth_inv (ctx_db ctx) -> apply_inery_linkauth env act ctx = Ok ctx' ->
  links_resolve (ctx_db ctx) -> links_resolve (ctx_db ctx').
Proof.
  intros Hact Hi H Hr. destruct (linkauth_spec env act ctx ctx' Hi H) as
    (r & i & l & _ & _ & _ & _ & Hex & El1 & El2 & El3 & Hidx & rl & Hdb).
  assert (forall x y, has_permission (ctx_db ctx) x y -> has_permission (ctx_db ctx') x y) as Hp by (by rewrite Hdb).
  intros j m Hm. rewrite Hidx in Hm. apply lookup_insert_Some in Hm as [[<- <-]|[_ Hm]].
  - left. unfold resolves. rewrite El1, El3. destruct Hex; auto.
  - destruct (Hr j m Hm) as [[?|?]|?]; unfold resolves; auto.
Qed.

Lemma unlinkauth_resolve act ctx ctx' :
  auth_inv (ctx_db ctx) -> apply_inery_unlinkauth act ctx = Ok ctx' ->
  links_resolve (ctx_db ctx) -> links_resolve (ctx_db ctx').
Proof.
  intros Hi H Hr. destruct (unlinkauth_spec act ctx ctx' Hi H) as (i & rl & _ & Hidx & Hdb). intros j m Hm.
  rewrite Hidx in Hm. apply lookup_delete_Some in Hm as [_ Hm]. rewrite Hdb. exact (Hr j m Hm).
Qed.

Lemma apply_native_resolve env act ctx ctx' :
  is_builtin_activated env only_link_to_existing_permission = true ->
  auth_inv (ctx_db ctx) -> apply_native env act ctx = Ok ctx' ->
  links_resolve (ctx_db ctx) -> links_resolve (ctx_db ctx').
Proof.
  intros Hact Hi. unfold apply_native.
  destruct (act_name act =? newaccount_name); [intros H; by apply keeps_resolve, (newaccount_keeps env act)|].
  destruct (act_name act =? setcode_name); [intros H; by apply keeps_resolve, (setcode_keeps env act)|].
  destruct (act_name act =? setabi_name); [intros H; by apply keeps_resolve, (setabi_keeps act)|].
  destruct (act_name act =? updateauth_name); [intros H; by apply keeps_resolve, (updateauth_keeps env act)|].
  destruct (act_name act =? deleteauth_name); [by apply deleteauth_resolve|].
  destruct (act_name act =? linkauth_name); [by apply (linkauth_resolve env)|].
  destruct (act_name act =? unlinkauth_name); [by apply unlinkauth_resolve|].
  destruct (act_name act =? canceldelay_name); [|by intros [= <-]].
  intros (rl & g & ->)%canceldelay_db. by apply keeps_resolve, keeps_same.
Qed.

Definition existing_links_only (env : chain_env) : Prop :=
  is_builtin_activated env only_link_to_existing_permission = true.

Lemma native_step_resolve db db' :
  auth_inv db -> native_step existing_links_only db db' -> links_resolve db -> links_resolve db'.
Proof.
  intros Hi [env act deltas billed ctx' Hact H|env p db1 H|metas codes generated rl].
  - by apply (apply_native_resolve env act (mk_apply_ctx db deltas billed) ctx' Hact).
  - destruct (update_permission_usage_ok _ _ _ _ (ai_perm _ Hi) H) as [_ Hdb].
    apply keeps_resolve, keeps_same; by rewrite Hdb.
  - by apply keeps_resolve, keeps_same.
Qed.

Lemma native_steps_resolve db db' :
  rtc (native_step existing_links_only) db db' -> auth_inv db -> links_resolve db -> links_resolve db'.
Proof. induction 1; eauto using native_step_inv, native_step_resolve. Qed.

End dangling.

(** C27: From the activation of ONLY_LINK_TO_EXISTING_PERMISSION on, no link
    begins to dangle.  Whatever native actions ran from genesis to the
    activation and after it, every link is of an account that exists to a
    contract that exists, and the permission it requires is inery.any or
    exists, unless the very same link was there at the activation and dangled
    then: linkauth refuses links to other permissions, and deleteauth refuses
    to delete a permission with a link. *)
Theorem links_never_dangle env abi_bin time key db0 db1 db :
  controller_initialize_database env abi_bin time key = Ok db0 ->
  rtc (native_step (fun _ => True)) db0 db1 -> rtc (native_step existing_links_only) db1 db ->
  forall i l, indices (permission_link_index db) !! i = Some l ->
    has_account db (plo_account l) /\ has_account db (plo_code l) /\
    (resolves db l \/ indices (permission_link_index db1) !! i = Some l /\ ~ resolves db1 l).
Proof.
  intros Hg Hs1 Hs i l Hl. pose proof (genesis_inv _ _ _ _ _ Hg) as Hi0.
  pose proof (native_steps_inv _ _ _ Hi0 Hs1) as Hi.
  pose proof (native_steps_inv _ _ _ Hi Hs) as Hi'. destruct (ai_linked _ Hi' i l Hl) as (Ha & Hc & _).
  split_and!; [done|done|].
  apply (native_steps_resolve
    (fun i l => indices (permission_link_index db1) !! i = Some l /\ ~ resolves db1 l) _ _ Hs Hi); [|done].
  intros j m Hm. destruct (resolves_or_not db1 m); auto.
Qed.

End native.

(** ** An example: an account, a permission of it and a link *)

Definition example_key : public_key := K1 (2 :: replicate 32 7).
Definition example_auth : authority := authority_of_key example_key 0.
Definition example_env : chain_env :=
  mk_chain_env 1600000000000000 1 3888000 6 2 (fun _ => true) false false [].
Definition alice_name : Z := Eval vm_compute in string_to_uint64_t (lit "alice").
Definition posting_name : Z := Eval vm_compute in string_to_uint64_t (lit "posting").

Definition native_action {T} (name auth_account : Z) (c : codec T) (t : T) : action :=
  mk_action system_account_name name [mk_permission_level auth_account active_name]
    (match pack c t with Ok ws => concat ws | Err _ => [] end).

Definition example_actions : list action := [
  native_action newaccount_name system_account_name newaccount_codec
    (mk_newaccount system_account_name alice_name example_auth example_auth);
  native_action updateauth_name alice_name updateauth_codec
    (mk_updateauth alice_name posting_name active_name example_auth);
  native_action linkauth_name alice_name linkauth_codec
    (mk_linkauth alice_name system_account_name newaccount_name posting_name)].

Definition example_genesis : chain_db :=
  match controller_initialize_database example_env [] 1500000000000000 example_key with
  | Ok db => db
  | Err _ => empty_chain_db
  end.

Definition example_apply (db : chain_db) (act : action) : option chain_db :=
  match apply_native (BT := reference_boost) (fun _ => zero_digest) (fun _ => Ok tt) example_env act
          (mk_apply_ctx db ∅ ∅) with
  | Ok ctx => Some (ctx_db ctx)
  | Err _ => None
  end.

Fixpoint example_run (db : chain_db) (acts : list action) : option chain_db :=
  match acts with
  | [] => Some db
  | a :: acts' => match example_apply db a with Some db' => example_run db' acts' | None => None end
  end.

Definition example_end : chain_db := default empty_chain_db (example_run example_genesis example_actions).

Lemma example_run_steps (P : chain_env -> Prop) acts db db' :
  P example_env -> example_run db acts = Some db' ->
  rtc (native_step (BT := reference_boost) (fun _ => zero_digest) (fun _ => Ok tt) P) db db'.
Proof.
  intros HP. revert db. induction acts as [|a acts IH]; intros db H; cbn [example_run] in H; [by injection H as <-|].
  destruct (example_apply db a) as [db1|] eqn:E; [|done]. apply rtc_l with db1; [|by apply IH].
  unfold example_apply in E. destruct (apply_native _ _ _ _ _) as [ctx|] eqn:Ea; [|done]. injection E as <-.
  by apply (step_action _ _ P db example_env a ∅ ∅ ctx).
Qed.

Lemma permission_trees_witness :
  exists i p, indices (permission_index example_end) !! i = Some p /\ i <> 0 /\
    owner p = alice_name /\ po_name p = posting_name /\
    exists o, owner o = owner p /\ po_name o = owner_name /\ above (permission_index example_end) o p.
Proof.
  pose proof (permission_trees (BT := reference_boost) (fun _ => zero_digest) (fun _ => Ok tt) (fun _ => True)
    example_env [] 1500000000000000 example_key example_genesis example_end) as H.
  destruct H as (_ & H & _).
  - by vm_compute.
  - apply (example_run_steps (fun _ => True) example_actions); [done|]. by vm_compute.
  - exists 11. eexists. split; [by vm_compute|]. split; [done|]. split; [done|]. split; [done|].
    apply (H 11); [by vm_compute|done].
Defined.

(** Before the activation alice links an action to a permission they do not
    have; after it, another one to posting. *)
Definition inactive_env : chain_env :=
  mk_chain_env 1600000000000000 1 3888000 6 2 (fun _ => false) false false [].

Definition inactive_apply (db : chain_db) (act : action) : option chain_db :=
  match apply_native (BT := reference_boost) (fun _ => zero_digest) (fun _ => Ok tt) inactive_env act
          (mk_apply_ctx db ∅ ∅) with
  | Ok ctx => Some (ctx_db ctx)
  | Err _ => None
  end.

Lemma inactive_apply_step db act db' :
  inactive_apply db act = Some db' ->
  native_step (BT := reference_boost) (fun _ => zero_digest) (fun _ => Ok tt) (fun _ => True) db db'.
Proof.
  unfold inactive_apply. intros E. destruct (apply_native _ _ _ _ _) as [ctx|] eqn:Ea; [|done]. injection E as <-.
  by apply (step_action _ _ _ db inactive_env act ∅ ∅ ctx).
Qed.

Definition account_created : chain_db :=
  default empty_chain_db (example_run example_genesis (take 1 example_actions)).

Definition early_link : action :=
  native_action linkauth_name alice_name linkauth_codec
    (mk_linkauth alice_name system_account_name setcode_name majority_producers_permission_name).

Definition before_activation : chain_db :=
  default empty_chain_db (inactive_apply account_created early_link).

Definition after_activation : chain_db :=
  default empty_chain_db (example_run before_activation (drop 1 example_actions)).

Lemma links_never_dangle_witness :
  exists l m, indices (permission_link_index after_activation) !! 0 = Some l /\
    indices (permission_link_index after_activation) !! 1 = Some m /\
    (resolves after_activation l \/ indices (permission_link_index before_activation) !! 0 = Some l /\
       ~ resolves before_activation l) /\
    (resolves after_activation m \/ indices (permission_link_index before_activation) !! 1 = Some m /\
       ~ resolves before_activation m).
Proof.
  pose proof (links_never_dangle (BT := reference_boost) (fun _ => zero_digest) (fun _ => Ok tt)
    example_env [] 1500000000000000 example_key example_genesis before_activation after_activation) as H.
  do 2 eexists. split; [by vm_compute|]. split; [by vm_compute|].
  assert (controller_initialize_database example_env [] 1500000000000000 example_key = Ok example_genesis) as H0
    by by vm_compute.
  assert (rtc (native_step (BT := reference_boost) (fun _ => zero_digest) (fun _ => Ok tt) (fun _ => True))
    example_genesis before_activation) as H1.
  { apply rtc_r with account_created; [apply (example_run_steps (fun _ => True) (take 1 example_actions))|];
      [done|by vm_compute|]. apply (inactive_apply_step account_created early_link). by vm_compute. }
  assert (rtc (native_step (BT := reference_boost) (fun _ => zero_digest) (fun _ => Ok tt) existing_links_only)
    before_activation after_activation) as H2.
  { apply (example_run_steps existing_links_only (drop 1 example_actions)); [done|]. by vm_compute. }
  split; apply (H H0 H1 H2); by vm_compute.
Defined.
