(* ===== verification/Authorization.v ===== *)
(** * Checking the authorizations of a transaction

    Models the rest of authorization_manager.cpp (its permissions are in
    Permissions.v): the minimum permission of an action, the checks of the
    five native actions that cannot be linked to a permission, both overloads
    of check_authorization and get_required_keys.

    [_checktime] is given by what its successive calls do: the n-th call
    returns or throws.  A walk over the permissions that would not end is
    undefined behaviour, like every loop without effects that does not end.

    The theorems: a transaction that passes declares, for every action, only
    levels at or above the minimum permission of the action, each of them
    satisfied by the keys, permissions and delay it brings; every key it
    brings is named by an authority under one of those levels; and a
    transaction that does not pass ends in one of the exceptions of the
    check, never in undefined behaviour. *)

From S2P Require Import Prelude Exceptions Text Merkle Authority AuthorityChecker Raw Codecs.
From S2P Require Import Timestamps Chainbase BlockHeader Transactions ProtocolFeatures ChainObjects Permissions NativeActions.

(** ** The minimum permission *)

Definition unlinkable (act_name : Z) : bool :=
  (act_name =? updateauth_name) || (act_name =? deleteauth_name) || (act_name =? linkauth_name) ||
  (act_name =? unlinkauth_name) || (act_name =? canceldelay_name).

Definition lookup_minimum_permission (authorizer_account scope act_name : Z) (db : chain_db) : outcome (option Z) :=
  (if scope =? system_account_name
   then ine_assert (negb (unlinkable act_name)) (Throw unlinkable_min_permission_action) else Ok tt) ;;
  match lookup_linked_permission authorizer_account scope act_name db with
  | None => Ok (Some active_name)
  | Some linked => Ok (if linked =? inery_any_name then None else Some linked)
  end.

(** [p.satisfies( min, indices )] with what follows it in every check. *)
Definition assert_satisfies (p min : permission_object) (db : chain_db) : outcome unit :=
  b ← match satisfies p min (permission_index db) with Some r => r | None => Err undefined_behaviour end;
  ine_assert b (Throw irrelevant_auth_exception).

(** The declared authorization, which must be the only one. *)
Definition single_authorization (auths : list permission_level) : outcome permission_level :=
  match auths with
  | [auth] => Ok auth
  | _ => Err (Throw irrelevant_auth_exception)
  end.

Definition check_updateauth_authorization (update : updateauth) (auths : list permission_level) (db : chain_db)
    : outcome unit :=
  auth ← single_authorization auths;
  ine_assert (actor auth =? ua_account update) (Throw irrelevant_auth_exception) ;;
  found ← find_permission (mk_permission_level (ua_account update) (ua_permission update)) db;
  min ← match found with
        | None => get_permission (mk_permission_level (ua_account update) (ua_parent update)) db
        | Some m => Ok m
        end;
  p ← get_permission auth db;
  assert_satisfies p min db.

Definition check_deleteauth_authorization (del : deleteauth) (auths : list permission_level) (db : chain_db)
    : outcome unit :=
  auth ← single_authorization auths;
  ine_assert (actor auth =? da_account del) (Throw irrelevant_auth_exception) ;;
  min ← get_permission (mk_permission_level (da_account del) (da_permission del)) db;
  p ← get_permission auth db;
  assert_satisfies p min db.

Definition check_linkauth_authorization (env : chain_env) (link : linkauth) (auths : list permission_level)
    (db : chain_db) : outcome unit :=
  auth ← single_authorization auths;
  ine_assert (actor auth =? la_account link) (Throw irrelevant_auth_exception) ;;
  (if (la_code link =? system_account_name) || negb (is_builtin_activated env fix_linkauth_restriction)
   then ine_assert (negb (unlinkable (la_type link))) (Throw action_validate_exception) else Ok tt) ;;
  linked ← lookup_minimum_permission (la_account link) (la_code link) (la_type link) db;
  match linked with
  | None => Ok tt
  | Some name =>
      p ← get_permission auth db;
      min ← get_permission (mk_permission_level (la_account link) name) db;
      assert_satisfies p min db
  end.

Definition check_unlinkauth_authorization (unlink : unlinkauth) (auths : list permission_level) (db : chain_db)
    : outcome unit :=
  auth ← single_authorization auths;
  ine_assert (actor auth =? ul_account unlink) (Throw irrelevant_auth_exception) ;;
  match lookup_linked_permission (ul_account unlink) (ul_code unlink) (ul_type unlink) db with
  | None => Err (Throw transaction_exception)
  | Some name =>
      if name =? inery_any_name then Ok tt
      else
        p ← get_permission auth db;
        min ← get_permission (mk_permission_level (ul_account unlink) name) db;
        assert_satisfies p min db
  end.

(** [lower_bound] with the test for equality finds the transaction of that
    id, since ids are unique. *)
Definition by_trx_id (g : generated_transaction_object) : list Z := hash_words (gto_trx_id g).

Definition declares (trx : transaction) (level : permission_level) : bool :=
  existsb (fun act => existsb (fun auth => bool_decide (auth = level)) (authorization act)) (actions trx).

Definition check_canceldelay_authorization (cancel : canceldelay) (auths : list permission_level) (db : chain_db)
    : outcome Z :=
  auth ← single_authorization auths;
  p ← get_permission auth db;
  min ← get_permission (canceling_auth cancel) db;
  assert_satisfies p min db ;;
  match find_by by_trx_id (hash_words (cd_trx_id cancel)) (generated_transaction_index db) with
  | None => Err (Throw tx_not_found)
  | Some gto =>
      ine_assert (gto_sender gto =? 0) (Throw tx_not_found) ;;
      trx ← unpack_transaction (gto_packed_trx gto);
      ine_assert (declares trx (canceling_auth cancel)) (Throw action_validate_exception) ;;
      Ok (i64 (delay_until gto - published gto))
  end.

(** ** check_authorization *)

Section check.
Context `{FO : FactorOrder}.
Context (env : chain_env) (db : chain_db).

(** [get_permission(p).auth] *)
Definition permission_authority (p : permission_level) : outcome authority :=
  po ← get_permission p db; Ok (auth po).

(** The special cases: whether [act] is one, and its delay. *)
Definition check_special (act : action) (delay : Z) : outcome (bool * Z) :=
  if negb (act_account act =? system_account_name) then Ok (false, delay)
  else if act_name act =? updateauth_name then
    u ← native_data updateauth_name updateauth_codec act;
    check_updateauth_authorization u (authorization act) db ;; Ok (true, delay)
  else if act_name act =? deleteauth_name then
    d ← native_data deleteauth_name deleteauth_codec act;
    check_deleteauth_authorization d (authorization act) db ;; Ok (true, delay)
  else if act_name act =? linkauth_name then
    l ← native_data linkauth_name linkauth_codec act;
    check_linkauth_authorization env l (authorization act) db ;; Ok (true, delay)
  else if act_name act =? unlinkauth_name then
    u ← native_data unlinkauth_name unlinkauth_codec act;
    check_unlinkauth_authorization u (authorization act) db ;; Ok (true, delay)
  else if act_name act =? canceldelay_name then
    c ← native_data canceldelay_name canceldelay_codec act;
    d ← check_canceldelay_authorization c (authorization act) db; Ok (true, Z.max delay d)
  else Ok (false, delay).

Definition check_minimum (act : action) (declared_auth : permission_level) : outcome unit :=
  min_name ← lookup_minimum_permission (actor declared_auth) (act_account act) (act_name act) db;
  match min_name with
  | None => Ok tt
  | Some name =>
      min ← get_permission (mk_permission_level (actor declared_auth) name) db;
      p ← get_permission declared_auth db;
      assert_satisfies p min db
  end.

(** [permissions_to_satisfy], a map in ascending order: [emplace], and the
    lower of two delays. *)
Fixpoint to_satisfy (p : permission_level) (delay : Z) (m : list (permission_level * Z))
    : list (permission_level * Z) :=
  match m with
  | [] => [(p, delay)]
  | (q, d) :: m' =>
      if permission_level_lt p q then (p, delay) :: m
      else if permission_level_lt q p then (q, d) :: to_satisfy p delay m'
      else (q, if d >? delay then delay else d) :: m'
  end.

Context (checktime : nat -> outcome unit) (satisfied_authorizations : list permission_level).

(** The loops count the calls of checktime. *)
Fixpoint check_declared (act : action) (special_case : bool) (delay : Z) (auths : list permission_level)
    (n : nat) (m : list (permission_level * Z)) : outcome (nat * list (permission_level * Z)) :=
  match auths with
  | [] => Ok (n, m)
  | declared_auth :: auths' =>
      checktime n ;;
      (if special_case then Ok tt else check_minimum act declared_auth) ;;
      check_declared act special_case delay auths' (S n)
        (if bool_decide (declared_auth ∈ satisfied_authorizations) then m else to_satisfy declared_auth delay m)
  end.

Fixpoint check_actions (delay : Z) (acts : list action) (n : nat) (m : list (permission_level * Z))
    : outcome (nat * list (permission_level * Z)) :=
  match acts with
  | [] => Ok (n, m)
  | act :: acts' =>
      '(special_case, d) ← check_special act delay;
      '(n, m) ← check_declared act special_case d (authorization act) n m;
      check_actions delay acts' n m
  end.

Fixpoint check_satisfied (checker : authority_checker) (m : list (permission_level * Z)) (n : nat)
    : outcome authority_checker :=
  match m with
  | [] => Ok checker
  | (p, d) :: m' =>
      checktime n ;;
      let '(checker, r, _) := satisfied_permission_delay checker p d None in
      b ← r;
      ine_assert b (Throw unsatisfied_authorization) ;;
      check_satisfied checker m' (S n)
  end.

Definition effective_delay (provided_delay : Z) : Z :=
  if provided_delay >=? seconds (max_transaction_delay env) then INT64_MAX else provided_delay.

Definition transaction_checker (provided_keys : list public_key) (provided_permissions : list permission_level)
    (provided_delay : Z) : authority_checker :=
  make_auth_checker permission_authority (max_authority_depth env) provided_keys provided_permissions provided_delay.

End check.

Definition noop_checktime (n : nat) : outcome unit := Ok tt.

Definition check_authorization `{FO : FactorOrder} (env : chain_env) (db : chain_db) (acts : list action)
    (provided_keys : list public_key) (provided_permissions : list permission_level) (provided_delay : Z)
    (_checktime : option (nat -> outcome unit)) (allow_unused_keys : bool)
    (satisfied_authorizations : list permission_level) : outcome unit :=
  let checktime := default noop_checktime _checktime in
  let delay := effective_delay env provided_delay in
  let checker := transaction_checker env db provided_keys provided_permissions delay in
  '(n, m) ← check_actions env db checktime satisfied_authorizations delay acts 0 [];
  checker ← check_satisfied checktime checker m n;
  if allow_unused_keys then Ok tt else ine_assert (all_keys_used checker) (Throw tx_irrelevant_sig).

(** The overload for one permission. *)
Definition check_authorization_permission `{FO : FactorOrder} (env : chain_env) (db : chain_db)
    (account permission : Z) (provided_keys : list public_key) (provided_permissions : list permission_level)
    (provided_delay : Z) (allow_unused_keys : bool) : outcome unit :=
  let checker := transaction_checker env db provided_keys provided_permissions (effective_delay env provided_delay) in
  let '(checker, r, _) := satisfied_permission checker (mk_permission_level account permission) None in
  b ← r;
  ine_assert b (Throw unsatisfied_authorization) ;;
  if allow_unused_keys then Ok tt else ine_assert (all_keys_used checker) (Throw tx_irrelevant_sig).

Fixpoint require_declared `{FO : FactorOrder} (checker : authority_checker) (auths : list permission_level)
    : outcome authority_checker :=
  match auths with
  | [] => Ok checker
  | declared_auth :: auths' =>
      let '(checker, r, _) := satisfied_permission checker declared_auth None in
      b ← r;
      ine_assert b (Throw unsatisfied_authorization) ;;
      require_declared checker auths'
  end.

Definition get_required_keys `{FO : FactorOrder} (env : chain_env) (db : chain_db) (trx : transaction)
    (candidate_keys : list public_key) (provided_delay : Z) : outcome (list public_key) :=
  let checker := transaction_checker env db candidate_keys [] provided_delay in
  checker ← require_declared checker (concat (map authorization (actions trx)));
  Ok (used_keys checker).

(** ** What a passed check means *)

(** The level [p] is at or above the level [q]: both exist, and the
    permission of [p] is that of [q] or one of its ancestors. *)
Definition covers (db : chain_db) (p q : permission_level) : Prop :=
  exists i j, get_permission p db = Ok i /\ get_permission q db = Ok j /\ above (permission_index db) i j.

(** The level [p] is one the action [act] may declare, and [d] is the delay
    with which it has to be satisfied: [delay], or for canceldelay at least
    the delay of the transaction to cancel. *)
Inductive admitted (env : chain_env) (db : chain_db) (delay : Z) (act : action) (p : permission_level) : Z -> Prop :=
  | admitted_updateauth u :
      act_account act = system_account_name -> native_data updateauth_name updateauth_codec act = Ok u ->
      authorization act = [p] -> actor p = ua_account u ->
      (covers db p (mk_permission_level (ua_account u) (ua_permission u)) \/
       (forall i q, indices (permission_index db) !! i = Some q -> ~ (owner q = ua_account u /\ po_name q = ua_permission u)) /\
       covers db p (mk_permission_level (ua_account u) (ua_parent u))) ->
      admitted env db delay act p delay
  | admitted_deleteauth d :
      act_account act = system_account_name -> native_data deleteauth_name deleteauth_codec act = Ok d ->
      authorization act = [p] -> actor p = da_account d ->
      covers db p (mk_permission_level (da_account d) (da_permission d)) ->
      admitted env db delay act p delay
  | admitted_linkauth l min :
      act_account act = system_account_name -> native_data linkauth_name linkauth_codec act = Ok l ->
      authorization act = [p] -> actor p = la_account l ->
      (la_code l = system_account_name -> unlinkable (la_type l) = false) ->
      lookup_minimum_permission (la_account l) (la_code l) (la_type l) db = Ok min ->
      (forall name, min = Some name -> covers db p (mk_permission_level (la_account l) name)) ->
      admitted env db delay act p delay
  | admitted_unlinkauth u name :
      act_account act = system_account_name -> native_data unlinkauth_name unlinkauth_codec act = Ok u ->
      authorization act = [p] -> actor p = ul_account u ->
      lookup_linked_permission (ul_account u) (ul_code u) (ul_type u) db = Some name ->
      (name <> inery_any_name -> covers db p (mk_permission_level (ul_account u) name)) ->
      admitted env db delay act p delay
  | admitted_canceldelay c i gto trx :
      act_account act = system_account_name -> native_data canceldelay_name canceldelay_codec act = Ok c ->
      authorization act = [p] -> covers db p (canceling_auth c) ->
      indices (generated_transaction_index db) !! i = Some gto -> by_trx_id gto = hash_words (cd_trx_id c) ->
      gto_sender gto = 0 -> unpack_transaction (gto_packed_trx gto) = Ok trx ->
      (exists a, a ∈ actions trx /\ canceling_auth c ∈ authorization a) ->
      admitted env db delay act p (Z.max delay (i64 (delay_until gto - published gto)))
  | admitted_action min :
      (act_account act = system_account_name -> unlinkable (act_name act) = false) ->
      lookup_minimum_permission (actor p) (act_account act) (act_name act) db = Ok min ->
      (forall name, min = Some name -> covers db p (mk_permission_level (actor p) name)) ->
      admitted env db delay act p delay.

Section meaning.
Context (env : chain_env) (db : chain_db).
Hypothesis perms_forest : forest (permission_index db).

Lemma assert_satisfies_ok p q lp lq :
  get_permission lp db = Ok p -> get_permission lq db = Ok q -> assert_satisfies p q db = Ok tt -> covers db lp lq.
Proof.
  intros Hp Hq H. exists p, q. split; [done|]. split; [done|].
  apply get_permission_ok in Hp as (Hp & Hp0 & _), Hq as (Hq & Hq0 & _); try done.
  unfold assert_satisfies in H. destruct (satisfies_spec _ _ _ p q perms_forest Hp Hq Hp0 Hq0) as (b & E & Hb).
  rewrite E in H. cbn in H. apply ine_assert_ok in H. by apply Hb.
Qed.

Lemma single_authorization_ok auths p : single_authorization auths = Ok p -> auths = [p].
Proof. destruct auths as [|x [|]]; try done. by intros [= ->]. Qed.

Lemma unlinkable_false name : unlinkable name = false <->
  name <> updateauth_name /\ name <> deleteauth_name /\ name <> linkauth_name /\ name <> unlinkauth_name /\
  name <> canceldelay_name.
Proof. unfold unlinkable. rewrite !orb_false_iff, !Z.eqb_neq. tauto. Qed.

(** Each of the five checks admits the one level the action declares. *)
Lemma check_updateauth_ok act u delay :
  act_account act = system_account_name -> native_data updateauth_name updateauth_codec act = Ok u ->
  check_updateauth_authorization u (authorization act) db = Ok tt ->
  exists p, authorization act = [p] /\ admitted env db delay act p delay.
Proof.
  intros Esys Hu Hc. unfold check_updateauth_authorization in Hc.
  apply bind_ok in Hc as (p & Hp%single_authorization_ok & Hc).
  apply bind_ok in Hc as ([] & Ha%ine_assert_ok%Z.eqb_eq & Hc). apply bind_ok in Hc as (found & Hf & Hc).
  apply bind_ok in Hc as (min & Hm & Hc). apply bind_ok in Hc as (po & Hpo & Hc).
  exists p. split; [done|]. apply (admitted_updateauth _ _ _ _ _ u); try done.
  apply find_permission_ok in Hf as (Hn1 & Hn2 & Hf); [|done]. destruct found as [f|].
  - injection Hm as ->. left. destruct Hf as (Hf & Hf0 & Ho & Hn).
    by apply (assert_satisfies_ok po min); [|apply (get_permission_found _ _ (po_id min))|].
  - right. split; [done|]. by apply (assert_satisfies_ok po min).
Qed.

Lemma check_deleteauth_ok act u delay :
  act_account act = system_account_name -> native_data deleteauth_name deleteauth_codec act = Ok u ->
  check_deleteauth_authorization u (authorization act) db = Ok tt ->
  exists p, authorization act = [p] /\ admitted env db delay act p delay.
Proof.
  intros Esys Hu Hc. unfold check_deleteauth_authorization in Hc.
  apply bind_ok in Hc as (p & Hp%single_authorization_ok & Hc).
  apply bind_ok in Hc as ([] & Ha%ine_assert_ok%Z.eqb_eq & Hc). apply bind_ok in Hc as (min & Hm & Hc).
  apply bind_ok in Hc as (po & Hpo & Hc). exists p. split; [done|].
  apply (admitted_deleteauth _ _ _ _ _ u); try done. by apply (assert_satisfies_ok po min).
Qed.

Lemma check_linkauth_ok act u delay :
  act_account act = system_account_name -> native_data linkauth_name linkauth_codec act = Ok u ->
  check_linkauth_authorization env u (authorization act) db = Ok tt ->
  exists p, authorization act = [p] /\ admitted env db delay act p delay.
Proof.
  intros Esys Hu Hc. unfold check_linkauth_authorization in Hc.
  apply bind_ok in Hc as (p & Hp%single_authorization_ok & Hc).
  apply bind_ok in Hc as ([] & Ha%ine_assert_ok%Z.eqb_eq & Hc). apply bind_ok in Hc as ([] & Hun & Hc).
  apply bind_ok in Hc as (min & Hm & Hc). exists p. split; [done|].
  apply (admitted_linkauth _ _ _ _ _ u min); try done.
  - intros E. rewrite E, Z.eqb_refl in Hun. by apply ine_assert_ok, negb_true_iff in Hun.
  - intros name ->. apply bind_ok in Hc as (po & Hpo & Hc). apply bind_ok in Hc as (mo & Hmo & Hc).
    by apply (assert_satisfies_ok po mo).
Qed.

Lemma check_unlinkauth_ok act u delay :
  act_account act = system_account_name -> native_data unlinkauth_name unlinkauth_codec act = Ok u ->
  check_unlinkauth_authorization u (authorization act) db = Ok tt ->
  exists p, authorization act = [p] /\ admitted env db delay act p delay.
Proof.
  intros Esys Hu Hc. unfold check_unlinkauth_authorization in Hc.
  apply bind_ok in Hc as (p & Hp%single_authorization_ok & Hc).
  apply bind_ok in Hc as ([] & Ha%ine_assert_ok%Z.eqb_eq & Hc).
  destruct (lookup_linked_permission _ _ _ _) as [name|] eqn:El; [|done]. exists p. split; [done|].
  apply (admitted_unlinkauth _ _ _ _ _ u name); try done. intros Hne. apply Z.eqb_neq in Hne. rewrite Hne in Hc.
  apply bind_ok in Hc as (po & Hpo & Hc). apply bind_ok in Hc as (mo & Hmo & Hc). by apply (assert_satisfies_ok po mo).
Qed.

Lemma check_canceldelay_ok act u delay d :
  act_account act = system_account_name -> native_data canceldelay_name canceldelay_codec act = Ok u ->
  check_canceldelay_authorization u (authorization act) db = Ok d ->
  exists p, authorization act = [p] /\ admitted env db delay act p (Z.max delay d).
Proof.
  intros Esys Hu Hc. unfold check_canceldelay_authorization in Hc.
  apply bind_ok in Hc as (p & Hp%single_authorization_ok & Hc).
  apply bind_ok in Hc as (po & Hpo & Hc). apply bind_ok in Hc as (mo & Hmo & Hc). apply bind_ok in Hc as ([] & Hs & Hc).
  destruct (find_by _ _ _) as [gto|] eqn:Eg; [|done]. apply find_by_Some in Eg as [[i Hi] Hk].
  apply bind_ok in Hc as ([] & H0%ine_assert_ok%Z.eqb_eq & Hc). apply bind_ok in Hc as (trx & Ht & Hc).
  apply bind_ok in Hc as ([] & Hd%ine_assert_ok & [= <-]). exists p. split; [done|].
  apply (admitted_canceldelay _ _ _ _ _ u i gto trx); try done; [by apply (assert_satisfies_ok po mo)|].
  unfold declares in Hd. apply existsb_exists in Hd as (a & Ha & Hd). apply existsb_exists in Hd as (x & Hx & Hd).
  apply bool_decide_eq_true in Hd as ->. exists a. by rewrite !list_elem_of_In.
Qed.

Lemma check_special_ok act delay special d :
  check_special env db act delay = Ok (special, d) ->
  (special = true /\ exists p, authorization act = [p] /\ admitted env db delay act p d) \/
  (special = false /\ d = delay /\ (act_account act = system_account_name -> unlinkable (act_name act) = false)).
Proof.
  unfold check_special. destruct (Z.eqb_spec (act_account act) system_account_name) as [Esys|]; cbn [negb].
  2: { intros [= <- <-]. right. done. }
  destruct (Z.eqb_spec (act_name act) updateauth_name) as [|N1].
  { intros H. apply bind_ok in H as (u & Hu & H). apply bind_ok in H as ([] & Hc & [= <- <-]).
    left. split; [done|]. by apply (check_updateauth_ok act u). }
  destruct (Z.eqb_spec (act_name act) deleteauth_name) as [|N2].
  { intros H. apply bind_ok in H as (u & Hu & H). apply bind_ok in H as ([] & Hc & [= <- <-]).
    left. split; [done|]. by apply (check_deleteauth_ok act u). }
  destruct (Z.eqb_spec (act_name act) linkauth_name) as [|N3].
  { intros H. apply bind_ok in H as (u & Hu & H). apply bind_ok in H as ([] & Hc & [= <- <-]).
    left. split; [done|]. by apply (check_linkauth_ok act u). }
  destruct (Z.eqb_spec (act_name act) unlinkauth_name) as [|N4].
  { intros H. apply bind_ok in H as (u & Hu & H). apply bind_ok in H as ([] & Hc & [= <- <-]).
    left. split; [done|]. by apply (check_unlinkauth_ok act u). }
  destruct (Z.eqb_spec (act_name act) canceldelay_name) as [|N5].
  { intros H. apply bind_ok in H as (u & Hu & H). apply bind_ok in H as (cd & Hc & [= <- <-]).
    left. split; [done|]. by apply (check_canceldelay_ok act u). }
  intros [= <- <-]. right. split_and!; [done|done|]. intros _. by apply unlinkable_false.
Qed.

Lemma check_minimum_ok act p delay :
  (act_account act = system_account_name -> unlinkable (act_name act) = false) ->
  check_minimum db act p = Ok tt -> admitted env db delay act p delay.
Proof.
  intros Hun H. unfold check_minimum in H. apply bind_ok in H as (min & Hmin & H).
  apply (admitted_action _ _ _ _ _ min); [done|done|]. intros name ->.
  apply bind_ok in H as (mo & Hmo & H). apply bind_ok in H as (po & Hpo & H). by apply (assert_satisfies_ok po mo).
Qed.

End meaning.

(** ** The loops *)

(** [m'] asks for everything [m] asks for, with no longer a delay. *)
Definition asks_more (m m' : list (permission_level * Z)) : Prop :=
  forall q d, (q, d) ∈ m -> exists d', d' <= d /\ (q, d') ∈ m'.

Lemma asks_more_trans m1 m2 m3 : asks_more m1 m2 -> asks_more m2 m3 -> asks_more m1 m3.
Proof. intros H1 H2 q d (d1 & ? & (d2 & ? & ?)%H2)%H1. exists d2. split; [lia|done]. Qed.

Lemma to_satisfy_asks p delay m :
  asks_more m (to_satisfy p delay m) /\ (exists d, d <= delay /\ (p, d) ∈ to_satisfy p delay m) /\
  (forall q d, (q, d) ∈ to_satisfy p delay m -> q = p \/ exists d', (q, d') ∈ m).
Proof.
  assert (forall x : permission_level * Z, forall m, asks_more m (x :: m)) as Hcons.
  { intros x m0 q d H. exists d. split; [lia|]. by right. }
  induction m as [|[q d] m (IH1 & (d1 & Hd1 & IH2) & IH3)]; cbn [to_satisfy].
  { split_and!; [apply Hcons|exists delay; split; [lia|by left]|]. intros q d [[= -> ->]|[]%elem_of_nil]%elem_of_cons. by left. }
  destruct (permission_level_lt p q) eqn:E1; [|destruct (permission_level_lt q p) eqn:E2].
  - split_and!; [apply Hcons|exists delay; split; [lia|by left]|]. intros r e [[= -> ->]|H]%elem_of_cons; eauto.
  - split_and!.
    + intros r e [[= -> ->]|H]%elem_of_cons; [exists d; split; [lia|by left]|].
      destruct (IH1 r e H) as (e' & ? & ?). exists e'. split; [done|by right].
    + exists d1. split; [done|by right].
    + intros r e [[= -> ->]|H]%elem_of_cons; [right; exists d; by left|].
      destruct (IH3 r e H) as [|[e' ?]]; [by left|right]. exists e'. by right.
  - assert (p = q) as -> by (destruct (lt_total (lt := permission_level_lt) p q) as [?|[?|?]]; congruence). split_and!.
    + intros r e [[= -> ->]|H]%elem_of_cons; [|exists e; split; [lia|by right]].
      eexists. split; [|left]. destruct (Z.gtb_spec d delay); lia.
    + eexists. split; [|left]. destruct (Z.gtb_spec d delay); lia.
    + intros r e [[= -> ->]|H]%elem_of_cons; [by left|right]. exists e. by right.
Qed.

Section loops.
Context `{FO : FactorOrder, !FactorOrderLaws FO}.
Context (env : chain_env) (db : chain_db) (checktime : nat -> outcome unit).
Context (satisfied_authorizations : list permission_level).
Hypothesis perms_forest : forest (permission_index db).

(** [p] was satisfied before, or [m] asks for it within the delay. *)
Definition asked (m : list (permission_level * Z)) (p : permission_level) (delay : Z) : Prop :=
  p ∈ satisfied_authorizations \/ exists d, d <= delay /\ (p, d) ∈ m.

Lemma asked_more m m' p delay : asks_more m m' -> asked m p delay -> asked m' p delay.
Proof. intros H [|(d & ? & (d' & ? & ?)%H)]; [by left|right]. exists d'. split; [lia|done]. Qed.

Lemma check_declared_ok act special delay auths n m n' m' :
  check_declared db checktime satisfied_authorizations act special delay auths n m = Ok (n', m') ->
  asks_more m m' /\
  (forall p, p ∈ auths -> asked m' p delay /\ (special = false -> check_minimum db act p = Ok tt)) /\
  (forall q d, (q, d) ∈ m' -> q ∈ auths \/ exists d', (q, d') ∈ m).
Proof.
  revert n m. induction auths as [|a auths IH]; intros n m H; cbn [check_declared] in H.
  { injection H as <- <-. split_and!; [intros q d ?; exists d; by split|by intros p ?%elem_of_nil|eauto]. }
  apply bind_ok in H as ([] & _ & H). apply bind_ok in H as ([] & Hmin & H).
  apply IH in H as (H1 & H2 & H3). destruct (to_satisfy_asks a delay m) as (T1 & T2 & T3).
  assert (asks_more m m') as Hmore.
  { case_bool_decide; [done|]. by apply (asks_more_trans _ _ _ T1). }
  split_and!; [done| |].
  - intros p [->|Hp]%elem_of_cons; [|by apply H2]. split; [|by intros ->].
    case_bool_decide; [by left|]. apply (asked_more _ _ _ _ H1). by right.
  - intros q d [Hq|[d' Hd]]%H3; [by left; right|]. case_bool_decide; [eauto|].
    destruct (T3 q d' Hd) as [->|]; [by left; left|eauto].
Qed.

Lemma check_actions_ok delay acts n m n' m' :
  check_actions env db checktime satisfied_authorizations delay acts n m = Ok (n', m') ->
  asks_more m m' /\
  (forall act p, act ∈ acts -> p ∈ authorization act ->
     exists d, admitted env db delay act p d /\ asked m' p d) /\
  (forall q d, (q, d) ∈ m' -> (exists act, act ∈ acts /\ q ∈ authorization act) \/ exists d', (q, d') ∈ m).
Proof.
  revert n m. induction acts as [|act acts IH]; intros n m H; cbn [check_actions] in H.
  { injection H as <- <-. split_and!; [intros q d ?; exists d; by split|by intros a p ?%elem_of_nil|eauto]. }
  apply bind_ok in H as ([special d] & Hs & H). apply bind_ok in H as ([n1 m1] & Hd & H).
  apply check_declared_ok in Hd as (D1 & D2 & D3). apply IH in H as (H1 & H2 & H3). split_and!.
  - by apply (asks_more_trans _ m1).
  - intros a p [->|Ha]%elem_of_cons Hp; [|by apply (H2 a)]. destruct (D2 p Hp) as [Hask Hmin].
    exists d. split; [|by apply (asked_more m1)].
    destruct (check_special_ok env db perms_forest act delay special d Hs) as [(-> & q & Eq & Hq)|(-> & -> & Hun)].
    + rewrite Eq in Hp. by apply list_elem_of_singleton in Hp as ->.
    + by apply check_minimum_ok; [..|apply Hmin].
  - intros q e [(a & Ha & Hq)|[e' He]]%H3; [left; exists a; split; [by right|done]|].
    destruct (D3 q e' He) as [|]; [left; exists act; split; [by left|done]|by right].
Qed.

(** The checker of the loop: the one it began with but for the marks. *)
Lemma check_satisfied_ok c m n c' :
  (forall p a, ac_permission_to_authority c p = Ok a -> authority_typed a) ->
  check_satisfied checktime c m n = Ok c' ->
  c' = with_used_keys c (ac_used_keys c') /\ length (ac_used_keys c') = length (ac_used_keys c) /\
  (forall p d, (p, d) ∈ m -> checker_level (with_delay c d) p) /\
  (forall i, ac_used_keys c' !! i = Some true -> ac_used_keys c !! i = Some true \/
     exists k p d auth, (p, d) ∈ m /\ ac_provided_keys c !! i = Some k /\
       ac_permission_to_authority c p = Ok auth /\ names_key (ac_permission_to_authority c) k auth).
Proof.
  intros Hpta. revert n c Hpta. induction m as [|[p d] m IH]; intros n c Hpta H; cbn [check_satisfied] in H.
  { injection H as <-. split_and!; [by destruct c|done|by intros p d ?%elem_of_nil|by left]. }
  apply bind_ok in H as ([] & _ & H).
  destruct (satisfied_permission_delay c p d None) as [[c1 r] x] eqn:E.
  apply satisfied_permission_delay_spec in E as (E1 & E2 & E3 & E4 & _); [|done].
  apply bind_ok in H as (b & -> & H). apply bind_ok in H as ([] & Hb%ine_assert_ok & H). subst b.
  apply IH in H as (H1 & H2 & H3 & H4); [|by rewrite E1].
  split_and!.
  - rewrite H1, E1. done.
  - congruence.
  - intros q e [[= -> ->]|Hq]%elem_of_cons; [by apply E4|]. specialize (H3 q e Hq). by rewrite E1 in H3.
  - intros i [Hi|(k & q & e & auth & Hq & Hk & Ha & Hn)]%H4.
    + apply E3 in Hi as [|(k & auth & Hk & Ha & Hn)]; [by left|right]. exists k, p, d, auth. split; [by left|done].
    + right. rewrite E1 in Hk, Ha, Hn. exists k, q, e, auth. split; [by right|done].
Qed.
End loops.

Lemma all_keys_used_lookup c k i :
  all_keys_used c = true -> length (ac_used_keys c) = length (ac_provided_keys c) ->
  ac_provided_keys c !! i = Some k -> ac_used_keys c !! i = Some true.
Proof.
  unfold all_keys_used. intros H Hl Hk. apply lookup_lt_Some in Hk. rewrite <- Hl in Hk.
  apply lookup_lt_is_Some in Hk as [b Hb]. rewrite Hb. f_equal.
  rewrite forallb_forall in H. apply eqb_true_iff. rewrite eqb_true_iff. symmetry. apply eqb_prop, H.
  apply list_elem_of_In. by eapply list_elem_of_lookup_2.
Qed.

(** The authorities of the permissions hold numbers of their C++ types. *)
Definition authorities_typed (db : chain_db) : Prop :=
  forall i p, indices (permission_index db) !! i = Some p -> authority_typed (auth p).

Lemma permission_authority_typed db p a :
  forest (permission_index db) -> authorities_typed db -> permission_authority db p = Ok a -> authority_typed a.
Proof.
  intros Hf Ht H. unfold permission_authority in H. apply bind_ok in H as (po & Hpo & [= <-]).
  apply get_permission_ok in Hpo as (Hpo & _); [|done]. by eapply Ht.
Qed.

(** Each declared level is admitted, and was satisfied before or is justified. *)
Lemma checked_levels `{FO : FactorOrder, !FactorOrderLaws FO} env db acts keys perms delay checktime unused satisfied :
  forest (permission_index db) -> authorities_typed db ->
  check_authorization env db acts keys perms delay checktime unused satisfied = Ok tt ->
  forall act p, act ∈ acts -> p ∈ authorization act ->
  exists d, admitted env db (effective_delay env delay) act p d /\
    (p ∈ satisfied \/ exists d', d' <= d /\
      checker_level (with_delay (transaction_checker env db keys perms (effective_delay env delay)) d') p).
Proof.
  intros Hf Ht H act p Hact Hp. unfold check_authorization in H. apply bind_ok in H as ([n m] & Ha & H).
  apply bind_ok in H as (c' & Hc & _). apply check_actions_ok in Ha as (_ & A2 & _); [|done].
  apply check_satisfied_ok in Hc as (_ & _ & C3 & _); [|intros q a; by apply permission_authority_typed].
  destruct (A2 act p Hact Hp) as (d & Had & [|(d' & Hd & Hm)]); exists d; (split; [done|]); [by left|right].
  exists d'. split; [done|]. by apply C3.
Qed.

(** C6: A transaction that passes check_authorization declares for each action
    only levels the action admits: at or above its minimum permission, or as
    the five native actions demand.  Each declared level is one that was
    satisfied before or is justified by the keys, permissions and delay the
    transaction provides, the delay being no longer than the action allows.
    Unless unused keys are allowed, every provided key is named in the
    authority of a declared level or below it. *)
Theorem check_authorization_sound `{FO : FactorOrder, !FactorOrderLaws FO} env db acts provided_keys
    provided_permissions provided_delay checktime allow_unused satisfied :
  forest (permission_index db) -> authorities_typed db ->
  check_authorization env db acts provided_keys provided_permissions provided_delay checktime allow_unused satisfied
    = Ok tt ->
  let delay := effective_delay env provided_delay in
  let c := transaction_checker env db provided_keys provided_permissions delay in
  (forall act p, act ∈ acts -> p ∈ authorization act -> exists d, admitted env db delay act p d /\
     (p ∈ satisfied \/ exists d', d' <= d /\ checker_level (with_delay c d') p)) /\
  (allow_unused = false -> forall k, k ∈ provided_keys -> exists act p a, act ∈ acts /\ p ∈ authorization act /\
     permission_authority db p = Ok a /\ names_key (permission_authority db) k a).
Proof.
  intros Hf Ht H delay c. split; [exact (checked_levels _ _ _ _ _ _ _ _ _ Hf Ht H)|].
  unfold check_authorization in H. fold delay in H. fold c in H.
  apply bind_ok in H as ([n m] & Ha & H). apply bind_ok in H as (c' & Hc & H).
  apply check_actions_ok in Ha as (_ & _ & A3); [|done].
  apply check_satisfied_ok in Hc as (C1 & C2 & _ & C4); [|intros p a; by apply permission_authority_typed].
  - intros -> k [i Hk]%list_elem_of_lookup_1. apply ine_assert_ok in H.
    assert (ac_used_keys c' !! i = Some true) as Hi.
    { apply (all_keys_used_lookup c' k); [done| |by rewrite C1]. rewrite C2, C1. apply length_replicate. }
    apply C4 in Hi as [Hi|(k' & p & d & a & Hp & Hk' & Hpa & Hn)].
    { apply lookup_replicate in Hi as [[=] _]. }
    cbn in Hk'. assert (k' = k) as -> by congruence.
    destruct (A3 p d Hp) as [(act & Hact & Hq)|[d' []%elem_of_nil]]. by exists act, p, a.
Qed.

(** ** What a failed check means *)

(** The exceptions of the check itself. *)
Definition authorization_failures : list exception_type :=
  [irrelevant_auth_exception; invalid_permission; permission_query_exception; action_validate_exception;
   transaction_exception; tx_not_found; unsatisfied_authorization; tx_irrelevant_sig].

(** One of the five native actions the check looks into, with data that is
    not one of its type: what unpacking it reports. *)
Definition undecodable (act : action) (e : exn) : Prop :=
  act_account act = system_account_name /\
  (act_name act = updateauth_name /\ unpack_vector updateauth_codec (data act) = Err e \/
   act_name act = deleteauth_name /\ unpack_vector deleteauth_codec (data act) = Err e \/
   act_name act = linkauth_name /\ unpack_vector linkauth_codec (data act) = Err e \/
   act_name act = unlinkauth_name /\ unpack_vector unlinkauth_codec (data act) = Err e \/
   act_name act = canceldelay_name /\ unpack_vector canceldelay_codec (data act) = Err e).

(** An exception from decoding the data of a native action of the transaction
    or a deferred transaction of the database. *)
Inductive decode_error (db : chain_db) (acts : list action) (e : exn) : Prop :=
  | bad_action act : act ∈ acts -> undecodable act e -> decode_error db acts e
  | bad_deferred i gto : indices (generated_transaction_index db) !! i = Some gto ->
      unpack_transaction (gto_packed_trx gto) = Err e -> decode_error db acts e.

#[export] Instance updateauth_reporting : Reporting updateauth_codec.
Proof. apply _. Qed.

#[export] Instance deleteauth_reporting : Reporting deleteauth_codec.
Proof. apply _. Qed.

#[export] Instance linkauth_reporting : Reporting linkauth_codec.
Proof. apply _. Qed.

#[export] Instance unlinkauth_reporting : Reporting unlinkauth_codec.
Proof. apply _. Qed.

#[export] Instance canceldelay_reporting : Reporting canceldelay_codec.
Proof. apply _. Qed.

(** Decoding runs out of bytes or fails an assertion, nothing else. *)
Lemma decode_error_reports db acts e : decode_error db acts e -> unpack_error e.
Proof.
  intros [act _ [_ H]|i gto _ H]; [|by apply unpack_vector_reports in H; [|apply _]].
  destruct H as [[_ H]|[[_ H]|[[_ H]|[[_ H]|[_ H]]]]]; by apply unpack_vector_reports in H; [|apply _].
Qed.

Lemma native_data_err {T} name (c : codec T) act e :
  act_account act = system_account_name -> act_name act = name -> native_data name c act = Err e ->
  unpack_vector c (data act) = Err e.
Proof. unfold native_data, data_as. intros -> ->. by rewrite !Z.eqb_refl. Qed.

Definition check_failure (db : chain_db) (acts : list action) (e : exn) : Prop :=
  (exists t, e = Throw t /\ t ∈ authorization_failures) \/ decode_error db acts e.

Ltac failure := left; eexists; split; [reflexivity|];
  unfold authorization_failures; rewrite !elem_of_cons; tauto.

Section failures.
Context (env : chain_env) (db : chain_db) (acts : list action).
Hypothesis perms_forest : forest (permission_index db).

Lemma get_permission_err level e :
  get_permission level db = Err e -> e = Throw invalid_permission \/ e = Throw permission_query_exception.
Proof.
  unfold get_permission. destruct (negb _ && negb _); cbn; [|intros [= <-]; by left].
  unfold get_by. destruct (find_by _ _ _); [done|]. intros [= <-]. by right.
Qed.

Lemma find_permission_err level e : find_permission level db = Err e -> e = Throw invalid_permission.
Proof. unfold find_permission. destruct (negb _ && negb _); cbn; [done|]. by intros [= <-]. Qed.

Lemma get_permission_failure level e : get_permission level db = Err e -> check_failure db acts e.
Proof. intros [-> | ->]%get_permission_err; failure. Qed.

(** Two permissions of the database can always be compared. *)
Lemma assert_satisfies_failure p q lp lq e :
  get_permission lp db = Ok p -> get_permission lq db = Ok q -> assert_satisfies p q db = Err e ->
  check_failure db acts e.
Proof.
  intros Hp Hq H. apply get_permission_ok in Hp as (Hp & Hp0 & _), Hq as (Hq & Hq0 & _); try done.
  unfold assert_satisfies in H. destruct (satisfies_spec _ _ _ p q perms_forest Hp Hq Hp0 Hq0) as (b & E & Hb).
  rewrite E in H. cbn in H. apply ine_assert_err in H as ->. failure.
Qed.

Lemma compare_failure lp lq e :
  (p ← get_permission lp db; q ← get_permission lq db; assert_satisfies p q db) = Err e -> check_failure db acts e.
Proof.
  intros [H|(p & Hp & [H|(q & Hq & H)]%bind_err)]%bind_err; eauto using get_permission_failure, assert_satisfies_failure.
Qed.

Lemma compare_failure' lp lq e :
  (q ← get_permission lq db; p ← get_permission lp db; assert_satisfies p q db) = Err e -> check_failure db acts e.
Proof.
  intros [H|(p & Hp & [H|(q & Hq & H)]%bind_err)]%bind_err; eauto using get_permission_failure, assert_satisfies_failure.
Qed.

Lemma single_authorization_failure auths e : single_authorization auths = Err e -> check_failure db acts e.
Proof. intros H. destruct auths as [|x [|]]; cbn in H; try done; injection H as <-; failure. Qed.

Lemma check_updateauth_failure u auths e :
  check_updateauth_authorization u auths db = Err e -> check_failure db acts e.
Proof.
  unfold check_updateauth_authorization.
  intros [H|(p & Hp & H)]%bind_err; [by apply single_authorization_failure in H|].
  apply bind_err in H as [->%ine_assert_err|([] & _ & H)]; [failure|].
  apply bind_err in H as [->%find_permission_err|(found & Hf & H)]; [failure|].
  destruct found as [f|]; [|by apply compare_failure' in H].
  apply find_permission_ok in Hf as (_ & _ & Hf & Hf0 & Ho & Hn); [|done]. cbn in H.
  apply bind_err in H as [H|(po & Hpo & H)]; [by apply get_permission_failure in H|].
  eapply (assert_satisfies_failure po f _ (mk_permission_level (owner f) (po_name f))); [done| |done].
  by apply (get_permission_found _ _ (po_id f)).
Qed.

Lemma check_deleteauth_failure u auths e :
  check_deleteauth_authorization u auths db = Err e -> check_failure db acts e.
Proof.
  unfold check_deleteauth_authorization.
  intros [H|(p & Hp & H)]%bind_err; [by apply single_authorization_failure in H|].
  apply bind_err in H as [->%ine_assert_err|([] & _ & H)]; [failure|]. by apply compare_failure' in H.
Qed.

Lemma lookup_minimum_total account scope name :
  (scope = system_account_name -> unlinkable name = false) ->
  exists min, lookup_minimum_permission account scope name db = Ok min.
Proof.
  intros H. unfold lookup_minimum_permission. destruct (Z.eqb_spec scope system_account_name) as [E|].
  - rewrite (H E). cbn. destruct (lookup_linked_permission _ _ _ _); eauto.
  - cbn. destruct (lookup_linked_permission _ _ _ _); eauto.
Qed.

Lemma check_linkauth_failure u auths e :
  check_linkauth_authorization env u auths db = Err e -> check_failure db acts e.
Proof.
  unfold check_linkauth_authorization.
  intros [H|(p & Hp & H)]%bind_err; [by apply single_authorization_failure in H|].
  apply bind_err in H as [->%ine_assert_err|([] & _ & H)]; [failure|].
  apply bind_err in H as [H|([] & Hun & H)].
  { destruct (_ || _); [|done]. apply ine_assert_err in H as ->. failure. }
  destruct (lookup_minimum_total (la_account u) (la_code u) (la_type u)) as [min Hmin].
  { intros E. rewrite E, Z.eqb_refl in Hun. by apply ine_assert_ok, negb_true_iff in Hun. }
  rewrite Hmin in H. cbn in H. destruct min as [name|]; [|done]. by apply compare_failure in H.
Qed.

Lemma check_unlinkauth_failure u auths e :
  check_unlinkauth_authorization u auths db = Err e -> check_failure db acts e.
Proof.
  unfold check_unlinkauth_authorization.
  intros [H|(p & Hp & H)]%bind_err; [by apply single_authorization_failure in H|].
  apply bind_err in H as [->%ine_assert_err|([] & _ & H)]; [failure|].
  destruct (lookup_linked_permission _ _ _ _) as [name|]; [|injection H as <-; failure].
  destruct (name =? inery_any_name); [done|]. by apply compare_failure in H.
Qed.

Lemma check_canceldelay_failure u auths e :
  check_canceldelay_authorization u auths db = Err e -> check_failure db acts e.
Proof.
  unfold check_canceldelay_authorization.
  intros [H|(p & Hp & H)]%bind_err; [by apply single_authorization_failure in H|].
  apply bind_err in H as [H|(po & Hpo & H)]; [by apply get_permission_failure in H|].
  apply bind_err in H as [H|(mo & Hmo & H)]; [by apply get_permission_failure in H|].
  apply bind_err in H as [H|([] & _ & H)]; [by eapply assert_satisfies_failure in H|].
  destruct (find_by _ _ _) as [gto|] eqn:Eg; [|injection H as <-; failure].
  apply bind_err in H as [->%ine_assert_err|([] & _ & H)]; [failure|]. apply find_by_Some in Eg as [[i Hi] _].
  apply bind_err in H as [H|(trx & _ & H)]; [right; by apply (bad_deferred _ _ _ i gto)|].
  apply bind_err in H as [->%ine_assert_err|([] & _ & H)]; [failure|done].
Qed.

Lemma check_special_failure act delay e :
  act ∈ acts -> check_special env db act delay = Err e -> check_failure db acts e.
Proof.
  intros Hact. unfold check_special. destruct (Z.eqb_spec (act_account act) system_account_name) as [Ha|]; [|done].
  cbn [negb].
  assert (undecodable act e -> check_failure db acts e) as Hbad.
  { intros H. right. by apply (bad_action _ _ _ act). }
  destruct (Z.eqb_spec (act_name act) updateauth_name) as [E|_].
  { intros [H%native_data_err|(u & _ & [H|([] & _ & H)]%bind_err)]%bind_err; try done.
    - apply Hbad. split; [done|]. tauto.
    - by apply check_updateauth_failure in H. }
  destruct (Z.eqb_spec (act_name act) deleteauth_name) as [E|_].
  { intros [H%native_data_err|(u & _ & [H|([] & _ & H)]%bind_err)]%bind_err; try done.
    - apply Hbad. split; [done|]. tauto.
    - by apply check_deleteauth_failure in H. }
  destruct (Z.eqb_spec (act_name act) linkauth_name) as [E|_].
  { intros [H%native_data_err|(u & _ & [H|([] & _ & H)]%bind_err)]%bind_err; try done.
    - apply Hbad. split; [done|]. tauto.
    - by apply check_linkauth_failure in H. }
  destruct (Z.eqb_spec (act_name act) unlinkauth_name) as [E|_].
  { intros [H%native_data_err|(u & _ & [H|([] & _ & H)]%bind_err)]%bind_err; try done.
    - apply Hbad. split; [done|]. tauto.
    - by apply check_unlinkauth_failure in H. }
  destruct (Z.eqb_spec (act_name act) canceldelay_name) as [E|_]; [|done].
  intros [H%native_data_err|(u & _ & [H|(d & _ & H)]%bind_err)]%bind_err; try done.
  - apply Hbad. split; [done|]. tauto.
  - by apply check_canceldelay_failure in H.
Qed.

Lemma check_minimum_failure act p e :
  (act_account act = system_account_name -> unlinkable (act_name act) = false) ->
  check_minimum db act p = Err e -> check_failure db acts e.
Proof.
  intros Hun H. unfold check_minimum in H.
  destruct (lookup_minimum_total (actor p) (act_account act) (act_name act) Hun) as [min Hmin].
  rewrite Hmin in H. cbn in H. destruct min as [name|]; [|done]. by apply compare_failure' in H.
Qed.

Context (checktime : nat -> outcome unit) (satisfied_authorizations : list permission_level).

Lemma check_declared_failure act special delay auths n m e :
  (special = false -> act_account act = system_account_name -> unlinkable (act_name act) = false) ->
  check_declared db checktime satisfied_authorizations act special delay auths n m = Err e ->
  (exists n, checktime n = Err e) \/ check_failure db acts e.
Proof.
  intros Hun. revert n m. induction auths as [|p auths IH]; intros n m H; cbn [check_declared] in H; [done|].
  apply bind_err in H as [H|([] & _ & H)]; [left; eauto|]. apply bind_err in H as [H|([] & _ & H)]; [|by eapply IH].
  destruct special; [done|]. right. by apply check_minimum_failure in H; auto.
Qed.

Lemma check_actions_failure delay l n m e :
  l ⊆ acts -> check_actions env db checktime satisfied_authorizations delay l n m = Err e ->
  (exists n, checktime n = Err e) \/ check_failure db acts e.
Proof.
  revert n m. induction l as [|act l IH]; intros n m Hl H; cbn [check_actions] in H; [done|].
  apply bind_err in H as [H|([special d] & Hs & H)].
  { right. apply (check_special_failure act delay); [|done]. apply Hl. left. }
  apply bind_err in H as [H|([n1 m1] & _ & H)].
  - apply check_declared_failure in H; [done|]. intros ->.
    by destruct (check_special_ok env db perms_forest act delay _ _ Hs) as [[[=] _]|(_ & _ & Hun)].
  - eapply IH; [|done]. set_solver.
Qed.

Lemma check_satisfied_failure `{FO : FactorOrder, !FactorOrderLaws FO} c m n e :
  (forall p a, ac_permission_to_authority c p = Ok a -> authority_typed a) ->
  (forall p e, ac_permission_to_authority c p = Err e -> check_failure db acts e) ->
  check_satisfied checktime c m n = Err e -> (exists n, checktime n = Err e) \/ check_failure db acts e.
Proof.
  revert n c. induction m as [|[p d] m IH]; intros n c Hpta Hlook H; cbn [check_satisfied] in H; [done|].
  apply bind_err in H as [H|([] & _ & H)]; [left; eauto|].
  destruct (satisfied_permission_delay c p d None) as [[c1 r] x] eqn:E.
  apply satisfied_permission_delay_spec in E as (E1 & _ & _ & _ & E5); [|done].
  apply bind_err in H as [H|(b & _ & H)]; [right; destruct (E5 e H) as [_ [q Hq]]; by apply (Hlook q)|].
  apply bind_err in H as [->%ine_assert_err|([] & _ & H)]; [right; failure|]. apply IH in H; [done|by rewrite E1..].
Qed.
End failures.

(** C26: When check_authorization does not pass, its caller gets one of eight
    exceptions of the check (the declared level is irrelevant, unsatisfied or
    does not exist, the action or the transaction to cancel is not acceptable,
    a signature is superfluous); or the out-of-range or assertion exception of
    unpacking the data of one of its updateauth, deleteauth, linkauth,
    unlinkauth or canceldelay actions, or the deferred transaction to cancel,
    which then cannot be unpacked; or the exception of its checktime function.
    The walks over the hierarchy end and stay within the table, the exception
    for actions that cannot be linked is never seen, and nothing is undefined
    behaviour unless checktime is. *)
Theorem check_authorization_errors `{FO : FactorOrder, !FactorOrderLaws FO} env db acts provided_keys
    provided_permissions provided_delay checktime allow_unused satisfied e :
  forest (permission_index db) -> authorities_typed db ->
  check_authorization env db acts provided_keys provided_permissions provided_delay checktime allow_unused satisfied
    = Err e ->
  (exists t, e = Throw t /\ t ∈ authorization_failures) \/
  (e = fc_out_of_range_exception \/ e = fc_assert_exception) /\ decode_error db acts e \/
  (exists f n, checktime = Some f /\ f n = Err e).
Proof.
  intros Hf Ht H.
  assert ((exists n, default noop_checktime checktime n = Err e) \/ check_failure db acts e) as [[n Hn]|[Hc|Hc]].
  { unfold check_authorization in H. apply bind_err in H as [H|([n m] & _ & H)].
    { by apply (check_actions_failure env db acts Hf) in H. }
    apply bind_err in H as [H|(c & _ & H)].
    - apply check_satisfied_failure with (acts := acts) (db := db) in H; [done|done| |].
      + intros p a. by apply permission_authority_typed.
      + intros p e' [He|(po & _ & He)]%bind_err; [by apply (get_permission_failure db acts) in He|done].
    - destruct allow_unused; [done|]. apply ine_assert_err in H as ->. right. failure. }
  - right. right. destruct checktime as [f|]; [by exists f, n|done].
  - by left.
  - right; left. split; [by eapply decode_error_reports|done].
Qed.

(** ** An example: an action signed with a linked permission, and one with an
    irrelevant permission *)

Lemma example_end_inv : auth_inv example_end.
Proof.
  apply (native_steps_inv (BT := reference_boost) (fun _ => zero_digest) (fun _ => Ok tt) (fun _ => True) example_genesis).
  - apply (genesis_inv example_env [] 1500000000000000 example_key). by vm_compute.
  - apply (example_run_steps (fun _ => True) example_actions); [done|]. by vm_compute.
Qed.

Lemma example_end_typed : authorities_typed example_end.
Proof.
  assert (Forall (fun kv => authority_typed (auth kv.2)) (map_to_list (indices (permission_index example_end)))) as H.
  { set (l := map_to_list _). vm_compute in l. subst l. repeat constructor; vm_compute; done. }
  intros i p Hp%elem_of_map_to_list. rewrite list.Forall_forall in H. apply (H _ Hp).
Qed.

Definition alice_posts (level_name : Z) : action :=
  mk_action system_account_name newaccount_name [mk_permission_level alice_name level_name] [].

Lemma check_authorization_sound_witness :
  let c := transaction_checker example_env example_end [example_key] [] 0 in
  let p := mk_permission_level alice_name posting_name in
  exists d, admitted example_env example_end 0 (alice_posts posting_name) p d /\
    (p ∈ [] \/ exists d', d' <= d /\ checker_level (with_delay c d') p).
Proof.
  apply (check_authorization_sound (FO := reference_order) (FactorOrderLaws0 := reference_order_laws)
    example_env example_end [alice_posts posting_name] [example_key] [] 0 None false []).
  - apply (pi_forest _ (ai_perm _ example_end_inv)).
  - apply example_end_typed.
  - by vm_compute.
  - left.
  - left.
Defined.

(** An unlinkauth whose data is too short. *)
Definition truncated_unlinkauth : action :=
  mk_action system_account_name unlinkauth_name [mk_permission_level alice_name active_name] [1; 2; 3].

Lemma check_authorization_errors_witness :
  let e := fc_out_of_range_exception in
  (exists t, e = Throw t /\ t ∈ authorization_failures) \/
  (e = fc_out_of_range_exception \/ e = fc_assert_exception) /\ decode_error example_end [truncated_unlinkauth] e \/
  (exists (f : nat -> outcome unit) n, None = Some f /\ f n = Err e).
Proof.
  apply (check_authorization_errors (FO := reference_order) (FactorOrderLaws0 := reference_order_laws)
    example_env example_end [truncated_unlinkauth] [] [] 0 None false []).
  - apply (pi_forest _ (ai_perm _ example_end_inv)).
  - apply example_end_typed.
  - by vm_compute.
Defined.

(** ** The checker over the permissions of the database *)

Section hierarchy.
Context (db : chain_db) (rank : permission_level -> nat) (limit : nat).
Hypothesis perms_forest : forest (permission_index db).
Hypothesis perms_typed : authorities_typed db.

(** The level a permission is found by. *)
Definition level_of (p : permission_object) : permission_level := mk_permission_level (owner p) (po_name p).

(** The permissions of the database are a hierarchy that the checker decides,
    when the authorities ranked below the limit name levels ranked below
    their own. *)
Lemma permission_authority_hierarchy :
  (forall i p, indices (permission_index db) !! i = Some p -> i <> 0 -> (rank (level_of p) < limit)%nat ->
     weights_bounded (auth p) /\
     forall x, x ∈ accounts (auth p) ->
       proper_level (plw_permission x) /\ (rank (plw_permission x) < rank (level_of p))%nat) ->
  ranked_hierarchy (permission_authority db) rank limit.
Proof.
  intros H.
  assert (forall p a, permission_authority db p = Ok a ->
            exists i po, indices (permission_index db) !! i = Some po /\ i <> 0 /\ auth po = a /\ level_of po = p) as Hok.
  { intros [x y] a (po & Hpo & [= <-])%bind_ok. apply get_permission_ok in Hpo as (Hpo & H0 & Ho & Hn); [|done].
    exists (po_id po), po. unfold level_of. by rewrite Ho, Hn. }
  split.
  - intros p a. by apply permission_authority_typed.
  - intros p a (i & po & Hi & H0 & <- & <-)%Hok Hr. by apply (H i po).
  - intros p a x (i & po & Hi & H0 & <- & <-)%Hok Hr. by apply (H i po).
  - intros p e [He|(? & _ & ?)]%bind_err [Ha Hp]; [|done]. revert He. unfold get_permission.
    rewrite (proj2 (Z.eqb_neq _ _) Ha), (proj2 (Z.eqb_neq _ _) Hp). cbn. unfold get_by.
    destruct (find_by _ _ _); [done|]. by intros [= <-].
  - intros p a (po & Hpo & _)%bind_ok. unfold get_permission, any_permission in Hpo. cbn [permission actor] in Hpo.
    by rewrite andb_false_r in Hpo.
Qed.
End hierarchy.

(** The account of the producers names the permission of the system account. *)
Definition example_rank (p : permission_level) : nat :=
  if decide (actor p = producers_account_name) then 1 else 0.

Lemma example_hierarchy : ranked_hierarchy (permission_authority example_end) example_rank 6.
Proof.
  apply permission_authority_hierarchy; [apply (pi_forest _ (ai_perm _ example_end_inv))|apply example_end_typed|].
  assert (Forall (fun kv => kv.1 = 0 \/ weights_bounded (auth kv.2) /\
            Forall (fun x => proper_level (plw_permission x) /\
                             (example_rank (plw_permission x) < example_rank (level_of kv.2))%nat)
              (accounts (auth kv.2)))
            (map_to_list (indices (permission_index example_end)))) as H.
  { set (l := map_to_list _). vm_compute in l. subst l.
    repeat (apply list.Forall_cons; split); try exact (Forall_nil_2 _);
      first [left; reflexivity|right; split; [by vm_compute|]];
      repeat (apply list.Forall_cons; split); try exact (Forall_nil_2 _); (split; [by vm_compute|vm_compute; lia]). }
  intros i p Hp%elem_of_map_to_list Hi _. rewrite list.Forall_forall in H.
  destruct (H _ Hp) as [?|[? Ha]]; [done|]. split; [done|]. intros x. rewrite list.Forall_forall in Ha. apply Ha.
Qed.

(** The key of the system account, asked for the authority of the account of
    the producers. *)
Lemma satisfied_exact_witness :
  let c := transaction_checker example_env example_end [example_key] [] 0 in
  let auth := mk_authority 1 [] [mk_permission_level_weight (mk_permission_level producers_account_name active_name) 1] [] in
  exists b, (satisfied_authority (FO := reference_order) c auth None).1.2 = Ok b /\
            (b = true <-> checker_authorized c auth).
Proof.
  apply (satisfied_exact (FO := reference_order) (FactorOrderLaws0 := reference_order_laws)
    (transaction_checker example_env example_end [example_key] [] 0) example_rank).
  - exact example_hierarchy.
  - repeat constructor; by vm_compute.
  - by vm_compute.
  - intros x ->%list_elem_of_singleton. by vm_compute.
Defined.
