(* ===== verification/TransactionChecks.v ===== *)
(** * The checks of an input transaction

    Models what the controller and the transaction context look at before a
    transaction runs: its expiration, the block it refers to (TaPoS) with the
    summaries of the last blocks, the table of recent transactions that tells
    duplicates, the accounts it names, and the lists of accounts, contracts and
    actions that a node may refuse.

    A flat_set is the list of its elements in order.

    The theorems: the searches over the lists of actors decide inclusion and
    intersection; a transaction passes the reference check exactly if it names
    the newest of the last 65536 blocks with its number; the loop that clears
    expired transactions ends and removes exactly these; and no transaction is
    accepted twice. *)

From Stdlib Require Import Sorted.
From S2P Require Import Prelude Exceptions Names Merkle Authority Timestamps Raw Codecs.
From S2P Require Import Chainbase BlockHeader Transactions ProtocolFeatures ChainObjects Permissions NativeActions.

(** ** Lists of accounts *)

Record account_lists := mk_account_lists {
  actor_whitelist : list Z;
  actor_blacklist : list Z;
  contract_whitelist : list Z;
  contract_blacklist : list Z;
  action_blacklist : list (Z * Z)
}.

(** [std::lower_bound( lower_bound, list.cend(), actor )] *)
Definition bound_from (l : list Z) (lower_bound : nat) (actor : Z) : nat :=
  lower_bound + lower_index (fun x => x <? actor) (drop lower_bound l).

Fixpoint actors_subset (whitelist : list Z) (lower_bound : nat) (actors : list Z) : bool :=
  match actors with
  | [] => true
  | actor :: actors' =>
      let lower_bound := bound_from whitelist lower_bound actor in
      match whitelist !! lower_bound with
      | None => false
      | Some x => if x =? actor then actors_subset whitelist (lower_bound + 1) actors' else false
      end
  end.

Fixpoint actors_intersect (blacklist : list Z) (lower_bound : nat) (actors : list Z) : bool :=
  match actors with
  | [] => false
  | actor :: actors' =>
      let lower_bound := bound_from blacklist lower_bound actor in
      match blacklist !! lower_bound with
      | None => false
      | Some x => if x =? actor then true else actors_intersect blacklist lower_bound actors'
      end
  end.

(** The first and the last element of a list that is not empty. *)
Definition front (l : list Z) : Z := hd 0 l.
Definition back (l : list Z) : Z := List.last l 0.
Definition nonempty {A} (l : list A) : bool := match l with [] => false | _ => true end.

Definition check_actor_list (lists : account_lists) (actors : list Z) : outcome unit :=
  if negb (nonempty actors) then Ok tt
  else if nonempty (actor_whitelist lists) then
    let whitelist := actor_whitelist lists in
    ine_assert (if (front actors >=? front whitelist) && (back actors <=? back whitelist)
                then actors_subset whitelist 0 actors else false)
      (Throw actor_whitelist_exception)
  else if nonempty (actor_blacklist lists) then
    let blacklist := actor_blacklist lists in
    ine_assert (negb (if (front actors <=? back blacklist) && (back actors >=? front blacklist)
                      then actors_intersect blacklist 0 actors else false))
      (Throw actor_blacklist_exception)
  else Ok tt.

Definition check_contract_list (lists : account_lists) (code : Z) : outcome unit :=
  if nonempty (contract_whitelist lists) then
    ine_assert (bool_decide (code ∈ contract_whitelist lists)) (Throw contract_whitelist_exception)
  else if nonempty (contract_blacklist lists) then
    ine_assert (bool_decide (code ∉ contract_blacklist lists)) (Throw contract_blacklist_exception)
  else Ok tt.

Definition check_action_list (lists : account_lists) (code action : Z) : outcome unit :=
  if nonempty (action_blacklist lists) then
    ine_assert (bool_decide ((code, action) ∉ action_blacklist lists)) (Throw action_blacklist_exception)
  else Ok tt.

(** ** Expiration and reference block *)

Definition validate_expiration (pending_block_time lifetime : Z) (trx : transaction) : outcome unit :=
  ine_assert (time_point_of_sec (expiration trx) >=? pending_block_time) (Throw expired_tx_exception) ;;
  ine_assert (time_point_of_sec (expiration trx) <=? i64 (pending_block_time + seconds lifetime))
    (Throw tx_exp_too_far_exception).

Record block_summary_object := mk_block_summary_object { bso_id : Z; bso_block_id : sha256 }.

#[export] Instance block_summary_chain_object : ChainObject block_summary_object :=
  {| obj_id := bso_id; obj_keys := [] |}.

Definition validate_tapos (summaries : generic_index block_summary_object) (trx : transaction) : outcome unit :=
  tapos_block_summary ← Chainbase.get (u16 (ref_block_num trx)) summaries;
  ine_assert (verify_reference_block (bso_block_id tapos_block_summary) trx) (Throw invalid_ref_block_exception).

(** The loop that makes the empty summaries of a new chain. *)
Fixpoint create_summaries (n : nat) (summaries : generic_index block_summary_object) :
  outcome (generic_index block_summary_object) :=
  match n with
  | O => Ok summaries
  | S n' =>
      '(summaries, _) ← db_create (fun i => mk_block_summary_object i zero_digest) summaries;
      create_summaries n' summaries
  end.

Definition set_block_id (id : sha256) (b : block_summary_object) : block_summary_object :=
  mk_block_summary_object (bso_id b) id.

Definition initialize_summaries (head_id : sha256) : outcome (generic_index block_summary_object) :=
  summaries ← create_summaries (Z.to_nat 0x10000) empty_index;
  tapos_block_summary ← Chainbase.get 1 summaries;
  db_modify (bso_id tapos_block_summary) (set_block_id head_id) summaries.

Definition create_block_summary (id : sha256) (summaries : generic_index block_summary_object) :
  outcome (generic_index block_summary_object) :=
  let sid := Z.land (num_from_id id) 0xffff in
  b ← Chainbase.get sid summaries;
  db_modify (bso_id b) (set_block_id id) summaries.

(** ** Recent transactions *)

Record transaction_object := mk_transaction_object {
  to_id : Z;
  to_expiration : Z; (* time_point_sec *)
  to_trx_id : sha256
}.

(** by_trx_id and by_expiration *)
#[export] Instance transaction_chain_object : ChainObject transaction_object :=
  {| obj_id := to_id;
     obj_keys := [fun t => hash_words (to_trx_id t); fun t => [to_expiration t; to_id t]] |}.

(** Every exception of [create] becomes a tx_duplicate. *)
Definition record_transaction (id : sha256) (expire : Z) (idx : generic_index transaction_object) :
  outcome (generic_index transaction_object) :=
  match db_create (fun i => mk_transaction_object i expire id) idx with
  | Ok (idx', _) => Ok idx'
  | Err undefined_behaviour => Err undefined_behaviour
  | Err _ => Err (Throw tx_duplicate)
  end.

Definition expires_before (a b : transaction_object) : bool :=
  tie_lt Z.ltb Z.ltb (to_expiration a, to_id a) (to_expiration b, to_id b).

(** [dedupe_index.begin()], [None] when the index is empty. *)
Definition dedupe_begin (idx : generic_index transaction_object) : option transaction_object :=
  foldr (fun kv acc => match acc with
                       | None => Some kv.2
                       | Some t => Some (if expires_before kv.2 t then kv.2 else t)
                       end) None (map_to_list (indices idx)).

Fixpoint clear_loop (fuel : nat) (now : Z) (idx : generic_index transaction_object) :
  option (outcome (generic_index transaction_object)) :=
  match fuel with
  | O => None
  | S fuel' =>
      match dedupe_begin idx with
      | None => Some (Ok idx)
      | Some t =>
          if now >? time_point_of_sec (to_expiration t) then
            match db_remove (to_id t) idx with
            | Ok idx' => clear_loop fuel' now idx'
            | Err e => Some (Err e)
            end
          else Some (Ok idx)
      end
  end.

(** One round more than there are rows. *)
Definition clear_expired_input_transactions (now : Z) (idx : generic_index transaction_object) :
  option (outcome (generic_index transaction_object)) :=
  clear_loop (S (size (indices idx))) now idx.

(** ** The accounts a transaction names *)

Fixpoint check_context_free (db : chain_db) (acts : list action) : outcome unit :=
  match acts with
  | [] => Ok tt
  | a :: acts' =>
      ine_assert (bool_decide (is_Some (find_by account_by_name [act_account a] (account_index db))))
        (Throw transaction_exception) ;;
      ine_assert (bool_decide (length (authorization a) = 0%nat)) (Throw transaction_exception) ;;
      check_context_free db acts'
  end.

Fixpoint check_auths (db : chain_db) (auths : list permission_level) : outcome unit :=
  match auths with
  | [] => Ok tt
  | auth :: auths' =>
      ine_assert (bool_decide (is_Some (find_by account_by_name [actor auth] (account_index db))))
        (Throw transaction_exception) ;;
      p ← find_permission auth db;
      ine_assert (bool_decide (is_Some p)) (Throw transaction_exception) ;;
      check_auths db auths'
  end.

Fixpoint check_named (db : chain_db) (acts : list action) : outcome unit :=
  match acts with
  | [] => Ok tt
  | a :: acts' =>
      ine_assert (bool_decide (is_Some (find_by account_by_name [act_account a] (account_index db))))
        (Throw transaction_exception) ;;
      check_auths db (authorization a) ;;
      check_named db acts'
  end.

(** The actors of all authorizations, as a flat_set. *)
Definition actors_of (acts : list action) : list Z :=
  ids_in_order (list_to_set (actor <$> concat (authorization <$> acts))).

Definition validate_referenced_accounts (lists : account_lists) (db : chain_db) (trx : transaction)
    (enforce_actor_whitelist_blacklist : bool) : outcome unit :=
  check_context_free db (context_free_actions trx) ;;
  check_named db (actions trx) ;;
  let one_auth := nonempty (concat (authorization <$> actions trx)) in
  ine_assert one_auth (Throw tx_no_auths) ;;
  if enforce_actor_whitelist_blacklist then check_actor_list lists (actors_of (actions trx)) else Ok tt.

(** ** The searches over the lists *)

Lemma partitioned_drop {A} (below : A -> bool) l n : partitioned below l -> partitioned below (drop n l).
Proof. intros H i j x y. rewrite !lookup_drop. intros Hx Hy Hij. apply (H _ _ x y Hx Hy). lia. Qed.

Lemma below_partitioned l a : StronglySorted Z.lt l -> partitioned (fun x => x <? a) l.
Proof.
  intros Hs i j x y Hx Hy Hij H%Z.ltb_lt. apply Z.ltb_lt. destruct (decide (i = j)) as [->|Hne]; [congruence|].
  pose proof (StronglySorted_lookup _ _ i j x y Hs Hx Hy). lia.
Qed.

Lemma bound_from_spec l lb a i x :
  StronglySorted Z.lt l -> l !! i = Some x -> (lb <= i)%nat -> (x <? a) = bool_decide (i < bound_from l lb a)%nat.
Proof.
  intros Hs Hx Hi. unfold bound_from.
  destruct (lower_index_boundary _ _ (partitioned_drop _ _ lb (below_partitioned l a Hs))) as [_ H].
  specialize (H (i - lb)%nat x). rewrite lookup_drop in H. replace (lb + (i - lb))%nat with i in H by lia.
  rewrite (H Hx). apply bool_decide_ext. lia.
Qed.

(** Where the search finds an element and where it does not. *)
Lemma lower_bound_found l lb a x :
  StronglySorted Z.lt l -> (forall i y, l !! i = Some y -> (i < lb)%nat -> y < a) ->
  l !! bound_from l lb a = Some x -> (x =? a) = bool_decide (a ∈ l).
Proof.
  intros Hs Hlb Hx. pose proof (bound_from_spec l lb a _ x Hs Hx) as H. rewrite bool_decide_eq_false_2 in H by lia.
  apply eq_true_iff_eq. rewrite Z.eqb_eq, bool_decide_eq_true. split.
  - intros <-. by eapply list_elem_of_lookup_2.
  - intros [i Hi]%list_elem_of_lookup. destruct (decide (i < lb)%nat) as [E|E]; [by apply Hlb in Hi; [lia|]|].
    assert (lb <= bound_from l lb a)%nat as Hge by (unfold bound_from; lia). specialize (H Hge). apply Z.ltb_ge in H.
    pose proof (bound_from_spec l lb a i a Hs Hi) as Ha. rewrite Z.ltb_irrefl in Ha.
    symmetry in Ha. apply bool_decide_eq_false in Ha; [|lia].
    destruct (decide (i = bound_from l lb a)) as [->|Hne]; [congruence|].
    pose proof (StronglySorted_lookup _ _ (bound_from l lb a) i x a Hs Hx Hi). lia.
Qed.

Lemma bound_end l lb a :
  StronglySorted Z.lt l -> (forall i y, l !! i = Some y -> (i < lb)%nat -> y < a) ->
  l !! bound_from l lb a = None -> forall y, y ∈ l -> y < a.
Proof.
  intros Hs Hlb Hn y [i Hi]%list_elem_of_lookup. destruct (decide (i < lb)%nat) as [E|E]; [by eapply Hlb|].
  apply lookup_ge_None in Hn. pose proof (lookup_lt_Some _ _ _ Hi) as Hlen.
  pose proof (bound_from_spec l lb a i y Hs Hi) as H. rewrite bool_decide_eq_true_2 in H by lia. lia.
Qed.

Lemma bound_passed l lb a :
  StronglySorted Z.lt l -> (forall i y, l !! i = Some y -> (i < lb)%nat -> y < a) ->
  forall i y, l !! i = Some y -> (i < bound_from l lb a)%nat -> y < a.
Proof.
  intros Hs Hlb i y Hi Hlt. destruct (decide (i < lb)%nat) as [E|E]; [by eapply Hlb|].
  pose proof (bound_from_spec l lb a i y Hs Hi) as H. rewrite bool_decide_eq_true_2 in H by lia. lia.
Qed.

Lemma actors_subset_spec whitelist actors lb :
  StronglySorted Z.lt whitelist -> StronglySorted Z.lt actors ->
  (forall i y a, whitelist !! i = Some y -> (i < lb)%nat -> a ∈ actors -> y < a) ->
  actors_subset whitelist lb actors = forallb (fun a => bool_decide (a ∈ whitelist)) actors.
Proof.
  intros Hw. revert lb. induction actors as [|a actors IH]; intros lb Ha Hlb; [done|].
  apply StronglySorted_inv in Ha as [Ha Hlt]. cbn [actors_subset forallb].
  assert (forall i y, whitelist !! i = Some y -> (i < lb)%nat -> y < a) as Hb by (intros; eapply Hlb; [done|done|left]).
  destruct (whitelist !! bound_from whitelist lb a) as [x|] eqn:E.
  - rewrite (lower_bound_found _ _ _ _ Hw Hb E). destruct (bool_decide_reflect (a ∈ whitelist)) as [Hin|]; [|done]. cbn [andb].
    apply IH; [done|]. intros i y a' Hi Hle Ha'. rewrite list.Forall_forall in Hlt. specialize (Hlt a' Ha').
    pose proof (lower_bound_found _ _ _ _ Hw Hb E) as Hx. rewrite bool_decide_eq_true_2 in Hx by done. apply Z.eqb_eq in Hx as ->.
    destruct (decide (i = bound_from whitelist lb a)) as [->|]; [congruence|].
    pose proof (bound_passed _ _ _ Hw Hb i y Hi). lia.
  - rewrite bool_decide_eq_false_2; [done|]. intros Hin. pose proof (bound_end _ _ _ Hw Hb E a Hin). lia.
Qed.

Lemma actors_intersect_spec blacklist actors lb :
  StronglySorted Z.lt blacklist -> StronglySorted Z.lt actors ->
  (forall i y a, blacklist !! i = Some y -> (i < lb)%nat -> a ∈ actors -> y < a) ->
  actors_intersect blacklist lb actors = existsb (fun a => bool_decide (a ∈ blacklist)) actors.
Proof.
  intros Hw. revert lb. induction actors as [|a actors IH]; intros lb Ha Hlb; [done|].
  apply StronglySorted_inv in Ha as [Ha Hlt]. rewrite list.Forall_forall in Hlt. cbn [actors_intersect existsb].
  assert (forall i y, blacklist !! i = Some y -> (i < lb)%nat -> y < a) as Hb by (intros; eapply Hlb; [done|done|left]).
  destruct (blacklist !! bound_from blacklist lb a) as [x|] eqn:E.
  - rewrite (lower_bound_found _ _ _ _ Hw Hb E). destruct (bool_decide (a ∈ blacklist)); [done|]. cbn [orb].
    apply IH; [done|]. intros i y a' Hi Hle Ha'. specialize (Hlt a' Ha'). pose proof (bound_passed _ _ _ Hw Hb i y Hi). lia.
  - pose proof (bound_end _ _ _ Hw Hb E) as Hend. rewrite bool_decide_eq_false_2 by (intros Hin; specialize (Hend a Hin); lia).
    cbn [orb]. symmetry. apply not_true_iff_false. intros (a' & Ha' & Hin)%existsb_exists.
    apply bool_decide_eq_true, Hend in Hin. apply list_elem_of_In in Ha'. specialize (Hlt a' Ha'). lia.
Qed.

(** The first and the last element bound the others. *)
Lemma sorted_extent l x : StronglySorted Z.lt l -> x ∈ l -> front l <= x <= back l.
Proof.
  intros Hs Hx. unfold front, back. induction Hs as [|a l Hs IH Ha]; [by inversion Hx|].
  rewrite list.Forall_forall in Ha. destruct l as [|b l]; [apply list_elem_of_singleton in Hx as ->; cbn; lia|].
  change (List.last (a :: b :: l) 0) with (List.last (b :: l) 0). cbn [hd]. cbn [hd] in IH.
  assert (a < b) by (apply Ha; left). apply elem_of_cons in Hx as [->|Hx]; [|specialize (IH Hx); lia].
  assert (b ∈ b :: l) as Hb by left. specialize (Ha b Hb).
  assert (forall m : list Z, m <> [] -> List.last m 0 ∈ m) as Hlast.
  { intros m Hm. rewrite (app_removelast_last 0 Hm) at 2. apply elem_of_app. right. left. }
  specialize (Hlast (b :: l) ltac:(done)). apply elem_of_cons in Hlast as [->|Hlast]; [lia|].
  apply StronglySorted_inv in Hs as [_ Hb']. rewrite list.Forall_forall in Hb'. specialize (Hb' _ Hlast). lia.
Qed.

Lemma front_in l : l <> [] -> front l ∈ l.
Proof. destruct l; [done|]. intros _. left. Qed.
Lemma back_in l : l <> [] -> back l ∈ l.
Proof. intros Hm. unfold back. rewrite (app_removelast_last 0 Hm) at 2. apply elem_of_app. right. left. Qed.

(** What the two lists ask of the actors. *)
Definition actors_allowed (lists : account_lists) (actors : list Z) : outcome unit :=
  match actors, actor_whitelist lists with
  | [], _ => Ok tt
  | _, _ :: _ => ine_assert (forallb (fun a => bool_decide (a ∈ actor_whitelist lists)) actors) (Throw actor_whitelist_exception)
  | _, [] => ine_assert (negb (existsb (fun a => bool_decide (a ∈ actor_blacklist lists)) actors)) (Throw actor_blacklist_exception)
  end.

(** The check of the actors of a transaction against the lists of a node,
    which walks both ordered sets with binary searches after a comparison of
    their extents, decides whether all actors are on the whitelist or, without
    one, whether none is on the blacklist. *)
Theorem actor_lists_exact lists actors :
  StronglySorted Z.lt (actor_whitelist lists) -> StronglySorted Z.lt (actor_blacklist lists) ->
  StronglySorted Z.lt actors ->
  check_actor_list lists actors = actors_allowed lists actors.
Proof.
  intros Hw Hb Ha. unfold check_actor_list, actors_allowed. destruct actors as [|a actors]; [done|].
  change (nonempty (a :: actors)) with true. set (l := a :: actors) in *. cbn [negb].
  assert (l <> []) as Hl by done. clearbody l. destruct (actor_whitelist lists) as [|w ws] eqn:Ew in *; cbn [nonempty].
  - destruct (actor_blacklist lists) as [|b bs] eqn:Eb in *; cbn [nonempty].
    + symmetry. assert (existsb (fun a => bool_decide (a ∈ [])) l = false) as ->; [|done].
      apply not_true_iff_false. intros (x & _ & Hx%bool_decide_eq_true)%existsb_exists. by inversion Hx.
    + f_equal. f_equal. rewrite <- (actors_intersect_spec _ _ 0) by (done || lia).
      destruct (_ && _) eqn:E; [done|]. symmetry. rewrite (actors_intersect_spec _ _ 0) by (done || lia).
      apply not_true_iff_false. intros (x & Hx%list_elem_of_In & Hin%bool_decide_eq_true)%existsb_exists.
      pose proof (sorted_extent _ _ Ha Hx). pose proof (sorted_extent _ _ Hb Hin).
      apply andb_false_iff in E. rewrite Z.geb_leb in E. lia.
  - f_equal. rewrite <- (actors_subset_spec _ _ 0) by (done || lia). destruct (_ && _) eqn:E; [done|].
    symmetry. rewrite (actors_subset_spec _ _ 0) by (done || lia). apply not_true_iff_false. intros H.
    rewrite forallb_forall in H. apply andb_false_iff in E. rewrite Z.geb_leb in E.
    pose proof (H _ (proj1 (list_elem_of_In _ _) (front_in l Hl))) as H1%bool_decide_eq_true.
    pose proof (H _ (proj1 (list_elem_of_In _ _) (back_in l Hl))) as H2%bool_decide_eq_true.
    pose proof (sorted_extent _ _ Hw H1). pose proof (sorted_extent _ _ Hw H2). lia.
Qed.

Lemma actor_lists_exact_witness :
  check_actor_list (mk_account_lists [] [20; 40; 60] [] [] []) [30; 50; 60; 70] = Err (Throw actor_blacklist_exception).
Proof.
  rewrite actor_lists_exact; [by vm_compute|by repeat constructor|by repeat constructor|by repeat constructor].
Defined.

(** ** The summaries of the last blocks *)

Lemma no_keys_violates (m : gmap Z block_summary_object) b :
  m !! bso_id b = None -> violates obj_id obj_keys m b = false.
Proof.
  intros H. unfold violates. cbn [obj_id block_summary_chain_object]. rewrite H. cbn. induction (map_to_list m) as [|p l IH]; [done|]. cbn. apply IH.
Qed.

Lemma summary_create idx b :
  table_ok idx -> next_id idx < INT64_MAX -> (forall i, bso_id (b i) = i) ->
  exists idx', db_create b idx = Ok (idx', b (next_id idx)) /\ next_id idx' = next_id idx + 1 /\
    indices idx' = <[next_id idx := b (next_id idx)]> (indices idx) /\ table_ok idx'.
Proof.
  intros Hok Hn Hb. assert (indices idx !! bso_id (b (next_id idx)) = None) as Hnone.
  { rewrite Hb. destruct (indices idx !! next_id idx) eqn:E; [|done]. apply (t_below idx Hok) in E. lia. }
  destruct (db_create b idx) as [[idx' v]|e] eqn:E.
  - destruct (table_create_ok b idx idx' v Hok Hb E) as (-> & _ & Hi & Hn' & Hok'). by exists idx'.
  - exfalso. revert E. unfold db_create, emplace, container_emplace.
    rewrite (no_keys_violates _ _ Hnone). unfold increment. by rewrite (proj2 (Z.ltb_lt _ _) Hn).
Qed.

Lemma summary_modify idx i id b :
  table_ok idx -> indices idx !! i = Some b ->
  exists idx', db_modify i (set_block_id id) idx = Ok idx' /\ table_ok idx' /\
    indices idx' = <[i := mk_block_summary_object i id]> (indices idx).
Proof.
  intros Hok Hb. pose proof (t_ids idx Hok i b Hb) as Hid. cbn in Hid.
  destruct (db_modify i (set_block_id id) idx) as [idx'|e] eqn:E.
  - destruct (db_modify_ok i (set_block_id id) idx idx' Hok ltac:(done) E) as (v & Hv & Hi & _ & Hok').
    exists idx'. split; [done|]. split; [done|]. rewrite Hb in Hv. injection Hv as <-. rewrite Hi.
    unfold set_block_id. by rewrite Hid.
  - exfalso. revert E. unfold db_modify, modify, container_modify, container_emplace. rewrite Hb. cbn [mbind result_bind].
    rewrite no_keys_violates; [done|].
    cbn. rewrite Hid. apply lookup_delete_eq.
Qed.

(** The first [n] summaries are there and hold what [f] says. *)
Definition summaries_hold (n : Z) (f : Z -> sha256) (idx : generic_index block_summary_object) : Prop :=
  table_ok idx /\ forall i, 0 <= i < n -> indices idx !! i = Some (mk_block_summary_object i (f i)).

Lemma create_summaries_hold n idx :
  summaries_hold (next_id idx) (fun _ => zero_digest) idx -> 0 <= next_id idx -> next_id idx + Z.of_nat n < INT64_MAX ->
  exists idx', create_summaries n idx = Ok idx' /\
    summaries_hold (next_id idx + Z.of_nat n) (fun _ => zero_digest) idx'.
Proof.
  revert idx. induction n as [|n IH]; intros idx [Hok Hi] H0 Hn; cbn [create_summaries].
  - exists idx. split; [done|]. by rewrite Z.add_0_r.
  - destruct (summary_create idx (fun i => mk_block_summary_object i zero_digest)) as (idx1 & E & Hn1 & Hi1 & Hok1);
      [done|lia|done|]. rewrite E. cbn [mbind result_bind].
    destruct (IH idx1) as (idx' & E' & H'); [|lia|lia|].
    + split; [done|]. intros i Hb. rewrite Hi1. destruct (decide (i = next_id idx)) as [->|Hne].
      * by rewrite lookup_insert_eq.
      * rewrite lookup_insert_ne by done. apply Hi. lia.
    + exists idx'. split; [done|]. replace (next_id idx + Z.of_nat (S n)) with (next_id idx1 + Z.of_nat n) by lia. done.
Qed.

Lemma summaries_set n f idx i id :
  summaries_hold n f idx -> 0 <= i < n ->
  exists idx', db_modify i (set_block_id id) idx = Ok idx' /\
    summaries_hold n (fun j => if decide (j = i) then id else f j) idx'.
Proof.
  intros [Hok Hi] Hr. destruct (summary_modify idx i id _ Hok (Hi i Hr)) as (idx' & E & Hok' & Hi').
  exists idx'. split; [done|]. split; [done|]. intros j Hj. rewrite Hi'. destruct (decide (j = i)) as [->|Hne].
  - by rewrite lookup_insert_eq.
  - rewrite lookup_insert_ne by done. by apply Hi.
Qed.

(** The newest of some blocks, given from the oldest on, whose number ends
    with the sixteen bits [r]. *)
Definition newest (ids : list sha256) (r : Z) : option sha256 :=
  list.last (filter (fun id => num_from_id id mod 65536 = r) ids).

Lemma newest_snoc ids id r :
  newest (ids ++ [id]) r = if decide (r = num_from_id id mod 65536) then Some id else newest ids r.
Proof.
  unfold newest. rewrite list.filter_app, list.filter_cons, list.filter_nil.
  destruct (decide (num_from_id id mod 65536 = r)) as [E|E], (decide (r = num_from_id id mod 65536)); try congruence.
  - apply last_snoc.
  - by rewrite app_nil_r.
Qed.

Fixpoint create_block_summaries (ids : list sha256) (summaries : generic_index block_summary_object) :
  outcome (generic_index block_summary_object) :=
  match ids with
  | [] => Ok summaries
  | id :: ids' => summaries ← create_block_summary id summaries; create_block_summaries ids' summaries
  end.

Lemma summaries_ext n f g idx :
  (forall i, 0 <= i < n -> f i = g i) -> summaries_hold n f idx -> summaries_hold n g idx.
Proof. intros H [Hok Hi]. split; [done|]. intros i Hr. rewrite <- H by done. by apply Hi. Qed.

Lemma create_block_summaries_hold ids old idx :
  summaries_hold 65536 (fun i => default zero_digest (newest old i)) idx ->
  exists idx', create_block_summaries ids idx = Ok idx' /\
    summaries_hold 65536 (fun i => default zero_digest (newest (old ++ ids) i)) idx'.
Proof.
  revert old idx. induction ids as [|id ids IH]; intros old idx H; cbn [create_block_summaries].
  - exists idx. split; [done|]. by rewrite app_nil_r.
  - unfold create_block_summary.
    assert (Z.land (num_from_id id) 65535 = num_from_id id mod 65536) as -> by apply (Z.land_ones _ 16 ltac:(done)).
    assert (0 <= num_from_id id mod 65536 < 65536) as Hr by (apply Z.mod_pos_bound; lia).
    unfold Chainbase.get, Chainbase.find. rewrite (proj2 H _ Hr). cbn [mbind result_bind bso_id].
    destruct (summaries_set _ _ _ _ id H Hr) as (idx1 & E & H1). rewrite E. cbn [mbind result_bind].
    destruct (IH (old ++ [id]) idx1) as (idx' & E' & H').
    + eapply summaries_ext; [|exact H1]. intros i Hi. cbn. rewrite newest_snoc. by destruct (decide _).
    + exists idx'. split; [done|]. by rewrite <- app_assoc in H'.
Qed.


Definition example_id (num prefix : Z) : sha256 := mk_sha256 (Z.shiftl num 24) prefix 0 0.
Definition example_reference (num prefix : Z) : transaction := mk_transaction 0 num prefix 0 0 0 [] [] [].


(** ** Recent transactions *)

Definition rows_typed (idx : generic_index transaction_object) : Prop :=
  forall i t, indices idx !! i = Some t -> is_uint 32 (to_expiration t).

Lemma time_point_of_sec_exact s : is_uint 32 s -> time_point_of_sec s = s * 1000000.
Proof. unfold is_uint. intros H. unfold time_point_of_sec, seconds. apply i64_id. lia. Qed.

Lemma first_expiring (l : list (Z * transaction_object)) t :
  foldr (fun kv acc => match acc with
                       | None => Some kv.2
                       | Some t => Some (if expires_before kv.2 t then kv.2 else t)
                       end) None l = Some t ->
  (exists i, (i, t) ∈ l) /\ forall kv, kv ∈ l -> to_expiration t <= to_expiration kv.2.
Proof.
  revert t. induction l as [|[i v] l IH]; intros t H; [done|]. cbn [foldr] in H.
  destruct (foldr _ None l) as [w|] eqn:E; injection H as <-.
  - destruct (IH w eq_refl) as [[j Hj] Hmin]. cbn [snd].
    assert (expires_before v w = true -> to_expiration v <= to_expiration w) as Hb.
    { unfold expires_before, tie_lt. cbn [fst snd]. intros [H|[H _]%andb_true_iff]%orb_true_iff; [lia|].
      apply negb_true_iff in H. lia. }
    assert (expires_before v w = false -> to_expiration w <= to_expiration v) as Hnb.
    { unfold expires_before, tie_lt. cbn [fst snd]. intros [H _]%orb_false_iff. lia. }
    destruct (expires_before v w); (split; [|intros kv [->|Hkv]%elem_of_cons; cbn; [|specialize (Hmin kv Hkv)]; lia]).
    + exists i. left.
    + exists j. by right.
  - assert (l = []) as ->.
    { destruct l as [|[j u] l]; [done|]. cbn [foldr] in E. by destruct (foldr _ None l). }
    split; [exists i; left|]. intros kv ->%list_elem_of_singleton. cbn. lia.
Qed.

Lemma dedupe_begin_spec idx :
  match dedupe_begin idx with
  | None => indices idx = ∅
  | Some t => (exists i, indices idx !! i = Some t) /\
              forall i t', indices idx !! i = Some t' -> to_expiration t <= to_expiration t'
  end.
Proof.
  unfold dedupe_begin. destruct (foldr _ None (map_to_list (indices idx))) as [t|] eqn:E.
  - apply first_expiring in E as [[i Hi] Hmin]. split; [exists i; by apply elem_of_map_to_list|].
    intros j t' Hj. apply (Hmin (j, t')). by apply elem_of_map_to_list.
  - destruct (map_to_list (indices idx)) as [|[i v] l] eqn:El; [by apply map_to_list_empty_iff|].
    cbn [foldr] in E. by destruct (foldr _ None l).
Qed.

(** The rows that have not expired. *)
Definition unexpired (now : Z) (m : gmap Z transaction_object) : gmap Z transaction_object :=
  filter (fun kv => now <= to_expiration kv.2 * 1000000) m.

Lemma clear_loop_spec fuel now idx :
  table_ok idx -> rows_typed idx -> (size (indices idx) < fuel)%nat ->
  exists idx', clear_loop fuel now idx = Some (Ok idx') /\ table_ok idx' /\ indices idx' = unexpired now (indices idx).
Proof.
  revert idx. induction fuel as [|fuel IH]; intros idx Hok Ht Hf; [lia|]. cbn [clear_loop].
  pose proof (dedupe_begin_spec idx) as Hd. destruct (dedupe_begin idx) as [t|].
  - destruct Hd as [[i Hi] Hmin]. rewrite time_point_of_sec_exact by (by eapply Ht).
    pose proof (t_ids idx Hok i t Hi) as Hid. cbn in Hid. subst i.
    destruct (Z.gtb_spec now (to_expiration t * 1000000)).
    + destruct (db_remove (to_id t) idx) as [idx1|e] eqn:E.
      * destruct (db_remove_ok (to_id t) idx idx1 Hok E) as (v & Hv & Hi1 & _ & Hok1).
        destruct (IH idx1) as (idx' & E' & Hok' & Hi').
        -- done.
        -- intros j u Hu. rewrite Hi1 in Hu. apply lookup_delete_Some in Hu as [_ Hu]. by eapply Ht.
        -- rewrite Hi1, map_size_delete, Hi. assert (size (indices idx) <> 0%nat); [|lia].
           apply map_size_non_empty_iff. intros Hz. by rewrite Hz in Hi.
        -- exists idx'. split; [done|]. split; [done|]. rewrite Hi', Hi1. clear Hi' E'. unfold unexpired.
           rewrite map_filter_delete. apply delete_id. apply map_lookup_filter_None. right.
           intros u Hu. rewrite Hi in Hu. injection Hu as <-. cbn. lia.
      * exfalso. revert E. unfold db_remove, Chainbase.remove, container_erase. by rewrite Hi.
    + exists idx. split; [done|]. split; [done|]. symmetry. apply map_filter_id. intros j u Hu. cbn.
      specialize (Hmin j u Hu). lia.
  - exists idx. split; [done|]. split; [done|]. rewrite Hd. symmetry. apply map_filter_empty.
Qed.

Lemma record_transaction_ok id e idx idx' :
  table_ok idx -> record_transaction id e idx = Ok idx' ->
  table_ok idx' /\ indices idx' = <[next_id idx := mk_transaction_object (next_id idx) e id]> (indices idx) /\
  indices idx !! next_id idx = None /\
  forall i t, indices idx !! i = Some t -> to_trx_id t <> id.
Proof.
  intros Hok H. unfold record_transaction in H. destruct (db_create _ idx) as [[idx1 v]|[]] eqn:E; try done.
  injection H as ->. destruct (table_create_ok (fun i => mk_transaction_object i e id) idx idx' v Hok ltac:(done) E) as (-> & Hn & Hi & _ & Hok').
  split; [done|]. split; [done|]. split; [done|]. intros i t Ht Hid.
  assert (i <> next_id idx) as Hne by (intros ->; congruence).
  apply Hne, (t_unique idx' Hok' i (next_id idx) t (mk_transaction_object (next_id idx) e id)).
  - rewrite Hi. by rewrite lookup_insert_ne.
  - rewrite Hi. by rewrite lookup_insert_eq.
  - apply same_key_iff. exists (fun t => hash_words (to_trx_id t)). split; [left|]. cbn. by rewrite Hid.
Qed.

(** ** No transaction is accepted twice *)

Section replay.
Context (id_of : transaction -> sha256).

(** The time of the pending block, the recent transactions, and what has been
    accepted so far. *)
Record replay_state := mk_replay_state {
  rs_time : Z;
  rs_recent : generic_index transaction_object;
  rs_accepted : list transaction
}.

(** A block starts at a later time, and an input transaction passes the check
    of its expiration and is recorded. *)
Inductive replay_step (s : replay_state) : replay_state -> Prop :=
| step_start_block time recent :
    rs_time s <= time -> clear_expired_input_transactions time (rs_recent s) = Some (Ok recent) ->
    replay_step s (mk_replay_state time recent (rs_accepted s))
| step_input lifetime trx recent :
    is_uint 32 (expiration trx) -> validate_expiration (rs_time s) lifetime trx = Ok tt ->
    record_transaction (id_of trx) (expiration trx) (rs_recent s) = Ok recent ->
    replay_step s (mk_replay_state (rs_time s) recent (trx :: rs_accepted s)).

(** The table at the start. *)
Context (recent0 : generic_index transaction_object).

(** The table has a row for the id, which expires when [expiration] says. *)
Definition recorded (s : replay_state) (id : sha256) (expiration : Z) : Prop :=
  exists i t, indices (rs_recent s) !! i = Some t /\ to_trx_id t = id /\ to_expiration t = expiration.

(** What has been recorded at the start or accepted, and can still be sent, is
    in the table. *)
Record replay_inv (s : replay_state) : Prop := {
  ri_ok : table_ok (rs_recent s);
  ri_typed : rows_typed (rs_recent s);
  ri_there trx : trx ∈ rs_accepted s -> rs_time s <= expiration trx * 1000000 ->
    recorded s (id_of trx) (expiration trx);
  ri_row i t : indices recent0 !! i = Some t -> rs_time s <= to_expiration t * 1000000 ->
    recorded s (to_trx_id t) (to_expiration t);
  ri_nodup : NoDup (id_of <$> rs_accepted s);
  ri_other i t trx : indices recent0 !! i = Some t -> trx ∈ rs_accepted s -> id_of trx <> to_trx_id t
}.

(** Ids bind expirations, also those of the rows at the start. *)
Hypothesis id_binds : forall t t', id_of t = id_of t' -> expiration t = expiration t'.
Hypothesis row_binds : forall i t trx,
  indices recent0 !! i = Some t -> id_of trx = to_trx_id t -> expiration trx = to_expiration t.

Lemma recorded_cleared s time recent id e :
  table_ok (rs_recent s) -> rows_typed (rs_recent s) ->
  indices recent = unexpired time (indices (rs_recent s)) -> time <= e * 1000000 ->
  recorded s id e -> recorded (mk_replay_state time recent (rs_accepted s)) id e.
Proof.
  intros Hok Ht Hi Htime (i & t & Hit & Hid & He). exists i, t. split; [|done]. cbn. rewrite Hi.
  apply map_lookup_filter_Some. split; [done|]. cbn. lia.
Qed.

Lemma recorded_input s recent trx id e :
  indices recent = <[next_id (rs_recent s) :=
    mk_transaction_object (next_id (rs_recent s)) (expiration trx) (id_of trx)]> (indices (rs_recent s)) ->
  indices (rs_recent s) !! next_id (rs_recent s) = None ->
  recorded s id e -> recorded (mk_replay_state (rs_time s) recent (trx :: rs_accepted s)) id e.
Proof.
  intros Hi Hnone (i & t & Hit & Hr). exists i, t. split; [|done]. cbn. rewrite Hi, lookup_insert_ne; [done|].
  intros <-. congruence.
Qed.

Lemma not_expired time lifetime trx :
  is_uint 32 (expiration trx) -> validate_expiration time lifetime trx = Ok tt -> time <= expiration trx * 1000000.
Proof.
  intros Hu Hv. unfold validate_expiration in Hv. apply bind_ok in Hv as ([] & Hv & _).
  apply ine_assert_ok in Hv. rewrite time_point_of_sec_exact in Hv by done. lia.
Qed.

Lemma replay_step_inv s s' : replay_inv s -> replay_step s s' -> replay_inv s'.
Proof.
  intros [Hok Ht Hin Hrow Hnd Hoth] H. destruct H as [time recent Hle Hc|lifetime trx recent Hu Hv Hr].
  - unfold clear_expired_input_transactions in Hc.
    destruct (clear_loop_spec _ time (rs_recent s) Hok Ht (Nat.lt_succ_diag_r _)) as (idx & E & Hok' & Hi).
    rewrite E in Hc. injection Hc as ->. split; [done| | | |done|done].
    + intros i t Hit. cbn in Hit. rewrite Hi in Hit. apply map_lookup_filter_Some in Hit as [Hit _]. by eapply Ht.
    + intros trx Htrx Htime. apply recorded_cleared; try done. apply Hin; [done|]. cbn in Htime. lia.
    + intros i t Hit Htime. apply recorded_cleared; try done. apply (Hrow i); [done|]. cbn in Htime. lia.
  - destruct (record_transaction_ok _ _ _ _ Hok Hr) as (Hok' & Hi & Hnone & Hfresh).
    pose proof (not_expired _ _ _ Hu Hv) as Htime.
    assert (forall id e, recorded s id e -> id_of trx <> id) as Hnew.
    { intros id e (i & t & Hit & Hid & _) E. apply (Hfresh i t Hit). congruence. }
    split; cbn [rs_time rs_accepted]; [done| | | | |].
    + intros i t Hit. cbn in Hit. rewrite Hi in Hit.
      apply lookup_insert_Some in Hit as [[_ <-]|[_ Hit]]; [done|by eapply Ht].
    + intros trx' [->|Htrx]%elem_of_cons Htime'; [|apply recorded_input; auto].
      exists (next_id (rs_recent s)), (mk_transaction_object (next_id (rs_recent s)) (expiration trx) (id_of trx)).
      split; [|done]. cbn. rewrite Hi. apply lookup_insert_eq.
    + intros i t Hit Htime'. apply recorded_input; eauto.
    + cbn [fmap list_fmap]. constructor; [|done]. intros (trx' & E & Htrx')%list_elem_of_fmap.
      apply (Hnew (id_of trx') (expiration trx')); [|done]. apply Hin; [done|]. by rewrite <- (id_binds trx trx' E).
    + intros i t trx' Hit [->|Htrx']%elem_of_cons; [|by eapply Hoth]. intros E.
      apply (Hnew (to_trx_id t) (to_expiration t)); [|done]. apply (Hrow i); [done|].
      by rewrite <- (row_binds i t trx Hit E).
Qed.

Lemma replay_start_inv time :
  table_ok recent0 -> rows_typed recent0 -> replay_inv (mk_replay_state time recent0 []).
Proof.
  intros Hok Ht. split; cbn; [done|done| | |constructor|]; try by intros * ?%not_elem_of_nil.
  - intros i t Hit _. by exists i, t.
  - by intros i t trx _ ?%not_elem_of_nil.
Qed.

(** C20: no transaction is accepted twice.  Start with any table of recent
    transactions whose ids are unique, such as that of a snapshot.  Over any
    blocks with times that do not decrease, in which input transactions are
    checked for expiration and recorded and expired records are cleared, all
    accepted transactions have different ids, and none has the id of a
    transaction that was in the table at the start; if the id of a
    transaction binds its expiration, in the table too. *)
Theorem transactions_not_replayed time s :
  table_ok recent0 -> rows_typed recent0 ->
  rtc replay_step (mk_replay_state time recent0 []) s ->
  NoDup (id_of <$> rs_accepted s) /\
  forall i t trx, indices recent0 !! i = Some t -> trx ∈ rs_accepted s -> id_of trx <> to_trx_id t.
Proof.
  intros Hok Ht H. assert (replay_inv s) as Hs; [|split; [apply (ri_nodup _ Hs)|apply (ri_other _ Hs)]].
  pose proof (replay_start_inv time Hok Ht) as H0.
  induction H as [|x y z Hxy _ IH]; [done|]. apply IH. by eapply replay_step_inv.
Qed.

End replay.

(** An id that binds the expiration; a table with one transaction, and two
    blocks of which the second finds that of the first expired. *)
Definition example_trx_id (t : transaction) : sha256 := mk_sha256 (expiration t) (ref_block_num t) 0 0.
Definition example_input (exp num : Z) : transaction := mk_transaction exp num 0 0 0 0 [] [] [].

Definition example_record (t : transaction) (idx : generic_index transaction_object) :=
  match record_transaction (example_trx_id t) (expiration t) idx with Ok i => i | Err _ => empty_index end.
Definition example_snapshot : generic_index transaction_object := example_record (example_input 40 1) empty_index.
Definition example_recorded : generic_index transaction_object :=
  example_record (example_input 10 1) example_snapshot.
Definition example_cleared : generic_index transaction_object :=
  match clear_expired_input_transactions 20000000 example_recorded with Some (Ok i) => i | _ => empty_index end.
Definition example_recorded_again : generic_index transaction_object :=
  example_record (example_input 30 1) example_cleared.

Lemma example_snapshot_row i t :
  indices example_snapshot !! i = Some t -> t = mk_transaction_object 0 40 (example_trx_id (example_input 40 1)).
Proof.
  intros H. assert (indices example_snapshot = {[0 := mk_transaction_object 0 40 (example_trx_id (example_input 40 1))]})
    as E by by vm_compute.
  rewrite E in H. by apply lookup_singleton_Some in H as [_ <-].
Qed.

Lemma transactions_not_replayed_witness :
  NoDup (example_trx_id <$> [example_input 30 1; example_input 10 1]) /\
  record_transaction (example_trx_id (example_input 40 1)) 40 example_recorded_again = Err (Throw tx_duplicate).
Proof.
  split; [|by vm_compute].
  apply (transactions_not_replayed example_trx_id example_snapshot) with (time := 0)
    (s := mk_replay_state 20000000 example_recorded_again [example_input 30 1; example_input 10 1]).
  - intros t t' [= H _]. exact H.
  - intros i t trx ->%example_snapshot_row [= H _]. exact H.
  - destruct (record_transaction_ok (example_trx_id (example_input 40 1)) 40 empty_index example_snapshot) as [H _];
      [apply empty_table_ok|by vm_compute|exact H].
  - intros i t ->%example_snapshot_row. by vm_compute.
  - eapply rtc_l; [apply (step_input _ _ 3600 (example_input 10 1) example_recorded); by vm_compute|].
    eapply rtc_l; [apply (step_start_block _ _ 20000000 example_cleared); by vm_compute|].
    eapply rtc_l; [apply (step_input _ _ 3600 (example_input 30 1) example_recorded_again); by vm_compute|].
    apply rtc_refl.
Defined.
