(* ===== verification/TransactionContext.v ===== *)
(** * The transaction context

    Models transaction_context.cpp with its header, and the timer of
    platform_timer_posix.cpp: the limits on the net usage and the time of a
    transaction, the billing timer, the checks when it starts and when it ends,
    and the billing of the accounts.  The execution of its actions is in
    ActionExecution.v.

    A reading of the clock is an argument of the function that reads it.  Times
    and durations are counts of microseconds in an int64_t.  The codes of
    exceptions that the context keeps are numbers, as in the code.  An operation
    that throws leaves a context that is not used again, except for the time
    billed, so that only the exception is kept.

    The theorems: the limits that a transaction starts with; that the time billed
    is the time the billing timer ran; and that the last step of a transaction,
    which bills the accounts and of which the code says that it should never
    fail, can only fail for lack of memory. *)

From S2P Require Import Prelude Exceptions Names Merkle Authority Timestamps UsageAccumulator ResourceLimits Raw Codecs.
From S2P Require Import Chainbase BlockHeader Transactions ChainConfig ProtocolFeatures ChainObjects Permissions NativeActions.
From S2P Require Import TransactionChecks.

(** ** The platform timer *)

(** [expired] is set when the timer fires, [armed] is the time it fires at. *)
Record timer := mk_timer { expired : bool; armed : option Z }.

Definition time_point_maximum : Z := INT64_MAX.

(** [(int)x.count()*1000] is computed in an int. *)
Definition timer_nanoseconds (x : Z) : outcome Z :=
  let ns := i32 x * 1000 in
  ine_assert ((- 2 ^ 31 <=? ns) && (ns <? 2 ^ 31)) undefined_behaviour ;; Ok ns.

(** timer_settime takes nanoseconds from 0 to 999999999, with 0 disarms the
    timer, and fails otherwise. *)
Definition timer_settime (ns now : Z) : option (option Z) :=
  if (ns <? 0) || (999999999 <? ns) then None
  else Some (if ns =? 0 then None else Some (now + ns / 1000)).

Definition platform_timer_start (tp now : Z) (t : timer) : outcome timer :=
  if tp =? time_point_maximum then Ok (mk_timer false (armed t)) else
  let x := i64 (tp - now) in
  if x <=? 0 then Ok (mk_timer true (armed t)) else
  ns ← timer_nanoseconds x;
  match timer_settime ns now with
  | Some at_ => Ok (mk_timer false at_)
  | None => Ok (mk_timer true (armed t))
  end.

Definition platform_timer_stop (t : timer) : timer :=
  if expired t then t else mk_timer true None.

(** The signal handler, when the time has come. *)
Definition timer_fires (now : Z) (t : timer) : timer :=
  match armed t with
  | Some tp => if tp <=? now then mk_timer true None else t
  | None => t
  end.

(** A transaction_checktime_timer starts with a timer that is not expired. *)
Definition checktime_timer (t : timer) : timer := mk_timer false (armed t).

(** ** The context *)

(** What the controller says. *)
Record trx_env := mk_trx_env {
  te_chain : chain_env;
  configuration : chain_config;
  skip_trx_checks : bool;
  greylist_limit : Z;
  resource_greylist : list Z;
  te_lists : account_lists
}.

(** What the caller sets before the context is initialized. *)
Record trx_input := mk_trx_input {
  trx : transaction;
  trx_id : sha256;
  start : Z;
  deadline : Z;
  leeway : Z;
  explicit_billed_cpu_time : bool
}.

Record net_account := mk_net_account {
  net_limit : Z;
  net_limit_due_to_block : bool;
  net_limit_due_to_greylist : bool;
  eager_net_limit : Z;
  trx_net_usage : Z
}.

Record cpu_account := mk_cpu_account {
  cpu_limit_due_to_greylist : bool;
  initial_objective_duration_limit : Z;
  objective_duration_limit : Z;
  cur_deadline : Z; (* _deadline *)
  deadline_exception_code : Z;
  billing_timer_exception_code : Z;
  pseudo_start : Z;
  billed_time : Z;
  billing_timer_duration_limit : Z;
  billed_cpu_time_us : Z;
  transaction_timer : timer
}.

Record transaction_context := mk_transaction_context {
  tx_db : chain_db;
  recent_transactions : generic_index transaction_object;
  block_summaries : generic_index block_summary_object;
  tx_net : net_account;
  tx_cpu : cpu_account;
  bill_to_accounts : gset Z;
  tx_validate_mem_usage : gset Z;
  tx_published : Z;
  is_initialized : bool;
  is_input : bool;
  apply_context_free : bool
}.

(** The constructor, with the time the controller bills if it sets it. *)
Definition new_context (db : chain_db) recent summaries (inp : trx_input) (billed_us : Z) (t : timer) : transaction_context :=
  mk_transaction_context db recent summaries
    (mk_net_account 0 true false 0 0)
    (mk_cpu_account false 0 0 time_point_maximum (code_value block_cpu_usage_exceeded)
       (code_value block_cpu_usage_exceeded) (start inp) 0 0 billed_us (checktime_timer t))
    ∅ ∅ 0 false false true.

Definition with_net (ctx : transaction_context) (n : net_account) : transaction_context :=
  mk_transaction_context (tx_db ctx) (recent_transactions ctx) (block_summaries ctx) n (tx_cpu ctx) (bill_to_accounts ctx)
    (tx_validate_mem_usage ctx) (tx_published ctx) (is_initialized ctx) (is_input ctx) (apply_context_free ctx).
Definition with_cpu (ctx : transaction_context) (c : cpu_account) : transaction_context :=
  mk_transaction_context (tx_db ctx) (recent_transactions ctx) (block_summaries ctx) (tx_net ctx) c (bill_to_accounts ctx)
    (tx_validate_mem_usage ctx) (tx_published ctx) (is_initialized ctx) (is_input ctx) (apply_context_free ctx).
Definition with_trx_db (ctx : transaction_context) (db : chain_db) : transaction_context :=
  mk_transaction_context db (recent_transactions ctx) (block_summaries ctx) (tx_net ctx) (tx_cpu ctx) (bill_to_accounts ctx)
    (tx_validate_mem_usage ctx) (tx_published ctx) (is_initialized ctx) (is_input ctx) (apply_context_free ctx).
Definition with_recent (ctx : transaction_context) recent : transaction_context :=
  mk_transaction_context (tx_db ctx) recent (block_summaries ctx) (tx_net ctx) (tx_cpu ctx) (bill_to_accounts ctx)
    (tx_validate_mem_usage ctx) (tx_published ctx) (is_initialized ctx) (is_input ctx) (apply_context_free ctx).
Definition with_kind (ctx : transaction_context) (published : Z) (input context_free : bool) : transaction_context :=
  mk_transaction_context (tx_db ctx) (recent_transactions ctx) (block_summaries ctx) (tx_net ctx) (tx_cpu ctx)
    (bill_to_accounts ctx) (tx_validate_mem_usage ctx) published (is_initialized ctx) input context_free.
Definition with_payers (ctx : transaction_context) (accounts : gset Z) : transaction_context :=
  mk_transaction_context (tx_db ctx) (recent_transactions ctx) (block_summaries ctx) (tx_net ctx) (tx_cpu ctx) accounts
    (tx_validate_mem_usage ctx) (tx_published ctx) (is_initialized ctx) (is_input ctx) (apply_context_free ctx).
Definition set_initialized (ctx : transaction_context) : transaction_context :=
  mk_transaction_context (tx_db ctx) (recent_transactions ctx) (block_summaries ctx) (tx_net ctx) (tx_cpu ctx)
    (bill_to_accounts ctx) (tx_validate_mem_usage ctx) (tx_published ctx) true (is_input ctx) (apply_context_free ctx).

Definition with_usage (n : net_account) (u : Z) : net_account :=
  mk_net_account (net_limit n) (net_limit_due_to_block n) (net_limit_due_to_greylist n) (eager_net_limit n) u.
Definition with_timer (c : cpu_account) (t : timer) : cpu_account :=
  mk_cpu_account (cpu_limit_due_to_greylist c) (initial_objective_duration_limit c) (objective_duration_limit c)
    (cur_deadline c) (deadline_exception_code c) (billing_timer_exception_code c) (pseudo_start c) (billed_time c)
    (billing_timer_duration_limit c) (billed_cpu_time_us c) t.

Section context.
Context (env : trx_env) (inp : trx_input).

Definition rl (ctx : transaction_context) : rl_db := resource_limits (tx_db ctx).

Definition disallow_transaction_extensions : outcome unit :=
  if is_producing_block (te_chain env) then Err (Throw subjective_block_production_exception)
  else Err (Throw disallowed_transaction_extensions_bad_block_exception).

(** ** Net usage *)

Definition check_net_usage (n : net_account) : outcome unit :=
  if negb (skip_trx_checks env) then
    if trx_net_usage n >? eager_net_limit n then
      if net_limit_due_to_block n then Err (Throw block_net_usage_exceeded)
      else if net_limit_due_to_greylist n then Err (Throw greylist_net_usage_exceeded)
      else Err (Throw tx_net_usage_exceeded)
    else Ok tt
  else Ok tt.

Definition add_net_usage (u : Z) (ctx : transaction_context) : outcome transaction_context :=
  let n := with_usage (tx_net ctx) (u64 (trx_net_usage (tx_net ctx) + u)) in
  check_net_usage n ;; Ok (with_net ctx n).

(** ** Time *)

Definition checktime (c : cpu_account) : outcome unit :=
  if negb (expired (transaction_timer c)) then Ok tt
  else if explicit_billed_cpu_time inp || (deadline_exception_code c =? code_value deadline_exception)
  then Err (Throw deadline_exception)
  else if deadline_exception_code c =? code_value block_cpu_usage_exceeded then Err (Throw block_cpu_usage_exceeded)
  else if deadline_exception_code c =? code_value tx_cpu_usage_exceeded then
    if cpu_limit_due_to_greylist c then Err (Throw greylist_cpu_usage_exceeded) else Err (Throw tx_cpu_usage_exceeded)
  else if deadline_exception_code c =? code_value leeway_deadline_exception then Err (Throw leeway_deadline_exception)
  else Err (Throw transaction_exception).

Definition pause_billing_timer (now : Z) (c : cpu_account) : cpu_account :=
  if explicit_billed_cpu_time inp || (pseudo_start c =? 0) then c
  else mk_cpu_account (cpu_limit_due_to_greylist c) (initial_objective_duration_limit c) (objective_duration_limit c)
         (cur_deadline c) (code_value deadline_exception) (billing_timer_exception_code c) 0 (i64 (now - pseudo_start c))
         (billing_timer_duration_limit c) (billed_cpu_time_us c) (platform_timer_stop (transaction_timer c)).

(** The clock is read again when the timer starts. *)
Definition resume_billing_timer (now start_now : Z) (c : cpu_account) : outcome cpu_account :=
  if explicit_billed_cpu_time inp || negb (pseudo_start c =? 0) then Ok c else
  let pseudo := i64 (now - billed_time c) in
  let '(cur, code) :=
    if i64 (pseudo + billing_timer_duration_limit c) <=? deadline inp
    then (i64 (pseudo + billing_timer_duration_limit c), billing_timer_exception_code c)
    else (deadline inp, code_value deadline_exception) in
  t ← platform_timer_start cur start_now (transaction_timer c);
  Ok (mk_cpu_account (cpu_limit_due_to_greylist c) (initial_objective_duration_limit c) (objective_duration_limit c)
        cur code (billing_timer_exception_code c) pseudo (billed_time c) (billing_timer_duration_limit c)
        (billed_cpu_time_us c) t).

Definition validate_account_cpu_usage (billed_us account_cpu_limit : Z) (c : cpu_account) : outcome unit :=
  if (billed_us >? 0) && negb (skip_trx_checks env) then
    let cpu_limited_by_account := account_cpu_limit <=? objective_duration_limit c in
    if negb cpu_limited_by_account && (billing_timer_exception_code c =? code_value block_cpu_usage_exceeded)
    then ine_assert (billed_us <=? objective_duration_limit c) (Throw block_cpu_usage_exceeded)
    else if cpu_limit_due_to_greylist c && cpu_limited_by_account
    then ine_assert (billed_us <=? account_cpu_limit) (Throw greylist_cpu_usage_exceeded)
    else ine_assert (billed_us <=? (if cpu_limited_by_account then account_cpu_limit else objective_duration_limit c))
           (Throw tx_cpu_usage_exceeded)
  else Ok tt.

Definition validate_cpu_usage_to_bill (billed_us account_cpu_limit : Z) (check_minimum : bool) (c : cpu_account) :
  outcome unit :=
  if negb (skip_trx_checks env) then
    (if check_minimum
     then ine_assert (billed_us >=? min_transaction_cpu_usage (configuration env)) (Throw transaction_exception)
     else Ok tt) ;;
    validate_account_cpu_usage billed_us account_cpu_limit c
  else Ok tt.

Definition update_billed_cpu_time (now : Z) (c : cpu_account) : cpu_account :=
  if explicit_billed_cpu_time inp then c
  else mk_cpu_account (cpu_limit_due_to_greylist c) (initial_objective_duration_limit c) (objective_duration_limit c)
         (cur_deadline c) (deadline_exception_code c) (billing_timer_exception_code c) (pseudo_start c) (billed_time c)
         (billing_timer_duration_limit c)
         (Z.max (i64 (now - pseudo_start c)) (min_transaction_cpu_usage (configuration env))) (transaction_timer c).

(** ** What the accounts can pay *)

Definition large_number_no_overflow : Z := INT64_MAX ÷ 2.

Definition account_greylist_limit (force_elastic_limits : bool) (a : Z) : Z :=
  if negb force_elastic_limits && is_producing_block (te_chain env) then
    if bool_decide (a ∈ resource_greylist env) then 1 else greylist_limit env
  else maximum_elastic_resource_multiplier.

(** The loop over the accounts, with the least limits so far. *)
Fixpoint accounts_can_pay (force_elastic_limits : bool) (r : rl_db) (accounts : list Z)
    (net cpu : Z) (greylisted_net greylisted_cpu : bool) : outcome (Z * Z * bool * bool) :=
  match accounts with
  | [] => Ok (net, cpu, greylisted_net, greylisted_cpu)
  | a :: accounts' =>
      let limit := account_greylist_limit force_elastic_limits a in
      '(net_limit, net_was_greylisted) ← get_account_net_limit r a limit;
      let '(net, greylisted_net) :=
        if net_limit >=? 0 then (Z.min net net_limit, greylisted_net || net_was_greylisted) else (net, greylisted_net) in
      '(cpu_limit, cpu_was_greylisted) ← get_account_cpu_limit r a limit;
      let '(cpu, greylisted_cpu) :=
        if cpu_limit >=? 0 then (Z.min cpu cpu_limit, greylisted_cpu || cpu_was_greylisted) else (cpu, greylisted_cpu) in
      accounts_can_pay force_elastic_limits r accounts' net cpu greylisted_net greylisted_cpu
  end.

Definition max_bandwidth_billed_accounts_can_pay (force_elastic_limits : bool) (r : rl_db) (accounts : gset Z) :
  outcome (Z * Z * bool * bool) :=
  '(net, cpu, greylisted_net, greylisted_cpu) ←
    accounts_can_pay force_elastic_limits r (ids_in_order accounts) large_number_no_overflow large_number_no_overflow false false;
  ine_assert ((negb force_elastic_limits && is_producing_block (te_chain env)) || (negb greylisted_cpu && negb greylisted_net))
    (Throw transaction_exception) ;;
  Ok (net, cpu, greylisted_net, greylisted_cpu).

(** ** Start *)

(** The limits of the block, of the configuration and of the header, with the
    flag net_limit_due_to_block. *)
Definition initial_net_limit (r : rl_db) : Z * bool :=
  let cfg := configuration env in
  let limit := get_block_net_limit r in
  let '(limit, due_to_block) :=
    if max_transaction_net_usage cfg <=? limit then (max_transaction_net_usage cfg, false) else (limit, true) in
  let trx_specified_net_usage_limit := u64 (max_net_usage_words (trx inp) * 8) in
  if (trx_specified_net_usage_limit >? 0) && (trx_specified_net_usage_limit <=? limit)
  then (trx_specified_net_usage_limit, false) else (limit, due_to_block).

(** The limits on the time, with the code of the exception they lead to. *)
Definition initial_duration_limit (r : rl_db) : Z * Z :=
  let cfg := configuration env in
  let limit := i64 (get_block_cpu_limit r) in
  let '(limit, code) :=
    if max_transaction_cpu_usage cfg <=? limit
    then (max_transaction_cpu_usage cfg, code_value tx_cpu_usage_exceeded)
    else (limit, code_value block_cpu_usage_exceeded) in
  if max_cpu_usage_ms (trx inp) >? 0 then
    let trx_specified_cpu_usage_limit := milliseconds (max_cpu_usage_ms (trx inp)) in
    if trx_specified_cpu_usage_limit <=? limit
    then (trx_specified_cpu_usage_limit, code_value tx_cpu_usage_exceeded) else (limit, code)
  else (limit, code).

Definition payers : gset Z :=
  if is_builtin_activated (te_chain env) only_bill_first_authorizer then {[first_authorizer (trx inp)]}
  else list_to_set (actor <$> concat (authorization <$> actions (trx inp))).

Definition pending_slot : Z :=
  Timestamps.slot (ts_set_time_point (pending_block_time (te_chain env))).

(** [now] is the reading of the clock when the timer starts. *)
Definition init (initial_net_usage now : Z) (ctx : transaction_context) : outcome transaction_context :=
  ine_assert (negb (is_initialized ctx)) (Throw transaction_exception) ;;
  let cfg := configuration env in
  let n := tx_net ctx in
  let c := tx_cpu ctx in
  let '(limit, due_to_block) := initial_net_limit (rl ctx) in
  let '(duration, code) := initial_duration_limit (rl ctx) in
  let cur := i64 (start inp + duration) in
  let c := mk_cpu_account (cpu_limit_due_to_greylist c) duration duration cur (deadline_exception_code c) code
             (pseudo_start c) (billed_time c) (billing_timer_duration_limit c) (billed_cpu_time_us c) (transaction_timer c) in
  (if explicit_billed_cpu_time inp then validate_cpu_usage_to_bill (billed_cpu_time_us c) INT64_MAX false c else Ok tt) ;;
  let ctx := with_payers ctx (bill_to_accounts ctx ∪ payers) in
  r ← update_account_usage (rl ctx) (ids_in_order (bill_to_accounts ctx)) pending_slot;
  '(account_net_limit, account_cpu_limit, greylisted_net, greylisted_cpu) ←
    max_bandwidth_billed_accounts_can_pay false r (bill_to_accounts ctx);
  let new_eager_net_limit := Z.min limit (u64 (i64 (account_net_limit + net_usage_leeway cfg))) in
  let '(eager, due_to_block) :=
    if new_eager_net_limit <? limit then (new_eager_net_limit, false) else (limit, due_to_block) in
  let '(cur, code) :=
    if i64 (account_cpu_limit + leeway inp) <=? i64 (cur - start inp)
    then (i64 (i64 (start inp + account_cpu_limit) + leeway inp), code_value leeway_deadline_exception)
    else (cur, code) in
  let timer_limit := i64 (cur - start inp) in
  let '(cur, deadline_code) :=
    if explicit_billed_cpu_time inp || (deadline inp <? cur)
    then (deadline inp, code_value deadline_exception) else (cur, code) in
  let c := mk_cpu_account (cpu_limit_due_to_greylist c || greylisted_cpu) duration duration cur deadline_code code
             (pseudo_start c) (billed_time c) timer_limit (billed_cpu_time_us c) (transaction_timer c) in
  (if negb (explicit_billed_cpu_time inp)
   then validate_account_cpu_usage (billed_cpu_time_us c) account_cpu_limit c else Ok tt) ;;
  let ctx := with_net ctx (mk_net_account limit due_to_block (net_limit_due_to_greylist n || greylisted_net)
                             (eager / 8 * 8) (trx_net_usage n)) in
  ctx ← (if initial_net_usage >? 0 then add_net_usage initial_net_usage ctx else Ok ctx);
  checktime c ;;
  t ← platform_timer_start (if skip_trx_checks env then time_point_maximum else cur) now (transaction_timer c);
  Ok (set_initialized (with_cpu (with_trx_db ctx (with_resources (tx_db ctx) r)) (with_timer c t))).

Definition init_for_implicit_trx (initial_net_usage now : Z) (ctx : transaction_context) : outcome transaction_context :=
  (if nonempty (transaction_extensions (trx inp)) then disallow_transaction_extensions else Ok tt) ;;
  init initial_net_usage now (with_kind ctx (pending_block_time (te_chain env)) (is_input ctx) (apply_context_free ctx)).

Definition discounted_size (packed_trx_prunable_size : Z) : Z :=
  let cfg := configuration env in
  let num := context_free_discount_net_usage_num cfg in
  let den := context_free_discount_net_usage_den cfg in
  if (den >? 0) && (num <? den)
  then u64 (u64 (u64 (packed_trx_prunable_size * num) + den) - 1) / den
  else packed_trx_prunable_size.

Definition input_net_usage (packed_trx_unprunable_size packed_trx_prunable_size : Z) : Z :=
  let base := base_per_transaction_net_usage (configuration env) in
  let initial := u64 (u64 (base + packed_trx_unprunable_size) + discounted_size packed_trx_prunable_size) in
  if delay_sec (trx inp) >? 0 then u64 (initial + u64 (base + transaction_id_net_usage)) else initial.

Definition init_for_input_trx (packed_trx_unprunable_size packed_trx_prunable_size : Z) (skip_recording : bool) (now : Z)
    (ctx : transaction_context) : outcome transaction_context :=
  (if nonempty (transaction_extensions (trx inp)) then disallow_transaction_extensions else Ok tt) ;;
  let initial_net_usage := input_net_usage packed_trx_unprunable_size packed_trx_prunable_size in
  let ctx := with_kind ctx (pending_block_time (te_chain env)) true (apply_context_free ctx) in
  (if negb (skip_trx_checks env) then
     validate_expiration (pending_block_time (te_chain env)) (max_transaction_lifetime (configuration env)) (trx inp) ;;
     validate_tapos (block_summaries ctx) (trx inp) ;;
     validate_referenced_accounts (te_lists env) (tx_db ctx) (trx inp)
       (enforce_whiteblacklist (te_chain env) && is_producing_block (te_chain env))
   else Ok tt) ;;
  ctx ← init initial_net_usage now ctx;
  if skip_recording then Ok ctx
  else recent ← record_transaction (trx_id inp) (expiration (trx inp)) (recent_transactions ctx); Ok (with_recent ctx recent).

Definition init_for_deferred_trx (p now : Z) (ctx : transaction_context) : outcome transaction_context :=
  (if negb (expiration (trx inp) =? 0) && nonempty (transaction_extensions (trx inp))
   then disallow_transaction_extensions else Ok tt) ;;
  init 0 now (with_kind ctx p (is_input ctx) false).

(** ** End *)

Fixpoint use_permissions (auths : list permission_level) (db : chain_db) : outcome chain_db :=
  match auths with
  | [] => Ok db
  | auth :: auths' =>
      p ← get_permission auth db;
      db ← update_permission_usage (te_chain env) p db;
      use_permissions auths' db
  end.

Fixpoint verify_mem_usage (r : rl_db) (accounts : list Z) : outcome unit :=
  match accounts with
  | [] => Ok tt
  | a :: accounts' => verify_account_mem_usage r a ;; verify_mem_usage r accounts'
  end.

(** [finalize] up to the billing of the accounts. *)
Definition finalize_checks (now : Z) (ctx : transaction_context) : outcome transaction_context :=
  ine_assert (is_initialized ctx) (Throw transaction_exception) ;;
  db ← (if is_input ctx then use_permissions (concat (authorization <$> actions (trx inp))) (tx_db ctx) else Ok (tx_db ctx));
  let ctx := with_trx_db ctx db in
  verify_mem_usage (rl ctx) (ids_in_order (tx_validate_mem_usage ctx)) ;;
  '(account_net_limit, account_cpu_limit, greylisted_net, greylisted_cpu) ←
    max_bandwidth_billed_accounts_can_pay false (rl ctx) (bill_to_accounts ctx);
  let n := tx_net ctx in
  let '(limit, due_to_block) :=
    if u64 account_net_limit <=? net_limit n then (u64 account_net_limit, false) else (net_limit n, net_limit_due_to_block n) in
  let c := tx_cpu ctx in
  let '(duration, code) :=
    if account_cpu_limit <=? objective_duration_limit c
    then (account_cpu_limit, code_value tx_cpu_usage_exceeded)
    else (objective_duration_limit c, billing_timer_exception_code c) in
  let n := mk_net_account limit due_to_block (net_limit_due_to_greylist n || greylisted_net) limit
             (u64 (u64 (trx_net_usage n + 7) / 8 * 8)) in
  check_net_usage n ;;
  let c := mk_cpu_account (cpu_limit_due_to_greylist c || greylisted_cpu) (initial_objective_duration_limit c) duration
             (cur_deadline c) (deadline_exception_code c) code (pseudo_start c) (billed_time c)
             (billing_timer_duration_limit c) (billed_cpu_time_us c) (transaction_timer c) in
  let c := update_billed_cpu_time now c in
  validate_cpu_usage_to_bill (billed_cpu_time_us c) account_cpu_limit true c ;;
  Ok (with_cpu (with_net ctx n) c).

(** [rl.add_transaction_usage( ... ); // Should never fail] *)
Definition bill_accounts (ctx : transaction_context) : outcome rl_db :=
  add_transaction_usage (rl ctx) (ids_in_order (bill_to_accounts ctx)) (u64 (billed_cpu_time_us (tx_cpu ctx)))
    (trx_net_usage (tx_net ctx)) pending_slot.

Definition finalize (now : Z) (ctx : transaction_context) : outcome transaction_context :=
  ctx ← finalize_checks now ctx;
  r ← bill_accounts ctx;
  Ok (with_trx_db ctx (with_resources (tx_db ctx) r)).

(** ** Memory and delayed transactions *)

Definition context_add_mem_usage (account mem_delta : Z) (ctx : transaction_context) : outcome transaction_context :=
  base ← trx_add_mem_usage account mem_delta (mk_apply_ctx (tx_db ctx) ∅ (tx_validate_mem_usage ctx));
  Ok (mk_transaction_context (ctx_db base) (recent_transactions ctx) (block_summaries ctx) (tx_net ctx) (tx_cpu ctx)
        (bill_to_accounts ctx) (validate_mem_usage base) (tx_published ctx) (is_initialized ctx) (is_input ctx)
        (apply_context_free ctx)).

(** [delay] is what the controller sets, [delay_sec] of the header or 0. *)
Definition schedule_transaction (delay : Z) (ctx : transaction_context) : outcome transaction_context :=
  let cfg := configuration env in
  ctx ← (if delay_sec (trx inp) =? 0
         then add_net_usage (u64 (base_per_transaction_net_usage cfg + transaction_id_net_usage)) ctx else Ok ctx);
  packed ← pack transaction_codec (trx inp);
  let trx_size := Z.of_nat (length (concat packed)) in
  let published := pending_block_time (te_chain env) in
  let until := i64 (published + delay) in
  '(gtos, cgto) ← db_create (fun i => mk_generated_transaction_object i (trx_id inp) 0
                       (transaction_id_to_sender_id (trx_id inp)) (first_authorizer (trx inp)) until
                       (i64 (until + seconds (deferred_trx_expiration_window cfg))) published (concat packed))
                     (generated_transaction_index (tx_db ctx));
  let ctx := with_trx_db ctx (with_generated (tx_db ctx) gtos) in
  context_add_mem_usage (payer cgto) (i64 (billable_generated_transaction_object + u32 trx_size)) ctx.

End context.
