(* ===== verification/Billing.v ===== *)
(** * Billing a transaction

    The last step of a transaction adds its net usage and its time to the
    accounts that pay for it.  The code says of this step that it should never
    fail, because the limits have been checked before.  Here it is shown what the
    checks leave: along any run of a context from its initialization on, the step
    can only fail because the 32 bytes that it charges for every transaction do
    not fit into the memory of an account, provided the transaction has some net
    usage and some time to bill.  Examples show that both exceptions occur. *)

From S2P Require Import Prelude Exceptions Names Merkle Authority Timestamps UsageAccumulator ResourceLimits Raw Codecs.
From S2P Require Import Chainbase BlockHeader Transactions ChainConfig ProtocolFeatures ChainObjects Permissions NativeActions.
From S2P Require Import TransactionChecks TransactionContext.

(** ** Shares *)

(** What is left of a share covers what is added to the average. *)
Lemma share_room v w u m :
  0 < w <= rate_limiting_precision -> 0 <= v -> 0 < u ->
  u <= m - ceil_div (v * w) rate_limiting_precision ->
  (v + contribution u w) * w / rate_limiting_precision <= m.
Proof.
  unfold contribution, ceil_div. intros Hw Hv Hu Hm. set (p := rate_limiting_precision) in *.
  set (c := (u * p + w - 1) / w). set (k := (v * w + p - 1) / p) in *.
  assert (c * w <= u * p + w - 1) as Hc.
  { unfold c. pose proof (Z.mul_div_le (u * p + w - 1) w). lia. }
  assert (v * w <= k * p) as Hk.
  { unfold k. pose proof (Z.mul_succ_div_gt (v * w + p - 1) p). nia. }
  assert ((v + c) * w / p < m + 1); [|lia]. apply Z.div_lt_upper_bound; [lia|]. nia.
Qed.

Lemma account_limit_covers weight total window vlimit bmax v g arl gl u e :
  is_sint 64 weight -> is_uint 64 total -> 0 < window <= rate_limiting_precision -> 0 <= vlimit < 2 ^ 33 ->
  is_uint 64 v -> 0 < u -> is_uint 64 (v + contribution u window) ->
  account_limit weight total window vlimit bmax v g = Ok (arl, gl) ->
  (0 <= available arl -> u <= available arl) ->
  check_share weight total vlimit window (v + contribution u window) e = Ok tt.
Proof.
  intros Hwt Ht Hw Hv Hve Hu Hr H Hav. unfold check_share. unfold account_limit in H. unfold is_sint, is_uint in *.
  rewrite Z.geb_leb. destruct (Z.ltb_spec weight 0), (Z.leb_spec 0 weight); try lia; [done|]. cbn [andb orb] in *.
  destruct (Z.eqb_spec total 0), (Z.gtb_spec total 0); try lia; [done|]. cbn [andb]. cbv zeta.
  match type of H with (let '(_, _) := ?c in _) = _ => set (cap := c) in H end.
  assert (0 <= cap.1 <= window * vlimit) as Hcap.
  { unfold cap. assert (is_uint 64 (u64 (bmax * g))) as Hb by (apply wrap_range; lia). unfold is_uint in Hb.
    destruct (g <? _); [destruct (Z.ltb_spec (u64 (bmax * g)) vlimit)|]; cbn [fst];
      rewrite wrap_id by (unfold is_uint, rate_limiting_precision in *; nia); nia. }
  destruct cap as [capacity gr]. cbn [fst] in Hcap.
  assert (window * vlimit <= 2 ^ 53) as Hc53 by (unfold rate_limiting_precision in *; nia).
  rewrite (Z.mul_comm vlimit window).
  rewrite !(wrap_id 128) in H by (unfold is_uint, rate_limiting_precision in *; nia).
  rewrite (wrap_id 128 (window * vlimit)), (wrap_id 128 (window * vlimit * weight)),
    (wrap_id 128 ((v + contribution u window) * window)) by (unfold is_uint, rate_limiting_precision in *; nia).
  rewrite integer_divide_ceil_spec in H by done.
  assert (capacity * weight / total <= window * vlimit * weight / total) as Hmono by (apply Z.div_le_mono; nia).
  set (m := capacity * weight / total) in *. set (k := ceil_div (v * window) rate_limiting_precision) in *.
  assert (u <= m - k) as Hum.
  { apply bind_ok in H as (av & Hav' & H). apply bind_ok in H as (us & _ & H). apply bind_ok in H as (mm & _ & [= <- _]).
    cbn [available] in Hav. destruct (Z.leb_spec m k); [injection Hav' as <-; lia|].
    unfold downgrade_cast_int64 in Hav'. apply bind_ok in Hav' as ([] & _ & [= <-]). lia. }
  pose proof (share_room v window u m Hw ltac:(lia) Hu Hum) as Hshare.
  assert ((v + contribution u window) * window / rate_limiting_precision <= window * vlimit * weight / total) as Hle by lia.
  by rewrite (proj2 (Z.leb_le _ _) Hle).
Qed.

Lemma accounts_can_pay_spec env force r accounts net cpu gn gc net' cpu' gn' gc' :
  accounts_can_pay env force r accounts net cpu gn gc = Ok (net', cpu', gn', gc') ->
  net' <= net /\ cpu' <= cpu /\ (0 <= net -> 0 <= net') /\ (0 <= cpu -> 0 <= cpu') /\
  forall a, a ∈ accounts ->
    (exists arl g, get_account_net_limit_ex r a (account_greylist_limit env force a) = Ok (arl, g) /\
       (0 <= available arl -> net' <= available arl)) /\
    (exists arl g, get_account_cpu_limit_ex r a (account_greylist_limit env force a) = Ok (arl, g) /\
       (0 <= available arl -> cpu' <= available arl)).
Proof.
  revert net cpu gn gc. induction accounts as [|a accounts IH]; intros net cpu gn gc H; cbn [accounts_can_pay] in H.
  { injection H as <- <- _ _. split_and!; try lia. intros a Ha. inversion Ha. }
  apply bind_ok in H as ([nl ng] & Hn & H). unfold get_account_net_limit in Hn.
  apply bind_ok in Hn as ([an ang] & Hn & [= <- <-]).
  rewrite Z.geb_leb in H. set (net1 := if 0 <=? available an then Z.min net (available an) else net).
  assert (exists gn1, (if 0 <=? available an then (Z.min net (available an), gn || ang) else (net, gn)) = (net1, gn1)) as [gn1 E1].
  { unfold net1. destruct (0 <=? available an); by eexists. }
  rewrite E1 in H. apply bind_ok in H as ([cl cg] & Hc & H). unfold get_account_cpu_limit in Hc.
  apply bind_ok in Hc as ([ac acg] & Hc & [= <- <-]).
  rewrite Z.geb_leb in H. set (cpu1 := if 0 <=? available ac then Z.min cpu (available ac) else cpu).
  assert (exists gc1, (if 0 <=? available ac then (Z.min cpu (available ac), gc || acg) else (cpu, gc)) = (cpu1, gc1)) as [gc1 E2].
  { unfold cpu1. destruct (0 <=? available ac); by eexists. }
  rewrite E2 in H. destruct (IH _ _ _ _ H) as (H1 & H2 & H3 & H4 & H5). clear IH H E1 E2.
  assert (net1 <= net /\ (0 <= available an -> net1 <= available an) /\ (0 <= net -> 0 <= net1)) as (N1 & N2 & N3).
  { unfold net1. destruct (Z.leb_spec 0 (available an)); split_and!; lia. }
  assert (cpu1 <= cpu /\ (0 <= available ac -> cpu1 <= available ac) /\ (0 <= cpu -> 0 <= cpu1)) as (C1 & C2 & C3).
  { unfold cpu1. destruct (Z.leb_spec 0 (available ac)); split_and!; lia. }
  split_and!; try lia. intros b [->|Hb]%elem_of_cons; [|by apply H5].
  split; [exists an, ang|exists ac, acg]; (split; [done|lia]).
Qed.

(** ** Billing the accounts *)

(** There is room for some units: the sums fit into a uint64_t. *)
Definition acc_room (units w : Z) (a : usage_accumulator) : Prop :=
  units <= max_raw_value /\ consumed a + units <= UINT64_MAX /\ value_ex a + contribution units w <= UINT64_MAX.

Section billing.
Context (cpu net slot : Z) (Hcpu : is_uint 64 cpu) (Hnet : is_uint 64 net) (Hslot : is_uint 32 slot).

(** The accumulator is at the slot and has room. *)
Definition acc_ready (units w : Z) (a : usage_accumulator) : Prop :=
  last_ordinal a = slot /\ acc_room units w a.

Lemma acc_add_ready units w a :
  accumulator_typed a -> is_uint 64 units -> 0 < w < 2 ^ 32 -> acc_ready units w a ->
  acc_add units slot w a = Ok (mk_accumulator slot (value_ex a + contribution units w) (consumed a + units)).
Proof.
  intros Ha Hu Hw (Hl & Hr & Hc & Hv). unfold acc_add. rewrite add_spec by done. unfold add_error.
  rewrite (proj2 (Z.ltb_ge _ _) Hr), (proj2 (Z.ltb_ge _ _) Hc), (proj2 (Z.ltb_ge _ _) Hv). cbn [orb].
  rewrite Hl, Z.ltb_irrefl. cbn [andb]. unfold add_result, decayed. by rewrite Hl, Z.eqb_refl.
Qed.

(** The shares of an account cover what it is billed. *)
Definition account_ready (r : rl_db) (a : Z) : Prop :=
  exists u l, usages r !! a = Some u /\ get_account_limits r a = Ok l /\
    acc_ready net (account_net_usage_average_window (config r)) (net_usage u) /\
    acc_ready cpu (account_cpu_usage_average_window (config r)) (cpu_usage u) /\
    check_share (cpu_weight l) (total_cpu_weight (state r)) (virtual_cpu_limit (state r))
      (account_cpu_usage_average_window (config r))
      (value_ex (cpu_usage u) + contribution cpu (account_cpu_usage_average_window (config r))) tx_cpu_usage_exceeded = Ok tt /\
    check_share (net_weight l) (total_net_weight (state r)) (virtual_net_limit (state r))
      (account_net_usage_average_window (config r))
      (value_ex (net_usage u) + contribution net (account_net_usage_average_window (config r))) tx_net_usage_exceeded = Ok tt.

Lemma verify_mem_fails r a l u :
  get_account_limits r a = Ok l -> usages r !! a = Some u ->
  verify_account_mem_usage r a = Ok tt \/ verify_account_mem_usage r a = Err (Throw mem_usage_exceeded).
Proof.
  intros Hl Hu. unfold verify_account_mem_usage. rewrite Hl. cbn [mbind result_bind]. unfold db_get. rewrite Hu.
  cbn [mbind result_bind]. destruct (_ >=? 0); [|by left]. destruct (_ <=? _); [by left|by right].
Qed.

Lemma bill_account r a :
  rl_inv r -> account_ready r a ->
  match add_transaction_usage_one cpu net slot r a with
  | Ok r' => limits r' = limits r /\ state r' = state r /\ config r' = config r /\
             forall b, b <> a -> usages r' !! b = usages r !! b
  | Err e => e = Throw mem_usage_exceeded
  end.
Proof.
  intros Hinv (u & l & Hu & Hl & Hn & Hc & Hsc & Hsn). destruct (inv_usages _ Hinv _ _ Hu) as (Htn & Htc & _).
  destruct (inv_config _ Hinv) as (_ & _ & Hw1 & Hw2).
  unfold add_transaction_usage_one. unfold db_get. rewrite Hu, Hl. cbn [mbind result_bind].
  destruct (verify_mem_fails r a l u Hl Hu) as [-> | ->]; cbn [mbind result_bind]; [|done].
  rewrite (acc_add_ready net _ _ Htn Hnet Hw2 Hn). cbn [mbind result_bind].
  rewrite (acc_add_ready cpu _ _ Htc Hcpu Hw1 Hc). cbn [mbind result_bind cpu_usage net_usage value_ex].
  rewrite Hsc, Hsn. cbn [mbind result_bind].
  match goal with |- context [verify_account_mem_usage ?r1 a] =>
    destruct (verify_mem_fails r1 a l (mk_usage (mk_accumulator slot (value_ex (net_usage u) + contribution net
      (account_net_usage_average_window (config r))) (consumed (net_usage u) + net)) (mk_accumulator slot (value_ex (cpu_usage u) +
      contribution cpu (account_cpu_usage_average_window (config r))) (consumed (cpu_usage u) + cpu))
      (u64 (mem_usage u + transaction_id_net_usage)))) as [-> | ->] end; cbn [mbind result_bind]; [|by cbn; rewrite lookup_insert_eq| |done].
  - exact Hl.
  - split_and!; try done. intros b Hb. cbn. by rewrite lookup_insert_ne.
Qed.

Lemma bill_each r accounts :
  rl_inv r -> NoDup accounts -> (forall a, a ∈ accounts -> account_ready r a) ->
  match for_accounts (add_transaction_usage_one cpu net slot) r accounts with
  | Ok r' => state r' = state r /\ config r' = config r
  | Err e => e = Throw mem_usage_exceeded
  end.
Proof.
  intros Hinv Hnd. revert r Hinv. induction Hnd as [|a accounts Ha Hnd IH]; intros r Hinv Hready; cbn [for_accounts]; [done|].
  pose proof (bill_account r a Hinv (Hready a ltac:(left))) as Hone.
  destruct (add_transaction_usage_one cpu net slot r a) as [r1|e] eqn:E; cbn [mbind result_bind]; [|done].
  destruct Hone as (El & Es & Ec & Eu). destruct (add_transaction_usage_one_inv _ _ _ _ _ _ Hinv Hcpu Hnet Hslot E) as (Hinv1 & _ & _).
  specialize (IH r1 Hinv1). destruct (for_accounts _ r1 accounts); cbn in *; rewrite <- ?Es, <- ?Ec; apply IH;
    intros b Hb; destruct (Hready b ltac:(by right)) as (u & l & Hu & Hl & H); exists u, l; unfold get_account_limits in *;
    rewrite El, Es, Ec, Eu by (intros ->; done); done.
Qed.

(** When every account is ready and the block has room, only memory can lack. *)
Lemma bill_all r accounts :
  rl_inv r -> NoDup accounts -> (forall a, a ∈ accounts -> account_ready r a) ->
  pending_cpu_usage (state r) + cpu <= max (cpu_limit_parameters (config r)) ->
  pending_net_usage (state r) + net <= max (net_limit_parameters (config r)) ->
  match add_transaction_usage r accounts cpu net slot with Ok _ => True | Err e => e = Throw mem_usage_exceeded end.
Proof.
  intros Hinv Hnd Hready Hc Hn. unfold add_transaction_usage. pose proof (bill_each r accounts Hinv Hnd Hready) as H.
  destruct (for_accounts _ r accounts) as [r'|e]; cbn [mbind result_bind]; [|done]. destruct H as [Es Ec].
  destruct (inv_config _ Hinv) as ((Ht1 & _) & (Ht2 & _) & _). destruct (inv_state _ Hinv) as (_ & _ & Hp1 & Hp2 & _).
  destruct Ht1 as (Hm1 & _), Ht2 as (Hm2 & _). unfold is_uint in *.
  cbn [state with_state config set_pending_usage pending_cpu_usage pending_net_usage]. rewrite Es, Ec.
  rewrite !(wrap_id 64) by (unfold is_uint; lia). cbn [with_state config state pending_cpu_usage pending_net_usage].
  by rewrite (proj2 (Z.leb_le _ _) Hc), (proj2 (Z.leb_le _ _) Hn).
Qed.

End billing.

(** ** From the start of a transaction to its end *)

(** The manager when a transaction starts: the averages are taken over windows
    that are not too long, and the limits leave the products of the shares below
    the 128 bits they are computed in. *)
Record manager_ready (r : rl_db) : Prop := {
  mr_inv : rl_inv r;
  mr_net_window : account_net_usage_average_window (config r) <= rate_limiting_precision;
  mr_cpu_window : account_cpu_usage_average_window (config r) <= rate_limiting_precision;
  mr_net_virtual : virtual_net_limit (state r) < 2 ^ 33;
  mr_cpu_virtual : virtual_cpu_limit (state r) < 2 ^ 33;
  mr_net_pending : pending_net_usage (state r) <= max (net_limit_parameters (config r));
  mr_cpu_pending : pending_cpu_usage (state r) <= max (cpu_limit_parameters (config r));
  mr_cpu_max : max (cpu_limit_parameters (config r)) <= INT64_MAX
}.

Definition at_slot (slot : Z) (r : rl_db) (a : Z) : Prop :=
  exists u, usages r !! a = Some u /\ last_ordinal (net_usage u) = slot /\ last_ordinal (cpu_usage u) = slot.

Record billing_ready (env : trx_env) (ctx : transaction_context) : Prop := {
  br_manager : manager_ready (rl ctx);
  br_slot a : a ∈ bill_to_accounts ctx -> at_slot (pending_slot env) (rl ctx) a;
  br_net : pending_net_usage (state (rl ctx)) + net_limit (tx_net ctx) <= max (net_limit_parameters (config (rl ctx)));
  br_cpu : pending_cpu_usage (state (rl ctx)) + objective_duration_limit (tx_cpu ctx) <=
           max (cpu_limit_parameters (config (rl ctx)))
}.

Lemma pending_slot_range env : is_uint 32 (pending_slot env).
Proof. apply wrap_range. lia. Qed.

(** Updating the usages brings the accounts to the slot. *)
Lemma update_one_slot slot r a r' :
  rl_inv r -> is_uint 32 slot -> update_account_usage_one slot r a = Ok r' ->
  limits r' = limits r /\ state r' = state r /\ config r' = config r /\
  at_slot slot r' a /\ forall b, at_slot slot r b -> at_slot slot r' b.
Proof.
  intros Hinv Hs H. unfold update_account_usage_one in H.
  apply bind_ok in H as (u & Hu & H). apply db_get_ok in Hu.
  apply bind_ok in H as (n & Hn & H). apply bind_ok in H as (c & Hc & [= <-]).
  destruct (inv_usages _ Hinv _ _ Hu) as (Htn & Htc & _). destruct (inv_config _ Hinv) as (_ & _ & Hw1 & Hw2).
  assert (is_uint 64 0) as H0 by (vm_compute; done).
  apply acc_add_ok in Hn; [|done..]. apply acc_add_ok in Hc; [|done..]. subst n c.
  assert (at_slot slot (with_usages r (<[a := mk_usage (add_result (net_usage u) 0 slot (account_net_usage_average_window (config r)))
    (add_result (cpu_usage u) 0 slot (account_cpu_usage_average_window (config r))) (mem_usage u)]> (usages r))) a) as Ha.
  { eexists. cbn. rewrite lookup_insert_eq. by split. }
  split_and!; try done. intros b Hb. destruct (decide (b = a)) as [->|Hne]; [exact Ha|].
  destruct Hb as (ub & Hub & Hb). exists ub. split; [|done]. cbn. by rewrite lookup_insert_ne.
Qed.

Lemma update_usage_slot slot accounts r r' :
  rl_inv r -> is_uint 32 slot -> update_account_usage r accounts slot = Ok r' ->
  rl_inv r' /\ limits r' = limits r /\ state r' = state r /\ config r' = config r /\
  (forall a, a ∈ accounts \/ at_slot slot r a -> at_slot slot r' a).
Proof.
  intros Hinv Hs H. pose proof (update_account_usage_inv _ _ _ _ Hinv Hs H) as Hinv'. split; [done|].
  clear Hinv'. unfold update_account_usage in H. revert r Hinv H.
  induction accounts as [|a accounts IH]; intros r Hinv H; cbn [for_accounts] in H.
  - injection H as <-. split_and!; try done. intros a [Ha|Ha]; [inversion Ha|done].
  - apply bind_ok in H as (r1 & H1 & H). destruct (update_one_slot _ _ _ _ Hinv Hs H1) as (El & Es & Ec & Ha & Hb).
    assert (rl_inv r1) as Hinv1.
    { apply (update_account_usage_inv r [a] slot); [done|done|]. unfold update_account_usage. cbn [for_accounts]. by rewrite H1. }
    destruct (IH r1 Hinv1 H) as (El' & Es' & Ec' & Hall). split_and!; [congruence..|].
    intros b [[->|Hin]%elem_of_cons|Hin]; apply Hall; auto.
Qed.

Lemma initial_net_limit_bound env inp r : is_uint 64 (get_block_net_limit r) -> fst (initial_net_limit env inp r) <= get_block_net_limit r.
Proof.
  intros Hr. unfold initial_net_limit. destruct (Z.leb_spec (max_transaction_net_usage (configuration env)) (get_block_net_limit r));
    destruct (_ && _) eqn:E; cbn [fst]; lia.
Qed.

Lemma initial_duration_limit_bound env inp r :
  fst (initial_duration_limit env inp r) <= i64 (get_block_cpu_limit r).
Proof.
  unfold initial_duration_limit.
  destruct (Z.leb_spec (max_transaction_cpu_usage (configuration env)) (i64 (get_block_cpu_limit r)));
    cbv zeta iota beta; destruct (max_cpu_usage_ms (trx inp) >? 0); cbn [fst]; try lia;
    match goal with |- context [milliseconds ?m <=? ?l] => destruct (Z.leb_spec (milliseconds m) l) end; cbn [fst]; lia.
Qed.

Lemma add_net_usage_ok env u ctx ctx' :
  add_net_usage env u ctx = Ok ctx' -> ctx' = with_net ctx (with_usage (tx_net ctx) (u64 (trx_net_usage (tx_net ctx) + u))).
Proof. unfold add_net_usage. intros H. by apply bind_ok in H as ([] & _ & [= <-]). Qed.

(** What [init] leaves. *)
Lemma init_effect env inp usage now ctx ctx' :
  init env inp usage now ctx = Ok ctx' ->
  update_account_usage (rl ctx) (ids_in_order (bill_to_accounts ctx')) (pending_slot env) = Ok (rl ctx') /\
  net_limit (tx_net ctx') = fst (initial_net_limit env inp (rl ctx)) /\
  objective_duration_limit (tx_cpu ctx') = fst (initial_duration_limit env inp (rl ctx)) /\
  is_initialized ctx' = true.
Proof.
  intros H. unfold init in H. apply bind_ok in H as ([] & _ & H). cbv zeta in H.
  destruct (initial_net_limit env inp (rl ctx)) as [limit blk].
  destruct (initial_duration_limit env inp (rl ctx)) as [duration code].
  apply bind_ok in H as ([] & _ & H). apply bind_ok in H as (r & Hr & H).
  apply bind_ok in H as ([[[an ac] gn] gc] & _ & H).
  destruct (if Z.min _ _ <? _ then _ else _) as [eager due].
  destruct (if i64 (ac + leeway inp) <=? _ then _ else _) as [cur code'].
  destruct (if explicit_billed_cpu_time inp || _ then _ else _) as [cur' dcode].
  apply bind_ok in H as ([] & _ & H). apply bind_ok in H as (ctx1 & H1 & H).
  apply bind_ok in H as ([] & _ & H). apply bind_ok in H as (t & _ & [= <-]).
  assert (exists u, ctx1 = with_net (with_payers ctx (bill_to_accounts ctx ∪ payers env inp))
    (mk_net_account limit due (net_limit_due_to_greylist (tx_net ctx) || gn) (eager / 8 * 8) u)) as [u ->].
  { destruct (usage >? 0); [apply add_net_usage_ok in H1 as ->|injection H1 as <-]; by eexists. }
  split; [exact Hr|]. by split.
Qed.

(** Initialization brings a context to a state it can be billed in. *)
Lemma init_ready env inp usage now ctx ctx' :
  manager_ready (rl ctx) -> init env inp usage now ctx = Ok ctx' -> billing_ready env ctx'.
Proof.
  intros [Hinv W1 W2 V1 V2 P1 P2 M] H. apply init_effect in H as (Hu & Hn & Hd & _).
  destruct (update_usage_slot _ _ _ _ Hinv (pending_slot_range env) Hu) as (Hinv' & El & Es & Ec & Hslot).
  destruct (inv_config _ Hinv) as ((Ht1 & _) & (Ht2 & _) & _). destruct (inv_state _ Hinv) as (_ & _ & Hp1 & Hp2 & _).
  destruct Ht1 as (Hm1 & _), Ht2 as (Hm2 & _). unfold is_uint in *.
  assert (get_block_net_limit (rl ctx) = max (net_limit_parameters (config (rl ctx))) - pending_net_usage (state (rl ctx))) as Gn.
  { apply wrap_id. unfold is_uint. lia. }
  assert (i64 (get_block_cpu_limit (rl ctx)) = max (cpu_limit_parameters (config (rl ctx))) - pending_cpu_usage (state (rl ctx))) as Gc.
  { unfold get_block_cpu_limit. rewrite wrap_id by (unfold is_uint; lia). apply i64_id. lia. }
  split.
  - by split; rewrite ?Es, ?Ec.
  - intros a Ha. apply Hslot. left. by apply elem_of_ids_in_order.
  - rewrite Es, Ec, Hn. pose proof (initial_net_limit_bound env inp (rl ctx)) as Hb. unfold is_uint in Hb. lia.
  - rewrite Es, Ec, Hd. pose proof (initial_duration_limit_bound env inp (rl ctx)). lia.
Qed.

(** What happens to a context between its initialization and its end: net usage
    is added, the timer is paused, resumed and fires, memory is used, limits of
    accounts are set, accounts are made, a delayed transaction is stored, and
    other tables change. *)
Inductive trx_step (env : trx_env) (inp : trx_input) (ctx : transaction_context) : transaction_context -> Prop :=
| step_net_usage u ctx' : add_net_usage env u ctx = Ok ctx' -> trx_step env inp ctx ctx'
| step_pause now : trx_step env inp ctx (with_cpu ctx (pause_billing_timer inp now (tx_cpu ctx)))
| step_resume now start_now c :
    resume_billing_timer inp now start_now (tx_cpu ctx) = Ok c -> trx_step env inp ctx (with_cpu ctx c)
| step_timer_fires now :
    trx_step env inp ctx (with_cpu ctx (with_timer (tx_cpu ctx) (timer_fires now (transaction_timer (tx_cpu ctx)))))
| step_memory a d ctx' : context_add_mem_usage a d ctx = Ok ctx' -> trx_step env inp ctx ctx'
| step_schedule delay ctx' : schedule_transaction env inp delay ctx = Ok ctx' -> trx_step env inp ctx ctx'
| step_limits a m n c r b :
    is_sint 64 m -> is_sint 64 n -> is_sint 64 c -> set_account_limits (rl ctx) a m n c = Ok (r, b) ->
    trx_step env inp ctx (with_trx_db ctx (with_resources (tx_db ctx) r))
| step_account a r :
    initialize_account (rl ctx) a = Ok r -> trx_step env inp ctx (with_trx_db ctx (with_resources (tx_db ctx) r))
| step_tables db : resource_limits db = rl ctx -> trx_step env inp ctx (with_trx_db ctx db).

(** A change of the manager that keeps what billing looks at. *)
Definition rl_keeps (r r' : rl_db) : Prop :=
  rl_inv r' /\ state r' = state r /\ config r' = config r /\ forall s a, at_slot s r a -> at_slot s r' a.

Lemma rl_keeps_refl r : rl_inv r -> rl_keeps r r.
Proof. done. Qed.

Lemma ready_keeps env ctx ctx' :
  billing_ready env ctx -> rl_keeps (rl ctx) (rl ctx') -> bill_to_accounts ctx' = bill_to_accounts ctx ->
  net_limit (tx_net ctx') = net_limit (tx_net ctx) ->
  objective_duration_limit (tx_cpu ctx') = objective_duration_limit (tx_cpu ctx) -> billing_ready env ctx'.
Proof.
  intros [[Hinv W1 W2 V1 V2 P1 P2 M] Hs Hn Hc] (Hinv' & Es & Ec & Hk) Eb En Eo. split.
  - by split; rewrite ?Es, ?Ec.
  - intros a. rewrite Eb. intros Ha. by apply Hk, Hs.
  - by rewrite Es, Ec, En.
  - by rewrite Es, Ec, Eo.
Qed.

Lemma mem_usage_keeps r a d r' : rl_inv r -> add_pending_mem_usage r a d = Ok r' -> rl_keeps r r'.
Proof.
  intros Hinv H. pose proof (add_pending_mem_usage_inv _ _ _ _ Hinv H) as Hinv'. unfold add_pending_mem_usage in H.
  destruct (d =? 0); [injection H as <-; done|]. apply bind_ok in H as (u & Hu%db_get_ok & H).
  apply bind_ok in H as ([] & _ & H). apply bind_ok in H as ([] & _ & H). apply bind_ok in H as ([] & _ & [= <-]).
  split_and!; try done. intros s b (ub & Hub & Hb). destruct (decide (b = a)) as [->|Hne].
  - eexists. cbn. rewrite lookup_insert_eq. split; [done|]. cbn. congruence.
  - exists ub. cbn. by rewrite lookup_insert_ne.
Qed.

Lemma set_limits_keeps r a m n c r' b :
  rl_inv r -> is_sint 64 m -> is_sint 64 n -> is_sint 64 c -> set_account_limits r a m n c = Ok (r', b) -> rl_keeps r r'.
Proof.
  intros Hinv Hm Hn Hc H. pose proof (set_account_limits_inv _ _ _ _ _ _ _ Hinv Hm Hn Hc H) as Hinv'. split; [done|].
  unfold set_account_limits in H. apply bind_ok in H as ([r1 l] & H1 & [= <- _]).
  assert (usages r1 = usages r /\ state r1 = state r /\ config r1 = config r) as (Eu & Es & Ec).
  { destruct (limits r !! (true, a)); [by injection H1 as <- _|]. apply bind_ok in H1 as (x & _ & H1).
    by apply bind_ok in H1 as (y & _ & [= <- _]). }
  split_and!; [done|done|]. intros s b' (u & Hu & H). exists u. cbn. by rewrite Eu.
Qed.

Lemma new_account_keeps r a r' : rl_inv r -> initialize_account r a = Ok r' -> rl_keeps r r'.
Proof.
  intros Hinv H. pose proof (initialize_account_inv _ _ _ Hinv H) as Hinv'. split; [done|].
  unfold initialize_account in H. apply bind_ok in H as (l & _ & H). apply bind_ok in H as (us & Hus & [= <-]).
  apply db_create_ok in Hus as [Hnone ->]. split_and!; [done|done|]. intros s b (u & Hu & H). exists u. cbn in *.
  rewrite lookup_insert_ne; [done|congruence].
Qed.

Lemma memory_step_ready env ctx a d ctx' :
  billing_ready env ctx -> context_add_mem_usage a d ctx = Ok ctx' -> billing_ready env ctx'.
Proof.
  intros Hr H. pose proof (mr_inv _ (br_manager _ _ Hr)) as Hinv. unfold context_add_mem_usage, trx_add_mem_usage in H.
  apply bind_ok in H as (base & Hb & [= <-]). apply bind_ok in Hb as (r & Hm & [= <-]).
  apply (ready_keeps env ctx _ Hr); [|done..]. exact (mem_usage_keeps _ _ _ _ Hinv Hm).
Qed.

Lemma net_step_ready env u ctx ctx' : billing_ready env ctx -> add_net_usage env u ctx = Ok ctx' -> billing_ready env ctx'.
Proof.
  intros Hr ->%add_net_usage_ok. apply (ready_keeps env ctx _ Hr); [|done..]. apply rl_keeps_refl, (br_manager _ _ Hr).
Qed.

Lemma schedule_step_ready env inp delay ctx ctx' :
  billing_ready env ctx -> schedule_transaction env inp delay ctx = Ok ctx' -> billing_ready env ctx'.
Proof.
  intros Hr H. unfold schedule_transaction in H. apply bind_ok in H as (ctx1 & H1 & H).
  assert (billing_ready env ctx1) as Hr1.
  { destruct (delay_sec (trx inp) =? 0); [by eapply net_step_ready|by injection H1 as <-]. }
  apply bind_ok in H as (ws & _ & H). apply bind_ok in H as ([gtos cgto] & _ & H).
  eapply memory_step_ready; [|exact H]. apply (ready_keeps env ctx1 _ Hr1); [|done..].
  apply rl_keeps_refl, (br_manager _ _ Hr1).
Qed.

Lemma trx_step_ready env inp ctx ctx' : billing_ready env ctx -> trx_step env inp ctx ctx' -> billing_ready env ctx'.
Proof.
  intros Hr H. pose proof (mr_inv _ (br_manager _ _ Hr)) as Hinv. destruct H.
  - by eapply net_step_ready.
  - apply (ready_keeps env ctx _ Hr); [by apply rl_keeps_refl|done|done|]. cbn. unfold pause_billing_timer. by destruct (_ || _).
  - apply (ready_keeps env ctx _ Hr); [by apply rl_keeps_refl|done|done|]. cbn. unfold resume_billing_timer in H.
    destruct (_ || _); [by injection H as <-|]. cbv zeta in H. destruct (if _ <=? _ then _ else _) as [cur code].
    by apply bind_ok in H as (t & _ & [= <-]).
  - by apply (ready_keeps env ctx _ Hr); [apply rl_keeps_refl|..].
  - by eapply memory_step_ready.
  - by eapply schedule_step_ready.
  - apply (ready_keeps env ctx _ Hr); [|done..]. by eapply (set_limits_keeps _ a m n c).
  - apply (ready_keeps env ctx _ Hr); [|done..]. by eapply (new_account_keeps _ a).
  - apply (ready_keeps env ctx _ Hr); [|done..]. unfold rl. cbn. rewrite H. by apply rl_keeps_refl.
Qed.

(** ** The end of a transaction *)

Lemma use_permissions_resources env auths db db' :
  use_permissions env auths db = Ok db' -> resource_limits db' = resource_limits db.
Proof.
  revert db. induction auths as [|auth auths IH]; intros db H; cbn [use_permissions] in H; [by injection H as <-|].
  apply bind_ok in H as (p & _ & H). apply bind_ok in H as (db1 & H1 & H). rewrite (IH _ H).
  unfold update_permission_usage in H1. apply bind_ok in H1 as (puo & _ & H1). by apply bind_ok in H1 as (us & _ & [= <-]).
Qed.

Lemma net_checked env n : skip_trx_checks env = false -> check_net_usage env n = Ok tt -> trx_net_usage n <= eager_net_limit n.
Proof.
  unfold check_net_usage. intros ->. cbn [negb]. destruct (Z.gtb_spec (trx_net_usage n) (eager_net_limit n)); [|done].
  by destruct (net_limit_due_to_block n), (net_limit_due_to_greylist n).
Qed.

Lemma cpu_checked env b ac c :
  skip_trx_checks env = false -> validate_cpu_usage_to_bill env b ac true c = Ok tt ->
  min_transaction_cpu_usage (configuration env) <= b /\ (0 < b -> b <= ac /\ b <= objective_duration_limit c).
Proof.
  unfold validate_cpu_usage_to_bill, validate_account_cpu_usage. intros ->. cbn [negb andb]. intros H.
  apply bind_ok in H as ([] & Hm & H). apply ine_assert_ok in Hm. split; [lia|]. intros Hb.
  rewrite (proj2 (Z.gtb_lt b 0) Hb) in H. cbn [andb] in H.
  destruct (Z.leb_spec ac (objective_duration_limit c)); cbn [negb andb] in H; [|destruct (_ =? _) in H];
    rewrite ?andb_false_r, ?andb_true_r in H; try destruct (cpu_limit_due_to_greylist c);
    apply ine_assert_ok in H; lia.
Qed.

(** The checks leave usages that the accounts can pay and that the block has
    room for. *)
Lemma checks_effect env inp now ctx ctx' :
  skip_trx_checks env = false -> finalize_checks env inp now ctx = Ok ctx' ->
  rl ctx' = rl ctx /\ bill_to_accounts ctx' = bill_to_accounts ctx /\
  is_uint 64 (trx_net_usage (tx_net ctx')) /\ trx_net_usage (tx_net ctx') <= net_limit (tx_net ctx) /\
  min_transaction_cpu_usage (configuration env) <= billed_cpu_time_us (tx_cpu ctx') /\
  (0 < billed_cpu_time_us (tx_cpu ctx') -> billed_cpu_time_us (tx_cpu ctx') <= objective_duration_limit (tx_cpu ctx)) /\
  forall a, a ∈ bill_to_accounts ctx ->
    (exists arl g, get_account_net_limit_ex (rl ctx) a (account_greylist_limit env false a) = Ok (arl, g) /\
       (0 <= available arl -> trx_net_usage (tx_net ctx') <= available arl)) /\
    (exists arl g, get_account_cpu_limit_ex (rl ctx) a (account_greylist_limit env false a) = Ok (arl, g) /\
       (0 <= available arl -> 0 < billed_cpu_time_us (tx_cpu ctx') -> billed_cpu_time_us (tx_cpu ctx') <= available arl)).
Proof.
  intros Hskip H. unfold finalize_checks in H. apply bind_ok in H as ([] & _ & H). apply bind_ok in H as (db & Hdb & H).
  assert (resource_limits db = resource_limits (tx_db ctx)) as Er.
  { destruct (is_input ctx); [by eapply use_permissions_resources|by injection Hdb as <-]. }
  cbv zeta in H. assert (rl (with_trx_db ctx db) = rl ctx) as Erl by exact Er. rewrite Erl in H.
  apply bind_ok in H as ([] & _ & H). apply bind_ok in H as ([[[an ac] gn] gc] & Hmax & H).
  unfold max_bandwidth_billed_accounts_can_pay in Hmax. apply bind_ok in Hmax as ([[[n0 c0] gn0] gc0] & Hpay & Hmax).
  apply bind_ok in Hmax as ([] & _ & [= -> -> -> ->]). apply accounts_can_pay_spec in Hpay as (Ln & Lc & Pn & Pc & Hall).
  assert (large_number_no_overflow < 2 ^ 62) as HL by done. assert (0 <= large_number_no_overflow) as HL0 by done.
  specialize (Pn HL0). specialize (Pc HL0). cbn [tx_net tx_cpu with_trx_db bill_to_accounts] in H, Hall.
  rewrite (wrap_id 64 an) in H by (unfold is_uint; lia).
  assert (exists limit blk, (if an <=? net_limit (tx_net ctx) then (an, false) else (net_limit (tx_net ctx), net_limit_due_to_block (tx_net ctx)))
    = (limit, blk) /\ limit <= an /\ limit <= net_limit (tx_net ctx)) as (limit & blk & El & L1 & L2).
  { destruct (Z.leb_spec an (net_limit (tx_net ctx))); do 2 eexists; (split; [done|lia]). }
  rewrite El in H. clear El.
  assert (exists duration code, (if ac <=? objective_duration_limit (tx_cpu ctx) then (ac, code_value tx_cpu_usage_exceeded)
    else (objective_duration_limit (tx_cpu ctx), billing_timer_exception_code (tx_cpu ctx))) = (duration, code) /\
    duration <= ac /\ duration <= objective_duration_limit (tx_cpu ctx)) as (duration & code & Ed & D1 & D2).
  { destruct (Z.leb_spec ac (objective_duration_limit (tx_cpu ctx))); do 2 eexists; (split; [done|lia]). }
  rewrite Ed in H. clear Ed. apply bind_ok in H as ([] & Hnet & H). apply bind_ok in H as ([] & Hcpu & [= <-]).
  apply net_checked in Hnet; [|done]. apply cpu_checked in Hcpu as [Hmin Hb]; [|done]. cbn [trx_net_usage eager_net_limit] in Hnet.
  assert (forall c, objective_duration_limit (update_billed_cpu_time env inp now c) = objective_duration_limit c) as Eo.
  { intros c. unfold update_billed_cpu_time. by destruct (explicit_billed_cpu_time inp). }
  rewrite Eo in Hb. cbn [objective_duration_limit] in Hb.
  split; [exact Er|]. split; [done|]. split; [by apply wrap_range|]. cbn [tx_net with_cpu with_net trx_net_usage tx_cpu].
  split; [lia|]. split; [done|]. split; [intros Hpos; specialize (Hb Hpos); lia|].
  intros a Ha. destruct (Hall a (proj2 (elem_of_ids_in_order _ _) Ha)) as [(arl & g & E1 & E2) (arl' & g' & E3 & E4)].
  split; [exists arl, g|exists arl', g']; (split; [done|]); [intros Hav; specialize (E2 Hav); lia|].
  intros Hav Hpos. specialize (E4 Hav). specialize (Hb Hpos). lia.
Qed.

Lemma account_limits_typed r a l : rl_inv r -> get_account_limits r a = Ok l -> limits_typed l.
Proof.
  intros Hinv H. unfold get_account_limits in H. destruct (limits r !! (true, a)) eqn:E.
  - injection H as <-. by eapply inv_limits.
  - apply db_get_ok in H. by eapply inv_limits.
Qed.

(** What the checks establish for an account that is billed. *)
Lemma checked_account env ctx cpu net a :
  billing_ready env ctx -> a ∈ bill_to_accounts ctx -> 0 < net -> 0 < cpu ->
  (forall u, usages (rl ctx) !! a = Some u ->
     acc_room net (account_net_usage_average_window (config (rl ctx))) (net_usage u) /\
     acc_room cpu (account_cpu_usage_average_window (config (rl ctx))) (cpu_usage u)) ->
  (exists arl g, get_account_net_limit_ex (rl ctx) a (account_greylist_limit env false a) = Ok (arl, g) /\
     (0 <= available arl -> net <= available arl)) ->
  (exists arl g, get_account_cpu_limit_ex (rl ctx) a (account_greylist_limit env false a) = Ok (arl, g) /\
     (0 <= available arl -> cpu <= available arl)) ->
  account_ready cpu net (pending_slot env) (rl ctx) a.
Proof.
  intros [[Hinv W1 W2 V1 V2 _ _ _] Hs _ _] Ha Hn Hc Hroom (arl & g & En & Ln) (arl' & g' & Ec & Lc).
  destruct (Hs a Ha) as (u & Hu & S1 & S2). destruct (Hroom u Hu) as [R1 R2].
  destruct (inv_usages _ Hinv _ _ Hu) as ((_ & Hvn & _) & (_ & Hvc & _) & _).
  destruct (inv_config _ Hinv) as (_ & _ & Hw1 & Hw2). destruct (inv_state _ Hinv) as (_ & _ & _ & _ & Hv1 & Hv2).
  unfold get_account_net_limit_ex, get_account_cpu_limit_ex, db_get in En, Ec. rewrite Hu in En, Ec. cbn [mbind result_bind] in En, Ec.
  apply bind_ok in En as (l & Hl & En). rewrite Hl in Ec. cbn [mbind result_bind] in Ec.
  destruct (account_limits_typed _ _ _ Hinv Hl) as (T1 & T2 & _).
  exists u, l. split; [done|]. split; [done|]. split; [by split|]. split; [by split|].
  unfold is_uint in *. destruct R1 as (_ & _ & R1), R2 as (_ & _ & R2).
  assert (forall n w, 0 < n -> 0 < w -> 0 <= contribution n w) as Hcontr.
  { intros n w H1 H2. unfold contribution. apply ceil_div_nonneg; [lia|]. unfold rate_limiting_precision. lia. }
  pose proof (Hcontr net (account_net_usage_average_window (config (rl ctx))) Hn ltac:(lia)).
  pose proof (Hcontr cpu (account_cpu_usage_average_window (config (rl ctx))) Hc ltac:(lia)).
  split; eapply account_limit_covers; try eassumption; try apply inv_cpu_range; try apply inv_net_range; try done;
    unfold is_uint; lia.
Qed.

(** C19: billing the accounts, the last step of a transaction of which the code
    says that it should never fail, can only fail for lack of memory, if there
    is some net usage and some time to bill.  From the initialization of a
    context whose checks are not skipped, through any uses of net, time and
    memory, changes of limits and new accounts, once the checks at the end have
    passed, the shares of all billed accounts, greylisted or not, and the
    limits of the block cover what is billed, as long as it fits the usage
    accumulators: what remains is the memory that is charged for the
    transaction itself.  Without net usage to bill, as for a deferred
    transaction, billing can fail for net usage: [deferred_billing_fails]. *)
Theorem billing_fails_for_memory_only env inp usage now ctx0 ctx1 ctx2 now' ctx3 :
  skip_trx_checks env = false -> manager_ready (rl ctx0) ->
  init env inp usage now ctx0 = Ok ctx1 -> rtc (trx_step env inp) ctx1 ctx2 ->
  finalize_checks env inp now' ctx2 = Ok ctx3 ->
  0 < trx_net_usage (tx_net ctx3) -> 0 < billed_cpu_time_us (tx_cpu ctx3) ->
  (forall a u, a ∈ bill_to_accounts ctx3 -> usages (rl ctx3) !! a = Some u ->
     acc_room (trx_net_usage (tx_net ctx3)) (account_net_usage_average_window (config (rl ctx3))) (net_usage u) /\
     acc_room (billed_cpu_time_us (tx_cpu ctx3)) (account_cpu_usage_average_window (config (rl ctx3))) (cpu_usage u)) ->
  match bill_accounts env ctx3 with Ok _ => True | Err e => e = Throw mem_usage_exceeded end.
Proof.
  intros Hskip Hm Hinit Hrun Hchecks Hnet Hcpu Hroom.
  assert (billing_ready env ctx2) as Hr.
  { pose proof (init_ready _ _ _ _ _ _ Hm Hinit) as Hr. clear Hinit Hchecks.
    induction Hrun as [|x y z Hxy _ IH]; [done|]. by eapply IH, trx_step_ready. }
  destruct (checks_effect _ _ _ _ _ Hskip Hchecks) as (Erl & Eb & Hu & Hn & _ & Hc & Hall).
  unfold bill_accounts. rewrite Erl, Eb in *. specialize (Hc Hcpu). destruct (br_manager _ _ Hr) as [Hinv _ _ _ _ _ _ Hmax].
  pose proof (br_net _ _ Hr) as Rn. pose proof (br_cpu _ _ Hr) as Rc. destruct (inv_state _ Hinv) as (_ & _ & Hp1 & Hp2 & _).
  unfold is_uint in Hp1, Hp2. rewrite (wrap_id 64) by (unfold is_uint; lia).
  apply bill_all; [unfold is_uint; lia|done|apply pending_slot_range|done|apply NoDup_ids_in_order| |lia|lia].
  intros a Ha%elem_of_ids_in_order. destruct (Hall a Ha) as [En (arl & g & E1 & E2)].
  apply checked_account; try done; [intros u; by apply Hroom|]. exists arl, g. split; [done|]. auto.
Qed.

(** ** Examples *)

(** A transaction of the account 7, at the slot 2000 of a chain with the default
    configuration. *)
Definition example_trx_env : trx_env :=
  mk_trx_env (mk_chain_env 946685800000000 1 3888000 6 2 (fun _ => true) false false []) default_configuration
    false 1000 [] (mk_account_lists [] [] [] [] []).
Definition example_trx : transaction := mk_transaction 0 0 0 0 0 0 [] [mk_action 7 0 [mk_permission_level 7 1] []] [].
Definition example_trx_input : trx_input :=
  mk_trx_input example_trx zero_digest 1000000 time_point_maximum 31000 false.

Definition example_context (r : rl_db) : transaction_context :=
  new_context (with_resources empty_chain_db r) empty_index empty_index example_trx_input 0 (mk_timer true None).

Definition or_else {A} (d : A) (r : outcome A) : A := match r with Ok a => a | Err _ => d end.
Definition example_started (r : rl_db) (usage : Z) : transaction_context :=
  or_else (example_context r) (init example_trx_env example_trx_input usage 1000000 (example_context r)).
Definition example_finished (r : rl_db) (usage : Z) : transaction_context :=
  or_else (example_context r) (finalize_checks example_trx_env example_trx_input 1000300 (example_started r usage)).

(** The account uses 990 of its 1000 bytes. *)
Definition example_memory : rl_db := or_else example_db (add_pending_mem_usage example_db 7 990).

(** The account used more net than its share before. *)
Definition example_overdrawn : rl_db :=
  with_usages example_db {[7 := mk_usage (mk_accumulator 2000 2000000000000 0) new_accumulator 0]}.

Lemma example_db_ready : manager_ready example_db.
Proof. split; [apply example_db_inv|by vm_compute..]. Qed.

Lemma example_memory_ready : manager_ready example_memory.
Proof. split; [eapply (add_pending_mem_usage_inv example_db 7 990); [apply example_db_inv|by vm_compute]|by vm_compute..]. Qed.

Lemma billing_fails_for_memory_only_witness :
  bill_accounts example_trx_env (example_finished example_memory 100) = Err (Throw mem_usage_exceeded) /\
  match bill_accounts example_trx_env (example_finished example_memory 100) with
  | Ok _ => True
  | Err e => e = Throw mem_usage_exceeded
  end.
Proof.
  split; [by vm_compute|].
  apply (billing_fails_for_memory_only example_trx_env example_trx_input 100 1000000 (example_context example_memory)
           (example_started example_memory 100) (example_started example_memory 100) 1000300).
  - done.
  - apply example_memory_ready.
  - by vm_compute.
  - apply rtc_refl.
  - by vm_compute.
  - by vm_compute.
  - by vm_compute.
  - intros a u Ha Hu. assert (a = 7) as ->.
    { assert (bill_to_accounts (example_finished example_memory 100) = {[7]}) as E by (by vm_compute).
      rewrite E in Ha. by apply elem_of_singleton in Ha. }
    assert (usages (rl (example_finished example_memory 100)) !! 7 =
      Some (mk_usage (mk_accumulator 2000 0 0) (mk_accumulator 2000 0 0) 990)) as E by (by vm_compute).
    rewrite E in Hu. clear Ha E. injection Hu as <-. by vm_compute.
Defined.

(** Without net usage to bill, as in a deferred transaction, an account that is
    already above its share fails the last step as well. *)
Lemma deferred_billing_fails :
  bill_accounts example_trx_env (example_finished example_overdrawn 0) = Err (Throw tx_net_usage_exceeded).
Proof. by vm_compute. Qed.

Lemma deferred_checks_pass :
  finalize_checks example_trx_env example_trx_input 1000300 (example_started example_overdrawn 0) =
  Ok (example_finished example_overdrawn 0).
Proof. by vm_compute. Qed.
