(* ===== verification/BillingTimer.v ===== *)
(** * The billing timer

    The time a transaction is billed for is measured by a start time that moves:
    pausing keeps the time so far, resuming sets the start as if the timer had
    just run that long.  Here it is shown that the time billed is the time the
    timer ran, and that the deadline moves with it.  The timer of the platform is
    armed correctly for deadlines less than a second away. *)

From S2P Require Import Prelude Exceptions Names Merkle Authority Timestamps UsageAccumulator ResourceLimits Raw Codecs.
From S2P Require Import Chainbase BlockHeader Transactions ChainConfig ProtocolFeatures ChainObjects Permissions NativeActions.
From S2P Require Import TransactionChecks TransactionContext Billing.

(** ** Pauses *)

Inductive timer_event := Pause (t : Z) | Resume (t start_now : Z).

Definition event_time (e : timer_event) : Z := match e with Pause t => t | Resume t _ => t end.

Fixpoint run_events (inp : trx_input) (es : list timer_event) (c : cpu_account) : outcome cpu_account :=
  match es with
  | [] => Ok c
  | Pause t :: es' => run_events inp es' (pause_billing_timer inp t c)
  | Resume t start_now :: es' => c ← resume_billing_timer inp t start_now c; run_events inp es' c
  end.

(** How long a timer that runs or not since some time has run at [now]. *)
Fixpoint ran (running : bool) (since : Z) (es : list timer_event) (now : Z) : Z :=
  match es with
  | [] => if running then now - since else 0
  | Pause t :: es' => (if running then t - since else 0) + ran false t es' now
  | Resume t _ :: es' => if running then ran true since es' now else ran true t es' now
  end.

Fixpoint runs_after (running : bool) (es : list timer_event) : bool :=
  match es with [] => running | Pause _ :: es' => runs_after false es' | Resume _ _ :: es' => runs_after true es' end.

(** The times of the events do not decrease and lie between two others. *)
Fixpoint ordered (t0 : Z) (es : list timer_event) (now : Z) : Prop :=
  match es with [] => t0 <= now | e :: es' => t0 <= event_time e /\ ordered (event_time e) es' now end.

(** The account when the timer has run for [total] up to the time [t]; [since]
    is the last change from which a running timer is counted. *)
Definition timer_at (inp : trx_input) (limit : Z) (running : bool) (t total : Z) (c : cpu_account) : Prop :=
  billing_timer_duration_limit c = limit /\ 0 <= total <= t - start inp /\
  if running then pseudo_start c = t - total /\ cur_deadline c = Z.min (t - total + limit) (deadline inp)
  else pseudo_start c = 0 /\ billed_time c = total.

Lemma ordered_end t0 es now : ordered t0 es now -> t0 <= now.
Proof.
  revert t0. induction es as [|e es IH]; intros t0 Ho; [done|]. destruct Ho as [H1 H2]. specialize (IH _ H2). lia.
Qed.

Lemma ordered_weaken t0 t1 es now : t0 <= t1 -> ordered t1 es now -> ordered t0 es now.
Proof. destruct es as [|e es]; cbn; [lia|]. intros H [H1 H2]. split; [lia|done]. Qed.

Lemma run_events_at inp es : forall limit running t total now c c',
  explicit_billed_cpu_time inp = false -> 0 < start inp -> now <= 2 ^ 61 -> 0 <= limit <= 2 ^ 61 ->
  timer_at inp limit running t total c -> ordered t es now -> run_events inp es c = Ok c' ->
  timer_at inp limit (runs_after running es) now (total + ran running t es now) c'.
Proof.
  induction es as [|e es IH]; intros limit running t total now c c' Hex Hs Hnow Hl Hc Ho H; cbn [run_events] in H.
  { injection H as <-. cbn in *. destruct Hc as (El & Ht & Hc). split; [done|].
    destruct running; (split; [lia|]); destruct Hc; split; lia. }
  destruct Ho as [Ht Ho]. pose proof (ordered_end _ _ _ Ho) as Hen.
  destruct Hc as (El & Htot & Hc). destruct e as [t'|t' snow]; cbn [event_time ran runs_after] in *.
  - destruct running.
    + rewrite Z.add_assoc. eapply IH; try eassumption. unfold pause_billing_timer. rewrite Hex. destruct Hc as [Hp Hd].
      rewrite Hp. destruct (Z.eqb_spec (t - total) 0); [lia|]. cbn [orb]. split; [done|]. split; [lia|]. cbn.
      split; [done|]. rewrite i64_id by lia. lia.
    + rewrite Z.add_0_l. eapply IH; try eassumption. unfold pause_billing_timer. rewrite Hex. destruct Hc as [Hp Hb].
      rewrite Hp. cbn [Z.eqb orb]. split; [done|]. split; [lia|]. done.
  - apply bind_ok in H as (c1 & H1 & H). unfold resume_billing_timer in H1. rewrite Hex in H1. cbn [orb] in H1.
    destruct running; destruct Hc as [Hp Hd]; rewrite Hp in H1.
    + destruct (Z.eqb_spec (t - total) 0); [lia|]. cbn [negb] in H1. injection H1 as <-. eapply IH; try eassumption; [|by eapply ordered_weaken].
      split; [done|]. by split.
    + cbn [Z.eqb negb] in H1. rewrite Hd, El in H1. rewrite (i64_id (t' - total)) in H1 by lia.
      rewrite !(i64_id (t' - total + limit)) in H1 by lia. eapply IH; try eassumption.
      destruct (Z.leb_spec (t' - total + limit) (deadline inp)); apply bind_ok in H1 as (tm & _ & [= <-]);
        (split; [done|]); (split; [lia|]); cbn; lia.
Qed.

Lemma i64_range z : INT64_MIN <= i64 z <= INT64_MAX.
Proof. unfold swrap. pose proof (Z.mod_pos_bound (z + 2 ^ (64 - 1)) (2 ^ 64)). lia. Qed.

(** A difference that came out small has not wrapped around. *)
Lemma i64_small x : INT64_MIN - 2 ^ 61 <= x <= INT64_MAX -> i64 x <= 2 ^ 61 -> i64 x = x.
Proof.
  intros Hx H. apply i64_id. unfold swrap in H. pose proof (Z.div_mod (x + 2 ^ (64 - 1)) (2 ^ 64)).
  pose proof (Z.mod_pos_bound (x + 2 ^ (64 - 1)) (2 ^ 64)). lia.
Qed.

(** What [init] makes of the account. *)
Lemma init_timer env inp usage now ctx ctx' :
  init env inp usage now ctx = Ok ctx' -> explicit_billed_cpu_time inp = false ->
  0 < start inp <= 2 ^ 61 -> billing_timer_duration_limit (tx_cpu ctx') <= 2 ^ 61 ->
  pseudo_start (tx_cpu ctx') = pseudo_start (tx_cpu ctx) /\
  cur_deadline (tx_cpu ctx') = Z.min (start inp + billing_timer_duration_limit (tx_cpu ctx')) (deadline inp).
Proof.
  intros H Hex Hs. unfold init in H. rewrite Hex in H. apply bind_ok in H as ([] & _ & H). cbv zeta in H.
  destruct (initial_net_limit env inp (rl ctx)) as [limit blk].
  destruct (initial_duration_limit env inp (rl ctx)) as [duration code].
  apply bind_ok in H as ([] & _ & H). apply bind_ok in H as (r & Hr & H).
  apply bind_ok in H as ([[[an ac] gn] gc] & _ & H).
  destruct (if Z.min _ _ <? _ then _ else _) as [eager due].
  assert (exists cur code', (if i64 (ac + leeway inp) <=? i64 (i64 (start inp + duration) - start inp)
    then (i64 (i64 (start inp + ac) + leeway inp), code_value leeway_deadline_exception)
    else (i64 (start inp + duration), code)) = (cur, code') /\ INT64_MIN <= cur <= INT64_MAX) as (cur & code' & Ec & Hcur).
  { destruct (_ <=? _); do 2 eexists; (split; [done|]); apply i64_range. }
  rewrite Ec in H. clear Ec. cbn [orb] in H.
  assert (exists cur' dcode, (if deadline inp <? cur then (deadline inp, code_value deadline_exception) else (cur, code')) =
    (cur', dcode) /\ cur' = Z.min cur (deadline inp)) as (cur' & dcode & Ec & ->).
  { destruct (Z.ltb_spec (deadline inp) cur); do 2 eexists; (split; [done|lia]). }
  rewrite Ec in H. clear Ec.
  apply bind_ok in H as ([] & _ & H). apply bind_ok in H as (ctx1 & H1 & H).
  apply bind_ok in H as ([] & _ & H). apply bind_ok in H as (t & _ & [= <-]).
  cbn [tx_cpu set_initialized with_cpu with_timer billing_timer_duration_limit pseudo_start cur_deadline].
  intros Hl. split; [done|]. rewrite i64_small in * by lia. lia.
Qed.

(** A transaction is billed for the time its billing timer ran.  After the
    initialization of a context, through any pauses and resumptions at times that
    do not decrease and that leave the timer running, the time to bill at [now]
    is the total of the intervals in which the timer ran, or the least billable
    time if that is more; and the deadline is the caller's or the moment at which
    the rest of the allowed time will have run, whichever is first. *)
Theorem billed_time_exact env inp usage start_now ctx ctx' es now c :
  init env inp usage start_now ctx = Ok ctx' -> explicit_billed_cpu_time inp = false ->
  pseudo_start (tx_cpu ctx) = start inp -> 0 < start inp -> now <= 2 ^ 61 ->
  0 <= billing_timer_duration_limit (tx_cpu ctx') <= 2 ^ 61 ->
  ordered (start inp) es now -> runs_after true es = true -> run_events inp es (tx_cpu ctx') = Ok c ->
  let total := ran true (start inp) es now in
  billed_cpu_time_us (update_billed_cpu_time env inp now c) = Z.max total (min_transaction_cpu_usage (configuration env)) /\
  cur_deadline c = Z.min (now + (billing_timer_duration_limit (tx_cpu ctx') - total)) (deadline inp).
Proof.
  intros Hinit Hex Hp Hs Hnow Hl Ho Hr Hrun total. pose proof (ordered_end _ _ _ Ho).
  destruct (init_timer _ _ _ _ _ _ Hinit Hex) as [E1 E2]; [lia|lia|].
  pose proof (run_events_at inp es (billing_timer_duration_limit (tx_cpu ctx')) true (start inp) 0 now (tx_cpu ctx') c
    Hex Hs Hnow Hl) as H'. rewrite Hr, Z.add_0_l in H'. destruct H' as (_ & Ht & Hps & Hcd); [|done|done|].
  { split; [done|]. split; [lia|]. rewrite E1, Hp, E2. split; [lia|]. f_equal. lia. }
  fold total in Ht, Hps, Hcd. split; [|rewrite Hcd; f_equal; lia].
  unfold update_billed_cpu_time. rewrite Hex. cbn [billed_cpu_time_us]. rewrite Hps. f_equal. rewrite i64_id by lia. lia.
Qed.

(** ** The timer of the platform *)

(** The timer is armed for the deadline if that is less than a second away;
    it expires at once for a deadline in the past. *)
Lemma timer_start_near tp now t :
  tp <> time_point_maximum -> 0 < now -> now < tp < now + 1000000 -> tp <= INT64_MAX ->
  platform_timer_start tp now t = Ok (mk_timer false (Some tp)).
Proof.
  intros Hm Hn Ht Hmax. unfold platform_timer_start. destruct (Z.eqb_spec tp time_point_maximum); [done|].
  rewrite i64_id by lia. destruct (Z.leb_spec (tp - now) 0); [lia|]. unfold timer_nanoseconds.
  rewrite swrap_id by (unfold is_sint; lia). rewrite (proj2 (Z.leb_le _ _)), (proj2 (Z.ltb_lt _ _)) by lia.
  cbn [andb ine_assert mbind result_bind]. unfold timer_settime.
  destruct (Z.ltb_spec ((tp - now) * 1000) 0); [lia|]. destruct (Z.ltb_spec 999999999 ((tp - now) * 1000)); [lia|].
  cbn [orb]. destruct (Z.eqb_spec ((tp - now) * 1000) 0); [lia|]. rewrite Z.div_mul by lia. do 3 f_equal. lia.
Qed.

(** From a second on the call to the system is refused and the timer counts as
    expired, and later the product overflows. *)
Lemma timer_start_far tp now t :
  tp <> time_point_maximum -> 0 < now -> now + 1000000 <= tp <= now + 2147483 -> tp <= INT64_MAX ->
  platform_timer_start tp now t = Ok (mk_timer true (armed t)).
Proof.
  intros Hm Hn Ht Hmax. unfold platform_timer_start. destruct (Z.eqb_spec tp time_point_maximum); [done|].
  rewrite i64_id by lia. destruct (Z.leb_spec (tp - now) 0); [lia|]. unfold timer_nanoseconds.
  rewrite swrap_id by (unfold is_sint; lia). rewrite (proj2 (Z.leb_le _ _)), (proj2 (Z.ltb_lt _ _)) by lia.
  cbn [andb ine_assert mbind result_bind]. unfold timer_settime.
  destruct (Z.ltb_spec 999999999 ((tp - now) * 1000)); [|lia]. by rewrite orb_true_r.
Qed.

Lemma timer_start_overflow tp now t :
  tp <> time_point_maximum -> 0 < now -> now + 2147483 < tp < now + 2 ^ 31 -> tp <= INT64_MAX ->
  platform_timer_start tp now t = Err undefined_behaviour.
Proof.
  intros Hm Hn Ht Hmax. unfold platform_timer_start. destruct (Z.eqb_spec tp time_point_maximum); [done|].
  rewrite i64_id by lia. destruct (Z.leb_spec (tp - now) 0); [lia|]. unfold timer_nanoseconds.
  rewrite swrap_id by (unfold is_sint; lia). destruct (Z.ltb_spec ((tp - now) * 1000) (2 ^ 31)); [lia|]. by rewrite andb_false_r.
Qed.

(** ** Examples *)

Definition example_events : list timer_event := [Pause 1000100; Resume 1000200 1000200].
Definition example_resumed : cpu_account :=
  or_else (tx_cpu (example_started example_db 100)) (run_events example_trx_input example_events (tx_cpu (example_started example_db 100))).

Lemma billed_time_exact_witness :
  billed_cpu_time_us (update_billed_cpu_time example_trx_env example_trx_input 1000350 example_resumed) =
    Z.max (ran true 1000000 example_events 1000350) 100 /\
  ran true 1000000 example_events 1000350 = 250.
Proof.
  split; [|by vm_compute].
  apply (billed_time_exact example_trx_env example_trx_input 100 1000000 (example_context example_db)
           (example_started example_db 100) example_events 1000350 example_resumed); by vm_compute.
Defined.

(** The check of the time in [init] is meant to fail early when the deadline has
    passed, but it looks at a timer that is only started after it. *)
Definition example_late_input : trx_input := mk_trx_input example_trx zero_digest 1000000 500000 31000 false.

Lemma init_passes_after_deadline :
  (c ← init example_trx_env example_late_input 100 1000000 (example_context example_db);
   Ok (cur_deadline (tx_cpu c), expired (transaction_timer (tx_cpu c)))) = Ok (500000, true).
Proof. by vm_compute. Qed.
