(* ===== verification/ActionExecution.v ===== *)
(** * The execution of actions

    Models the parts of apply_context.cpp that run an action, with the
    traces and receipts of trace.hpp and action_receipt.hpp, and
    transaction_context::exec: an action is applied to its receiver, then to the
    accounts that were notified, then the context free inline actions and the
    inline actions that were sent run, each with a context of its own.

    A contract is a parameter: a program that calls the functions of the context
    and ends or throws.  It sees the context after each call.  Calls other than
    those modelled here are functions on the state of the database.  WebAssembly
    and its interface are left out, as are console output and times in traces.

    The theorems are in [ExecutionOrder]: a transaction that executes has run
    every action it scheduled exactly once, each after the one that created it,
    with consecutive sequence numbers; the loops end; and an inline action that
    an ordinary contract sends has authorizations that the contract's code
    permission satisfies. *)

From S2P Require Import Prelude Exceptions Text Names Merkle Authority AuthorityChecker Timestamps ResourceLimits Raw Codecs.
From S2P Require Import Chainbase BlockHeader Transactions ProtocolFeatures ChainObjects Permissions NativeActions.
From S2P Require Import Authorization TransactionChecks.

(** ** Data *)

Record action_receipt := mk_action_receipt {
  ar_receiver : Z;
  act_digest : sha256;
  global_sequence : Z;
  ar_recv_sequence : Z;
  ar_auth_sequence : gmap Z Z;
  ar_code_sequence : Z;
  ar_abi_sequence : Z
}.

Record action_trace := mk_action_trace {
  at_ordinal : Z;
  creator_action_ordinal : Z;
  closest_unnotified_ancestor_action_ordinal : Z;
  receipt : option action_receipt;
  at_receiver : Z;
  at_act : action;
  at_context_free : bool;
  at_account_mem_deltas : gmap Z Z
}.

(** The part of the transaction that actions share. *)
Record exec_state := mk_exec_state {
  es_ctx : apply_ctx;
  global_action_sequence : Z;
  action_traces : list action_trace;
  executed : list action_receipt
}.

(** apply_context *)
Record action_context := mk_action_context {
  receiver : Z;
  action_ordinal : Z;
  first_receiver_action_ordinal : Z;
  act : action;
  privileged : bool;
  recurse_depth : Z;
  notified : list (Z * Z);
  cfa_inline_actions : list Z;
  inline_actions : list Z
}.

(** What a contract calls, and a contract. *)
Inductive host_call :=
  | call_require_recipient (recipient : Z)
  | call_send_inline (a : action)
  | call_send_context_free_inline (a : action)
  | call_other (f : apply_ctx -> outcome apply_ctx).

Inductive program :=
  | p_return
  | p_throw (e : exn)
  | p_call (c : host_call) (k : apply_ctx -> program).

Record exec_env := mk_exec_env {
  ee_chain : chain_env;
  ee_lists : account_lists;
  max_inline_action_depth : Z;
  max_inline_action_size : Z;
  max_nonprivileged_inline_action_size : Z;
  skip_auth_check : bool;
  ee_published : Z;
  ee_checktime : nat -> outcome unit
}.

Definition with_ctx (st : exec_state) (c : apply_ctx) : exec_state :=
  mk_exec_state c (global_action_sequence st) (action_traces st) (executed st).
Definition with_traces (st : exec_state) (ts : list action_trace) : exec_state :=
  mk_exec_state (es_ctx st) (global_action_sequence st) ts (executed st).
Definition es_db (st : exec_state) : chain_db := ctx_db (es_ctx st).

(** ** Scheduling *)

Definition get_action_trace (st : exec_state) (ordinal : Z) : outcome action_trace :=
  ine_assert ((0 <? ordinal) && (ordinal <=? Z.of_nat (length (action_traces st)))) (Throw transaction_exception) ;;
  match action_traces st !! Z.to_nat (ordinal - 1) with
  | Some t => Ok t
  | None => Err undefined_behaviour
  end.

(** [transaction_context::schedule_action] *)
Definition trx_schedule_action (a : action) (rcv : Z) (context_free : bool) (creator ancestor : Z) (st : exec_state) :
  exec_state * Z :=
  let new_action_ordinal := u32 (Z.of_nat (length (action_traces st)) + 1) in
  (with_traces st (action_traces st ++
     [mk_action_trace new_action_ordinal creator ancestor None rcv a context_free ∅]), new_action_ordinal).

Definition trx_schedule_ordinal (ordinal rcv : Z) (context_free : bool) (creator ancestor : Z) (st : exec_state) :
  outcome (exec_state * Z) :=
  provided ← get_action_trace st ordinal;
  Ok (trx_schedule_action (at_act provided) rcv context_free creator ancestor st).

Definition has_recipient (ac : action_context) (code : Z) : bool := existsb (fun p => p.1 =? code) (notified ac).

Definition add_notified (ac : action_context) (p : Z * Z) : action_context :=
  mk_action_context (receiver ac) (action_ordinal ac) (first_receiver_action_ordinal ac) (act ac) (privileged ac)
    (recurse_depth ac) (notified ac ++ [p]) (cfa_inline_actions ac) (inline_actions ac).
Definition add_cfa_inline (ac : action_context) (o : Z) : action_context :=
  mk_action_context (receiver ac) (action_ordinal ac) (first_receiver_action_ordinal ac) (act ac) (privileged ac)
    (recurse_depth ac) (notified ac) (cfa_inline_actions ac ++ [o]) (inline_actions ac).
Definition add_inline (ac : action_context) (o : Z) : action_context :=
  mk_action_context (receiver ac) (action_ordinal ac) (first_receiver_action_ordinal ac) (act ac) (privileged ac)
    (recurse_depth ac) (notified ac) (cfa_inline_actions ac) (inline_actions ac ++ [o]).

Definition require_recipient (recipient : Z) (ac : action_context) (st : exec_state) : outcome (action_context * exec_state) :=
  if has_recipient ac recipient then Ok (ac, st) else
  '(st, o) ← trx_schedule_ordinal (action_ordinal ac) recipient false (action_ordinal ac) (first_receiver_action_ordinal ac) st;
  Ok (add_notified ac (recipient, o), st).

Definition has_authorization (a : action) (account : Z) : bool := existsb (fun p => actor p =? account) (authorization a).

(** ** Inline actions *)

Section inline.
Context `{FO : FactorOrder} (env : exec_env).
Let cenv := ee_chain env.

Fixpoint check_inline_auths (db : chain_db) (auths : list permission_level) : outcome unit :=
  match auths with
  | [] => Ok tt
  | auth :: auths' =>
      ine_assert (bool_decide (is_Some (find_by account_by_name [actor auth] (account_index db))))
        (Throw action_validate_exception) ;;
      p ← find_permission auth db;
      ine_assert (bool_decide (is_Some p)) (Throw action_validate_exception) ;;
      check_inline_auths db auths'
  end.

Definition check_inline_size (ac : action_context) (a : action) : outcome unit :=
  if negb (privileged ac) && is_producing_block cenv
  then ine_assert (Z.of_nat (length (data a)) <? Z.min (max_inline_action_size env) (max_nonprivileged_inline_action_size env))
         (Throw inline_action_too_big_nonprivileged)
  else Ok tt.

(** An action a contract sends to itself passes or fails subjectively as long
    as the protocol feature is not active. *)
Definition bypass_send_to_self (disallow send_to_self : bool) (r : outcome unit) : outcome unit :=
  match r with
  | Ok tt => Ok tt
  | Err e =>
      if negb (is_fc_exception e || is_std_exception e) then Err e
      else if disallow || negb send_to_self then Err e
      else if is_producing_block cenv then Err (Throw subjective_block_production_exception)
      else Ok tt
  end.

Definition execute_inline (a : action) (ac : action_context) (st : exec_state) : outcome (action_context * exec_state) :=
  let db := es_db st in
  ine_assert (bool_decide (is_Some (find_by account_by_name [act_account a] (account_index db))))
    (Throw action_validate_exception) ;;
  let enforce := enforce_whiteblacklist cenv && is_producing_block cenv in
  let disallow := is_builtin_activated cenv restrict_action_to_self in
  let send_to_self := act_account a =? receiver ac in
  let inherit := negb disallow && send_to_self && (receiver ac =? act_account (act ac)) && is_producing_block cenv in
  check_inline_auths db (authorization a) ;;
  let inherited := if inherit then filter (fun p => p ∈ authorization (act ac)) (authorization a) else [] in
  (if enforce then check_actor_list (ee_lists env) (ids_in_order (list_to_set (actor <$> authorization a))) else Ok tt) ;;
  check_inline_size ac a ;;
  (if negb (skip_auth_check env) && negb (privileged ac) then
     bypass_send_to_self disallow send_to_self
       (check_authorization cenv db [a] [] [mk_permission_level (receiver ac) inery_code_name]
          (i64 (pending_block_time cenv - ee_published env)) (Some (ee_checktime env)) false inherited)
   else Ok tt) ;;
  let '(st, o) := trx_schedule_action a (act_account a) false (action_ordinal ac) (first_receiver_action_ordinal ac) st in
  Ok (add_inline ac o, st).

Definition execute_context_free_inline (a : action) (ac : action_context) (st : exec_state) :
  outcome (action_context * exec_state) :=
  ine_assert (bool_decide (is_Some (find_by account_by_name [act_account a] (account_index (es_db st)))))
    (Throw action_validate_exception) ;;
  ine_assert (bool_decide (length (authorization a) = 0%nat)) (Throw action_validate_exception) ;;
  check_inline_size ac a ;;
  let '(st, o) := trx_schedule_action a (act_account a) true (action_ordinal ac) (first_receiver_action_ordinal ac) st in
  Ok (add_cfa_inline ac o, st).

(** A contract runs. *)
Fixpoint run_program (p : program) (ac : action_context) (st : exec_state) : outcome (action_context * exec_state) :=
  match p with
  | p_return => Ok (ac, st)
  | p_throw e => Err e
  | p_call c k =>
      '(ac, st) ← match c with
                  | call_require_recipient r => require_recipient r ac st
                  | call_send_inline a => execute_inline a ac st
                  | call_send_context_free_inline a => execute_context_free_inline a ac st
                  | call_other f => c ← f (es_ctx st); Ok (ac, with_ctx st c)
                  end;
      run_program (k (es_ctx st)) ac st
  end.

End inline.

(** ** One action *)

Section exec.
Context `{BT : BoostText} `{FO : FactorOrder}.
Context (hash : list Z -> sha256) (validate_code : list Z -> outcome unit).
(** The contract of a code hash, type and version, applied to a receiver and
    an action. *)
Context (contract : sha256 -> Z -> Z -> Z -> action -> program).
Context (env : exec_env).
Let cenv := ee_chain env.

Definition native_names : list Z :=
  [newaccount_name; setcode_name; setabi_name; updateauth_name; deleteauth_name; linkauth_name; unlinkauth_name; canceldelay_name].

(** [find_apply_handler] finds one. *)
Definition is_native (rcv : Z) (a : action) : bool :=
  (rcv =? system_account_name) && (act_account a =? system_account_name) && bool_decide (act_name a ∈ native_names).

Definition check_lists (ac : action_context) : outcome unit :=
  if enforce_whiteblacklist cenv && is_producing_block cenv then
    check_contract_list (ee_lists env) (receiver ac) ;;
    check_action_list (ee_lists env) (act_account (act ac)) (act_name (act ac))
  else Ok tt.

Definition set_privileged_flag (ac : action_context) (b : bool) : action_context :=
  mk_action_context (receiver ac) (action_ordinal ac) (first_receiver_action_ordinal ac) (act ac) b (recurse_depth ac)
    (notified ac) (cfa_inline_actions ac) (inline_actions ac).

(** The loop over the memory deltas, ordered by account; [counter] counts up to
    the next check of the time, the [n]th. *)
Fixpoint check_mem_deltas (ac : action_context) (deltas : gmap Z Z) (accounts : list Z) (counter n : nat) : outcome unit :=
  match accounts with
  | [] => Ok tt
  | a :: accounts' =>
      '(counter, n) ← (if bool_decide (counter = 10%nat) then ee_checktime env n ;; Ok (0%nat, S n) else Ok (counter, n));
      (if (default 0 (deltas !! a) >? 0) && negb (a =? receiver ac) then
         ine_assert (receiver ac =? act_account (act ac)) (Throw unauthorized_mem_usage_increase) ;;
         ine_assert (has_authorization (act ac) a) (Throw unauthorized_mem_usage_increase)
       else Ok tt) ;;
      check_mem_deltas ac deltas accounts' (S counter) n
  end.

(** What runs: the native handler and the contract, then the check of the
    memory they used.  The metadata of the receiver are read again after the
    handler, which may have set the code. *)
Definition apply_action (ac : action_context) (st : exec_state) : outcome (action_context * exec_state) :=
  receiver_account ← get_by metadata_by_name [receiver ac] (account_metadata_index (es_db st));
  let ac := set_privileged_flag ac (is_privileged receiver_account) in
  st ← (if is_native (receiver ac) (act ac) then
          check_lists ac ;;
          c ← apply_native hash validate_code cenv (act ac) (es_ctx st);
          Ok (with_ctx st c)
        else Ok st);
  receiver_account ← Chainbase.get (amo_id receiver_account) (account_metadata_index (es_db st));
  '(ac, st) ←
    (if negb (bool_decide (amo_code_hash receiver_account = zero_digest)) &&
        (negb ((act_account (act ac) =? system_account_name) && (act_name (act ac) =? setcode_name) &&
               (receiver ac =? system_account_name))
         || is_builtin_activated cenv forward_setcode) then
       check_lists ac ;;
       run_program env (contract (amo_code_hash receiver_account) (amo_vm_type receiver_account)
                          (amo_vm_version receiver_account) (receiver ac) (act ac)) ac st
     else Ok (ac, st));
  (if negb (privileged ac) && is_builtin_activated cenv mem_restrictions
   then check_mem_deltas ac (account_mem_deltas (es_ctx st)) (ids_in_order (dom (account_mem_deltas (es_ctx st)))) 0 0
   else Ok tt) ;;
  Ok (ac, st).

(** ** Sequence numbers *)

Definition bump_recv (a : account_metadata_object) : account_metadata_object :=
  mk_account_metadata_object (amo_id a) (amo_name a) (u64 (recv_sequence a + 1)) (auth_sequence a) (code_sequence a)
    (abi_sequence a) (amo_code_hash a) (last_code_update a) (flags a) (amo_vm_type a) (amo_vm_version a).
Definition bump_auth (a : account_metadata_object) : account_metadata_object :=
  mk_account_metadata_object (amo_id a) (amo_name a) (recv_sequence a) (u64 (auth_sequence a + 1)) (code_sequence a)
    (abi_sequence a) (amo_code_hash a) (last_code_update a) (flags a) (amo_vm_type a) (amo_vm_version a).

Definition modify_metadata (id : Z) (f : account_metadata_object -> account_metadata_object) (st : exec_state) :
  outcome exec_state :=
  metas ← db_modify id f (account_metadata_index (es_db st));
  Ok (with_ctx st (with_db (es_ctx st) (with_metadata (es_db st) metas))).

Definition next_global_sequence (st : exec_state) : exec_state * Z :=
  let g := u64 (global_action_sequence st + 1) in
  (mk_exec_state (es_ctx st) g (action_traces st) (executed st), g).

Definition next_recv_sequence (receiver_account : account_metadata_object) (st : exec_state) : outcome (exec_state * Z) :=
  st ← modify_metadata (amo_id receiver_account) bump_recv st;
  a ← Chainbase.get (amo_id receiver_account) (account_metadata_index (es_db st));
  Ok (st, recv_sequence a).

Definition next_auth_sequence (account : Z) (st : exec_state) : outcome (exec_state * Z) :=
  amo ← get_by metadata_by_name [account] (account_metadata_index (es_db st));
  st ← modify_metadata (amo_id amo) bump_auth st;
  a ← Chainbase.get (amo_id amo) (account_metadata_index (es_db st));
  Ok (st, auth_sequence a).

Fixpoint auth_sequences (auths : list permission_level) (m : gmap Z Z) (st : exec_state) : outcome (exec_state * gmap Z Z) :=
  match auths with
  | [] => Ok (st, m)
  | auth :: auths' =>
      '(st, s) ← next_auth_sequence (actor auth) st;
      auth_sequences auths' (<[actor auth := s]> m) st
  end.

(** The trace gets the receipt and the memory deltas, which are cleared. *)
Definition finish_trace (r : action_receipt) (deltas : gmap Z Z) (t : action_trace) : action_trace :=
  mk_action_trace (at_ordinal t) (creator_action_ordinal t) (closest_unnotified_ancestor_action_ordinal t) (Some r)
    (at_receiver t) (at_act t) (at_context_free t) deltas.

Definition exec_one (ac : action_context) (st : exec_state) : outcome (action_context * exec_state) :=
  packed ← pack action_codec (act ac);
  let digest := hash (concat packed) in
  '(ac, st) ← fc_capture_and_rethrow (apply_action ac st);
  receiver_account ← get_by metadata_by_name [receiver ac] (account_metadata_index (es_db st));
  let '(st, g) := next_global_sequence st in
  '(st, recv) ← next_recv_sequence receiver_account st;
  first_receiver_account ←
    (if act_account (act ac) =? receiver ac
     then Chainbase.get (amo_id receiver_account) (account_metadata_index (es_db st))
     else get_by metadata_by_name [act_account (act ac)] (account_metadata_index (es_db st)));
  '(st, auths) ← auth_sequences (authorization (act ac)) ∅ st;
  let r := mk_action_receipt (receiver ac) digest g recv auths (u32 (code_sequence first_receiver_account))
             (u32 (abi_sequence first_receiver_account)) in
  trace ← get_action_trace st (action_ordinal ac);
  Ok (ac, mk_exec_state (mk_apply_ctx (es_db st) ∅ (validate_mem_usage (es_ctx st))) (global_action_sequence st)
            (<[Z.to_nat (action_ordinal ac - 1) := finish_trace r (account_mem_deltas (es_ctx st)) trace]> (action_traces st))
            (executed st ++ [r])).

(** ** An action, those it notifies and those it sends *)

Definition set_receiver (ac : action_context) (p : Z * Z) : action_context :=
  mk_action_context p.1 p.2 (first_receiver_action_ordinal ac) (act ac) (privileged ac) (recurse_depth ac)
    (notified ac) (cfa_inline_actions ac) (inline_actions ac).

(** The loop over the notified accounts, which may become more while it runs;
    [None] when the fuel runs out. *)
Fixpoint notify_loop (fuel i : nat) (ac : action_context) (st : exec_state) : option (outcome (action_context * exec_state)) :=
  match notified ac !! i with
  | None => Some (Ok (ac, st))
  | Some p =>
      match fuel with
      | O => None
      | S fuel' =>
          match exec_one (set_receiver ac p) st with
          | Err e => Some (Err e)
          | Ok (ac, st) => notify_loop fuel' (S i) ac st
          end
      end
  end.

(** The constructor of the context. *)
Definition new_action_context (ordinal depth : Z) (st : exec_state) : outcome action_context :=
  trace ← get_action_trace st ordinal;
  Ok (mk_action_context (at_receiver trace) ordinal ordinal (at_act trace) false depth [] [] []).

Fixpoint execute_each (run : Z -> exec_state -> option (outcome exec_state)) (ordinals : list Z) (st : exec_state) :
  option (outcome exec_state) :=
  match ordinals with
  | [] => Some (Ok st)
  | o :: ordinals' =>
      match run o st with
      | Some (Ok st) => execute_each run ordinals' st
      | r => r
      end
  end.

(** [execute_action] with [exec]: the first fuel is for the depth of inline
    actions, the second for the accounts notified. *)
Fixpoint execute_action (fuel n : nat) (depth ordinal : Z) (st : exec_state) : option (outcome exec_state) :=
  match fuel with
  | O => None
  | S fuel' =>
      match new_action_context ordinal depth st with
      | Err e => Some (Err e)
      | Ok ac =>
          match notify_loop n 0 (add_notified ac (receiver ac, action_ordinal ac)) st with
          | None => None
          | Some (Err e) => Some (Err e)
          | Some (Ok (ac, st)) =>
              if (nonempty (cfa_inline_actions ac) || nonempty (inline_actions ac)) &&
                 negb (recurse_depth ac <? max_inline_action_depth env)
              then Some (Err (Throw transaction_exception))
              else
                match execute_each (execute_action fuel' n (recurse_depth ac + 1)) (cfa_inline_actions ac) st with
                | Some (Ok st) => execute_each (execute_action fuel' n (recurse_depth ac + 1)) (inline_actions ac) st
                | r => r
                end
          end
      end
  end.

(** ** A transaction *)

Fixpoint schedule_actions (acts : list action) (context_free : bool) (st : exec_state) : exec_state :=
  match acts with
  | [] => st
  | a :: acts' => schedule_actions acts' context_free (fst (trx_schedule_action a (act_account a) context_free 0 0 st))
  end.

(** [transaction_context::exec] for a context that is initialized, up to the
    storing of a delayed transaction. *)
Definition execute_transaction (fuel n : nat) (apply_context_free : bool) (delay : Z) (trx : transaction) (st : exec_state) :
  option (outcome exec_state) :=
  let st := if apply_context_free then schedule_actions (context_free_actions trx) true st else st in
  let st := if delay =? 0 then schedule_actions (actions trx) false st else st in
  execute_each (execute_action fuel n 0) (seqZ 1 (Z.of_nat (length (action_traces st)))) st.

End exec.
