(* ===== verification/ExecutionOrder.v ===== *)
(** * What a transaction executes

    A transaction that ends has executed every action it scheduled, those that
    were notified or sent on the way included, exactly once and after the action
    that created it, and the loops that do this end. *)

From S2P Require Import Prelude Exceptions Text Names Merkle Authority AuthorityChecker Timestamps ResourceLimits Raw Codecs.
From S2P Require Import Chainbase BlockHeader Transactions ProtocolFeatures ChainObjects Permissions NativeActions.
From S2P Require Import Authorization TransactionChecks ActionExecution.

(** ** The order of execution *)

Definition trace_of (st : exec_state) (o : Z) : option action_trace := action_traces st !! Z.to_nat (o - 1).

Definition trace_count (st : exec_state) : Z := Z.of_nat (length (action_traces st)).

(** The actions with the ordinals [order] have run in this order, those in
    [pending] have not; [cur] is one of the latter that is running and may have
    created others. *)
Record exec_inv (g : Z) (cur : Z) (st : exec_state) (order pending : list Z) : Prop := {
  ei_perm : order ++ pending ≡ₚ seqZ 1 (trace_count st);
  ei_wf i t : action_traces st !! i = Some t ->
    at_ordinal t = Z.of_nat i + 1 /\ 0 <= creator_action_ordinal t < at_ordinal t;
  ei_len : length (executed st) = length order;
  ei_exec i o : order !! i = Some o -> exists t r, trace_of st o = Some t /\ executed st !! i = Some r /\
    receipt t = Some r /\ ar_receiver r = at_receiver t /\ global_sequence r = g + 1 + Z.of_nat i;
  ei_global : global_action_sequence st = g + Z.of_nat (length order);
  ei_creator i o t : order !! i = Some o -> trace_of st o = Some t ->
    creator_action_ordinal t = 0 \/ exists j, (j < i)%nat /\ order !! j = Some (creator_action_ordinal t);
  ei_pending o t : o ∈ pending -> trace_of st o = Some t ->
    creator_action_ordinal t = 0 \/ creator_action_ordinal t ∈ order \/ creator_action_ordinal t = cur
}.

Lemma seqZ_one m : seqZ m 1 = [m].
Proof. done. Qed.

Section inv.
Context (g : Z).

Lemma exec_inv_perm cur st order p p' : p ≡ₚ p' -> exec_inv g cur st order p -> exec_inv g cur st order p'.
Proof.
  intros E [H1 H2 H3 H4 H5 H6 H7]. split; try done; [by rewrite <- E|]. intros o t Ho. apply H7. by rewrite E.
Qed.

(** Only the traces, the receipts and the count are looked at. *)
Lemma exec_inv_ctx cur st st' order p :
  action_traces st' = action_traces st -> executed st' = executed st ->
  global_action_sequence st' = global_action_sequence st -> exec_inv g cur st order p -> exec_inv g cur st' order p.
Proof.
  intros E1 E2 E3 [H1 H2 H3 H4 H5 H6 H7]. unfold trace_of, trace_count in *.
  split; unfold trace_of, trace_count; rewrite ?E1, ?E2, ?E3; done.
Qed.

Lemma exec_inv_start cur st order p : exec_inv g 0 st order p -> exec_inv g cur st order p.
Proof.
  intros [H1 H2 H3 H4 H5 H6 H7]. split; try done. intros o t Ho Ht. destruct (H7 o t Ho Ht) as [|[|]]; auto.
Qed.

Lemma exec_inv_range cur st order p o : exec_inv g cur st order p -> o ∈ order ++ p <-> 1 <= o <= trace_count st.
Proof. intros H. rewrite (ei_perm _ _ _ _ _ H), elem_of_seqZ. unfold trace_count. lia. Qed.

Lemma exec_inv_nodup cur st order p : exec_inv g cur st order p -> NoDup (order ++ p).
Proof. intros H. rewrite (ei_perm _ _ _ _ _ H). apply NoDup_seqZ. Qed.

Lemma exec_inv_count cur st order p :
  exec_inv g cur st order p -> Z.of_nat (length order) + Z.of_nat (length p) = trace_count st.
Proof.
  intros H. pose proof (Permutation_length (ei_perm _ _ _ _ _ H)) as E. rewrite length_app, length_seqZ in E.
  unfold trace_count in *. lia.
Qed.

Lemma trace_of_range st o t : trace_of st o = Some t -> 1 <= o -> o <= trace_count st.
Proof. unfold trace_of, trace_count. intros H%lookup_lt_Some Ho. lia. Qed.

(** The current action schedules another one. *)
Lemma schedule_inv cur st order p a rcv cf anc st' o :
  exec_inv g cur st order p -> cur ∈ p \/ cur = 0 -> trace_count st + 1 < 2 ^ 32 ->
  trx_schedule_action a rcv cf cur anc st = (st', o) ->
  exec_inv g cur st' order (p ++ [o]) /\ o = trace_count st + 1 /\ trace_count st' = trace_count st + 1 /\
  (forall x t, trace_of st x = Some t -> trace_of st' x = Some t) /\
  exists t, trace_of st' o = Some t /\ at_receiver t = rcv.
Proof.
  intros H Hcur Hs [= <- <-].
  assert (u32 (trace_count st + 1) = trace_count st + 1) as E by (apply wrap_id; unfold is_uint, trace_count in *; lia).
  fold (trace_count st). rewrite E. set (t := mk_action_trace _ _ _ _ _ _ _ _). set (st' := with_traces _ _).
  assert (forall x u, trace_of st x = Some u -> trace_of st' x = Some u) as Hold.
  { intros x u Hx. unfold trace_of. cbn. by apply lookup_app_l_Some. }
  assert (trace_of st' (trace_count st + 1) = Some t) as Hnew.
  { unfold trace_of. cbn. rewrite lookup_app_r by (unfold trace_count; lia).
    replace (Z.to_nat (trace_count st + 1 - 1) - length (action_traces st))%nat with 0%nat by (unfold trace_count; lia). done. }
  assert (trace_count st' = trace_count st + 1) as Hc by (unfold trace_count; cbn; rewrite length_app; cbn; lia).
  split; [|split_and!; try done; by exists t].
  pose proof (fun o => exec_inv_range _ _ _ _ o H) as Hr. destruct H as [H1 H2 H3 H4 H5 H6 H7].
  assert (forall x, x ∈ order ++ p -> exists u, trace_of st x = Some u) as Hex.
  { intros x Hx%Hr. unfold trace_of. apply lookup_lt_is_Some_2. unfold trace_count in Hx. lia. }
  split; try done.
  - rewrite app_assoc, H1, Hc. rewrite seqZ_app by (unfold trace_count; lia). f_equiv.
    rewrite (seqZ_one (1 + trace_count st)). by rewrite Z.add_comm.
  - intros i u. cbn. intros [Hi|[Hi Hu]]%lookup_app_Some; [by apply H2|].
    apply list_lookup_singleton_Some in Hu as [Hi' <-]. cbn. unfold trace_count.
    assert (0 <= cur <= trace_count st) as Hcr.
    { destruct Hcur as [Hcur| ->]; [|unfold trace_count; lia]. assert (cur ∈ order ++ p) as Hin by (apply elem_of_app; by right).
      apply Hr in Hin. lia. }
    unfold trace_count in Hcr. lia.
  - intros i x Hx. destruct (H4 i x Hx) as (u & r & Hu & Hrest). exists u, r. split; [by apply Hold|done].
  - intros i x u Hx Hu. destruct (Hex x) as [u' Hu']; [apply elem_of_app; left; by eapply list_elem_of_lookup_2|].
    rewrite (Hold x u' Hu') in Hu. injection Hu as <-. by eapply H6.
  - intros x u [Hx| ->%list_elem_of_singleton]%elem_of_app Hu.
    + destruct (Hex x) as [u' Hu']; [apply elem_of_app; by right|]. rewrite (Hold x u' Hu') in Hu. injection Hu as <-.
      by eapply H7.
    + rewrite Hnew in Hu. injection Hu as <-. cbn. auto.
Qed.

(** The current action ends. *)
Lemma finish_inv cur st order p t r deltas st' :
  exec_inv g cur st order (cur :: p) -> trace_of st cur = Some t -> ar_receiver r = at_receiver t ->
  g + trace_count st < 2 ^ 64 -> 0 <= g -> global_sequence r = u64 (global_action_sequence st + 1) ->
  action_traces st' = <[Z.to_nat (cur - 1) := finish_trace r deltas t]> (action_traces st) ->
  executed st' = executed st ++ [r] -> global_action_sequence st' = u64 (global_action_sequence st + 1) ->
  exec_inv g 0 st' (order ++ [cur]) p.
Proof.
  intros H Ht Hrcv Hs Hg Hgs Et Ee Eg. pose proof (exec_inv_nodup _ _ _ _ H) as Hnd. pose proof (exec_inv_count _ _ _ _ H) as Hcnt.
  assert (u64 (global_action_sequence st + 1) = g + Z.of_nat (length order) + 1) as Eu.
  { rewrite (ei_global _ _ _ _ _ H). apply wrap_id. unfold is_uint. cbn [length] in Hcnt. lia. }
  pose proof (fun o => exec_inv_range _ _ _ _ o H) as Hr. destruct H as [H1 H2 H3 H4 H5 H6 H7].
  assert (trace_count st' = trace_count st) as Hc by (unfold trace_count; by rewrite Et, length_insert).
  assert (1 <= cur <= trace_count st) as Hcur by (apply Hr, elem_of_app; right; left).
  assert (trace_of st' cur = Some (finish_trace r deltas t)) as Hnew.
  { unfold trace_of. rewrite Et. apply list_lookup_insert_eq. unfold trace_count in Hcur. lia. }
  assert (forall x, x ∈ order ++ p -> 1 <= x /\ trace_of st' x = trace_of st x) as Hold.
  { intros x Hx. assert (x <> cur) as Hne.
    { intros ->. apply list.NoDup_app in Hnd as (_ & Hn1 & Hn2). apply elem_of_app in Hx as [Hx|Hx].
      - apply (Hn1 cur Hx). left.
      - by apply list.NoDup_cons in Hn2 as [Hn2 _]. }
    assert (1 <= x <= trace_count st) as Hx' by (apply Hr; apply elem_of_app in Hx as [Hx|Hx]; apply elem_of_app; [by left|right; by right]).
    split; [lia|]. unfold trace_of. rewrite Et. apply list_lookup_insert_ne. lia. }
  split.
  - rewrite Hc, <- H1, <- app_assoc. done.
  - intros i u Hu. rewrite Et in Hu. apply list_lookup_insert_Some in Hu as [(<- & <- & _)|[_ Hu]]; [|by apply H2].
    unfold trace_of in Ht. destruct (H2 _ _ Ht) as [Ho Hcr]. cbn. lia.
  - by rewrite Ee, !length_app, H3.
  - intros i o Hio. apply lookup_app_Some in Hio as [Hi|[Hi Hu]].
    + destruct (H4 i o Hi) as (u & r' & Hu & Hr' & Hrest).
      destruct (Hold o) as [_ Eo]; [apply elem_of_app; left; by eapply list_elem_of_lookup_2|].
      exists u, r'. rewrite Eo, Ee. split; [done|]. split; [by apply lookup_app_l_Some|done].
    + apply list_lookup_singleton_Some in Hu as [Hi' <-]. assert (i = length order) as -> by lia.
      exists (finish_trace r deltas t), r. split; [done|]. rewrite Ee, <- H3. split; [by apply list_lookup_middle|].
      split; [done|]. split; [done|]. rewrite Hgs, Eu, H3. lia.
  - rewrite Eg, Eu, length_app. cbn. lia.
  - intros i o u Hio Hu. apply lookup_app_Some in Hio as [Hi|[Hi Hc']].
    + destruct (Hold o) as [_ Eo]; [apply elem_of_app; left; by eapply list_elem_of_lookup_2|]. rewrite Eo in Hu.
      destruct (H6 i o u Hi Hu) as [|(j & Hj & Hj')]; [by left|right]. exists j. split; [done|]. by apply lookup_app_l_Some.
    + apply list_lookup_singleton_Some in Hc' as [Hi' <-]. rewrite Hnew in Hu. injection Hu as <-. cbn.
      destruct (H7 cur t ltac:(left) Ht) as [|[Hin|Hself]]; [by left| |].
      * right. apply list_elem_of_lookup in Hin as [j Hj]. exists j. pose proof (lookup_lt_Some _ _ _ Hj).
        split; [lia|]. by apply lookup_app_l_Some.
      * exfalso. unfold trace_of in Ht. destruct (H2 _ _ Ht) as [Ho Hcr]. lia.
  - intros o u Ho Hu. destruct (Hold o) as [_ Eo]; [apply elem_of_app; by right|]. rewrite Eo in Hu.
    destruct (H7 o u ltac:(by right) Hu) as [|[Hin| ->]]; [by left| |]; right; left; apply elem_of_app; [by left|right; left].
Qed.

(** Few enough actions that no number wraps around. *)
Definition small (st : exec_state) : Prop := trace_count st < 2 ^ 32 /\ g + trace_count st < 2 ^ 64.

Lemma small_mono st st' : trace_count st <= trace_count st' -> small st' -> small st.
Proof. unfold small. lia. Qed.

(** A list of actions runs one after the other. *)
Lemma execute_each_inv (run : Z -> exec_state -> option (outcome exec_state)) :
  (forall o st st', run o st = Some (Ok st') -> trace_count st <= trace_count st' /\
     (small st' -> forall order rest, exec_inv g 0 st order (o :: rest) -> exists order', exec_inv g 0 st' order' rest)) ->
  forall ordinals st st', execute_each run ordinals st = Some (Ok st') -> trace_count st <= trace_count st' /\
    (small st' -> forall order rest, exec_inv g 0 st order (ordinals ++ rest) -> exists order', exec_inv g 0 st' order' rest).
Proof.
  intros Hrun. induction ordinals as [|o ordinals IH]; intros st st' H; cbn [execute_each] in H.
  - injection H as <-. split; [lia|]. intros _ order rest H. by exists order.
  - destruct (run o st) as [[st1|e]|] eqn:E; try done. destruct (Hrun _ _ _ E) as [H1 H2]. destruct (IH _ _ H) as [H3 H4].
    split; [lia|]. intros Hs order rest Hi. destruct (H2 (small_mono _ _ H3 Hs) _ _ Hi) as [order1 Hi1]. by eapply H4.
Qed.

Lemma schedule_actions_inv acts cf : forall st p,
  exec_inv g 0 st [] p -> trace_count st + Z.of_nat (length acts) < 2 ^ 32 ->
  exists p', exec_inv g 0 (schedule_actions acts cf st) [] p'.
Proof.
  induction acts as [|a acts IH]; intros st p H Hs; cbn [schedule_actions length] in *; [by exists p|].
  destruct (trx_schedule_action a (act_account a) cf 0 0 st) as [st1 o] eqn:E.
  destruct (schedule_inv _ _ _ _ _ _ _ _ _ _ H (or_intror eq_refl) ltac:(lia) E) as (Hi & _ & Hc & _).
  cbn [fst]. apply (IH st1 _ Hi). lia.
Qed.

End inv.

(** ** The context of an action *)

Section execution.
Context `{BT : BoostText} `{FO : FactorOrder}.
Context (hash : list Z -> sha256) (validate_code : list Z -> outcome unit).
Context (contract : sha256 -> Z -> Z -> Z -> action -> program).
Context (env : exec_env) (g : Z) (g_nonneg : 0 <= g).

(** What a context has still to run when the notified accounts before the [i]th
    are done. *)
Definition pend (i : nat) (ac : action_context) : list Z :=
  (drop i (notified ac)).*2 ++ cfa_inline_actions ac ++ inline_actions ac.

(** What is known of the notified accounts. *)
Definition notified_ok (ac : action_context) (st : exec_state) : Prop :=
  NoDup (notified ac).*1 /\ forall q, q ∈ notified ac -> exists t, trace_of st q.2 = Some t /\ at_receiver t = q.1.

(** The [i]th notified account is running. *)
Record ctx_inv (order rest : list Z) (i : nat) (ac : action_context) (st : exec_state) : Prop := {
  ci_exec : exec_inv g (action_ordinal ac) st order (rest ++ pend i ac);
  ci_cur : notified ac !! i = Some (receiver ac, action_ordinal ac);
  ci_notified : notified_ok ac st
}.

(** What a call does to the context and the state. *)
Definition advances (ac : action_context) (st : exec_state) (ac' : action_context) (st' : exec_state) : Prop :=
  trace_count st <= trace_count st' /\ recurse_depth ac' = recurse_depth ac /\
  (length (notified ac) <= length (notified ac'))%nat /\
  (trace_count st' < 2 ^ 32 -> forall order rest i, ctx_inv order rest i ac st -> ctx_inv order rest i ac' st').

Lemma advances_refl ac st : advances ac st ac st.
Proof. by split; [lia|]. Qed.

Lemma advances_trans ac st ac1 st1 ac2 st2 : advances ac st ac1 st1 -> advances ac1 st1 ac2 st2 -> advances ac st ac2 st2.
Proof.
  intros (A1 & A2 & A3 & A4) (B1 & B2 & B3 & B4). split; [lia|]. split; [congruence|]. split; [lia|].
  intros Hs order rest i H. apply B4; [done|]. apply A4; [lia|done].
Qed.

Definition same_exec (st st' : exec_state) : Prop :=
  action_traces st' = action_traces st /\ executed st' = executed st /\ global_action_sequence st' = global_action_sequence st.

Lemma same_exec_advances ac st st' : same_exec st st' -> advances ac st ac st'.
Proof.
  intros (E1 & E2 & E3). assert (trace_count st' = trace_count st) as Ec by (unfold trace_count; by rewrite E1).
  split; [lia|]. split; [done|]. split; [done|]. intros _ order rest i [H1 H2 [H3 H4]]. split; [by apply (exec_inv_ctx g _ st)|done|].
  split; [done|]. intros q Hq. destruct (H4 q Hq) as (t & Ht & Hr). exists t. unfold trace_of in *. by rewrite E1.
Qed.

Lemma privileged_advances ac st b : advances ac st (set_privileged_flag ac b) st.
Proof. split; [lia|]. split; [done|]. split; [done|]. intros _ order rest i [H1 H2 H3]. by split. Qed.

Lemma cur_pending i ac : notified ac !! i = Some (receiver ac, action_ordinal ac) -> action_ordinal ac ∈ pend i ac.
Proof. intros H. unfold pend. rewrite (drop_S _ _ _ H). left. Qed.

(** The current action schedules another one, which the context keeps in one
    of its lists. *)
Lemma schedule_advances ac st a rcv cf anc st' o ac' :
  trx_schedule_action a rcv cf (action_ordinal ac) anc st = (st', o) ->
  recurse_depth ac' = recurse_depth ac -> action_ordinal ac' = action_ordinal ac -> receiver ac' = receiver ac ->
  (notified ac' = notified ac /\ (forall i, pend i ac' ≡ₚ pend i ac ++ [o]) \/
   rcv ∉ (notified ac).*1 /\ notified ac' = notified ac ++ [(rcv, o)] /\
   cfa_inline_actions ac' = cfa_inline_actions ac /\ inline_actions ac' = inline_actions ac) ->
  advances ac st ac' st'.
Proof.
  intros H Hd Ho Hrc Hk. assert (trace_count st' = trace_count st + 1) as Ec.
  { injection H as <- _. unfold trace_count. cbn. rewrite length_app. cbn. lia. }
  split; [lia|]. split; [done|]. split.
  { destruct Hk as [[-> _]|(_ & -> & _)]; [done|]. rewrite length_app. lia. }
  intros Hs order rest i [H1 H2 [H3 H4]]. pose proof (cur_pending i ac H2) as Hp.
  assert (action_ordinal ac ∈ rest ++ pend i ac) as Hp' by (apply elem_of_app; by right).
  destruct (schedule_inv g _ _ _ _ _ _ _ _ _ _ H1 (or_introl Hp') ltac:(lia) H) as (Hi & Eo & _ & Hold & t & Ht & Hrt).
  assert (forall q, q ∈ notified ac -> exists t, trace_of st' q.2 = Some t /\ at_receiver t = q.1) as Hq.
  { intros q Hq. destruct (H4 q Hq) as (u & Hu & Hur). exists u. split; [by apply Hold|done]. }
  destruct Hk as [[En Hpend]|(Hnin & En & Ecf & Ein)].
  - split; [|by rewrite En, Ho, Hrc|split; by rewrite En]. rewrite Ho. eapply exec_inv_perm; [|exact Hi].
    rewrite (Hpend i). by rewrite app_assoc.
  - split.
    + rewrite Ho. eapply exec_inv_perm; [|exact Hi]. unfold pend. rewrite En, Ecf, Ein.
      pose proof (lookup_lt_Some _ _ _ H2). rewrite drop_app_le by lia. rewrite fmap_app. cbn [fmap list_fmap snd].
      solve_Permutation.
    + rewrite En, Ho, Hrc. by apply lookup_app_l_Some.
    + split; rewrite En.
      * rewrite fmap_app. apply list.NoDup_app. split; [done|]. split; [|apply NoDup_singleton].
        intros x Hx ->%list_elem_of_singleton. done.
      * intros q [Hq'| ->%list_elem_of_singleton]%elem_of_app; [by apply Hq|]. by exists t.
Qed.


Lemma call_advances c ac st ac' st' :
  match c with
  | call_require_recipient r => require_recipient r ac st
  | call_send_inline a => execute_inline env a ac st
  | call_send_context_free_inline a => execute_context_free_inline env a ac st
  | call_other f => c ← f (es_ctx st); Ok (ac, with_ctx st c)
  end = Ok (ac', st') -> advances ac st ac' st'.
Proof.
  destruct c as [r|a|a|f].
  - unfold require_recipient, has_recipient. destruct (existsb _ _) eqn:E; [intros [= <- <-]; apply advances_refl|].
    intros H. apply bind_ok in H as ([st1 o] & H & [= <- <-]). unfold trx_schedule_ordinal in H.
    apply bind_ok in H as (t & _ & H). destruct (trx_schedule_action (at_act t) r false _ _ st) as [st2 o2] eqn:Es.
    injection H as <- <-. eapply schedule_advances; [exact Es|done|done|done|]. right. split; [|done].
    intros ([x y] & -> & Hin)%list_elem_of_fmap. cbn in E. apply not_true_iff_false in E. apply E.
    apply existsb_exists. exists (x, y). split; [by apply list_elem_of_In|]. cbn. lia.
  - intros H. unfold execute_inline in H. apply bind_ok in H as ([] & _ & H). apply bind_ok in H as ([] & _ & H).
    apply bind_ok in H as ([] & _ & H). apply bind_ok in H as ([] & _ & H). apply bind_ok in H as ([] & _ & H).
    destruct (trx_schedule_action a _ _ _ _ st) as [st2 o2] eqn:Es. injection H as <- <-.
    eapply schedule_advances; [exact Es|done|done|done|]. left. split; [done|]. intros i. unfold pend. cbn. solve_Permutation.
  - intros H. unfold execute_context_free_inline in H. apply bind_ok in H as ([] & _ & H). apply bind_ok in H as ([] & _ & H).
    apply bind_ok in H as ([] & _ & H). destruct (trx_schedule_action a _ _ _ _ st) as [st2 o2] eqn:Es. injection H as <- <-.
    eapply schedule_advances; [exact Es|done|done|done|]. left. split; [done|]. intros i. unfold pend. cbn. solve_Permutation.
  - intros H. apply bind_ok in H as (c & _ & [= <- <-]). by apply same_exec_advances.
Qed.

Lemma run_program_advances p : forall ac st ac' st', run_program env p ac st = Ok (ac', st') -> advances ac st ac' st'.
Proof.
  induction p as [|e|c k IH]; intros ac st ac' st' H; cbn [run_program] in H.
  - injection H as <- <-. apply advances_refl.
  - done.
  - apply bind_ok in H as ([ac1 st1] & H1 & H). eapply advances_trans; [by eapply call_advances|by eapply IH].
Qed.

Lemma apply_action_advances ac st ac' st' :
  apply_action hash validate_code contract env ac st = Ok (ac', st') -> advances ac st ac' st'.
Proof.
  intros H. unfold apply_action in H. apply bind_ok in H as (ra & _ & H). apply bind_ok in H as (st1 & H1 & H).
  apply bind_ok in H as (ra' & _ & H). apply bind_ok in H as ([ac2 st2] & H2 & H). apply bind_ok in H as ([] & _ & [= <- <-]).
  eapply advances_trans; [apply (privileged_advances _ _ (is_privileged ra))|]. eapply (advances_trans _ _ _ st1).
  - destruct (is_native _ _); [|injection H1 as <-; apply advances_refl].
    apply bind_ok in H1 as ([] & _ & H1). apply bind_ok in H1 as (c & _ & [= <-]). by apply same_exec_advances.
  - destruct (_ && _); [|injection H2 as <- <-; apply advances_refl].
    apply bind_ok in H2 as ([] & _ & H2). by eapply run_program_advances.
Qed.

(** ** Receipts *)

Lemma modify_metadata_same id f st st' : modify_metadata id f st = Ok st' -> same_exec st st'.
Proof. unfold modify_metadata. intros H. by apply bind_ok in H as (m & _ & [= <-]). Qed.

Lemma auth_sequences_same auths m st st' m' : auth_sequences auths m st = Ok (st', m') -> same_exec st st'.
Proof.
  revert m st. induction auths as [|a auths IH]; intros m st H; cbn [auth_sequences] in H; [by injection H as <- _|].
  apply bind_ok in H as ([st1 s] & H1 & H). apply IH in H as (E1 & E2 & E3). unfold next_auth_sequence in H1.
  apply bind_ok in H1 as (amo & _ & H1). apply bind_ok in H1 as (st2 & H2 & H1). apply bind_ok in H1 as (x & _ & [= <- _]).
  apply modify_metadata_same in H2 as (F1 & F2 & F3). split; [congruence|]. split; congruence.
Qed.

Lemma get_action_trace_ok st o t : get_action_trace st o = Ok t -> trace_of st o = Some t.
Proof.
  unfold get_action_trace, trace_of. intros H. apply bind_ok in H as ([] & _ & H).
  destruct (action_traces st !! _); [congruence|done].
Qed.

(** After what an action did, its receipt is made. *)
Lemma exec_one_effect ac st ac' st' :
  exec_one hash validate_code contract env ac st = Ok (ac', st') ->
  exists st1 t r deltas, advances ac st ac' st1 /\ trace_of st1 (action_ordinal ac') = Some t /\ ar_receiver r = receiver ac' /\
    global_sequence r = u64 (global_action_sequence st1 + 1) /\
    action_traces st' = <[Z.to_nat (action_ordinal ac' - 1) := finish_trace r deltas t]> (action_traces st1) /\
    executed st' = executed st1 ++ [r] /\ global_action_sequence st' = u64 (global_action_sequence st1 + 1).
Proof.
  intros H. unfold exec_one in H. apply bind_ok in H as (ws & _ & H). apply bind_ok in H as ([ac1 st1] & H1 & H).
  assert (apply_action hash validate_code contract env ac st = Ok (ac1, st1)) as Ha.
  { unfold fc_capture_and_rethrow in H1. destruct (apply_action _ _ _ _ ac st) as [x|e]; [congruence|by destruct (is_std_exception e)]. }
  apply bind_ok in H as (ra & _ & H). cbn [next_global_sequence] in H. unfold next_global_sequence in H.
  apply bind_ok in H as ([st2 recv] & H2 & H). unfold next_recv_sequence in H2. apply bind_ok in H2 as (st2' & H2 & H3).
  apply bind_ok in H3 as (x & _ & [= <- _]). apply modify_metadata_same in H2 as (E1 & E2 & E3).
  apply bind_ok in H as (fra & _ & H). apply bind_ok in H as ([st3 auths] & H3 & H).
  apply auth_sequences_same in H3 as (F1 & F2 & F3). apply bind_ok in H as (t & Ht & [= <- <-]).
  apply get_action_trace_ok in Ht. cbn in E1, E2, E3. exists st1, t. do 2 eexists.
  split; [by eapply apply_action_advances|]. unfold trace_of in *. rewrite F1, E1 in Ht. split; [done|].
  cbn [action_traces executed global_action_sequence]. rewrite F1, E1, F2, E2, F3, E3. split_and!; [..|done|done|done]; done.
Qed.

(** Between two notified accounts. *)
Definition loop_inv (order rest : list Z) (i : nat) (ac : action_context) (st : exec_state) : Prop :=
  exec_inv g 0 st order (rest ++ pend i ac) /\ notified_ok ac st.

Lemma exec_one_count ac st ac' st' :
  exec_one hash validate_code contract env ac st = Ok (ac', st') ->
  trace_count st <= trace_count st' /\ recurse_depth ac' = recurse_depth ac /\ (length (notified ac) <= length (notified ac'))%nat.
Proof.
  intros (st1 & t & r & d & (A1 & A2 & A3 & _) & _ & _ & _ & Et & _)%exec_one_effect.
  assert (trace_count st' = trace_count st1) as E by (unfold trace_count; by rewrite Et, length_insert).
  split_and!; [lia|done|done].
Qed.

Lemma exec_one_inv order rest i ac st ac' st' :
  ctx_inv order rest i ac st -> exec_one hash validate_code contract env ac st = Ok (ac', st') -> small g st' ->
  loop_inv (order ++ [action_ordinal ac']) rest (S i) ac' st'.
Proof.
  intros Hc H [Hs1 Hs2]. apply exec_one_effect in H as (st1 & t & r & d & (_ & _ & _ & Hadv) & Ht & Hr & Hg & Et & Ee & Eg).
  assert (trace_count st' = trace_count st1) as E by (unfold trace_count; by rewrite Et, length_insert).
  rewrite E in Hs1, Hs2. destruct (Hadv Hs1 order rest i Hc) as [Hex Hcur [Hnd Hn]].
  destruct (Hn _ (list_elem_of_lookup_2 _ _ _ Hcur)) as (t' & Ht' & Hrt). cbn in Ht', Hrt.
  assert (t' = t) as -> by congruence.
  assert (rest ++ pend i ac' ≡ₚ action_ordinal ac' :: rest ++ pend (S i) ac') as Hp.
  { unfold pend. rewrite (drop_S _ _ _ Hcur). cbn [fmap list_fmap snd app]. solve_Permutation. }
  apply (exec_inv_perm g _ _ _ _ _ Hp) in Hex. split.
  - eapply finish_inv; try eassumption. congruence.
  - split; [done|]. intros q Hq. destruct (Hn q Hq) as (u & Hu & Hur). destruct (decide (Z.to_nat (q.2 - 1) = Z.to_nat (action_ordinal ac' - 1))) as [Eq|Hne].
    + exists (finish_trace r d t). unfold trace_of in *. rewrite Et, Eq. split; [|cbn; congruence].
      apply list_lookup_insert_eq. by eapply lookup_lt_Some.
    + exists u. split; [|done]. unfold trace_of in *. by rewrite Et, list_lookup_insert_ne.
Qed.

(** ** The notified accounts *)

Lemma notify_loop_inv fuel : forall i ac st ac' st',
  notify_loop hash validate_code contract env fuel i ac st = Some (Ok (ac', st')) ->
  trace_count st <= trace_count st' /\
  (small g st' -> forall order rest, loop_inv order rest i ac st ->
   exists order', exec_inv g 0 st' order' (rest ++ cfa_inline_actions ac' ++ inline_actions ac')).
Proof.
  assert (forall i ac st order rest, notified ac !! i = None -> loop_inv order rest i ac st ->
    exec_inv g 0 st order (rest ++ cfa_inline_actions ac ++ inline_actions ac)) as Hend.
  { intros i ac st order rest Hn [H _]. unfold pend in H. apply lookup_ge_None in Hn. by rewrite drop_ge in H. }
  induction fuel as [|fuel IH]; intros i ac st ac' st' H; cbn [notify_loop] in H;
    destruct (notified ac !! i) as [p|] eqn:Hi; try done.
  1,3: injection H as <- <-; split; [lia|]; intros _ order rest Hl; exists order; by eapply Hend.
  destruct (exec_one _ _ _ _ (set_receiver ac p) st) as [[ac1 st1]|e] eqn:E; [|done].
  destruct (IH _ _ _ _ _ H) as [Hcnt Hrec]. destruct (exec_one_count _ _ _ _ E) as (Hc1 & _ & _).
  split; [lia|]. intros Hs order rest [Hex Hn]. eapply Hrec; [done|].
  eapply (exec_one_inv order rest i); [|exact E|by eapply small_mono]. destruct p as [rcv o].
  split; [|done|done]. by apply exec_inv_start.
Qed.

(** ** Actions in actions *)

Lemma new_context_inv ordinal depth st ac order rest :
  new_action_context ordinal depth st = Ok ac -> exec_inv g 0 st order (ordinal :: rest) ->
  loop_inv order rest 0 (add_notified ac (receiver ac, action_ordinal ac)) st.
Proof.
  intros H Hi. unfold new_action_context in H. apply bind_ok in H as (t & Ht%get_action_trace_ok & [= <-]).
  split; [|split].
  - eapply exec_inv_perm; [|exact Hi]. unfold pend. cbn. solve_Permutation.
  - cbn. apply NoDup_singleton.
  - intros q ->%list_elem_of_singleton. cbn. by exists t.
Qed.

Lemma execute_action_inv fuel n : forall depth o st st',
  execute_action hash validate_code contract env fuel n depth o st = Some (Ok st') ->
  trace_count st <= trace_count st' /\
  (small g st' -> forall order rest, exec_inv g 0 st order (o :: rest) -> exists order', exec_inv g 0 st' order' rest).
Proof.
  induction fuel as [|fuel IH]; intros depth o st st' H; cbn [execute_action] in H; [done|].
  destruct (new_action_context o depth st) as [ac|e] eqn:Ec; [|done].
  destruct (notify_loop _ _ _ _ n 0 _ st) as [[[ac1 st1]|e]|] eqn:En; try done.
  destruct (_ && negb _); [done|].
  destruct (execute_each _ (cfa_inline_actions ac1) st1) as [[st2|e]|] eqn:E1; try done.
  destruct (notify_loop_inv _ _ _ _ _ _ En) as [N1 N2].
  destruct (execute_each_inv g _ (IH _) _ _ _ E1) as [A1 A2]. destruct (execute_each_inv g _ (IH _) _ _ _ H) as [B1 B2].
  split; [lia|]. intros Hs order rest Hi. assert (small g st2) as Hs2 by (by eapply small_mono).
  assert (small g st1) as Hs1 by (by eapply small_mono).
  destruct (N2 Hs1 order rest (new_context_inv _ _ _ _ _ _ Ec Hi)) as [order1 Hi1].
  destruct (A2 Hs2 order1 (inline_actions ac1 ++ rest)) as [order2 Hi2].
  { eapply exec_inv_perm; [|exact Hi1]. solve_Permutation. }
  exact (B2 Hs order2 rest Hi2).
Qed.

(** ** What the traces are of

    The traces keep what they are of, and those that are added on the way have
    a creator. *)

Definition trace_of_what (t : action_trace) : Z * Z * action * bool :=
  (creator_action_ordinal t, at_receiver t, at_act t, at_context_free t).

Definition extends (st st' : exec_state) : Prop :=
  exists new, trace_of_what <$> action_traces st' = (trace_of_what <$> action_traces st) ++ new /\
    Forall (fun w => w.1.1.1 <> 0) new.

Lemma extends_same st st' : action_traces st' = action_traces st -> extends st st'.
Proof. intros E. exists []. by rewrite E, app_nil_r. Qed.

Lemma extends_trans st st1 st' : extends st st1 -> extends st1 st' -> extends st st'.
Proof.
  intros (n1 & E1 & H1) (n2 & E2 & H2). exists (n1 ++ n2). rewrite E2, E1, app_assoc. split; [done|].
  by apply Forall_app.
Qed.

Lemma schedule_extends a rcv cf creator anc st st' o :
  trx_schedule_action a rcv cf creator anc st = (st', o) -> creator <> 0 -> extends st st'.
Proof.
  intros [= <- _] Hne. eexists [_]. cbn [action_traces with_traces]. rewrite fmap_app. split; [done|].
  by constructor.
Qed.

(** A call or a contract stays with its action and adds actions it creates. *)
Definition creates (ac : action_context) (st : exec_state) (ac' : action_context) (st' : exec_state) : Prop :=
  action_ordinal ac' = action_ordinal ac /\ (action_ordinal ac <> 0 -> extends st st').

Lemma creates_trans ac st ac1 st1 ac' st' : creates ac st ac1 st1 -> creates ac1 st1 ac' st' -> creates ac st ac' st'.
Proof. intros [A1 A2] [B1 B2]. split; [congruence|]. intros H. eapply extends_trans; [auto|]. apply B2. congruence. Qed.

Lemma same_creates ac st ac' st' :
  action_ordinal ac' = action_ordinal ac -> action_traces st' = action_traces st -> creates ac st ac' st'.
Proof. intros E1 E2. split; [done|]. intros _. by apply extends_same. Qed.

Lemma call_creates c ac st ac' st' :
  match c with
  | call_require_recipient r => require_recipient r ac st
  | call_send_inline a => execute_inline env a ac st
  | call_send_context_free_inline a => execute_context_free_inline env a ac st
  | call_other f => c ← f (es_ctx st); Ok (ac, with_ctx st c)
  end = Ok (ac', st') -> creates ac st ac' st'.
Proof.
  destruct c as [r|a|a|f]; intros H.
  - unfold require_recipient in H. destruct (has_recipient _ _); [injection H as <- <-; by apply same_creates|].
    apply bind_ok in H as ([st1 o] & H & [= <- <-]). unfold trx_schedule_ordinal in H.
    apply bind_ok in H as (t & _ & H). destruct (trx_schedule_action (at_act t) r false _ _ st) as [st2 o2] eqn:Es.
    injection H as <- <-. split; [done|]. by eapply schedule_extends.
  - unfold execute_inline in H. repeat (apply bind_ok in H as ([] & _ & H)).
    destruct (trx_schedule_action a _ _ _ _ st) as [st2 o2] eqn:Es. injection H as <- <-.
    split; [done|]. by eapply schedule_extends.
  - unfold execute_context_free_inline in H. repeat (apply bind_ok in H as ([] & _ & H)).
    destruct (trx_schedule_action a _ _ _ _ st) as [st2 o2] eqn:Es. injection H as <- <-.
    split; [done|]. by eapply schedule_extends.
  - apply bind_ok in H as (c & _ & [= <- <-]). by apply same_creates.
Qed.

Lemma run_program_creates p : forall ac st ac' st', run_program env p ac st = Ok (ac', st') -> creates ac st ac' st'.
Proof.
  induction p as [|e|c k IH]; intros ac st ac' st' H; cbn [run_program] in H.
  - injection H as <- <-. by apply same_creates.
  - done.
  - apply bind_ok in H as ([ac1 st1] & H1 & H). eapply creates_trans; [by eapply call_creates|by eapply IH].
Qed.

Lemma apply_action_creates ac st ac' st' :
  apply_action hash validate_code contract env ac st = Ok (ac', st') -> creates ac st ac' st'.
Proof.
  intros H. unfold apply_action in H. apply bind_ok in H as (ra & _ & H). apply bind_ok in H as (st1 & H1 & H).
  apply bind_ok in H as (ra' & _ & H). apply bind_ok in H as ([ac2 st2] & H2 & H). apply bind_ok in H as ([] & _ & [= <- <-]).
  apply (creates_trans _ _ (set_privileged_flag ac (is_privileged ra)) st1).
  - apply same_creates; [done|]. destruct (is_native _ _); [|by injection H1 as <-].
    apply bind_ok in H1 as ([] & _ & H1). by apply bind_ok in H1 as (c & _ & [= <-]).
  - destruct (_ && _); [|injection H2 as <- <-; by apply same_creates].
    apply bind_ok in H2 as ([] & _ & H2). by eapply run_program_creates.
Qed.

Lemma get_action_trace_pos st o t : get_action_trace st o = Ok t -> 0 < o.
Proof. unfold get_action_trace. intros H. apply bind_ok in H as ([] & H%ine_assert_ok & _). lia. Qed.

Lemma exec_one_extends ac st ac' st' :
  exec_one hash validate_code contract env ac st = Ok (ac', st') -> extends st st'.
Proof.
  intros H. unfold exec_one in H. apply bind_ok in H as (ws & _ & H). apply bind_ok in H as ([ac1 st1] & H1 & H).
  assert (apply_action hash validate_code contract env ac st = Ok (ac1, st1)) as [Ho Hx]%apply_action_creates.
  { unfold fc_capture_and_rethrow in H1. destruct (apply_action _ _ _ _ ac st) as [x|e]; [congruence|by destruct (is_std_exception e)]. }
  apply bind_ok in H as (ra & _ & H). unfold next_global_sequence in H.
  apply bind_ok in H as ([st2 recv] & H2 & H). unfold next_recv_sequence in H2. apply bind_ok in H2 as (st2' & H2 & H3).
  apply bind_ok in H3 as (x & _ & [= <- _]). apply modify_metadata_same in H2 as (E1 & _ & _).
  apply bind_ok in H as (fra & _ & H). apply bind_ok in H as ([st3 auths] & H3 & H).
  apply auth_sequences_same in H3 as (F1 & _ & _). apply bind_ok in H as (t & Ht & [= <- <-]).
  apply get_action_trace_pos in Ht as Hpos. apply get_action_trace_ok in Ht. eapply extends_trans; [apply Hx; lia|].
  exists []. rewrite app_nil_r. cbn [action_traces]. cbn in E1. split; [|constructor].
  rewrite list_fmap_insert. unfold trace_of in Ht. rewrite F1, E1 in *. apply list_insert_id.
  by rewrite list_lookup_fmap, Ht.
Qed.

Lemma notify_loop_extends fuel : forall i ac st ac' st',
  notify_loop hash validate_code contract env fuel i ac st = Some (Ok (ac', st')) -> extends st st'.
Proof.
  induction fuel as [|fuel IH]; intros i ac st ac' st' H; cbn [notify_loop] in H; destruct (notified ac !! i); try done.
  1,3: injection H as <- <-; by apply extends_same.
  destruct (exec_one _ _ _ _ _ st) as [[ac1 st1]|e] eqn:E1; [|done].
  eapply extends_trans; [by eapply exec_one_extends|by eapply IH].
Qed.

Lemma execute_each_extends (run : Z -> exec_state -> option (outcome exec_state)) :
  (forall o st st', run o st = Some (Ok st') -> extends st st') ->
  forall ordinals st st', execute_each run ordinals st = Some (Ok st') -> extends st st'.
Proof.
  intros Hr. induction ordinals as [|o ordinals IH]; intros st st' H; cbn [execute_each] in H.
  - injection H as <-. by apply extends_same.
  - destruct (run o st) as [[st1|e]|] eqn:E; try done. eapply extends_trans; [by eapply Hr|by apply IH].
Qed.

Lemma execute_action_extends fuel n : forall depth o st st',
  execute_action hash validate_code contract env fuel n depth o st = Some (Ok st') -> extends st st'.
Proof.
  induction fuel as [|fuel IH]; intros depth o st st' H; cbn [execute_action] in H; [done|].
  destruct (new_action_context o depth st) as [ac|e]; [|done].
  destruct (notify_loop _ _ _ _ n 0 _ st) as [[[ac1 st1]|e]|] eqn:En; try done. destruct (_ && negb _); [done|].
  destruct (execute_each _ (cfa_inline_actions ac1) st1) as [[st2|e]|] eqn:E1; try done.
  eapply extends_trans; [by eapply notify_loop_extends|].
  eapply extends_trans; eapply execute_each_extends; [|exact E1| |exact H]; by eapply IH.
Qed.

End execution.

(** ** The loops end *)

(** A contract notifies accounts, whose names are uint64_t. *)
Inductive names_typed : program -> Prop :=
| typed_return : names_typed p_return
| typed_throw e : names_typed (p_throw e)
| typed_call c k :
    (forall r, c = call_require_recipient r -> is_uint 64 r) -> (forall x, names_typed (k x)) -> names_typed (p_call c k).

Section termination.
Context `{BT : BoostText} `{FO : FactorOrder}.
Context (hash : list Z -> sha256) (validate_code : list Z -> outcome unit).
Context (contract : sha256 -> Z -> Z -> Z -> action -> program).
Context (contracts_typed : forall h t v r a, names_typed (contract h t v r a)).
Context (env : exec_env).

(** No account is notified twice. *)
Definition recipients_ok (ac : action_context) : Prop :=
  NoDup (notified ac).*1 /\ forall r, r ∈ tail (notified ac).*1 -> is_uint 64 r.

Lemma bounded_distinct (l : list Z) (n : Z) : NoDup l -> (forall x, x ∈ l -> 0 <= x < n) -> (length l <= Z.to_nat n)%nat.
Proof.
  intros Hnd Hb. rewrite <- (length_seqZ 0 n). apply submseteq_length, NoDup_submseteq; [done|].
  intros x Hx. apply elem_of_seqZ. specialize (Hb x Hx). lia.
Qed.

Lemma recipients_bound ac : recipients_ok ac -> (length (notified ac) <= S (Z.to_nat (2 ^ 64)))%nat.
Proof.
  intros [Hnd Ht]. rewrite <- (length_fmap fst (notified ac)). destruct (notified ac).*1 as [|x l]; cbn [length tail] in *; [lia|].
  apply list.NoDup_cons in Hnd as [_ Hnd]. apply le_n_S, bounded_distinct; [done|]. exact Ht.
Qed.

Lemma run_program_recipients p : names_typed p -> forall ac st ac' st',
  run_program env p ac st = Ok (ac', st') -> notified ac <> [] -> recipients_ok ac -> recipients_ok ac' /\ notified ac' <> [].
Proof.
  intros Hp. induction Hp as [|e|c k Hc Hk IH]; intros ac st ac' st' H Hne Hr; cbn [run_program] in H; [by injection H as <- _|done|].
  apply bind_ok in H as ([ac1 st1] & H1 & H). eapply IH; [exact H|..]; clear IH H; destruct c as [r|a|a|f].
  all: try (apply bind_ok in H1 as (x & _ & [= <- _]); done).
  all: try (unfold execute_inline in H1; repeat (apply bind_ok in H1 as ([] & _ & H1)); cbn in H1; by injection H1 as <- _).
  all: try (unfold execute_context_free_inline in H1; repeat (apply bind_ok in H1 as ([] & _ & H1)); cbn in H1; by injection H1 as <- _).
  all: unfold require_recipient, has_recipient in H1; destruct (existsb _ _) eqn:E; [by injection H1 as <- _|];
    apply bind_ok in H1 as ([st2 o] & _ & [= <- _]); cbn [notified add_notified].
  - by destruct (notified ac).
  - destruct Hr as [Hnd Ht]. unfold recipients_ok. cbn [notified add_notified]. rewrite fmap_app. split.
    + apply list.NoDup_app. split; [done|]. split; [|apply NoDup_singleton].
      intros x Hx ->%list_elem_of_singleton. apply list_elem_of_fmap in Hx as ([y z] & Hy & Hin). cbn in Hy. subst y.
      apply not_true_iff_false in E. apply E, existsb_exists. exists (r, z). split; [by apply list_elem_of_In|]. cbn. lia.
    + destruct (notified ac) as [|q l]; [done|]. cbn [fmap list_fmap app tail] in *.
      intros x [Hx| ->%list_elem_of_singleton]%elem_of_app; [by apply Ht|]. by apply Hc.
Qed.

Lemma exec_one_recipients ac st ac' st' :
  exec_one hash validate_code contract env ac st = Ok (ac', st') -> notified ac <> [] -> recipients_ok ac ->
  recipients_ok ac' /\ notified ac' <> [].
Proof.
  intros H Hne Hr. unfold exec_one in H. apply bind_ok in H as (ws & _ & H). apply bind_ok in H as ([ac1 st1] & H1 & H).
  assert (apply_action hash validate_code contract env ac st = Ok (ac1, st1)) as Ha.
  { unfold fc_capture_and_rethrow in H1. destruct (apply_action _ _ _ _ ac st) as [x|e]; [congruence|by destruct (is_std_exception e)]. }
  apply bind_ok in H as (ra & _ & H). unfold next_global_sequence in H. apply bind_ok in H as ([st2 recv] & _ & H).
  apply bind_ok in H as (fra & _ & H). apply bind_ok in H as ([st3 auths] & _ & H). apply bind_ok in H as (t & _ & [= <- _]).
  clear H1. unfold apply_action in Ha. apply bind_ok in Ha as (ra1 & _ & Ha). apply bind_ok in Ha as (st4 & _ & Ha).
  apply bind_ok in Ha as (ra2 & _ & Ha). apply bind_ok in Ha as ([ac2 st5] & H2 & Ha). apply bind_ok in Ha as ([] & _ & [= <- _]).
  destruct (_ && _); [|by injection H2 as <- _]. apply bind_ok in H2 as ([] & _ & H2).
  by eapply run_program_recipients in H2.
Qed.

Lemma notify_loop_ends fuel : forall i ac st,
  recipients_ok ac -> notified ac <> [] -> (S (Z.to_nat (2 ^ 64)) <= i + fuel)%nat ->
  notify_loop hash validate_code contract env fuel i ac st <> None.
Proof.
  induction fuel as [|fuel IH]; intros i ac st Hr Hne Hb; cbn [notify_loop]; destruct (notified ac !! i) as [p|] eqn:E; try done.
  - apply lookup_lt_Some in E. pose proof (recipients_bound ac Hr). lia.
  - destruct (exec_one _ _ _ _ _ st) as [[ac1 st1]|e] eqn:E1; [|done].
    apply exec_one_recipients in E1 as [Hr1 Hne1]; [|done|exact Hr]. apply IH; [done|done|lia].
Qed.

Lemma notify_loop_depth fuel : forall i ac st ac' st',
  notify_loop hash validate_code contract env fuel i ac st = Some (Ok (ac', st')) -> recurse_depth ac' = recurse_depth ac.
Proof.
  induction fuel as [|fuel IH]; intros i ac st ac' st' H; cbn [notify_loop] in H; destruct (notified ac !! i); try done.
  1,3: by injection H as <- _.
  destruct (exec_one _ _ _ _ _ st) as [[ac1 st1]|e] eqn:E1; [|done]. apply IH in H as ->.
  by apply (exec_one_count hash validate_code contract env 0) in E1 as (_ & -> & _).
Qed.

Lemma execute_each_ends (run : Z -> exec_state -> option (outcome exec_state)) ordinals :
  (forall o st, run o st <> None) -> forall st, execute_each run ordinals st <> None.
Proof.
  intros Hr. induction ordinals as [|o ordinals IH]; intros st; cbn [execute_each]; [done|].
  specialize (Hr o st). destruct (run o st) as [[st1|e]|]; [apply IH|done|done].
Qed.

Lemma execute_action_ends n : (Z.to_nat (2 ^ 64) < n)%nat -> forall fuel depth o st,
  (Z.to_nat (max_inline_action_depth env - depth) < fuel)%nat ->
  execute_action hash validate_code contract env fuel n depth o st <> None.
Proof.
  intros Hn. induction fuel as [|fuel IH]; intros depth o st Hf; [lia|]. cbn [execute_action].
  destruct (new_action_context o depth st) as [ac|e] eqn:Ec; [|done].
  assert (recurse_depth ac = depth /\ notified ac = []) as [Hd Hnil].
  { unfold new_action_context in Ec. by apply bind_ok in Ec as (t & _ & [= <-]). }
  pose proof (notify_loop_ends n 0 (add_notified ac (receiver ac, action_ordinal ac)) st) as Hl.
  destruct (notify_loop _ _ _ _ n 0 _ st) as [[[ac1 st1]|e]|] eqn:En; [|done|].
  - apply notify_loop_depth in En. cbn in En. rewrite Hd in En. rewrite En.
    destruct (nonempty (cfa_inline_actions ac1) || nonempty (inline_actions ac1)) eqn:Ei; cbn [andb].
    + destruct (Z.ltb_spec depth (max_inline_action_depth env)); cbn [negb]; [|done].
      assert (forall o st, execute_action hash validate_code contract env fuel n (depth + 1) o st <> None) as Hrun.
      { intros o' st'. apply IH. lia. }
      pose proof (execute_each_ends _ (cfa_inline_actions ac1) Hrun st1) as H1.
      destruct (execute_each _ (cfa_inline_actions ac1) st1) as [[st2|e]|]; [|done|done]. by apply execute_each_ends.
    + apply orb_false_iff in Ei as [E1 E2]. destruct (cfa_inline_actions ac1); [|done]. by destruct (inline_actions ac1).
  - exfalso. apply Hl; [|cbn; by rewrite Hnil|lia|done]. unfold recipients_ok. cbn. rewrite Hnil. cbn.
    split; [apply NoDup_singleton|]. intros r Hr. inversion Hr.
Qed.

End termination.

Lemma schedule_actions_length acts cf : forall st,
  trace_count (schedule_actions acts cf st) = trace_count st + Z.of_nat (length acts).
Proof.
  induction acts as [|a acts IH]; intros st; cbn [schedule_actions length]; [lia|]. rewrite IH.
  unfold trace_count. cbn. rewrite length_app. cbn. lia.
Qed.

(** ** Theorems *)

(** The actions of the transaction itself, with whether they are context free:
    the context-free ones where they are applied, and the others unless the
    transaction is delayed. *)
Definition own_actions (apply_context_free : bool) (delay : Z) (trx : transaction) : list (action * bool) :=
  (if apply_context_free then (fun a => (a, true)) <$> context_free_actions trx else []) ++
  (if delay =? 0 then (fun a => (a, false)) <$> actions trx else []).

Lemma schedule_actions_traces acts cf : forall st,
  trace_of_what <$> action_traces (schedule_actions acts cf st) =
  (trace_of_what <$> action_traces st) ++ ((fun a => (0, act_account a, a, cf)) <$> acts).
Proof.
  induction acts as [|a acts IH]; intros st; cbn [schedule_actions fmap list_fmap]; [by rewrite app_nil_r|].
  rewrite IH. cbn [fst trx_schedule_action action_traces with_traces]. by rewrite fmap_app, <- app_assoc.
Qed.

(** The traces of a transaction that has executed begin with those of its own
    actions, and the others have a creator. *)
Lemma own_traces `{BT : BoostText} `{FO : FactorOrder} hash validate_code contract env fuel n
    apply_context_free delay trx st st' :
  action_traces st = [] ->
  execute_transaction hash validate_code contract env fuel n apply_context_free delay trx st = Some (Ok st') ->
  exists new, trace_of_what <$> action_traces st' =
    ((fun p => (0, act_account p.1, p.1, p.2)) <$> own_actions apply_context_free delay trx) ++ new /\
    Forall (fun w => w.1.1.1 <> 0) new.
Proof.
  intros Ht H. unfold execute_transaction in H.
  apply execute_each_extends in H as (new & E & Hnew); [|intros *; apply execute_action_extends].
  exists new. rewrite E. split; [|done]. f_equal. unfold own_actions.
  destruct (delay =? 0), apply_context_free; rewrite ?schedule_actions_traces, Ht, ?fmap_app; cbn [app fmap list_fmap]; rewrite ?app_nil_r, <- ?list_fmap_compose; done.
Qed.

Lemma own_trace_lookup own new st' k a cf :
  trace_of_what <$> action_traces st' = ((fun p => (0, act_account p.1, p.1, p.2)) <$> own) ++ new ->
  own !! k = Some (a, cf) ->
  exists t, trace_of st' (Z.of_nat k + 1) = Some t /\ creator_action_ordinal t = 0 /\
    at_receiver t = act_account a /\ at_act t = a /\ at_context_free t = cf.
Proof.
  intros E Hk. assert ((trace_of_what <$> action_traces st') !! k = Some (0, act_account a, a, cf)) as H.
  { rewrite E. apply lookup_app_l_Some. by rewrite list_lookup_fmap, Hk. }
  apply list_lookup_fmap_Some in H as (t & Et & Hl). unfold trace_of_what in Et. injection Et as E1 E2 E3 E4.
  exists t. unfold trace_of. replace (Z.to_nat (Z.of_nat k + 1 - 1)) with k by lia. done.
Qed.

Lemma created_trace_lookup own new st' o t :
  trace_of_what <$> action_traces st' = ((fun p => (0, act_account p.1, p.1, p.2)) <$> own) ++ new ->
  Forall (fun w => w.1.1.1 <> 0) new -> trace_of st' o = Some t ->
  Z.of_nat (length own) < o -> creator_action_ordinal t <> 0.
Proof.
  intros E Hnew Ht Ho. unfold trace_of in Ht.
  assert ((trace_of_what <$> action_traces st') !! Z.to_nat (o - 1) = Some (trace_of_what t)) as H
    by by rewrite list_lookup_fmap, Ht.
  rewrite E in H. rewrite lookup_app_r, length_fmap in H by (rewrite length_fmap; lia).
  rewrite list.Forall_forall in Hnew. by apply (Hnew _ (list_elem_of_lookup_2 _ _ _ H)).
Qed.

(** The order in which the actions ran. *)
Lemma actions_ordered `{BT : BoostText} `{FO : FactorOrder} hash validate_code contract env fuel n
    apply_context_free delay trx st st' :
  action_traces st = [] -> executed st = [] -> 0 <= global_action_sequence st ->
  execute_transaction hash validate_code contract env fuel n apply_context_free delay trx st = Some (Ok st') ->
  trace_count st' < 2 ^ 32 -> global_action_sequence st + trace_count st' < 2 ^ 64 ->
  exists order, order ≡ₚ seqZ 1 (trace_count st') /\ length (executed st') = length order /\
    forall i o, order !! i = Some o -> exists t r,
      trace_of st' o = Some t /\ at_ordinal t = o /\ executed st' !! i = Some r /\ receipt t = Some r /\
      ar_receiver r = at_receiver t /\ global_sequence r = global_action_sequence st + 1 + Z.of_nat i /\
      (creator_action_ordinal t = 0 \/ exists j, (j < i)%nat /\ order !! j = Some (creator_action_ordinal t)).
Proof.
  intros Ht He Hg H Hs1 Hs2. unfold execute_transaction in H. set (g := global_action_sequence st) in *.
  set (st1 := if apply_context_free then schedule_actions (context_free_actions trx) true st else st) in H.
  set (st2 := if delay =? 0 then schedule_actions (actions trx) false st1 else st1) in H.
  destruct (execute_each_inv g _ (execute_action_inv hash validate_code contract env g Hg fuel n 0) _ _ _ H) as [Hc Hi].
  assert (exec_inv g 0 st [] []) as H0.
  { split; unfold trace_count, trace_of; rewrite ?Ht, ?He; try done. cbn. lia. }
  assert (exists p, exec_inv g 0 st2 [] p) as [p Hp].
  { assert (trace_count st1 <= trace_count st2) as Hle.
    { unfold st2. destruct (delay =? 0); [|lia]. rewrite schedule_actions_length. lia. }
    assert (exists p, exec_inv g 0 st1 [] p) as [p Hp].
    { unfold st1 in *. destruct apply_context_free; [|by exists []].
      eapply schedule_actions_inv; [exact H0|]. rewrite schedule_actions_length in Hle. lia. }
    unfold st2 in *. destruct (delay =? 0); [|by exists p]. eapply schedule_actions_inv; [exact Hp|].
    rewrite schedule_actions_length in Hc. lia. }
  destruct (Hi (conj Hs1 Hs2) [] []) as [order [P1 P2 P3 P4 _ P6 _]].
  { rewrite app_nil_r. eapply exec_inv_perm; [|exact Hp]. apply (ei_perm _ _ _ _ _ Hp). }
  exists order. rewrite app_nil_r in P1. split; [done|]. split; [done|]. intros i o Ho.
  destruct (P4 i o Ho) as (t & r & Ht' & Hr). exists t, r.
  assert (at_ordinal t = o) as Eo.
  { assert (o ∈ order) as Hin by (by eapply list_elem_of_lookup_2). rewrite P1, elem_of_seqZ in Hin.
    unfold trace_of in Ht'. destruct (P2 _ _ Ht') as [-> _]. lia. }
  split_and!; try done; try apply Hr. by eapply P6.
Qed.

(** C10: a transaction that executes has run every action exactly once.  Its
    traces begin with those of its own actions, in order: the context-free ones
    where they are applied, and the others unless the transaction is delayed;
    each is for the account of its action.  All other traces are of actions
    that an action before them notified or sent.  There is an order of all
    traces in which each of them ran exactly once, after the one that created
    it, with a receipt for its receiver; the receipts are listed in this order
    and have consecutive global sequence numbers. *)
Theorem every_action_runs_once `{BT : BoostText} `{FO : FactorOrder} hash validate_code contract env fuel n
    apply_context_free delay trx st st' :
  action_traces st = [] -> executed st = [] -> 0 <= global_action_sequence st ->
  execute_transaction hash validate_code contract env fuel n apply_context_free delay trx st = Some (Ok st') ->
  trace_count st' < 2 ^ 32 -> global_action_sequence st + trace_count st' < 2 ^ 64 ->
  let own := own_actions apply_context_free delay trx in
  (forall k a cf, own !! k = Some (a, cf) -> exists t, trace_of st' (Z.of_nat k + 1) = Some t /\
     creator_action_ordinal t = 0 /\ at_receiver t = act_account a /\ at_act t = a /\ at_context_free t = cf) /\
  (forall o t, trace_of st' o = Some t -> Z.of_nat (length own) < o -> creator_action_ordinal t <> 0) /\
  exists order, order ≡ₚ seqZ 1 (trace_count st') /\ length (executed st') = length order /\
    forall i o, order !! i = Some o -> exists t r,
      trace_of st' o = Some t /\ at_ordinal t = o /\ executed st' !! i = Some r /\ receipt t = Some r /\
      ar_receiver r = at_receiver t /\ global_sequence r = global_action_sequence st + 1 + Z.of_nat i /\
      (creator_action_ordinal t = 0 \/ exists j, (j < i)%nat /\ order !! j = Some (creator_action_ordinal t)).
Proof.
  intros Ht He Hg H Hs1 Hs2 own. destruct (own_traces _ _ _ _ _ _ _ _ _ _ _ Ht H) as (new & Eown & Hnew).
  split; [intros k a cf; by apply (own_trace_lookup own new)|].
  split; [intros o t; by apply (created_trace_lookup own new)|]. by eapply actions_ordered.
Qed.

(** C25: the execution of a transaction ends.  The depth of inline actions is
    bounded by the configuration, so that one level more than that is enough, and
    the loop over the notified accounts, which grows while it runs, ends because
    no account is notified twice and the name of an account has 64 bits. *)
Theorem execution_ends `{BT : BoostText} `{FO : FactorOrder} hash validate_code contract env fuel n
    apply_context_free delay trx st :
  (forall h t v r a, names_typed (contract h t v r a)) ->
  (Z.to_nat (max_inline_action_depth env) < fuel)%nat -> (Z.to_nat (2 ^ 64) < n)%nat ->
  execute_transaction hash validate_code contract env fuel n apply_context_free delay trx st <> None.
Proof.
  intros Hc Hf Hn. unfold execute_transaction. apply execute_each_ends. intros o st'.
  apply execute_action_ends; [done|done|]. by rewrite Z.sub_0_r.
Qed.

(** How long an inline action has waited, and the checker that knows only the
    code permission of the sender. *)
Definition inline_delay (env : exec_env) : Z :=
  effective_delay (ee_chain env) (i64 (pending_block_time (ee_chain env) - ee_published env)).
Definition code_checker (env : exec_env) (sender : Z) (db : chain_db) : authority_checker :=
  transaction_checker (ee_chain env) db [] [mk_permission_level sender inery_code_name] (inline_delay env).

(** C24: an inline action needs the authority of the code that sends it.  When
    the authorizations are not skipped (as in the replay of trusted blocks), an
    inline action that a contract without privileges sends is scheduled only
    if each level it declares is one the action admits and is justified,
    without any key, by the code permission of the sending account alone.  The
    only exception is an action to the sending account itself as long as the
    protocol feature RESTRICT_ACTION_TO_SELF is not active. *)
Theorem inline_needs_code_permission `{FO : FactorOrder, !FactorOrderLaws FO} env a ac st ac' st' :
  forest (permission_index (es_db st)) -> authorities_typed (es_db st) ->
  execute_inline env a ac st = Ok (ac', st') ->
  privileged ac = false -> skip_auth_check env = false ->
  (is_builtin_activated (ee_chain env) restrict_action_to_self = false /\ act_account a = receiver ac) \/
  forall p, p ∈ authorization a -> exists d d', admitted (ee_chain env) (es_db st) (inline_delay env) a p d /\
    d' <= d /\ checker_level (with_delay (code_checker env (receiver ac) (es_db st)) d') p.
Proof.
  intros Hf Ht H Hp Hs. set (disallow := is_builtin_activated (ee_chain env) restrict_action_to_self) in *.
  destruct (decide (disallow = false /\ act_account a = receiver ac)) as [|Hself]; [by left|right]. intros p Hin.
  assert (disallow || negb (act_account a =? receiver ac) = true) as Hno.
  { destruct disallow; [done|]. destruct (Z.eqb_spec (act_account a) (receiver ac)); [|done]. by destruct Hself. }
  assert (negb disallow && (act_account a =? receiver ac) = false) as Hno'.
  { destruct disallow; [done|]. by apply negb_true_iff in Hno. }
  unfold execute_inline in H. fold disallow in H. rewrite Hp, Hs, Hno' in H. cbn [negb andb] in H.
  apply bind_ok in H as ([] & _ & H). apply bind_ok in H as ([] & _ & H). apply bind_ok in H as ([] & _ & H).
  apply bind_ok in H as ([] & _ & H). apply bind_ok in H as ([] & H & _). unfold bypass_send_to_self in H.
  destruct (check_authorization _ _ _ _ _ _ _ _ _) as [[]|e] eqn:E; [|rewrite Hno in H; by destruct (negb _)].
  destruct (checked_levels _ _ _ _ _ _ _ _ _ Hf Ht E a p ltac:(left) Hin) as (d & Had & [Hnil|(d' & Hd & Hl)]).
  - inversion Hnil.
  - by exists d, d'.
Qed.

(** ** An example

    The account alice has a contract: its action 1 notifies the system account
    and sends two inline actions to itself, one of them context free. *)

Definition alice_active : permission_level := mk_permission_level alice_name active_name.

Definition alice_contract (h : sha256) (vm_type vm_version rcv : Z) (a : action) : program :=
  if act_name a =? 1 then
    p_call (call_require_recipient system_account_name) (fun _ =>
    p_call (call_send_inline (mk_action alice_name 2 [alice_active] [])) (fun _ =>
    p_call (call_send_context_free_inline (mk_action alice_name 3 [] [])) (fun _ => p_return)))
  else p_return.

Definition alice_auth : authority :=
  mk_authority 1 [mk_key_weight example_key 1]
    [mk_permission_level_weight (mk_permission_level alice_name inery_code_name) 1] [].

Definition set_code_hash (a : account_metadata_object) : account_metadata_object :=
  if amo_name a =? alice_name
  then mk_account_metadata_object (amo_id a) (amo_name a) (recv_sequence a) (auth_sequence a) (code_sequence a)
         (abi_sequence a) (mk_sha256 1 2 3 4) (last_code_update a) (flags a) (amo_vm_type a) (amo_vm_version a)
  else a.

Definition alice_update : action :=
  native_action updateauth_name alice_name updateauth_codec (mk_updateauth alice_name active_name owner_name alice_auth).
Definition alice_updated : chain_db := default empty_chain_db (example_run example_end [alice_update]).
Definition install_contract (idx : generic_index account_metadata_object) : generic_index account_metadata_object :=
  mk_generic_index (stack idx) (revision idx) (next_id idx) (set_code_hash <$> indices idx).
Definition alice_db : chain_db := with_metadata alice_updated (install_contract (account_metadata_index alice_updated)).

Definition example_exec_env : exec_env :=
  mk_exec_env example_env (mk_account_lists [] [] [] [] []) 4 524288 4096 false 1600000000000000 (fun _ => Ok tt).
Definition example_exec_state : exec_state := mk_exec_state (mk_apply_ctx alice_db ∅ ∅) 100 [] [].
Definition example_exec_trx : transaction := mk_transaction 0 0 0 0 0 0 [] [mk_action alice_name 1 [alice_active] []] [].

Definition example_execution : option (outcome exec_state) :=
  execute_transaction (BT := reference_boost) (FO := reference_order) (fun _ => zero_digest) (fun _ => Ok tt) alice_contract
    example_exec_env 5 3 true 0 example_exec_trx example_exec_state.
Definition example_executed : exec_state := match example_execution with Some (Ok st) => st | _ => example_exec_state end.

Lemma example_receipts :
  (fun r => (ar_receiver r, global_sequence r, ar_recv_sequence r)) <$> executed example_executed =
  [(alice_name, 101, 1); (system_account_name, 102, 1); (alice_name, 103, 2); (alice_name, 104, 3)].
Proof. by vm_compute. Qed.

Lemma every_action_runs_once_witness :
  trace_count example_executed = 4 /\
  (exists t, trace_of example_executed 1 = Some t /\ at_act t = mk_action alice_name 1 [alice_active] []) /\
  exists order, order ≡ₚ seqZ 1 4 /\ length (executed example_executed) = length order.
Proof.
  assert (example_execution = Some (Ok example_executed)) as E by (by vm_compute).
  assert (trace_count example_executed = 4) as Ec by (by vm_compute). split; [done|].
  destruct (every_action_runs_once (BT := reference_boost) (FO := reference_order) (fun _ => zero_digest) (fun _ => Ok tt)
    alice_contract example_exec_env 5 3 true 0 example_exec_trx example_exec_state example_executed)
    as (H0 & _ & order & H1 & H2 & _).
  - done.
  - done.
  - done.
  - exact E.
  - by rewrite Ec.
  - by rewrite Ec.
  - split.
    + destruct (H0 0%nat _ _ eq_refl) as (t & Ht & _ & _ & Ha & _). exists t. by split.
    + exists order. rewrite Ec in H1. by split.
Defined.

Lemma alice_contract_typed h t v r a : names_typed (alice_contract h t v r a).
Proof. unfold alice_contract. destruct (act_name a =? 1); [|constructor]. repeat (constructor; intros); by simplify_eq. Qed.

Lemma execution_ends_witness :
  execute_transaction (BT := reference_boost) (FO := reference_order) (fun _ => zero_digest) (fun _ => Ok tt) alice_contract
    example_exec_env 5 (S (Z.to_nat (2 ^ 64))) true 0 example_exec_trx example_exec_state <> None.
Proof.
  apply (execution_ends (BT := reference_boost) (FO := reference_order) (fun _ => zero_digest) (fun _ => Ok tt)
    alice_contract example_exec_env 5 (S (Z.to_nat (2 ^ 64))) true 0 example_exec_trx example_exec_state).
  - exact alice_contract_typed.
  - cbn. lia.
  - apply Nat.lt_succ_diag_r.
Defined.

Lemma alice_updated_inv : auth_inv alice_updated.
Proof.
  apply (native_steps_inv (BT := reference_boost) (fun _ => zero_digest) (fun _ => Ok tt) (fun _ => True) example_end).
  - exact example_end_inv.
  - apply (example_run_steps (fun _ => True) [alice_update]); [done|]. by vm_compute.
Qed.

Lemma alice_db_typed : authorities_typed alice_db.
Proof.
  assert (Forall (fun kv => authority_typed (auth kv.2)) (map_to_list (indices (permission_index alice_db)))) as H.
  { set (l := map_to_list _). vm_compute in l. subst l. repeat constructor; vm_compute; done. }
  intros i p Hp%elem_of_map_to_list. rewrite list.Forall_forall in H. apply (H _ Hp).
Qed.

(** The context of alice's contract while it runs action 1, and what it sends. *)
Definition example_sender : action_context :=
  mk_action_context alice_name 1 1 (mk_action alice_name 1 [alice_active] []) false 0 [(alice_name, 1)] [] [].
Definition example_sending : exec_state := schedule_actions (actions example_exec_trx) false example_exec_state.
Definition example_inline : action := mk_action alice_name 2 [alice_active] [].

Lemma example_sending_db : es_db example_sending = alice_db.
Proof. unfold example_sending. cbn [actions example_exec_trx]. reflexivity. Qed.
Lemma with_metadata_permissions db m : permission_index (with_metadata db m) = permission_index db.
Proof. reflexivity. Qed.
Lemma alice_db_forest : forest (permission_index alice_db).
Proof. unfold alice_db. rewrite with_metadata_permissions. exact (pi_forest _ (ai_perm _ alice_updated_inv)). Qed.

Lemma inline_needs_code_permission_witness :
  inline_delay example_exec_env = 0 /\
  exists d d', admitted example_env alice_db (inline_delay example_exec_env) example_inline alice_active d /\ d' <= d /\
    checker_level (with_delay (code_checker example_exec_env alice_name alice_db) d') alice_active.
Proof.
  destruct (execute_inline (FO := reference_order) example_exec_env example_inline example_sender example_sending) as [[ac' st']|e] eqn:E.
  2: { exfalso. revert E. clear. by vm_compute. }
  split; [by vm_compute|].
  assert (forest (permission_index (es_db example_sending))) as Hf by (rewrite example_sending_db; exact alice_db_forest).
  assert (authorities_typed (es_db example_sending)) as Ht by (rewrite example_sending_db; exact alice_db_typed).
  assert (is_builtin_activated (ee_chain example_exec_env) restrict_action_to_self = true) as Hb by (by vm_compute).
  assert (alice_active ∈ authorization example_inline) as Hin by left.
  destruct (inline_needs_code_permission (FO := reference_order) (FactorOrderLaws0 := reference_order_laws) example_exec_env example_inline example_sender
    example_sending ac' st' Hf Ht E eq_refl eq_refl) as [[Hno _]|H]; [congruence|].
  destruct (H alice_active Hin) as (d & d' & H1 & H2 & H3).
  rewrite example_sending_db in H1, H3.
  exists d, d'. exact (conj H1 (conj H2 H3)).
Defined.
