(* ===== verification/Deferred.v ===== *)
(** * Deferred transactions

    Models apply_context::schedule_deferred_transaction (apply_context.cpp),
    controller::add_to_mem_correction, remove_scheduled_transaction and the
    handler of the activation of REPLACE_DEFERRED (controller.cpp), with
    account_mem_correction_object (account_object.hpp).  Cancelling is in
    [NativeActions], delaying an input transaction in [TransactionContext].

    A contract stores a transaction for later and an account pays for its
    memory.  Before the protocol feature REPLACE_DEFERRED, a contract that
    replaced a transaction did not get back the memory of the replaced one; the
    code notes these bytes per account and gives them back when the feature is
    activated.

    The theorems: the bytes an account is billed are at any time those of the
    transactions it pays for, those noted and those of everything else, and the
    activation gives back exactly what was noted; a stored transaction has
    the authority of the code of the contract that stored it. *)

From S2P Require Import Prelude Exceptions Names Merkle Authority AuthorityChecker Timestamps ResourceLimits Raw Codecs.
From S2P Require Import Chainbase BlockHeader Transactions ProtocolFeatures ChainObjects Permissions NativeActions.
From S2P Require Import Authorization ChainConfig TransactionChecks TransactionContext ActionExecution ExecutionOrder.

(** ** Corrections *)

Record account_mem_correction_object := mk_account_mem_correction_object {
  amc_id : Z;
  amc_name : Z;
  mem_correction : Z
}.

Definition correction_by_name (c : account_mem_correction_object) : list Z := [amc_name c].

#[export] Instance account_mem_correction_chain_object : ChainObject account_mem_correction_object :=
  {| obj_id := amc_id; obj_keys := [correction_by_name] |}.

Definition more_correction (mem_bytes : Z) (c : account_mem_correction_object) : account_mem_correction_object :=
  mk_account_mem_correction_object (amc_id c) (amc_name c) (u64 (mem_correction c + mem_bytes)).

Definition add_to_mem_correction (account mem_bytes : Z) (idx : generic_index account_mem_correction_object) :
  outcome (generic_index account_mem_correction_object) :=
  match find_by correction_by_name [account] idx with
  | Some c => db_modify (amc_id c) (more_correction mem_bytes) idx
  | None => '(idx, _) ← db_create (fun i => mk_account_mem_correction_object i account mem_bytes) idx; Ok idx
  end.

(** ** Scheduling *)

(** What the controller and the transaction say. *)
Record deferred_env := mk_deferred_env {
  de_exec : exec_env;
  de_trx : trx_env;
  de_trx_id : sha256;
  head_block_id : sha256;
  sender_bypass_whiteblacklist : list Z;
  disable_all_subjective_mitigations : bool;
  allow_mem_billing_in_notify : bool
}.

(** The database, the corrections and the net usage of the transaction. *)
Record deferred_state := mk_deferred_state {
  ds_ctx : apply_ctx;
  corrections : generic_index account_mem_correction_object;
  ds_net : net_account
}.

Definition with_ds_ctx (st : deferred_state) (c : apply_ctx) : deferred_state :=
  mk_deferred_state c (corrections st) (ds_net st).
Definition ds_gtos (st : deferred_state) : generic_index generated_transaction_object :=
  generated_transaction_index (ctx_db (ds_ctx st)).
Definition with_gtos (st : deferred_state) (idx : generic_index generated_transaction_object) : deferred_state :=
  with_ds_ctx st (with_db (ds_ctx st) (with_generated (ctx_db (ds_ctx st)) idx)).

Section schedule.
Context `{FO : FactorOrder} (hash : list Z -> sha256) (env : deferred_env).
Let cenv := ee_chain (de_exec env).

Definition is_mem_billing_in_notify_allowed : bool :=
  disable_all_subjective_mitigations env || negb (is_producing_block cenv) || allow_mem_billing_in_notify env.

Definition sender_avoids_whitelist_blacklist_enforcement (sender : Z) : bool :=
  bool_decide (sender ∈ sender_bypass_whiteblacklist env).

Definition with_header (t : transaction) (exp num prefix : Z) (exts : list (Z * list Z)) : transaction :=
  mk_transaction exp num prefix (max_net_usage_words t) (max_cpu_usage_ms t) (delay_sec t) (context_free_actions t)
    (actions t) exts.

(** The header and the extension a deferred transaction gets. *)
Definition deferred_header (rcv sid : Z) (t : transaction) : outcome transaction :=
  if is_builtin_activated cenv no_duplicate_deferred_id then
    exts ← validate_and_extract_extensions t;
    exts' ← match exts with
            | [] =>
                bytes ← pack_vector generation_context_codec (mk_generation_context (de_trx_id env) sid rcv);
                Ok (emplace_extension (transaction_extensions t) generation_context_id bytes)
            | (_, context) :: rest =>
                ine_assert (bool_decide (rest = [])) (Throw invalid_transaction_extension) ;;
                ine_assert (sender context =? rcv) (Throw ill_formed_deferred_transaction_generation_context) ;;
                ine_assert (sender_id context =? sid) (Throw ill_formed_deferred_transaction_generation_context) ;;
                ine_assert (bool_decide (sender_trx_id context = de_trx_id env))
                  (Throw ill_formed_deferred_transaction_generation_context) ;;
                Ok (transaction_extensions t)
            end;
    Ok (with_header t 0 0 0 exts')
  else
    Ok (set_reference_block (head_block_id env)
          (with_header t (sec_of_time_point (i64 (pending_block_time cenv + 999999))) (ref_block_num t) (ref_block_prefix t)
             (transaction_extensions t))).

Definition check_deferred_payer (ac : action_context) (pay : Z) : outcome unit :=
  if pay =? receiver ac then Ok tt
  else if is_builtin_activated cenv mem_restrictions then
    ine_assert (receiver ac =? act_account (act ac)) (Throw action_validate_exception) ;;
    ine_assert (has_authorization (act ac) pay) (Throw action_validate_exception)
  else require_authorization (act ac) pay.

Definition is_sending_only_to_self (self : Z) (t : transaction) : bool :=
  forallb (fun a => act_account a =? self) (actions t).

Definition check_deferred_authorization (ac : action_context) (t : transaction) (db : chain_db) : outcome unit :=
  bypass_send_to_self (de_exec env) (is_builtin_activated cenv restrict_action_to_self)
    (is_sending_only_to_self (receiver ac) t)
    (check_authorization cenv db (actions t) [] [mk_permission_level (receiver ac) inery_code_name]
       (seconds (delay_sec t)) (Some (ee_checktime (de_exec env))) false []).

Definition gto_bytes (packed : list Z) : Z := u64 (billable_generated_transaction_object + Z.of_nat (length packed)).

Definition new_gto (trx_id : sha256) (rcv sid pay delay : Z) (packed : list Z) (i : Z) : generated_transaction_object :=
  let published := pending_block_time cenv in
  let until := i64 (published + delay) in
  mk_generated_transaction_object i trx_id rcv sid pay until
    (i64 (until + seconds (deferred_trx_expiration_window (configuration (de_trx env))))) published packed.

(** The one with the same sender and id makes room.  The result says the id of
    the new one. *)
Definition replace_deferred_transaction (replace_existing : bool) (new_id : sha256) (ptr : generated_transaction_object)
    (st : deferred_state) : outcome (deferred_state * sha256) :=
  ine_assert replace_existing (Throw deferred_tx_duplicate) ;;
  let activated := is_builtin_activated cenv replace_deferred in
  ine_assert (activated || negb (is_producing_block cenv) || disable_all_subjective_mitigations env)
    (Throw subjective_block_production_exception) ;;
  let orig_trx_mem_bytes := gto_bytes (gto_packed_trx ptr) in
  st ← (if activated
        then c ← add_mem_usage (payer ptr) (i64 (- i64 orig_trx_mem_bytes)) (ds_ctx st); Ok (with_ds_ctx st c)
        else idx ← add_to_mem_correction (payer ptr) orig_trx_mem_bytes (corrections st);
             Ok (mk_deferred_state (ds_ctx st) idx (ds_net st)));
  idx ← db_remove (gto_id ptr) (ds_gtos st);
  Ok (with_gtos st idx, if activated then new_id else gto_trx_id ptr).

Definition store_deferred (replace_existing : bool) (ac : action_context) (sid pay : Z) (t : transaction) (st : deferred_state) :
  outcome deferred_state :=
  packed ← pack_transaction t;
  let new_id := hash packed in
  '(st, trx_id) ←
    match find_by by_sender_id [receiver ac; sid] (ds_gtos st) with
    | Some ptr => replace_deferred_transaction replace_existing new_id ptr st
    | None => Ok (st, new_id)
    end;
  '(idx, _) ← db_create (new_gto trx_id (receiver ac) sid pay (seconds (delay_sec t)) packed) (ds_gtos st);
  ine_assert (is_builtin_activated cenv mem_restrictions || is_mem_billing_in_notify_allowed ||
              (receiver ac =? act_account (act ac)) || (receiver ac =? pay) || privileged ac)
    (Throw subjective_block_production_exception) ;;
  c ← add_mem_usage pay (i64 (u64 (billable_generated_transaction_object + u32 (Z.of_nat (length packed)))))
        (ds_ctx (with_gtos st idx));
  Ok (with_ds_ctx st c).

Definition schedule_deferred_transaction (ac : action_context) (sid pay : Z) (t : transaction) (replace_existing : bool)
    (st : deferred_state) : outcome deferred_state :=
  ine_assert (bool_decide (context_free_actions t = [])) (Throw cfa_inside_generated_tx) ;;
  validate_referenced_accounts (ee_lists (de_exec env)) (ctx_db (ds_ctx st)) t
    (enforce_whiteblacklist cenv && is_producing_block cenv &&
     negb (sender_avoids_whitelist_blacklist_enforcement (receiver ac))) ;;
  t ← deferred_header (receiver ac) sid t;
  let n := with_usage (ds_net st) (u64 (trx_net_usage (ds_net st) +
             u64 (base_per_transaction_net_usage (configuration (de_trx env)) + transaction_id_net_usage))) in
  check_net_usage (de_trx env) n ;;
  let st := mk_deferred_state (ds_ctx st) (corrections st) n in
  (if negb (skip_auth_check (de_exec env)) && negb (privileged ac) then
     check_deferred_payer ac pay ;;
     check_deferred_authorization ac t (ctx_db (ds_ctx st))
   else Ok tt) ;;
  store_deferred replace_existing ac sid pay t st.

End schedule.

(** ** Retiring *)

(** [controller_impl::remove_scheduled_transaction], with the change of the
    memory. *)
Definition remove_scheduled_transaction (gto : generated_transaction_object) (db : chain_db) : outcome (chain_db * Z) :=
  let mem_delta := i64 (- gto_bytes (gto_packed_trx gto)) in
  rl ← add_pending_mem_usage (resource_limits db) (payer gto) mem_delta;
  idx ← db_remove (gto_id gto) (generated_transaction_index db);
  Ok (with_generated (with_resources db rl) idx, mem_delta).

(** ** Activation of REPLACE_DEFERRED *)

(** The loop takes the first correction as long as there is one; the fuel is
    the number of corrections. *)
Fixpoint give_back (fuel : nat) (rl : rl_db) (idx : generic_index account_mem_correction_object) :
  outcome (rl_db * generic_index account_mem_correction_object) :=
  match ids_in_order (dom (indices idx)) with
  | [] => Ok (rl, idx)
  | i :: _ =>
      match fuel with
      | O => Err undefined_behaviour
      | S fuel' =>
          c ← Chainbase.get i idx;
          current_mem_usage ← get_account_mem_usage rl (amc_name c);
          let mem_delta := if mem_correction c >? u64 current_mem_usage then i64 (- current_mem_usage)
                           else i64 (- i64 (mem_correction c)) in
          rl ← add_pending_mem_usage rl (amc_name c) mem_delta;
          idx ← db_remove i idx;
          give_back fuel' rl idx
      end
  end.

Definition on_activation_replace_deferred (db : chain_db) (idx : generic_index account_mem_correction_object) :
  outcome (chain_db * generic_index account_mem_correction_object) :=
  '(rl, idx) ← give_back (size (indices idx)) (resource_limits db) idx;
  Ok (with_resources db rl, idx).

(** ** What accounts pay *)

Definition row_bytes (g : generated_transaction_object) : Z :=
  billable_generated_transaction_object + Z.of_nat (length (gto_packed_trx g)).

(** The bytes of the stored transactions an account pays for, and the bytes
    that are noted for it. *)
Definition stored_bytes (idx : generic_index generated_transaction_object) (a : Z) : Z :=
  table_sum (fun _ g => if payer g =? a then row_bytes g else 0) (indices idx).
Definition noted_bytes (idx : generic_index account_mem_correction_object) (a : Z) : Z :=
  table_sum (fun _ c => if amc_name c =? a then mem_correction c else 0) (indices idx).

Definition small_rows (idx : generic_index generated_transaction_object) : Prop :=
  forall i g, indices idx !! i = Some g -> Z.of_nat (length (gto_packed_trx g)) < 2 ^ 32.

Abbreviation ds_rl st := (resource_limits (ctx_db (ds_ctx st))).

(** [other a] is what the account [a] pays for everything else. *)
Record accounted (other : Z -> Z) (st : deferred_state) : Prop := {
  ad_rl : rl_inv (ds_rl st);
  ad_gtos : table_ok (ds_gtos st);
  ad_corrections : table_ok (corrections st);
  ad_small : small_rows (ds_gtos st);
  ad_noted : forall i c, indices (corrections st) !! i = Some c -> 0 < mem_correction c;
  ad_other : forall a, 0 <= other a;
  ad_mem : forall a, mem_of (ds_rl st) a = other a + stored_bytes (ds_gtos st) a + noted_bytes (corrections st) a
}.

Lemma row_bytes_range g : Z.of_nat (length (gto_packed_trx g)) < 2 ^ 32 -> 0 < row_bytes g < 2 ^ 33.
Proof.
  intros H. unfold row_bytes. assert (0 < billable_generated_transaction_object < 1000) by (by vm_compute). lia.
Qed.

Lemma stored_nonneg idx a : 0 <= stored_bytes idx a.
Proof.
  apply table_sum_nonneg. intros _ g. destruct (_ =? _); [|done]. unfold row_bytes.
  assert (0 <= billable_generated_transaction_object) by (by vm_compute). lia.
Qed.

Lemma noted_nonneg (m : gmap Z account_mem_correction_object) a :
  (forall i c, m !! i = Some c -> 0 < mem_correction c) ->
  0 <= table_sum (fun _ c => if amc_name c =? a then mem_correction c else 0) m.
Proof.
  induction m as [|i c m Hn IH] using map_ind; intros Hc; [done|]. rewrite table_sum_insert by done.
  assert (0 < mem_correction c) by (apply (Hc i); apply lookup_insert_eq).
  enough (0 <= table_sum (fun _ c => if amc_name c =? a then mem_correction c else 0) m) by (destruct (_ =? _); lia).
  apply IH. intros j d Hd. apply (Hc j). rewrite lookup_insert_ne; [done|congruence].
Qed.

Lemma stored_insert idx idx' i g a :
  indices idx' = <[i := g]> (indices idx) -> indices idx !! i = None ->
  stored_bytes idx' a = stored_bytes idx a + if a =? payer g then row_bytes g else 0.
Proof. intros E H. unfold stored_bytes. rewrite E, table_sum_insert, (Z.eqb_sym a) by done. lia. Qed.

Lemma stored_delete idx idx' i g a :
  indices idx' = delete i (indices idx) -> indices idx !! i = Some g ->
  stored_bytes idx a = stored_bytes idx' a + if a =? payer g then row_bytes g else 0.
Proof. intros E H. unfold stored_bytes. rewrite E, (table_sum_delete _ _ i g H), (Z.eqb_sym a). lia. Qed.

Lemma small_delete idx idx' i : indices idx' = delete i (indices idx) -> small_rows idx -> small_rows idx'.
Proof. intros E H j g. rewrite E. intros [_ Hg]%lookup_delete_Some. by apply (H j). Qed.

Lemma gto_bytes_small g : Z.of_nat (length (gto_packed_trx g)) < 2 ^ 32 -> gto_bytes (gto_packed_trx g) = row_bytes g.
Proof. intros H. pose proof (row_bytes_range g H). unfold gto_bytes. apply wrap_id. unfold row_bytes in *. unfold is_uint. lia. Qed.

(** *** Notes *)

Lemma add_to_mem_correction_ok account bytes idx idx' :
  table_ok idx -> (forall i c, indices idx !! i = Some c -> 0 < mem_correction c) ->
  0 < bytes -> noted_bytes idx account + bytes < 2 ^ 64 -> add_to_mem_correction account bytes idx = Ok idx' ->
  table_ok idx' /\ (forall i c, indices idx' !! i = Some c -> 0 < mem_correction c) /\
  forall a, noted_bytes idx' a = noted_bytes idx a + if a =? account then bytes else 0.
Proof.
  intros Hok Hn Hb Hs H. unfold add_to_mem_correction in H. destruct (find_by _ _ idx) as [c|] eqn:Ef.
  - apply find_by_Some in Ef as [[i Hc] Hk]. unfold correction_by_name in Hk. injection Hk as Hk.
    apply db_modify_ok in H as (v & Hv & E & _ & Hok'); [|done|done]. pose proof (t_ids _ Hok i c Hc) as Hi. cbn in Hi. rewrite Hi in *.
    assert (v = c) as -> by congruence.
    assert (mem_correction c <= noted_bytes idx account) as Hle.
    { unfold noted_bytes. rewrite (table_sum_delete _ _ i c Hc), Hk, Z.eqb_refl. apply Z.le_sub_le_add_l. rewrite Z.sub_diag.
      apply noted_nonneg. intros j d [_ Hd]%lookup_delete_Some. by apply (Hn j). }
    assert (mem_correction (more_correction bytes c) = mem_correction c + bytes) as Em.
    { cbn. apply wrap_id. pose proof (Hn i c Hc). unfold is_uint. lia. }
    split; [done|]. split.
    + intros j d. rewrite E. intros [[_ <-]|[_ Hd]]%lookup_insert_Some; [|by apply (Hn j)]. rewrite Em. pose proof (Hn i c Hc). lia.
    + intros a. unfold noted_bytes. rewrite E, (table_sum_update _ _ i c (more_correction bytes c) Hc), Em.
      cbn [amc_name more_correction]. rewrite Hk, (Z.eqb_sym account). destruct (a =? account); lia.
  - apply bind_ok in H as ([idx1 v] & H & [= <-]). apply table_create_ok in H as (-> & Hnone & E & _ & Hok'); [|done|done].
    split; [done|]. split.
    + intros j d. rewrite E. intros [[_ <-]|[_ Hd]]%lookup_insert_Some; [done|by apply (Hn j)].
    + intros a. unfold noted_bytes. rewrite E, table_sum_insert by done. cbn [amc_name mem_correction]. rewrite (Z.eqb_sym account). lia.
Qed.

(** *** Every operation keeps the account *)

Lemma mem_typed rl a : rl_inv rl -> 0 <= mem_of rl a < 2 ^ 64.
Proof.
  intros H. unfold mem_of. destruct (usages rl !! a) as [u|] eqn:E; [|lia]. by destruct (inv_usages _ H _ _ E) as (_ & _ & ?).
Qed.

(** A row goes and its payer gets its bytes back. *)
Lemma accounted_remove other st c idx g i :
  accounted other st -> indices (ds_gtos st) !! i = Some g ->
  add_mem_usage (payer g) (- row_bytes g) (ds_ctx st) = Ok c ->
  db_remove (gto_id g) (generated_transaction_index (ctx_db c)) = Ok idx ->
  accounted other (with_gtos (with_ds_ctx st c) idx).
Proof.
  intros [H1 H2 H3 H4 H5 H6 H7] Hg Hm Hr. pose proof (row_bytes_range g (H4 i g Hg)) as Hb.
  pose proof (add_mem_usage_db _ _ _ _ Hm) as Hdb. apply add_mem_usage_ok in Hm as [Hi' Hm]; [|done|lia].
  assert (generated_transaction_index (ctx_db c) = ds_gtos st) as Ei by (rewrite Hdb; done).
  rewrite Ei in Hr. apply db_remove_ok in Hr as (v & Hv & E & _ & Hok'); [|done].
  pose proof (t_ids _ H2 i g Hg) as Hid. cbn in Hid. rewrite Hid in *. assert (v = g) as -> by congruence.
  split; cbn; try done.
  - by apply (small_delete _ _ i E).
  - intros a. rewrite Hm, H7, (stored_delete _ _ i g a E Hv). destruct (a =? payer g); lia.
Qed.

(** A row comes and its payer is billed. *)
Lemma accounted_create other st new c idx g :
  accounted other st -> (forall i, gto_id (new i) = i) -> db_create new (ds_gtos st) = Ok (idx, g) ->
  Z.of_nat (length (gto_packed_trx g)) < 2 ^ 32 ->
  add_mem_usage (payer g) (row_bytes g) (ds_ctx (with_gtos st idx)) = Ok c -> accounted other (with_ds_ctx st c).
Proof.
  intros [H1 H2 H3 H4 H5 H6 H7] Hn Hc Hs Hm. pose proof (row_bytes_range g Hs) as Hb.
  pose proof (add_mem_usage_db _ _ _ _ Hm) as Hdb. apply add_mem_usage_ok in Hm as [Hi' Hm]; [|done|lia].
  apply table_create_ok in Hc as (Eg & Hnone & E & _ & Hok'); [|done|done].
  assert (ds_gtos (with_ds_ctx st c) = idx) as Ei by (unfold ds_gtos; cbn; rewrite Hdb; done).
  split; rewrite ?Ei; try done.
  - intros i g'. rewrite E. intros [[_ <-]|[_ Hg]]%lookup_insert_Some; [done|by apply (H4 i)].
  - intros a. cbn [ds_ctx with_ds_ctx corrections]. rewrite Hm, (stored_insert _ _ _ _ a E Hnone). cbn. rewrite H7. lia.
Qed.

(** A row goes and its bytes are noted. *)
Lemma accounted_note other st cs idx g i :
  accounted other st -> indices (ds_gtos st) !! i = Some g ->
  add_to_mem_correction (payer g) (row_bytes g) (corrections st) = Ok cs ->
  db_remove (gto_id g) (ds_gtos st) = Ok idx ->
  accounted other (with_gtos (mk_deferred_state (ds_ctx st) cs (ds_net st)) idx).
Proof.
  intros [H1 H2 H3 H4 H5 H6 H7] Hg Hn Hr. pose proof (row_bytes_range g (H4 i g Hg)) as Hb.
  apply db_remove_ok in Hr as (v & Hv & E & _ & Hok'); [|done].
  pose proof (t_ids _ H2 i g Hg) as Hid. cbn in Hid. rewrite Hid in *. assert (v = g) as -> by congruence.
  apply add_to_mem_correction_ok in Hn as (Hok & Hn0 & Hn); [|done|done|lia|].
  - split; cbn; try done; [by apply (small_delete _ _ i E)|]. intros a. rewrite Hn, H7, (stored_delete _ _ i g a E Hv). lia.
  - pose proof (mem_typed _ (payer g) H1) as Hm. rewrite H7, (stored_delete _ _ i g (payer g) E Hv), Z.eqb_refl in Hm.
    pose proof (stored_nonneg idx (payer g)). pose proof (H6 (payer g)). lia.
Qed.

Lemma accounted_net other st n : accounted other st -> accounted other (mk_deferred_state (ds_ctx st) (corrections st) n).
Proof. intros []. by split. Qed.

Lemma i64_row g : Z.of_nat (length (gto_packed_trx g)) < 2 ^ 32 -> i64 (- i64 (row_bytes g)) = - row_bytes g.
Proof. intros H%row_bytes_range. by rewrite !i64_id by (rewrite ?i64_id; lia). Qed.

Lemma replace_accounted env other rep new_id g i st st' id :
  accounted other st -> indices (ds_gtos st) !! i = Some g ->
  replace_deferred_transaction env rep new_id g st = Ok (st', id) -> accounted other st'.
Proof.
  intros Ha Hg H. pose proof (ad_small _ _ Ha i g Hg) as Hs. unfold replace_deferred_transaction in H.
  apply bind_ok in H as ([] & _ & H). apply bind_ok in H as ([] & _ & H). apply bind_ok in H as (st1 & H1 & H).
  apply bind_ok in H as (idx & Hr & [= <- _]). rewrite gto_bytes_small in H1 by done. destruct (is_builtin_activated _ _).
  - apply bind_ok in H1 as (c & Hm & [= <-]). rewrite i64_row in Hm by done. by apply (accounted_remove other st c idx g i).
  - apply bind_ok in H1 as (cs & Hn & [= <-]). by apply (accounted_note other st cs idx g i).
Qed.

Lemma store_accounted hash env other rep ac sid pay t st st' :
  accounted other st -> store_deferred hash env rep ac sid pay t st = Ok st' -> small_rows (ds_gtos st') -> accounted other st'.
Proof.
  intros Ha H Hs. unfold store_deferred in H. apply bind_ok in H as (packed & _ & H). apply bind_ok in H as ([st1 id] & H1 & H).
  assert (accounted other st1) as Ha1.
  { destruct (find_by _ _ _) as [g|] eqn:Ef; [|by injection H1 as <- _]. apply find_by_Some in Ef as [[i Hg] _].
    by apply (replace_accounted _ _ _ _ _ i _ _ _ Ha Hg H1). }
  apply bind_ok in H as ([idx g] & Hc & H). apply bind_ok in H as ([] & _ & H). apply bind_ok in H as (c & Hm & [= <-]).
  pose proof (table_create_ok (new_gto env id (receiver ac) sid pay (seconds (delay_sec t)) packed) _ _ _
    (ad_gtos _ _ Ha1) (fun i => eq_refl) Hc) as (Eg & _ & E & _ & _).
  assert (Z.of_nat (length packed) < 2 ^ 32) as Hl.
  { assert (ds_gtos (with_ds_ctx st1 c) = idx) as Ei.
    { unfold ds_gtos. cbn. by rewrite (add_mem_usage_db _ _ _ _ Hm). }
    rewrite Ei in Hs. specialize (Hs (next_id (ds_gtos st1)) g). rewrite E, lookup_insert_eq, Eg in Hs. by apply Hs. }
  eapply accounted_create; [exact Ha1| |exact Hc|by rewrite Eg|]; [done|].
  assert (payer g = pay /\ gto_packed_trx g = packed) as [-> Ep] by (by rewrite Eg).
  pose proof (row_bytes_range g ltac:(by rewrite Ep)) as Hb. unfold row_bytes in *. rewrite Ep in *.
  rewrite (wrap_id 32) in Hm by (split; lia). rewrite (wrap_id 64) in Hm by (split; lia). by rewrite i64_id in Hm by lia.
Qed.

Lemma schedule_accounted `{FO : FactorOrder} hash env other ac sid pay t rep st st' :
  accounted other st -> schedule_deferred_transaction hash env ac sid pay t rep st = Ok st' -> small_rows (ds_gtos st') ->
  accounted other st'.
Proof.
  intros Ha H Hs. unfold schedule_deferred_transaction in H. apply bind_ok in H as ([] & _ & H).
  apply bind_ok in H as ([] & _ & H). apply bind_ok in H as (t' & _ & H). apply bind_ok in H as ([] & _ & H).
  apply bind_ok in H as ([] & _ & H). eapply store_accounted; [|exact H|exact Hs]. by apply accounted_net.
Qed.

(** With the feature no correction is noted. *)
Lemma schedule_corrections `{FO : FactorOrder} hash env ac sid pay t rep st st' :
  is_builtin_activated (ee_chain (de_exec env)) replace_deferred = true ->
  schedule_deferred_transaction hash env ac sid pay t rep st = Ok st' -> corrections st' = corrections st.
Proof.
  intros Hf H. unfold schedule_deferred_transaction in H. apply bind_ok in H as ([] & _ & H).
  apply bind_ok in H as ([] & _ & H). apply bind_ok in H as (t' & _ & H). apply bind_ok in H as ([] & _ & H).
  apply bind_ok in H as ([] & _ & H). unfold store_deferred in H. apply bind_ok in H as (packed & _ & H).
  apply bind_ok in H as ([st1 id] & H1 & H). apply bind_ok in H as ([idx g] & _ & H). apply bind_ok in H as ([] & _ & H).
  apply bind_ok in H as (c & _ & [= <-]). cbn. destruct (find_by _ _ _) as [g'|]; [|by injection H1 as <- _].
  unfold replace_deferred_transaction in H1. rewrite Hf in H1. apply bind_ok in H1 as ([] & _ & H1).
  apply bind_ok in H1 as ([] & _ & H1). apply bind_ok in H1 as (st2 & H2 & H1). apply bind_ok in H1 as (idx' & _ & [= <- _]).
  by apply bind_ok in H2 as (c' & _ & [= <-]).
Qed.

Lemma cancel_accounted other sid snd st c b :
  accounted other st -> cancel_deferred_transaction sid snd (ds_ctx st) = Ok (c, b) -> accounted other (with_ds_ctx st c).
Proof.
  intros Ha H. unfold cancel_deferred_transaction in H. destruct (find_by _ _ _) as [g|] eqn:Ef.
  - apply find_by_Some in Ef as [[i Hg] _]. apply bind_ok in H as (c1 & Hm & H). apply bind_ok in H as (idx & Hr & [= <- _]).
    apply (accounted_remove other st c1 idx g i Ha Hg Hm Hr).
  - injection H as <- _. by destruct st.
Qed.

(** The controller removes a stored transaction before it runs it. *)
Lemma retire_accounted other g i st db' d :
  accounted other st -> indices (ds_gtos st) !! i = Some g ->
  remove_scheduled_transaction g (ctx_db (ds_ctx st)) = Ok (db', d) ->
  accounted other (with_ds_ctx st (with_db (ds_ctx st) db')).
Proof.
  intros [H1 H2 H3 H4 H5 H6 H7] Hg H. pose proof (H4 i g Hg) as Hs. pose proof (row_bytes_range g Hs) as Hb.
  unfold remove_scheduled_transaction in H. rewrite gto_bytes_small in H by done. rewrite i64_id in H by lia.
  apply bind_ok in H as (rl & Hm & H). apply bind_ok in H as (idx & Hr & [= <- _]).
  apply pending_mem_ok in Hm as [Hi' Hm]; [|done|lia]. apply db_remove_ok in Hr as (v & Hv & E & _ & Hok'); [|done].
  pose proof (t_ids _ H2 i g Hg) as Hid. cbn in Hid. rewrite Hid in *.
  fold (ds_gtos st) in Hv, E. assert (v = g) as -> by congruence. split; cbn; try done.
  - by apply (small_delete _ _ i E).
  - intros a. rewrite Hm, H7, (stored_delete _ _ i g a E Hv). destruct (a =? payer g); lia.
Qed.

Lemma exists_deleted {V} (idx : generic_index V) i : exists idx' : generic_index V, indices idx' = delete i (indices idx).
Proof. by exists (mk_generic_index [] 0 0 (delete i (indices idx))). Qed.

(** Nothing keeps a stored transaction from being removed. *)
Lemma retire_total other st i g :
  accounted other st -> indices (ds_gtos st) !! i = Some g ->
  exists db' d, remove_scheduled_transaction g (ctx_db (ds_ctx st)) = Ok (db', d).
Proof.
  intros [H1 H2 H3 H4 H5 H6 H7] Hg. pose proof (H4 i g Hg) as Hs. pose proof (row_bytes_range g Hs) as Hb.
  unfold remove_scheduled_transaction. rewrite gto_bytes_small by done. rewrite i64_id by lia. cbv zeta.
  assert (row_bytes g <= mem_of (ds_rl st) (payer g)) as Hle.
  { rewrite H7. pose proof (H6 (payer g)). pose proof (noted_nonneg (indices (corrections st)) (payer g) H5).
    assert (row_bytes g <= stored_bytes (ds_gtos st) (payer g)); [|unfold noted_bytes; lia].
    destruct (exists_deleted (ds_gtos st) i) as [idx' E]. rewrite (stored_delete _ idx' i g (payer g) E Hg), Z.eqb_refl.
    pose proof (stored_nonneg idx' (payer g)). lia. }
  assert (exists rl, add_pending_mem_usage (ds_rl st) (payer g) (- row_bytes g) = Ok rl) as [rl ->].
  { rewrite mem_delta_exact by (done || lia). destruct (Z.eqb_spec (- row_bytes g) 0); [lia|]. unfold mem_of in Hle.
    destruct (usages (ds_rl st) !! payer g) as [u|] eqn:Eu; [|lia]. destruct (inv_usages _ H1 _ _ Eu) as (_ & _ & Hm). unfold is_uint in Hm.
    destruct (Z.leb_spec 0 (mem_usage u + - row_bytes g)), (Z.leb_spec (mem_usage u + - row_bytes g) UINT64_MAX); try lia. by eexists. }
  cbn [mbind result_bind]. pose proof (t_ids _ H2 i g Hg) as Hid. cbn in Hid. rewrite Hid.
  unfold db_remove, Chainbase.remove, container_erase. fold (ds_gtos st). rewrite Hg. cbn. by eexists _, _.
Qed.

(** An input transaction with a delay is stored. *)
Lemma delay_accounted env inp other delay ctx ctx' st :
  accounted other st -> ctx_db (ds_ctx st) = tx_db ctx -> schedule_transaction env inp delay ctx = Ok ctx' ->
  small_rows (generated_transaction_index (tx_db ctx')) ->
  accounted other (with_ds_ctx st (with_db (ds_ctx st) (tx_db ctx'))).
Proof.
  intros Ha Hdb H Hs. unfold schedule_transaction in H. apply bind_ok in H as (ctx1 & H1 & H).
  assert (tx_db ctx1 = tx_db ctx) as E1.
  { destruct (delay_sec _ =? 0); [|by injection H1 as <-]. by apply bind_ok in H1 as ([] & _ & [= <-]). }
  apply bind_ok in H as (packed & _ & H). apply bind_ok in H as ([idx g] & Hc & H). unfold context_add_mem_usage in H.
  apply bind_ok in H as (c & Hm & [= <-]). rewrite E1, <- Hdb in *. cbn [tx_db] in *.
  apply table_create_ok in Hc as (Eg & Hnone & E & _ & Hok'); [|exact (ad_gtos _ _ Ha)|done]. fold (ds_gtos st) in E, Hnone.
  unfold trx_add_mem_usage in Hm. apply bind_ok in Hm as (rl & Hm & [= <-]). cbn in Hs, Hm |- *.
  assert (Z.of_nat (length (gto_packed_trx g)) < 2 ^ 32) as Hl.
  { specialize (Hs (next_id (ds_gtos st)) g). rewrite E, lookup_insert_eq in Hs. by apply Hs. }
  pose proof (row_bytes_range g Hl) as Hb.
  assert (i64 (billable_generated_transaction_object + u32 (Z.of_nat (length (concat packed)))) = row_bytes g) as Er.
  { assert (gto_packed_trx g = concat packed) as Ep by (by rewrite Eg). unfold row_bytes in *. rewrite Ep in *.
    rewrite (wrap_id 32) by (split; lia). by rewrite i64_id by lia. }
  rewrite Er in Hm. destruct Ha as [H1' H2 H3 H4 H5 H6 H7]. apply pending_mem_ok in Hm as [Hi' Hm]; [|done|lia].
  split; cbn; try done. intros a. rewrite Hm, H7, (stored_insert _ _ _ _ a E Hnone). lia.
Qed.

(** *** Activation *)

Lemma remove_total (idx : generic_index account_mem_correction_object) i c :
  indices idx !! i = Some c -> exists idx', db_remove i idx = Ok idx'.
Proof. intros H. unfold db_remove, Chainbase.remove, container_erase. rewrite H. cbn. by eexists. Qed.

Lemma noted_delete idx idx' i c a :
  indices idx' = delete i (indices idx) -> indices idx !! i = Some c ->
  noted_bytes idx a = noted_bytes idx' a + if a =? amc_name c then mem_correction c else 0.
Proof. intros E H. unfold noted_bytes. rewrite E, (table_sum_delete _ _ i c H), (Z.eqb_sym a). lia. Qed.

(** One round gives back one correction. *)
Lemma give_back_round rl idx i c :
  rl_inv rl -> indices idx !! i = Some c -> 0 < mem_correction c <= mem_of rl (amc_name c) -> mem_of rl (amc_name c) < 2 ^ 63 ->
  exists current rl', get_account_mem_usage rl (amc_name c) = Ok current /\
    add_pending_mem_usage rl (amc_name c) (if mem_correction c >? u64 current then i64 (- current)
                                           else i64 (- i64 (mem_correction c))) = Ok rl' /\
    rl_inv rl' /\ forall a, mem_of rl' a = mem_of rl a - if a =? amc_name c then mem_correction c else 0.
Proof.
  intros Hi Hc Hle Hs. unfold mem_of in Hle, Hs. destruct (usages rl !! amc_name c) as [u|] eqn:Eu; [|lia].
  unfold get_account_mem_usage, db_get. rewrite Eu. cbn. exists (mem_usage u).
  rewrite !(i64_id (mem_usage u)), (wrap_id 64 (mem_usage u)) by (try split; lia).
  destruct (Z.gtb_spec (mem_correction c) (mem_usage u)) as [|_]; [lia|]. rewrite !i64_id by (rewrite ?i64_id; lia).
  destruct (add_pending_mem_usage rl (amc_name c) (- mem_correction c)) as [rl'|e] eqn:E.
  - exists rl'. split; [done|]. split; [done|]. apply pending_mem_ok in E as [Hi' Hm]; [|done|lia]. split; [done|].
    intros a. rewrite Hm. destruct (a =? _); lia.
  - rewrite mem_delta_exact, Eu in E by (done || lia). destruct (Z.eqb_spec (- mem_correction c) 0); [lia|].
    destruct (Z.leb_spec 0 (mem_usage u + - mem_correction c)), (Z.leb_spec (mem_usage u + - mem_correction c) UINT64_MAX); try done; lia.
Qed.

Lemma give_back_ok fuel : forall rl idx,
  (size (indices idx) <= fuel)%nat -> rl_inv rl -> table_ok idx ->
  (forall i c, indices idx !! i = Some c -> 0 < mem_correction c) ->
  (forall a, noted_bytes idx a <= mem_of rl a < 2 ^ 63) ->
  exists rl' idx', give_back fuel rl idx = Ok (rl', idx') /\ rl_inv rl' /\ table_ok idx' /\ indices idx' = ∅ /\
    forall a, mem_of rl' a = mem_of rl a - noted_bytes idx a.
Proof.
  induction fuel as [|fuel IH]; intros rl idx Hsz Hi Hok Hn Hm; cbn [give_back].
  all: destruct (ids_in_order (dom (indices idx))) as [|i l] eqn:El.
  1,3: assert (indices idx = ∅) as E0 by
    (apply map_eq; intros k; rewrite lookup_empty; apply eq_None_not_Some; intros Hk%elem_of_dom%elem_of_ids_in_order;
     rewrite El in Hk; inversion Hk).
  1,2: exists rl, idx; split_and!; try done; intros a; unfold noted_bytes; rewrite E0; unfold table_sum; rewrite map_fold_empty; lia.
  all: assert (i ∈ ids_in_order (dom (indices idx))) as Hin by (rewrite El; left).
  all: apply elem_of_ids_in_order, elem_of_dom in Hin as [c Hc].
  - assert (size (indices idx) = 0%nat) as Hz%map_size_empty_inv by lia. by rewrite Hz, lookup_empty in Hc.
  - unfold Chainbase.get, Chainbase.find. rewrite Hc. cbn [mbind result_bind].
    destruct (remove_total idx i c Hc) as [idx1 Hr]. destruct (db_remove_ok i idx idx1 Hok Hr) as (v & Hv & E & _ & Hok1).
    assert (v = c) as -> by congruence.
    assert (forall j d, indices idx1 !! j = Some d -> 0 < mem_correction d) as Hn1
      by (intros j d; rewrite E; intros [_ Hd]%lookup_delete_Some; by apply (Hn j)).
    assert (forall a, 0 <= noted_bytes idx1 a) as Hpos by (intros a; by apply noted_nonneg).
    assert (0 < mem_correction c <= mem_of rl (amc_name c)) as Hle.
    { split; [by apply (Hn i)|]. pose proof (Hm (amc_name c)) as Hx. rewrite (noted_delete _ _ i c _ E Hc), Z.eqb_refl in Hx.
      pose proof (Hpos (amc_name c)). lia. }
    destruct (give_back_round rl idx i c Hi Hc Hle) as (current & rl1 & -> & Hb & Hi1 & Hm1); [apply Hm|].
    cbn [mbind result_bind]. rewrite Hb. cbn [mbind result_bind]. rewrite Hr. cbn [mbind result_bind].
    destruct (IH rl1 idx1) as (rl2 & idx2 & Hg & Hi2 & Hok2 & He2 & Hm2); try done.
    + rewrite E, map_size_delete_Some by done. lia.
    + intros a. rewrite Hm1. pose proof (Hm a) as Hx. rewrite (noted_delete _ _ i c _ E Hc) in Hx. destruct (a =? amc_name c); lia.
    + exists rl2, idx2. split_and!; try done. intros a. rewrite Hm2, Hm1, (noted_delete _ _ i c _ E Hc). lia.
Qed.

(** ** Theorems *)

(** The delay that counts for a deferred transaction, and the checker that knows
    only the code permission of its sender. *)
Definition deferred_delay (env : deferred_env) (t : transaction) : Z :=
  effective_delay (ee_chain (de_exec env)) (seconds (delay_sec t)).
Definition deferred_checker (env : deferred_env) (snd : Z) (t : transaction) (db : chain_db) : authority_checker :=
  transaction_checker (ee_chain (de_exec env)) db [] [mk_permission_level snd inery_code_name] (deferred_delay env t).

Lemma deferred_header_actions env rcv sid t t' :
  deferred_header env rcv sid t = Ok t' -> actions t' = actions t /\ delay_sec t' = delay_sec t.
Proof.
  unfold deferred_header. destruct (is_builtin_activated _ _); [|by intros [= <-]].
  intros H. apply bind_ok in H as (exts & _ & H). by apply bind_ok in H as (exts' & _ & [= <-]).
Qed.

Section theorems.
Context `{FO : FactorOrder} (hash : list Z -> sha256).

(** The books of a chain: whether REPLACE_DEFERRED is active, what accounts pay
    for everything else, and the state. *)
Record ledger := mk_ledger { feature_active : bool; other_bytes : Z -> Z; book : deferred_state }.

(** The steps that change deferred transactions and corrections, and all other
    billing. *)
Inductive deferred_step : ledger -> ledger -> Prop :=
| step_schedule b other st env ac sid pay t rep st' :
    is_builtin_activated (ee_chain (de_exec env)) replace_deferred = b ->
    schedule_deferred_transaction hash env ac sid pay t rep st = Ok st' -> small_rows (ds_gtos st') ->
    deferred_step (mk_ledger b other st) (mk_ledger b other st')
| step_delay b other st env inp delay ctx ctx' :
    ctx_db (ds_ctx st) = tx_db ctx -> schedule_transaction env inp delay ctx = Ok ctx' ->
    small_rows (generated_transaction_index (tx_db ctx')) ->
    deferred_step (mk_ledger b other st) (mk_ledger b other (with_ds_ctx st (with_db (ds_ctx st) (tx_db ctx'))))
| step_cancel b other st sid snd c r :
    cancel_deferred_transaction sid snd (ds_ctx st) = Ok (c, r) ->
    deferred_step (mk_ledger b other st) (mk_ledger b other (with_ds_ctx st c))
| step_retire b other st i g db' d :
    indices (ds_gtos st) !! i = Some g -> remove_scheduled_transaction g (ctx_db (ds_ctx st)) = Ok (db', d) ->
    deferred_step (mk_ledger b other st) (mk_ledger b other (with_ds_ctx st (with_db (ds_ctx st) db')))
| step_other b other st other' c n :
    generated_transaction_index (ctx_db c) = ds_gtos st -> rl_inv (resource_limits (ctx_db c)) ->
    (forall a, 0 <= other' a) ->
    (forall a, mem_of (resource_limits (ctx_db c)) a - other' a = mem_of (ds_rl st) a - other a) ->
    deferred_step (mk_ledger b other st) (mk_ledger b other' (mk_deferred_state c (corrections st) n))
| step_activate other st db' idx' :
    (forall a, mem_of (ds_rl st) a < 2 ^ 63) ->
    on_activation_replace_deferred (ctx_db (ds_ctx st)) (corrections st) = Ok (db', idx') ->
    deferred_step (mk_ledger false other st)
      (mk_ledger true other (mk_deferred_state (with_db (ds_ctx st) db') idx' (ds_net st))).

Record books_ok (l : ledger) : Prop := {
  bk_accounted : accounted (other_bytes l) (book l);
  bk_no_notes : feature_active l = true -> indices (corrections (book l)) = ∅
}.

Lemma noted_le other st a : accounted other st -> noted_bytes (corrections st) a <= mem_of (ds_rl st) a.
Proof.
  intros [H1 H2 H3 H4 H5 H6 H7]. rewrite H7. pose proof (H6 a). pose proof (stored_nonneg (ds_gtos st) a). lia.
Qed.

Lemma activation_ok other st :
  accounted other st -> (forall a, mem_of (ds_rl st) a < 2 ^ 63) ->
  exists db' idx', on_activation_replace_deferred (ctx_db (ds_ctx st)) (corrections st) = Ok (db', idx') /\
    indices idx' = ∅ /\ accounted other (mk_deferred_state (with_db (ds_ctx st) db') idx' (ds_net st)) /\
    forall a, mem_of (resource_limits db') a = other a + stored_bytes (ds_gtos st) a.
Proof.
  intros Ha Hs. destruct (give_back_ok (size (indices (corrections st))) (ds_rl st) (corrections st))
    as (rl & idx & Hg & Hi & Hok & He & Hm).
  { done. } { apply Ha. } { apply Ha. } { apply Ha. } { intros a. split; [by apply (noted_le other)|apply Hs]. }
  exists (with_resources (ctx_db (ds_ctx st)) rl), idx. unfold on_activation_replace_deferred. rewrite Hg.
  destruct Ha as [H1 H2 H3 H4 H5 H6 H7].
  assert (forall a, mem_of rl a = other a + stored_bytes (ds_gtos st) a) as Hm' by (intros a; rewrite Hm, H7; lia).
  split; [done|]. split; [done|]. split; [|exact Hm']. split; cbn; try done.
  - intros i c. by rewrite He, lookup_empty.
  - intros a. change (mem_of rl a = other a + stored_bytes (ds_gtos st) a + noted_bytes idx a). rewrite Hm'.
    unfold noted_bytes. rewrite He. unfold table_sum. rewrite map_fold_empty. lia.
Qed.

Lemma books_step l l' : books_ok l -> deferred_step l l' -> books_ok l'.
Proof.
  intros [Ha Hn] H. destruct H as [b other st env ac sid pay t rep st' Hb H Hs|b other st env inp delay ctx ctx' Hdb H Hs
    |b other st sid snd c r H|b other st i g db' d Hg H|b other st other' c n Hg Hi Ho Hm|other st db' idx' Hs H]; cbn in *.
  - split; cbn; [by eapply schedule_accounted|]. intros Hb'. rewrite <- (Hn Hb'). f_equal. eapply schedule_corrections; [|exact H]. congruence.
  - split; cbn; [by eapply delay_accounted|done].
  - split; cbn; [by eapply cancel_accounted|done].
  - split; cbn; [by eapply retire_accounted|done].
  - split; cbn; [|done]. destruct Ha as [H1 H2 H3 H4 H5 H6 H7].
    assert (ds_gtos (mk_deferred_state c (corrections st) n) = ds_gtos st) as Eg by done.
    split; rewrite ?Eg; try done. intros a. cbn. specialize (Hm a). rewrite H7 in Hm. lia.
  - destruct (activation_ok other st Ha Hs) as (db1 & idx1 & H1 & He & Ha1 & _). rewrite H in H1. injection H1 as -> ->. by split.
Qed.

(** C13: the memory of deferred transactions is accounted for.  From books that
    are right, whatever is scheduled, replaced, delayed, cancelled, retired and
    billed otherwise, an account is billed for the stored transactions it pays
    for, for what is noted for it, and for everything else.  Once
    REPLACE_DEFERRED is active nothing is noted any more. *)
Theorem deferred_memory_accounted l l' :
  books_ok l -> rtc deferred_step l l' ->
  (forall a, mem_of (ds_rl (book l')) a =
     other_bytes l' a + stored_bytes (ds_gtos (book l')) a + noted_bytes (corrections (book l')) a) /\
  (feature_active l' = true -> forall a, mem_of (ds_rl (book l')) a = other_bytes l' a + stored_bytes (ds_gtos (book l')) a) /\
  table_ok (ds_gtos (book l')).
Proof.
  intros Hb H. assert (books_ok l') as [[H1 H2 H3 H4 H5 H6 H7] Hn].
  { induction H as [|l l1 l' H _ IH]; [done|]. apply IH. by apply (books_step l). }
  split; [done|]. split; [|done]. intros Hf a. rewrite H7. unfold noted_bytes. rewrite (Hn Hf). unfold table_sum.
  rewrite map_fold_empty. lia.
Qed.

(** C29: the activation of REPLACE_DEFERRED gives back what is noted.  In a
    state whose books are right, and in which no account uses 2^63 bytes, the
    handler ends without an exception, every account is billed for the stored
    transactions it pays for and everything else, and the notes are gone; the
    case in which an account would have to give back more than it uses does not
    arise. *)
Theorem replace_deferred_gives_back other st :
  accounted other st -> (forall a, mem_of (ds_rl st) a < 2 ^ 63) ->
  exists db' idx', on_activation_replace_deferred (ctx_db (ds_ctx st)) (corrections st) = Ok (db', idx') /\
    indices idx' = ∅ /\
    forall a, mem_of (resource_limits db') a = other a + stored_bytes (ds_gtos st) a.
Proof.
  intros Ha Hs. destruct (activation_ok other st Ha Hs) as (db' & idx' & H1 & H2 & _ & H3). by exists db', idx'.
Qed.

End theorems.

(** C22: a deferred transaction needs the authority of the code that sends it.
    When the authorizations are not skipped (as in the replay of trusted
    blocks), a contract without privileges stores a transaction only if every
    level its actions declare is admitted and justified, without any key, by
    the code permission of the contract and the delay of the transaction.  The
    only exception is a transaction all of whose actions are to the contract's
    own account as long as the protocol feature RESTRICT_ACTION_TO_SELF is not
    active.  In any case whoever pays for it is the contract or has authorized
    the action. *)
Theorem deferred_needs_code_permission `{FO : FactorOrder, !FactorOrderLaws FO} hash env ac sid pay t rep st st' :
  forest (permission_index (ctx_db (ds_ctx st))) -> authorities_typed (ctx_db (ds_ctx st)) ->
  schedule_deferred_transaction hash env ac sid pay t rep st = Ok st' ->
  privileged ac = false -> skip_auth_check (de_exec env) = false ->
  ((is_builtin_activated (ee_chain (de_exec env)) restrict_action_to_self = false /\
    (forall a, a ∈ actions t -> act_account a = receiver ac)) \/
   (forall a p, a ∈ actions t -> p ∈ authorization a -> exists d d',
     admitted (ee_chain (de_exec env)) (ctx_db (ds_ctx st)) (deferred_delay env t) a p d /\
     d' <= d /\ checker_level (with_delay (deferred_checker env (receiver ac) t (ctx_db (ds_ctx st))) d') p)) /\
  (pay = receiver ac \/ exists p, p ∈ authorization (act ac) /\ actor p = pay).
Proof.
  intros Hf Ht H Hp Hs. unfold schedule_deferred_transaction in H. rewrite Hp, Hs in H. cbn [negb andb] in H.
  apply bind_ok in H as ([] & _ & H). apply bind_ok in H as ([] & _ & H). apply bind_ok in H as (t' & Hh & H).
  apply bind_ok in H as ([] & _ & H). apply bind_ok in H as ([] & H & _). apply bind_ok in H as ([] & Hpay & H).
  apply deferred_header_actions in Hh as [Ea Ed]. unfold check_deferred_authorization, bypass_send_to_self in H.
  cbn [ds_ctx] in H. split.
  - destruct (check_authorization _ _ _ _ _ _ _ _ _) as [[]|e] eqn:E; [right|left].
    + intros a p Hin Hau. rewrite <- Ea in Hin.
      destruct (checked_levels _ _ _ _ _ _ _ _ _ Hf Ht E a p Hin Hau) as (d & Had & [Hnil|(d' & Hd & Hl)]); [inversion Hnil|].
      rewrite Ed in Had, Hl. by exists d, d'.
    + destruct (negb _); [done|]. destruct (is_builtin_activated _ restrict_action_to_self); [done|]. split; [done|].
      unfold is_sending_only_to_self in H. rewrite Ea in H. destruct (forallb _ (actions t)) eqn:Eall; [|done].
      rewrite forallb_forall in Eall. intros a Ha. apply Z.eqb_eq, Eall. by apply list_elem_of_In.
  - unfold check_deferred_payer in Hpay. destruct (Z.eqb_spec pay (receiver ac)) as [->|_]; [by left|]. right.
    assert (existsb (fun q => actor q =? pay) (authorization (act ac)) = true) as He.
    { destruct (is_builtin_activated _ mem_restrictions).
      - apply bind_ok in Hpay as ([] & _ & Hpay). by apply ine_assert_ok in Hpay.
      - by apply ine_assert_ok in Hpay. }
    apply existsb_exists in He as (q & Hq & Hq'%Z.eqb_eq). exists q. split; [by apply list_elem_of_In|done].
Qed.

(** ** An example

    A privileged contract of alice stores a transaction that account 7 pays for
    and replaces it; then REPLACE_DEFERRED is activated. *)

Definition before_replace_deferred : chain_env :=
  mk_chain_env 1600000000000000 1 3888000 6 2 (fun f => match f with replace_deferred => false | _ => true end) false false [].
Definition example_deferred_env (c : chain_env) : deferred_env :=
  mk_deferred_env (mk_exec_env c (mk_account_lists [] [] [] [] []) 4 524288 4096 false 1600000000000000 (fun _ => Ok tt))
    (mk_trx_env c default_configuration false 1000 [] (mk_account_lists [] [] [] [] []))
    zero_digest zero_digest [] true true.
Definition privileged_sender : action_context := set_privileged_flag example_sender true.
Definition example_deferred_trx (n : Z) : transaction :=
  mk_transaction 0 0 0 0 0 10 [] [mk_action alice_name n [alice_active] []] [].
Definition no_deferred : deferred_state :=
  mk_deferred_state (mk_apply_ctx (with_generated (with_resources alice_db example_db) empty_index) ∅ ∅) empty_index
    (mk_net_account 1000000 true false 1000000 0).

Definition or_same (st : deferred_state) (r : outcome deferred_state) : deferred_state := match r with Ok st' => st' | Err _ => st end.
Definition example_schedule (rep : bool) (n : Z) (st : deferred_state) : outcome deferred_state :=
  schedule_deferred_transaction (FO := reference_order) (fun _ => zero_digest) (example_deferred_env before_replace_deferred)
    privileged_sender 1 7 (example_deferred_trx n) rep st.
Definition one_deferred : deferred_state := or_same no_deferred (example_schedule false 2 no_deferred).
Definition one_replaced : deferred_state := or_same one_deferred (example_schedule true 3 one_deferred).

Definition small_rows_check (idx : generic_index generated_transaction_object) : bool :=
  forallb (fun kv => Z.of_nat (length (gto_packed_trx kv.2)) <? 2 ^ 32) (map_to_list (indices idx)).
Lemma small_rows_checked idx : small_rows_check idx = true -> small_rows idx.
Proof.
  intros H i g Hg%elem_of_map_to_list%list_elem_of_In. unfold small_rows_check in H. rewrite forallb_forall in H.
  specialize (H _ Hg). cbn in H. lia.
Qed.

Lemma no_deferred_books : books_ok (mk_ledger false (mem_of example_db) no_deferred).
Proof.
  split; [|done]. split.
  - exact example_db_inv.
  - apply empty_table_ok.
  - apply empty_table_ok.
  - by intros i g.
  - by intros i c.
  - intros a. apply mem_typed, example_db_inv.
  - intros a. cbn. change (mem_of example_db a = mem_of example_db a + 0 + 0). lia.
Qed.

Lemma example_steps : rtc (deferred_step (FO := reference_order) (fun _ => zero_digest))
  (mk_ledger false (mem_of example_db) no_deferred) (mk_ledger false (mem_of example_db) one_replaced).
Proof.
  assert (example_schedule false 2 no_deferred = Ok one_deferred) as E1 by (by vm_compute).
  assert (example_schedule true 3 one_deferred = Ok one_replaced) as E2 by (by vm_compute).
  assert (small_rows_check (ds_gtos one_deferred) = true) as S1 by (by vm_compute).
  assert (small_rows_check (ds_gtos one_replaced) = true) as S2 by (by vm_compute).
  eapply rtc_l; [|apply rtc_once].
  - eapply step_schedule; [|exact E1|by apply small_rows_checked]. reflexivity.
  - eapply step_schedule; [|exact E2|by apply small_rows_checked]. reflexivity.
Qed.

Lemma deferred_memory_accounted_witness :
  0 < noted_bytes (corrections one_replaced) 7 /\
  mem_of (ds_rl one_replaced) 7 =
    mem_of example_db 7 + stored_bytes (ds_gtos one_replaced) 7 + noted_bytes (corrections one_replaced) 7.
Proof.
  split; [by vm_compute|].
  destruct (deferred_memory_accounted (FO := reference_order) (fun _ => zero_digest)
    (mk_ledger false (mem_of example_db) no_deferred) (mk_ledger false (mem_of example_db) one_replaced)) as [H _].
  - exact no_deferred_books.
  - exact example_steps.
  - exact (H 7).
Defined.

Lemma one_replaced_accounted : accounted (mem_of example_db) one_replaced.
Proof.
  assert (books_ok (mk_ledger false (mem_of example_db) one_replaced)) as [H _]; [|exact H].
  assert (forall l l', books_ok l -> rtc (deferred_step (FO := reference_order) (fun _ => zero_digest)) l l' -> books_ok l') as Hs.
  { intros l l' Hb H. induction H as [|l l1 l' H _ IH]; [done|]. apply IH. by apply (books_step (FO := reference_order) (fun _ => zero_digest) l). }
  exact (Hs _ _ no_deferred_books example_steps).
Qed.

Definition usages_check (m : gmap Z resource_usage_object) : bool :=
  forallb (fun kv => mem_usage kv.2 <? 2 ^ 63) (map_to_list m).
Lemma usages_checked rl a : usages_check (usages rl) = true -> mem_of rl a < 2 ^ 63.
Proof.
  intros H. unfold mem_of. destruct (usages rl !! a) as [u|] eqn:E; [|done]. apply elem_of_map_to_list, list_elem_of_In in E.
  unfold usages_check in H. rewrite forallb_forall in H. specialize (H _ E). cbn in H. lia.
Qed.

Lemma replace_deferred_gives_back_witness :
  exists db' idx', on_activation_replace_deferred (ctx_db (ds_ctx one_replaced)) (corrections one_replaced) = Ok (db', idx') /\
    mem_of (resource_limits db') 7 = mem_of example_db 7 + stored_bytes (ds_gtos one_replaced) 7.
Proof.
  assert (usages_check (usages (ds_rl one_replaced)) = true) as Hu by (by vm_compute).
  destruct (replace_deferred_gives_back (mem_of example_db) one_replaced) as (db' & idx' & H1 & _ & H2).
  - exact one_replaced_accounted.
  - intros a. exact (usages_checked _ a Hu).
  - exists db', idx'. exact (conj H1 (H2 7)).
Defined.

Definition alice_deferred : deferred_state :=
  mk_deferred_state (mk_apply_ctx alice_db ∅ ∅) empty_index (mk_net_account 1000000 true false 1000000 0).

Lemma deferred_needs_code_permission_witness :
  deferred_delay (example_deferred_env example_env) (example_deferred_trx 2) = 10000000 /\
  exists d d', admitted example_env alice_db (deferred_delay (example_deferred_env example_env) (example_deferred_trx 2))
      (mk_action alice_name 2 [alice_active] []) alice_active d /\ d' <= d /\
    checker_level (with_delay (deferred_checker (example_deferred_env example_env) alice_name (example_deferred_trx 2) alice_db) d')
      alice_active.
Proof.
  split; [by vm_compute|].
  destruct (schedule_deferred_transaction (FO := reference_order) (fun _ => zero_digest) (example_deferred_env example_env) example_sender
    1 alice_name (example_deferred_trx 2) false alice_deferred) as [st'|e] eqn:E.
  2: { exfalso. revert E. clear. by vm_compute. }
  assert (is_builtin_activated (ee_chain (de_exec (example_deferred_env example_env))) restrict_action_to_self = true) as Hb by (by vm_compute).
  destruct (deferred_needs_code_permission (FO := reference_order) (FactorOrderLaws0 := reference_order_laws) (fun _ => zero_digest)
    (example_deferred_env example_env) example_sender 1 alice_name (example_deferred_trx 2) false alice_deferred st'
    alice_db_forest alice_db_typed E eq_refl eq_refl) as [[[Hno _]|H] _]; [congruence|].
  apply (H (mk_action alice_name 2 [alice_active] []) alice_active); left.
Defined.
