(* ===== verification/PushTransaction.v ===== *)
(** * Pushing transactions into a block

    Models the part of controller.cpp that adds transactions to the block being
    built: push_receipt, push_transaction for input and implicit transactions,
    push_scheduled_transaction for deferred ones with apply_onerror and the
    classification of failures; with transaction_receipt (block.hpp).  The parts
    of a transaction are those of [TransactionContext], [Authorization],
    [ActionExecution] and [Deferred].

    A session of the database is the state it would restore, as
    [Chainbase.index_refines_snapshots] justifies; blocks that are replayed
    without sessions are not modelled.  The readings of the clock are arguments;
    the billing timer is not paused, as it is only while code is compiled, so
    that the pseudo start of a transaction is its start.
    Signals to plugins, log messages and the parts of traces other than the
    receipt and the exception are left out.

    The theorems: a push changes the state and the block together or not at
    all; a deferred transaction is retired with one receipt or left as it was;
    and the usage pending for the block is what the receipts say. *)

From Stdlib Require Import String.
From S2P Require Import Prelude Exceptions Text Names Merkle Authority AuthorityChecker Timestamps ResourceLimits Raw Codecs.
From S2P Require Import Chainbase BlockHeader Transactions ProtocolFeatures ChainObjects Permissions NativeActions.
From S2P Require Import Authorization ChainConfig TransactionChecks TransactionContext ActionExecution Deferred.

(** ** Receipts *)

Inductive status_enum := status_executed | status_soft_fail | status_hard_fail | status_delayed | status_expired.

Inductive receipt_transaction :=
  | receipt_of_id (id : sha256)
  | receipt_of_packed (p : packed_transaction).

Record transaction_receipt := mk_transaction_receipt {
  status : status_enum;
  cpu_usage_us : Z;
  net_usage_words : Z;
  receipt_trx : receipt_transaction
}.

(** The tables a transaction changes, and the block being built. *)
Record chain_state := mk_chain_state {
  cs_db : chain_db;
  cs_recent : generic_index transaction_object;
  cs_summaries : generic_index block_summary_object;
  cs_sequence : Z
}.

Record building_block := mk_building_block {
  pending_trx_receipts : list transaction_receipt;
  pending_trx_metas : list sha256;
  block_actions : list action_receipt
}.

Record controller_state := mk_controller_state {
  ctl_chain : chain_state;
  ctl_block : building_block
}.

(** What a push returns. *)
Record trx_trace := mk_trx_trace {
  tt_receipt : option transaction_receipt;
  tt_except : option exn
}.

Definition push_receipt (t : receipt_transaction) (s : status_enum) (cpu net : Z) (b : building_block) :
  outcome (building_block * transaction_receipt) :=
  let words := net / 8 in
  ine_assert (words * 8 =? net) (Throw transaction_exception) ;;
  let r := mk_transaction_receipt s (u32 cpu) (u32 words) t in
  Ok (mk_building_block (pending_trx_receipts b ++ [r]) (pending_trx_metas b) (block_actions b), r).

Definition add_meta (id : sha256) (b : building_block) : building_block :=
  mk_building_block (pending_trx_receipts b) (pending_trx_metas b ++ [id]) (block_actions b).
Definition add_actions (l : list action_receipt) (b : building_block) : building_block :=
  mk_building_block (pending_trx_receipts b) (pending_trx_metas b) (block_actions b ++ l).

(** ** Failures *)

Definition subjective_exceptions : list exception_type :=
  [subjective_block_production_exception; block_net_usage_exceeded; greylist_net_usage_exceeded; block_cpu_usage_exceeded;
   greylist_cpu_usage_exceeded; deadline_exception; leeway_deadline_exception; actor_whitelist_exception;
   actor_blacklist_exception; contract_whitelist_exception; contract_blacklist_exception; action_blacklist_exception;
   key_blacklist_exception; sig_variable_size_limit_exception; inline_action_too_big_nonprivileged].

Definition failure_is_subjective (e : exn) : bool :=
  match e with
  | Throw t => existsb (fun s => code_value t =? code_value s) subjective_exceptions
  | _ => false
  end.

Definition scheduled_failure_is_subjective (e : exn) : bool :=
  match e with Throw t => code_value t =? code_value tx_cpu_usage_exceeded | _ => false end || failure_is_subjective e.

(** The exceptions that leave the inner try block, whatever else is caught. *)
Definition bad_block_exception (e : exn) : bool :=
  match e with
  | Throw t => derives_from t disallowed_transaction_extensions_bad_block_exception ||
               derives_from t protocol_feature_bad_block_exception
  | _ => false
  end.

Definition caught (e : exn) : bool := is_fc_exception e && negb (bad_block_exception e).

(** ** The environment *)

(** What the controller says, the readings of the clock and the timer. *)
Record push_env := mk_push_env {
  pe_trx : trx_env;
  pe_max_nonprivileged_inline_action_size : Z;
  pe_skip_auth_check : bool;
  pe_checktime : nat -> outcome unit;
  read_mode_speculative : bool;
  subjective_cpu_leeway : option Z;
  sig_cpu_bill_pct : Z;
  replay_head_time : option Z;
  pe_sender_bypass : list Z;
  pe_head_block_id : sha256
}.

Record readings := mk_readings { rd_start : Z; rd_timer : Z; rd_end : Z; rd_failed : Z; rd_platform : timer }.

Definition default_subjective_cpu_leeway_us : Z := 31000.

Definition with_enforcement (env : chain_env) (b : bool) : chain_env :=
  mk_chain_env (pending_block_time env) (head_block_num env) (Permissions.max_transaction_delay env) (Permissions.max_authority_depth env)
    (num_supported_key_types env) (is_builtin_activated env) b (is_producing_block env) (key_blacklist env).
Definition trx_env_enforcing (env : trx_env) (b : bool) : trx_env :=
  mk_trx_env (with_enforcement (te_chain env) b) (configuration env) (skip_trx_checks env) (greylist_limit env)
    (resource_greylist env) (te_lists env).

Definition exec_env_of (env : push_env) (tenv : trx_env) (published : Z) : exec_env :=
  mk_exec_env (te_chain tenv) (te_lists tenv) (ChainConfig.max_inline_action_depth (configuration tenv))
    (ChainConfig.max_inline_action_size (configuration tenv)) (pe_max_nonprivileged_inline_action_size env)
    (pe_skip_auth_check env) published (pe_checktime env).

(** ** Running a transaction *)

(** [option] is for the fuel of the execution. *)
Definition then_ {A B} (r : option (outcome A)) (k : A -> option (outcome B)) : option (outcome B) :=
  match r with
  | None => None
  | Some (Err e) => Some (Err e)
  | Some (Ok a) => k a
  end.

Definition with_executed (ctx : transaction_context) (c : apply_ctx) : transaction_context :=
  mk_transaction_context (ctx_db c) (recent_transactions ctx) (block_summaries ctx) (tx_net ctx) (tx_cpu ctx)
    (bill_to_accounts ctx) (validate_mem_usage c) (tx_published ctx) (is_initialized ctx) (is_input ctx)
    (apply_context_free ctx).

(** A finished transaction: its context, the global sequence and the receipts of
    its actions. *)
Record finished := mk_finished { fin_ctx : transaction_context; fin_sequence : Z; fin_executed : list action_receipt }.

Definition state_of (f : finished) : chain_state :=
  mk_chain_state (tx_db (fin_ctx f)) (recent_transactions (fin_ctx f)) (block_summaries (fin_ctx f)) (fin_sequence f).

(** transaction_metadata *)
Record trx_meta := mk_trx_meta {
  tm_packed : packed_transaction;
  tm_implicit : bool;
  signature_cpu_usage : Z;
  recovered_keys : list public_key
}.

Definition tm_trx (m : trx_meta) : transaction := st_transaction (unpacked_trx (tm_packed m)).

Section push.
Context `{BT : BoostText} `{FO : FactorOrder}.
Context (hash : list Z -> sha256) (validate_code : list Z -> outcome unit).
Context (contract : sha256 -> Z -> Z -> Z -> action -> program).
Context (env : push_env) (fuel n : nat).

Definition start_state (ctx : transaction_context) (seq : Z) : exec_state :=
  mk_exec_state (mk_apply_ctx (tx_db ctx) ∅ (tx_validate_mem_usage ctx)) seq [] [].

(** [transaction_context::exec] *)
Definition trx_exec (tenv : trx_env) (inp : trx_input) (delay : Z) (ctx : transaction_context) (seq : Z) :
  option (outcome finished) :=
  if negb (is_initialized ctx) then Some (Err (Throw transaction_exception)) else
  then_ (execute_transaction hash validate_code contract (exec_env_of env tenv (tx_published ctx)) fuel n
           (apply_context_free ctx) delay (trx inp) (start_state ctx seq))
    (fun st => Some (
       ctx ← (if delay =? 0 then Ok (with_executed ctx (es_ctx st))
              else schedule_transaction tenv inp delay (with_executed ctx (es_ctx st)));
       Ok (mk_finished ctx (global_action_sequence st) (executed st)))).

Definition trx_finalize (tenv : trx_env) (inp : trx_input) (now : Z) (f : finished) : outcome finished :=
  ctx ← finalize tenv inp now (fin_ctx f);
  Ok (mk_finished ctx (fin_sequence f) (fin_executed f)).

Definition fresh_context (cs : chain_state) (inp : trx_input) (billed_us : Z) (t : timer) : transaction_context :=
  new_context (cs_db cs) (cs_recent cs) (cs_summaries cs) inp billed_us t.

(** ** Input and implicit transactions *)

(** The time spent on the signatures is billed. *)
Definition push_start (explicit : bool) (m : trx_meta) (now : Z) : Z :=
  if explicit then now else
  let already_consumed_time := i64 (INE_PERCENT (u64 (signature_cpu_usage m)) (sig_cpu_bill_pct env)) in
  if now <? already_consumed_time then 0 else i64 (now - already_consumed_time).

Definition push_input (m : trx_meta) (deadline : Z) (explicit : bool) (now : Z) : trx_input :=
  mk_trx_input (tm_trx m) (pt_trx_id (tm_packed m)) (push_start explicit m now) deadline
    (match subjective_cpu_leeway env with
     | Some l => if is_producing_block (te_chain (pe_trx env)) then l else default_subjective_cpu_leeway_us
     | None => default_subjective_cpu_leeway_us
     end) explicit.

Definition push_init (m : trx_meta) (inp : trx_input) (rd : readings) (ctx : transaction_context) : outcome transaction_context :=
  if tm_implicit m then init_for_implicit_trx (pe_trx env) inp 0 (rd_timer rd) ctx
  else
    unprunable ← get_unprunable_size (tm_packed m);
    prunable ← get_prunable_size (tm_packed m);
    init_for_input_trx (pe_trx env) inp unprunable prunable
      (match replay_head_time env with
       | Some t => time_point_of_sec (expiration (tm_trx m)) <=? t
       | None => false
       end) (rd_timer rd) ctx.

(** Lists of actors, contracts and actions do not matter for an implicit
    transaction once it is initialized. *)
Definition push_trx_env (m : trx_meta) : trx_env :=
  if tm_implicit m then trx_env_enforcing (pe_trx env) false else pe_trx env.

Definition push_run (m : trx_meta) (inp : trx_input) (billed_us : Z) (rd : readings) (cs : chain_state) : option (outcome finished) :=
  let tenv := push_trx_env m in
  let delay := seconds (delay_sec (tm_trx m)) in
  then_ (Some (ctx ← push_init m inp rd (fresh_context cs inp billed_us (rd_platform rd));
               (if negb (pe_skip_auth_check env) && negb (tm_implicit m)
                then check_authorization (te_chain tenv) (tx_db ctx) (actions (tm_trx m)) (recovered_keys m) [] delay
                       (Some (pe_checktime env)) false []
                else Ok tt) ;;
               Ok ctx))
    (fun ctx => then_ (trx_exec tenv inp delay ctx (cs_sequence cs))
    (fun f => Some (trx_finalize tenv inp (rd_end rd) f))).

(** The receipt of the trace and the block with it. *)
Definition push_record (m : trx_meta) (f : finished) (b : building_block) : outcome (building_block * transaction_receipt) :=
  let cpu := u64 (billed_cpu_time_us (tx_cpu (fin_ctx f))) in
  let net := trx_net_usage (tx_net (fin_ctx f)) in
  '(b, r) ←
    (if tm_implicit m
     then Ok (b, mk_transaction_receipt status_executed (u32 cpu) (u32 (net / 8)) (receipt_of_packed (tm_packed m)))
     else '(b, r) ← push_receipt (receipt_of_packed (tm_packed m))
                      (if seconds (delay_sec (tm_trx m)) =? 0 then status_executed else status_delayed) cpu net b;
          Ok (add_meta (pt_trx_id (tm_packed m)) b, r));
  Ok (add_actions (fin_executed f) b, r).

Definition push_transaction (m : trx_meta) (deadline billed_us : Z) (explicit : bool) (rd : readings) (st : controller_state) :
  option (outcome (controller_state * trx_trace)) :=
  if deadline =? 0 then Some (Err (Throw transaction_exception)) else
  let inp := push_input m deadline explicit (rd_start rd) in
  match then_ (push_run m inp billed_us rd (ctl_chain st))
          (fun f => Some ('(b, r) ← push_record m f (ctl_block st); Ok (f, b, r))) with
  | None => None
  | Some (Ok (f, b, r)) =>
      let st' := if negb (read_mode_speculative env) && is_producing_block (te_chain (pe_trx env)) then st
                 else mk_controller_state (state_of f) b in
      Some (Ok (st', mk_trx_trace (Some r) None))
  | Some (Err e) =>
      Some (if caught e then Ok (st, mk_trx_trace None (Some e)) else fc_capture_and_rethrow (Err e))
  end.

(** ** Deferred transactions *)

Definition trx_cpu (f : finished) : Z := u64 (billed_cpu_time_us (tx_cpu (fin_ctx f))).
Definition trx_net (f : finished) : Z := trx_net_usage (tx_net (fin_ctx f)).

(** The receipt of a deferred transaction that ran, or whose error handler ran. *)
Definition scheduled_record (id : sha256) (s : status_enum) (f : finished) (st : controller_state) :
  outcome (controller_state * trx_trace) :=
  '(b, r) ← push_receipt (receipt_of_id id) s (trx_cpu f) (trx_net f) (ctl_block st);
  Ok (mk_controller_state (state_of f) (add_actions (fin_executed f) b), mk_trx_trace (Some r) None).

Definition scheduled_trx_env (gto : generated_transaction_object) : trx_env :=
  trx_env_enforcing (pe_trx env)
    (if gto_sender gto =? 0 then true else negb (bool_decide (gto_sender gto ∈ pe_sender_bypass env))).

Definition scheduled_run (gto : generated_transaction_object) (inp : trx_input) (billed_us : Z) (rd : readings) (cs : chain_state) :
  option (outcome finished) :=
  let tenv := scheduled_trx_env gto in
  then_ (Some (ctx ← init_for_deferred_trx tenv inp (published gto) (rd_timer rd) (fresh_context cs inp billed_us (rd_platform rd));
               (if enforce_whiteblacklist (te_chain tenv) && is_producing_block (te_chain tenv)
                then check_actor_list (te_lists tenv)
                       (ids_in_order (list_to_set (actor <$> concat (authorization <$> actions (trx inp)))))
                else Ok tt) ;;
               Ok ctx))
    (fun ctx => then_ (trx_exec tenv inp 0 ctx (cs_sequence cs))
    (fun f => Some (trx_finalize tenv inp (rd_end rd) f))).

(** What a caught exception bills. *)
Definition failed_cpu (tenv : trx_env) (inp : trx_input) (billed_us : Z) (rd : readings) (cs : chain_state) : Z :=
  u32 (billed_cpu_time_us (update_billed_cpu_time tenv inp (rd_failed rd) (tx_cpu (fresh_context cs inp billed_us (rd_platform rd))))).

(** The limit on the duration and the payers that [init] has set when it or
    something later fails. *)
Definition failed_limits (tenv : trx_env) (inp : trx_input) (billed_us : Z) (cs : chain_state) : Z * gset Z :=
  if negb (expiration (trx inp) =? 0) && nonempty (transaction_extensions (trx inp)) then (0, ∅) else
  let '(duration, code) := initial_duration_limit tenv inp (resource_limits (cs_db cs)) in
  let c := mk_cpu_account false duration duration (i64 (start inp + duration)) (code_value block_cpu_usage_exceeded) code
             (start inp) 0 0 billed_us (mk_timer false None) in
  match (if explicit_billed_cpu_time inp then validate_cpu_usage_to_bill tenv billed_us INT64_MAX false c else Ok tt) with
  | Ok tt => (duration, payers tenv inp)
  | Err _ => (duration, ∅)
  end.

(** The transaction that tells the sender of the failure. *)
Definition onerror_name : Z := Eval vm_compute in string_to_uint64_t (lit "onerror").

Definition onerror_action (gto : generated_transaction_object) : outcome action :=
  data ← pack_vector (pair_codec (uint_codec 16) bytes_codec) (gto_sender_id gto, gto_packed_trx gto);
  Ok (mk_action system_account_name onerror_name [mk_permission_level (gto_sender gto) active_name] data).

Definition onerror_transaction (a : action) : transaction :=
  let t := mk_transaction 0 0 0 0 0 0 [] [a] [] in
  let chain := te_chain (pe_trx env) in
  if is_builtin_activated chain no_duplicate_deferred_id then t
  else set_reference_block (pe_head_block_id env)
         (with_header t (sec_of_time_point (i64 (pending_block_time chain + 999999))) 0 0 []).

Definition onerror_run (gto : generated_transaction_object) (a : action) (inp : trx_input) (billed_us : Z) (rd : readings)
    (cs : chain_state) : option (outcome finished) :=
  let tenv := scheduled_trx_env gto in
  then_ (Some (init_for_implicit_trx tenv inp 0 (rd_timer rd) (fresh_context cs inp billed_us (rd_platform rd))))
    (fun ctx =>
       let ctx := with_kind ctx (published gto) (is_input ctx) (apply_context_free ctx) in
       let '(st, ordinal) := trx_schedule_action a (gto_sender gto) false 0 0 (start_state ctx (cs_sequence cs)) in
       then_ (execute_action hash validate_code contract (exec_env_of env tenv (tx_published ctx)) fuel n 0 ordinal st)
         (fun st => Some (trx_finalize tenv inp (rd_end rd)
            (mk_finished (with_executed ctx (es_ctx st)) (global_action_sequence st) (executed st))))).

(** A producer bills no more than the payers can pay. *)
Definition hard_fail_cpu (tenv : trx_env) (r : rl_db) (limits : Z * gset Z) (explicit : bool) (cpu : Z) : outcome (rl_db * Z) :=
  if is_producing_block (te_chain tenv) then
    r ← update_account_usage r (ids_in_order limits.2) (pending_slot tenv);
    '(_, account_cpu_limit, _, _) ← max_bandwidth_billed_accounts_can_pay tenv true r limits.2;
    let limited := u32 (Z.min (Z.min cpu account_cpu_limit) limits.1) in
    ine_assert (negb explicit || (cpu =? limited)) (Throw transaction_exception) ;;
    Ok (r, limited)
  else Ok (r, cpu).

Definition is_subjective (e : exn) : bool :=
  if is_producing_block (te_chain (pe_trx env)) then scheduled_failure_is_subjective e else failure_is_subjective e.

Definition with_cs_db (cs : chain_state) (db : chain_db) : chain_state :=
  mk_chain_state db (cs_recent cs) (cs_summaries cs) (cs_sequence cs).

(** After a failure that no error handler made up for; [st] is the state before
    the transaction was removed, [cs] the one after. *)
Definition retire_failed (id : sha256) (tenv : trx_env) (limits : Z * gset Z) (explicit : bool) (cpu : Z) (e : exn)
    (cs : chain_state) (st : controller_state) : outcome (controller_state * trx_trace) :=
  if is_subjective e then Ok (st, mk_trx_trace None (Some e)) else
  '(r, cpu) ← hard_fail_cpu tenv (resource_limits (cs_db cs)) limits explicit cpu;
  r ← add_transaction_usage r (ids_in_order limits.2) cpu 0 (pending_slot tenv);
  '(b, receipt) ← push_receipt (receipt_of_id id) status_hard_fail cpu 0 (ctl_block st);
  Ok (mk_controller_state (with_cs_db cs (with_resources (cs_db cs) r)) b, mk_trx_trace (Some receipt) (Some e)).

Definition scheduled_failed (gto : generated_transaction_object) (inp : trx_input) (deadline billed_us : Z) (explicit : bool)
    (rd rd2 : readings) (e : exn) (cs : chain_state) (st : controller_state) : option (outcome (controller_state * trx_trace)) :=
  let tenv := scheduled_trx_env gto in
  let limits := failed_limits tenv inp billed_us cs in
  if negb (gto_sender gto =? 0) && negb (is_subjective e) then
    then_ (Some (a ← onerror_action gto; id ← transaction_id hash (onerror_transaction a); Ok (a, id))) (fun '(a, id) =>
      let inp2 := mk_trx_input (onerror_transaction a) id (start inp) deadline default_subjective_cpu_leeway_us explicit in
      match then_ (onerror_run gto a inp2 billed_us rd2 cs)
              (fun f => Some (scheduled_record (gto_trx_id gto) status_soft_fail f st)) with
      | Some (Err e') =>
          Some (if caught e'
                then retire_failed (gto_trx_id gto) tenv limits explicit (failed_cpu tenv inp2 billed_us rd2 cs) e' cs st
                else Err e')
      | r => r
      end)
  else Some (retire_failed (gto_trx_id gto) tenv limits explicit (failed_cpu tenv inp billed_us rd cs) e cs st).

Definition captured {A} (r : option (outcome A)) : option (outcome A) :=
  match r with Some o => Some (fc_capture_and_rethrow o) | None => None end.

Definition push_scheduled_transaction (gto : generated_transaction_object) (deadline billed_us : Z) (explicit : bool)
    (rd rd2 : readings) (st : controller_state) : option (outcome (controller_state * trx_trace)) :=
  let chain := te_chain (pe_trx env) in
  captured (then_ (Some (
    ine_assert (is_producing_block chain || explicit) (Throw transaction_exception) ;;
    '(db, _) ← remove_scheduled_transaction gto (cs_db (ctl_chain st));
    ine_assert (delay_until gto <=? pending_block_time chain) (Throw transaction_exception) ;;
    dtrx ← unpack_vector transaction_codec (gto_packed_trx gto);
    Ok (with_cs_db (ctl_chain st) db, dtrx)))
  (fun '(cs, dtrx) =>
    if gto_expiration gto <? pending_block_time chain then
      Some ('(b, r) ← push_receipt (receipt_of_id (gto_trx_id gto)) status_expired billed_us 0 (ctl_block st);
            Ok (mk_controller_state cs b, mk_trx_trace (Some r) None))
    else
      let inp := mk_trx_input dtrx (gto_trx_id gto) (rd_start rd) deadline 0 explicit in
      match then_ (scheduled_run gto inp billed_us rd cs)
              (fun f => Some (scheduled_record (gto_trx_id gto) status_executed f st)) with
      | Some (Err e) =>
          if caught e then scheduled_failed gto inp deadline billed_us explicit rd rd2 e cs st else Some (Err e)
      | r => r
      end)).

(** The overload that is given the id. *)
Definition by_trx_id (g : generated_transaction_object) : list Z := hash_words (gto_trx_id g).

Definition push_scheduled_transaction_by_id (id : sha256) (deadline billed_us : Z) (explicit : bool) (rd rd2 : readings)
    (st : controller_state) : option (outcome (controller_state * trx_trace)) :=
  match find_by by_trx_id (hash_words id) (generated_transaction_index (cs_db (ctl_chain st))) with
  | None => Some (Err (Throw unknown_transaction_exception))
  | Some gto => push_scheduled_transaction gto deadline billed_us explicit rd rd2 st
  end.

End push.
