(* ===== verification/PushReceipts.v ===== *)
(** * What receipts say

    Theorems about [PushTransaction]: the usage pending for a block is what its
    receipts say, whatever transactions are pushed; and a deferred transaction
    is retired exactly once. *)

From S2P Require Import Prelude Exceptions Text Names Merkle Authority AuthorityChecker Timestamps UsageAccumulator ResourceLimits Raw Codecs.
From S2P Require Import Chainbase BlockHeader Transactions ProtocolFeatures ChainObjects Permissions NativeActions.
From S2P Require Import Authorization ChainConfig TransactionChecks TransactionContext ActionExecution ExecutionOrder Deferred PushTransaction.

(** ** What execution keeps

    No action changes the part of the resource manager that is about blocks. *)

Definition block_part (db : chain_db) : resource_limits_state_object * resource_limits_config_object :=
  (state (resource_limits db), config (resource_limits db)).

(** Takes a chain of binds apart. *)
Ltac peel H :=
  repeat lazymatch type of H with
  | (_ ≫= _) = Ok _ => apply bind_ok in H as (? & ? & H)
  | (let '(_, _) := ?p in _) = Ok _ => first [is_var p; destruct p | destruct p eqn:?]
  | (let _ := _ in _) = Ok _ => cbv zeta in H
  | fc_capture_and_rethrow _ = Ok _ => apply fc_capture_ok in H
  end.

(** Splits on the condition or the option a result depends on. *)
Ltac branch H :=
  lazymatch type of H with
  | (if ?b then _ else _) = _ => destruct b
  | match ?o with Some _ => _ | None => _ end = _ => destruct o
  end.

Lemma add_mem_block account delta ctx ctx' :
  add_mem_usage account delta ctx = Ok ctx' -> block_part (ctx_db ctx') = block_part (ctx_db ctx).
Proof.
  unfold add_mem_usage, trx_add_mem_usage, add_pending_mem_usage. intros H. peel H. injection H as <-. peel H0.
  injection H0 as <-. cbn. destruct (delta =? 0); [by injection H as <-|]. peel H. by injection H as <-.
Qed.

Lemma initialize_account_block r a r' : initialize_account r a = Ok r' -> state r' = state r /\ config r' = config r.
Proof. unfold initialize_account. intros H. peel H. by injection H as <-. Qed.

Lemma create_permission_block env account name parent auth t db db' p :
  create_permission env account name parent auth t db = Ok (db', p) -> resource_limits db' = resource_limits db.
Proof. unfold create_permission. intros H. peel H. by injection H as <- _. Qed.

Lemma modify_permission_block env p auth db db' : modify_permission env p auth db = Ok db' -> resource_limits db' = resource_limits db.
Proof. unfold modify_permission. intros H. peel H. by injection H as <-. Qed.

Lemma remove_permission_block p db db' : remove_permission p db = Ok db' -> resource_limits db' = resource_limits db.
Proof. unfold remove_permission. intros H. peel H. by injection H as <-. Qed.

Lemma update_usage_block env p db db' : update_permission_usage env p db = Ok db' -> resource_limits db' = resource_limits db.
Proof. unfold update_permission_usage. intros H. peel H. by injection H as <-. Qed.

Section native.
Context `{BT : BoostText} (hash : list Z -> sha256) (validate_code : list Z -> outcome unit).

Lemma newaccount_block env a ctx ctx' :
  apply_inery_newaccount env a ctx = Ok ctx' -> block_part (ctx_db ctx') = block_part (ctx_db ctx).
Proof.
  unfold apply_inery_newaccount. intros H. peel H. apply add_mem_block in H. rewrite H.
  repeat match goal with
  | H : create_permission _ _ _ _ _ _ _ = Ok _ |- _ => apply create_permission_block in H
  | H : initialize_account _ _ = Ok _ |- _ => apply initialize_account_block in H as [? ?]
  end. unfold block_part. cbn in *. congruence.
Qed.

Lemma setcode_block env a ctx ctx' :
  apply_inery_setcode hash validate_code env a ctx = Ok ctx' -> block_part (ctx_db ctx') = block_part (ctx_db ctx).
Proof.
  unfold apply_inery_setcode. intros H. peel H. branch H; [by injection H as <-|]. by apply add_mem_block in H.
Qed.

Lemma setabi_block a ctx ctx' : apply_inery_setabi a ctx = Ok ctx' -> block_part (ctx_db ctx') = block_part (ctx_db ctx).
Proof.
  unfold apply_inery_setabi. intros H. peel H. branch H; [by injection H as <-|]. by apply add_mem_block in H.
Qed.

Lemma updateauth_block env a ctx ctx' :
  apply_inery_updateauth env a ctx = Ok ctx' -> block_part (ctx_db ctx') = block_part (ctx_db ctx).
Proof.
  unfold apply_inery_updateauth. intros H. peel H. branch H; peel H; apply add_mem_block in H; rewrite H.
  - match goal with H : modify_permission _ _ _ _ = Ok _ |- _ => apply modify_permission_block in H end.
    unfold block_part. cbn in *. congruence.
  - match goal with H : create_permission _ _ _ _ _ _ _ = Ok _ |- _ => apply create_permission_block in H end.
    unfold block_part. cbn in *. congruence.
Qed.

Lemma deleteauth_block a ctx ctx' : apply_inery_deleteauth a ctx = Ok ctx' -> block_part (ctx_db ctx') = block_part (ctx_db ctx).
Proof.
  unfold apply_inery_deleteauth. intros H. peel H. apply add_mem_block in H. rewrite H.
  match goal with H : remove_permission _ _ = Ok _ |- _ => apply remove_permission_block in H end. unfold block_part. cbn in *. congruence.
Qed.

Lemma linkauth_block env a ctx ctx' :
  apply_inery_linkauth env a ctx = Ok ctx' -> block_part (ctx_db ctx') = block_part (ctx_db ctx).
Proof.
  unfold apply_inery_linkauth. intros H. peel H. branch H; peel H; [by injection H as <-|].
  by apply add_mem_block in H.
Qed.

Lemma unlinkauth_block a ctx ctx' : apply_inery_unlinkauth a ctx = Ok ctx' -> block_part (ctx_db ctx') = block_part (ctx_db ctx).
Proof.
  unfold apply_inery_unlinkauth. intros H. peel H. branch H; [|done]. peel H.
  match goal with H : add_mem_usage _ _ _ = Ok _ |- _ => apply add_mem_block in H as <- end. by injection H as <-.
Qed.

Lemma cancel_block sid snd ctx ctx' b :
  cancel_deferred_transaction sid snd ctx = Ok (ctx', b) -> block_part (ctx_db ctx') = block_part (ctx_db ctx).
Proof.
  unfold cancel_deferred_transaction. intros H. branch H; [|by injection H as <- _]. peel H.
  match goal with H : add_mem_usage _ _ _ = Ok _ |- _ => apply add_mem_block in H as <- end. by injection H as <- _.
Qed.

Lemma native_block env a ctx ctx' :
  apply_native hash validate_code env a ctx = Ok ctx' -> block_part (ctx_db ctx') = block_part (ctx_db ctx).
Proof.
  unfold apply_native. intros H. branch H; [by eapply newaccount_block|]. branch H; [by eapply setcode_block|].
  branch H; [by eapply setabi_block|]. branch H; [by eapply updateauth_block|]. branch H; [by eapply deleteauth_block|].
  branch H; [by eapply linkauth_block|]. branch H; [by eapply unlinkauth_block|]. branch H; [|by injection H as <-].
  unfold apply_inery_canceldelay in H. peel H. injection H as <-.
  match goal with H : cancel_deferred_transaction _ _ _ = Ok _ |- _ => by apply cancel_block in H end.
Qed.

End native.

(** *** Actions *)

(** Contracts call functions that keep the part about blocks. *)
Inductive calls_keep : program -> Prop :=
| keep_return : calls_keep p_return
| keep_throw e : calls_keep (p_throw e)
| keep_call c k :
    (forall f ctx ctx', c = call_other f -> f ctx = Ok ctx' -> block_part (ctx_db ctx') = block_part (ctx_db ctx)) ->
    (forall x, calls_keep (k x)) -> calls_keep (p_call c k).

Section actions.
Context `{BT : BoostText} `{FO : FactorOrder} (hash : list Z -> sha256) (validate_code : list Z -> outcome unit).
Context (contract : sha256 -> Z -> Z -> Z -> action -> program).
Context (contracts_keep : forall h t v r a, calls_keep (contract h t v r a)).
Context (env : exec_env).

Lemma run_program_block p : calls_keep p -> forall ac st ac' st',
  run_program env p ac st = Ok (ac', st') -> block_part (es_db st') = block_part (es_db st).
Proof.
  intros Hp. induction Hp as [|e|c k Hc Hk IH]; intros ac st ac' st' H; cbn [run_program] in H; [by injection H as _ <-|done|].
  apply bind_ok in H as ([ac1 st1] & H1 & H). rewrite (IH _ _ _ _ _ H). clear IH H.
  destruct c as [r|a|a|f].
  - unfold require_recipient in H1. branch H1; [by injection H1 as _ <-|]. peel H1. injection H1 as _ <-.
    unfold trx_schedule_ordinal in H. peel H. by injection H as <- _.
  - unfold execute_inline in H1. peel H1. injection H1 as _ <-. unfold trx_schedule_action in Heqp. by injection Heqp as <- _.
  - unfold execute_context_free_inline in H1. peel H1. injection H1 as _ <-. unfold trx_schedule_action in Heqp.
    by injection Heqp as <- _.
  - peel H1. injection H1 as _ <-. by apply (Hc f _ _ eq_refl).
Qed.

Lemma apply_action_block ac st ac' st' :
  apply_action hash validate_code contract env ac st = Ok (ac', st') -> block_part (es_db st') = block_part (es_db st).
Proof.
  unfold apply_action. intros H. apply bind_ok in H as (ra & _ & H). apply bind_ok in H as (st1 & H1 & H).
  apply bind_ok in H as (ra1 & _ & H). apply bind_ok in H as ([ac2 st2] & H2 & H). apply bind_ok in H as ([] & _ & [= _ <-]).
  assert (block_part (es_db st1) = block_part (es_db st)) as E1.
  { branch H1; [|by injection H1 as <-]. peel H1. injection H1 as <-. cbn. by eapply native_block. }
  rewrite <- E1. branch H2; [|by injection H2 as _ <-]. apply bind_ok in H2 as ([] & _ & H2). by eapply run_program_block.
Qed.

Lemma modify_metadata_block id f st st' : modify_metadata id f st = Ok st' -> block_part (es_db st') = block_part (es_db st).
Proof. unfold modify_metadata. intros H. peel H. by injection H as <-. Qed.

Lemma auth_sequences_block auths : forall m st st' m',
  auth_sequences auths m st = Ok (st', m') -> block_part (es_db st') = block_part (es_db st).
Proof.
  induction auths as [|p auths IH]; intros m st st' m' H; cbn [auth_sequences] in H; [by injection H as <- _|].
  apply bind_ok in H as ([st1 s] & H1 & H). rewrite (IH _ _ _ _ H). unfold next_auth_sequence in H1. peel H1.
  injection H1 as <- _. by eapply modify_metadata_block.
Qed.

Lemma exec_one_block ac st ac' st' :
  exec_one hash validate_code contract env ac st = Ok (ac', st') -> block_part (es_db st') = block_part (es_db st).
Proof.
  unfold exec_one. intros H. apply bind_ok in H as (ws & _ & H). cbv zeta in H. apply bind_ok in H as ([ac1 st1] & H1 & H).
  apply fc_capture_ok, apply_action_block in H1. apply bind_ok in H as (ra & _ & H). unfold next_global_sequence in H. cbv zeta in H.
  apply bind_ok in H as ([st2 rs] & H2 & H). apply bind_ok in H as (fr & _ & H). apply bind_ok in H as ([st3 auths] & H3 & H).
  apply bind_ok in H as (t & _ & [= _ <-]). cbn. apply auth_sequences_block in H3. unfold next_recv_sequence in H2. peel H2.
  injection H2 as <- _. match goal with H : modify_metadata _ _ _ = Ok _ |- _ => apply modify_metadata_block in H end.
  unfold es_db in *. cbn in *. congruence.
Qed.

Lemma notify_block fuel : forall i ac st ac' st',
  notify_loop hash validate_code contract env fuel i ac st = Some (Ok (ac', st')) -> block_part (es_db st') = block_part (es_db st).
Proof.
  induction fuel as [|fuel IH]; intros i ac st ac' st' H; cbn [notify_loop] in H; branch H; try done.
  - by injection H as _ <-.
  - destruct (exec_one _ _ _ _ _ st) as [[ac1 st1]|e] eqn:E; [|done]. rewrite (IH _ _ _ _ _ H). by eapply exec_one_block.
  - by injection H as _ <-.
Qed.

Lemma each_block run l : (forall o st st', run o st = Some (Ok st') -> block_part (es_db st') = block_part (es_db st)) ->
  forall st st', execute_each run l st = Some (Ok st') -> block_part (es_db st') = block_part (es_db st).
Proof.
  intros Hr. induction l as [|o l IH]; intros st st' H; cbn [execute_each] in H; [by injection H as <-|].
  destruct (run o st) as [[st1|e]|] eqn:E; try done. rewrite (IH _ _ H). by eapply Hr.
Qed.

Lemma action_block fuel n : forall depth o st st',
  execute_action hash validate_code contract env fuel n depth o st = Some (Ok st') -> block_part (es_db st') = block_part (es_db st).
Proof.
  induction fuel as [|fuel IH]; intros depth o st st' H; cbn [execute_action] in H; [done|].
  destruct (new_action_context _ _ _) as [ac|e]; [|done].
  destruct (notify_loop _ _ _ _ _ _ _ _) as [[[ac1 st1]|e]|] eqn:En; try done. apply notify_block in En. rewrite <- En.
  branch H; [done|]. destruct (execute_each _ (cfa_inline_actions ac1) st1) as [[st2|e]|] eqn:E1; try done.
  apply each_block in E1; [|by apply IH]. rewrite <- E1. eapply each_block; [|exact H]. by apply IH.
Qed.

Lemma transaction_block fuel n cf delay t st st' :
  execute_transaction hash validate_code contract env fuel n cf delay t st = Some (Ok st') -> block_part (es_db st') = block_part (es_db st).
Proof.
  unfold execute_transaction. intros H. eapply each_block in H; [|apply action_block]. rewrite H.
  assert (forall acts b s, es_db (schedule_actions acts b s) = es_db s) as Hs.
  { intros acts b. induction acts as [|a acts IH]; intros s; cbn [schedule_actions]; [done|]. by rewrite IH. }
  destruct cf, (delay =? 0); by rewrite ?Hs.
Qed.

End actions.

(** ** Billing *)

Definition block_cpu (db : chain_db) : Z := pending_cpu_usage (state (resource_limits db)).
Definition block_net (db : chain_db) : Z := pending_net_usage (state (resource_limits db)).

(** The usage of the block is within limits that fit in 32 bits. *)
Definition block_ok (db : chain_db) : Prop :=
  0 <= block_cpu db <= max (cpu_limit_parameters (config (resource_limits db))) /\
  0 <= block_net db <= max (net_limit_parameters (config (resource_limits db))) /\
  max (cpu_limit_parameters (config (resource_limits db))) < 2 ^ 32 /\
  max (net_limit_parameters (config (resource_limits db))) < 2 ^ 32.

Lemma block_part_same db db' : block_part db' = block_part db ->
  (block_ok db -> block_ok db') /\ block_cpu db' = block_cpu db /\ block_net db' = block_net db.
Proof. unfold block_part, block_ok, block_cpu, block_net. intros [= -> ->]. done. Qed.

(** [db'] is [db] after a bill of [cpu] and [net]. *)
Definition billed (db db' : chain_db) (cpu net : Z) : Prop :=
  block_ok db' /\ block_cpu db' = block_cpu db + cpu /\ block_net db' = block_net db + net.

Lemma for_accounts_block body l : (forall r a r', body r a = Ok r' -> state r' = state r /\ config r' = config r) ->
  forall r r', for_accounts body r l = Ok r' -> state r' = state r /\ config r' = config r.
Proof.
  intros Hb. induction l as [|a l IH]; intros r r' H; cbn [for_accounts] in H; [by injection H as <-|].
  apply bind_ok in H as (r1 & H1 & H). apply Hb in H1 as [<- <-]. by apply IH.
Qed.

Lemma update_account_usage_block r l slot r' :
  update_account_usage r l slot = Ok r' -> state r' = state r /\ config r' = config r.
Proof.
  apply for_accounts_block. clear. intros r a r' H. unfold update_account_usage_one in H. peel H. by injection H as <-.
Qed.

Lemma add_usage_billed db l cpu net slot r :
  block_ok db -> 0 <= cpu < 2 ^ 63 -> 0 <= net < 2 ^ 63 ->
  add_transaction_usage (resource_limits db) l cpu net slot = Ok r -> billed db (with_resources db r) cpu net.
Proof.
  intros (H1 & H2 & H3 & H4) Hc Hn H. unfold add_transaction_usage in H. apply bind_ok in H as (r1 & Hf & H). cbv zeta in H.
  apply for_accounts_block in Hf as [Es Ec].
  2: { clear. intros r a r' H. unfold add_transaction_usage_one in H. peel H. by injection H as <-. }
  apply bind_ok in H as ([] & Ha%ine_assert_ok & H). apply bind_ok in H as ([] & Hb%ine_assert_ok & [= <-]).
  unfold billed, block_ok, block_cpu, block_net in *. cbn in *. rewrite Es, Ec in *.
  rewrite (wrap_id 64 (_ + cpu)) in * by (split; lia). rewrite (wrap_id 64 (_ + net)) in * by (split; lia). lia.
Qed.

(** *** A transaction *)

Definition config_small (env : trx_env) : Prop :=
  skip_trx_checks env = false /\ 0 <= min_transaction_cpu_usage (configuration env) < 2 ^ 32 /\
  0 <= max_transaction_net_usage (configuration env) < 2 ^ 32.

(** What [init] sets and the rest of a transaction keeps. *)
Definition limits_set (env : trx_env) (billed_us : Z) (db : chain_db) (ctx : transaction_context) : Prop :=
  block_part (tx_db ctx) = block_part db /\ net_limit (tx_net ctx) <= max_transaction_net_usage (configuration env) /\
  billed_cpu_time_us (tx_cpu ctx) = billed_us.

Lemma initial_net_limit_small env inp r : (initial_net_limit env inp r).1 <= max_transaction_net_usage (configuration env).
Proof.
  unfold initial_net_limit. cbv zeta.
  destruct (Z.leb_spec (max_transaction_net_usage (configuration env)) (get_block_net_limit r)); cbn.
  all: destruct (_ && _) eqn:E; cbn; [|lia]; apply andb_prop in E as [_ E]; lia.
Qed.

Lemma init_limits env inp usage now ctx ctx' :
  init env inp usage now ctx = Ok ctx' -> limits_set env (billed_cpu_time_us (tx_cpu ctx)) (tx_db ctx) ctx'.
Proof.
  intros H. unfold init in H. apply bind_ok in H as ([] & _ & H). cbv zeta in H.
  pose proof (initial_net_limit_small env inp (rl ctx)) as Hl.
  destruct (initial_net_limit env inp (rl ctx)) as [limit due]. destruct (initial_duration_limit env inp (rl ctx)) as [duration code].
  cbn in Hl. apply bind_ok in H as ([] & _ & H). apply bind_ok in H as (r & Hu & H).
  apply update_account_usage_block in Hu as [Es Ec]. apply bind_ok in H as ([[[an ac] gn] gc] & _ & H).
  destruct (if Z.min _ _ <? _ then _ else _) as [eager due2]. destruct (if _ <=? _ then _ else _) as [cur code2].
  destruct (if _ || _ then _ else _) as [cur2 dcode]. apply bind_ok in H as ([] & _ & H).
  apply bind_ok in H as (ctx1 & H1 & H). apply bind_ok in H as ([] & _ & H). apply bind_ok in H as (t & _ & [= <-]).
  assert (tx_db ctx1 = tx_db ctx /\ net_limit (tx_net ctx1) = limit) as [E1 E2].
  { branch H1; [|by injection H1 as <-]. unfold add_net_usage in H1. cbv zeta in H1. by apply bind_ok in H1 as ([] & _ & [= <-]). }
  split; [|split; [|done]].
  - cbn. unfold block_part. cbn. by rewrite Es, Ec.
  - cbn. by rewrite E2.
Qed.

Lemma limits_set_net env b db ctx n : limits_set env b db ctx -> net_limit n = net_limit (tx_net ctx) -> limits_set env b db (with_net ctx n).
Proof. intros (H1 & H2 & H3) E. split_and!; cbn; [done|by rewrite E|done]. Qed.

Lemma schedule_limits env inp delay b db ctx ctx' :
  limits_set env b db ctx -> schedule_transaction env inp delay ctx = Ok ctx' -> limits_set env b db ctx'.
Proof.
  intros Hl H. unfold schedule_transaction in H. cbv zeta in H. apply bind_ok in H as (ctx1 & H1 & H).
  assert (limits_set env b db ctx1) as (E1 & E2 & E3).
  { branch H1; [|by injection H1 as <-]. unfold add_net_usage in H1. cbv zeta in H1. apply bind_ok in H1 as ([] & _ & [= <-]).
    by apply limits_set_net. }
  apply bind_ok in H as (ws & _ & H). apply bind_ok in H as ([idx g] & _ & H). unfold context_add_mem_usage in H.
  apply bind_ok in H as (c & Hm & [= <-]). unfold trx_add_mem_usage in Hm. apply bind_ok in Hm as (r & Hm & [= <-]).
  split_and!; cbn; try done. rewrite <- E1. unfold add_pending_mem_usage in Hm. branch Hm; [by injection Hm as <-|].
  peel Hm. by injection Hm as <-.
Qed.

Lemma use_permissions_block env auths : forall db db', use_permissions env auths db = Ok db' -> resource_limits db' = resource_limits db.
Proof.
  induction auths as [|a auths IH]; intros db db' H; cbn [use_permissions] in H; [by injection H as <-|].
  apply bind_ok in H as (p & _ & H). apply bind_ok in H as (db1 & H1 & H). rewrite (IH _ _ H). by eapply update_usage_block.
Qed.

Lemma billed_time_range env inp now c :
  0 <= min_transaction_cpu_usage (configuration env) < 2 ^ 32 -> 0 <= billed_cpu_time_us c < 2 ^ 32 ->
  0 <= billed_cpu_time_us (update_billed_cpu_time env inp now c) < 2 ^ 63.
Proof.
  intros Hm Hb. unfold update_billed_cpu_time. destruct (explicit_billed_cpu_time inp); [lia|]. cbn.
  pose proof (Z.mod_pos_bound (now - pseudo_start c + 2 ^ 63) (2 ^ 64) ltac:(lia)). unfold swrap. cbn [Z.sub] in *.
  change (2 ^ (64 - 1)) with (2 ^ 63). lia.
Qed.

Lemma round_up_8 x : u64 (u64 x / 8 * 8) mod 8 = 0.
Proof.
  pose proof (wrap_range 64 x ltac:(lia)) as [H1 H2]. pose proof (Z.mul_div_le (u64 x) 8 ltac:(lia)) as H3.
  pose proof (Z.div_pos (u64 x) 8 H1 ltac:(lia)). rewrite (wrap_id 64 (_ * 8)) by (split; lia). apply Z.mod_mul. lia.
Qed.

(** What the checks at the end of a transaction leave. *)
Lemma finalize_checks_limits env inp now b db ctx ctx' :
  finalize_checks env inp now ctx = Ok ctx' -> config_small env -> limits_set env b db ctx -> 0 <= b < 2 ^ 32 ->
  resource_limits (tx_db ctx') = resource_limits (tx_db ctx) /\ 0 <= trx_net_usage (tx_net ctx') < 2 ^ 32 /\
  trx_net_usage (tx_net ctx') mod 8 = 0 /\ 0 <= billed_cpu_time_us (tx_cpu ctx') < 2 ^ 63.
Proof.
  intros Hc (Hs & Hmin & Hmax) (L1 & L2 & L3) Hb. unfold finalize_checks in Hc. apply bind_ok in Hc as ([] & _ & Hc).
  apply bind_ok in Hc as (db1 & H1 & Hc). cbv zeta in Hc. apply bind_ok in Hc as ([] & _ & Hc).
  assert (resource_limits db1 = resource_limits (tx_db ctx)) as E1.
  { branch H1; [by eapply use_permissions_block|by injection H1 as <-]. }
  apply bind_ok in Hc as ([[[an ac] gn] gc] & _ & Hc).
  destruct (if u64 an <=? _ then _ else _) as [limit due] eqn:El.
  assert (limit <= net_limit (tx_net ctx)) as Hl.
  { cbn [tx_net with_trx_db] in El. destruct (Z.leb_spec (u64 an) (net_limit (tx_net ctx))); injection El as <- _; lia. }
  destruct (if ac <=? _ then _ else _) as [duration code]. apply bind_ok in Hc as ([] & Hn & Hc).
  apply bind_ok in Hc as ([] & _ & [= <-]). cbn [tx_db tx_net tx_cpu with_cpu with_net with_trx_db trx_net_usage] in *.
  split_and!; [done| | |apply round_up_8|apply billed_time_range; [done|by rewrite <- L3 in Hb]..].
  - apply wrap_range. lia.
  - unfold check_net_usage in Hn. rewrite Hs in Hn. cbn [negb trx_net_usage eager_net_limit net_limit_due_to_block] in Hn.
    match type of Hn with (if ?u >? _ then _ else _) = _ => destruct (Z.gtb_spec u limit); [|lia] end.
    destruct due; [done|]. cbn in Hn. by destruct (_ || _).
Qed.

(** The bill at the end of a transaction. *)
Lemma finalize_billed env inp now b db ctx ctx' :
  finalize env inp now ctx = Ok ctx' -> config_small env -> limits_set env b db ctx -> block_ok db -> 0 <= b < 2 ^ 32 ->
  billed db (tx_db ctx') (u64 (billed_cpu_time_us (tx_cpu ctx'))) (trx_net_usage (tx_net ctx')) /\
  trx_net_usage (tx_net ctx') mod 8 = 0.
Proof.
  intros H Hs Hl Hok Hb. unfold finalize in H. apply bind_ok in H as (ctx1 & Hc & H). apply bind_ok in H as (r & Hr & [= <-]).
  destruct (finalize_checks_limits _ _ _ _ _ _ _ Hc Hs Hl Hb) as (E & Hn & Hm & Hcpu). split; [|exact Hm]. cbn [tx_db tx_net tx_cpu with_trx_db].
  assert (block_part (tx_db ctx1) = block_part db) as Ep by (destruct Hl as [<- _]; unfold block_part; by rewrite E).
  destruct (block_part_same _ _ Ep) as (Hok1 & Ec & En). rewrite (wrap_id 64) by (split; lia).
  unfold bill_accounts, rl in Hr. rewrite (wrap_id 64) in Hr by (split; lia).
  apply add_usage_billed in Hr as (B1 & B2 & B3); [|by apply Hok1|lia..]. split; [done|]. by rewrite <- Ec, <- En.
Qed.

(** ** Receipts *)

(** What a receipt says was billed; an expired transaction is not billed. *)
Definition charged_cpu (r : transaction_receipt) : Z :=
  match status r with status_expired => 0 | _ => cpu_usage_us r end.
Definition charged_net (r : transaction_receipt) : Z :=
  match status r with status_expired => 0 | _ => 8 * net_usage_words r end.
Definition option_list {A} (o : option A) : list A := match o with Some a => [a] | None => [] end.

Definition total (f : transaction_receipt -> Z) (l : list transaction_receipt) : Z := foldr (fun r n => f r + n) 0 l.

Lemma total_app f l l' : total f (l ++ l') = total f l + total f l'.
Proof. unfold total. induction l as [|r l IH]; cbn; [done|]. rewrite IH. lia. Qed.

(** The state of the block changed by what the receipts [l] say. *)
Definition accounts_for (cs cs' : chain_state) (l : list transaction_receipt) : Prop :=
  billed (cs_db cs) (cs_db cs') (total charged_cpu l) (total charged_net l).

Lemma accounts_for_none cs : block_ok (cs_db cs) -> accounts_for cs cs [].
Proof. intros H. split; [done|]. cbn. lia. Qed.

Lemma then_ok {A B} (r : option (outcome A)) (k : A -> option (outcome B)) b :
  then_ r k = Some (Ok b) -> exists a, r = Some (Ok a) /\ k a = Some (Ok b).
Proof. destruct r as [[a|e]|]; cbn; intros H; try done. by exists a. Qed.

Lemma push_receipt_ok t s cpu net b b' r :
  push_receipt t s cpu net b = Ok (b', r) -> 0 <= cpu < 2 ^ 32 -> 0 <= net < 2 ^ 32 ->
  pending_trx_receipts b' = pending_trx_receipts b ++ [r] /\ receipt_trx r = t /\ status r = s /\
  cpu_usage_us r = cpu /\ 8 * net_usage_words r = net.
Proof.
  unfold push_receipt. intros H Hc Hn. apply bind_ok in H as ([] & Ha%ine_assert_ok & [= <- <-]). cbn.
  pose proof (Z.div_lt_upper_bound net 8 (2 ^ 32)). pose proof (Z.div_pos net 8). rewrite !wrap_id by (split; lia).
  split_and!; try done. lia.
Qed.

Lemma billed_small db db' cpu net : billed db db' cpu net -> 0 <= cpu -> 0 <= net -> block_ok db -> cpu < 2 ^ 32 /\ net < 2 ^ 32.
Proof. intros ((H1 & H2 & H3 & H4) & E1 & E2) Hc Hn (K1 & K2 & _ & _). lia. Qed.

(** A transaction that is finished, with its bill. *)
Definition finished_ok (cs : chain_state) (f : finished) : Prop :=
  billed (cs_db cs) (tx_db (fin_ctx f)) (trx_cpu f) (trx_net f) /\ trx_net f mod 8 = 0 /\ 0 <= trx_cpu f < 2 ^ 32 /\
  0 <= trx_net f < 2 ^ 32.

Section push.
Context `{BT : BoostText} `{FO : FactorOrder} (hash : list Z -> sha256) (validate_code : list Z -> outcome unit).
Context (contract : sha256 -> Z -> Z -> Z -> action -> program).
Context (contracts_keep : forall h t v r a, calls_keep (contract h t v r a)).
Context (env : push_env) (env_small : config_small (pe_trx env)) (fuel n : nat).

Lemma finalize_finished cs tenv inp now b f f' :
  configuration tenv = configuration (pe_trx env) -> skip_trx_checks tenv = skip_trx_checks (pe_trx env) ->
  limits_set tenv b (cs_db cs) (fin_ctx f) -> block_ok (cs_db cs) -> 0 <= b < 2 ^ 32 ->
  trx_finalize tenv inp now f = Ok f' -> finished_ok cs f'.
Proof.
  intros Ec Es Hl Hok Hb H. unfold trx_finalize in H. apply bind_ok in H as (ctx & H & [= <-]).
  assert (config_small tenv) as Hs by (unfold config_small; rewrite Ec, Es; exact env_small).
  destruct (finalize_billed _ _ _ _ _ _ _ H Hs Hl Hok Hb) as [Hbill Hm]. unfold finished_ok, trx_cpu, trx_net. cbn [fin_ctx].
  unfold finalize in H. apply bind_ok in H as (ctx1 & Hc & H). apply bind_ok in H as (r & _ & [= <-]).
  destruct (finalize_checks_limits _ _ _ _ _ _ _ Hc Hs Hl Hb) as (_ & Hn & _ & Hcpu). cbn [tx_net tx_cpu with_trx_db] in *.
  rewrite (wrap_id 64) in * by (split; lia). destruct (billed_small _ _ _ _ Hbill) as [H1 H2]; [lia..|done|]. split_and!; try done; lia.
Qed.

Lemma exec_limits tenv inp delay ctx seq f b db :
  limits_set tenv b db ctx ->
  trx_exec hash validate_code contract env fuel n tenv inp delay ctx seq = Some (Ok f) -> limits_set tenv b db (fin_ctx f).
Proof.
  intros Hl H. unfold trx_exec in H. branch H; [done|]. apply then_ok in H as (st & Hx & [= H]).
  apply transaction_block in Hx; [|done]. apply bind_ok in H as (ctx1 & H1 & [= <-]).
  assert (limits_set tenv b db (with_executed ctx (es_ctx st))) as Hl1.
  { destruct Hl as (L1 & L2 & L3). split_and!; cbn; try done. by rewrite <- L1. }
  branch H1; [by injection H1 as <-|]. by eapply schedule_limits.
Qed.

(** The kinds of initialization. *)
Lemma implicit_limits tenv inp usage now cs b t ctx :
  init_for_implicit_trx tenv inp usage now (fresh_context cs inp b t) = Ok ctx -> limits_set tenv b (cs_db cs) ctx.
Proof. unfold init_for_implicit_trx. intros H. apply bind_ok in H as ([] & _ & H). by apply init_limits in H. Qed.

Lemma deferred_limits tenv inp p now cs b t ctx :
  init_for_deferred_trx tenv inp p now (fresh_context cs inp b t) = Ok ctx -> limits_set tenv b (cs_db cs) ctx.
Proof. unfold init_for_deferred_trx. intros H. apply bind_ok in H as ([] & _ & H). by apply init_limits in H. Qed.

Lemma input_limits tenv inp x y skip now cs b t ctx :
  init_for_input_trx tenv inp x y skip now (fresh_context cs inp b t) = Ok ctx -> limits_set tenv b (cs_db cs) ctx.
Proof.
  unfold init_for_input_trx. intros H. apply bind_ok in H as ([] & _ & H). cbv zeta in H. apply bind_ok in H as ([] & _ & H).
  apply bind_ok in H as (ctx1 & H1 & H). apply init_limits in H1 as (L1 & L2 & L3). branch H; [by injection H as <-|].
  apply bind_ok in H as (r & _ & [= <-]). by split.
Qed.

Lemma push_run_ok m inp b rd cs f :
  block_ok (cs_db cs) -> 0 <= b < 2 ^ 32 ->
  push_run hash validate_code contract env fuel n m inp b rd cs = Some (Ok f) -> finished_ok cs f.
Proof.
  intros Hok Hb H. unfold push_run in H. cbv zeta in H. apply then_ok in H as (ctx & [= Hi] & H). apply bind_ok in Hi as (ctx1 & Hi & H1).
  apply bind_ok in H1 as ([] & _ & [= <-]). apply then_ok in H as (f1 & Hx & [= H]).
  assert (limits_set (push_trx_env env m) b (cs_db cs) ctx1) as Hl.
  { assert (limits_set (pe_trx env) b (cs_db cs) ctx1) as Hl.
    { unfold push_init in Hi. branch Hi; [by eapply implicit_limits|]. apply bind_ok in Hi as (x & _ & Hi).
      apply bind_ok in Hi as (y & _ & Hi). by eapply input_limits. }
    unfold push_trx_env. by destruct (tm_implicit m). }
  apply (exec_limits _ _ _ _ _ _ _ _ Hl) in Hx. eapply finalize_finished; [..|exact H]; [| |exact Hx|done|done].
  - unfold push_trx_env. by destruct (tm_implicit m).
  - unfold push_trx_env. by destruct (tm_implicit m).
Qed.

Lemma scheduled_run_ok g inp b rd cs f :
  block_ok (cs_db cs) -> 0 <= b < 2 ^ 32 ->
  scheduled_run hash validate_code contract env fuel n g inp b rd cs = Some (Ok f) -> finished_ok cs f.
Proof.
  intros Hok Hb H. unfold scheduled_run in H. cbv zeta in H. apply then_ok in H as (ctx & [= Hi] & H). apply bind_ok in Hi as (ctx1 & Hi & H1).
  apply bind_ok in H1 as ([] & _ & [= <-]). apply then_ok in H as (f1 & Hx & [= H]). apply deferred_limits in Hi.
  apply (exec_limits _ _ _ _ _ _ _ _ Hi) in Hx. by eapply finalize_finished; [..|exact H]; [| |exact Hx|..].
Qed.

Lemma onerror_run_ok g a inp b rd cs f :
  block_ok (cs_db cs) -> 0 <= b < 2 ^ 32 ->
  onerror_run hash validate_code contract env fuel n g a inp b rd cs = Some (Ok f) -> finished_ok cs f.
Proof.
  intros Hok Hb H. unfold onerror_run in H. cbv zeta in H. apply then_ok in H as (ctx & [= Hi] & H). apply implicit_limits in Hi.
  destruct (trx_schedule_action _ _ _ _ _ _) as [st0 o] eqn:E0. apply then_ok in H as (st & Hx & [= H]).
  apply action_block in Hx; [|done]. unfold trx_schedule_action in E0. injection E0 as <- _.
  eapply finalize_finished; [..|exact H]; [done|done| |done|done]. destruct Hi as (L1 & L2 & L3). split_and!; cbn; try done.
  by rewrite <- L1.
Qed.

(** *** Input and implicit transactions *)

(** A node that does not keep the transactions it tries. *)
Definition tries_only : bool := negb (read_mode_speculative env) && is_producing_block (te_chain (pe_trx env)).

(** The receipts that say what a push billed: that of a trace without exception
    whose transaction was not undone. *)
Lemma push_transaction_charged m deadline b explicit rd st st' tr :
  block_ok (cs_db (ctl_chain st)) -> 0 <= b < 2 ^ 32 ->
  push_transaction hash validate_code contract env fuel n m deadline b explicit rd st = Some (Ok (st', tr)) ->
  let l := if tries_only then [] else option_list (tt_receipt tr) in
  accounts_for (ctl_chain st) (ctl_chain st') l /\
  pending_trx_receipts (ctl_block st') = pending_trx_receipts (ctl_block st) ++ (if tm_implicit m then [] else l).
Proof.
  intros Hok Hb H. unfold push_transaction in H. fold tries_only in H. branch H; [done|]. cbv zeta in H.
  destruct (then_ _ _) as [[[[f bb] r]|e]|] eqn:E; [| |done].
  - injection H as <- <-. cbn [tt_receipt option_list]. apply then_ok in E as (f1 & Hr & [= E]). apply bind_ok in E as ([b1 r1] & Hp & [= -> -> ->]).
    apply push_run_ok in Hr as (Hbill & Hm & Hc & Hn); [|done|done]. destruct tries_only.
    { split; [by apply accounts_for_none|]. destruct (tm_implicit m); by rewrite app_nil_r. }
    cbn [ctl_chain ctl_block]. unfold push_record in Hp. cbv zeta in Hp. apply bind_ok in Hp as ([b2 r2] & Hp & [= <- ->]).
    change (u64 (billed_cpu_time_us (tx_cpu (fin_ctx f)))) with (trx_cpu f) in Hp. change (trx_net_usage (tx_net (fin_ctx f))) with (trx_net f) in Hp.
    destruct (tm_implicit m).
    + injection Hp as <- <-. rewrite app_nil_r. split; [|done]. unfold accounts_for. cbn.
      pose proof (Z.div_lt_upper_bound (trx_net f) 8 (2 ^ 32)). pose proof (Z.div_pos (trx_net f) 8).
      rewrite !wrap_id by (split; lia). pose proof (Z.div_mod (trx_net f) 8). replace (trx_cpu f + 0) with (trx_cpu f) by lia.
      replace (8 * (trx_net f / 8) + 0) with (trx_net f) by lia. done.
    + apply bind_ok in Hp as ([b3 r3] & Hp & [= <- ->]). apply push_receipt_ok in Hp as (P1 & _ & P3 & P4 & P5); [|done|done].
      split; [|done]. unfold accounts_for. cbn. unfold charged_cpu, charged_net. rewrite P3, P4, P5.
      rewrite !Z.add_0_r. by destruct (_ =? _).
  - destruct (caught e); [|cbn in H; by destruct (is_std_exception e)]. injection H as <- <-.
    split; [|destruct (tm_implicit m), tries_only; by rewrite app_nil_r]. destruct tries_only; by apply accounts_for_none.
Qed.

(** *** Deferred transactions *)

Lemma scheduled_record_ok id s f cs st st' tr :
  s <> status_expired -> finished_ok cs f -> scheduled_record id s f st = Ok (st', tr) ->
  exists r, receipt_trx r = receipt_of_id id /\ status r = s /\
    pending_trx_receipts (ctl_block st') = pending_trx_receipts (ctl_block st) ++ [r] /\
    accounts_for cs (ctl_chain st') [r] /\ tr = mk_trx_trace (Some r) None /\ ctl_chain st' = state_of f.
Proof.
  intros Hs (Hbill & Hm & Hc & Hn) H. unfold scheduled_record in H. apply bind_ok in H as ([b r] & Hp & [= <- <-]).
  apply push_receipt_ok in Hp as (P1 & P2 & P3 & P4 & P5); [|done|done]. exists r. split_and!; try done.
  unfold accounts_for. cbn. unfold charged_cpu, charged_net. rewrite P3, P4, P5, !Z.add_0_r. by destruct s.
Qed.

Lemma removed_block g db db' d : remove_scheduled_transaction g db = Ok (db', d) -> block_part db' = block_part db.
Proof.
  unfold remove_scheduled_transaction. intros H. cbv zeta in H. apply bind_ok in H as (r & Hm & H). peel H. injection H as <- _.
  unfold block_part. cbn. unfold add_pending_mem_usage in Hm. branch Hm; [by injection Hm as <-|]. peel Hm. by injection Hm as <-.
Qed.

(** A failed transaction is billed its time and retired, or left. *)
Lemma retire_failed_ok id tenv limits explicit cpu e cs st st' tr :
  block_ok (cs_db cs) -> 0 <= cpu < 2 ^ 32 ->
  retire_failed env id tenv limits explicit cpu e cs st = Ok (st', tr) ->
  (is_subjective env e = true /\ st' = st) \/
  (is_subjective env e = false /\ exists r, receipt_trx r = receipt_of_id id /\ status r = status_hard_fail /\
     pending_trx_receipts (ctl_block st') = pending_trx_receipts (ctl_block st) ++ [r] /\
     accounts_for cs (ctl_chain st') [r] /\ tt_receipt tr = Some r /\
     generated_transaction_index (cs_db (ctl_chain st')) = generated_transaction_index (cs_db cs)).
Proof.
  intros Hok Hc H. unfold retire_failed in H. destruct (is_subjective env e) eqn:Es; [left; by injection H as <- _|right]. split; [done|].
  apply bind_ok in H as ([r1 cpu1] & Hh & H). apply bind_ok in H as (r2 & Hb & H). apply bind_ok in H as ([b r] & Hp & [= <- <-]).
  assert (state r1 = state (resource_limits (cs_db cs)) /\ config r1 = config (resource_limits (cs_db cs)) /\ 0 <= cpu1 < 2 ^ 32) as (E1 & E2 & Hc1).
  { unfold hard_fail_cpu in Hh. branch Hh; [|by injection Hh as <- <-]. apply bind_ok in Hh as (r3 & Hu & Hh).
    apply update_account_usage_block in Hu as [? ?]. apply bind_ok in Hh as ([[[x y] z] w] & _ & Hh). cbv zeta in Hh.
    apply bind_ok in Hh as ([] & _ & [= <- <-]). split; [done|]. split; [done|]. apply (wrap_range 32). lia. }
  assert (block_part (with_resources (cs_db cs) r1) = block_part (cs_db cs)) as Ep by (unfold block_part; cbn; by rewrite E1, E2).
  destruct (block_part_same _ _ Ep) as (Hok1 & Ec & En).
  apply (add_usage_billed (with_resources (cs_db cs) r1)) in Hb as (B1 & B2 & B3); [|by apply Hok1|lia|lia].
  apply push_receipt_ok in Hp as (P1 & P2 & P3 & P4 & P5); [|done|lia]. exists r. split_and!; try done.
  unfold accounts_for, billed. cbn. unfold charged_cpu, charged_net. rewrite P3, P4, P5, Z.add_0_r. rewrite Ec in B2. rewrite En, Z.add_0_r in B3.
  split_and!; [exact B1|exact B2|]. rewrite Z.add_0_r. exact B3.
Qed.

(** How a deferred transaction ends once it is removed from the table: [cs] is
    the state after the removal. *)
Inductive retired (g : generated_transaction_object) (cs : chain_state) (st st' : controller_state) (r : transaction_receipt) : Prop :=
| retired_expired :
    status r = status_expired -> gto_expiration g < pending_block_time (te_chain (pe_trx env)) -> ctl_chain st' = cs ->
    retired g cs st st' r
| retired_executed inp b rd f :
    status r = status_executed -> scheduled_run hash validate_code contract env fuel n g inp b rd cs = Some (Ok f) ->
    ctl_chain st' = state_of f -> retired g cs st st' r
| retired_soft_fail a inp b rd f :
    status r = status_soft_fail -> gto_sender g <> 0 -> onerror_run hash validate_code contract env fuel n g a inp b rd cs = Some (Ok f) ->
    ctl_chain st' = state_of f -> retired g cs st st' r
| retired_hard_fail :
    status r = status_hard_fail ->
    generated_transaction_index (cs_db (ctl_chain st')) = generated_transaction_index (cs_db cs) -> retired g cs st st' r.

(** What a push of a deferred transaction that returns has done. *)
Definition push_outcome (g : generated_transaction_object) (cs : chain_state) (st st' : controller_state) (tr : trx_trace) : Prop :=
  (st' = st /\ tt_receipt tr = None /\ exists e, tt_except tr = Some e /\ is_subjective env e = true) \/
  exists r, tt_receipt tr = Some r /\ receipt_trx r = receipt_of_id (gto_trx_id g) /\
    pending_trx_receipts (ctl_block st') = pending_trx_receipts (ctl_block st) ++ [r] /\
    accounts_for cs (ctl_chain st') [r] /\ retired g cs st st' r.

Lemma retire_failed_outcome g tenv limits explicit cpu e cs st st' tr :
  block_ok (cs_db cs) -> 0 <= cpu < 2 ^ 32 ->
  retire_failed env (gto_trx_id g) tenv limits explicit cpu e cs st = Ok (st', tr) -> push_outcome g cs st st' tr.
Proof.
  intros Hok Hc H. pose proof H as H0. apply retire_failed_ok in H0 as [[Es ->]|[Es (r & H1 & H2 & H3 & H4 & H5 & H6)]]; [| |done|done].
  - left. split; [done|]. unfold retire_failed in H. rewrite Es in H. injection H as <-. split; [done|]. by exists e.
  - right. exists r. split_and!; try done. by apply retired_hard_fail.
Qed.

Lemma scheduled_failed_outcome g inp deadline b explicit rd rd2 e cs st st' tr :
  block_ok (cs_db cs) -> 0 <= b < 2 ^ 32 ->
  scheduled_failed hash validate_code contract env fuel n g inp deadline b explicit rd rd2 e cs st = Some (Ok (st', tr)) ->
  push_outcome g cs st st' tr.
Proof.
  intros Hok Hb H. unfold scheduled_failed in H. cbv zeta in H.
  assert (forall tenv inp rd, 0 <= failed_cpu tenv inp b rd cs < 2 ^ 32) as Hc by (intros; apply (wrap_range 32); lia).
  destruct (negb (gto_sender g =? 0) && _) eqn:Eb.
  - apply andb_prop in Eb as [Hsnd%negb_true_iff%Z.eqb_neq _]. apply then_ok in H as ([a id] & _ & H). cbv beta iota in H.
    destruct (then_ _ _) as [[[st1 tr1]|e']|] eqn:E; [| |done].
    + injection H as <- <-. apply then_ok in E as (f & Hr & [= E]). pose proof (onerror_run_ok _ _ _ _ _ _ _ Hok Hb Hr) as Hf.
      apply (scheduled_record_ok _ _ _ cs) in E as (r & R1 & R2 & R3 & R4 & -> & R6); [|done|done].
      right. exists r. split_and!; try done. by eapply retired_soft_fail.
    + injection H as H. destruct (caught e'); [|done]. by eapply retire_failed_outcome in H.
  - injection H as H. by eapply retire_failed_outcome in H.
Qed.

Lemma push_scheduled_outcome g deadline b explicit rd rd2 st st' tr :
  block_ok (cs_db (ctl_chain st)) -> 0 <= b < 2 ^ 32 ->
  push_scheduled_transaction hash validate_code contract env fuel n g deadline b explicit rd rd2 st = Some (Ok (st', tr)) ->
  exists db d, remove_scheduled_transaction g (cs_db (ctl_chain st)) = Ok (db, d) /\
    push_outcome g (with_cs_db (ctl_chain st) db) st st' tr.
Proof.
  intros Hok Hb H. unfold push_scheduled_transaction, captured in H. cbv zeta in H.
  destruct (then_ _ _) as [o|] eqn:E; [|done]. injection H as H%fc_capture_ok. subst o.
  apply then_ok in E as ([cs dtrx] & [= H] & E). apply bind_ok in H as ([] & _ & H). apply bind_ok in H as ([db d] & Hr & H).
  apply bind_ok in H as ([] & _ & H). apply bind_ok in H as (t & _ & [= <- <-]). exists db, d. split; [done|].
  assert (block_ok (cs_db (with_cs_db (ctl_chain st) db))) as Hok1 by (apply removed_block, block_part_same in Hr as (Hr & _); by apply Hr).
  cbv beta iota in E. destruct (Z.ltb_spec (gto_expiration g) (pending_block_time (te_chain (pe_trx env)))) as [Hexp|_].
  - apply (inj Some) in E. apply bind_ok in E as ([bb r] & Hp & [= <- <-]). apply push_receipt_ok in Hp as (P1 & P2 & P3 & P4 & P5); [|done|done].
    right. exists r. split_and!; try done; [|by apply retired_expired]. split; [done|]. cbn. unfold charged_cpu, charged_net. rewrite P3. lia.
  - destruct (then_ _ _) as [[[st1 tr1]|e]|] eqn:Es; [| |done].
    + injection E as <- <-. apply then_ok in Es as (f & Hx & [= Es]). pose proof (scheduled_run_ok _ _ _ _ _ _ Hok1 Hb Hx) as Hf.
      apply (scheduled_record_ok _ _ _ (with_cs_db (ctl_chain st) db)) in Es as (r & R1 & R2 & R3 & R4 & -> & R6); [|done|done].
      right. exists r. split_and!; try done. by eapply retired_executed.
    + destruct (caught e); [|done]. by eapply scheduled_failed_outcome.
Qed.

End push.

(** ** Theorems *)

Section theorems.
Context `{BT : BoostText} `{FO : FactorOrder} (hash : list Z -> sha256) (validate_code : list Z -> outcome unit).
Context (contract : sha256 -> Z -> Z -> Z -> action -> program).

(** A push of any kind; the list collects the receipts of implicit
    transactions, which are not in the block. *)
Inductive push_step : controller_state * list transaction_receipt -> controller_state * list transaction_receipt -> Prop :=
| step_input env fuel n m deadline b explicit rd st st' tr extra :
    config_small (pe_trx env) -> 0 <= b < 2 ^ 32 -> tm_implicit m = false ->
    push_transaction hash validate_code contract env fuel n m deadline b explicit rd st = Some (Ok (st', tr)) ->
    push_step (st, extra) (st', extra)
| step_implicit env fuel n m deadline b explicit rd st st' tr extra :
    config_small (pe_trx env) -> 0 <= b < 2 ^ 32 -> tm_implicit m = true -> tries_only env = false ->
    push_transaction hash validate_code contract env fuel n m deadline b explicit rd st = Some (Ok (st', tr)) ->
    push_step (st, extra) (st', extra ++ option_list (tt_receipt tr))
| step_scheduled env fuel n g deadline b explicit rd rd2 st st' tr extra :
    config_small (pe_trx env) -> 0 <= b < 2 ^ 32 ->
    push_scheduled_transaction hash validate_code contract env fuel n g deadline b explicit rd rd2 st = Some (Ok (st', tr)) ->
    push_step (st, extra) (st', extra).

Context (contracts_keep : forall h t v r a, calls_keep (contract h t v r a)).

(** All receipts, of the block and of implicit transactions. *)
Definition all_receipts (s : controller_state * list transaction_receipt) : list transaction_receipt :=
  pending_trx_receipts (ctl_block s.1) ++ s.2.

Definition step_db (s : controller_state * list transaction_receipt) : chain_db := cs_db (ctl_chain s.1).

Lemma push_step_charged s s' : block_ok (step_db s) -> push_step s s' ->
  block_ok (step_db s') /\
  block_cpu (step_db s') - total charged_cpu (all_receipts s') = block_cpu (step_db s) - total charged_cpu (all_receipts s) /\
  block_net (step_db s') - total charged_net (all_receipts s') = block_net (step_db s) - total charged_net (all_receipts s).
Proof.
  intros Hok H. unfold step_db, all_receipts in *. destruct H as [env fuel n m deadline b explicit rd st st' tr extra Hs Hb Hm H
    |env fuel n m deadline b explicit rd st st' tr extra Hs Hb Hm Ht H|env fuel n g deadline b explicit rd rd2 st st' tr extra Hs Hb H]; cbn [fst snd] in *.
  - eapply push_transaction_charged in H as [(H1 & H2 & H3) E]; [|done..]. rewrite Hm in E. rewrite E, !total_app. split; [done|]. lia.
  - eapply push_transaction_charged in H as [(H1 & H2 & H3) E]; [|done..]. rewrite Hm, app_nil_r in E. rewrite Ht in H2, H3.
    rewrite E, !total_app. split; [done|]. lia.
  - eapply push_scheduled_outcome in H as (db & d & Hr & Ho); [|done..]. destruct Ho as [(-> & _)|(r & _ & _ & E & (H1 & H2 & H3) & _)]; [done|].
    apply removed_block, block_part_same in Hr as (_ & Ec & En). cbn [cs_db with_cs_db] in H2, H3. rewrite E, !total_app. split; [done|]. lia.
Qed.


Lemma removed_gone g db db' d :
  remove_scheduled_transaction g db = Ok (db', d) -> indices (generated_transaction_index db') !! gto_id g = None.
Proof.
  unfold remove_scheduled_transaction. intros H. cbv zeta in H. apply bind_ok in H as (r & _ & H). apply bind_ok in H as (idx & H & [= <- _]).
  cbn. unfold db_remove, Chainbase.remove in H. branch H; [|done]. apply bind_ok in H as (m & Hm & [= <-]). cbn.
  unfold container_erase in Hm. branch Hm; [|done]. injection Hm as <-. apply lookup_delete_eq.
Qed.

(** C21: a deferred transaction is retired with one receipt or left alone.  A
    push that returns has either changed nothing, because the transaction
    failed in a way that is subjective, or it has added exactly one receipt with
    the id of the transaction: it expired and was only removed; it was removed
    and executed; it was removed and the error handler of its sender ran; or it
    failed, was removed and its payers were billed.  In the first and the last
    case it is gone from the table. *)
Theorem scheduled_transaction_retired env fuel n g deadline b explicit rd rd2 st st' tr :
  config_small (pe_trx env) -> block_ok (cs_db (ctl_chain st)) -> 0 <= b < 2 ^ 32 ->
  push_scheduled_transaction hash validate_code contract env fuel n g deadline b explicit rd rd2 st = Some (Ok (st', tr)) ->
  exists db d, remove_scheduled_transaction g (cs_db (ctl_chain st)) = Ok (db, d) /\
    push_outcome hash validate_code contract env fuel n g (with_cs_db (ctl_chain st) db) st st' tr /\
    forall r, tt_receipt tr = Some r -> status r = status_expired \/ status r = status_hard_fail ->
      indices (generated_transaction_index (cs_db (ctl_chain st'))) !! gto_id g = None.
Proof.
  intros Hs Hok Hb H. eapply push_scheduled_outcome in H as (db & d & Hr & Ho); [|done..]. exists db, d. split; [done|]. split; [done|].
  intros r Er Hst. pose proof (removed_gone _ _ _ _ Hr) as Hg. destruct Ho as [(_ & En & _)|(r' & Er' & _ & _ & _ & Hret)]; [congruence|].
  assert (r' = r) as -> by congruence. destruct Hret as [_ _ E|? ? ? ? Hx _ _|? ? ? ? ? Hx _ _ _|_ E].
  - by rewrite E.
  - rewrite Hx in Hst. by destruct Hst.
  - rewrite Hx in Hst. by destruct Hst.
  - by rewrite E.
Qed.

(** C28: an expired deferred transaction can always be retired.  In a state whose
    memory is accounted for, a stored transaction that is due and has expired is
    removed with a receipt: giving back its memory does not fail. *)
Theorem expired_transaction_retired env fuel n other dst i g t deadline b explicit rd rd2 st :
  accounted other dst -> cs_db (ctl_chain st) = ctx_db (ds_ctx dst) -> indices (ds_gtos dst) !! i = Some g ->
  delay_until g <= pending_block_time (te_chain (pe_trx env)) -> gto_expiration g < pending_block_time (te_chain (pe_trx env)) ->
  unpack_vector transaction_codec (gto_packed_trx g) = Ok t ->
  is_producing_block (te_chain (pe_trx env)) = true \/ explicit = true ->
  exists st' r,
    push_scheduled_transaction hash validate_code contract env fuel n g deadline b explicit rd rd2 st =
      Some (Ok (st', mk_trx_trace (Some r) None)) /\ status r = status_expired /\
    indices (generated_transaction_index (cs_db (ctl_chain st'))) !! gto_id g = None.
Proof.
  intros Ha Edb Hg Hd Hx Hu Hp. destruct (retire_total other dst i g Ha Hg) as (db & d & Hr). rewrite <- Edb in Hr.
  exists (mk_controller_state (with_cs_db (ctl_chain st) db) (mk_building_block (pending_trx_receipts (ctl_block st) ++
    [mk_transaction_receipt status_expired (u32 b) (u32 0) (receipt_of_id (gto_trx_id g))]) (pending_trx_metas (ctl_block st)) (block_actions (ctl_block st)))),
    (mk_transaction_receipt status_expired (u32 b) (u32 0) (receipt_of_id (gto_trx_id g))).
  split; [|split; [done|by apply removed_gone in Hr]]. unfold push_scheduled_transaction. cbv zeta.
  replace (is_producing_block (te_chain (pe_trx env)) || explicit) with true by (destruct Hp as [-> | ->]; [done|by rewrite orb_true_r]).
  rewrite Hr, Hu. unfold ine_assert at 1. cbn [mbind result_bind]. rewrite (proj2 (Z.leb_le _ _) Hd). cbn [mbind result_bind ine_assert then_].
  by rewrite (proj2 (Z.ltb_lt _ _) Hx).
Qed.

End theorems.

(** ** An example

    Alice's contract has stored a transaction; a block takes an input
    transaction of alice and then the stored one, or retires it when it is too
    late. *)

Definition chain_at (t : Z) : chain_env := mk_chain_env t 1 3888000 6 2 (fun _ => true) false false [].
Definition example_push_env (t : Z) : push_env :=
  mk_push_env (mk_trx_env (chain_at t) default_configuration false 1000 [] (mk_account_lists [] [] [] [] [])) 4096 false (fun _ => Ok tt)
    true None 0 None [] zero_digest.
Definition example_readings (t : Z) : readings := mk_readings t t t t (mk_timer false None).

Definition alice_stored : deferred_state :=
  or_same alice_deferred (schedule_deferred_transaction (FO := reference_order) (fun _ => zero_digest)
    (example_deferred_env example_env) example_sender 1 alice_name (example_deferred_trx 1) false alice_deferred).
Definition no_gto : generated_transaction_object := mk_generated_transaction_object 0 zero_digest 0 0 0 0 0 0 [].
Definition stored_gto (i : Z) (st : deferred_state) : generated_transaction_object := default no_gto (indices (ds_gtos st) !! i).

Definition one_summary : generic_index block_summary_object :=
  match create_summaries 1 empty_index with Ok s => s | Err _ => empty_index end.
Definition block_start (db : chain_db) : controller_state :=
  mk_controller_state (mk_chain_state db empty_index one_summary 100) (mk_building_block [] [] []).

Definition input_trx : transaction := mk_transaction 1600000030 0 0 0 0 0 [] [mk_action alice_name 1 [alice_active] []] [].
Definition input_meta : trx_meta :=
  mk_trx_meta (mk_packed_transaction [] 0 [] (match pack_vector transaction_codec input_trx with Ok l => l | Err _ => [] end)
    (mk_signed_transaction input_trx [] []) (mk_sha256 5 6 7 8)) false 0 [example_key].

Definition in_time : Z := 1600000011000000.
Definition too_late : Z := 1600009011000000.
Definition example_push_input (st : controller_state) : option (outcome (controller_state * trx_trace)) :=
  push_transaction (BT := reference_boost) (FO := reference_order) (fun _ => zero_digest) (fun _ => Ok tt) alice_contract
    (example_push_env in_time) 5 3 input_meta (in_time + 1000000) 200 true (example_readings in_time) st.
Definition example_push_stored (t : Z) (g : generated_transaction_object) (st : controller_state) :
  option (outcome (controller_state * trx_trace)) :=
  push_scheduled_transaction (BT := reference_boost) (FO := reference_order) (fun _ => zero_digest) (fun _ => Ok tt) alice_contract
    (example_push_env t) 5 3 g (t + 1000000) 300 true (example_readings t) (example_readings t) st.

Definition pushed (st : controller_state) (r : option (outcome (controller_state * trx_trace))) : controller_state :=
  match r with Some (Ok (st', _)) => st' | _ => st end.
Definition trace_of (r : option (outcome (controller_state * trx_trace))) : trx_trace :=
  match r with Some (Ok (_, tr)) => tr | _ => mk_trx_trace None None end.
Definition returned (r : option (outcome (controller_state * trx_trace))) : bool :=
  match r with Some (Ok _) => true | _ => false end.
Lemma returned_ok r st : returned r = true -> r = Some (Ok (pushed st r, trace_of r)).
Proof. by destruct r as [[[st' tr]|e]|]. Qed.

Definition alice_block : controller_state := block_start (ctx_db (ds_ctx alice_stored)).
Definition after_input : controller_state := pushed alice_block (example_push_input alice_block).
Definition after_both : controller_state := pushed after_input (example_push_stored in_time (stored_gto 0 alice_stored) after_input).

Definition block_ok_check (db : chain_db) : bool :=
  (0 <=? block_cpu db) && (block_cpu db <=? max (cpu_limit_parameters (config (resource_limits db)))) &&
  (0 <=? block_net db) && (block_net db <=? max (net_limit_parameters (config (resource_limits db)))) &&
  (max (cpu_limit_parameters (config (resource_limits db))) <? 2 ^ 32) &&
  (max (net_limit_parameters (config (resource_limits db))) <? 2 ^ 32).
Lemma block_ok_checked db : block_ok_check db = true -> block_ok db.
Proof. unfold block_ok_check, block_ok. rewrite !andb_true_iff. lia. Qed.

Lemma alice_contract_keeps h t v r a : calls_keep (alice_contract h t v r a).
Proof. unfold alice_contract. destruct (act_name a =? 1); [|constructor]. repeat (constructor; intros); by simplify_eq. Qed.

Lemma example_config_small t : config_small (pe_trx (example_push_env t)).
Proof. unfold config_small. cbn. lia. Qed.


Lemma scheduled_transaction_retired_witness :
  returned (example_push_stored in_time (stored_gto 0 alice_stored) alice_block) = true /\
  exists db d, remove_scheduled_transaction (stored_gto 0 alice_stored) (cs_db (ctl_chain alice_block)) = Ok (db, d).
Proof.
  assert (returned (example_push_stored in_time (stored_gto 0 alice_stored) alice_block) = true) as E by (by vm_compute).
  assert (block_ok_check (cs_db (ctl_chain alice_block)) = true) as Hb by (by vm_compute). split; [exact E|].
  apply (returned_ok _ alice_block) in E. unfold example_push_stored at 1 in E.
  assert (0 <= 300 < 2 ^ 32) as Hr by lia.
  destruct (scheduled_transaction_retired (BT := reference_boost) (FO := reference_order) (fun _ => zero_digest) (fun _ => Ok tt) alice_contract
    alice_contract_keeps _ _ _ _ _ _ _ _ _ _ _ _ (example_config_small in_time) (block_ok_checked _ Hb) Hr E) as (db & d & H & _).
  exists db, d. exact H.
Defined.

Definition late_block : controller_state := block_start (ctx_db (ds_ctx one_replaced)).
Definition decoded_gto : transaction :=
  match unpack_vector transaction_codec (gto_packed_trx (stored_gto 1 one_replaced)) with Ok t => t | Err _ => input_trx end.

Lemma expired_transaction_retired_witness :
  exists st' r, example_push_stored too_late (stored_gto 1 one_replaced) late_block = Some (Ok (st', mk_trx_trace (Some r) None)) /\
    status r = status_expired /\
    indices (generated_transaction_index (cs_db (ctl_chain st'))) !! gto_id (stored_gto 1 one_replaced) = None.
Proof.
  assert (indices (ds_gtos one_replaced) !! 1 = Some (stored_gto 1 one_replaced)) as Hg by (by vm_compute).
  assert ((delay_until (stored_gto 1 one_replaced) <=? too_late) = true) as Hd by (by vm_compute).
  assert ((gto_expiration (stored_gto 1 one_replaced) <? too_late) = true) as Hx by (by vm_compute).
  assert (unpack_vector transaction_codec (gto_packed_trx (stored_gto 1 one_replaced)) = Ok decoded_gto) as Hu by (by vm_compute).
  exact (expired_transaction_retired (BT := reference_boost) (FO := reference_order) (fun _ => zero_digest) (fun _ => Ok tt) alice_contract
    (example_push_env too_late) 5 3 (mem_of example_db) one_replaced 1 (stored_gto 1 one_replaced) decoded_gto (too_late + 1000000) 300 true
    (example_readings too_late) (example_readings too_late) late_block one_replaced_accounted eq_refl Hg
    (proj1 (Z.leb_le _ _) Hd) (proj1 (Z.ltb_lt _ _) Hx) Hu (or_intror eq_refl)).
Defined.
