(* ===== verification/ContractTables.v ===== *)
(** * The tables of contracts

    Models contract_table_objects.hpp and the database functions of
    apply_context (apply_context.hpp and apply_context.cpp): the tables of a
    contract with their primary rows (key_value_object) and the five kinds of
    secondary rows, the cache of iterators that gives a contract integers for
    rows and ends of tables, the billing of their memory, and the comparisons
    f64_lt and f128_lt of softfloat that order two of the kinds.

    A pointer to a row or a table in the cache is the id of the object, which
    chainbase never reuses; a pointer to an object that is gone is undefined
    behaviour when it is followed.  An ordered index is given by its order: an
    iterator to the first row that is not below a bound is the least such row,
    the iterator before it the greatest row below.

    The theorems are in three files.  [TableInvariants]: in all six kinds of
    rows the count of a table is the number of its rows, an empty table does not
    exist, and the memory billed to an account is the size of what it pays for.
    [TableRefinement]: the functions on primary rows refine ordered maps from
    primary keys to payers and values.  [SecondaryOrder]: searches in secondary
    indices follow the order of the keys, and the comparisons of floating point
    keys are those of the numbers. *)

From S2P Require Import Prelude Exceptions Names Merkle Authority ResourceLimits Raw Codecs.
From S2P Require Import Chainbase BlockHeader Transactions ProtocolFeatures ChainObjects Permissions NativeActions.

(** ** Objects *)

Record table_id_object := mk_table_id_object {
  tio_id : Z;
  tio_code : Z;
  tio_scope : Z;
  tio_table : Z;
  tio_payer : Z;
  tio_count : Z
}.

Definition by_code_scope_table (t : table_id_object) : list Z := [tio_code t; tio_scope t; tio_table t].

#[export] Instance table_id_chain_object : ChainObject table_id_object :=
  {| obj_id := tio_id; obj_keys := [by_code_scope_table] |}.

Record key_value_object := mk_key_value_object {
  kv_id : Z;
  kv_t_id : Z;
  kv_primary_key : Z;
  kv_payer : Z;
  kv_value : list Z
}.

#[export] Instance key_value_chain_object : ChainObject key_value_object :=
  {| obj_id := kv_id; obj_keys := [fun o => [kv_t_id o; kv_primary_key o]] |}.

(** The type of a secondary key: its order and its representation. *)
Class SecondaryKey (SK : Type) := {
  sk_less : SK -> SK -> bool;
  sk_words : SK -> list Z
}.

Record index_object (SK : Type) := mk_index_object {
  ix_id : Z;
  ix_t_id : Z;
  ix_primary_key : Z;
  ix_payer : Z;
  ix_secondary_key : SK
}.
Arguments mk_index_object {SK}.
Arguments ix_id {SK}.
Arguments ix_t_id {SK}.
Arguments ix_primary_key {SK}.
Arguments ix_payer {SK}.
Arguments ix_secondary_key {SK}.

(** by_primary and by_secondary; rows with distinct primary keys are distinct
    in both. *)
#[export] Instance index_chain_object {SK} `{!SecondaryKey SK} : ChainObject (index_object SK) :=
  {| obj_id := ix_id;
     obj_keys := [fun o => [ix_t_id o; ix_primary_key o];
                  fun o => ix_t_id o :: sk_words (ix_secondary_key o) ++ [ix_primary_key o]] |}.

(** The five kinds of keys. *)
Record key64 := mk_key64 { k64 : Z }.
Record key128 := mk_key128 { k128 : Z }.
Record key256 := mk_key256 { k256_0 : Z; k256_1 : Z }.
Record float64_t := mk_float64 { f64_bits : Z }.
Record float128_t := mk_float128 { f128_v64 : Z; f128_v0 : Z }.

Definition isNaNF64UI (a : Z) : bool :=
  (Z.land (Z.lnot a) 0x7FF0000000000000 =? 0) && negb (Z.land a 0x000FFFFFFFFFFFFF =? 0).

Definition f64_lt (a b : float64_t) : bool :=
  let uiA := f64_bits a in
  let uiB := f64_bits b in
  if isNaNF64UI uiA || isNaNF64UI uiB then false else
  let signA := negb (Z.shiftr uiA 63 =? 0) in
  let signB := negb (Z.shiftr uiB 63 =? 0) in
  if negb (eqb signA signB) then signA && negb (Z.land (Z.lor uiA uiB) 0x7FFFFFFFFFFFFFFF =? 0)
  else negb (uiA =? uiB) && xorb signA (uiA <? uiB).

Definition isNaNF128UI (a64 a0 : Z) : bool :=
  (Z.land (Z.lnot a64) 0x7FFF000000000000 =? 0) && (negb (a0 =? 0) || negb (Z.land a64 0x0000FFFFFFFFFFFF =? 0)).

Definition softfloat_lt128 (a64 a0 b64 b0 : Z) : bool := (a64 <? b64) || ((a64 =? b64) && (a0 <? b0)).

Definition f128_lt (a b : float128_t) : bool :=
  let uiA64 := f128_v64 a in
  let uiA0 := f128_v0 a in
  let uiB64 := f128_v64 b in
  let uiB0 := f128_v0 b in
  if isNaNF128UI uiA64 uiA0 || isNaNF128UI uiB64 uiB0 then false else
  let signA := negb (Z.shiftr uiA64 63 =? 0) in
  let signB := negb (Z.shiftr uiB64 63 =? 0) in
  if negb (eqb signA signB) then
    signA && negb (Z.lor (Z.lor (Z.land (Z.lor uiA64 uiB64) 0x7FFFFFFFFFFFFFFF) uiA0) uiB0 =? 0)
  else (negb (uiA64 =? uiB64) || negb (uiA0 =? uiB0)) && xorb signA (softfloat_lt128 uiA64 uiA0 uiB64 uiB0).

#[export] Instance key64_secondary : SecondaryKey key64 :=
  {| sk_less := fun a b => k64 a <? k64 b; sk_words := fun a => [k64 a] |}.
#[export] Instance key128_secondary : SecondaryKey key128 :=
  {| sk_less := fun a b => k128 a <? k128 b; sk_words := fun a => [k128 a] |}.
#[export] Instance key256_secondary : SecondaryKey key256 :=
  {| sk_less := fun a b => tie_lt Z.ltb Z.ltb (k256_0 a, k256_1 a) (k256_0 b, k256_1 b);
     sk_words := fun a => [k256_0 a; k256_1 a] |}.
#[export] Instance float64_secondary : SecondaryKey float64_t :=
  {| sk_less := f64_lt; sk_words := fun a => [f64_bits a] |}.
#[export] Instance float128_secondary : SecondaryKey float128_t :=
  {| sk_less := f128_lt; sk_words := fun a => [f128_v64 a; f128_v0 a] |}.

Definition billable_table_id_object : Z := billable_size_v (44 + overhead_per_row_per_index_mem_bytes * 2).
Definition billable_key_value_object : Z := billable_size_v (32 + 8 + 4 + overhead_per_row_per_index_mem_bytes * 2).
Definition billable_index_object (key_size : Z) : Z :=
  billable_size_v (24 + key_size + overhead_per_row_per_index_mem_bytes * 3).

(** ** The iterator cache *)

(** [_table_cache] maps the id of a table to its end iterator; the pointer it
    holds beside it is the table of that id. *)
Record iterator_cache := mk_iterator_cache {
  _table_cache : gmap Z Z;
  _end_iterator_to_table : list Z;
  _iterator_to_object : list (option Z);
  _object_to_iterator : gmap Z Z
}.

Definition new_cache : iterator_cache := mk_iterator_cache ∅ [] [] ∅.

(** [-(indx + 2)] of a size_t as an int, and the way back, on which the int
    INT_MIN cannot be negated. *)
Definition index_to_end_iterator (indx : Z) : Z := i32 (- (indx + 2)).
Definition end_iterator_to_index (ei : Z) : outcome Z :=
  if ei =? INT32_MIN then Err undefined_behaviour else Ok (u64 (- ei - 2)).

Definition cache_table (t_id : Z) (c : iterator_cache) : iterator_cache * Z :=
  match _table_cache c !! t_id with
  | Some ei => (c, ei)
  | None =>
      let ei := index_to_end_iterator (Z.of_nat (length (_end_iterator_to_table c))) in
      (mk_iterator_cache (<[t_id := ei]> (_table_cache c)) (_end_iterator_to_table c ++ [t_id])
         (_iterator_to_object c) (_object_to_iterator c), ei)
  end.

(** [get_table], which gives the table its pointer stands for, by its id. *)
Definition cached_table (t_id : Z) (c : iterator_cache) : outcome Z :=
  match _table_cache c !! t_id with Some _ => Ok t_id | None => Err (Throw table_not_in_cache) end.

Definition get_end_iterator_by_table_id (t_id : Z) (c : iterator_cache) : outcome Z :=
  match _table_cache c !! t_id with Some ei => Ok ei | None => Err (Throw table_not_in_cache) end.

Definition find_table_by_end_iterator (ei : Z) (c : iterator_cache) : outcome (option Z) :=
  ine_assert (ei <? -1) (Throw invalid_table_iterator) ;;
  indx ← end_iterator_to_index ei;
  Ok (_end_iterator_to_table c !! Z.to_nat indx).

Definition cache_get (iterator : Z) (c : iterator_cache) : outcome Z :=
  ine_assert (negb (iterator =? -1)) (Throw invalid_table_iterator) ;;
  ine_assert (iterator >=? 0) (Throw table_operation_not_permitted) ;;
  match _iterator_to_object c !! Z.to_nat iterator with
  | None => Err (Throw invalid_table_iterator)
  | Some None => Err (Throw table_operation_not_permitted)
  | Some (Some id) => Ok id
  end.

Definition cache_remove (iterator : Z) (c : iterator_cache) : outcome iterator_cache :=
  ine_assert (negb (iterator =? -1)) (Throw invalid_table_iterator) ;;
  ine_assert (iterator >=? 0) (Throw table_operation_not_permitted) ;;
  match _iterator_to_object c !! Z.to_nat iterator with
  | None => Err (Throw invalid_table_iterator)
  | Some None => Ok c
  | Some (Some id) =>
      Ok (mk_iterator_cache (_table_cache c) (_end_iterator_to_table c)
            (<[Z.to_nat iterator := None]> (_iterator_to_object c)) (delete id (_object_to_iterator c)))
  end.

Definition cache_add (id : Z) (c : iterator_cache) : iterator_cache * Z :=
  match _object_to_iterator c !! id with
  | Some it => (c, it)
  | None =>
      let it := i32 (Z.of_nat (length (_iterator_to_object c))) in
      (mk_iterator_cache (_table_cache c) (_end_iterator_to_table c)
         (_iterator_to_object c ++ [Some id]) (<[id := it]> (_object_to_iterator c)), it)
  end.

(** ** The context of an action *)

Record contract_db := mk_contract_db {
  table_index : generic_index table_id_object;
  kv_rows : generic_index key_value_object;
  idx64_rows : generic_index (index_object key64);
  idx128_rows : generic_index (index_object key128);
  idx256_rows : generic_index (index_object key256);
  idx_double_rows : generic_index (index_object float64_t);
  idx_long_double_rows : generic_index (index_object float128_t)
}.

Record caches := mk_caches {
  keyval_cache : iterator_cache;
  idx64_cache : iterator_cache;
  idx128_cache : iterator_cache;
  idx256_cache : iterator_cache;
  idx_double_cache : iterator_cache;
  idx_long_double_cache : iterator_cache
}.

Record table_ctx := mk_table_ctx {
  tc_base : apply_ctx;
  tc_db : contract_db;
  tc_caches : caches
}.

(** What the functions read of the action and of the controller. *)
Record action_env := mk_action_env {
  ae_receiver : Z;
  ae_act : action;
  ae_privileged : bool;
  ae_mem_restrictions : bool;
  ae_mem_billing_in_notify_allowed : bool
}.

Definition with_tables (ctx : table_ctx) (t : generic_index table_id_object) : table_ctx :=
  let d := tc_db ctx in
  mk_table_ctx (tc_base ctx)
    (mk_contract_db t (kv_rows d) (idx64_rows d) (idx128_rows d) (idx256_rows d) (idx_double_rows d)
       (idx_long_double_rows d)) (tc_caches ctx).

(** The six kinds of rows: what the code takes from the type of an object. *)
Class RowKind (R : Type) := {
  rk_object :: ChainObject R;
  row_t_id : R -> Z;
  row_primary : R -> Z;
  row_payer : R -> Z;
  row_billable : R -> Z;
  rows : table_ctx -> generic_index R;
  with_rows : table_ctx -> generic_index R -> table_ctx;
  cache : table_ctx -> iterator_cache;
  with_cache : table_ctx -> iterator_cache -> table_ctx
}.

#[export] Instance kv_kind : RowKind key_value_object := {|
  row_t_id := kv_t_id; row_primary := kv_primary_key; row_payer := kv_payer;
  row_billable o := Z.of_nat (length (kv_value o)) + billable_key_value_object;
  rows ctx := kv_rows (tc_db ctx);
  with_rows ctx r := let d := tc_db ctx in
    mk_table_ctx (tc_base ctx) (mk_contract_db (table_index d) r (idx64_rows d) (idx128_rows d) (idx256_rows d)
      (idx_double_rows d) (idx_long_double_rows d)) (tc_caches ctx);
  cache ctx := keyval_cache (tc_caches ctx);
  with_cache ctx c := let k := tc_caches ctx in
    mk_table_ctx (tc_base ctx) (tc_db ctx) (mk_caches c (idx64_cache k) (idx128_cache k) (idx256_cache k)
      (idx_double_cache k) (idx_long_double_cache k)) |}.

#[export] Instance idx64_kind : RowKind (index_object key64) := {|
  row_t_id := ix_t_id; row_primary := ix_primary_key; row_payer := ix_payer;
  row_billable _ := billable_index_object 8;
  rows ctx := idx64_rows (tc_db ctx);
  with_rows ctx r := let d := tc_db ctx in
    mk_table_ctx (tc_base ctx) (mk_contract_db (table_index d) (kv_rows d) r (idx128_rows d) (idx256_rows d)
      (idx_double_rows d) (idx_long_double_rows d)) (tc_caches ctx);
  cache ctx := idx64_cache (tc_caches ctx);
  with_cache ctx c := let k := tc_caches ctx in
    mk_table_ctx (tc_base ctx) (tc_db ctx) (mk_caches (keyval_cache k) c (idx128_cache k) (idx256_cache k)
      (idx_double_cache k) (idx_long_double_cache k)) |}.

#[export] Instance idx128_kind : RowKind (index_object key128) := {|
  row_t_id := ix_t_id; row_primary := ix_primary_key; row_payer := ix_payer;
  row_billable _ := billable_index_object 16;
  rows ctx := idx128_rows (tc_db ctx);
  with_rows ctx r := let d := tc_db ctx in
    mk_table_ctx (tc_base ctx) (mk_contract_db (table_index d) (kv_rows d) (idx64_rows d) r (idx256_rows d)
      (idx_double_rows d) (idx_long_double_rows d)) (tc_caches ctx);
  cache ctx := idx128_cache (tc_caches ctx);
  with_cache ctx c := let k := tc_caches ctx in
    mk_table_ctx (tc_base ctx) (tc_db ctx) (mk_caches (keyval_cache k) (idx64_cache k) c (idx256_cache k)
      (idx_double_cache k) (idx_long_double_cache k)) |}.

#[export] Instance idx256_kind : RowKind (index_object key256) := {|
  row_t_id := ix_t_id; row_primary := ix_primary_key; row_payer := ix_payer;
  row_billable _ := billable_index_object 32;
  rows ctx := idx256_rows (tc_db ctx);
  with_rows ctx r := let d := tc_db ctx in
    mk_table_ctx (tc_base ctx) (mk_contract_db (table_index d) (kv_rows d) (idx64_rows d) (idx128_rows d) r
      (idx_double_rows d) (idx_long_double_rows d)) (tc_caches ctx);
  cache ctx := idx256_cache (tc_caches ctx);
  with_cache ctx c := let k := tc_caches ctx in
    mk_table_ctx (tc_base ctx) (tc_db ctx) (mk_caches (keyval_cache k) (idx64_cache k) (idx128_cache k) c
      (idx_double_cache k) (idx_long_double_cache k)) |}.

#[export] Instance idx_double_kind : RowKind (index_object float64_t) := {|
  row_t_id := ix_t_id; row_primary := ix_primary_key; row_payer := ix_payer;
  row_billable _ := billable_index_object 8;
  rows ctx := idx_double_rows (tc_db ctx);
  with_rows ctx r := let d := tc_db ctx in
    mk_table_ctx (tc_base ctx) (mk_contract_db (table_index d) (kv_rows d) (idx64_rows d) (idx128_rows d)
      (idx256_rows d) r (idx_long_double_rows d)) (tc_caches ctx);
  cache ctx := idx_double_cache (tc_caches ctx);
  with_cache ctx c := let k := tc_caches ctx in
    mk_table_ctx (tc_base ctx) (tc_db ctx) (mk_caches (keyval_cache k) (idx64_cache k) (idx128_cache k)
      (idx256_cache k) c (idx_long_double_cache k)) |}.

#[export] Instance idx_long_double_kind : RowKind (index_object float128_t) := {|
  row_t_id := ix_t_id; row_primary := ix_primary_key; row_payer := ix_payer;
  row_billable _ := billable_index_object 16;
  rows ctx := idx_long_double_rows (tc_db ctx);
  with_rows ctx r := let d := tc_db ctx in
    mk_table_ctx (tc_base ctx) (mk_contract_db (table_index d) (kv_rows d) (idx64_rows d) (idx128_rows d)
      (idx256_rows d) (idx_double_rows d) r) (tc_caches ctx);
  cache ctx := idx_long_double_cache (tc_caches ctx);
  with_cache ctx c := let k := tc_caches ctx in
    mk_table_ctx (tc_base ctx) (tc_db ctx) (mk_caches (keyval_cache k) (idx64_cache k) (idx128_cache k)
      (idx256_cache k) (idx_double_cache k) c) |}.

Definition with_base (ctx : table_ctx) (b : apply_ctx) : table_ctx := mk_table_ctx b (tc_db ctx) (tc_caches ctx).

Definition tables (ctx : table_ctx) : generic_index table_id_object := table_index (tc_db ctx).

(** ** Billing and tables *)

Definition update_db_usage (env : action_env) (payer delta : Z) (ctx : table_ctx) : outcome table_ctx :=
  (if (delta >? 0) && negb (ae_privileged env || (payer =? ae_receiver env) || ae_mem_restrictions env)
   then ine_assert (ae_mem_billing_in_notify_allowed env || (ae_receiver env =? act_account (ae_act env)))
          (Throw subjective_block_production_exception) ;;
        require_authorization (ae_act env) payer
   else Ok tt) ;;
  b ← add_mem_usage payer delta (tc_base ctx);
  Ok (with_base ctx b).

Definition find_table (code scope table : Z) (ctx : table_ctx) : option table_id_object :=
  find_by by_code_scope_table [code; scope; table] (tables ctx).

Definition find_or_create_table (env : action_env) (code scope table payer : Z) (ctx : table_ctx)
    : outcome (table_ctx * table_id_object) :=
  match find_table code scope table ctx with
  | Some t => Ok (ctx, t)
  | None =>
      ctx ← update_db_usage env payer (i64 billable_table_id_object) ctx;
      '(ts, t) ← db_create (fun id => mk_table_id_object id code scope table payer 0) (tables ctx);
      Ok (with_tables ctx ts, t)
  end.

Definition remove_table (env : action_env) (tid : table_id_object) (ctx : table_ctx) : outcome table_ctx :=
  ctx ← update_db_usage env (tio_payer tid) (i64 (- billable_table_id_object)) ctx;
  ts ← db_remove (tio_id tid) (tables ctx);
  Ok (with_tables ctx ts).

(** A pointer to a table or a row is followed. *)
Definition deref {V} (idx : generic_index V) (id : Z) : outcome V :=
  match indices idx !! id with Some v => Ok v | None => Err undefined_behaviour end.

Definition set_count (f : Z -> Z) (t : table_id_object) : table_id_object :=
  mk_table_id_object (tio_id t) (tio_code t) (tio_scope t) (tio_table t) (tio_payer t) (u32 (f (tio_count t))).

(** ** Rows in order *)

Section rows.
Context {R : Type} `{!RowKind R}.

Definition all_rows (idx : generic_index R) : list R := map snd (map_to_list (indices idx)).

(** The least and the greatest of some rows. *)
Definition least (lt : R -> R -> bool) (l : list R) : option R :=
  foldr (fun v acc => match acc with None => Some v | Some w => Some (if lt v w then v else w) end) None l.
Definition greatest (lt : R -> R -> bool) (l : list R) : option R :=
  foldr (fun v acc => match acc with None => Some v | Some w => Some (if lt w v then v else w) end) None l.

(** The first row at or after a bound, the last one before it: [below] holds
    of the rows before the bound. *)
Definition first_from (lt : R -> R -> bool) (below : R -> bool) (idx : generic_index R) : option R :=
  least lt (List.filter (fun r => negb (below r)) (all_rows idx)).
Definition last_before (lt : R -> R -> bool) (below : R -> bool) (idx : generic_index R) : option R :=
  greatest lt (List.filter below (all_rows idx)).

(** The order of by_scope_primary and by_primary. *)
Definition primary_lt (a b : R) : bool :=
  tie_lt Z.ltb Z.ltb (row_t_id a, row_primary a) (row_t_id b, row_primary b).

Definition below_primary (t_id id : Z) (r : R) : bool := tie_lt Z.ltb Z.ltb (row_t_id r, row_primary r) (t_id, id).
Definition not_above_primary (t_id id : Z) (r : R) : bool :=
  negb (tie_lt Z.ltb Z.ltb (t_id, id) (row_t_id r, row_primary r)).
Definition not_above_table (t_id : Z) (r : R) : bool := negb (t_id <? row_t_id r).

Definition cache_row (r : R) (ctx : table_ctx) : table_ctx * Z :=
  let '(c, it) := cache_add (obj_id r) (cache ctx) in (with_cache ctx c, it).

Definition cache_table_of (t_id : Z) (ctx : table_ctx) : table_ctx * Z :=
  let '(c, ei) := cache_table t_id (cache ctx) in (with_cache ctx c, ei).

(** The functions that end at a row of the table [t_id], or at its end. *)
Definition to_row_or_end (t_id ei : Z) (r : option R) (ctx : table_ctx) : table_ctx * Z * option R :=
  match r with
  | Some r => if row_t_id r =? t_id then let '(ctx, it) := cache_row r ctx in (ctx, it, Some r)
              else (ctx, ei, None)
  | None => (ctx, ei, None)
  end.

(** [lowerbound] and [upperbound] in the order [lt]. *)
Definition bound_row (lt : R -> R -> bool) (below : Z -> R -> bool) (code scope table : Z) (ctx : table_ctx)
    : table_ctx * Z * option R :=
  match find_table code scope table ctx with
  | None => (ctx, -1, None)
  | Some tab =>
      let '(ctx, ei) := cache_table_of (tio_id tab) ctx in
      to_row_or_end (tio_id tab) ei (first_from lt (below (tio_id tab)) (rows ctx)) ctx
  end.

Definition find_row (key : Z -> R -> bool) (code scope table : Z) (ctx : table_ctx) : table_ctx * Z * option R :=
  match find_table code scope table ctx with
  | None => (ctx, -1, None)
  | Some tab =>
      let '(ctx, ei) := cache_table_of (tio_id tab) ctx in
      match List.find (key (tio_id tab)) (all_rows (rows ctx)) with
      | None => (ctx, ei, None)
      | Some r => let '(ctx, it) := cache_row r ctx in (ctx, it, Some r)
      end
  end.

Definition end_row (code scope table : Z) (ctx : table_ctx) : table_ctx * Z :=
  match find_table code scope table ctx with
  | None => (ctx, -1)
  | Some tab => cache_table_of (tio_id tab) ctx
  end.

Definition next_row (lt : R -> R -> bool) (iterator : Z) (ctx : table_ctx) : outcome (table_ctx * Z * option R) :=
  if iterator <? -1 then Ok (ctx, -1, None)
  else
    id ← cache_get iterator (cache ctx);
    obj ← deref (rows ctx) id;
    match first_from lt (fun r => negb (lt obj r)) (rows ctx) with
    | Some r =>
        if row_t_id r =? row_t_id obj then let '(ctx, it) := cache_row r ctx in Ok (ctx, it, Some r)
        else ei ← get_end_iterator_by_table_id (row_t_id obj) (cache ctx); Ok (ctx, ei, None)
    | None => ei ← get_end_iterator_by_table_id (row_t_id obj) (cache ctx); Ok (ctx, ei, None)
    end.

Definition previous_row (lt : R -> R -> bool) (iterator : Z) (ctx : table_ctx)
    : outcome (table_ctx * Z * option R) :=
  if iterator <? -1 then
    tab ← find_table_by_end_iterator iterator (cache ctx);
    match tab with
    | None => Err (Throw invalid_table_iterator)
    | Some t =>
        tab ← deref (tables ctx) t;
        Ok (to_row_or_end (tio_id tab) (-1) (last_before lt (not_above_table (tio_id tab)) (rows ctx)) ctx)
    end
  else
    id ← cache_get iterator (cache ctx);
    obj ← deref (rows ctx) id;
    Ok (to_row_or_end (row_t_id obj) (-1) (last_before lt (fun r => lt r obj) (rows ctx)) ctx).

(** The row an iterator stands for. *)
Definition get_row (iterator : Z) (ctx : table_ctx) : outcome R :=
  id ← cache_get iterator (cache ctx); deref (rows ctx) id.

(** The end of [store]: the new row is counted in its table, billed and
    cached. *)
Definition finish_store (env : action_env) (tab : table_id_object) (payer billable : Z) (obj : R) (ctx : table_ctx)
    : outcome (table_ctx * Z) :=
  ts ← db_modify (tio_id tab) (set_count (fun n => n + 1)) (tables ctx);
  ctx ← update_db_usage env payer billable (with_tables ctx ts);
  let '(ctx, _) := cache_table_of (tio_id tab) ctx in
  Ok (cache_row obj ctx).

(** The end of [remove]: the row is taken out and the table with it if it is
    the last one. *)
Definition finish_remove (env : action_env) (iterator : Z) (obj : R) (t_id : Z) (ctx : table_ctx)
    : outcome table_ctx :=
  ts ← db_modify t_id (set_count (fun n => n - 1)) (tables ctx);
  rs ← db_remove (obj_id obj) (rows ctx);
  let ctx := with_rows (with_tables ctx ts) rs in
  table_obj ← deref (tables ctx) t_id;
  ctx ← (if tio_count table_obj =? 0 then remove_table env table_obj ctx else Ok ctx);
  c ← cache_remove iterator (cache ctx);
  Ok (with_cache ctx c).

End rows.

(** ** Primary rows *)

Definition db_store_i64 (env : action_env) (code scope table payer id : Z) (buffer : list Z) (ctx : table_ctx)
    : outcome (table_ctx * Z) :=
  '(ctx, tab) ← find_or_create_table env code scope table payer ctx;
  ine_assert (negb (payer =? 0)) (Throw invalid_table_payer) ;;
  '(rs, obj) ← db_create (fun i => mk_key_value_object i (tio_id tab) id payer buffer) (rows ctx);
  finish_store env tab payer (i64 (Z.of_nat (length buffer) + billable_key_value_object)) obj (with_rows ctx rs).

Definition db_update_i64 (env : action_env) (iterator payer : Z) (buffer : list Z) (ctx : table_ctx)
    : outcome table_ctx :=
  obj ← get_row (R := key_value_object) iterator ctx;
  t ← cached_table (kv_t_id obj) (keyval_cache (tc_caches ctx));
  table_obj ← deref (tables ctx) t;
  ine_assert (tio_code table_obj =? ae_receiver env) (Throw table_access_violation) ;;
  let old_size := i64 (Z.of_nat (length (kv_value obj)) + billable_key_value_object) in
  let new_size := i64 (Z.of_nat (length buffer) + billable_key_value_object) in
  let payer := if payer =? 0 then kv_payer obj else payer in
  ctx ← (if negb (kv_payer obj =? payer) then
           ctx ← update_db_usage env (kv_payer obj) (- old_size) ctx;
           update_db_usage env payer new_size ctx
         else if negb (old_size =? new_size) then update_db_usage env (kv_payer obj) (new_size - old_size) ctx
         else Ok ctx);
  rs ← db_modify (kv_id obj) (fun o => mk_key_value_object (kv_id o) (kv_t_id o) (kv_primary_key o) payer buffer)
         (rows ctx);
  Ok (with_rows ctx rs).

Definition db_remove_i64 (env : action_env) (iterator : Z) (ctx : table_ctx) : outcome table_ctx :=
  obj ← get_row (R := key_value_object) iterator ctx;
  t ← cached_table (kv_t_id obj) (keyval_cache (tc_caches ctx));
  table_obj ← deref (tables ctx) t;
  ine_assert (tio_code table_obj =? ae_receiver env) (Throw table_access_violation) ;;
  ctx ← update_db_usage env (kv_payer obj)
          (i64 (- (Z.of_nat (length (kv_value obj)) + billable_key_value_object))) ctx;
  finish_remove env iterator obj t ctx.

(** The bytes copied to the buffer and the number returned; with an empty
    buffer the size of the value. *)
Definition db_get_i64 (iterator buffer_size : Z) (ctx : table_ctx) : outcome (list Z * Z) :=
  obj ← get_row (R := key_value_object) iterator ctx;
  let s := Z.of_nat (length (kv_value obj)) in
  if buffer_size =? 0 then Ok ([], i32 s)
  else let copy_size := Z.min buffer_size s in Ok (take (Z.to_nat copy_size) (kv_value obj), i32 copy_size).

Definition db_next_i64 (iterator : Z) (ctx : table_ctx) : outcome (table_ctx * Z * option key_value_object) :=
  next_row primary_lt iterator ctx.
Definition db_previous_i64 (iterator : Z) (ctx : table_ctx) : outcome (table_ctx * Z * option key_value_object) :=
  previous_row primary_lt iterator ctx.

Definition has_primary {R} `{!RowKind R} (id t_id : Z) (r : R) : bool := (row_t_id r =? t_id) && (row_primary r =? id).

Definition db_find_i64 (code scope table id : Z) (ctx : table_ctx) : table_ctx * Z * option key_value_object :=
  find_row (has_primary id) code scope table ctx.
Definition db_lowerbound_i64 (code scope table id : Z) (ctx : table_ctx) : table_ctx * Z * option key_value_object :=
  bound_row primary_lt (fun t => below_primary t id) code scope table ctx.
Definition db_upperbound_i64 (code scope table id : Z) (ctx : table_ctx) : table_ctx * Z * option key_value_object :=
  bound_row primary_lt (fun t => not_above_primary t id) code scope table ctx.
Definition db_end_i64 (code scope table : Z) (ctx : table_ctx) : table_ctx * Z :=
  end_row (R := key_value_object) code scope table ctx.

(** ** Secondary rows: the class generic_index of apply_context *)

Section secondary.
Context {SK : Type} `{!SecondaryKey SK, !RowKind (index_object SK)}.
Abbreviation row := (index_object SK).

(** The order of by_secondary, and its comparison with a table and a key. *)
Definition secondary_lt (a b : row) : bool :=
  (ix_t_id a <? ix_t_id b) ||
  (negb (ix_t_id b <? ix_t_id a) &&
   (sk_less (ix_secondary_key a) (ix_secondary_key b) ||
    (negb (sk_less (ix_secondary_key b) (ix_secondary_key a)) && (ix_primary_key a <? ix_primary_key b)))).

Definition below_secondary (key : SK) (t_id : Z) (r : row) : bool :=
  (ix_t_id r <? t_id) || (negb (t_id <? ix_t_id r) && sk_less (ix_secondary_key r) key).
Definition not_above_secondary (key : SK) (t_id : Z) (r : row) : bool :=
  negb ((t_id <? ix_t_id r) || (negb (ix_t_id r <? t_id) && sk_less key (ix_secondary_key r))).

(** The size billed for a row of this kind. *)
Context (billable : Z).

Definition store (env : action_env) (scope table payer id : Z) (value : SK) (ctx : table_ctx)
    : outcome (table_ctx * Z) :=
  ine_assert (negb (payer =? 0)) (Throw invalid_table_payer) ;;
  '(ctx, tab) ← find_or_create_table env (ae_receiver env) scope table payer ctx;
  '(rs, obj) ← db_create (fun i => mk_index_object i (tio_id tab) id payer value) (rows ctx);
  finish_store env tab payer (i64 billable) obj (with_rows ctx rs).

Definition remove_secondary (env : action_env) (iterator : Z) (ctx : table_ctx) : outcome table_ctx :=
  obj ← get_row (R := row) iterator ctx;
  ctx ← update_db_usage env (ix_payer obj) (i64 (- billable)) ctx;
  t ← cached_table (ix_t_id obj) (cache ctx);
  table_obj ← deref (tables ctx) t;
  ine_assert (tio_code table_obj =? ae_receiver env) (Throw table_access_violation) ;;
  finish_remove env iterator obj t ctx.

Definition update_secondary (env : action_env) (iterator payer : Z) (secondary : SK) (ctx : table_ctx)
    : outcome table_ctx :=
  obj ← get_row (R := row) iterator ctx;
  t ← cached_table (ix_t_id obj) (cache ctx);
  table_obj ← deref (tables ctx) t;
  ine_assert (tio_code table_obj =? ae_receiver env) (Throw table_access_violation) ;;
  let payer := if payer =? 0 then ix_payer obj else payer in
  ctx ← (if negb (ix_payer obj =? payer) then
           ctx ← update_db_usage env (ix_payer obj) (- i64 billable) ctx;
           update_db_usage env payer (i64 billable) ctx
         else Ok ctx);
  rs ← db_modify (ix_id obj) (fun o => mk_index_object (ix_id o) (ix_t_id o) (ix_primary_key o) payer secondary)
         (rows ctx);
  Ok (with_rows ctx rs).

(** [find] with the table and the secondary key alone ends at the first row
    that has them. *)
Definition find_secondary (code scope table : Z) (secondary : SK) (ctx : table_ctx)
    : table_ctx * Z * option row :=
  match find_table code scope table ctx with
  | None => (ctx, -1, None)
  | Some tab =>
      let '(ctx, ei) := cache_table_of (R := row) (tio_id tab) ctx in
      match first_from secondary_lt (below_secondary secondary (tio_id tab)) (rows ctx) with
      | Some r =>
          if not_above_secondary secondary (tio_id tab) r
          then let '(ctx, it) := cache_row r ctx in (ctx, it, Some r) else (ctx, ei, None)
      | None => (ctx, ei, None)
      end
  end.

Definition lowerbound_secondary (code scope table : Z) (secondary : SK) (ctx : table_ctx)
    : table_ctx * Z * option row :=
  bound_row secondary_lt (below_secondary secondary) code scope table ctx.
Definition upperbound_secondary (code scope table : Z) (secondary : SK) (ctx : table_ctx)
    : table_ctx * Z * option row :=
  bound_row secondary_lt (not_above_secondary secondary) code scope table ctx.
Definition end_secondary (code scope table : Z) (ctx : table_ctx) : table_ctx * Z :=
  end_row (R := row) code scope table ctx.
Definition next_secondary (iterator : Z) (ctx : table_ctx) : outcome (table_ctx * Z * option row) :=
  next_row secondary_lt iterator ctx.
Definition previous_secondary (iterator : Z) (ctx : table_ctx) : outcome (table_ctx * Z * option row) :=
  previous_row secondary_lt iterator ctx.

Definition find_primary (code scope table primary : Z) (ctx : table_ctx) : table_ctx * Z * option row :=
  find_row (has_primary primary) code scope table ctx.
Definition lowerbound_primary (code scope table primary : Z) (ctx : table_ctx) : table_ctx * Z * option row :=
  bound_row primary_lt (fun t => below_primary t primary) code scope table ctx.
Definition upperbound_primary (code scope table primary : Z) (ctx : table_ctx) : table_ctx * Z * option row :=
  bound_row primary_lt (fun t => not_above_primary t primary) code scope table ctx.
Definition next_primary (iterator : Z) (ctx : table_ctx) : outcome (table_ctx * Z * option row) :=
  next_row primary_lt iterator ctx.
Definition previous_primary (iterator : Z) (ctx : table_ctx) : outcome (table_ctx * Z * option row) :=
  previous_row primary_lt iterator ctx.

Definition get_secondary (iterator : Z) (ctx : table_ctx) : outcome (Z * SK) :=
  obj ← get_row (R := row) iterator ctx; Ok (ix_primary_key obj, ix_secondary_key obj).

End secondary.

(** ** Counting and billing *)

Section sums.
Context {R : Type} `{!RowKind R}.

(** The number of rows of a table, and the bytes an account pays for rows. *)
Definition kind_count (rs : generic_index R) (t : Z) : Z :=
  table_sum (fun _ r => if row_t_id r =? t then 1 else 0) (indices rs).
Definition kind_billed (rs : generic_index R) (a : Z) : Z :=
  table_sum (fun _ r => if row_payer r =? a then row_billable r else 0) (indices rs).

Lemma kind_count_nonneg rs t : 0 <= kind_count rs t.
Proof. apply table_sum_nonneg. intros _ r. destruct (_ =? _); lia. Qed.

Lemma kind_count_pos rs i r : indices rs !! i = Some r -> 0 < kind_count rs (row_t_id r).
Proof.
  intros H. unfold kind_count. pose proof (table_sum_lookup (fun _ (x : R) => if row_t_id x =? row_t_id r then 1 else 0)
    (indices rs) i r) as Hs. cbn beta in Hs. rewrite Z.eqb_refl in Hs. enough (1 <= _) by exact (Z.lt_le_trans _ _ _ Z.lt_0_1 H0).
  apply Hs; [|done]. intros _ v. destruct (_ =? _); lia.
Qed.

Lemma kind_count_zero rs t : kind_count rs t = 0 -> forall i r, indices rs !! i = Some r -> row_t_id r <> t.
Proof. intros H i r Hr <-. apply kind_count_pos in Hr. lia. Qed.
End sums.

Definition total_count (ctx : table_ctx) (t : Z) : Z :=
  kind_count (rows (R := key_value_object) ctx) t + kind_count (rows (R := index_object key64) ctx) t +
  kind_count (rows (R := index_object key128) ctx) t + kind_count (rows (R := index_object key256) ctx) t +
  kind_count (rows (R := index_object float64_t) ctx) t + kind_count (rows (R := index_object float128_t) ctx) t.

Definition rows_billed (ctx : table_ctx) (a : Z) : Z :=
  kind_billed (rows (R := key_value_object) ctx) a + kind_billed (rows (R := index_object key64) ctx) a +
  kind_billed (rows (R := index_object key128) ctx) a + kind_billed (rows (R := index_object key256) ctx) a +
  kind_billed (rows (R := index_object float64_t) ctx) a + kind_billed (rows (R := index_object float128_t) ctx) a.

Definition tables_billed (ts : generic_index table_id_object) (a : Z) : Z :=
  table_sum (fun _ t => if tio_payer t =? a then billable_table_id_object else 0) (indices ts).

(** The bytes an account pays for, and the bytes it is billed for. *)
Definition paid_for (ctx : table_ctx) (a : Z) : Z := tables_billed (tables ctx) a + rows_billed ctx a.

Definition mem_billed (ctx : table_ctx) (a : Z) : Z := mem_of (resource_limits (ctx_db (tc_base ctx))) a.

(** ** Invariants *)

Record cache_ok {R} `{!RowKind R} (rs : generic_index R) (c : iterator_cache) : Prop := {
  co_objects : forall id it, _object_to_iterator c !! id = Some it <->
    0 <= it /\ _iterator_to_object c !! Z.to_nat it = Some (Some id);
  co_live : forall n id, _iterator_to_object c !! n = Some (Some id) ->
    exists r, indices rs !! id = Some r /\ is_Some (_table_cache c !! row_t_id r);
  co_ends : forall t ei, _table_cache c !! t = Some ei <->
    exists n, _end_iterator_to_table c !! n = Some t /\ ei = - (Z.of_nat n + 2);
  co_small : Z.of_nat (length (_iterator_to_object c)) <= INT32_MAX /\
             Z.of_nat (length (_end_iterator_to_table c)) + 1 <= INT32_MAX
}.

Record kind_ok {R} `{!RowKind R} (ts : generic_index table_id_object) (rs : generic_index R) (c : iterator_cache)
    : Prop := {
  ko_rows : table_ok rs;
  ko_tables : forall i r, indices rs !! i = Some r -> is_Some (indices ts !! row_t_id r);
  ko_size : forall i r, indices rs !! i = Some r -> 0 < row_billable r <= INT64_MAX;
  ko_cache : cache_ok rs c
}.

Definition all_kinds (ctx : table_ctx) : Prop :=
  kind_ok (tables ctx) (rows (R := key_value_object) ctx) (cache (R := key_value_object) ctx) /\
  kind_ok (tables ctx) (rows (R := index_object key64) ctx) (cache (R := index_object key64) ctx) /\
  kind_ok (tables ctx) (rows (R := index_object key128) ctx) (cache (R := index_object key128) ctx) /\
  kind_ok (tables ctx) (rows (R := index_object key256) ctx) (cache (R := index_object key256) ctx) /\
  kind_ok (tables ctx) (rows (R := index_object float64_t) ctx) (cache (R := index_object float64_t) ctx) /\
  kind_ok (tables ctx) (rows (R := index_object float128_t) ctx) (cache (R := index_object float128_t) ctx).

Record contract_inv (ctx : table_ctx) : Prop := {
  ci_tables : table_ok (tables ctx);
  ci_kinds : all_kinds ctx;
  ci_counts : forall i t, indices (tables ctx) !! i = Some t ->
    tio_count t = total_count ctx i /\ 0 < total_count ctx i <= UINT32_MAX;
  ci_resources : rl_inv (resource_limits (ctx_db (tc_base ctx)))
}.

(** ** The laws of a kind *)

(** [ctx'] differs from [ctx] in nothing but its tables, its billing and the
    rows and the cache of this kind. *)
Definition frame (R : Type) `{!RowKind R} (ctx ctx' : table_ctx) : Prop :=
  ctx' = with_base (with_tables (with_cache (R := R) (with_rows (R := R) ctx (rows ctx')) (cache (R := R) ctx'))
    (tables ctx')) (tc_base ctx').

Class RowKindLaws (R : Type) `{!RowKind R} : Prop := {
  rows_with_rows ctx (r : generic_index R) : rows (with_rows ctx r) = r;
  rows_with_tables ctx t : rows (R := R) (with_tables ctx t) = rows ctx;
  rows_with_cache ctx c : rows (with_cache (R := R) ctx c) = rows ctx;
  rows_with_base ctx b : rows (R := R) (with_base ctx b) = rows ctx;
  tables_with_rows ctx (r : generic_index R) : tables (with_rows ctx r) = tables ctx;
  tables_with_cache ctx c : tables (with_cache (R := R) ctx c) = tables ctx;
  cache_with_rows ctx (r : generic_index R) : cache (R := R) (with_rows ctx r) = cache ctx;
  cache_with_tables ctx t : cache (R := R) (with_tables ctx t) = cache ctx;
  cache_with_cache ctx c : cache (R := R) (with_cache ctx c) = c;
  cache_with_base ctx b : cache (R := R) (with_base ctx b) = cache ctx;
  base_with_rows ctx (r : generic_index R) : tc_base (with_rows ctx r) = tc_base ctx;
  base_with_cache ctx c : tc_base (with_cache (R := R) ctx c) = tc_base ctx;
  frame_refl ctx : frame R ctx ctx;
  frame_trans ctx ctx1 ctx2 : frame R ctx ctx1 -> frame R ctx1 ctx2 -> frame R ctx ctx2;
  frame_rows ctx (r : generic_index R) : frame R ctx (with_rows ctx r);
  frame_cache ctx c : frame R ctx (with_cache (R := R) ctx c);
  frame_tables ctx t : frame R ctx (with_tables ctx t);
  frame_base ctx b : frame R ctx (with_base ctx b);
  (** the primary key is unique *)
  unique_primary (a b : R) : row_t_id a = row_t_id b -> row_primary a = row_primary b -> same_key obj_keys a b = true;
  frame_count ctx ctx' t : frame R ctx ctx' ->
    total_count ctx' t - kind_count (rows (R := R) ctx') t = total_count ctx t - kind_count (rows (R := R) ctx) t;
  frame_billed ctx ctx' a : frame R ctx ctx' ->
    rows_billed ctx' a - kind_billed (rows (R := R) ctx') a = rows_billed ctx a - kind_billed (rows (R := R) ctx) a;
  kind_of_all ctx : all_kinds ctx -> kind_ok (tables ctx) (rows (R := R) ctx) (cache (R := R) ctx);
  count_at_least ctx t : kind_count (rows (R := R) ctx) t <= total_count ctx t;
  frame_all ctx ctx' : frame R ctx ctx' -> all_kinds ctx ->
    (forall t, is_Some (indices (tables ctx) !! t) -> 0 < total_count ctx' t -> is_Some (indices (tables ctx') !! t)) ->
    kind_ok (tables ctx') (rows (R := R) ctx') (cache (R := R) ctx') -> all_kinds ctx'
}.

(** A kind keeps its invariant when tables without rows go. *)
Lemma kind_ok_tables {R} `{!RowKind R} (ts ts' : generic_index table_id_object) (rs : generic_index R) c :
  kind_ok ts rs c -> (forall i r, indices rs !! i = Some r -> is_Some (indices ts !! row_t_id r) ->
    is_Some (indices ts' !! row_t_id r)) -> kind_ok ts' rs c.
Proof. intros [H1 H2 H3 H4] H. split; eauto. Qed.

(** A row of another kind is counted, so that its table stays. *)
Ltac row_counted :=
  eapply kind_ok_tables; [eassumption|];
  let i := fresh "i" in let r := fresh "r" in let Hr := fresh "Hr" in let Hs := fresh "Hs" in
  intros i r Hr Hs; apply kind_count_pos in Hr;
  match goal with Ht : forall t, is_Some _ -> _ -> _ |- _ => apply Ht; [exact Hs|] end;
  unfold total_count; cbn;
  repeat match goal with |- context [kind_count ?rs ?t] =>
    lazymatch goal with H : 0 <= kind_count rs t |- _ => fail | _ => pose proof (kind_count_nonneg rs t) end end;
  cbn in Hr |- *; lia.

Ltac kind_laws :=
  split; unfold frame;
  [done|done|done|done|done|done|done|done|done|done|done|done
  |intros [b [] []]; done
  |intros [b [] []] [b1 [] []] [b2 [] []] H1 H2; cbn in *; injection H1; injection H2; intros; subst; reflexivity
  |intros [b [] []] ?; done|intros [b [] []] ?; done|intros [b [] []] ?; done|intros [b [] []] ?; done
  |intros a b Ht Hp; unfold same_key; cbn in *; rewrite Ht, Hp, bool_decide_eq_true_2 by done; done
  |intros ctx ctx' t ->; unfold total_count; cbn; lia
  |intros ctx ctx' a ->; unfold rows_billed; cbn; lia
  |intros ctx (H1 & H2 & H3 & H4 & H5 & H6); done
  |intros ctx t; unfold total_count; cbn;
   repeat match goal with |- context [kind_count ?r t] =>
     lazymatch goal with H : 0 <= kind_count r t |- _ => fail | _ => pose proof (kind_count_nonneg r t) end end; lia
  |intros ctx ctx' E (H1 & H2 & H3 & H4 & H5 & H6) Ht Hk; rewrite E in Ht |- *; rewrite E in Hk;
   split_and!; first [exact Hk|row_counted]].

#[export] Instance kv_laws : RowKindLaws key_value_object.
Proof. kind_laws. Qed.
#[export] Instance idx64_laws : RowKindLaws (index_object key64).
Proof. kind_laws. Qed.
#[export] Instance idx128_laws : RowKindLaws (index_object key128).
Proof. kind_laws. Qed.
#[export] Instance idx256_laws : RowKindLaws (index_object key256).
Proof. kind_laws. Qed.
#[export] Instance idx_double_laws : RowKindLaws (index_object float64_t).
Proof. kind_laws. Qed.
#[export] Instance idx_long_double_laws : RowKindLaws (index_object float128_t).
Proof. kind_laws. Qed.

(** ** The cache *)

Section cache.
Context {R : Type} `{!RowKind R}.
Implicit Types (rs : generic_index R) (c : iterator_cache).

Lemma cache_get_ok it c id :
  cache_get it c = Ok id <-> 0 <= it /\ _iterator_to_object c !! Z.to_nat it = Some (Some id).
Proof.
  unfold cache_get. destruct (Z.eqb_spec it (-1)) as [->|]; cbn; [split; [done|lia]|].
  destruct (Z.geb_spec it 0) as [H|H]; cbn; [|split; [done|lia]].
  destruct (_iterator_to_object c !! Z.to_nat it) as [[x|]|]; split; try done; try (by intros [_ [=]]).
  - intros [= ->]. split; [lia|done].
  - by intros [_ [= ->]].
Qed.

(** What a cache says of iterators is kept. *)
Definition cache_grows c c' : Prop :=
  (forall it id, cache_get it c = Ok id -> cache_get it c' = Ok id) /\
  (forall t ei, _table_cache c !! t = Some ei -> _table_cache c' !! t = Some ei) /\
  (forall n t, _end_iterator_to_table c !! n = Some t -> _end_iterator_to_table c' !! n = Some t).

Lemma cache_grows_refl c : cache_grows c c.
Proof. by split_and!. Qed.

Lemma cache_grows_trans c1 c2 c3 : cache_grows c1 c2 -> cache_grows c2 c3 -> cache_grows c1 c3.
Proof. intros (A1 & A2 & A3) (B1 & B2 & B3). split_and!; eauto. Qed.

Lemma i32_small z : 0 <= z <= INT32_MAX -> i32 z = z.
Proof. intros H. apply swrap_id; [unfold is_sint|]; lia. Qed.

Lemma cache_add_ok rs c id r c' it :
  cache_ok rs c -> indices rs !! id = Some r -> is_Some (_table_cache c !! row_t_id r) ->
  Z.of_nat (length (_iterator_to_object c)) < INT32_MAX -> cache_add id c = (c', it) ->
  cache_ok rs c' /\ cache_get it c' = Ok id /\ cache_grows c c'.
Proof.
  intros [Ho Hl He [Hs1 Hs2]] Hr Ht Hn H. unfold cache_add in H.
  destruct (_object_to_iterator c !! id) as [x|] eqn:E.
  { injection H as <- <-. split_and!; [by split|by apply cache_get_ok, Ho|apply cache_grows_refl]. }
  rewrite i32_small in H by lia. injection H as <- <-.
  set (n := length (_iterator_to_object c)) in *. split; [split; cbn|].
  - intros j x. rewrite lookup_insert_Some, Ho. split.
    + intros [[<- <-]|[Hne [Hx Hj]]].
      * split; [lia|]. rewrite Nat2Z.id. unfold n. by rewrite list_lookup_middle.
      * split; [done|]. by apply lookup_app_l_Some.
    + intros [Hx Hj]. apply lookup_app_Some in Hj as [Hj|[Hge Hj]].
      * right. split; [|done]. intros <-. assert (_object_to_iterator c !! id = Some x) by (by apply Ho). congruence.
      * apply list_lookup_singleton_Some in Hj as [Hz [= <-]]. left. split; [done|]. unfold n in *. lia.
  - intros m j [Hj|[_ Hj]]%lookup_app_Some; [by apply Hl in Hj|].
    apply list_lookup_singleton_Some in Hj as [_ [= <-]]. by exists r.
  - exact He.
  - rewrite length_app. cbn. unfold n in *. lia.
  - split; [|split; [intros j x [Hj Hx]%cache_get_ok|done]].
    + apply cache_get_ok. cbn. split; [lia|]. rewrite Nat2Z.id. unfold n. by rewrite list_lookup_middle.
    + apply cache_get_ok. cbn. split; [done|]. by apply lookup_app_l_Some.
Qed.

Lemma cache_table_ok rs c t c' ei :
  cache_ok rs c -> Z.of_nat (length (_end_iterator_to_table c)) + 1 < INT32_MAX -> cache_table t c = (c', ei) ->
  cache_ok rs c' /\ _table_cache c' !! t = Some ei /\ cache_grows c c' /\
  _iterator_to_object c' = _iterator_to_object c.
Proof.
  intros [Ho Hl He [Hs1 Hs2]] Hn H. unfold cache_table in H.
  destruct (_table_cache c !! t) as [x|] eqn:E.
  { injection H as <- <-. split_and!; [by split|done|apply cache_grows_refl|done]. }
  set (n := length (_end_iterator_to_table c)) in *.
  assert (index_to_end_iterator (Z.of_nat n) = - (Z.of_nat n + 2)) as Ei.
  { apply swrap_id; [unfold is_sint|]; lia. }
  rewrite Ei in H. injection H as <- <-.
  assert (forall m u, (_end_iterator_to_table c ++ [t]) !! m = Some u <->
    _end_iterator_to_table c !! m = Some u \/ (m = n /\ u = t)) as Hends.
  { intros m u. rewrite lookup_app_Some, list_lookup_singleton_Some. split.
    - intros [?|(? & ? & ->)]; [auto|right; unfold n; split; [lia|done]].
    - intros [?|[-> ->]]; [auto|right; unfold n; split_and!; [lia|lia|done]]. }
  split; [split; cbn|].
  - exact Ho.
  - intros m id Hid. destruct (Hl m id Hid) as (r & Hr & Hc). exists r. split; [done|].
    apply lookup_insert_is_Some'. by right.
  - intros u x. rewrite lookup_insert_Some, He. split.
    + intros [[<- <-]|[Hne (m & Hm & ->)]]; [exists n|exists m]; rewrite Hends; auto.
    + intros (m & [Hm|[-> ->]]%Hends & ->); [|by left]. destruct (decide (t = u)) as [<-|]; [|right; eauto].
      assert (_table_cache c !! t = Some (- (Z.of_nat m + 2))) by (apply He; eauto). congruence.
  - rewrite length_app. cbn. unfold n in *. lia.
  - split; [apply lookup_insert_eq|]. split; [|done]. split; [done|]. split; cbn.
    + intros u x Hx. rewrite lookup_insert_ne; [done|]. congruence.
    + intros m u Hm. apply Hends. by left.
Qed.

Lemma cache_remove_ok rs rs' c it id c' :
  cache_ok rs c -> cache_get it c = Ok id -> indices rs' = delete id (indices rs) -> cache_remove it c = Ok c' ->
  cache_ok rs' c' /\ _table_cache c' = _table_cache c /\ _end_iterator_to_table c' = _end_iterator_to_table c /\
  (forall j x, cache_get j c' = Ok x <-> cache_get j c = Ok x /\ x <> id).
Proof.
  intros [Ho Hl He Hs] Hg Hrs H. pose proof Hg as [Hit Hid]%cache_get_ok.
  assert (cache_remove it c = Ok (mk_iterator_cache (_table_cache c) (_end_iterator_to_table c)
    (<[Z.to_nat it := None]> (_iterator_to_object c)) (delete id (_object_to_iterator c)))) as E.
  { unfold cache_remove. rewrite (proj2 (Z.eqb_neq it (-1))), (proj2 (Z.geb_ge it 0)) by lia. cbn. by rewrite Hid. }
  rewrite E in H. injection H as <-.
  assert (forall m x, (<[Z.to_nat it := None]> (_iterator_to_object c)) !! m = Some (Some x) <->
    _iterator_to_object c !! m = Some (Some x) /\ x <> id) as Hobj.
  { intros m x. destruct (decide (Z.to_nat it = m)) as [<-|Hne].
    - rewrite list_lookup_insert_eq by (by eapply lookup_lt_Some). split; [done|]. intros [Hx ?]. congruence.
    - rewrite list_lookup_insert_ne by done. split; [|tauto]. intros Hx. split; [done|]. intros ->.
      assert (_object_to_iterator c !! id = Some it) as H1 by (by apply Ho).
      assert (_object_to_iterator c !! id = Some (Z.of_nat m)) as H2 by (apply Ho; split; [lia|by rewrite Nat2Z.id]).
      rewrite H1 in H2. injection H2 as ->. by rewrite Nat2Z.id in Hne. }
  split_and!; [split; cbn|done|done|].
  - intros x j. rewrite lookup_delete_Some, Ho, Hobj. intuition congruence.
  - intros m x [Hx Hne]%Hobj. destruct (Hl m x Hx) as (r & Hr & Hc). exists r. split; [|done].
    by rewrite Hrs, lookup_delete_ne.
  - exact He.
  - by rewrite length_insert.
  - intros j x. rewrite !cache_get_ok. cbn. rewrite Hobj. tauto.
Qed.

(** Rows that keep their tables keep the cache. *)
Lemma cache_ok_rows rs rs' c :
  cache_ok rs c -> (forall id r, indices rs !! id = Some r -> exists r', indices rs' !! id = Some r' /\
    row_t_id r' = row_t_id r) -> cache_ok rs' c.
Proof.
  intros [Ho Hl He Hs] H. split; [done| |done|done]. intros n id Hid. destruct (Hl n id Hid) as (r & Hr & Ht).
  destruct (H id r Hr) as (r' & Hr' & E). exists r'. by rewrite E.
Qed.
End cache.

(** ** Counts and bytes after a change *)

Section changes.
Context {R : Type} `{!RowKind R}.
Implicit Types (rs : generic_index R) (r : R).

Lemma kind_count_none rs t : (forall i r, indices rs !! i = Some r -> row_t_id r <> t) -> kind_count rs t = 0.
Proof.
  unfold kind_count. generalize (indices rs). intros m. induction m as [|i r m Hi IH] using map_ind; intros H; [done|].
  rewrite table_sum_insert by done. rewrite IH.
  - rewrite (proj2 (Z.eqb_neq _ _)); [done|]. apply (H i). apply lookup_insert_eq.
  - intros j x Hx. apply (H j). rewrite lookup_insert_ne; [done|]. congruence.
Qed.

Lemma kind_count_insert rs rs' id r t :
  indices rs' = <[id := r]> (indices rs) -> indices rs !! id = None ->
  kind_count rs' t = kind_count rs t + if row_t_id r =? t then 1 else 0.
Proof. intros E H. unfold kind_count. rewrite E, table_sum_insert by done. lia. Qed.

Lemma kind_billed_insert rs rs' id r a :
  indices rs' = <[id := r]> (indices rs) -> indices rs !! id = None ->
  kind_billed rs' a = kind_billed rs a + if row_payer r =? a then row_billable r else 0.
Proof. intros E H. unfold kind_billed. rewrite E, table_sum_insert by done. lia. Qed.

Lemma kind_count_delete rs rs' id r t :
  indices rs' = delete id (indices rs) -> indices rs !! id = Some r ->
  kind_count rs t = kind_count rs' t + if row_t_id r =? t then 1 else 0.
Proof. intros E H. unfold kind_count. rewrite E, (table_sum_delete _ _ id r H). lia. Qed.

Lemma kind_billed_delete rs rs' id r a :
  indices rs' = delete id (indices rs) -> indices rs !! id = Some r ->
  kind_billed rs a = kind_billed rs' a + if row_payer r =? a then row_billable r else 0.
Proof. intros E H. unfold kind_billed. rewrite E, (table_sum_delete _ _ id r H). lia. Qed.

Lemma kind_count_update rs rs' id r r' t :
  indices rs' = <[id := r']> (indices rs) -> indices rs !! id = Some r -> row_t_id r' = row_t_id r ->
  kind_count rs' t = kind_count rs t.
Proof. intros E H Ht. unfold kind_count. rewrite E, (table_sum_update _ _ id r r' H), Ht. lia. Qed.

Lemma kind_billed_update rs rs' id r r' a :
  indices rs' = <[id := r']> (indices rs) -> indices rs !! id = Some r ->
  kind_billed rs' a = kind_billed rs a - (if row_payer r =? a then row_billable r else 0)
    + if row_payer r' =? a then row_billable r' else 0.
Proof. intros E H. unfold kind_billed. by rewrite E, (table_sum_update _ _ id r r' H). Qed.

Lemma kind_no_table ts rs c t : kind_ok ts rs c -> indices ts !! t = None -> kind_count rs t = 0.
Proof. intros H Ht. apply kind_count_none. intros i r Hr <-. destruct (ko_tables _ _ _ H i r Hr). congruence. Qed.

End changes.

Lemma no_table_no_rows ctx t : all_kinds ctx -> indices (tables ctx) !! t = None -> total_count ctx t = 0.
Proof.
  intros (H1 & H2 & H3 & H4 & H5 & H6) Ht. unfold total_count.
  rewrite (kind_no_table _ _ _ t H1 Ht), (kind_no_table _ _ _ t H2 Ht), (kind_no_table _ _ _ t H3 Ht),
    (kind_no_table _ _ _ t H4 Ht), (kind_no_table _ _ _ t H5 Ht), (kind_no_table _ _ _ t H6 Ht). done.
Qed.

Lemma tables_billed_insert ts ts' id t a :
  indices ts' = <[id := t]> (indices ts) -> indices ts !! id = None ->
  tables_billed ts' a = tables_billed ts a + if tio_payer t =? a then billable_table_id_object else 0.
Proof. intros E H. unfold tables_billed. rewrite E, table_sum_insert by done. lia. Qed.

Lemma tables_billed_delete ts ts' id t a :
  indices ts' = delete id (indices ts) -> indices ts !! id = Some t ->
  tables_billed ts a = tables_billed ts' a + if tio_payer t =? a then billable_table_id_object else 0.
Proof. intros E H. unfold tables_billed. rewrite E, (table_sum_delete _ _ id t H). lia. Qed.

Lemma tables_billed_update ts ts' id t t' a :
  indices ts' = <[id := t']> (indices ts) -> indices ts !! id = Some t -> tio_payer t' = tio_payer t ->
  tables_billed ts' a = tables_billed ts a.
Proof. intros E H Ht. unfold tables_billed. rewrite E, (table_sum_update _ _ id t t' H), Ht. lia. Qed.

Abbreviation res ctx := (resource_limits (ctx_db (tc_base ctx))).

(** Billing is exact. *)
Lemma update_db_usage_ok env payer delta ctx ctx' :
  rl_inv (res ctx) -> INT64_MIN < delta <= INT64_MAX -> update_db_usage env payer delta ctx = Ok ctx' ->
  ctx' = with_base ctx (tc_base ctx') /\ rl_inv (res ctx') /\
  forall a, mem_billed ctx' a = mem_billed ctx a + if a =? payer then delta else 0.
Proof.
  intros Hrl Hd H. unfold update_db_usage in H. apply bind_ok in H as ([] & _ & H).
  apply bind_ok in H as (b & Hb & [= <-]). split; [done|]. apply (add_mem_usage_ok _ _ _ _ Hrl Hd Hb).
Qed.

Lemma billable_table_range : 0 < billable_table_id_object <= INT64_MAX.
Proof. by vm_compute. Qed.

(** ** Storing a row *)

Section operations.
Context {R : Type} `{!RowKind R, !RowKindLaws R}.

(** The tables after [find_or_create_table]: one more if there was none. *)
Lemma find_or_create_table_ok env code scope table payer ctx ctx1 tab :
  contract_inv ctx -> find_or_create_table env code scope table payer ctx = Ok (ctx1, tab) ->
  ctx1 = with_base (with_tables ctx (tables ctx1)) (tc_base ctx1) /\
  table_ok (tables ctx1) /\ rl_inv (res ctx1) /\ by_code_scope_table tab = [code; scope; table] /\
  indices (tables ctx1) = <[tio_id tab := tab]> (indices (tables ctx)) /\
  (indices (tables ctx) !! tio_id tab = Some tab \/
   indices (tables ctx) !! tio_id tab = None /\ tio_count tab = 0 /\ find_table code scope table ctx = None) /\
  (forall a, mem_billed ctx1 a - tables_billed (tables ctx1) a = mem_billed ctx a - tables_billed (tables ctx) a).
Proof.
  intros Hi H. pose proof (ci_tables _ Hi) as Ht. unfold find_or_create_table in H.
  destruct (find_table code scope table ctx) as [t|] eqn:Ef.
  - injection H as <- <-. unfold find_table in Ef. apply find_by_Some in Ef as [[i Hti] Hk].
    pose proof (t_ids _ Ht i t Hti) as E. cbn in E. subst i.
    split_and!; [by destruct ctx as [b [] []]|done|apply (ci_resources _ Hi)|done|by rewrite insert_id|by left|done].
  - apply bind_ok in H as (ctx' & Hu & H). apply bind_ok in H as ([ts t] & Hc & [= <- <-]).
    rewrite i64_id in Hu by (pose proof billable_table_range; lia).
    apply update_db_usage_ok in Hu as (E & Hrl & Hm); [|apply (ci_resources _ Hi)|pose proof billable_table_range; lia].
    rewrite E in Hc. cbn [tables with_base tc_db] in Hc.
    apply (table_create_ok _ _ _ _ Ht) in Hc as (-> & Hnone & Hix & _ & Htok); [|done]. cbn in *.
    split_and!; [by rewrite E|done|done|done|done|by right|]. intros a. cbn.
    rewrite (tables_billed_insert _ _ _ _ a Hix Hnone). cbn. unfold mem_billed in *. cbn. rewrite Hm.
    rewrite (Z.eqb_sym payer a). destruct (a =? payer); lia.
Qed.

(** Room for one more row and one more entry of the cache. *)
Definition room (ctx : table_ctx) : Prop :=
  Z.of_nat (length (_iterator_to_object (cache (R := R) ctx))) < INT32_MAX /\
  Z.of_nat (length (_end_iterator_to_table (cache (R := R) ctx))) + 1 < INT32_MAX /\
  forall t, total_count ctx t < UINT32_MAX.

(** What billing, counting and the cache make of a context. *)
Lemma contract_inv_frame ctx ctx' :
  contract_inv ctx -> frame R ctx ctx' -> table_ok (tables ctx') -> rl_inv (res ctx') ->
  kind_ok (tables ctx') (rows (R := R) ctx') (cache (R := R) ctx') ->
  (forall i t, indices (tables ctx') !! i = Some t -> tio_count t = total_count ctx' i /\ 0 < total_count ctx' i <= UINT32_MAX) ->
  (forall i, is_Some (indices (tables ctx) !! i) -> 0 < total_count ctx' i -> is_Some (indices (tables ctx') !! i)) ->
  contract_inv ctx'.
Proof.
  intros [_ Hk _ _] Hf Ht Hrl Hko Hc Hs. split; [done| |done|done]. by apply (frame_all (R := R) ctx ctx').
Qed.

Lemma frame_with_base_tables ctx ts b : frame R ctx (with_base (with_tables ctx ts) b).
Proof. eapply (frame_trans (R := R)); [apply (frame_tables (R := R))|apply (frame_base (R := R))]. Qed.

Lemma u32_id z : 0 <= z <= UINT32_MAX -> u32 z = z.
Proof. intros H. apply wrap_id. unfold is_uint. lia. Qed.

(** The cache after a row and its table were cached. *)
Lemma cache_both_ok (rs : generic_index R) c t r c1 ei c2 it :
  cache_ok rs c -> indices rs !! obj_id r = Some r -> row_t_id r = t ->
  Z.of_nat (length (_iterator_to_object c)) < INT32_MAX ->
  Z.of_nat (length (_end_iterator_to_table c)) + 1 < INT32_MAX ->
  cache_table t c = (c1, ei) -> cache_add (obj_id r) c1 = (c2, it) ->
  cache_ok rs c2 /\ cache_get it c2 = Ok (obj_id r) /\ cache_grows c c2 /\ _table_cache c2 !! t = Some ei.
Proof.
  intros Hc Hr Ht Hn1 Hn2 E1 E2. apply (cache_table_ok rs) in E1 as (Hc1 & Hei & Hg1 & El); [|done|done].
  apply (cache_add_ok rs c1 (obj_id r) r) in E2 as (Hc2 & Hget & Hg2); [|done|done|rewrite Ht; eauto|by rewrite El].
  split_and!; [done|done|by eapply cache_grows_trans|by apply Hg2].
Qed.

Lemma finish_store_ok env tab payer billable obj ctx ctx' it :
  table_ok (tables ctx) -> rl_inv (res ctx) -> INT64_MIN < billable <= INT64_MAX ->
  indices (tables ctx) !! tio_id tab = Some tab -> finish_store (R := R) env tab payer billable obj ctx = Ok (ctx', it) ->
  (exists c1 ei, cache_table (tio_id tab) (cache (R := R) ctx) = (c1, ei) /\
     cache_add (obj_id obj) c1 = (cache (R := R) ctx', it)) /\
  frame R ctx ctx' /\ rows (R := R) ctx' = rows ctx /\ table_ok (tables ctx') /\ rl_inv (res ctx') /\
  indices (tables ctx') = <[tio_id tab := set_count (fun n => n + 1) tab]> (indices (tables ctx)) /\
  forall a, mem_billed ctx' a = mem_billed ctx a + if a =? payer then billable else 0.
Proof.
  intros Ht Hrl Hb Htab H. unfold finish_store in H. apply bind_ok in H as (ts & Hts & H).
  apply (db_modify_ok _ _ _ _ Ht) in Hts as (tab' & Htab' & Hix & _ & Htts); [|done].
  assert (tab' = tab) as -> by congruence. apply bind_ok in H as (ctx3 & Hu & H).
  apply update_db_usage_ok in Hu as (E3 & Hrl3 & Hm3); [|done|done].
  unfold cache_table_of, cache_row in H. destruct (cache_table (tio_id tab) (cache ctx3)) as [k1 ei] eqn:Ek1.
  rewrite (cache_with_cache (R := R)) in H. destruct (cache_add (obj_id obj) k1) as [k2 it'] eqn:Ek2. injection H as <- <-.
  rewrite E3, (cache_with_base (R := R)), (cache_with_tables (R := R)) in Ek1.
  rewrite (cache_with_cache (R := R)), !(rows_with_cache (R := R)), !(tables_with_cache (R := R)), !(base_with_cache (R := R)).
  split; [by exists k1, ei|]. split.
  { eapply (frame_trans (R := R)); [|eapply (frame_trans (R := R)); apply (frame_cache (R := R))].
    rewrite E3. apply frame_with_base_tables. }
  rewrite E3, (rows_with_base (R := R)), (rows_with_tables (R := R)). cbn [tables with_base with_tables tc_db table_index].
  split_and!; [done|done|by rewrite E3 in Hrl3|done|]. intros a. specialize (Hm3 a). rewrite E3 in Hm3.
  unfold mem_billed in *. rewrite !(base_with_cache (R := R)). exact Hm3.
Qed.

(** The counts after one row of the table [t] came or went. *)
Lemma counts_change ctx ctx' t d :
  frame R ctx ctx' ->
  (forall u, kind_count (rows (R := R) ctx') u = kind_count (rows (R := R) ctx) u + if t =? u then d else 0) ->
  forall u, total_count ctx' u = total_count ctx u + if t =? u then d else 0.
Proof. intros Hf H u. pose proof (frame_count (R := R) ctx ctx' u Hf). rewrite H in *. lia. Qed.

Lemma store_ok env code scope table payer billable (c : Z -> R) ctx ctx1 tab rs obj ctx2 it :
  contract_inv ctx -> room ctx -> 0 < billable <= INT64_MAX ->
  (forall i, obj_id (c i) = i /\ row_t_id (c i) = tio_id tab /\ row_payer (c i) = payer /\ row_billable (c i) = billable) ->
  find_or_create_table env code scope table payer ctx = Ok (ctx1, tab) ->
  db_create c (rows ctx1) = Ok (rs, obj) ->
  finish_store env tab payer billable obj (with_rows ctx1 rs) = Ok (ctx2, it) ->
  contract_inv ctx2 /\ (forall a, mem_billed ctx2 a - paid_for ctx2 a = mem_billed ctx a - paid_for ctx a) /\
  frame R ctx ctx2 /\ obj = c (next_id (rows (R := R) ctx)) /\ indices (rows (R := R) ctx) !! obj_id obj = None /\
  indices (rows ctx2) = <[obj_id obj := obj]> (indices (rows ctx)) /\
  indices (tables ctx2) = <[tio_id tab := set_count (fun n => n + 1) tab]> (indices (tables ctx)) /\
  (indices (tables ctx) !! tio_id tab = Some tab \/
   indices (tables ctx) !! tio_id tab = None /\ find_table code scope table ctx = None) /\
  by_code_scope_table tab = [code; scope; table] /\
  cache_get it (cache (R := R) ctx2) = Ok (obj_id obj) /\ cache_grows (cache (R := R) ctx) (cache (R := R) ctx2).
Proof.
  intros Hi (Hn1 & Hn2 & Hn3) Hb Hc Hfc Hcr Hfin.
  destruct (find_or_create_table_ok _ _ _ _ _ _ _ _ Hi Hfc) as (E1 & Ht1 & Hrl1 & Hkey & Hix1 & Hcase & Hm1).
  assert (frame R ctx ctx1) as F1 by (rewrite E1; apply frame_with_base_tables).
  assert (rows (R := R) ctx1 = rows ctx) as Er1 by (by rewrite E1, (rows_with_base (R := R)), (rows_with_tables (R := R))).
  assert (cache (R := R) ctx1 = cache ctx) as Ec1
    by (by rewrite E1, (cache_with_base (R := R)), (cache_with_tables (R := R))).
  pose proof (kind_of_all (R := R) ctx (ci_kinds _ Hi)) as [Kr Kt Ks Kc].
  rewrite Er1 in Hcr. apply (table_create_ok _ _ _ _ Kr) in Hcr as (Eobj & Hnone & Hrs & _ & Krs); [|intros i; apply Hc].
  destruct (Hc (next_id (rows (R := R) ctx))) as (Oid & Otid & Opay & Obill). rewrite <- Eobj in Oid, Otid, Opay, Obill.
  rewrite <- Oid in Hnone, Hrs.
  apply finish_store_ok in Hfin as ((k1 & ei & Ek1 & Ek2) & F2 & Er2 & Ht2 & Hrl2 & Hix2 & Hm2);
    [|by rewrite (tables_with_rows (R := R))|by rewrite (base_with_rows (R := R))|lia|
     by rewrite (tables_with_rows (R := R)), Hix1, lookup_insert_eq].
  rewrite (rows_with_rows (R := R)) in Er2. rewrite (cache_with_rows (R := R)), Ec1 in Ek1.
  rewrite (tables_with_rows (R := R)), Hix1, insert_insert_eq in Hix2.
  assert (frame R ctx ctx2) as F
    by (eapply (frame_trans (R := R)); [exact F1|eapply (frame_trans (R := R)); [apply (frame_rows (R := R))|exact F2]]).
  assert (cache_ok rs (cache (R := R) ctx)) as Kc'.
  { apply (cache_ok_rows (rows ctx)); [done|]. intros id r Hr. exists r. split; [|done].
    rewrite Hrs, lookup_insert_ne; [done|]. intros E. rewrite E in Hnone. congruence. }
  destruct (cache_both_ok rs (cache ctx) (tio_id tab) obj k1 ei (cache ctx2) it Kc') as (Kc2 & Hget & Hgrow & _);
    [by rewrite Hrs, lookup_insert_eq|done..|].
  assert (tio_count tab = total_count ctx (tio_id tab)) as Ecount.
  { destruct Hcase as [Hold|(Hnew & -> & _)]; [by apply (ci_counts _ Hi)|].
    symmetry. apply no_table_no_rows; [apply (ci_kinds _ Hi)|done]. }
  assert (forall u, total_count ctx2 u = total_count ctx u + if tio_id tab =? u then 1 else 0) as Htot.
  { apply counts_change; [done|]. intros u. rewrite Er2, (kind_count_insert _ _ _ _ u Hrs Hnone). by rewrite Otid. }
  assert (0 <= total_count ctx (tio_id tab)) as Hpos.
  { pose proof (count_at_least (R := R) ctx (tio_id tab)). pose proof (kind_count_nonneg (rows (R := R) ctx) (tio_id tab)). lia. }
  split; [|split; [|by rewrite Er2; split_and!; try done; destruct Hcase as [|(? & _ & ?)]; auto]].
  - apply (contract_inv_frame ctx ctx2); try done.
    + rewrite Er2. split; [done| | |done].
      * intros i r. rewrite Hrs. intros [[<- <-]|[_ Hr]]%lookup_insert_Some; rewrite Hix2; apply lookup_insert_is_Some'.
        -- left. done.
        -- right. by apply (Kt i).
      * intros i r. rewrite Hrs. intros [[<- <-]|[_ Hr]]%lookup_insert_Some; [by rewrite Obill|by apply (Ks i)].
    + intros i t. rewrite Hix2, Htot. intros [[<- <-]|[Hne Hti]]%lookup_insert_Some.
      * rewrite Z.eqb_refl. cbn. pose proof (Hn3 (tio_id tab)). rewrite u32_id; lia.
      * rewrite (proj2 (Z.eqb_neq _ _) Hne). destruct (ci_counts _ Hi i t Hti). lia.
    + intros i Hti _. rewrite Hix2. apply lookup_insert_is_Some'. by right.
  - intros a. unfold paid_for. pose proof (frame_billed (R := R) ctx ctx2 a F) as Hfb. rewrite Er2 in Hfb.
    rewrite (kind_billed_insert _ _ _ _ a Hrs Hnone), Opay, Obill in Hfb. specialize (Hm2 a). specialize (Hm1 a).
    assert (tables_billed (tables ctx2) a = tables_billed (tables ctx1) a) as Etb.
    { apply (tables_billed_update _ _ (tio_id tab) tab (set_count (fun n => n + 1) tab));
        [by rewrite Hix2, Hix1, insert_insert_eq|by rewrite Hix1, lookup_insert_eq|done]. }
    assert (mem_billed (with_rows ctx1 rs) a = mem_billed ctx1 a) as Emb
      by (unfold mem_billed; by rewrite (base_with_rows (R := R))).
    rewrite (Z.eqb_sym payer a) in Hfb. lia.
Qed.

(** ** Removing a row *)

Lemma get_row_ok it ctx (obj : R) :
  table_ok (rows (R := R) ctx) -> get_row it ctx = Ok obj ->
  cache_get it (cache (R := R) ctx) = Ok (obj_id obj) /\ indices (rows ctx) !! obj_id obj = Some obj.
Proof.
  intros Ht H. unfold get_row in H. apply bind_ok in H as (id & Hid & H). unfold deref in H.
  destruct (indices (rows ctx) !! id) as [o|] eqn:Ho; [|done]. injection H as <-.
  by rewrite (t_ids _ Ht id o Ho).
Qed.


(** The laws of the kind, as rewriting. *)
Ltac lens := repeat first
  [rewrite (rows_with_rows (R := R))|rewrite (rows_with_tables (R := R))|rewrite (rows_with_cache (R := R))
  |rewrite (rows_with_base (R := R))|rewrite (tables_with_rows (R := R))|rewrite (tables_with_cache (R := R))
  |rewrite (cache_with_rows (R := R))|rewrite (cache_with_tables (R := R))|rewrite (cache_with_cache (R := R))
  |rewrite (cache_with_base (R := R))|rewrite (base_with_rows (R := R))|rewrite (base_with_cache (R := R))].

Lemma remove_table_ok env tab ctx ctx' :
  table_ok (tables ctx) -> rl_inv (res ctx) -> indices (tables ctx) !! tio_id tab = Some tab ->
  remove_table env tab ctx = Ok ctx' ->
  ctx' = with_base (with_tables ctx (tables ctx')) (tc_base ctx') /\ table_ok (tables ctx') /\ rl_inv (res ctx') /\
  indices (tables ctx') = delete (tio_id tab) (indices (tables ctx)) /\
  forall a, mem_billed ctx' a - tables_billed (tables ctx') a = mem_billed ctx a - tables_billed (tables ctx) a.
Proof.
  intros Ht Hrl Htab H. unfold remove_table in H. apply bind_ok in H as (ctx1 & Hu & H).
  apply bind_ok in H as (ts & Hts & [= <-]). rewrite i64_id in Hu by (pose proof billable_table_range; lia).
  apply update_db_usage_ok in Hu as (E & Hrl1 & Hm); [|done|pose proof billable_table_range; lia].
  assert (tables ctx1 = tables ctx) as Et by (by rewrite E). rewrite Et in Hts.
  apply (db_remove_ok _ _ _ Ht) in Hts as (x & _ & Hix & _ & Htt).
  split_and!; [by rewrite E|done|done|done|]. intros a. cbn [tables with_tables tc_db table_index].
  rewrite (tables_billed_delete (tables ctx) ts _ _ a Hix Htab). specialize (Hm a). unfold mem_billed in *.
  cbn [tc_base with_tables]. rewrite (Z.eqb_sym _ a). destruct (a =? tio_payer tab); lia.
Qed.

(** The table loses a row, and goes when that was its last one. *)
Lemma uncount_ok env t tab ctx ctx1 ctx2 :
  table_ok (tables ctx1) -> rl_inv (res ctx) -> tc_base ctx1 = tc_base ctx ->
  indices (tables ctx1) = <[t := set_count (fun n => n - 1) tab]> (indices (tables ctx)) ->
  indices (tables ctx) !! t = Some tab -> tio_id tab = t -> 0 < tio_count tab <= UINT32_MAX ->
  (if tio_count (set_count (fun n => n - 1) tab) =? 0 then remove_table env (set_count (fun n => n - 1) tab) ctx1
   else Ok ctx1) = Ok ctx2 ->
  ctx2 = with_base (with_tables ctx1 (tables ctx2)) (tc_base ctx2) /\ table_ok (tables ctx2) /\ rl_inv (res ctx2) /\
  indices (tables ctx2) = (if tio_count tab =? 1 then delete t (indices (tables ctx))
                           else <[t := set_count (fun n => n - 1) tab]> (indices (tables ctx))) /\
  forall a, mem_billed ctx2 a - tables_billed (tables ctx2) a = mem_billed ctx a - tables_billed (tables ctx) a.
Proof.
  intros Ht Hrl Eb Hix Htab Et Hc H. cbn [tio_count set_count] in H. rewrite u32_id in H by lia.
  assert (forall a, mem_billed ctx1 a - tables_billed (tables ctx1) a = mem_billed ctx a - tables_billed (tables ctx) a)
    as Hm.
  { intros a. unfold mem_billed. rewrite Eb. by rewrite (tables_billed_update _ _ t tab _ a Hix Htab). }
  destruct (Z.eqb_spec (tio_count tab - 1) 0) as [E0|E0].
  - rewrite (proj2 (Z.eqb_eq (tio_count tab) 1)) by lia.
    apply remove_table_ok in H as (E & Ht2 & Hrl2 & Hix2 & Hm2);
      [|done|by rewrite Eb|cbn [tio_id set_count]; by rewrite Et, Hix, lookup_insert_eq].
    cbn [tio_id set_count] in Hix2. rewrite Et, Hix, delete_insert_eq in Hix2. split_and!; try done.
    intros a. by rewrite Hm2.
  - injection H as <-. rewrite (proj2 (Z.eqb_neq (tio_count tab) 1)) by lia. rewrite Eb.
    split_and!; try done. rewrite <- Eb. by destruct ctx1 as [b [] []].
Qed.

Lemma finish_remove_ok env it obj t tab ctx ctx' :
  table_ok (tables ctx) -> table_ok (rows (R := R) ctx) -> rl_inv (res ctx) ->
  indices (tables ctx) !! t = Some tab -> 0 < tio_count tab <= UINT32_MAX ->
  finish_remove (R := R) env it obj t ctx = Ok ctx' ->
  frame R ctx ctx' /\ table_ok (tables ctx') /\ table_ok (rows (R := R) ctx') /\ rl_inv (res ctx') /\
  indices (rows (R := R) ctx') = delete (obj_id obj) (indices (rows ctx)) /\
  cache_remove it (cache (R := R) ctx) = Ok (cache (R := R) ctx') /\
  indices (tables ctx') = (if tio_count tab =? 1 then delete t (indices (tables ctx))
                           else <[t := set_count (fun n => n - 1) tab]> (indices (tables ctx))) /\
  forall a, mem_billed ctx' a - tables_billed (tables ctx') a = mem_billed ctx a - tables_billed (tables ctx) a.
Proof.
  intros Ht Hr Hrl Htab Hcount H. unfold finish_remove in H. apply bind_ok in H as (ts & Hts & H).
  apply (db_modify_ok _ _ _ _ Ht) in Hts as (tab' & Htab' & Hix & _ & Htts); [|done].
  assert (tab' = tab) as -> by congruence. apply bind_ok in H as (rs & Hrs & H).
  apply (db_remove_ok _ _ _ Hr) in Hrs as (o & Ho & Hixr & _ & Hrr). apply bind_ok in H as (tobj & Htobj & H).
  set (ctx1 := with_rows (with_tables ctx ts) rs) in *.
  assert (tables ctx1 = ts) as Et1 by (unfold ctx1; by lens).
  unfold deref in Htobj. rewrite Et1, Hix, lookup_insert_eq in Htobj. injection Htobj as <-.
  apply bind_ok in H as (ctx2 & H2 & H). apply bind_ok in H as (k & Hk & [= <-]).
  apply (uncount_ok env t tab ctx ctx1) in H2 as (E2 & Ht2 & Hrl2 & Hix2 & Hm2);
    [|by rewrite Et1|done|unfold ctx1; by lens|by rewrite Et1|done|by apply (t_ids _ Ht)|done].
  assert (rows (R := R) ctx2 = rs) as Er2 by (rewrite E2; unfold ctx1; by lens).
  assert (cache (R := R) ctx2 = cache ctx) as Ec2 by (rewrite E2; unfold ctx1; by lens).
  rewrite Ec2 in Hk. lens. rewrite Er2. split_and!; try done.
  - eapply (frame_trans (R := R)); [|apply (frame_cache (R := R))]. rewrite E2.
    eapply (frame_trans (R := R)); [|apply frame_with_base_tables].
    eapply (frame_trans (R := R)); [apply (frame_tables (R := R))|apply (frame_rows (R := R))].
  - intros a. unfold mem_billed in *. lens. apply Hm2.
Qed.

Lemma remove_ok env it obj ctx ctx1 ctx2 :
  contract_inv ctx -> get_row (R := R) it ctx = Ok obj -> ctx1 = with_base ctx (tc_base ctx1) -> rl_inv (res ctx1) ->
  (forall a, mem_billed ctx1 a = mem_billed ctx a + if a =? row_payer obj then - row_billable obj else 0) ->
  finish_remove env it obj (row_t_id obj) ctx1 = Ok ctx2 ->
  contract_inv ctx2 /\ (forall a, mem_billed ctx2 a - paid_for ctx2 a = mem_billed ctx a - paid_for ctx a) /\
  frame R ctx ctx2 /\ indices (rows ctx2) = delete (obj_id obj) (indices (rows ctx)) /\
  indices (rows ctx) !! obj_id obj = Some obj /\
  (exists tab, indices (tables ctx) !! row_t_id obj = Some tab /\
     indices (tables ctx2) = (if tio_count tab =? 1 then delete (row_t_id obj) (indices (tables ctx))
                              else <[row_t_id obj := set_count (fun n => n - 1) tab]> (indices (tables ctx)))) /\
  _table_cache (cache (R := R) ctx2) = _table_cache (cache (R := R) ctx) /\
  _end_iterator_to_table (cache (R := R) ctx2) = _end_iterator_to_table (cache (R := R) ctx) /\
  (forall j x, cache_get j (cache (R := R) ctx2) = Ok x <-> cache_get j (cache (R := R) ctx) = Ok x /\ x <> obj_id obj).
Proof.
  intros Hi Hget E1 Hrl Hm H. pose proof (kind_of_all (R := R) ctx (ci_kinds _ Hi)) as [Kr Kt Ks Kc].
  apply (get_row_ok _ _ _ Kr) in Hget as [Hcg Hobj]. destruct (Kt _ _ Hobj) as [tab Htab].
  destruct (ci_counts _ Hi _ _ Htab) as [Ec Hc].
  assert (tables ctx1 = tables ctx) as Et1 by (by rewrite E1).
  assert (rows (R := R) ctx1 = rows ctx) as Er1 by (rewrite E1; by lens).
  assert (cache (R := R) ctx1 = cache ctx) as Ec1 by (rewrite E1; by lens).
  apply (finish_remove_ok env it obj (row_t_id obj) tab) in H as (F & Ht2 & Kr2 & Hrl2 & Hrs & Hcr & Hts & Hm2);
    [|rewrite Et1; apply (ci_tables _ Hi)|by rewrite Er1|done|by rewrite Et1|lia].
  rewrite Er1 in Hrs. rewrite Et1 in Hts. rewrite Ec1 in Hcr.
  assert (frame R ctx ctx2) as F2
    by (apply (frame_trans (R := R) ctx ctx1); [rewrite E1; apply (frame_base (R := R))|exact F]).
  destruct (cache_remove_ok _ (rows ctx2) _ _ _ _ Kc Hcg Hrs Hcr) as (Kc2 & Etc & Eends & Hgets).
  assert (forall u, total_count ctx2 u = total_count ctx u + if row_t_id obj =? u then -1 else 0) as Htot.
  { apply counts_change; [done|]. intros u. rewrite (kind_count_delete _ _ _ _ u Hrs Hobj). destruct (_ =? u); lia. }
  assert (forall u, is_Some (indices (tables ctx) !! u) -> 0 < total_count ctx2 u -> is_Some (indices (tables ctx2) !! u))
    as Hstay.
  { intros u Hu Hpos. rewrite Htot in Hpos. rewrite Hts. destruct (Z.eqb_spec (row_t_id obj) u) as [<-|Hne].
    - rewrite (proj2 (Z.eqb_neq _ _)) by lia. by rewrite lookup_insert_eq.
    - destruct (_ =? 1); [by rewrite lookup_delete_ne|by rewrite lookup_insert_ne]. }
  split; [|split; [|by split_and!; try done; exists tab]].
  - apply (contract_inv_frame ctx ctx2); try done.
    + split; [done| | |done]; intros i r; rewrite Hrs; intros [Hne Hr]%lookup_delete_Some; [|by apply (Ks i)].
      apply Hstay; [by apply (Kt i)|]. pose proof (count_at_least (R := R) ctx2 (row_t_id r)).
      assert (0 < kind_count (rows ctx2) (row_t_id r)); [|lia]. apply (kind_count_pos (rows ctx2) i).
      rewrite Hrs. by rewrite lookup_delete_ne.
    + intros i t. rewrite Hts, Htot. destruct (Z.eqb_spec (tio_count tab) 1) as [E|E].
      * intros [Hne Hti]%lookup_delete_Some. rewrite (proj2 (Z.eqb_neq _ _) Hne). destruct (ci_counts _ Hi i t Hti). lia.
      * intros [[<- <-]|[Hne Hti]]%lookup_insert_Some.
        -- rewrite Z.eqb_refl. cbn. rewrite u32_id; lia.
        -- rewrite (proj2 (Z.eqb_neq _ _) Hne). destruct (ci_counts _ Hi i t Hti). lia.
  - intros a. unfold paid_for. pose proof (frame_billed (R := R) ctx ctx2 a F2) as Hfb.
    rewrite (kind_billed_delete _ _ _ _ a Hrs Hobj) in Hfb. specialize (Hm2 a). specialize (Hm a). rewrite Et1 in Hm2.
    rewrite (Z.eqb_sym _ a) in Hfb. destruct (a =? row_payer obj); lia.
Qed.

(** ** Changing a row *)

Lemma update_ok it (f : R -> R) obj ctx ctx1 rs :
  contract_inv ctx -> get_row (R := R) it ctx = Ok obj -> ctx1 = with_base ctx (tc_base ctx1) -> rl_inv (res ctx1) ->
  (forall o, obj_id (f o) = obj_id o /\ row_t_id (f o) = row_t_id o) -> 0 < row_billable (f obj) <= INT64_MAX ->
  (forall a, mem_billed ctx1 a = mem_billed ctx a - (if a =? row_payer obj then row_billable obj else 0)
                                 + if a =? row_payer (f obj) then row_billable (f obj) else 0) ->
  db_modify (obj_id obj) f (rows ctx1) = Ok rs ->
  let ctx2 := with_rows ctx1 rs in
  contract_inv ctx2 /\ (forall a, mem_billed ctx2 a - paid_for ctx2 a = mem_billed ctx a - paid_for ctx a) /\
  frame R ctx ctx2 /\ tables ctx2 = tables ctx /\ cache (R := R) ctx2 = cache ctx /\
  indices (rows ctx) !! obj_id obj = Some obj /\ indices (rows ctx2) = <[obj_id obj := f obj]> (indices (rows ctx)).
Proof.
  intros Hi Hget E1 Hrl Hf Hb Hm H ctx2. pose proof (kind_of_all (R := R) ctx (ci_kinds _ Hi)) as [Kr Kt Ks Kc].
  apply (get_row_ok _ _ _ Kr) in Hget as [Hcg Hobj].
  assert (rows (R := R) ctx1 = rows ctx) as Er1 by (rewrite E1; by lens). rewrite Er1 in H.
  apply (db_modify_ok _ _ _ _ Kr) in H as (o & Ho & Hix & _ & Krs); [|intros; by apply Hf].
  assert (o = obj) as -> by congruence.
  assert (rows (R := R) ctx2 = rs) as Er2 by (unfold ctx2; by lens).
  assert (tables ctx2 = tables ctx) as Et2 by (unfold ctx2; lens; by rewrite E1).
  assert (cache (R := R) ctx2 = cache ctx) as Ec2 by (unfold ctx2; rewrite E1; by lens).
  assert (tc_base ctx2 = tc_base ctx1) as Eb2 by (unfold ctx2; by lens).
  assert (frame R ctx ctx2) as F.
  { apply (frame_trans (R := R) ctx ctx1); [rewrite E1; apply (frame_base (R := R))|apply (frame_rows (R := R))]. }
  assert (forall u, total_count ctx2 u = total_count ctx u) as Htot.
  { intros u. rewrite (counts_change ctx ctx2 u 0 F); [destruct (u =? u); lia|]. intros v.
    rewrite Er2, (kind_count_update _ _ _ _ _ v Hix Hobj) by (apply Hf). destruct (u =? v); lia. }
  rewrite Er2. split; [|split; [|by split_and!]].
  - apply (contract_inv_frame ctx ctx2); try done.
    + rewrite Et2. apply (ci_tables _ Hi).
    + by rewrite Eb2.
    + rewrite Er2, Et2, Ec2. split; [done| | |].
      * intros i r. rewrite Hix. intros [[<- <-]|[_ Hr]]%lookup_insert_Some; [|by apply (Kt i)].
        rewrite (proj2 (Hf obj)). by apply (Kt (obj_id obj)).
      * intros i r. rewrite Hix. intros [[<- <-]|[_ Hr]]%lookup_insert_Some; [done|by apply (Ks i)].
      * apply (cache_ok_rows (rows ctx)); [done|]. intros i r Hr. rewrite Hix.
        destruct (decide (obj_id obj = i)) as [<-|]; [|rewrite lookup_insert_ne by done; eauto].
        rewrite lookup_insert_eq. assert (r = obj) as -> by congruence. eexists. split; [done|]. apply Hf.
    + intros i t. rewrite Et2, Htot. apply (ci_counts _ Hi).
    + intros i Hs _. by rewrite Et2.
  - intros a. unfold paid_for. pose proof (frame_billed (R := R) ctx ctx2 a F) as Hfb.
    rewrite Er2, (kind_billed_update _ _ _ _ _ a Hix Hobj) in Hfb. specialize (Hm a). rewrite Et2.
    assert (mem_billed ctx2 a = mem_billed ctx1 a) as Emb by (unfold mem_billed; by rewrite Eb2).
    rewrite !(Z.eqb_sym _ a) in Hfb. destruct (a =? row_payer obj), (a =? row_payer (f obj)); lia.
Qed.

(** ** Reading rows *)

Lemma all_rows_elem (idx : generic_index R) r : table_ok idx -> r ∈ all_rows idx <-> indices idx !! obj_id r = Some r.
Proof.
  intros Ht. unfold all_rows. rewrite list_elem_of_fmap. split.
  - intros ([i x] & -> & Hx%elem_of_map_to_list). cbn. by rewrite (t_ids _ Ht i x Hx).
  - intros H. exists (obj_id r, r). split; [done|]. by apply elem_of_map_to_list.
Qed.

Lemma least_elem lt (l : list R) r : least lt l = Some r -> r ∈ l.
Proof.
  unfold least. revert r. induction l as [|x l IH]; cbn [foldr]; intros r H; [done|].
  destruct (foldr _ None l) as [w|]; injection H as <-; [|left]. destruct (lt x w); [left|right; by apply IH].
Qed.

Lemma greatest_elem lt (l : list R) r : greatest lt l = Some r -> r ∈ l.
Proof.
  unfold greatest. revert r. induction l as [|x l IH]; cbn [foldr]; intros r H; [done|].
  destruct (foldr _ None l) as [w|]; injection H as <-; [|left]. destruct (lt w x); [left|right; by apply IH].
Qed.

Lemma filter_elem f (l : list R) r : r ∈ List.filter f l <-> r ∈ l /\ f r = true.
Proof. rewrite !list_elem_of_In. apply List.filter_In. Qed.

Lemma first_from_row lt below idx (r : R) :
  table_ok idx -> first_from lt below idx = Some r -> indices idx !! obj_id r = Some r /\ below r = false.
Proof. unfold first_from. intros Ht [H1 H2]%least_elem%filter_elem. split; [by apply all_rows_elem|by apply negb_true_iff]. Qed.

Lemma last_before_row lt below idx (r : R) :
  table_ok idx -> last_before lt below idx = Some r -> indices idx !! obj_id r = Some r /\ below r = true.
Proof. unfold last_before. intros Ht [H1 H2]%greatest_elem%filter_elem. split; [by apply all_rows_elem|done]. Qed.

(** The cache alone changes, and its iterators keep their meaning. *)
Definition only_cache (ctx ctx' : table_ctx) : Prop :=
  (frame R ctx ctx' /\ rows (R := R) ctx' = rows ctx /\ tables ctx' = tables ctx /\ tc_base ctx' = tc_base ctx) /\
  cache_ok (rows (R := R) ctx) (cache (R := R) ctx') /\ cache_grows (cache (R := R) ctx) (cache (R := R) ctx').

Lemma only_cache_refl ctx : contract_inv ctx -> only_cache ctx ctx.
Proof.
  intros Hi. split; [split_and!; [apply (frame_refl (R := R))|done..]|]. split; [|apply cache_grows_refl].
  apply (kind_of_all (R := R) ctx (ci_kinds _ Hi)).
Qed.

Lemma only_cache_trans ctx ctx1 ctx2 : only_cache ctx ctx1 -> only_cache ctx1 ctx2 -> only_cache ctx ctx2.
Proof.
  intros ((F1 & R1 & T1 & B1) & C1 & G1) ((F2 & R2 & T2 & B2) & C2 & G2). rewrite R1 in *.
  split; [|split; [done|by eapply cache_grows_trans]].
  split_and!; [by eapply (frame_trans (R := R))|done|congruence|congruence].
Qed.

Lemma only_cache_with ctx c :
  cache_ok (rows ctx) c -> cache_grows (cache (R := R) ctx) c -> only_cache ctx (with_cache (R := R) ctx c).
Proof. intros H1 H2. split; [split; [apply (frame_cache (R := R))|]|]; by lens. Qed.

Lemma only_cache_ok ctx ctx' :
  contract_inv ctx -> only_cache ctx ctx' ->
  contract_inv ctx' /\ forall a, mem_billed ctx' a - paid_for ctx' a = mem_billed ctx a - paid_for ctx a.
Proof.
  intros Hi ((F & Er & Et & Eb) & Hc & _). pose proof (kind_of_all (R := R) ctx (ci_kinds _ Hi)) as [Kr Kt Ks _].
  assert (forall u, total_count ctx' u = total_count ctx u) as Htot.
  { intros u. rewrite (counts_change ctx ctx' u 0 F); [destruct (u =? u); lia|]. intros v. rewrite Er.
    destruct (u =? v); lia. }
  split.
  - apply (contract_inv_frame ctx ctx'); rewrite ?Er, ?Et, ?Eb; try done; try apply Hi.
    intros i t. rewrite Htot. apply (ci_counts _ Hi).
  - intros a. unfold paid_for, mem_billed. rewrite Et, Eb. pose proof (frame_billed (R := R) ctx ctx' a F) as Hfb.
    rewrite Er in Hfb. lia.
Qed.

(** Room in the cache. *)
Definition cache_room (c : iterator_cache) : Prop :=
  Z.of_nat (length (_iterator_to_object c)) < INT32_MAX /\ Z.of_nat (length (_end_iterator_to_table c)) + 1 < INT32_MAX.

Lemma cache_row_ok ctx (r : R) ctx' it :
  cache_ok (rows (R := R) ctx) (cache (R := R) ctx) -> Z.of_nat (length (_iterator_to_object (cache (R := R) ctx))) < INT32_MAX ->
  indices (rows ctx) !! obj_id r = Some r -> is_Some (_table_cache (cache (R := R) ctx) !! row_t_id r) ->
  cache_row r ctx = (ctx', it) -> only_cache ctx ctx' /\ cache_get it (cache (R := R) ctx') = Ok (obj_id r).
Proof.
  intros Hc Hn Hr Ht H. unfold cache_row in H. destruct (cache_add (obj_id r) (cache ctx)) as [c it'] eqn:E.
  injection H as <- <-. apply (cache_add_ok _ _ _ r _ _ Hc) in E as (E1 & E2 & E3); [|done..]. lens.
  split; [by apply only_cache_with|done].
Qed.

Lemma cache_table_of_ok ctx t ctx' ei :
  cache_ok (rows (R := R) ctx) (cache (R := R) ctx) -> cache_room (cache (R := R) ctx) ->
  cache_table_of (R := R) t ctx = (ctx', ei) ->
  only_cache ctx ctx' /\ _table_cache (cache (R := R) ctx') !! t = Some ei /\
  _iterator_to_object (cache (R := R) ctx') = _iterator_to_object (cache (R := R) ctx).
Proof.
  intros Hc [Hn1 Hn2] H. unfold cache_table_of in H. destruct (cache_table t (cache ctx)) as [c ei'] eqn:E.
  injection H as <- <-. apply (cache_table_ok _ _ _ _ _ Hc) in E as (E1 & E2 & E3 & E4); [|done]. lens.
  split_and!; [by apply only_cache_with|done|done].
Qed.

(** What an iterator means: a row, or the end of a table. *)
Definition means_row (ctx : table_ctx) (it : Z) (r : R) : Prop :=
  cache_get it (cache (R := R) ctx) = Ok (obj_id r) /\ indices (rows ctx) !! obj_id r = Some r.
Definition means_end (ctx : table_ctx) (it t : Z) : Prop := _table_cache (cache (R := R) ctx) !! t = Some it.

Definition in_table (t : Z) (r : option R) : option R :=
  match r with Some x => if row_t_id x =? t then Some x else None | None => None end.

Lemma to_row_or_end_ok ctx t ei (r : option R) ctx' it res :
  contract_inv ctx -> Z.of_nat (length (_iterator_to_object (cache (R := R) ctx))) < INT32_MAX ->
  is_Some (_table_cache (cache (R := R) ctx) !! t) -> (forall x, r = Some x -> indices (rows ctx) !! obj_id x = Some x) ->
  to_row_or_end t ei r ctx = (ctx', it, res) ->
  only_cache ctx ctx' /\ res = in_table t r /\
  match res with Some x => means_row ctx' it x | None => it = ei end.
Proof.
  intros Hi Hn Ht Hr H. pose proof (ko_cache _ _ _ (kind_of_all (R := R) ctx (ci_kinds _ Hi))) as Hc.
  unfold to_row_or_end in H. destruct r as [x|]; [|injection H as <- <- <-; split; [by apply only_cache_refl|done]].
  cbn [in_table]. destruct (Z.eqb_spec (row_t_id x) t) as [<-|Hne];
    [|injection H as <- <- <-; split; [by apply only_cache_refl|done]].
  destruct (cache_row x ctx) as [ctx1 it1] eqn:E. injection H as <- <- <-. specialize (Hr x eq_refl).
  apply cache_row_ok in E as [E1 E2]; [|done..]. split; [done|]. split; [done|].
  destruct E1 as ((_ & Er & _) & _). split; [done|]. by rewrite Er.
Qed.

Lemma find_table_Some code scope table ctx tab :
  contract_inv ctx -> find_table code scope table ctx = Some tab ->
  indices (tables ctx) !! tio_id tab = Some tab /\ by_code_scope_table tab = [code; scope; table].
Proof.
  intros Hi H. unfold find_table in H. apply find_by_Some in H as [[i Hi'] Hk]. split; [|done].
  pose proof (t_ids _ (ci_tables _ Hi) i tab Hi') as E. cbn in E. by rewrite E.
Qed.

(** The result of a search in a table: a row of it, its end, or no table. *)
Definition search_result (code scope table : Z) (r : Z -> option R) (ctx ctx' : table_ctx) (it : Z) (res : option R)
    : Prop :=
  only_cache ctx ctx' /\
  match find_table code scope table ctx with
  | None => it = -1 /\ res = None
  | Some tab => res = r (tio_id tab) /\
      match res with Some x => means_row ctx' it x | None => means_end ctx' it (tio_id tab) end
  end.

Lemma bound_row_ok lt below code scope table ctx ctx' it (res : option R) :
  contract_inv ctx -> cache_room (cache (R := R) ctx) -> bound_row lt below code scope table ctx = (ctx', it, res) ->
  search_result code scope table (fun t => in_table t (first_from lt (below t) (rows ctx))) ctx ctx' it res.
Proof.
  intros Hi Hn H. pose proof (kind_of_all (R := R) ctx (ci_kinds _ Hi)) as [Kr _ _ Kc]. unfold search_result, bound_row in *.
  destruct (find_table code scope table ctx) as [tab|] eqn:Ef;
    [|injection H as <- <- <-; split; [by apply only_cache_refl|done]].
  destruct (cache_table_of (tio_id tab) ctx) as [ctx1 ei] eqn:E1.
  apply cache_table_of_ok in E1 as (O1 & T1 & L1); [|done..]. pose proof O1 as ((_ & Er & _) & _).
  pose proof (only_cache_ok _ _ Hi O1) as [Hi1 _]. rewrite Er in H.
  apply to_row_or_end_ok in H as (O2 & -> & Hm); [|done|rewrite L1; apply Hn|eauto|].
  - split; [by eapply only_cache_trans|]. split; [done|]. destruct (in_table _ _); [done|]. subst it. by apply O2.
  - intros x Hx. rewrite Er. by apply first_from_row in Hx as [? _].
Qed.

Lemma find_row_ok key code scope table ctx ctx' it (res : option R) :
  contract_inv ctx -> cache_room (cache (R := R) ctx) -> (forall t r, key t r = true -> row_t_id r = t) ->
  find_row key code scope table ctx = (ctx', it, res) ->
  search_result code scope table (fun t => List.find (key t) (all_rows (rows ctx))) ctx ctx' it res.
Proof.
  intros Hi Hn Hkey H. pose proof (kind_of_all (R := R) ctx (ci_kinds _ Hi)) as [Kr _ _ Kc].
  unfold search_result, find_row in *.
  destruct (find_table code scope table ctx) as [tab|] eqn:Ef;
    [|injection H as <- <- <-; split; [by apply only_cache_refl|done]].
  destruct (cache_table_of (tio_id tab) ctx) as [ctx1 ei] eqn:E1.
  apply cache_table_of_ok in E1 as (O1 & T1 & L1); [|done..]. pose proof O1 as ((_ & Er & _) & Hc1 & _). rewrite Er in H.
  destruct (List.find _ _) as [x|] eqn:Efind; [|by injection H as <- <- <-].
  apply List.find_some in Efind as [Hx%list_elem_of_In Hk]. apply (all_rows_elem _ _ Kr) in Hx. apply Hkey in Hk.
  destruct (cache_row x ctx1) as [ctx2 it2] eqn:E2. injection H as <- <- <-.
  apply cache_row_ok in E2 as [O2 Hg]; [|by rewrite Er|rewrite L1; apply Hn|by rewrite Er|rewrite Hk; eauto].
  split; [by eapply only_cache_trans|]. split; [done|]. split; [done|]. destruct O2 as ((_ & -> & _) & _). by rewrite Er.
Qed.

Lemma end_row_ok code scope table ctx ctx' it :
  contract_inv ctx -> cache_room (cache (R := R) ctx) -> end_row (R := R) code scope table ctx = (ctx', it) ->
  search_result code scope table (fun _ => None) ctx ctx' it None.
Proof.
  intros Hi Hn H. unfold search_result, end_row in *. destruct (find_table code scope table ctx) as [tab|].
  - apply cache_table_of_ok in H as (O1 & T1 & L1); [done| |done]. apply (kind_of_all (R := R) ctx (ci_kinds _ Hi)).
  - injection H as <- <-. split; [by apply only_cache_refl|done].
Qed.

Lemma means_row_cached ctx it (r : R) :
  contract_inv ctx -> means_row ctx it r -> is_Some (_table_cache (cache (R := R) ctx) !! row_t_id r).
Proof.
  intros Hi [Hg Hr]. pose proof (kind_of_all (R := R) ctx (ci_kinds _ Hi)) as [_ _ _ Kc].
  apply cache_get_ok in Hg as [_ Hg]. destruct (co_live _ _ Kc _ _ Hg) as (r' & Hr' & Ht). congruence.
Qed.

Lemma get_row_means it ctx (obj : R) : contract_inv ctx -> get_row it ctx = Ok obj <-> means_row ctx it obj.
Proof.
  intros Hi. split.
  - apply get_row_ok. apply (kind_of_all (R := R) ctx (ci_kinds _ Hi)).
  - intros [Hg Hr]. unfold get_row. rewrite Hg. cbn. unfold deref. by rewrite Hr.
Qed.

Lemma next_row_ok lt it0 ctx ctx' it (res : option R) :
  contract_inv ctx -> cache_room (cache (R := R) ctx) -> next_row lt it0 ctx = Ok (ctx', it, res) ->
  only_cache ctx ctx' /\
  ((it0 < -1 /\ it = -1 /\ res = None) \/
   exists obj, means_row ctx it0 obj /\
     res = in_table (row_t_id obj) (first_from lt (fun r => negb (lt obj r)) (rows ctx)) /\
     match res with Some x => means_row ctx' it x | None => means_end ctx' it (row_t_id obj) end).
Proof.
  intros Hi Hn H. unfold next_row in H. pose proof (kind_of_all (R := R) ctx (ci_kinds _ Hi)) as [Kr _ _ Kc].
  destruct (Z.ltb_spec it0 (-1)).
  { injection H as <- <- <-. split; [by apply only_cache_refl|by left]. }
  apply bind_ok in H as (id & Hid & H). apply bind_ok in H as (obj & Hobj & H).
  assert (means_row ctx it0 obj) as Hm.
  { apply get_row_means; [done|]. unfold get_row. rewrite Hid. exact Hobj. }
  clear Hid Hobj. pose proof (means_row_cached _ _ _ Hi Hm) as Ht.
  assert (forall ei, get_end_iterator_by_table_id (row_t_id obj) (cache (R := R) ctx) = Ok ei ->
    means_end ctx ei (row_t_id obj)) as Hend.
  { intros ei. unfold get_end_iterator_by_table_id, means_end. destruct (_table_cache _ !! _); [by intros [= ->]|done]. }
  destruct (first_from _ _ _) as [x|] eqn:Ef; [destruct (Z.eqb_spec (row_t_id x) (row_t_id obj)) as [Et|Hne]|].
  - destruct (cache_row x ctx) as [ctx1 it1] eqn:E. injection H as <- <- <-. pose proof Ef as [Hx _]%first_from_row; [|done].
    apply cache_row_ok in E as [E1 E2]; [|done|apply Hn|done|by rewrite Et]. split; [done|]. right. exists obj.
    rewrite Ef. cbn [in_table]. rewrite Et, Z.eqb_refl. split; [done|]. split; [done|].
    split; [done|]. by destruct E1 as ((_ & -> & _) & _).
  - apply bind_ok in H as (ei & Hei & [= <- <- <-]). split; [by apply only_cache_refl|]. right. exists obj.
    rewrite Ef. cbn [in_table]. rewrite (proj2 (Z.eqb_neq _ _) Hne). auto.
  - apply bind_ok in H as (ei & Hei & [= <- <- <-]). split; [by apply only_cache_refl|]. right. exists obj.
    rewrite Ef. auto.
Qed.

Lemma previous_row_ok lt it0 ctx ctx' it (res : option R) :
  contract_inv ctx -> cache_room (cache (R := R) ctx) -> INT32_MIN <= it0 -> previous_row lt it0 ctx = Ok (ctx', it, res) ->
  only_cache ctx ctx' /\
  exists t, match res with Some x => means_row ctx' it x | None => it = -1 end /\
  ((it0 < -1 /\ means_end ctx it0 t /\ is_Some (indices (tables ctx) !! t) /\
    res = in_table t (last_before lt (not_above_table t) (rows ctx))) \/
   exists obj, means_row ctx it0 obj /\ t = row_t_id obj /\
     res = in_table t (last_before lt (fun r => lt r obj) (rows ctx))).
Proof.
  intros Hi Hn Hmin H. unfold previous_row in H. pose proof (kind_of_all (R := R) ctx (ci_kinds _ Hi)) as [Kr _ _ Kc].
  destruct (Z.ltb_spec it0 (-1)) as [Hneg|Hneg].
  - apply bind_ok in H as ([t|] & Ht & H); [|done]. apply bind_ok in H as (tab & Htab & H).
    unfold deref in Htab. destruct (indices (tables ctx) !! t) as [tab'|] eqn:Etab; [|done]. injection Htab as ->.
    rewrite (t_ids _ (ci_tables _ Hi) t tab Etab : tio_id tab = t) in H. injection H as H.
    unfold find_table_by_end_iterator in Ht. apply bind_ok in Ht as (u & _ & Ht). apply bind_ok in Ht as (n & Hidx & [= Hlk]).
    assert (means_end ctx it0 t) as Hme.
    { apply (co_ends _ _ Kc). exists (Z.to_nat n). split; [done|]. unfold end_iterator_to_index in Hidx.
      destruct (Z.eqb_spec it0 INT32_MIN); [done|]. injection Hidx as <-.
      rewrite wrap_id by (unfold is_uint; lia). lia. }
    apply to_row_or_end_ok in H as (O & -> & Hm); [|done|apply Hn|by exists it0|].
    + split; [done|]. exists t. split; [done|]. left. eauto 6.
    + intros x Hx. by apply last_before_row in Hx as [? _].
  - apply bind_ok in H as (id & Hid & H). apply bind_ok in H as (obj & Hobj & H).
    assert (means_row ctx it0 obj) as Hm.
    { apply get_row_means; [done|]. unfold get_row. rewrite Hid. exact Hobj. }
    injection H as H. pose proof (means_row_cached _ _ _ Hi Hm) as Ht.
    apply to_row_or_end_ok in H as (O & -> & Hr); [|done|apply Hn|done|].
    + split; [done|]. exists (row_t_id obj). split; [done|]. right. by exists obj.
    + intros x Hx. by apply last_before_row in Hx as [? _].
Qed.
End operations.
