(* ===== verification/TableInvariants.v ===== *)
(** * Invariants of the tables of contracts

    A contract changes its tables through the functions of ContractTables.v.
    This file puts them into one step relation, over all six kinds of rows and
    over the actions of a block, each of which starts with empty caches, and
    shows what every run keeps: a table counts its rows and is gone when it has
    none, an iterator stands for a row that exists, and the memory billed to an
    account follows the size of what the account pays for.  A second theorem
    says which pointers of the caches may be followed: those of rows always,
    those of end iterators as long as the table is there. *)

From S2P Require Import Prelude Exceptions Names Merkle Authority ResourceLimits Raw Codecs.
From S2P Require Import Chainbase BlockHeader Transactions ProtocolFeatures ChainObjects Permissions NativeActions.
From S2P Require Import ContractTables.

(** ** Secondary rows *)

(** What the five kinds of secondary rows share. *)
Class SecondaryKind (SK : Type) `{!RowKind (index_object SK)} (billable : Z) : Prop := {
  sec_id (r : index_object SK) : obj_id r = ix_id r;
  sec_t_id (r : index_object SK) : row_t_id r = ix_t_id r;
  sec_primary (r : index_object SK) : row_primary r = ix_primary_key r;
  sec_payer (r : index_object SK) : row_payer r = ix_payer r;
  sec_billable (r : index_object SK) : row_billable r = billable;
  sec_range : 0 < billable <= INT64_MAX
}.

#[export] Instance idx64_sec : SecondaryKind key64 (billable_index_object 8).
Proof. by split. Qed.
#[export] Instance idx128_sec : SecondaryKind key128 (billable_index_object 16).
Proof. by split. Qed.
#[export] Instance idx256_sec : SecondaryKind key256 (billable_index_object 32).
Proof. by split. Qed.
#[export] Instance idx_double_sec : SecondaryKind float64_t (billable_index_object 8).
Proof. by split. Qed.
#[export] Instance idx_long_double_sec : SecondaryKind float128_t (billable_index_object 16).
Proof. by split. Qed.

(** Nothing is paid for that is not billed, and the other way round, by the
    same bytes as before. *)
Definition in_step (ctx ctx' : table_ctx) : Prop :=
  contract_inv ctx' /\ forall a, mem_billed ctx' a - paid_for ctx' a = mem_billed ctx a - paid_for ctx a.

Lemma update_db_usage_swap env payer payer' size size' ctx ctx1 ctx2 :
  rl_inv (res ctx) -> 0 < size <= INT64_MAX -> 0 < size' <= INT64_MAX ->
  update_db_usage env payer (- size) ctx = Ok ctx1 -> update_db_usage env payer' size' ctx1 = Ok ctx2 ->
  ctx2 = with_base ctx (tc_base ctx2) /\ rl_inv (res ctx2) /\
  forall a, mem_billed ctx2 a = mem_billed ctx a - (if a =? payer then size else 0) + if a =? payer' then size' else 0.
Proof.
  intros Hrl Hs Hs' H1 H2. apply update_db_usage_ok in H1 as (E1 & Hrl1 & Hm1); [|done|lia].
  apply update_db_usage_ok in H2 as (E2 & Hrl2 & Hm2); [|done|lia].
  split_and!; [rewrite E2, E1; done|done|]. intros a. rewrite Hm2, Hm1. destruct (a =? payer); lia.
Qed.

Lemma cached_table_id t c t' : cached_table t c = Ok t' -> t' = t.
Proof. unfold cached_table. destruct (_ !! _); [by intros [= ->]|done]. Qed.

Section secondary.
Context {SK : Type} `{!SecondaryKey SK, !RowKind (index_object SK), !RowKindLaws (index_object SK)}.
Context (billable : Z) `{!SecondaryKind SK billable}.
Abbreviation row := (index_object SK).

(** The functions of the class generic_index of apply_context that change the
    state or the cache. *)
Inductive secondary_step : table_ctx -> table_ctx -> Prop :=
| step_store env scope table payer id value ctx ctx' it :
    room (R := row) ctx -> store billable env scope table payer id value ctx = Ok (ctx', it) ->
    secondary_step ctx ctx'
| step_remove_secondary env it ctx ctx' :
    remove_secondary (SK := SK) billable env it ctx = Ok ctx' -> secondary_step ctx ctx'
| step_update_secondary env it payer secondary ctx ctx' :
    update_secondary (SK := SK) billable env it payer secondary ctx = Ok ctx' -> secondary_step ctx ctx'
| step_search code scope table ctx ctx' it res :
    cache_room (cache (R := row) ctx) ->
    (exists key, (ctx', it, res) = find_secondary code scope table key ctx \/
                 (ctx', it, res) = lowerbound_secondary code scope table key ctx \/
                 (ctx', it, res) = upperbound_secondary code scope table key ctx) \/
    (exists id, (ctx', it, res) = find_primary (SK := SK) code scope table id ctx \/
                (ctx', it, res) = lowerbound_primary code scope table id ctx \/
                (ctx', it, res) = upperbound_primary code scope table id ctx) \/
    (ctx', it) = end_secondary (SK := SK) code scope table ctx ->
    secondary_step ctx ctx'
| step_move it ctx ctx' it' res :
    cache_room (cache (R := row) ctx) -> INT32_MIN <= it ->
    next_secondary (SK := SK) it ctx = Ok (ctx', it', res) \/ previous_secondary it ctx = Ok (ctx', it', res) \/
    next_primary (SK := SK) it ctx = Ok (ctx', it', res) \/ previous_primary it ctx = Ok (ctx', it', res) ->
    secondary_step ctx ctx'.

Lemma find_secondary_ok key code scope table ctx ctx' it (r : option row) :
  contract_inv ctx -> cache_room (cache (R := row) ctx) ->
  find_secondary code scope table key ctx = (ctx', it, r) -> only_cache (R := row) ctx ctx'.
Proof.
  intros Hi Hn H. pose proof (kind_of_all (R := row) ctx (ci_kinds _ Hi)) as [Kr _ _ Kc]. unfold find_secondary in H.
  destruct (find_table code scope table ctx) as [tab|]; [|injection H as <- <- <-; by apply only_cache_refl].
  destruct (cache_table_of (tio_id tab) ctx) as [ctx1 ei] eqn:E1.
  apply cache_table_of_ok in E1 as (O1 & T1 & L1); [|done..]. pose proof O1 as ((_ & Er & _) & Hc1 & _). rewrite Er in H.
  destruct (first_from _ _ _) as [x|] eqn:Ef; [|by injection H as <- <- <-].
  apply first_from_row in Ef as [Hx Hlow]; [|done].
  destruct (not_above_secondary key (tio_id tab) x) eqn:Hhigh; [|by injection H as <- <- <-].
  destruct (cache_row x ctx1) as [ctx2 it2] eqn:E2. injection H as <- <- <-.
  apply cache_row_ok in E2 as [O2 _]; [by eapply only_cache_trans|by rewrite Er|rewrite L1; apply Hn|by rewrite Er|].
  rewrite sec_t_id. unfold below_secondary in Hlow. unfold not_above_secondary in Hhigh.
  assert (ix_t_id x = tio_id tab) as ->; [|by exists ei].
  destruct (Z.ltb_spec (ix_t_id x) (tio_id tab)); [done|].
  destruct (Z.ltb_spec (tio_id tab) (ix_t_id x)); [done|lia].
Qed.

Lemma store_in_step env scope table payer id value ctx ctx' it :
  contract_inv ctx -> room (R := row) ctx -> store billable env scope table payer id value ctx = Ok (ctx', it) ->
  in_step ctx ctx'.
Proof.
  intros Hi Hr H. pose proof (sec_range (SK := SK) (billable := billable)) as Hb. unfold store in H.
  apply bind_ok in H as (u & _ & H). apply bind_ok in H as ([ctx1 tab] & Hf & H).
  apply bind_ok in H as ([rs obj] & Hc & H). rewrite i64_id in H by lia.
  edestruct store_ok as (I & M & _); [exact Hi|exact Hr|exact Hb| |exact Hf|exact Hc|exact H|by split].
  intros i. by rewrite sec_id, sec_t_id, sec_payer, (sec_billable (billable := billable)).
Qed.

Lemma remove_in_step env it ctx ctx' :
  contract_inv ctx -> remove_secondary (SK := SK) billable env it ctx = Ok ctx' -> in_step ctx ctx'.
Proof.
  intros Hi H. pose proof (sec_range (SK := SK) (billable := billable)) as Hb. unfold remove_secondary in H.
  apply bind_ok in H as (obj & Hobj & H). apply bind_ok in H as (ctx1 & Hu & H). apply bind_ok in H as (t & Ht & H).
  apply bind_ok in H as (tab & _ & H). apply bind_ok in H as (v & _ & H). rewrite i64_id in Hu by lia.
  apply update_db_usage_ok in Hu as (E & Hrl & Hm); [|apply (ci_resources _ Hi)|lia].
  apply cached_table_id in Ht as ->. rewrite <- sec_t_id in H.
  edestruct (remove_ok env it obj ctx ctx1 ctx') as (I & M & _); [done..| |exact H|by split].
  intros a. by rewrite Hm, sec_payer, (sec_billable (billable := billable)).
Qed.

Lemma update_in_step env it payer secondary ctx ctx' :
  contract_inv ctx -> update_secondary (SK := SK) billable env it payer secondary ctx = Ok ctx' -> in_step ctx ctx'.
Proof.
  intros Hi H. pose proof (sec_range (SK := SK) (billable := billable)) as Hb. unfold update_secondary in H.
  apply bind_ok in H as (obj & Hobj & H). apply bind_ok in H as (t & _ & H). apply bind_ok in H as (tab & _ & H).
  apply bind_ok in H as (u & _ & H). set (p := if payer =? 0 then ix_payer obj else payer) in *.
  apply bind_ok in H as (ctx1 & Hu & H). apply bind_ok in H as (rs & Hrs & [= <-]). rewrite i64_id in Hu by lia.
  set (f := fun o : row => mk_index_object (ix_id o) (ix_t_id o) (ix_primary_key o) p secondary) in *.
  rewrite <- sec_id in Hrs.
  assert (ctx1 = with_base ctx (tc_base ctx1) /\ rl_inv (res ctx1) /\
    forall a, mem_billed ctx1 a = mem_billed ctx a - (if a =? ix_payer obj then billable else 0)
                                  + if a =? p then billable else 0) as (E & Hrl & Hm).
  { destruct (Z.eqb_spec (ix_payer obj) p) as [Ep|Ep]; cbn [negb] in Hu.
    - injection Hu as <-. rewrite Ep. split_and!; [by destruct ctx|apply (ci_resources _ Hi)|].
      intros a. destruct (a =? p); lia.
    - apply bind_ok in Hu as (ctx2 & H1 & H2).
      by apply (update_db_usage_swap env _ _ billable billable ctx ctx2 ctx1 (ci_resources _ Hi)). }
  edestruct (update_ok it f obj ctx ctx1 rs) as (I & M & _); [done..| | | |exact Hrs|by split].
  - intros o. by rewrite !sec_id, !sec_t_id.
  - by rewrite (sec_billable (billable := billable)).
  - intros a. by rewrite Hm, !sec_payer, !(sec_billable (billable := billable)).
Qed.

Lemma secondary_step_ok ctx ctx' : contract_inv ctx -> secondary_step ctx ctx' -> in_step ctx ctx'.
Proof.
  intros Hi H. destruct H.
  - by eapply store_in_step.
  - by eapply remove_in_step.
  - by eapply update_in_step.
  - apply (only_cache_ok (R := row)); [done|].
    destruct H0 as [(key & [E|[E|E]])|[(id & [E|[E|E]])|E]]; symmetry in E.
    + by eapply find_secondary_ok.
    + by eapply bound_row_ok.
    + by eapply bound_row_ok.
    + eapply find_row_ok; [done|done| |exact E]. intros t r. unfold has_primary. lia.
    + by eapply bound_row_ok.
    + by eapply bound_row_ok.
    + by eapply end_row_ok.
  - apply (only_cache_ok (R := row)); [done|]. destruct H1 as [E|[E|[E|E]]].
    + by eapply next_row_ok.
    + by eapply previous_row_ok.
    + by eapply next_row_ok.
    + by eapply previous_row_ok.
Qed.
End secondary.

(** ** Primary rows *)

Lemma kv_size_range (v : list Z) :
  Z.of_nat (length v) <= UINT32_MAX -> 0 < Z.of_nat (length v) + billable_key_value_object <= INT64_MAX.
Proof. intros H. assert (0 < billable_key_value_object <= 1024) by (by vm_compute). lia. Qed.

Lemma db_store_in_step env code scope table payer id buffer ctx ctx' it :
  contract_inv ctx -> room (R := key_value_object) ctx -> Z.of_nat (length buffer) <= UINT32_MAX ->
  db_store_i64 env code scope table payer id buffer ctx = Ok (ctx', it) -> in_step ctx ctx'.
Proof.
  intros Hi Hr Hb%kv_size_range H. unfold db_store_i64 in H. apply bind_ok in H as ([ctx1 tab] & Hf & H).
  apply bind_ok in H as (u & _ & H). apply bind_ok in H as ([rs obj] & Hc & H). rewrite i64_id in H by lia.
  edestruct (store_ok (R := key_value_object)) as (I & M & _); [exact Hi|exact Hr|exact Hb| |exact Hf|exact Hc|exact H|by split].
  done.
Qed.

Lemma db_remove_i64_ok env it ctx ctx' :
  contract_inv ctx -> db_remove_i64 env it ctx = Ok ctx' ->
  in_step ctx ctx' /\ exists obj tab, means_row ctx it obj /\ tio_code tab = ae_receiver env /\
    indices (tables ctx) !! kv_t_id obj = Some tab /\
    indices (rows (R := key_value_object) ctx') = delete (kv_id obj) (indices (rows ctx)) /\
    indices (tables ctx') = (if tio_count tab =? 1 then delete (kv_t_id obj) (indices (tables ctx))
                             else <[kv_t_id obj := set_count (fun n => n - 1) tab]> (indices (tables ctx))) /\
    _table_cache (keyval_cache (tc_caches ctx')) = _table_cache (keyval_cache (tc_caches ctx)) /\
    (forall j x, cache_get j (keyval_cache (tc_caches ctx')) = Ok x <->
       cache_get j (keyval_cache (tc_caches ctx)) = Ok x /\ x <> kv_id obj).
Proof.
  intros Hi H. unfold db_remove_i64 in H. apply bind_ok in H as (obj & Hobj & H). apply bind_ok in H as (t & Ht & H).
  apply bind_ok in H as (tab & Htab & H). apply bind_ok in H as (v & Hcode & H). apply bind_ok in H as (ctx1 & Hu & H).
  apply cached_table_id in Ht as ->. pose proof Hobj as Hmeans%(get_row_means _ _ _ Hi). pose proof Hmeans as [_ Hrow].
  pose proof (ko_size _ _ _ (kind_of_all (R := key_value_object) ctx (ci_kinds _ Hi)) _ _ Hrow) as Hb. cbn in Hb.
  rewrite i64_id in Hu by lia. apply update_db_usage_ok in Hu as (E & Hrl & Hm); [|apply (ci_resources _ Hi)|lia].
  edestruct (remove_ok (R := key_value_object) env it obj ctx ctx1 ctx')
    as (I & M & _ & Hrs & _ & (tab' & Htab' & Hts) & Htc & _ & Hget); [done..|]. split; [by split|].
  apply ine_assert_ok in Hcode. unfold deref in Htab.
  cbn [row_t_id kv_kind] in Htab'. rewrite Htab' in Htab. injection Htab as ->. exists obj, tab. split_and!; try done; lia.
Qed.

(** What [db_update_i64] bills. *)
Lemma update_billing env payer payer' old new ctx ctx' :
  rl_inv (res ctx) -> 0 < old <= INT64_MAX -> 0 < new <= INT64_MAX ->
  (if negb (payer =? payer') then ctx ← update_db_usage env payer (- old) ctx; update_db_usage env payer' new ctx
   else if negb (old =? new) then update_db_usage env payer (new - old) ctx else Ok ctx) = Ok ctx' ->
  ctx' = with_base ctx (tc_base ctx') /\ rl_inv (res ctx') /\
  forall a, mem_billed ctx' a = mem_billed ctx a - (if a =? payer then old else 0) + if a =? payer' then new else 0.
Proof.
  intros Hrl Ho Hn H. destruct (Z.eqb_spec payer payer') as [<-|Hne]; cbn [negb] in H.
  - destruct (Z.eqb_spec old new) as [<-|Hne]; cbn [negb] in H.
    + injection H as <-. split_and!; [by destruct ctx|done|]. intros a. destruct (a =? payer); lia.
    + apply update_db_usage_ok in H as (E & Hrl' & Hm); [|done|lia]. split_and!; [done|done|].
      intros a. rewrite Hm. destruct (a =? payer); lia.
  - apply bind_ok in H as (ctx1 & H1 & H2). by apply (update_db_usage_swap env _ _ _ _ ctx ctx1 ctx').
Qed.

Lemma db_update_i64_ok env it payer buffer ctx ctx' :
  contract_inv ctx -> Z.of_nat (length buffer) <= UINT32_MAX -> db_update_i64 env it payer buffer ctx = Ok ctx' ->
  in_step ctx ctx' /\ exists obj tab, means_row ctx it obj /\ tio_code tab = ae_receiver env /\
    indices (tables ctx) !! kv_t_id obj = Some tab /\ tables ctx' = tables ctx /\
    cache (R := key_value_object) ctx' = cache (R := key_value_object) ctx /\
    indices (rows (R := key_value_object) ctx') =
      <[kv_id obj := mk_key_value_object (kv_id obj) (kv_t_id obj) (kv_primary_key obj)
                       (if payer =? 0 then kv_payer obj else payer) buffer]> (indices (rows ctx)).
Proof.
  intros Hi Hb%kv_size_range H. unfold db_update_i64 in H.
  apply bind_ok in H as (obj & Hobj & H). apply bind_ok in H as (t & Ht & H). apply bind_ok in H as (tab & Htab & H).
  apply bind_ok in H as (u & Hcode & H). set (p := if payer =? 0 then kv_payer obj else payer) in *.
  apply bind_ok in H as (ctx1 & Hu & H). apply bind_ok in H as (rs & Hrs & [= <-]).
  apply cached_table_id in Ht as ->. pose proof Hobj as Hmeans%(get_row_means _ _ _ Hi). pose proof Hmeans as [_ Hrow].
  pose proof (ko_size _ _ _ (kind_of_all (R := key_value_object) ctx (ci_kinds _ Hi)) _ _ Hrow) as Ho. cbn in Ho.
  rewrite !i64_id in Hu by lia. apply update_billing in Hu as (E & Hrl & Hm); [|apply (ci_resources _ Hi)|done..].
  edestruct (update_ok it (fun o => mk_key_value_object (kv_id o) (kv_t_id o) (kv_primary_key o) p buffer) obj ctx ctx1 rs)
    as (I & M & _ & Et & Ec & _ & Hix); [done..|]. split; [by split|].
  apply ine_assert_ok in Hcode. unfold deref in Htab.
  destruct (indices (tables ctx) !! kv_t_id obj) as [tab'|] eqn:Etab; [|done]. injection Htab as ->.
  exists obj, tab. split_and!; try done; lia.
Qed.

(** ** Runs *)

(** The context of the next action: its caches are empty. *)
Definition next_action (ctx : table_ctx) : table_ctx :=
  mk_table_ctx (mk_apply_ctx (ctx_db (tc_base ctx)) ∅ (validate_mem_usage (tc_base ctx))) (tc_db ctx)
    (mk_caches new_cache new_cache new_cache new_cache new_cache new_cache).

Inductive table_step : table_ctx -> table_ctx -> Prop :=
| step_next_action ctx : table_step ctx (next_action ctx)
| step_db_store env code scope table payer id buffer ctx ctx' it :
    room (R := key_value_object) ctx -> Z.of_nat (length buffer) <= UINT32_MAX ->
    db_store_i64 env code scope table payer id buffer ctx = Ok (ctx', it) -> table_step ctx ctx'
| step_db_update env it payer buffer ctx ctx' :
    Z.of_nat (length buffer) <= UINT32_MAX -> db_update_i64 env it payer buffer ctx = Ok ctx' -> table_step ctx ctx'
| step_db_remove env it ctx ctx' : db_remove_i64 env it ctx = Ok ctx' -> table_step ctx ctx'
| step_db_search code scope table id ctx ctx' it res :
    cache_room (cache (R := key_value_object) ctx) ->
    (ctx', it, res) = db_find_i64 code scope table id ctx \/
    (ctx', it, res) = db_lowerbound_i64 code scope table id ctx \/
    (ctx', it, res) = db_upperbound_i64 code scope table id ctx \/
    (ctx', it) = db_end_i64 code scope table ctx -> table_step ctx ctx'
| step_db_move it ctx ctx' it' res :
    cache_room (cache (R := key_value_object) ctx) -> INT32_MIN <= it ->
    db_next_i64 it ctx = Ok (ctx', it', res) \/ db_previous_i64 it ctx = Ok (ctx', it', res) -> table_step ctx ctx'
| step_idx64 ctx ctx' : secondary_step (SK := key64) (billable_index_object 8) ctx ctx' -> table_step ctx ctx'
| step_idx128 ctx ctx' : secondary_step (SK := key128) (billable_index_object 16) ctx ctx' -> table_step ctx ctx'
| step_idx256 ctx ctx' : secondary_step (SK := key256) (billable_index_object 32) ctx ctx' -> table_step ctx ctx'
| step_idx_double ctx ctx' : secondary_step (SK := float64_t) (billable_index_object 8) ctx ctx' -> table_step ctx ctx'
| step_idx_long_double ctx ctx' :
    secondary_step (SK := float128_t) (billable_index_object 16) ctx ctx' -> table_step ctx ctx'.

Lemma new_cache_ok {R} `{!RowKind R} ts (rs : generic_index R) c : kind_ok ts rs c -> kind_ok ts rs new_cache.
Proof.
  intros [H1 H2 H3 _]. split; [done..|]. split; cbn; [|done| |done].
  - intros id it. rewrite lookup_empty, lookup_nil. naive_solver.
  - intros t ei. rewrite lookup_empty. setoid_rewrite lookup_nil. naive_solver.
Qed.

Lemma next_action_in_step ctx : contract_inv ctx -> in_step ctx (next_action ctx).
Proof.
  intros [Ht (K1 & K2 & K3 & K4 & K5 & K6) Hc Hr]. split; [|done]. split; [done| |done|done].
  split_and!; by eapply new_cache_ok.
Qed.

Lemma table_step_ok ctx ctx' : contract_inv ctx -> table_step ctx ctx' -> in_step ctx ctx'.
Proof.
  intros Hi H. destruct H.
  - by apply next_action_in_step.
  - by eapply db_store_in_step.
  - by eapply db_update_i64_ok.
  - by eapply db_remove_i64_ok.
  - apply (only_cache_ok (R := key_value_object)); [done|]. destruct H0 as [E|[E|[E|E]]]; symmetry in E.
    + eapply find_row_ok; [done|done| |exact E]. intros t r. unfold has_primary. lia.
    + by eapply bound_row_ok.
    + by eapply bound_row_ok.
    + by eapply end_row_ok.
  - apply (only_cache_ok (R := key_value_object)); [done|].
    destruct H1 as [E|E]; [by eapply next_row_ok|by eapply previous_row_ok].
  - by apply (secondary_step_ok (SK := key64) (billable_index_object 8)).
  - by apply (secondary_step_ok (SK := key128) (billable_index_object 16)).
  - by apply (secondary_step_ok (SK := key256) (billable_index_object 32)).
  - by apply (secondary_step_ok (SK := float64_t) (billable_index_object 8)).
  - by apply (secondary_step_ok (SK := float128_t) (billable_index_object 16)).
Qed.

Lemma table_steps_ok ctx ctx' : contract_inv ctx -> rtc table_step ctx ctx' -> in_step ctx ctx'.
Proof.
  intros Hi H. induction H as [ctx|ctx ctx1 ctx2 H1 _ IH]; [done|].
  destruct (table_step_ok _ _ Hi H1) as [I1 M1]. destruct (IH I1) as [I2 M2]. split; [done|]. intros a. by rewrite M2.
Qed.

(** C8: whatever a contract stores, changes, removes and looks up, in any of
    the six kinds of rows and over any sequence of actions, the tables stay
    consistent: every row belongs to a table that exists, a table counts its
    rows and there is no table without rows, the keys are unique, an iterator
    of a cache stands for a row that exists and whose table is in the cache,
    and the memory billed to every account changes by the size of the rows and
    tables it pays for. *)
Theorem contract_tables_invariant ctx ctx' :
  contract_inv ctx -> rtc table_step ctx ctx' ->
  contract_inv ctx' /\ forall a, mem_billed ctx' a - mem_billed ctx a = paid_for ctx' a - paid_for ctx a.
Proof. intros Hi H. destruct (table_steps_ok _ _ Hi H) as [I M]. split; [done|]. intros a. specialize (M a). lia. Qed.

(** C30: over any run, the pointer of an iterator to a row, and the one of the
    cache to its table, can be followed; the pointer of an end iterator can
    not when its table was removed since, and then moving back from the end
    follows it. *)
Theorem cached_pointers {R} `{!RowKind R, !RowKindLaws R} ctx ctx' :
  contract_inv ctx -> rtc table_step ctx ctx' ->
  (forall it id, cache_get it (cache (R := R) ctx') = Ok id ->
     exists obj tab, get_row (R := R) it ctx' = Ok obj /\
       cached_table (row_t_id obj) (cache (R := R) ctx') = Ok (row_t_id obj) /\
       deref (tables ctx') (row_t_id obj) = Ok tab /\ tio_id tab = row_t_id obj) /\
  (forall lt n t, _end_iterator_to_table (cache (R := R) ctx') !! n = Some t ->
     previous_row (R := R) lt (- (Z.of_nat n + 2)) ctx' = Err undefined_behaviour <-> indices (tables ctx') !! t = None).
Proof.
  intros Hi H. destruct (table_steps_ok _ _ Hi H) as [I _]. pose proof (kind_of_all (R := R) ctx' (ci_kinds _ I)) as [Kr Kt _ Kc].
  split.
  - intros it id Hg. pose proof Hg as [Hp Hid]%cache_get_ok. destruct (co_live _ _ Kc _ _ Hid) as (r & Hr & [ei Hei]).
    destruct (Kt _ _ Hr) as [tab Htab]. exists r, tab. unfold get_row, cached_table, deref. rewrite Hg. cbn.
    rewrite Hr, Hei, Htab. split_and!; try done. by apply (t_ids _ (ci_tables _ I)).
  - intros lt n t Hn. assert (Z.of_nat n + 2 <= INT32_MAX).
    { apply lookup_lt_Some in Hn. destruct (co_small _ _ Kc). lia. }
    unfold previous_row. rewrite (proj2 (Z.ltb_lt _ _)) by lia. unfold find_table_by_end_iterator, end_iterator_to_index.
    rewrite (proj2 (Z.ltb_lt _ (-1))) by lia. cbn [ine_assert mbind result_bind].
    rewrite (proj2 (Z.eqb_neq _ INT32_MIN)) by lia. cbn [mbind result_bind].
    rewrite wrap_id by (unfold is_uint; lia). replace (Z.to_nat _) with n by lia. rewrite Hn. unfold deref.
    destruct (indices (tables ctx') !! t); cbn; [split; [|done]|done]. by destruct (to_row_or_end _ _ _ _) as [[]].
Qed.

(** ** An example *)

Lemma kind_count_size {R} `{!RowKind R} (rs : generic_index R) t : kind_count rs t <= Z.of_nat (size (indices rs)).
Proof.
  unfold kind_count. generalize (indices rs). intros m. induction m as [|i r m Hi IH] using map_ind; [done|].
  rewrite table_sum_insert, map_size_insert_None by done. destruct (_ =? t); lia.
Qed.

Definition total_size (ctx : table_ctx) : nat :=
  let d := tc_db ctx in
  (size (indices (kv_rows d)) + size (indices (idx64_rows d)) + size (indices (idx128_rows d)) +
   size (indices (idx256_rows d)) + size (indices (idx_double_rows d)) + size (indices (idx_long_double_rows d)))%nat.

Lemma total_count_size ctx t : total_count ctx t <= Z.of_nat (total_size ctx).
Proof.
  unfold total_count, total_size. cbn [rows kv_kind idx64_kind idx128_kind idx256_kind idx_double_kind idx_long_double_kind].
  rewrite !Nat2Z.inj_add. repeat apply Z.add_le_mono; apply kind_count_size.
Qed.

Definition no_caches : caches := mk_caches new_cache new_cache new_cache new_cache new_cache new_cache.

(** An account, the contract on it, and no tables. *)
Definition example_contract : table_ctx :=
  mk_table_ctx (mk_apply_ctx (with_resources empty_chain_db example_db) ∅ ∅)
    (mk_contract_db empty_index empty_index empty_index empty_index empty_index empty_index empty_index) no_caches.
Definition example_action : action_env := mk_action_env 7 (mk_action 7 1 [mk_permission_level 7 active_name] []) false true true.

Lemma no_tables_inv b : rl_inv (resource_limits (ctx_db b)) ->
  contract_inv (mk_table_ctx b (mk_contract_db empty_index empty_index empty_index empty_index empty_index empty_index
    empty_index) no_caches).
Proof.
  intros H. assert (forall {R} `{!RowKind R}, kind_ok empty_index (empty_index (V := R)) new_cache) as Hk.
  { intros R ?. apply (new_cache_ok _ _ new_cache). split; [apply empty_table_ok|done|done|].
    split; cbn; [|done| |done].
    - intros id it. rewrite lookup_empty, lookup_nil. naive_solver.
    - intros t ei. rewrite lookup_empty. setoid_rewrite lookup_nil. naive_solver. }
  split; [apply empty_table_ok| |done|done]. split_and!; apply Hk.
Qed.

(** Two rows are stored under a key each, a secondary row, then the rows are
    removed one after the other. *)
Definition example_rows : outcome table_ctx :=
  '(ctx, it) ← db_store_i64 example_action 7 1 2 7 10 [1; 2; 3] example_contract;
  '(ctx, it2) ← db_store_i64 example_action 7 1 2 7 20 [4] ctx;
  '(ctx, it3) ← store (SK := key64) (billable_index_object 8) example_action 1 3 7 10 (mk_key64 5) ctx;
  Ok ctx.
Definition example_full : table_ctx := match example_rows with Ok ctx => ctx | Err _ => example_contract end.

Definition example_emptied : outcome table_ctx :=
  ctx ← db_remove_i64 example_action 0 example_full;
  db_remove_i64 example_action 1 ctx.
Definition example_empty : table_ctx := match example_emptied with Ok ctx => ctx | Err _ => example_contract end.

Ltac example_room :=
  split_and!; [vm_compute; done|vm_compute; done|];
  intros t; eapply Z.le_lt_trans; [apply total_count_size|vm_compute; done].

Lemma example_full_run : rtc table_step example_contract example_full.
Proof.
  unfold example_full. destruct example_rows as [ctx|] eqn:E; [|by vm_compute in E]. unfold example_rows in E.
  apply bind_ok in E as ([ctx1 it1] & E1 & E). apply bind_ok in E as ([ctx2 it2] & E2 & E).
  apply bind_ok in E as ([ctx3 it3] & E3 & [= <-]).
  eapply rtc_l; [apply (step_db_store _ _ _ _ _ _ _ _ _ _) with (3 := E1); [example_room|done]|].
  eapply rtc_l; [apply (step_db_store _ _ _ _ _ _ _ _ _ _) with (3 := E2); [|done]|].
  { vm_compute in E1. injection E1 as <- <-. example_room. }
  apply rtc_once. apply step_idx64. apply (step_store _ _ _ _ _ _ _ _ _ _) with (2 := E3).
  vm_compute in E1. injection E1 as <- <-. vm_compute in E2. injection E2 as <- <-. example_room.
Qed.

Lemma example_empty_run : rtc table_step example_full example_empty.
Proof.
  unfold example_empty. destruct example_emptied as [ctx|] eqn:E; [|by vm_compute in E]. unfold example_emptied in E.
  apply bind_ok in E as (ctx1 & E1 & E2).
  eapply rtc_l; [eapply step_db_remove; exact E1|]. apply rtc_once. by eapply step_db_remove.
Qed.

Lemma contract_tables_invariant_witness :
  contract_inv example_full /\ mem_billed example_full 7 - mem_billed example_contract 7 = 2 * 112 + 2 * 112 + 128 + 4 /\
  paid_for example_contract 7 = 0.
Proof.
  destruct (contract_tables_invariant example_contract example_full) as [H1 H2].
  - apply no_tables_inv. apply example_db_inv.
  - apply example_full_run.
  - split; [exact H1|]. split; [|vm_compute; reflexivity]. rewrite H2. vm_compute. reflexivity.
Defined.

Lemma cached_pointers_witness :
  db_previous_i64 (-2) example_full <> Err undefined_behaviour /\ db_previous_i64 (-2) example_empty = Err undefined_behaviour.
Proof.
  pose proof (no_tables_inv _ (example_db_inv : rl_inv (resource_limits (ctx_db (tc_base example_contract))))) as Hi.
  split.
  - destruct (cached_pointers (R := key_value_object) example_contract example_full Hi example_full_run) as [_ H].
    intros E. apply (H primary_lt 0%nat 0 ltac:(vm_compute; reflexivity)) in E. vm_compute in E. discriminate E.
  - destruct (cached_pointers (R := key_value_object) example_contract example_empty Hi) as [_ H].
    + etrans; [apply example_full_run|apply example_empty_run].
    + apply (H primary_lt 0%nat 0 ltac:(vm_compute; reflexivity)). vm_compute. reflexivity.
Defined.
