(* ===== verification/TableRefinement.v ===== *)
(** * The tables of contracts as ordered maps

    What a contract sees of its primary rows: for every code, scope and table
    an ordered map from primary keys to a payer and a value, and iterators that
    stand for a row or for the end of a table.  The functions of
    ContractTables.v, which keep rows of all tables in one index and give out
    positions in a cache, implement this view. *)

From S2P Require Import Prelude Exceptions Names Merkle Authority ResourceLimits Raw Codecs.
From S2P Require Import Chainbase BlockHeader Transactions ProtocolFeatures ChainObjects Permissions NativeActions.
From S2P Require Import ContractTables TableInvariants.

(** ** The first and the last row of a table *)

Section order.
Context {R : Type} `{!RowKind R, !RowKindLaws R}.
(** An order that compares the tables first, then the rows of a table. *)
Context (lt inner : R -> R -> bool).
Context (lt_split : forall a b, lt a b = (row_t_id a <? row_t_id b) || ((row_t_id a =? row_t_id b) && inner a b)).
(** The rows the order of a table is good for. *)
Context (good : R -> Prop).
Context (inner_asym : forall a b, good a -> good b -> inner a b = true -> inner b a = false).
Context (inner_trans : forall a b c, good a -> good b -> good c -> inner a b = false -> inner b c = false -> inner a c = false).

Lemma lt_asym_good a b : good a -> good b -> lt a b = true -> lt b a = false.
Proof.
  intros Ha Hb. rewrite !lt_split. specialize (inner_asym a b Ha Hb).
  destruct (Z.ltb_spec (row_t_id a) (row_t_id b)), (Z.ltb_spec (row_t_id b) (row_t_id a)),
    (Z.eqb_spec (row_t_id a) (row_t_id b)), (Z.eqb_spec (row_t_id b) (row_t_id a)); cbn; try lia; auto; try done.
Qed.

Lemma lt_trans a b c : good a -> good b -> good c -> lt a b = false -> lt b c = false -> lt a c = false.
Proof.
  intros Ha Hb Hc. rewrite !lt_split. specialize (inner_trans a b c Ha Hb Hc).
  destruct (Z.ltb_spec (row_t_id a) (row_t_id b)), (Z.ltb_spec (row_t_id b) (row_t_id c)),
    (Z.ltb_spec (row_t_id a) (row_t_id c)), (Z.eqb_spec (row_t_id a) (row_t_id b)), (Z.eqb_spec (row_t_id b) (row_t_id c)),
    (Z.eqb_spec (row_t_id a) (row_t_id c)); cbn; try lia; auto; done.
Qed.

Lemma good_elem l x : Forall good l -> x ∈ l -> good x.
Proof. intros H Hx. by apply (proj1 (list.Forall_forall good l) H). Qed.

Lemma least_none l : least lt l = None -> l = [].
Proof. unfold least. destruct l as [|x l]; [done|]. cbn [foldr]. by destruct (foldr _ None l). Qed.
Lemma greatest_none l : greatest lt l = None -> l = [].
Proof. unfold greatest. destruct l as [|x l]; [done|]. cbn [foldr]. by destruct (foldr _ None l). Qed.

Lemma lt_irrefl a : good a -> lt a a = false.
Proof. intros H. destruct (lt a a) eqn:E; [|done]. by rewrite (lt_asym_good a a H H E) in E. Qed.

Lemma least_min l r : Forall good l -> least lt l = Some r -> forall x, x ∈ l -> lt x r = false.
Proof.
  revert r. induction l as [|a l IH]; intros r Hg H x Hx; [by inversion Hx|]. apply list.Forall_cons in Hg as [Ha Hl].
  change (least lt (a :: l)) with (match least lt l with None => Some a | Some w => Some (if lt a w then a else w) end) in H.
  destruct (least lt l) as [w|] eqn:E; injection H as <-.
  - pose proof (least_elem _ _ _ E) as Hw. assert (good w) as Hgw by (by eapply good_elem).
    destruct (lt a w) eqn:Ea; apply elem_of_cons in Hx as [->|Hx].
    + by apply lt_irrefl.
    + apply (lt_trans x w a); [by eapply good_elem|done|done|by apply IH|by apply lt_asym_good].
    + done.
    + by apply IH.
  - apply least_none in E as ->. apply list_elem_of_singleton in Hx as ->. by apply lt_irrefl.
Qed.

Lemma greatest_max l r : Forall good l -> greatest lt l = Some r -> forall x, x ∈ l -> lt r x = false.
Proof.
  revert r. induction l as [|a l IH]; intros r Hg H x Hx; [by inversion Hx|]. apply list.Forall_cons in Hg as [Ha Hl].
  change (greatest lt (a :: l)) with
    (match greatest lt l with None => Some a | Some w => Some (if lt w a then a else w) end) in H.
  destruct (greatest lt l) as [w|] eqn:E; injection H as <-.
  - pose proof (greatest_elem _ _ _ E) as Hw. assert (good w) as Hgw by (by eapply good_elem).
    destruct (lt w a) eqn:Ea; apply elem_of_cons in Hx as [->|Hx].
    + by apply lt_irrefl.
    + apply (lt_trans a w x); [done|done|by eapply good_elem|by apply lt_asym_good|by apply IH].
    + done.
    + by apply IH.
  - apply greatest_none in E as ->. apply list_elem_of_singleton in Hx as ->. by apply lt_irrefl.
Qed.

Context (idx : generic_index R) (idx_ok : table_ok idx).
Context (all_good : forall i r, indices idx !! i = Some r -> good r).

Definition live (r : R) : Prop := indices idx !! obj_id r = Some r.

Lemma filter_good f : Forall good (List.filter f (all_rows idx)).
Proof.
  apply list.Forall_forall. intros x [Hx _]%filter_elem. apply (all_rows_elem _ _ idx_ok) in Hx. by eapply all_good.
Qed.

(** The first row at or after a bound in the table [t]: [Q] holds of the rows
    of the table that are at or after the bound. *)
Lemma first_in_table t below (Q : R -> Prop) :
  (forall r, good r -> below r = false <-> t < row_t_id r \/ row_t_id r = t /\ Q r) ->
  match in_table t (first_from lt below idx) with
  | Some x => live x /\ row_t_id x = t /\ Q x /\ forall y, live y -> row_t_id y = t -> Q y -> inner y x = false
  | None => forall y, live y -> row_t_id y = t -> ~ Q y
  end.
Proof.
  intros HQ. assert (forall y, live y -> row_t_id y = t -> Q y ->
    y ∈ List.filter (fun r => negb (below r)) (all_rows idx)) as Hin.
  { intros y Hy Ht Hq. apply filter_elem. split; [by apply all_rows_elem|].
    apply negb_true_iff, HQ; [by eapply all_good|auto]. }
  unfold first_from in *. destruct (least lt _) as [x|] eqn:E; cbn [in_table].
  - pose proof (least_elem _ _ _ E) as [Hx Hb]%filter_elem. apply (all_rows_elem _ _ idx_ok) in Hx.
    apply negb_true_iff, HQ in Hb; [|by eapply all_good]. pose proof (least_min _ _ (filter_good _) E) as Hmin.
    destruct (Z.eqb_spec (row_t_id x) t) as [Ht|Ht].
    + destruct Hb as [?|[_ Hq]]; [lia|]. split_and!; try done. intros y Hy Hty Hqy.
      specialize (Hmin y (Hin y Hy Hty Hqy)). rewrite lt_split, Ht, Hty, Z.ltb_irrefl, Z.eqb_refl in Hmin. exact Hmin.
    + intros y Hy Hty Hqy. specialize (Hmin y (Hin y Hy Hty Hqy)). rewrite lt_split in Hmin.
      rewrite (proj2 (Z.ltb_lt (row_t_id y) (row_t_id x))) in Hmin by lia. done.
  - intros y Hy Hty Hqy. apply least_none in E. specialize (Hin y Hy Hty Hqy). rewrite E in Hin. by inversion Hin.
Qed.

(** The last row before a bound. *)
Lemma last_in_table t below (Q : R -> Prop) :
  (forall r, good r -> below r = true <-> row_t_id r < t \/ row_t_id r = t /\ Q r) ->
  match in_table t (last_before lt below idx) with
  | Some x => live x /\ row_t_id x = t /\ Q x /\ forall y, live y -> row_t_id y = t -> Q y -> inner x y = false
  | None => forall y, live y -> row_t_id y = t -> ~ Q y
  end.
Proof.
  intros HQ. assert (forall y, live y -> row_t_id y = t -> Q y -> y ∈ List.filter below (all_rows idx)) as Hin.
  { intros y Hy Ht Hq. apply filter_elem. split; [by apply all_rows_elem|].
    apply HQ; [by eapply all_good|auto]. }
  unfold last_before in *. destruct (greatest lt _) as [x|] eqn:E; cbn [in_table].
  - pose proof (greatest_elem _ _ _ E) as [Hx Hb]%filter_elem. apply (all_rows_elem _ _ idx_ok) in Hx.
    apply HQ in Hb; [|by eapply all_good]. pose proof (greatest_max _ _ (filter_good _) E) as Hmax.
    destruct (Z.eqb_spec (row_t_id x) t) as [Ht|Ht].
    + destruct Hb as [?|[_ Hq]]; [lia|]. split_and!; try done. intros y Hy Hty Hqy.
      specialize (Hmax y (Hin y Hy Hty Hqy)). rewrite lt_split, Ht, Hty, Z.ltb_irrefl, Z.eqb_refl in Hmax. exact Hmax.
    + intros y Hy Hty Hqy. specialize (Hmax y (Hin y Hy Hty Hqy)). rewrite lt_split in Hmax.
      rewrite (proj2 (Z.ltb_lt (row_t_id x) (row_t_id y))) in Hmax by lia. done.
  - intros y Hy Hty Hqy. apply greatest_none in E. specialize (Hin y Hy Hty Hqy). rewrite E in Hin. by inversion Hin.
Qed.
End order.

(** ** The view of a contract *)

(** A table is named by its code, its scope and its name. *)
Definition table_name : Type := Z * Z * Z.

Record view (D : Type) := mk_view {
  v_rows : table_name -> Z -> option D;
  v_table : table_name -> bool;
  v_cursor : Z -> option (table_name * Z);
  v_end : Z -> option table_name
}.
Arguments v_rows {D}.
Arguments v_table {D}.
Arguments v_cursor {D}.
Arguments v_end {D}.

Definition name_of (t : table_id_object) : table_name := (tio_code t, tio_scope t, tio_table t).

Lemma primary_lt_split {R} `{!RowKind R} (a b : R) :
  primary_lt a b = (row_t_id a <? row_t_id b) || ((row_t_id a =? row_t_id b) && (row_primary a <? row_primary b)).
Proof.
  unfold primary_lt, tie_lt. cbn.
  destruct (Z.ltb_spec (row_t_id a) (row_t_id b)), (Z.ltb_spec (row_t_id b) (row_t_id a)),
    (Z.eqb_spec (row_t_id a) (row_t_id b)); cbn; try done; lia.
Qed.

Section views.
Context {R : Type} `{!RowKind R, !RowKindLaws R}.
Context {D : Type} (data : R -> D).

Definition row_at (ctx : table_ctx) (n : table_name) (id : Z) : option R :=
  let '(code, scope, table) := n in
  match find_table code scope table ctx with
  | Some tab => List.find (has_primary id (tio_id tab)) (all_rows (rows ctx))
  | None => None
  end.

Definition key_of (ctx : table_ctx) (r : R) : option (table_name * Z) :=
  match indices (tables ctx) !! row_t_id r with Some tab => Some (name_of tab, row_primary r) | None => None end.

Definition view_of (ctx : table_ctx) : view D := {|
  v_rows n id := data <$> row_at ctx n id;
  v_table n := let '(code, scope, table) := n in bool_decide (is_Some (find_table code scope table ctx));
  v_cursor it := match get_row (R := R) it ctx with Ok r => key_of ctx r | Err _ => None end;
  v_end it :=
    if it <? INT32_MIN then None
    else match find_table_by_end_iterator it (cache (R := R) ctx) with
         | Ok (Some t) => match indices (tables ctx) !! t with Some tab => Some (name_of tab) | None => None end
         | _ => None
         end |}.

Implicit Types (ctx : table_ctx).

Lemma find_table_name ctx tab code scope table :
  contract_inv ctx -> find_table code scope table ctx = Some tab <->
  indices (tables ctx) !! tio_id tab = Some tab /\ name_of tab = (code, scope, table).
Proof.
  intros Hi. split.
  - intros H. apply (find_table_Some _ _ _ _ _ Hi) in H as [H1 [= <- <- <-]]. done.
  - intros [H [= <- <- <-]]. unfold find_table. apply (find_by_unique _ _ _ (tio_id tab)); [apply Hi| |done|done].
    cbn. left.
Qed.

Lemma same_name ctx t1 t2 :
  contract_inv ctx -> indices (tables ctx) !! tio_id t1 = Some t1 -> indices (tables ctx) !! tio_id t2 = Some t2 ->
  name_of t1 = name_of t2 -> t1 = t2.
Proof.
  intros Hi H1 H2 E. destruct (name_of t2) as [[c s] t] eqn:E2.
  assert (find_table c s t ctx = Some t1) as F1 by (by apply find_table_name).
  assert (find_table c s t ctx = Some t2) as F2 by (by apply find_table_name). congruence.
Qed.

(** Rows that agree on the table and the primary key are the same. *)
Lemma same_row ctx (r1 r2 : R) :
  contract_inv ctx -> indices (rows ctx) !! obj_id r1 = Some r1 -> indices (rows ctx) !! obj_id r2 = Some r2 ->
  row_t_id r1 = row_t_id r2 -> row_primary r1 = row_primary r2 -> r1 = r2.
Proof.
  intros Hi H1 H2 Ht Hp. pose proof (ko_rows _ _ _ (kind_of_all (R := R) ctx (ci_kinds _ Hi))) as Hr.
  pose proof (t_unique _ Hr _ _ _ _ H1 H2 (unique_primary r1 r2 Ht Hp)) as E. rewrite E in H1. congruence.
Qed.

Lemma row_at_Some ctx n id r :
  contract_inv ctx -> row_at ctx n id = Some r <-> indices (rows ctx) !! obj_id r = Some r /\ key_of ctx r = Some (n, id).
Proof.
  intros Hi. pose proof (kind_of_all (R := R) ctx (ci_kinds _ Hi)) as [Kr Kt _ _]. destruct n as [[c s] t]. unfold row_at, key_of. split.
  - destruct (find_table c s t ctx) as [tab|] eqn:Ef; [|done]. apply (find_table_name _ _ _ _ _ Hi) in Ef as [Htab Hn].
    intros [Hin%list_elem_of_In Hk]%List.find_some. apply (all_rows_elem _ _ Kr) in Hin. split; [done|].
    unfold has_primary in Hk. apply andb_true_iff in Hk as [Hk1%Z.eqb_eq Hk2%Z.eqb_eq]. by rewrite Hk1, Htab, Hn, Hk2.
  - intros [Hr Hk]. destruct (indices (tables ctx) !! row_t_id r) as [tab|] eqn:Htab; [|done].
    apply (inj Some), pair_equal_spec in Hk as [Hn <-].
    pose proof (t_ids _ (ci_tables _ Hi) _ _ Htab : tio_id tab = row_t_id r) as Eid. rewrite <- Eid in Htab.
    rewrite (proj2 (find_table_name ctx tab c s t Hi)) by done.
    destruct (List.find _ _) as [x|] eqn:Ef.
    + apply List.find_some in Ef as [Hin%list_elem_of_In Hk]. apply (all_rows_elem _ _ Kr) in Hin.
      unfold has_primary in Hk. apply andb_true_iff in Hk as [Hk1%Z.eqb_eq Hk2%Z.eqb_eq].
      f_equal. apply (same_row ctx); [done..|congruence|done].
    + eapply List.find_none in Ef; [|by apply list_elem_of_In, all_rows_elem]. unfold has_primary in Ef.
      by rewrite Eid, !Z.eqb_refl in Ef.
Qed.

Lemma v_cursor_row ctx it r : contract_inv ctx -> means_row ctx it r -> v_cursor (view_of ctx) it = key_of ctx r.
Proof. intros Hi H. cbn. by rewrite (proj2 (get_row_means it ctx r Hi) H). Qed.

Lemma key_of_is_Some ctx (r : R) : contract_inv ctx -> indices (rows ctx) !! obj_id r = Some r -> is_Some (key_of ctx r).
Proof.
  intros Hi Hr. pose proof (kind_of_all (R := R) ctx (ci_kinds _ Hi)) as [_ Kt _ _]. unfold key_of.
  destruct (Kt _ _ Hr) as [tab ->]. eauto.
Qed.

Lemma v_cursor_Some ctx it k : v_cursor (view_of ctx) it = Some k <-> exists r, get_row it ctx = Ok r /\ key_of ctx r = Some k.
Proof. cbn. split; [destruct (get_row it ctx) as [r|]; [eauto|done]|]. by intros (r & -> & ?). Qed.

(** The end iterators of the tables that exist. *)
Lemma v_end_Some ctx it n :
  contract_inv ctx -> v_end (view_of ctx) it = Some n <->
  exists tab, means_end (R := R) ctx it (tio_id tab) /\ indices (tables ctx) !! tio_id tab = Some tab /\ name_of tab = n.
Proof.
  intros Hi. pose proof (ko_cache _ _ _ (kind_of_all (R := R) ctx (ci_kinds _ Hi))) as Kc.
  unfold means_end. setoid_rewrite (co_ends _ _ Kc). cbn. unfold find_table_by_end_iterator, end_iterator_to_index. split.
  - destruct (Z.ltb_spec it INT32_MIN); [done|]. destruct (Z.ltb_spec it (-1)); [|done]. cbn.
    destruct (Z.eqb_spec it INT32_MIN); [done|]. cbn.
    rewrite wrap_id by (unfold is_uint; lia). destruct (_ !! Z.to_nat _) as [t|] eqn:Et; [|done].
    destruct (indices (tables ctx) !! t) as [tab|] eqn:Htab; [|done]. intros [= <-].
    pose proof (t_ids _ (ci_tables _ Hi) _ _ Htab : tio_id tab = t) as <-. exists tab. split; [|done].
    exists (Z.to_nat (- it - 2)). split; [done|lia].
  - intros (tab & (m & Hm & ->) & Htab & <-).
    assert (Z.of_nat m + 2 <= INT32_MAX).
    { pose proof (lookup_lt_Some _ _ _ Hm). destruct (co_small _ _ Kc). lia. }
    rewrite (proj2 (Z.ltb_ge _ INT32_MIN)), (proj2 (Z.ltb_lt _ (-1))) by lia. cbn.
    rewrite (proj2 (Z.eqb_neq _ INT32_MIN)) by lia. cbn.
    rewrite wrap_id by (unfold is_uint; lia). replace (Z.to_nat _) with m by lia. by rewrite Hm, Htab.
Qed.


(** ** Looking at rows *)

(** [v'] has the rows and tables of [v], and the iterators of [v] mean in it
    what they meant. *)
Definition keeps (v v' : view D) : Prop :=
  (forall n id, v_rows v' n id = v_rows v n id) /\ (forall n, v_table v' n = v_table v n) /\
  (forall it k, v_cursor v it = Some k -> v_cursor v' it = Some k) /\
  (forall it n, v_end v it = Some n -> v_end v' it = Some n).

(** The iterator [it] stands for a row, or for the end of the table. *)
Definition lands (v : view D) (it : Z) (n : table_name) (o : option Z) : Prop :=
  match o with Some id => v_cursor v it = Some (n, id) | None => v_end v it = Some n end.

(** The least and the greatest key of a table of which [P] holds. *)
Definition least_key (v : view D) (n : table_name) (P : Z -> Prop) (o : option Z) : Prop :=
  match o with
  | Some id => is_Some (v_rows v n id) /\ P id /\ forall id', is_Some (v_rows v n id') -> P id' -> id <= id'
  | None => forall id', is_Some (v_rows v n id') -> ~ P id'
  end.
Definition greatest_key (v : view D) (n : table_name) (P : Z -> Prop) (o : option Z) : Prop :=
  match o with
  | Some id => is_Some (v_rows v n id) /\ P id /\ forall id', is_Some (v_rows v n id') -> P id' -> id' <= id
  | None => forall id', is_Some (v_rows v n id') -> ~ P id'
  end.

Lemma key_of_same ctx ctx' (r : R) : tables ctx' = tables ctx -> key_of ctx' r = key_of ctx r.
Proof. intros E. unfold key_of. by rewrite E. Qed.

Lemma only_cache_keeps ctx ctx' :
  contract_inv ctx -> only_cache (R := R) ctx ctx' -> keeps (view_of ctx) (view_of ctx').
Proof.
  intros Hi O. pose proof (only_cache_ok _ _ Hi O) as [Hi' _]. destruct O as ((_ & Er & Et & _) & _ & (G1 & G2 & _)).
  split; [|split; [|split]].
  - intros [[c s] t] id. cbn. unfold find_table. by rewrite Er, Et.
  - intros [[c s] t]. cbn. unfold find_table. by rewrite Et.
  - intros it k (r & [Hg Hr]%(get_row_means _ _ _ Hi) & Hk)%v_cursor_Some. apply v_cursor_Some. exists r.
    rewrite (key_of_same ctx) by done. split; [|done]. apply (get_row_means _ _ _ Hi'). split; [by apply G1|by rewrite Er].
  - intros it n. rewrite !v_end_Some by done. intros (tab & Hm & Htab & Hn). exists tab. rewrite Et. split; [by apply G2|done].
Qed.

Lemma key_of_table ctx (x : R) tab :
  indices (tables ctx) !! tio_id tab = Some tab -> row_t_id x = tio_id tab -> key_of ctx x = Some (name_of tab, row_primary x).
Proof. intros H E. unfold key_of. by rewrite E, H. Qed.

Lemma lands_row ctx it x tab :
  contract_inv ctx -> indices (tables ctx) !! tio_id tab = Some tab -> row_t_id x = tio_id tab -> means_row ctx it x ->
  lands (view_of ctx) it (name_of tab) (Some (row_primary x)).
Proof. intros Hi Ht E Hm. unfold lands. rewrite (v_cursor_row ctx it x Hi Hm). by apply key_of_table. Qed.

Lemma lands_end ctx it tab :
  contract_inv ctx -> indices (tables ctx) !! tio_id tab = Some tab -> means_end (R := R) ctx it (tio_id tab) ->
  lands (view_of ctx) it (name_of tab) None.
Proof. intros Hi Ht Hm. apply v_end_Some; [done|]. by exists tab. Qed.

(** A search ends at a row of the table or at its end. *)
Lemma search_lands code scope table f ctx ctx' it (r : option R) :
  contract_inv ctx -> (forall t x, f t = Some x -> row_t_id x = t) ->
  search_result code scope table f ctx ctx' it r ->
  keeps (view_of ctx) (view_of ctx') /\
  if v_table (view_of ctx) (code, scope, table)
  then exists tab, indices (tables ctx) !! tio_id tab = Some tab /\ name_of tab = (code, scope, table) /\
         lands (view_of ctx') it (code, scope, table) (row_primary <$> f (tio_id tab))
  else it = -1.
Proof.
  intros Hi Hf [O Hs]. split; [by apply only_cache_keeps|]. pose proof (only_cache_ok _ _ Hi O) as [Hi' _].
  destruct O as ((_ & Er & Et & _) & _ & _). cbn.
  destruct (find_table code scope table ctx) as [tab|] eqn:Ef; [|by destruct Hs].
  rewrite bool_decide_eq_true_2 by done. apply (find_table_name _ _ _ _ _ Hi) in Ef as [Htab Hn]. exists tab.
  split; [done|]. split; [done|]. destruct Hs as [-> Hm]. rewrite <- Hn.
  destruct (f (tio_id tab)) as [x|] eqn:Ex; cbn [fmap option_fmap option_map];
    [apply (lands_row ctx' it x tab)|apply lands_end]; rewrite ?Et; auto.
Qed.

(** Rows of a table are keys of the view. *)
Lemma v_rows_is_Some ctx tab id :
  contract_inv ctx -> indices (tables ctx) !! tio_id tab = Some tab ->
  is_Some (v_rows (view_of ctx) (name_of tab) id) <->
  exists x, live (rows (R := R) ctx) x /\ row_t_id x = tio_id tab /\ row_primary x = id.
Proof.
  intros Hi Ht. cbn [v_rows view_of]. rewrite fmap_is_Some. split.
  - intros [x [Hx Hk]%(row_at_Some _ _ _ _ Hi)]. exists x. unfold key_of in Hk.
    destruct (indices (tables ctx) !! row_t_id x) as [tab'|] eqn:Ht'; [|done].
    apply (inj Some), pair_equal_spec in Hk as [Hn <-].
    pose proof (t_ids _ (ci_tables _ Hi) _ _ Ht' : tio_id tab' = row_t_id x) as E. rewrite <- E in Ht'.
    rewrite (same_name ctx tab' tab Hi Ht' Ht Hn) in E. done.
  - intros (x & Hx & Et & <-). exists x. apply row_at_Some; [done|]. split; [done|]. by apply key_of_table.
Qed.

(** ** The order of primary keys *)

Lemma least_key_in_table ctx tab below (P : Z -> Prop) :
  contract_inv ctx -> indices (tables ctx) !! tio_id tab = Some tab ->
  (forall r : R, below r = false <-> tio_id tab < row_t_id r \/ row_t_id r = tio_id tab /\ P (row_primary r)) ->
  least_key (view_of ctx) (name_of tab) P (row_primary <$> in_table (tio_id tab) (first_from primary_lt below (rows ctx))).
Proof.
  intros Hi Ht Hb. pose proof (ko_rows _ _ _ (kind_of_all (R := R) ctx (ci_kinds _ Hi))) as Hr.
  pose proof (first_in_table primary_lt (fun a b => row_primary a <? row_primary b) primary_lt_split (fun _ => True)
    ltac:(cbn; intros; lia) ltac:(cbn; intros; lia) (rows ctx) Hr ltac:(done) (tio_id tab) below (fun r => P (row_primary r))
    (fun r _ => Hb r)) as H.
  destruct (in_table _ _) as [x|]; cbn [fmap option_fmap option_map least_key].
  - destruct H as (Hl & Et & HP & Hmin). split; [apply (v_rows_is_Some ctx tab _ Hi Ht); eauto|]. split; [done|].
    intros id' (y & Hy & Ety & <-)%(v_rows_is_Some ctx tab _ Hi Ht) HP'. specialize (Hmin y Hy Ety HP'). lia.
  - intros id' (y & Hy & Ety & <-)%(v_rows_is_Some ctx tab _ Hi Ht). by apply H.
Qed.

Lemma greatest_key_in_table ctx tab below (P : Z -> Prop) :
  contract_inv ctx -> indices (tables ctx) !! tio_id tab = Some tab ->
  (forall r : R, below r = true <-> row_t_id r < tio_id tab \/ row_t_id r = tio_id tab /\ P (row_primary r)) ->
  greatest_key (view_of ctx) (name_of tab) P (row_primary <$> in_table (tio_id tab) (last_before primary_lt below (rows ctx))).
Proof.
  intros Hi Ht Hb. pose proof (ko_rows _ _ _ (kind_of_all (R := R) ctx (ci_kinds _ Hi))) as Hr.
  pose proof (last_in_table primary_lt (fun a b => row_primary a <? row_primary b) primary_lt_split (fun _ => True)
    ltac:(cbn; intros; lia) ltac:(cbn; intros; lia) (rows ctx) Hr ltac:(done) (tio_id tab) below (fun r => P (row_primary r))
    (fun r _ => Hb r)) as H.
  destruct (in_table _ _) as [x|]; cbn [fmap option_fmap option_map greatest_key].
  - destruct H as (Hl & Et & HP & Hmax). split; [apply (v_rows_is_Some ctx tab _ Hi Ht); eauto|]. split; [done|].
    intros id' (y & Hy & Ety & <-)%(v_rows_is_Some ctx tab _ Hi Ht) HP'. specialize (Hmax y Hy Ety HP'). lia.
  - intros id' (y & Hy & Ety & <-)%(v_rows_is_Some ctx tab _ Hi Ht). by apply H.
Qed.

Lemma in_table_id t (r : option R) x : in_table t r = Some x -> row_t_id x = t.
Proof. destruct r as [y|]; [|done]. cbn. destruct (Z.eqb_spec (row_t_id y) t); [by intros [= <-]|done]. Qed.

(** ** Changing rows *)

(** The names of the tables by their ids. *)
Definition named (ctx : table_ctx) (i : Z) : option table_name := name_of <$> indices (tables ctx) !! i.

Lemma key_of_named ctx (r : R) : key_of ctx r = (fun n => (n, row_primary r)) <$> named ctx (row_t_id r).
Proof. unfold key_of, named. by destruct (indices (tables ctx) !! row_t_id r). Qed.

Lemma v_table_named ctx n : contract_inv ctx -> v_table (view_of ctx) n = true <-> exists i, named ctx i = Some n.
Proof.
  intros Hi. destruct n as [[c s] t]. cbn. rewrite bool_decide_eq_true. unfold named. split.
  - intros [tab [H1 H2]%(find_table_name _ _ _ _ _ Hi)]. exists (tio_id tab). by rewrite H1, <- H2.
  - intros (i & (tab & Hi' & Hn)%fmap_Some). pose proof (t_ids _ (ci_tables _ Hi) _ _ Hi' : tio_id tab = i) as <-.
    exists tab. by apply (find_table_name _ _ _ _ _ Hi).
Qed.

Lemma v_end_named ctx it n :
  contract_inv ctx -> v_end (view_of ctx) it = Some n <-> exists t, means_end (R := R) ctx it t /\ named ctx t = Some n.
Proof.
  intros Hi. rewrite v_end_Some by done. unfold named. split.
  - intros (tab & Hm & Ht & <-). exists (tio_id tab). by rewrite Ht.
  - intros (t & Hm & (tab & Ht & ->)%fmap_Some). pose proof (t_ids _ (ci_tables _ Hi) _ _ Ht : tio_id tab = t) as <-. by exists tab.
Qed.

Lemma v_cursor_named ctx it n id :
  contract_inv ctx -> v_cursor (view_of ctx) it = Some (n, id) <->
  exists r : R, means_row ctx it r /\ named ctx (row_t_id r) = Some n /\ row_primary r = id.
Proof.
  intros Hi. rewrite v_cursor_Some. setoid_rewrite get_row_means; [|done]. setoid_rewrite key_of_named.
  split; intros (r & Hm & H); exists r; (split; [done|]).
  - by apply fmap_Some in H as (x & H & [= -> ->]).
  - destruct H as [-> <-]. done.
Qed.

Lemma row_at_named ctx n id (r : R) :
  contract_inv ctx -> row_at ctx n id = Some r <->
  indices (rows ctx) !! obj_id r = Some r /\ named ctx (row_t_id r) = Some n /\ row_primary r = id.
Proof.
  intros Hi. rewrite row_at_Some by done. rewrite key_of_named. split; intros [H1 H2]; (split; [done|]).
  - by apply fmap_Some in H2 as (x & H2 & [= -> ->]).
  - by destruct H2 as [-> <-].
Qed.

(** Rows whose tables keep their names keep their keys. *)
Lemma row_named ctx ctx' (r : R) n :
  contract_inv ctx -> (forall i m, named ctx i = Some m -> named ctx' i = Some m) -> indices (rows ctx) !! obj_id r = Some r ->
  named ctx' (row_t_id r) = Some n -> named ctx (row_t_id r) = Some n.
Proof.
  intros Hi Hn Hr H. pose proof (ko_tables _ _ _ (kind_of_all (R := R) ctx (ci_kinds _ Hi)) _ _ Hr) as [tab Ht].
  assert (named ctx (row_t_id r) = Some (name_of tab)) as E by (unfold named; by rewrite Ht). pose proof (Hn _ _ E). congruence.
Qed.

Lemma same_named ctx (r1 r2 : R) n :
  contract_inv ctx -> indices (rows ctx) !! obj_id r1 = Some r1 -> indices (rows ctx) !! obj_id r2 = Some r2 ->
  named ctx (row_t_id r1) = Some n -> named ctx (row_t_id r2) = Some n -> row_primary r1 = row_primary r2 -> r1 = r2.
Proof.
  intros Hi H1 H2 N1 N2 Hp. assert (row_at ctx n (row_primary r2) = Some r1) as E1 by (by apply row_at_named).
  assert (row_at ctx n (row_primary r2) = Some r2) as E2 by (by apply row_at_named). congruence.
Qed.

Definition stored (v v' : view D) (n : table_name) (id : Z) (d : D) (it : Z) : Prop :=
  v_rows v n id = None /\
  (forall m i, v_rows v' m i = if decide ((m, i) = (n, id)) then Some d else v_rows v m i) /\
  (forall m, v_table v' m = v_table v m || bool_decide (m = n)) /\
  v_cursor v' it = Some (n, id) /\
  (forall it k, v_cursor v it = Some k -> v_cursor v' it = Some k) /\ (forall it m, v_end v it = Some m -> v_end v' it = Some m).

Lemma store_view ctx ctx' tab f obj it :
  contract_inv ctx -> contract_inv ctx' -> row_t_id obj = tio_id tab ->
  indices (rows (R := R) ctx) !! obj_id obj = None -> indices (rows ctx') = <[obj_id obj := obj]> (indices (rows ctx)) ->
  indices (tables ctx') = <[tio_id tab := set_count f tab]> (indices (tables ctx)) ->
  indices (tables ctx) !! tio_id tab = Some tab \/ indices (tables ctx) !! tio_id tab = None ->
  cache_get it (cache (R := R) ctx') = Ok (obj_id obj) -> cache_grows (cache (R := R) ctx) (cache (R := R) ctx') ->
  stored (view_of ctx) (view_of ctx') (name_of tab) (row_primary obj) (data obj) it.
Proof.
  intros Hi Hi' Et Hnone Hrs Hts Hold Hget (G1 & G2 & G3).
  assert (named ctx' (tio_id tab) = Some (name_of tab)) as Hn by (unfold named; by rewrite Hts, lookup_insert_eq).
  assert (forall i m, named ctx i = Some m -> named ctx' i = Some m) as Hmono.
  { intros i m H. destruct (decide (i = tio_id tab)) as [->|Hne].
    - unfold named in H. destruct Hold as [Ho|Ho]; rewrite Ho in H; [|done]. rewrite Hn. exact H.
    - unfold named. rewrite Hts, lookup_insert_ne by done. exact H. }
  assert (indices (rows ctx') !! obj_id obj = Some obj) as Hobj by (by rewrite Hrs, lookup_insert_eq).
  assert (forall r : R, indices (rows ctx) !! obj_id r = Some r -> indices (rows ctx') !! obj_id r = Some r /\ r <> obj) as Hlive.
  { intros r Hr. split; [|intros ->; congruence]. rewrite Hrs, lookup_insert_ne; [done|]. intros E. rewrite <- E in Hr. congruence. }
  split; [|split; [|split; [|split; [|split]]]].
  - cbn [v_rows view_of]. apply fmap_None. destruct (row_at ctx _ _) as [r|] eqn:E; [|done].
    apply (row_at_named _ _ _ _ Hi) in E as (Hr & Hrn & Hp). destruct (Hlive r Hr) as [Hr' Hne]. destruct Hne.
    apply (same_named ctx' r obj (name_of tab)); [done..|by apply Hmono|by rewrite Et|done].
  - intros m i. cbn [v_rows view_of].
    assert (row_at ctx' m i = if decide ((m, i) = (name_of tab, row_primary obj)) then Some obj else row_at ctx m i) as ->;
      [|by destruct (decide _)].
    apply option_eq. intros r. destruct (decide _) as [[= -> ->]|Hne].
    + rewrite (row_at_named _ _ _ _ Hi'). split; [|intros [= <-]; by rewrite Et].
      intros (Hr & Hrn & Hp). f_equal. symmetry. apply (same_named ctx' r obj (name_of tab)); [done..|by rewrite Et|done].
    + rewrite (row_at_named _ _ _ _ Hi), (row_at_named _ _ _ _ Hi'). split; intros (Hr & Hrn & Hp).
      * rewrite Hrs in Hr. apply lookup_insert_Some in Hr as [[Eid <-]|[_ Hr]].
        -- destruct Hne. rewrite Et, Hn in Hrn. injection Hrn as <-. by rewrite Hp.
        -- split_and!; [done| |done]. by apply (row_named ctx ctx').
      * split_and!; [by apply Hlive|by apply Hmono|done].
  - intros m. apply eq_bool_prop_intro. rewrite !Is_true_true, orb_true_iff, bool_decide_eq_true, !v_table_named by done. split.
    + intros [i H]. destruct (decide (i = tio_id tab)) as [->|Hne]; [right; congruence|]. left. exists i.
      unfold named in H |- *. by rewrite Hts, lookup_insert_ne in H.
    + intros [[i H]| ->]; eauto.
  - apply (v_cursor_named _ _ _ _ Hi'). exists obj. by rewrite Et.
  - intros j [n id] (r & [Hg Hr] & Hrn & Hp)%(v_cursor_named _ _ _ _ Hi). apply (v_cursor_named _ _ _ _ Hi'). exists r.
    split; [split; [by apply G1|by apply Hlive]|auto].
  - intros j m (t & Hm & Ht)%(v_end_named _ _ _ Hi). apply (v_end_named _ _ _ Hi'). exists t. split; [by apply G2|auto].
Qed.

Definition changed (v v' : view D) (n : table_name) (id : Z) (d : D) : Prop :=
  is_Some (v_rows v n id) /\
  (forall m i, v_rows v' m i = if decide ((m, i) = (n, id)) then Some d else v_rows v m i) /\
  (forall m, v_table v' m = v_table v m) /\
  (forall it k, v_cursor v' it = Some k <-> v_cursor v it = Some k) /\ (forall it m, v_end v' it = Some m <-> v_end v it = Some m).

Lemma update_view ctx ctx' n (obj obj' : R) :
  contract_inv ctx -> contract_inv ctx' -> tables ctx' = tables ctx -> cache (R := R) ctx' = cache ctx ->
  indices (rows ctx) !! obj_id obj = Some obj -> indices (rows ctx') = <[obj_id obj := obj']> (indices (rows ctx)) ->
  row_t_id obj' = row_t_id obj -> row_primary obj' = row_primary obj -> obj_id obj' = obj_id obj ->
  named ctx (row_t_id obj) = Some n ->
  changed (view_of ctx) (view_of ctx') n (row_primary obj) (data obj').
Proof.
  intros Hi Hi' Et Ec Hobj Hrs E1 E2 E3 Hn.
  assert (forall i, named ctx' i = named ctx i) as Hnm by (intros i; unfold named; by rewrite Et).
  assert (indices (rows ctx') !! obj_id obj' = Some obj') as Hobj' by (by rewrite Hrs, E3, lookup_insert_eq).
  assert (forall r : R, obj_id r <> obj_id obj ->
    indices (rows ctx') !! obj_id r = Some r <-> indices (rows ctx) !! obj_id r = Some r) as Hoth.
  { intros r Hne. by rewrite Hrs, lookup_insert_ne. }
  assert (row_at ctx n (row_primary obj) = Some obj) as Hat by (by apply row_at_named).
  split; [|split; [|split; [|split]]].
  - cbn [v_rows view_of]. rewrite Hat. eauto.
  - intros m i. cbn [v_rows view_of].
    assert (row_at ctx' m i = if decide ((m, i) = (n, row_primary obj)) then Some obj' else row_at ctx m i) as ->;
      [|by destruct (decide _)].
    destruct (decide _) as [[= -> ->]|Hne].
    + apply row_at_named; [done|]. by rewrite Hnm, E1, E2.
    + apply option_eq. intros r. rewrite (row_at_named _ _ _ _ Hi), (row_at_named _ _ _ _ Hi'), Hnm.
      destruct (decide (obj_id r = obj_id obj)) as [Eid|Hid]; [|by rewrite Hoth].
      rewrite Eid, Hobj, Hrs, lookup_insert_eq.
      split; intros ([= <-] & Hrn & Hp); destruct Hne; [rewrite E1 in Hrn; rewrite E2 in Hp|]; congruence.
  - intros [[c s] t]. cbn. unfold find_table. by rewrite Et.
  - intros it [m id]. rewrite (v_cursor_named _ _ _ _ Hi), (v_cursor_named _ _ _ _ Hi'). unfold means_row. rewrite Ec.
    setoid_rewrite Hnm. split; intros (r & [Hg Hr] & Hrn & Hp).
    + destruct (decide (obj_id r = obj_id obj)) as [Eid|Hid]; [|exists r; by rewrite <- Hoth].
      rewrite Eid, Hrs, lookup_insert_eq in Hr. injection Hr as <-. exists obj. by rewrite E1, E2, E3 in *.
    + destruct (decide (obj_id r = obj_id obj)) as [Eid|Hid]; [|exists r; by rewrite Hoth].
      rewrite Eid, Hobj in Hr. injection Hr as <-. exists obj'. by rewrite E1, E2, E3 in *.
  - intros it m. rewrite (v_end_named _ _ _ Hi), (v_end_named _ _ _ Hi'). unfold means_end. rewrite Ec.
    by setoid_rewrite Hnm.
Qed.

(** A table that is left without rows may go, and its end iterators with it. *)
Definition removed (v v' : view D) (n : table_name) (id : Z) : Prop :=
  is_Some (v_rows v n id) /\
  (forall m i, v_rows v' m i = if decide ((m, i) = (n, id)) then None else v_rows v m i) /\
  (forall m, m <> n -> v_table v' m = v_table v m) /\ (forall i, is_Some (v_rows v' n i) -> v_table v' n = true) /\
  (forall it k, v_cursor v' it = Some k <-> v_cursor v it = Some k /\ k <> (n, id)) /\
  (forall it m, v_end v' it = Some m <-> v_end v it = Some m /\ v_table v' m = true).

Lemma remove_view ctx ctx' n obj tab f (gone : bool) :
  contract_inv ctx -> contract_inv ctx' -> indices (rows (R := R) ctx) !! obj_id obj = Some obj ->
  indices (rows ctx') = delete (obj_id obj) (indices (rows ctx)) ->
  indices (tables ctx) !! row_t_id obj = Some tab -> name_of tab = n ->
  indices (tables ctx') = (if gone then delete (row_t_id obj) (indices (tables ctx))
                           else <[row_t_id obj := set_count f tab]> (indices (tables ctx))) ->
  _table_cache (cache (R := R) ctx') = _table_cache (cache (R := R) ctx) ->
  (forall j x, cache_get j (cache (R := R) ctx') = Ok x <-> cache_get j (cache (R := R) ctx) = Ok x /\ x <> obj_id obj) ->
  removed (view_of ctx) (view_of ctx') n (row_primary obj).
Proof.
  intros Hi Hi' Hobj Hrs Htab Hn Hts Hends Hget.
  assert (named ctx (row_t_id obj) = Some n) as Hnobj by (unfold named; rewrite Htab; cbn; by rewrite Hn).
  assert (forall i, named ctx' i = if gone && (i =? row_t_id obj) then None else named ctx i) as Hnm.
  { intros i. unfold named. rewrite Hts. destruct gone; cbn; destruct (Z.eqb_spec i (row_t_id obj)) as [->|Hne].
    - by rewrite lookup_delete_eq.
    - by rewrite lookup_delete_ne.
    - by rewrite lookup_insert_eq, Htab.
    - by rewrite lookup_insert_ne. }
  assert (forall i m, named ctx' i = Some m -> named ctx i = Some m) as Hmono.
  { intros i m. rewrite Hnm. by destruct (gone && _). }
  assert (forall r : R, indices (rows ctx') !! obj_id r = Some r <->
    indices (rows ctx) !! obj_id r = Some r /\ obj_id r <> obj_id obj) as Hlive.
  { intros r. rewrite Hrs, lookup_delete_Some. naive_solver. }
  assert (forall (r : R) m, indices (rows ctx') !! obj_id r = Some r ->
    named ctx' (row_t_id r) = Some m <-> named ctx (row_t_id r) = Some m) as Hstay.
  { intros r m Hr. split; [apply Hmono|]. intros Hm.
    destruct (ko_tables _ _ _ (kind_of_all (R := R) ctx' (ci_kinds _ Hi')) _ _ Hr) as [x Hx].
    assert (named ctx' (row_t_id r) = Some (name_of x)) as E by (unfold named; by rewrite Hx).
    rewrite E. apply Hmono in E. congruence. }
  assert (row_at ctx n (row_primary obj) = Some obj) as Hat by (by apply row_at_named).
  split; [|split; [|split; [|split; [|split]]]].
  - cbn [v_rows view_of]. rewrite Hat. eauto.
  - intros m i. cbn [v_rows view_of].
    assert (row_at ctx' m i = if decide ((m, i) = (n, row_primary obj)) then None else row_at ctx m i) as ->;
      [|by destruct (decide _)].
    apply option_eq. intros r. destruct (decide _) as [[= -> ->]|Hne].
    + split; [|done]. intros (Hr & Hrn & Hp)%(row_at_named _ _ _ _ Hi'). apply Hstay in Hrn; [|done].
      apply Hlive in Hr as [Hr Hid]. destruct Hid. f_equal. by apply (same_named ctx r obj n).
    + rewrite (row_at_named _ _ _ _ Hi), (row_at_named _ _ _ _ Hi'). split; intros (Hr & Hrn & Hp).
      * split_and!; [by apply Hlive|by apply Hmono|done].
      * assert (indices (rows ctx') !! obj_id r = Some r) as Hr'.
        { apply Hlive. split; [done|]. intros E. rewrite E, Hobj in Hr. injection Hr as <-. destruct Hne. congruence. }
        split_and!; [done|by apply Hstay|done].
  - intros m Hm. apply eq_bool_prop_intro. rewrite !Is_true_true, !v_table_named by done. split; intros [i H]; exists i.
    + by apply Hmono.
    + rewrite Hnm. destruct (gone && (i =? row_t_id obj)) eqn:E; [|done]. apply andb_true_iff in E as [_ ->%Z.eqb_eq].
      congruence.
  - intros i [x (r & (Hr & Hrn & Hp)%(row_at_named _ _ _ _ Hi') & _)%fmap_Some]. apply v_table_named; [done|]. eauto.
  - intros it [m id]. rewrite (v_cursor_named _ _ _ _ Hi), (v_cursor_named _ _ _ _ Hi'). unfold means_row. split.
    + intros (r & [[Hg Hid]%Hget Hr] & Hrn & Hp). apply Hmono in Hrn. apply Hlive in Hr as [Hr _].
      split; [by exists r|]. intros [= -> ->]. destruct Hid. f_equal. by apply (same_named ctx r obj n).
    + intros [(r & [Hg Hr] & Hrn & Hp) Hne]. exists r.
      assert (obj_id r <> obj_id obj) as Hid.
      { intros E. rewrite E, Hobj in Hr. injection Hr as <-. destruct Hne. congruence. }
      split; [split; [by apply Hget|by apply Hlive]|]. split; [|done]. apply Hstay; [by apply Hlive|done].
  - intros it m. rewrite (v_end_named _ _ _ Hi), (v_end_named _ _ _ Hi'), v_table_named by done. unfold means_end. rewrite Hends.
    split.
    + intros (t & Hm & Ht). split; [exists t; auto|eauto].
    + intros [(t & Hm & Ht) [u Hu]]. exists t. split; [done|]. assert (u = t) as ->; [|done]. pose proof (Hmono u m Hu) as Hu'.
      unfold named in Hu', Ht. apply fmap_Some in Hu' as (x & Hx & Ex), Ht as (y & Hy & Ey).
      pose proof (t_ids _ (ci_tables _ Hi) _ _ Hx : tio_id x = u) as <-. pose proof (t_ids _ (ci_tables _ Hi) _ _ Hy : tio_id y = t) as <-.
      f_equal. apply (same_name ctx); [done..|congruence].
Qed.
End views.

(** ** The functions on primary rows *)

Inductive kv_op :=
| Op_store (scope table payer id : Z) (buffer : list Z)
| Op_update (iterator payer : Z) (buffer : list Z)
| Op_remove (iterator : Z)
| Op_get (iterator buffer_size : Z)
| Op_find (code scope table id : Z)
| Op_lowerbound (code scope table id : Z)
| Op_upperbound (code scope table id : Z)
| Op_end (code scope table : Z)
| Op_next (iterator : Z)
| Op_previous (iterator : Z).

(** An iterator with the primary key that [db_next_i64] and [db_previous_i64]
    report, the bytes of a value with the number returned, or nothing. *)
Inductive kv_reply :=
| Iterator (it : Z) (primary : option Z)
| Bytes (l : list Z) (n : Z)
| Done.

(** The contract calls one of the functions; [db_store_i64] without a code
    stores to the tables of the receiver. *)
Definition run_kv (env : action_env) (op : kv_op) (ctx : table_ctx) : outcome (table_ctx * kv_reply) :=
  match op with
  | Op_store scope table payer id buffer =>
      '(ctx, it) ← db_store_i64 env (ae_receiver env) scope table payer id buffer ctx; Ok (ctx, Iterator it None)
  | Op_update it payer buffer => ctx ← db_update_i64 env it payer buffer ctx; Ok (ctx, Done)
  | Op_remove it => ctx ← db_remove_i64 env it ctx; Ok (ctx, Done)
  | Op_get it size => '(l, n) ← db_get_i64 it size ctx; Ok (ctx, Bytes l n)
  | Op_find code scope table id => let '(ctx, it, _) := db_find_i64 code scope table id ctx in Ok (ctx, Iterator it None)
  | Op_lowerbound code scope table id =>
      let '(ctx, it, _) := db_lowerbound_i64 code scope table id ctx in Ok (ctx, Iterator it None)
  | Op_upperbound code scope table id =>
      let '(ctx, it, _) := db_upperbound_i64 code scope table id ctx in Ok (ctx, Iterator it None)
  | Op_end code scope table => let '(ctx, it) := db_end_i64 code scope table ctx in Ok (ctx, Iterator it None)
  | Op_next it => '(ctx, it, r) ← db_next_i64 it ctx; Ok (ctx, Iterator it (row_primary <$> r))
  | Op_previous it => '(ctx, it, r) ← db_previous_i64 it ctx; Ok (ctx, Iterator it (row_primary <$> r))
  end.

(** Sizes and numbers of iterators the implementation has room for. *)
Definition fits (op : kv_op) (ctx : table_ctx) : Prop :=
  match op with
  | Op_store _ _ _ _ buffer => room (R := key_value_object) ctx /\ Z.of_nat (length buffer) <= UINT32_MAX
  | Op_update _ _ buffer => Z.of_nat (length buffer) <= UINT32_MAX
  | Op_remove _ | Op_get _ _ => True
  | Op_previous it => cache_room (cache (R := key_value_object) ctx) /\ INT32_MIN <= it
  | _ => cache_room (cache (R := key_value_object) ctx)
  end.

Definition kv_data (r : key_value_object) : Z * list Z := (kv_payer r, kv_value r).

(** What the functions do to the view. *)
Definition kv_spec (receiver : Z) (op : kv_op) (reply : kv_reply) (v v' : view (Z * list Z)) : Prop :=
  match op, reply with
  | Op_store scope table payer id buffer, Iterator it None =>
      payer <> 0 /\ stored v v' (receiver, scope, table) id (payer, buffer) it
  | Op_update it payer buffer, Done =>
      exists scope table id old_payer value, v_cursor v it = Some ((receiver, scope, table), id) /\
        v_rows v (receiver, scope, table) id = Some (old_payer, value) /\
        changed v v' (receiver, scope, table) id (if payer =? 0 then old_payer else payer, buffer)
  | Op_remove it, Done =>
      exists scope table id, v_cursor v it = Some ((receiver, scope, table), id) /\ removed v v' (receiver, scope, table) id
  | Op_get it size, Bytes l k =>
      v' = v /\ exists n id payer value, v_cursor v it = Some (n, id) /\ v_rows v n id = Some (payer, value) /\
        if size =? 0 then l = [] /\ k = i32 (Z.of_nat (length value))
        else l = take (Z.to_nat (Z.min size (Z.of_nat (length value)))) value /\ k = i32 (Z.min size (Z.of_nat (length value)))
  | Op_find code scope table id, Iterator it None =>
      keeps v v' /\
      if v_table v (code, scope, table)
      then lands v' it (code, scope, table) (match v_rows v (code, scope, table) id with Some _ => Some id | None => None end)
      else it = -1
  | Op_lowerbound code scope table id, Iterator it None =>
      keeps v v' /\
      if v_table v (code, scope, table)
      then exists o, least_key v (code, scope, table) (fun id' => id <= id') o /\ lands v' it (code, scope, table) o
      else it = -1
  | Op_upperbound code scope table id, Iterator it None =>
      keeps v v' /\
      if v_table v (code, scope, table)
      then exists o, least_key v (code, scope, table) (fun id' => id < id') o /\ lands v' it (code, scope, table) o
      else it = -1
  | Op_end code scope table, Iterator it None =>
      keeps v v' /\ if v_table v (code, scope, table) then lands v' it (code, scope, table) None else it = -1
  | Op_next it, Iterator it' o =>
      keeps v v' /\
      ((it < -1 /\ it' = -1 /\ o = None) \/
       exists n id, v_cursor v it = Some (n, id) /\ least_key v n (fun id' => id < id') o /\ lands v' it' n o)
  | Op_previous it, Iterator it' o =>
      keeps v v' /\ exists n (P : Z -> Prop),
      ((it < -1 /\ v_end v it = Some n /\ forall id', P id') \/
       exists id, v_cursor v it = Some (n, id) /\ forall id', P id' <-> id' < id) /\
      greatest_key v n P o /\ match o with Some id => v_cursor v' it' = Some (n, id) | None => it' = -1 end
  | _, _ => False
  end.

(** Calls in a row, by the implementation and by the view. *)
Inductive kv_run (env : action_env) : table_ctx -> list (kv_op * kv_reply) -> table_ctx -> Prop :=
| run_done ctx : kv_run env ctx [] ctx
| run_op op reply ctx ctx1 tr ctx2 :
    fits op ctx -> run_kv env op ctx = Ok (ctx1, reply) -> kv_run env ctx1 tr ctx2 ->
    kv_run env ctx ((op, reply) :: tr) ctx2.

Inductive spec_run (receiver : Z) : view (Z * list Z) -> list (kv_op * kv_reply) -> view (Z * list Z) -> Prop :=
| spec_done v : spec_run receiver v [] v
| spec_op op reply v v1 tr v2 :
    kv_spec receiver op reply v v1 -> spec_run receiver v1 tr v2 -> spec_run receiver v ((op, reply) :: tr) v2.

Abbreviation kv_view := (view_of kv_data).

Lemma below_primary_split t id (r : key_value_object) :
  below_primary t id r = false <-> t < row_t_id r \/ row_t_id r = t /\ id <= row_primary r.
Proof. unfold below_primary, tie_lt. cbn. lia. Qed.
Lemma not_above_primary_split t id (r : key_value_object) :
  not_above_primary t id r = false <-> t < row_t_id r \/ row_t_id r = t /\ id < row_primary r.
Proof. unfold not_above_primary, tie_lt. cbn. lia. Qed.

Lemma bound_refines (below : Z -> key_value_object -> bool) (P : Z -> Prop) code scope table ctx ctx' it r :
  contract_inv ctx -> cache_room (cache (R := key_value_object) ctx) ->
  (forall t x, below t x = false <-> t < row_t_id x \/ row_t_id x = t /\ P (row_primary x)) ->
  bound_row primary_lt below code scope table ctx = (ctx', it, r) ->
  keeps (kv_view ctx) (kv_view ctx') /\
  if v_table (kv_view ctx) (code, scope, table)
  then exists o, least_key (kv_view ctx) (code, scope, table) P o /\ lands (kv_view ctx') it (code, scope, table) o
  else it = -1.
Proof.
  intros Hi Hn Hb H. apply bound_row_ok in H; [|done..].
  apply (search_lands kv_data) in H as [Hk H]; [|done|intros t x; apply in_table_id]. split; [done|].
  destruct (v_table _ _); [|done]. destruct H as (tab & Ht & <- & Hl). eexists. split; [|exact Hl].
  by apply (least_key_in_table kv_data).
Qed.

Lemma store_refines env scope table payer id buffer ctx ctx' it :
  contract_inv ctx -> room (R := key_value_object) ctx -> Z.of_nat (length buffer) <= UINT32_MAX ->
  db_store_i64 env (ae_receiver env) scope table payer id buffer ctx = Ok (ctx', it) ->
  contract_inv ctx' /\ payer <> 0 /\ stored (kv_view ctx) (kv_view ctx') (ae_receiver env, scope, table) id (payer, buffer) it.
Proof.
  intros Hi Hr Hb%kv_size_range H. unfold db_store_i64 in H. apply bind_ok in H as ([ctx1 tab] & Hf & H).
  apply bind_ok in H as (u & Hp & H). apply bind_ok in H as ([rs obj] & Hc & H). rewrite i64_id in H by lia.
  edestruct (store_ok (R := key_value_object)) as (I & _ & _ & Eobj & Hnone & Hrs & Hts & Hcase & Hkey & Hget & Hgrow);
    [exact Hi|exact Hr|exact Hb| |exact Hf|exact Hc|exact H|]; [done|].
  split; [done|]. split; [apply ine_assert_ok in Hp; lia|]. injection Hkey as Ek1 Ek2 Ek3.
  replace (ae_receiver env, scope, table) with (name_of tab) by (unfold name_of; congruence).
  assert (stored (kv_view ctx) (kv_view ctx') (name_of tab) (row_primary obj) (kv_data obj) it) as Hs;
    [|by rewrite Eobj in Hs].
  eapply (store_view kv_data); try done; [by rewrite Eobj|]. destruct Hcase as [|[]]; auto.
Qed.

Lemma row_named_name ctx (obj : key_value_object) tab :
  indices (tables ctx) !! kv_t_id obj = Some tab -> named ctx (row_t_id obj) = Some (name_of tab).
Proof. intros H. unfold named. cbn. by rewrite H. Qed.

Lemma cursor_of_row ctx it obj tab :
  contract_inv ctx -> means_row ctx it obj -> indices (tables ctx) !! kv_t_id obj = Some tab ->
  v_cursor (kv_view ctx) it = Some (name_of tab, kv_primary_key obj) /\
  v_rows (kv_view ctx) (name_of tab) (kv_primary_key obj) = Some (kv_data obj).
Proof.
  intros Hi Hm Ht. split.
  - apply (v_cursor_named kv_data _ _ _ _ Hi). exists obj. split; [done|]. split; [by apply row_named_name|done].
  - cbn [v_rows view_of]. rewrite (proj2 (row_at_named _ _ _ obj Hi)); [done|].
    split; [apply Hm|]. split; [by apply row_named_name|done].
Qed.

Lemma update_refines env it payer buffer ctx ctx' :
  contract_inv ctx -> fits (Op_update it payer buffer) ctx -> db_update_i64 env it payer buffer ctx = Ok ctx' ->
  contract_inv ctx' /\ kv_spec (ae_receiver env) (Op_update it payer buffer) Done (kv_view ctx) (kv_view ctx').
Proof.
  intros Hi Hf H. apply db_update_i64_ok in H as ([I _] & obj & tab & Hm & Hcode & Ht & Et & Ec & Hrs); [|done..].
  split; [done|]. destruct (cursor_of_row ctx it obj tab Hi Hm Ht) as [H1 H2].
  assert (name_of tab = (ae_receiver env, tio_scope tab, tio_table tab)) as En by (unfold name_of; by rewrite Hcode).
  rewrite En in H1, H2. cbn [kv_spec]. exists (tio_scope tab), (tio_table tab), (kv_primary_key obj), (kv_payer obj), (kv_value obj).
  split; [done|]. split; [done|]. rewrite <- En.
  set (obj' := mk_key_value_object (kv_id obj) (kv_t_id obj) (kv_primary_key obj)
    (if payer =? 0 then kv_payer obj else payer) buffer) in Hrs.
  assert (changed (kv_view ctx) (kv_view ctx') (name_of tab) (row_primary obj) (kv_data obj')) as Hv; [|exact Hv].
  apply (update_view kv_data ctx ctx' (name_of tab) obj obj'); try done; [apply Hm|by apply row_named_name].
Qed.

Lemma remove_row_refines env it ctx ctx' :
  contract_inv ctx -> db_remove_i64 env it ctx = Ok ctx' ->
  contract_inv ctx' /\ kv_spec (ae_receiver env) (Op_remove it) Done (kv_view ctx) (kv_view ctx').
Proof.
  intros Hi H. apply db_remove_i64_ok in H as ([I _] & obj & tab & Hm & Hcode & Ht & Hrs & Hts & Htc & Hget); [|done..].
  split; [done|]. destruct (cursor_of_row ctx it obj tab Hi Hm Ht) as [H1 _].
  assert (name_of tab = (ae_receiver env, tio_scope tab, tio_table tab)) as En by (unfold name_of; by rewrite Hcode).
  rewrite En in H1. exists (tio_scope tab), (tio_table tab), (kv_primary_key obj). split; [done|]. rewrite <- En.
  assert (removed (kv_view ctx) (kv_view ctx') (name_of tab) (row_primary obj)) as Hv; [|exact Hv].
  apply (remove_view kv_data ctx ctx' (name_of tab) obj tab (fun n => n - 1) (tio_count tab =? 1)); try done. apply Hm.
Qed.

Lemma get_refines env it size ctx l n :
  contract_inv ctx -> db_get_i64 it size ctx = Ok (l, n) ->
  kv_spec (ae_receiver env) (Op_get it size) (Bytes l n) (kv_view ctx) (kv_view ctx).
Proof.
  intros Hi H. unfold db_get_i64 in H. apply bind_ok in H as (obj & Hm%(get_row_means _ _ _ Hi) & H).
  destruct (ko_tables _ _ _ (kind_of_all (R := key_value_object) ctx (ci_kinds _ Hi)) _ _ (proj2 Hm)) as [tab Ht].
  destruct (cursor_of_row ctx it obj tab Hi Hm Ht) as [H1 H2]. split; [done|].
  exists (name_of tab), (kv_primary_key obj), (kv_payer obj), (kv_value obj). split; [done|]. split; [done|].
  destruct (size =? 0); by injection H as <- <-.
Qed.

Lemma find_refines env code scope table id ctx ctx' it r :
  contract_inv ctx -> cache_room (cache (R := key_value_object) ctx) -> db_find_i64 code scope table id ctx = (ctx', it, r) ->
  kv_spec (ae_receiver env) (Op_find code scope table id) (Iterator it None) (kv_view ctx) (kv_view ctx').
Proof.
  intros Hi Hn H. apply find_row_ok in H; [|done|done|intros t x; unfold has_primary; lia].
  apply (search_lands kv_data) in H as [Hk H]; [|done|].
  - split; [done|]. destruct (v_table _ _) eqn:Et; [|done]. destruct H as (tab & Ht & Hname & Hl).
    assert (match v_rows (kv_view ctx) (code, scope, table) id with Some _ => Some id | None => None end =
      row_primary <$> List.find (has_primary id (tio_id tab)) (all_rows (rows (R := key_value_object) ctx))) as ->; [|done].
    cbn [v_rows view_of row_at]. rewrite (proj2 (find_table_name ctx tab code scope table Hi)) by done.
    destruct (List.find _ _) as [x|] eqn:Ef; [|done]. cbn. apply List.find_some in Ef as [_ Ef]. unfold has_primary in Ef.
    cbn in Ef. f_equal. lia.
  - intros t x [_ Hx]%List.find_some. unfold has_primary in Hx. lia.
Qed.

Lemma end_refines env code scope table ctx ctx' it :
  contract_inv ctx -> cache_room (cache (R := key_value_object) ctx) -> db_end_i64 code scope table ctx = (ctx', it) ->
  kv_spec (ae_receiver env) (Op_end code scope table) (Iterator it None) (kv_view ctx) (kv_view ctx').
Proof.
  intros Hi Hn H. apply end_row_ok in H; [|done..]. apply (search_lands kv_data) in H as [Hk H]; [|done..].
  split; [done|]. destruct (v_table _ _); [|done]. by destruct H as (tab & _ & _ & Hl).
Qed.

Lemma next_refines env it ctx ctx' it' r :
  contract_inv ctx -> cache_room (cache (R := key_value_object) ctx) -> db_next_i64 it ctx = Ok (ctx', it', r) ->
  kv_spec (ae_receiver env) (Op_next it) (Iterator it' (row_primary <$> r)) (kv_view ctx) (kv_view ctx').
Proof.
  intros Hi Hn H. apply next_row_ok in H as [O H]; [|done..]. pose proof (only_cache_ok _ _ Hi O) as [Hi' _].
  split; [by apply only_cache_keeps|]. destruct H as [(? & ? & ->)|(obj & Hm & -> & Hres)]; [by left|]. right.
  destruct (ko_tables _ _ _ (kind_of_all (R := key_value_object) ctx (ci_kinds _ Hi)) _ _ (proj2 Hm)) as [tab Ht].
  destruct (cursor_of_row ctx it obj tab Hi Hm Ht) as [H1 _]. exists (name_of tab), (kv_primary_key obj). split; [done|].
  change (row_t_id obj) with (kv_t_id obj) in *.
  pose proof (t_ids _ (ci_tables _ Hi) _ _ Ht : tio_id tab = kv_t_id obj) as Eid. rewrite <- Eid in Ht.
  destruct O as ((_ & _ & Ett & _) & _). rewrite <- Eid in *. split.
  - apply (least_key_in_table kv_data); [done..|]. intros x. rewrite primary_lt_split. cbn. rewrite <- Eid. lia.
  - destruct (in_table _ _) as [x|] eqn:Ex; cbn [fmap option_fmap option_map].
    + apply in_table_id in Ex. apply (lands_row kv_data ctx' it' x tab); [done|by rewrite Ett|done|done].
    + apply lands_end; [done|by rewrite Ett|done].
Qed.

Lemma previous_refines env it ctx ctx' it' r :
  contract_inv ctx -> cache_room (cache (R := key_value_object) ctx) -> INT32_MIN <= it ->
  db_previous_i64 it ctx = Ok (ctx', it', r) ->
  kv_spec (ae_receiver env) (Op_previous it) (Iterator it' (row_primary <$> r)) (kv_view ctx) (kv_view ctx').
Proof.
  intros Hi Hn Hmin H. apply previous_row_ok in H as (O & t & Hres & H); [|done..]. pose proof (only_cache_ok _ _ Hi O) as [Hi' _].
  split; [by apply only_cache_keeps|]. destruct O as ((_ & _ & Ett & _) & _).
  assert (exists tab, indices (tables ctx) !! tio_id tab = Some tab /\ tio_id tab = t) as (tab & Ht & Eid).
  { assert (is_Some (indices (tables ctx) !! t)) as [tab Ht]; [|exists tab; by rewrite (t_ids _ (ci_tables _ Hi) _ _ Ht : tio_id tab = t)].
    destruct H as [(_ & _ & ? & _)|(obj & Hm & -> & _)]; [done|].
    apply (ko_tables _ _ _ (kind_of_all (R := key_value_object) ctx (ci_kinds _ Hi)) _ _ (proj2 Hm)). }
  exists (name_of tab). destruct H as [(Hneg & Hend & _ & ->)|(obj & Hm & -> & ->)].
  - exists (fun _ => True). split_and!.
    + left. split_and!; [done| |done]. apply (v_end_Some kv_data _ _ _ Hi). exists tab.
      split_and!; [by rewrite Eid|done|done].
    + rewrite <- Eid. apply (greatest_key_in_table kv_data); [done..|]. intros x. unfold not_above_table. lia.
    + destruct (in_table _ _) as [x|] eqn:Ex; [|done]. apply in_table_id in Ex. cbn [fmap option_fmap option_map].
      apply (lands_row kv_data ctx' it' x tab); [done|by rewrite Ett|congruence|done].
  - exists (fun id' => id' < kv_primary_key obj). split_and!.
    + right. exists (kv_primary_key obj). split; [|done]. apply (cursor_of_row ctx it obj tab); [done..|].
      change (kv_t_id obj) with (row_t_id obj). by rewrite <- Eid.
    + rewrite <- Eid. apply (greatest_key_in_table kv_data); [done..|]. intros x. rewrite primary_lt_split, Eid. cbn. lia.
    + destruct (in_table _ _) as [x|] eqn:Ex; [|done]. apply in_table_id in Ex. cbn [fmap option_fmap option_map].
      apply (lands_row kv_data ctx' it' x tab); [done|by rewrite Ett|congruence|done].
Qed.

Lemma run_kv_refines env op reply ctx ctx' :
  contract_inv ctx -> fits op ctx -> run_kv env op ctx = Ok (ctx', reply) ->
  contract_inv ctx' /\ kv_spec (ae_receiver env) op reply (kv_view ctx) (kv_view ctx').
Proof.
  intros Hi Hf H. destruct op; cbn [run_kv fits] in *.
  - destruct Hf as [Hr Hb]. apply bind_ok in H as ([ctx1 it] & H & [= <- <-]). apply store_refines in H; [exact H|done..].
  - apply bind_ok in H as (ctx1 & H & [= <- <-]). by apply update_refines in H.
  - apply bind_ok in H as (ctx1 & H & [= <- <-]). by apply remove_row_refines in H.
  - apply bind_ok in H as ([l n] & H & [= <- <-]). split; [done|]. by apply get_refines.
  - destruct (db_find_i64 _ _ _ _ _) as [[ctx1 it] r] eqn:E. injection H as <- <-. split; [|by eapply find_refines].
    apply find_row_ok in E as [O _]; [|done|done|intros t x; unfold has_primary; lia]. apply (only_cache_ok _ _ Hi O).
  - destruct (db_lowerbound_i64 _ _ _ _ _) as [[ctx1 it] r] eqn:E. injection H as <- <-. split.
    + apply bound_row_ok in E as [O _]; [|done..]. apply (only_cache_ok _ _ Hi O).
    + eapply bound_refines; [done|done|intros; apply below_primary_split|exact E].
  - destruct (db_upperbound_i64 _ _ _ _ _) as [[ctx1 it] r] eqn:E. injection H as <- <-. split.
    + apply bound_row_ok in E as [O _]; [|done..]. apply (only_cache_ok _ _ Hi O).
    + eapply bound_refines; [done|done|intros; apply not_above_primary_split|exact E].
  - destruct (db_end_i64 _ _ _ _) as [ctx1 it] eqn:E. injection H as <- <-. split; [|by apply end_refines].
    apply end_row_ok in E as [O _]; [|done..]. apply (only_cache_ok _ _ Hi O).
  - apply bind_ok in H as ([[ctx1 it] r] & H & [= <- <-]). split; [|by apply next_refines].
    apply next_row_ok in H as [O _]; [|done..]. apply (only_cache_ok _ _ Hi O).
  - destruct Hf as [Hr Hmin]. apply bind_ok in H as ([[ctx1 it] r] & H & [= <- <-]). split; [|by apply previous_refines].
    apply previous_row_ok in H as [O _]; [|done..]. apply (only_cache_ok _ _ Hi O).
Qed.

(** C7: for the calls a contract makes on primary rows, the implementation
    with its shared index, its cache of iterators and its count of rows per
    table does what ordered maps do: a row is stored once under its primary
    key, changed and removed through iterators by the code that owns the
    table; searches and moves end at the row with the key, at the nearest key
    in the order, or at the end of the table; and iterators keep standing for
    what they stood for until the row or the table is gone. *)
Theorem contract_rows_refine_maps env ctx tr ctx' :
  contract_inv ctx -> kv_run env ctx tr ctx' -> spec_run (ae_receiver env) (kv_view ctx) tr (kv_view ctx').
Proof.
  intros Hi H. induction H as [ctx|op reply ctx ctx1 tr ctx2 Hf Hr _ IH]; [constructor|].
  destruct (run_kv_refines _ _ _ _ _ Hi Hf Hr) as [Hi1 Hs]. by econstructor; [|apply IH].
Qed.

(** ** An example *)

(** Enough for an operation to fit. *)
Definition fits_b (op : kv_op) (ctx : table_ctx) : bool :=
  let c := keyval_cache (tc_caches ctx) in
  (Z.of_nat (length (_iterator_to_object c)) <? INT32_MAX) && (Z.of_nat (length (_end_iterator_to_table c)) + 1 <? INT32_MAX) &&
  (Z.of_nat (total_size ctx) <? UINT32_MAX) &&
  match op with
  | Op_store _ _ _ _ buffer | Op_update _ _ buffer => Z.of_nat (length buffer) <=? UINT32_MAX
  | Op_previous it => INT32_MIN <=? it
  | _ => true
  end.

Lemma fits_b_ok op ctx : fits_b op ctx = true -> fits op ctx.
Proof.
  unfold fits_b. rewrite !andb_true_iff. intros (((H1%Z.ltb_lt & H2%Z.ltb_lt) & H3%Z.ltb_lt) & H4).
  assert (cache_room (cache (R := key_value_object) ctx)) as Hc by (by split).
  destruct op; cbn [fits]; try done; try lia; (split; [|lia]); [|done].
  split_and!; try apply Hc. intros t. pose proof (total_count_size ctx t). lia.
Qed.

Fixpoint run_calls (env : action_env) (ops : list kv_op) (ctx : table_ctx) : option (list (kv_op * kv_reply) * table_ctx) :=
  match ops with
  | [] => Some ([], ctx)
  | op :: ops =>
      if fits_b op ctx then
        match run_kv env op ctx with
        | Ok (ctx1, reply) =>
            match run_calls env ops ctx1 with Some (tr, ctx2) => Some ((op, reply) :: tr, ctx2) | None => None end
        | Err _ => None
        end
      else None
  end.

Lemma run_calls_ok env ops ctx tr ctx' : run_calls env ops ctx = Some (tr, ctx') -> kv_run env ctx tr ctx'.
Proof.
  revert ctx tr. induction ops as [|op ops IH]; intros ctx tr; cbn.
  - intros [= <- <-]. constructor.
  - destruct (fits_b op ctx) eqn:Ef; [|done]. destruct (run_kv env op ctx) as [[ctx1 reply]|] eqn:E; [|done].
    destruct (run_calls env ops ctx1) as [[tr1 ctx2]|] eqn:E1; [|done]. intros [= <- <-].
    econstructor; [by apply fits_b_ok|exact E|by apply IH].
Qed.

Definition example_calls : list kv_op :=
  [Op_store 1 2 7 10 [1; 2; 3]; Op_store 1 2 7 30 [4]; Op_store 1 2 7 20 [5; 6]; Op_lowerbound 7 1 2 11; Op_next 2;
   Op_next 1; Op_previous (-2); Op_update 2 0 [9]; Op_get 2 8; Op_remove 1; Op_find 7 1 2 30].
Definition example_trace : list kv_reply :=
  [Iterator 0 None; Iterator 1 None; Iterator 2 None; Iterator 2 None; Iterator 1 (Some 30);
   Iterator (-2) None; Iterator 1 (Some 30); Done; Bytes [9] 1; Done; Iterator (-2) None].
Definition example_end_ctx : table_ctx :=
  match run_calls example_action example_calls example_contract with Some (_, ctx) => ctx | None => example_contract end.

Lemma contract_rows_refine_maps_witness :
  spec_run 7 (kv_view example_contract) (zip example_calls example_trace) (kv_view example_end_ctx) /\
  v_rows (kv_view example_end_ctx) (7, 1, 2) 20 = Some (7, [9]) /\ v_rows (kv_view example_end_ctx) (7, 1, 2) 30 = None.
Proof.
  split; [|vm_compute; split; reflexivity].
  apply (contract_rows_refine_maps example_action example_contract (zip example_calls example_trace) example_end_ctx).
  - apply no_tables_inv. apply example_db_inv.
  - apply (run_calls_ok example_action example_calls). vm_compute. reflexivity.
Defined.
