(* ===== verification/SecondaryOrder.v ===== *)
(** * The order of secondary keys

    The comparisons f64_lt and f128_lt, on the bits of floating point numbers,
    are the comparisons of the numbers; the keys of the five kinds of secondary
    rows are totally preordered by them; and so the searches and moves of the
    class generic_index of apply_context follow the order of secondary keys,
    with the primary key deciding between equal ones. *)

From S2P Require Import Prelude Exceptions Names Merkle Authority ResourceLimits Raw Codecs.
From S2P Require Import Chainbase BlockHeader Transactions ProtocolFeatures ChainObjects Permissions NativeActions.
From S2P Require Import ContractTables TableInvariants TableRefinement.

(** ** Numbers *)

(** The magnitude of a binary floating point number with [m] bits of
    significand, from its bits without the sign, in units of the least
    subnormal number; infinity comes after all finite numbers. *)
Definition magnitude (m bits : Z) : Z :=
  let e := bits / 2 ^ m in
  let f := bits mod 2 ^ m in
  if e =? 0 then f else (2 ^ m + f) * 2 ^ (e - 1).

Lemma magnitude_mono m a b : 0 < m -> 0 <= a -> a < b -> magnitude m a < magnitude m b.
Proof.
  intros Hm Ha Hab. unfold magnitude.
  assert (0 < 2 ^ m) as Hp by lia.
  pose proof (Z.div_mod a (2 ^ m) ltac:(lia)) as Da. pose proof (Z.div_mod b (2 ^ m) ltac:(lia)) as Db.
  pose proof (Z.mod_pos_bound a (2 ^ m) Hp) as Fa. pose proof (Z.mod_pos_bound b (2 ^ m) Hp) as Fb.
  set (ea := a / 2 ^ m) in *. set (fa := a mod 2 ^ m) in *. set (eb := b / 2 ^ m) in *. set (fb := b mod 2 ^ m) in *.
  set (p := 2 ^ m) in *. assert (0 <= ea) by (apply Z.div_pos; lia). assert (ea <= eb) by nia.
  destruct (Z.eqb_spec ea 0) as [Ea|Ea], (Z.eqb_spec eb 0) as [Eb|Eb]; [nia| |lia|].
  - pose proof (Z.pow_pos_nonneg 2 (eb - 1) ltac:(lia) ltac:(lia)). nia.
  - assert (0 < 2 ^ (ea - 1)) as Hq by (apply Z.pow_pos_nonneg; lia).
    destruct (Z.eq_dec ea eb) as [<-|Hne]; [nia|].
    assert (2 ^ (eb - 1) = 2 * 2 ^ (ea - 1) * 2 ^ (eb - ea - 1)) as E.
    { rewrite <- Z.mul_assoc, <- Z.pow_add_r, <- Z.pow_succ_r by lia. f_equal. lia. }
    pose proof (Z.pow_pos_nonneg 2 (eb - ea - 1) ltac:(lia) ltac:(lia)). rewrite E. nia.
Qed.

Lemma magnitude_inj m a b : 0 < m -> 0 <= a -> 0 <= b -> magnitude m a = magnitude m b <-> a = b.
Proof.
  intros Hm Ha Hb. split; [|by intros ->]. intros E. destruct (Z.lt_trichotomy a b) as [H|[H|H]]; [|done|].
  - pose proof (magnitude_mono m a b). lia.
  - pose proof (magnitude_mono m b a). lia.
Qed.

Lemma magnitude_nonneg m a : 0 < m -> 0 <= a -> 0 <= magnitude m a /\ (magnitude m a = 0 <-> a = 0).
Proof.
  intros Hm Ha. assert (magnitude m 0 = 0) as E0 by (unfold magnitude; by rewrite Z.div_0_l, Z.mod_0_l by lia).
  rewrite <- E0 at 2. rewrite magnitude_inj by lia. split; [|done].
  destruct (Z.eq_dec a 0) as [->|]; [lia|]. pose proof (magnitude_mono m 0 a). lia.
Qed.

(** The number of the bits of a float64_t and a float128_t, in units of
    2^-1074 and 2^-16494. *)
Definition f64_number (a : float64_t) : Z :=
  let ui := f64_bits a in if ui <? 2 ^ 63 then magnitude 52 ui else - magnitude 52 (ui - 2 ^ 63).

Definition f128_number (a : float128_t) : Z :=
  if f128_v64 a <? 2 ^ 63 then magnitude 112 (f128_v64 a * 2 ^ 64 + f128_v0 a)
  else - magnitude 112 ((f128_v64 a - 2 ^ 63) * 2 ^ 64 + f128_v0 a).

Definition f64_typed (a : float64_t) : Prop := is_uint 64 (f64_bits a).
Definition f128_typed (a : float128_t) : Prop := is_uint 64 (f128_v64 a) /\ is_uint 64 (f128_v0 a).

Lemma sign_bit a : is_uint 64 a -> (Z.shiftr a 63 =? 0) = (a <? 2 ^ 63).
Proof.
  intros H. unfold is_uint in H. rewrite Z.shiftr_div_pow2 by lia.
  destruct (Z.ltb_spec a (2 ^ 63)) as [L|L]; [by rewrite Z.div_small by lia|]. apply Z.eqb_neq.
  pose proof (Z.div_le_lower_bound a (2 ^ 63) 1). lia.
Qed.

Lemma without_sign a : is_uint 64 a -> Z.land a 0x7FFFFFFFFFFFFFFF = if a <? 2 ^ 63 then a else a - 2 ^ 63.
Proof.
  intros H. unfold is_uint in H. change 0x7FFFFFFFFFFFFFFF with (Z.ones 63). rewrite Z.land_ones by lia.
  destruct (Z.ltb_spec a (2 ^ 63)); [rewrite Z.mod_small by lia; done|].
  replace a with (a - 2 ^ 63 + 1 * 2 ^ 63) at 1 by lia. rewrite Z.mod_add, Z.mod_small by lia. done.
Qed.

Lemma f64_lt_number a b :
  f64_typed a -> f64_typed b ->
  f64_lt a b = negb (isNaNF64UI (f64_bits a)) && negb (isNaNF64UI (f64_bits b)) && (f64_number a <? f64_number b).
Proof.
  destruct a as [a], b as [b]. unfold f64_typed, f64_lt, f64_number. cbn [f64_bits]. intros Ha Hb.
  destruct (isNaNF64UI a), (isNaNF64UI b); cbn [orb negb andb]; try done.
  rewrite !sign_bit, Z.land_lor_distr_l, !without_sign by done. unfold is_uint in *.
  destruct (Z.ltb_spec a (2 ^ 63)) as [La|La], (Z.ltb_spec b (2 ^ 63)) as [Lb|Lb]; cbn [negb eqb andb xorb].
  - pose proof (magnitude_mono 52 a b). pose proof (magnitude_mono 52 b a).
    destruct (Z.eqb_spec a b) as [->|]; cbn [negb andb]; lia.
  - pose proof (magnitude_nonneg 52 a ltac:(lia) ltac:(lia)) as [H1 _].
    pose proof (magnitude_nonneg 52 (b - 2 ^ 63) ltac:(lia) ltac:(lia)) as [H2 _]. lia.
  - pose proof (magnitude_nonneg 52 b ltac:(lia) ltac:(lia)) as [H1 H2].
    pose proof (magnitude_nonneg 52 (a - 2 ^ 63) ltac:(lia) ltac:(lia)) as [H3 H4].
    destruct (Z.eqb_spec (Z.lor (a - 2 ^ 63) b) 0) as [E|E]; cbn [negb].
    + apply Z.lor_eq_0_iff in E as [E1 E2]. lia.
    + rewrite Z.lor_eq_0_iff in E. lia.
  - pose proof (magnitude_mono 52 (a - 2 ^ 63) (b - 2 ^ 63)). pose proof (magnitude_mono 52 (b - 2 ^ 63) (a - 2 ^ 63)).
    destruct (Z.eqb_spec a b) as [->|]; cbn [negb andb]; [lia|]. destruct (Z.ltb_spec a b); cbn; lia.
Qed.

Lemma f128_lt_number a b :
  f128_typed a -> f128_typed b ->
  f128_lt a b = negb (isNaNF128UI (f128_v64 a) (f128_v0 a)) && negb (isNaNF128UI (f128_v64 b) (f128_v0 b)) &&
                (f128_number a <? f128_number b).
Proof.
  destruct a as [a a0], b as [b b0]. unfold f128_typed, f128_lt, f128_number. cbn [f128_v64 f128_v0]. intros [Ha Ha0] [Hb Hb0].
  destruct (isNaNF128UI a a0), (isNaNF128UI b b0); cbn [orb negb andb]; try done.
  rewrite !sign_bit, Z.land_lor_distr_l, !without_sign by done. unfold is_uint, softfloat_lt128 in *.
  destruct (Z.ltb_spec a (2 ^ 63)) as [La|La], (Z.ltb_spec b (2 ^ 63)) as [Lb|Lb]; cbn [negb eqb andb xorb].
  - pose proof (magnitude_mono 112 (a * 2 ^ 64 + a0) (b * 2 ^ 64 + b0)).
    pose proof (magnitude_mono 112 (b * 2 ^ 64 + b0) (a * 2 ^ 64 + a0)).
    destruct (Z.eqb_spec a b) as [->|]; [destruct (Z.eqb_spec a0 b0) as [->|]|]; cbn [negb orb andb]; lia.
  - pose proof (magnitude_nonneg 112 (a * 2 ^ 64 + a0) ltac:(lia) ltac:(lia)) as [H1 _].
    pose proof (magnitude_nonneg 112 ((b - 2 ^ 63) * 2 ^ 64 + b0) ltac:(lia) ltac:(lia)) as [H2 _]. lia.
  - pose proof (magnitude_nonneg 112 (b * 2 ^ 64 + b0) ltac:(lia) ltac:(lia)) as [H1 H2].
    pose proof (magnitude_nonneg 112 ((a - 2 ^ 63) * 2 ^ 64 + a0) ltac:(lia) ltac:(lia)) as [H3 H4].
    destruct (Z.eqb_spec (Z.lor (Z.lor (Z.lor (a - 2 ^ 63) b) a0) b0) 0) as [E|E]; cbn [negb].
    + apply Z.lor_eq_0_iff in E as [[[E1 E2]%Z.lor_eq_0_iff E3]%Z.lor_eq_0_iff E4]. lia.
    + rewrite !Z.lor_eq_0_iff in E. lia.
  - pose proof (magnitude_mono 112 ((a - 2 ^ 63) * 2 ^ 64 + a0) ((b - 2 ^ 63) * 2 ^ 64 + b0)).
    pose proof (magnitude_mono 112 ((b - 2 ^ 63) * 2 ^ 64 + b0) ((a - 2 ^ 63) * 2 ^ 64 + a0)).
    destruct (Z.eqb_spec a b) as [->|]; [destruct (Z.eqb_spec a0 b0) as [->|]|]; cbn [negb orb andb]; [lia| |].
    + rewrite Z.ltb_irrefl. cbn. destruct (Z.ltb_spec a0 b0); cbn; lia.
    + destruct (Z.ltb_spec a b); cbn; lia.
Qed.

(** The comparisons of floating point keys are exact: [f64_lt] and
    [f128_lt], computed on the bits, compare the numbers that the bits stand
    for, negative numbers, subnormal numbers, both zeros and the infinities
    included, and hold of nothing that is not a number. *)
Theorem float_comparisons_exact :
  (forall a b, f64_typed a -> f64_typed b ->
     f64_lt a b = negb (isNaNF64UI (f64_bits a)) && negb (isNaNF64UI (f64_bits b)) && (f64_number a <? f64_number b)) /\
  (forall a b, f128_typed a -> f128_typed b ->
     f128_lt a b = negb (isNaNF128UI (f128_v64 a) (f128_v0 a)) && negb (isNaNF128UI (f128_v64 b) (f128_v0 b)) &&
                   (f128_number a <? f128_number b)).
Proof. split; [exact f64_lt_number|exact f128_lt_number]. Qed.

(** ** The order of a kind *)

(** The keys a contract may store, and the numbers they are compared by. *)
Class SecondaryOrder (SK : Type) `{!SecondaryKey SK} := {
  sk_good : SK -> Prop;
  sk_number : SK -> Z;
  sk_less_number a b : sk_good a -> sk_good b -> sk_less a b = (sk_number a <? sk_number b)
}.

#[export, refine] Instance key64_order : SecondaryOrder key64 := {| sk_good := fun _ => True; sk_number := k64 |}.
Proof. done. Defined.
#[export, refine] Instance key128_order : SecondaryOrder key128 := {| sk_good := fun _ => True; sk_number := k128 |}.
Proof. done. Defined.
#[export, refine] Instance key256_order : SecondaryOrder key256 :=
  {| sk_good := fun k => is_uint 128 (k256_1 k); sk_number := fun k => k256_0 k * 2 ^ 128 + k256_1 k |}.
Proof. intros [a0 a1] [b0 b1]. cbn [sk_less key256_secondary k256_0 k256_1]. unfold is_uint, tie_lt. cbn [fst snd]. lia. Defined.
#[export, refine] Instance float64_order : SecondaryOrder float64_t :=
  {| sk_good := fun k => f64_typed k /\ isNaNF64UI (f64_bits k) = false; sk_number := f64_number |}.
Proof. intros a b [Ha Na] [Hb Nb]. cbn [sk_less float64_secondary]. by rewrite f64_lt_number, Na, Nb. Defined.
#[export, refine] Instance float128_order : SecondaryOrder float128_t :=
  {| sk_good := fun k => f128_typed k /\ isNaNF128UI (f128_v64 k) (f128_v0 k) = false; sk_number := f128_number |}.
Proof. intros a b [Ha Na] [Hb Nb]. cbn [sk_less float128_secondary]. by rewrite f128_lt_number, Na, Nb. Defined.

(** ** Searches and moves *)

Section search.
Context {SK : Type} `{!SecondaryKey SK, !RowKind (index_object SK), !RowKindLaws (index_object SK)}.
Context {billable : Z} `{!SecondaryKind SK billable, !SecondaryOrder SK}.
Abbreviation row := (index_object SK).

Definition row_good (r : row) : Prop := sk_good (ix_secondary_key r).
Definition number (r : row) : Z := sk_number (ix_secondary_key r).

(** Rows of a table in the order of the index: by key, then by primary key. *)
Definition before (a b : row) : bool := (number a <? number b) || ((number a =? number b) && (ix_primary_key a <? ix_primary_key b)).

Lemma secondary_lt_split (a b : row) :
  secondary_lt a b = (row_t_id a <? row_t_id b) || ((row_t_id a =? row_t_id b) &&
    (sk_less (ix_secondary_key a) (ix_secondary_key b) ||
     (negb (sk_less (ix_secondary_key b) (ix_secondary_key a)) && (ix_primary_key a <? ix_primary_key b)))).
Proof.
  unfold secondary_lt. rewrite !(sec_t_id (billable := billable)).
  destruct (Z.ltb_spec (ix_t_id a) (ix_t_id b)), (Z.ltb_spec (ix_t_id b) (ix_t_id a)), (Z.eqb_spec (ix_t_id a) (ix_t_id b));
    try done; lia.
Qed.

Definition inner_lt (a b : row) : bool :=
  sk_less (ix_secondary_key a) (ix_secondary_key b) ||
  (negb (sk_less (ix_secondary_key b) (ix_secondary_key a)) && (ix_primary_key a <? ix_primary_key b)).

Lemma inner_before a b : row_good a -> row_good b -> inner_lt a b = before a b.
Proof. intros Ha Hb. unfold inner_lt, before, number. rewrite !sk_less_number by done. lia. Qed.

Lemma inner_asym a b : row_good a -> row_good b -> inner_lt a b = true -> inner_lt b a = false.
Proof. intros Ha Hb. rewrite !inner_before by done. unfold before. lia. Qed.

Lemma inner_trans a b c :
  row_good a -> row_good b -> row_good c -> inner_lt a b = false -> inner_lt b c = false -> inner_lt a c = false.
Proof. intros Ha Hb Hc. rewrite !inner_before by done. unfold before. lia. Qed.

Context (ctx : table_ctx) (ctx_inv : contract_inv ctx) (ctx_room : cache_room (cache (R := row) ctx)).
Context (rows_good : forall i (r : row), indices (rows ctx) !! i = Some r -> row_good r).

(** The rows of a table, and the first and the last of those that [P] holds
    of. *)
Definition row_of (t : Z) (r : row) : Prop := indices (rows ctx) !! obj_id r = Some r /\ ix_t_id r = t.
Definition first_row (t : Z) (P : row -> Prop) (o : option row) : Prop :=
  match o with
  | Some x => row_of t x /\ P x /\ forall y, row_of t y -> P y -> before y x = false
  | None => forall y, row_of t y -> ~ P y
  end.
Definition last_row (t : Z) (P : row -> Prop) (o : option row) : Prop :=
  match o with
  | Some x => row_of t x /\ P x /\ forall y, row_of t y -> P y -> before x y = false
  | None => forall y, row_of t y -> ~ P y
  end.

Lemma row_of_good t r : row_of t r -> row_good r.
Proof. intros [H _]. by eapply rows_good. Qed.

Lemma first_row_ok t below P :
  (forall r, row_good r -> below r = false <-> t < ix_t_id r \/ ix_t_id r = t /\ P r) ->
  first_row t P (in_table t (first_from secondary_lt below (rows ctx))).
Proof.
  intros Hb. pose proof (ko_rows _ _ _ (kind_of_all (R := row) ctx (ci_kinds _ ctx_inv))) as Hr.
  pose proof (first_in_table secondary_lt inner_lt secondary_lt_split row_good inner_asym inner_trans (rows ctx) Hr rows_good
    t below P ltac:(intros; rewrite (sec_t_id (billable := billable)); auto)) as H. unfold first_row.
  destruct (in_table _ _) as [x|].
  - destruct H as (Hl & Ht & HP & Hmin). rewrite (sec_t_id (billable := billable)) in Ht. split; [done|]. split; [done|].
    intros y [Hy Hty] HPy. rewrite <- inner_before by (by eapply rows_good).
    apply Hmin; [done|by rewrite (sec_t_id (billable := billable))|done].
  - intros y [Hy Hty]. apply H; [done|by rewrite (sec_t_id (billable := billable))].
Qed.

Lemma last_row_ok t below P :
  (forall r, row_good r -> below r = true <-> ix_t_id r < t \/ ix_t_id r = t /\ P r) ->
  last_row t P (in_table t (last_before secondary_lt below (rows ctx))).
Proof.
  intros Hb. pose proof (ko_rows _ _ _ (kind_of_all (R := row) ctx (ci_kinds _ ctx_inv))) as Hr.
  pose proof (last_in_table secondary_lt inner_lt secondary_lt_split row_good inner_asym inner_trans (rows ctx) Hr rows_good
    t below P ltac:(intros; rewrite (sec_t_id (billable := billable)); auto)) as H. unfold last_row.
  destruct (in_table _ _) as [x|].
  - destruct H as (Hl & Ht & HP & Hmax). rewrite (sec_t_id (billable := billable)) in Ht. split; [done|]. split; [done|].
    intros y [Hy Hty] HPy. rewrite <- inner_before by (by eapply rows_good).
    apply Hmax; [done|by rewrite (sec_t_id (billable := billable))|done].
  - intros y [Hy Hty]. apply H; [done|by rewrite (sec_t_id (billable := billable))].
Qed.

(** What a search in the table gives: the row [o] or the end of the table. *)
Definition found (code scope table : Z) (spec : Z -> option row -> Prop) (ctx' : table_ctx) (it : Z) (o : option row) : Prop :=
  only_cache (R := row) ctx ctx' /\
  match find_table code scope table ctx with
  | None => it = -1 /\ o = None
  | Some tab => spec (tio_id tab) o /\
      match o with Some x => means_row ctx' it x | None => means_end (R := row) ctx' it (tio_id tab) end
  end.

Lemma bound_found below P code scope table ctx' it o :
  (forall t r, row_good r -> below t r = false <-> t < ix_t_id r \/ ix_t_id r = t /\ P r) ->
  bound_row secondary_lt below code scope table ctx = (ctx', it, o) ->
  found code scope table (fun t => first_row t P) ctx' it o.
Proof.
  intros Hb H. apply bound_row_ok in H as [O H]; [|done..]. split; [done|].
  destruct (find_table code scope table ctx) as [tab|]; [|done]. destruct H as [-> H]. split; [|done].
  apply first_row_ok. intros r Hr. by apply Hb.
Qed.

Lemma find_found key code scope table ctx' it o :
  sk_good key -> find_secondary code scope table key ctx = (ctx', it, o) ->
  found code scope table (fun t => first_row t (fun r => number r = sk_number key)) ctx' it o.
Proof.
  intros Hk H. pose proof (kind_of_all (R := row) ctx (ci_kinds _ ctx_inv)) as [Kr _ _ Kc].
  split; [by eapply find_secondary_ok|]. unfold find_secondary in H.
  destruct (find_table code scope table ctx) as [tab|]; [|by injection H as <- <- <-].
  destruct (cache_table_of (tio_id tab) ctx) as [ctx1 ei] eqn:E1.
  apply cache_table_of_ok in E1 as (O1 & T1 & L1); [|done..]. pose proof O1 as ((_ & Er & _) & Hc1 & _). rewrite Er in H.
  pose proof (first_row_ok (tio_id tab) (below_secondary key (tio_id tab)) (fun r => sk_number key <= number r)) as Hf.
  specialize (Hf ltac:(intros r Hr; unfold below_secondary, number; rewrite sk_less_number by done; lia)).
  destruct (first_from _ _ _) as [x|] eqn:Ef; cbn [in_table] in Hf.
  2: { injection H as <- <- <-. split; [|done]. intros y Hy HPy. apply (Hf y Hy). lia. }
  apply first_from_row in Ef as [Hx Hlow]; [|done]. pose proof (rows_good _ _ Hx) as Hgx.
  rewrite (sec_t_id (billable := billable)) in Hf.
  unfold below_secondary in Hlow. rewrite sk_less_number in Hlow by done. fold (number x) in Hlow.
  unfold not_above_secondary in H. rewrite sk_less_number in H by done. fold (number x) in H.
  match type of H with (if ?b then _ else _) = _ => destruct b eqn:Hhigh end.
  - destruct (cache_row x ctx1) as [ctx2 it2] eqn:E2. injection H as <- <- <-.
    assert (ix_t_id x = tio_id tab /\ number x = sk_number key) as [Et En] by lia. rewrite Et, Z.eqb_refl in Hf.
    destruct Hf as (_ & _ & Hmin).
    apply cache_row_ok in E2 as [O2 Hg]; [|by rewrite Er|rewrite L1; apply ctx_room|by rewrite Er|].
    + split; [split; [by split|split; [done|]]|split; [done|]].
      * intros y Hy HPy. apply Hmin; [done|lia].
      * destruct O2 as ((_ & -> & _) & _). by rewrite Er.
    + rewrite (sec_t_id (billable := billable)), Et. eauto.
  - injection H as <- <- <-. split; [|done]. intros y Hy HPy. destruct (Z.eqb_spec (ix_t_id x) (tio_id tab)) as [Et|Et].
    + destruct Hf as (_ & _ & Hmin). specialize (Hmin y Hy ltac:(lia)). unfold before in Hmin. lia.
    + apply (Hf y Hy). lia.
Qed.

Lemma next_found it0 ctx' it o :
  next_secondary it0 ctx = Ok (ctx', it, o) ->
  only_cache (R := row) ctx ctx' /\
  ((it0 < -1 /\ it = -1 /\ o = None) \/
   exists obj, means_row ctx it0 obj /\ first_row (ix_t_id obj) (fun r => before obj r = true) o /\
     match o with Some x => means_row ctx' it x | None => means_end (R := row) ctx' it (ix_t_id obj) end).
Proof.
  intros H. apply next_row_ok in H as [O H]; [|done..]. split; [done|].
  destruct H as [?|(obj & Hm & -> & H)]; [by left|]. right. exists obj. split; [done|].
  rewrite (sec_t_id (billable := billable)) in *. split; [|done]. apply first_row_ok. intros r Hr.
  rewrite secondary_lt_split, !(sec_t_id (billable := billable)). fold (inner_lt obj r).
  rewrite inner_before by (done || by apply (rows_good _ _ (proj2 Hm))). destruct (before obj r); lia.
Qed.

Lemma previous_found it0 ctx' it o :
  INT32_MIN <= it0 -> previous_secondary it0 ctx = Ok (ctx', it, o) ->
  only_cache (R := row) ctx ctx' /\
  exists t P, ((it0 < -1 /\ means_end (R := row) ctx it0 t /\ forall r, P r) \/
    exists obj, means_row ctx it0 obj /\ t = ix_t_id obj /\ forall r, P r <-> before r obj = true) /\
  last_row t P o /\ match o with Some x => means_row ctx' it x | None => it = -1 end.
Proof.
  intros Hmin H. apply previous_row_ok in H as (O & t & Hres & H); [|done..]. split; [done|]. exists t.
  destruct H as [(Hneg & Hend & _ & ->)|(obj & Hm & -> & ->)].
  - exists (fun _ => True). split; [by left|]. split; [|done]. apply last_row_ok. intros r _. unfold not_above_table.
    rewrite (sec_t_id (billable := billable)). lia.
  - exists (fun r => before r obj = true). rewrite (sec_t_id (billable := billable)) in *.
    split; [right; by exists obj|]. split; [|done]. apply last_row_ok. intros r Hr.
    rewrite secondary_lt_split, !(sec_t_id (billable := billable)). fold (inner_lt r obj).
    rewrite inner_before by (done || by apply (rows_good _ _ (proj2 Hm))). destruct (before r obj); lia.
Qed.

(** C31: the functions of a secondary index follow the order of its keys: among
    the rows of the table, [find_secondary], [lowerbound_secondary] and
    [upperbound_secondary] give the first row whose key is equal to the key
    asked for, not less, and greater; [next_secondary] and
    [previous_secondary] give the nearest row in the order, which is by key
    and then by primary key; without such a row they give the end of the
    table, or the iterator -1.  This holds for every kind of key, for floating
    point keys as long as none is NaN. *)
Theorem secondary_index_order :
  (forall key code scope table ctx' it o, sk_good key -> find_secondary code scope table key ctx = (ctx', it, o) ->
     found code scope table (fun t => first_row t (fun r => number r = sk_number key)) ctx' it o) /\
  (forall key code scope table ctx' it o, sk_good key -> lowerbound_secondary code scope table key ctx = (ctx', it, o) ->
     found code scope table (fun t => first_row t (fun r => sk_number key <= number r)) ctx' it o) /\
  (forall key code scope table ctx' it o, sk_good key -> upperbound_secondary code scope table key ctx = (ctx', it, o) ->
     found code scope table (fun t => first_row t (fun r => sk_number key < number r)) ctx' it o) /\
  (forall it0 ctx' it o, next_secondary it0 ctx = Ok (ctx', it, o) ->
     only_cache (R := row) ctx ctx' /\
     ((it0 < -1 /\ it = -1 /\ o = None) \/
      exists obj, means_row ctx it0 obj /\ first_row (ix_t_id obj) (fun r => before obj r = true) o /\
        match o with Some x => means_row ctx' it x | None => means_end (R := row) ctx' it (ix_t_id obj) end)) /\
  (forall it0 ctx' it o, INT32_MIN <= it0 -> previous_secondary it0 ctx = Ok (ctx', it, o) ->
     only_cache (R := row) ctx ctx' /\
     exists t P, ((it0 < -1 /\ means_end (R := row) ctx it0 t /\ forall r, P r) \/
       exists obj, means_row ctx it0 obj /\ t = ix_t_id obj /\ forall r, P r <-> before r obj = true) /\
     last_row t P o /\ match o with Some x => means_row ctx' it x | None => it = -1 end).
Proof.
  split; [intros; by apply find_found|]. split; [|split; [|split; [exact next_found|exact previous_found]]].
  - intros key code scope table ctx' it o Hk H. eapply bound_found; [|exact H]. intros t r Hr. cbn beta.
    unfold below_secondary, number. rewrite sk_less_number by done. lia.
  - intros key code scope table ctx' it o Hk H. eapply bound_found; [|exact H]. intros t r Hr. cbn beta.
    unfold not_above_secondary, number. rewrite sk_less_number by done. lia.
Qed.
End search.

(** ** An example *)

(** Rows with the keys 2, -3/2 and -0, and the first row that is not below
    0. *)
Definition example_keys : outcome table_ctx :=
  '(ctx, _) ← store (billable_index_object 8) example_action 1 3 7 10 (mk_float64 0x4000000000000000) example_contract;
  '(ctx, _) ← store (billable_index_object 8) example_action 1 3 7 20 (mk_float64 0xBFF8000000000000) ctx;
  '(ctx, _) ← store (billable_index_object 8) example_action 1 3 7 30 (mk_float64 0x8000000000000000) ctx;
  Ok ctx.
Definition example_floats : table_ctx := match example_keys with Ok ctx => ctx | Err _ => example_contract end.
Definition example_search : table_ctx * Z * option (index_object float64_t) :=
  lowerbound_secondary 7 1 3 (mk_float64 0) example_floats.

Lemma example_floats_inv : contract_inv example_floats.
Proof.
  apply (table_steps_ok example_contract); [apply no_tables_inv, example_db_inv|].
  unfold example_floats. destruct example_keys as [ctx|] eqn:E; [|by vm_compute in E]. unfold example_keys in E.
  apply bind_ok in E as ([ctx1 it1] & E1 & E). apply bind_ok in E as ([ctx2 it2] & E2 & E).
  apply bind_ok in E as ([ctx3 it3] & E3 & [= <-]).
  eapply rtc_l; [apply step_idx_double; apply (step_store _ _ _ _ _ _ _ _ _ _) with (2 := E1); example_room|].
  vm_compute in E1. injection E1 as <- <-.
  eapply rtc_l; [apply step_idx_double; apply (step_store _ _ _ _ _ _ _ _ _ _) with (2 := E2); example_room|].
  vm_compute in E2. injection E2 as <- <-.
  apply rtc_once. apply step_idx_double. apply (step_store _ _ _ _ _ _ _ _ _ _) with (2 := E3). example_room.
Qed.

Lemma example_floats_good i (r : index_object float64_t) :
  indices (rows example_floats) !! i = Some r -> row_good r.
Proof.
  intros H. apply elem_of_map_to_list in H. revert H.
  assert (map_to_list (indices (rows (R := index_object float64_t) example_floats)) =
    [(2, mk_index_object 2 0 30 7 (mk_float64 0x8000000000000000)); (1, mk_index_object 1 0 20 7 (mk_float64 0xBFF8000000000000));
     (0, mk_index_object 0 0 10 7 (mk_float64 0x4000000000000000))]) as -> by (vm_compute; reflexivity).
  rewrite !elem_of_cons. intros [[= -> ->]|[[= -> ->]|[[= -> ->]|H]]]; [by vm_compute..|by inversion H].
Qed.

Lemma secondary_index_order_witness :
  found example_floats 7 1 3 (fun t => first_row example_floats t (fun r => 0 <= number r))
    example_search.1.1 example_search.1.2 example_search.2 /\
  (ix_primary_key <$> example_search.2) = Some 30.
Proof.
  split; [|vm_compute; reflexivity].
  destruct (secondary_index_order (SK := float64_t) (billable := billable_index_object 8) example_floats example_floats_inv)
    as (_ & H & _); [by vm_compute|exact example_floats_good|].
  apply (H (mk_float64 0)); [by vm_compute|vm_compute; reflexivity].
Defined.
