(* ===== verification/BlockHeaderState.v ===== *)
(** * Block header states

    Models block_header_state.cpp and block_header_state.hpp: the state a
    node keeps per block header, the producer scheduled for a slot, the
    confirmation counts and the computation of the irreversible block
    number, the promotion of a pending producer schedule, the construction
    and the validation of the next header, and the verification of its
    signatures; and the set of activated features of
    protocol_feature_activation.cpp.

    Computed outside the repository's own code, and arguments here: the hash
    of a sequence of bytes ([hash]) and the recovery of the key that made a
    signature ([recover]).  [pfs] stands for a protocol_feature_set, of which
    only get_builtin_digest is called, [validator] and [signer] are the
    callbacks of the same names. *)

From stdpp Require Import sorting.
From S2P Require Import Prelude Exceptions Merkle Authority ProducerSchedule Raw Codecs BlockHeader ProtocolFeatures.

(** ** Data *)

Record signed_block_header := mk_signed_block_header {
  unsigned : block_header;
  producer_signature : signature
}.

Record block_header_state_common := mk_common {
  block_num : Z;
  dpos_proposed_irreversible_blocknum : Z;
  dpos_irreversible_blocknum : Z;
  active_schedule : producer_authority_schedule;
  blockroot_merkle : incremental_merkle;
  producer_to_last_produced : gmap Z Z;
  producer_to_last_implied_irb : gmap Z Z;
  valid_block_signing_authority : block_signing_authority;
  confirm_count : list Z
}.

Record schedule_info := mk_schedule_info {
  schedule_lib_num : Z;
  schedule_hash : sha256;
  schedule : producer_authority_schedule
}.

Record pending_block_header_state := mk_pending {
  pending_common : block_header_state_common;
  prev_activated_protocol_features : list sha256;
  prev_pending_schedule : schedule_info;
  was_pending_promoted : bool;
  previous : sha256;
  producer : Z;
  timestamp : Z;
  active_schedule_version : Z;
  confirmed : Z
}.

Record block_header_state := mk_block_header_state {
  common : block_header_state_common;
  id : sha256;
  header : signed_block_header;
  pending_schedule : schedule_info;
  activated_protocol_features : list sha256;
  additional_signatures : list signature;
  header_exts : list (Z * block_header_extension)
}.

Definition producer_repetitions : Z := 1.
Definition max_producers : Z := 102.
Definition maximum_tracked_dpos_confirmations : Z := 1024.

(** [detail::is_builtin_activated] *)
Definition is_builtin_activated (pfa : list sha256)
    (pfs : builtin_protocol_feature_t -> option sha256) (f : builtin_protocol_feature_t) : bool :=
  match pfs f with Some digest => bool_decide (digest ∈ pfa) | None => false end.

(** ** The scheduled producer *)

(** A modulus of zero and an index out of range are undefined. *)
Definition get_scheduled_producer (sched : producer_authority_schedule) (slot : Z) :
  outcome producer_authority :=
  let n := u64 (Z.of_nat (length (producers sched)) * producer_repetitions) in
  if n =? 0 then Err undefined_behaviour else
  let index := slot mod n in
  let index := index / producer_repetitions in
  match producers sched !! Z.to_nat index with
  | Some p => Ok p
  | None => Err undefined_behaviour
  end.

(** ** The irreversible block number *)

(** [std::nth_element] puts the element of rank [index] at its place. *)
Definition nth_smallest (index : nat) (l : list Z) : Z := merge_sort Z.le l !!! index.

Definition calc_dpos_last_irreversible (c : block_header_state_common) (producer_of_next_block : Z) : Z :=
  let blocknums :=
    map (fun i => if i.1 =? producer_of_next_block
                  then dpos_proposed_irreversible_blocknum c else i.2)
        (map_to_list (producer_to_last_implied_irb c)) in
  match blocknums with
  | [] => 0
  | _ => nth_smallest ((length blocknums - 1) / 3) blocknums
  end.

(** The confirmation counts with one for the new block; the oldest goes when
    there are as many as are tracked. *)
Definition grow_confirm_count (cc : list Z) (required_confs : Z) : list Z :=
  if Z.of_nat (length cc) <? maximum_tracked_dpos_confirmations
  then cc ++ [u8 required_confs]
  else drop 1 cc ++ [u8 required_confs].

(** The while loop from the last count down; [n] is [i + 1]. *)
Fixpoint confirm_loop (n : nat) (block_num_ : Z) (cc : list Z) (blocks_to_confirm proposed : Z) :
  list Z * Z :=
  match n with
  | O => (cc, proposed)
  | S i =>
      if blocks_to_confirm =? 0 then (cc, proposed) else
      let c := u8 (cc !!! i - 1) in
      let cc' := <[i := c]> cc in
      if c =? 0
      then (drop (S i) cc', u32 (block_num_ - u32 (Z.of_nat (length cc') - 1 - Z.of_nat i)))
      else confirm_loop i block_num_ cc' (u32 (blocks_to_confirm - 1)) proposed
  end.

(** The two loops that carry the entries of the producers of a promoted
    schedule over. *)
Definition carry_over (old : gmap Z Z) (name mine fresh : Z) (ps : list producer_authority) : gmap Z Z :=
  foldl (fun m p => <[producer_name p :=
           if producer_name p =? name then mine else default fresh (old !! producer_name p)]> m) ∅ ps.

(** ** [next]: the template of the next block *)

Definition next_slot (s : block_header_state) (when : Z) : outcome Z :=
  let ts := bh_timestamp (unsigned (header s)) in
  if negb (when =? 0)
  then ine_assert (when >? ts) (Throw block_validate_exception) ;; Ok when
  else Ok (u32 (ts + 1)).

Definition next_pending (hash : list Z -> sha256) (s : block_header_state)
    (when num_prev_blocks_to_confirm : Z) : outcome pending_block_header_state :=
  let c := common s in
  when ← next_slot s when;
  proauth ← get_scheduled_producer (active_schedule c) when;
  let name := producer_name proauth in
  match producer_to_last_produced c !! name with
  | Some last =>
      ine_assert (last <? u32 (u32 (block_num c + 1) - num_prev_blocks_to_confirm))
        (Throw producer_double_confirm)
  | None => Ok tt
  end ;;
  let number := u32 (block_num c + 1) in
  '(merkle, _) ← append (fun p => hash (sha256_bytes p.1 ++ sha256_bytes p.2)) (blockroot_merkle c) (id s);
  let required_confs := u32 (u32 (Z.of_nat (length (producers (active_schedule c))) * 2 / 3) + 1) in
  let cc := grow_confirm_count (confirm_count c) required_confs in
  let '(cc, proposed) :=
    confirm_loop (length cc) number cc (u32 (num_prev_blocks_to_confirm + 1))
      (dpos_proposed_irreversible_blocknum c) in
  let lib := calc_dpos_last_irreversible c name in
  let p := pending_schedule s in
  let promoted := negb (bool_decide (producers (schedule p) = [])) && (lib >=? schedule_lib_num p) in
  let sched := if promoted then schedule p else active_schedule c in
  let produced :=
    if promoted
    then <[name := number]>
           (carry_over (producer_to_last_produced c) name number lib (producers sched))
    else <[name := number]> (producer_to_last_produced c) in
  let implied :=
    if promoted
    then carry_over (producer_to_last_implied_irb c) name (dpos_proposed_irreversible_blocknum c) lib
           (producers sched)
    else <[name := dpos_proposed_irreversible_blocknum c]> (producer_to_last_implied_irb c) in
  Ok (mk_pending
        (mk_common number proposed lib sched merkle produced implied (pa_authority proauth) cc)
        (activated_protocol_features s) p promoted (id s) name when (version (active_schedule c))
        num_prev_blocks_to_confirm).

(** ** The header of a produced block *)

(** The loop that turns a schedule into one of the legacy form. *)
Fixpoint downgrade (ps : list producer_authority) : outcome (list producer_key) :=
  match ps with
  | [] => Ok []
  | p :: ps' =>
      match bsa_keys (pa_authority p) with
      | [kw] =>
          ine_assert (kw_weight kw =? bsa_threshold (pa_authority p)) (Throw producer_schedule_exception) ;;
          l ← downgrade ps';
          Ok (mk_producer_key (producer_name p) (kw_key kw) :: l)
      | _ => Err (Throw producer_schedule_exception)
      end
  end.

Definition default_signature : signature := SIG_K1 (repeat 0 65).

Definition make_block_header (pfs : builtin_protocol_feature_t -> option sha256)
    (p : pending_block_header_state) (transaction_mroot action_mroot : sha256)
    (new_producers : option producer_authority_schedule)
    (new_protocol_feature_activations : list sha256) : outcome signed_block_header :=
  exts ←
    (if bool_decide (0 < length new_protocol_feature_activations)%nat
     then data ← pack_vector (vector_codec sha256_codec) new_protocol_feature_activations;
          Ok (emplace_extension [] protocol_feature_activation_id data)
     else Ok []);
  '(legacy, exts) ←
    match new_producers with
    | None => Ok (None, exts)
    | Some np =>
        if is_builtin_activated (prev_activated_protocol_features p) pfs wtmsig_block_signatures
        then data ← pack_vector producer_authority_schedule_codec np;
             Ok (None, emplace_extension exts producer_schedule_change_extension_id data)
        else l ← downgrade (producers np);
             Ok (Some (mk_producer_schedule_type (version np) l), exts)
    end;
  Ok (mk_signed_block_header
        (mk_block_header (timestamp p) (producer p) (confirmed p) (previous p) transaction_mroot
           action_mroot (active_schedule_version p) legacy exts)
        default_signature).

(** ** Validation of a header against the template *)

(** The constructor of protocol_feature_activation_set: the union of the
    two sets, which has to be disjoint. *)
Definition protocol_feature_activation_set (orig additional : list sha256) : outcome (list sha256) :=
  let result := foldl (fun acc d => set_insert sha256_lt d acc) orig additional in
  ine_assert (bool_decide (length result = length orig + length additional)%nat)
    (Throw invalid_block_header_extension) ;;
  Ok result.

(** The checks common to both forms of a new schedule. *)
Definition check_new_schedule (p : pending_block_header_state) (new_version : Z) : outcome unit :=
  ine_assert (negb (was_pending_promoted p)) (Throw producer_schedule_exception) ;;
  ine_assert (new_version =? u32 (version (active_schedule (pending_common p)) + 1))
    (Throw producer_schedule_exception) ;;
  ine_assert (bool_decide (producers (schedule (prev_pending_schedule p)) = []))
    (Throw producer_schedule_exception).

Definition hash_packed {A} (hash : list Z -> sha256) (c : codec A) (a : A) : outcome sha256 :=
  ws ← pack c a; Ok (hash (concat ws)).

(** The schedule a header proposes and its hash: from the legacy member or
    from the extension. *)
Definition new_schedule (hash : list Z -> sha256) (wtmsig_enabled : bool)
    (p : pending_block_header_state) (h : block_header) (exts : list (Z * block_header_extension)) :
  outcome (option (producer_authority_schedule * sha256)) :=
  maybe ←
    match bh_new_producers h with
    | Some np =>
        ine_assert (negb wtmsig_enabled) (Throw producer_schedule_exception) ;;
        check_new_schedule p (pst_version np) ;;
        d ← hash_packed hash producer_schedule_type_codec np;
        Ok (Some (upconvert np, d))
    | None => Ok None
    end;
  match find_extension producer_schedule_change_extension_id exts with
  | Some ext =>
      ine_assert wtmsig_enabled (Throw producer_schedule_exception) ;;
      match ext with
      | producer_schedule_change_extension np =>
          check_new_schedule p (version np) ;;
          d ← hash_packed hash producer_authority_schedule_codec np;
          Ok (Some (np, d))
      | _ =>
          ine_assert (negb (was_pending_promoted p)) (Throw producer_schedule_exception) ;;
          Err fc_assert_exception
      end
  | None => Ok maybe
  end.

Section finish.
Context (hash : list Z -> sha256).
Context (recover : signature -> sha256 -> outcome public_key).
Context (pfs : builtin_protocol_feature_t -> option sha256).
Context (validator : Z -> list sha256 -> list sha256 -> outcome unit).

(** The activated features after a header.  The condition of the code reads
    [exts.count( extension_id() > 0 )], which is [exts.count( 0 )] because
    the extension id is 0. *)
Definition next_features (p : pending_block_header_state)
    (exts : list (Z * block_header_extension)) : outcome (list sha256) :=
  let key := if protocol_feature_activation_id >? 0 then 1 else 0 in
  match find_extension key exts with
  | Some _ =>
      match find_extension protocol_feature_activation_id exts with
      | Some (protocol_feature_activation new_protocol_features) =>
          validator (timestamp p) (prev_activated_protocol_features p) new_protocol_features ;;
          protocol_feature_activation_set (prev_activated_protocol_features p) new_protocol_features
      | _ => Err fc_assert_exception
      end
  | None => Ok (prev_activated_protocol_features p)
  end.

(** [_finish_next] *)
Definition finish_next_checked (p : pending_block_header_state) (h : signed_block_header) :
  outcome block_header_state :=
  let u := unsigned h in
  ine_assert (bh_timestamp u =? timestamp p) (Throw block_validate_exception) ;;
  ine_assert (bool_decide (bh_previous u = previous p)) (Throw unlinkable_block_exception) ;;
  ine_assert (bh_confirmed u =? confirmed p) (Throw block_validate_exception) ;;
  ine_assert (bh_producer u =? producer p) (Throw wrong_producer) ;;
  ine_assert (bh_schedule_version u =? active_schedule_version p) (Throw producer_schedule_exception) ;;
  exts ← validate_and_extract_header_extensions u;
  maybe ← new_schedule hash
            (is_builtin_activated (prev_activated_protocol_features p) pfs wtmsig_block_signatures)
            p u exts;
  features ← next_features p exts;
  i ← header_id hash u;
  let prev := prev_pending_schedule p in
  let info :=
    match maybe with
    | Some (sched, d) => mk_schedule_info (block_num (pending_common p)) d sched
    | None =>
        mk_schedule_info (schedule_lib_num prev) (schedule_hash prev)
          (if was_pending_promoted p
           then mk_producer_authority_schedule (version (schedule prev)) []
           else schedule prev)
    end in
  Ok (mk_block_header_state (pending_common p) i h info features [] exts).

(** ** Signatures *)

Definition sig_digest (s : block_header_state) : outcome sha256 :=
  d ← header_digest hash (unsigned (header s));
  let header_bmroot := hash (sha256_bytes d ++ sha256_bytes (get_root (blockroot_merkle (common s)))) in
  Ok (hash (sha256_bytes header_bmroot ++ sha256_bytes (schedule_hash (pending_schedule s)))).

(** The loop over the additional signatures; [keys] is the set of the keys
    recovered so far. *)
Fixpoint recover_each (digest : sha256) (sigs : list signature) (keys : list public_key) :
  outcome (list public_key) :=
  match sigs with
  | [] => Ok keys
  | s :: sigs' =>
      k ← recover s digest;
      ine_assert (negb (bool_decide (k ∈ keys))) (Throw wrong_signing_key) ;;
      recover_each digest sigs' (k :: keys)
  end.

Definition verify_signee (s : block_header_state) : outcome unit :=
  let auth := valid_block_signing_authority (common s) in
  let num_keys_in_authority := length (bsa_keys auth) in
  ine_assert (bool_decide (1 + length (additional_signatures s) <= num_keys_in_authority)%nat)
    (Throw wrong_signing_key) ;;
  digest ← sig_digest s;
  k ← recover (producer_signature (header s)) digest;
  keys ← recover_each digest (additional_signatures s) [k];
  let '(is_satisfied, relevant_sig_count) := keys_satisfy_and_relevant keys auth in
  ine_assert (relevant_sig_count =? Z.of_nat (length keys)) (Throw wrong_signing_key) ;;
  ine_assert is_satisfied (Throw wrong_signing_key).

Definition with_signatures (s : block_header_state) (sig : signature) (additional : list signature) :
  block_header_state :=
  mk_block_header_state (common s) (id s) (mk_signed_block_header (unsigned (header s)) sig)
    (pending_schedule s) (activated_protocol_features s) additional (header_exts s).

Definition sign (signer : sha256 -> outcome (list signature)) (s : block_header_state) :
  outcome block_header_state :=
  d ← sig_digest s;
  sigs ← signer d;
  match back sigs with
  | None => Err (Throw no_block_signatures)
  | Some sig =>
      let s' := with_signatures s sig (take (length sigs - 1) sigs) in
      verify_signee s' ;; Ok s'
  end.

(** ** [finish_next] and [next] *)

(** The overload for a received header. *)
Definition finish_next (p : pending_block_header_state) (h : signed_block_header)
    (additional : list signature) (skip_validate_signee : bool) : outcome block_header_state :=
  ine_assert (bool_decide (additional = []) ||
              is_builtin_activated (prev_activated_protocol_features p) pfs wtmsig_block_signatures)
    (Throw producer_schedule_exception) ;;
  result ← finish_next_checked p h;
  let result :=
    if bool_decide (additional = []) then result
    else with_signatures result (producer_signature (header result)) additional in
  (if skip_validate_signee then Ok tt else verify_signee result) ;;
  Ok result.

(** The overload that signs; the header is an in-out argument. *)
Definition finish_next_signed (p : pending_block_header_state) (h : signed_block_header)
    (signer : sha256 -> outcome (list signature)) : outcome (block_header_state * signed_block_header) :=
  result ← finish_next_checked p h;
  result ← sign signer result;
  let h' := mk_signed_block_header (unsigned h) (producer_signature (header result)) in
  ine_assert (bool_decide (additional_signatures result = []) ||
              is_builtin_activated (prev_activated_protocol_features p) pfs wtmsig_block_signatures)
    (Throw producer_schedule_exception) ;;
  Ok (result, h').

Definition next (s : block_header_state) (h : signed_block_header) (additional : list signature)
    (skip_validate_signee : bool) : outcome block_header_state :=
  p ← next_pending hash s (bh_timestamp (unsigned h)) (bh_confirmed (unsigned h));
  finish_next p h additional skip_validate_signee.

Definition get_new_protocol_feature_activations (s : block_header_state) : outcome (list sha256) :=
  match find_extension protocol_feature_activation_id (header_exts s) with
  | None => Ok []
  | Some (protocol_feature_activation l) => Ok l
  | Some _ => Err fc_assert_exception
  end.

End finish.

(** ** The irreversible number is a two-thirds quorum *)

Definition at_least (v : Z) (l : list Z) : list Z := filter (fun x => v <= x) l.

Lemma at_least_all v l : Forall (fun x => v <= x) l -> at_least v l = l.
Proof.
  unfold at_least. induction 1 as [|x l Hx Hl IH]; [done|]. by rewrite filter_cons_True, IH.
Qed.

(** In a sorted list the elements not below [v] are the last ones. *)
Lemma sorted_rank (l : list Z) i v :
  StronglySorted Z.le l -> (i < length l)%nat ->
  v <= l !!! i <-> (length l <= length (at_least v l) + i)%nat.
Proof.
  intros Hs. revert i.
  induction Hs as [|x l Hs IH Hx]; intros i Hi; simpl in Hi; [lia|].
  unfold at_least. rewrite filter_cons. fold (at_least v l). destruct (decide (v <= x)) as [Hv|Hv]; simpl.
  - rewrite at_least_all by (eapply List.Forall_impl; [|exact Hx]; simpl; lia).
    split; [intros _; lia|]. intros _. destruct i as [|i]; [done|].
    assert (l !! i = Some (l !!! i)) as Hl by (apply list_lookup_lookup_total_lt; lia).
    pose proof (proj1 (list.Forall_forall _ _) Hx _ (list_elem_of_lookup_2 _ _ _ Hl)). simpl. lia.
  - destruct i as [|i]; simpl.
    + pose proof (length_filter (fun x => v <= x) l). fold (at_least v l) in *. lia.
    + rewrite IH by lia. lia.
Qed.

(** The blocknums of [calc_dpos_last_irreversible]. *)
Definition implied_numbers (c : block_header_state_common) (q : Z) : list Z :=
  map (fun i => if i.1 =? q then dpos_proposed_irreversible_blocknum c else i.2)
      (map_to_list (producer_to_last_implied_irb c)).

(** More than two thirds of the numbers are at least [v]. *)
Definition quorum (l : list Z) (v : Z) : Prop :=
  (2 * length l < 3 * length (at_least v l))%nat.

Lemma nth_smallest_quorum l v :
  l <> [] -> v <= nth_smallest ((length l - 1) / 3) l <-> quorum l v.
Proof.
  intros Hl. unfold nth_smallest, quorum.
  pose proof (merge_sort_Permutation Z.le l) as Hp.
  assert (length l <> 0%nat) as Hn by (by destruct l).
  assert (length (at_least v (merge_sort Z.le l)) = length (at_least v l)) as Hf
    by by unfold at_least; rewrite Hp.
  assert (length (merge_sort Z.le l) = length l) as Hlen by by rewrite Hp.
  assert (StronglySorted Z.le (merge_sort Z.le l)) as Hs.
  { apply StronglySorted_merge_sort; apply _. }
  rewrite sorted_rank by (try done; rewrite Hlen; apply Nat.Div0.div_lt_upper_bound; lia).
  rewrite Hf, Hlen. pose proof (Nat.div_mod (length l - 1) 3 ltac:(lia)).
  pose proof (Nat.mod_upper_bound (length l - 1) 3 ltac:(lia)). lia.
Qed.

Lemma calc_dpos_quorum c q v :
  producer_to_last_implied_irb c <> ∅ ->
  v <= calc_dpos_last_irreversible c q <-> quorum (implied_numbers c q) v.
Proof.
  intros Hne. unfold calc_dpos_last_irreversible. fold (implied_numbers c q).
  assert (implied_numbers c q <> []) as Hl.
  { intros H. apply map_eq_nil, map_to_list_empty_iff in H. done. }
  rewrite <- nth_smallest_quorum by done. by destruct (implied_numbers c q).
Qed.

Lemma calc_dpos_empty c q : producer_to_last_implied_irb c = ∅ -> calc_dpos_last_irreversible c q = 0.
Proof. intros H. unfold calc_dpos_last_irreversible. by rewrite H, map_to_list_empty. Qed.

(** ** The invariant of the confirmation counts and numbers *)

Definition counts_ok (cc : list Z) : Prop :=
  Forall (fun x => 0 < x < 256) cc /\ Z.of_nat (length cc) <= maximum_tracked_dpos_confirmations.

(** No count is zero; the counts are those of blocks after the proposed
    irreversible one; the numbers implied by the producers, and the
    irreversible number, are at most the proposed one. *)
Record common_inv (c : block_header_state_common) : Prop := {
  ci_num : is_uint 32 (block_num c);
  ci_lib : 0 <= dpos_irreversible_blocknum c <= dpos_proposed_irreversible_blocknum c;
  ci_counts : counts_ok (confirm_count c);
  ci_window : dpos_proposed_irreversible_blocknum c + Z.of_nat (length (confirm_count c)) <= block_num c;
  ci_implied x v : producer_to_last_implied_irb c !! x = Some v ->
    0 <= v <= dpos_proposed_irreversible_blocknum c;
  ci_schedule : 0 < Z.of_nat (length (producers (active_schedule c))) <= max_producers
}.

Lemma confirm_loop_inv n bn cc btc proposed :
  (n <= length cc)%nat -> Forall (fun x => 0 < x < 256) cc ->
  0 <= proposed -> proposed + Z.of_nat (length cc) <= bn -> bn < 2 ^ 32 ->
  let r := confirm_loop n bn cc btc proposed in
  Forall (fun x => 0 < x < 256) r.1 /\ (length r.1 <= length cc)%nat /\
  proposed <= r.2 /\ r.2 + Z.of_nat (length r.1) <= bn.
Proof.
  revert cc btc. induction n as [|i IH]; intros cc btc Hn Hcc Hp Hw Hbn; cbn [confirm_loop]; [done|].
  destruct (btc =? 0); [done|].
  assert (cc !! i = Some (cc !!! i)) as Hi by (apply list_lookup_lookup_total_lt; lia).
  assert (0 < cc !!! i < 256) as Hr by by apply (proj1 (list.Forall_forall _ cc) Hcc), (list_elem_of_lookup_2 _ i).
  rewrite (wrap_id 8) by (unfold is_uint; lia).
  destruct (Z.eqb_spec (cc !!! i - 1) 0) as [E|E]; cbn [fst snd].
  - rewrite length_insert, length_drop, length_insert.
    rewrite (wrap_id 32 (Z.of_nat (length cc) - 1 - Z.of_nat i)) by (unfold is_uint; lia).
    rewrite (wrap_id 32) by (unfold is_uint; lia).
    split_and!; [|lia|lia|lia]. apply Forall_lookup. intros k x.
    rewrite lookup_drop, list_lookup_insert_ne by lia. exact (Forall_lookup_1 _ _ _ _ Hcc).
  - destruct (IH (<[i := cc !!! i - 1]> cc) (u32 (btc - 1))) as (H1 & H2 & H3 & H4);
      rewrite ?length_insert in *; try lia; [|done].
    apply Forall_insert; [done|lia].
Qed.

Lemma grow_inv cc req :
  counts_ok cc -> 0 < req < 256 ->
  counts_ok (grow_confirm_count cc req) /\
  (length (grow_confirm_count cc req) <= S (length cc))%nat.
Proof.
  intros [Hf Hl] Hr. unfold grow_confirm_count, counts_ok. rewrite (wrap_id 8) by (unfold is_uint; lia).
  unfold maximum_tracked_dpos_confirmations in *.
  destruct (Z.ltb_spec (Z.of_nat (length cc)) 1024); rewrite length_app, ?length_drop; simpl;
    (split; [split; [|lia]|lia]); apply Forall_app; (split; [|by constructor; [|constructor]]); [done|].
  by apply Forall_drop.
Qed.

(** Every entry that is carried over is one of three numbers. *)
Lemma carry_over_values old name mine fresh ps x v :
  carry_over old name mine fresh ps !! x = Some v -> v = mine \/ v = fresh \/ old !! x = Some v.
Proof.
  unfold carry_over. assert (forall m : gmap Z Z, (forall y w, m !! y = Some w -> w = mine \/ w = fresh \/ old !! y = Some w) ->
    forall y w, foldl (fun m p => <[producer_name p := if producer_name p =? name then mine
      else default fresh (old !! producer_name p)]> m) m ps !! y = Some w ->
      w = mine \/ w = fresh \/ old !! y = Some w) as H.
  { induction ps as [|p ps IH]; intros m Hm y w; [apply Hm|]. cbn [foldl]. apply IH.
    intros z u. rewrite lookup_insert_Some. intros [[<- <-]|[_ Hz]]; [|by apply Hm].
    destruct (_ =? name); [auto|]. destruct (old !! producer_name p) eqn:E; simpl; auto. }
  apply H. intros y w. by rewrite lookup_empty.
Qed.

(** The irreversible number is one of the implied ones, or zero. *)
Lemma calc_dpos_range c q :
  common_inv c -> 0 <= calc_dpos_last_irreversible c q <= dpos_proposed_irreversible_blocknum c.
Proof.
  intros Hc. pose proof (ci_lib _ Hc) as Hl.
  destruct (decide (producer_to_last_implied_irb c = ∅)) as [E|E]; [rewrite calc_dpos_empty by done; lia|].
  assert (forall x, x ∈ implied_numbers c q -> 0 <= x <= dpos_proposed_irreversible_blocknum c) as Hr.
  { intros x ([k v] & -> & Hkv%elem_of_map_to_list)%list_elem_of_fmap. simpl.
    destruct (k =? q); [lia|]. by apply (ci_implied _ Hc k). }
  assert (quorum (implied_numbers c q) (calc_dpos_last_irreversible c q)) as Hq
    by (apply calc_dpos_quorum; [done|lia]).
  assert (quorum (implied_numbers c q) 0) as H0.
  { unfold quorum. rewrite at_least_all; [unfold quorum in Hq|].
    - pose proof (length_filter (fun x => calc_dpos_last_irreversible c q <= x) (implied_numbers c q)).
      unfold at_least in Hq. lia.
    - apply list.Forall_forall. intros x Hx. apply Hr in Hx. lia. }
  split; [by apply calc_dpos_quorum|].
  destruct (at_least (calc_dpos_last_irreversible c q) (implied_numbers c q)) as [|x l] eqn:El.
  { unfold quorum in Hq. rewrite El in Hq. simpl in Hq. lia. }
  assert (x ∈ at_least (calc_dpos_last_irreversible c q) (implied_numbers c q)) as Hx by (rewrite El; set_solver).
  apply list_elem_of_filter in Hx as [Hx1 Hx2]. apply Hr in Hx2. lia.
Qed.

(** ** What the template is *)

Section next_template.
Context (hash : list Z -> sha256) (s : block_header_state) (when num : Z) (p : pending_block_header_state).
Hypothesis Hnext : next_pending hash s when num = Ok p.
Let c := common s.
Let r := pending_common p.
Let name := producer p.

Lemma next_pending_inversion :
  exists slot proauth merkle root,
    next_slot s when = Ok slot /\ get_scheduled_producer (active_schedule c) slot = Ok proauth /\
    (forall last, producer_to_last_produced c !! producer_name proauth = Some last ->
       last < u32 (u32 (block_num c + 1) - num)) /\
    append (fun p => hash (sha256_bytes p.1 ++ sha256_bytes p.2)) (blockroot_merkle c) (id s)
      = Ok (merkle, root) /\
    let number := u32 (block_num c + 1) in
    let cc := grow_confirm_count (confirm_count c)
                (u32 (u32 (Z.of_nat (length (producers (active_schedule c))) * 2 / 3) + 1)) in
    let counts := confirm_loop (length cc) number cc (u32 (num + 1))
                    (dpos_proposed_irreversible_blocknum c) in
    let name := producer_name proauth in
    let lib := calc_dpos_last_irreversible c name in
    let q := pending_schedule s in
    let promoted := negb (bool_decide (producers (schedule q) = [])) && (lib >=? schedule_lib_num q) in
    let sched := if promoted then schedule q else active_schedule c in
    p = mk_pending
          (mk_common number counts.2 lib sched merkle
             (if promoted
              then <[name := number]> (carry_over (producer_to_last_produced c) name number lib (producers sched))
              else <[name := number]> (producer_to_last_produced c))
             (if promoted
              then carry_over (producer_to_last_implied_irb c) name
                     (dpos_proposed_irreversible_blocknum c) lib (producers sched)
              else <[name := dpos_proposed_irreversible_blocknum c]> (producer_to_last_implied_irb c))
             (pa_authority proauth) counts.1)
          (activated_protocol_features s) q promoted (id s) name slot (version (active_schedule c)) num.
Proof.
  unfold next_pending in Hnext. fold c in Hnext.
  apply bind_ok in Hnext as (slot & Hslot & H). apply bind_ok in H as (proauth & Hpro & H).
  apply bind_ok in H as ([] & Hlast & H). apply bind_ok in H as ([merkle root] & Hm & H).
  exists slot, proauth, merkle, root. split_and!; [done|done| |done|].
  - intros last Hl. rewrite Hl in Hlast. apply ine_assert_ok in Hlast. by apply Z.ltb_lt.
  - cbv zeta. destruct (confirm_loop _ _ _ _ _) as [cc proposed]. by injection H as <-.
Qed.

(** The basic members. *)
Lemma next_pending_members :
  block_num r = u32 (block_num c + 1) /\ previous p = id s /\ confirmed p = num /\
  dpos_irreversible_blocknum r = calc_dpos_last_irreversible c name /\
  producer_to_last_produced r !! name = Some (block_num r) /\
  prev_activated_protocol_features p = activated_protocol_features s /\
  prev_pending_schedule p = pending_schedule s /\
  active_schedule_version p = version (active_schedule c).
Proof.
  destruct next_pending_inversion as (slot & pa & m & rt & _ & _ & _ & _ & E). unfold r, name.
  cbv zeta in E. rewrite E. cbn. split_and!; try done.
  destruct (_ && _); by rewrite lookup_insert_eq.
Qed.

(** The invariant holds for the template. *)
Lemma next_pending_inv :
  common_inv c -> Z.of_nat (length (producers (schedule (pending_schedule s)))) <= max_producers ->
  block_num c + 1 < 2 ^ 32 ->
  common_inv r.
Proof.
  intros Hc Hpend Hover. pose proof Hc as [Hn Hl Hcc Hw Hi Hs].
  destruct next_pending_inversion as (slot & pa & m & rt & _ & _ & _ & _ & E). unfold r.
  cbv zeta in E. unfold is_uint in Hn. rewrite (wrap_id 32 (block_num c + 1)) in E by (unfold is_uint; lia).
  set (req := u32 _) in E. assert (0 < req < 256) as Hreq.
  { unfold max_producers in Hs. unfold req. rewrite (wrap_id 32 (_ / 3)).
    - assert (0 <= Z.of_nat (length (producers (active_schedule c))) * 2 / 3 <= 68).
      { split; [apply Z.div_pos; lia|]. apply Z.lt_succ_r, Z.div_lt_upper_bound; lia. }
      rewrite (wrap_id 32); unfold is_uint; lia.
    - split; [apply Z.div_pos; lia|]. apply Z.div_lt_upper_bound; lia. }
  destruct (grow_inv (confirm_count c) req Hcc Hreq) as [[Hg1 Hg2] Hg3].
  set (cc := grow_confirm_count _ _) in *.
  destruct (confirm_loop_inv (length cc) (block_num c + 1) cc (u32 (num + 1))
              (dpos_proposed_irreversible_blocknum c)) as (Hl1 & Hl2 & Hl3 & Hl4);
    [done|done|lia|lia|lia|].
  set (counts := confirm_loop _ _ _ _ _) in *.
  pose proof (calc_dpos_range c (producer_name pa) Hc) as Hlib.
  set (lib := calc_dpos_last_irreversible _ _) in *. set (promoted := _ && _) in E.
  rewrite E. split; cbn.
  - unfold is_uint. lia.
  - lia.
  - split; [done|lia].
  - lia.
  - intros x v Hx. destruct promoted.
    + apply carry_over_values in Hx as [->|[->|Hx]]; [lia|lia|]. specialize (Hi x v Hx). lia.
    + apply lookup_insert_Some in Hx as [[_ <-]|[_ Hx]]; [lia|]. specialize (Hi x v Hx). lia.
  - destruct promoted eqn:Ep; [|done]. split; [|done].
    apply andb_prop in Ep as [Ep _]. apply negb_true_iff, bool_decide_eq_false in Ep.
    destruct (producers _); [done|simpl; lia].
Qed.

End next_template.

(** ** Chains of header states *)

Section chain.
Context (hash : list Z -> sha256).
Context (recover : signature -> sha256 -> outcome public_key).
Context (pfs : builtin_protocol_feature_t -> option sha256).
Context (validator : Z -> list sha256 -> list sha256 -> outcome unit).

(** [s'] is the state of a received or of a produced block on [s].  The
    number does not overflow, and the pending schedule is within the limit
    that is enforced where schedules are proposed. *)
Inductive extends : block_header_state -> block_header_state -> Prop :=
  | extends_received s h sigs skip s' :
      next hash recover pfs validator s h sigs skip = Ok s' ->
      block_num (common s) + 1 < 2 ^ 32 ->
      Z.of_nat (length (producers (schedule (pending_schedule s')))) <= max_producers ->
      extends s s'
  | extends_produced s when num p h signer s' h' :
      next_pending hash s when num = Ok p ->
      finish_next_signed hash recover pfs validator p h signer = Ok (s', h') ->
      block_num (common s) + 1 < 2 ^ 32 ->
      Z.of_nat (length (producers (schedule (pending_schedule s')))) <= max_producers ->
      extends s s'.

Record state_inv (s : block_header_state) : Prop := {
  si_common : common_inv (common s);
  si_pending : Z.of_nat (length (producers (schedule (pending_schedule s)))) <= max_producers;
  si_number : block_num (common s) = num_from_id (id s)
}.

(** The state keeps the template, and links to the previous block. *)
Definition continues (p : pending_block_header_state) (s' : block_header_state) : Prop :=
  common s' = pending_common p /\ bh_previous (unsigned (header s')) = previous p /\
  header_id hash (unsigned (header s')) = Ok (id s').

Lemma finish_checked_continues p h s' :
  finish_next_checked hash pfs validator p h = Ok s' -> continues p s' /\ header s' = h.
Proof.
  unfold finish_next_checked. intros H.
  apply bind_ok in H as (? & _ & H). apply bind_ok in H as (? & Hp & H).
  do 3 apply bind_ok in H as (? & _ & H). do 3 apply bind_ok in H as (? & _ & H).
  apply bind_ok in H as (i & Hi & [= <-]). apply ine_assert_ok, bool_decide_eq_true in Hp. done.
Qed.

Lemma with_signatures_continues p s sig sigs : continues p s -> continues p (with_signatures s sig sigs).
Proof. done. Qed.

Lemma finish_next_continues p h sigs skip s' :
  finish_next hash recover pfs validator p h sigs skip = Ok s' -> continues p s'.
Proof.
  unfold finish_next. intros H. apply bind_ok in H as (? & _ & H).
  apply bind_ok in H as (r & Hr & H). apply bind_ok in H as (? & _ & [= <-]).
  apply finish_checked_continues in Hr as [Hr _].
  case_bool_decide; [done|by apply with_signatures_continues].
Qed.

Lemma finish_next_signed_continues p h signer s' h' :
  finish_next_signed hash recover pfs validator p h signer = Ok (s', h') -> continues p s'.
Proof.
  unfold finish_next_signed. intros H. apply bind_ok in H as (r & Hr & H).
  apply bind_ok in H as (r' & Hs & H). apply bind_ok in H as (? & _ & [= <- _]).
  apply finish_checked_continues in Hr as [Hr _]. unfold sign in Hs.
  apply bind_ok in Hs as (d & _ & Hs). apply bind_ok in Hs as (sigs & _ & Hs).
  destruct (back sigs); [|done]. apply bind_ok in Hs as (? & _ & [= <-]).
  by apply with_signatures_continues.
Qed.

Lemma extends_template s s' :
  extends s s' -> exists when num p, next_pending hash s when num = Ok p /\ continues p s' /\
    block_num (common s) + 1 < 2 ^ 32 /\
    Z.of_nat (length (producers (schedule (pending_schedule s')))) <= max_producers.
Proof.
  intros [s1 h sigs skip s2 H Hn Hl|s1 when num p h signer s2 h' Hp H Hn Hl].
  - unfold next in H. apply bind_ok in H as (p & Hp & H). do 3 eexists.
    split_and!; [done|by eapply finish_next_continues|done|done].
  - do 3 eexists. split_and!; [done|by eapply finish_next_signed_continues|done|done].
Qed.

Lemma extends_inv s s' :
  state_inv s -> extends s s' ->
  state_inv s' /\ block_num (common s') = block_num (common s) + 1 /\
  bh_previous (unsigned (header s')) = id s.
Proof.
  intros [Hc Hpend Hnum] H. apply extends_template in H as (when & num & p & Hp & (Ec & Eprev & Eid) & Hn & Hl).
  destruct (next_pending_members _ _ _ _ _ Hp) as (Hbn & Hprev & _).
  pose proof (ci_num _ Hc) as Hu. unfold is_uint in Hu.
  rewrite (wrap_id 32) in Hbn by (unfold is_uint; lia).
  split_and!.
  - split; [|done|].
    + rewrite Ec. by eapply next_pending_inv.
    + rewrite Ec, Hbn. apply header_id_num in Eid. rewrite Eid. unfold header_block_num.
      rewrite Eprev, Hprev, <- Hnum, (wrap_id 32) by (unfold is_uint; lia). done.
  - by rewrite Ec.
  - by rewrite Eprev.
Qed.
End chain.

(** ** Monotonicity of the irreversible number *)

(** The numbers of the producers support the irreversible number: more than
    two thirds of them are at least it. *)
Definition supported (c : block_header_state_common) : Prop :=
  producer_to_last_implied_irb c <> ∅ ->
  quorum (map snd (map_to_list (producer_to_last_implied_irb c))) (dpos_irreversible_blocknum c).

Lemma at_least_cons v x l : at_least v (x :: l) = if decide (v <= x) then x :: at_least v l else at_least v l.
Proof. apply filter_cons. Qed.

(** Raising numbers keeps a quorum. *)
Lemma quorum_mono {A} (f g : A -> Z) (l : list A) v :
  (forall a, a ∈ l -> f a <= g a) -> quorum (map f l) v -> quorum (map g l) v.
Proof.
  unfold quorum. rewrite !length_map. intros Hfg Hq.
  assert (length (at_least v (map f l)) <= length (at_least v (map g l)))%nat; [|lia]. clear Hq.
  induction l as [|a l IH]; [done|]. cbn [map]. rewrite !at_least_cons.
  specialize (IH ltac:(set_solver)). specialize (Hfg a ltac:(set_solver)).
  destruct (decide (v <= f a)), (decide (v <= g a)); simpl; lia.
Qed.

Lemma quorum_permutation l l' v : l ≡ₚ l' -> quorum l v -> quorum l' v.
Proof. intros Hp. unfold quorum, at_least. by rewrite Hp. Qed.

(** One more number that is at least [v]. *)
Lemma quorum_cons v x l : v <= x -> (l <> [] -> quorum l v) -> quorum (x :: l) v.
Proof.
  unfold quorum. intros Hx Hl. rewrite at_least_cons, decide_True by done. simpl.
  destruct l as [|y l]; [simpl; lia|]. specialize (Hl ltac:(done)). simpl in *. lia.
Qed.

(** The numbers after the producer's entry was set. *)
Lemma implied_insert c q :
  map snd (map_to_list (<[q := dpos_proposed_irreversible_blocknum c]> (producer_to_last_implied_irb c))) ≡ₚ
  if decide (is_Some (producer_to_last_implied_irb c !! q)) then implied_numbers c q
  else dpos_proposed_irreversible_blocknum c :: implied_numbers c q.
Proof.
  unfold implied_numbers. set (m := producer_to_last_implied_irb c).
  set (v := dpos_proposed_irreversible_blocknum c).
  assert (forall m' : gmap Z Z, m' !! q = None ->
    map (fun i => if i.1 =? q then v else i.2) (map_to_list m') = map snd (map_to_list m')) as Hno.
  { intros m' Hm'. apply list_fmap_ext. intros i [k w] Hi. simpl.
    apply list_elem_of_lookup_2, elem_of_map_to_list in Hi. destruct (Z.eqb_spec k q) as [->|]; [congruence|done]. }
  destruct (decide (is_Some (m !! q))) as [[w Hw]|Hn].
  - rewrite <- (insert_delete_id m q w Hw) at 2. rewrite <- (insert_delete_eq m).
    rewrite !map_to_list_insert by apply lookup_delete_eq. cbn [map fst snd]. rewrite Z.eqb_refl.
    by rewrite Hno by apply lookup_delete_eq.
  - apply eq_None_not_Some in Hn. rewrite map_to_list_insert by done. cbn [map snd].
    by rewrite Hno.
Qed.

Lemma next_lib_supported hash s when num p :
  next_pending hash s when num = Ok p -> common_inv (common s) -> supported (common s) ->
  (producer_to_last_implied_irb (common s) <> ∅ ->
   dpos_irreversible_blocknum (common s) <= dpos_irreversible_blocknum (pending_common p)) /\
  (was_pending_promoted p = false -> supported (pending_common p)).
Proof.
  intros Hp Hc Hs. destruct (next_pending_members _ _ _ _ _ Hp) as (_ & _ & _ & Hlib & _).
  destruct (next_pending_inversion _ _ _ _ _ Hp) as (slot & pa & m & rt & _ & _ & _ & _ & E).
  cbv zeta in E. set (c := common s) in *. split.
  - intros Hne. rewrite Hlib. apply calc_dpos_quorum; [done|].
    eapply (quorum_mono snd); [|by apply Hs]. intros [k v] Hkv%elem_of_map_to_list. simpl.
    destruct (k =? _); [|done]. by apply (ci_implied _ Hc k).
  - intros Hpr _. rewrite Hlib. rewrite E in Hpr. cbn in Hpr. rewrite E.
    cbn. rewrite Hpr. cbn. set (q := producer_name pa).
    eapply quorum_permutation; [symmetry; apply implied_insert|].
    pose proof (calc_dpos_range c q Hc) as Hr.
    destruct (decide (is_Some _)) as [[w Hw]|Hn].
    + apply calc_dpos_quorum; [|done]. intros He. by rewrite He, lookup_empty in Hw.
    + apply quorum_cons; [lia|]. intros Hne. apply calc_dpos_quorum; [|done].
      intros He. apply Hne. unfold implied_numbers. by rewrite He, map_to_list_empty.
Qed.

(** ** Signatures *)

Section signatures.
Context (hash : list Z -> sha256).
Context (recover : signature -> sha256 -> outcome public_key).

Lemma recover_each_spec d sigs acc r :
  NoDup acc ->
  recover_each recover d sigs acc = Ok r <->
  exists ks, Forall2 (fun s k => recover s d = Ok k) sigs ks /\ r = reverse ks ++ acc /\ NoDup r.
Proof.
  revert acc. induction sigs as [|s sigs IH]; intros acc Hacc; cbn [recover_each].
  { split; [intros [= <-]; by exists []|]. intros (ks & Hf & -> & _). by inversion Hf. }
  split.
  - intros H. apply bind_ok in H as (k & Hk & H).
    apply bind_ok in H as (? & Hn%ine_assert_ok%negb_true_iff%bool_decide_eq_false & H).
    apply IH in H as (ks & Hf & -> & Hnd); [|by apply list.NoDup_cons].
    exists (k :: ks). split_and!; [by constructor| |done]. by rewrite reverse_cons, <- app_assoc.
  - intros (ks & Hf & -> & Hnd). inversion Hf as [|? k ? ks' Hk Hf']; subst. rewrite Hk.
    cbn [mbind result_bind]. rewrite reverse_cons, <- app_assoc in *. simpl in *.
    pose proof Hnd as Hnd'. apply list.NoDup_app in Hnd' as (_ & _ & Hnd'%list.NoDup_cons).
    rewrite bool_decide_false by tauto. cbn [negb ine_assert mbind result_bind].
    apply IH; [by apply list.NoDup_cons|]. by exists ks'.
Qed.

(** All keys count exactly if all are in the authority. *)
Lemma relevant_all (a : block_signing_authority) ks :
  NoDup (map kw_key (bsa_keys a)) -> NoDup ks ->
  length (presented_keys_of a ks) = length ks <-> forall k, k ∈ ks -> k ∈ map kw_key (bsa_keys a).
Proof.
  intros Ha Hks. set (pk := map kw_key (presented_keys_of a ks)).
  assert (length (presented_keys_of a ks) = length pk) as -> by (unfold pk; by rewrite length_map).
  assert (NoDup pk) as Hpk.
  { unfold pk, presented_keys_of. clear -Ha. induction (bsa_keys a) as [|kw l IH]; [constructor|].
    simpl in Ha. apply list.NoDup_cons in Ha as [Hn Hl]. rewrite filter_cons. case_decide; [|auto].
    simpl. apply list.NoDup_cons. split; [|auto]. intros (x & E & Hx)%list_elem_of_fmap.
    apply list_elem_of_filter in Hx as [_ Hx]. apply Hn. apply list_elem_of_fmap. eauto. }
  assert (forall k, k ∈ pk <-> k ∈ ks /\ k ∈ map kw_key (bsa_keys a)) as Hel.
  { intros k. unfold pk, presented_keys_of. rewrite !list_elem_of_fmap. split.
    - intros (x & -> & [Hx1 Hx2]%list_elem_of_filter). eauto.
    - intros [Hk (x & -> & Hx)]. exists x. split; [done|]. by apply list_elem_of_filter. }
  assert (pk ⊆ ks) as Hsub by (intros k; rewrite Hel; tauto).
  assert (length pk <= length ks)%nat as Hle by (by apply submseteq_length, NoDup_submseteq).
  split.
  - intros Hlen k Hk. assert (k ∈ pk) as Hkp; [|by apply Hel in Hkp as [_ ?]].
    assert (pk ≡ₚ ks) as ->; [|done].
    apply submseteq_length_Permutation; [by apply NoDup_submseteq|lia].
  - intros Hall. apply Nat.le_antisymm; [done|]. apply submseteq_length, NoDup_submseteq; [done|].
    intros k Hk. apply Hel. auto.
Qed.

(** C32: the signatures of a block are accepted exactly if the keys recovered
    from them are different from each other, all belong to the block signing
    authority, and their weights reach its threshold. *)
Theorem verify_signee_exact s :
  let auth := valid_block_signing_authority (common s) in
  signing_authority_typed auth -> NoDup (map kw_key (bsa_keys auth)) ->
  verify_signee hash recover s = Ok tt <->
  exists d ks, sig_digest hash s = Ok d /\
    Forall2 (fun g k => recover g d = Ok k)
      (producer_signature (header s) :: additional_signatures s) ks /\
    NoDup ks /\ (forall k, k ∈ ks -> k ∈ map kw_key (bsa_keys auth)) /\
    bsa_threshold auth <= weight_sum (presented_keys_of auth ks).
Proof.
  intros auth Ht Hnd. unfold verify_signee. fold auth. split.
  - intros H. apply bind_ok in H as (? & _ & H). apply bind_ok in H as (d & Hd & H).
    apply bind_ok in H as (k & Hk & H). apply bind_ok in H as (r & Hr & H).
    apply recover_each_spec in Hr as (ks & Hf & -> & Hr); [|apply NoDup_singleton].
    rewrite keys_satisfy_spec in H by done.
    apply bind_ok in H as (? & Hc%ine_assert_ok%Z.eqb_eq & Hs%ine_assert_ok%bool_decide_eq_true).
    assert (k :: ks ≡ₚ reverse ks ++ [k]) as Hp by (rewrite reverse_Permutation; apply Permutation_cons_append).
    exists d, (k :: ks). split_and!; [done|by constructor|by rewrite Hp| |].
    + intros y. rewrite Hp. apply relevant_all; [done|done|]. lia.
    + by rewrite (presented_permutation _ _ _ Hp).
  - intros (d & ks & Hd & Hf & Hks & Hall & Hw). inversion Hf as [|? k ? ks' Hk Hf']; subst.
    assert (k :: ks' ≡ₚ reverse ks' ++ [k]) as Hp by (rewrite reverse_Permutation; apply Permutation_cons_append).
    rewrite bool_decide_true.
    2: { rewrite (Forall2_length Hf'). change (1 + length ks')%nat with (length (k :: ks')).
         rewrite <- (length_map kw_key). apply submseteq_length, NoDup_submseteq; done. }
    cbn [ine_assert mbind result_bind]. rewrite Hd. cbn [mbind result_bind]. rewrite Hk.
    cbn [mbind result_bind].
    assert (recover_each recover d (additional_signatures s) [k] = Ok (reverse ks' ++ [k])) as ->.
    { apply recover_each_spec; [apply NoDup_singleton|]. exists ks'. split_and!; [done|done|by rewrite <- Hp]. }
    cbn [mbind result_bind]. rewrite keys_satisfy_spec by done. rewrite <- (presented_permutation _ _ _ Hp).
    assert (length (presented_keys_of auth (k :: ks')) = length (k :: ks')) as -> by by apply relevant_all.
    rewrite Hp, Z.eqb_refl, bool_decide_true by done. done.
Qed.
End signatures.

(** ** Produced headers *)

(** The bytes of a value can be addressed. *)
Definition addressable {A} (c : codec A) (a : A) : Prop :=
  forall ws, pack c a = Ok ws -> Z.of_nat (length (concat ws)) < 2 ^ 64.

Lemma pack_vector_unpack {A} (c : codec A) fits `{!Lawful c fits} a data :
  fits a -> addressable c a -> pack_vector c a = Ok data -> unpack_vector c data = Ok a.
Proof.
  intros Ha Hadd Hd. destruct (unpack_pack c a [] Ha) as (ws & Hp & Hu).
  rewrite (pack_vector_bytes c a ws Hp (Hadd ws Hp)) in Hd. injection Hd as <-.
  unfold unpack_vector. rewrite app_nil_r in Hu. by rewrite Hu.
Qed.

Lemma features_distinct_ok seen l :
  NoDup l -> (forall d, d ∈ l -> d ∉ seen) -> features_distinct seen l = Ok tt.
Proof.
  revert seen. induction l as [|d l IH]; intros seen Hnd Hs; [done|]. cbn [features_distinct].
  apply list.NoDup_cons in Hnd as [Hd Hl]. rewrite bool_decide_false by (apply Hs; set_solver).
  cbn [negb ine_assert mbind result_bind]. apply IH; [done|]. set_solver.
Qed.

(** What a producer may put into a header. *)
Record proposal_ok (p : pending_block_header_state) (new_producers : option producer_authority_schedule)
    (features : list sha256) : Prop := {
  po_features : vector_fits sha256_fits features /\ NoDup features /\
    addressable (vector_codec sha256_codec) features;
  po_schedule sched : new_producers = Some sched ->
    producer_authority_schedule_fits sched /\ addressable producer_authority_schedule_codec sched /\
    check_new_schedule p (version sched) = Ok tt
}.

(** The entries the extraction returns for a produced header. *)
Definition feature_entry (features : list sha256) : list (Z * block_header_extension) :=
  match features with [] => [] | _ => [(0, protocol_feature_activation features)] end.
Definition schedule_entry (wtmsig : bool) (np : option producer_authority_schedule) :
  list (Z * block_header_extension) :=
  match np with
  | Some sched => if wtmsig then [(1, producer_schedule_change_extension sched)] else []
  | None => []
  end.

Lemma extract_features features data :
  vector_fits sha256_fits features -> NoDup features ->
  addressable (vector_codec sha256_codec) features -> features <> [] ->
  pack_vector (vector_codec sha256_codec) features = Ok data ->
  extract 0 data = Ok (Some (true, protocol_feature_activation features)).
Proof.
  intros Hf Hnd Ha Hne Hd. unfold extract. cbn [Z.eqb protocol_feature_activation_id].
  rewrite (pack_vector_unpack _ (vector_fits sha256_fits) features) by done. cbn [mbind result_bind].
  unfold reflector_init. rewrite bool_decide_true by (destruct features; simpl; [done|lia]).
  cbn [ine_assert mbind result_bind]. by rewrite features_distinct_ok by (done || set_solver).
Qed.

Lemma extract_schedule sched data :
  producer_authority_schedule_fits sched -> addressable producer_authority_schedule_codec sched ->
  pack_vector producer_authority_schedule_codec sched = Ok data ->
  extract 1 data = Ok (Some (true, producer_schedule_change_extension sched)).
Proof.
  intros Hf Ha Hd. unfold extract. cbn [Z.eqb protocol_feature_activation_id producer_schedule_change_extension_id].
  by rewrite (pack_vector_unpack _ producer_authority_schedule_fits sched).
Qed.

(** The extension with the features is the only one so far. *)
Lemma made_feature_extension features exts :
  vector_fits sha256_fits features -> NoDup features ->
  addressable (vector_codec sha256_codec) features ->
  (if bool_decide (0 < length features)%nat
   then data ← pack_vector (vector_codec sha256_codec) features;
        Ok (emplace_extension [] protocol_feature_activation_id data)
   else Ok []) = Ok exts ->
  Forall2 decodes exts (feature_entry features) /\ (exts = [] \/ exists d, exts = [(0, d)]).
Proof.
  intros Hf Hnd Ha. destruct features as [|f features].
  { intros [= <-]. split; [constructor|auto]. }
  rewrite bool_decide_true by (simpl; lia). intros H. apply bind_ok in H as (d & Hd & [= <-]).
  split; [|eauto]. repeat constructor. by apply extract_features.
Qed.

Lemma made_extensions pfs p tm am np features h :
  proposal_ok p np features -> make_block_header pfs p tm am np features = Ok h ->
  validate_and_extract_header_extensions (unsigned h) =
    Ok (feature_entry features ++
        schedule_entry (is_builtin_activated (prev_activated_protocol_features p) pfs
                          wtmsig_block_signatures) np).
Proof.
  intros [(Hf & Hnd & Ha) Hs] H. unfold make_block_header in H.
  apply bind_ok in H as (exts & He & H). apply bind_ok in H as ([legacy exts'] & Hl & [= <-]).
  unfold validate_and_extract_header_extensions. cbn [unsigned bh_header_extensions].
  destruct (made_feature_extension _ _ Hf Hnd Ha He) as [Hdec Hexts]. clear He.
  apply extract_loop_spec. destruct np as [sched|]; cbn [schedule_entry] in *.
  2: { injection Hl as _ <-. rewrite app_nil_r.
       split; [done|]. destruct Hexts as [->|[d ->]]; simpl; split; by repeat constructor. }
  destruct (is_builtin_activated _ _ _); cycle 1.
  { apply bind_ok in Hl as (l & _ & [= _ <-]). rewrite app_nil_r.
    split; [done|]. destruct Hexts as [->|[d ->]]; simpl; split; by repeat constructor. }
  apply bind_ok in Hl as (data & Hdata & [= _ <-]).
  destruct (Hs sched eq_refl) as (Hsf & Hsa & _).
  pose proof (extract_schedule sched data Hsf Hsa Hdata) as Hx.
  assert (Forall2 decodes [(1, data)] [(1, producer_schedule_change_extension sched)]) as Hdata'.
  { constructor; [done|constructor]. }
  pose proof (Forall2_app Hdec Hdata') as Hboth.
  destruct Hexts as [->|[d ->]]; (split; [done|]); simpl; split; by repeat constructor.
Qed.

(** The schedule that becomes pending, and the activated features. *)
Definition proposed_schedule (wtmsig : bool) (p : pending_block_header_state)
    (np : option producer_authority_schedule) (pending : producer_authority_schedule) : Prop :=
  match np with
  | Some sched =>
      if wtmsig then pending = sched
      else exists l, downgrade (producers sched) = Ok l /\
                     pending = upconvert (mk_producer_schedule_type (version sched) l)
  | None => pending = if was_pending_promoted p
                      then mk_producer_authority_schedule (version (schedule (prev_pending_schedule p))) []
                      else schedule (prev_pending_schedule p)
  end.

Lemma hash_packed_ok {A} hash (c : codec A) fits `{!Lawful c fits} a :
  fits a -> exists d, hash_packed hash c a = Ok d.
Proof.
  intros Ha. destruct (unpack_pack c a [] Ha) as (ws & Hp & _). unfold hash_packed. rewrite Hp. by eexists.
Qed.

Lemma find_feature_entry features sched_entries :
  (forall e, e ∈ sched_entries -> e.1 = 1) ->
  find_extension 0 (feature_entry features ++ sched_entries) =
    match features with [] => None | _ => Some (protocol_feature_activation features) end.
Proof.
  intros Hs. destruct features as [|f l]; [|done]. simpl. unfold find_extension.
  destruct (List.find _ sched_entries) eqn:E; [|done]. apply find_some in E as [Hin Heq].
  apply list_elem_of_In, Hs in Hin. rewrite Hin in Heq. done.
Qed.

Lemma find_schedule_entry features wtmsig np :
  find_extension 1 (feature_entry features ++ schedule_entry wtmsig np) =
    match np with
    | Some sched => if wtmsig then Some (producer_schedule_change_extension sched) else None
    | None => None
    end.
Proof. by destruct features, np, wtmsig. Qed.

Lemma made_legacy pfs p tm am np features h :
  make_block_header pfs p tm am np features = Ok h ->
  let wtmsig := is_builtin_activated (prev_activated_protocol_features p) pfs wtmsig_block_signatures in
  match np with
  | Some sched =>
      if wtmsig then bh_new_producers (unsigned h) = None
      else exists l, downgrade (producers sched) = Ok l /\
             bh_new_producers (unsigned h) = Some (mk_producer_schedule_type (version sched) l)
  | None => bh_new_producers (unsigned h) = None
  end /\
  bh_timestamp (unsigned h) = timestamp p /\ bh_previous (unsigned h) = previous p /\
  bh_confirmed (unsigned h) = confirmed p /\ bh_producer (unsigned h) = producer p /\
  bh_schedule_version (unsigned h) = active_schedule_version p.
Proof.
  intros H. unfold make_block_header in H. cbv zeta.
  apply bind_ok in H as (exts & _ & H). apply bind_ok in H as ([legacy exts'] & Hl & [= <-]).
  cbn. split; [|done]. destruct np as [sched|]; [|by injection Hl].
  destruct (is_builtin_activated _ _ _); apply bind_ok in Hl as (x & Hx & [= <- _]); [done|]. by exists x.
Qed.

Lemma made_new_schedule hash pfs p tm am np features h :
  proposal_ok p np features -> make_block_header pfs p tm am np features = Ok h ->
  header_fits (unsigned h) ->
  let wtmsig := is_builtin_activated (prev_activated_protocol_features p) pfs wtmsig_block_signatures in
  exists maybe,
    new_schedule hash wtmsig p (unsigned h) (feature_entry features ++ schedule_entry wtmsig np) = Ok maybe /\
    match maybe with
    | Some (sched, _) => is_Some np /\ proposed_schedule wtmsig p np sched
    | None => np = None
    end.
Proof.
  intros [_ Hs] Hmake Hfits. destruct (made_legacy _ _ _ _ _ _ _ Hmake) as [Hleg _].
  cbv zeta in *. destruct Hfits as (_ & _ & _ & _ & _ & _ & _ & Hnp & _).
  set (wtmsig := is_builtin_activated _ _ _) in *. unfold new_schedule.
  change producer_schedule_change_extension_id with 1. rewrite find_schedule_entry.
  destruct np as [sched|]; [|rewrite Hleg; by exists None].
  destruct (Hs sched eq_refl) as (Hsf & _ & Hchk). destruct wtmsig.
  - rewrite Hleg. cbn [mbind result_bind ine_assert]. rewrite Hchk. cbn [mbind result_bind].
    destruct (hash_packed_ok hash producer_authority_schedule_codec _ sched Hsf) as [d ->].
    by exists (Some (sched, d)).
  - destruct Hleg as (l & Hl & E). rewrite E in *. cbn [negb mbind result_bind ine_assert pst_version]. rewrite Hchk.
    cbn [mbind result_bind]. cbn [option_fits] in Hnp.
    destruct (hash_packed_ok hash producer_schedule_type_codec _ _ Hnp) as [d ->].
    cbn [mbind result_bind]. eexists. split; [done|]. simpl. split; [eauto|]. by exists l.
Qed.

Lemma schedule_entry_id wtmsig np e : e ∈ schedule_entry wtmsig np -> e.1 = 1.
Proof. destruct np, wtmsig; simpl; set_solver. Qed.

(** C35: a header that a producer builds from the template passes the
    validation against the same template, if the proposed schedule is
    admissible and the validator accepts the features: the schedule becomes
    pending, and the features are activated. *)
Theorem produced_header_accepted hash pfs validator p tm am np features h activated :
  proposal_ok p np features ->
  make_block_header pfs p tm am np features = Ok h -> header_fits (unsigned h) ->
  (if bool_decide (features = []) then activated = prev_activated_protocol_features p
   else validator (timestamp p) (prev_activated_protocol_features p) features = Ok tt /\
        protocol_feature_activation_set (prev_activated_protocol_features p) features = Ok activated) ->
  exists s', finish_next_checked hash pfs validator p h = Ok s' /\ common s' = pending_common p /\
    activated_protocol_features s' = activated /\
    proposed_schedule (is_builtin_activated (prev_activated_protocol_features p) pfs
                         wtmsig_block_signatures) p np (schedule (pending_schedule s')).
Proof.
  intros Hok Hmake Hfits Hfeat.
  pose proof (made_extensions _ _ _ _ _ _ _ Hok Hmake) as Hexts.
  destruct (made_new_schedule hash _ _ _ _ _ _ _ Hok Hmake Hfits) as (maybe & Hnew & Hmaybe).
  destruct (made_legacy _ _ _ _ _ _ _ Hmake) as (_ & Ht & Hp & Hc & Hpr & Hv).
  cbv zeta in *. set (wtmsig := is_builtin_activated _ _ _) in *.
  unfold finish_next_checked. fold wtmsig.
  rewrite Ht, Hp, Hc, Hpr, Hv, !Z.eqb_refl, bool_decide_true by done. cbn [ine_assert mbind result_bind].
  rewrite Hexts. cbn [mbind result_bind]. rewrite Hnew. cbn [mbind result_bind].
  assert (next_features validator p (feature_entry features ++ schedule_entry wtmsig np) = Ok activated) as ->.
  { unfold next_features. change (if protocol_feature_activation_id >? 0 then 1 else 0) with 0.
    change protocol_feature_activation_id with 0.
    rewrite find_feature_entry by apply schedule_entry_id.
    case_bool_decide as Hnil; [by subst|]. destruct features; [done|].
    destruct Hfeat as [-> Hset]. exact Hset. }
  cbn [mbind result_bind].
  destruct (unpack_pack block_header_codec (unsigned h) [] Hfits) as (ws & Hpk & _).
  unfold header_id, header_digest. rewrite Hpk. cbn [mbind result_bind]. eexists. split; [done|].
  split_and!; [done|done|]. cbn [pending_schedule schedule].
  destruct maybe as [[sched d]|]; [by destruct Hmaybe|]. by subst np.
Qed.

(** ** Properties *)

(** An example: seven producers, two of which lag behind, and a schedule of
    those two that is pending. *)
Definition ex_producer (n : Z) : producer_authority :=
  mk_producer_authority n (mk_block_signing_authority 1 [mk_key_weight (K1 (repeat n 33)) 1]).
Definition ex_schedule : producer_authority_schedule :=
  mk_producer_authority_schedule 1 (map ex_producer [1; 2; 3; 4; 5; 6; 7]).
Definition ex_pending : schedule_info :=
  mk_schedule_info 5 zero_digest (mk_producer_authority_schedule 2 (map ex_producer [1; 2])).

Definition ex_id : sha256 := mk_sha256 (endian_reverse_u32 30) 0 0 0.
Definition ex_common : block_header_state_common :=
  mk_common 30 20 10 ex_schedule incremental_merkle_init
    (list_to_map [(1, 2); (2, 3); (3, 24); (4, 25); (5, 26); (6, 27); (7, 28)])
    (list_to_map [(1, 1); (2, 1); (3, 10); (4, 10); (5, 10); (6, 10); (7, 10)])
    (pa_authority (ex_producer 1)) [3; 4; 5].
Definition ex_header : block_header :=
  mk_block_header 100 1 0 (mk_sha256 (endian_reverse_u32 29) 0 0 0) zero_digest zero_digest 1 None [].
Definition ex_state (pend : schedule_info) : block_header_state :=
  mk_block_header_state ex_common ex_id (mk_signed_block_header ex_header default_signature) pend [] [] [].
Definition no_pending : schedule_info := mk_schedule_info 0 zero_digest empty_schedule.

Definition ex_recover (s : signature) (_ : sha256) : outcome public_key :=
  match s with SIG_K1 (b :: _) => Ok (K1 (repeat b 33)) | _ => Err fc_assert_exception end.

(** The next header, of slot 101, signed by the producer scheduled for it. *)
Definition ex_next_header : signed_block_header :=
  mk_signed_block_header
    (mk_block_header 101 4 0 ex_id zero_digest zero_digest 1 None []) (SIG_K1 (repeat 4 65)).

Lemma ex_common_inv : common_inv ex_common.
Proof.
  split; cbn; [by split|lia| |lia| |].
  - split; [|vm_compute; congruence]. repeat constructor; lia.
  - intros x v H. repeat (apply lookup_insert_Some in H as [[_ <-]|[_ H]]; [lia|]).
    by rewrite lookup_empty in H.
  - vm_compute. split; congruence.
Qed.

(** C15: the irreversible number of the next block is the greatest number that
    more than two thirds of the producers have confirmed: [v] is at most it
    exactly if more than two thirds of the implied numbers, with the one of
    the next producer replaced by the proposed number, are at least [v]. *)
Theorem irreversible_quorum c q v :
  producer_to_last_implied_irb c <> ∅ ->
  v <= calc_dpos_last_irreversible c q <->
  (2 * length (implied_numbers c q) < 3 * length (at_least v (implied_numbers c q)))%nat.
Proof. apply calc_dpos_quorum. Qed.

Lemma irreversible_quorum_witness :
  10 <= calc_dpos_last_irreversible ex_common 4 <->
  (2 * length (implied_numbers ex_common 4) < 3 * length (at_least 10%Z (implied_numbers ex_common 4)))%nat.
Proof. apply irreversible_quorum. by vm_compute. Defined.

(** C1: along a chain of received and produced blocks every state keeps the
    invariant: the number is the one in the id, no confirmation count is
    zero, the tracked blocks are after the proposed irreversible one, and the
    irreversible number is at most the proposed one; and each state follows
    its parent, with the next number and the parent's id. *)
Theorem chain_invariant hash recover pfs validator s0 s s' :
  state_inv s0 -> rtc (extends hash recover pfs validator) s0 s ->
  extends hash recover pfs validator s s' ->
  state_inv s' /\ block_num (common s') = block_num (common s) + 1 /\
  bh_previous (unsigned (header s')) = id s.
Proof.
  intros H0 Hrtc. revert s'. induction Hrtc as [s|s1 s2 s3 H12 Hrtc IH]; intros s' Hs'.
  - by eapply extends_inv.
  - apply IH; [|done]. by eapply extends_inv in H12 as [? _].
Qed.

Lemma chain_invariant_witness :
  exists s', next example_hash ex_recover (fun _ => None) (fun _ _ _ => Ok tt)
               (ex_state no_pending) ex_next_header [] false = Ok s' /\
    state_inv s' /\ block_num (common s') = 31 /\ bh_previous (unsigned (header s')) = ex_id.
Proof.
  eexists. split; [vm_compute; reflexivity|].
  apply (chain_invariant example_hash ex_recover (fun _ => None) (fun _ _ _ => Ok tt)
           (ex_state no_pending) (ex_state no_pending)).
  - split; [exact ex_common_inv|vm_compute; congruence|by vm_compute].
  - apply rtc_refl.
  - eapply (extends_received _ _ _ _ _ ex_next_header [] false);
      [vm_compute; reflexivity|vm_compute; congruence|vm_compute; congruence].
Defined.

(** The irreversible number does not fall from a block to the next: if
    more than two thirds of the producers support the number of a block, the
    next block has at least that number, and supports its own unless it puts
    a new schedule into effect. *)
Theorem irreversible_monotone hash s when num p :
  next_pending hash s when num = Ok p -> common_inv (common s) -> supported (common s) ->
  producer_to_last_implied_irb (common s) <> ∅ ->
  dpos_irreversible_blocknum (common s) <= dpos_irreversible_blocknum (pending_common p) /\
  (was_pending_promoted p = false -> supported (pending_common p)).
Proof.
  intros Hp Hc Hs Hne. destruct (next_lib_supported _ _ _ _ _ Hp Hc Hs) as [H1 H2]. auto.
Qed.

Lemma irreversible_monotone_witness :
  exists p, next_pending example_hash (ex_state no_pending) 101 0 = Ok p /\
    10 <= dpos_irreversible_blocknum (pending_common p) /\
    (was_pending_promoted p = false -> supported (pending_common p)).
Proof.
  eexists. split; [vm_compute; reflexivity|].
  apply (irreversible_monotone example_hash (ex_state no_pending) 101 0);
    [vm_compute; reflexivity|exact ex_common_inv| |by vm_compute].
  intros _. unfold quorum. vm_compute. lia.
Defined.

(** With a new schedule it can fall: the two producers of the example that
    lag behind become the whole schedule, and the second block from now has
    the irreversible number 1 where its parent had 10. *)
Example irreversible_number_falls :
  match next_pending example_hash (ex_state ex_pending) 101 0 with
  | Ok p1 =>
      let s1 := mk_block_header_state (pending_common p1) ex_id ex_next_header no_pending [] [] [] in
      dpos_irreversible_blocknum (pending_common p1) = 10 /\ was_pending_promoted p1 = true /\
      match next_pending example_hash s1 102 0 with
      | Ok p2 => dpos_irreversible_blocknum (pending_common p2) = 1
      | Err _ => False
      end
  | Err _ => False
  end.
Proof. by vm_compute. Qed.

(** No producer confirms a range of blocks twice: a block is refused
    unless the range it confirms starts after the last block of its producer,
    which the state records as this block from then on. *)
Theorem no_double_confirmation hash s when num p last :
  next_pending hash s when num = Ok p -> common_inv (common s) -> is_uint 16 num ->
  num <= block_num (common s) + 1 < 2 ^ 32 ->
  producer_to_last_produced (common s) !! producer p = Some last ->
  last < block_num (pending_common p) - confirmed p /\
  producer_to_last_produced (pending_common p) !! producer p = Some (block_num (pending_common p)).
Proof.
  intros Hp Hc Hnum Hover Hlast. pose proof (ci_num _ Hc) as Hu. unfold is_uint in Hu, Hnum.
  destruct (next_pending_members _ _ _ _ _ Hp) as (-> & _ & -> & _ & -> & _). split; [|done].
  destruct (next_pending_inversion _ _ _ _ _ Hp) as (slot & pa & m & rt & _ & _ & Hchk & _ & E).
  cbv zeta in E. rewrite E in Hlast. specialize (Hchk _ Hlast).
  rewrite (wrap_id 32 (block_num (common s) + 1)) in * by (unfold is_uint; lia).
  rewrite (wrap_id 32) in Hchk by (unfold is_uint; lia). lia.
Qed.

Lemma no_double_confirmation_witness :
  exists p, next_pending example_hash (ex_state no_pending) 101 5 = Ok p /\
    25 < block_num (pending_common p) - confirmed p /\
    producer_to_last_produced (pending_common p) !! producer p = Some (block_num (pending_common p)).
Proof.
  eexists. split; [vm_compute; reflexivity|].
  apply (no_double_confirmation example_hash (ex_state no_pending) 101 5);
    [vm_compute; reflexivity|exact ex_common_inv|by split|by split|by vm_compute].
Defined.

(** A range that would start before block 0 escapes the check: the unsigned
    difference wraps, and a producer of block 25 confirms it again. *)
Example double_confirmation_wraps :
  match next_pending example_hash (ex_state no_pending) 101 40 with
  | Ok p => producer p = 4 /\ producer_to_last_produced ex_common !! 4 = Some 25 /\
            block_num (pending_common p) - confirmed p < 25
  | Err _ => False
  end.
Proof. by vm_compute. Qed.

Lemma verify_signee_exact_witness :
  exists s, next example_hash ex_recover (fun _ => None) (fun _ _ _ => Ok tt)
              (ex_state no_pending) ex_next_header [] true = Ok s /\
    (verify_signee example_hash ex_recover s = Ok tt <->
     exists d ks, sig_digest example_hash s = Ok d /\
       Forall2 (fun g k => ex_recover g d = Ok k)
         (producer_signature (header s) :: additional_signatures s) ks /\
       NoDup ks /\
       (forall k, k ∈ ks -> k ∈ map kw_key (bsa_keys (valid_block_signing_authority (common s)))) /\
       bsa_threshold (valid_block_signing_authority (common s)) <=
         weight_sum (presented_keys_of (valid_block_signing_authority (common s)) ks)).
Proof.
  eexists. split; [vm_compute; reflexivity|]. apply verify_signee_exact.
  - split; [by split|]. repeat constructor; vm_compute; congruence.
  - apply NoDup_singleton.
Defined.

Definition ex_proposal : producer_authority_schedule := mk_producer_authority_schedule 2 [ex_producer 1].

Lemma ex_proposal_ok p :
  next_pending example_hash (ex_state no_pending) 101 0 = Ok p -> proposal_ok p (Some ex_proposal) [ex_id].
Proof.
  intros H. vm_compute in H. injection H as <-. split.
  - split_and!.
    + split; [vm_compute; congruence|]. constructor; [|constructor].
      unfold sha256_fits, is_uint. vm_compute. repeat split; congruence.
    + apply NoDup_singleton.
    + intros ws Hws. vm_compute in Hws. injection Hws as <-. by vm_compute.
  - intros sched [= <-]. split_and!.
    + unfold producer_authority_schedule_fits, is_uint. split; [vm_compute; split; congruence|].
      split; [vm_compute; congruence|]. constructor; [|constructor].
      unfold producer_authority_fits, is_uint, block_signing_authority_fits. cbn.
      split; [lia|]. split; [unfold is_uint; lia|]. split; [vm_compute; congruence|].
      constructor; [|constructor]. split; [done|unfold is_uint; cbn; lia].
    + intros ws Hws. vm_compute in Hws. injection Hws as <-. by vm_compute.
    + by vm_compute.
Qed.

Lemma produced_header_accepted_witness :
  exists p h, next_pending example_hash (ex_state no_pending) 101 0 = Ok p /\
    make_block_header (fun _ => None) p zero_digest zero_digest (Some ex_proposal) [ex_id] = Ok h /\
    exists s', finish_next_checked example_hash (fun _ => None) (fun _ _ _ => Ok tt) p h = Ok s' /\
      common s' = pending_common p /\ activated_protocol_features s' = [ex_id] /\
      proposed_schedule (is_builtin_activated (prev_activated_protocol_features p) (fun _ => None)
                           wtmsig_block_signatures) p (Some ex_proposal) (schedule (pending_schedule s')).
Proof.
  eexists _, _. split; [vm_compute; reflexivity|]. split; [vm_compute; reflexivity|].
  apply (produced_header_accepted example_hash (fun _ => None) (fun _ _ _ => Ok tt) _
           zero_digest zero_digest (Some ex_proposal) [ex_id]).
  - apply ex_proposal_ok. vm_compute. reflexivity.
  - vm_compute. reflexivity.
  - unfold header_fits, sha256_fits, option_fits, producer_schedule_type_fits, vector_fits, pair_fits,
      bytes_fit, is_uint. cbn -[Z.pow].
    split_and!; try done; try lia; repeat constructor; cbn; try done; vm_compute; congruence.
  - rewrite bool_decide_false by done. split; [done|by vm_compute].
Defined.
