(* ===== verification/Liveness.v ===== *)
(** * Progress of irreversibility

    The confirmations of block headers make blocks irreversible: when blocks
    of more than two thirds of the producers confirm a block, it becomes the
    proposed irreversible one; when more than two thirds of the producers then
    build on that, it is irreversible.  The theorem follows these two rounds
    over the states of BlockHeaderState.v. *)

From S2P Require Import Prelude Exceptions Names Merkle Authority ProducerSchedule Raw Codecs BlockHeader.
From S2P Require Import ProtocolFeatures BlockHeaderState.

(** ** Counts of confirmations *)

(** The count of the block that is [d] below the newest tracked one. *)
Definition count_of (cc : list Z) (d : nat) : option Z :=
  if decide (d < length cc)%nat then cc !! (length cc - S d)%nat else None.

Lemma count_of_Some cc d x : count_of cc d = Some x <-> (d < length cc)%nat /\ cc !! (length cc - S d)%nat = Some x.
Proof. unfold count_of. destruct (decide _); naive_solver. Qed.

Lemma count_of_last cc x : count_of (cc ++ [x]) 0 = Some x.
Proof. apply count_of_Some. rewrite length_app. cbn. split; [lia|]. replace (_ - _)%nat with (length cc) by lia. by rewrite list_lookup_middle. Qed.

Lemma count_of_app cc x d y : count_of cc d = Some y -> count_of (cc ++ [x]) (S d) = Some y.
Proof.
  rewrite !count_of_Some, length_app. cbn. intros [H1 H2]. split; [lia|].
  apply lookup_app_l_Some. rewrite <- H2. f_equal. lia.
Qed.

Lemma count_of_drop cc k d y : (d + k < length cc)%nat -> count_of cc d = Some y -> count_of (drop k cc) d = Some y.
Proof.
  rewrite !count_of_Some, length_drop. intros H [H1 H2]. split; [lia|]. rewrite lookup_drop, <- H2. f_equal. lia.
Qed.

Lemma grow_count cc req d y :
  (S d < Z.to_nat maximum_tracked_dpos_confirmations)%nat -> Z.of_nat (length cc) <= maximum_tracked_dpos_confirmations ->
  count_of cc d = Some y -> count_of (grow_confirm_count cc req) (S d) = Some y.
Proof.
  unfold grow_confirm_count, maximum_tracked_dpos_confirmations. intros Hd Hl H.
  destruct (Z.ltb_spec (Z.of_nat (length cc)) 1024); apply count_of_app; [done|]. apply count_of_drop; [lia|done].
Qed.

Lemma grow_new cc req : is_uint 8 req -> count_of (grow_confirm_count cc req) 0 = Some req.
Proof.
  intros H. unfold grow_confirm_count. rewrite (wrap_id 8) by done. destruct (_ <? _); apply count_of_last.
Qed.

(** The loop does not touch the counts it is past. *)
Lemma confirm_loop_past n bn cc btc proposed i x :
  (n <= i)%nat -> (i < length cc)%nat -> cc !! i = Some x -> Forall (fun x => 0 < x < 256) cc ->
  count_of (confirm_loop n bn cc btc proposed).1 (length cc - S i) = Some x.
Proof.
  revert cc btc. induction n as [|k IH]; intros cc btc Hn Hi Hx Hcc; cbn [confirm_loop fst].
  - apply count_of_Some. split; [lia|]. rewrite <- Hx. f_equal. lia.
  - assert (cc !! k = Some (cc !!! k)) as Hk by (apply list_lookup_lookup_total_lt; lia).
    pose proof (Forall_lookup_1 _ _ _ _ Hcc Hk) as Hr. cbn in Hr.
    destruct (btc =? 0); cbn [fst]; [apply count_of_Some; split; [lia|]; rewrite <- Hx; f_equal; lia|].
    rewrite (wrap_id 8) by (unfold is_uint; lia). destruct (Z.eqb_spec (cc !!! k - 1) 0) as [E|E]; cbn [fst].
    + apply count_of_drop; [rewrite length_insert; lia|]. apply count_of_Some. rewrite length_insert. split; [lia|].
      replace (_ - S _)%nat with i by lia. by rewrite list_lookup_insert_ne by lia.
    + rewrite <- (length_insert cc k (cc !!! k - 1)). apply IH; rewrite ?length_insert; try lia.
      * by rewrite list_lookup_insert_ne by lia.
      * apply Forall_insert; [done|lia].
Qed.

(** A block that confirms the block of the count [i] takes one from it, or
    makes that block or a later one the proposed irreversible one. *)
Lemma confirm_loop_count n bn cc btc proposed i x :
  (i < n)%nat -> (n <= length cc)%nat -> cc !! i = Some x -> Forall (fun x => 0 < x < 256) cc ->
  0 <= btc < 2 ^ 32 -> Z.of_nat (length cc) <= bn < 2 ^ 32 ->
  let r := confirm_loop n bn cc btc proposed in
  bn - Z.of_nat (length cc - S i) <= r.2 \/
  exists y, count_of r.1 (length cc - S i) = Some y /\ y <= x - if Z.of_nat (n - i) <=? btc then 1 else 0.
Proof.
  revert cc btc. induction n as [|k IH]; intros cc btc Hi Hn Hx Hcc Hb Hbn; [lia|]. cbn [confirm_loop].
  assert (cc !! k = Some (cc !!! k)) as Hk by (apply list_lookup_lookup_total_lt; lia).
  pose proof (Forall_lookup_1 _ _ _ _ Hcc Hk) as Hr. cbn in Hr.
  destruct (Z.eqb_spec btc 0) as [->|Hne].
  { right. exists x. split; [|destruct (Z.leb_spec (Z.of_nat (S k - i)) 0); lia]. cbn [fst]. apply count_of_Some. split; [lia|]. rewrite <- Hx. f_equal. lia. }
  rewrite (wrap_id 8) by (unfold is_uint; lia). destruct (Z.eqb_spec (cc !!! k - 1) 0) as [E|E]; cbn [fst snd].
  - left. rewrite length_insert. rewrite (wrap_id 32 (Z.of_nat (length cc) - 1 - Z.of_nat k)) by (unfold is_uint; lia).
    rewrite (wrap_id 32) by (unfold is_uint; lia). lia.
  - rewrite (wrap_id 32) by (unfold is_uint; lia).
    assert (Forall (fun x => 0 < x < 256) (<[k := cc !!! k - 1]> cc)) as Hcc' by (apply Forall_insert; [done|lia]).
    destruct (decide (i = k)) as [->|Hik].
    + right. exists (cc !!! k - 1). split; [|assert (cc !!! k = x) by congruence; destruct (_ <=? btc); lia].
      rewrite <- (length_insert cc k (cc !!! k - 1)). apply confirm_loop_past; rewrite ?length_insert; [lia|lia| |done].
      by rewrite list_lookup_insert_eq by lia.
    + assert ((<[k := cc !!! k - 1]> cc) !! i = Some x) as Hx' by (by rewrite list_lookup_insert_ne by done).
      specialize (IH (<[k := cc !!! k - 1]> cc) (btc - 1)). rewrite length_insert in IH.
      destruct (IH ltac:(lia) ltac:(lia) Hx' Hcc' ltac:(lia) Hbn) as [H|(y & H1 & H2)]; [by left|].
      right. exists y. split; [done|].
      destruct (Z.leb_spec (Z.of_nat (k - i)) (btc - 1)), (Z.leb_spec (Z.of_nat (S k - i)) btc); lia.
Qed.

(** ** Rounds of blocks *)

Definition block_producer (s : block_header_state) : Z := bh_producer (unsigned (header s)).
Definition block_confirmed (s : block_header_state) : Z := bh_confirmed (unsigned (header s)).
Definition names (sched : producer_authority_schedule) : list Z := map producer_name (producers sched).
(** More than two thirds of the producers. *)
Definition required (sched : producer_authority_schedule) : Z := Z.of_nat (length (producers sched)) * 2 / 3 + 1.
Definition no_proposal (s : block_header_state) : Prop := producers (schedule (pending_schedule s)) = [].

(** The block of [s] confirms the block number [v]. *)
Definition votes (v : Z) (s : block_header_state) : Prop :=
  block_num (common s) - block_confirmed s <= v.

#[export] Instance votes_dec v s : Decision (votes v s).
Proof. unfold votes. apply _. Defined.

(** The last state of a chain. *)
Fixpoint final (s : block_header_state) (l : list block_header_state) : block_header_state :=
  match l with [] => s | t :: l => final t l end.

Lemma names_length sched : length (names sched) = length (producers sched).
Proof. apply length_map. Qed.

Section rounds.
Context (hash : list Z -> sha256).
Context (recover : signature -> sha256 -> outcome public_key).
Context (pfs : builtin_protocol_feature_t -> option sha256).
Context (validator : Z -> list sha256 -> list sha256 -> outcome unit).
Abbreviation extends := (extends hash recover pfs validator).

(** The states [l] follow [s], one after the other, while no schedule is
    pending; the confirmed numbers are of 16 bits. *)
Fixpoint chain_from (s : block_header_state) (l : list block_header_state) : Prop :=
  match l with
  | [] => True
  | t :: l => no_proposal s /\ is_uint 16 (block_confirmed t) /\ extends s t /\ chain_from t l
  end.

Lemma extends_labels s t :
  extends s t -> exists when p, next_pending hash s when (block_confirmed t) = Ok p /\ common t = pending_common p /\
    producer p = block_producer t.
Proof.
  assert (forall p h r, finish_next_checked hash pfs validator p h = Ok r ->
    common r = pending_common p /\ block_confirmed r = confirmed p /\ block_producer r = producer p) as Hchk.
  { intros p h r H. pose proof (finish_checked_continues _ _ _ _ _ _ H) as [(Ec & _) Eh]. unfold finish_next_checked in H.
    apply bind_ok in H as (? & _ & H). apply bind_ok in H as (? & _ & H). apply bind_ok in H as (? & Hc & H).
    apply bind_ok in H as (? & Hp & _). apply ine_assert_ok in Hc, Hp. unfold block_confirmed, block_producer. rewrite Eh.
    split_and!; [done|lia|lia]. }
  intros [s1 h sigs skip s2 H _ _|s1 when num p h signer s2 h' Hp H _ _].
  - unfold next in H. apply bind_ok in H as (p & Hp & H). unfold finish_next in H. apply bind_ok in H as (? & _ & H).
    apply bind_ok in H as (r & Hr & H). apply bind_ok in H as (? & _ & [= <-]). apply Hchk in Hr as (E1 & E2 & E3).
    destruct (next_pending_members _ _ _ _ _ Hp) as (_ & _ & En & _). exists (bh_timestamp (unsigned h)), p.
    case_bool_decide; (split_and!; [|done|done]); rewrite <- Hp; f_equal; exact (eq_trans E2 En).
  - unfold finish_next_signed in H. apply bind_ok in H as (r & Hr & H). apply bind_ok in H as (r' & Hs & H).
    apply bind_ok in H as (? & _ & [= <- _]). apply Hchk in Hr as (E1 & E2 & E3). unfold sign in Hs.
    apply bind_ok in Hs as (d & _ & Hs). apply bind_ok in Hs as (ss & _ & Hs). destruct (back ss); [|done].
    apply bind_ok in Hs as (? & _ & [= <-]). destruct (next_pending_members _ _ _ _ _ Hp) as (_ & _ & En & _).
    exists when, p. split_and!; [|done|done]. rewrite <- Hp. f_equal. exact (eq_trans E2 En).
Qed.

Record step_facts (s t : block_header_state) : Prop := {
  sf_inv : state_inv t;
  sf_num : block_num (common t) = block_num (common s) + 1;
  sf_schedule : active_schedule (common t) = active_schedule (common s);
  sf_name : block_producer t ∈ names (active_schedule (common s));
  sf_proposed : dpos_proposed_irreversible_blocknum (common s) <= dpos_proposed_irreversible_blocknum (common t);
  sf_lib : dpos_irreversible_blocknum (common t) = calc_dpos_last_irreversible (common s) (block_producer t);
  sf_implied : producer_to_last_implied_irb (common t) =
    <[block_producer t := dpos_proposed_irreversible_blocknum (common s)]> (producer_to_last_implied_irb (common s));
  sf_counts : exists cc, cc = grow_confirm_count (confirm_count (common s)) (required (active_schedule (common s))) /\
    (confirm_count (common t), dpos_proposed_irreversible_blocknum (common t)) =
      confirm_loop (length cc) (block_num (common t)) cc (block_confirmed t + 1) (dpos_proposed_irreversible_blocknum (common s)) /\
    Forall (fun x => 0 < x < 256) cc /\ Z.of_nat (length cc) <= block_num (common t) < 2 ^ 32 /\
    0 < required (active_schedule (common s)) < 256
}.

Lemma required_range c : common_inv c -> 0 < required (active_schedule c) < 256.
Proof.
  intros H. pose proof (ci_schedule _ H) as Hs. unfold max_producers in Hs. unfold required.
  assert (0 <= Z.of_nat (length (producers (active_schedule c))) * 2 / 3 <= 68); [|lia].
  split; [apply Z.div_pos; lia|]. apply Z.lt_succ_r, Z.div_lt_upper_bound; lia.
Qed.

Lemma chain_step s t :
  state_inv s -> no_proposal s -> is_uint 16 (block_confirmed t) -> extends s t -> step_facts s t.
Proof.
  intros Hi Hno H16 H. destruct (extends_inv _ _ _ _ _ _ Hi H) as (Hi' & Hnum & _).
  destruct (extends_labels _ _ H) as (when & p & Hp & Ec & Ename).
  destruct (next_pending_inversion _ _ _ _ _ Hp) as (slot & pa & merkle & root & _ & Hsched & _ & _ & E). cbv zeta in E.
  pose proof (si_common _ Hi) as Hc. pose proof (required_range _ Hc) as Hreq.
  pose proof (ci_num _ (si_common _ Hi')) as Hu. unfold is_uint in Hu, H16.
  rewrite Hno, bool_decide_eq_true_2 in E by done. cbn [negb andb] in E.
  rewrite (wrap_id 32 (_ * 2 / 3)) in E by (unfold is_uint, required in *; lia).
  rewrite (wrap_id 32 (_ * 2 / 3 + 1)) in E by (unfold is_uint, required in *; lia).
  fold (required (active_schedule (common s))) in E.
  pose proof (ci_num _ Hc) as Hus. unfold is_uint in Hus.
  rewrite (wrap_id 32 (block_num (common s) + 1)) in E by (unfold is_uint; lia).
  rewrite (wrap_id 32 (block_confirmed t + 1)) in E by (unfold is_uint; lia).
  assert (producer_name pa = block_producer t) as Epa by (rewrite <- Ename, E; done). rewrite Epa in E.
  destruct (grow_inv (confirm_count (common s)) (required (active_schedule (common s))) (ci_counts _ Hc) Hreq) as [[G1 G2] G3].
  pose proof (ci_window _ Hc) as Hw. pose proof (ci_lib _ Hc) as Hl.
  set (cc := grow_confirm_count _ _) in *.
  destruct (confirm_loop_inv (length cc) (block_num (common t)) cc (block_confirmed t + 1)
    (dpos_proposed_irreversible_blocknum (common s))) as (_ & _ & L3 & _); [done|done|lia|lia|lia|].
  rewrite Hnum in L3. rewrite E in Ec. cbn [pending_common] in Ec.
  split; rewrite ?Ec; cbn; try done.
  - unfold get_scheduled_producer in Hsched. destruct (_ =? 0); [done|].
    destruct (producers _ !! _) as [q|] eqn:Eq; [|done]. injection Hsched as ->. rewrite <- Epa.
    apply list_elem_of_fmap. exists pa. split; [done|]. by eapply list_elem_of_lookup_2.
  - exists cc. split_and!; try done; try lia. by destruct (confirm_loop _ _ _ _ _).
Qed.

(** *** The first round *)

(** [k] blocks since [v] confirmed it: it is proposed, or at most as many
    confirmations are missing as are left of the required ones. *)
Definition confirmed_by (v : Z) (k : nat) (s : block_header_state) : Prop :=
  v <= dpos_proposed_irreversible_blocknum (common s) \/
  exists y, count_of (confirm_count (common s)) (Z.to_nat (block_num (common s) - v)) = Some y /\
    y <= required (active_schedule (common s)) - Z.of_nat k.

Lemma loop_step v k cc s t x :
  v <= block_num (common t) ->
  (confirm_count (common t), dpos_proposed_irreversible_blocknum (common t)) =
    confirm_loop (length cc) (block_num (common t)) cc (block_confirmed t + 1) (dpos_proposed_irreversible_blocknum (common s)) ->
  Forall (fun x => 0 < x < 256) cc -> Z.of_nat (length cc) <= block_num (common t) < 2 ^ 32 -> is_uint 16 (block_confirmed t) ->
  count_of cc (Z.to_nat (block_num (common t) - v)) = Some x -> x <= required (active_schedule (common t)) - Z.of_nat k ->
  confirmed_by v (if decide (votes v t) then S k else k) t.
Proof.
  intros Hv E Hcc Hlen H16 Hx Hk. apply count_of_Some in Hx as [Hd Hx]. unfold is_uint in H16.
  set (d := Z.to_nat (block_num (common t) - v)) in *.
  destruct (confirm_loop_count (length cc) (block_num (common t)) cc (block_confirmed t + 1)
    (dpos_proposed_irreversible_blocknum (common s)) (length cc - S d) x) as [H|(y & H1 & H2)]; try done; try lia.
  - left. rewrite <- E in H. cbn [snd] in H. lia.
  - right. rewrite <- E in H1. cbn [fst] in H1. fold d. exists y. replace (length cc - S (length cc - S d))%nat with d in H1 by lia.
    split; [done|]. unfold votes. replace (length cc - (length cc - S d))%nat with (S d) in H2 by lia.
    destruct (decide _), (Z.leb_spec (Z.of_nat (S d)) (block_confirmed t + 1)); lia.
Qed.

Lemma confirmed_step v k s t :
  state_inv s -> no_proposal s -> is_uint 16 (block_confirmed t) -> extends s t -> v <= block_num (common s) ->
  block_num (common t) - v < maximum_tracked_dpos_confirmations -> confirmed_by v k s ->
  confirmed_by v (if decide (votes v t) then S k else k) t.
Proof.
  intros Hi Hno H16 He Hv Hd Hc. pose proof (chain_step s t Hi Hno H16 He) as F. pose proof (sf_num _ _ F) as Hn.
  destruct Hc as [Hc|(y & Hy & Hk)]; [left; pose proof (sf_proposed _ _ F); lia|].
  destruct (sf_counts _ _ F) as (cc & Ecc & E & Hcc & Hlen & Hreq). eapply (loop_step v k cc s t y); try done; [lia| |].
  - rewrite Ecc, Hn. replace (Z.to_nat _) with (S (Z.to_nat (block_num (common s) - v))) by lia.
    apply grow_count; [lia|apply (ci_counts _ (si_common _ Hi))|done].
  - by rewrite (sf_schedule _ _ F).
Qed.

Lemma confirmed_first s t :
  state_inv s -> no_proposal s -> is_uint 16 (block_confirmed t) -> extends s t ->
  confirmed_by (block_num (common s) + 1) (if decide (votes (block_num (common s) + 1) t) then 1 else 0)%nat t.
Proof.
  intros Hi Hno H16 He. pose proof (chain_step s t Hi Hno H16 He) as F. pose proof (sf_num _ _ F) as Hn.
  destruct (sf_counts _ _ F) as (cc & Ecc & E & Hcc & Hlen & Hreq).
  eapply (loop_step _ 0 cc s t (required (active_schedule (common s)))); try done; [lia| |].
  - rewrite Ecc, Hn, Z.sub_diag. apply grow_new. unfold is_uint. lia.
  - rewrite (sf_schedule _ _ F). lia.
Qed.

(** Along a chain that is not longer than what is tracked, the confirmations
    of [v] add up. *)
Lemma confirmed_chain v k s l :
  state_inv s -> chain_from s l -> v <= block_num (common s) ->
  block_num (common s) - v + Z.of_nat (length l) < maximum_tracked_dpos_confirmations -> confirmed_by v k s ->
  state_inv (final s l) /\ active_schedule (common (final s l)) = active_schedule (common s) /\
  confirmed_by v (k + length (filter (votes v) l)) (final s l).
Proof.
  revert k s. induction l as [|u l IH]; intros k s Hi Hch Hv Hd Hc; [by rewrite Nat.add_0_r|].
  destruct Hch as (Hno & H16 & He & Hl). pose proof (chain_step s u Hi Hno H16 He) as F. pose proof (sf_num _ _ F) as Hn.
  cbn [length final] in *. assert (confirmed_by v (if decide (votes v u) then S k else k) u) as Hu.
  { apply (confirmed_step v k s u); try done. lia. }
  destruct (IH _ u (sf_inv _ _ F) Hl ltac:(lia) ltac:(lia) Hu) as (I & Es & C). rewrite (sf_schedule _ _ F) in Es.
  split_and!; [done|done|]. rewrite filter_cons. destruct (decide (votes v u)); [|done].
  by replace (k + length (u :: filter (votes v) l))%nat with (S k + length (filter (votes v) l))%nat by (cbn; lia).
Qed.

(** When enough blocks confirm the first one, it is proposed. *)
Lemma first_round s l :
  state_inv s -> chain_from s l -> Z.of_nat (length l) < maximum_tracked_dpos_confirmations ->
  let v := block_num (common s) + 1 in
  required (active_schedule (common s)) <= Z.of_nat (length (filter (votes v) l)) ->
  state_inv (final s l) /\ active_schedule (common (final s l)) = active_schedule (common s) /\
  v <= dpos_proposed_irreversible_blocknum (common (final s l)).
Proof.
  intros Hi Hch Hlen v Hreq. pose proof (required_range _ (si_common _ Hi)) as Hr.
  destruct l as [|u l]; [cbn in Hreq; lia|]. destruct Hch as (Hno & H16 & He & Hl).
  pose proof (chain_step s u Hi Hno H16 He) as F. pose proof (sf_num _ _ F) as Hn. cbn [length final] in *.
  pose proof (confirmed_first s u Hi Hno H16 He) as Hu. fold v in Hu.
  destruct (confirmed_chain v _ u l (sf_inv _ _ F) Hl ltac:(lia) ltac:(lia) Hu) as (I & Es & C). rewrite (sf_schedule _ _ F) in Es.
  split_and!; [done|done|]. destruct C as [C|(y & Hy & Hk)]; [done|]. exfalso.
  assert (0 < y < 256) as Hp.
  { apply count_of_Some in Hy as [_ Hy]. apply (Forall_lookup_1 _ _ _ _ (proj1 (ci_counts _ (si_common _ I))) Hy). }
  rewrite filter_cons in Hreq. rewrite Es in Hk. destruct (decide (votes v u)); cbn [length] in Hreq; lia.
Qed.

(** *** The second round *)

(** The producers of a chain. *)
Definition builders (l : list block_header_state) : gset Z := list_to_set (map block_producer l).

(** The producers in [K] have implied [v]. *)
Definition implied_by (v : Z) (K : gset Z) (s : block_header_state) : Prop :=
  v <= dpos_proposed_irreversible_blocknum (common s) /\
  (forall q, q ∈ K -> exists x, producer_to_last_implied_irb (common s) !! q = Some x /\ v <= x).

(** Every producer of the schedule, and no other, has an implied number. *)
Definition all_implied (s : block_header_state) : Prop :=
  dom (producer_to_last_implied_irb (common s)) = list_to_set (C := gset Z) (names (active_schedule (common s))) /\
  NoDup (names (active_schedule (common s))).

Lemma implied_step v K s t :
  step_facts s t -> all_implied s -> implied_by v K s -> all_implied t /\ implied_by v ({[block_producer t]} ∪ K) t.
Proof.
  intros F [Hdom Hnd] [Hv HK]. pose proof (sf_proposed _ _ F) as Hp. split.
  - split; rewrite ?(sf_schedule _ _ F), ?(sf_implied _ _ F); [|done]. rewrite dom_insert_L, Hdom.
    apply subseteq_union_1_L. apply singleton_subseteq_l. apply elem_of_list_to_set. apply (sf_name _ _ F).
  - split; [lia|]. intros q Hq. rewrite (sf_implied _ _ F). destruct (decide (block_producer t = q)) as [<-|Hne].
    + rewrite lookup_insert_eq. eauto.
    + rewrite lookup_insert_ne by done. apply HK. set_solver.
Qed.

Lemma at_least_map {A} v (f : A -> Z) (l : list A) :
  length (at_least v (map f l)) = length (filter (fun i => v <= f i) l).
Proof.
  unfold at_least. induction l as [|x l IH]; [done|]. cbn [map]. rewrite !filter_cons.
  destruct (decide (v <= f x)); cbn; by rewrite IH.
Qed.

Lemma size_list_to_set_le (l : list Z) : (size (list_to_set (C := gset Z) l) <= length l)%nat.
Proof.
  induction l as [|x l IH]; [done|]. cbn. pose proof (size_union_alt ({[x]} : gset Z) (list_to_set l)) as E.
  rewrite E, size_singleton. pose proof (subseteq_size (list_to_set l ∖ {[x]} : gset Z) (list_to_set l)). set_solver by lia.
Qed.

(** As many implied numbers are at least [v] as there are producers that
    implied it. *)
Lemma implied_count v c q (K : gset Z) :
  (forall k, k ∈ K -> exists x, producer_to_last_implied_irb c !! k = Some x /\
     v <= if k =? q then dpos_proposed_irreversible_blocknum c else x) ->
  (size K <= length (at_least v (implied_numbers c q)))%nat.
Proof.
  intros HK. unfold implied_numbers. rewrite at_least_map.
  rewrite <- (length_map fst (filter _ _)). etransitivity; [|apply size_list_to_set_le].
  apply subseteq_size. intros k Hk. destruct (HK k Hk) as (x & Hx & Hv). apply elem_of_list_to_set, list_elem_of_fmap.
  exists (k, x). split; [done|]. apply list_elem_of_filter. split; [done|]. by apply elem_of_map_to_list.
Qed.

(** Every block of the second round is built by a producer that then implies
    [v]; with enough of them the last one makes it irreversible. *)
Lemma second_round v s l t K :
  state_inv s -> chain_from s (l ++ [t]) -> all_implied s -> implied_by v K s ->
  required (active_schedule (common s)) <= Z.of_nat (size (K ∪ builders (l ++ [t]))) ->
  v <= dpos_irreversible_blocknum (common t).
Proof.
  revert s K. induction l as [|u l IH]; intros s K Hi (Hno & H16 & He & Hl) Hall HK Hreq.
  - pose proof (chain_step s t Hi Hno H16 He) as F. rewrite (sf_lib _ _ F). destruct Hall as [Hdom Hnd].
    assert (block_producer t ∈ dom (producer_to_last_implied_irb (common s))) as Hn
      by (rewrite Hdom; apply elem_of_list_to_set; apply (sf_name _ _ F)).
    assert (producer_to_last_implied_irb (common s) <> ∅) as Hne.
    { intros E. rewrite E, dom_empty_L in Hn. set_solver. }
    apply calc_dpos_quorum; [done|]. unfold quorum. destruct HK as [Hv HK].
    pose proof (implied_count v (common s) (block_producer t) (K ∪ builders [t])) as Hcount.
    assert (length (implied_numbers (common s) (block_producer t)) = length (producers (active_schedule (common s)))) as Hlen.
    { unfold implied_numbers. rewrite length_map, length_map_to_list. rewrite <- size_dom, Hdom, size_list_to_set by done.
      apply names_length. }
    rewrite Hlen. unfold required in Hreq. cbn [app] in Hreq.
    assert (size (K ∪ builders [t]) <= length (at_least v (implied_numbers (common s) (block_producer t))))%nat as Hc.
    { apply Hcount. intros k Hk. destruct (Z.eqb_spec k (block_producer t)) as [->|Hkt].
      - apply elem_of_dom in Hn as [x Hx]. eauto.
      - apply HK. unfold builders in Hk. cbn in Hk. set_solver. }
    pose proof (Z.div_mod (Z.of_nat (length (producers (active_schedule (common s)))) * 2) 3 ltac:(lia)).
    pose proof (Z.mod_pos_bound (Z.of_nat (length (producers (active_schedule (common s)))) * 2) 3 ltac:(lia)). lia.
  - pose proof (chain_step s u Hi Hno H16 He) as F. destruct (implied_step v K s u F Hall HK) as [Hall' HK'].
    apply (IH u _ (sf_inv _ _ F) Hl Hall' HK'). rewrite (sf_schedule _ _ F).
    replace ({[block_producer u]} ∪ K ∪ builders (l ++ [t])) with (K ∪ builders ((u :: l) ++ [t])); [done|].
    unfold builders. cbn. set_solver.
Qed.

(** C16: irreversibility makes progress.  Let no schedule be pending from the
    state [s] on, and let its producers be the ones with implied numbers.  If
    blocks of more than two thirds of the producers confirm the next block,
    within the 1024 blocks that are tracked, and then more than two thirds of
    the producers build blocks, the next block of [s] is irreversible. *)
Theorem irreversible_progress s l1 l2 t :
  state_inv s -> all_implied s -> chain_from s (l1 ++ l2 ++ [t]) ->
  Z.of_nat (length l1) < maximum_tracked_dpos_confirmations ->
  required (active_schedule (common s)) <= Z.of_nat (size (builders (filter (votes (block_num (common s) + 1)) l1))) ->
  required (active_schedule (common s)) <= Z.of_nat (size (builders (l2 ++ [t]))) ->
  block_num (common s) + 1 <= dpos_irreversible_blocknum (common t).
Proof.
  intros Hi Hall Hch Hlen Hr1 Hr2.
  assert (forall l s, chain_from s (l ++ l2 ++ [t]) -> state_inv s -> all_implied s ->
    chain_from s l /\ chain_from (final s l) (l2 ++ [t]) /\ all_implied (final s l)) as Hsplit.
  { clear. induction l as [|u l IH]; intros s Hch Hi Hall; [done|]. destruct Hch as (Hno & H16 & He & Hl).
    pose proof (chain_step s u Hi Hno H16 He) as F.
    destruct (implied_step (dpos_proposed_irreversible_blocknum (common s)) ∅ s u F Hall) as [Hall' _]; [split; [lia|set_solver]|].
    destruct (IH u Hl (sf_inv _ _ F) Hall') as (? & ? & ?). done. }
  destruct (Hsplit l1 s Hch Hi Hall) as (H1 & H2 & Hall2).
  destruct (first_round s l1 Hi H1 Hlen) as (Hi2 & Es & Hv).
  { unfold builders in Hr1. pose proof (size_list_to_set_le (map block_producer (filter (votes (block_num (common s) + 1)) l1))) as Hs.
    rewrite length_map in Hs. lia. }
  apply (second_round _ (final s l1) l2 t ∅ Hi2 H2 Hall2); [split; [done|set_solver]|].
  rewrite Es. by rewrite union_empty_l_L.
Qed.
End rounds.

(** ** An example *)

Section example.
Context (hash : list Z -> sha256).
Context (recover : signature -> sha256 -> outcome public_key).
Context (sign_by : Z -> signature).

(** Producers that build one block per slot and confirm all blocks since their
    last one. *)
Fixpoint build (n : nat) (s : block_header_state) : option (list block_header_state) :=
  match n with
  | O => Some []
  | S n =>
      let slot := bh_timestamp (unsigned (header s)) + 1 in
      match get_scheduled_producer (active_schedule (common s)) slot with
      | Ok pa =>
          let last := default 0 (producer_to_last_produced (common s) !! producer_name pa) in
          let h := mk_signed_block_header
            (mk_block_header slot (producer_name pa) (block_num (common s) - last) (id s) zero_digest zero_digest
               (version (active_schedule (common s))) None []) (sign_by (producer_name pa)) in
          match next hash recover (fun _ => None) (fun _ _ _ => Ok tt) s h [] false with
          | Ok t =>
              if (block_num (common s) + 1 <? 2 ^ 32) && (0 <=? block_confirmed t) && (block_confirmed t <? 2 ^ 16) &&
                 bool_decide (producers (schedule (pending_schedule s)) = []) &&
                 bool_decide (producers (schedule (pending_schedule t)) = [])
              then match build n t with Some l => Some (t :: l) | None => None end
              else None
          | Err _ => None
          end
      | Err _ => None
      end
  end.

Lemma build_chain n s l :
  build n s = Some l -> chain_from hash recover (fun _ => None) (fun _ _ _ => Ok tt) s l.
Proof.
  revert s l. induction n as [|n IH]; intros s l; cbn [build]; [by intros [= <-]|].
  destruct (get_scheduled_producer _ _) as [pa|]; [|done]. destruct (next _ _ _ _ _ _ _ _) as [t|] eqn:E; [|done].
  destruct (_ && _) eqn:Eb; [|done]. destruct (build n t) as [l'|] eqn:El; [|done]. intros [= <-].
  rewrite !andb_true_iff, !bool_decide_eq_true in Eb. destruct Eb as ((((H1 & H2) & H3) & H4) & H5).
  split; [exact H4|]. split; [unfold is_uint; lia|]. split; [|by apply IH].
  eapply extends_received; [exact E|lia|]. rewrite H5. by vm_compute.
Qed.
End example.

(** Four producers from block 30 on. *)
Definition four_producers : producer_authority_schedule := mk_producer_authority_schedule 1 (map ex_producer [1; 2; 3; 4]).
Definition four_state : block_header_state :=
  mk_block_header_state
    (mk_common 30 20 10 four_producers incremental_merkle_init (list_to_map [(1, 27); (2, 28); (3, 29); (4, 30)])
       (list_to_map [(1, 10); (2, 10); (3, 10); (4, 10)]) (pa_authority (ex_producer 4)) [3; 3; 3])
    ex_id (mk_signed_block_header ex_header default_signature) no_pending [] [] [].
Definition example_blocks : list block_header_state :=
  default [] (build example_hash ex_recover (fun n => SIG_K1 (repeat n 65)) 6 four_state).

Lemma four_state_inv : state_inv four_state /\ all_implied four_state.
Proof.
  split; [split; [split|by vm_compute|by vm_compute]|split].
  - by vm_compute.
  - by vm_compute.
  - split; [repeat constructor; lia|by vm_compute].
  - by vm_compute.
  - intros x v H. cbn in H. repeat (apply lookup_insert_Some in H as [[_ <-]|[_ H]]; [by vm_compute|]). by rewrite lookup_empty in H.
  - by vm_compute.
  - apply set_eq. intros x. vm_compute. done.
  - apply (bool_decide_unpack _). by vm_compute.
Qed.

Lemma irreversible_progress_witness :
  31 <= dpos_irreversible_blocknum (common (final four_state example_blocks)) /\
  dpos_irreversible_blocknum (common four_state) = 10.
Proof.
  split; [|reflexivity]. destruct four_state_inv as [H1 H2].
  apply (irreversible_progress example_hash ex_recover (fun _ => None) (fun _ _ _ => Ok tt) four_state
    (take 3 example_blocks) (take 2 (drop 3 example_blocks)) (final four_state example_blocks) H1 H2).
  - apply (build_chain _ _ (fun n => SIG_K1 (repeat n 65)) 6). vm_compute. reflexivity.
  - vm_compute. reflexivity.
  - vm_compute. congruence.
  - vm_compute. congruence.
Defined.
