(* ===== verification/ForkDatabase.v ===== *)
(** * The fork database

    Models fork_database.cpp.  The multi_index container is a map from block
    ids to block states; its ordered index by_lib_block_num is given by the
    comparison [before] of its composite key, and its index by_prev by the
    children of an id.  A block_state_ptr is the block state it points to: of
    the members
    the code reads through [head] and [root] none is ever assigned, and the
    flag [validated], which is, is only read in the container.

    A loop that follows the member previous, or that walks the queue of
    blocks to remove, gets fuel for as many iterations as there are blocks;
    [None] is a loop that has not ended by then, and the theorems show that
    it does not occur in the reachable states.

    The theorems: the tree invariant holds in every reachable state, the head
    is the best validated block, the pending head the best block, remove
    takes out exactly a subtree, advance_root keeps exactly the descendants
    of the new root, and the branches returned are the paths of the tree. *)

From S2P Require Import Prelude Exceptions Merkle BlockHeader.

Record block_state := mk_block_state {
  id : sha256;
  previous : sha256;                    (* header.previous *)
  block_num : Z;
  dpos_irreversible_blocknum : Z;
  timestamp : Z;                   (* header.timestamp *)
  (** The protocol_feature_activation of header_exts, if any. *)
  new_protocol_features : option (list sha256);
  (** activated_protocol_features->protocol_features *)
  activated_protocol_features : list sha256;
  validated : bool
}.

#[export] Instance block_state_eq_dec : EqDecision block_state.
Proof. solve_decision. Defined.

Definition set_validated (v : bool) (b : block_state) : block_state :=
  mk_block_state (id b) (previous b) (block_num b) (dpos_irreversible_blocknum b) (timestamp b)
    (new_protocol_features b) (activated_protocol_features b) v.

Record fork_db := mk_fork_db {
  index : gmap sha256 block_state;
  root : option block_state;
  head : option block_state
}.

Definition with_index (db : fork_db) (i : gmap sha256 block_state) : fork_db :=
  mk_fork_db i (root db) (head db).
Definition with_head (db : fork_db) (h : option block_state) : fork_db :=
  mk_fork_db (index db) (root db) h.
Definition with_root (db : fork_db) (r : option block_state) : fork_db :=
  mk_fork_db (index db) r (head db).

(** A method: the database it leaves and its result or exception; [None] for
    a loop that did not end within its fuel. *)
Definition fdb (A : Type) : Type := fork_db -> option (fork_db * outcome A).

#[export] Instance fdb_ret : MRet fdb := fun A a db => Some (db, Ok a).
#[export] Instance fdb_bind : MBind fdb := fun A B f m db =>
  match m db with
  | Some (db', Ok a) => f a db'
  | Some (db', Err e) => Some (db', Err e)
  | None => None
  end.
Definition fdb_lift {A} (r : outcome A) : fdb A := fun db => Some (db, r).
Definition fdb_get : fdb fork_db := fun db => Some (db, Ok db).
Definition fdb_put (db' : fork_db) : fdb unit := fun _ => Some (db', Ok tt).
Definition fdb_loop {A} (r : option A) : fdb A :=
  fun db => match r with Some a => Some (db, Ok a) | None => None end.

(** The composite_key_compare of by_lib_block_num: valid blocks first, then
    the greater irreversible number, the greater number, the lesser id. *)
Definition before (a b : block_state) : bool :=
  if eqb (validated a) (validated b) then
    (dpos_irreversible_blocknum a >? dpos_irreversible_blocknum b) ||
    ((dpos_irreversible_blocknum a =? dpos_irreversible_blocknum b) &&
     ((block_num a >? block_num b) || ((block_num a =? block_num b) && sha256_less (id a) (id b))))
  else validated a.

Definition better (a b : block_state) : block_state := if before b a then b else a.

(** The first element of a set of blocks in that order. *)
Definition first_of (l : list block_state) : option block_state :=
  match l with
  | [] => None
  | b :: l' => Some (foldl better b l')
  end.

Definition blocks (i : gmap sha256 block_state) : list block_state := (map_to_list i).*2.

(** [index.get<by_lib_block_num>().begin()] *)
Definition best_block (i : gmap sha256 block_state) : option block_state := first_of (blocks i).

(** [lower_bound( false )]: the first block that is not valid. *)
Definition best_unvalidated (i : gmap sha256 block_state) : option block_state :=
  first_of (filter (fun b => validated b = false) (blocks i)).

Definition first_preferred (lhs rhs : block_state) : bool :=
  (dpos_irreversible_blocknum lhs >? dpos_irreversible_blocknum rhs) ||
  (negb (dpos_irreversible_blocknum lhs <? dpos_irreversible_blocknum rhs) &&
   (block_num lhs >? block_num rhs)).

(** A null pointer that is dereferenced. *)
Definition deref {A} (p : option A) : outcome A :=
  match p with Some a => Ok a | None => Err undefined_behaviour end.

Definition get_block (db : fork_db) (i : sha256) : option block_state := index db !! i.

Definition get_block_header (db : fork_db) (i : sha256) : outcome (option block_state) :=
  r ← deref (root db);
  Ok (if bool_decide (id r = i) then Some r else index db !! i).

Definition reset (root_bhs : block_state) : fork_db :=
  let r := set_validated true root_bhs in
  mk_fork_db ∅ (Some r) (Some r).

Definition rollback_head_to_root (db : fork_db) : fork_db :=
  mk_fork_db (set_validated false <$> index db) (root db) (root db).

(** INE_RETHROW_EXCEPTIONS( fork_database_exception, ... ): an exception of
    the chain keeps its type, any other becomes a fork_database_exception. *)
Definition rethrow_as_fork_database_exception (e : exn) : exn :=
  match e with
  | Throw t => Throw t
  | undefined_behaviour => undefined_behaviour
  | _ => Throw fork_database_exception
  end.

(** *** [add] *)

Definition fork_database_impl_add (n : option block_state) (ignore_duplicate validate : bool)
    (validator : Z -> list sha256 -> list sha256 -> outcome unit) : fdb unit :=
  db ← fdb_get;
  fdb_lift (ine_assert (bool_decide (is_Some (root db))) (Throw fork_database_exception)) ;;
  fdb_lift (ine_assert (bool_decide (is_Some n)) (Throw fork_database_exception)) ;;
  n ← fdb_lift (deref n);
  prev_bh ← fdb_lift (get_block_header db (previous n));
  match prev_bh with
  | None => fdb_lift (Err (Throw unlinkable_block_exception))
  | Some prev_bh =>
      (if validate then
         match new_protocol_features n with
         | Some new_features =>
             match validator (timestamp n) (activated_protocol_features prev_bh) new_features with
             | Ok _ => mret tt
             | Err e => fdb_lift (Err (rethrow_as_fork_database_exception e))
             end
         | None => mret tt
         end
       else mret tt) ;;
      match index db !! id n with
      | Some _ =>
          if ignore_duplicate then mret tt
          else fdb_lift (Err (Throw fork_database_exception))
      | None =>
          let i := <[id n := n]> (index db) in
          match best_block i with
          | Some candidate =>
              if validated candidate
              then fdb_put (mk_fork_db i (root db) (Some candidate))
              else fdb_put (with_index db i)
          | None => fdb_lift (Err undefined_behaviour)
          end
      end
  end.

Definition add (n : option block_state) (ignore_duplicate : bool) : fdb unit :=
  fork_database_impl_add n ignore_duplicate false (fun _ _ _ => Ok tt).

(** *** [remove] *)

Definition children (i : gmap sha256 block_state) (x : sha256) : list sha256 :=
  map id (filter (fun b => previous b = x) (blocks i)).

(** The for loop that fills remove_queue; [done] are its elements before i. *)
Fixpoint remove_scan (fuel : nat) (i : gmap sha256 block_state) (head_id : sha256) (done todo : list sha256) :
  option (outcome (list sha256)) :=
  match todo with
  | [] => Some (Ok done)
  | x :: todo' =>
      match fuel with
      | O => None
      | S fuel' =>
          if bool_decide (x = head_id) then Some (Err (Throw fork_database_exception))
          else remove_scan fuel' i head_id (done ++ [x]) (todo' ++ children i x)
      end
  end.

Definition erase_all (i : gmap sha256 block_state) (ids : list sha256) : gmap sha256 block_state :=
  foldl (fun i x => delete x i) i ids.

Definition remove (i : sha256) : fdb unit :=
  db ← fdb_get;
  h ← fdb_lift (deref (head db));
  r ← fdb_loop (remove_scan (S (size (index db))) (index db) (id h) [] [i]);
  remove_queue ← fdb_lift r;
  fdb_put (with_index db (erase_all (index db) remove_queue)).

(** *** [advance_root] *)

(** The for loop that follows previous and collects blocks_to_remove. *)
Fixpoint blocks_to_remove (fuel : nat) (i : gmap sha256 block_state) (root_id : sha256) (b : block_state) :
  option (outcome (list sha256)) :=
  match fuel with
  | O => None
  | S fuel' =>
      match i !! previous b with
      | Some b' =>
          match blocks_to_remove fuel' i root_id b' with
          | Some (Ok l) => Some (Ok (previous b :: l))
          | r => r
          end
      | None =>
          if bool_decide (previous b = root_id) then Some (Ok [previous b])
          else Some (Err (Throw fork_database_exception))
      end
  end.

Fixpoint remove_each (ids : list sha256) : fdb unit :=
  match ids with
  | [] => mret tt
  | x :: ids' => remove x ;; remove_each ids'
  end.

Definition advance_root (i : sha256) : fdb unit :=
  db ← fdb_get;
  fdb_lift (ine_assert (bool_decide (is_Some (root db))) (Throw fork_database_exception)) ;;
  r ← fdb_lift (deref (root db));
  match get_block db i with
  | None => fdb_lift (Err (Throw fork_database_exception))
  | Some new_root =>
      fdb_lift (ine_assert (validated new_root) (Throw fork_database_exception)) ;;
      l ← fdb_loop (blocks_to_remove (S (size (index db))) (index db) (id r) new_root);
      ids ← fdb_lift l;
      fdb_put (with_index db (delete i (index db))) ;;
      remove_each ids ;;
      db ← fdb_get;
      fdb_put (with_root db (Some new_root))
  end.

(** *** [mark_valid] *)

Definition mark_valid (h : block_state) : fdb unit :=
  if validated h then mret tt else
  db ← fdb_get;
  match index db !! id h with
  | None => fdb_lift (Err (Throw fork_database_exception))
  | Some b =>
      let i := <[id h := set_validated true b]> (index db) in
      candidate ← fdb_lift (deref (best_block i));
      hd ← fdb_lift (deref (head db));
      if first_preferred candidate hd
      then fdb_put (mk_fork_db i (root db) (Some candidate))
      else fdb_put (with_index db i)
  end.

Definition pending_head (db : fork_db) : outcome (option block_state) :=
  match best_unvalidated (index db) with
  | Some b =>
      hd ← deref (head db);
      if first_preferred b hd then Ok (Some b) else Ok (head db)
  | None => Ok (head db)
  end.

(** *** Branches *)

(** The loop [for( s = get_block(h); s; s = get_block( previous ) )]. *)
Fixpoint branch_loop (fuel : nat) (i : gmap sha256 block_state) (h : sha256) : option (list block_state) :=
  match i !! h with
  | None => Some []
  | Some s =>
      match fuel with
      | O => None
      | S fuel' => cons s <$> branch_loop fuel' i (previous s)
      end
  end.

Definition fetch_branch (db : fork_db) (h : sha256) (trim_after_block_num : Z) : option (list block_state) :=
  filter (fun s => block_num s <= trim_after_block_num) <$> branch_loop (size (index db)) (index db) h.

Definition search_on_branch (db : fork_db) (h : sha256) (n : Z) : option (option block_state) :=
  (fun l => List.find (fun s => block_num s =? n) l) <$> branch_loop (size (index db)) (index db) h.

(** [(i == root->id) ? root : get_block(i)] *)
Definition root_or_block (r : block_state) (i : gmap sha256 block_state) (x : sha256) : option block_state :=
  if bool_decide (x = id r) then Some r else i !! x.

(** The first two while loops: follow [b] down to the height [n]. *)
Fixpoint descend (fuel : nat) (r : block_state) (i : gmap sha256 block_state) (n : Z)
    (b : block_state) (acc : list block_state) :
  option (outcome (list block_state * block_state)) :=
  if block_num b >? n then
    match fuel with
    | O => None
    | S fuel' =>
        match root_or_block r i (previous b) with
        | None => Some (Err (Throw fork_db_block_not_found))
        | Some b' => descend fuel' r i n b' (acc ++ [b])
        end
    end
  else Some (Ok (acc, b)).

(** The third while loop: follow both branches until they have the same
    previous block. *)
Fixpoint descend_both (fuel : nat) (i : gmap sha256 block_state) (b1 b2 : block_state)
    (acc1 acc2 : list block_state) :
  option (outcome ((list block_state * block_state) * (list block_state * block_state))) :=
  if bool_decide (previous b1 = previous b2) then Some (Ok ((acc1, b1), (acc2, b2))) else
  match fuel with
  | O => None
  | S fuel' =>
      match i !! previous b1, i !! previous b2 with
      | Some b1', Some b2' => descend_both fuel' i b1' b2' (acc1 ++ [b1]) (acc2 ++ [b2])
      | _, _ => Some (Err (Throw fork_db_block_not_found))
      end
  end.

Definition fetch_branch_from (db : fork_db) (first second : sha256) :
  option (outcome (list block_state * list block_state)) :=
  match root db with
  | None => Some (Err undefined_behaviour)
  | Some r =>
  let i := index db in
  let fuel := S (size i) in
  match root_or_block r i first, root_or_block r i second with
  | Some first_branch, Some second_branch =>
      match descend fuel r i (block_num second_branch) first_branch [] with
      | None => None
      | Some (Err e) => Some (Err e)
      | Some (Ok (result_first, first_branch)) =>
      match descend fuel r i (block_num first_branch) second_branch [] with
      | None => None
      | Some (Err e) => Some (Err e)
      | Some (Ok (result_second, second_branch)) =>
          if bool_decide (id first_branch = id second_branch) then Some (Ok (result_first, result_second)) else
          match descend_both fuel i first_branch second_branch result_first result_second with
          | None => None
          | Some (Err e) => Some (Err e)
          | Some (Ok ((l1, b1), (l2, b2))) => Some (Ok (l1 ++ [b1], l2 ++ [b2]))
          end
      end end
  | _, _ => Some (Err (Throw fork_db_block_not_found))
  end end.

(** ** Paths

    [path i x l y]: following previous from the id [x] through the blocks [l]
    of the container one arrives at the id [y]. *)

Inductive path (i : gmap sha256 block_state) : sha256 -> list block_state -> sha256 -> Prop :=
  | path_nil x : path i x [] x
  | path_cons x b l y : i !! x = Some b -> path i (previous b) l y -> path i x (b :: l) y.

Definition reach (i : gmap sha256 block_state) (x y : sha256) : Prop := exists l, path i x l y.

Lemma path_app i x l1 y l2 z : path i x l1 y -> path i y l2 z -> path i x (l1 ++ l2) z.
Proof. induction 1; simpl; [done|]. intros. econstructor; eauto. Qed.

Lemma path_app_inv i x l1 l2 z :
  path i x (l1 ++ l2) z -> exists y, path i x l1 y /\ path i y l2 z.
Proof.
  revert x. induction l1 as [|b l1 IH]; intros x H; simpl in *; [eauto using path_nil|].
  inversion H as [|? ? ? ? Hb H1]; subst. destruct (IH _ H1) as (y & ? & ?).
  exists y. split; [by econstructor|done].
Qed.

Lemma reach_refl i x : reach i x x.
Proof. exists []. constructor. Qed.

Lemma reach_trans i x y z : reach i x y -> reach i y z -> reach i x z.
Proof. intros [l1 H1] [l2 H2]. exists (l1 ++ l2). by eapply path_app. Qed.

Lemma reach_step i x b y : i !! x = Some b -> reach i (previous b) y -> reach i x y.
Proof. intros Hb [l Hl]. exists (b :: l). by econstructor. Qed.

(** A path that does not start at its end starts in the container. *)
Lemma path_start i x l y : path i x l y -> x <> y -> exists b, i !! x = Some b /\ reach i (previous b) y.
Proof. inversion 1; subst; [done|]. intros _. eexists. split; [done|]. by eexists. Qed.

(** Paths are deterministic: of two paths from one id, one extends the other. *)
Lemma path_split i x l1 y l2 z :
  path i x l1 y -> path i x l2 z ->
  (exists l, l2 = l1 ++ l /\ path i y l z) \/ (exists l, l1 = l2 ++ l /\ path i z l y).
Proof.
  intros H1. revert l2. induction H1 as [x|x b l1 y Hb H1 IH]; intros l2 H2.
  { left. by exists l2. }
  inversion H2 as [|? b' l2' ? Hb' H2']; subst.
  { right. exists (b :: l1). split; [done|]. by econstructor. }
  assert (b' = b) as -> by congruence.
  destruct (IH _ H2') as [(l & -> & Hl)|(l & -> & Hl)]; [left|right]; by exists l.
Qed.

(** A path in a smaller container is a path in the larger one. *)
Lemma path_mono (i j : gmap sha256 block_state) x l y :
  (forall z b, i !! z = Some b -> j !! z = Some b) -> path i x l y -> path j x l y.
Proof. intros H. induction 1; econstructor; eauto. Qed.

Lemma path_blocks i x l y b :
  path i x l y -> b ∈ l -> exists z, i !! z = Some b /\ reach i x z /\ reach i (previous b) y.
Proof.
  induction 1 as [x|x b' l y Hb H IH]; intros Hin; [by apply elem_of_nil in Hin|].
  apply elem_of_cons in Hin as [->|Hin].
  - exists x. split_and!; [done|apply reach_refl|by exists l].
  - destruct (IH Hin) as (z & Hz & Hr & Hp). exists z. split_and!; [done|by eapply reach_step|done].
Qed.

(** ** Acyclic containers *)

(** Blocks are stored under their id, and a block's number is above that of
    its parent. *)
Record acyclic (i : gmap sha256 block_state) : Prop := {
  ac_key x b : i !! x = Some b -> id b = x;
  ac_num x b p : i !! x = Some b -> i !! previous b = Some p -> block_num p < block_num b
}.

Lemma acyclic_delete i x : acyclic i -> acyclic (delete x i).
Proof.
  intros [Hk Hn]. split.
  - intros y b [_ Hy]%lookup_delete_Some. by apply Hk.
  - intros y b p [_ Hy]%lookup_delete_Some [_ Hp]%lookup_delete_Some. by eapply Hn.
Qed.

(** Going down a path, the numbers fall. *)
Lemma path_num i x l y b c :
  acyclic i -> path i x l y -> i !! x = Some b -> i !! y = Some c -> l <> [] ->
  block_num c < block_num b.
Proof.
  intros Hac H. revert b. induction H as [|x b l y Hb H IH]; intros b' Hx Hy Hl; [done|].
  assert (b' = b) as -> by congruence.
  inversion H as [|? p l' ? Hp H']; subst.
  - by eapply ac_num.
  - pose proof (ac_num _ Hac _ _ _ Hb Hp). specialize (IH p Hp Hy ltac:(done)). lia.
Qed.

Lemma path_no_cycle i x l b : acyclic i -> i !! x = Some b -> path i x l x -> l = [].
Proof.
  intros Hac Hb H. destruct l as [|c l]; [done|].
  pose proof (path_num _ _ _ _ _ _ Hac H Hb Hb ltac:(done)). lia.
Qed.

(** ** [remove] *)

Lemma blocks_elem i b : b ∈ blocks i <-> exists x, i !! x = Some b.
Proof.
  unfold blocks. rewrite list_elem_of_fmap. split.
  - intros ([x b'] & -> & H%elem_of_map_to_list). eauto.
  - intros [x Hx]. exists (x, b). by rewrite elem_of_map_to_list.
Qed.

Lemma children_elem i x y :
  acyclic i -> y ∈ children i x <-> exists b, i !! y = Some b /\ previous b = x.
Proof.
  intros Hac. unfold children. rewrite list_elem_of_fmap. split.
  - intros (b & -> & [Hp Hb]%list_elem_of_filter). apply blocks_elem in Hb as [z Hz].
    rewrite (ac_key _ Hac _ _ Hz). eauto.
  - intros (b & Hb & Hp). exists b. rewrite (ac_key _ Hac _ _ Hb). split; [done|].
    apply list_elem_of_filter. split; [done|]. apply blocks_elem. eauto.
Qed.

Lemma children_nodup i x : acyclic i -> NoDup (children i x).
Proof.
  intros Hac. unfold children, blocks.
  assert (NoDup (map_to_list i)) as Hnd by apply NoDup_map_to_list.
  assert (forall k b, (k, b) ∈ map_to_list i -> id b = k) as Hk.
  { intros k b H%elem_of_map_to_list. by apply (ac_key _ Hac). }
  pose proof (NoDup_fst_map_to_list i) as Hf. clear Hnd.
  induction (map_to_list i) as [|[k b] l IH]; simpl in *; [constructor|].
  apply list.NoDup_cons in Hf as [Hn Hf].
  assert (NoDup (map id (filter (fun b => previous b = x) l.*2))) as IH'.
  { apply IH; [|done]. intros k' b' H. apply Hk. set_solver. }
  rewrite filter_cons. case_decide; [|done]. simpl. apply list.NoDup_cons. split; [|done].
  rewrite (Hk k b) by set_solver. intros H'. apply Hn.
  apply list_elem_of_fmap in H' as (b' & -> & [_ Hb']%list_elem_of_filter).
  apply list_elem_of_fmap in Hb' as ([k' b''] & -> & Hin).
  apply list_elem_of_fmap. exists (k', b''). split; [|done]. simpl. apply Hk. set_solver.
Qed.

(** The queue during the scan: no id twice, every id but the first is a
    block whose parent was scanned before, the children of scanned ids are in
    the queue, and the head was not scanned. *)
Record queue_inv (i : gmap sha256 block_state) (hd x : sha256) (done todo : list sha256) : Prop := {
  qi_nodup : NoDup (done ++ todo);
  qi_start : x ∈ done ++ todo;
  qi_parent y : y ∈ done ++ todo -> y = x \/ exists b, i !! y = Some b /\ previous b ∈ done;
  qi_reach y : y ∈ done ++ todo -> reach i y x;
  qi_closed y c : y ∈ done -> c ∈ children i y -> c ∈ done ++ todo;
  qi_head : hd ∉ done
}.

Lemma queue_length i hd x done todo :
  queue_inv i hd x done todo -> (length (done ++ todo) <= S (size i))%nat.
Proof.
  intros [Hnd _ Hp _ _ _]. rewrite <- (size_dom (D := gset sha256) i).
  assert (list_to_set (done ++ todo) ⊆ ({[x]} ∪ dom i : gset sha256)) as Hsub.
  { intros y Hy%elem_of_list_to_set. destruct (Hp y Hy) as [->|(b & Hb & _)]; [set_solver|].
    apply elem_of_union_r, elem_of_dom. eauto. }
  apply subseteq_size in Hsub. rewrite size_list_to_set in Hsub by done.
  pose proof (size_union_alt ({[x]} : gset sha256) (dom i)) as Hu.
  assert (size (dom i ∖ {[x]}) <= size (dom i : gset sha256))%nat by (apply subseteq_size; set_solver).
  rewrite size_singleton in Hu. lia.
Qed.

(** No child of the next id is in the queue yet. *)
Lemma queue_fresh i hd x done y todo c :
  acyclic i -> queue_inv i hd x done (y :: todo) -> c ∈ children i y -> c ∉ done ++ y :: todo.
Proof.
  intros Hac [Hnd _ Hp Hr _ _] Hc Hin. apply children_elem in Hc as (b & Hb & Hpy); [|done].
  destruct (Hp c Hin) as [->|(b' & Hb' & Hd)].
  - destruct (Hr y ltac:(set_solver)) as [l Hl].
    assert (path i x (b :: l) x) as Hcyc by (econstructor; [done|by rewrite Hpy]).
    by pose proof (path_no_cycle _ _ _ _ Hac Hb Hcyc).
  - assert (b' = b) as -> by congruence. rewrite Hpy in Hd.
    apply list.NoDup_app in Hnd as (_ & Hnd & _). apply (Hnd y Hd). set_solver.
Qed.

Lemma queue_step i hd x done y todo :
  acyclic i -> queue_inv i hd x done (y :: todo) -> y <> hd ->
  queue_inv i hd x (done ++ [y]) (todo ++ children i y).
Proof.
  intros Hac Hq Hy. pose proof (fun c => queue_fresh _ _ _ _ _ _ c Hac Hq) as Hfresh.
  destruct Hq as [Hnd Hs Hp Hr Hc Hh].
  assert (forall z, z ∈ (done ++ [y]) ++ todo ++ children i y <->
                    z ∈ done ++ y :: todo \/ z ∈ children i y) as Hel by set_solver.
  split.
  - rewrite (app_assoc (done ++ [y])). apply list.NoDup_app.
    rewrite <- (app_assoc done). simpl. split_and!; [done| |by apply children_nodup].
    intros z Hz Hz'. by apply (Hfresh z).
  - apply Hel. auto.
  - intros z [Hz|Hz]%Hel.
    + destruct (Hp z Hz) as [|(b & ? & ?)]; [auto|]. right. exists b. set_solver.
    + apply children_elem in Hz as (b & ? & Hpb); [|done]. right. exists b. rewrite Hpb. set_solver.
  - intros z [Hz|Hz]%Hel; [auto|]. apply children_elem in Hz as (b & Hb & Hpb); [|done].
    eapply reach_step; [done|]. rewrite Hpb. apply Hr. set_solver.
  - intros z c Hz Hcz. apply Hel. apply elem_of_app in Hz as [Hz|Hz]; [left; by eapply Hc|].
    apply list_elem_of_singleton in Hz as ->. auto.
  - set_solver.
Qed.

(** With nothing left to scan the queue is the subtree. *)
Lemma queue_end i hd x done :
  acyclic i -> queue_inv i hd x done [] -> ~ reach i hd x /\ forall y, y ∈ done <-> reach i y x.
Proof.
  intros Hac [_ Hs _ Hr Hc Hh]. rewrite app_nil_r in *.
  assert (forall y, reach i y x -> y ∈ done) as Hall.
  { intros y [l Hl]. induction Hl as [|y b l x Hb Hl IH]; [done|].
    apply (Hc (previous b)); [by apply IH|]. apply children_elem; eauto. }
  split; [|split; auto]. intros Hhd. by apply Hh, Hall.
Qed.

(** The scan ends; it fails exactly when the head is in the subtree, and
    otherwise returns the subtree. *)
Lemma remove_scan_spec fuel i hd x done todo :
  acyclic i -> queue_inv i hd x done todo -> (fuel + length done = S (size i))%nat ->
  exists r, remove_scan fuel i hd done todo = Some r /\
    match r with
    | Ok q => ~ reach i hd x /\ forall y, y ∈ q <-> reach i y x
    | Err e => e = Throw fork_database_exception /\ reach i hd x
    end.
Proof.
  intros Hac. revert done todo. induction fuel as [|fuel IH]; intros done todo Hq Hf.
  - destruct todo as [|y todo].
    2: { apply queue_length in Hq. rewrite length_app in Hq. simpl in *. lia. }
    simpl. eexists. split; [done|]. by apply (queue_end i hd x done).
  - destruct todo as [|y todo]; simpl; [eexists; split; [done|]; by apply (queue_end i hd x done)|].
    destruct (bool_decide_reflect (y = hd)) as [->|Hne].
    + eexists. split; [done|]. split; [done|]. apply (qi_reach _ _ _ _ _ Hq). set_solver.
    + apply IH; [by apply queue_step|]. rewrite length_app. simpl. lia.
Qed.

Lemma remove_scan_start i hd x :
  acyclic i ->
  exists r, remove_scan (S (size i)) i hd [] [x] = Some r /\
    match r with
    | Ok q => ~ reach i hd x /\ forall y, y ∈ q <-> reach i y x
    | Err e => e = Throw fork_database_exception /\ reach i hd x
    end.
Proof.
  intros Hac. apply remove_scan_spec; [done| |simpl; lia]. split; simpl.
  - apply NoDup_singleton.
  - set_solver.
  - intros y ->%list_elem_of_singleton. auto.
  - intros y ->%list_elem_of_singleton. apply reach_refl.
  - by intros y c ?%elem_of_nil.
  - apply not_elem_of_nil.
Qed.

Lemma erase_all_lookup i ids z :
  erase_all i ids !! z = if decide (z ∈ ids) then None else i !! z.
Proof.
  unfold erase_all. revert i. induction ids as [|x ids IH]; intros i; cbn [foldl].
  { rewrite decide_False by apply not_elem_of_nil. done. }
  rewrite IH. destruct (decide (z ∈ ids)) as [H|H].
  - rewrite decide_True by set_solver. done.
  - destruct (decide (z = x)) as [->|Hne].
    + rewrite decide_True by set_solver. apply lookup_delete_eq.
    + rewrite decide_False by set_solver. by apply lookup_delete_ne.
Qed.

(** What is left of a container without the subtree of [x]. *)
Definition without_subtree (i : gmap sha256 block_state) (x : sha256) (j : gmap sha256 block_state) : Prop :=
  forall z b, j !! z = Some b <-> i !! z = Some b /\ ~ reach i z x.

(** [remove] on an acyclic container. *)
Lemma remove_run db hd x :
  acyclic (index db) -> head db = Some hd ->
  (reach (index db) (id hd) x /\ remove x db = Some (db, Err (Throw fork_database_exception))) \/
  (~ reach (index db) (id hd) x /\ exists j, remove x db = Some (with_index db j, Ok tt) /\
     without_subtree (index db) x j).
Proof.
  intros Hac Hh. destruct (remove_scan_start (index db) (id hd) x Hac) as (r & Hr & Hres).
  unfold remove, mbind, fdb_bind, fdb_get, fdb_lift, fdb_loop, fdb_put. rewrite Hh.
  cbn [deref]. rewrite Hr.
  destruct r as [q|e].
  - destruct Hres as [Hnr Hq]. right. split; [done|]. eexists. split; [done|].
    intros z b. rewrite erase_all_lookup. destruct (decide (z ∈ q)) as [Hz|Hz].
    + split; [done|]. intros [_ Hz']. by rewrite Hq in Hz.
    + rewrite Hq in Hz. tauto.
  - left. destruct Hres as [-> Hres]. done.
Qed.

(** ** The invariant *)

(** The blocks form a tree above the root: a block is stored under its id,
    which carries its number, and follows the root or another block. *)
Record block_tree (i : gmap sha256 block_state) (r : block_state) : Prop := {
  ti_key x b : i !! x = Some b -> id b = x;
  ti_num x b : i !! x = Some b -> block_num b = num_from_id (id b);
  ti_root_num : block_num r = num_from_id (id r);
  ti_parent x b : i !! x = Some b ->
    exists p, root_or_block r i (previous b) = Some p /\ block_num b = block_num p + 1
}.

(** The head is the root or a validated block, and no validated block is
    preferred over it. *)
Definition head_ok (i : gmap sha256 block_state) (r h : block_state) : Prop :=
  (h = r \/ (i !! id h = Some h /\ validated h = true)) /\
  forall x b, i !! x = Some b -> validated b = true -> first_preferred b h = false.

Record fork_inv (db : fork_db) (r h : block_state) : Prop := {
  fi_root : root db = Some r;
  fi_head : head db = Some h;
  fi_tree : block_tree (index db) r;
  fi_best : head_ok (index db) r h
}.

Lemma root_or_block_cases r i x p :
  root_or_block r i x = Some p -> (x = id r /\ p = r) \/ (x <> id r /\ i !! x = Some p).
Proof. unfold root_or_block. case_bool_decide; [intros [= ->]; auto|auto]. Qed.

(** Every block is above the root and reaches it. *)
Lemma tree_above_root i r x b :
  block_tree i r -> i !! x = Some b -> block_num r < block_num b /\ reach i x (id r).
Proof.
  intros Ht. remember (Z.to_nat (block_num b)) as n eqn:En. revert x b En.
  induction n as [n IH] using lt_wf_ind. intros x b -> Hb.
  destruct (ti_parent _ _ Ht x b Hb) as (p & Hp & Hn).
  pose proof (ti_num _ _ Ht x b Hb) as Hnb.
  apply root_or_block_cases in Hp as [[Hp ->]|[Hne Hp]].
  - split; [lia|]. eapply reach_step; [done|]. rewrite Hp. apply reach_refl.
  - pose proof (ti_num _ _ Ht _ p Hp) as Hnp.
    pose proof (num_from_id_range (id p)) as [? _].
    destruct (IH (Z.to_nat (block_num p)) ltac:(lia) _ _ eq_refl Hp) as [? ?].
    split; [lia|]. by eapply reach_step.
Qed.

(** The root is not in the container. *)
Lemma tree_root_outside i r : block_tree i r -> i !! id r = None.
Proof.
  intros Ht. destruct (i !! id r) as [b|] eqn:Hb; [|done].
  destruct (tree_above_root _ _ _ _ Ht Hb) as [Hlt _].
  rewrite (ti_num _ _ Ht _ _ Hb), (ti_key _ _ Ht _ _ Hb), (ti_root_num _ _ Ht) in Hlt. lia.
Qed.

Lemma tree_acyclic i r : block_tree i r -> acyclic i.
Proof.
  intros Ht. split; [apply (ti_key _ _ Ht)|]. intros x b p Hb Hp.
  destruct (ti_parent _ _ Ht x b Hb) as (q & Hq & Hn).
  apply root_or_block_cases in Hq as [[Hx ->]|[_ Hq]].
  - rewrite Hx, (tree_root_outside _ _ Ht) in Hp. done.
  - assert (q = p) as -> by congruence. lia.
Qed.

(** ** The best block *)

(** The composite key, turned so that the first element is the least. *)
Definition sort_key (b : block_state) : Z * (Z * (Z * sha256)) :=
  (if validated b then 0 else 1, (- dpos_irreversible_blocknum b, (- block_num b, id b))).

Lemma before_key a b :
  before a b = tie_lt Z.ltb (tie_lt Z.ltb (tie_lt Z.ltb sha256_less)) (sort_key a) (sort_key b).
Proof.
  unfold before, sort_key, tie_lt. apply eq_bool_prop_intro. rewrite !Is_true_true.
  destruct (validated a), (validated b); simpl; try done;
    repeat rewrite ?orb_true_iff, ?andb_true_iff, ?negb_true_iff, ?Z.gtb_lt, ?Z.eqb_eq,
      ?Z.ltb_lt, ?Z.ltb_ge; generalize (sha256_less (id a) (id b) = true); intros P;
    destruct (Z.lt_trichotomy (dpos_irreversible_blocknum a) (dpos_irreversible_blocknum b))
      as [|[|]], (Z.lt_trichotomy (block_num a) (block_num b)) as [|[|]]; intuition lia.
Qed.

Lemma before_irrefl a : before a a = false.
Proof. rewrite before_key. apply lt_irrefl. Qed.

(** What precedes [c] precedes any [b], or [b] precedes [c]. *)
Lemma before_cotrans a b c : before a c = true -> before a b = true \/ before b c = true.
Proof.
  rewrite !before_key. intros H.
  destruct (lt_total (lt := tie_lt Z.ltb (tie_lt Z.ltb (tie_lt Z.ltb sha256_less)))
              (sort_key a) (sort_key b)) as [|[E|E]]; [auto|rewrite <- E; auto|].
  right. by eapply lt_trans.
Qed.

(** The fold keeps a member that none of the list precedes. *)
Lemma foldl_better_spec b l :
  let m := foldl better b l in m ∈ b :: l /\ forall c, c ∈ b :: l -> before c m = false.
Proof.
  revert b. induction l as [|a l IH]; intros b; cbn [foldl].
  { split; [set_solver|]. intros c ->%list_elem_of_singleton. apply before_irrefl. }
  destruct (IH (better b a)) as [Hin Hmin]. set (m := foldl better (better b a) l) in *.
  split; [unfold better in *; destruct (before a b); set_solver|].
  intros c Hc. destruct (before c m) eqn:Hcm; [|done].
  assert (before (better b a) m = false) as Hb by (apply Hmin; set_solver).
  assert (c ∉ l) as Hl by (intros ?; rewrite Hmin in Hcm; [done|set_solver]).
  destruct (before_cotrans c (better b a) m Hcm) as [Hcb|]; [|congruence].
  unfold better in *. destruct (before a b) eqn:Hab.
  - assert (c = b) as -> by (apply elem_of_cons in Hc as [->|[->|]%elem_of_cons];
      [done|by rewrite before_irrefl in Hcb|done]).
    rewrite before_key in *. by rewrite (lt_asym _ _ _ Hab) in Hcb.
  - apply elem_of_cons in Hc as [->|[->|]%elem_of_cons]; [by rewrite before_irrefl in Hcb|congruence|done].
Qed.

Lemma first_of_spec l :
  match first_of l with
  | Some m => m ∈ l /\ forall c, c ∈ l -> before c m = false
  | None => l = []
  end.
Proof. destruct l as [|b l]; [done|]. apply foldl_better_spec. Qed.

Lemma not_preferred a b :
  first_preferred a b = false <->
  dpos_irreversible_blocknum a < dpos_irreversible_blocknum b \/
  (dpos_irreversible_blocknum a = dpos_irreversible_blocknum b /\ block_num a <= block_num b).
Proof.
  unfold first_preferred. rewrite orb_false_iff, andb_false_iff, negb_false_iff, !Z.gtb_ltb,
    !Z.ltb_ge, Z.ltb_lt. lia.
Qed.

Lemma not_preferred_trans a b c :
  first_preferred a b = false -> first_preferred b c = false -> first_preferred a c = false.
Proof. rewrite !not_preferred. lia. Qed.

(** A block that does not precede another of the same validity is not
    preferred over it. *)
Lemma before_preferred a b :
  before a b = false -> validated a = validated b -> first_preferred a b = false.
Proof.
  unfold before, first_preferred. intros H E. rewrite E, eqb_reflx in H.
  apply orb_false_iff in H as [H1 H2]. rewrite H1. simpl.
  destruct (Z.ltb_spec (dpos_irreversible_blocknum a) (dpos_irreversible_blocknum b)); [done|].
  simpl. bool_to_prop. replace (dpos_irreversible_blocknum a =? dpos_irreversible_blocknum b)
    with true in H2 by (symmetry; apply Z.eqb_eq; lia).
  by apply orb_false_iff in H2 as [-> _].
Qed.

(** A validated first element is the best of the validated blocks; if the
    first element is not valid, none is. *)
Lemma best_block_spec i c :
  best_block i = Some c ->
  (exists x, i !! x = Some c) /\
  forall x b, i !! x = Some b -> validated b = true -> validated c = true /\ first_preferred b c = false.
Proof.
  intros Hc. pose proof (first_of_spec (blocks i)) as H. unfold best_block in Hc. rewrite Hc in H.
  destruct H as [Hin Hmin]. split; [by apply blocks_elem|]. intros x b Hb Hv.
  assert (before b c = false) as Hbc by (apply Hmin, blocks_elem; eauto).
  assert (validated c = true) as Hvc.
  { destruct (validated c) eqn:E; [done|]. unfold before in Hbc. by rewrite Hv, E in Hbc. }
  split; [done|]. apply before_preferred; [done|congruence].
Qed.

Lemma best_block_none i : best_block i = None -> i = ∅.
Proof.
  intros Hn. pose proof (first_of_spec (blocks i)) as H. unfold best_block in Hn. rewrite Hn in H.
  apply map_to_list_empty_iff. unfold blocks in H. by apply fmap_nil_inv in H.
Qed.

(** ** The invariant is kept *)

Lemma reset_inv b :
  block_num b = num_from_id (id b) -> fork_inv (reset b) (set_validated true b) (set_validated true b).
Proof.
  intros Hn. split; [done|done| |]; cbn [index reset].
  - split; [intros x c; by rewrite lookup_empty..|done|intros x c; by rewrite lookup_empty].
  - split; [by left|]. intros x c. by rewrite lookup_empty.
Qed.

(** Changing flags does not change the tree. *)
Lemma block_tree_flags (i j : gmap sha256 block_state) r :
  (forall x, set_validated true <$> j !! x = set_validated true <$> i !! x) ->
  block_tree i r -> block_tree j r.
Proof.
  intros Hij Ht.
  assert (forall x b, j !! x = Some b -> exists b', i !! x = Some b' /\
            set_validated true b = set_validated true b') as Hback.
  { intros x b Hb. specialize (Hij x). rewrite Hb in Hij.
    destruct (i !! x) as [b'|]; [|done]. exists b'. split; [done|]. by apply (inj Some). }
  assert (forall x b, i !! x = Some b -> exists b', j !! x = Some b' /\
            set_validated true b = set_validated true b') as Hforth.
  { intros x b Hb. specialize (Hij x). rewrite Hb in Hij.
    destruct (j !! x) as [b'|]; [|done]. exists b'. split; [done|]. symmetry. by apply (inj Some). }
  split; [| |apply (ti_root_num _ _ Ht)|].
  - intros x b (b' & Hb' & E)%Hback. injection E as -> _ _ _ _ _ _. by apply (ti_key _ _ Ht).
  - intros x b (b' & Hb' & E)%Hback. injection E as -> _ -> _ _ _ _. by apply (ti_num _ _ Ht x).
  - intros x b (b' & Hb' & E)%Hback. injection E as _ -> -> _ _ _ _.
    destruct (ti_parent _ _ Ht x b' Hb') as (p & Hp & Hn). unfold root_or_block in *.
    case_bool_decide; [by exists p|]. apply Hforth in Hp as (p' & Hp' & E).
    injection E as _ _ E _ _ _ _. exists p'. split; [done|lia].
Qed.

Lemma rollback_inv db r h : fork_inv db r h -> fork_inv (rollback_head_to_root db) r r.
Proof.
  intros [Hr Hh Ht Hb]. split; [done|done| |].
  - apply (block_tree_flags (index db)); [|done]. intros x. simpl. rewrite lookup_fmap.
    by destruct (index db !! x).
  - split; [by left|]. intros x b. simpl. rewrite lookup_fmap. intros Hx.
    destruct (index db !! x) as [c|]; [|done]. apply (inj Some) in Hx as <-. done.
Qed.

(** What [add] relies on: a block that links to the tree has the number after
    its parent's, and its id carries it. *)
Definition numbered (i : gmap sha256 block_state) (r n : block_state) : Prop :=
  forall p, root_or_block r i (previous n) = Some p ->
            block_num n = block_num p + 1 /\ block_num n = num_from_id (id n).

Lemma block_tree_insert i r n p :
  block_tree i r -> numbered i r n -> root_or_block r i (previous n) = Some p -> i !! id n = None ->
  block_tree (<[id n := n]> i) r.
Proof.
  intros Ht Hn Hp Hnew. destruct (Hn p Hp) as [Hnum Hid].
  assert (forall x q, root_or_block r i x = Some q -> root_or_block r (<[id n := n]> i) x = Some q)
    as Hmono.
  { intros x q. unfold root_or_block. case_bool_decide; [done|]. intros Hx.
    rewrite lookup_insert_ne; [done|congruence]. }
  split.
  - intros x b. rewrite lookup_insert_Some. intros [[<- <-]|[_ Hx]]; [done|by apply (ti_key _ _ Ht)].
  - intros x b. rewrite lookup_insert_Some. intros [[<- <-]|[_ Hx]]; [done|by apply (ti_num _ _ Ht x)].
  - apply (ti_root_num _ _ Ht).
  - intros x b. rewrite lookup_insert_Some. intros [[<- <-]|[_ Hx]]; [eauto|].
    destruct (ti_parent _ _ Ht x b Hx) as (q & Hq & Hqn). eauto.
Qed.

(** A validated best block is a head. *)
Lemma best_block_head i r c :
  block_tree i r -> best_block i = Some c -> validated c = true -> head_ok i r c.
Proof.
  intros Ht Hc Hv. destruct (best_block_spec i c Hc) as [[x Hx] Hbest]. split.
  - right. by rewrite (ti_key _ _ Ht x c Hx).
  - intros y b Hy Hvb. by apply (Hbest y).
Qed.

Lemma head_ok_insert i r h n :
  head_ok i r h -> i !! id n = None -> validated n = false -> head_ok (<[id n := n]> i) r h.
Proof.
  intros [Hh Hb] Hn Hv. split.
  - destruct Hh as [->|[Hh Hhv]]; [by left|right]. split; [|done].
    rewrite lookup_insert_ne; [done|congruence].
  - intros x b. rewrite lookup_insert_Some. intros [[<- <-]|[_ Hx]]; [congruence|by apply (Hb x)].
Qed.

Lemma get_block_header_root db r x :
  root db = Some r -> get_block_header db x = Ok (root_or_block r (index db) x).
Proof.
  intros Hr. unfold get_block_header, root_or_block. rewrite Hr. cbn [deref mbind result_bind].
  by rewrite (bool_decide_ext (id r = x) (x = id r)) by done.
Qed.

(** [add] either leaves the database alone or inserts the block and looks
    for the best one. *)
Lemma add_cases n dup v validator db r db' res :
  root db = Some r -> fork_database_impl_add (Some n) dup v validator db = Some (db', res) ->
  (db' = db /\ ~ (res = Ok tt /\ index db !! id n = None)) \/
  (res = Ok tt /\ index db !! id n = None /\ is_Some (root_or_block r (index db) (previous n)) /\
   exists c, best_block (<[id n := n]> (index db)) = Some c /\
     db' = mk_fork_db (<[id n := n]> (index db)) (root db) (if validated c then Some c else head db)).
Proof.
  intros Hr. unfold fork_database_impl_add, mbind, fdb_bind, fdb_get, fdb_lift, fdb_put, mret, fdb_ret.
  rewrite Hr, bool_decide_true by eauto. cbn [ine_assert]. rewrite bool_decide_true by eauto.
  cbn [ine_assert deref]. rewrite (get_block_header_root _ r) by done.
  destruct (root_or_block r (index db) (previous n)) as [p|] eqn:Hp.
  2: { intros [= <- <-]. left. split; [done|]. by intros [? _]. }
  set (checked := if v then _ else _).
  assert (checked db = Some (db, Ok tt) \/ exists e, checked db = Some (db, Err e)) as Hch.
  { unfold checked. destruct v, (new_protocol_features n) as [f|]; try (left; done).
    destruct (validator _ _ f); [by left|right; eauto]. }
  destruct Hch as [->|[e ->]].
  2: { intros [= <- <-]. left. split; [done|]. by intros [? _]. }
  destruct (index db !! id n) eqn:Hn.
  { destruct dup; intros [= <- <-]; left; (split; [done|]); by intros [_ ?]. }
  destruct (best_block (<[id n := n]> (index db))) as [c|] eqn:Hc.
  2: { apply best_block_none in Hc. by apply insert_non_empty in Hc. }
  intros H. right. split_and!; [by destruct (validated c); injection H|done|eauto|].
  exists c. split; [done|]. rewrite <- Hr.
  destruct (validated c); injection H as <- _; [by rewrite Hr|by destruct db].
Qed.

Lemma add_inv n dup v validator db r h db' res :
  fork_inv db r h -> numbered (index db) r n ->
  fork_database_impl_add (Some n) dup v validator db = Some (db', res) ->
  exists h', fork_inv db' r h'.
Proof.
  intros Hinv Hn Hadd. pose proof Hinv as [Hr Hh Ht Hb].
  destruct (add_cases _ _ _ _ _ _ _ _ Hr Hadd) as [[-> _]|(_ & Hnew & [p Hp] & c & Hc & ->)]; [eauto|].
  pose proof (block_tree_insert _ _ _ _ Ht Hn Hp Hnew) as Ht'.
  destruct (validated c) eqn:Hv.
  - exists c. split; [done|done|done|]. by apply best_block_head.
  - exists h. split; [done|done|done|]. apply head_ok_insert; [done|done|].
    destruct (validated n) eqn:Hvn; [|done].
    destruct (best_block_spec _ _ Hc) as [_ Hbest].
    destruct (Hbest (id n) n) as [? _]; [apply lookup_insert_eq|done|congruence].
Qed.

Lemma mark_valid_inv b db r h db' res :
  fork_inv db r h -> mark_valid b db = Some (db', res) -> exists h', fork_inv db' r h'.
Proof.
  intros Hinv. pose proof Hinv as [Hr Hh Ht [Hhd Hbest]].
  unfold mark_valid, mbind, fdb_bind, fdb_get, fdb_lift, fdb_put, mret, fdb_ret.
  destruct (validated b); [intros [= <- _]; eauto|].
  destruct (index db !! id b) as [c|] eqn:Hc; [|intros [= <- _]; eauto].
  set (i := <[id b := set_validated true c]> (index db)).
  assert (block_tree i r) as Ht'.
  { apply (block_tree_flags (index db)); [|done]. intros x. unfold i.
    destruct (decide (x = id b)) as [->|]; [by rewrite lookup_insert_eq, Hc|by rewrite lookup_insert_ne]. }
  assert (i !! id b = Some (set_validated true c)) as Hib by apply lookup_insert_eq.
  destruct (best_block i) as [m|] eqn:Hm.
  2: { apply best_block_none in Hm. by rewrite Hm, lookup_empty in Hib. }
  destruct (best_block_spec _ _ Hm) as [_ Hm']. destruct (Hm' _ _ Hib eq_refl) as [Hmv _].
  cbn [deref]. rewrite Hh. cbn [deref]. destruct (first_preferred m h) eqn:Hpref; intros [= <- _].
  - exists m. split; [done|done|done|]. by apply best_block_head.
  - exists h. split; [done|done|done|]. split.
    + destruct Hhd as [|[Hx Hv]]; [auto|right]. split; [|done]. simpl. unfold i.
      destruct (decide (id b = id h)) as [E|]; [|by rewrite lookup_insert_ne].
      rewrite E in *. rewrite lookup_insert_eq. assert (c = h) as -> by congruence.
      destruct h; simpl in *. by subst.
    + intros x y Hy Hyv. destruct (Hm' x y Hy Hyv) as [_ Hym].
      by apply (not_preferred_trans y m h).
Qed.

(** A subtree that does not contain the head can go. *)
Lemma without_subtree_tree i r x j : block_tree i r -> without_subtree i x j -> block_tree j r.
Proof.
  intros Ht Hj. split.
  - intros y b [Hy _]%Hj. by apply (ti_key _ _ Ht).
  - intros y b [Hy _]%Hj. by apply (ti_num _ _ Ht y).
  - apply (ti_root_num _ _ Ht).
  - intros y b [Hy Hr]%Hj. destruct (ti_parent _ _ Ht y b Hy) as (p & Hp & Hn). exists p.
    split; [|done]. apply root_or_block_cases in Hp as [[Hp ->]|[Hne Hp]]; unfold root_or_block.
    + by rewrite bool_decide_true.
    + rewrite bool_decide_false by done. apply Hj. split; [done|]. intros Hr'. apply Hr.
      by eapply reach_step.
Qed.

Lemma without_subtree_head i r h x j :
  head_ok i r h -> ~ reach i (id h) x -> without_subtree i x j -> head_ok j r h.
Proof.
  intros [Hh Hb] Hx Hj. split.
  - destruct Hh as [|[Hh Hv]]; [auto|right]. split; [|done]. by apply Hj.
  - intros y b [Hy _]%Hj. by apply (Hb y).
Qed.

Lemma remove_inv x db r h db' res :
  fork_inv db r h -> remove x db = Some (db', res) -> fork_inv db' r h.
Proof.
  intros Hinv. pose proof Hinv as [Hr Hh Ht Hb].
  destruct (remove_run db h x (tree_acyclic _ _ Ht) Hh) as [[_ ->]|(Hx & j & -> & Hj)];
    intros [= <- _]; [done|].
  split; [done|done|by eapply without_subtree_tree|by eapply without_subtree_head].
Qed.

(** ** [advance_root] *)

(** A path in an acyclic container is no longer than the container. *)
Lemma path_nodup i x l y : acyclic i -> path i x l y -> NoDup (map id l).
Proof.
  intros Hac. induction 1 as [x|x b l y Hb H IH]; simpl; [constructor|].
  apply list.NoDup_cons. split; [|done]. intros (c & Hc & Hin)%list_elem_of_fmap.
  destruct (path_blocks _ _ _ _ _ H Hin) as (z & Hz & [l' Hl'] & _).
  rewrite (ac_key _ Hac _ _ Hb), (ac_key _ Hac _ _ Hz) in Hc. subst z.
  assert (path i x (b :: l') x) as Hcyc by by econstructor.
  by pose proof (path_no_cycle _ _ _ _ Hac Hb Hcyc).
Qed.

Lemma path_length i x l y : acyclic i -> path i x l y -> (length l <= size i)%nat.
Proof.
  intros Hac H. pose proof (path_nodup _ _ _ _ Hac H) as Hnd.
  rewrite <- (size_dom (D := gset sha256) i), <- (length_map id l),
    <- (size_list_to_set (C := gset sha256) _ Hnd).
  apply subseteq_size. intros y' (b & -> & Hb)%elem_of_list_to_set%list_elem_of_fmap.
  destruct (path_blocks _ _ _ _ _ H Hb) as (z & Hz & _ & _).
  rewrite (ac_key _ Hac _ _ Hz). apply elem_of_dom. eauto.
Qed.

(** The loop collects the ids of the path to the root. *)
Lemma blocks_to_remove_spec fuel i r b l :
  acyclic i -> i !! id r = None -> path i (previous b) l (id r) -> (length l < fuel)%nat ->
  blocks_to_remove fuel i (id r) b = Some (Ok (map id l ++ [id r])).
Proof.
  intros Hac Hr. revert b l. induction fuel as [|fuel IH]; intros b l H Hf; [lia|].
  cbn [blocks_to_remove]. inversion H as [|? c l' ? Hc H']; subst.
  - replace (previous b) with (id r) by congruence. by rewrite Hr, bool_decide_true.
  - rewrite Hc. simpl in Hf. rewrite (IH c l' H' ltac:(lia)). simpl.
    by rewrite (ac_key _ Hac _ _ Hc).
Qed.

(** Removing a subtree does not change the paths that avoid it. *)
Lemma without_subtree_reach i x j y z :
  without_subtree i x j -> ~ reach i y x -> (reach j y z <-> reach i y z).
Proof.
  intros Hj Hy. split; intros [l Hl].
  - exists l. eapply path_mono; [|done]. intros w b Hw. by apply Hj.
  - exists l. induction Hl as [|y b l z Hb Hl IH]; [constructor|].
    econstructor; [by apply Hj|]. apply IH. intros Hr. apply Hy. by eapply reach_step.
Qed.

Lemma without_subtree_acyclic i x j : acyclic i -> without_subtree i x j -> acyclic j.
Proof.
  intros [Hk Hn] Hj. split.
  - intros y b [Hy _]%Hj. by apply Hk.
  - intros y b p [Hy _]%Hj [Hp _]%Hj. by eapply Hn.
Qed.

(** The loop of calls of [remove]: it fails if the head is above one of the
    ids, and otherwise leaves the blocks that are above none. *)
Lemma remove_each_run ids db hd :
  acyclic (index db) -> head db = Some hd ->
  ((forall a, a ∈ ids -> ~ reach (index db) (id hd) a) /\
   exists j, remove_each ids db = Some (with_index db j, Ok tt) /\
     forall z b, j !! z = Some b <->
       index db !! z = Some b /\ forall a, a ∈ ids -> ~ reach (index db) z a) \/
  ((exists a, a ∈ ids /\ reach (index db) (id hd) a) /\
   exists db', remove_each ids db = Some (db', Err (Throw fork_database_exception))).
Proof.
  revert db. induction ids as [|x ids IH]; intros db Hac Hh; cbn [remove_each].
  { left. split; [set_solver|]. exists (index db). split; [by destruct db|]. set_solver. }
  unfold mbind, fdb_bind.
  destruct (remove_run db hd x Hac Hh) as [[Hx ->]|(Hx & j & -> & Hj)].
  { right. split; [exists x; set_solver|eauto]. }
  pose proof (without_subtree_acyclic _ _ _ Hac Hj) as Hac'.
  pose proof (fun y z => without_subtree_reach _ _ _ y z Hj) as Hreach.
  destruct (IH (with_index db j) Hac' Hh) as [(Hall & j' & -> & Hj')|((a & Ha & Hra) & db' & ->)].
  - left. cbn [index with_index] in *. split.
    { intros a [->|Ha]%elem_of_cons; [done|]. rewrite <- Hreach by done. by apply Hall. }
    exists j'. split; [done|]. intros z b. rewrite Hj', (Hj z b). split.
    + intros [[Hz Hzx] Hza]. split; [done|]. intros a [->|Ha]%elem_of_cons; [done|].
      rewrite <- Hreach by done. by apply Hza.
    + intros [Hz Hza]. assert (~ reach (index db) z x) by (apply Hza; set_solver).
      split; [done|]. intros a Ha. rewrite Hreach by done. apply Hza. set_solver.
  - right. cbn [index with_index] in *. split; [|eauto]. exists a. split; [set_solver|].
    by apply Hreach in Hra.
Qed.

(** A path that does not visit [x] is one in the container without [x]. *)
Lemma path_avoid i x z l y : path i z l y -> reach i z x \/ path (delete x i) z l y.
Proof.
  induction 1 as [z|z b l y Hb H [IH|IH]]; [right; constructor|left; by eapply reach_step|].
  destruct (decide (z = x)) as [->|Hne]; [left; apply reach_refl|right].
  econstructor; [by rewrite lookup_delete_ne|done].
Qed.

Lemma path_delete i x z l y : path (delete x i) z l y -> path i z l y.
Proof. apply path_mono. by intros w b [_ Hw]%lookup_delete_Some. Qed.

(** An id on the way down from [x] is not reached in the container without
    [x] from an id above [x]. *)
Lemma path_cut i x b z a :
  acyclic i -> i !! x = Some b -> reach i (previous b) a -> reach i z x ->
  ~ reach (delete x i) z a.
Proof.
  intros Hac Hb Ha [l1 Hz] [l2 Hza].
  assert (forall l, ~ path i a l x) as Hcyc.
  { intros l Hl. destruct Ha as [l' Ha]. assert (path i x (b :: l' ++ l) x) as Hx.
    { econstructor; [done|]. by eapply path_app. }
    by pose proof (path_no_cycle _ _ _ _ Hac Hb Hx). }
  destruct (path_split i z l1 x l2 a Hz (path_delete _ _ _ _ _ Hza)) as [(l & -> & Hl)|(l & _ & Hl)].
  - apply path_app_inv in Hza as (y & Hy & Hya).
    assert (y = x) as ->.
    { destruct (path_split i z l1 x l1 y Hz (path_delete _ _ _ _ _ Hy)) as [(k & E & Hk)|(k & E & Hk)];
        rewrite <- (app_nil_r l1) in E at 1; apply app_inv_head in E as <-; by inversion Hk. }
    inversion Hya as [|? c ? ? Hc]; subst; [by apply (Hcyc []), path_nil|].
    by rewrite lookup_delete_eq in Hc.
  - by apply (Hcyc l).
Qed.

(** Cutting [x] out, the ids that are above none of the ids below [x] are
    those above [x]. *)
Lemma ancestors_cut i r x b l z :
  block_tree i r -> i !! x = Some b -> path i (previous b) l (id r) -> z = id r \/ is_Some (i !! z) ->
  (forall a, a ∈ map id l ++ [id r] -> ~ reach (delete x i) z a) <-> reach i z x.
Proof.
  intros Ht Hb Hl Hz. pose proof (tree_acyclic _ _ Ht) as Hac. split.
  - intros Hall. specialize (Hall (id r) ltac:(set_solver)).
    assert (reach i z (id r)) as [k Hk].
    { destruct Hz as [->|[c Hc]]; [apply reach_refl|]. by apply (tree_above_root i r z c). }
    destruct (path_avoid i x z k (id r) Hk) as [|Hk']; [done|]. destruct Hall. by exists k.
  - intros Hzx a Ha. apply (path_cut i x b); [done|done| |done].
    apply elem_of_app in Ha as [Ha|Ha].
    + apply list_elem_of_fmap in Ha as (c & -> & Hc).
      destruct (path_blocks _ _ _ _ _ Hl Hc) as (w & Hw & Hr & _).
      by rewrite (ac_key _ Hac _ _ Hw).
    + apply list_elem_of_singleton in Ha as ->. by exists l.
Qed.

(** The blocks above the new root. *)
Definition strictly_above (i : gmap sha256 block_state) (x : sha256) (j : gmap sha256 block_state) : Prop :=
  forall z b, j !! z = Some b <-> i !! z = Some b /\ z <> x /\ reach i z x.

Lemma advance_root_run x b db r h :
  fork_inv db r h -> index db !! x = Some b -> validated b = true ->
  (reach (index db) (id h) x /\ exists j,
     advance_root x db = Some (mk_fork_db j (Some b) (Some h), Ok tt) /\
     strictly_above (index db) x j) \/
  (~ reach (index db) (id h) x /\ exists db',
     advance_root x db = Some (db', Err (Throw fork_database_exception))).
Proof.
  intros [Hr Hh Ht [Hhd _]] Hb Hv. pose proof (tree_acyclic _ _ Ht) as Hac.
  destruct (tree_above_root _ _ _ _ Ht Hb) as [_ [l' Hl']].
  inversion Hl' as [|? b' l ? Hb' Hl]; subst.
  { by rewrite (tree_root_outside _ _ Ht) in Hb. }
  assert (b' = b) as -> by congruence.
  assert (forall z, z = id r \/ is_Some (index db !! z) ->
    (forall a, a ∈ map id l ++ [id r] -> ~ reach (delete x (index db)) z a) <-> reach (index db) z x)
    as Hcut by (intros z; by apply (ancestors_cut _ r x b l)).
  assert (id h = id r \/ is_Some (index db !! id h)) as Hhz.
  { destruct Hhd as [->|[? _]]; [auto|right; eauto]. }
  unfold advance_root, mbind, fdb_bind, fdb_get, fdb_lift, fdb_put, fdb_loop, get_block.
  rewrite Hr, bool_decide_true by eauto. cbn [ine_assert deref]. rewrite Hb, Hv. cbn [ine_assert].
  rewrite (blocks_to_remove_spec _ _ r b l); [|done|by apply tree_root_outside|done|].
  2: { apply Nat.lt_succ_r. by eapply path_length. }
  destruct (remove_each_run (map id l ++ [id r]) (with_index db (delete x (index db))) h
              (acyclic_delete _ _ Hac) Hh) as [(Hall & j & -> & Hj)|((a & Ha & Hra) & db' & ->)];
    cbn [index with_index] in *.
  - left. split; [by apply Hcut|]. exists j. split; [by destruct db; simpl in *; subst|].
    intros z c. rewrite Hj, lookup_delete_Some. split.
    + intros [[Hne Hz] Hza]. split_and!; [done|done|]. apply Hcut; eauto.
    + intros (Hz & Hne & Hzx). split; [done|]. apply Hcut; eauto.
  - right. split; [|eauto]. intros Hx. by apply (Hcut _ Hhz) in Hra.
Qed.

Lemma strictly_above_tree i r x b j :
  block_tree i r -> i !! x = Some b -> strictly_above i x j -> block_tree j b.
Proof.
  intros Ht Hb Hj. pose proof (ti_key _ _ Ht x b Hb) as Hid. split.
  - intros y c [Hy _]%Hj. by apply (ti_key _ _ Ht).
  - intros y c [Hy _]%Hj. by apply (ti_num _ _ Ht y).
  - by apply (ti_num _ _ Ht x).
  - intros y c (Hy & Hne & [l Hl])%Hj. destruct (path_start _ _ _ _ Hl Hne) as (c' & Hc' & Hpx).
    assert (c' = c) as -> by congruence.
    destruct (ti_parent _ _ Ht y c Hy) as (p & Hp & Hn). exists p. split; [|done].
    unfold root_or_block. rewrite Hid. case_bool_decide as Hpc.
    + rewrite Hpc in Hp. apply root_or_block_cases in Hp as [[Hx _]|[_ Hp]]; [|congruence].
      by rewrite Hx, (tree_root_outside _ _ Ht) in Hb.
    + apply root_or_block_cases in Hp as [[Hpr _]|[_ Hp]]; [|by apply Hj].
      destruct Hpx as [l' Hl']. destruct (path_start _ _ _ _ Hl' Hpc) as (q & Hq & _).
      by rewrite Hpr, (tree_root_outside _ _ Ht) in Hq.
Qed.

Lemma advance_inv x db r h db' :
  fork_inv db r h -> advance_root x db = Some (db', Ok tt) -> exists r', fork_inv db' r' h.
Proof.
  intros Hinv Hadv. pose proof Hinv as [Hr Hh Ht [Hhd Hbest]].
  destruct (index db !! x) as [b|] eqn:Hb; cycle 1.
  { exfalso. revert Hadv. unfold advance_root, mbind, fdb_bind, fdb_get, fdb_lift, get_block.
    by rewrite Hr, bool_decide_true, Hb by eauto. }
  destruct (validated b) eqn:Hv; cycle 1.
  { exfalso. revert Hadv. unfold advance_root, mbind, fdb_bind, fdb_get, fdb_lift, get_block.
    rewrite Hr, bool_decide_true, Hb by eauto. cbn [ine_assert deref]. by rewrite Hv. }
  destruct (advance_root_run x b db r h Hinv Hb Hv) as [(Hhx & j & E & Hj)|(_ & db'' & E)];
    rewrite E in Hadv; [|done].
  injection Hadv as <-. exists b. split; [done|done|by eapply strictly_above_tree|]. split.
  - destruct Hhd as [->|[Hhi Hhv]].
    { destruct Hhx as [l Hl]. exfalso. pose proof (tree_root_outside _ _ Ht) as Hro.
      destruct (decide (id r = x)) as [<-|Hne]; [congruence|].
      destruct (path_start _ _ _ _ Hl Hne) as (q & Hq & _). congruence. }
    destruct (decide (id h = x)) as [<-|Hne]; [left; congruence|right]. split; [|done]. by apply Hj.
  - intros y c [Hy _]%Hj. by apply (Hbest y).
Qed.

(** With an id it cannot advance to, [advance_root] leaves the database as it
    is: no block has the id, or one that is not validated. *)
Lemma advance_root_refused x db r h :
  fork_inv db r h -> (forall b, index db !! x = Some b -> validated b = false) ->
  advance_root x db = Some (db, Err (Throw fork_database_exception)).
Proof.
  intros [Hr _ _ _] Hx. unfold advance_root, mbind, fdb_bind, fdb_get, fdb_lift, get_block.
  rewrite Hr, bool_decide_true by eauto. cbn [ine_assert deref].
  destruct (index db !! x) as [b|] eqn:Hb; [|done]. by rewrite (Hx b).
Qed.

Lemma advance_any_inv x db r h db' res :
  fork_inv db r h ->
  (forall b h, index db !! x = Some b -> validated b = true -> head db = Some h -> reach (index db) (id h) x) ->
  advance_root x db = Some (db', res) -> exists r', fork_inv db' r' h.
Proof.
  intros Hinv Hx Hadv. destruct (index db !! x) as [b|] eqn:Hb; [destruct (validated b) eqn:Hv|].
  - pose proof (Hx b h eq_refl Hv (fi_head _ _ _ Hinv)) as Hr.
    destruct (advance_root_run x b db r h Hinv Hb Hv) as [(_ & j & E & _)|(Hn & _)]; [|done].
    rewrite E in Hadv. injection Hadv as <- <-. by eapply advance_inv.
  - rewrite (advance_root_refused x db r h Hinv) in Hadv by (intros b'; rewrite Hb; congruence).
    injection Hadv as <- _. eauto.
  - rewrite (advance_root_refused x db r h Hinv) in Hadv by (intros b'; by rewrite Hb).
    injection Hadv as <- _. eauto.
Qed.

(** ** Reachable states *)

(** The operations that change the database.  A block that is added has the
    number after its parent's and an id that carries it, which is how
    block_header_state builds it.  advance_root is called for any id but that
    of a validated block the head does not descend from, for which it throws
    halfway ([advance_root_partial]); log_irreversible calls it for blocks of
    the branch of the head. *)
Inductive fork_step : fork_db -> fork_db -> Prop :=
  | step_reset db b : block_num b = num_from_id (id b) -> fork_step db (reset b)
  | step_rollback db : fork_step db (rollback_head_to_root db)
  | step_add db r n dup validate validator db' res :
      root db = Some r -> numbered (index db) r n ->
      fork_database_impl_add (Some n) dup validate validator db = Some (db', res) ->
      fork_step db db'
  | step_mark_valid db b db' res : mark_valid b db = Some (db', res) -> fork_step db db'
  | step_remove db x db' res : remove x db = Some (db', res) -> fork_step db db'
  | step_advance_root db x db' res :
      (forall b h, index db !! x = Some b -> validated b = true -> head db = Some h ->
         reach (index db) (id h) x) ->
      advance_root x db = Some (db', res) -> fork_step db db'.

Lemma fork_step_inv db db' r h : fork_inv db r h -> fork_step db db' -> exists r' h', fork_inv db' r' h'.
Proof.
  intros Hinv Hstep. destruct Hstep as [db b Hb|db|db r' n dup v val db' res Hr Hn Hadd|db b db' res Hm
    |db x db' res Hrm|db x db' res Hx Hadv].
  - do 2 eexists. by apply reset_inv.
  - do 2 eexists. by eapply rollback_inv.
  - assert (r' = r) as -> by (pose proof (fi_root _ _ _ Hinv); congruence).
    exists r. by eapply add_inv.
  - exists r. by eapply mark_valid_inv.
  - exists r, h. by eapply remove_inv.
  - destruct (advance_any_inv _ _ _ _ _ _ Hinv Hx Hadv) as [r' ?]. eauto.
Qed.

Lemma fork_reachable_inv b db :
  block_num b = num_from_id (id b) -> rtc fork_step (reset b) db -> exists r h, fork_inv db r h.
Proof.
  intros Hb Hrtc. assert (exists r h, fork_inv (reset b) r h) as H0.
  { do 2 eexists. by apply reset_inv. }
  clear Hb. induction Hrtc as [|x y z Hxy Hyz IH]; [done|]. apply IH.
  destruct H0 as (r & h & Hi). by eapply fork_step_inv.
Qed.

(** ** Branches *)

Lemma path_end_inv i x l : i !! x = None -> forall y, path i x l y -> l = [] /\ y = x.
Proof. intros Hx y H. inversion H; subst; [done|congruence]. Qed.

Lemma path_unique i x l1 l2 y : acyclic i -> path i x l1 y -> path i x l2 y -> l1 = l2.
Proof.
  intros Hac H1 H2.
  assert (forall l, path i y l y -> l = []) as Hcyc.
  { intros l Hl. destruct (i !! y) as [c|] eqn:Hc; [by eapply path_no_cycle|].
    by destruct (path_end_inv _ _ _ Hc _ Hl). }
  destruct (path_split _ _ _ _ _ _ H1 H2) as [(l & -> & Hl)|(l & -> & Hl)];
    by rewrite (Hcyc l Hl), app_nil_r.
Qed.

(** The numbers along a path fall by one. *)
Lemma path_block_nums i r x b l y c :
  block_tree i r -> path i x l y -> root_or_block r i x = Some b -> root_or_block r i y = Some c ->
  block_num b = block_num c + Z.of_nat (length l).
Proof.
  intros Ht H. revert b. induction H as [|x b l y Hb H IH]; intros b' Hx Hy; simpl.
  { assert (b' = c) as -> by congruence. lia. }
  apply root_or_block_cases in Hx as [[-> ->]|[_ Hx]].
  { by rewrite (tree_root_outside _ _ Ht) in Hb. }
  assert (b' = b) as -> by congruence.
  destruct (ti_parent _ _ Ht x b Hb) as (p & Hp & Hn). specialize (IH p Hp Hy). lia.
Qed.

Lemma root_or_block_id r i x b : block_tree i r -> root_or_block r i x = Some b -> id b = x.
Proof.
  intros Ht [[-> ->]|[_ H]]%root_or_block_cases; [done|]. by apply (ti_key _ _ Ht).
Qed.

Lemma root_or_block_root r i : root_or_block r i (id r) = Some r.
Proof. unfold root_or_block. by rewrite bool_decide_true. Qed.

(** From every block there is a path to the root, as long as the difference
    of the numbers, and no longer than the container. *)
Lemma path_to_root i r x b :
  block_tree i r -> root_or_block r i x = Some b ->
  exists l, path i x l (id r) /\ block_num b = block_num r + Z.of_nat (length l) /\
            (length l <= size i)%nat.
Proof.
  intros Ht Hb. assert (reach i x (id r)) as [l Hl].
  { apply root_or_block_cases in Hb as [[-> _]|[_ Hb]]; [apply reach_refl|].
    by apply (tree_above_root i r x b). }
  exists l. split_and!; [done| |by eapply path_length; [eapply tree_acyclic|]].
  eapply path_block_nums; [done|done|done|apply root_or_block_root].
Qed.

(** The number tells the blocks of a path apart. *)
Lemma path_num_inj i r x l y :
  block_tree i r -> path i x l y ->
  forall b c, b ∈ l -> c ∈ l -> block_num b = block_num c -> b = c.
Proof.
  intros Ht. induction 1 as [x|x d l y Hd H IH]; intros b c Hb Hc Hn; [by apply elem_of_nil in Hb|].
  assert (forall e, e ∈ l -> block_num e < block_num d) as Hlt.
  { intros e He. destruct (path_blocks _ _ _ _ _ H He) as (z & Hz & [k Hk] & _).
    eapply (path_num i x (d :: k) z); [by eapply tree_acyclic|by econstructor|done..]. }
  apply elem_of_cons in Hb as [->|Hb], Hc as [->|Hc]; [done| | |by apply IH].
  - specialize (Hlt c Hc). lia.
  - specialize (Hlt b Hb). lia.
Qed.

(** The loop of fetch_branch and search_on_branch follows the path. *)
Lemma branch_loop_spec fuel i r x l :
  i !! id r = None -> path i x l (id r) -> (length l <= fuel)%nat -> branch_loop fuel i x = Some l.
Proof.
  intros Hr. revert x l. induction fuel as [|fuel IH]; intros x l H Hf.
  - destruct l; [|simpl in Hf; lia]. inversion H; subst. simpl. by rewrite Hr.
  - inversion H as [|? b l' ? Hb H']; subst; simpl; [by rewrite Hr|].
    simpl in Hf. rewrite Hb, (IH _ l' H') by lia. done.
Qed.

(** The branch of an id: its path to the root, empty for an unknown id. *)
Definition is_branch (i : gmap sha256 block_state) (r : block_state) (x : sha256)
    (l : list block_state) : Prop :=
  match i !! x with Some _ => path i x l (id r) | None => l = [] end.

Lemma branch_loop_run db r h x :
  fork_inv db r h -> exists l, is_branch (index db) r x l /\
    branch_loop (size (index db)) (index db) x = Some l.
Proof.
  intros [_ _ Ht _]. unfold is_branch. pose proof (tree_root_outside _ _ Ht) as Hr.
  destruct (index db !! x) as [b|] eqn:Hb.
  - destruct (path_to_root (index db) r x b Ht) as (l & Hl & _ & Hlen).
    { unfold root_or_block. rewrite bool_decide_false; [done|]. intros ->. congruence. }
    exists l. split; [done|]. by eapply branch_loop_spec.
  - exists []. split; [done|]. destruct (size (index db)); simpl; by rewrite Hb.
Qed.

(** Following one branch down to a number not below the root's. *)
Lemma descend_spec fuel i r n x b acc :
  block_tree i r -> root_or_block r i x = Some b -> block_num r <= n ->
  block_num b - n <= Z.of_nat fuel ->
  exists l b', descend fuel r i n b acc = Some (Ok (acc ++ l, b')) /\
    path i x l (id b') /\ root_or_block r i (id b') = Some b' /\
    block_num b' = Z.min n (block_num b) /\ (block_num b <= n -> l = []).
Proof.
  intros Ht. revert x b acc. induction fuel as [|fuel IH]; intros x b acc Hb Hr Hf; cbn [descend].
  - destruct (Z.gtb_spec (block_num b) n); [lia|]. exists [], b. rewrite app_nil_r.
    rewrite (root_or_block_id _ _ _ _ Ht Hb). split_and!; [done|constructor|done|lia|done].
  - destruct (Z.gtb_spec (block_num b) n) as [Hgt|Hle].
    + apply root_or_block_cases in Hb as [[_ ->]|[_ Hb]]; [lia|].
      destruct (ti_parent _ _ Ht x b Hb) as (p & Hp & Hn). rewrite Hp.
      destruct (IH (previous b) p (acc ++ [b]) Hp Hr ltac:(lia)) as (l & b' & -> & Hl & Hb' & Hm & _).
      exists (b :: l), b'. rewrite <- app_assoc. split_and!; [done|by econstructor|done|lia|lia].
    + exists [], b. rewrite app_nil_r. rewrite (root_or_block_id _ _ _ _ Ht Hb).
      split_and!; [done|constructor|done|lia|done].
Qed.

(** Two different blocks of one height are both above the root. *)
Lemma same_height_in_index i r x y b c :
  block_tree i r -> root_or_block r i x = Some b -> root_or_block r i y = Some c ->
  x <> y -> block_num b = block_num c -> i !! x = Some b /\ i !! y = Some c.
Proof.
  intros Ht Hb Hc Hne Hnum.
  apply root_or_block_cases in Hb as [[-> ->]|[_ Hb]], Hc as [[-> ->]|[_ Hc]]; [done| | |done].
  - pose proof (tree_above_root _ _ _ _ Ht Hc). lia.
  - pose proof (tree_above_root _ _ _ _ Ht Hb). lia.
Qed.

(** Following two branches of one height down to their last blocks. *)
Lemma descend_both_spec fuel i r x y b c acc1 acc2 :
  block_tree i r -> i !! x = Some b -> i !! y = Some c -> x <> y -> block_num b = block_num c ->
  block_num b - block_num r <= Z.of_nat fuel ->
  exists l1 b1 l2 b2, descend_both fuel i b c acc1 acc2 = Some (Ok ((acc1 ++ l1, b1), (acc2 ++ l2, b2))) /\
    path i x (l1 ++ [b1]) (previous b1) /\ path i y (l2 ++ [b2]) (previous b2) /\
    previous b1 = previous b2 /\ b1 <> b2.
Proof.
  intros Ht. revert x y b c acc1 acc2.
  induction fuel as [|fuel IH]; intros x y b c acc1 acc2 Hb Hc Hne Hnum Hf; cbn [descend_both].
  { pose proof (tree_above_root _ _ _ _ Ht Hb). lia. }
  case_bool_decide as Hp.
  - exists [], b, [], c. rewrite !app_nil_r. split_and!; [done| | |done|].
    + econstructor; [done|constructor].
    + econstructor; [done|constructor].
    + intros ->. apply Hne. by rewrite <- (ti_key _ _ Ht _ _ Hb), <- (ti_key _ _ Ht _ _ Hc).
  - destruct (ti_parent _ _ Ht x b Hb) as (p & Hpb & Hn1), (ti_parent _ _ Ht y c Hc) as (q & Hq & Hn2).
    destruct (same_height_in_index i r _ _ p q Ht Hpb Hq Hp ltac:(lia)) as [Hp' Hq'].
    rewrite Hp', Hq'.
    destruct (IH _ _ p q (acc1 ++ [b]) (acc2 ++ [c]) Hp' Hq' Hp ltac:(lia) ltac:(lia))
      as (l1 & b1 & l2 & b2 & -> & H1 & H2 & E & Hneq).
    exists (b :: l1), b1, (c :: l2), b2. rewrite <- !app_assoc.
    split_and!; [done| | |done|done]; simpl; by econstructor.
Qed.

(** Two paths to one id whose last blocks differ have no block in common. *)
Lemma paths_disjoint i x y l1 b1 l2 b2 z :
  acyclic i -> path i x (l1 ++ [b1]) z -> path i y (l2 ++ [b2]) z -> b1 <> b2 ->
  forall b, b ∈ l1 ++ [b1] -> b ∉ l2 ++ [b2].
Proof.
  intros Hac H1 H2 Hne b Hb1 Hb2.
  assert (forall x l e, path i x (l ++ [e]) z -> b ∈ l ++ [e] ->
            exists k, path i (previous b) k z /\ List.last (b :: k) b = e) as Hsuffix.
  { clear. intros x l e Hp Hb. apply list_elem_of_split in Hb as (k1 & k2 & E).
    exists k2. split.
    - rewrite E in Hp. apply path_app_inv in Hp as (w & _ & Hp). by inversion Hp.
    - apply (f_equal (fun l => List.last l b)) in E. rewrite last_last in E. rewrite E.
      clear. induction k1 as [|a k1 IH]; [done|]. simpl. rewrite <- IH. by destruct k1. }
  destruct (Hsuffix _ _ _ H1 Hb1) as (k & Hk & Hlast), (Hsuffix _ _ _ H2 Hb2) as (k' & Hk' & Hlast').
  rewrite (path_unique _ _ _ _ _ Hac Hk Hk') in Hlast. congruence.
Qed.

(** ** An example: a fork above a root *)

Definition example_id (n k : Z) : sha256 := mk_sha256 (endian_reverse_u32 n) 0 0 k.
Definition example_block (n k pk : Z) (v : bool) : block_state :=
  mk_block_state (example_id n k) (example_id (n - 1) pk) n 0 n None [] v.

Definition ex_root : block_state := example_block 1 0 0 true.
Definition ex_2a : block_state := example_block 2 0 0 true.
Definition ex_2b : block_state := example_block 2 1 0 false.
Definition ex_3a : block_state := example_block 3 0 0 true.
Definition ex_3b : block_state := example_block 3 1 1 false.
Definition ex_4b : block_state := example_block 4 1 1 false.

Definition add_ok (db : fork_db) (n : block_state) : fork_db :=
  match add (Some n) false db with Some (db', Ok _) => db' | _ => db end.

Definition fork_example : fork_db :=
  foldl add_ok (reset ex_root) [ex_2a; ex_2b; ex_3a; ex_3b; ex_4b].

Lemma add_ok_inv db r h n p :
  fork_inv db r h -> root_or_block r (index db) (previous n) = Some p ->
  block_num n = block_num p + 1 -> block_num n = num_from_id (id n) ->
  exists h', fork_inv (add_ok db n) r h'.
Proof.
  intros Hinv Hp Hn Hid. unfold add_ok, add.
  destruct (fork_database_impl_add _ _ _ _ db) as [[db' [[]|e]]|] eqn:E; [|eauto..].
  eapply add_inv; [done| |done]. intros p' Hp'. assert (p' = p) as -> by congruence. done.
Qed.

Lemma fork_example_inv : fork_inv fork_example ex_root ex_3a.
Proof.
  assert (exists h, fork_inv fork_example ex_root h) as [h Hinv].
  { unfold fork_example. cbn [foldl].
    assert (exists h, fork_inv (reset ex_root) ex_root h) as H.
    { exists ex_root. apply (reset_inv ex_root). done. }
    destruct H as [h0 H].
    destruct (add_ok_inv _ _ _ ex_2a ex_root H) as [h1 H1]; [by vm_compute..|].
    destruct (add_ok_inv _ _ _ ex_2b ex_root H1) as [h2 H2]; [by vm_compute..|].
    destruct (add_ok_inv _ _ _ ex_3a ex_2a H2) as [h3 H3]; [by vm_compute..|].
    destruct (add_ok_inv _ _ _ ex_3b ex_2b H3) as [h4 H4]; [by vm_compute..|].
    apply (add_ok_inv _ _ _ ex_4b ex_3b H4); by vm_compute. }
  assert (head fork_example = Some ex_3a) as Hh by by vm_compute.
  pose proof (fi_head _ _ _ Hinv) as Hh'. rewrite Hh in Hh'. by injection Hh' as <-.
Qed.

(** ** Properties *)

(** C2: in every state that the operations of the fork database reach from a
    reset, whether they succeed or throw, the blocks form a tree above the
    root, each stored under its id and with the number after its parent's; the
    head is the root or a validated block of the tree; and no validated block
    has a greater irreversible number, or the same and a greater block number.
    Blocks that are added carry the number after their parent's, and
    advance_root is not called for a validated block that the head does not
    descend from: it then throws with the block erased and its children left,
    as [advance_root_partial] shows. *)
Theorem fork_database_invariant b db :
  block_num b = num_from_id (id b) -> rtc fork_step (reset b) db ->
  exists r h, root db = Some r /\ head db = Some h /\ block_tree (index db) r /\
              head_ok (index db) r h.
Proof.
  intros Hb Hrtc. destruct (fork_reachable_inv b db Hb Hrtc) as (r & h & [Hr Hh Ht Hbest]).
  by exists r, h.
Qed.

(** The block 2a is added and becomes the root. *)
Definition advanced_example : fork_db :=
  match advance_root (id ex_2a) (add_ok (reset ex_root) ex_2a) with
  | Some (db, _) => db
  | None => reset ex_root
  end.

Lemma fork_database_invariant_witness :
  exists r h, root advanced_example = Some r /\ head advanced_example = Some h /\
    block_tree (index advanced_example) r /\ head_ok (index advanced_example) r h.
Proof.
  apply (fork_database_invariant ex_root); [done|]. eapply rtc_l; [|eapply rtc_l; [|apply rtc_refl]].
  - apply (step_add _ ex_root ex_2a false false (fun _ _ _ => Ok tt) (add_ok (reset ex_root) ex_2a) (Ok tt));
      [done| |by vm_compute].
    intros p Hp. assert (p = ex_root) as -> by (vm_compute in Hp; vm_compute; congruence). done.
  - apply (step_advance_root _ (id ex_2a) _ (Ok tt)); [|by vm_compute].
    intros b h _ _ Hh. assert (h = ex_2a) as -> by (vm_compute in Hh; vm_compute; congruence). exists []. constructor.
Defined.

(** The pending head is the head or a block that is not validated, and no
    block of the database, validated or not, has a greater irreversible
    number, or the same and a greater block number. *)
Theorem pending_head_best db r h :
  fork_inv db r h ->
  exists p, pending_head db = Ok (Some p) /\
    (p = h \/ exists x, index db !! x = Some p /\ validated p = false) /\
    forall x b, index db !! x = Some b -> first_preferred b p = false.
Proof.
  intros [Hr Hh Ht [_ Hbest]]. unfold pending_head, best_unvalidated. rewrite Hh.
  pose proof (first_of_spec (filter (fun b => validated b = false) (blocks (index db)))) as Hf.
  assert (forall x b, index db !! x = Some b -> validated b = false ->
            b ∈ filter (fun b => validated b = false) (blocks (index db))) as Hin.
  { intros x b Hb Hv. apply list_elem_of_filter. split; [done|]. apply blocks_elem. eauto. }
  destruct (first_of _) as [m|]; cbn [deref mbind result_bind]; cycle 1.
  { exists h. split_and!; [done|auto|]. intros x b Hb. destruct (validated b) eqn:Hv; [by apply (Hbest x)|].
    specialize (Hin x b Hb Hv). rewrite Hf in Hin. by apply elem_of_nil in Hin. }
  destruct Hf as [[Hmv [y Hm]%blocks_elem]%list_elem_of_filter Hmin].
  assert (forall x b, index db !! x = Some b -> validated b = false -> first_preferred b m = false) as Hm'.
  { intros x b Hb Hv. apply before_preferred; [|congruence]. apply Hmin. eauto. }
  destruct (first_preferred m h) eqn:Hp.
  - exists m. split_and!; [done|eauto|]. intros x b Hb. destruct (validated b) eqn:Hv; [|eauto].
    specialize (Hbest x b Hb Hv). clear -Hp Hbest. apply not_preferred. apply not_preferred in Hbest.
    apply not_false_iff_true in Hp. rewrite not_preferred in Hp. lia.
  - exists h. split_and!; [done|auto|]. intros x b Hb. destruct (validated b) eqn:Hv; [by apply (Hbest x)|].
    apply (not_preferred_trans b m h); eauto.
Qed.

Lemma pending_head_best_witness :
  exists p, pending_head fork_example = Ok (Some p) /\
    (p = ex_3a \/ exists x, index fork_example !! x = Some p /\ validated p = false) /\
    forall x b, index fork_example !! x = Some b -> first_preferred b p = false.
Proof. apply (pending_head_best fork_example ex_root ex_3a). exact fork_example_inv. Defined.

(** [remove] ends.  If the head is in the subtree of [x] it throws a
    fork_database_exception and changes nothing; otherwise it takes out
    exactly the blocks from which following previous leads to [x]. *)
Theorem remove_exact db r h x :
  fork_inv db r h ->
  (reach (index db) (id h) x /\ remove x db = Some (db, Err (Throw fork_database_exception))) \/
  (~ reach (index db) (id h) x /\ exists j, remove x db = Some (with_index db j, Ok tt) /\
     forall z b, j !! z = Some b <-> index db !! z = Some b /\ ~ reach (index db) z x).
Proof. intros [_ Hh Ht _]. by apply remove_run; [eapply tree_acyclic|]. Qed.

Lemma remove_exact_witness :
  (reach (index fork_example) (id ex_3a) (id ex_2b) /\
   remove (id ex_2b) fork_example = Some (fork_example, Err (Throw fork_database_exception))) \/
  (~ reach (index fork_example) (id ex_3a) (id ex_2b) /\ exists j,
   remove (id ex_2b) fork_example = Some (with_index fork_example j, Ok tt) /\
   forall z b, j !! z = Some b <->
     index fork_example !! z = Some b /\ ~ reach (index fork_example) z (id ex_2b)).
Proof. apply (remove_exact fork_example ex_root ex_3a). exact fork_example_inv. Defined.

(** [advance_root] to a validated block of the database ends.  If the
    head is that block or one of its descendants, the block becomes the root
    and exactly its descendants stay; otherwise a fork_database_exception is
    thrown. *)
Theorem advance_root_exact db r h x b :
  fork_inv db r h -> index db !! x = Some b -> validated b = true ->
  (reach (index db) (id h) x /\ exists j,
     advance_root x db = Some (mk_fork_db j (Some b) (Some h), Ok tt) /\
     forall z c, j !! z = Some c <->
       index db !! z = Some c /\ z <> x /\ reach (index db) z x) \/
  (~ reach (index db) (id h) x /\ exists db',
     advance_root x db = Some (db', Err (Throw fork_database_exception))).
Proof. apply advance_root_run. Qed.

Lemma advance_root_exact_witness :
  (reach (index fork_example) (id ex_3a) (id ex_2a) /\ exists j,
     advance_root (id ex_2a) fork_example = Some (mk_fork_db j (Some ex_2a) (Some ex_3a), Ok tt) /\
     forall z c, j !! z = Some c <->
       index fork_example !! z = Some c /\ z <> id ex_2a /\ reach (index fork_example) z (id ex_2a)) \/
  (~ reach (index fork_example) (id ex_3a) (id ex_2a) /\ exists db',
     advance_root (id ex_2a) fork_example = Some (db', Err (Throw fork_database_exception))).
Proof.
  apply (advance_root_exact fork_example ex_root ex_3a); [exact fork_example_inv|by vm_compute|done].
Defined.

(** [fetch_branch] ends and returns the blocks on the way from [x] down
    to the root, of numbers up to the limit; [search_on_branch] ends and
    finds the block of a number on that way if there is one.  For an id that
    is not in the database the way is empty: neither throws. *)
Theorem branch_exact db r h x :
  fork_inv db r h ->
  exists l, is_branch (index db) r x l /\
    (forall n, fetch_branch db x n = Some (filter (fun s => block_num s <= n) l)) /\
    (forall n, exists o, search_on_branch db x n = Some o /\
       forall s, o = Some s <-> s ∈ l /\ block_num s = n).
Proof.
  intros Hinv. destruct (branch_loop_run db r h x Hinv) as (l & Hl & Hrun). exists l.
  split; [done|]. unfold fetch_branch, search_on_branch. rewrite Hrun. split; [done|].
  intros n. eexists. split; [done|]. intros s. split.
  - intros Hs. apply find_some in Hs as [Hin Hn%Z.eqb_eq]. by rewrite list_elem_of_In.
  - intros [Hin Hn]. destruct (List.find _ l) as [s'|] eqn:Hf; cycle 1.
    { apply list_elem_of_In in Hin. by apply (find_none _ _ Hf), Z.eqb_neq in Hin. }
    apply find_some in Hf as [Hin' Hn'%Z.eqb_eq]. f_equal. apply list_elem_of_In in Hin'.
    unfold is_branch in Hl. destruct (index db !! x); [|subst; by apply elem_of_nil in Hin].
    by apply (path_num_inj (index db) r x l (id r) (fi_tree _ _ _ Hinv) Hl); [..|congruence].
Qed.

Lemma branch_exact_witness :
  exists l, is_branch (index fork_example) ex_root (id ex_4b) l /\
    (forall n, fetch_branch fork_example (id ex_4b) n = Some (filter (fun s => block_num s <= n) l)) /\
    (forall n, exists o, search_on_branch fork_example (id ex_4b) n = Some o /\
       forall s, o = Some s <-> s ∈ l /\ block_num s = n).
Proof. apply (branch_exact fork_example ex_root ex_3a). exact fork_example_inv. Defined.

(** For two ids that are the root or in the database [fetch_branch_from]
    ends and returns two branches that lead down to one common ancestor and
    have no block in common; for any other id it throws a
    fork_db_block_not_found. *)
Theorem fetch_branch_from_exact db r h x y :
  fork_inv db r h ->
  match root_or_block r (index db) x, root_or_block r (index db) y with
  | Some _, Some _ =>
      exists l1 l2 z, fetch_branch_from db x y = Some (Ok (l1, l2)) /\
        path (index db) x l1 z /\ path (index db) y l2 z /\ forall b, b ∈ l1 -> b ∉ l2
  | _, _ => fetch_branch_from db x y = Some (Err (Throw fork_db_block_not_found))
  end.
Proof.
  intros [Hr _ Ht _]. unfold fetch_branch_from. rewrite Hr. set (i := index db) in *.
  pose proof (tree_acyclic _ _ Ht) as Hac.
  destruct (root_or_block r i x) as [b|] eqn:Hb; [|done].
  destruct (root_or_block r i y) as [c|] eqn:Hc; [|done].
  destruct (path_to_root i r x b Ht Hb) as (k1 & _ & Hn1 & Hk1).
  destruct (path_to_root i r y c Ht Hc) as (k2 & _ & Hn2 & Hk2).
  destruct (descend_spec (S (size i)) i r (block_num c) x b [] Ht Hb ltac:(lia) ltac:(lia))
    as (l1 & b' & -> & Hp1 & Hb' & Hm1 & Hl1).
  destruct (descend_spec (S (size i)) i r (block_num b') y c [] Ht Hc ltac:(lia) ltac:(lia))
    as (l2 & c' & -> & Hp2 & Hc' & Hm2 & Hl2). cbn [app].
  case_bool_decide as Heq.
  - exists l1, l2, (id b'). split_and!; [done|done|by rewrite Heq|].
    destruct (decide (block_num b <= block_num c)) as [Hle|Hgt].
    + rewrite (Hl1 Hle). set_solver.
    + rewrite (Hl2 ltac:(lia)). set_solver.
  - destruct (same_height_in_index i r _ _ b' c' Ht Hb' Hc' Heq ltac:(lia)) as [Hib Hic].
    destruct (path_to_root i r _ b' Ht Hb') as (k3 & _ & Hn3 & Hk3).
    destruct (descend_both_spec (S (size i)) i r _ _ b' c' l1 l2 Ht Hib Hic Heq ltac:(lia) ltac:(lia))
      as (m1 & b1 & m2 & b2 & -> & Hq1 & Hq2 & Hpr & Hne).
    rewrite <- !app_assoc. exists (l1 ++ m1 ++ [b1]), (l2 ++ m2 ++ [b2]), (previous b1).
    rewrite <- Hpr in Hq2.
    pose proof (path_app _ _ _ _ _ _ Hp1 Hq1) as HP1. pose proof (path_app _ _ _ _ _ _ Hp2 Hq2) as HP2.
    split_and!; [done|done|done|]. rewrite !app_assoc in *. by eapply paths_disjoint.
Qed.

Lemma fetch_branch_from_exact_witness :
  exists l1 l2 z, fetch_branch_from fork_example (id ex_4b) (id ex_3a) = Some (Ok (l1, l2)) /\
    path (index fork_example) (id ex_4b) l1 z /\ path (index fork_example) (id ex_3a) l2 z /\
    forall b, b ∈ l1 -> b ∉ l2.
Proof.
  pose proof (fetch_branch_from_exact fork_example ex_root ex_3a (id ex_4b) (id ex_3a) fork_example_inv) as H.
  assert (root_or_block ex_root (index fork_example) (id ex_4b) = Some ex_4b) as E1 by by vm_compute.
  assert (root_or_block ex_root (index fork_example) (id ex_3a) = Some ex_3a) as E2 by by vm_compute.
  rewrite E1, E2 in H. exact H.
Defined.

(** ** Two observations *)

(** The fork database of the example after its block 2b was validated. *)
Definition two_valid : fork_db :=
  match mark_valid ex_2b fork_example with Some (db', _) => db' | None => fork_example end.

(** [advance_root] to a validated block off the branch of the head throws
    after it has erased that block: its child stays without a parent. *)
Example advance_root_partial :
  exists db', advance_root (id ex_2b) two_valid = Some (db', Err (Throw fork_database_exception)) /\
    root db' = Some ex_root /\ index db' !! id ex_2b = None /\ index db' !! id ex_3b = Some ex_3b.
Proof. eexists. split; [by vm_compute|]. by vm_compute. Qed.

(** [add] takes the first of the equally preferred valid blocks as the head,
    where [mark_valid] keeps the current one: of 2a and 2b, with 2b the head
    since it was validated first, adding an unrelated block moves the head. *)
Example add_moves_head :
  let db1 := add_ok (add_ok (reset ex_root) (set_validated true ex_2b)) (set_validated false ex_2a) in
  match mark_valid (set_validated false ex_2a) db1 with
  | Some (db2, Ok _) =>
      head db2 = Some (set_validated true ex_2b) /\ head (add_ok db2 ex_3b) = Some ex_2a
  | _ => False
  end.
Proof. by vm_compute. Qed.
