(* ===== verification/ForkSwitch.v ===== *)
(** * Applying blocks and switching forks

    Models the part of controller.cpp that keeps the state of the chain, the
    fork database, the protocol features, the reversible blocks and the block
    log in step: pop_block, the frame of apply_block, commit_block,
    abort_block, log_irreversible, maybe_switch_forks and push_block.

    The database is the current state with the states its undo sessions would
    restore, as [Chainbase.index_refines_snapshots] justifies.  What a block
    does to the state, between start_block and finalize_block, is an argument
    [build], which is told whether the block is being produced and which
    checks are skipped ([build_mode], from skip_auth_check and skip_trx_checks
    with the light validation and the trusted producers of the
    configuration); the class [ForkSync.BlockBody] says what the rest relies
    on.  A block_state_ptr is the block state it points to, so that marking a
    block as valid is seen through the head.  Signals, the callback for forked
    branches, cached transactions and replays are left out.

    The theorems on these functions are in [ForkSync]. *)

From S2P Require Import Prelude Exceptions Merkle BlockHeader ProtocolFeatures ForkDatabase.

Inductive block_status := status_irreversible | status_validated | status_complete | status_incomplete.
Inductive db_read_mode := SPECULATIVE | HEAD | READ_ONLY | IRREVERSIBLE.
Inductive validation_mode := FULL | LIGHT.

#[export] Instance block_status_eq_dec : EqDecision block_status.
Proof. solve_decision. Defined.
#[export] Instance db_read_mode_eq_dec : EqDecision db_read_mode.
Proof. solve_decision. Defined.
#[export] Instance validation_mode_eq_dec : EqDecision validation_mode.
Proof. solve_decision. Defined.

(** What the transactions of a block ask the controller while it is pending:
    [is_producing_block], [skip_auth_check] and [skip_trx_checks]. *)
Record build_mode := mk_build_mode { is_producing_block : bool; skipping_auth : bool; skipping_trx : bool }.

Section controller.
Context {S : Type}.

(** ** The database *)

(** [saved] has the states before the sessions that can be undone, the newest
    first. *)
Record undo_db := mk_undo_db { current : S; saved : list S; db_revision : Z }.

Definition start_session (d : undo_db) : undo_db :=
  mk_undo_db (current d) (current d :: saved d) (db_revision d + 1).
Definition undo_session (d : undo_db) : undo_db :=
  match saved d with
  | [] => d
  | s :: l => mk_undo_db s l (db_revision d - 1)
  end.

(** The session that led to a revision is undone to the one before it; the
    sessions up to [rev] are forgotten. *)
Definition commit_sessions (rev : Z) (d : undo_db) : undo_db :=
  mk_undo_db (current d) (take (Z.to_nat (db_revision d - rev)) (saved d)) (db_revision d).

(** ** The controller *)

Record controller := mk_controller {
  ctl_db : undo_db;
  pending : bool;
  ctl_head : block_state;
  fork_database : fork_db;
  reversible_blocks : gmap Z sha256;
  protocol_features : protocol_feature_manager;
  (** The blocks of the log with their numbers, the newest first. *)
  block_log : list (Z * sha256);
  trusted_producer_light_validation : bool
}.

Record controller_env := mk_controller_env {
  read_mode : db_read_mode;
  replaying : bool;
  block_loaded : sha256 -> bool;
  first_block_num : Z;
  block_validation_mode : validation_mode;
  force_all_checks : bool;
  disable_replay_opts : bool;
  (** Whether the producer of a block is one of [conf.trusted_producers]. *)
  trusted_producer : sha256 -> bool
}.

Definition with_ctl_db (c : controller) d :=
  mk_controller d (pending c) (ctl_head c) (fork_database c) (reversible_blocks c) (protocol_features c) (block_log c)
    (trusted_producer_light_validation c).
Definition with_pending (c : controller) p :=
  mk_controller (ctl_db c) p (ctl_head c) (fork_database c) (reversible_blocks c) (protocol_features c) (block_log c)
    (trusted_producer_light_validation c).
Definition with_ctl_head (c : controller) h :=
  mk_controller (ctl_db c) (pending c) h (fork_database c) (reversible_blocks c) (protocol_features c) (block_log c)
    (trusted_producer_light_validation c).
Definition with_forks (c : controller) f :=
  mk_controller (ctl_db c) (pending c) (ctl_head c) f (reversible_blocks c) (protocol_features c) (block_log c)
    (trusted_producer_light_validation c).
Definition with_reversible (c : controller) r :=
  mk_controller (ctl_db c) (pending c) (ctl_head c) (fork_database c) r (protocol_features c) (block_log c)
    (trusted_producer_light_validation c).
Definition with_features (c : controller) m :=
  mk_controller (ctl_db c) (pending c) (ctl_head c) (fork_database c) (reversible_blocks c) m (block_log c)
    (trusted_producer_light_validation c).
Definition with_log (c : controller) l :=
  mk_controller (ctl_db c) (pending c) (ctl_head c) (fork_database c) (reversible_blocks c) (protocol_features c) l
    (trusted_producer_light_validation c).

Definition with_trust (c : controller) t :=
  mk_controller (ctl_db c) (pending c) (ctl_head c) (fork_database c) (reversible_blocks c) (protocol_features c) (block_log c) t.

(** A method: the controller it leaves and its result or exception; [None] for
    a loop that did not end within its fuel. *)
Definition ctl (A : Type) : Type := controller -> option (controller * outcome A).

#[export] Instance ctl_ret : MRet ctl := fun A a c => Some (c, Ok a).
#[export] Instance ctl_bind : MBind ctl := fun A B f m c =>
  match m c with
  | Some (c', Ok a) => f a c'
  | Some (c', Err e) => Some (c', Err e)
  | None => None
  end.
Definition ctl_get : ctl controller := fun c => Some (c, Ok c).
Definition ctl_lift {A} (r : outcome A) : ctl A := fun c => Some (c, r).
Definition ctl_update (f : controller -> controller) : ctl unit := fun c => Some (f c, Ok tt).
Definition ctl_loop {A} (r : option A) : ctl A := fun c => match r with Some a => Some (c, Ok a) | None => None end.
Definition on_forks {A} (m : fdb A) : ctl A := fun c =>
  match m (fork_database c) with
  | Some (f, r) => Some (with_forks c f, r)
  | None => None
  end.

(** [catch( const fc::exception& )] and the macros that rethrow. *)
Definition catch_fc (m : ctl unit) (handler : exn -> ctl unit) : ctl unit := fun c =>
  match m c with
  | Some (c', Err e) => if is_fc_exception e then handler e c' else Some (c', Err e)
  | r => r
  end.
Definition catch_all (m : ctl unit) (handler : exn -> ctl unit) : ctl unit := fun c =>
  match m c with
  | Some (c', Err e) => handler e c'
  | r => r
  end.
Definition ctl_rethrow (m : ctl unit) : ctl unit := fun c =>
  match m c with
  | Some (c', r) => Some (c', fc_capture_and_rethrow r)
  | None => None
  end.

(** [fc::make_scoped_exit] in push_block: the flag is put back on every exit. *)
Definition reset_prod_light_validation (old_value : bool) (m : ctl unit) : ctl unit := fun c =>
  match m c with
  | Some (c', r) => Some (with_trust c' old_value, r)
  | None => None
  end.

Definition popped_features (n : Z) : ctl unit := fun c =>
  match popped_blocks_to (protocol_features c) n with
  | Some (Ok m) => Some (with_features c m, Ok tt)
  | Some (Err e) => Some (c, Err e)
  | None => None
  end.

(** ** Blocks *)

Context (build : build_mode -> block_state -> block_state -> S -> protocol_feature_manager -> protocol_feature_manager * outcome S).
Context (env : controller_env).

(** The checks that are skipped in the pending block of status [pb_status];
    transactions that require checks skip none. *)
Definition light_validation_allowed (c : controller) (pb_status : block_status)
    (in_trx_requiring_checks replay_opts_disabled_by_policy : bool) : bool :=
  if negb (pending c) || in_trx_requiring_checks then false else
  let consider_skipping_on_replay :=
    (bool_decide (pb_status = status_irreversible) || bool_decide (pb_status = status_validated))
      && negb replay_opts_disabled_by_policy in
  let consider_skipping_on_validate :=
    bool_decide (pb_status = status_complete)
      && (bool_decide (block_validation_mode env = LIGHT) || trusted_producer_light_validation c) in
  consider_skipping_on_replay || consider_skipping_on_validate.

Definition skip_auth_check (c : controller) (pb_status : block_status) (in_trx_requiring_checks : bool) : bool :=
  light_validation_allowed c pb_status in_trx_requiring_checks (force_all_checks env).
Definition skip_trx_checks (c : controller) (pb_status : block_status) (in_trx_requiring_checks : bool) : bool :=
  light_validation_allowed c pb_status in_trx_requiring_checks (disable_replay_opts env).

Definition is_trusted_producer (bsp : block_state) : bool :=
  bool_decide (block_validation_mode env = LIGHT) || trusted_producer env (id bsp).

(** The mode of a pending block. *)
Definition block_mode (c : controller) (s : block_status) : build_mode :=
  mk_build_mode (bool_decide (s = status_incomplete)) (skip_auth_check c s false) (skip_trx_checks c s false).

(** Destroying [pending] undoes its session. *)
Definition abort_block : ctl unit :=
  c ← ctl_get;
  if pending c then
    ctl_update (fun c => with_pending (with_ctl_db c (undo_session (ctl_db c))) false) ;;
    popped_features (block_num (ctl_head c))
  else mret tt.

(** The checks of start_block and its session. *)
Definition start_pending : ctl unit :=
  c ← ctl_get;
  ctl_lift (ine_assert (negb (pending c)) (Throw block_validate_exception)) ;;
  ctl_lift (ine_assert (db_revision (ctl_db c) =? block_num (ctl_head c)) (Throw database_exception)) ;;
  ctl_update (fun c => with_pending (with_ctl_db c (start_session (ctl_db c))) true).

Definition build_block (s : block_status) (b : block_state) : ctl unit := fun c =>
  let '(m, r) := build (block_mode c s) (ctl_head c) b (current (ctl_db c)) (protocol_features c) in
  match r with
  | Ok st => Some (with_ctl_db (with_features c m) (mk_undo_db st (saved (ctl_db c)) (db_revision (ctl_db c))), Ok tt)
  | Err e => Some (with_features c m, Err e)
  end.

Definition create_reversible_block (b : block_state) : ctl unit :=
  c ← ctl_get;
  ctl_lift (ine_assert (bool_decide (reversible_blocks c !! block_num b = None)) std_logic_error) ;;
  ctl_update (fun c => with_reversible c (<[block_num b := id b]> (reversible_blocks c))).

(** [commit_block]; [log] stands for log_irreversible. *)
Definition commit_with (log : ctl unit) (add_to_fork_db : bool) (bsp : block_state) : ctl unit :=
  catch_all
    ((if add_to_fork_db then
        on_forks (add (Some bsp) false) ;;
        on_forks (mark_valid bsp) ;;
        c ← ctl_get;
        h ← ctl_lift (deref (head (fork_database c)));
        ctl_update (fun c => with_ctl_head c h) ;;
        ctl_lift (ine_assert (bool_decide (id bsp = id h)) (Throw fork_database_exception))
      else mret tt) ;;
     (if negb (replaying env) && negb (bool_decide (read_mode env = IRREVERSIBLE))
      then create_reversible_block bsp else mret tt) ;;
     (if add_to_fork_db then log else mret tt))
    (fun e => abort_block ;; ctl_lift (Err e)) ;;
  ctl_update (fun c => with_pending c false).

Definition apply_block (s : block_status) (b : block_state) : ctl unit :=
  ctl_rethrow (catch_fc (start_pending ;; build_block s b ;; commit_with (mret tt) false b)
                 (fun e => abort_block ;; ctl_lift (Err e))).

(** The controller's head is the object that was marked. *)
Definition apply_and_mark (s : block_status) (b : block_state) : ctl unit :=
  apply_block s b ;;
  on_forks (mark_valid b) ;;
  ctl_update (fun c => with_ctl_head c (set_validated true b)).

Definition parent_of_head (c : controller) : outcome block_state :=
  match get_block (fork_database c) (previous (ctl_head c)) with
  | Some p => Ok p
  | None =>
      r ← deref (root (fork_database c));
      ine_assert (bool_decide (id r = previous (ctl_head c))) (Throw block_validate_exception) ;;
      Ok r
  end.

Definition pop_block : ctl unit :=
  c ← ctl_get;
  prev ← ctl_lift (parent_of_head c);
  ctl_update (fun c => with_reversible c (delete (block_num (ctl_head c)) (reversible_blocks c))) ;;
  ctl_lift (ine_assert (negb (bool_decide (read_mode env = SPECULATIVE)) || block_loaded env (id (ctl_head c)))
              (Throw block_validate_exception)) ;;
  ctl_update (fun c => with_ctl_db (with_ctl_head c prev) (undo_session (ctl_db c))) ;;
  popped_features (block_num prev).

Fixpoint pop_blocks (n : nat) : ctl unit :=
  match n with
  | O => mret tt
  | Datatypes.S n' => pop_block ;; pop_blocks n'
  end.

(** ** Irreversible blocks *)

(** One round of the loop: the block is committed, logged and no longer
    reversible. *)
Definition log_block (b : block_state) : ctl unit :=
  (if bool_decide (read_mode env = IRREVERSIBLE) then
     apply_block status_complete b ;;
     ctl_update (fun c => with_ctl_head c (set_validated true b)) ;;
     on_forks (mark_valid b)
   else mret tt) ;;
  ctl_update (fun c =>
    with_reversible
      (with_log (with_ctl_db c (commit_sessions (block_num b) (ctl_db c))) ((block_num b, id b) :: block_log c))
      (filter (fun kv => block_num b < kv.1) (reversible_blocks c))).

(** The loop; the id is that of the last block that was committed. *)
Fixpoint log_blocks (bs : list block_state) (root_id : sha256) (c : controller) : option (controller * (sha256 * outcome unit)) :=
  match bs with
  | [] => Some (c, (root_id, Ok tt))
  | b :: bs' =>
      match log_block b c with
      | Some (c', Ok _) => log_blocks bs' (id b) c'
      | Some (c', Err e) => Some (c', (root_id, Err e))
      | None => None
      end
  end.

Definition advance_if_new (root_id new_root_id : sha256) : ctl unit :=
  if bool_decide (new_root_id = root_id) then mret tt else on_forks (advance_root new_root_id).

Definition log_branch (root_id : sha256) (branch : list block_state) : ctl unit := fun c =>
  match log_blocks (reverse branch) root_id c with
  | Some (c', (new_root_id, Ok _)) => advance_if_new root_id new_root_id c'
  | Some (c', (new_root_id, Err e)) =>
      if is_fc_exception e then (advance_if_new root_id new_root_id ;; ctl_lift (Err e)) c' else Some (c', Err e)
  | None => None
  end.

Definition log_irreversible : ctl unit :=
  c ← ctl_get;
  ctl_lift (ine_assert (bool_decide (is_Some (root (fork_database c)))) (Throw fork_database_exception)) ;;
  r ← ctl_lift (deref (root (fork_database c)));
  let lib_num := match block_log c with (n, _) :: _ => n | [] => u32 (first_block_num env - 1) end in
  ctl_lift (match block_log c with
            | (_, i) :: _ => ine_assert (bool_decide (id r = i)) (Throw fork_database_exception)
            | [] => ine_assert (block_num r =? lib_num) (Throw fork_database_exception)
            end) ;;
  fork_head ← (if bool_decide (read_mode env = IRREVERSIBLE)
               then o ← ctl_lift (pending_head (fork_database c)); ctl_lift (deref o)
               else ctl_lift (deref (head (fork_database c))));
  if dpos_irreversible_blocknum fork_head <=? lib_num then mret tt else
  branch ← ctl_loop (fetch_branch (fork_database c) (id fork_head) (dpos_irreversible_blocknum fork_head));
  log_branch (id r) branch.

Definition commit_block (add_to_fork_db : bool) (bsp : block_state) : ctl unit := commit_with log_irreversible add_to_fork_db bsp.

(** ** Switching forks *)

(** The check that the head is where the branches meet. *)
Definition check_common (second : list block_state) : ctl unit :=
  c ← ctl_get;
  b ← ctl_lift (deref (list.last second));
  ctl_lift (ine_assert (bool_decide (id (ctl_head c) = previous b)) (Throw fork_database_exception)).

Fixpoint reapply (bs : list block_state) : ctl unit :=
  match bs with
  | [] => mret tt
  | b :: bs' => apply_block status_validated b ;; ctl_update (fun c => with_ctl_head c b) ;; reapply bs'
  end.

(** The loop over the new branch; [applied] blocks of it are applied.  The
    exception is kept as an [optional<fc::exception>], so that what is thrown
    in the end has lost its class. *)
Fixpoint switch_each (second todo : list block_state) (applied : nat) : ctl unit :=
  match todo with
  | [] => mret tt
  | b :: todo' => fun c =>
      match apply_and_mark (if validated b then status_validated else status_complete) b c with
      | Some (c', Ok _) => switch_each second todo' (Datatypes.S applied) c'
      | Some (c', Err e) =>
          if is_fc_exception e then
            (on_forks (ForkDatabase.remove (id b)) ;; pop_blocks applied ;; check_common second ;;
             reapply (reverse second) ;; ctl_lift (Err fc_exception)) c'
          else Some (c', Err e)
      | None => None
      end
  end.

Definition maybe_switch_forks (new_head : block_state) (s : block_status) : ctl unit :=
  c ← ctl_get;
  if bool_decide (previous new_head = id (ctl_head c)) then
    catch_fc (apply_and_mark s new_head) (fun e => on_forks (ForkDatabase.remove (id new_head)) ;; ctl_lift (Err e)) ;;
    log_irreversible
  else if bool_decide (id new_head = id (ctl_head c)) then mret tt
  else
    r ← ctl_loop (fetch_branch_from (fork_database c) (id new_head) (id (ctl_head c)));
    branches ← ctl_lift r;
    (if bool_decide (branches.2 = []) then mret tt
     else pop_blocks (length branches.2) ;; check_common branches.2) ;;
    switch_each branches.2 (reverse branches.1) 0 ;;
    log_irreversible.

Definition push_block (bsp : block_state) : ctl unit :=
  c ← ctl_get;
  ctl_lift (ine_assert (negb (pending c)) (Throw block_validate_exception)) ;;
  reset_prod_light_validation (trusted_producer_light_validation c) (ctl_rethrow (
    on_forks (add (Some bsp) false) ;;
    (if is_trusted_producer bsp then ctl_update (fun c => with_trust c true) else mret tt) ;;
    c ← ctl_get;
    if bool_decide (read_mode env = IRREVERSIBLE) then log_irreversible
    else
      o ← ctl_lift (pending_head (fork_database c));
      new_head ← ctl_lift (deref o);
      maybe_switch_forks new_head status_complete)).

End controller.
