(* ===== verification/ForkSync.v ===== *)
(** * The parts of the controller stay in step

    The theorems on [ForkSwitch]. What a block does to the database and to the
    protocol features is the argument [build]; [BlockBody] says what it
    promises: it activates features in its own number only, it fails with
    exceptions of fc, it does the same when it is applied again without
    additional checks, and a block that was produced passes all checks.  The
    theorems are on nodes that apply blocks in this way ([ordinary_node]);
    [forced_checks_break_reapply] shows what happens on others.

    [settled] is the invariant of the controller: some function from ids to
    states explains the database and each of its undo sessions, the features,
    the reversible blocks and the block log at once, and no block of the fork
    database is preferred over the head. The functions of [ForkSwitch] are run
    from it ([pop_run], [apply_mark_ok], [switch_run], [switch_back],
    [log_run]), which gives the result of [maybe_switch_forks]
    ([maybe_switch_run]) and of [push_block] ([push_cases]). *)

From S2P Require Import Prelude Exceptions Merkle BlockHeader ProtocolFeatures ForkDatabase ForkSwitch.

(** ** What a block does *)

(** A feature is activated in the block [num]. *)
Definition activated_in (num : Z) (m m' : protocol_feature_manager) : Prop := exists d, activate_feature m d num = Ok m'.

(** Neither block is being produced, and [o'] skips every check that [o] does. *)
Definition skips_more (o o' : build_mode) : Prop :=
  is_producing_block o = false /\ is_producing_block o' = false /\
  (skipping_auth o = true -> skipping_auth o' = true) /\ (skipping_trx o = true -> skipping_trx o' = true).

(** What applying a block promises: only it activates features, in its own
    number; its failures are exceptions of fc; a block that was applied can be
    applied again from the same state, when no check is added, and leads to
    the same state; and a block that was produced passes all checks. *)
Class BlockBody {S} (build : build_mode -> block_state -> block_state -> S -> protocol_feature_manager -> protocol_feature_manager * outcome S) := {
  build_features o h b st m m' r : build o h b st m = (m', r) -> rtc (activated_in (block_num h + 1)) m m';
  build_fc o h b st m m' e : build o h b st m = (m', Err e) -> is_fc_exception e = true;
  build_fewer o o' h b st m m' st' v :
    skips_more o o' -> build o h b st m = (m', Ok st') -> build o' h (set_validated v b) st m = (m', Ok st');
  build_produced h b st m m' st' v :
    build (mk_build_mode true false false) h b st m = (m', Ok st') ->
    build (mk_build_mode false false false) h (set_validated v b) st m = (m', Ok st')
}.

(** A node that applies blocks and is neither in irreversible mode nor
    replaying.  It trusts no single producer, and if it validates all blocks
    lightly it does not force the checks of blocks that it applies again. *)
Record ordinary_node (env : controller_env) : Prop := {
  on_mode : read_mode env <> IRREVERSIBLE;
  on_replaying : replaying env = false;
  on_trusted x : trusted_producer env x = false;
  on_light : block_validation_mode env = LIGHT -> force_all_checks env = false /\ disable_replay_opts env = false
}.

(** How a block is applied for the first time. *)
Definition first_mode (env : controller_env) : build_mode :=
  let light := bool_decide (block_validation_mode env = LIGHT) in mk_build_mode false light light.

(** The features are those of blocks up to [n]. *)
Definition good_manager (n : Z) (m : protocol_feature_manager) : Prop :=
  m_initialized m = true /\ exists log, manager_ok m log /\ Forall (fun p => p.2 <= n) log.

Lemma good_step n m m' :
  good_manager n m -> 0 <= n -> n + 1 < not_active -> rtc (activated_in (n + 1)) m m' ->
  good_manager (n + 1) m' /\ popped_blocks_to m' n = Some (Ok m).
Proof.
  intros (Hi & log & Hm & Hl) Hn Hs H. split; cycle 1.
  { apply (popped_blocks_undo m m' log n Hm Hi Hn Hl). clear Hi Hm Hl. induction H as [m|m m1 m' [d H1] _ IH]; [apply rtc_refl|].
    eapply rtc_l; [|exact IH]. exists d (n + 1); [lia|done]. }
  assert (Forall (fun p => p.2 <= n + 1) log) as Hl' by (eapply list.Forall_impl; [exact Hl|]; simpl; lia). clear Hl.
  revert log Hm Hi Hl'. induction H as [m|m m1 m' [d H1] _ IH]; intros log Hm Hi Hl; [split; [done|by exists log]|].
  pose proof (activate_refines m log d (n + 1) Hm Hi ltac:(lia)) as R.
  destruct (c ← builtin_of (m_protocol_feature_set m) d; log_activate log c (n + 1)) as [log1|] eqn:E; [|congruence].
  destruct R as (m1' & H1' & Hm1 & Hs1 & Hi1). assert (m1' = m1) as -> by congruence.
  apply bind_Some in E as (c & _ & E). unfold log_activate in E. case_bool_decide; [|done]. injection E as <-.
  apply (IH (log ++ [(c, n + 1)])); [done|congruence|]. apply Forall_app. split; [done|]. constructor; [simpl; lia|constructor].
Qed.

(** ** The invariant *)

Section sync.
Context {S : Type}.
Context (build : build_mode -> block_state -> block_state -> S -> protocol_feature_manager -> protocol_feature_manager * outcome S).
Context `{BB : !BlockBody build}.
Context (env : controller_env).

(** The state and the features after each block. *)
Abbreviation states := (sha256 -> S * protocol_feature_manager).
Implicit Types (c : controller (S := S)) (st : states).
Abbreviation blocks_of c := (index (fork_database c)).

(** The block [b] on [p] leads to the state that [st] says. *)
Definition built (st : states) (p b : block_state) : Prop :=
  build (first_mode env) p b (st (previous b)).1 (st (previous b)).2 = ((st (id b)).2, Ok (st (id b)).1).

(** The tree with the flags and the states of its blocks. *)
Record forest_ok (i : gmap sha256 block_state) (r : block_state) (st : states) : Prop := {
  fo_tree : block_tree i r;
  fo_root : validated r = true /\ block_num r = num_from_id (previous r) + 1;
  fo_closed x b p : i !! x = Some b -> validated b = true -> i !! previous b = Some p -> validated p = true;
  fo_built x b p : i !! x = Some b -> validated b = true -> root_or_block r i (previous b) = Some p -> built st p b;
  fo_good : good_manager (block_num r) (st (id r)).2;
  fo_small x b : i !! x = Some b -> block_num b < not_active /\ block_loaded env x = true
}.

Definition log_ok (log : list (Z * sha256)) (r : block_state) : Prop :=
  match log with
  | (n, i) :: _ => n = block_num r /\ i = id r
  | [] => block_num r = u32 (first_block_num env - 1)
  end.

Definition reversible_of (l : list block_state) : gmap Z sha256 := list_to_map ((fun b => (block_num b, id b)) <$> l).

(** The controller has applied the blocks [l], the newest first, on the root
    [r]; [h] is the head of the fork database. *)
Record synced c (r h : block_state) (l : list block_state) (st : states) : Prop := {
  sy_forks : fork_inv (fork_database c) r h;
  sy_forest : forest_ok (blocks_of c) r st;
  sy_head : root_or_block r (blocks_of c) (id (ctl_head c)) = Some (ctl_head c);
  sy_valid : validated (ctl_head c) = true;
  sy_path : path (blocks_of c) (id (ctl_head c)) l (id r);
  sy_db : ctl_db c = mk_undo_db (st (id (ctl_head c))).1 ((fun b => (st (previous b)).1) <$> l) (block_num (ctl_head c));
  sy_features : protocol_features c = (st (id (ctl_head c))).2;
  sy_pending : pending c = false;
  sy_reversible : reversible_blocks c = reversible_of l;
  sy_log : log_ok (block_log c) r;
  sy_trust : trusted_producer_light_validation c = true -> block_validation_mode env = LIGHT
}.

(** The mode in which [c] applies a block. *)
Abbreviation mode_at c s := (block_mode env (with_pending c true) s).
Abbreviation state_at st c := (st (id (ctl_head c))).

(** The hypotheses on the node are those of every lemma from here on. *)
Context (node : ordinary_node env).

Lemma mode : read_mode env <> IRREVERSIBLE.
Proof. apply (on_mode _ node). Qed.
Lemma not_replaying : replaying env = false.
Proof. apply (on_replaying _ node). Qed.

Lemma mode_complete c r h l st : synced c r h l st -> mode_at c status_complete = first_mode env.
Proof.
  intros Hs. pose proof (sy_trust _ _ _ _ _ Hs) as Ht. unfold block_mode, first_mode, skip_auth_check, skip_trx_checks, light_validation_allowed. cbn.
  destruct (trusted_producer_light_validation c); [rewrite Ht by done; done|]. by destruct (block_validation_mode env).
Qed.

Lemma mode_again c s : s <> status_incomplete -> skips_more (first_mode env) (mode_at c s).
Proof.
  intros Hs. pose proof (on_light _ node) as Hl. unfold skips_more, block_mode, first_mode, skip_auth_check, skip_trx_checks, light_validation_allowed.
  cbn. destruct (block_validation_mode env); [|destruct Hl as [-> ->]; [done|]]; by destruct s.
Qed.

Lemma tree_num i r x b : block_tree i r -> root_or_block r i x = Some b -> 0 <= block_num b.
Proof.
  intros Ht Hb. apply root_or_block_cases in Hb as [[_ ->]|[_ Hb]].
  - rewrite (ti_root_num _ _ Ht). apply num_from_id_range.
  - rewrite (ti_num _ _ Ht _ _ Hb). apply num_from_id_range.
Qed.

(** Validated blocks have good managers. *)
Lemma valid_good i r st x b :
  forest_ok i r st -> root_or_block r i x = Some b -> validated b = true -> good_manager (block_num b) (st x).2.
Proof.
  intros Hf. pose proof (fo_tree _ _ _ Hf) as Ht. remember (Z.to_nat (block_num b)) as n eqn:En. revert x b En.
  induction n as [n IH] using lt_wf_ind. intros x b -> Hb Hv. pose proof Hb as Hb0.
  apply root_or_block_cases in Hb as [[-> ->]|[Hne Hb]]; [apply (fo_good _ _ _ Hf)|].
  destruct (ti_parent _ _ Ht x b Hb) as (p & Hp & Hn).
  assert (validated p = true) as Hvp.
  { apply root_or_block_cases in Hp as [[_ ->]|[_ Hp]]; [apply (proj1 (fo_root _ _ _ Hf))|by eapply (fo_closed _ _ _ Hf x b p)]. }
  pose proof (tree_num _ _ _ _ Ht Hp) as Hp0.
  assert (good_manager (block_num p) (st (previous b)).2) as Hg by (eapply (IH (Z.to_nat (block_num p))); [lia|done..]).
  pose proof (fo_built _ _ _ Hf x b p Hb Hv Hp) as Hbu. unfold built in Hbu. apply build_features in Hbu.
  destruct (fo_small _ _ _ Hf x b Hb) as [Hs _]. rewrite (ti_key _ _ Ht _ _ Hb) in Hbu. rewrite Hn in *.
  by apply (good_step _ _ _ Hg Hp0 Hs) in Hbu as [? _].
Qed.

Lemma path_below i x b l y e :
  acyclic i -> i !! x = Some b -> path i (previous b) l y -> e ∈ l -> block_num e < block_num b.
Proof.
  intros Hac Hb H He. destruct (path_blocks _ _ _ _ _ H He) as (z & Hz & [k Hk] & _).
  by eapply (path_num i x (b :: k) z); [|econstructor|..].
Qed.

Lemma reversible_fresh l n : (forall e, e ∈ l -> block_num e < n) -> reversible_of l !! n = None.
Proof.
  intros H. apply not_elem_of_list_to_map_1. intros (p & Ep & Hp)%list_elem_of_fmap.
  apply list_elem_of_fmap in Hp as (e & -> & He). specialize (H e He). cbn in Ep. lia.
Qed.

Lemma head_in_path c r h b l st : synced c r h (b :: l) st ->
  ctl_head c = b /\ blocks_of c !! id b = Some b /\ path (blocks_of c) (previous b) l (id r) /\
  reversible_of l !! block_num b = None.
Proof.
  intros Hs. pose proof (sy_path _ _ _ _ _ Hs) as Hp. inversion Hp as [|? ? ? ? Hb Hl]; subst.
  pose proof (fi_tree _ _ _ (sy_forks _ _ _ _ _ Hs)) as Ht. pose proof (sy_head _ _ _ _ _ Hs) as Hh.
  apply root_or_block_cases in Hh as [[Hr Hh]|[_ Hh]]; [rewrite Hr in Hb; by rewrite (tree_root_outside _ _ Ht) in Hb|].
  assert (b = ctl_head c) as -> by congruence. split; [done|]. split; [done|]. split; [done|].
  apply reversible_fresh. intros e He. by eapply path_below; [eapply tree_acyclic|..].
Qed.

(** The mode does not depend on the database of the controller. *)
Ltac same_mode c := repeat match goal with |- context [block_mode env ?d ?s] =>
  progress change (block_mode env d s) with (block_mode env (with_pending c true) s) end.

Ltac ctl_run := unfold mbind, ctl_bind, mret, ctl_ret, ctl_get, ctl_lift, ctl_update, ctl_loop, on_forks; cbv beta iota.

Lemma pop_run c r h b l st :
  synced c r h (b :: l) st ->
  exists c' p, pop_block env c = Some (c', Ok tt) /\ synced c' r h l st /\
    root_or_block r (blocks_of c) (previous b) = Some p /\ ctl_head c' = p /\
    fork_database c' = fork_database c /\ block_log c' = block_log c.
Proof.
  intros Hs. destruct (head_in_path _ _ _ _ _ _ Hs) as (Eh & Hb & Hp & Hrev). destruct Hs as [F1 F2 F3 F4 F5 F6 F7 F8 F9 F10 F11].
  pose proof (fo_tree _ _ _ F2) as Ht. destruct (ti_parent _ _ Ht _ _ Hb) as (p & Hpar & Hn).
  assert (validated p = true) as Hvp.
  { rewrite Eh in F4. pose proof Hpar as Hpar'. apply root_or_block_cases in Hpar' as [[_ ->]|[_ Hq]]; [apply (proj1 (fo_root _ _ _ F2))|].
    by eapply (fo_closed _ _ _ F2 (id b) b p). }
  assert (id p = previous b) as Eid by (by eapply root_or_block_id).
  assert (popped_blocks_to (protocol_features c) (block_num p) = Some (Ok (st (previous b)).2)) as Hpop.
  { rewrite F7, Eh. pose proof (fo_built _ _ _ F2 _ b p Hb ltac:(by rewrite <- Eh) Hpar) as Hbu. unfold built in Hbu. apply build_features in Hbu.
    destruct (fo_small _ _ _ F2 _ b Hb) as [Hsm _]. apply (good_step (block_num p)) in Hbu; [by destruct Hbu| |by eapply tree_num|lia].
    by eapply valid_good. }
  exists (mk_controller (mk_undo_db (st (previous b)).1 ((fun b => (st (previous b)).1) <$> l) (block_num p)) (pending c) p (fork_database c)
    (reversible_of l) (st (previous b)).2 (block_log c) (trusted_producer_light_validation c)), p.
  split; [|split; [|done]].
  - assert (parent_of_head c = Ok p) as Epar.
    { unfold parent_of_head, get_block. rewrite Eh. pose proof Hpar as Hpar'. apply root_or_block_cases in Hpar' as [[E ->]|[_ ->]]; [|done].
      rewrite E, (tree_root_outside _ _ Ht), (fi_root _ _ _ F1). cbn [deref]. cbn. by rewrite bool_decide_true. }
    assert (block_loaded env (id b) = true) as Hld by (by destruct (fo_small _ _ _ F2 _ b Hb)).
    unfold pop_block. ctl_run. rewrite Epar, Eh, Hld, orb_true_r. unfold popped_features. cbn. rewrite Hpop. unfold with_features. cbn.
    rewrite F6, F9, Eh. cbn. unfold undo_session. cbn. unfold reversible_of at 1. cbn. rewrite delete_insert_id by done.
    replace (block_num b - 1) with (block_num p) by lia. done.
  - split; cbn; try done; rewrite Eid; done.
Qed.

Lemma pops_run c r h l1 l2 st z :
  synced c r h (l1 ++ l2) st -> path (blocks_of c) (id (ctl_head c)) l1 z ->
  exists c', pop_blocks env (length l1) c = Some (c', Ok tt) /\ synced c' r h l2 st /\ id (ctl_head c') = z /\
    fork_database c' = fork_database c /\ block_log c' = block_log c.
Proof.
  revert c. induction l1 as [|b l1 IH]; intros c Hs Hp.
  { inversion Hp; subst. by exists c. }
  destruct (pop_run _ _ _ _ _ _ Hs) as (c1 & p & H1 & Hs1 & Hpar & Hh1 & Hf1 & Hg1).
  inversion Hp as [|? b' ? ? Hb Hl]; subst.
  assert (id (ctl_head c1) = previous b) as Eid by (eapply root_or_block_id; [apply (fi_tree _ _ _ (sy_forks _ _ _ _ _ Hs))|done]).
  destruct (IH c1 Hs1) as (c2 & H2 & Hs2 & Hh2 & Hf2 & Hg2); [by rewrite Eid, Hf1|].
  exists c2. split; [|split_and!; [done|done|congruence..]]. cbn [length pop_blocks]. ctl_run. by rewrite H1.
Qed.

Lemma path_nums c r h l st e : synced c r h l st -> e ∈ l -> block_num e <= block_num (ctl_head c).
Proof.
  intros Hs He. destruct l as [|b l]; [by apply elem_of_nil in He|]. destruct (head_in_path _ _ _ _ _ _ Hs) as (-> & Hb & Hp & _).
  apply elem_of_cons in He as [->|He]; [done|]. apply Z.lt_le_incl. eapply path_below; [|done..].
  eapply tree_acyclic, (fi_tree _ _ _ (sy_forks _ _ _ _ _ Hs)).
Qed.

(** The controller after a block was applied and before it is the head. *)
Definition applied c (b : block_state) (x : S) (m : protocol_feature_manager) : controller :=
  mk_controller (mk_undo_db x (current (ctl_db c) :: saved (ctl_db c)) (block_num b)) false (ctl_head c) (fork_database c)
    (<[block_num b := id b]> (reversible_blocks c)) m (block_log c) (trusted_producer_light_validation c).

Lemma apply_ok c r h l st s b x m :
  synced c r h l st -> block_num b = block_num (ctl_head c) + 1 ->
  build (mode_at c s) (ctl_head c) b (state_at st c).1 (state_at st c).2 = (m, Ok x) ->
  apply_block build env s b c = Some (applied c b x m, Ok tt).
Proof.
  intros Hs Hn Hb. assert (forall e, e ∈ l -> block_num e <= block_num (ctl_head c)) as Hnum by (intros e He; by eapply path_nums). destruct Hs as [F1 F2 F3 F4 F5 F6 F7 F8 F9 F10 F11].
  assert (reversible_blocks c !! block_num b = None) as Hfr.
  { rewrite F9. apply reversible_fresh. intros e He. specialize (Hnum e He). lia. }
  unfold apply_block, ctl_rethrow, catch_fc, start_pending, build_block, commit_with, catch_all, create_reversible_block. ctl_run.
  rewrite F8, F6. cbn. rewrite Z.eqb_refl. cbn. same_mode c. rewrite F7. cbn. rewrite Hb. cbn.
  rewrite not_replaying, bool_decide_false by exact mode. cbn. rewrite bool_decide_true by done. cbn. unfold applied. rewrite F6, Hn. done.
Qed.

Lemma apply_err c r h l st s b e m :
  synced c r h l st -> block_num b < not_active -> block_num b = block_num (ctl_head c) + 1 ->
  build (mode_at c s) (ctl_head c) b (state_at st c).1 (state_at st c).2 = (m, Err e) ->
  apply_block build env s b c = Some (c, Err e) /\ is_fc_exception e = true.
Proof.
  intros [F1 F2 F3 F4 F5 F6 F7 F8 F9 F10 F11] Hsm Hn Hb. pose proof (build_fc _ _ _ _ _ _ _ Hb) as Hfc. split; [|done].
  assert (popped_blocks_to m (block_num (ctl_head c)) = Some (Ok (st (id (ctl_head c))).2)) as Hpop.
  { apply build_features in Hb. apply (good_step (block_num (ctl_head c))) in Hb; [by destruct Hb| |by eapply tree_num; [apply (fo_tree _ _ _ F2)|]|lia].
    by eapply valid_good. }
  unfold apply_block, ctl_rethrow, catch_fc, start_pending, build_block. ctl_run.
  rewrite F8, F6. cbn. rewrite Z.eqb_refl. cbn. same_mode c. rewrite F7. cbn. rewrite Hb. cbn. rewrite Hfc. unfold abort_block. ctl_run. cbn.
  unfold popped_features. cbn. rewrite Hpop. cbn. unfold is_fc_exception in Hfc.
  replace (block_num (ctl_head c) + 1 - 1) with (block_num (ctl_head c)) by lia.
  assert (is_std_exception e = false) as -> by (by destruct e). destruct c; cbn in *. unfold with_features; cbn. congruence.
Qed.

(** *** Marking blocks *)

Lemma set_validated_id b : validated b = true -> set_validated true b = b.
Proof. by destruct b; cbn; intros ->. Qed.

Lemma mark_run db r h b :
  fork_inv db r h -> index db !! id b = Some b ->
  mark_valid b db = Some (mk_fork_db (<[id b := set_validated true b]> (index db)) (Some r)
    (Some (if negb (validated b) && first_preferred b h then set_validated true b else h)), Ok tt).
Proof.
  intros Hinv Hb. pose proof Hinv as [Hr Hh Ht [Hhd Hbest]]. unfold mark_valid, mbind, fdb_bind, fdb_get, fdb_lift, fdb_put, mret, fdb_ret.
  destruct (validated b) eqn:Hv; cbn [negb andb].
  { rewrite set_validated_id, insert_id by done. destruct db; cbn in *. congruence. }
  rewrite Hb. set (i := <[id b := set_validated true b]> (index db)).
  assert (i !! id b = Some (set_validated true b)) as Hib by apply lookup_insert_eq.
  destruct (best_block i) as [m|] eqn:Hm.
  2: { apply best_block_none in Hm. by rewrite Hm, lookup_empty in Hib. }
  destruct (best_block_spec _ _ Hm) as [[y Hy] Hm']. destruct (Hm' _ _ Hib eq_refl) as [Hmv Hpb].
  cbn [deref]. rewrite Hh. cbn [deref]. unfold i in Hy. apply lookup_insert_Some in Hy as [[_ <-]|[Hne Hy]].
  - change (first_preferred (set_validated true b) h) with (first_preferred b h). unfold with_index. rewrite Hr, Hh. by destruct (first_preferred b h).
  - rewrite (Hbest y m Hy Hmv). change (first_preferred (set_validated true b) m) with (first_preferred b m) in Hpb.
    rewrite (not_preferred_trans b m h) by (done || by apply (Hbest y)). unfold with_index. by rewrite Hr, Hh.
Qed.

(** The states with that of one more block. *)
Definition with_state (st : states) (i : sha256) (x : S) (m : protocol_feature_manager) : states :=
  fun y => if decide (y = i) then (x, m) else st y.

Lemma with_state_eq st i x m : with_state st i x m i = (x, m).
Proof. unfold with_state. by destruct (decide _). Qed.
Lemma with_state_ne st i x m y : y <> i -> with_state st i x m y = st y.
Proof. unfold with_state. by destruct (decide _). Qed.

Lemma path_insert i k v x l y : path i x l y -> (forall b, b ∈ l -> id b <> k) -> (forall z b, i !! z = Some b -> id b = z) ->
  path (<[k := v]> i) x l y.
Proof.
  intros H. induction H as [|x b l y Hb H IH]; intros Hl Hk; [constructor|]. econstructor.
  - rewrite lookup_insert_ne; [done|]. rewrite <- (Hk _ _ Hb). intros E. apply (Hl b); [left|done].
  - apply IH; [|done]. intros e He. apply Hl. by right.
Qed.

Lemma root_or_block_insert r i k v x :
  k <> id r -> root_or_block r (<[k := v]> i) x = if decide (x = k) then Some v else root_or_block r i x.
Proof.
  intros Hk. unfold root_or_block. case_bool_decide as Hx; destruct (decide (x = k)) as [->|Hne]; try done.
  - by rewrite lookup_insert_eq.
  - by rewrite lookup_insert_ne.
Qed.

(** A block that was built is marked. *)
Lemma forest_mark i r st p b x m :
  forest_ok i r st -> i !! id b = Some b -> root_or_block r i (previous b) = Some p -> validated p = true ->
  build (first_mode env) p (set_validated true b) (st (previous b)).1 (st (previous b)).2 = (m, Ok x) ->
  forest_ok (<[id b := set_validated true b]> i) r (with_state st (id b) x m).
Proof.
  intros [H1 H2 H3 H4 H5 H6] Hb Hp Hvp Hbu. pose proof (tree_acyclic _ _ H1) as Hac.
  destruct (ti_parent _ _ H1 _ _ Hb) as (p' & Hp' & Hn). assert (p' = p) as -> by congruence.
  assert (id b <> id r) as Hbr by (intros E; rewrite E, (tree_root_outside _ _ H1) in Hb; done).
  assert (previous b <> id b) as Hpb.
  { intros E. rewrite E in Hp. apply root_or_block_cases in Hp as [[? _]|[_ Hp]]; [done|]. assert (p = b) as -> by congruence. lia. }
  assert (validated b = true -> st (id b) = (x, m)) as Hsame.
  { intros Hv. pose proof (H4 _ b p Hb Hv Hp) as Hb2. unfold built in Hb2.
    rewrite (set_validated_id b Hv), Hb2 in Hbu.
    destruct (st (id b)); cbn in *. congruence. }
  split.
  - apply (block_tree_flags i); [|done]. intros y. destruct (decide (y = id b)) as [->|]; [by rewrite lookup_insert_eq, Hb|by rewrite lookup_insert_ne].
  - done.
  - intros y b' q Hy Hv Hq. apply lookup_insert_Some in Hy as [[<- <-]|[Hne Hy]].
    + cbn in Hq. rewrite lookup_insert_ne in Hq by done. apply root_or_block_cases in Hp as [[E ->]|[_ Hp]]; [|congruence].
      by rewrite E, (tree_root_outside _ _ H1) in Hq.
    + apply lookup_insert_Some in Hq as [[_ <-]|[_ Hq]]; [done|]. by eapply (H3 y b').
  - intros y b' q Hy Hv Hq. rewrite root_or_block_insert in Hq by done. apply lookup_insert_Some in Hy as [[<- <-]|[Hne Hy]].
    + cbn in Hq. rewrite decide_False in Hq by done. assert (q = p) as -> by congruence. unfold built. cbn.
      rewrite with_state_eq, with_state_ne by done. exact Hbu.
    + assert (id b' <> id b) as Hid by (by rewrite (ti_key _ _ H1 _ _ Hy)). unfold built. rewrite (with_state_ne _ _ _ _ (id b')) by done.
      destruct (decide (previous b' = id b)) as [E|Hne'].
      * injection Hq as <-. assert (validated b = true) as Hvb by (apply (H3 y b' b); [done|done|by rewrite E]).
        rewrite E, with_state_eq, <- (Hsame Hvb), <- E. rewrite (set_validated_id b Hvb). apply (H4 y b' b Hy Hv).
        rewrite E. unfold root_or_block. by rewrite bool_decide_false.
      * rewrite with_state_ne by done. by apply (H4 y b' q).
  - by rewrite with_state_ne.
  - intros y b' Hy. apply lookup_insert_Some in Hy as [[<- <-]|[_ Hy]]; [by apply (H6 (id b) b)|by apply H6].
Qed.

(** The head of the fork database after a block was marked. *)
Definition marked_head (b h : block_state) : block_state :=
  if negb (validated b) && first_preferred b h then set_validated true b else h.

Lemma child_num c r h l st b : synced c r h l st -> blocks_of c !! id b = Some b -> previous b = id (ctl_head c) ->
  root_or_block r (blocks_of c) (previous b) = Some (ctl_head c) /\ block_num b = block_num (ctl_head c) + 1 /\ id b <> id r.
Proof.
  intros Hs Hb Hp. pose proof (fi_tree _ _ _ (sy_forks _ _ _ _ _ Hs)) as Ht. rewrite Hp. pose proof (sy_head _ _ _ _ _ Hs) as Hh.
  split; [done|]. split.
  - destruct (ti_parent _ _ Ht _ _ Hb) as (p & Hpar & Hn). rewrite Hp, Hh in Hpar. by injection Hpar as ->.
  - intros E. by rewrite E, (tree_root_outside _ _ Ht) in Hb.
Qed.

Lemma path_previous c r h l st b e : synced c r h l st -> blocks_of c !! id b = Some b -> previous b = id (ctl_head c) ->
  e ∈ l -> id e <> id b /\ previous e <> id b.
Proof.
  intros Hs Hb Hp He. destruct (child_num _ _ _ _ _ _ Hs Hb Hp) as (_ & Hn & _). pose proof (path_nums _ _ _ _ _ _ Hs He) as Hle.
  pose proof (fi_tree _ _ _ (sy_forks _ _ _ _ _ Hs)) as Ht. destruct (path_blocks _ _ _ _ _ (sy_path _ _ _ _ _ Hs) He) as (z & Hz & _).
  pose proof (ti_key _ _ Ht _ _ Hz) as Hid. subst z. split; [intros E; rewrite E in Hz; assert (e = b) as -> by congruence; lia|].
  destruct (ti_parent _ _ Ht _ _ Hz) as (q & Hq & Hqn). intros E. rewrite E in Hq.
  apply root_or_block_cases in Hq as [[Er _]|[_ Hq]]; [by rewrite Er, (tree_root_outside _ _ Ht) in Hb|].
  assert (q = b) as -> by congruence. lia.
Qed.

Lemma apply_mark_ok c r h l st s b x m :
  synced c r h l st -> blocks_of c !! id b = Some b -> previous b = id (ctl_head c) ->
  build (mode_at c s) (ctl_head c) b (state_at st c).1 (state_at st c).2 = (m, Ok x) ->
  build (first_mode env) (ctl_head c) (set_validated true b) (state_at st c).1 (state_at st c).2 = (m, Ok x) ->
  exists c', apply_and_mark build env s b c = Some (c', Ok tt) /\
    synced c' r (marked_head b h) (set_validated true b :: l) (with_state st (id b) x m) /\ ctl_head c' = set_validated true b /\
    blocks_of c' = <[id b := set_validated true b]> (blocks_of c) /\ block_log c' = block_log c.
Proof.
  intros Hs Hb Hp Hbu Hfirst. destruct (child_num _ _ _ _ _ _ Hs Hb Hp) as (Hpar & Hn & Hbr).
  assert (forall e, e ∈ l -> id e <> id b /\ previous e <> id b) as Hl by (intros e He; by eapply path_previous).
  pose proof (apply_ok _ _ _ _ _ _ _ _ _ Hs Hn Hbu) as Ha. pose proof Hs as [F1 F2 F3 F4 F5 F6 F7 F8 F9 F10 F11].
  pose proof (fo_tree _ _ _ F2) as Ht.
  pose proof (mark_run _ _ _ _ F1 Hb) as Hm. fold (marked_head b h) in Hm.
  assert (previous b <> id b) as Hpb.
  { intros E. rewrite E in Hpar. apply root_or_block_cases in Hpar as [[? _]|[_ Hq]]; [done|]. assert (b = ctl_head c) as E' by congruence. rewrite E' in Hn. lia. }
  eexists. split; [|split; [|split_and!]].
  - unfold apply_and_mark. ctl_run. rewrite Ha. cbn. rewrite Hm. reflexivity.
  - assert (forest_ok (<[id b := set_validated true b]> (blocks_of c)) r (with_state st (id b) x m)) as F2'.
    { eapply forest_mark; [done|done|done|done|]. rewrite Hp. exact Hfirst. }
    split; cbn; try done.
    + destruct (mark_valid_inv _ _ _ _ _ _ F1 Hm) as [h' Hh']. pose proof (fi_head _ _ _ Hh') as E. cbn in E. injection E as E. rewrite <- E in Hh'. exact Hh'.
    + rewrite root_or_block_insert by done. by rewrite decide_True.
    + econstructor; [apply lookup_insert_eq|]. cbn. rewrite Hp. apply path_insert; [done|by intros e He; apply Hl|apply (ti_key _ _ Ht)].
    + rewrite with_state_eq, F6. cbn. rewrite with_state_ne, Hp by done. f_equal. f_equal. apply list_fmap_ext. intros k e He%list_elem_of_lookup_2.
      by rewrite with_state_ne by (by apply Hl).
    + by rewrite with_state_eq.
    + by rewrite F9.
  - done.
  - done.
  - done.
Qed.

(** A block that was built before is built again. *)
Lemma valid_builds c r h l st s b :
  synced c r h l st -> blocks_of c !! id b = Some b -> previous b = id (ctl_head c) -> validated b = true -> s <> status_incomplete ->
  build (mode_at c s) (ctl_head c) b (state_at st c).1 (state_at st c).2 = ((st (id b)).2, Ok (st (id b)).1).
Proof.
  intros Hs Hb Hp Hv Hne. destruct (child_num _ _ _ _ _ _ Hs Hb Hp) as (Hpar & _ & _).
  pose proof (fo_built _ _ _ (sy_forest _ _ _ _ _ Hs) _ _ _ Hb Hv Hpar) as Hbu. unfold built in Hbu. rewrite Hp in Hbu.
  apply (build_fewer _ _ _ _ _ _ _ _ true (mode_again c s Hne)) in Hbu. by rewrite (set_validated_id b Hv) in Hbu.
Qed.

(** A block is applied with the checks of the first time, or it was valid. *)
Definition applies (s : block_status) (b : block_state) : Prop := s = status_complete \/ s = status_validated /\ validated b = true.

Lemma applies_complete s b : applies s b -> s <> status_incomplete.
Proof. by intros [->|[-> _]]. Qed.

Lemma first_builds c r h l st s b x m :
  synced c r h l st -> blocks_of c !! id b = Some b -> previous b = id (ctl_head c) -> applies s b ->
  build (mode_at c s) (ctl_head c) b (state_at st c).1 (state_at st c).2 = (m, Ok x) ->
  build (first_mode env) (ctl_head c) (set_validated true b) (state_at st c).1 (state_at st c).2 = (m, Ok x).
Proof.
  intros Hs Hb Hp Happ Hbu. destruct Happ as [->|[-> Hv]].
  - rewrite (mode_complete _ _ _ _ _ Hs) in Hbu. by eapply build_fewer; [|exact Hbu].
  - rewrite (set_validated_id b Hv). destruct (child_num _ _ _ _ _ _ Hs Hb Hp) as (Hpar & _ & _).
    pose proof (fo_built _ _ _ (sy_forest _ _ _ _ _ Hs) _ _ _ Hb Hv Hpar) as Hb2. unfold built in Hb2. rewrite Hp in Hb2.
    rewrite (valid_builds _ _ _ _ _ status_validated _ Hs Hb Hp Hv ltac:(done)) in Hbu. congruence.
Qed.

Lemma apply_mark_err c r h l st s b e m :
  synced c r h l st -> blocks_of c !! id b = Some b -> previous b = id (ctl_head c) -> s <> status_incomplete ->
  build (mode_at c s) (ctl_head c) b (state_at st c).1 (state_at st c).2 = (m, Err e) ->
  apply_and_mark build env s b c = Some (c, Err e) /\ is_fc_exception e = true /\ validated b = false.
Proof.
  intros Hs Hb Hp Hne Hbu. destruct (child_num _ _ _ _ _ _ Hs Hb Hp) as (_ & Hn & _).
  destruct (fo_small _ _ _ (sy_forest _ _ _ _ _ Hs) _ _ Hb) as [Hsm _].
  destruct (apply_err _ _ _ _ _ _ _ _ _ Hs Hsm Hn Hbu) as [Ha Hfc]. split_and!; [|done|].
  - unfold apply_and_mark. ctl_run. by rewrite Ha.
  - destruct (validated b) eqn:Hv; [|done]. by rewrite (valid_builds _ _ _ _ _ _ _ Hs Hb Hp Hv Hne) in Hbu.
Qed.

(** *** States that agree *)

(** [st'] says the same as [st] about the blocks that were applied before. *)
Definition agrees (i : gmap sha256 block_state) (r : block_state) (st st' : states) : Prop :=
  forall y b, root_or_block r i y = Some b -> validated b = true -> st' y = st y.

Lemma forest_ext i r st st' : (forall y, st' y = st y) -> forest_ok i r st -> forest_ok i r st'.
Proof. intros E [H1 H2 H3 H4 H5 H6]. split; try done; [|by rewrite E]. intros x b p. unfold built. rewrite !E. apply H4. Qed.

Lemma synced_ext c r h l st st' : (forall y, st' y = st y) -> synced c r h l st -> synced c r h l st'.
Proof.
  intros E [F1 F2 F3 F4 F5 F6 F7 F8 F9 F10 F11]. split; try done; [by eapply forest_ext| |by rewrite E].
  rewrite F6, E. f_equal. apply list_fmap_ext. intros k e _. by rewrite E.
Qed.

(** A block that was applied before is applied again without marking it. *)
Lemma apply_mark_valid s b c :
  validated b = true -> apply_and_mark build env s b c = (apply_block build env s b ;; ctl_update (fun c => with_ctl_head c b)) c.
Proof.
  intros Hv. unfold apply_and_mark. ctl_run. destruct (apply_block build env s b c) as [[c1 [[]|e]]|]; [|done..].
  unfold mark_valid. rewrite Hv, (set_validated_id b Hv). by destruct c1 as [? ? ? [] ? ? ? ?].
Qed.

Lemma reapply_one c r h l st b :
  synced c r h l st -> blocks_of c !! id b = Some b -> previous b = id (ctl_head c) -> validated b = true ->
  exists c', (apply_block build env status_validated b ;; ctl_update (fun c => with_ctl_head c b)) c = Some (c', Ok tt) /\
    synced c' r h (b :: l) st /\ ctl_head c' = b /\ blocks_of c' = blocks_of c /\ block_log c' = block_log c.
Proof.
  intros Hs Hb Hp Hv. pose proof (valid_builds _ _ _ _ _ status_validated _ Hs Hb Hp Hv ltac:(done)) as Hbu.
  pose proof (first_builds _ _ _ _ _ _ _ _ _ Hs Hb Hp (or_intror (conj eq_refl Hv)) Hbu) as Hfirst.
  destruct (apply_mark_ok _ _ _ _ _ _ _ _ _ Hs Hb Hp Hbu Hfirst) as (c' & Ha & Hs' & Hh & Hi & Hg).
  rewrite apply_mark_valid in Ha by done. rewrite (set_validated_id b Hv) in *. rewrite insert_id in Hi by done.
  exists c'. split_and!; try done. apply (synced_ext _ _ _ _ (with_state st (id b) (st (id b)).1 (st (id b)).2)).
  - intros y. unfold with_state. destruct (decide (y = id b)) as [->|]; [by destruct (st (id b))|done].
  - unfold marked_head in Hs'. by rewrite Hv in Hs'.
Qed.

Lemma reapply_run bs : forall c r h l st x,
  synced c r h l st -> path (blocks_of c) x (reverse bs) (id (ctl_head c)) -> Forall (fun b => validated b = true) bs ->
  exists c', reapply build env bs c = Some (c', Ok tt) /\ synced c' r h (reverse bs ++ l) st /\ id (ctl_head c') = x /\
    blocks_of c' = blocks_of c /\ block_log c' = block_log c.
Proof.
  induction bs as [|b bs IH]; intros c r h l st x Hs Hp Hv.
  { inversion Hp; subst. by exists c. }
  apply list.Forall_cons in Hv as [Hvb Hv]. rewrite reverse_cons in Hp. apply path_app_inv in Hp as (y & Hp1 & Hp2).
  inversion Hp2 as [|? b' ? ? Hb Hp3]; subst. inversion Hp3; subst.
  pose proof (ti_key _ _ (fi_tree _ _ _ (sy_forks _ _ _ _ _ Hs)) _ _ Hb) as Hid. subst y.
  destruct (reapply_one _ _ _ _ _ _ Hs Hb ltac:(done) Hvb) as (c1 & Ha & Hs1 & Hh1 & Hi1 & Hg1).
  destruct (IH c1 r h (b :: l) st x Hs1) as (c' & Hc & Hs' & Hh' & Hi' & Hg'); [by rewrite Hh1, Hi1|done|].
  exists c'. rewrite reverse_cons, <- app_assoc. split; [|split_and!; [done|done|congruence..]].
  cbn [reapply]. revert Ha. ctl_run. destruct (apply_block build env status_validated b c) as [[c2 [[]|e]]|]; [|done..].
  intros [= ->]. done.
Qed.

(** *** Forgetting a block *)

(** What is below a validated block is validated. *)
Lemma valid_below i r st x l y b d :
  forest_ok i r st -> path i x l y -> root_or_block r i x = Some d -> validated d = true -> i !! y = Some b -> validated b = true.
Proof.
  intros Hf H. pose proof (fo_tree _ _ _ Hf) as Ht. revert d. induction H as [|x e l y Hd H IH]; intros d Hx Hv Hy.
  - apply root_or_block_cases in Hx as [[-> _]|[_ Hx]]; [by rewrite (tree_root_outside _ _ Ht) in Hy|congruence].
  - apply root_or_block_cases in Hx as [[-> _]|[_ Hx]]; [by rewrite (tree_root_outside _ _ Ht) in Hd|].
    assert (d = e) as -> by congruence. destruct (ti_parent _ _ Ht _ _ Hd) as (p & Hp & _). apply (IH p Hp); [|done].
    apply root_or_block_cases in Hp as [[_ ->]|[_ Hp]]; [apply (proj1 (fo_root _ _ _ Hf))|by eapply (fo_closed _ _ _ Hf x e p)].
Qed.

Lemma forest_without i j r st x : forest_ok i r st -> without_subtree i x j -> forest_ok j r st.
Proof.
  intros [H1 H2 H3 H4 H5 H6] Hj. pose proof (without_subtree_tree _ _ _ _ H1 Hj) as Ht. split; try done.
  - intros y b p [Hy _]%Hj Hv [Hp _]%Hj. by eapply (H3 y b p).
  - intros y b p [Hy _]%Hj Hv Hp. apply (H4 y b p Hy Hv). unfold root_or_block in *. case_bool_decide; [done|]. by apply Hj in Hp as [? _].
  - intros y b [Hy _]%Hj. by apply H6.
Qed.

Lemma remove_bad c r h l st b :
  synced c r h l st -> blocks_of c !! id b = Some b -> validated b = false ->
  exists j, ForkDatabase.remove (id b) (fork_database c) = Some (with_index (fork_database c) j, Ok tt) /\
    without_subtree (blocks_of c) (id b) j /\ synced (with_forks c (with_index (fork_database c) j)) r h l st.
Proof.
  intros [F1 F2 F3 F4 F5 F6 F7 F8 F9 F10 F11] Hb Hv. pose proof (fo_tree _ _ _ F2) as Ht.
  assert (forall x d, root_or_block r (blocks_of c) x = Some d -> validated d = true -> ~ reach (blocks_of c) x (id b)) as Hout.
  { intros x d Hx Hd [k Hk]. by rewrite (valid_below _ _ _ _ _ _ b d F2 Hk) in Hv. }
  assert (~ reach (blocks_of c) (id h) (id b)) as Hh.
  { destruct (fi_best _ _ _ F1) as [[->|[Hi Hvh]] _].
    - apply (Hout _ r); [apply root_or_block_root|apply (proj1 (fo_root _ _ _ F2))].
    - apply (Hout _ h); [|done]. unfold root_or_block. rewrite bool_decide_false; [done|].
      intros E. by rewrite E, (tree_root_outside _ _ Ht) in Hi. }
  destruct (remove_run (fork_database c) h (id b) (tree_acyclic _ _ Ht) (fi_head _ _ _ F1)) as [[Hr _]|(_ & j & Hr & Hj)]; [done|].
  exists j. split; [done|]. split; [done|]. split; cbn; try done.
  - by apply (remove_inv _ _ _ _ _ _ F1 Hr).
  - by eapply forest_without.
  - pose proof (Hout _ _ F3 F4) as Hx. unfold root_or_block in *. case_bool_decide; [done|]. by apply Hj.
  - pose proof (Hout _ _ F3 F4) as Hx. clear -F5 Hx Hj. induction F5 as [|x d l y Hd H IH]; [constructor|].
    econstructor; [apply Hj; split; [exact Hd|done]|]. apply IH. intros Hr. apply Hx. by eapply reach_step.
Qed.

(** *** The loop over the new branch *)

Definition marked_heads (h : block_state) (bs : list block_state) : block_state := foldl (fun h b => marked_head b h) h bs.

Definition status_of (b : block_state) : block_status := if validated b then status_validated else status_complete.

(** The blocks [good] were applied. *)
Record advanced c c' (r h h' : block_state) (l : list block_state) (st st' : states) (good : list block_state) : Prop := {
  av_synced : synced c' r h' (reverse (set_validated true <$> good) ++ l) st';
  av_path : path (blocks_of c') (id (ctl_head c')) (reverse (set_validated true <$> good)) (id (ctl_head c));
  av_head : h' = marked_heads h good;
  av_agrees : agrees (blocks_of c) r st st';
  av_others y : (forall b, b ∈ good -> id b <> y) -> blocks_of c' !! y = blocks_of c !! y;
  av_valid y b : root_or_block r (blocks_of c) y = Some b -> validated b = true -> root_or_block r (blocks_of c') y = Some b;
  av_flags y : set_validated true <$> blocks_of c' !! y = set_validated true <$> blocks_of c !! y;
  av_log : block_log c' = block_log c
}.

Lemma advanced_nil c r h l st : synced c r h l st -> advanced c c r h h l st st [].
Proof. intros H. split; try done. constructor. Qed.

Lemma path_same i j x l y :
  path i x l y -> (forall z b, i !! z = Some b -> b ∈ l -> j !! z = Some b) -> path j x l y.
Proof.
  intros H. induction H as [|x b l y Hb H IH]; intros Hj; [constructor|]. econstructor; [apply Hj; [done|left]|].
  apply IH. intros z d Hz Hd. apply Hj; [done|by right].
Qed.

Lemma agrees_with_state i r st b x m : i !! id b = Some b -> id b <> id r -> (validated b = true -> st (id b) = (x, m)) ->
  agrees i r st (with_state st (id b) x m).
Proof.
  intros Hb Hr Hs y d Hy Hv. destruct (decide (y = id b)) as [->|Hne]; [|by apply with_state_ne].
  rewrite with_state_eq. apply root_or_block_cases in Hy as [[E _]|[_ Hy]]; [done|]. assert (d = b) as -> by congruence. by rewrite Hs.
Qed.

Lemma advanced_one c r h l st s b x m :
  synced c r h l st -> blocks_of c !! id b = Some b -> previous b = id (ctl_head c) -> applies s b ->
  build (mode_at c s) (ctl_head c) b (state_at st c).1 (state_at st c).2 = (m, Ok x) ->
  exists c' st', apply_and_mark build env s b c = Some (c', Ok tt) /\ advanced c c' r h (marked_head b h) l st st' [b] /\
    ctl_head c' = set_validated true b.
Proof.
  intros Hs Hb Hp Happ Hbu. pose proof (applies_complete _ _ Happ) as Hne.
  pose proof (first_builds _ _ _ _ _ _ _ _ _ Hs Hb Hp Happ Hbu) as Hfirst.
  destruct (apply_mark_ok _ _ _ _ _ _ _ _ _ Hs Hb Hp Hbu Hfirst) as (c' & Ha & Hs' & Hh & Hi & Hg).
  destruct (child_num _ _ _ _ _ _ Hs Hb Hp) as (_ & _ & Hbr).
  exists c', (with_state st (id b) x m). split; [done|]. split; [|done]. split; try done.
  - rewrite Hh, Hi. econstructor; [apply lookup_insert_eq|]. cbn. rewrite Hp. constructor.
  - apply agrees_with_state; [done|done|]. intros Hv. rewrite (valid_builds _ _ _ _ _ _ _ Hs Hb Hp Hv Hne) in Hbu.
    destruct (st (id b)); cbn in *. congruence.
  - intros y Hy. rewrite Hi. apply lookup_insert_ne. apply Hy. left.
  - intros y d Hy Hv. rewrite Hi, root_or_block_insert by done. destruct (decide (y = id b)) as [->|]; [|done].
    apply root_or_block_cases in Hy as [[? _]|[_ Hy]]; [done|]. assert (d = b) as -> by congruence. by rewrite set_validated_id.
  - intros y. rewrite Hi. destruct (decide (y = id b)) as [->|]; [by rewrite lookup_insert_eq, Hb|by rewrite lookup_insert_ne].
Qed.

Lemma advanced_trans c c1 c2 r h h1 h2 l st st1 st2 g1 g2 :
  advanced c c1 r h h1 l st st1 g1 -> advanced c1 c2 r h1 h2 (reverse (set_validated true <$> g1) ++ l) st1 st2 g2 ->
  (forall b d, b ∈ g1 -> d ∈ g2 -> id b <> id d) -> advanced c c2 r h h2 l st st2 (g1 ++ g2).
Proof.
  intros [A1 A2 A3 A4 A5 A6 A7 A8] [B1 B2 B3 B4 B5 B6 B7 B8] Hd. split.
  - by rewrite fmap_app, reverse_app, <- app_assoc.
  - rewrite fmap_app, reverse_app. eapply path_app; [done|]. apply (path_same (blocks_of c1)); [done|]. intros z b Hz Hb.
    rewrite B5; [done|]. intros d Hin E. apply elem_of_reverse, list_elem_of_fmap in Hb as (b' & -> & Hb).
    pose proof (ti_key _ _ (fi_tree _ _ _ (sy_forks _ _ _ _ _ A1)) _ _ Hz) as Hid. cbn in Hid. apply (Hd b' d Hb Hin). congruence.
  - unfold marked_heads in *. rewrite foldl_app. congruence.
  - intros y b Hy Hv. rewrite (B4 y b); [|by apply A6|done]. by eapply A4.
  - intros y Hy. rewrite B5, A5; [done| |]; intros b Hb; apply Hy; apply elem_of_app; auto.
  - intros y b Hy Hv. apply B6; [by apply A6|done].
  - intros y. by rewrite B7.
  - congruence.
Qed.

Lemma switch_run second todo : forall n c r h l st x,
  synced c r h l st -> path (blocks_of c) x (reverse todo) (id (ctl_head c)) ->
  (exists c' st', switch_each build env second todo n c = Some (c', Ok tt) /\
     advanced c c' r h (marked_heads h todo) l st st' todo /\ id (ctl_head c') = x) \/
  (exists good b rest c1 h1 st1 e m, todo = good ++ b :: rest /\ advanced c c1 r h h1 l st st1 good /\
     blocks_of c1 !! id b = Some b /\ validated b = false /\ previous b = id (ctl_head c1) /\
     build (first_mode env) (ctl_head c1) b (current (ctl_db c1)) (protocol_features c1) = (m, Err e) /\
     switch_each build env second todo n c =
       (on_forks (ForkDatabase.remove (id b)) ;; pop_blocks env (n + length good) ;; check_common second ;;
        reapply build env (reverse second) ;; ctl_lift (Err fc_exception)) c1).
Proof.
  induction todo as [|b todo IH]; intros n c r h l st x Hs Hp.
  { left. exists c, st. inversion Hp; subst. split; [done|]. split; [by apply advanced_nil|done]. }
  rewrite reverse_cons in Hp. pose proof (tree_acyclic _ _ (fi_tree _ _ _ (sy_forks _ _ _ _ _ Hs))) as Hac.
  pose proof (path_nodup _ _ _ _ Hac Hp) as Hnd. apply path_app_inv in Hp as (y & Hp1 & Hp2).
  inversion Hp2 as [|? b' ? ? Hb Hp3]; subst. assert (previous b = id (ctl_head c)) as Hpb by (by inversion Hp3).
  pose proof (ac_key _ Hac _ _ Hb) as Hid. subst y.
  assert (forall d, d ∈ todo -> id d <> id b) as Hdis.
  { intros d Hd E. rewrite map_app in Hnd. apply list.NoDup_app in Hnd as (_ & Hnd & _). apply (Hnd (id d)).
    - apply list_elem_of_fmap. exists d. split; [done|]. by apply elem_of_reverse.
    - rewrite E. left. }
  assert (applies (status_of b) b) as Happ by (unfold applies, status_of; destruct (validated b); auto).
  pose proof (applies_complete _ _ Happ) as Hne.
  cbn [switch_each]. fold (status_of b).
  destruct (build (mode_at c (status_of b)) (ctl_head c) b (state_at st c).1 (state_at st c).2) as [m [x1|e]] eqn:Hbu.
  - destruct (advanced_one _ _ _ _ _ _ _ _ _ Hs Hb Hpb Happ Hbu) as (c1 & st1 & Ha & Hadv & Hh1). rewrite Ha.
    pose proof (av_synced _ _ _ _ _ _ _ _ _ Hadv) as Hs1.
    assert (path (blocks_of c1) x (reverse todo) (id (ctl_head c1))) as Hp1'.
    { rewrite Hh1. apply (path_same (blocks_of c)); [done|]. intros z d Hz Hd. rewrite (av_others _ _ _ _ _ _ _ _ _ Hadv); [done|].
      intros b' ->%list_elem_of_singleton. rewrite <- (ac_key _ Hac _ _ Hz). apply not_eq_sym, Hdis. by apply elem_of_reverse. }
    destruct (IH (Datatypes.S n) c1 r _ _ _ x Hs1 Hp1') as [(c' & st' & Hc & Hadv' & Hx)|(good & b2 & rest & c2 & h2 & st2 & e & m2 & -> & Hadv' & Hb2 & Hv2 & Hpb2 & He & Hc)].
    + left. exists c', st'. split; [done|]. split; [|done]. apply (advanced_trans _ _ _ _ _ _ _ _ _ _ _ [b] todo Hadv Hadv').
      intros b1 d ->%list_elem_of_singleton Hd. by apply not_eq_sym, Hdis.
    + right. exists (b :: good), b2, rest, c2, h2, st2, e, m2. split; [done|]. split.
      { apply (advanced_trans _ _ _ _ _ _ _ _ _ _ _ [b] good Hadv Hadv').
        intros b1 d ->%list_elem_of_singleton Hd. apply not_eq_sym, Hdis. apply elem_of_app. by left. }
      split_and!; try done. rewrite Hc. cbn [length]. by rewrite Nat.add_succ_r.
  - destruct (apply_mark_err _ _ _ _ _ _ _ _ _ Hs Hb Hpb Hne Hbu) as (Ha & Hfc & Hv). rewrite Ha, Hfc.
    right. exists [], b, todo, c, h, st, e, m. split; [done|]. split; [by apply advanced_nil|]. split_and!; try done.
    + unfold status_of in Hbu. rewrite Hv, (mode_complete _ _ _ _ _ Hs) in Hbu. by rewrite (sy_db _ _ _ _ _ Hs), (sy_features _ _ _ _ _ Hs).
    + cbn [length]. by rewrite Nat.add_0_r.
Qed.

(** *** Irreversible blocks *)

Lemma path_filter i r x l y n :
  block_tree i r -> path i x l y ->
  exists l1 l2, l = l1 ++ l2 /\ filter (fun s => block_num s <= n) l = l2 /\ Forall (fun s => n < block_num s) l1.
Proof.
  intros Ht H. induction H as [|x b l y Hb H (l1 & l2 & -> & E & Hl)]; [by exists [], []|].
  rewrite filter_cons. destruct (decide (block_num b <= n)) as [Hle|Hgt].
  - exists [], (b :: l1 ++ l2). split; [done|]. split; [|done]. f_equal. apply list_filter_all. apply list.Forall_forall. intros e He.
    pose proof (path_below _ _ _ _ _ e (tree_acyclic _ _ Ht) Hb H He). lia.
  - exists (b :: l1), l2. split; [done|]. split; [done|]. constructor; [lia|done].
Qed.

(** The controller after the blocks up to [b] were logged. *)
Definition logged c (b : block_state) (log : list (Z * sha256)) : controller :=
  with_reversible (with_log (with_ctl_db c (commit_sessions (block_num b) (ctl_db c))) log)
    (filter (fun kv => block_num b < kv.1) (reversible_blocks c)).

Lemma commit_twice n k (d : undo_db (S := S)) : n <= k -> commit_sessions k (commit_sessions n d) = commit_sessions k d.
Proof. intros H. unfold commit_sessions. cbn. f_equal. rewrite take_take. f_equal. lia. Qed.

Lemma log_blocks_run bs : forall b root_id c,
  (forall e, e ∈ bs -> block_num e <= block_num b) ->
  log_blocks build env (bs ++ [b]) root_id c =
    Some (logged c b (reverse ((fun e => (block_num e, id e)) <$> bs ++ [b]) ++ block_log c), (id b, Ok tt)).
Proof.
  induction bs as [|d bs IH]; intros b root_id c Hle; cbn [app log_blocks].
  - unfold log_block. ctl_run. rewrite bool_decide_false by exact mode. done.
  - unfold log_block at 1. ctl_run. rewrite bool_decide_false by exact mode. rewrite IH by (intros e He; apply Hle; by right).
    rewrite fmap_cons, reverse_cons, <- app_assoc. do 2 f_equal. assert (block_num d <= block_num b) as Hd by (apply Hle; left).
    unfold logged, with_reversible, with_log, with_ctl_db. cbn. rewrite commit_twice by done. f_equal.
    apply map_filter_filter_l. intros k v _. cbn. lia.
Qed.

Lemma reversible_filter l1 l2 n :
  Forall (fun b => n < block_num b) l1 -> Forall (fun b => block_num b <= n) l2 ->
  filter (fun kv => n < kv.1) (reversible_of (l1 ++ l2)) = reversible_of l1.
Proof.
  intros H1 H2. induction H1 as [|b l1 Hb H1 IH].
  - cbn [app]. induction H2 as [|b l2 Hb H2 IH]; [apply map_filter_empty|].
    unfold reversible_of in *. cbn. rewrite map_filter_insert_False by (cbn; lia). rewrite map_filter_delete, IH. apply delete_empty.
  - unfold reversible_of in *. cbn. by rewrite map_filter_insert_True, IH by done.
Qed.

Lemma forest_above i j r b st :
  forest_ok i r st -> i !! id b = Some b -> validated b = true -> strictly_above i (id b) j -> forest_ok j b st.
Proof.
  intros Hf Hb Hv Hj. pose proof Hf as [H1 H2 H3 H4 H5 H6]. split; [by eapply strictly_above_tree| |..].
  - split; [done|]. destruct (ti_parent _ _ H1 _ _ Hb) as (p & Hp & ->). f_equal.
    rewrite <- (root_or_block_id _ _ _ _ H1 Hp). apply root_or_block_cases in Hp as [[_ ->]|[_ Hp]]; [apply (ti_root_num _ _ H1)|by apply (ti_num _ _ H1 _ _ Hp)].
  - intros x d p (Hx & _)%Hj Hd (Hp & _)%Hj. by eapply (H3 x d p).
  - intros x d p (Hx & _)%Hj Hd Hp. apply (H4 x d p Hx Hd). apply root_or_block_cases in Hp as [[Hp ->]|[_ (Hp & _)%Hj]].
    all: unfold root_or_block; rewrite bool_decide_false; [congruence|]; intros E.
    + rewrite <- Hp, E, (tree_root_outside _ _ H1) in Hb. done.
    + by rewrite E, (tree_root_outside _ _ H1) in Hp.
  - eapply valid_good; [done| |done]. unfold root_or_block. rewrite bool_decide_false; [done|].
    intros E. by rewrite E, (tree_root_outside _ _ H1) in Hb.
  - intros x d (Hx & _)%Hj. by apply H6.
Qed.

Lemma path_above i x l y b e : acyclic i -> path i x l y -> i !! y = Some b -> e ∈ l -> block_num b < block_num e.
Proof.
  intros Hac H Hb He. destruct (path_blocks _ _ _ _ _ H He) as (z & Hz & _ & [k Hk]).
  by eapply (path_num i z (e :: k) y); [|econstructor|..].
Qed.

(** The blocks [l2] up to [b] become irreversible. *)
Lemma synced_advance c r h l1 b l2 st j log :
  synced c r h (l1 ++ b :: l2) st -> Forall (fun e => block_num b < block_num e) l1 ->
  strictly_above (blocks_of c) (id b) j -> fork_inv (mk_fork_db j (Some b) (Some h)) b h ->
  synced (with_forks (logged c b ((block_num b, id b) :: log)) (mk_fork_db j (Some b) (Some h))) b h l1 st.
Proof.
  intros [F1 F2 F3 F4 F5 F6 F7 F8 F9 F10 F11] Hl1 Hj Hinv. pose proof (fo_tree _ _ _ F2) as Ht. pose proof (tree_acyclic _ _ Ht) as Hac.
  apply path_app_inv in F5 as (y & Hp1 & Hp2). inversion Hp2 as [|? b' ? ? Hb Hp3]; subst.
  pose proof (ac_key _ Hac _ _ Hb) as Hid. subst y.
  assert (validated b = true) as Hvb by (by eapply (valid_below _ _ _ _ _ _ _ _ F2 Hp1)).
  assert (root_or_block r (blocks_of c) (id b) = Some b) as Hrb.
  { unfold root_or_block. rewrite bool_decide_false; [done|]. intros E. by rewrite E, (tree_root_outside _ _ Ht) in Hb. }
  assert (Forall (fun e => block_num e <= block_num b) (b :: l2)) as Hl2.
  { constructor; [done|]. apply list.Forall_forall. intros e He. apply Z.lt_le_incl. by eapply path_below. }
  split; cbn; try done.
  - by eapply forest_above.
  - unfold root_or_block. case_bool_decide as E.
    + rewrite E in F3. congruence.
    + apply Hj. apply root_or_block_cases in F3 as [[Er _]|[_ F3]].
      * rewrite Er in Hp1. apply path_end_inv in Hp1 as [_ E']; [congruence|by apply tree_root_outside].
      * split_and!; [done|done|by exists l1].
  - apply (path_same (blocks_of c)); [done|]. intros z e Hz He. apply Hj. split; [done|].
    destruct (path_blocks _ _ _ _ _ Hp1 He) as (z' & Hz' & _ & Hr). rewrite <- (ac_key _ Hac _ _ Hz). rewrite <- (ac_key _ Hac _ _ Hz') in Hz'.
    split; [|by eapply reach_step]. intros E. rewrite E in Hz'. assert (e = b) as -> by congruence.
    rewrite list.Forall_forall in Hl1. specialize (Hl1 b He). lia.
  - unfold commit_sessions. rewrite F6. cbn. f_equal. rewrite fmap_app. apply take_app_length'. rewrite length_fmap.
    pose proof (path_block_nums _ _ _ _ _ _ _ Ht Hp1 F3 Hrb) as Hn. lia.
  - rewrite F9. by apply reversible_filter.
Qed.

Lemma log_run c r h l st :
  synced c r h l st -> id h = id (ctl_head c) ->
  exists c' r' l1 l2, log_irreversible build env c = Some (c', Ok tt) /\ synced c' r' h l1 st /\ l = l1 ++ l2 /\
    ctl_head c' = ctl_head c /\ block_log c' = ((fun e => (block_num e, id e)) <$> l2) ++ block_log c /\ blocks_of c' ⊆ blocks_of c.
Proof.
  intros Hs Eh. pose proof Hs as [F1 F2 F3 F4 F5 F6 F7 F8 F9 F10 F11]. pose proof (fo_tree _ _ _ F2) as Ht. pose proof (tree_acyclic _ _ Ht) as Hac.
  unfold log_irreversible. ctl_run. rewrite (fi_root _ _ _ F1), bool_decide_true by done. cbn [ine_assert deref].
  assert ((match block_log c with (n, _) :: _ => n | [] => u32 (first_block_num env - 1) end) = block_num r) as -> by
    (unfold log_ok in F10; destruct (block_log c) as [|[n i] g]; [done|by destruct F10]).
  assert ((match block_log c with (_, i) :: _ => ine_assert (bool_decide (id r = i)) (Throw fork_database_exception)
    | [] => ine_assert (block_num r =? block_num r) (Throw fork_database_exception) end) = Ok tt) as ->.
  { unfold log_ok in F10. destruct (block_log c) as [|[n i] g]; [by rewrite Z.eqb_refl|]. destruct F10 as [_ ->]. by rewrite bool_decide_true. }
  rewrite bool_decide_false by exact mode. rewrite (fi_head _ _ _ F1). cbn [deref].
  destruct (_ <=? _) eqn:Hlib; [exists c, r, l, []; by rewrite app_nil_r|].
  unfold fetch_branch. rewrite Eh, (branch_loop_spec _ _ r _ l); [|by apply tree_root_outside|done|by eapply path_length]. cbn [fmap option_fmap option_map].
  destruct (path_filter _ _ _ _ _ (dpos_irreversible_blocknum h) Ht F5) as (l1 & l2 & -> & -> & Hl1).
  unfold log_branch. destruct l2 as [|b l2].
  { cbn. unfold advance_if_new. rewrite bool_decide_true by done. exists c, r, (l1 ++ []), []. split_and!; [done|done|by rewrite !app_nil_r|done..]. }
  rewrite reverse_cons.
  pose proof F5 as Hp. apply path_app_inv in Hp as (y & Hp1 & Hp2). inversion Hp2 as [|? b' ? ? Hb Hp3]; subst.
  pose proof (ac_key _ Hac _ _ Hb) as Hid. subst y.
  assert (validated b = true) as Hvb by (by eapply (valid_below _ _ _ _ _ _ _ _ F2 Hp1)).
  rewrite log_blocks_run; cycle 1.
  { intros e He. rewrite elem_of_reverse in He. apply Z.lt_le_incl. exact (path_below _ _ _ _ _ _ Hac Hb Hp3 He). }
  unfold advance_if_new. rewrite bool_decide_false; [|intros E; by rewrite E, (tree_root_outside _ _ Ht) in Hb]. ctl_run. cbn.
  destruct (advance_root_run (id b) b (fork_database c) r h F1 Hb Hvb) as [(_ & j & Hadv & Hj)|(Hn & _)]; cycle 1.
  { exfalso. apply Hn. rewrite Eh. by exists l1. }
  rewrite Hadv. destruct (advance_inv _ _ _ _ _ F1 Hadv) as [r' Hinv]. pose proof (fi_root _ _ _ Hinv) as [= <-].
  eexists _, b, l1, (b :: l2). split; [reflexivity|]. split_and!; [|done|done| |].
  - rewrite fmap_app, reverse_app. cbn [reverse fmap list_fmap app]. apply (synced_advance c r h l1 b l2); [done| |done|done].
    apply list.Forall_forall. intros e He. exact (path_above _ _ _ _ _ _ Hac Hp1 Hb He).
  - cbn. by rewrite fmap_app, reverse_app, fmap_reverse, reverse_involutive.
  - cbn. apply map_subseteq_spec. by intros z d [Hz _]%Hj.
Qed.

(** *** Going back *)

Lemma path_fun i x l y y' : path i x l y -> path i x l y' -> y = y'.
Proof.
  intros H. revert y'. induction H as [|x b l y Hb H IH]; intros y' H'; inversion H'; subst; [done|by apply IH].
Qed.

Lemma path_nil_inv i x y : path i x [] y -> x = y.
Proof. intros H. by inversion H. Qed.

Lemma path_last i x l y b : path i x l y -> list.last l = Some b -> previous b = y.
Proof.
  intros H. induction H as [|x d l y Hd H IH]; [done|]. destruct l as [|e l]; [intros [= ->]; by inversion H|]. exact IH.
Qed.

Lemma reach_flags i j x y :
  (forall z, set_validated true <$> i !! z = set_validated true <$> j !! z) -> reach i x y -> reach j x y.
Proof.
  intros Hf [l H]. induction H as [|x b l y Hb H IH]; [apply reach_refl|]. specialize (Hf x). rewrite Hb in Hf.
  destruct (j !! x) as [d|] eqn:Hd; [|done]. cbn in Hf. apply (reach_step _ _ d); [done|].
  assert (previous d = previous b) as -> by (apply (inj Some) in Hf; by destruct b, d; simplify_eq/=). done.
Qed.

(** Nothing but the fork database changed. *)
Definition restored c c' : Prop :=
  ctl_db c' = ctl_db c /\ ctl_head c' = ctl_head c /\ protocol_features c' = protocol_features c /\
  reversible_blocks c' = reversible_blocks c /\ pending c' = pending c /\ block_log c' = block_log c.

Lemma previous_valid c r h l st e :
  synced c r h l st -> e ∈ l -> exists q, root_or_block r (blocks_of c) (previous e) = Some q /\ validated q = true.
Proof.
  intros Hs He. pose proof Hs as [F1 F2 F3 F4 F5 _ _ _ _ _ _]. pose proof (fo_tree _ _ _ F2) as Ht.
  destruct (path_blocks _ _ _ _ _ F5 He) as (z & Hz & [k Hk] & _). assert (validated e = true) as Hv by (by eapply valid_below).
  destruct (ti_parent _ _ Ht _ _ Hz) as (q & Hq & _). exists q. split; [done|].
  apply root_or_block_cases in Hq as [[_ ->]|[_ Hq]]; [apply (proj1 (fo_root _ _ _ F2))|by eapply (fo_closed _ _ _ F2 z e q)].
Qed.

Lemma synced_same c c' r h h' l st st' :
  synced c r h l st -> synced c' r h' l st' -> agrees (blocks_of c) r st st' -> ctl_head c' = ctl_head c ->
  block_log c' = block_log c -> restored c c'.
Proof.
  intros Hs Hs' Ha Hh Hg. pose proof Hs as [F1 F2 F3 F4 F5 F6 F7 F8 F9 F10 F11]. destruct Hs' as [G1 G2 G3 G4 G5 G6 G7 G8 G9 G10 G11].
  rewrite Hh in *. pose proof (Ha _ _ F3 F4) as E. unfold restored. split_and!; try congruence.
  rewrite F6, G6, E. f_equal. apply list_fmap_ext. intros k e He%list_elem_of_lookup_2.
  destruct (previous_valid _ _ _ _ _ _ Hs He) as (q & Hq & Hv). by rewrite (Ha _ _ Hq Hv).
Qed.

(** The block [bad] is forgotten with what was built on it; the blocks below it
    are marked as valid, the others stay as they are. *)
Definition branch_forgotten (i : gmap sha256 block_state) (bad : block_state) (j : gmap sha256 block_state) : Prop :=
  forall z d, j !! z = Some d <-> ~ reach i z (id bad) /\ exists d0, i !! z = Some d0 /\
    (reach i (id bad) z -> d = set_validated true d0) /\ (~ reach i (id bad) z -> d = d0).

Definition forgotten (f f' : fork_db) (bad : block_state) : Prop :=
  root f' = root f /\ head f' = head f /\ branch_forgotten (index f) bad (index f').

Lemma reach_on_path i x l y z : path i x l y -> reach i x z -> (exists b, b ∈ l /\ i !! z = Some b) \/ reach i y z.
Proof.
  intros H. induction H as [|x b l y Hb H IH]; [by right|]. intros [k Hk]. inversion Hk as [|? b' k' ? Hb' Hk']; subst.
  - left. exists b. split; [left|done].
  - assert (b' = b) as -> by congruence. destruct IH as [(d & Hd & Hz)|]; [by exists k'| |by right]. left. exists d. split; [by right|done].
Qed.

(** The blocks [good] from [y] up to [bad] were marked, and what is below [y]
    was valid. *)
Lemma forgotten_marks i i1 j r bad good y :
  block_tree i r -> i !! id bad = Some bad -> path i (previous bad) (reverse good) y ->
  (forall z d, reach i y z -> i !! z = Some d -> validated d = true) ->
  (forall z, (forall g, g ∈ good -> id g <> z) -> i1 !! z = i !! z) ->
  (forall g, g ∈ good -> i1 !! id g = Some (set_validated true g)) ->
  (forall z, set_validated true <$> i1 !! z = set_validated true <$> i !! z) ->
  without_subtree i1 (id bad) j -> branch_forgotten i bad j.
Proof.
  intros Ht Hbad Hp Hlow Hout Hin Hf Hj z d.
  assert (forall g, g ∈ good -> i !! id g = Some g /\ reach i (id bad) (id g)) as Hg.
  { intros g Hgood. destruct (path_blocks _ _ _ _ g Hp) as (z' & Hz & Hr & _); [by apply elem_of_reverse|].
    rewrite (ti_key _ _ Ht _ _ Hz). split; [done|]. by eapply reach_step. }
  assert (reach i1 z (id bad) <-> reach i z (id bad)) as Hr by (split; apply reach_flags; done).
  assert (forall d0, (forall g, g ∈ good -> id g <> z) -> ~ reach i z (id bad) -> reach i (id bad) z -> i !! z = Some d0 ->
            set_validated true d0 = d0) as Hval.
  { intros d0 Hno Hnz Hre Hd. apply set_validated_id.
    destruct (reach_on_path i (id bad) (bad :: reverse good) y z) as [(g & Hgin & Hz)|Hy]; [by econstructor|done| |by eapply Hlow].
    apply (ti_key _ _ Ht) in Hz. apply elem_of_cons in Hgin as [->|Hgin]; [by rewrite <- Hz in Hnz; destruct Hnz; apply reach_refl|].
    rewrite elem_of_reverse in Hgin. by destruct (Hno g Hgin). }
  rewrite (Hj z d), Hr. destruct (decide (z ∈ id <$> good)) as [(g & -> & Hgood)%list_elem_of_fmap|Hno].
  - destruct (Hg g Hgood) as [Hi Hre]. rewrite (Hin g Hgood). split.
    + intros [[= <-] Hn]. split; [done|]. by exists g.
    + intros [Hn (d0 & Hd0 & H1 & _)]. assert (d0 = g) as -> by congruence. by rewrite (H1 Hre).
  - assert (forall g, g ∈ good -> id g <> z) as Hno' by (intros g Hgood E; apply Hno, list_elem_of_fmap; by exists g). rewrite (Hout z Hno'). split.
    + intros [Hd Hn]. split; [done|]. exists d. split; [done|]. split; [|done]. intros Hre. by rewrite (Hval d).
    + intros [Hn (d0 & Hd0 & H1 & H2)]. split; [|done]. rewrite Hd0. f_equal. symmetry. apply dec_stable. intros Hne. apply Hne, H2. intros Hre.
      apply Hne. rewrite (H1 Hre). by apply Hval.
Qed.

(** The block cannot be applied on its parent. *)
Definition invalid (b : block_state) : Prop :=
  exists p x m m' e, id p = previous b /\ build (first_mode env) p b x m = (m', Err e).

(** What an unsuccessful attempt to move the head does; [h] was the head of the
    fork database. *)
Record rejected c c' (r h : block_state) (bad : block_state) (e : exn) : Prop := {
  rj_restored : restored c c';
  rj_bad : blocks_of c !! id bad = Some bad /\ validated bad = false;
  rj_fails : invalid bad;
  rj_forgotten : branch_forgotten (blocks_of c) bad (blocks_of c');
  rj_fc : is_fc_exception e = true;
  rj_synced : exists good l st, synced c' r (marked_heads h good) l st /\
    (good = [] \/ blocks_of c !! id (ctl_head c) = Some (ctl_head c)) /\
    forall g, g ∈ good -> blocks_of c !! id g = Some g /\ reach (blocks_of c) (previous bad) (id g)
}.

Lemma path_same_valid i j r st x l y b :
  forest_ok i r st -> without_subtree i b j -> (exists d, i !! b = Some d /\ validated d = false) ->
  path i x l y -> Forall (fun e => validated e = true) l -> path j x l y.
Proof.
  intros Hf Hj (d & Hb & Hd) Hp Hl. apply (path_same i); [done|]. intros z e Hz He. apply Hj. split; [done|]. intros [k Hk].
  rewrite list.Forall_forall in Hl. pose proof (fo_tree _ _ _ Hf) as Ht.
  assert (root_or_block r i z = Some e) as Hr.
  { unfold root_or_block. rewrite bool_decide_false; [done|]. intros ->. by rewrite (tree_root_outside _ _ Ht) in Hz. }
  by rewrite (valid_below _ _ _ _ _ _ _ _ Hf Hk Hr (Hl e He) Hb) in Hd.
Qed.

Lemma reverse_nonempty_last (l : list block_state) : l <> [] -> exists b, list.last l = Some b.
Proof. destruct l as [|b l]; [done|]. intros _. by apply last_is_Some. Qed.

(** The loop stopped at [c1] because of [b]: back to where it started. *)
Lemma unwind c0 c1 r h h1 l st st1 good b :
  advanced c0 c1 r h h1 l st st1 good -> blocks_of c1 !! id b = Some b -> validated b = false ->
  exists c3, (forall A (k : ctl A), (on_forks (ForkDatabase.remove (id b)) ;; pop_blocks env (length good) ;; k) c1 = k c3) /\
    synced c3 r h1 l st1 /\ id (ctl_head c3) = id (ctl_head c0) /\ block_log c3 = block_log c0 /\
    without_subtree (blocks_of c1) (id b) (blocks_of c3).
Proof.
  intros [A1 A2 A3 A4 A5 A6 A7 A8] Hb Hv.
  destruct (remove_bad _ _ _ _ _ _ A1 Hb Hv) as (j & Hrm & Hj & Hs2). set (c2 := with_forks c1 (with_index (fork_database c1) j)) in *.
  assert (path (blocks_of c2) (id (ctl_head c2)) (reverse (set_validated true <$> good)) (id (ctl_head c0))) as Hp2.
  { destruct (path_app_inv _ _ _ _ _ (sy_path _ _ _ _ _ Hs2)) as (y & Hy & _). assert (y = id (ctl_head c0)) as <-; [|done].
    apply (path_fun (blocks_of c1) (id (ctl_head c1)) (reverse (set_validated true <$> good))); [|done].
    eapply path_mono; [|exact Hy]. intros z d [Hd _]%Hj. exact Hd. }
  destruct (pops_run _ _ _ _ _ _ _ Hs2 Hp2) as (c3 & Hpop & Hs3 & Hh3 & Hf3 & Hg3). rewrite length_reverse, length_fmap in Hpop.
  exists c3. split_and!; [|done|done|by rewrite Hg3|by rewrite Hf3]. intros A k. ctl_run. rewrite Hrm. fold c2. by rewrite Hpop.
Qed.

(** The new branch fails at [b]; [c0] is where the branches meet, [c1] where
    the loop stopped. *)
Lemma switch_back c c0 c1 r h h1 l second st st1 good b e :
  synced c r h (second ++ l) st -> second <> [] ->
  path (blocks_of c) (id (ctl_head c)) second (id (ctl_head c0)) ->
  fork_database c0 = fork_database c -> block_log c0 = block_log c ->
  advanced c0 c1 r h h1 l st st1 good -> (forall d d', d ∈ good -> d' ∈ second -> id d <> id d') ->
  blocks_of c !! id b = Some b -> path (blocks_of c) (previous b) (reverse good) (id (ctl_head c0)) ->
  blocks_of c1 !! id b = Some b -> validated b = false ->
  exists c', (on_forks (ForkDatabase.remove (id b)) ;; pop_blocks env (length good) ;; check_common second ;;
        reapply build env (reverse second) ;; ctl_lift (Err e : outcome unit)) c1 = Some (c', Err e) /\ restored c c' /\
    branch_forgotten (blocks_of c) b (blocks_of c') /\ synced c' r h1 (second ++ l) st1.
Proof.
  intros Hs Hne Hsec Hf0 Hg0 Hadv Hdis Hbc Hpath Hb Hv. pose proof Hs as [F1 F2 F3 F4 F5 _ _ _ _ _ _].
  destruct (unwind _ _ _ _ _ _ _ _ _ _ Hadv Hb Hv) as (c3 & Hun & Hs3 & Hh3 & Hg3 & Hj). destruct Hadv as [A1 A2 A3 A4 A5 A6 A7 A8].
  destruct (reverse_nonempty_last second Hne) as [b0 Hlast]. pose proof (path_last _ _ _ _ _ Hsec Hlast) as Hb0.
  assert (Forall (fun e => validated e = true) second) as Hval.
  { apply list.Forall_forall. intros d Hd. destruct (path_blocks _ _ _ _ _ Hsec Hd) as (z & Hz & [k Hk] & _). by eapply valid_below. }
  assert (path (blocks_of c3) (id (ctl_head c)) (reverse (reverse second)) (id (ctl_head c3))) as Hp3.
  { rewrite reverse_involutive, Hh3. apply (path_same_valid (blocks_of c1) _ r st1 _ _ _ (id b)); [apply (sy_forest _ _ _ _ _ A1)|done|by exists b| |done].
    apply (path_same (blocks_of c)); [done|]. intros z d Hz Hd. rewrite A5, Hf0; [done|]. intros d' Hd' E.
    apply (Hdis d' d Hd' Hd). by rewrite (ti_key _ _ (fo_tree _ _ _ F2) _ _ Hz). }
  destruct (reapply_run (reverse second) c3 r h1 l st1 (id (ctl_head c)) Hs3 Hp3) as (c4 & Hre & Hs4 & Hh4 & Hi4 & Hg4); [by apply list.Forall_reverse|].
  rewrite reverse_involutive in Hs4. exists c4. split; [|split_and!; [| |done]].
  - rewrite Hun. unfold check_common. ctl_run. rewrite Hlast. cbn [deref]. rewrite Hh3, Hb0, bool_decide_true by done. cbn [ine_assert]. by rewrite Hre.
  - assert (agrees (blocks_of c) r st st1) as Hag by (by rewrite <- Hf0).
    assert (ctl_head c4 = ctl_head c) as Hhead.
    { pose proof (sy_head _ _ _ _ _ Hs4) as H4. rewrite Hh4, Hi4 in H4. pose proof (A6 _ _ ltac:(by rewrite Hf0) F4) as H1.
      unfold root_or_block in *. case_bool_decide; [congruence|]. apply Hj in H4 as [H4 _]. congruence. }
    apply (synced_same _ _ _ _ _ _ _ _ Hs Hs4 Hag Hhead). by rewrite Hg4, Hg3.
  - rewrite Hi4. rewrite Hf0 in A5, A7. apply (forgotten_marks _ (blocks_of c1) _ r b good (id (ctl_head c0))); try done; [apply (fo_tree _ _ _ F2)| |].
    + intros z d Hz Hd. destruct (reach_trans _ _ _ _ (ex_intro _ second Hsec) Hz) as [k Hk]. by eapply valid_below.
    + intros g Hg. destruct (path_blocks _ _ _ _ (set_validated true g) A2) as (z & Hz & _); [apply elem_of_reverse, list_elem_of_fmap; by exists g|].
      pose proof (ti_key _ _ (fi_tree _ _ _ (sy_forks _ _ _ _ _ A1)) _ _ Hz) as Hk. cbn in Hk. by subst z.
Qed.

(** *** The head that is chosen *)

(** [p] is the pending head of the fork database. *)
Record best_pending c (r h p : block_state) : Prop := {
  bp_block : root_or_block r (blocks_of c) (id p) = Some p;
  bp_head : p = h \/ (validated p = false /\ first_preferred p h = true);
  bp_best x b : blocks_of c !! x = Some b -> first_preferred b p = false
}.

Lemma ancestor_not_better i x l y p b :
  acyclic i -> path i x (p :: l) y -> b ∈ l -> first_preferred b p = false -> first_preferred p b = true.
Proof.
  intros Hac Hp Hb Hn. inversion Hp as [|? ? ? ? Hx Hl]; subst. pose proof (path_below _ _ _ _ _ _ Hac Hx Hl Hb).
  apply not_false_iff_true. rewrite not_preferred in *. lia.
Qed.

Lemma marked_heads_pending c r h l st p l1 :
  synced c r h l st -> best_pending c r h p -> path (blocks_of c) (id p) l1 (id (ctl_head c)) -> l1 <> [] ->
  id (marked_heads h (reverse l1)) = id p.
Proof.
  intros Hs [P1 P2 P3] Hp Hne. pose proof Hs as [F1 F2 _ _ _ _ _ _ _ _ _]. pose proof (fo_tree _ _ _ F2) as Ht. pose proof (tree_acyclic _ _ Ht) as Hac.
  destruct l1 as [|p' l1]; [done|]. pose proof Hp as Hp0. inversion Hp0 as [|? ? ? ? Hx Hl]; subst.
  assert (p' = p) as ->.
  { apply root_or_block_cases in P1 as [[E ->]|[_ P1]]; [by rewrite (tree_root_outside _ _ Ht) in Hx|congruence]. }
  unfold marked_heads. rewrite reverse_cons, foldl_app. cbn [foldl]. fold (marked_heads h (reverse l1)). destruct P2 as [->|[Hv Hpref]].
  - assert (forall bs, Forall (fun b => validated b = true) bs -> marked_heads h bs = h) as Hstay.
    { intros bs Hbs. induction Hbs as [|b bs Hb Hbs IH]; [done|]. unfold marked_heads in *. cbn. unfold marked_head at 2. by rewrite Hb. }
    assert (validated h = true) as Hvh by (destruct (fi_best _ _ _ F1) as [[->|[_ ?]] _]; [apply (proj1 (fo_root _ _ _ F2))|done]).
    rewrite Hstay; [unfold marked_head; by rewrite Hvh|]. apply list.Forall_reverse, list.Forall_forall. intros b Hb.
    destruct (path_blocks _ _ _ _ _ Hl Hb) as (z & Hz & [k Hk] & _). eapply (valid_below _ _ _ (id h) (h :: k) z b h F2); [|done..]. by econstructor.
  - assert (first_preferred p (marked_heads h (reverse l1)) = true) as Hfin; [|unfold marked_head; by rewrite Hv, Hfin].
    assert (Forall (fun b => first_preferred p b = true) (reverse l1)) as Hall.
    { apply list.Forall_reverse, list.Forall_forall. intros b Hb. eapply ancestor_not_better; [done|done|done|].
      destruct (path_blocks _ _ _ _ _ Hl Hb) as (z & Hz & _). by eapply P3. }
    clear -Hpref Hall. revert h Hpref. induction Hall as [|b bs Hb Hbs IH]; intros h Hpref; [done|]. unfold marked_heads in *. cbn.
    apply IH. unfold marked_head. by destruct (negb _ && _).
Qed.

(** *** A switch *)

Inductive switched c (r h p : block_state) : option (controller (S := S) * outcome unit) -> Prop :=
| sw_moved c' r' h' l' st' new :
    synced c' r' h' l' st' -> id (ctl_head c') = id p -> id h' = id p -> block_log c' = new ++ block_log c ->
    (forall x b, blocks_of c' !! x = Some b -> first_preferred b (ctl_head c') = false) ->
    switched c r h p (Some (c', Ok tt))
| sw_rejected c' bad e : rejected c c' r h bad e -> reach (blocks_of c) (id p) (id bad) -> switched c r h p (Some (c', Err e))
| sw_undefined c' l1 : path (blocks_of c) (id p) l1 (id (ctl_head c)) -> (2 <= length l1)%nat ->
    switched c r h p (Some (c', Err undefined_behaviour)).

Lemma preferred_flags a a' b b' :
  set_validated true a = set_validated true a' -> set_validated true b = set_validated true b' -> first_preferred a b = first_preferred a' b'.
Proof. destruct a, a', b, b'. cbn. intros [= -> -> -> -> -> -> ->] [= -> -> -> -> -> -> ->]. done. Qed.

(** What was preferred before a branch was applied is so afterwards. *)
Lemma advanced_best c0 c1 r h h1 l st st1 good p :
  advanced c0 c1 r h h1 l st st1 good -> best_pending c0 r h p -> id (ctl_head c1) = id p ->
  forall x b, blocks_of c1 !! x = Some b -> first_preferred b (ctl_head c1) = false.
Proof.
  intros Hadv [P1 _ P3] Hx x b Hb. pose proof (av_flags _ _ _ _ _ _ _ _ _ Hadv) as Hf. pose proof (sy_head _ _ _ _ _ (av_synced _ _ _ _ _ _ _ _ _ Hadv)) as Hh.
  rewrite Hx in Hh. assert (set_validated true (ctl_head c1) = set_validated true p) as E.
  { unfold root_or_block in *. case_bool_decide; [congruence|]. specialize (Hf (id p)). rewrite Hh, P1 in Hf. by apply (inj Some) in Hf. }
  specialize (Hf x). rewrite Hb in Hf. destruct (blocks_of c0 !! x) as [b0|] eqn:Hb0; [|done]. apply (inj Some) in Hf.
  rewrite (preferred_flags b b0 (ctl_head c1) p Hf E). by eapply P3.
Qed.

(** The first three branches of the function. *)
Lemma switch_child c r h l st p :
  synced c r h l st -> best_pending c r h p -> previous p = id (ctl_head c) ->
  switched c r h p ((catch_fc (apply_and_mark build env status_complete p) (fun e => on_forks (ForkDatabase.remove (id p)) ;; ctl_lift (Err e)) ;;
    log_irreversible build env) c).
Proof.
  intros Hs Hbp Hp. pose proof Hbp as [P1 P2 P3]. pose proof Hs as [F1 F2 F3 F4 _ _ _ _ _ _ _]. pose proof (fo_tree _ _ _ F2) as Ht.
  assert (blocks_of c !! id p = Some p) as Hb.
  { apply root_or_block_cases in P1 as [[E ->]|[_ P1]]; [|done]. exfalso. destruct (path_to_root _ _ _ _ Ht F3) as (k & Hk & Hn & _).
    destruct (fo_root _ _ _ F2) as [_ Hr]. rewrite Hp in Hr.
    assert (block_num (ctl_head c) = num_from_id (id (ctl_head c))); [|lia].
    apply root_or_block_cases in F3 as [[_ E']|[_ F3]]; [rewrite E'; apply (ti_root_num _ _ Ht)|by apply (ti_num _ _ Ht _ _ F3)]. }
  unfold mbind at 1, ctl_bind at 1. unfold catch_fc.
  destruct (build (mode_at c status_complete) (ctl_head c) p (state_at st c).1 (state_at st c).2) as [m [x|e]] eqn:Hbu.
  - destruct (advanced_one _ _ _ _ _ _ _ _ _ Hs Hb Hp (or_introl eq_refl) Hbu) as (c1 & st1 & Ha & Hadv & Hh1). rewrite Ha.
    pose proof (av_synced _ _ _ _ _ _ _ _ _ Hadv) as Hs1.
    assert (id (marked_head p h) = id p) as Hid.
    { apply (marked_heads_pending c r h l st p [p] Hs Hbp); [|done]. econstructor; [done|]. rewrite Hp. constructor. }
    destruct (log_run _ _ _ _ _ Hs1) as (c' & r' & l1 & l2 & Hlog & Hs' & _ & Hh' & Hg' & Hsub); [by rewrite Hid, Hh1|].
    rewrite Hlog. eapply sw_moved; [done|by rewrite Hh', Hh1|done|rewrite Hg', (av_log _ _ _ _ _ _ _ _ _ Hadv); done|].
    intros y d Hd. rewrite Hh'. eapply (advanced_best _ _ _ _ _ _ _ _ _ _ Hadv Hbp); [by rewrite Hh1|]. by eapply lookup_weaken.
  - assert (status_complete <> status_incomplete) as Hne by done.
    destruct (apply_mark_err _ _ _ _ _ _ _ _ _ Hs Hb Hp Hne Hbu) as (Ha & Hfc & Hv). rewrite Ha, Hfc.
    destruct (remove_bad _ _ _ _ _ _ Hs Hb Hv) as (j & Hrm & Hj & Hs'). ctl_run. rewrite Hrm. apply (sw_rejected _ _ _ _ _ p); [|apply reach_refl].
    split; [done|done| | |done|].
    + rewrite (mode_complete _ _ _ _ _ Hs) in Hbu. repeat eexists; [|exact Hbu]. done.
    + apply (forgotten_marks _ (blocks_of c) _ r p [] (previous p)); try done; [constructor| |by intros g ?%elem_of_nil].
      intros z d [k Hk] Hd. rewrite Hp in Hk. by eapply valid_below.
    + exists [], l, st. split; [done|]. split; [by left|]. by intros g ?%elem_of_nil.
Qed.

Lemma tree_path_end i r x l z b : block_tree i r -> root_or_block r i x = Some b -> path i x l z -> exists d, root_or_block r i z = Some d.
Proof.
  intros Ht Hx H. revert b Hx. induction H as [|x e l z He H IH]; intros b Hx; [by exists b|].
  destruct (ti_parent _ _ Ht _ _ He) as (p & Hp & _). by apply (IH p).
Qed.

(** The path to the root goes through the end of a shorter path. *)
Lemma path_through c r h l st l2 z :
  synced c r h l st -> path (blocks_of c) (id (ctl_head c)) l2 z -> exists l0, l = l2 ++ l0.
Proof.
  intros [F1 F2 F3 _ F5 _ _ _ _ _ _] Hp. pose proof (fo_tree _ _ _ F2) as Ht. destruct (tree_path_end _ _ _ _ _ _ Ht F3 Hp) as [d Hd].
  destruct (path_to_root _ _ _ _ Ht Hd) as (l0 & Hl0 & _). exists l0.
  eapply path_unique; [by eapply tree_acyclic|done|by eapply path_app].
Qed.

(** The loop over the new branch succeeds, and what is irreversible is
    logged. *)
Lemma switch_done c c0 c1 r h l st st1 p l1 :
  synced c0 r h l st -> best_pending c0 r h p -> path (blocks_of c0) (id p) l1 (id (ctl_head c0)) -> block_log c0 = block_log c ->
  advanced c0 c1 r h (marked_heads h (reverse l1)) l st st1 (reverse l1) -> id (ctl_head c1) = id p ->
  switched c r h p (log_irreversible build env c1).
Proof.
  intros Hs Hbp Hp Hg Hadv Hx. pose proof (av_synced _ _ _ _ _ _ _ _ _ Hadv) as Hs1.
  assert (id (marked_heads h (reverse l1)) = id p) as Hid.
  { destruct l1 as [|q l1]; [|by eapply marked_heads_pending]. cbn. apply path_nil_inv in Hp.
    pose proof (sy_head _ _ _ _ _ Hs) as Hh. rewrite <- Hp in Hh. pose proof (bp_block _ _ _ _ Hbp) as Hb.
    destruct (bp_head _ _ _ _ Hbp) as [->|[Hv _]]; [done|]. assert (p = ctl_head c0) as -> by congruence. by rewrite (sy_valid _ _ _ _ _ Hs) in Hv. }
  destruct (log_run _ _ _ _ _ Hs1) as (c' & r' & k1 & k2 & Hlog & Hs' & _ & Hh' & Hg' & Hsub); [by rewrite Hid|]. rewrite Hlog.
  eapply sw_moved; [done|by rewrite Hh'|done|by rewrite Hg', (av_log _ _ _ _ _ _ _ _ _ Hadv), Hg|].
  intros y d Hd. rewrite Hh'. eapply (advanced_best _ _ _ _ _ _ _ _ _ _ Hadv Hbp Hx). by eapply lookup_weaken.
Qed.

Lemma maybe_switch_run c r h l st p :
  synced c r h l st -> best_pending c r h p -> switched c r h p (maybe_switch_forks build env p status_complete c).
Proof.
  intros Hs Hbp. pose proof Hs as [F1 F2 F3 F4 F5 _ _ _ _ _ _]. pose proof Hbp as [P1 P2 P3]. pose proof (fo_tree _ _ _ F2) as Ht.
  unfold maybe_switch_forks. unfold mbind at 1, ctl_bind at 1, ctl_get. cbv beta iota. case_bool_decide as Ec; [by eapply switch_child|].
  case_bool_decide as Eh.
  { assert (p = ctl_head c) as -> by congruence. eapply (sw_moved _ _ _ _ _ _ _ _ _ []); [done|done| |done|done].
    destruct P2 as [->|[Hv _]]; [done|congruence]. }
  pose proof (fetch_branch_from_exact _ _ _ (id p) (id (ctl_head c)) F1) as Hf. rewrite P1, F3 in Hf.
  destruct Hf as (l1 & l2 & z & Hf & Hp1 & Hp2 & Hdis). unfold ctl_loop, ctl_lift. rewrite Hf.
  unfold mbind at 1, ctl_bind at 1. cbv beta iota. unfold mbind at 1, ctl_bind at 1. cbv beta iota. cbn [fst snd].
  destruct (path_through _ _ _ _ _ _ _ Hs Hp2) as [l0 ->].
  assert (exists c0, (if bool_decide (l2 = []) then mret () else pop_blocks env (length l2) ;; check_common l2) c = Some (c0, Ok tt) /\
    synced c0 r h l0 st /\ id (ctl_head c0) = z /\ fork_database c0 = fork_database c /\ block_log c0 = block_log c) as (c0 & Hpop & Hs0 & Hh0 & Hf0 & Hg0).
  { case_bool_decide as E2; [subst; apply path_nil_inv in Hp2; by exists c|].
    destruct (pops_run _ _ _ _ _ _ _ Hs Hp2) as (c0 & Hpop & Hs0 & Hh0 & Hf0 & Hg0). exists c0. split; [|done].
    destruct (reverse_nonempty_last l2 E2) as [b0 Hl]. ctl_run. rewrite Hpop. unfold check_common. ctl_run. rewrite Hl. cbn [deref].
    by rewrite (path_last _ _ _ _ _ Hp2 Hl), Hh0, bool_decide_true. }
  unfold mbind at 1, ctl_bind at 1. rewrite Hpop. clear Hpop. subst z.
  assert (best_pending c0 r h p) as Hbp0 by (split; rewrite ?Hf0; done). rewrite <- Hf0 in Hp1, Hp2.
  destruct (switch_run l2 (reverse l1) 0 c0 r h l0 st (id p) Hs0) as [(c1 & st1 & Hsw & Hadv & Hx)|
    (good & b & rest & c1 & h1 & st1 & e & m & El & Hadv & Hb & Hv & Hpar & Hbu & Hsw)]; [by rewrite reverse_involutive| |].
  - unfold mbind, ctl_bind. rewrite Hsw. by eapply switch_done.
  - assert (blocks_of c !! id b = Some b /\ reach (blocks_of c) (id p) (id b)) as [Hbc Hpb].
    { destruct (path_blocks _ _ _ _ b Hp1) as (y & Hy & Hpy & _); [apply elem_of_reverse; rewrite El; apply elem_of_app; right; left|].
      rewrite Hf0 in Hy, Hpy. by rewrite (ti_key _ _ Ht _ _ Hy). }
    assert (path (blocks_of c) (previous b) (reverse good) (id (ctl_head c0))) as Hgood.
    { rewrite <- (reverse_involutive l1), El, reverse_app, reverse_cons, <- app_assoc, Hf0 in Hp1.
      apply path_app_inv in Hp1 as (y & _ & Hp1). by inversion Hp1 as [|? ? ? ? Hy Hp3]; subst. }
    unfold mbind at 1, ctl_bind at 1. rewrite Hsw. cbn [plus]. destruct (decide (l2 = [])) as [->|E2].
    + destruct (unwind _ _ _ _ _ _ _ _ _ _ Hadv Hb Hv) as (c3 & Hun & _). rewrite Hun. cbn. apply path_nil_inv in Hp2.
      apply (sw_undefined _ _ _ _ _ l1); [by rewrite <- Hf0, Hp2|]. destruct l1 as [|q [|q' l1]]; cbn; [|exfalso|lia].
      * by destruct good.
      * inversion Hp1 as [|? ? ? ? Hq Hq']; subst. apply path_nil_inv in Hq'.
        rewrite Hf0 in Hq. apply root_or_block_cases in P1 as [[E' ->]|[_ P1]]; [by rewrite (tree_root_outside _ _ Ht) in Hq|]. congruence.
    + destruct (switch_back c c0 c1 r h h1 l0 l2 st st1 good b fc_exception Hs E2) as (c' & Hback & Hres & Hfor & Hs'); try done; [by rewrite Hf0 in Hp2| |].
      { intros d d' Hd Hd' E. assert (d ∈ l1) as Hd1 by (apply elem_of_reverse; rewrite El; apply elem_of_app; by left).
        destruct (path_blocks _ _ _ _ _ Hp1 Hd1) as (y & Hy & _). destruct (path_blocks _ _ _ _ _ Hp2 Hd') as (y' & Hy' & _).
        rewrite Hf0 in Hy, Hy'. assert (d = d') as -> by (apply (ti_key _ _ Ht) in Hy as Hk; apply (ti_key _ _ Ht) in Hy' as Hk'; congruence). by apply (Hdis d'). }
      rewrite Hback. apply (sw_rejected _ _ _ _ _ b); [|done]. split; [done|done|by repeat eexists|done|done|].
      exists good, (l2 ++ l0), st1. split; [by rewrite <- (av_head _ _ _ _ _ _ _ _ _ Hadv)|]. split.
      { right. destruct l2 as [|b0 l2]; [done|]. by destruct (head_in_path _ _ _ _ _ _ Hs) as (-> & ? & _). }
      intros g Hg. destruct (path_blocks _ _ _ _ g Hgood) as (y & Hy & Hry & _); [by apply elem_of_reverse|]. by rewrite (ti_key _ _ Ht _ _ Hy).
Qed.

(** ** Pushing a block *)

(** A block as block_state makes it from a header that links to [c]. *)
Definition fresh_block c (r b : block_state) : Prop :=
  validated b = false /\ numbered (blocks_of c) r b /\ block_num b < not_active /\ block_loaded env (id b) = true.

Lemma forest_insert i r st n p :
  forest_ok i r st -> validated n = false -> numbered i r n -> block_num n < not_active -> block_loaded env (id n) = true ->
  root_or_block r i (previous n) = Some p -> i !! id n = None -> forest_ok (<[id n := n]> i) r st /\ id n <> id r.
Proof.
  intros [H1 H2 H3 H4 H5 H6] Hv Hn Hsm Hld Hp Hnew.
  assert (id n <> id r) as Hr.
  { intros E. destruct (Hn p Hp) as [Hp1 Hid]. rewrite E, <- (ti_root_num _ _ H1) in Hid.
    apply root_or_block_cases in Hp as [[_ ->]|[_ Hp]]; [lia|]. destruct (tree_above_root _ _ _ _ H1 Hp). lia. }
  assert (forall x b, i !! x = Some b -> previous b <> id n) as Hchild.
  { intros x b Hb E. destruct (ti_parent _ _ H1 _ _ Hb) as (q & Hq & _). rewrite E in Hq.
    apply root_or_block_cases in Hq as [[? _]|[_ Hq]]; congruence. }
  split; [|done]. split; try done.
  - by eapply block_tree_insert.
  - intros x b q Hx Hvb Hq. apply lookup_insert_Some in Hx as [[_ <-]|[_ Hx]]; [congruence|].
    rewrite lookup_insert_ne in Hq by (apply not_eq_sym; by eapply Hchild). by eapply (H3 x b q).
  - intros x b q Hx Hvb Hq. apply lookup_insert_Some in Hx as [[_ <-]|[_ Hx]]; [congruence|].
    rewrite root_or_block_insert in Hq by done. rewrite decide_False in Hq by (by eapply Hchild). by eapply (H4 x b q).
  - intros x b Hx. apply lookup_insert_Some in Hx as [[<- <-]|[_ Hx]]; [done|by apply H6].
Qed.

Lemma add_returns n f r : root f = Some r -> is_Some (add (Some n) false f).
Proof.
  intros Hr. unfold add, fork_database_impl_add, mbind, fdb_bind, fdb_get, fdb_lift, fdb_put, mret, fdb_ret.
  rewrite Hr, bool_decide_true by eauto. cbn [ine_assert]. rewrite bool_decide_true by eauto. cbn [ine_assert deref].
  rewrite (get_block_header_root _ r) by done. destruct (root_or_block _ _ _); [|by eexists]. destruct (index _ !! _); [by eexists|].
  destruct (best_block _) as [d|]; [destruct (validated d); by eexists|by eexists].
Qed.

Lemma add_throws n f f' r e : root f = Some r -> add (Some n) false f = Some (f', Err e) -> e <> undefined_behaviour.
Proof.
  intros Hr. unfold add, fork_database_impl_add, mbind, fdb_bind, fdb_get, fdb_lift, fdb_put, mret, fdb_ret.
  rewrite Hr, bool_decide_true by eauto. cbn [ine_assert]. rewrite bool_decide_true by eauto. cbn [ine_assert deref].
  rewrite (get_block_header_root _ r) by done. destruct (root_or_block _ _ _); [|by intros [= _ <-]]. destruct (index _ !! _) eqn:Hi; [by intros [= _ <-]|].
  destruct (best_block _) as [d|] eqn:Hb; [by destruct (validated d)|]. apply best_block_none in Hb. by apply insert_non_empty in Hb.
Qed.

Lemma add_new n f' f res : add (Some n) false f = Some (f', res) -> res = Ok tt -> index f !! id n = None.
Proof.
  intros Ha ->. unfold add, fork_database_impl_add, mbind, fdb_bind, fdb_get, fdb_lift, fdb_put, mret, fdb_ret in Ha.
  destruct (ine_assert _ _); [|done]. destruct (ine_assert _ _); [|done]. cbn [deref] in Ha. destruct (get_block_header _ _) as [[?|]|]; [|done..].
  by destruct (index f !! id n).
Qed.

Lemma add_synced c r h l st n f res :
  synced c r h l st -> fresh_block c r n -> add (Some n) false (fork_database c) = Some (f, res) ->
  (f = fork_database c /\ exists e, res = Err e) \/
  (res = Ok tt /\ index f = <[id n := n]> (blocks_of c) /\ blocks_of c !! id n = None /\ exists h', synced (with_forks c f) r h' l st).
Proof.
  intros Hs (Hv & Hn & Hsm & Hld) Ha. pose proof (add_new n f (fork_database c) res) as Hnew. unfold add in *. pose proof Hs as [F1 F2 F3 F4 F5 F6 F7 F8 F9 F10 F11].
  destruct (add_inv _ _ _ _ _ _ _ _ _ F1 Hn Ha) as [h' Hinv].
  destruct (add_cases _ _ _ _ _ _ _ _ (fi_root _ _ _ F1) Ha) as [[-> Hno]|(-> & Hnone & [p Hp] & d & _ & ->)].
  { left. destruct res as [[]|e]; [|eauto]. exfalso. auto. }
  clear Hnew. rename Hnone into Hnew. right. split; [done|]. split; [done|]. split; [done|]. exists h'. destruct (forest_insert _ _ _ _ _ F2 Hv Hn Hsm Hld Hp Hnew) as [F2' Hr]. split; cbn; try done.
  - rewrite root_or_block_insert by done. destruct (decide _) as [E|]; [|done].
    rewrite E in F3. apply root_or_block_cases in F3 as [[? _]|[_ F3]]; [done|congruence].
  - eapply path_mono; [|exact F5]. intros z b Hz. rewrite lookup_insert_ne; [done|congruence].
Qed.

Lemma pending_best c r h l st : synced c r h l st ->
  exists p, pending_head (fork_database c) = Ok (Some p) /\ best_pending c r h p.
Proof.
  intros Hs. pose proof Hs as [F1 F2 _ _ _ _ _ _ _ _ _]. pose proof (fo_tree _ _ _ F2) as Ht.
  destruct (pending_head_best _ _ _ F1) as (p & Hp & Hcase & Hbest). exists p. split; [done|].
  assert (root_or_block r (blocks_of c) (id h) = Some h) as Hh.
  { destruct (fi_best _ _ _ F1) as [[->|[Hi _]] _]; [apply root_or_block_root|]. unfold root_or_block.
    rewrite bool_decide_false; [done|]. intros E. by rewrite E, (tree_root_outside _ _ Ht) in Hi. }
  destruct Hcase as [->|(x & Hx & Hv)]; [split; [done|by left|done]|]. pose proof (ti_key _ _ Ht _ _ Hx) as Hid. subst x. split; [| |done].
  - unfold root_or_block. rewrite bool_decide_false; [done|]. intros E. by rewrite E, (tree_root_outside _ _ Ht) in Hx.
  - right. split; [done|]. unfold pending_head in Hp. rewrite (fi_head _ _ _ F1) in Hp. cbn [deref mbind result_bind] in Hp.
    assert (validated h = true) as Hvh by (destruct (fi_best _ _ _ F1) as [[->|[_ ?]] _]; [apply (proj1 (fo_root _ _ _ F2))|done]).
    destruct (best_unvalidated _) as [b|]; [destruct (first_preferred b h) eqn:E|]; injection Hp as ->; congruence.
Qed.

Lemma synced_trust c r h l st t :
  synced c r h l st -> (t = true -> block_validation_mode env = LIGHT) -> synced (with_trust c t) r h l st.
Proof. intros [F1 F2 F3 F4 F5 F6 F7 F8 F9 F10 F11] Ht. by split. Qed.

(** The controller while the block is pushed. *)
Definition pushing c (f : fork_db) (b : block_state) : controller :=
  with_trust (with_forks c f) (is_trusted_producer env b || trusted_producer_light_validation c).

Lemma pushing_synced c r h l st f b : synced (with_forks c f) r h l st -> synced (pushing c f b) r h l st.
Proof.
  intros Hs. apply synced_trust; [done|]. pose proof (sy_trust _ _ _ _ _ Hs) as Ht. cbn in Ht. unfold is_trusted_producer.
  rewrite (on_trusted _ node), orb_false_r. case_bool_decide; [done|]. exact Ht.
Qed.

Lemma push_block_run c r h l st b :
  synced c r h l st -> fresh_block c r b ->
  (exists e, push_block build env b c = Some (c, Err e) /\ e <> undefined_behaviour) \/
  exists f h' p res, add (Some b) false (fork_database c) = Some (f, Ok tt) /\
    index f = <[id b := b]> (blocks_of c) /\ blocks_of c !! id b = None /\ synced (pushing c f b) r h' l st /\
    best_pending (pushing c f b) r h' p /\ switched (pushing c f b) r h' p res /\
    push_block build env b c = match res with
      | Some (c', o) => Some (with_trust c' (trusted_producer_light_validation c), fc_capture_and_rethrow o)
      | None => None
      end.
Proof.
  intros Hs Hb. pose proof (sy_pending _ _ _ _ _ Hs) as Hpend.
  assert (is_Some (add (Some b) false (fork_database c))) as [[f res] Ha] by exact (add_returns _ _ _ (fi_root _ _ _ (sy_forks _ _ _ _ _ Hs))).
  destruct (add_synced _ _ _ _ _ _ _ _ Hs Hb Ha) as [[-> [e ->]]|(-> & Hi & Hnew & h' & Hs')].
  - left. unfold push_block, ctl_rethrow, reset_prod_light_validation. ctl_run. rewrite Hpend, Ha. cbn.
    pose proof (add_throws _ _ _ _ _ (fi_root _ _ _ (sy_forks _ _ _ _ _ Hs)) Ha). destruct (is_std_exception e); eexists; by destruct c.
  - right. apply (pushing_synced _ _ _ _ _ _ b) in Hs'. destruct (pending_best _ _ _ _ _ Hs') as (p & Hp & Hbp).
    exists f, h', p, (maybe_switch_forks build env p status_complete (pushing c f b)). split_and!; [done|done|done|done|done|by eapply maybe_switch_run|].
    unfold push_block, ctl_rethrow, reset_prod_light_validation. ctl_run. rewrite Hpend, Ha. cbn [negb ine_assert].
    change (pending_head f = Ok (Some p)) in Hp. rewrite bool_decide_false by exact mode. unfold pushing.
    destruct (is_trusted_producer env b); cbn [orb fork_database with_trust with_forks]; rewrite Hp; cbn [deref];
      by destruct (maybe_switch_forks _ _ _ _ _) as [[? ?]|].
Qed.

(** No block is preferred over the one that the controller has applied. *)
Record settled c (r h : block_state) (l : list block_state) (st : states) : Prop := {
  se_synced : synced c r h l st;
  se_best x b : blocks_of c !! x = Some b -> first_preferred b (ctl_head c) = false
}.

Lemma settled_trust c r h l st t :
  settled c r h l st -> (t = true -> block_validation_mode env = LIGHT) -> settled (with_trust c t) r h l st.
Proof. intros [Hs Hb] Ht. split; [by apply synced_trust|done]. Qed.

(** Nothing is built on the block that is pushed. *)
Lemma leaf i r n z : block_tree (<[id n := n]> i) r -> block_tree i r -> i !! id n = None -> id n <> id r ->
  reach (<[id n := n]> i) z (id n) -> z = id n.
Proof.
  intros Ht' Ht Hnew Hr [k Hk]. destruct (list.last k) as [a|] eqn:Ek; [|apply last_None in Ek as ->; by apply path_nil_inv in Hk].
  exfalso. pose proof (path_last _ _ _ _ _ Hk Ek) as Ea. destruct (path_blocks _ _ _ _ a Hk) as (y & Hy & _).
  { apply last_Some in Ek as [k' ->]. apply elem_of_app. right. left. }
  apply lookup_insert_Some in Hy as [[<- <-]|[_ Hy]].
  - destruct (ti_parent _ _ Ht' (id n) n) as (q & Hq & Hn); [apply lookup_insert_eq|]. rewrite Ea in Hq.
    apply root_or_block_cases in Hq as [[? _]|[_ Hq]]; [done|]. rewrite lookup_insert_eq in Hq. injection Hq as <-. lia.
  - destruct (ti_parent _ _ Ht _ _ Hy) as (q & Hq & _). rewrite Ea in Hq. apply root_or_block_cases in Hq as [[? _]|[_ Hq]]; congruence.
Qed.

(** The undefined behaviour needs a child of the head that is not preferred
    over it. *)
Lemma undefined_child i r n p l1 y :
  block_tree (<[id n := n]> i) r -> block_tree i r -> i !! id n = None -> id n <> id r ->
  path (<[id n := n]> i) p l1 y -> (2 <= length l1)%nat -> exists x q, i !! x = Some q /\ previous q = y.
Proof.
  intros Ht' Ht Hnew Hr Hp Hl. destruct l1 as [|p0 [|a l1]]; cbn in Hl; [lia..|]. inversion Hp as [|? ? ? ? Hp0 Hp1]; subst.
  destruct (path_avoid _ (id n) _ _ _ Hp1) as [Hre|Hdel].
  - exfalso. pose proof (leaf _ _ _ _ Ht' Ht Hnew Hr Hre) as Ez.
    assert (reach (<[id n := n]> i) p (id n)) as Hre' by (by eapply reach_step).
    pose proof (leaf _ _ _ _ Ht' Ht Hnew Hr Hre') as ->. rewrite lookup_insert_eq in Hp0. injection Hp0 as <-.
    destruct (ti_parent _ _ Ht' (id n) n) as (q & Hq & Hn); [apply lookup_insert_eq|]. rewrite Ez in Hq.
    apply root_or_block_cases in Hq as [[? _]|[_ Hq]]; [done|]. rewrite lookup_insert_eq in Hq. injection Hq as <-. lia.
  - rewrite delete_insert_id in Hdel by done. destruct (list.last (a :: l1)) as [q|] eqn:Eq; [|by apply last_None in Eq].
    destruct (path_blocks _ _ _ _ q Hdel) as (x & Hx & _); [|exists x, q; split; [done|by eapply path_last]].
    apply last_Some in Eq as [k' ->]. apply elem_of_app. right. left.
Qed.

(** A rejection leaves nothing that is preferred over the head. *)
Lemma rejected_best c r h l st b f h' p c' bad e :
  settled c r h l st -> synced (pushing c f b) r h' l st -> index f = <[id b := b]> (blocks_of c) ->
  best_pending (pushing c f b) r h' p -> rejected (pushing c f b) c' r h' bad e -> reach (index f) (id p) (id bad) ->
  forall x d, blocks_of c' !! x = Some d -> first_preferred d (ctl_head c') = false.
Proof.
  intros [Hs Hbest] Hs1 Hf [P1 P2 P3] [R1 [R2 R3] _ R4 _ _] Hreach x d Hd.
  pose proof (sy_forest _ _ _ _ _ Hs1) as F2. destruct R1 as (_ & -> & _). change (ctl_head (pushing c f b)) with (ctl_head c).
  change (blocks_of (pushing c f b)) with (index f) in *. apply R4 in Hd as (Hno & d0 & Hd0 & H1 & H2).
  assert (first_preferred d (ctl_head c) = first_preferred d0 (ctl_head c)) as ->.
  { apply preferred_flags; [|done]. apply dec_stable. intros Hne. apply Hne. rewrite H2; [done|]. intros Hre. by rewrite (H1 Hre) in Hne. }
  assert (validated p = false) as Hv.
  { destruct (validated p) eqn:Hv; [|done]. destruct Hreach as [k Hk]. pose proof (valid_below _ _ _ _ _ _ _ _ F2 Hk P1 Hv R2). congruence. }
  assert (index f !! id p = Some p) as Hp.
  { apply root_or_block_cases in P1 as [[_ ->]|[_ P1]]; [|done]. destruct (fo_root _ _ _ F2). congruence. }
  rewrite Hf in Hp, Hd0. apply lookup_insert_Some in Hd0 as [[<- <-]|[_ Hd0]]; [|by eapply Hbest].
  apply lookup_insert_Some in Hp as [[Eb _]|[_ Hp]]; [by rewrite Eb in Hno|]. eapply not_preferred_trans; [|by eapply Hbest].
  apply (P3 (id b)). rewrite Hf. apply lookup_insert_eq.
Qed.

(** The head of the fork database does not move when blocks are marked that are
    not preferred over it. *)
Lemma marked_heads_stay h good : (forall g, g ∈ good -> first_preferred g h = false) -> marked_heads h good = h.
Proof.
  induction good as [|g good IH]; intros H; [done|]. unfold marked_heads in *. cbn [foldl]. unfold marked_head at 2.
  rewrite H by left. rewrite andb_false_r. apply IH. intros g' Hg. apply H. by right.
Qed.

Lemma rejected_head c r h l st b f h' c' bad e :
  settled c r h l st -> synced (pushing c f b) r h' l st -> index f = <[id b := b]> (blocks_of c) -> blocks_of c !! id b = None ->
  rejected (pushing c f b) c' r h' bad e -> exists l' st', synced c' r h' l' st'.
Proof.
  intros [Hs Hbest] Hs1 Hf Hnew [_ [R2 _] _ _ _ (good & l' & st' & R5 & R6 & R7)]. exists l', st'. rewrite (marked_heads_stay h' good) in R5; [done|].
  change (blocks_of (pushing c f b)) with (index f) in *. change (ctl_head (pushing c f b)) with (ctl_head c) in *.
  pose proof (fo_tree _ _ _ (sy_forest _ _ _ _ _ Hs1)) as Ht1. cbn in Ht1. rewrite Hf in Ht1.
  pose proof (fo_tree _ _ _ (sy_forest _ _ _ _ _ Hs)) as Ht.
  assert (id b <> id r) as Hbr by (intros E; pose proof (tree_root_outside _ _ Ht1) as Ho; by rewrite <- E, lookup_insert_eq in Ho).
  intros g Hg. destruct (R7 g Hg) as [Hi Hre]. destruct R6 as [->|R6]; [by apply elem_of_nil in Hg|].
  destruct (fi_best _ _ _ (sy_forks _ _ _ _ _ Hs1)) as [_ Hb2]. apply (not_preferred_trans _ (ctl_head c)); [|eapply Hb2; [exact R6|apply (sy_valid _ _ _ _ _ Hs)]].
  rewrite Hf in Hi, Hre, R2. apply lookup_insert_Some in Hi as [[E _]|[_ Hi]]; [exfalso|by eapply Hbest].
  rewrite <- E in Hre. assert (reach (<[id b := b]> (blocks_of c)) (id bad) (id b)) as Hre2 by (by eapply reach_step).
  pose proof (leaf _ _ _ _ Ht1 Ht Hnew Hbr Hre) as E1. pose proof (leaf _ _ _ _ Ht1 Ht Hnew Hbr Hre2) as E2.
  destruct (ti_parent _ _ Ht1 _ _ R2) as (q & Hq & Hn). rewrite E1, <- E2 in Hq. apply root_or_block_cases in Hq as [[Er _]|[_ Hq]]; [congruence|].
  assert (q = bad) as -> by congruence. lia.
Qed.

(** What pushing a block does. *)
Inductive pushed c (r b : block_state) : option (controller (S := S) * outcome unit) -> Prop :=
| pu_moved c' r' h' l' st' new : settled c' r' h' l' st' -> block_log c' = new ++ block_log c -> pushed c r b (Some (c', Ok tt))
| pu_same e : e <> undefined_behaviour -> pushed c r b (Some (c, Err e))
| pu_rejected c' h' l' st' f bad e :
    settled c' r h' l' st' -> restored c c' -> trusted_producer_light_validation c' = trusted_producer_light_validation c ->
    add (Some b) false (fork_database c) = Some (f, Ok tt) -> index f !! id bad = Some bad -> validated bad = false -> invalid bad ->
    forgotten f (fork_database c') bad -> e <> undefined_behaviour -> pushed c r b (Some (c', Err e))
| pu_undefined c' x q :
    blocks_of c !! x = Some q -> previous q = id (ctl_head c) -> first_preferred q (ctl_head c) = false ->
    pushed c r b (Some (c', Err undefined_behaviour)).

Lemma rejected_pushed c r h l st b f h' p c' bad e e' :
  settled c r h l st -> add (Some b) false (fork_database c) = Some (f, Ok tt) -> synced (pushing c f b) r h' l st ->
  index f = <[id b := b]> (blocks_of c) -> blocks_of c !! id b = None -> best_pending (pushing c f b) r h' p ->
  rejected (pushing c f b) c' r h' bad e -> reach (index f) (id p) (id bad) -> e' <> undefined_behaviour ->
  pushed c r b (Some (with_trust c' (trusted_producer_light_validation c), Err e')).
Proof.
  intros Hse Ha Hs1 Hf Hnew Hbp Hrej Hreach He. pose proof (rejected_best _ _ _ _ _ _ _ _ _ _ _ _ Hse Hs1 Hf Hbp Hrej Hreach) as Hbest.
  destruct (rejected_head _ _ _ _ _ _ _ _ _ _ _ Hse Hs1 Hf Hnew Hrej) as (l' & st' & Hs'). pose proof (sy_forks _ _ _ _ _ Hs1) as G1. pose proof (sy_forks _ _ _ _ _ Hs') as G2.
  destruct Hrej as [R1 [R2 R3] R4 R5 _ _]. eapply (pu_rejected _ _ _ _ h' l' st' f bad); try done.
  - apply settled_trust; [by split|]. apply (sy_trust _ _ _ _ _ (se_synced _ _ _ _ _ Hse)).
  - split; [cbn; by rewrite (fi_root _ _ _ G2), <- (fi_root _ _ _ G1)|]. split; [cbn; by rewrite (fi_head _ _ _ G2), <- (fi_head _ _ _ G1)|exact R5].
Qed.

Lemma push_cases c r h l st b : settled c r h l st -> fresh_block c r b -> pushed c r b (push_block build env b c).
Proof.
  intros Hse Hb. pose proof Hse as [Hs Hbest].
  destruct (push_block_run _ _ _ _ _ _ Hs Hb) as [(e & -> & He)|(f & h' & p & res & Ha & Hf & Hnew & Hs1 & Hbp & Hsw & ->)]; [by constructor|].
  destruct Hsw as [c' r' h2 l' st' new S1 S2 S3 S4 S5|c' bad e Hrej Hreach|c' l1 Hp Hl].
  - cbn. eapply pu_moved; [apply settled_trust; [by split|]|exact S4]. apply (sy_trust _ _ _ _ _ Hs).
  - cbn. pose proof (rj_fc _ _ _ _ _ _ Hrej) as Hfc. destruct (is_std_exception e); eapply rejected_pushed; try done. by intros ->.
  - cbn. destruct (undefined_child (blocks_of c) r b (id p) l1 (id (ctl_head c))) as (x & q & Hx & Hq); [| |done| |by rewrite <- Hf|done|].
    + rewrite <- Hf. apply (fo_tree _ _ _ (sy_forest _ _ _ _ _ Hs1)).
    + apply (fo_tree _ _ _ (sy_forest _ _ _ _ _ Hs)).
    + intros E. pose proof (tree_root_outside _ _ (fo_tree _ _ _ (sy_forest _ _ _ _ _ Hs1))) as Ho. cbn in Ho. rewrite Hf, <- E, lookup_insert_eq in Ho. done.
    + by eapply pu_undefined; [..|eapply Hbest].
Qed.

(** ** Blocks that are produced or given up *)

(** A block that was started and is aborted leaves no trace. *)
Lemma abort_run c r h l st s b c1 o :
  synced c r h l st -> block_num (ctl_head c) + 1 < not_active ->
  (start_pending ;; build_block build env s b) c = Some (c1, o) -> abort_block c1 = Some (c, Ok tt).
Proof.
  intros [F1 F2 F3 F4 F5 F6 F7 F8 F9 F10 F11] Hsm. unfold start_pending, build_block. ctl_run. rewrite F8, F6. cbn. rewrite Z.eqb_refl. cbn. rewrite F7. cbn.
  destruct (build _ _ _ _ _) as [m x] eqn:Hb.
  assert (popped_blocks_to m (block_num (ctl_head c)) = Some (Ok (st (id (ctl_head c))).2)) as Hpop.
  { apply build_features in Hb. apply (good_step (block_num (ctl_head c))) in Hb; [by destruct Hb| |by eapply tree_num; [apply (fo_tree _ _ _ F2)|]|lia].
    by eapply valid_good. }
  assert (block_num (ctl_head c) + 1 - 1 = block_num (ctl_head c)) as Hrev by lia.
  destruct x as [x|e]; intros [= <- <-]; unfold abort_block; ctl_run; cbn; unfold popped_features; cbn; rewrite Hpop, Hrev;
    destruct c; cbn in *; unfold with_features; cbn; congruence.
Qed.

Lemma log_blocks_pending v bs : forall x c,
  log_blocks build env bs x (with_pending c v) = (fun '(c', o) => (with_pending c' v, o)) <$> log_blocks build env bs x c.
Proof.
  induction bs as [|b bs IH]; intros x c; cbn [log_blocks]; [done|]. unfold log_block. ctl_run. rewrite bool_decide_false by exact mode. by rewrite <- IH.
Qed.

(** The irreversible blocks do not depend on the pending block. *)
Lemma log_pending c v : log_irreversible build env (with_pending c v) = (fun '(c', o) => (with_pending c' v, o)) <$> log_irreversible build env c.
Proof.
  unfold log_irreversible. ctl_run. cbn [fork_database block_log with_pending]. destruct (ine_assert _ _); [|done]. destruct (deref (root _)) as [r|]; [|done].
  destruct (match block_log c with [] => _ | _ => _ end); [|done]. rewrite bool_decide_false by exact mode. destruct (deref (head _)) as [h|]; [|done].
  destruct (_ <=? _); [done|]. destruct (fetch_branch _ _ _) as [bs|]; [|done]. unfold log_branch. rewrite log_blocks_pending.
  destruct (log_blocks build env (reverse bs) (id r) c) as [[c1 [x [[]|e]]]|]; cbn; [| |done].
  - unfold advance_if_new. case_bool_decide; [done|]. ctl_run. cbn. by destruct (advance_root _ _) as [[? ?]|].
  - destruct (is_fc_exception e); [|done]. unfold advance_if_new. case_bool_decide; [done|]. ctl_run. cbn.
    by destruct (advance_root _ _) as [[? [[]|]]|].
Qed.

Lemma preferred_over a b d : first_preferred a b = false -> first_preferred d b = true -> first_preferred d a = true /\ first_preferred a d = false.
Proof.
  intros H1 H2. assert (first_preferred d a = true) as Ha.
  { destruct (first_preferred d a) eqn:E; [done|]. by rewrite (not_preferred_trans d a b E H1) in H2. }
  split; [done|]. destruct (first_preferred a d) eqn:E; [|done]. unfold first_preferred in *.
  rewrite ?orb_true_iff, ?andb_true_iff, ?negb_true_iff, ?Z.gtb_lt, ?Z.ltb_lt, ?Z.ltb_ge in *. lia.
Qed.

(** A block that is added and marked becomes the head of the fork database. *)
Lemma produced_head c r h l st b f h' :
  settled c r h l st -> synced (with_forks c f) r h' l st -> index f = <[id b := b]> (blocks_of c) -> validated b = false ->
  first_preferred b (ctl_head c) = true -> first_preferred b r = true -> marked_head b h' = set_validated true b.
Proof.
  intros [Hs Hbest] Hs1 Hf Hv Hb Hr. unfold marked_head. rewrite Hv. cbn.
  destruct (fi_best _ _ _ (sy_forks _ _ _ _ _ Hs1)) as [[->|[Hi Hvh]] _]; [by rewrite Hr|]. cbn in Hi. rewrite Hf in Hi.
  apply lookup_insert_Some in Hi as [[_ <-]|[_ Hi]]; [congruence|]. by rewrite (proj1 (preferred_over h' (ctl_head c) b (Hbest _ _ Hi) Hb)).
Qed.

(** A block is started and its transactions are run. *)
Abbreviation start s b := (start_pending ;; build_block build env s b).

(** The controller with a pending block on its head. *)
Definition with_pending_block c (x : S) (m : protocol_feature_manager) : controller :=
  with_pending (with_ctl_db (with_features c m) (mk_undo_db x (current (ctl_db c) :: saved (ctl_db c)) (block_num (ctl_head c) + 1))) true.

Lemma start_ok c r h l st s b c1 :
  synced c r h l st -> start s b c = Some (c1, Ok tt) ->
  exists m x, build (mode_at c s) (ctl_head c) b (state_at st c).1 (state_at st c).2 = (m, Ok x) /\ c1 = with_pending_block c x m.
Proof.
  intros [F1 F2 F3 F4 F5 F6 F7 F8 F9 F10 F11]. unfold start_pending, build_block. ctl_run.
  rewrite F8, F6. cbn. rewrite Z.eqb_refl. cbn. same_mode c. rewrite F7. cbn. destruct (build _ _ _ _ _) as [m [x|e]]; [|done].
  intros [= <-]. exists m, x. split; [done|]. unfold with_pending_block. by rewrite F6.
Qed.

Lemma commit_steps c r h l st b x m f g c3 :
  synced c r h l st -> block_num b = block_num (ctl_head c) + 1 ->
  add (Some b) false (fork_database c) = Some (f, Ok tt) -> mark_valid b f = Some (g, Ok tt) -> head g = Some (set_validated true b) ->
  log_irreversible build env (with_ctl_head (with_forks (applied c b x m) g) (set_validated true b)) = Some (c3, Ok tt) ->
  commit_block build env true b (with_pending_block c x m) = Some (with_pending c3 false, Ok tt).
Proof.
  intros Hs Hn Ha Hm Hg Hlog.
  assert (forall e, e ∈ l -> block_num e <= block_num (ctl_head c)) as Hnum by (intros e He; by eapply path_nums). destruct Hs as [F1 F2 F3 F4 F5 F6 F7 F8 F9 F10 F11].
  assert (reversible_blocks c !! block_num b = None) as Hfr.
  { rewrite F9. apply reversible_fresh. intros e He. specialize (Hnum e He). lia. }
  unfold commit_block, commit_with, catch_all, create_reversible_block. ctl_run. cbn. rewrite Ha. cbn. rewrite Hm. cbn. rewrite Hg. cbn.
  rewrite bool_decide_true by done. cbn. rewrite not_replaying, bool_decide_false by exact mode. cbn. rewrite bool_decide_true by done. cbn.
  match goal with |- context [log_irreversible build env ?d] =>
    replace d with (with_pending (with_ctl_head (with_forks (applied c b x m) g) (set_validated true b)) true) by (unfold applied; cbn; by rewrite Hn) end.
  rewrite log_pending, Hlog. done.
Qed.

(** A block that the fork database does not take is given up. *)
Lemma commit_refused c r h l st b c1 e :
  synced c r h l st -> block_num (ctl_head c) + 1 < not_active -> start status_incomplete b c = Some (c1, Ok tt) ->
  add (Some b) false (fork_database c) = Some (fork_database c, Err e) -> commit_block build env true b c1 = Some (c, Err e).
Proof.
  intros Hs Hsm Hst Ha. pose proof (abort_run _ _ _ _ _ _ _ _ _ Hs Hsm Hst) as Hab.
  destruct (start_ok _ _ _ _ _ _ _ _ Hs Hst) as (m & x & _ & ->). unfold commit_block, commit_with, catch_all. ctl_run.
  change (fork_database (with_pending_block c x m)) with (fork_database c). rewrite Ha.
  change (with_forks (with_pending_block c x m) (fork_database c)) with (with_pending_block c x m). by rewrite Hab.
Qed.

(** A produced block becomes the head, or it is given up. *)
Lemma produce_run c r h l st b c1 c' o :
  settled c r h l st -> fresh_block c r b -> previous b = id (ctl_head c) ->
  first_preferred b (ctl_head c) = true -> first_preferred b r = true ->
  start status_incomplete b c = Some (c1, Ok tt) -> commit_block build env true b c1 = Some (c', o) ->
  (c' = c /\ exists e, o = Err e) \/
  exists r' h' l' st' new, settled c' r' h' l' st' /\ block_log c' = new ++ block_log c /\ ctl_head c' = set_validated true b.
Proof.
  intros Hse Hb Hp Hpref Hprefr Hst Hrun. pose proof Hse as [Hs Hbest]. pose proof Hb as (Hv & Hnum & Hsm & _).
  assert (block_num b = block_num (ctl_head c) + 1) as Hn by (apply (Hnum (ctl_head c)); rewrite Hp; apply (sy_head _ _ _ _ _ Hs)).
  assert (is_Some (add (Some b) false (fork_database c))) as [[f res] Ha] by exact (add_returns _ _ _ (fi_root _ _ _ (sy_forks _ _ _ _ _ Hs))).
  destruct (add_synced _ _ _ _ _ _ _ _ Hs Hb Ha) as [[-> [e ->]]|(-> & Hf & Hnew & h' & Hs1)].
  { left. rewrite (commit_refused _ _ _ _ _ _ _ _ Hs ltac:(lia) Hst Ha) in Hrun. injection Hrun as <- <-. eauto. }
  right. destruct (start_ok _ _ _ _ _ _ _ _ Hs Hst) as (m & x & Hbu & ->).
  pose proof (produced_head _ _ _ _ _ _ _ _ Hse Hs1 Hf Hv Hpref Hprefr) as Hmh.
  assert (blocks_of (with_forks c f) !! id b = Some b) as Hib by (cbn; by rewrite Hf, lookup_insert_eq).
  assert (build (first_mode env) (ctl_head c) (set_validated true b) (state_at st c).1 (state_at st c).2 = (m, Ok x)) as Hfirst.
  { change (mode_at c status_incomplete) with (mk_build_mode true false false) in Hbu. apply (build_produced _ _ _ _ _ _ true) in Hbu.
    by apply (build_fewer _ (first_mode env) _ _ _ _ _ _ true) in Hbu. }
  pose proof (mark_run _ _ _ _ (sy_forks _ _ _ _ _ Hs1) Hib) as Hm. fold (marked_head b h') in Hm. rewrite Hmh in Hm.
  destruct (apply_mark_ok _ _ _ _ _ status_incomplete _ _ _ Hs1 Hib Hp Hbu Hfirst) as (c2 & Ha2 & Hs2 & Hh2 & Hi2 & Hg2). rewrite Hmh in Hs2.
  revert Ha2. unfold apply_and_mark. ctl_run. rewrite (apply_ok _ _ _ _ _ _ _ _ _ Hs1 Hn Hbu). cbn [fork_database applied]. rewrite Hm. intros [= Ec2].
  destruct (log_run _ _ _ _ _ Hs2) as (c3 & r' & l1 & l2 & Hlog & Hs3 & _ & Hh3 & Hg3 & Hsub); [by rewrite Hh2|].
  erewrite commit_steps in Hrun; [|exact Hs|exact Hn|exact Ha|exact Hm|done|rewrite <- Hlog, <- Ec2; reflexivity]. injection Hrun as <- <-.
  assert (with_pending c3 false = c3) as -> by (pose proof (sy_pending _ _ _ _ _ Hs3); destruct c3; cbn in *; by subst).
  exists r', (set_validated true b), l1, (with_state st (id b) x m), ((fun e => (block_num e, id e)) <$> l2). split_and!; [split; [done|]| |by rewrite Hh3].
  - intros y d Hd. rewrite Hh3, Hh2. apply (lookup_weaken _ _ _ _ Hd) in Hsub. rewrite Hi2 in Hsub. cbn in Hsub. rewrite Hf in Hsub.
    change (first_preferred d (set_validated true b)) with (first_preferred d b).
    apply lookup_insert_Some in Hsub as [[_ <-]|[Hne Hsub]]; [apply not_preferred; cbn; lia|]. rewrite lookup_insert_ne in Hsub by done.
    apply (preferred_over d (ctl_head c) b); [by eapply Hbest|done].
  - by rewrite Hg3, Hg2.
Qed.

(** ** The theorems *)

(** What happens to a controller between two calls: a block is pushed, or a
    block is produced on the head and committed, or a block that was started is
    aborted.  A push that ends in undefined behaviour is not a step, and a
    produced block is preferred over the head and over the root. *)
Inductive controller_step c c' : Prop :=
| step_push r b o : root (fork_database c) = Some r -> fresh_block c r b ->
    push_block build env b c = Some (c', o) -> o <> Err undefined_behaviour -> controller_step c c'
| step_produce r b c1 o : root (fork_database c) = Some r -> fresh_block c r b -> previous b = id (ctl_head c) ->
    first_preferred b (ctl_head c) = true -> first_preferred b r = true ->
    start status_incomplete b c = Some (c1, Ok tt) -> commit_block build env true b c1 = Some (c', o) -> controller_step c c'
| step_abort s b c1 o o' : block_num (ctl_head c) + 1 < not_active ->
    start s b c = Some (c1, o) -> abort_block c1 = Some (c', o') -> controller_step c c'.

Lemma step_settled c r h l st c' : settled c r h l st -> controller_step c c' ->
  exists r' h' l' st' new, settled c' r' h' l' st' /\ block_log c' = new ++ block_log c.
Proof.
  intros Hse Hstep. pose proof Hse as [Hs _]. pose proof (fi_root _ _ _ (sy_forks _ _ _ _ _ Hs)) as Hr.
  destruct Hstep as [r0 b o Hr0 Hb Hpush Ho|r0 b c1 o Hr0 Hb Hp Hh1 Hh2 Hst Hrun|s b c1 o o' Hn Hrun Hab].
  - assert (r0 = r) as -> by congruence. pose proof (push_cases _ _ _ _ _ _ Hse Hb) as Hc. rewrite Hpush in Hc. inversion Hc; subst; clear Hc.
    + by eauto 10.
    + exists r, h, l, st, []. done.
    + eexists r, _, _, _, []. split; [done|]. match goal with H : restored _ _ |- _ => by destruct H as (_ & _ & _ & _ & _ & ->) end.
    + done.
  - assert (r0 = r) as -> by congruence.
    destruct (produce_run _ _ _ _ _ _ _ _ _ Hse Hb Hp Hh1 Hh2 Hst Hrun) as [[-> _]|(r' & h' & l' & st' & new & ? & ? & _)]; [|by eauto 10].
    exists r, h, l, st, []. done.
  - rewrite (abort_run _ _ _ _ _ _ _ _ _ Hs Hn Hrun) in Hab. injection Hab as <- _. exists r, h, l, st, []. done.
Qed.

End sync.

Section theorems.
Context {S : Type}.
Context (build : build_mode -> block_state -> block_state -> S -> protocol_feature_manager -> protocol_feature_manager * outcome S).
Context `{BB : !BlockBody build}.
Context (env : controller_env).
Implicit Types (c : controller (S := S)).

(** C3: On a node that is neither in irreversible mode nor replaying, that
    trusts no single producer and does not combine light validation with forced
    checks, whatever sequence of blocks is pushed, produced or given up, on
    whatever forks, the parts of the controller stay in step: the database and
    the protocol features are those after the block at its head, with one undo
    session and one reversible block for each block above the root of the fork
    database, the block log ends at that root, no block is pending, and no
    block of the fork database is preferred over the head; the block log only
    grows.  Pushed blocks are numbered as their headers make them, a produced
    block is preferred over the head and the root, and no push ends in the
    undefined behaviour of [empty_branch_back]. *)
Theorem controller_stays_in_step c r h l st c' :
  ordinary_node env -> settled build env c r h l st -> rtc (controller_step build env) c c' ->
  exists r' h' l' st' new, settled build env c' r' h' l' st' /\ block_log c' = new ++ block_log c.
Proof.
  intros Hnode Hse Hsteps. revert r h l st Hse. induction Hsteps as [c|c c1 c' Hstep _ IH]; intros r h l st Hse; [by exists r, h, l, st, []|].
  destruct (step_settled _ _ Hnode _ _ _ _ _ _ Hse Hstep) as (r1 & h1 & l1 & st1 & new1 & Hse1 & Hg1).
  destruct (IH _ _ _ _ Hse1) as (r2 & h2 & l2 & st2 & new2 & Hse2 & Hg2).
  exists r2, h2, l2, st2, (new2 ++ new1). split; [done|]. by rewrite Hg2, Hg1, app_assoc.
Qed.

(** C11: On such a node, a push that throws changes nothing but the fork
    database: the database, the head, the features, the reversible blocks and
    the log are as before, also where forks had been switched.  Either the
    block was not added and the fork database is as it was.  Or it was added,
    and a block of the fork database that cannot be applied is forgotten
    together with exactly the blocks that were built on it; the blocks below it
    are marked as valid and the others, the root and the head of the fork
    database are as the addition left them. *)
Theorem rejected_push_restores c r h l st b c' e :
  ordinary_node env -> settled build env c r h l st -> fresh_block env c r b ->
  push_block build env b c = Some (c', Err e) -> e <> undefined_behaviour ->
  restored c c' /\ trusted_producer_light_validation c' = trusted_producer_light_validation c /\
  (fork_database c' = fork_database c \/
   exists f bad, add (Some b) false (fork_database c) = Some (f, Ok tt) /\
     index f !! id bad = Some bad /\ validated bad = false /\ invalid build env bad /\ forgotten f (fork_database c') bad).
Proof.
  intros Hnode Hse Hb Hpush He. pose proof (push_cases _ _ Hnode _ _ _ _ _ _ Hse Hb) as Hc. rewrite Hpush in Hc. inversion Hc; subst; clear Hc.
  - split; [done|]. split; [done|]. by left.
  - split; [done|]. split; [done|]. right. by eauto 10.
  - done.
Qed.

(** C23: On such a node, where no child of the head has a smaller irreversible
    number than the head, pushing a block always comes to an end without
    undefined behaviour, and after it no block of the fork database is preferred
    over the head. *)
Theorem push_block_total c r h l st b :
  ordinary_node env -> settled build env c r h l st -> fresh_block env c r b ->
  (forall x q, index (fork_database c) !! x = Some q -> previous q = id (ctl_head c) ->
     dpos_irreversible_blocknum (ctl_head c) <= dpos_irreversible_blocknum q) ->
  exists c' o, push_block build env b c = Some (c', o) /\ o <> Err undefined_behaviour /\
    forall x d, index (fork_database c') !! x = Some d -> first_preferred d (ctl_head c') = false.
Proof.
  intros Hnode Hse Hb Hmono. pose proof (push_cases _ _ Hnode _ _ _ _ _ _ Hse Hb) as Hc.
  destruct Hc as [c' r' h' l' st' new [_ Hbest]|e He|c' h' l' st' f bad e [_ Hbest] _ _ _ _ _ _ _ He|c' x q Hx Hq Hn].
  - by exists c', (Ok tt).
  - exists c, (Err e). split; [done|]. split; [congruence|apply Hse].
  - exists c', (Err e). split; [done|]. split; [congruence|done].
  - exfalso. specialize (Hmono x q Hx Hq). destruct Hse as [Hs _]. pose proof (fo_tree _ _ _ _ _ (sy_forest _ _ _ _ _ _ _ Hs)) as Ht.
    rewrite <- (ti_key _ _ Ht _ _ Hx) in Hx. destruct (child_num _ _ _ _ _ _ _ _ Hs Hx Hq) as (_ & Hnum & _). apply not_preferred in Hn. lia.
Qed.

End theorems.

(** ** An example *)

(** The state is the list of the applied blocks; the block [bad] is invalid, and
    [unsigned] lacks an authorization. *)
Definition checked_build (bad unsigned : sha256) (o : build_mode) (h b : block_state) (st : list sha256) (m : protocol_feature_manager) :
  protocol_feature_manager * outcome (list sha256) :=
  (m, if bool_decide (id b = bad) then Err (Throw block_validate_exception)
      else if bool_decide (id b = unsigned) && negb (skipping_auth o) then Err (Throw unsatisfied_authorization)
      else Ok (id b :: st)).

#[export] Instance checked_body bad unsigned : BlockBody (checked_build bad unsigned).
Proof.
  split; unfold checked_build.
  - intros o h b st m m' r [= <- _]. apply rtc_refl.
  - intros o h b st m m' e. case_bool_decide; [by intros [= _ <-]|]. destruct (_ && _); by intros [= _ <-].
  - intros o o' h b st m m' st' v (_ & _ & Ha & _). cbn [id set_validated]. case_bool_decide; [done|]. case_bool_decide; [|done].
    destruct (skipping_auth o); [by rewrite Ha|done].
  - intros h b st m m' st' v H. exact H.
Qed.

Abbreviation example_build bad := (checked_build bad bad).

Definition example_env : controller_env :=
  mk_controller_env SPECULATIVE false (fun _ => true) 1 FULL false false (fun _ => false).

Lemma example_node : ordinary_node example_env.
Proof. by split. Qed.

Definition fork_block (n k parent lib : Z) : block_state := mk_block_state (example_id n k) (example_id (n - 1) parent) n lib n None [] false.

Definition controller_at_root : controller (S := list sha256) :=
  mk_controller (mk_undo_db [] [] 1) false ex_root (reset ex_root) ∅ example_manager [(1, id ex_root)] false.

Lemma root_settled bad : settled (example_build bad) example_env controller_at_root ex_root ex_root [] (fun _ => ([], example_manager)).
Proof.
  assert (good_manager 1 example_manager) as Hg.
  { split; [done|]. exists []. split; [|constructor]. apply (new_manager_ok example_set true). by eapply feature_set_reachable, example_set_reachable. }
  assert (forall x b, index (reset ex_root) !! x = Some b -> False) as He by (intros x b Hx; cbn in Hx; by rewrite lookup_empty in Hx).
  assert (fork_inv (reset ex_root) ex_root ex_root) as Hf by (by apply (reset_inv ex_root)). split; [|by intros x b ?%He]. split; try done.
  constructor.
Qed.

Definition pushed_to (bad : sha256) (c : controller (S := list sha256)) (b : block_state) : controller :=
  match push_block (example_build bad) example_env b c with Some (c', _) => c' | None => c end.

Lemma fresh_example (c : controller (S := list sha256)) r b :
  validated b = false -> block_num b < not_active ->
  match root_or_block r (index (fork_database c)) (previous b) with
  | Some p => block_num b = block_num p + 1 /\ block_num b = num_from_id (id b)
  | None => True
  end -> fresh_block example_env c r b.
Proof. intros Hv Hn H. split_and!; [done| |done|done]. intros p Hp. by rewrite Hp in H. Qed.

(** Two blocks on the root, of which the first is the head; a child of each,
    and that of the second is invalid. *)
Definition fork_2a : block_state := fork_block 2 0 0 0.
Definition fork_2b : block_state := fork_block 2 1 0 0.
Definition fork_3a : block_state := fork_block 3 0 0 2.
Definition fork_3b : block_state := fork_block 3 1 1 1.
Abbreviation invalid_3b := (example_build (id fork_3b)).
Definition forked : controller := pushed_to (id fork_3b) (pushed_to (id fork_3b) controller_at_root fork_2a) fork_2b.

Ltac example_push r b o := apply (step_push _ _ _ _ r b o); [vm_compute; reflexivity|apply fresh_example; by vm_compute|vm_compute; reflexivity|done].

Lemma forked_steps : rtc (controller_step invalid_3b example_env) controller_at_root forked.
Proof.
  apply (rtc_l _ _ (pushed_to (id fork_3b) controller_at_root fork_2a)); [example_push ex_root fork_2a (Ok tt : outcome unit)|].
  apply rtc_once. example_push ex_root fork_2b (Ok tt : outcome unit).
Qed.

Lemma forked_settled : exists h l st, settled invalid_3b example_env forked ex_root h l st.
Proof.
  assert (exists r h l st, settled invalid_3b example_env forked r h l st) as (r & h & l & st & Hs).
  { assert (forall c c' : controller, rtc (controller_step invalid_3b example_env) c c' ->
      (exists r h l st, settled invalid_3b example_env c r h l st) -> exists r h l st, settled invalid_3b example_env c' r h l st) as Hind.
    { intros c c' Hst. induction Hst as [c|c c1 c' H1 _ IH]; [done|]. intros (r & h & l & st & Hs). apply IH.
      destruct (step_settled invalid_3b example_env example_node _ _ _ _ _ _ Hs H1) as (r1 & h1 & l1 & st1 & new & Hs1 & _). by eauto. }
    eapply Hind; [exact forked_steps|]. eexists _, _, _, _. apply root_settled. }
  pose proof (fi_root _ _ _ (sy_forks _ _ _ _ _ _ _ (se_synced _ _ _ _ _ _ _ Hs))) as Hr.
  assert (root (fork_database forked) = Some ex_root) as Hr' by by vm_compute. rewrite Hr' in Hr. injection Hr as <-. by eauto.
Qed.

Definition after_3b : controller := pushed_to (id fork_3b) forked fork_3b.

Lemma controller_stays_in_step_witness :
  let c := pushed_to (id fork_3b) after_3b fork_3a in
  block_log c = [(2, id fork_2a); (1, id ex_root)] /\
  exists r h l st new, settled invalid_3b example_env c r h l st /\ block_log c = new ++ [(1, id ex_root)].
Proof.
  split; [by vm_compute|].
  apply (controller_stays_in_step invalid_3b example_env controller_at_root ex_root ex_root [] (fun _ => ([], example_manager)));
    [exact example_node|..].
  - apply root_settled.
  - etrans; [exact forked_steps|]. apply (rtc_l _ _ after_3b); [|apply rtc_once].
    + example_push ex_root fork_3b (Err fc_exception : outcome unit).
    + example_push ex_root fork_3a (Ok tt : outcome unit).
Defined.

Lemma rejected_push_restores_witness :
  restored forked after_3b /\ trusted_producer_light_validation after_3b = trusted_producer_light_validation forked /\
  (fork_database after_3b = fork_database forked \/
   exists f bad, add (Some fork_3b) false (fork_database forked) = Some (f, Ok tt) /\
     index f !! id bad = Some bad /\ validated bad = false /\ invalid invalid_3b example_env bad /\ forgotten f (fork_database after_3b) bad).
Proof.
  destruct forked_settled as (h & l & st & Hs).
  apply (rejected_push_restores invalid_3b example_env _ _ _ _ _ _ _ fc_exception example_node Hs);
    [apply fresh_example; by vm_compute|by vm_compute|done].
Defined.

Lemma push_block_total_witness :
  exists c' o, push_block invalid_3b example_env fork_3b forked = Some (c', o) /\ o <> Err undefined_behaviour /\
    forall x d, index (fork_database c') !! x = Some d -> first_preferred d (ctl_head c') = false.
Proof.
  destruct forked_settled as (h & l & st & Hs).
  apply (push_block_total invalid_3b example_env _ _ _ _ _ _ example_node Hs); [apply fresh_example; by vm_compute|].
  intros x q Hx Hq. assert (map_Forall (fun _ q => dpos_irreversible_blocknum (ctl_head forked) <= dpos_irreversible_blocknum q) (index (fork_database forked))) as Hall.
  { apply map_Forall_to_list. vm_compute. repeat constructor; congruence. }
  exact (Hall x q Hx).
Defined.

(** A head with a child of a smaller irreversible number, as a new schedule can
    have it: when a block on that child is invalid, the vector of the blocks
    to go back to is empty and its last element is taken. *)
Example empty_branch_back :
  let bad := fork_block 4 0 0 1 in
  let c := foldl (pushed_to (id bad)) controller_at_root [fork_block 2 0 0 1; fork_block 3 0 0 0] in
  ctl_head c = set_validated true (fork_block 2 0 0 1) /\
  exists c', push_block (example_build (id bad)) example_env bad c = Some (c', Err undefined_behaviour).
Proof. split; [by vm_compute|]. eexists. vm_compute. reflexivity. Qed.

(** Light validation with forced checks: a block that was accepted without the
    checks of its authorizations fails when it is applied again after a switch
    that failed, and the controller is left where the branches meet. *)
Definition light_env : controller_env :=
  mk_controller_env SPECULATIVE false (fun _ => true) 1 LIGHT true false (fun _ => false).

Example forced_checks_break_reapply :
  let push c b := match push_block (checked_build (id fork_3b) (id fork_2a)) light_env b c with Some (c', _) => c' | None => c end in
  let c := push (push controller_at_root fork_2a) fork_2b in
  ctl_head c = set_validated true fork_2a /\
  exists c', push_block (checked_build (id fork_3b) (id fork_2a)) light_env fork_3b c = Some (c', Err (Throw unsatisfied_authorization)) /\
    ctl_head c' = ex_root.
Proof. split; [by vm_compute|]. eexists. split; [vm_compute; reflexivity|done]. Qed.
